(* ===== verification/_CoqProject ===== *)
-Q . S2P
Prelude.v
Varint.v
Reader.v
Frame.v
Payloads.v
Utf8.v
Snapshot.v
Checkpoint.v
Base64.v
Sanitizer.v
SanitizerSpec.v
SanitizerReplay.v
SanitizerPolicy.v
Ring.v
FlowGate.v
PtySession.v
TitleFilter.v
GoStrings.v
QueueModel.v
QueueStore.v
QueueInvariant.v
QueueRecovery.v
QueueProperties.v
Landing.v
LandingScore.v
Redis.v
LandingProg.v
LandingQueue.v
LandingDispatch.v
LandingTriple.v
LandingRefine.v
LandingGit.v
LandingWorker.v
LandingSafety.v
LandingLock.v
LandingAdapter.v
BigEndian.v
ShimWire.v
ShimPayloads.v
ShimControl.v
SnapshotBound.v
Continuation.v
GoSort.v
ShimRecord.v
Fence.v
DaemonFence.v
ProcIdentity.v
Registry.v
RegistryProperties.v
ShimDial.v
Adopt.v
AdoptDemo.v
AdoptProperties.v
Adoption.v
AdoptRetry.v
ShimResume.v
ShimLife.v
ShimMachine.v
ShimMachineProperties.v
ShimLifecycle.v
EventBacklog.v
BacklogProperties.v
Backlog.v
ControllerCalls.v
ControllerStream.v
ControllerRun.v
Controller.v
ControllerDemo.v
SeatState.v
