(* ===== verification/Prelude.v ===== *)
(** * Donmai: interactive attach, session shims, the local queue and landing

    Donmai runs coding agents on a host and lets people watch and drive them.  An
    agent session is a child on a pseudo-terminal; its host numbers every event of
    the session, keeps the recent ones in a ring, and delivers them to subscribers
    (viewers, the relay, a recorder) as binary frames; a viewer that attaches late
    starts from a screen snapshot or a continuation checkpoint; what the child
    prints is untrusted and is filtered before it reaches a viewer's terminal.  A
    session outlives the daemon that started it in a shim process: the daemon finds
    its shims again through files in a registry directory, speaks a framed protocol
    with them, and fences its sessions before it restarts.  In local mode the host is
    also the authority that admits sessions for GitHub issues, in an append-only
    journal; and it lands finished pull requests, one serialized stream per repository
    with a queue in Redis.  This library models those parts from the Go sources under [src/] and
    proves what they promise each other.

    ** The wire ([src/attachwire])

    - [Varint]: [varint.go].  Canonical LEB128 on 64-bit integers.
    - [Reader]: [codec.go].  The bounds-checked cursor as a parser monad, with its
      two logics: [reads] (what it returns on an encoding) and [wp]/[tot] (it never
      panics, and what it returned came from the bytes).
    - [Frame]: [frame.go], [sequence.go].  The frame codec; the class [WireCodec] is the
      interface the payload codecs implement.
    - [Payloads]: [payloads.go], [exit.go].  The typed payloads.
    - [Utf8]: [validateRuneBytes] of [snapshot.go] and [sanitize/uistring.go] on a
      model of [unicode/utf8].
    - [Snapshot]: [snapshot.go].  The screen codec, with the grid size computed in
      64-bit arithmetic before anything is allocated.
    - [Checkpoint]: [checkpoint.go].  The continuation checkpoint, whose decoder
      checks the boundary between a snapshot and the stream that follows it.
    - [Base64]: [degraded.go].  One element of the degraded transport.

    The theorems: encoding then decoding is the identity on well-formed values; what
    a decoder accepts is well-formed and, where the format is canonical, is the
    encoding of what it returns; every input gives a value or a framing error, never
    a panic; trailing bytes, unknown types and bad flags are refused.

    ** The output sanitizer ([src/attachwire/sanitize/sanitize.go])

    - [Sanitizer]: the byte machine, one definition per method; [Write] loops over
      the bytes and redispatches a byte at most [redispatch_fuel] times, and
      [SanitizerSpec.step_refines] shows four are enough (each redispatch goes to a
      state of lower rank).
    - [SanitizerSpec]: the grammar [tok] of what may leave the machine, and the
      state invariant.
    - [SanitizerReplay]: the machine refines the grammar; chunking does not matter;
      the output is a fixed point under caps that fit it.
    - [SanitizerPolicy]: nothing in the output makes a terminal answer, switch to
      VT52 or set the clipboard except through the hook.

    ** The session host ([src/ptyhost])

    - [Ring], [FlowGate]: [ring.go], [flowcontrol.go].  The replay ring, a
      subscription with its pump goroutine (one transition per critical section),
      the gate that pauses the child's output when a subscriber is saturated.
    - [PtySession]: [session.go].  The session as a step relation over the
      operations of the API and the goroutines; its invariant by rule induction.
    - [TitleFilter]: [osc_title_filter.go].  The filter before the emulator.

    The theorems: every live subscriber gets every frame from its position, in order
    and without loss, or is closed; sequence numbers and times of the stream are
    well-formed and nothing follows the exit; the gate's counts are those of the
    subscribers and a pause always ends.

    ** The session queue ([src/internal/localqueue])

    - [QueueModel]: [types.go], [validation.go] and the evidence checks of
      [transactions.go]; the standard library and the execution-cell decoders are
      the fields of [Externals], and [ExternalLaws] what is relied on.
    - [QueueStore]: [store.go], [journal.go], [transactions.go].  The replay state
      machine [applyTransaction], the commit, recovery, every operation and query.
    - [QueueInvariant]: the invariant of the store and the order [extends].
    - [QueueRecovery]: commits keep the files replayable whatever the environment
      does.
    - [QueueProperties]: crash recovery, soundness of replay, monotonicity, fencing
      of attempts, single admission and single terminal result, and the hash chain.

    ** The landing serializer ([src/landing])

    - [Landing]: the Redis key construction of [queue.go] and the conflict graph of
      [conflictgraph.go].
    - [LandingScore]: [encodeScore] of [queue.go] in binary64 arithmetic, as integers
      in units of [2^-53].
    - [Redis]: the commands the queue uses, as one function of the value of a key
      ([cmd_spec]); the class [RedisServer] is a server that obeys it, with
      [mem_server] its instance in memory; transactions and Lua scripts are atomic.
    - [LandingProg]: an operation is a tree of calls ([prog]): Redis requests, commands,
      files, clock, [gh].  [wp] quantifies over every answer, [par] interleaves programs
      by a schedule, [run] executes one against a server and an environment in which
      each request or its reply may be lost.
    - [LandingQueue]: [queue.go], [adapter_local.go].  Every operation of [RedisStorage]
      and of [LocalAdapter].
    - [LandingGit]: [strategies/], [conflictresolver.go], [lockfile.go],
      [filemanifest.go], [branchconflict.go].  The commands they run and what they make
      of the answers.
    - [LandingWorker]: [worker.go], [pool.go].  Landing one entry, recording its
      disposition, the coordinator lock, the worker loop and the parallel pool.
    - [LandingDispatch], [LandingTriple], [LandingRefine], [LandingSafety], [LandingLock],
      [LandingAdapter]: the properties.

    The theorems: the operations of the queue refine a list sorted by priority and
    arrival, for priorities from -8 to 7 and the first [2^24] enqueues, the range in
    which [score_order] shows that scores do not collide; under any interleaving and
    any loss of requests and replies a proposal is handed out at most as often as it
    was enqueued; whatever the commands answer, the target branch is pushed only after
    the landing strategy succeeded or its conflict was resolved and, where a test
    command is configured, after the tests passed; proposals landed in parallel have
    known and disjoint change sets and worktrees of their own; the retries of a landing
    are bounded by its backoffs; as long as a lease runs no other coordinator acquires
    or releases the lock; streams of different tenants use different keys as long as
    their names have no colon.  The loops of the worker and the pool have no bound in
    the code: the model runs them for a given number of rounds (a schedule per round
    for the pool) and the theorems hold for every number.

    ** The shim protocol ([src/shimwire])

    - [BigEndian]: [encoding/binary] big-endian integers.
    - [ShimWire]: [errors.go], [message.go], [version.go], [codec.go].  Message
      types, which versions and profiles admit them, negotiation, the writer over a
      sink that may fail part-way and the reader over a byte stream.
    - [ShimPayloads]: the binary bodies of [payloads.go] and [checkpoint.go].
    - [ShimControl]: the JSON bodies with rules of their own ([EncodeHello] and its
      extensions, credential and headless-exit messages); [encoding/json] is a
      parameter.

    The theorems: what a writer sent is what a reader gets, message by message, or
    an error; a length, type or version outside the rules is refused before the body
    is read; a headless stream carries no interactive message; every binary body is
    accepted exactly when it is the encoding of the value it decodes to.

    ** The shim and its files ([src/sessionshim])

    - [SnapshotBound]: [snapshotbound.go] and the snapshot writers of [shim.go].  The
      longest suffix of the scrollback that fits in a message, by binary search
      ([search], whose fuel is the length of the interval).
    - [Continuation]: [checkpoint.go].  A checkpoint requested by the controller,
      sent in chunks and reassembled against its digest.
    - [GoSort]: [sort.Slice] and [sort.Strings] as a merge sort by a strict order.
    - [ShimRecord]: [identity.go], [headless.go], [record.go].  Identities, file names
      (SHA-256 is a parameter), discovery records and tombstones.
    - [Fence]: [orphan.go], [fence.go].  The orphan deadline on 64-bit durations, the
      restart fence, the evidence that releases a claim.
    - [DaemonFence]: [quarantine.go] and the fence half of [daemon/session_shim.go].
    - [ProcIdentity]: [procid.go], [procid_convert.go], [procid_linux.go].  Process
      identity from the text of the [/proc] files, which are parameters.
    - [Registry], [RegistryProperties]: [registry.go], [ack.go], [absence.go],
      [flowcontrol.go], [seat.go], [session.go].  A directory of files; every system
      call consumes one entry of a list of faults and fails before or after its
      effect accordingly, so a theorem over all fault lists covers every error return
      and every crash.
    - [ShimResume]: [resume] of [shim.go].  The replay answer to an adopting
      controller, run on [PtySession] with the session moving between its calls.
    - [ShimLife]: [shim.go], [keepalive.go], [headless_serve.go].  The critical sections
      on the state under [s.mu] ([Life]) and under [s.recordMu] ([Recorded], with the
      directory of [Registry]).
    - [ShimMachine]: the goroutines of a shim.  A [task] is a point a goroutine has
      reached, [exec] one section of it, [step] the interleaving with time, timers,
      connections, the harness and other users of the directory.
    - [ShimMachineProperties], [ShimLifecycle]: the invariants of [step], and the
      theorems about every history of a shim.
    - [ShimDial]: [Dial] of [controller.go].  How a daemon takes control of a shim: the
      operating system, the connection and the embedder's callbacks are the operations
      of the class [AdoptEnv] on a state of any type, and every call is logged.
    - [Adopt]: [adopt.go].  The startup pass over the registry: tombstones, duplicate
      identities, liveness, the dial with its retries and preparation, the result.
    - [AdoptDemo], [AdoptProperties], [Adoption], [AdoptRetry]: a host for concrete runs;
      a logic of what a call adds to the log; the theorems.
    - [EventBacklog]: [eventBacklog] of [controller.go].  The bounded hand-off of events
      from the reader of a connection to its consumer, one definition per critical
      section; [step] interleaves the goroutines, and the reader may be late by [delta].
    - [BacklogProperties], [Backlog]: the invariant of [step], and the theorems.
    - [ControllerCalls]: the ledgers of [controller.go] for snapshot requests, credential
      rotations and heartbeats.  A channel that is closed twice is a panic.
    - [ControllerStream]: [readLoop] of [controller.go].  [on_message] takes one message and
      goes on, ends, or hands an event to [publishEvent]; [after_publish] is what follows.
    - [ControllerRun]: [sys_step] interleaves the loop, the calls of the users, the backlog
      and its dispatcher.
    - [Controller], [ControllerDemo]: the theorems, and runs.

    The theorems: what the decoders of the files accept is well-formed, and files
    read back; a record is withdrawn only after the proof that replaces it is
    durable; the epoch floor never sinks; a fence covers exactly the sessions of the
    request, and a claim on a session is released only by a proof for every lineage
    the daemon or the fence knows; a process reported alive is the recorded one; an
    orphan stops before an outside agent may release its claim.  An adopted controller
    is told of every frame it will not get.  However the goroutines of a shim
    interleave, a shim without a controller is bounded by a deadline that ends the
    session, an announced deadline is kept, generations fence superseded controllers,
    a session declared ended is not published as live again, and an acknowledgement
    that was answered is durable.  Whatever shims and callbacks answer, a daemon that
    starts accounts for every entry of the registry, proposes authority only to the
    shim a record describes and with a higher generation, leaks no connection, and
    bounds the dials, the time and the preparations of a record.  The events of an
    adopted connection reach the consumer in order and within a bound on memory; a slow
    consumer costs the connection only after it was behind for the whole drop bound, and
    the reader is not held for longer than the bounds allow.  Whatever bytes a shim sends,
    the frames that reach the consumer are numbered without a hole from the replay point,
    with nothing after the Exit and a gap only where the handshake announced one; a
    heartbeat that succeeds was answered by its own receipt, and on an orderly connection a
    late receipt is never refused.

    ** The seat report ([src/daemon/seatstate])

    - [SeatState]: [state.go], [arbiter.go], [report.go].  What a host says about a seat from
      the probes that ran: the highest conclusive rung decides, in whatever order the
      evidence came; a report is well-formed and claims no activity of a seat that is gone;
      the summary counts every seat once per axis.

    ** Conventions

    [GoStrings] has the string functions the queue and the serializer use.  Where a
    component talks to another through an interface, the interface is a class
    ([WireCodec], [RedisServer], [AdoptEnv]) or a record of operations with its laws ([Externals] and
    [ExternalLaws]), and the theorems of the client are proved against it.

    Integers are [Z] with their width written out ([u8], [u64], [i64]); a slice of
    bytes is a list of [Z]; an [outcome] is a value, an error or a panic.  A loop is
    structural recursion on the list it consumes; where it is not (redispatch of a
    byte, the chunking of an output write) it has fuel that a
    lemma shows sufficient.  Mutexes are modelled by the granularity of the steps.

    ** Not modelled

    The JSON control plane ([control.go]) and continuation transport of the attach
    wire, the floating-point token bucket ([backpressure.go]), the terminal emulator
    ([internal/terminalvt]), processes, pty devices and locks, the network clients,
    the output pump and the request ledgers of a shim's connection, the input, resize and
    stop messages of a controller, the waits on contexts, and the launch of shims
    ([launch.go], [owner_lifetime.go]),
    what git and the package managers do to a repository, the hardening of the
    environment of a command ([landing/strategies/runner.go]), proposals made through
    the GitHub API ([landing/vcs]),
    and the rest of the daemon, the runner, provider, CLI and installer code.  A
    timeout of a landing is a command that fails.  The
    JSON encoding of journal payloads is taken as the identity, and strings as valid
    UTF-8; the JSON codecs of the shim and of its files are parameters with the
    round-trip law of [encoding/json].

    Next: the request ledgers of a shim's connection, owner lifetime, the seat budget
    ([daemon/seatbudget]), the merge-group policy, the
    continuation transport, [landing/vcs]. *)

From Stdlib Require Export ZArith Lia.
From Stdlib Require Import Ascii String.
From stdpp Require Export base list numbers option strings.

#[export] Set Default Goal Selector "!".

Declare Scope go_scope.
Delimit Scope go_scope with go.

(** ** Go integers

    A [w]-bit unsigned integer is a [Z] in [0, 2^w); [u8], [u32], [u64] are the
    conversions [uint8(x)], [uint32(x)], [uint64(x)] (truncation modulo 2^w) and
    [i64] is the conversion [int(x)] on a 64-bit platform. *)

Open Scope Z_scope.

Definition u8 (x : Z) : Z := x mod 2 ^ 8.
Definition u32 (x : Z) : Z := x mod 2 ^ 32.
Definition u64 (x : Z) : Z := x mod 2 ^ 64.
Definition i64 (x : Z) : Z := (x + 2 ^ 63) mod 2 ^ 64 - 2 ^ 63.

Definition u8_ok (x : Z) : Prop := 0 <= x < 2 ^ 8.
Definition u64_ok (x : Z) : Prop := 0 <= x < 2 ^ 64.

(** A Go [[]byte].  [nil] and the empty slice are the same value: the code
    normalises one to the other ([cloneBytes]) and never tests for [nil]. *)
Abbreviation bytes := (list Z).

Definition bytes_ok (bs : bytes) : Prop := Forall u8_ok bs.

(** [len(b)] as the Go [int] it is. *)
Definition blen {A} (bs : list A) : Z := Z.of_nat (length bs).

(** [bytes_eqb] is Go's [==] on strings. *)
Fixpoint bytes_eqb (a b : bytes) : bool :=
  match a, b with
  | [], [] => true
  | x :: a', y :: b' => (x =? y) && bytes_eqb a' b'
  | _, _ => false
  end.

(** A Go string literal as its bytes. *)
Definition str (s : string) : bytes :=
  map (fun a => Z.of_N (N_of_ascii a)) (String.list_ascii_of_string s).
Arguments str s%_string_scope.

(** [in_range lo hi b] is the Go test [b >= lo && b <= hi]. *)
Definition in_range (lo hi b : Z) : bool := (lo <=? b) && (b <=? hi).

(** ** Outcomes of Go calls

    A call returns a value, returns a non-nil [error], or panics (an index or a
    slice bound out of range).  Panics are kept apart from errors so that "never
    panics" is a statement about the code. *)
Inductive outcome (E A : Type) : Type :=
| Ok (a : A)
| Err (e : E)
| Panic.
Arguments Ok {E A} a.
Arguments Err {E A} e.
Arguments Panic {E A}.

Definition obind {E A B} (m : outcome E A) (k : A -> outcome E B) : outcome E B :=
  match m with
  | Ok a => k a
  | Err e => Err e
  | Panic => Panic
  end.

Notation "'let*' x ':=' m 'in' k" := (obind m (fun x => k))
  (at level 10, x pattern, m at level 100, k at level 200) : go_scope.

Definition is_ok {E A} (m : outcome E A) : bool :=
  match m with Ok _ => true | _ => false end.

Definition panics {E A} (m : outcome E A) : bool :=
  match m with Panic => true | _ => false end.

(** Slices [b[lo:]], [b[:hi]], [b[lo:hi]] and the index expression [b[i]] of Go, with the
    run-time panic of an out-of-range bound. *)
Definition slice_from {E A} (b : list A) (lo : Z) : outcome E (list A) :=
  if (0 <=? lo) && (lo <=? blen b) then Ok (drop (Z.to_nat lo) b) else Panic.

Definition slice_to {E A} (b : list A) (hi : Z) : outcome E (list A) :=
  if (0 <=? hi) && (hi <=? blen b) then Ok (take (Z.to_nat hi) b) else Panic.

Definition slice {E A} (b : list A) (lo hi : Z) : outcome E (list A) :=
  if (0 <=? lo) && (lo <=? hi) && (hi <=? blen b)
  then Ok (take (Z.to_nat (hi - lo)) (drop (Z.to_nat lo) b)) else Panic.

Definition index {E A} (b : list A) (i : Z) : outcome E A :=
  if 0 <=? i then
    match b !! Z.to_nat i with Some x => Ok x | None => Panic end
  else Panic.

(** ** Automation *)

Create HintDb go.
Create Rewrite HintDb go.

(** Split every boolean test of the context or the goal that [lia] can read. *)
Ltac bool_cases :=
  repeat match goal with
  | H : (_ && _) = true |- _ => apply andb_prop in H; destruct H
  | H : context [if ?b then _ else _] |- _ => destruct b eqn:?
  | |- context [if ?b then _ else _] => destruct b eqn:?
  end.

Ltac go_simp := unfold u8_ok, u64_ok in *.

(** Case analysis on the outcome an assumption binds. *)
Ltac obind_inv H :=
  match type of H with
  | obind ?m _ = Ok _ =>
      let E := fresh "E" in
      destruct m eqn:E; simpl in H; [ | discriminate H | discriminate H ]
  end.

(** ** Generic lemmas *)

Lemma blen_nonneg {A} (l : list A) : 0 <= blen l.
Proof. unfold blen. lia. Qed.

Lemma blen_nil A : blen (@nil A) = 0.
Proof. reflexivity. Qed.

Lemma blen_cons {A} (x : A) l : blen (x :: l) = 1 + blen l.
Proof. unfold blen. simpl length. lia. Qed.

Lemma blen_app {A} (l k : list A) : blen (l ++ k) = blen l + blen k.
Proof. unfold blen. rewrite length_app. lia. Qed.

Lemma to_nat_blen {A} (l : list A) : Z.to_nat (blen l) = length l.
Proof. unfold blen. lia. Qed.

Lemma blen_0_inv {A} (l : list A) : blen l = 0 -> l = [].
Proof. destruct l; [done | rewrite blen_cons; pose proof (blen_nonneg l); lia]. Qed.

#[export] Hint Rewrite @blen_nil @blen_cons @blen_app @to_nat_blen : go.
#[export] Hint Resolve blen_nonneg : go.

Lemma bytes_eqb_eq a b : bytes_eqb a b = true <-> a = b.
Proof.
  revert b; induction a as [|x a IH]; intros [|y b]; simpl; try easy.
  rewrite andb_true_iff, Z.eqb_eq, IH. split; [intros [-> ->] | intros [=]]; auto.
Qed.

Lemma bytes_eqb_refl a : bytes_eqb a a = true.
Proof. by apply bytes_eqb_eq. Qed.

Lemma bytes_ok_app a b : bytes_ok (a ++ b) <-> bytes_ok a /\ bytes_ok b.
Proof. apply Forall_app. Qed.

Lemma u64_small x : u64_ok x -> u64 x = x.
Proof. intros. unfold u64. apply Z.mod_small. done. Qed.

Lemma u64_range x : u64_ok (u64 x).
Proof. unfold u64, u64_ok. apply Z.mod_pos_bound. lia. Qed.

Lemma u8_range x : u8_ok (u8 x).
Proof. unfold u8, u8_ok. apply Z.mod_pos_bound. lia. Qed.

Lemma slice_from_app {E A} (a b : list A) :
  slice_from (E := E) (a ++ b) (blen a) = Ok b.
Proof.
  unfold slice_from. rewrite blen_app.
  pose proof (blen_nonneg a); pose proof (blen_nonneg b).
  destruct (Z.leb_spec 0 (blen a)), (Z.leb_spec (blen a) (blen a + blen b)); try lia.
  simpl. rewrite to_nat_blen, drop_app_length. done.
Qed.

Lemma slice_to_app {E A} (x y : list A) : slice_to (E := E) (x ++ y) (blen x) = Ok x.
Proof.
  unfold slice_to. rewrite blen_app. pose proof (blen_nonneg x); pose proof (blen_nonneg y).
  replace ((0 <=? blen x) && (blen x <=? blen x + blen y)) with true by lia.
  by rewrite to_nat_blen, take_app_length.
Qed.

Lemma slice_to_snoc {E A} (l : list A) x : slice_to (E := E) (l ++ [x]) (blen (l ++ [x]) - 1) = Ok l.
Proof. rewrite blen_app. replace (blen l + blen [x] - 1) with (blen l) by (unfold blen; simpl; lia). apply slice_to_app. Qed.

Lemma slice_to_full {E A} (x : list A) : slice_to (E := E) x (blen x) = Ok x.
Proof. pose proof (slice_to_app (E := E) x []) as H. by rewrite app_nil_r in H. Qed.

(** Disjoint bit fields add: [x | (b << s)] is [x + b * 2^s] below bit [s]. *)
Lemma land_shiftl_disjoint x b s :
  0 <= s -> 0 <= x < 2 ^ s -> Z.land x (Z.shiftl b s) = 0.
Proof.
  intros Hs Hx. apply Z.bits_inj'. intros n Hn.
  rewrite Z.land_spec, Z.bits_0, Z.shiftl_spec by lia.
  destruct (Z.ltb_spec n s) as [Hlt|Hge].
  - rewrite (Z.testbit_neg_r b) by lia. apply andb_false_r.
  - rewrite <- (Z.mod_small x (2 ^ s)) by lia.
    rewrite Z.mod_pow2_bits_high by lia. done.
Qed.

Lemma lor_shiftl_add x b s :
  0 <= s -> 0 <= x < 2 ^ s -> Z.lor x (Z.shiftl b s) = x + b * 2 ^ s.
Proof.
  intros Hs Hx. pose proof (land_shiftl_disjoint x b s Hs Hx) as Hd.
  rewrite <- Z.shiftl_mul_pow2 by lia.
  rewrite Z.add_nocarry_lxor by done. rewrite Z.lxor_lor by done. done.
Qed.
