(* ===== verification/Varint.v ===== *)
(** * Varint: unsigned LEB128 ([src/attachwire/varint.go])

    The wire's varint is Go's [encoding/binary] unsigned varint; the loops of
    [binary.AppendUvarint] and [binary.Uvarint] are written out here, and
    [Uvarint] is the package's own three-way disposition of the result. *)

From S2P Require Import Prelude.

(** ** The framing errors of the package ([src/attachwire/errors.go])

    [FramingError] carries a human-readable reason; each distinct reason of the
    code is a constructor, with the values its message prints.  The two exported
    varint errors are framing errors told apart by identity.  [WireError] is the
    closed set of errors the codecs return; [PlainError] stands for the
    [fmt.Errorf] values that are not framing errors. *)
Inductive FramingReason :=
| VarintOverflow
| VarintTruncated
| TrailingBytes (left : Z)
| EndOfInputU8
| DeclaredLength (n remaining : Z)
| EmptyFrame
| UnknownEventType (tb : Z)
| ResizeZero (cols rows : Z)
| SnapEchoMode (v : Z)
| SnapActiveBuffer (v : Z)
| SnapCursorShape (v : Z)
| SnapModesReserved (v : Z)
| SnapMouseProto (v : Z)
| SnapGridOverflow (rows cols : Z)
| SnapStyleReserved (v : Z)
| SnapContinuationRune
| SnapEmptyRune
| SnapColorMode (v : Z)
| SnapBoolByte (v : Z)
| SnapInvalidUTF8
| SnapControlRune (r : Z)
| InvalidBase64.

Inductive PlainReason :=
| PrimaryGridSize (have want : Z)
| AltGridSize (have want : Z)
| FinalWithoutExitSeq
| ContinuationTooLarge
| UnsupportedSchemaOrSize
| SchemaMismatch
| EpochMismatch
| MissingState
| UnsupportedSchema
| InvalidBoundary
| InvalidFinalObservation
| ControlInSignal
| UnsupportedRequest
| InvalidRequestIdentity
| InvalidUploadGrant
| InvalidChunk
| InvalidAccepted
| InvalidMessageSize
| InvalidChunkPhase
| ShortChunk
| OversizedError
| InvalidErrorCode
| UnknownPhase
| HostFrameSize
| HostFrameNotCanonical
| HostFrameType
| JSONRejected.

Inductive WireError :=
| FramingError (r : FramingReason)
| PlainError (r : PlainReason).

Definition ErrVarintOverflow : WireError := FramingError VarintOverflow.
Definition ErrVarintTruncated : WireError := FramingError VarintTruncated.

(** [IsFramingErr]: the disposition "close with code framing". *)
Definition IsFramingErr (e : WireError) : bool :=
  match e with FramingError _ => true | PlainError _ => false end.

Abbreviation wire A := (outcome WireError A).

(** ** Encoding *)

Definition MaxVarintLen : Z := 10.

(** The loop [for x >= 0x80 { append(byte(x)|0x80); x >>= 7 }; append(byte(x))].
    [fuel] bounds the iterations; [MaxVarintLen] of them are enough for a
    [uint64] ([put_loop_step]). *)
Fixpoint put_loop (fuel : nat) (x : Z) : bytes :=
  match fuel with
  | O => [u8 x]
  | S fuel' =>
      if 128 <=? x then Z.lor (u8 x) 128 :: put_loop fuel' (Z.shiftr x 7)
      else [u8 x]
  end.

Definition uvarint_bytes (x : Z) : bytes := put_loop (Z.to_nat MaxVarintLen) x.

Definition AppendUvarint (dst : bytes) (x : Z) : bytes := dst ++ uvarint_bytes x.

(** ** Decoding *)

(** [binary.Uvarint]: the value and the number of bytes read; 0 when the buffer
    ends inside the varint, negative on overflow. *)
Fixpoint uvarint_loop (buf : bytes) (i x s : Z) : Z * Z :=
  match buf with
  | [] => (0, 0)
  | b :: buf' =>
      if i =? MaxVarintLen then (0, - (i + 1))
      else if b <? 128 then
        if (i =? MaxVarintLen - 1) && (1 <? b) then (0, - (i + 1))
        else (Z.lor x (u64 (Z.shiftl b s)), i + 1)
      else uvarint_loop buf' (i + 1) (Z.lor x (u64 (Z.shiftl (Z.land b 127) s))) (s + 7)
  end.

Definition binary_Uvarint (buf : bytes) : Z * Z := uvarint_loop buf 0 0 0.

Definition Uvarint (buf : bytes) : wire (Z * Z) :=
  let '(v, m) := binary_Uvarint buf in
  if 0 <? m then Ok (v, m)
  else if m <? 0 then Err ErrVarintOverflow
  else Err ErrVarintTruncated.

(** ** A reference definition

    The value of a varint body, independent of the loops: base-128 digits,
    least significant first. *)
Fixpoint leb128_value (bs : bytes) : Z :=
  match bs with
  | [] => 0
  | b :: bs' => b mod 128 + 128 * leb128_value bs'
  end.

(** A terminated varint: continuation bytes and then one byte below 128. *)
Definition terminated (bs : bytes) : Prop :=
  exists cont b, bs = cont ++ [b] /\ Forall (fun c => 128 <= c < 256) cont /\ 0 <= b < 128.

(** ** Lemmas *)

Lemma land_127 b : Z.land b 127 = b mod 128.
Proof. change 127 with (Z.ones 7). by rewrite Z.land_ones by lia. Qed.

Lemma lor_u8_128 x : 0 <= x -> Z.lor (u8 x) 128 = 128 + x mod 128.
Proof.
  intros Hx. pose proof (Z.mod_pos_bound x 128).
  replace (128 + x mod 128) with (Z.lor (x mod 2 ^ 7) (Z.shiftl 1 7))
    by (rewrite lor_shiftl_add; change (2 ^ 7) with 128; lia).
  unfold u8. apply Z.bits_inj'. intros n Hn.
  rewrite !Z.lor_spec, !Z.testbit_mod_pow2 by lia.
  change 128 with (Z.shiftl 1 7). rewrite Z.shiftl_spec by lia.
  destruct (Z.eq_dec n 7) as [->|]; [by rewrite !orb_true_r|].
  destruct (Z.ltb_spec n 8), (Z.ltb_spec n 7); try done; lia.
Qed.

Lemma put_loop_step fuel x :
  0 <= x < 2 ^ (7 * (Z.of_nat fuel + 1)) ->
  put_loop fuel x =
    if 128 <=? x then (128 + x mod 128) :: put_loop (pred fuel) (x / 128) else [x].
Proof.
  intros Hx. destruct fuel as [|f]; simpl.
  - change (7 * (0 + 1)) with 7 in Hx. change (2 ^ 7) with 128 in Hx.
    destruct (Z.leb_spec 128 x); [lia|]. unfold u8. rewrite Z.mod_small by lia. done.
  - destruct (Z.leb_spec 128 x).
    + rewrite lor_u8_128, Z.shiftr_div_pow2 by lia. done.
    + unfold u8. rewrite Z.mod_small by lia. done.
Qed.

Lemma put_loop_div fuel x :
  0 <= x < 2 ^ (7 * (Z.of_nat (S fuel) + 1)) -> 0 <= x / 128 < 2 ^ (7 * (Z.of_nat fuel + 1)).
Proof.
  intros Hx. replace (7 * (Z.of_nat (S fuel) + 1)) with (7 + 7 * (Z.of_nat fuel + 1)) in Hx by lia.
  rewrite Z.pow_add_r in Hx by lia. change (2 ^ 7) with 128 in Hx.
  split; [apply Z.div_pos; lia | apply Z.div_lt_upper_bound; lia].
Qed.

(** The loop's output is a terminated varint of at most [fuel + 1] bytes with
    the right value, and its last byte is not a redundant zero. *)
Lemma put_loop_spec fuel x :
  0 <= x < 2 ^ (7 * (Z.of_nat fuel + 1)) ->
  exists cont b, put_loop fuel x = cont ++ [b] /\
    Forall (fun c => 128 <= c < 256) cont /\ 0 <= b < 128 /\
    leb128_value (cont ++ [b]) = x /\ (length cont <= fuel)%nat /\
    (cont <> [] -> b <> 0).
Proof.
  revert x; induction fuel as [|f IH]; intros x Hx; rewrite put_loop_step by done;
    destruct (Z.leb_spec 128 x) as [Hge|Hlt].
  1: change (2 ^ (7 * (Z.of_nat 0 + 1))) with 128 in Hx; lia.
  1,3: exists [], x; simpl; rewrite Z.mod_small by lia; repeat split; try lia; done.
  destruct (IH (x / 128)) as (cont & b & Heq & Hc & Hb & Hv & Hl & Hnz); [by apply put_loop_div|].
  exists ((128 + x mod 128) :: cont), b. simpl pred. rewrite Heq. split; [done|].
  pose proof (Z.mod_pos_bound x 128).
  split; [constructor; [lia | done]|]. split; [done|].
  split.
  - simpl app. simpl leb128_value. rewrite Hv.
    replace ((128 + x mod 128) mod 128) with (x mod 128).
    + pose proof (Z.div_mod x 128). lia.
    + rewrite <- (Z.mul_1_l 128) at 2. rewrite Z.add_comm, Z.mod_add, Z.mod_mod by lia. done.
  - split; [simpl; lia|]. intros _. destruct cont as [|c cont].
    + simpl in Hv. rewrite Z.mod_small in Hv by lia. pose proof (Z.div_le_lower_bound x 128 1). lia.
    + apply Hnz. done.
Qed.

Lemma leb128_value_bound bs : bytes_ok bs -> 0 <= leb128_value bs < 2 ^ (7 * blen bs).
Proof.
  induction 1 as [|b bs Hb _ IH]; [done|].
  rewrite blen_cons. replace (7 * (1 + blen bs)) with (7 + 7 * blen bs) by lia.
  pose proof (blen_nonneg bs). rewrite Z.pow_add_r by lia. change (2 ^ 7) with 128.
  simpl leb128_value. pose proof (Z.mod_pos_bound b 128). lia.
Qed.

Lemma leb128_value_app a b :
  leb128_value (a ++ b) = leb128_value a + 2 ^ (7 * blen a) * leb128_value b.
Proof.
  induction a as [|x a IH].
  - rewrite blen_nil. simpl. lia.
  - rewrite blen_cons. replace (7 * (1 + blen a)) with (7 + 7 * blen a) by lia.
    pose proof (blen_nonneg a). rewrite Z.pow_add_r by lia. change (2 ^ 7) with 128.
    simpl. rewrite IH. lia.
Qed.

Lemma cont_bytes_ok cont : Forall (fun c => 128 <= c < 256) cont -> bytes_ok cont.
Proof. intros H. eapply Forall_impl; [exact H|]. intros c Hc. go_simp. lia. Qed.

(** One continuation byte read by the decoding loop at position [i]. *)
Lemma uvarint_loop_cont b buf i x :
  0 <= i < 9 -> 128 <= b < 256 -> 0 <= x < 2 ^ (7 * i) ->
  uvarint_loop (b :: buf) i x (7 * i) =
    uvarint_loop buf (i + 1) (x + b mod 128 * 2 ^ (7 * i)) (7 * (i + 1)).
Proof.
  intros Hi Hb Hx. simpl. unfold MaxVarintLen.
  destruct (Z.eqb_spec i 10); [lia|]. destruct (Z.ltb_spec b 128); [lia|].
  rewrite land_127. pose proof (Z.mod_pos_bound b 128).
  rewrite u64_small.
  - rewrite lor_shiftl_add by lia. f_equal. lia.
  - unfold u64_ok. rewrite Z.shiftl_mul_pow2 by lia.
    assert (0 < 2 ^ (7 * i) <= 2 ^ 56) by (split; [apply Z.pow_pos_nonneg | apply Z.pow_le_mono_r]; lia). nia.
Qed.

Lemma uvarint_loop_conts cont buf i x :
  0 <= i -> i + blen cont <= 9 ->
  Forall (fun c => 128 <= c < 256) cont -> 0 <= x < 2 ^ (7 * i) ->
  uvarint_loop (cont ++ buf) i x (7 * i) =
    uvarint_loop buf (i + blen cont) (x + 2 ^ (7 * i) * leb128_value cont) (7 * (i + blen cont)).
Proof.
  intros Hi Hl Hc. revert i x Hi Hl. induction Hc as [|b cont Hb Hc IH]; intros i x Hi Hl Hx.
  - rewrite blen_nil. simpl. f_equal; lia.
  - rewrite blen_cons in *. pose proof (blen_nonneg cont).
    simpl app. rewrite uvarint_loop_cont by lia.
    assert (0 <= x + b mod 128 * 2 ^ (7 * i) < 2 ^ (7 * (i + 1))).
    { replace (7 * (i + 1)) with (7 + 7 * i) by lia. rewrite Z.pow_add_r by lia.
      change (2 ^ 7) with 128. pose proof (Z.mod_pos_bound b 128). nia. }
    rewrite IH by lia. simpl leb128_value.
    replace (7 * (i + 1)) with (7 + 7 * i) by lia. rewrite Z.pow_add_r by lia. change (2 ^ 7) with 128.
    f_equal; lia.
Qed.

(** The terminating byte at position [i], within the 64 bits. *)
Lemma uvarint_loop_last b buf i x :
  0 <= i <= 9 -> 0 <= b < 128 -> 0 <= x < 2 ^ (7 * i) -> x + b * 2 ^ (7 * i) < 2 ^ 64 ->
  uvarint_loop (b :: buf) i x (7 * i) = (x + b * 2 ^ (7 * i), i + 1).
Proof.
  intros Hi Hb Hx Hv. simpl. unfold MaxVarintLen.
  destruct (Z.eqb_spec i 10); [lia|]. destruct (Z.ltb_spec b 128); [|lia].
  destruct (Z.eqb_spec i (10 - 1)) as [->|]; simpl.
  - change (7 * (10 - 1)) with 63 in *. destruct (Z.ltb_spec 1 b); [lia|].
    rewrite u64_small, lor_shiftl_add; try lia; [done|].
    unfold u64_ok. rewrite Z.shiftl_mul_pow2 by lia. lia.
  - rewrite u64_small, lor_shiftl_add; try lia; [done|].
    unfold u64_ok. rewrite Z.shiftl_mul_pow2 by lia. nia.
Qed.

Lemma uvarint_bytes_spec x :
  u64_ok x ->
  exists cont b, uvarint_bytes x = cont ++ [b] /\
    Forall (fun c => 128 <= c < 256) cont /\ 0 <= b < 128 /\
    leb128_value (cont ++ [b]) = x /\ blen cont <= 9 /\ (cont <> [] -> b <> 0).
Proof.
  intros Hx. destruct (put_loop_spec (Z.to_nat MaxVarintLen) x) as (cont & b & Heq & Hc & Hb & Hv & _ & Hnz).
  { unfold u64_ok in Hx. change (2 ^ (7 * (Z.of_nat (Z.to_nat MaxVarintLen) + 1))) with (2 ^ 77). lia. }
  exists cont, b. repeat (split; [done|]). split; [|done].
  destruct (Z.le_gt_cases (blen cont) 9); [done|].
  rewrite leb128_value_app in Hv. simpl in Hv. rewrite Z.mod_small in Hv by lia.
  assert (cont <> []) by (intros ->; rewrite blen_nil in *; lia).
  specialize (Hnz ltac:(done)).
  assert (2 ^ 70 <= 2 ^ (7 * blen cont)) by (apply Z.pow_le_mono_r; lia).
  pose proof (leb128_value_bound cont (cont_bytes_ok _ Hc)) as Hvb. go_simp.
  assert (2 ^ 70 <= 2 ^ (7 * blen cont) * b) by nia. lia.
Qed.

Lemma uvarint_bytes_nonempty x : u64_ok x -> 0 < blen (uvarint_bytes x) <= MaxVarintLen.
Proof.
  intros Hx. destruct (uvarint_bytes_spec x Hx) as (c & b & -> & _ & _ & _ & Hl & _).
  rewrite blen_app, blen_cons, blen_nil. pose proof (blen_nonneg c). unfold MaxVarintLen. lia.
Qed.

Lemma uvarint_bytes_ok x : u64_ok x -> bytes_ok (uvarint_bytes x).
Proof.
  intros Hx. destruct (uvarint_bytes_spec x Hx) as (c & b & -> & Hc & Hb & _).
  apply bytes_ok_app. split; [by apply cont_bytes_ok|]. constructor; [go_simp; lia | constructor].
Qed.

(** Decoding an encoded value reads exactly its bytes, whatever follows. *)
Lemma binary_Uvarint_app x rest :
  u64_ok x -> binary_Uvarint (uvarint_bytes x ++ rest) = (x, blen (uvarint_bytes x)).
Proof.
  intros Hx. destruct (uvarint_bytes_spec x Hx) as (c & b & -> & Hc & Hb & Hv & Hl & _).
  rewrite <- app_assoc. unfold binary_Uvarint. change 0 with (7 * 0) at 3.
  rewrite leb128_value_app in Hv. simpl in Hv. rewrite Z.mod_small in Hv by lia.
  rewrite uvarint_loop_conts by (auto; lia).
  pose proof (leb128_value_bound c (cont_bytes_ok _ Hc)). pose proof (blen_nonneg c).
  change (7 * 0) with 0. rewrite Z.pow_0_r, Z.mul_1_l, !Z.add_0_l.
  simpl app. rewrite uvarint_loop_last; try (go_simp; lia).
  rewrite blen_app, blen_cons, blen_nil. f_equal; lia.
Qed.

Lemma Uvarint_app x rest :
  u64_ok x -> Uvarint (uvarint_bytes x ++ rest) = Ok (x, blen (uvarint_bytes x)).
Proof.
  intros Hx. unfold Uvarint. rewrite binary_Uvarint_app by done.
  pose proof (uvarint_bytes_nonempty x Hx). destruct (Z.ltb_spec 0 (blen (uvarint_bytes x))); [done|lia].
Qed.

(** ** What decoding accepts and rejects *)

(** The three results of the decoding loop, by the shape of the input. *)
Inductive uvarint_result (buf : bytes) (i x : Z) : Z * Z -> Prop :=
| UVDone body rest :
    buf = body ++ rest -> terminated body -> i + blen body <= MaxVarintLen ->
    x + 2 ^ (7 * i) * leb128_value body < 2 ^ 64 ->
    uvarint_result buf i x (x + 2 ^ (7 * i) * leb128_value body, i + blen body)
| UVShort :
    Forall (fun c => 128 <= c < 256) buf -> i + blen buf <= MaxVarintLen ->
    uvarint_result buf i x (0, 0)
| UVLong m :
    m < 0 -> Forall (fun c => 128 <= c < 256) (take (Z.to_nat (MaxVarintLen - i)) buf) ->
    MaxVarintLen < i + blen buf -> uvarint_result buf i x (0, m)
| UVWide body rest m :
    m < 0 -> buf = body ++ rest -> terminated body -> i + blen body = MaxVarintLen ->
    2 ^ 64 <= x + 2 ^ (7 * i) * leb128_value body -> uvarint_result buf i x (0, m).

Lemma terminated_one b : 0 <= b < 128 -> terminated [b].
Proof. intros Hb. exists [], b. repeat split; try done; lia. Qed.

Lemma terminated_cons c body : 128 <= c < 256 -> terminated body -> terminated (c :: body).
Proof.
  intros Hc (cont & b & -> & Hcs & Hb). exists (c :: cont), b.
  split; [done|]. split; [by constructor | done].
Qed.

Lemma uvarint_result_cons c buf i x r :
  0 <= i < 9 -> 128 <= c < 256 ->
  uvarint_result buf (i + 1) (x + c mod 128 * 2 ^ (7 * i)) r -> uvarint_result (c :: buf) i x r.
Proof.
  intros Hi Hc Hr. pose proof (blen_nonneg buf) as Hnn.
  assert (Hp : 2 ^ (7 * (i + 1)) = 128 * 2 ^ (7 * i)).
  { replace (7 * (i + 1)) with (7 + 7 * i) by lia. rewrite Z.pow_add_r by lia. done. }
  assert (Hval : forall body, x + c mod 128 * 2 ^ (7 * i) + 2 ^ (7 * (i + 1)) * leb128_value body
                              = x + 2 ^ (7 * i) * leb128_value (c :: body)).
  { intros body. simpl. rewrite Hp. ring. }
  destruct Hr as [body rest -> Ht Hl Hv | Hall Hl | m Hm Hall Hl | body rest m Hm -> Ht Hl Hv].
  - rewrite Hval in *. replace (i + 1 + blen body) with (i + blen (c :: body)) in * by (rewrite blen_cons; lia).
    eapply UVDone; eauto using terminated_cons.
  - apply UVShort; [by constructor|]. rewrite blen_cons. lia.
  - apply UVLong; [done| |rewrite blen_cons; lia].
    replace (Z.to_nat (MaxVarintLen - i)) with (S (Z.to_nat (MaxVarintLen - (i + 1))))
      by (unfold MaxVarintLen; lia).
    by constructor.
  - rewrite Hval in *. eapply (UVWide _ _ _ (c :: body)); eauto using terminated_cons.
    rewrite blen_cons. lia.
Qed.

Lemma uvarint_loop_result buf i x :
  bytes_ok buf -> 0 <= i <= 9 -> 0 <= x < 2 ^ (7 * i) ->
  uvarint_result buf i x (uvarint_loop buf i x (7 * i)).
Proof.
  intros Hb. revert i x. induction Hb as [|c buf Hc Hb IH]; intros i x Hi Hx.
  { apply UVShort; [constructor|]. rewrite blen_nil. unfold MaxVarintLen. lia. }
  assert (Hi10 : (i =? MaxVarintLen) = false) by (apply Z.eqb_neq; unfold MaxVarintLen; lia).
  go_simp. destruct (Z.ltb_spec c 128) as [Hlt|Hge].
  - assert (Hone : leb128_value [c] = c) by (simpl; rewrite Z.mod_small; lia).
    destruct (Z.lt_ge_cases (x + c * 2 ^ (7 * i)) (2 ^ 64)) as [Hfit|Hwide].
    + rewrite uvarint_loop_last by lia.
      replace (x + c * 2 ^ (7 * i)) with (x + 2 ^ (7 * i) * leb128_value [c]) by lia.
      apply (UVDone (c :: buf) i x [c] buf); [done | apply terminated_one; lia | | lia].
      unfold blen, MaxVarintLen. simpl. lia.
    + assert (i = 9) as ->.
      { destruct (Z.eq_dec i 9); [done|]. exfalso.
        assert (0 < 2 ^ (7 * i) <= 2 ^ 56)
          by (split; [apply Z.pow_pos_nonneg | apply Z.pow_le_mono_r]; lia). nia. }
      simpl uvarint_loop. change (9 =? MaxVarintLen) with false. cbv iota.
      destruct (Z.ltb_spec c 128); [|lia]. change (9 =? MaxVarintLen - 1) with true.
      change (2 ^ (7 * 9)) with (2 ^ 63) in *. simpl andb.
      destruct (Z.ltb_spec 1 c); [|lia].
      eapply (UVWide _ _ _ [c] buf); [lia | done | apply terminated_one; lia | done |].
      rewrite Hone. change (2 ^ (7 * 9)) with (2 ^ 63). lia.
  - destruct (Z.eq_dec i 9) as [->|].
    + simpl uvarint_loop. change (9 =? MaxVarintLen) with false. cbv iota.
      destruct (Z.ltb_spec c 128); [lia|]. destruct buf as [|d buf'].
      * simpl. apply UVShort; [repeat constructor; lia|]. done.
      * simpl. apply UVLong; [lia | | rewrite !blen_cons; pose proof (blen_nonneg buf'); unfold MaxVarintLen; lia].
        change (Z.to_nat (MaxVarintLen - 9)) with 1%nat. constructor; [lia | constructor].
    + rewrite uvarint_loop_cont by lia. apply uvarint_result_cons; [lia | lia |].
      apply IH; [lia|]. replace (7 * (i + 1)) with (7 + 7 * i) by lia. rewrite Z.pow_add_r by lia.
      change (2 ^ 7) with 128. pose proof (Z.mod_pos_bound c 128). nia.
Qed.

(** What the package's [Uvarint] returns on any byte buffer. *)
Inductive Uvarint_spec (buf : bytes) : wire (Z * Z) -> Prop :=
| USOk body rest :
    buf = body ++ rest -> terminated body -> blen body <= MaxVarintLen ->
    leb128_value body < 2 ^ 64 -> Uvarint_spec buf (Ok (leb128_value body, blen body))
| USTruncated :
    Forall (fun c => 128 <= c < 256) buf -> blen buf <= MaxVarintLen ->
    Uvarint_spec buf (Err ErrVarintTruncated)
| USLong :
    Forall (fun c => 128 <= c < 256) (take 10 buf) -> MaxVarintLen < blen buf ->
    Uvarint_spec buf (Err ErrVarintOverflow)
| USWide body rest :
    buf = body ++ rest -> terminated body -> blen body = MaxVarintLen ->
    2 ^ 64 <= leb128_value body -> Uvarint_spec buf (Err ErrVarintOverflow).

Lemma terminated_length body : terminated body -> 0 < blen body.
Proof. intros (c & b & -> & _). rewrite blen_app, blen_cons, blen_nil. pose proof (blen_nonneg c). lia. Qed.

Lemma terminated_ok body : terminated body -> bytes_ok body.
Proof.
  intros (c & b & -> & Hc & Hb). apply bytes_ok_app. split; [by apply cont_bytes_ok|].
  constructor; [go_simp; lia | constructor].
Qed.

Lemma Uvarint_result buf : bytes_ok buf -> Uvarint_spec buf (Uvarint buf).
Proof.
  intros Hb. pose proof (uvarint_loop_result buf 0 0 Hb ltac:(lia) ltac:(lia)) as Hr.
  change (7 * 0) with 0 in Hr. unfold Uvarint, binary_Uvarint.
  destruct Hr as [body rest -> Ht Hl Hv | Hall Hl | m Hm Hall Hl | body rest m Hm -> Ht Hl Hv];
    rewrite ?Z.mul_0_r, ?Z.pow_0_r, ?Z.mul_1_l, ?Z.add_0_l in *.
  - pose proof (terminated_length _ Ht). destruct (Z.ltb_spec 0 (blen body)); [|lia].
    by apply USOk with rest.
  - simpl. by apply USTruncated.
  - destruct (Z.ltb_spec 0 m), (Z.ltb_spec m 0); try lia. by apply USLong.
  - destruct (Z.ltb_spec 0 m), (Z.ltb_spec m 0); try lia. by apply USWide with body rest.
Qed.

Lemma Uvarint_ok_inv buf v n :
  bytes_ok buf -> Uvarint buf = Ok (v, n) ->
  u64_ok v /\ 0 < n <= MaxVarintLen /\ n <= blen buf.
Proof.
  intros Hb HU. pose proof (Uvarint_result buf Hb) as Hs. rewrite HU in Hs.
  inversion Hs as [body rest Heq Ht Hl Hv | | |]; subst.
  pose proof (terminated_length _ Ht). pose proof (leb128_value_bound _ (terminated_ok _ Ht)).
  rewrite blen_app. pose proof (blen_nonneg rest). go_simp. lia.
Qed.

Lemma uvarint_bytes_shortest x body :
  u64_ok x -> terminated body -> leb128_value body = x -> blen (uvarint_bytes x) <= blen body.
Proof.
  intros Hx Ht Hv. destruct (uvarint_bytes_spec x Hx) as (c & b & -> & Hc & Hb & Hvc & _ & Hnz).
  pose proof (leb128_value_bound body (terminated_ok _ Ht)) as Hub.
  rewrite blen_app, blen_cons, blen_nil. pose proof (terminated_length _ Ht).
  destruct c as [|c0 c']; [rewrite blen_nil; lia|].
  specialize (Hnz ltac:(done)). set (c := c0 :: c') in *.
  rewrite leb128_value_app in Hvc. simpl (leb128_value [b]) in Hvc. rewrite Z.mod_small in Hvc by lia.
  pose proof (leb128_value_bound c (cont_bytes_ok _ Hc)).
  assert (2 ^ (7 * blen c) < 2 ^ (7 * blen body)) by nia.
  apply Z.pow_lt_mono_r_iff in H1; lia.
Qed.

(** ** Properties *)

(** Round trip and canonicity of the varint: for every 64-bit value, the
    bytes [AppendUvarint] appends (at most [MaxVarintLen] of them) are decoded
    by [Uvarint] to that value with exactly their number of bytes consumed,
    whatever follows them, and no other accepted encoding of the value is
    shorter. *)
Theorem varint_roundtrip_canonical (x : Z) (dst rest : bytes) :
  u64_ok x ->
  exists enc, AppendUvarint dst x = dst ++ enc /\
    Uvarint (enc ++ rest) = Ok (x, blen enc) /\ 0 < blen enc <= MaxVarintLen /\
    (forall buf n, bytes_ok buf -> Uvarint buf = Ok (x, n) -> blen enc <= n).
Proof.
  intros Hx. exists (uvarint_bytes x). split; [done|]. split; [by apply Uvarint_app|].
  split; [by apply uvarint_bytes_nonempty|]. intros buf n Hb HU.
  pose proof (Uvarint_result buf Hb) as Hs. rewrite HU in Hs.
  inversion Hs; subst. by apply uvarint_bytes_shortest.
Qed.

Lemma varint_roundtrip_canonical_witness :
  exists enc, AppendUvarint [7] 624485 = [7] ++ enc /\
    Uvarint (enc ++ [255]) = Ok (624485, blen enc) /\ 0 < blen enc <= MaxVarintLen /\
    (forall buf n, bytes_ok buf -> Uvarint buf = Ok (624485, n) -> blen enc <= n).
Proof. apply (varint_roundtrip_canonical 624485 [7] [255]). unfold u64_ok. lia. Defined.

(** Decoding decides exactly the documented three-way disposition on every
    byte buffer: a terminated body of at most ten bytes whose base-128 value
    fits 64 bits is accepted with that value and its own length; a buffer of at
    most ten continuation bytes is [ErrVarintTruncated]; more than ten
    continuation bytes, or a ten-byte body whose value needs more than 64 bits,
    is [ErrVarintOverflow]. *)
Theorem varint_decode_disposition (buf : bytes) :
  bytes_ok buf -> Uvarint_spec buf (Uvarint buf).
Proof. apply Uvarint_result. Qed.

Lemma varint_decode_disposition_witness :
  Uvarint_spec [255; 255; 255; 255; 255; 255; 255; 255; 255; 2]
    (Uvarint [255; 255; 255; 255; 255; 255; 255; 255; 255; 2]).
Proof. apply varint_decode_disposition. repeat constructor; unfold u8_ok; lia. Defined.
