(* ===== verification/Reader.v ===== *)
(** * Reader: the bounds-checked cursor ([src/attachwire/codec.go])

    A [reader] is a cursor over an immutable buffer.  Slicing is Go's, with its
    panic, so that the bounds checks of the code are what keeps it from
    panicking.  Two notions carry every codec proof of the library:
    [reads p s a] (from any cursor whose unread bytes start with [s], [p]
    consumes exactly [s] and returns [a]) and [reader_wp p Q] ([p] never panics,
    rejects only with framing errors, never moves backwards, and returns values
    satisfying [Q]). *)

From S2P Require Import Prelude Varint.

Record reader := { buf : bytes; off : Z }.

Definition newReader (b : bytes) : reader := {| buf := b; off := 0 |}.

Definition remaining (r : reader) : Z := blen (buf r) - off r.

Definition advance (r : reader) (n : Z) : reader := {| buf := buf r; off := off r + n |}.

(** A decoding step: the value and the moved cursor, an error, or a panic. *)
Abbreviation parser A := (reader -> wire (A * reader)).

Definition pret {A} (a : A) : parser A := fun r => Ok (a, r).
Definition pfail {A} (e : WireError) : parser A := fun _ => Err e.
Definition pbind {A B} (p : parser A) (k : A -> parser B) : parser B :=
  fun r => obind (p r) (fun ar => k (fst ar) (snd ar)).

Notation "'let!' x ':=' p 'in' k" := (pbind p (fun x => k))
  (at level 10, x pattern, p at level 100, k at level 200) : go_scope.
Open Scope go_scope.

(** [if err := check; err != nil { return ..., err }] *)
Definition pcheck (c : option WireError) : parser unit :=
  fun r => match c with Some e => Err e | None => Ok (tt, r) end.

Definition cloneBytes (b : bytes) : bytes := if blen b =? 0 then [] else b.

Definition boolByte (b : bool) : Z := if b then 1 else 0.

Definition decodePreallocCap : Z := 4096.

Definition boundedCap (n : Z) : Z := if decodePreallocCap <? n then decodePreallocCap else i64 n.

Definition expectDone : parser unit := fun r =>
  if off r =? blen (buf r) then Ok (tt, r) else Err (FramingError (TrailingBytes (remaining r))).

Definition readByte : parser Z := fun r =>
  if blen (buf r) <=? off r then Err (FramingError EndOfInputU8)
  else obind (index (buf r) (off r)) (fun b => Ok (b, advance r 1)).

Definition reader_uvarint : parser Z := fun r =>
  obind (slice_from (buf r) (off r)) (fun s =>
  obind (Uvarint s) (fun vn => Ok (fst vn, advance r (snd vn)))).

Definition reader_bytes (n : Z) : parser bytes := fun r =>
  if u64 (remaining r) <? n then Err (FramingError (DeclaredLength n (remaining r)))
  else obind (slice (buf r) (off r) (off r + i64 n)) (fun s =>
       Ok (cloneBytes s, advance r (i64 n))).

Definition lenPrefixed : parser bytes :=
  let! n := reader_uvarint in reader_bytes n.

Definition remainingCopy : parser bytes := fun r =>
  obind (slice_from (buf r) (off r)) (fun s =>
  Ok (cloneBytes s, {| buf := buf r; off := blen (buf r) |})).

(** Run a decoder over a whole payload, dropping the final cursor. *)
Definition parse {A} (p : parser A) (b : bytes) : wire A :=
  obind (p (newReader b)) (fun ar => Ok (fst ar)).

(** The length-prefixed field every encoder writes. *)
Definition put_prefixed (data : bytes) : bytes := uvarint_bytes (u64 (blen data)) ++ data.

Lemma cloneBytes_id b : cloneBytes b = b.
Proof. unfold cloneBytes. destruct (Z.eqb_spec (blen b) 0) as [H|]; [by rewrite (blen_0_inv b H) | done]. Qed.

(** ** Cursor invariant *)

(** A Go slice has an [int] length, and its elements are bytes. *)
Definition go_slice (b : bytes) : Prop := blen b < 2 ^ 63 /\ bytes_ok b.

Definition reader_ok (r : reader) : Prop := 0 <= off r <= blen (buf r) /\ go_slice (buf r).

Definition unread (r : reader) : bytes := drop (Z.to_nat (off r)) (buf r).

Lemma newReader_ok b : go_slice b -> reader_ok (newReader b).
Proof. intros Hb. split; [simpl; pose proof (blen_nonneg b); lia | done]. Qed.

Lemma unread_new b : unread (newReader b) = b.
Proof. unfold unread. simpl. apply drop_0. Qed.

Lemma blen_unread r : reader_ok r -> blen (unread r) = remaining r.
Proof. intros [Ho _]. unfold unread, remaining, blen in *. rewrite length_drop. lia. Qed.

Lemma slice_from_unread {E} r : reader_ok r -> slice_from (E := E) (buf r) (off r) = Ok (unread r).
Proof.
  intros [Ho _]. unfold slice_from.
  destruct (Z.leb_spec 0 (off r)), (Z.leb_spec (off r) (blen (buf r))); try lia. done.
Qed.

Lemma unread_advance r s tail : reader_ok r -> unread r = s ++ tail -> unread (advance r (blen s)) = tail.
Proof.
  intros [Ho _] Hs. unfold unread in *. simpl.
  rewrite Z2Nat.inj_add by (lia || apply blen_nonneg).
  rewrite <- drop_drop, Hs, to_nat_blen. apply drop_app_length.
Qed.

Lemma advance_ok r s tail : reader_ok r -> unread r = s ++ tail -> reader_ok (advance r (blen s)).
Proof.
  intros Hr Hs. pose proof (blen_unread r Hr) as Hl. rewrite Hs, blen_app in Hl.
  destruct Hr as [Ho Hg]. split; [|done]. simpl.
  pose proof (blen_nonneg s); pose proof (blen_nonneg tail). unfold remaining in Hl. lia.
Qed.

Lemma unread_ok r : reader_ok r -> bytes_ok (unread r).
Proof. intros (_ & _ & Hb). unfold unread. by apply Forall_drop. Qed.

Lemma i64_small n : 0 <= n < 2 ^ 63 -> i64 n = n.
Proof. intros Hn. unfold i64. rewrite Z.mod_small by lia. lia. Qed.

(** ** Completeness: [reads] *)

Definition reads {A} (p : parser A) (s : bytes) (a : A) : Prop :=
  forall r tail, reader_ok r -> unread r = s ++ tail -> p r = Ok (a, advance r (blen s)).

Lemma reads_ret {A} (a : A) : reads (pret a) [] a.
Proof. intros r tail _ _. unfold pret, advance. rewrite blen_nil, Z.add_0_r. by destruct r. Qed.

Lemma reads_bind {A B} (p : parser A) (k : A -> parser B) s t a b :
  reads p s a -> reads (k a) t b -> reads (pbind p k) (s ++ t) b.
Proof.
  intros Hp Hk r tail Hr Hs. rewrite <- app_assoc in Hs. unfold pbind.
  rewrite (Hp r _ Hr Hs). simpl.
  rewrite (Hk _ tail (advance_ok _ _ _ Hr Hs) (unread_advance _ _ _ Hr Hs)).
  unfold advance. simpl. rewrite blen_app, Z.add_assoc. done.
Qed.

Lemma reads_bind_nil {A B} (p : parser A) (k : A -> parser B) t a b :
  reads p [] a -> reads (k a) t b -> reads (pbind p k) t b.
Proof. apply reads_bind. Qed.

Lemma reads_check c : c = None -> reads (pcheck c) [] tt.
Proof. intros -> r tail Hr Hs. by apply (reads_ret tt r tail). Qed.

Lemma reads_byte b : reads readByte [b] b.
Proof.
  intros r tail Hr Hs. unfold readByte. pose proof (blen_unread r Hr) as Hl.
  rewrite Hs, blen_app, blen_cons, blen_nil in Hl. unfold remaining in Hl.
  pose proof (blen_nonneg tail). destruct Hr as [Ho Hg].
  destruct (Z.leb_spec (blen (buf r)) (off r)); [lia|].
  unfold index. destruct (Z.leb_spec 0 (off r)); [|lia].
  assert (Hix : buf r !! Z.to_nat (off r) = Some b).
  { rewrite <- (Nat.add_0_r (Z.to_nat (off r))), <- lookup_drop. unfold unread in Hs. by rewrite Hs. }
  rewrite Hix. done.
Qed.

Lemma reads_uvarint x : u64_ok x -> reads reader_uvarint (uvarint_bytes x) x.
Proof.
  intros Hx r tail Hr Hs. unfold reader_uvarint. rewrite slice_from_unread by done. simpl.
  rewrite Hs, Uvarint_app by done. done.
Qed.

Lemma slice_unread {E} r s tail :
  reader_ok r -> unread r = s ++ tail ->
  slice (E := E) (buf r) (off r) (off r + blen s) = Ok s.
Proof.
  intros Hr Hs. pose proof (blen_unread r Hr) as Hl. rewrite Hs, blen_app in Hl. unfold remaining in Hl.
  destruct Hr as [Ho Hg]. pose proof (blen_nonneg s); pose proof (blen_nonneg tail). unfold slice.
  destruct (Z.leb_spec 0 (off r)), (Z.leb_spec (off r) (off r + blen s)),
    (Z.leb_spec (off r + blen s) (blen (buf r))); try lia. simpl.
  replace (off r + blen s - off r) with (blen s) by lia. rewrite to_nat_blen.
  change (drop (Z.to_nat (off r)) (buf r)) with (unread r). by rewrite Hs, take_app_length.
Qed.

Lemma reads_bytes data : reads (reader_bytes (blen data)) data data.
Proof.
  intros r tail Hr Hs. unfold reader_bytes. pose proof (blen_unread r Hr) as Hl.
  rewrite Hs, blen_app in Hl. pose proof (blen_nonneg data); pose proof (blen_nonneg tail).
  assert (0 <= remaining r < 2 ^ 63) by (destruct Hr as [? [? ?]]; unfold remaining in *; lia).
  rewrite u64_small by (go_simp; lia). destruct (Z.ltb_spec (remaining r) (blen data)); [lia|].
  rewrite i64_small by lia. rewrite (slice_unread r data tail) by done.
  simpl. by rewrite cloneBytes_id.
Qed.

Lemma reads_prefixed data : blen data < 2 ^ 63 -> reads lenPrefixed (put_prefixed data) data.
Proof.
  intros Hl. pose proof (blen_nonneg data). unfold put_prefixed.
  rewrite u64_small by (go_simp; lia).
  apply reads_bind with (blen data); [apply reads_uvarint; go_simp; lia | apply reads_bytes].
Qed.

(** A whole payload: the same up to the end of the buffer, where [expectDone]
    and [remainingCopy] live. *)
Definition reads_end {A} (p : parser A) (s : bytes) (a : A) : Prop :=
  forall r, reader_ok r -> unread r = s -> exists r', p r = Ok (a, r').

Lemma reads_end_ret {A} (a : A) : reads_end (pret a) [] a.
Proof. intros r _ _. by eexists. Qed.

Lemma reads_end_bind {A B} (p : parser A) (k : A -> parser B) s t a b :
  reads p s a -> reads_end (k a) t b -> reads_end (pbind p k) (s ++ t) b.
Proof.
  intros Hp Hk r Hr Hs. unfold pbind. rewrite (Hp r t Hr Hs). simpl.
  apply Hk; [by eapply advance_ok | by eapply unread_advance].
Qed.

Lemma reads_end_check {B} c (k : unit -> parser B) t b :
  c = None -> reads_end (k tt) t b -> reads_end (pbind (pcheck c) k) t b.
Proof. intros Hc Hk. apply (reads_end_bind _ _ [] t tt); [by apply reads_check | done]. Qed.

Lemma reads_end_done {B} (k : unit -> parser B) b :
  reads_end (k tt) [] b -> reads_end (pbind expectDone k) [] b.
Proof.
  intros Hk r Hr Hs. unfold pbind, expectDone.
  pose proof (blen_unread r Hr) as Hl. rewrite Hs, blen_nil in Hl. unfold remaining in Hl.
  destruct (Z.eqb_spec (off r) (blen (buf r))); [|lia]. simpl. by apply Hk.
Qed.

Lemma reads_end_rest {B} (k : bytes -> parser B) t b :
  reads_end (k t) [] b -> reads_end (pbind remainingCopy k) t b.
Proof.
  intros Hk r Hr Hs. unfold pbind, remainingCopy. rewrite slice_from_unread by done.
  simpl. rewrite cloneBytes_id, Hs. apply Hk.
  - destruct Hr as [Ho Hg]. split; [simpl; lia | done].
  - unfold unread. simpl. apply drop_ge. unfold blen. lia.
Qed.

Lemma parse_reads {A} (p : parser A) s a : go_slice s -> reads_end p s a -> parse p s = Ok a.
Proof.
  intros Hs Hp. unfold parse.
  destruct (Hp _ (newReader_ok s Hs) (unread_new s)) as [r' ->]. done.
Qed.

(** A whole payload that is refused with a given error. *)
Definition reads_err {A} (p : parser A) (s : bytes) (e : WireError) : Prop :=
  forall r, reader_ok r -> unread r = s -> p r = Err e.

Lemma reads_err_bind {A B} (p : parser A) (k : A -> parser B) s t a e :
  reads p s a -> reads_err (k a) t e -> reads_err (pbind p k) (s ++ t) e.
Proof.
  intros Hp Hk r Hr Hs. unfold pbind. rewrite (Hp r t Hr Hs). simpl.
  apply Hk; [by eapply advance_ok | by eapply unread_advance].
Qed.

Lemma reads_err_trailing {B} (k : unit -> parser B) t :
  t <> [] -> reads_err (pbind expectDone k) t (FramingError (TrailingBytes (blen t))).
Proof.
  intros Ht r Hr Hs. unfold pbind, expectDone. pose proof (blen_unread r Hr) as Hl.
  rewrite Hs in Hl. unfold remaining in *.
  destruct (Z.eqb_spec (off r) (blen (buf r))).
  - exfalso. apply Ht, blen_0_inv. lia.
  - by rewrite Hl.
Qed.

Lemma parse_reads_err {A} (p : parser A) s e : go_slice s -> reads_err p s e -> parse p s = Err e.
Proof. intros Hs Hp. unfold parse. by rewrite (Hp _ (newReader_ok s Hs) (unread_new s)). Qed.

(** Run a decoder symbolically over the concatenation its encoder built. *)
Ltac codec_step :=
  first
    [ apply reads_end_ret
    | apply reads_end_done
    | apply reads_end_check; [try done | ]
    | apply reads_end_rest
    | eapply reads_end_bind; [solve [eauto with go] | ] ].

Ltac codec_err :=
  rewrite <- ?app_assoc; cbn [fst snd];
  repeat first
    [ apply reads_err_trailing; assumption
    | eapply reads_err_bind; [solve [eauto with go] | ] ].

Ltac codec := rewrite <- ?app_assoc; cbn [fst snd]; repeat codec_step.

(** ** Soundness: [reader_wp] *)

Definition reader_wp {A} (p : parser A) (Q : A -> Prop) : Prop :=
  forall r, reader_ok r ->
    match p r with
    | Ok (a, r') => reader_ok r' /\ buf r' = buf r /\ off r <= off r' /\ Q a
    | Err e => IsFramingErr e = true
    | Panic => False
    end.

Lemma wp_ret {A} (a : A) (Q : A -> Prop) : Q a -> reader_wp (pret a) Q.
Proof. intros Ha r Hr. simpl. repeat split; try apply Hr; try lia; done. Qed.

Lemma wp_bind {A B} (p : parser A) (k : A -> parser B) Q R :
  reader_wp p Q -> (forall a, Q a -> reader_wp (k a) R) -> reader_wp (pbind p k) R.
Proof.
  intros Hp Hk r Hr. specialize (Hp r Hr). unfold pbind.
  destruct (p r) as [[a r'] | |]; simpl; try done.
  destruct Hp as (Hr' & Hb & Ho & Ha). specialize (Hk a Ha r' Hr').
  destruct (k a r') as [[b r''] | |]; try done.
  destruct Hk as (? & Hb' & ? & ?). split; [done|]. split; [congruence|]. split; [lia|done].
Qed.

Lemma wp_mono {A} (p : parser A) (Q R : A -> Prop) :
  reader_wp p Q -> (forall a, Q a -> R a) -> reader_wp p R.
Proof.
  intros Hp Hqr r Hr. specialize (Hp r Hr). destruct (p r) as [[a r'] | |]; try done.
  destruct Hp as (? & ? & ? & ?). auto.
Qed.

Lemma wp_check c : (forall e, c = Some e -> IsFramingErr e = true) -> reader_wp (pcheck c) (fun _ => c = None).
Proof.
  intros Hc r Hr. unfold pcheck. destruct c as [e|]; [by apply Hc|].
  repeat split; try apply Hr; lia.
Qed.

Lemma wp_fail {A} e (Q : A -> Prop) : IsFramingErr e = true -> reader_wp (pfail e) Q.
Proof. intros He r Hr. done. Qed.

Lemma wp_byte : reader_wp readByte u8_ok.
Proof.
  intros r Hr. unfold readByte. destruct (Z.leb_spec (blen (buf r)) (off r)); [done|].
  destruct Hr as [Ho [Hl Hb]]. unfold index. destruct (Z.leb_spec 0 (off r)); [|lia].
  destruct (buf r !! Z.to_nat (off r)) as [b|] eqn:E.
  - simpl. repeat split; simpl; try done; try lia.
    all: pose proof (Forall_lookup_1 _ _ _ _ Hb E) as Hu; apply Hu.
  - apply lookup_ge_None in E. unfold blen in *. lia.
Qed.

Lemma wp_uvarint : reader_wp reader_uvarint u64_ok.
Proof.
  intros r Hr. unfold reader_uvarint. rewrite slice_from_unread by done. simpl.
  pose proof (unread_ok r Hr) as Hb. pose proof (Uvarint_result _ Hb) as Hs.
  destruct (Uvarint (unread r)) as [[v n] | e |] eqn:E; simpl.
  - apply Uvarint_ok_inv in E as (Hv & Hn & Hl); [|done].
    rewrite blen_unread in Hl by done. destruct Hr as [Ho Hg]. unfold remaining in Hl.
    repeat split; simpl; try apply Hg; try apply Hv; lia.
  - by inversion Hs.
  - inversion Hs.
Qed.

Lemma wp_bytes n : 0 <= n -> reader_wp (reader_bytes n) (fun b => blen b = n /\ bytes_ok b).
Proof.
  intros Hn r Hr. unfold reader_bytes.
  assert (0 <= remaining r < 2 ^ 63) by (destruct Hr as [? [? ?]]; unfold remaining in *; lia).
  rewrite u64_small by (go_simp; lia). destruct (Z.ltb_spec (remaining r) n); [done|].
  rewrite i64_small by lia.
  assert (Hlen : blen (take (Z.to_nat n) (unread r)) = n).
  { pose proof (blen_unread r Hr). unfold blen in *. rewrite length_take. lia. }
  replace (off r + n) with (off r + blen (take (Z.to_nat n) (unread r))) by lia.
  rewrite (slice_unread r _ (drop (Z.to_nat n) (unread r))) by (try done; by rewrite take_drop).
  simpl. rewrite cloneBytes_id. split.
  - assert (Ha : reader_ok (advance r (blen (take (Z.to_nat n) (unread r))))).
    { apply advance_ok with (drop (Z.to_nat n) (unread r)); [done | by rewrite take_drop]. }
    by rewrite Hlen in Ha.
  - split; [done|]. split; [lia|]. split; [done|]. apply Forall_take, unread_ok, Hr.
Qed.

Lemma wp_prefixed : reader_wp lenPrefixed (fun b => u64_ok (blen b) /\ bytes_ok b).
Proof.
  eapply wp_bind; [apply wp_uvarint|]. intros n Hn.
  eapply wp_mono; [apply wp_bytes; go_simp; lia|]. intros b [<- Hb]. done.
Qed.

Lemma wp_done : reader_wp expectDone (fun _ => True).
Proof.
  intros r Hr. unfold expectDone. destruct (Z.eqb_spec (off r) (blen (buf r))); [|done].
  repeat split; try apply Hr; lia.
Qed.

Lemma wp_rest : reader_wp remainingCopy bytes_ok.
Proof.
  intros r Hr. unfold remainingCopy. rewrite slice_from_unread by done. simpl.
  rewrite cloneBytes_id. pose proof (unread_ok r Hr). destruct Hr as [Ho Hg].
  repeat split; simpl; try apply Hg; try lia; done.
Qed.

(** A whole-payload decoder whose steps satisfy [reader_wp]. *)
Definition decode_safe {A} (Q : A -> Prop) (m : wire A) : Prop :=
  match m with Ok a => Q a | Err e => IsFramingErr e = true | Panic => False end.

Lemma parse_safe {A} (p : parser A) Q b : go_slice b -> reader_wp p Q -> decode_safe Q (parse p b).
Proof.
  intros Hb Hp. specialize (Hp _ (newReader_ok b Hb)). unfold parse, decode_safe.
  destruct (p (newReader b)) as [[a r'] | |]; simpl; [apply Hp | done | done].
Qed.

#[export] Hint Resolve reads_ret reads_byte reads_uvarint reads_bytes reads_prefixed : go.
#[export] Hint Resolve wp_ret wp_byte wp_uvarint wp_prefixed wp_done wp_rest : go.

(** Run the weakest-precondition rules over a decoder's steps. *)
Ltac wp_steps :=
  repeat first
    [ apply wp_ret
    | eapply wp_bind; [solve [eauto with go] | intros ? ?]
    | eapply wp_bind; [apply wp_check | intros [] ?] ].

Lemma put_prefixed_ok data : blen data < 2 ^ 63 -> bytes_ok data -> bytes_ok (put_prefixed data).
Proof.
  intros Hl Hd. apply bytes_ok_app. split; [|done]. apply uvarint_bytes_ok, u64_range.
Qed.

Lemma byte_ok_one b : u8_ok b -> bytes_ok [b].
Proof. intros Hb. by repeat constructor; apply Hb. Qed.

Ltac bytes_ok_tac :=
  repeat first
    [ assumption
    | apply bytes_ok_app; split
    | apply uvarint_bytes_ok
    | apply put_prefixed_ok
    | apply byte_ok_one
    | apply u64_range
    | apply Forall_nil_2 ].

(** Bound every field of an encoding by the length of the whole. *)
Ltac split_len H :=
  rewrite ?blen_app in H;
  repeat match type of H with
  | context [blen ?b] =>
      lazymatch goal with
      | _ : 0 <= blen b |- _ => fail
      | _ => pose proof (blen_nonneg b)
      end
  end.

(** The same notion for decoders that also refuse with plain errors. *)
Definition reader_tot {A} (p : parser A) (Q : A -> Prop) : Prop :=
  forall r, reader_ok r ->
    match p r with
    | Ok (a, r') => reader_ok r' /\ Q a
    | Err _ => True
    | Panic => False
    end.

Lemma tot_wp {A} (p : parser A) Q : reader_wp p Q -> reader_tot p Q.
Proof.
  intros Hp r Hr. specialize (Hp r Hr). destruct (p r) as [[a r']| |]; try done.
  by destruct Hp as (? & _ & _ & ?).
Qed.

Lemma tot_ret {A} (a : A) (Q : A -> Prop) : Q a -> reader_tot (pret a) Q.
Proof. by intros Ha r Hr. Qed.

Lemma tot_bind {A B} (p : parser A) (k : A -> parser B) Q R :
  reader_tot p Q -> (forall a, Q a -> reader_tot (k a) R) -> reader_tot (pbind p k) R.
Proof.
  intros Hp Hk r Hr. specialize (Hp r Hr). unfold pbind.
  destruct (p r) as [[a r'] | |]; simpl; try done. destruct Hp as [Hr' Ha]. by apply Hk.
Qed.

Lemma tot_check c : reader_tot (pcheck c) (fun _ => c = None).
Proof. intros r Hr. unfold pcheck. by destruct c. Qed.

Lemma parse_tot {A} (p : parser A) (Q : A -> Prop) b :
  go_slice b -> reader_tot p Q ->
  match parse p b with Ok a => Q a | Err _ => True | Panic => False end.
Proof.
  intros Hb Hp. specialize (Hp _ (newReader_ok b Hb)). unfold parse.
  destruct (p (newReader b)) as [[a r'] | |]; simpl; try done. apply Hp.
Qed.
