(* ===== verification/Frame.v ===== *)
(** * Frame: the wire message ([src/attachwire/frame.go], [sequence.go])

    One frame is [type:u8 seq:varint rel_time:varint payload].  The file also
    states the interface [WireCodec] that every fixed-layout codec of the
    package implements, and what a client may conclude from it alone. *)

From S2P Require Import Prelude Varint Reader.

(** ** The codec interface

    [enc] may refuse a value (a producer-side check), [dec] may refuse bytes.
    [wf] is the set of values a decoder can return. *)
Class WireCodec (A : Type) := {
  enc : A -> wire bytes;
  dec : bytes -> wire A;
  wf : A -> Prop;
  enc_total a : wf a -> exists b, enc a = Ok b;
  enc_bytes a b : wf a -> enc a = Ok b -> bytes_ok b;
  dec_enc a b : wf a -> enc a = Ok b -> blen b < 2 ^ 63 -> dec b = Ok a;
  dec_safe b : go_slice b -> decode_safe wf (dec b)
}.

Section codec_clients.
Context {A : Type} `{WireCodec A}.

(** Two values with the same encoding are equal. *)
Lemma enc_injective a1 a2 b :
  wf a1 -> wf a2 -> enc a1 = Ok b -> enc a2 = Ok b -> blen b < 2 ^ 63 -> a1 = a2.
Proof.
  intros Hw1 Hw2 H1 H2 Hl. pose proof (dec_enc a1 b Hw1 H1 Hl) as D1.
  rewrite (dec_enc a2 b Hw2 H2 Hl) in D1. by injection D1.
Qed.

(** A decoded value can be encoded again, and that encoding decodes to it. *)
Lemma dec_reencode b a :
  go_slice b -> dec b = Ok a ->
  exists b', enc a = Ok b' /\ (blen b' < 2 ^ 63 -> dec b' = Ok a).
Proof.
  intros Hb Hd. pose proof (dec_safe b Hb) as Hs. rewrite Hd in Hs. simpl in Hs.
  destruct (enc_total a Hs) as [b' Hb']. exists b'. split; [done|]. intros Hl. by apply dec_enc.
Qed.

(** A decoder never panics and every rejection is a framing error. *)
Lemma dec_rejects_framing b :
  go_slice b -> match dec (A := A) b with Ok _ => True | Err e => IsFramingErr e = true | Panic => False end.
Proof. intros Hb. pose proof (dec_safe b Hb) as Hs. by destruct (dec b). Qed.
End codec_clients.

(** ** Event types *)

(** [EventType] is a [uint8]; the registry of section 3. *)
Abbreviation EventType := Z.
Definition TypeOutput : EventType := 1.
Definition TypeInput : EventType := 2.
Definition TypeResize : EventType := 3.
Definition TypeMarker : EventType := 4.
Definition TypeExit : EventType := 5.
Definition TypeSnapshot : EventType := 6.
Definition TypeControl : EventType := 7.

Definition Known (t : EventType) : bool := (TypeOutput <=? t) && (t <=? TypeControl).

Definition hexDigits : bytes := str "0123456789ABCDEF".

Definition hexByte (b : Z) : outcome WireError bytes :=
  obind (index hexDigits (Z.shiftr b 4)) (fun hi =>
  obind (index hexDigits (Z.land b 15)) (fun lo => Ok [hi; lo])).

Definition EventType_String (t : EventType) : outcome WireError bytes :=
  if t =? TypeOutput then Ok (str "Output")
  else if t =? TypeInput then Ok (str "Input")
  else if t =? TypeResize then Ok (str "Resize")
  else if t =? TypeMarker then Ok (str "Marker")
  else if t =? TypeExit then Ok (str "Exit")
  else if t =? TypeSnapshot then Ok (str "Snapshot")
  else if t =? TypeControl then Ok (str "Control")
  else obind (hexByte t) (fun h => Ok (str "Unknown(0x" ++ h ++ str ")")).

(** ** Frames *)

Record Frame := {
  Type_ : EventType;
  Seq : Z;
  RelTime : Z;
  Payload : bytes
}.

Definition EncodeFrame (f : Frame) : bytes :=
  let b := [] ++ [u8 (Type_ f)] in
  let b := AppendUvarint b (Seq f) in
  let b := AppendUvarint b (RelTime f) in
  b ++ Payload f.

(** [readByte] failing is reported as the empty frame. *)
Definition read_type : parser EventType := fun r =>
  match readByte r with
  | Ok tr => Ok tr
  | Err _ => Err (FramingError EmptyFrame)
  | Panic => Panic
  end.

Definition DecodeFrame (b : bytes) : wire Frame :=
  parse (let! t := read_type in
         let! _ := pcheck (if Known t then None else Some (FramingError (UnknownEventType t))) in
         let! seq := reader_uvarint in
         let! rel := reader_uvarint in
         let! payload := remainingCopy in
         pret {| Type_ := t; Seq := seq; RelTime := rel; Payload := payload |}) b.

Definition NewControlFrame (payload : bytes) : Frame :=
  {| Type_ := TypeControl; Seq := 0; RelTime := 0; Payload := payload |}.

Definition NewViewportResizeFrame (payload : bytes) : Frame :=
  {| Type_ := TypeResize; Seq := 0; RelTime := 0; Payload := payload |}.

Definition RequiresZeroedHeaders (t : EventType) (producedByHost : bool) : bool :=
  if t =? TypeControl then true
  else if t =? TypeResize then negb producedByHost
  else false.

(** The sequence namespaces. *)
Definition HostSeqStart : Z := 1.
Definition InputSeqStart : Z := 1.
Definition PostExitSnapshotSeq : Z := 0.

(** ** Frame codec *)

Definition frame_wf (f : Frame) : Prop :=
  Known (Type_ f) = true /\ u64_ok (Seq f) /\ u64_ok (RelTime f) /\ bytes_ok (Payload f).

Lemma Known_range t : Known t = true -> 1 <= t <= 7.
Proof. unfold Known, TypeOutput, TypeControl. lia. Qed.

Lemma EncodeFrame_eq f :
  frame_wf f ->
  EncodeFrame f = [Type_ f] ++ uvarint_bytes (Seq f) ++ uvarint_bytes (RelTime f) ++ Payload f.
Proof.
  intros (Ht%Known_range & _). unfold EncodeFrame, AppendUvarint, u8. rewrite Z.mod_small by lia.
  by rewrite <- !app_assoc.
Qed.

Lemma reads_type t : reads read_type [t] t.
Proof. intros r tail Hr Hs. unfold read_type. by rewrite (reads_byte t r tail Hr Hs). Qed.

Lemma wp_type : reader_wp read_type u8_ok.
Proof.
  intros r Hr. pose proof (wp_byte r Hr). unfold read_type. by destruct (readByte r) as [[? ?] | |].
Qed.

#[export] Hint Resolve reads_type wp_type : go.

Lemma EncodeFrame_bytes f : frame_wf f -> bytes_ok (EncodeFrame f).
Proof.
  intros Hf. rewrite EncodeFrame_eq by done. destruct Hf as (Ht%Known_range & Hs & Hr & Hp).
  bytes_ok_tac. go_simp. lia.
Qed.

Lemma DecodeFrame_EncodeFrame f :
  frame_wf f -> blen (EncodeFrame f) < 2 ^ 63 -> DecodeFrame (EncodeFrame f) = Ok f.
Proof.
  intros Hf Hl. apply parse_reads; [split; [done | by apply EncodeFrame_bytes]|].
  rewrite EncodeFrame_eq by done. destruct Hf as (Ht & Hs & Hr & Hp).
  codec. - by rewrite Ht. - destruct f. apply reads_end_ret.
Qed.

Lemma DecodeFrame_safe b : go_slice b -> decode_safe frame_wf (DecodeFrame b).
Proof.
  intros Hb. apply parse_safe; [done|].
  wp_steps.
  - intros e. by destruct (Known _); intros [= <-].
  - split; [simpl; by destruct (Known _) | done].
Qed.

#[export, program] Instance Frame_codec : WireCodec Frame := {|
  enc f := Ok (EncodeFrame f);
  dec := DecodeFrame;
  wf := frame_wf
|}.
Next Obligation. by eexists. Qed.
Next Obligation. intros f b Hf [= <-]. by apply EncodeFrame_bytes. Qed.
Next Obligation. intros f b Hf [= <-]. by apply DecodeFrame_EncodeFrame. Qed.
Next Obligation. apply DecodeFrame_safe. Qed.

(** ** Properties *)

(** Frame round trip: a frame with an assigned event type, 64-bit headers
    and a byte payload decodes from its own encoding to itself, so distinct
    frames have distinct encodings. *)
Theorem frame_roundtrip (f : Frame) :
  frame_wf f -> blen (EncodeFrame f) < 2 ^ 63 ->
  DecodeFrame (EncodeFrame f) = Ok f /\
  (forall g, frame_wf g -> EncodeFrame g = EncodeFrame f -> g = f).
Proof.
  intros Hf Hl. split; [by apply DecodeFrame_EncodeFrame|].
  intros g Hg Heq. apply (enc_injective g f (EncodeFrame f)); try done. simpl. by rewrite Heq.
Qed.

Definition sample_frame : Frame :=
  {| Type_ := TypeOutput; Seq := 300; RelTime := 2 ^ 64 - 1; Payload := str "hi" |}.

Lemma frame_roundtrip_witness :
  DecodeFrame (EncodeFrame sample_frame) = Ok sample_frame /\
  (forall g, frame_wf g -> EncodeFrame g = EncodeFrame sample_frame -> g = sample_frame).
Proof.
  apply frame_roundtrip; [|vm_compute; done].
  repeat split; try (vm_compute; done); try (vm_compute; discriminate).
  repeat constructor; vm_compute; done.
Defined.

(** The header reads of [DecodeFrame] move the cursor by 1 to 10 bytes each. *)
Lemma uvarint_moves r v r' :
  reader_ok r -> reader_uvarint r = Ok (v, r') ->
  reader_ok r' /\ buf r' = buf r /\ 0 < off r' - off r <= MaxVarintLen.
Proof.
  intros Hr H. pose proof (wp_uvarint r Hr) as Hw. rewrite H in Hw.
  destruct Hw as (Hr' & Hb & _). split; [done|]. split; [done|].
  unfold reader_uvarint in H. rewrite slice_from_unread in H by done. simpl in H.
  destruct (Uvarint (unread r)) as [[v' n]| |] eqn:E; simpl in H; try discriminate.
  injection H as <- <-. apply Uvarint_ok_inv in E; [|by apply unread_ok]. simpl. lia.
Qed.

Lemma read_type_moves b t r' :
  read_type (newReader b) = Ok (t, r') ->
  b !! 0%nat = Some t /\ buf r' = b /\ off r' = 1.
Proof.
  unfold read_type, readByte. simpl. destruct b as [|x b]; [by rewrite blen_nil|].
  rewrite blen_cons. pose proof (blen_nonneg b). destruct (Z.leb_spec (1 + blen b) 0); [lia|].
  intros [= <- <-]. done.
Qed.

Lemma DecodeFrame_inv b f :
  go_slice b -> DecodeFrame b = Ok f ->
  b !! 0%nat = Some (Type_ f) /\ exists hdr, b = hdr ++ Payload f /\ 3 <= blen hdr <= 21.
Proof.
  intros Hb H. unfold DecodeFrame, parse, pbind in H.
  pose proof (wp_type _ (newReader_ok b Hb)) as Hw.
  destruct (read_type (newReader b)) as [[t r1]| |] eqn:E1; simpl in H; try discriminate.
  destruct Hw as (Hr1 & _). apply read_type_moves in E1 as (Ht & Hb1 & Ho1).
  destruct (Known t); simpl in H; [|discriminate].
  destruct (reader_uvarint r1) as [[s r2]| |] eqn:E2; simpl in H; try discriminate.
  apply uvarint_moves in E2 as (Hr2 & Hb2 & Ho2); [|done].
  destruct (reader_uvarint r2) as [[rel r3]| |] eqn:E3; simpl in H; try discriminate.
  apply uvarint_moves in E3 as (Hr3 & Hb3 & Ho3); [|done].
  unfold remainingCopy in H. rewrite slice_from_unread in H by done. simpl in H.
  injection H as <-. simpl. rewrite cloneBytes_id. split; [done|].
  exists (take (Z.to_nat (off r3)) b). unfold unread. rewrite Hb3, Hb2, Hb1, take_drop. split; [done|].
  destruct Hr3 as [Ho _]. unfold MaxVarintLen, blen in *. rewrite length_take.
  rewrite Hb3, Hb2, Hb1 in Ho. lia.
Qed.

(** Frame decoding is total and strict: on every byte slice it returns
    without a panic; an accepted frame has an assigned type (the first byte of
    the message), 64-bit headers and a payload that is exactly the input after a
    header of 3 to 21 bytes; an empty message is rejected as missing its type
    byte, an unassigned type byte as such, and every rejection is a framing
    error. *)
Theorem frame_decode_strict (b : bytes) :
  go_slice b ->
  match DecodeFrame b with
  | Ok f => frame_wf f /\ b !! 0%nat = Some (Type_ f) /\
            (exists hdr, b = hdr ++ Payload f /\ 3 <= blen hdr <= 21)
  | Err e => IsFramingErr e = true
  | Panic => False
  end /\
  (b = [] -> DecodeFrame b = Err (FramingError EmptyFrame)) /\
  (forall t rest, b = t :: rest -> Known t = false ->
     DecodeFrame b = Err (FramingError (UnknownEventType t))).
Proof.
  intros Hb. split; [|split].
  - pose proof (DecodeFrame_safe b Hb) as Hs.
    destruct (DecodeFrame b) as [f| |] eqn:E; try done. simpl in Hs.
    split; [done | by apply DecodeFrame_inv].
  - by intros ->.
  - intros t rest -> Ht. unfold DecodeFrame, parse, pbind.
    rewrite (reads_type t _ rest (newReader_ok _ Hb)) by apply unread_new. simpl. by rewrite Ht.
Qed.

Lemma frame_decode_strict_witness :
  DecodeFrame [8; 1; 1] = Err (FramingError (UnknownEventType 8)).
Proof.
  apply (frame_decode_strict [8; 1; 1]) with (rest := [1; 1]); try reflexivity.
  split; [vm_compute; done | repeat constructor; vm_compute; done].
Defined.
