(* ===== verification/Payloads.v ===== *)
(** * Payloads: the typed payload codecs ([src/attachwire/payloads.go], [exit.go])

    Output, Input, Resize, Marker, the Snapshot envelope, the Control envelope
    and Exit, each with its encoder, its decoder and its [WireCodec] instance;
    then the exit-code convention. A Go [string] field is its bytes. *)

From S2P Require Import Prelude Varint Reader Frame.

(** ** Output *)

Record OutputPayload := { OutputData : bytes }.

Definition EncodeOutput (data : bytes) : bytes := cloneBytes data.

Definition DecodeOutput (payload : bytes) : OutputPayload := {| OutputData := cloneBytes payload |}.

(** ** Input *)

Record InputPayload := {
  InputSeq : Z;
  PenGeneration : Z;
  UserID : bytes;
  InputData : bytes
}.

Definition Stamped (p : InputPayload) : bool := 0 <? blen (UserID p).

Definition SystemNudgeUserID : bytes := str "system:pty-nudge".

Definition InputPayload_Encode (p : InputPayload) : bytes :=
  let b := AppendUvarint [] (InputSeq p) in
  let b := AppendUvarint b (PenGeneration p) in
  let b := AppendUvarint b (u64 (blen (UserID p))) in
  let b := b ++ UserID p in
  let b := AppendUvarint b (u64 (blen (InputData p))) in
  b ++ InputData p.

Definition EncodeViewerInput (inputSeq penGeneration : Z) (data : bytes) : bytes :=
  InputPayload_Encode
    {| InputSeq := inputSeq; PenGeneration := penGeneration; UserID := []; InputData := data |}.

Definition DecodeInput (payload : bytes) : wire InputPayload :=
  parse (let! inputSeq := reader_uvarint in
         let! penGen := reader_uvarint in
         let! userID := lenPrefixed in
         let! data := lenPrefixed in
         let! _ := expectDone in
         pret {| InputSeq := inputSeq; PenGeneration := penGen;
                 UserID := userID; InputData := data |}) payload.

(** ** Resize *)

Record ResizePayload := { Cols : Z; Rows : Z; PxWidth : Z; PxHeight : Z }.

(** [Validate]: [None] is Go's nil error. *)
Definition ResizePayload_Validate (p : ResizePayload) : option WireError :=
  if (Cols p =? 0) || (Rows p =? 0)
  then Some (FramingError (ResizeZero (Cols p) (Rows p))) else None.

Definition ResizePayload_Encode (p : ResizePayload) : wire bytes :=
  match ResizePayload_Validate p with
  | Some e => Err e
  | None =>
      let b := AppendUvarint [] (Cols p) in
      let b := AppendUvarint b (Rows p) in
      let b := AppendUvarint b (PxWidth p) in
      Ok (AppendUvarint b (PxHeight p))
  end.

Definition DecodeResize (payload : bytes) : wire ResizePayload :=
  parse (let! cols := reader_uvarint in
         let! rows := reader_uvarint in
         let! pxW := reader_uvarint in
         let! pxH := reader_uvarint in
         let! _ := expectDone in
         let p := {| Cols := cols; Rows := rows; PxWidth := pxW; PxHeight := pxH |} in
         let! _ := pcheck (ResizePayload_Validate p) in
         pret p) payload.

(** ** Marker *)

Record MarkerPayload := { Label : bytes }.

Definition MarkerPayload_Encode (p : MarkerPayload) : bytes :=
  AppendUvarint [] (u64 (blen (Label p))) ++ Label p.

Definition DecodeMarker (payload : bytes) : wire MarkerPayload :=
  parse (let! label := lenPrefixed in
         let! _ := expectDone in
         pret {| Label := label |}) payload.

(** ** Snapshot envelope *)

Definition SnapFormatScreen : Z := 1.

Record SnapshotEnvelope := { EnvAtSeq : Z; SnapFormat : Z; Snap : bytes }.

Definition SnapshotEnvelope_Encode (e : SnapshotEnvelope) : bytes :=
  let b := AppendUvarint [] (EnvAtSeq e) in
  let b := b ++ [SnapFormat e] in
  let b := AppendUvarint b (u64 (blen (Snap e))) in
  b ++ Snap e.

Definition DecodeSnapshotEnvelope (payload : bytes) : wire SnapshotEnvelope :=
  parse (let! atSeq := reader_uvarint in
         let! sf := readByte in
         let! snap := lenPrefixed in
         let! _ := expectDone in
         pret {| EnvAtSeq := atSeq; SnapFormat := sf; Snap := snap |}) payload.

(** ** Control envelope *)

Definition EncodeControlPayload (jsonObj : bytes) : bytes :=
  AppendUvarint [] (u64 (blen jsonObj)) ++ jsonObj.

Definition DecodeControlPayload (payload : bytes) : wire bytes :=
  parse (let! j := lenPrefixed in
         let! _ := expectDone in
         pret j) payload.

(** ** Exit *)

Definition ExitSignalBase : Z := 128.

Record ExitPayload := { ExitCode : Z; Signal : bytes }.

Definition NewNormalExit (code : Z) : ExitPayload := {| ExitCode := code; Signal := [] |}.

(** [uint64(ExitSignalBase + signum)] on a Go [int]. *)
Definition ExitCodeForSignal (signum : Z) : Z := u64 (i64 (ExitSignalBase + signum)).

Definition NewSignalExit (signal : bytes) (signum : Z) : ExitPayload :=
  {| ExitCode := ExitCodeForSignal signum; Signal := signal |}.

Definition SignalName (signum : Z) : bytes :=
  match signum with
  | 1 => str "SIGHUP"
  | 2 => str "SIGINT"
  | 3 => str "SIGQUIT"
  | 4 => str "SIGILL"
  | 6 => str "SIGABRT"
  | 8 => str "SIGFPE"
  | 9 => str "SIGKILL"
  | 11 => str "SIGSEGV"
  | 13 => str "SIGPIPE"
  | 14 => str "SIGALRM"
  | 15 => str "SIGTERM"
  | _ => []
  end.

Definition SignumFromExitCode (code : Z) : Z * bool :=
  if (ExitSignalBase <? code) && (code <=? ExitSignalBase + 255)
  then (i64 (i64 code - ExitSignalBase), true) else (0, false).

Definition BySignal (p : ExitPayload) : bool := negb (bytes_eqb (Signal p) []).

Definition ExitPayload_Encode (p : ExitPayload) : bytes :=
  let b := AppendUvarint [] (ExitCode p) in
  let b := AppendUvarint b (u64 (blen (Signal p))) in
  b ++ Signal p.

Definition DecodeExit (payload : bytes) : wire ExitPayload :=
  parse (let! code := reader_uvarint in
         let! sig := lenPrefixed in
         let! _ := expectDone in
         pret {| ExitCode := code; Signal := sig |}) payload.

(** ** Codec instances *)

(** The bytes of a length-prefixed field: a Go slice of bytes. *)
Definition field_ok (b : bytes) : Prop := blen b < 2 ^ 64 /\ bytes_ok b.

Lemma field_ok_intro b : u64_ok (blen b) -> bytes_ok b -> field_ok b.
Proof. intros [_ H]. by split. Qed.

Lemma put_prefixed_eq b : put_prefixed b = uvarint_bytes (u64 (blen b)) ++ b.
Proof. done. Qed.

(** Normalise an encoder's append chain, folding length prefixes. *)
Ltac fold_prefixed :=
  repeat match goal with
  | |- context [uvarint_bytes (u64 (blen ?b)) ++ ?b ++ ?t] =>
      replace (uvarint_bytes (u64 (blen b)) ++ b ++ t) with (put_prefixed b ++ t)
        by (by rewrite put_prefixed_eq, <- app_assoc)
  | |- context [uvarint_bytes (u64 (blen ?b)) ++ ?b] =>
      replace (uvarint_bytes (u64 (blen b)) ++ b) with (put_prefixed b ++ [])
        by (by rewrite put_prefixed_eq, app_nil_r)
  end.

Ltac enc_bytes_tac := unfold AppendUvarint; rewrite ?app_nil_l; bytes_ok_tac.

Ltac dec_enc_tac Hl :=
  apply parse_reads; [split; [exact Hl | enc_bytes_tac; auto; lia]|];
  unfold AppendUvarint in *; rewrite ?app_nil_l, <- ?app_assoc in *;
  fold_prefixed; codec.

Definition input_wf (p : InputPayload) : Prop :=
  u64_ok (InputSeq p) /\ u64_ok (PenGeneration p) /\ field_ok (UserID p) /\ field_ok (InputData p).

Lemma DecodeInput_Encode p :
  input_wf p -> blen (InputPayload_Encode p) < 2 ^ 63 ->
  DecodeInput (InputPayload_Encode p) = Ok p.
Proof.
  destruct p as [seq pen user data]. intros (Hs & Hg & [_ Hu] & [_ Hd]) Hl; cbn in *.
  unfold DecodeInput, InputPayload_Encode, AppendUvarint in *. cbn in *. pose proof Hl as Hf. split_len Hf.
  assert (blen user < 2 ^ 63) by lia. assert (blen data < 2 ^ 63) by lia.
  dec_enc_tac Hl.
Qed.

Lemma DecodeInput_safe b : go_slice b -> decode_safe input_wf (DecodeInput b).
Proof.
  intros Hb. apply parse_safe; [done|]. wp_steps.
  destruct H1, H2. split; [done|]. split; [done|]. by split; apply field_ok_intro.
Qed.

#[export, program] Instance Input_codec : WireCodec InputPayload := {|
  enc p := Ok (InputPayload_Encode p); dec := DecodeInput; wf := input_wf
|}.
Next Obligation. by eexists. Qed.
Next Obligation.
  intros p b (Hs & Hg & [_ Hu] & [_ Hd]) [= <-]. unfold InputPayload_Encode. enc_bytes_tac.
Qed.
Next Obligation. intros p b Hp [= <-]. by apply DecodeInput_Encode. Qed.
Next Obligation. apply DecodeInput_safe. Qed.

Definition resize_wf (p : ResizePayload) : Prop :=
  u64_ok (Cols p) /\ u64_ok (Rows p) /\ u64_ok (PxWidth p) /\ u64_ok (PxHeight p) /\
  ResizePayload_Validate p = None.

Lemma Resize_bytes p b : resize_wf p -> ResizePayload_Encode p = Ok b -> bytes_ok b.
Proof.
  intros (H1 & H2 & H3 & H4 & Hv) He. unfold ResizePayload_Encode in He. rewrite Hv in He.
  injection He as <-. enc_bytes_tac.
Qed.

Lemma DecodeResize_Encode p b :
  resize_wf p -> ResizePayload_Encode p = Ok b -> blen b < 2 ^ 63 -> DecodeResize b = Ok p.
Proof.
  intros Hp He Hl. pose proof (Resize_bytes p b Hp He) as Hb.
  destruct p as [c r w h]. destruct Hp as (H1 & H2 & H3 & H4 & Hv).
  cbn [Cols Rows PxWidth PxHeight] in *. unfold ResizePayload_Encode in He. rewrite Hv in He.
  injection He as <-. apply parse_reads; [by split|]. unfold AppendUvarint.
  cbn [Cols Rows PxWidth PxHeight]. rewrite <- (app_nil_r (uvarint_bytes h)). simpl app. codec.
Qed.

Lemma DecodeResize_safe b : go_slice b -> decode_safe resize_wf (DecodeResize b).
Proof.
  intros Hb. apply parse_safe; [done|]. wp_steps.
  - intros e. unfold ResizePayload_Validate. destruct (_ || _); by intros [= <-].
  - by repeat (split; [assumption|]).
Qed.

#[export, program] Instance Resize_codec : WireCodec ResizePayload := {|
  enc := ResizePayload_Encode; dec := DecodeResize; wf := resize_wf
|}.
Next Obligation. intros p (_ & _ & _ & _ & Hv). unfold ResizePayload_Encode. rewrite Hv. by eexists. Qed.
Next Obligation. apply Resize_bytes. Qed.
Next Obligation. apply DecodeResize_Encode. Qed.
Next Obligation. apply DecodeResize_safe. Qed.

Definition marker_wf (p : MarkerPayload) : Prop := field_ok (Label p).

#[export, program] Instance Marker_codec : WireCodec MarkerPayload := {|
  enc p := Ok (MarkerPayload_Encode p); dec := DecodeMarker; wf := marker_wf
|}.
Next Obligation. by eexists. Qed.
Next Obligation. intros p b [_ Hp] [= <-]. unfold MarkerPayload_Encode. enc_bytes_tac. Qed.
Next Obligation.
  intros [l] b [_ Hp] [= <-] Hl. unfold DecodeMarker, MarkerPayload_Encode, AppendUvarint in *.
  cbn [Label] in *. pose proof Hl as Hf. split_len Hf. assert (blen l < 2 ^ 63) by lia. dec_enc_tac Hl.
Qed.
Next Obligation.
  intros b Hb. apply parse_safe; [done|]. wp_steps. destruct H. by apply field_ok_intro.
Qed.

Definition envelope_wf (e : SnapshotEnvelope) : Prop :=
  u64_ok (EnvAtSeq e) /\ u8_ok (SnapFormat e) /\ field_ok (Snap e).

#[export, program] Instance Envelope_codec : WireCodec SnapshotEnvelope := {|
  enc e := Ok (SnapshotEnvelope_Encode e); dec := DecodeSnapshotEnvelope; wf := envelope_wf
|}.
Next Obligation. by eexists. Qed.
Next Obligation.
  intros e b (Ha & Hf & [_ Hs]) [= <-]. unfold SnapshotEnvelope_Encode. enc_bytes_tac.
Qed.
Next Obligation.
  intros [a f s] b (Ha & Hf & [_ Hs]) [= <-] Hl.
  unfold DecodeSnapshotEnvelope, SnapshotEnvelope_Encode, AppendUvarint in *.
  cbn [EnvAtSeq SnapFormat Snap] in *. pose proof Hl as Hf'. split_len Hf'.
  assert (blen s < 2 ^ 63) by lia. dec_enc_tac Hl.
Qed.
Next Obligation.
  intros b Hb. apply parse_safe; [done|]. wp_steps.
  destruct H1. split; [done|]. split; [done|]. by apply field_ok_intro.
Qed.

(** The Control envelope: the value is the JSON bytes themselves. *)
Lemma DecodeControlPayload_Encode j :
  field_ok j -> blen (EncodeControlPayload j) < 2 ^ 63 ->
  DecodeControlPayload (EncodeControlPayload j) = Ok j.
Proof.
  intros [_ Hj] Hl. unfold DecodeControlPayload, EncodeControlPayload, AppendUvarint in *.
  pose proof Hl as Hf. split_len Hf. assert (blen j < 2 ^ 63) by lia. dec_enc_tac Hl.
Qed.

Definition exit_wf (p : ExitPayload) : Prop := u64_ok (ExitCode p) /\ field_ok (Signal p).

Lemma ExitPayload_bytes p : exit_wf p -> bytes_ok (ExitPayload_Encode p).
Proof. intros (Hc & [_ Hs]). unfold ExitPayload_Encode. enc_bytes_tac. Qed.

Lemma DecodeExit_Encode p :
  exit_wf p -> blen (ExitPayload_Encode p) < 2 ^ 63 -> DecodeExit (ExitPayload_Encode p) = Ok p.
Proof.
  destruct p as [c s]. intros (Hc & [_ Hs]) Hl.
  unfold DecodeExit, ExitPayload_Encode, AppendUvarint in *. cbn [ExitCode Signal] in *.
  pose proof Hl as Hf. split_len Hf. assert (blen s < 2 ^ 63) by lia. dec_enc_tac Hl.
Qed.

Lemma DecodeExit_safe b : go_slice b -> decode_safe exit_wf (DecodeExit b).
Proof.
  intros Hb. apply parse_safe; [done|]. wp_steps. split; [done|]. destruct H0. by apply field_ok_intro.
Qed.

#[export, program] Instance Exit_codec : WireCodec ExitPayload := {|
  enc p := Ok (ExitPayload_Encode p); dec := DecodeExit; wf := exit_wf
|}.
Next Obligation. by eexists. Qed.
Next Obligation. intros p b Hp [= <-]. by apply ExitPayload_bytes. Qed.
Next Obligation. intros p b Hp [= <-]. by apply DecodeExit_Encode. Qed.
Next Obligation. apply DecodeExit_safe. Qed.

(** ** Trailing bytes *)

Ltac trailing_tac Hl :=
  let Hf := fresh in
  apply parse_reads_err; [exact Hl|]; destruct Hl as [Hf _];
  unfold AppendUvarint in *; rewrite ?app_nil_l, <- ?app_assoc in *;
  split_len Hf; fold_prefixed; codec_err.

Lemma DecodeInput_trailing p t :
  input_wf p -> t <> [] -> go_slice (InputPayload_Encode p ++ t) ->
  DecodeInput (InputPayload_Encode p ++ t) = Err (FramingError (TrailingBytes (blen t))).
Proof.
  destruct p as [seq pen user data]. intros (Hs & Hg & _ & _) Ht Hl.
  unfold InputPayload_Encode in *. cbn [InputSeq PenGeneration UserID InputData] in *.
  assert (blen user < 2 ^ 63 /\ blen data < 2 ^ 63) as [].
  { destruct Hl as [Hf _]. unfold AppendUvarint in Hf. split_len Hf. lia. }
  trailing_tac Hl.
Qed.

Lemma DecodeExit_trailing p t :
  exit_wf p -> t <> [] -> go_slice (ExitPayload_Encode p ++ t) ->
  DecodeExit (ExitPayload_Encode p ++ t) = Err (FramingError (TrailingBytes (blen t))).
Proof.
  destruct p as [c s]. intros (Hc & _) Ht Hl. unfold ExitPayload_Encode in *.
  cbn [ExitCode Signal] in *. assert (blen s < 2 ^ 63).
  { destruct Hl as [Hf _]. unfold AppendUvarint in Hf. split_len Hf. lia. }
  trailing_tac Hl.
Qed.

Lemma DecodeMarker_trailing p t :
  t <> [] -> go_slice (MarkerPayload_Encode p ++ t) ->
  DecodeMarker (MarkerPayload_Encode p ++ t) = Err (FramingError (TrailingBytes (blen t))).
Proof.
  destruct p as [l]. intros Ht Hl. unfold MarkerPayload_Encode in *. cbn [Label] in *.
  assert (blen l < 2 ^ 63).
  { destruct Hl as [Hf _]. unfold AppendUvarint in Hf. split_len Hf. lia. }
  trailing_tac Hl.
Qed.

Lemma DecodeSnapshotEnvelope_trailing e t :
  envelope_wf e -> t <> [] -> go_slice (SnapshotEnvelope_Encode e ++ t) ->
  DecodeSnapshotEnvelope (SnapshotEnvelope_Encode e ++ t) = Err (FramingError (TrailingBytes (blen t))).
Proof.
  destruct e as [a f s]. intros (Ha & _) Ht Hl. unfold SnapshotEnvelope_Encode in *.
  cbn [EnvAtSeq SnapFormat Snap] in *. assert (blen s < 2 ^ 63).
  { destruct Hl as [Hf _]. unfold AppendUvarint in Hf. split_len Hf. lia. }
  trailing_tac Hl.
Qed.

Lemma DecodeResize_trailing p b t :
  resize_wf p -> ResizePayload_Encode p = Ok b -> t <> [] -> go_slice (b ++ t) ->
  DecodeResize (b ++ t) = Err (FramingError (TrailingBytes (blen t))).
Proof.
  destruct p as [c r w h]. intros (H1 & H2 & H3 & H4 & Hv) He Ht Hl.
  cbn [Cols Rows PxWidth PxHeight] in *. unfold ResizePayload_Encode in He. rewrite Hv in He.
  injection He as <-. cbn [Cols Rows PxWidth PxHeight] in *. trailing_tac Hl.
Qed.

(** ** Properties *)

(** Typed messages round trip end to end: for every payload codec of the
    package (any [WireCodec]), a frame built from a well-formed value's encoding
    decodes to a frame with the same type and headers whose payload decodes to
    that value. *)
Theorem typed_frame_roundtrip {A} `{WireCodec A} (a : A) (b : bytes) (t : EventType) (seq rel : Z) :
  wf a -> enc a = Ok b -> Known t = true -> u64_ok seq -> u64_ok rel ->
  let f := {| Type_ := t; Seq := seq; RelTime := rel; Payload := b |} in
  blen (EncodeFrame f) < 2 ^ 63 ->
  exists g, DecodeFrame (EncodeFrame f) = Ok g /\
    Type_ g = t /\ Seq g = seq /\ RelTime g = rel /\ dec (Payload g) = Ok a.
Proof.
  intros Ha He Ht Hs Hr f Hl. exists f.
  assert (frame_wf f) as Hf by (do 3 (split; [done|]); by apply (enc_bytes a b)).
  split; [by apply DecodeFrame_EncodeFrame|]. repeat (split; [done|]).
  apply dec_enc; [done | done |]. rewrite EncodeFrame_eq in Hl by done. simpl Payload in *.
  split_len Hl. lia.
Qed.

Lemma typed_frame_roundtrip_witness :
  exists g, DecodeFrame (EncodeFrame
      {| Type_ := TypeExit; Seq := 9; RelTime := 70; Payload := [137; 1; 7; 83; 73; 71; 75; 73; 76; 76] |}) = Ok g /\
    Type_ g = TypeExit /\ Seq g = 9 /\ RelTime g = 70 /\
    dec (Payload g) = Ok (NewSignalExit (SignalName 9) 9).
Proof.
  apply (typed_frame_roundtrip (NewSignalExit (SignalName 9) 9)); try reflexivity.
  - split; [split; vm_compute; [discriminate | reflexivity] |].
    split; [reflexivity | repeat constructor; vm_compute; done].
  - split; vm_compute; done.
  - split; vm_compute; done.
Defined.

(** The structured payloads have a closed field list: whatever bytes follow
    a valid encoding, the decoders of Input, Resize, Marker, Snapshot envelope
    and Exit refuse the message, reporting exactly how many bytes were left. *)
Theorem payloads_reject_trailing (t : bytes) :
  t <> [] ->
  (forall p, input_wf p -> go_slice (InputPayload_Encode p ++ t) ->
     DecodeInput (InputPayload_Encode p ++ t) = Err (FramingError (TrailingBytes (blen t)))) /\
  (forall p b, resize_wf p -> ResizePayload_Encode p = Ok b -> go_slice (b ++ t) ->
     DecodeResize (b ++ t) = Err (FramingError (TrailingBytes (blen t)))) /\
  (forall p, go_slice (MarkerPayload_Encode p ++ t) ->
     DecodeMarker (MarkerPayload_Encode p ++ t) = Err (FramingError (TrailingBytes (blen t)))) /\
  (forall e, envelope_wf e -> go_slice (SnapshotEnvelope_Encode e ++ t) ->
     DecodeSnapshotEnvelope (SnapshotEnvelope_Encode e ++ t) = Err (FramingError (TrailingBytes (blen t)))) /\
  (forall p, exit_wf p -> go_slice (ExitPayload_Encode p ++ t) ->
     DecodeExit (ExitPayload_Encode p ++ t) = Err (FramingError (TrailingBytes (blen t)))).
Proof.
  intros Ht. repeat split; intros;
    eauto using DecodeInput_trailing, DecodeResize_trailing, DecodeMarker_trailing,
      DecodeSnapshotEnvelope_trailing, DecodeExit_trailing.
Qed.

Lemma payloads_reject_trailing_witness :
  DecodeExit (ExitPayload_Encode (NewNormalExit 3) ++ [0; 0]) = Err (FramingError (TrailingBytes 2)).
Proof.
  apply (payloads_reject_trailing [0; 0]); [discriminate | |].
  - split; [split; vm_compute; done | split; [reflexivity | constructor]].
  - split; [reflexivity | repeat constructor; vm_compute; done].
Defined.

(** Exit convention: for every signal number 1..255, a signal-death payload
    carries code 128+n, the arithmetic inverse recovers n, a named signal marks
    it as signal death, and the payload survives the wire; a normal exit is
    never marked as signal death, and codes up to 128 are never read as
    signals. *)
Theorem exit_convention (n code : Z) :
  1 <= n <= 255 -> u64_ok code ->
  let p := NewSignalExit (SignalName n) n in
  ExitCode p = 128 + n /\
  SignumFromExitCode (ExitCode p) = (n, true) /\
  (SignalName n <> [] -> BySignal p = true) /\
  DecodeExit (ExitPayload_Encode p) = Ok p /\
  BySignal (NewNormalExit code) = false /\
  DecodeExit (ExitPayload_Encode (NewNormalExit code)) = Ok (NewNormalExit code) /\
  (code <= 128 -> SignumFromExitCode code = (0, false)).
Proof.
  intros Hn Hc p.
  assert (Hcode : ExitCodeForSignal n = 128 + n).
  { unfold ExitCodeForSignal, ExitSignalBase. rewrite i64_small by lia. apply u64_small. go_simp. lia. }
  assert (Hname : field_ok (SignalName n) /\ blen (SignalName n) < 100).
  { unfold SignalName. destruct n as [|q|q]; try lia.
    do 9 (try destruct q as [q|q|]); (split; [split|]; [reflexivity | repeat constructor; vm_compute; done | reflexivity]). }
  assert (Hlen : forall q, exit_wf q -> blen (Signal q) < 100 -> blen (ExitPayload_Encode q) < 2 ^ 63).
  { intros q [Hq _] Hl. unfold ExitPayload_Encode, AppendUvarint. rewrite !blen_app, blen_nil.
    pose proof (uvarint_bytes_nonempty _ Hq). pose proof (uvarint_bytes_nonempty _ (u64_range (blen (Signal q)))).
    unfold MaxVarintLen in *. lia. }
  destruct Hname as [Hname Hnl].
  assert (exit_wf p). { split; [simpl; rewrite Hcode; go_simp; lia | done]. }
  assert (exit_wf (NewNormalExit code)). { split; [done | split; [reflexivity | constructor]]. }
  split; [done|]. split.
  { subst p. simpl. rewrite Hcode. unfold SignumFromExitCode, ExitSignalBase.
    destruct (Z.ltb_spec 128 (128 + n)), (Z.leb_spec (128 + n) (128 + 255)); try lia. simpl.
    rewrite (i64_small (128 + n)), i64_small by lia. f_equal. lia. }
  split. { subst p. unfold BySignal. simpl. destruct (SignalName n); done. }
  split; [apply DecodeExit_Encode; [done | by apply Hlen]|].
  split; [done|]. split; [apply DecodeExit_Encode; [done | by apply Hlen]|].
  intros Hle. unfold SignumFromExitCode, ExitSignalBase. destruct (Z.ltb_spec 128 code); [lia|done].
Qed.

Lemma exit_convention_witness :
  let p := NewSignalExit (SignalName 9) 9 in
  ExitCode p = 137 /\ BySignal (NewNormalExit 137) = false.
Proof.
  destruct (exit_convention 9 137) as (H1 & _ & _ & _ & H2 & _);
    [lia | unfold u64_ok; lia | split; [exact H1 | exact H2]].
Defined.
