(* ===== verification/Utf8.v ===== *)
(** * Utf8: runes in byte strings

    Go's [utf8.DecodeRune], [utf8.AppendRune] and [utf8.Valid] (standard
    library), and the loops of the package over them: [validateRuneBytes]
    ([src/attachwire/snapshot.go]), [UIString] and [isStripRune]
    ([src/attachwire/sanitize/uistring.go]).  The decoder is proved exact: it
    accepts precisely the shortest encodings of the Unicode scalar values. *)

From S2P Require Import Prelude Varint.

Definition RuneError : Z := 65533.
Definition MaxRune : Z := 1114111.

(** ** The standard library's decoder *)

(** [first[p0]]: the size of the sequence and the range of its second byte. *)
Definition lead_class (p0 : Z) : option (Z * Z * Z) :=
  if in_range 0xC2 0xDF p0 then Some (2, 0x80, 0xBF)
  else if p0 =? 0xE0 then Some (3, 0xA0, 0xBF)
  else if in_range 0xE1 0xEC p0 then Some (3, 0x80, 0xBF)
  else if p0 =? 0xED then Some (3, 0x80, 0x9F)
  else if in_range 0xEE 0xEF p0 then Some (3, 0x80, 0xBF)
  else if p0 =? 0xF0 then Some (4, 0x90, 0xBF)
  else if in_range 0xF1 0xF3 p0 then Some (4, 0x80, 0xBF)
  else if p0 =? 0xF4 then Some (4, 0x80, 0x8F)
  else None.

Definition cont_byte (b : Z) : bool := in_range 0x80 0xBF b.

Definition DecodeRune (p : bytes) : Z * Z :=
  match p with
  | [] => (RuneError, 0)
  | p0 :: p' =>
      if p0 <? 0x80 then (p0, 1)
      else match lead_class p0 with
      | None => (RuneError, 1)
      | Some (sz, lo, hi) =>
          match p' with
          | b1 :: p'' =>
              if negb (in_range lo hi b1) || (blen p <? sz) then (RuneError, 1)
              else if sz <=? 2 then
                (Z.lor (Z.shiftl (Z.land p0 0x1F) 6) (Z.land b1 0x3F), 2)
              else match p'' with
              | b2 :: p3 =>
                  if negb (cont_byte b2) then (RuneError, 1)
                  else if sz <=? 3 then
                    (Z.lor (Z.lor (Z.shiftl (Z.land p0 0x0F) 12) (Z.shiftl (Z.land b1 0x3F) 6))
                       (Z.land b2 0x3F), 3)
                  else match p3 with
                  | b3 :: _ =>
                      if negb (cont_byte b3) then (RuneError, 1)
                      else (Z.lor (Z.lor (Z.lor (Z.shiftl (Z.land p0 0x07) 18)
                              (Z.shiftl (Z.land b1 0x3F) 12)) (Z.shiftl (Z.land b2 0x3F) 6))
                              (Z.land b3 0x3F), 4)
                  | [] => (RuneError, 1)
                  end
              | [] => (RuneError, 1)
              end
          | [] => (RuneError, 1)
          end
      end
  end.

(** A Unicode scalar value. *)
Definition scalar (r : Z) : bool := in_range 0 0xD7FF r || in_range 0xE000 MaxRune r.

Definition AppendRune (dst : bytes) (r : Z) : bytes :=
  let r := if scalar r then r else RuneError in
  if r <=? 0x7F then dst ++ [r]
  else if r <=? 0x7FF then
    dst ++ [Z.lor 0xC0 (Z.shiftr r 6); Z.lor 0x80 (Z.land r 0x3F)]
  else if r <=? 0xFFFF then
    dst ++ [Z.lor 0xE0 (Z.shiftr r 12); Z.lor 0x80 (Z.land (Z.shiftr r 6) 0x3F);
            Z.lor 0x80 (Z.land r 0x3F)]
  else
    dst ++ [Z.lor 0xF0 (Z.shiftr r 18); Z.lor 0x80 (Z.land (Z.shiftr r 12) 0x3F);
            Z.lor 0x80 (Z.land (Z.shiftr r 6) 0x3F); Z.lor 0x80 (Z.land r 0x3F)].

(** ** Loops over runes

    [for i := 0; i < len(b); { r, size := utf8.DecodeRune(b[i:]); ...; i += size }]:
    every size is at least 1, so [length b] iterations are enough. *)

Fixpoint decode_all_loop (fuel : nat) (b : bytes) : list (Z * Z) :=
  match fuel, b with
  | S fuel', _ :: _ =>
      let '(r, size) := DecodeRune b in
      (r, size) :: decode_all_loop fuel' (drop (Z.to_nat size) b)
  | _, _ => []
  end.

(** The runes a Go [range] over the string yields, each with its width. *)
Definition decode_all (b : bytes) : list (Z * Z) := decode_all_loop (length b) b.

Definition rune_invalid (rs : Z * Z) : bool := (fst rs =? RuneError) && (snd rs =? 1).

(** [utf8.Valid], [utf8.ValidString] *)
Definition utf8_Valid (b : bytes) : bool := forallb (fun rs => negb (rune_invalid rs)) (decode_all b).

(** [unicode.IsControl]: the Latin-1 control table. *)
Definition unicode_IsControl (r : Z) : bool := in_range 0 0x1F r || in_range 0x7F 0x9F r.

(** ** [validateRuneBytes] *)

Fixpoint validateRuneBytes_loop (fuel : nat) (b : bytes) : option WireError :=
  match fuel, b with
  | S fuel', _ :: _ =>
      let '(rn, size) := DecodeRune b in
      if (rn =? RuneError) && (size =? 1) then Some (FramingError SnapInvalidUTF8)
      else if (rn <? 0x20) || (rn =? 0x7F) || ((0x80 <=? rn) && (rn <=? 0x9F))
      then Some (FramingError (SnapControlRune rn))
      else validateRuneBytes_loop fuel' (drop (Z.to_nat size) b)
  | _, _ => None
  end.

Definition validateRuneBytes (b : bytes) : option WireError := validateRuneBytes_loop (length b) b.

(** ** [UIString] *)

Definition isStripRune (r : Z) : bool := (r <? 0x20) || (r =? 0x7F) || ((0x80 <=? r) && (r <=? 0x9F)).

Fixpoint UIString_loop (fuel : nat) (s : bytes) (maxLen n : Z) (b : bytes) : bytes :=
  match fuel, s with
  | S fuel', _ :: _ =>
      let '(r, size) := DecodeRune s in
      if (r =? RuneError) && (size =? 1) then UIString_loop fuel' (drop 1 s) maxLen n b
      else
        let s' := drop (Z.to_nat size) s in
        if isStripRune r then UIString_loop fuel' s' maxLen n b
        else
          let b := AppendRune b r in
          let n := n + 1 in
          if maxLen <=? n then b else UIString_loop fuel' s' maxLen n b
  | _, _ => b
  end.

Definition UIString (s : bytes) (maxLen : Z) : bytes :=
  if maxLen <=? 0 then [] else UIString_loop (length s) s maxLen 0 [].

(** ** Arithmetic of the encoding *)

(** The encoding in plain arithmetic. *)
Definition rune_bytes (r : Z) : bytes :=
  if r <=? 0x7F then [r]
  else if r <=? 0x7FF then [192 + r / 64; 128 + r mod 64]
  else if r <=? 0xFFFF then [224 + r / 4096; 128 + (r / 64) mod 64; 128 + r mod 64]
  else [240 + r / 262144; 128 + (r / 4096) mod 64; 128 + (r / 64) mod 64; 128 + r mod 64].

Lemma lor_high k s x : 0 <= s -> 0 <= x < 2 ^ s -> Z.lor (Z.shiftl k s) x = k * 2 ^ s + x.
Proof. intros Hs Hx. rewrite Z.lor_comm, lor_shiftl_add by done. lia. Qed.

Lemma land_63 x : Z.land x 63 = x mod 64.
Proof. change 63 with (Z.ones 6). by rewrite Z.land_ones by lia. Qed.
Lemma land_31 x : Z.land x 31 = x mod 32.
Proof. change 31 with (Z.ones 5). by rewrite Z.land_ones by lia. Qed.
Lemma land_15 x : Z.land x 15 = x mod 16.
Proof. change 15 with (Z.ones 4). by rewrite Z.land_ones by lia. Qed.
Lemma land_7 x : Z.land x 7 = x mod 8.
Proof. change 7 with (Z.ones 3). by rewrite Z.land_ones by lia. Qed.

Lemma lor_128_low x : 0 <= x < 64 -> Z.lor 128 x = 128 + x.
Proof. intros. change 128 with (Z.shiftl 2 6) at 1. rewrite lor_high by lia. done. Qed.
Lemma lor_192_low x : 0 <= x < 32 -> Z.lor 192 x = 192 + x.
Proof. intros. change 192 with (Z.shiftl 3 6) at 1. rewrite lor_high by lia. done. Qed.
Lemma lor_224_low x : 0 <= x < 16 -> Z.lor 224 x = 224 + x.
Proof. intros. change 224 with (Z.shiftl 14 4) at 1. rewrite lor_high by lia. done. Qed.
Lemma lor_240_low x : 0 <= x < 8 -> Z.lor 240 x = 240 + x.
Proof. intros. change 240 with (Z.shiftl 30 3) at 1. rewrite lor_high by lia. done. Qed.

Lemma scalar_range r : scalar r = true -> 0 <= r < 0xD800 \/ 0xE000 <= r <= 0x10FFFF.
Proof. unfold scalar, in_range, MaxRune. lia. Qed.

Lemma AppendRune_eq dst r : scalar r = true -> AppendRune dst r = dst ++ rune_bytes r.
Proof.
  intros Hr. pose proof (scalar_range r Hr) as Hrg. unfold AppendRune, rune_bytes. rewrite Hr.
  rewrite !Z.shiftr_div_pow2, !land_63 by lia.
  change (2 ^ 6) with 64. change (2 ^ 12) with 4096. change (2 ^ 18) with 262144.
  pose proof (Z.mod_pos_bound r 64). pose proof (Z.mod_pos_bound (r / 64) 64).
  pose proof (Z.mod_pos_bound (r / 4096) 64).
  destruct (Z.leb_spec r 127); [done|].
  destruct (Z.leb_spec r 2047).
  { rewrite lor_128_low, lor_192_low; [done | | lia]. Z.to_euclidean_division_equations; lia. }
  destruct (Z.leb_spec r 65535).
  { rewrite !lor_128_low, lor_224_low by (Z.to_euclidean_division_equations; lia). done. }
  rewrite !lor_128_low, lor_240_low by (Z.to_euclidean_division_equations; lia). done.
Qed.

(** ** Decoding is exact *)

Definition rune2 (p0 b1 : Z) : Z := (p0 mod 32) * 64 + b1 mod 64.
Definition rune3 (p0 b1 b2 : Z) : Z := (p0 mod 16) * 4096 + b1 mod 64 * 64 + b2 mod 64.
Definition rune4 (p0 b1 b2 b3 : Z) : Z :=
  (p0 mod 8) * 262144 + b1 mod 64 * 4096 + b2 mod 64 * 64 + b3 mod 64.

Lemma lor2 a b : 0 <= b < 64 -> Z.lor (Z.shiftl a 6) b = a * 64 + b.
Proof. intros. rewrite lor_high by lia. done. Qed.

Lemma lor3 a b c : 0 <= b < 64 -> 0 <= c < 64 ->
  Z.lor (Z.lor (Z.shiftl a 12) (Z.shiftl b 6)) c = a * 4096 + b * 64 + c.
Proof.
  intros. change 12 with (6 + 6). rewrite <- Z.shiftl_shiftl, <- Z.shiftl_lor by lia.
  rewrite lor2, (lor_high _ 6) by lia. lia.
Qed.

Lemma lor4 a b c d : 0 <= b < 64 -> 0 <= c < 64 -> 0 <= d < 64 ->
  Z.lor (Z.lor (Z.lor (Z.shiftl a 18) (Z.shiftl b 12)) (Z.shiftl c 6)) d
  = a * 262144 + b * 4096 + c * 64 + d.
Proof.
  intros. change 18 with (12 + 6). change 12 with (6 + 6) at 2.
  rewrite <- !Z.shiftl_shiftl, <- !Z.shiftl_lor by lia.
  rewrite lor2, lor3 by lia. lia.
Qed.

Lemma DecodeRune_1 p0 rest : p0 < 128 -> DecodeRune (p0 :: rest) = (p0, 1).
Proof. intros H. simpl. destruct (Z.ltb_spec p0 128); [done|lia]. Qed.

Lemma DecodeRune_2 p0 b1 rest :
  lead_class p0 = Some (2, 128, 191) -> 128 <= p0 -> 128 <= b1 <= 191 ->
  DecodeRune (p0 :: b1 :: rest) = (rune2 p0 b1, 2).
Proof.
  intros Hc Hp Hb. unfold DecodeRune. rewrite Hc, !blen_cons. pose proof (blen_nonneg rest).
  destruct (Z.ltb_spec p0 128); [lia|]. unfold in_range.
  destruct (Z.leb_spec 128 b1), (Z.leb_spec b1 191), (Z.ltb_spec (1 + (1 + blen rest)) 2); try lia.
  cbn [negb andb orb Z.leb Z.compare Pos.compare Pos.compare_cont].
  rewrite land_31, land_63, lor2 by (apply Z.mod_pos_bound; lia). done.
Qed.

Lemma DecodeRune_3 p0 b1 b2 rest lo hi :
  lead_class p0 = Some (3, lo, hi) -> 128 <= p0 -> lo <= b1 <= hi -> 128 <= b2 <= 191 ->
  DecodeRune (p0 :: b1 :: b2 :: rest) = (rune3 p0 b1 b2, 3).
Proof.
  intros Hc Hp Hb Hb2. unfold DecodeRune. rewrite Hc, !blen_cons. pose proof (blen_nonneg rest).
  destruct (Z.ltb_spec p0 128); [lia|]. unfold cont_byte, in_range.
  destruct (Z.leb_spec lo b1), (Z.leb_spec b1 hi), (Z.ltb_spec (1 + (1 + (1 + blen rest))) 3),
    (Z.leb_spec 128 b2), (Z.leb_spec b2 191); try lia.
  cbn [negb andb orb Z.leb Z.compare Pos.compare Pos.compare_cont].
  rewrite land_15, !land_63, lor3 by (apply Z.mod_pos_bound; lia). done.
Qed.

Lemma DecodeRune_4 p0 b1 b2 b3 rest lo hi :
  lead_class p0 = Some (4, lo, hi) -> 128 <= p0 -> lo <= b1 <= hi -> 128 <= b2 <= 191 ->
  128 <= b3 <= 191 ->
  DecodeRune (p0 :: b1 :: b2 :: b3 :: rest) = (rune4 p0 b1 b2 b3, 4).
Proof.
  intros Hc Hp Hb Hb2 Hb3. unfold DecodeRune. rewrite Hc, !blen_cons. pose proof (blen_nonneg rest).
  destruct (Z.ltb_spec p0 128); [lia|]. unfold cont_byte, in_range.
  destruct (Z.leb_spec lo b1), (Z.leb_spec b1 hi), (Z.ltb_spec (1 + (1 + (1 + (1 + blen rest)))) 4),
    (Z.leb_spec 128 b2), (Z.leb_spec b2 191), (Z.leb_spec 128 b3), (Z.leb_spec b3 191); try lia.
  cbn [negb andb orb Z.leb Z.compare Pos.compare Pos.compare_cont].
  rewrite land_7, !land_63, lor4 by (apply Z.mod_pos_bound; lia). done.
Qed.

(** The lead byte decides the class by range. *)
Lemma lead_class_2 p0 : 0xC2 <= p0 <= 0xDF -> lead_class p0 = Some (2, 128, 191).
Proof. intros. unfold lead_class, in_range. by bool_cases; try lia. Qed.

Lemma lead_class_3 p0 : 0xE0 <= p0 <= 0xEF ->
  lead_class p0 = Some (3, (if p0 =? 0xE0 then 160 else 128), (if p0 =? 0xED then 159 else 191)).
Proof. intros. unfold lead_class, in_range. by bool_cases; try lia. Qed.

Lemma lead_class_4 p0 : 0xF0 <= p0 <= 0xF4 ->
  lead_class p0 = Some (4, (if p0 =? 0xF0 then 144 else 128), (if p0 =? 0xF4 then 143 else 191)).
Proof. intros. unfold lead_class, in_range. by bool_cases; try lia. Qed.

Lemma lead_class_inv p0 sz lo hi :
  lead_class p0 = Some (sz, lo, hi) ->
  (sz = 2 /\ 0xC2 <= p0 <= 0xDF) \/ (sz = 3 /\ 0xE0 <= p0 <= 0xEF) \/ (sz = 4 /\ 0xF0 <= p0 <= 0xF4).
Proof. unfold lead_class, in_range. intros H. bool_cases; try discriminate; injection H as <- <- <-; lia. Qed.

Lemma DecodeRune_rune_bytes r rest :
  scalar r = true -> DecodeRune (rune_bytes r ++ rest) = (r, blen (rune_bytes r)).
Proof.
  intros Hr%scalar_range. unfold rune_bytes.
  destruct (Z.leb_spec r 127); [simpl app; rewrite DecodeRune_1 by lia; done|].
  destruct (Z.leb_spec r 2047).
  { simpl app. rewrite DecodeRune_2; [ | apply lead_class_2 | | ];
      try (Z.to_euclidean_division_equations; lia).
    f_equal. unfold rune2. Z.to_euclidean_division_equations; lia. }
  destruct (Z.leb_spec r 65535).
  { simpl app. assert (Hp : 224 <= 224 + r / 4096 <= 239) by (Z.to_euclidean_division_equations; lia).
    pose proof (lead_class_3 _ Hp) as Hc. rewrite (DecodeRune_3 _ _ _ _ _ _ Hc);
      [ | lia | | Z.to_euclidean_division_equations; lia ].
    - f_equal. unfold rune3. Z.to_euclidean_division_equations; lia.
    - destruct (Z.eqb_spec (224 + r / 4096) 224), (Z.eqb_spec (224 + r / 4096) 237);
        Z.to_euclidean_division_equations; lia. }
  simpl app. assert (Hp : 240 <= 240 + r / 262144 <= 244) by (Z.to_euclidean_division_equations; lia).
  pose proof (lead_class_4 _ Hp) as Hc. rewrite (DecodeRune_4 _ _ _ _ _ _ _ Hc);
    [ | lia | | Z.to_euclidean_division_equations; lia | Z.to_euclidean_division_equations; lia ].
  - f_equal. unfold rune4. Z.to_euclidean_division_equations; lia.
  - destruct (Z.eqb_spec (240 + r / 262144) 240), (Z.eqb_spec (240 + r / 262144) 244);
      Z.to_euclidean_division_equations; lia.
Qed.

Lemma rune_bytes_len r : 1 <= blen (rune_bytes r) <= 4.
Proof. unfold rune_bytes. bool_cases; unfold blen; simpl; lia. Qed.

Lemma rune2_bytes p0 b1 :
  0xC2 <= p0 <= 0xDF -> 128 <= b1 <= 191 ->
  scalar (rune2 p0 b1) = true /\ rune_bytes (rune2 p0 b1) = [p0; b1].
Proof.
  intros Hp Hb. assert (Hr : 128 <= rune2 p0 b1 <= 2047) by (unfold rune2; Z.to_euclidean_division_equations; lia).
  split; [unfold scalar, in_range, MaxRune; lia|]. unfold rune_bytes.
  destruct (Z.leb_spec (rune2 p0 b1) 127), (Z.leb_spec (rune2 p0 b1) 2047); try lia.
  unfold rune2 in *. f_equal; [|f_equal]; Z.to_euclidean_division_equations; lia.
Qed.

Lemma rune3_bytes p0 b1 b2 :
  0xE0 <= p0 <= 0xEF -> 128 <= b1 <= 191 -> 128 <= b2 <= 191 ->
  (p0 = 0xE0 -> 160 <= b1) -> (p0 = 0xED -> b1 <= 159) ->
  scalar (rune3 p0 b1 b2) = true /\ rune_bytes (rune3 p0 b1 b2) = [p0; b1; b2].
Proof.
  intros Hp Hb Hb2 HE0 HED.
  assert (Hr : rune3 p0 b1 b2 = (p0 - 224) * 4096 + (b1 - 128) * 64 + (b2 - 128))
    by (unfold rune3; Z.to_euclidean_division_equations; lia).
  rewrite Hr. clear Hr. set (r := (p0 - 224) * 4096 + (b1 - 128) * 64 + (b2 - 128)).
  split; [unfold scalar, in_range, MaxRune; lia|]. unfold rune_bytes.
  destruct (Z.leb_spec r 127), (Z.leb_spec r 2047), (Z.leb_spec r 65535); try lia.
  unfold r. f_equal; [|f_equal; [|f_equal]]; Z.to_euclidean_division_equations; lia.
Qed.

Lemma rune4_bytes p0 b1 b2 b3 :
  0xF0 <= p0 <= 0xF4 -> 128 <= b1 <= 191 -> 128 <= b2 <= 191 -> 128 <= b3 <= 191 ->
  (p0 = 0xF0 -> 144 <= b1) -> (p0 = 0xF4 -> b1 <= 143) ->
  scalar (rune4 p0 b1 b2 b3) = true /\ rune_bytes (rune4 p0 b1 b2 b3) = [p0; b1; b2; b3].
Proof.
  intros Hp Hb Hb2 Hb3 HF0 HF4.
  assert (Hr : rune4 p0 b1 b2 b3 = (p0 - 240) * 262144 + (b1 - 128) * 4096 + (b2 - 128) * 64 + (b3 - 128))
    by (unfold rune4; Z.to_euclidean_division_equations; lia).
  rewrite Hr. clear Hr.
  set (r := (p0 - 240) * 262144 + (b1 - 128) * 4096 + (b2 - 128) * 64 + (b3 - 128)).
  split; [unfold scalar, in_range, MaxRune; lia|]. unfold rune_bytes.
  destruct (Z.leb_spec r 127), (Z.leb_spec r 2047), (Z.leb_spec r 65535); try lia.
  unfold r. f_equal; [|f_equal; [|f_equal; [|f_equal]]]; Z.to_euclidean_division_equations; lia.
Qed.

(** What is not the error pair is the shortest encoding of a scalar value. *)
Lemma DecodeRune_inv p r n :
  bytes_ok p -> p <> [] -> DecodeRune p = (r, n) -> rune_invalid (r, n) = false ->
  scalar r = true /\ n = blen (rune_bytes r) /\ exists rest, p = rune_bytes r ++ rest.
Proof.
  intros Hb Hne Hd Hi. destruct p as [|p0 p']; [done|].
  apply Forall_cons in Hb as [Hp0 Hb]. unfold u8_ok in Hp0.
  assert (Hbad : (RuneError, 1) <> (r, n)) by (intros [= <- <-]; discriminate Hi).
  destruct (Z.ltb_spec p0 128) as [Hlt|Hge].
  { rewrite DecodeRune_1 in Hd by done. injection Hd as <- <-.
    assert (Hrb : rune_bytes p0 = [p0]) by (unfold rune_bytes; destruct (Z.leb_spec p0 127); [done|lia]).
    rewrite Hrb. split; [unfold scalar, in_range; lia|]. split; [done | by exists p']. }
  unfold DecodeRune in Hd. destruct (Z.ltb_spec p0 128); [lia|].
  destruct (lead_class p0) as [[[sz lo] hi]|] eqn:Hc; [|done].
  destruct p' as [|b1 p'']; [done|].
  destruct (in_range lo hi b1) eqn:Hr1; [|done]. simpl negb in Hd.
  destruct (blen (p0 :: b1 :: p'') <? sz); [done|]. simpl orb in Hd. cbv iota in Hd.
  assert (Hlead := lead_class_inv _ _ _ _ Hc). unfold in_range in Hr1.
  destruct Hlead as [[-> Hp]|[[-> Hp]|[-> Hp]]].
  - rewrite lead_class_2 in Hc by done. injection Hc as <- <-. simpl in Hd.
    rewrite land_31, land_63, lor2 in Hd by (apply Z.mod_pos_bound; lia). injection Hd as <- <-.
    destruct (rune2_bytes p0 b1) as [Hs Heq]; [lia|lia|]. unfold rune2 in *.
    rewrite Heq. split; [done|]. split; [done | by exists p''].
  - rewrite lead_class_3 in Hc by done. injection Hc as <- <-. simpl in Hd.
    destruct p'' as [|b2 p3]; [done|]. destruct (cont_byte b2) eqn:Hr2; [|done]. simpl in Hd.
    rewrite land_15, !land_63, lor3 in Hd by (apply Z.mod_pos_bound; lia). injection Hd as <- <-.
    unfold cont_byte, in_range in Hr2.
    destruct (rune3_bytes p0 b1 b2) as [Hs Heq];
      [lia | destruct (p0 =? 224), (p0 =? 237); lia | lia | intros ->; simpl in Hr1; lia
      | intros ->; simpl in Hr1; lia |].
    unfold rune3 in *. rewrite Heq. split; [done|]. split; [done | by exists p3].
  - rewrite lead_class_4 in Hc by done. injection Hc as <- <-. simpl in Hd.
    destruct p'' as [|b2 p3]; [done|]. destruct (cont_byte b2) eqn:Hr2; [|done]. simpl in Hd.
    destruct p3 as [|b3 p4]; [done|]. destruct (cont_byte b3) eqn:Hr3; [|done]. simpl in Hd.
    rewrite land_7, !land_63, lor4 in Hd by (apply Z.mod_pos_bound; lia). injection Hd as <- <-.
    unfold cont_byte, in_range in Hr2, Hr3.
    destruct (rune4_bytes p0 b1 b2 b3) as [Hs Heq];
      [lia | destruct (p0 =? 240), (p0 =? 244); lia | lia | lia | intros ->; simpl in Hr1; lia
      | intros ->; simpl in Hr1; lia |].
    unfold rune4 in *. rewrite Heq. split; [done|]. split; [done | by exists p4].
Qed.

Lemma drop_rune r rest : drop (Z.to_nat (blen (rune_bytes r))) (rune_bytes r ++ rest) = rest.
Proof. rewrite to_nat_blen. apply drop_app_length. Qed.

Lemma rune_bytes_cons r : exists b bs, rune_bytes r = b :: bs.
Proof. unfold rune_bytes. bool_cases; by eexists _, _. Qed.

(** ** Escape-safe text *)

(** The text of a list of runes. *)
Definition utf8_text (rs : list Z) : bytes := concat (map rune_bytes rs).

(** Printable runes: scalar values outside C0, DEL and C1. *)
Definition printable (r : Z) : Prop := scalar r = true /\ isStripRune r = false.

Lemma rune_bytes_not_invalid r : scalar r = true -> rune_invalid (r, blen (rune_bytes r)) = false.
Proof.
  intros Hr. unfold rune_invalid. simpl. destruct (Z.eqb_spec r RuneError) as [->|]; [|done]. done.
Qed.

Lemma validate_loop_text fuel rs :
  (length (utf8_text rs) <= fuel)%nat -> Forall printable rs ->
  validateRuneBytes_loop fuel (utf8_text rs) = None.
Proof.
  intros Hf Hrs. revert fuel Hf. induction Hrs as [|r rs [Hr Hp] _ IH]; intros fuel Hf; [by destruct fuel|].
  change (utf8_text (r :: rs)) with (rune_bytes r ++ utf8_text rs) in *.
  destruct (rune_bytes_cons r) as (b & bs & Hrb). rewrite length_app in Hf.
  destruct fuel as [|fuel]; [rewrite Hrb in Hf; simpl in Hf; lia|].
  assert (Hd := DecodeRune_rune_bytes r (utf8_text rs) Hr).
  assert (Hn := rune_bytes_not_invalid r Hr). unfold rune_invalid in Hn. simpl in Hn.
  rewrite Hrb in Hd |- *. simpl app in *. cbn [validateRuneBytes_loop]. rewrite Hd.
  rewrite <- Hrb, Hn. unfold isStripRune in Hp. rewrite Hp.
  change (b :: bs ++ utf8_text rs) with ((b :: bs) ++ utf8_text rs). rewrite <- Hrb, drop_rune.
  apply IH. rewrite Hrb in Hf. simpl in Hf. lia.
Qed.

Lemma validate_loop_inv fuel b :
  (length b <= fuel)%nat -> bytes_ok b -> validateRuneBytes_loop fuel b = None ->
  exists rs, b = utf8_text rs /\ Forall printable rs.
Proof.
  revert b. induction fuel as [|fuel IH]; intros b Hf Hb Hv.
  { destruct b; [|simpl in Hf; lia]. exists []. by split. }
  destruct b as [|x b]; [exists []; by split|].
  cbn [validateRuneBytes_loop] in Hv. destruct (DecodeRune (x :: b)) as [rn size] eqn:Hd.
  destruct ((rn =? RuneError) && (size =? 1)) eqn:Hi; [done|].
  destruct (_ || _ || _) eqn:Hs in Hv; [done|].
  apply DecodeRune_inv in Hd as (Hr & Hn & rest & Heq); [|done|done|done].
  rewrite Heq, Hn, drop_rune in Hv. pose proof (rune_bytes_len rn) as Hl.
  destruct (IH rest) as (rs & -> & Hrs).
  - apply (f_equal length) in Heq. rewrite length_app in Heq. unfold blen in Hl. simpl in *. lia.
  - rewrite Heq in Hb. apply bytes_ok_app in Hb. apply Hb.
  - done.
  - exists (rn :: rs). split; [done|]. constructor; [split; [done|] | done]. by unfold isStripRune.
Qed.

Lemma validateRuneBytes_iff b :
  bytes_ok b -> validateRuneBytes b = None <-> exists rs, b = utf8_text rs /\ Forall printable rs.
Proof.
  intros Hb. split.
  - by apply validate_loop_inv.
  - intros (rs & -> & Hrs). by apply validate_loop_text.
Qed.

Lemma validateRuneBytes_framing b e : validateRuneBytes b = Some e -> IsFramingErr e = true.
Proof.
  unfold validateRuneBytes. generalize (length b) at 1. intros fuel. revert b.
  induction fuel as [|fuel IH]; intros [|x b]; try done. cbn [validateRuneBytes_loop].
  destruct (DecodeRune (x :: b)) as [rn size].
  destruct ((rn =? RuneError) && (size =? 1)); [by intros [= <-]|].
  destruct ((rn <? 0x20) || _ || _); [by intros [= <-]|]. apply IH.
Qed.

(** ** [UIString] against its specification *)

(** The runes [UIString] may keep: the validly encoded ones that are not
    control characters, in order. *)
Definition keep_rune (rs : Z * Z) : bool := negb (rune_invalid rs) && negb (isStripRune (fst rs)).
Definition ui_runes (s : bytes) : list Z := map fst (List.filter keep_rune (decode_all s)).

Lemma DecodeRune_size_pos x s : 1 <= snd (DecodeRune (x :: s)) <= 4.
Proof.
  unfold DecodeRune. destruct (x <? 128); [simpl; lia|].
  destruct (lead_class x) as [[[sz lo] hi]|]; [|simpl; lia].
  destruct s as [|b1 s]; [simpl; lia|]. destruct (negb (in_range lo hi b1) || _); [simpl; lia|].
  destruct (sz <=? 2); [simpl; lia|]. destruct s as [|b2 s]; [simpl; lia|].
  destruct (negb (cont_byte b2)); [simpl; lia|]. destruct (sz <=? 3); [simpl; lia|].
  destruct s as [|b3 s]; [simpl; lia|]. destruct (negb (cont_byte b3)); simpl; lia.
Qed.

Lemma UIString_loop_eq fuel s maxLen n b :
  bytes_ok s -> n < maxLen ->
  UIString_loop fuel s maxLen n b =
    b ++ utf8_text (take (Z.to_nat (maxLen - n)) (map fst (List.filter keep_rune (decode_all_loop fuel s)))).
Proof.
  revert s n b. induction fuel as [|fuel IH]; intros s n b Hs Hn.
  { destruct s; simpl; by rewrite take_nil, app_nil_r. }
  destruct s as [|x s]; [simpl; by rewrite take_nil, app_nil_r|].
  cbn [UIString_loop decode_all_loop]. destruct (DecodeRune (x :: s)) as [r size] eqn:Hd.
  assert (Hdrop : forall k, bytes_ok (drop k (x :: s))) by (intros; by apply Forall_drop).
  cbn [List.filter].
  change (keep_rune (r, size)) with (negb ((r =? RuneError) && (size =? 1)) && negb (isStripRune r)).
  destruct ((r =? RuneError) && (size =? 1)) eqn:Hi; simpl negb; simpl andb; cbv iota.
  { apply andb_prop in Hi as [_ ->%Z.eqb_eq]. by rewrite IH. }
  destruct (isStripRune r) eqn:Hst; simpl negb; cbv iota; [by rewrite IH|].
  apply DecodeRune_inv in Hd as (Hr & _); [|done|done|done].
  rewrite AppendRune_eq by done.
  replace (Z.to_nat (maxLen - n)) with (S (Z.to_nat (maxLen - (n + 1)))) by lia.
  simpl map. simpl take. change (utf8_text (r :: ?l)) with (rune_bytes r ++ utf8_text l).
  destruct (Z.leb_spec maxLen (n + 1)).
  - replace (Z.to_nat (maxLen - (n + 1))) with 0%nat by lia. simpl. by rewrite app_nil_r.
  - rewrite IH by (done || lia). by rewrite <- app_assoc.
Qed.

Lemma UIString_eq s maxLen :
  bytes_ok s -> UIString s maxLen = utf8_text (take (Z.to_nat maxLen) (ui_runes s)).
Proof.
  intros Hs. unfold UIString, ui_runes, decode_all. destruct (Z.leb_spec maxLen 0).
  - by replace (Z.to_nat maxLen) with 0%nat by lia.
  - rewrite UIString_loop_eq by (done || lia). by rewrite Z.sub_0_r.
Qed.

Lemma decode_all_loop_text fuel rs :
  (length (utf8_text rs) <= fuel)%nat -> Forall (fun r => scalar r = true) rs ->
  decode_all_loop fuel (utf8_text rs) = map (fun r => (r, blen (rune_bytes r))) rs.
Proof.
  intros Hf Hrs. revert fuel Hf. induction Hrs as [|r rs Hr _ IH]; intros fuel Hf; [by destruct fuel|].
  change (utf8_text (r :: rs)) with (rune_bytes r ++ utf8_text rs) in *.
  destruct (rune_bytes_cons r) as (b & bs & Hrb). rewrite length_app in Hf.
  destruct fuel as [|fuel]; [rewrite Hrb in Hf; simpl in Hf; lia|].
  assert (Hd := DecodeRune_rune_bytes r (utf8_text rs) Hr).
  rewrite Hrb in Hd |- *. simpl app in *. cbn [decode_all_loop]. rewrite Hd.
  change (b :: bs ++ utf8_text rs) with ((b :: bs) ++ utf8_text rs). rewrite <- Hrb, drop_rune.
  simpl map. f_equal. apply IH. rewrite Hrb in Hf. simpl in Hf. lia.
Qed.

Lemma ui_runes_text rs : Forall printable rs -> ui_runes (utf8_text rs) = rs.
Proof.
  intros Hrs. unfold ui_runes, decode_all. rewrite decode_all_loop_text; [|lia|].
  2:{ eapply Forall_impl; [exact Hrs|]. by intros r [? _]. }
  induction Hrs as [|r rs [Hr Hp] _ IH]; [done|]. simpl.
  assert (keep_rune (r, blen (rune_bytes r)) = true) as ->.
  { unfold keep_rune. cbn [fst]. by rewrite rune_bytes_not_invalid, Hp. }
  simpl. by f_equal.
Qed.

Lemma decode_all_loop_scalar fuel s rs :
  bytes_ok s -> In rs (decode_all_loop fuel s) -> rune_invalid rs = false -> scalar (fst rs) = true.
Proof.
  revert s. induction fuel as [|fuel IH]; intros s Hs Hin Hi; [by destruct s|].
  destruct s as [|x s]; [done|]. cbn [decode_all_loop] in Hin.
  destruct (DecodeRune (x :: s)) as [r size] eqn:Hd. destruct Hin as [<-|Hin].
  - apply DecodeRune_inv in Hd; [apply Hd|done|done|done].
  - eapply IH; [|exact Hin|done]. by apply Forall_drop.
Qed.

Lemma ui_runes_printable s : bytes_ok s -> Forall printable (ui_runes s).
Proof.
  intros Hs. apply Forall_forall. intros r Hr. apply list_elem_of_In, in_map_iff in Hr as (rs & <- & Hin).
  apply filter_In in Hin as [Hin Hk]. unfold keep_rune in Hk. apply andb_prop in Hk as [Hi Hp].
  apply negb_true_iff in Hi, Hp. split; [|done]. by eapply decode_all_loop_scalar.
Qed.

Lemma utf8_text_bytes rs : Forall (fun r => scalar r = true) rs -> bytes_ok (utf8_text rs).
Proof.
  induction 1 as [|r rs Hr _ IH]; [constructor|].
  change (utf8_text (r :: rs)) with (rune_bytes r ++ utf8_text rs). apply bytes_ok_app. split; [|done].
  apply scalar_range in Hr. unfold rune_bytes. bool_cases;
    repeat constructor; unfold u8_ok; Z.to_euclidean_division_equations; lia.
Qed.

(** ** Properties *)

(** [validateRuneBytes] is exact: it accepts a byte string if and only if it
    is the UTF-8 text of printable Unicode scalar values (no C0, DEL or C1, no
    surrogate, no overlong form), and every refusal is a framing error. *)
Theorem validateRuneBytes_exact (b : bytes) :
  bytes_ok b ->
  (validateRuneBytes b = None <-> exists rs, b = utf8_text rs /\ Forall printable rs) /\
  (forall e, validateRuneBytes b = Some e -> IsFramingErr e = true).
Proof. intros Hb. split; [by apply validateRuneBytes_iff | apply validateRuneBytes_framing]. Qed.

Lemma validateRuneBytes_exact_witness :
  (validateRuneBytes [0xC2; 0x9B] = None <-> exists rs, [0xC2; 0x9B] = utf8_text rs /\ Forall printable rs).
Proof. apply (validateRuneBytes_exact [0xC2; 0x9B]). repeat constructor; unfold u8_ok; lia. Defined.

(** [UIString] is its specification: the result is the UTF-8 text of the
    first [maxLen] validly encoded, non-control runes of the input, in order.
    Hence it is escape-safe text of at most [maxLen] runes, and applying it
    again with the same or a larger cap changes nothing. *)
Theorem UIString_spec (s : bytes) (maxLen : Z) :
  bytes_ok s ->
  UIString s maxLen = utf8_text (take (Z.to_nat maxLen) (ui_runes s)) /\
  validateRuneBytes (UIString s maxLen) = None /\
  (forall cap, maxLen <= cap -> UIString (UIString s maxLen) cap = UIString s maxLen).
Proof.
  intros Hs. pose proof (UIString_eq s maxLen Hs) as Heq.
  pose proof (Forall_take _ (Z.to_nat maxLen) _ (ui_runes_printable s Hs)) as Hp.
  assert (Hb : bytes_ok (UIString s maxLen)).
  { rewrite Heq. apply utf8_text_bytes. eapply Forall_impl; [exact Hp|]. by intros r [? _]. }
  split; [done|]. split.
  - apply validateRuneBytes_iff; [done|]. by exists (take (Z.to_nat maxLen) (ui_runes s)).
  - intros cap Hcap. rewrite UIString_eq by done. rewrite Heq, ui_runes_text by done.
    f_equal. apply take_ge. rewrite length_take. lia.
Qed.

Lemma UIString_spec_witness :
  UIString [0x1B; 0x41; 0xFF; 0xE2; 0x9C; 0xB3; 0x42] 2 = [0x41; 0xE2; 0x9C; 0xB3] /\
  validateRuneBytes (UIString [0x1B; 0x41; 0xFF; 0xE2; 0x9C; 0xB3; 0x42] 2) = None.
Proof.
  destruct (UIString_spec [0x1B; 0x41; 0xFF; 0xE2; 0x9C; 0xB3; 0x42] 2) as (H1 & H2 & _).
  - repeat constructor; unfold u8_ok; lia.
  - split; [rewrite H1; vm_compute; reflexivity | exact H2].
Defined.
