(* ===== verification/Snapshot.v ===== *)
(** * Snapshot: the serialized terminal screen ([src/attachwire/snapshot.go])

    The snapFormat 0x01 screen: header, row-major cell grids, scrollback tail.
    Encoding and decoding enforce the same header, flag and escape-safety
    invariants; [screen_wf] is the set of screens the decoder can return. *)

From S2P Require Import Prelude Varint Reader Frame Utf8.

(** ** Constants *)

Definition EchoOff : Z := 0x00.
Definition EchoOn : Z := 0x01.
Definition EchoUnknown : Z := 0xFF.
Definition BufferPrimary : Z := 0x00.
Definition BufferAlt : Z := 0x01.
Definition CursorShapeBar : Z := 0x03.
Definition ModeMouseTracking : Z := 0x08.
Definition ModesReservedMask : Z := 0xE0.
Definition StyleWideContinuation : Z := 0x40.
Definition StyleReserved : Z := 0x80.

(** [(enc << 4) | (track & 0x0F)] on [uint8]. *)
Definition MouseProto (track enc : Z) : Z := Z.lor (u8 (Z.shiftl enc 4)) (Z.land track 0x0F).
Definition MouseTrack (p : Z) : Z := Z.land p 0x0F.
Definition MouseEnc (p : Z) : Z := Z.shiftr p 4.

Abbreviation ColorMode := Z.
Definition ColorDefault : ColorMode := 0x00.
Definition ColorIndexed : ColorMode := 0x01.
Definition ColorTruecolor : ColorMode := 0x02.

Record Color := { Mode : ColorMode; Idx : Z; R : Z; G : Z; B : Z }.

Definition DefaultColor : Color := {| Mode := ColorDefault; Idx := 0; R := 0; G := 0; B := 0 |}.
Definition IndexedColor (idx : Z) : Color := {| Mode := ColorIndexed; Idx := idx; R := 0; G := 0; B := 0 |}.
Definition TrueColor (r g b : Z) : Color := {| Mode := ColorTruecolor; Idx := 0; R := r; G := g; B := b |}.

Record Cell := { RuneBytes : bytes; Style : Z; FG : Color; BG : Color }.

Record Screen := {
  Epoch : Z;
  EchoMode : Z;
  SCols : Z;
  SRows : Z;
  ActiveBuffer : Z;
  CursorRow : Z;
  CursorCol : Z;
  CursorVisible : bool;
  CursorShape : Z;
  Modes : Z;
  SMouseProto : Z;
  SavedCursorRow : Z;
  SavedCursorCol : Z;
  Primary : list Cell;
  AltPresent : bool;
  Alt : list Cell;
  Scrollback : list (list Cell)
}.

(** ** Header checks *)

(** [validateHeader] over the five fields it reads. *)
Definition validate_header_fields (echo active shape modes mouse : Z) : option WireError :=
  if negb ((echo =? EchoOff) || (echo =? EchoOn) || (echo =? EchoUnknown))
  then Some (FramingError (SnapEchoMode echo))
  else if negb ((active =? BufferPrimary) || (active =? BufferAlt))
  then Some (FramingError (SnapActiveBuffer active))
  else if CursorShapeBar <? shape then Some (FramingError (SnapCursorShape shape))
  else if negb (Z.land modes ModesReservedMask =? 0) then Some (FramingError (SnapModesReserved modes))
  else if (Z.land modes ModeMouseTracking =? 0) && negb (mouse =? 0)
  then Some (FramingError (SnapMouseProto mouse))
  else None.

Definition validateHeader (s : Screen) : option WireError :=
  validate_header_fields (EchoMode s) (ActiveBuffer s) (CursorShape s) (Modes s) (SMouseProto s).

(** [bits.Mul64]: the high and low words of the product. *)
Definition Mul64 (x y : Z) : Z * Z := (x * y / 2 ^ 64, (x * y) mod 2 ^ 64).

Definition gridLen (rows cols : Z) : wire Z :=
  let '(hi, lo) := Mul64 rows cols in
  if negb (hi =? 0) then Err (FramingError (SnapGridOverflow rows cols)) else Ok lo.

(** ** Encoding *)

Definition encodeColor (dst : bytes) (c : Color) : wire bytes :=
  if Mode c =? ColorDefault then Ok (dst ++ [ColorDefault])
  else if Mode c =? ColorIndexed then Ok (dst ++ [ColorIndexed; Idx c])
  else if Mode c =? ColorTruecolor then Ok (dst ++ [ColorTruecolor; R c; G c; B c])
  else Err (FramingError (SnapColorMode (Mode c))).

Open Scope go_scope.

Definition encodeCell (dst : bytes) (c : Cell) : wire bytes :=
  if negb (Z.land (Style c) StyleReserved =? 0) then Err (FramingError (SnapStyleReserved (Style c)))
  else
    let cont := negb (Z.land (Style c) StyleWideContinuation =? 0) in
    if cont && negb (blen (RuneBytes c) =? 0) then Err (FramingError SnapContinuationRune)
    else if negb cont && (blen (RuneBytes c) =? 0) then Err (FramingError SnapEmptyRune)
    else match validateRuneBytes (RuneBytes c) with
    | Some e => Err e
    | None =>
        let dst := AppendUvarint dst (u64 (blen (RuneBytes c))) in
        let dst := dst ++ RuneBytes c in
        let dst := dst ++ [Style c] in
        let* dst := encodeColor dst (FG c) in
        encodeColor dst (BG c)
    end.

(** [for i := range cells { buf, err = encodeCell(buf, cells[i]); ... }] *)
Fixpoint encode_cells (dst : bytes) (cs : list Cell) : wire bytes :=
  match cs with
  | [] => Ok dst
  | c :: cs' => let* dst := encodeCell dst c in encode_cells dst cs'
  end.

Fixpoint encode_lines (dst : bytes) (ls : list (list Cell)) : wire bytes :=
  match ls with
  | [] => Ok dst
  | l :: ls' =>
      let dst := AppendUvarint dst (u64 (blen l)) in
      let* dst := encode_cells dst l in encode_lines dst ls'
  end.

Definition encode_header (s : Screen) : bytes :=
  let b := AppendUvarint [] (Epoch s) in
  let b := b ++ [EchoMode s] in
  let b := AppendUvarint b (SCols s) in
  let b := AppendUvarint b (SRows s) in
  let b := b ++ [ActiveBuffer s] in
  let b := AppendUvarint b (CursorRow s) in
  let b := AppendUvarint b (CursorCol s) in
  let b := b ++ [boolByte (CursorVisible s)] in
  let b := b ++ [CursorShape s] in
  let b := b ++ [Modes s] in
  let b := b ++ [SMouseProto s] in
  let b := AppendUvarint b (SavedCursorRow s) in
  AppendUvarint b (SavedCursorCol s).

Definition Screen_Encode (s : Screen) : wire bytes :=
  match validateHeader s with
  | Some e => Err e
  | None =>
      let* n := gridLen (SRows s) (SCols s) in
      if negb (u64 (blen (Primary s)) =? n)
      then Err (PlainError (PrimaryGridSize (blen (Primary s)) n))
      else if AltPresent s && negb (u64 (blen (Alt s)) =? n)
      then Err (PlainError (AltGridSize (blen (Alt s)) n))
      else
        let b := encode_header s in
        let* b := encode_cells b (Primary s) in
        let b := b ++ [boolByte (AltPresent s)] in
        let* b := if AltPresent s then encode_cells b (Alt s) else Ok b in
        let b := AppendUvarint b (u64 (blen (Scrollback s))) in
        encode_lines b (Scrollback s)
  end.

(** ** Decoding *)

Definition reader_boolByte : parser bool :=
  let! b := readByte in
  if b =? 0 then pret false
  else if b =? 1 then pret true
  else pfail (FramingError (SnapBoolByte b)).

Definition reader_color : parser Color :=
  let! m := readByte in
  if m =? ColorDefault then pret DefaultColor
  else if m =? ColorIndexed then
    let! idx := readByte in pret (IndexedColor idx)
  else if m =? ColorTruecolor then
    let! rr := readByte in
    let! g := readByte in
    let! b := readByte in
    pret (TrueColor rr g b)
  else pfail (FramingError (SnapColorMode m)).

(** The flag checks of [cell], in the code's order. *)
Definition cell_flags (style runeLen : Z) : option WireError :=
  if negb (Z.land style StyleReserved =? 0) then Some (FramingError (SnapStyleReserved style))
  else
    let cont := negb (Z.land style StyleWideContinuation =? 0) in
    if cont && negb (runeLen =? 0) then Some (FramingError SnapContinuationRune)
    else if negb cont && (runeLen =? 0) then Some (FramingError SnapEmptyRune)
    else None.

Definition reader_cell : parser Cell :=
  let! runeLen := reader_uvarint in
  let! rb := reader_bytes runeLen in
  let! style := readByte in
  let! _ := pcheck (cell_flags style runeLen) in
  let! _ := pcheck (validateRuneBytes rb) in
  let! fg := reader_color in
  let! bg := reader_color in
  pret {| RuneBytes := rb; Style := style; FG := fg; BG := bg |}.

(** [for i := uint64(0); i < n; i++ { x, err := step(); ...; out = append(out, x) }] *)
Fixpoint read_n {A} (step : parser A) (n : nat) : parser (list A) :=
  match n with
  | O => pret []
  | S n' => let! x := step in let! xs := read_n step n' in pret (x :: xs)
  end.

Definition reader_cells (n : Z) : parser (list Cell) := read_n reader_cell (Z.to_nat n).

Definition reader_line : parser (list Cell) :=
  let! cnt := reader_uvarint in reader_cells cnt.

Definition reader_scrollback (lines : Z) : parser (list (list Cell)) :=
  read_n reader_line (Z.to_nat lines).

Definition lift_check {A} (m : wire A) : parser A := fun r => obind m (fun a => Ok (a, r)).

Definition DecodeScreen (snap : bytes) : wire Screen :=
  parse (let! epoch := reader_uvarint in
         let! echo := readByte in
         let! cols := reader_uvarint in
         let! rows := reader_uvarint in
         let! active := readByte in
         let! crow := reader_uvarint in
         let! ccol := reader_uvarint in
         let! cvis := reader_boolByte in
         let! shape := readByte in
         let! modes := readByte in
         let! mouse := readByte in
         let! srow := reader_uvarint in
         let! scol := reader_uvarint in
         let! _ := pcheck (validate_header_fields echo active shape modes mouse) in
         let! n := lift_check (gridLen rows cols) in
         let! primary := reader_cells n in
         let! altPresent := reader_boolByte in
         let! alt := (if altPresent then reader_cells n else pret []) in
         let! sbLines := reader_uvarint in
         let! scrollback := reader_scrollback sbLines in
         let! _ := expectDone in
         pret {| Epoch := epoch; EchoMode := echo; SCols := cols; SRows := rows;
                 ActiveBuffer := active; CursorRow := crow; CursorCol := ccol;
                 CursorVisible := cvis; CursorShape := shape; Modes := modes;
                 SMouseProto := mouse; SavedCursorRow := srow; SavedCursorCol := scol;
                 Primary := primary; AltPresent := altPresent; Alt := alt;
                 Scrollback := scrollback |}) snap.

(** ** Well-formed screens *)

(** The color union carries only the operands of its mode. *)
Definition color_wf (c : Color) : Prop :=
  c = DefaultColor \/
  (exists i, u8_ok i /\ c = IndexedColor i) \/
  (exists r g b, u8_ok r /\ u8_ok g /\ u8_ok b /\ c = TrueColor r g b).

Definition cell_wf (c : Cell) : Prop :=
  u8_ok (Style c) /\ bytes_ok (RuneBytes c) /\ blen (RuneBytes c) < 2 ^ 64 /\
  cell_flags (Style c) (blen (RuneBytes c)) = None /\ validateRuneBytes (RuneBytes c) = None /\
  color_wf (FG c) /\ color_wf (BG c).

Definition header_wf (s : Screen) : Prop :=
  u64_ok (Epoch s) /\ u8_ok (EchoMode s) /\ u64_ok (SCols s) /\ u64_ok (SRows s) /\
  u8_ok (ActiveBuffer s) /\ u64_ok (CursorRow s) /\ u64_ok (CursorCol s) /\
  u8_ok (CursorShape s) /\ u8_ok (Modes s) /\ u8_ok (SMouseProto s) /\
  u64_ok (SavedCursorRow s) /\ u64_ok (SavedCursorCol s) /\ validateHeader s = None.

Definition screen_wf (s : Screen) : Prop :=
  header_wf s /\ SRows s * SCols s < 2 ^ 64 /\
  blen (Primary s) = SRows s * SCols s /\ Forall cell_wf (Primary s) /\
  (if AltPresent s then blen (Alt s) = SRows s * SCols s /\ Forall cell_wf (Alt s) else Alt s = []) /\
  u64_ok (blen (Scrollback s)) /\
  Forall (fun l => u64_ok (blen l) /\ Forall cell_wf l) (Scrollback s).

(** ** The bytes of a well-formed screen *)

Definition color_bytes (c : Color) : bytes :=
  if Mode c =? ColorDefault then [ColorDefault]
  else if Mode c =? ColorIndexed then [ColorIndexed] ++ [Idx c]
  else [ColorTruecolor] ++ [R c] ++ [G c] ++ [B c].

Definition cell_bytes (c : Cell) : bytes :=
  put_prefixed (RuneBytes c) ++ [Style c] ++ color_bytes (FG c) ++ color_bytes (BG c).

Definition cells_bytes (cs : list Cell) : bytes := concat (map cell_bytes cs).

Definition line_bytes (l : list Cell) : bytes := uvarint_bytes (blen l) ++ cells_bytes l.

Definition lines_bytes (ls : list (list Cell)) : bytes := concat (map line_bytes ls).

Definition header_bytes (s : Screen) : bytes :=
  uvarint_bytes (Epoch s) ++ [EchoMode s] ++ uvarint_bytes (SCols s) ++ uvarint_bytes (SRows s) ++
  [ActiveBuffer s] ++ uvarint_bytes (CursorRow s) ++ uvarint_bytes (CursorCol s) ++
  [boolByte (CursorVisible s)] ++ [CursorShape s] ++ [Modes s] ++ [SMouseProto s] ++
  uvarint_bytes (SavedCursorRow s) ++ uvarint_bytes (SavedCursorCol s).

Definition screen_bytes (s : Screen) : bytes :=
  header_bytes s ++ cells_bytes (Primary s) ++ [boolByte (AltPresent s)] ++
  cells_bytes (Alt s) ++ uvarint_bytes (blen (Scrollback s)) ++ lines_bytes (Scrollback s).

Lemma encodeColor_eq dst c : color_wf c -> encodeColor dst c = Ok (dst ++ color_bytes c).
Proof. by intros [-> | [(i & _ & ->) | (r & g & b & _ & _ & _ & ->)]]. Qed.

Lemma color_bytes_ok c : color_wf c -> bytes_ok (color_bytes c).
Proof.
  intros [-> | [(i & Hi & ->) | (r & g & b & Hr & Hg & Hb & ->)]]; unfold color_bytes; simpl;
    repeat constructor; try apply Hi; try apply Hr; try apply Hg; try apply Hb; done.
Qed.

Lemma encodeCell_flags dst c :
  cell_flags (Style c) (blen (RuneBytes c)) = None -> validateRuneBytes (RuneBytes c) = None ->
  encodeCell dst c =
    obind (encodeColor ((AppendUvarint dst (u64 (blen (RuneBytes c))) ++ RuneBytes c) ++ [Style c]) (FG c))
      (fun d => encodeColor d (BG c)).
Proof.
  unfold cell_flags, encodeCell. intros Hf Hv. rewrite Hv.
  destruct (negb (Z.land (Style c) StyleReserved =? 0)); [done|].
  destruct (_ && negb (blen (RuneBytes c) =? 0)); [done|].
  by destruct (_ && (blen (RuneBytes c) =? 0)).
Qed.

Lemma encodeCell_eq dst c : cell_wf c -> encodeCell dst c = Ok (dst ++ cell_bytes c).
Proof.
  intros (Hs & Hb & Hl & Hf & Hv & Hfg & Hbg). rewrite encodeCell_flags by done.
  rewrite encodeColor_eq by done. simpl. rewrite encodeColor_eq by done.
  unfold cell_bytes, put_prefixed, AppendUvarint. by rewrite <- !app_assoc.
Qed.

Lemma cell_bytes_ok c : cell_wf c -> bytes_ok (cell_bytes c).
Proof.
  intros (Hs & Hb & Hl & Hf & Hv & Hfg & Hbg). unfold cell_bytes, put_prefixed.
  bytes_ok_tac; by apply color_bytes_ok.
Qed.

Lemma encode_cells_eq dst cs : Forall cell_wf cs -> encode_cells dst cs = Ok (dst ++ cells_bytes cs).
Proof.
  intros Hc. revert dst. induction Hc as [|c cs Hc _ IH]; intros dst; simpl; [by rewrite app_nil_r|].
  rewrite encodeCell_eq by done. simpl. rewrite IH. unfold cells_bytes. simpl. by rewrite <- app_assoc.
Qed.

Lemma cells_bytes_ok cs : Forall cell_wf cs -> bytes_ok (cells_bytes cs).
Proof.
  induction 1 as [|c cs Hc _ IH]; [constructor|]. apply bytes_ok_app. split; [by apply cell_bytes_ok | done].
Qed.

Abbreviation line_wf := (fun l => u64_ok (blen l) /\ Forall cell_wf l).

Lemma encode_lines_eq dst ls : Forall line_wf ls -> encode_lines dst ls = Ok (dst ++ lines_bytes ls).
Proof.
  intros Hc. revert dst. induction Hc as [|l ls [Hl Hc] _ IH]; intros dst; simpl; [by rewrite app_nil_r|].
  rewrite encode_cells_eq by done. simpl. rewrite IH. unfold lines_bytes, line_bytes, AppendUvarint. simpl.
  rewrite u64_small by done. by rewrite <- !app_assoc.
Qed.

Lemma lines_bytes_ok ls : Forall line_wf ls -> bytes_ok (lines_bytes ls).
Proof.
  induction 1 as [|l ls [Hl Hc] _ IH]; [constructor|]. apply bytes_ok_app. split; [|done].
  apply bytes_ok_app. split; [by apply uvarint_bytes_ok | by apply cells_bytes_ok].
Qed.

Lemma encode_header_eq s : encode_header s = header_bytes s.
Proof. unfold encode_header, header_bytes, AppendUvarint. by rewrite <- !app_assoc. Qed.

Lemma boolByte_ok b : u8_ok (boolByte b).
Proof. destruct b; unfold u8_ok; simpl; lia. Qed.

Lemma header_bytes_ok s : header_wf s -> bytes_ok (header_bytes s).
Proof.
  intros (H1 & H2 & H3 & H4 & H5 & H6 & H7 & H8 & H9 & H10 & H11 & H12 & _). unfold header_bytes.
  bytes_ok_tac. apply boolByte_ok.
Qed.

Lemma gridLen_eq rows cols :
  0 <= rows -> 0 <= cols -> rows * cols < 2 ^ 64 -> gridLen rows cols = Ok (rows * cols).
Proof.
  intros Hr Hc Hm. unfold gridLen, Mul64. rewrite Z.div_small, Z.mod_small by nia. done.
Qed.

Lemma gridLen_inv rows cols n :
  0 <= rows -> 0 <= cols -> gridLen rows cols = Ok n -> n = rows * cols /\ rows * cols < 2 ^ 64.
Proof.
  intros Hr Hc. unfold gridLen, Mul64. destruct (Z.eqb_spec (rows * cols / 2 ^ 64) 0) as [Hz|]; [|done].
  simpl negb. cbv iota. intros [= <-].
  apply Z.div_small_iff in Hz; [|lia]. destruct Hz; [|nia]. split; [apply Z.mod_small|]; lia.
Qed.

(** The Alt grid is written only when present. *)
Lemma alt_eq s dst :
  screen_wf s ->
  (if AltPresent s then encode_cells dst (Alt s) else Ok dst) = Ok (dst ++ cells_bytes (Alt s)).
Proof.
  intros (_ & _ & _ & _ & Ha & _). destruct (AltPresent s).
  - apply encode_cells_eq, Ha.
  - rewrite Ha. simpl. by rewrite app_nil_r.
Qed.

Lemma Screen_Encode_eq s : screen_wf s -> Screen_Encode s = Ok (screen_bytes s).
Proof.
  intros Hw. pose proof Hw as (Hh & Hm & Hp & Hpc & Ha & Hsb & Hsl).
  pose proof Hh as (_ & _ & Hc & Hr & _). unfold Screen_Encode.
  destruct Hh as (_ & _ & _ & _ & _ & _ & _ & _ & _ & _ & _ & _ & Hv). rewrite Hv.
  go_simp. rewrite gridLen_eq by lia. simpl obind.
  rewrite u64_small by (go_simp; nia). rewrite Hp, Z.eqb_refl. simpl negb. cbv iota.
  assert (AltPresent s && negb (u64 (blen (Alt s)) =? SRows s * SCols s) = false) as ->.
  { destruct (AltPresent s); [|done]. destruct Ha as [Ha _]. rewrite Ha, u64_small by (go_simp; nia).
    by rewrite Z.eqb_refl. }
  rewrite encode_cells_eq by done. simpl obind. rewrite alt_eq by done. simpl obind.
  rewrite encode_lines_eq by done. rewrite encode_header_eq, u64_small by (go_simp; lia).
  unfold screen_bytes, AppendUvarint. by rewrite <- !app_assoc.
Qed.

Lemma screen_bytes_ok s : screen_wf s -> bytes_ok (screen_bytes s).
Proof.
  intros (Hh & _ & _ & Hp & Ha & Hl & Hs). unfold screen_bytes.
  pose proof (header_bytes_ok s Hh). bytes_ok_tac; try apply boolByte_ok.
  - by apply cells_bytes_ok.
  - destruct (AltPresent s); [apply cells_bytes_ok, Ha | rewrite Ha; constructor].
  - by apply lines_bytes_ok.
Qed.

(** ** Decoding the bytes *)

Lemma reads_boolByte b : reads reader_boolByte [boolByte b] b.
Proof.
  rewrite <- (app_nil_r [boolByte b]). eapply reads_bind; [apply reads_byte|].
  destruct b; apply reads_ret.
Qed.

Lemma reads_color c : color_wf c -> reads reader_color (color_bytes c) c.
Proof.
  intros [-> | [(i & _ & ->) | (r & g & b & _ & _ & _ & ->)]]; unfold color_bytes; simpl Mode.
  - rewrite <- (app_nil_r _). eapply reads_bind; [apply reads_byte | apply reads_ret].
  - simpl Z.eqb. cbv iota. eapply reads_bind; [apply reads_byte|]. simpl.
    rewrite <- (app_nil_r _). eapply reads_bind; [apply reads_byte | apply reads_ret].
  - simpl Z.eqb. cbv iota. eapply reads_bind; [apply reads_byte|]. simpl Z.eqb. cbv iota.
    eapply reads_bind; [apply reads_byte|]. eapply reads_bind; [apply reads_byte|].
    rewrite <- (app_nil_r _). eapply reads_bind; [apply reads_byte | apply reads_ret].
Qed.

#[export] Hint Resolve reads_boolByte reads_color : go.

Lemma reads_cell c : cell_wf c -> blen (RuneBytes c) < 2 ^ 63 -> reads reader_cell (cell_bytes c) c.
Proof.
  intros (Hs & Hb & _ & Hf & Hv & Hfg & Hbg) Hl. unfold cell_bytes, put_prefixed.
  pose proof (blen_nonneg (RuneBytes c)). rewrite u64_small by (go_simp; lia). rewrite <- app_assoc.
  eapply reads_bind; [apply reads_uvarint; go_simp; lia|].
  eapply reads_bind; [apply reads_bytes|].
  eapply reads_bind; [apply reads_byte|].
  eapply reads_bind_nil; [by apply reads_check|]. eapply reads_bind_nil; [by apply reads_check|].
  eapply reads_bind; [by apply reads_color|].
  rewrite <- (app_nil_r (color_bytes (BG c))). eapply reads_bind; [by apply reads_color|].
  destruct c. apply reads_ret.
Qed.

Lemma reads_n {A} (step : parser A) (f : A -> bytes) xs :
  (forall x, x ∈ xs -> reads step (f x) x) -> reads (read_n step (length xs)) (concat (map f xs)) xs.
Proof.
  induction xs as [|x xs IH]; intros Hx; [apply reads_ret|]. simpl.
  eapply reads_bind; [apply Hx; left|].
  rewrite <- (app_nil_r (concat _)). eapply reads_bind; [|apply reads_ret].
  apply IH. intros y Hy. apply Hx. by right.
Qed.

Lemma blen_concat_elem (b : bytes) bs : b ∈ bs -> blen b <= blen (concat bs).
Proof.
  induction bs as [|x bs IH]; intros Hb; [by apply elem_of_nil in Hb|].
  simpl. rewrite blen_app. pose proof (blen_nonneg (concat bs)). pose proof (blen_nonneg x).
  apply elem_of_cons in Hb as [->|Hb]; [lia|]. specialize (IH Hb). lia.
Qed.

Lemma cell_in_cells c cs : c ∈ cs -> blen (RuneBytes c) <= blen (cells_bytes cs).
Proof.
  intros Hc. transitivity (blen (cell_bytes c)).
  - unfold cell_bytes, put_prefixed. rewrite !blen_app.
    pose proof (blen_nonneg (uvarint_bytes (u64 (blen (RuneBytes c))))).
    pose proof (blen_nonneg [Style c]). pose proof (blen_nonneg (color_bytes (FG c))).
    pose proof (blen_nonneg (color_bytes (BG c))). lia.
  - apply blen_concat_elem. by apply list_elem_of_fmap_2.
Qed.

Lemma reads_cells n cs :
  n = blen cs -> Forall cell_wf cs -> blen (cells_bytes cs) < 2 ^ 63 ->
  reads (reader_cells n) (cells_bytes cs) cs.
Proof.
  intros -> Hc Hl. unfold reader_cells. rewrite to_nat_blen. apply reads_n.
  intros c Hin. apply reads_cell; [by eapply Forall_forall in Hc|].
  pose proof (cell_in_cells c cs Hin). lia.
Qed.

Lemma reads_line l : line_wf l -> blen (cells_bytes l) < 2 ^ 63 -> reads reader_line (line_bytes l) l.
Proof.
  intros [Hl Hc] Hb. eapply reads_bind; [by apply reads_uvarint | by apply reads_cells].
Qed.

Lemma reads_scrollback n ls :
  n = blen ls -> Forall line_wf ls -> blen (lines_bytes ls) < 2 ^ 63 ->
  reads (reader_scrollback n) (lines_bytes ls) ls.
Proof.
  intros -> Hc Hl. unfold reader_scrollback. rewrite to_nat_blen. apply reads_n.
  intros l Hin. apply reads_line; [by eapply (Forall_forall line_wf) in Hc|].
  assert (blen (line_bytes l) <= blen (lines_bytes ls)) as Hle
    by (apply blen_concat_elem; by apply list_elem_of_fmap_2).
  unfold line_bytes in Hle. rewrite blen_app in Hle.
  pose proof (blen_nonneg (uvarint_bytes (blen l))). lia.
Qed.

Lemma reads_lift {A} (m : wire A) a : m = Ok a -> reads (lift_check m) [] a.
Proof. intros -> r tail Hr Hs. by apply (reads_ret a r tail). Qed.

Lemma reads_alt s n :
  screen_wf s -> n = SRows s * SCols s -> blen (cells_bytes (Alt s)) < 2 ^ 63 ->
  reads (if AltPresent s then reader_cells n else pret []) (cells_bytes (Alt s)) (Alt s).
Proof.
  intros (_ & _ & _ & _ & Ha & _) -> Hl. destruct (AltPresent s).
  - destruct Ha. by apply reads_cells.
  - rewrite Ha. apply reads_ret.
Qed.

Lemma DecodeScreen_bytes s :
  screen_wf s -> blen (screen_bytes s) < 2 ^ 63 -> DecodeScreen (screen_bytes s) = Ok s.
Proof.
  intros Hw Hl. apply parse_reads; [split; [done | by apply screen_bytes_ok]|].
  pose proof Hw as (Hh & Hm & Hp & Hpc & Ha & Hsb & Hsl).
  unfold screen_bytes, header_bytes in *.
  assert (blen (cells_bytes (Primary s)) < 2 ^ 63 /\ blen (cells_bytes (Alt s)) < 2 ^ 63 /\
          blen (lines_bytes (Scrollback s)) < 2 ^ 63) as (Hl1 & Hl2 & Hl3).
  { split_len Hl. lia. }
  destruct Hh as (H1 & H2 & H3 & H4 & H5 & H6 & H7 & H8 & H9 & H10 & H11 & H12 & Hv).
  rewrite <- (app_nil_r (lines_bytes _)).
  codec.
  eapply (reads_end_bind _ _ []); [apply reads_lift, gridLen_eq; go_simp; lia|].
  eapply reads_end_bind; [by apply reads_cells|].
  eapply reads_end_bind; [apply reads_boolByte|].
  eapply reads_end_bind; [by apply reads_alt|].
  eapply reads_end_bind; [by apply reads_uvarint|].
  eapply reads_end_bind; [by apply reads_scrollback|].
  apply reads_end_done. destruct s. apply reads_end_ret.
Qed.

(** ** What the decoder can return *)

Lemma wp_boolByte : reader_wp reader_boolByte (fun _ => True).
Proof.
  eapply wp_bind; [apply wp_byte|]. intros b _.
  destruct (b =? 0); [by apply wp_ret|]. destruct (b =? 1); [by apply wp_ret | by apply wp_fail].
Qed.

Lemma wp_color : reader_wp reader_color color_wf.
Proof.
  eapply wp_bind; [apply wp_byte|]. intros m _.
  destruct (m =? ColorDefault); [apply wp_ret; by left|].
  destruct (m =? ColorIndexed).
  { wp_steps. right. left. eauto. }
  destruct (m =? ColorTruecolor); [|by apply wp_fail].
  wp_steps. right. right. eexists _, _, _. eauto.
Qed.

#[export] Hint Resolve wp_boolByte wp_color : go.

Lemma cell_flags_framing style n e : cell_flags style n = Some e -> IsFramingErr e = true.
Proof. unfold cell_flags. intros H. by bool_cases; try discriminate; injection H as <-. Qed.

Lemma wp_cell : reader_wp reader_cell cell_wf.
Proof.
  eapply wp_bind; [apply wp_uvarint|]. intros n Hn.
  eapply wp_bind; [apply wp_bytes; go_simp; lia|]. intros rb [Hl Hb].
  eapply wp_bind; [apply wp_byte|]. intros style Hs.
  eapply wp_bind; [apply wp_check, cell_flags_framing|]. intros [] Hf.
  eapply wp_bind; [apply wp_check, validateRuneBytes_framing|]. intros [] Hv.
  wp_steps. unfold cell_wf. cbn [RuneBytes Style FG BG]. rewrite Hl.
  repeat (split; [try done; go_simp; lia|]). done.
Qed.

Lemma wp_n {A} (step : parser A) Q n :
  reader_wp step Q -> reader_wp (read_n step n) (fun l => length l = n /\ Forall Q l).
Proof.
  intros Hs. induction n as [|n IH]; [by apply wp_ret|]. simpl.
  eapply wp_bind; [apply Hs|]. intros x Hx. eapply wp_bind; [apply IH|]. intros xs [Hl Hq].
  apply wp_ret. split; [simpl; lia | by constructor].
Qed.

Lemma wp_cells n : 0 <= n -> reader_wp (reader_cells n) (fun l => blen l = n /\ Forall cell_wf l).
Proof.
  intros Hn. eapply wp_mono; [apply wp_n, wp_cell|]. intros l [Hl Hq]. split; [unfold blen; lia | done].
Qed.

Lemma wp_line : reader_wp reader_line line_wf.
Proof.
  eapply wp_bind; [apply wp_uvarint|]. intros n Hn.
  eapply wp_mono; [apply wp_cells; go_simp; lia|]. by intros l [-> Hq].
Qed.

Lemma wp_lift {A} (m : wire A) (Q : A -> Prop) :
  match m with Ok a => Q a | Err e => IsFramingErr e = true | Panic => False end ->
  reader_wp (lift_check m) Q.
Proof.
  intros Hm r Hr. unfold lift_check. by destruct m.
Qed.

Lemma wp_grid rows cols :
  u64_ok rows -> u64_ok cols ->
  reader_wp (lift_check (gridLen rows cols)) (fun n => n = rows * cols /\ 0 <= n < 2 ^ 64).
Proof.
  intros [Hr _] [Hc _]. apply wp_lift. destruct (gridLen rows cols) as [n|e|] eqn:E.
  - apply gridLen_inv in E as [-> ?]; [|done|done]. split; [done|nia].
  - unfold gridLen in E. destruct (Mul64 rows cols). destruct (negb _); [by injection E as <- | discriminate].
  - unfold gridLen in E. destruct (Mul64 rows cols). by destruct (negb _).
Qed.

Lemma header_fields_framing a b c d f e :
  validate_header_fields a b c d f = Some e -> IsFramingErr e = true.
Proof. unfold validate_header_fields. intros H. by bool_cases; try discriminate; injection H as <-. Qed.

Lemma DecodeScreen_safe b : go_slice b -> decode_safe screen_wf (DecodeScreen b).
Proof.
  intros Hb. apply parse_safe; [done|].
  do 13 (eapply wp_bind; [solve [eauto with go] | intros ? ?]).
  eapply wp_bind; [apply wp_check, header_fields_framing|]. intros [] Hv.
  eapply wp_bind; [by apply wp_grid|]. intros n [Hn Hnr].
  eapply wp_bind; [apply wp_cells; lia|]. intros prim [Hpl Hpc].
  eapply wp_bind; [apply wp_boolByte|]. intros altp _.
  eapply (wp_bind _ _ (fun l => if altp : bool then blen l = n /\ Forall cell_wf l else l = [])).
  { destruct altp; [apply wp_cells; lia | by apply wp_ret]. }
  intros alt Halt. eapply wp_bind; [apply wp_uvarint|]. intros sb Hsb.
  eapply wp_bind; [apply wp_n, wp_line|]. intros lines [Hll Hlc].
  wp_steps. subst n. unfold screen_wf, header_wf, validateHeader. simpl.
  assert (blen lines = sb) as -> by (unfold blen; go_simp; lia).
  split; [done|]. split; [lia|]. done.
Qed.

#[export, program] Instance Screen_codec : WireCodec Screen := {|
  enc := Screen_Encode; dec := DecodeScreen; wf := screen_wf
|}.
Next Obligation. intros s Hs. exists (screen_bytes s). by apply Screen_Encode_eq. Qed.
Next Obligation. intros s b Hs He. rewrite Screen_Encode_eq in He by done. injection He as <-. by apply screen_bytes_ok. Qed.
Next Obligation. intros s b Hs He Hl. rewrite Screen_Encode_eq in He by done. injection He as <-. by apply DecodeScreen_bytes. Qed.
Next Obligation. apply DecodeScreen_safe. Qed.

(** ** What the encoder accepts *)

Definition cell_encodable (c : Cell) : Prop :=
  cell_flags (Style c) (blen (RuneBytes c)) = None /\ validateRuneBytes (RuneBytes c) = None /\
  0 <= Mode (FG c) <= 2 /\ 0 <= Mode (BG c) <= 2.

Definition encodable (s : Screen) : Prop :=
  validateHeader s = None /\ SRows s * SCols s < 2 ^ 64 /\
  u64 (blen (Primary s)) = SRows s * SCols s /\ Forall cell_encodable (Primary s) /\
  (AltPresent s = true -> u64 (blen (Alt s)) = SRows s * SCols s /\ Forall cell_encodable (Alt s)) /\
  Forall (Forall cell_encodable) (Scrollback s).

Lemma encodeColor_ok dst c : (exists b, encodeColor dst c = Ok b) <-> 0 <= Mode c <= 2.
Proof.
  unfold encodeColor, ColorDefault, ColorIndexed, ColorTruecolor.
  destruct (Z.eqb_spec (Mode c) 0), (Z.eqb_spec (Mode c) 1), (Z.eqb_spec (Mode c) 2);
    (split; [intros [b Hb]; try discriminate; lia | intros; try lia; by eexists]).
Qed.

Lemma encodeCell_ok dst c : (exists b, encodeCell dst c = Ok b) <-> cell_encodable c.
Proof.
  unfold cell_encodable. destruct (cell_flags (Style c) (blen (RuneBytes c))) as [e|] eqn:Hf.
  { split; [intros [b Hb] | by intros []]. exfalso. unfold cell_flags in Hf. unfold encodeCell in Hb.
    by bool_cases; try discriminate; rewrite ?Heqb0, ?Heqb1, ?Heqb2 in Hb. }
  destruct (validateRuneBytes (RuneBytes c)) as [e|] eqn:Hv.
  { split; [intros [b Hb] | by intros (_ & ? & _)]. exfalso. unfold encodeCell in Hb. rewrite Hv in Hb.
    by bool_cases; try discriminate. }
  rewrite encodeCell_flags by done. set (d := (_ ++ [Style c])).
  split.
  - intros [b Hb]. destruct (encodeColor d (FG c)) as [d'| |] eqn:E1; simpl in Hb; try discriminate.
    split; [done|]. split; [done|]. split; [apply (encodeColor_ok d); by eexists|].
    apply (encodeColor_ok d'). by eexists.
  - intros (_ & _ & H1 & H2). destruct (proj2 (encodeColor_ok d (FG c)) H1) as [d' ->]. simpl.
    by apply encodeColor_ok.
Qed.

Lemma encode_cells_ok dst cs : (exists b, encode_cells dst cs = Ok b) <-> Forall cell_encodable cs.
Proof.
  revert dst. induction cs as [|c cs IH]; intros dst; simpl.
  { split; [intros _; constructor | intros _; by eexists]. }
  rewrite Forall_cons. split.
  - intros [b Hb]. destruct (encodeCell dst c) as [d| |] eqn:E; simpl in Hb; try discriminate.
    split; [apply (encodeCell_ok dst); by eexists | apply (IH d); by eexists].
  - intros [Hc Hcs]. destruct (proj2 (encodeCell_ok dst c) Hc) as [d ->]. simpl. by apply IH.
Qed.

Lemma encode_lines_ok dst ls : (exists b, encode_lines dst ls = Ok b) <-> Forall (Forall cell_encodable) ls.
Proof.
  revert dst. induction ls as [|l ls IH]; intros dst; simpl.
  { split; [intros _; constructor | intros _; by eexists]. }
  rewrite Forall_cons. split.
  - intros [b Hb]. destruct (encode_cells _ l) as [d| |] eqn:E; simpl in Hb; try discriminate.
    split; [eapply encode_cells_ok; by eexists | apply (IH d); by eexists].
  - intros [Hc Hcs]. destruct (proj2 (encode_cells_ok (AppendUvarint dst (u64 (blen l))) l) Hc) as [d ->].
    simpl. by apply IH.
Qed.

Lemma Screen_Encode_ok s :
  0 <= SRows s -> 0 <= SCols s -> (exists b, Screen_Encode s = Ok b) <-> encodable s.
Proof.
  intros Hr Hc. unfold Screen_Encode, encodable.
  destruct (validateHeader s); [split; [by intros [] | by intros []]|].
  destruct (gridLen (SRows s) (SCols s)) as [n| |] eqn:Hg; simpl obind.
  2,3: split; [by intros []|]; intros (_ & Hm & _); rewrite gridLen_eq in Hg by done; discriminate.
  apply gridLen_inv in Hg as [-> Hm]; [|done|done]. set (n := SRows s * SCols s) in *.
  destruct (Z.eqb_spec (u64 (blen (Primary s))) n) as [Hp|Hp].
  2: split; [by intros [] | intros (_ & _ & ? & _); done]. simpl negb. cbv iota.
  destruct (AltPresent s) eqn:Ha; simpl andb.
  - destruct (Z.eqb_spec (u64 (blen (Alt s))) n) as [Hal|Hal].
    2: split; [by intros []|]; intros (_ & _ & _ & _ & H & _); by destruct (H eq_refl).
    simpl negb. cbv iota. split.
    + intros [b Hb]. obind_inv Hb. obind_inv Hb.
      do 3 (split; [done|]). split; [eapply encode_cells_ok; by eexists|].
      split; [intros _; split; [done|]; eapply encode_cells_ok; by eexists|].
      eapply encode_lines_ok; by eexists.
    + intros (_ & _ & _ & H1 & H2 & H3). destruct (H2 eq_refl) as [_ H4].
      destruct (proj2 (encode_cells_ok (encode_header s) _) H1) as [d1 ->]. simpl obind.
      match goal with |- context [encode_cells ?d (Alt s)] =>
        destruct (proj2 (encode_cells_ok d _) H4) as [d2 ->] end. simpl obind.
      by apply encode_lines_ok.
  - split.
    + intros [b Hb]. obind_inv Hb. do 3 (split; [done|]).
      split; [eapply encode_cells_ok; by eexists|]. split; [done|]. eapply encode_lines_ok; by eexists.
    + intros (_ & _ & _ & H1 & _ & H3).
      destruct (proj2 (encode_cells_ok (encode_header s) _) H1) as [d1 ->]. simpl obind.
      by apply encode_lines_ok.
Qed.

(** ** Properties *)

(** C39. Screen round trip: every well-formed screen (valid header, grids of
    exactly rows x cols cells, escape-safe cells, alt grid iff flagged, any
    scrollback) is accepted by the encoder, and the decoder recovers exactly
    that screen from its bytes. *)
Theorem screen_roundtrip (s : Screen) :
  screen_wf s ->
  exists b, Screen_Encode s = Ok b /\ bytes_ok b /\
    (blen b < 2 ^ 63 -> DecodeScreen b = Ok s) /\
    (forall s', screen_wf s' -> blen b < 2 ^ 63 -> Screen_Encode s' = Ok b -> s' = s).
Proof.
  intros Hs. exists (screen_bytes s). pose proof (Screen_Encode_eq s Hs) as He.
  split; [done|]. split; [by apply screen_bytes_ok|]. split; [by apply DecodeScreen_bytes|].
  intros s' Hs' Hl He'. by apply (enc_injective s' s (screen_bytes s)).
Qed.

Definition sample_cell : Cell :=
  {| RuneBytes := [0xE2; 0x9C; 0xB3]; Style := 0x05; FG := IndexedColor 9; BG := TrueColor 1 2 3 |}.
Definition wide_cell : Cell :=
  {| RuneBytes := []; Style := 0x40; FG := DefaultColor; BG := DefaultColor |}.
Definition sample_screen : Screen :=
  {| Epoch := 7; EchoMode := EchoOn; SCols := 2; SRows := 1; ActiveBuffer := BufferAlt;
     CursorRow := 0; CursorCol := 1; CursorVisible := true; CursorShape := 2; Modes := 0x08;
     SMouseProto := MouseProto 4 2; SavedCursorRow := 0; SavedCursorCol := 0;
     Primary := [sample_cell; wide_cell]; AltPresent := true; Alt := [wide_cell; wide_cell];
     Scrollback := [[sample_cell]; []] |}.

Lemma sample_cell_wf : cell_wf sample_cell.
Proof.
  repeat split; try (vm_compute; done); try (repeat constructor; vm_compute; done).
  - right; left. exists 9. split; [split; vm_compute; done | done].
  - right; right. exists 1, 2, 3. repeat split; vm_compute; done.
Qed.

Lemma wide_cell_wf : cell_wf wide_cell.
Proof.
  unfold cell_wf. split_and!; try (vm_compute; done); try apply Forall_nil_2; by left.
Qed.

Lemma sample_screen_wf : screen_wf sample_screen.
Proof.
  pose proof sample_cell_wf. pose proof wide_cell_wf.
  assert (Forall cell_wf [wide_cell; wide_cell]) by (repeat (apply Forall_cons_2; [done|]); apply Forall_nil_2).
  assert (Forall cell_wf [sample_cell; wide_cell]) by (repeat (apply Forall_cons_2; [done|]); apply Forall_nil_2).
  assert (Forall cell_wf [sample_cell]) by (apply Forall_cons_2; [done | apply Forall_nil_2]).
  unfold screen_wf, header_wf, u64_ok, u8_ok, sample_screen.
  cbn [Epoch EchoMode SCols SRows ActiveBuffer CursorRow CursorCol CursorShape Modes SMouseProto
       SavedCursorRow SavedCursorCol Primary AltPresent Alt Scrollback].
  unfold EchoOn, BufferAlt, blen. change (MouseProto 4 2) with 36. cbn [length].
  split_and!; try assumption; try lia; try reflexivity.
  - repeat (apply Forall_cons_2; [split; [cbn [length]; lia | first [assumption | apply Forall_nil_2]]|]).
    apply Forall_nil_2.
Qed.

Lemma screen_roundtrip_witness :
  exists b, Screen_Encode sample_screen = Ok b /\ bytes_ok b /\
    (blen b < 2 ^ 63 -> DecodeScreen b = Ok sample_screen) /\
    (forall s', screen_wf s' -> blen b < 2 ^ 63 -> Screen_Encode s' = Ok b -> s' = sample_screen).
Proof. apply (screen_roundtrip sample_screen), sample_screen_wf. Defined.

(** C4. Decoding a screen is total and escape-safe: on every byte slice it
    returns without a panic, whatever lengths the input declares; every refusal
    is a framing error; and an accepted screen is well-formed, so each of its
    cells carries only printable UTF-8 text, its grids have exactly the declared
    size, and re-encoding it succeeds. *)
Theorem screen_decode_total_safe (b : bytes) :
  go_slice b ->
  match DecodeScreen b with
  | Ok s =>
      screen_wf s /\ (exists b', Screen_Encode s = Ok b') /\
      (forall c, c ∈ Primary s ++ Alt s ++ concat (Scrollback s) ->
         exists rs, RuneBytes c = utf8_text rs /\ Forall printable rs)
  | Err e => IsFramingErr e = true
  | Panic => False
  end.
Proof.
  intros Hb. pose proof (DecodeScreen_safe b Hb) as Hs. destruct (DecodeScreen b) as [s|e|]; try done.
  split; [done|]. split; [eexists; by apply Screen_Encode_eq|]. simpl in Hs.
  destruct Hs as (_ & _ & _ & Hp & Ha & _ & Hl). intros c Hc.
  assert (cell_wf c) as (_ & Hbs & _ & _ & Hv & _).
  { rewrite !elem_of_app in Hc. destruct Hc as [Hc|[Hc|Hc]].
    - by eapply Forall_forall in Hp.
    - destruct (AltPresent s); [destruct Ha as [_ Ha]; by eapply Forall_forall in Ha|].
      rewrite Ha in Hc. by apply elem_of_nil in Hc.
    - apply list_elem_of_In, in_concat in Hc as (l & Hin & Hc).
      apply list_elem_of_In in Hin, Hc. eapply (Forall_forall line_wf) in Hl as [_ Hl]; [|exact Hin].
      by eapply Forall_forall in Hl. }
  by apply validateRuneBytes_iff.
Qed.

(** A header that declares a 200 x 2 grid and then ends. *)
Definition hostile_snap : bytes := [0; 1; 200; 1; 2; 0; 0; 0; 1; 0; 0; 0; 0; 0].

Lemma screen_decode_total_safe_witness :
  DecodeScreen hostile_snap = Err ErrVarintTruncated /\
  match DecodeScreen hostile_snap with
  | Ok s =>
      screen_wf s /\ (exists b', Screen_Encode s = Ok b') /\
      (forall c, c ∈ Primary s ++ Alt s ++ concat (Scrollback s) ->
         exists rs, RuneBytes c = utf8_text rs /\ Forall printable rs)
  | Err e => IsFramingErr e = true
  | Panic => False
  end.
Proof.
  split; [vm_compute; reflexivity|]. apply screen_decode_total_safe.
  split; [reflexivity | repeat constructor; vm_compute; done].
Defined.

(** The encoder accepts exactly the encodable screens: a valid header, a
    grid size that fits 64 bits, grids of exactly that size, and cells whose
    flags, runes and color modes are legal. Nothing else is ever put on the
    wire. *)
Theorem screen_encode_accepts_iff (s : Screen) :
  0 <= SRows s -> 0 <= SCols s -> (exists b, Screen_Encode s = Ok b) <-> encodable s.
Proof. apply Screen_Encode_ok. Qed.

Lemma screen_encode_accepts_iff_witness :
  (exists b, Screen_Encode sample_screen = Ok b) <-> encodable sample_screen.
Proof. apply (screen_encode_accepts_iff sample_screen); vm_compute; discriminate. Defined.
