(* ===== verification/Checkpoint.v ===== *)
(** * Checkpoint: the continuation checkpoint ([src/attachwire/checkpoint.go])

    A complete host-state boundary: schema, epoch, sequence, picture, opaque
    state and, on the final boundary, the exit observation. *)

From S2P Require Import Prelude Varint Reader Frame Payloads Utf8 Snapshot.

Definition ContinuationSchema : bytes := str "donmai-vt/continuation-v1".

(** 20 << 20 *)
Definition MaxContinuationBytes : Z := Z.shiftl 20 20.

Record ContinuationCheckpoint := {
  CSchema : bytes;
  CEpoch : Z;
  CAtSeq : Z;
  Picture : Screen;
  CState : bytes;
  CExit : option ExitPayload
}.

(** [if _, err := call; err != nil { return err }], keeping a panic a panic. *)
Definition check_call {A} (m : wire A) : wire unit := obind m (fun _ => Ok tt).

(** The final-observation part of [ValidateBoundary]. *)
Definition validate_exit (atSeq : Z) (e : ExitPayload) : wire unit :=
  if (atSeq =? 0) || (64 <? blen (Signal e)) || negb (utf8_Valid (Signal e))
  then Err (PlainError InvalidFinalObservation)
  else if existsb (fun rs => unicode_IsControl (fst rs)) (decode_all (Signal e))
  then Err (PlainError ControlInSignal)
  else check_call (DecodeExit (ExitPayload_Encode e)).

Definition ValidateBoundary (c : ContinuationCheckpoint) (selected : bytes) : wire unit :=
  if negb (bytes_eqb selected ContinuationSchema) || negb (bytes_eqb (CSchema c) selected)
  then Err (PlainError UnsupportedSchema)
  else if negb (Epoch (Picture c) =? CEpoch c) || (blen (CState c) =? 0)
            || (MaxContinuationBytes <? blen (CState c))
  then Err (PlainError InvalidBoundary)
  else match validateHeader (Picture c) with
  | Some e => Err e
  | None => match CExit c with None => Ok tt | Some e => validate_exit (CAtSeq c) e end
  end.

(** The bytes of the final exit observation, empty when there is none. *)
Definition final_bytes (c : ContinuationCheckpoint) : wire bytes :=
  match CExit c with
  | None => Ok []
  | Some e =>
      if CAtSeq c =? 0 then Err (PlainError FinalWithoutExitSeq)
      else
        let final := ExitPayload_Encode e in
        obind (DecodeExit final) (fun _ => Ok final)
  end.

Definition Checkpoint_Encode (c : ContinuationCheckpoint) (selected : bytes) : wire bytes :=
  let* _ := ValidateBoundary c selected in
  let* picture := Screen_Encode (Picture c) in
  let b := AppendUvarint [] (u64 (blen (CSchema c))) in
  let b := b ++ CSchema c in
  let b := AppendUvarint b (CEpoch c) in
  let b := AppendUvarint b (CAtSeq c) in
  let b := AppendUvarint b (u64 (blen picture)) in
  let b := b ++ picture in
  let b := AppendUvarint b (u64 (blen (CState c))) in
  let b := b ++ CState c in
  let* final := final_bytes c in
  let b := AppendUvarint b (u64 (blen final)) in
  let b := b ++ final in
  if MaxContinuationBytes <? blen b then Err (PlainError ContinuationTooLarge) else Ok b.

(** The decoded final observation. *)
Definition decode_final (final : bytes) (seq : Z) : wire (option ExitPayload) :=
  if negb (blen final =? 0) then
    if seq =? 0 then Err (PlainError FinalWithoutExitSeq)
    else obind (DecodeExit final) (fun e => Ok (Some e))
  else Ok None.

Definition DecodeContinuationCheckpoint (b : bytes) (selected : bytes) : wire ContinuationCheckpoint :=
  if negb (bytes_eqb selected ContinuationSchema) || (MaxContinuationBytes <? blen b)
  then Err (PlainError UnsupportedSchemaOrSize)
  else
    parse (let! schema := lenPrefixed in
           let! _ := pcheck (if bytes_eqb schema selected then None else Some (PlainError SchemaMismatch)) in
           let! epoch := reader_uvarint in
           let! seq := reader_uvarint in
           let! picture := lenPrefixed in
           let! screen := lift_check (DecodeScreen picture) in
           let! _ := pcheck (if Epoch screen =? epoch then None else Some (PlainError EpochMismatch)) in
           let! state := lenPrefixed in
           let! _ := pcheck (if blen state =? 0 then Some (PlainError MissingState) else None) in
           let! final := lenPrefixed in
           let! exit := lift_check (decode_final final seq) in
           let! _ := expectDone in
           let c := {| CSchema := selected; CEpoch := epoch; CAtSeq := seq; Picture := screen;
                       CState := [] ++ state; CExit := exit |} in
           let! _ := lift_check (ValidateBoundary c selected) in
           pret c) b.

(** ** Well-formed checkpoints *)

Definition checkpoint_wf (c : ContinuationCheckpoint) : Prop :=
  u64_ok (CEpoch c) /\ u64_ok (CAtSeq c) /\ screen_wf (Picture c) /\ bytes_ok (CState c) /\
  match CExit c with None => True | Some e => exit_wf e end /\
  ValidateBoundary c ContinuationSchema = Ok tt.

Lemma ValidateBoundary_inv c sel :
  ValidateBoundary c sel = Ok tt ->
  sel = ContinuationSchema /\ CSchema c = sel /\ Epoch (Picture c) = CEpoch c /\
  0 < blen (CState c) <= MaxContinuationBytes /\ validateHeader (Picture c) = None /\
  match CExit c with None => True | Some e => validate_exit (CAtSeq c) e = Ok tt end.
Proof.
  unfold ValidateBoundary. intros H. pose proof (blen_nonneg (CState c)).
  destruct (bytes_eqb sel ContinuationSchema) eqn:E1; [|done].
  destruct (bytes_eqb (CSchema c) sel) eqn:E2; [|done]. simpl orb in H. cbv iota in H.
  destruct (Z.eqb_spec (Epoch (Picture c)) (CEpoch c)); [|done].
  destruct (Z.eqb_spec (blen (CState c)) 0); [done|].
  destruct (Z.ltb_spec MaxContinuationBytes (blen (CState c))); [done|].
  simpl orb in H. cbv iota in H. destruct (validateHeader (Picture c)); [done|].
  apply bytes_eqb_eq in E1, E2. split; [done|]. split; [done|]. split; [done|]. split; [lia|].
  split; [done|]. by destruct (CExit c).
Qed.

Lemma validate_exit_inv seq e :
  validate_exit seq e = Ok tt -> seq <> 0 /\ blen (Signal e) <= 64 /\ utf8_Valid (Signal e) = true.
Proof.
  unfold validate_exit. intros H.
  destruct (Z.eqb_spec seq 0); [done|]. destruct (Z.ltb_spec 64 (blen (Signal e))); [done|].
  by destruct (utf8_Valid (Signal e)).
Qed.

Lemma exit_nonempty e : exit_wf e -> 0 < blen (ExitPayload_Encode e).
Proof.
  intros [He _]. unfold ExitPayload_Encode, AppendUvarint. rewrite !blen_app, blen_nil.
  pose proof (uvarint_bytes_nonempty _ He). pose proof (blen_nonneg (Signal e)).
  pose proof (blen_nonneg (uvarint_bytes (u64 (blen (Signal e))))). lia.
Qed.

Lemma ExitPayload_small e : exit_wf e -> blen (Signal e) <= 64 -> blen (ExitPayload_Encode e) < 2 ^ 63.
Proof.
  intros [He _] Hl. unfold ExitPayload_Encode, AppendUvarint. rewrite !blen_app, blen_nil.
  pose proof (uvarint_bytes_nonempty _ He).
  pose proof (uvarint_bytes_nonempty _ (u64_range (blen (Signal e)))). unfold MaxVarintLen in *. lia.
Qed.

(** The final observation written and read back. *)
Lemma final_roundtrip c final :
  checkpoint_wf c -> final_bytes c = Ok final ->
  bytes_ok final /\ decode_final final (CAtSeq c) = Ok (CExit c).
Proof.
  intros (_ & _ & _ & _ & He & Hv) Hf. apply ValidateBoundary_inv in Hv as (_ & _ & _ & _ & _ & Hx).
  unfold final_bytes in Hf. destruct (CExit c) as [e|].
  - apply validate_exit_inv in Hx as (Hs & Hl & _).
    destruct (Z.eqb_spec (CAtSeq c) 0); [done|].
    assert (Hd : DecodeExit (ExitPayload_Encode e) = Ok e)
      by (apply DecodeExit_Encode; [done | by apply ExitPayload_small]).
    rewrite Hd in Hf. injection Hf as <-. split; [by apply ExitPayload_bytes|].
    unfold decode_final. pose proof (exit_nonempty e He).
    destruct (Z.eqb_spec (blen (ExitPayload_Encode e)) 0); [lia|].
    destruct (Z.eqb_spec (CAtSeq c) 0); [done|]. simpl. by rewrite Hd.
  - injection Hf as <-. split; [apply Forall_nil_2 | done].
Qed.

Lemma reads_end_lift {A B} (m : wire A) (k : A -> parser B) a t b :
  m = Ok a -> reads_end (k a) t b -> reads_end (pbind (lift_check m) k) t b.
Proof. intros Hm Hk. apply (reads_end_bind _ _ [] t a); [by apply reads_lift | done]. Qed.

Definition checkpoint_bytes (c : ContinuationCheckpoint) (final : bytes) : bytes :=
  put_prefixed (CSchema c) ++ uvarint_bytes (CEpoch c) ++ uvarint_bytes (CAtSeq c) ++
  put_prefixed (screen_bytes (Picture c)) ++ put_prefixed (CState c) ++ put_prefixed final ++ [].

Lemma final_bytes_total c :
  checkpoint_wf c -> exists final, final_bytes c = Ok final.
Proof.
  intros (_ & _ & _ & _ & He & Hv). apply ValidateBoundary_inv in Hv as (_ & _ & _ & _ & _ & Hx).
  unfold final_bytes. destruct (CExit c) as [e|]; [|by eexists].
  apply validate_exit_inv in Hx as (Hs & Hl & _). destruct (Z.eqb_spec (CAtSeq c) 0); [done|].
  rewrite DecodeExit_Encode by (done || by apply ExitPayload_small). by eexists.
Qed.

Lemma Checkpoint_Encode_eq c final :
  checkpoint_wf c -> final_bytes c = Ok final ->
  Checkpoint_Encode c ContinuationSchema =
    if MaxContinuationBytes <? blen (checkpoint_bytes c final)
    then Err (PlainError ContinuationTooLarge) else Ok (checkpoint_bytes c final).
Proof.
  intros (_ & _ & Hs & _ & _ & Hv) Hf. unfold Checkpoint_Encode. rewrite Hv. simpl obind.
  rewrite (Screen_Encode_eq _ Hs). simpl obind. rewrite Hf. simpl obind.
  unfold checkpoint_bytes, AppendUvarint, put_prefixed. rewrite app_nil_r, app_nil_l.
  by rewrite <- !app_assoc.
Qed.

Lemma checkpoint_bytes_ok c final :
  checkpoint_wf c -> bytes_ok final -> blen (checkpoint_bytes c final) <= MaxContinuationBytes ->
  bytes_ok (checkpoint_bytes c final).
Proof.
  intros (Hep & Has & Hs & Hst & _ & Hv) Hf Hl. unfold checkpoint_bytes in *.
  apply ValidateBoundary_inv in Hv as (_ & -> & _). pose proof (screen_bytes_ok _ Hs).
  assert (bytes_ok ContinuationSchema) by (repeat constructor; vm_compute; done).
  unfold put_prefixed. bytes_ok_tac.
Qed.

Lemma DecodeCheckpoint_bytes c final :
  checkpoint_wf c -> final_bytes c = Ok final ->
  blen (checkpoint_bytes c final) <= MaxContinuationBytes ->
  DecodeContinuationCheckpoint (checkpoint_bytes c final) ContinuationSchema = Ok c.
Proof.
  intros Hw Hf Hl. destruct (final_roundtrip c final Hw Hf) as [Hfb Hfd].
  pose proof (checkpoint_bytes_ok c final Hw Hfb Hl) as Hok.
  destruct Hw as (Hep & Has & Hs & Hst & _ & Hv).
  pose proof (ValidateBoundary_inv _ _ Hv) as (_ & Hsch & Hepo & Hsl & _).
  unfold DecodeContinuationCheckpoint. rewrite bytes_eqb_refl. simpl orb.
  destruct (Z.ltb_spec MaxContinuationBytes (blen (checkpoint_bytes c final))); [lia|].
  change MaxContinuationBytes with 20971520 in *.
  apply parse_reads; [split; [lia | done]|]. unfold checkpoint_bytes in *.
  assert (blen (CSchema c) < 2 ^ 63 /\ blen (screen_bytes (Picture c)) < 2 ^ 63 /\
          blen (CState c) < 2 ^ 63 /\ blen final < 2 ^ 63) as (Hl1 & Hl2 & Hl3 & Hl4).
  { unfold put_prefixed in Hl. split_len Hl. lia. }
  codec.
  { by rewrite Hsch, bytes_eqb_refl. }
  codec. eapply reads_end_lift; [by apply DecodeScreen_bytes|].
  apply reads_end_check; [by rewrite Hepo, Z.eqb_refl|]. codec.
  { destruct (Z.eqb_spec (blen (CState c)) 0); [lia|done]. }
  codec. eapply reads_end_lift; [exact Hfd|]. apply reads_end_done.
  destruct c as [sc ep seq pic st ex]. cbn [CSchema CEpoch CAtSeq Picture CState CExit] in *.
  subst sc. eapply reads_end_lift; [exact Hv|]. apply reads_end_ret.
Qed.

(** ** What the decoder can return *)

Lemma tot_lift {A} (m : wire A) (Q : A -> Prop) :
  match m with Ok a => Q a | Err _ => True | Panic => False end -> reader_tot (lift_check m) Q.
Proof. intros Hm r Hr. unfold lift_check. by destruct m. Qed.

Lemma parser_no_panic_decode_final final seq :
  go_slice final ->
  match decode_final final seq with
  | Ok e => match e with Some x => exit_wf x | None => True end
  | Err _ => True
  | Panic => False
  end.
Proof.
  intros Hf. unfold decode_final. destruct (negb _); [|done]. destruct (seq =? 0); [done|].
  pose proof (DecodeExit_safe final Hf) as Hd. by destruct (DecodeExit final).
Qed.

Lemma validate_exit_no_panic seq e : exit_wf e -> validate_exit seq e <> Panic.
Proof.
  intros He. unfold validate_exit. destruct (Z.eqb_spec seq 0); [done|].
  destruct (Z.ltb_spec 64 (blen (Signal e))); [done|]. destruct (negb _); [done|]. simpl orb. cbv iota.
  destruct (existsb _ _); [done|].
  rewrite DecodeExit_Encode by (done || by apply ExitPayload_small). done.
Qed.

Lemma ValidateBoundary_no_panic c sel :
  match CExit c with None => True | Some e => exit_wf e end -> ValidateBoundary c sel <> Panic.
Proof.
  intros He. unfold ValidateBoundary. destruct (_ || _); [done|]. destruct (_ || _ || _); [done|].
  destruct (validateHeader _); [done|]. destruct (CExit c); [by apply validate_exit_no_panic | done].
Qed.

(** A field read from a small buffer is a small slice. *)
Lemma wp_prefixed_small :
  forall r, reader_ok r ->
    match lenPrefixed r with
    | Ok (b, r') => reader_ok r' /\ buf r' = buf r /\ off r <= off r' /\ go_slice b
    | Err e => IsFramingErr e = true
    | Panic => False
    end.
Proof.
  intros r Hr. pose proof (wp_uvarint r Hr) as Hu. unfold lenPrefixed, pbind.
  destruct (reader_uvarint r) as [[n r1]|e|]; try done. destruct Hu as (Hr1 & Hb1 & Ho1 & Hn).
  simpl. pose proof (wp_bytes n ltac:(go_simp; lia) r1 Hr1) as Hb.
  unfold reader_bytes in *. destruct (Z.ltb_spec (u64 (remaining r1)) n) as [|Hle]; [done|].
  destruct (obind _ _) as [[b r2]|e|] eqn:E; try done.
  destruct Hb as (Hr2 & Hb2 & Ho2 & Hlb & Hok). split; [done|]. split; [congruence|]. split; [lia|].
  split; [|done]. rewrite Hlb. destruct Hr1 as [Ho [Hl _]].
  rewrite u64_small in Hle by (unfold remaining; go_simp; lia). unfold remaining in Hle. lia.
Qed.

Lemma wp_prefixed_slice : reader_wp lenPrefixed go_slice.
Proof. exact wp_prefixed_small. Qed.

Lemma DecodeCheckpoint_total b sel :
  go_slice b ->
  match DecodeContinuationCheckpoint b sel with
  | Ok c => sel = ContinuationSchema /\ checkpoint_wf c
  | Err _ => True
  | Panic => False
  end.
Proof.
  intros Hb. unfold DecodeContinuationCheckpoint.
  destruct (bytes_eqb sel ContinuationSchema) eqn:Hsel; [|done]. apply bytes_eqb_eq in Hsel as ->.
  simpl orb. destruct (MaxContinuationBytes <? blen b); [done|].
  match goal with |- context [parse ?p b] => enough (reader_tot p checkpoint_wf) as Hp end.
  { pose proof (parse_tot _ _ b Hb Hp) as H. by destruct (parse _ b). }
  eapply tot_bind; [apply tot_wp, wp_prefixed_slice|]. intros schema _.
  eapply tot_bind; [apply tot_check|]. intros [] _.
  eapply tot_bind; [apply tot_wp, wp_uvarint|]. intros epoch Hep.
  eapply tot_bind; [apply tot_wp, wp_uvarint|]. intros seq Hseq.
  eapply tot_bind; [apply tot_wp, wp_prefixed_slice|]. intros pic Hpic.
  eapply tot_bind.
  { apply (tot_lift _ screen_wf). pose proof (DecodeScreen_safe pic Hpic). by destruct (DecodeScreen pic). }
  intros screen Hscr. eapply tot_bind; [apply tot_check|]. intros [] _.
  eapply tot_bind; [apply tot_wp, wp_prefixed_slice|]. intros st Hst.
  eapply tot_bind; [apply tot_check|]. intros [] _.
  eapply tot_bind; [apply tot_wp, wp_prefixed_slice|]. intros fin Hfin.
  eapply tot_bind; [apply tot_lift, (parser_no_panic_decode_final fin seq Hfin)|]. intros ex Hex.
  eapply tot_bind; [apply tot_wp, wp_done|]. intros _ _. cbv zeta.
  match goal with |- context [ValidateBoundary ?c _] => set (cp := c) end.
  eapply (tot_bind _ _ (fun _ => ValidateBoundary cp ContinuationSchema = Ok tt)).
  { apply tot_lift. pose proof (ValidateBoundary_no_panic cp ContinuationSchema Hex).
    by destruct (ValidateBoundary cp ContinuationSchema) as [[]| |]. }
  intros _ Hv. apply tot_ret. by repeat (split; [first [done | apply Hst]|]).
Qed.

(** ** Properties *)

(** Checkpoint round trip: a checkpoint with a valid boundary and a
    well-formed picture either exceeds the 20 MiB bound, which is reported, or
    encodes to at most that many bytes from which the decoder recovers exactly
    the same checkpoint, its exit observation included. *)
Theorem checkpoint_roundtrip (c : ContinuationCheckpoint) :
  checkpoint_wf c ->
  match Checkpoint_Encode c ContinuationSchema with
  | Ok b => blen b <= MaxContinuationBytes /\
            DecodeContinuationCheckpoint b ContinuationSchema = Ok c
  | Err e => e = PlainError ContinuationTooLarge
  | Panic => False
  end.
Proof.
  intros Hw. destruct (final_bytes_total c Hw) as [final Hf].
  rewrite (Checkpoint_Encode_eq c final Hw Hf).
  destruct (Z.ltb_spec MaxContinuationBytes (blen (checkpoint_bytes c final))); [done|].
  split; [done|]. by apply DecodeCheckpoint_bytes.
Qed.

Definition sample_checkpoint : ContinuationCheckpoint :=
  {| CSchema := ContinuationSchema; CEpoch := 7; CAtSeq := 41; Picture := sample_screen;
     CState := [0; 27; 255]; CExit := Some (NewSignalExit (SignalName 15) 15) |}.

Lemma sample_checkpoint_wf : checkpoint_wf sample_checkpoint.
Proof.
  split; [unfold u64_ok; simpl; lia|]. split; [unfold u64_ok; simpl; lia|].
  split; [apply sample_screen_wf|].
  split; [repeat constructor; vm_compute; (reflexivity || discriminate)|].
  split; [|vm_compute; reflexivity].
  split; [split; vm_compute; (reflexivity || discriminate)|].
  split; [reflexivity | repeat constructor; vm_compute; (reflexivity || discriminate)].
Qed.

Lemma checkpoint_roundtrip_witness :
  match Checkpoint_Encode sample_checkpoint ContinuationSchema with
  | Ok b => blen b <= MaxContinuationBytes /\
            DecodeContinuationCheckpoint b ContinuationSchema = Ok sample_checkpoint
  | Err e => e = PlainError ContinuationTooLarge
  | Panic => False
  end.
Proof. apply checkpoint_roundtrip, sample_checkpoint_wf. Defined.

(** Checkpoint decoding commits to a boundary only when it is sound: for
    every byte slice and every selected schema it returns without a panic, and
    an accepted checkpoint was decoded under the supported schema, carries a
    non-empty state of at most 20 MiB, a well-formed picture of the same epoch,
    and, if it has an exit observation, a non-zero exit sequence with a UTF-8
    signal name of at most 64 bytes. *)
Theorem checkpoint_decode_sound (b selected : bytes) :
  go_slice b ->
  match DecodeContinuationCheckpoint b selected with
  | Ok c =>
      selected = ContinuationSchema /\ CSchema c = ContinuationSchema /\
      Epoch (Picture c) = CEpoch c /\ screen_wf (Picture c) /\
      0 < blen (CState c) <= MaxContinuationBytes /\
      (forall e, CExit c = Some e ->
         CAtSeq c <> 0 /\ blen (Signal e) <= 64 /\ utf8_Valid (Signal e) = true)
  | Err _ => True
  | Panic => False
  end.
Proof.
  intros Hb. pose proof (DecodeCheckpoint_total b selected Hb) as Ht.
  destruct (DecodeContinuationCheckpoint b selected) as [c| |]; try done.
  destruct Ht as [-> (_ & _ & Hs & _ & _ & Hv)].
  apply ValidateBoundary_inv in Hv as (_ & Hsc & He & Hl & _ & Hx).
  do 5 (split; [done|]). intros e Hce. rewrite Hce in Hx. by apply validate_exit_inv.
Qed.

Definition sample_checkpoint_bytes : bytes :=
  checkpoint_bytes sample_checkpoint (ExitPayload_Encode (NewSignalExit (SignalName 15) 15)).

Lemma checkpoint_decode_sound_witness :
  DecodeContinuationCheckpoint sample_checkpoint_bytes ContinuationSchema = Ok sample_checkpoint /\
  Epoch (Picture sample_checkpoint) = CEpoch sample_checkpoint /\
  0 < blen (CState sample_checkpoint) <= MaxContinuationBytes.
Proof.
  assert (DecodeContinuationCheckpoint sample_checkpoint_bytes ContinuationSchema = Ok sample_checkpoint) as E
    by (vm_compute; reflexivity).
  pose proof (checkpoint_decode_sound sample_checkpoint_bytes ContinuationSchema) as H.
  rewrite E in H. destruct H as (_ & _ & H1 & _ & H2 & _).
  - split; [reflexivity | repeat constructor; vm_compute; (reflexivity || discriminate)].
  - split; [exact E | split; [exact H1 | exact H2]].
Defined.
