(* ===== verification/Base64.v ===== *)
(** * Base64 and the degraded lane ([src/attachwire/degraded.go])

    Go's [encoding/base64] (standard library): the standard and URL alphabets,
    with or without padding, strict or not; then the degraded lane's
    [EncodeFrameBase64] / [DecodeFrameBase64].  The decoder works on quanta of
    four characters and ignores carriage returns and line feeds, as Go's does. *)

From S2P Require Import Prelude Varint Reader Frame.

Record Encoding := { url : bool; padded : bool; strict : bool }.

Definition StdEncoding : Encoding := {| url := false; padded := true; strict := false |}.
Definition RawStdEncoding : Encoding := {| url := false; padded := false; strict := false |}.
Definition RawURLEncoding_Strict : Encoding := {| url := true; padded := false; strict := true |}.

Definition padChar : Z := 61.

(** The alphabet's character for a 6-bit value, and back. *)
Definition enc_char (e : Encoding) (v : Z) : Z :=
  if v <? 26 then 65 + v
  else if v <? 52 then 97 + (v - 26)
  else if v <? 62 then 48 + (v - 52)
  else if v =? 62 then (if url e then 45 else 43)
  else (if url e then 95 else 47).

Definition dec_char (e : Encoding) (c : Z) : option Z :=
  if in_range 65 90 c then Some (c - 65)
  else if in_range 97 122 c then Some (c - 97 + 26)
  else if in_range 48 57 c then Some (c - 48 + 52)
  else if c =? (if url e then 45 else 43) then Some 62
  else if c =? (if url e then 95 else 47) then Some 63
  else None.

(** ** [EncodeToString] *)

Fixpoint EncodeToString (e : Encoding) (src : bytes) : bytes :=
  match src with
  | a :: b :: c :: rest =>
      let val := Z.lor (Z.lor (Z.shiftl a 16) (Z.shiftl b 8)) c in
      [enc_char e (Z.land (Z.shiftr val 18) 63); enc_char e (Z.land (Z.shiftr val 12) 63);
       enc_char e (Z.land (Z.shiftr val 6) 63); enc_char e (Z.land val 63)] ++ EncodeToString e rest
  | [a; b] =>
      let val := Z.lor (Z.shiftl a 16) (Z.shiftl b 8) in
      [enc_char e (Z.land (Z.shiftr val 18) 63); enc_char e (Z.land (Z.shiftr val 12) 63);
       enc_char e (Z.land (Z.shiftr val 6) 63)] ++ (if padded e then [padChar] else [])
  | [a] =>
      let val := Z.shiftl a 16 in
      [enc_char e (Z.land (Z.shiftr val 18) 63); enc_char e (Z.land (Z.shiftr val 12) 63)] ++
      (if padded e then [padChar; padChar] else [])
  | [] => []
  end.

(** ** [DecodeString] *)

Definition newline (c : Z) : bool := (c =? 10) || (c =? 13).

(** The bytes of a quantum of [dlen] characters: the shifted-out bits must be
    zero in strict mode. *)
Definition quantum (e : Encoding) (dlen v0 v1 v2 v3 : Z) : option bytes :=
  let val := Z.lor (Z.lor (Z.lor (Z.shiftl v0 18) (Z.shiftl v1 12)) (Z.shiftl v2 6)) v3 in
  let b0 := u8 (Z.shiftr val 16) in
  let b1 := u8 (Z.shiftr val 8) in
  let b2 := u8 val in
  if dlen =? 4 then Some [b0; b1; b2]
  else if dlen =? 3 then (if strict e && negb (b2 =? 0) then None else Some [b0; b1])
  else (if strict e && (negb (b1 =? 0) || negb (b2 =? 0)) then None else Some [b0]).

Fixpoint decode_quanta (e : Encoding) (src : bytes) : option bytes :=
  match src with
  | [] => Some []
  | c0 :: c1 :: c2 :: c3 :: rest =>
      match dec_char e c0, dec_char e c1 with
      | Some v0, Some v1 =>
          match dec_char e c2 with
          | Some v2 =>
              match dec_char e c3 with
              | Some v3 =>
                  match quantum e 4 v0 v1 v2 v3, decode_quanta e rest with
                  | Some bs, Some tl => Some (bs ++ tl)
                  | _, _ => None
                  end
              | None =>
                  if padded e && (c3 =? padChar) && (blen rest =? 0) then quantum e 3 v0 v1 v2 0 else None
              end
          | None =>
              if padded e && (c2 =? padChar) && (c3 =? padChar) && (blen rest =? 0)
              then quantum e 2 v0 v1 0 0 else None
          end
      | _, _ => None
      end
  | [c0; c1; c2] =>
      if padded e then None
      else match dec_char e c0, dec_char e c1, dec_char e c2 with
           | Some v0, Some v1, Some v2 => quantum e 3 v0 v1 v2 0
           | _, _, _ => None
           end
  | [c0; c1] =>
      if padded e then None
      else match dec_char e c0, dec_char e c1 with
           | Some v0, Some v1 => quantum e 2 v0 v1 0 0
           | _, _ => None
           end
  | [_] => None
  end.

Definition DecodeString (e : Encoding) (src : bytes) : option bytes :=
  decode_quanta e (List.filter (fun c => negb (newline c)) src).

(** ** The degraded lane's frame elements *)

Definition FrameBase64Encoding : Encoding := StdEncoding.

Definition EncodeFrameBase64 (f : Frame) : bytes := EncodeToString FrameBase64Encoding (EncodeFrame f).

Definition DecodeFrameBase64 (s : bytes) : wire Frame :=
  match DecodeString FrameBase64Encoding s with
  | None => Err (FramingError InvalidBase64)
  | Some raw => DecodeFrame raw
  end.

(** ** Round trip *)

Lemma dec_enc_char e v : 0 <= v < 64 -> dec_char e (enc_char e v) = Some v.
Proof.
  intros Hv. unfold enc_char.
  destruct (Z.ltb_spec v 26), (Z.ltb_spec v 52), (Z.ltb_spec v 62), (Z.eqb_spec v 62); try lia;
    unfold dec_char, in_range; destruct (url e); bool_cases; try (f_equal; lia); lia.
Qed.

Lemma enc_char_not_newline e v : 0 <= v < 64 -> newline (enc_char e v) = false.
Proof.
  intros Hv. unfold enc_char, newline. destruct (url e); bool_cases; lia.
Qed.

Lemma land_63_range x : 0 <= Z.land x 63 < 64.
Proof. change 63 with (Z.ones 6). rewrite Z.land_ones by lia. apply Z.mod_pos_bound. lia. Qed.

(** Strong induction by quanta of three bytes. *)
Lemma bytes_ind3 (P : bytes -> Prop) :
  P [] -> (forall a, P [a]) -> (forall a b, P [a; b]) ->
  (forall a b c l, P l -> P (a :: b :: c :: l)) -> forall l, P l.
Proof.
  intros H0 H1 H2 H3 l. assert (P l /\ forall a, P (a :: l) /\ forall b, P (b :: a :: l)) as [? _]; [|done].
  induction l as [|x l [IH1 IH2]]; [auto|]. split; [apply IH2|].
  intros a. split; [apply IH2|]. intros b. apply H3, IH1.
Qed.

Lemma EncodeToString_chars e src : Forall (fun c => newline c = false) (EncodeToString e src).
Proof.
  induction src as [|a|a b|a b c l IH] using bytes_ind3; cbn [EncodeToString app].
  - apply Forall_nil_2.
  - do 2 (apply Forall_cons_2; [apply enc_char_not_newline, land_63_range|]).
    destruct (padded e); repeat constructor.
  - do 3 (apply Forall_cons_2; [apply enc_char_not_newline, land_63_range|]).
    destruct (padded e); repeat constructor.
  - do 4 (apply Forall_cons_2; [apply enc_char_not_newline, land_63_range|]). exact IH.
Qed.

Lemma filter_all {A} (f : A -> bool) l : Forall (fun x => f x = true) l -> List.filter f l = l.
Proof. induction 1 as [|x l Hx _ IH]; [done|]. simpl. rewrite Hx. by f_equal. Qed.

Lemma EncodeToString_no_newline e src :
  List.filter (fun c => negb (newline c)) (EncodeToString e src) = EncodeToString e src.
Proof.
  apply filter_all. eapply Forall_impl; [apply EncodeToString_chars|]. by intros c ->.
Qed.

(** The 24-bit word of three bytes, in 6-bit digits. *)
Lemma lor_bytes3 a b c : u8_ok b -> u8_ok c ->
  Z.lor (Z.lor (Z.shiftl a 16) (Z.shiftl b 8)) c = a * 65536 + b * 256 + c.
Proof.
  intros Hb Hc. unfold u8_ok in *. change 16 with (8 + 8).
  rewrite <- Z.shiftl_shiftl, <- Z.shiftl_lor by lia.
  rewrite Z.lor_comm, (lor_shiftl_add c) by lia. rewrite Z.lor_comm, (lor_shiftl_add b) by lia. lia.
Qed.

Lemma lor_digits v0 v1 v2 v3 : 0 <= v1 < 64 -> 0 <= v2 < 64 -> 0 <= v3 < 64 ->
  Z.lor (Z.lor (Z.lor (Z.shiftl v0 18) (Z.shiftl v1 12)) (Z.shiftl v2 6)) v3
  = v0 * 262144 + v1 * 4096 + v2 * 64 + v3.
Proof.
  intros. change 18 with (12 + 6). change 12 with (6 + 6).
  rewrite <- !Z.shiftl_shiftl, <- !Z.shiftl_lor by lia.
  rewrite Z.lor_comm, (lor_shiftl_add v3) by lia. rewrite Z.lor_comm, (lor_shiftl_add v2) by lia.
  rewrite Z.lor_comm, (lor_shiftl_add v1) by lia. lia.
Qed.

(** The digits of a word [w] in [0, 2^24) and the bytes they give back. *)
Definition digit (w k : Z) : Z := Z.land (Z.shiftr w k) 63.

Lemma digits_word w :
  0 <= w < 2 ^ 24 ->
  Z.lor (Z.lor (Z.lor (Z.shiftl (digit w 18) 18) (Z.shiftl (digit w 12) 12)) (Z.shiftl (digit w 6) 6)) (digit w 0) = w.
Proof.
  intros Hw. rewrite lor_digits by apply land_63_range. unfold digit.
  change 63 with (Z.ones 6). rewrite !Z.land_ones, !Z.shiftr_div_pow2 by lia.
  change (2 ^ 18) with 262144. change (2 ^ 12) with 4096. change (2 ^ 6) with 64. change (2 ^ 0) with 1.
  Z.to_euclidean_division_equations; lia.
Qed.

Lemma digit_0 w : Z.land w 63 = digit w 0.
Proof. unfold digit. by rewrite Z.shiftr_0_r. Qed.

Lemma word_bytes a b c : u8_ok a -> u8_ok b -> u8_ok c ->
  let w := a * 65536 + b * 256 + c in
  u8 (Z.shiftr w 16) = a /\ u8 (Z.shiftr w 8) = b /\ u8 w = c.
Proof.
  intros Ha Hb Hc w. unfold u8_ok, u8 in *. rewrite !Z.shiftr_div_pow2 by lia. subst w.
  change (2 ^ 16) with 65536. change (2 ^ 8) with 256 in *.
  repeat split; Z.to_euclidean_division_equations; lia.
Qed.

Lemma digit_zero_low w k : 0 <= k -> w mod 2 ^ (k + 6) = 0 -> digit w k = 0.
Proof.
  intros Hk Hw. unfold digit. change 63 with (Z.ones 6). rewrite Z.land_ones, Z.shiftr_div_pow2 by lia.
  rewrite Z.pow_add_r in Hw by lia.
  assert (0 < 2 ^ k) by (apply Z.pow_pos_nonneg; lia).
  apply Z.mod_divide in Hw as [q ->]; [|lia].
  rewrite (Z.mul_comm (2 ^ k)), Z.mul_assoc, Z.div_mul by lia. apply Z.mod_mul. lia.
Qed.

Lemma decode_quanta_EncodeToString e src :
  bytes_ok src -> decode_quanta e (EncodeToString e src) = Some src.
Proof.
  induction src as [|a|a b|a b c l IH] using bytes_ind3; intros Hb.
  - done.
  - apply Forall_cons in Hb as [Ha _].
    assert (Hw : Z.shiftl a 16 = a * 65536 + 0 * 256 + 0) by (rewrite Z.shiftl_mul_pow2 by lia; lia).
    destruct (word_bytes a 0 0) as (W1 & W2 & W3); [done|unfold u8_ok; lia..|].
    cbn [EncodeToString app]. fold (digit (Z.shiftl a 16) 18). fold (digit (Z.shiftl a 16) 12).
    set (w := Z.shiftl a 16) in *.
    assert (Hr : 0 <= w < 2 ^ 24) by (unfold u8_ok in *; lia).
    assert (H6 : digit w 6 = 0) by (apply digit_zero_low; [lia|]; rewrite Hw; Z.to_euclidean_division_equations; lia).
    assert (H0 : digit w 0 = 0) by (apply digit_zero_low; [lia|]; rewrite Hw; Z.to_euclidean_division_equations; lia).
    pose proof (digits_word w Hr) as Hd. rewrite H6, H0 in Hd.
    destruct (padded e) eqn:Hp; cbn [decode_quanta]; rewrite ?Hp, !dec_enc_char by apply land_63_range.
    + assert (dec_char e padChar = None) as -> by (unfold dec_char; by destruct (url e)).
      cbn. unfold quantum. rewrite Hd. cbn. rewrite Hw, W1, W2, W3. simpl. by rewrite andb_false_r.
    + unfold quantum. rewrite Hd. cbn. rewrite Hw, W1, W2, W3. simpl. by rewrite andb_false_r.
  - apply Forall_cons in Hb as [Ha Hb]. apply Forall_cons in Hb as [Hb _].
    assert (Hw : Z.lor (Z.shiftl a 16) (Z.shiftl b 8) = a * 65536 + b * 256 + 0).
    { rewrite <- (Z.lor_0_r (Z.lor _ _)). apply lor_bytes3; [done | unfold u8_ok; lia]. }
    destruct (word_bytes a b 0) as (W1 & W2 & W3); [done|done|unfold u8_ok; lia|].
    cbn [EncodeToString app]. set (w := Z.lor (Z.shiftl a 16) (Z.shiftl b 8)) in *.
    fold (digit w 18). fold (digit w 12). fold (digit w 6).
    assert (Hr : 0 <= w < 2 ^ 24) by (unfold u8_ok in *; lia).
    assert (H0 : digit w 0 = 0) by (apply digit_zero_low; [lia|]; rewrite Hw; Z.to_euclidean_division_equations; lia).
    pose proof (digits_word w Hr) as Hd. rewrite H0 in Hd.
    destruct (padded e) eqn:Hp; cbn [decode_quanta]; rewrite ?Hp, !dec_enc_char by apply land_63_range.
    + assert (dec_char e padChar = None) as -> by (unfold dec_char; by destruct (url e)).
      cbn. unfold quantum. rewrite Hd. cbn. rewrite Hw, W1, W2, W3. simpl. by rewrite andb_false_r.
    + unfold quantum. rewrite Hd. cbn. rewrite Hw, W1, W2, W3. simpl. by rewrite andb_false_r.
  - apply Forall_cons in Hb as [Ha Hb]. apply Forall_cons in Hb as [Hb Hc]. apply Forall_cons in Hc as [Hc Hl].
    assert (Hw := lor_bytes3 a b c Hb Hc). destruct (word_bytes a b c) as (W1 & W2 & W3); [done..|].
    cbn [EncodeToString app]. set (w := Z.lor (Z.lor (Z.shiftl a 16) (Z.shiftl b 8)) c) in *.
    fold (digit w 18). fold (digit w 12). fold (digit w 6). rewrite (digit_0 w).
    assert (Hr : 0 <= w < 2 ^ 24) by (unfold u8_ok in *; lia).
    cbn [decode_quanta]. rewrite !dec_enc_char by apply land_63_range.
    unfold quantum. rewrite (digits_word w Hr). cbn. rewrite IH by done. by rewrite Hw, W1, W2, W3.
Qed.

Lemma DecodeString_EncodeToString e src : bytes_ok src -> DecodeString e (EncodeToString e src) = Some src.
Proof. intros Hb. unfold DecodeString. rewrite EncodeToString_no_newline. by apply decode_quanta_EncodeToString. Qed.

Lemma quantum_ok e d v0 v1 v2 v3 bs : quantum e d v0 v1 v2 v3 = Some bs -> bytes_ok bs /\ blen bs <= 3.
Proof.
  unfold quantum. intros H. bool_cases; try discriminate; injection H as <-;
    (split; [repeat constructor; apply u8_range | unfold blen; simpl; lia]).
Qed.

Lemma bytes_ind4 (P : bytes -> Prop) :
  P [] -> (forall a, P [a]) -> (forall a b, P [a; b]) -> (forall a b c, P [a; b; c]) ->
  (forall a b c d l, P l -> P (a :: b :: c :: d :: l)) -> forall l, P l.
Proof.
  intros H0 H1 H2 H3 H4 l.
  assert (P l /\ forall a, P (a :: l) /\ forall b, P (b :: a :: l) /\ forall c, P (c :: b :: a :: l)) as [? _]; [|done].
  induction l as [|x l [IH1 IH2]]; [auto|]. split; [apply IH2|].
  intros a. split; [apply IH2|]. intros b. split; [apply IH2|]. intros c. apply H4, IH1.
Qed.

Lemma decode_quanta_ok e src bs : decode_quanta e src = Some bs -> bytes_ok bs /\ blen bs <= blen src.
Proof.
  revert bs. induction src as [|a|a b|a b c|a b c d l IH] using bytes_ind4; intros bs H; cbn [decode_quanta] in H.
  - injection H as <-. split; [apply Forall_nil_2 | done].
  - done.
  - destruct (padded e); [done|]. destruct (dec_char e a), (dec_char e b); try done.
    unfold quantum in H. bool_cases; try discriminate; injection H as <-;
      (split; [repeat constructor; apply u8_range | unfold blen; simpl; lia]).
  - destruct (padded e); [done|]. destruct (dec_char e a), (dec_char e b), (dec_char e c); try done.
    unfold quantum in H. bool_cases; try discriminate; injection H as <-;
      (split; [repeat constructor; apply u8_range | unfold blen; simpl; lia]).
  - rewrite !blen_cons. pose proof (blen_nonneg l).
    destruct (dec_char e a), (dec_char e b); try done.
    destruct (dec_char e c) as [v2|].
    2:{ destruct (_ && _ && _ && _) in H; [|done]. apply quantum_ok in H as [? ?]. split; [done|lia]. }
    destruct (dec_char e d) as [v3|].
    2:{ destruct (_ && _ && _) in H; [|done]. apply quantum_ok in H as [? ?]. split; [done|lia]. }
    destruct (quantum _ _ _ _ _ _) eqn:E1; [|done]. destruct (decode_quanta e l) eqn:E2; [|done].
    injection H as <-. apply quantum_ok in E1 as [? ?]. destruct (IH _ eq_refl).
    rewrite blen_app. split; [by apply bytes_ok_app | lia].
Qed.

Lemma filter_blen {A} (f : A -> bool) l : blen (List.filter f l) <= blen l.
Proof.
  induction l as [|x l IH]; [done|]. simpl. destruct (f x); rewrite ?blen_cons; lia.
Qed.

Lemma DecodeString_ok e s raw : DecodeString e s = Some raw -> bytes_ok raw /\ blen raw <= blen s.
Proof.
  unfold DecodeString. intros H. apply decode_quanta_ok in H as [Hb Hl]. split; [done|].
  pose proof (filter_blen (fun c => negb (newline c)) s). lia.
Qed.

(** ** Properties *)

(** The degraded lane carries frames faithfully: an element written by
    [EncodeFrameBase64] holds no line break (it is one SSE data line) and
    decodes to the same frame, also when a carrier inserted line breaks into
    it; and on any input whatever, decoding an element returns without a panic
    with a well-formed frame or a framing error. *)
Theorem degraded_element_roundtrip (f : Frame) (s wrapped : bytes) :
  frame_wf f -> blen (EncodeFrame f) < 2 ^ 63 -> blen s < 2 ^ 63 ->
  List.filter (fun c => negb (newline c)) wrapped = EncodeFrameBase64 f ->
  Forall (fun c => newline c = false) (EncodeFrameBase64 f) /\
  DecodeFrameBase64 (EncodeFrameBase64 f) = Ok f /\
  DecodeFrameBase64 wrapped = Ok f /\
  decode_safe frame_wf (DecodeFrameBase64 s).
Proof.
  intros Hf Hl Hs Hw. unfold EncodeFrameBase64 in *.
  assert (Hd : DecodeString FrameBase64Encoding (EncodeToString FrameBase64Encoding (EncodeFrame f)) = Some (EncodeFrame f))
    by (by apply DecodeString_EncodeToString, EncodeFrame_bytes).
  assert (Hd' : DecodeString FrameBase64Encoding wrapped = Some (EncodeFrame f)).
  { unfold DecodeString in *. by rewrite Hw, <- (EncodeToString_no_newline FrameBase64Encoding). }
  split; [apply EncodeToString_chars|].
  split; [unfold DecodeFrameBase64; rewrite Hd; by apply DecodeFrame_EncodeFrame|].
  split; [unfold DecodeFrameBase64; rewrite Hd'; by apply DecodeFrame_EncodeFrame|].
  unfold DecodeFrameBase64. destruct (DecodeString FrameBase64Encoding s) as [raw|] eqn:E; [|done].
  apply DecodeString_ok in E as [Hb Hr]. apply DecodeFrame_safe. split; [lia | done].
Qed.

Lemma degraded_element_roundtrip_witness :
  DecodeFrameBase64 (EncodeFrameBase64 sample_frame) = Ok sample_frame /\
  decode_safe frame_wf (DecodeFrameBase64 (str "AQ=")).
Proof.
  destruct (degraded_element_roundtrip sample_frame (str "AQ=") (EncodeFrameBase64 sample_frame))
    as (_ & H1 & _ & H2).
  - split; [reflexivity|]. split; [split; vm_compute; (reflexivity || discriminate)|].
    split; [split; vm_compute; (reflexivity || discriminate)|].
    repeat constructor; vm_compute; (reflexivity || discriminate).
  - vm_compute. reflexivity.
  - vm_compute. reflexivity.
  - apply EncodeToString_no_newline.
  - split; [exact H1 | exact H2].
Defined.
