(* ===== verification/Sanitizer.v ===== *)
(** * Sanitizer: the escape-sequence filter ([src/attachwire/sanitize/sanitize.go])

    The streaming filter of one leg: a byte automaton with seven states that
    buffers the sequence it is inside of, classifies it when it ends, and emits
    it, rewrites it or drops it.  Emitted bytes and callback invocations are the
    two outputs of a step.  Index and slice expressions keep Go's panics; the
    re-dispatch loop of [Write] carries fuel ([redispatch_fuel] steps per byte),
    reported as [OutOfFuel] when it does not suffice. *)

From S2P Require Import Prelude Varint Reader Utf8 Base64.

(** ** Bytes and limits *)

Definition bel : Z := 0x07.
Definition bs : Z := 0x08.
Definition ht : Z := 0x09.
Definition lf : Z := 0x0A.
Definition cr : Z := 0x0D.
Definition esc : Z := 0x1B.
Definition can : Z := 0x18.
Definition sub : Z := 0x1A.
Definition del : Z := 0x7F.
Definition c1DCS : Z := 0x90.
Definition c1SOS : Z := 0x98.
Definition c1CSI : Z := 0x9B.
Definition c1ST : Z := 0x9C.
Definition c1OSC : Z := 0x9D.
Definition c1PM : Z := 0x9E.
Definition c1APC : Z := 0x9F.

Definition DefaultHoldMaxBytes : Z := 8192.
Definition DefaultSixelMaxBytes : Z := Z.shiftl 2 20.
Definition TitleChipMaxLen : Z := 256.
Definition csiMaxBytes : Z := 256.

(** ** Classification of complete sequences *)

Definition has_byte (c : Z) (content : bytes) : bool := existsb (Z.eqb c) content.

Definition first_is (c : Z) (content : bytes) : bool :=
  match content with x :: _ => x =? c | [] => false end.

(** 'n' 'c' 't' never pass; 'q' not with a '>' prefix; 'p' not with a '$'. *)
Definition csiPasses (content : bytes) (final : Z) : bool :=
  if (final =? 0x6E) || (final =? 0x63) || (final =? 0x74) then false
  else if final =? 0x71 then negb (first_is 0x3E content)
  else if final =? 0x70 then negb (has_byte 0x24 content)
  else true.

Fixpoint csiIntermediates (content : bytes) : bytes :=
  match content with
  | [] => []
  | c :: content' => if in_range 0x20 0x2F c then content else csiIntermediates content'
  end.

Definition digit_byte (c : Z) : bool := in_range 0x30 0x39 c.

(** The loop of [leadingDigits], with its bound [n < 1<<20]. *)
Fixpoint leadingDigits_loop (field : bytes) (n i : Z) : Z * Z :=
  match field with
  | c :: field' =>
      if digit_byte c && (n <? Z.shiftl 1 20)
      then leadingDigits_loop field' (n * 10 + (c - 0x30)) (i + 1) else (n, i)
  | [] => (n, i)
  end.

Definition leadingDigits (field : bytes) : Z * bool :=
  let '(n, i) := leadingDigits_loop field 0 0 in (n, 0 <? i).

(** [bytes.Split(content, sep)] for a one-byte separator. *)
Fixpoint split_bytes (sep : Z) (content : bytes) : list bytes :=
  match content with
  | [] => [[]]
  | c :: content' =>
      if c =? sep then [] :: split_bytes sep content'
      else match split_bytes sep content' with
           | f :: fs => (c :: f) :: fs
           | [] => [[c]]
           end
  end.

Definition replyModes : list Z := [2031; 2048].
Definition vt52Modes : list Z := [2].

(** The loop of [filterPrivateModes]: the kept parameter list so far and
    whether a field was dropped. *)
Fixpoint filter_fields (drop : list Z) (fields : list bytes) (kept : bytes) (dropped : bool) : bytes * bool :=
  match fields with
  | [] => (kept, dropped)
  | field :: fields' =>
      let '(n, ok) := leadingDigits field in
      if ok && existsb (Z.eqb n) drop then filter_fields drop fields' kept true
      else if blen field =? 0 then filter_fields drop fields' kept dropped
      else
        let kept := if 0 <? blen kept then kept ++ [0x3B] else kept in
        filter_fields drop fields' (kept ++ field) dropped
  end.

Inductive FuelError := OutOfFuel.
Abbreviation go A := (outcome FuelError A).
Open Scope go_scope.

Definition filterPrivateModes (content : bytes) (drop : list Z) : go (bytes * bool) :=
  let* tail := slice_from content 1 in
  let '(kept, dropped) := filter_fields drop (split_bytes 0x3B tail) [] false in
  if negb dropped then Ok (content, true)
  else if blen kept =? 0 then Ok ([], false)
  else Ok ([0x3F] ++ kept, true).

Definition csiRewrite (content : bytes) (final : Z) : go (bytes * bool) :=
  if negb (csiPasses content final) then Ok ([], false)
  else
    let private := first_is 0x3F content in
    let ints := csiIntermediates content in
    if private && ((final =? 0x75) || (final =? 0x6D)) then Ok ([], false)
    else if private && (final =? 0x53) then Ok ([], false)
    else if bytes_eqb ints [0x27] && ((final =? 0x7A) || (final =? 0x7B) || (final =? 0x7C)) then Ok ([], false)
    else if (final =? 0x78) && negb private && bytes_eqb ints [] then Ok ([], false)
    else if bytes_eqb ints [0x2A] && (final =? 0x79) then Ok ([], false)
    else if bytes_eqb ints [0x24] && ((final =? 0x77) || (final =? 0x75)) then Ok ([], false)
    else if bytes_eqb ints [0x26] && (final =? 0x75) then Ok ([], false)
    else if private && (final =? 0x68) then filterPrivateModes content replyModes
    else if private && (final =? 0x6C) then filterPrivateModes content vt52Modes
    else Ok (content, true).

Definition sixelParams (header : bytes) : bool :=
  forallb (fun c => negb (negb (digit_byte c) && negb (c =? 0x3B))) header.

Inductive oscDisp := oscStrip | oscPass | oscTitle.

Fixpoint digits_prefix (content : bytes) : bytes :=
  match content with
  | c :: content' => if digit_byte c then c :: digits_prefix content' else []
  | [] => []
  end.

Definition leadingOSCNumber (content : bytes) : Z * Z * bool :=
  let ds := digits_prefix content in
  let i := blen ds in
  if (i =? 0) || (5 <? i) then (0, i, false)
  else (fold_left (fun v c => v * 10 + (c - 0x30)) ds 0, i, true).

(** [nlen < len(content) && content[nlen] == ';'] *)
Definition byte_at_is (content : bytes) (i c : Z) : bool :=
  match content !! Z.to_nat i with Some x => x =? c | None => false end.

Definition classifyOSC (content : bytes) (stripHyperlinks : bool) : oscDisp * Z :=
  let '(ps, nlen, ok) := leadingOSCNumber content in
  if negb ok then (oscStrip, -1)
  else if ps =? 52 then (oscStrip, -1)
  else if ps =? 8 then (if stripHyperlinks then oscStrip else oscPass, -1)
  else if (ps =? 0) || (ps =? 1) || (ps =? 2)
  then (oscTitle, if byte_at_is content nlen 0x3B then nlen + 1 else -1)
  else if (ps =? 4) || (ps =? 10) || (ps =? 11) || (ps =? 12)
  then (if has_byte 0x3F content then oscStrip else oscPass, -1)
  else (oscStrip, -1).

(** ** OSC 52 clipboard *)

(** The regular expression [^52;[cpqs0-7]*;([A-Za-z0-9+/]*={0,2})$]: the
    submatch, or [None]. *)
Definition clip_target (c : Z) : bool :=
  (c =? 0x63) || (c =? 0x70) || (c =? 0x71) || (c =? 0x73) || in_range 0x30 0x37 c.

Definition clip_b64 (c : Z) : bool :=
  match dec_char StdEncoding c with Some _ => true | None => false end.

Fixpoint skip_targets (content : bytes) : bytes :=
  match content with
  | c :: content' => if clip_target c then skip_targets content' else content
  | [] => []
  end.

Fixpoint clip_data_ok (data : bytes) : bool :=
  match data with
  | c :: data' => if clip_b64 c then clip_data_ok data'
                  else bytes_eqb data [padChar] || bytes_eqb data [padChar; padChar]
  | [] => true
  end.

Definition clipboardSet (content : bytes) : option bytes :=
  match content with
  | c0 :: c1 :: c2 :: rest =>
      if (c0 =? 0x35) && (c1 =? 0x32) && (c2 =? 0x3B) then
        match skip_targets rest with
        | c :: data => if (c =? 0x3B) && clip_data_ok data then Some data else None
        | [] => None
        end
      else None
  | _ => None
  end.

(** The rune filter of [strings.Map]. *)
Definition clip_keep (r : Z) : bool :=
  (r =? ht) || (r =? lf) || (r =? cr) || negb ((r <? 0x20) || in_range del 0x9F r).

Definition has_suffix (text suf : bytes) : bool :=
  bytes_eqb (drop (length text - length suf) text) suf && (blen suf <=? blen text).

Definition drop_last (n : nat) (text : bytes) : bytes := take (length text - n) text.

Definition trim_newline (text : bytes) : bytes :=
  if has_suffix text [cr; lf] then drop_last 2 text
  else if has_suffix text [lf] || has_suffix text [cr] then drop_last 1 text
  else text.

Definition DecodeClipboardSet (content : bytes) : option bytes :=
  match clipboardSet content with
  | None => None
  | Some data =>
      if blen data =? 0 then None
      else
        let enc := if has_byte padChar data then StdEncoding else RawStdEncoding in
        match DecodeString enc data with
        | None => None
        | Some raw =>
            if negb (utf8_Valid raw) then None
            else
              let text := utf8_text (List.filter clip_keep (map fst (decode_all raw))) in
              let text := trim_newline text in
              if blen text =? 0 then None else Some text
        end
  end.

Definition ClipboardSequence (text : bytes) : bytes :=
  [esc; 0x5D; 0x35; 0x32; 0x3B; 0x63; 0x3B] ++ EncodeToString StdEncoding text ++ [esc; 0x5C].

(** ** State *)

Inductive state := stGround | stEsc | stEscInt | stCSI | stCSIIgnore | stDCS | stStr.
Inductive strKind := kOSC | kDCS | kAPC | kPM | kSOS.

(** [Options]; a callback is present or not, its invocations are events. *)
Record Options := {
  HoldMaxBytes : Z;
  SixelMaxBytes : Z;
  StripHyperlinks : bool;
  OnTitle : bool;
  OnClipboard : bool
}.

Inductive event := EvTitle (title : bytes) | EvClipboard (text : bytes).

Record Sanitizer := {
  holdMax : Z;
  sixelMax : Z;
  stripLink : bool;
  onTitle : bool;
  onClip : bool;
  st : state;
  pending : bytes;
  dropping : bool;
  curCap : Z;
  oscBEL : bool;
  kind : strKind;
  introLen : Z;
  sawEsc : bool;
  utf8Rem : Z;
  utf8Buf : bytes;
  strRem : Z;
  strLead : Z
}.

Definition NewWithOptions (opts : Options) : Sanitizer :=
  {| holdMax := if HoldMaxBytes opts <=? 0 then DefaultHoldMaxBytes else HoldMaxBytes opts;
     sixelMax := if SixelMaxBytes opts <=? 0 then DefaultSixelMaxBytes else SixelMaxBytes opts;
     stripLink := StripHyperlinks opts; onTitle := OnTitle opts; onClip := OnClipboard opts;
     st := stGround; pending := []; dropping := false; curCap := 0; oscBEL := false; kind := kOSC;
     introLen := 0; sawEsc := false; utf8Rem := 0; utf8Buf := []; strRem := 0; strLead := 0 |}.

Definition New : Sanitizer :=
  NewWithOptions {| HoldMaxBytes := 0; SixelMaxBytes := 0; StripHyperlinks := false;
                    OnTitle := false; OnClipboard := false |}.

(** Field assignments. *)
Definition set_st (x : state) (s : Sanitizer) : Sanitizer :=
  Build_Sanitizer (holdMax s) (sixelMax s) (stripLink s) (onTitle s) (onClip s) x (pending s) (dropping s)
    (curCap s) (oscBEL s) (kind s) (introLen s) (sawEsc s) (utf8Rem s) (utf8Buf s) (strRem s) (strLead s).
Definition set_pending (x : bytes) (s : Sanitizer) : Sanitizer :=
  Build_Sanitizer (holdMax s) (sixelMax s) (stripLink s) (onTitle s) (onClip s) (st s) x (dropping s)
    (curCap s) (oscBEL s) (kind s) (introLen s) (sawEsc s) (utf8Rem s) (utf8Buf s) (strRem s) (strLead s).
Definition set_drop (x : bool) (s : Sanitizer) : Sanitizer :=
  Build_Sanitizer (holdMax s) (sixelMax s) (stripLink s) (onTitle s) (onClip s) (st s) (pending s) x
    (curCap s) (oscBEL s) (kind s) (introLen s) (sawEsc s) (utf8Rem s) (utf8Buf s) (strRem s) (strLead s).
Definition set_curCap (x : Z) (s : Sanitizer) : Sanitizer :=
  Build_Sanitizer (holdMax s) (sixelMax s) (stripLink s) (onTitle s) (onClip s) (st s) (pending s) (dropping s)
    x (oscBEL s) (kind s) (introLen s) (sawEsc s) (utf8Rem s) (utf8Buf s) (strRem s) (strLead s).
Definition set_oscBEL (x : bool) (s : Sanitizer) : Sanitizer :=
  Build_Sanitizer (holdMax s) (sixelMax s) (stripLink s) (onTitle s) (onClip s) (st s) (pending s) (dropping s)
    (curCap s) x (kind s) (introLen s) (sawEsc s) (utf8Rem s) (utf8Buf s) (strRem s) (strLead s).
Definition set_kind (x : strKind) (s : Sanitizer) : Sanitizer :=
  Build_Sanitizer (holdMax s) (sixelMax s) (stripLink s) (onTitle s) (onClip s) (st s) (pending s) (dropping s)
    (curCap s) (oscBEL s) x (introLen s) (sawEsc s) (utf8Rem s) (utf8Buf s) (strRem s) (strLead s).
Definition set_introLen (x : Z) (s : Sanitizer) : Sanitizer :=
  Build_Sanitizer (holdMax s) (sixelMax s) (stripLink s) (onTitle s) (onClip s) (st s) (pending s) (dropping s)
    (curCap s) (oscBEL s) (kind s) x (sawEsc s) (utf8Rem s) (utf8Buf s) (strRem s) (strLead s).
Definition set_sawEsc (x : bool) (s : Sanitizer) : Sanitizer :=
  Build_Sanitizer (holdMax s) (sixelMax s) (stripLink s) (onTitle s) (onClip s) (st s) (pending s) (dropping s)
    (curCap s) (oscBEL s) (kind s) (introLen s) x (utf8Rem s) (utf8Buf s) (strRem s) (strLead s).
Definition set_utf8 (rem : Z) (b : bytes) (s : Sanitizer) : Sanitizer :=
  Build_Sanitizer (holdMax s) (sixelMax s) (stripLink s) (onTitle s) (onClip s) (st s) (pending s) (dropping s)
    (curCap s) (oscBEL s) (kind s) (introLen s) (sawEsc s) rem b (strRem s) (strLead s).
Definition set_strRem (x : Z) (s : Sanitizer) : Sanitizer :=
  Build_Sanitizer (holdMax s) (sixelMax s) (stripLink s) (onTitle s) (onClip s) (st s) (pending s) (dropping s)
    (curCap s) (oscBEL s) (kind s) (introLen s) (sawEsc s) (utf8Rem s) (utf8Buf s) x (strLead s).
Definition set_strLead (x : Z) (s : Sanitizer) : Sanitizer :=
  Build_Sanitizer (holdMax s) (sixelMax s) (stripLink s) (onTitle s) (onClip s) (st s) (pending s) (dropping s)
    (curCap s) (oscBEL s) (kind s) (introLen s) (sawEsc s) (utf8Rem s) (utf8Buf s) (strRem s) x.

Definition Reset (s : Sanitizer) : Sanitizer :=
  set_curCap 0 (set_introLen 0 (set_strRem 0 (set_utf8 0 [] (set_sawEsc false
    (set_oscBEL false (set_drop false (set_pending [] (set_st stGround s)))))))).

(** ** Steps *)

(** What one call of a step function does: whether the byte was consumed, the
    new state, the bytes appended to the output and the callbacks invoked. *)
Record stepped := { consumed : bool; next : Sanitizer; emit : bytes; evs : list event }.

Definition took (s : Sanitizer) : go stepped := Ok {| consumed := true; next := s; emit := []; evs := [] |}.
Definition took_out (s : Sanitizer) (o : bytes) : go stepped :=
  Ok {| consumed := true; next := s; emit := o; evs := [] |}.
Definition again (s : Sanitizer) : go stepped := Ok {| consumed := false; next := s; emit := []; evs := [] |}.

Definition utf8Trail (b : Z) : Z :=
  if in_range 0xC2 0xDF b then 1
  else if in_range 0xE0 0xEF b then 2
  else if in_range 0xF0 0xF4 b then 3
  else 0.

Definition beginEsc (s : Sanitizer) : Sanitizer := set_pending [esc] (set_st stEsc s).

Definition beginCSI (introducer : Z) (s : Sanitizer) : Sanitizer :=
  set_introLen 1 (set_pending [introducer] (set_st stCSI s)).

Definition beginDCS (introducer : Z) (s : Sanitizer) : Sanitizer :=
  set_strRem 0 (set_introLen 1 (set_pending [introducer] (set_st stDCS s))).

Definition enterStr (k : strKind) (bl : bool) (s : Sanitizer) : Sanitizer :=
  let s := set_strRem 0 (set_sawEsc false (set_oscBEL bl (set_kind k (set_st stStr s)))) in
  match k with
  | kOSC => set_curCap (holdMax s) (set_drop false s)
  | _ => set_curCap (holdMax s) (set_drop true s)
  end.

Definition beginStr (k : strKind) (introducer : Z) (bl : bool) (s : Sanitizer) : Sanitizer :=
  enterStr k bl (set_introLen 1 (set_pending [introducer] s)).

Definition beginStrFromEsc (k : strKind) (bl : bool) (s : Sanitizer) : Sanitizer :=
  let s := match k with
           | kOSC => set_introLen (blen (pending s)) s
           | _ => set_introLen 0 s
           end in
  enterStr k bl s.

Definition dropStringUntilST (s : Sanitizer) : Sanitizer :=
  set_pending [] (set_sawEsc false (set_drop true (set_st stStr s))).

Definition stepGround (s : Sanitizer) (b : Z) : go stepped :=
  if 0 <? utf8Rem s then
    if in_range 0x80 0xBF b then
      let* lead := index (utf8Buf s) 0 in
      if (lead =? 0xC2) && (b <=? 0x9F) then took (set_utf8 0 [] s)
      else
        let buf := utf8Buf s ++ [b] in
        let rem := utf8Rem s - 1 in
        if rem =? 0 then took_out (set_utf8 rem [] s) buf else took (set_utf8 rem buf s)
    else again (set_utf8 0 [] s)
  else if b =? esc then took (beginEsc s)
  else if (b =? ht) || (b =? lf) || (b =? cr) || (b =? bs) then took_out s [b]
  else if b <? 0x20 then took s
  else if b =? del then took s
  else if b <=? 0x7E then took_out s [b]
  else if b =? c1CSI then took (beginCSI b s)
  else if b =? c1OSC then took (beginStr kOSC b true s)
  else if b =? c1DCS then took (beginDCS b s)
  else if b =? c1APC then took (beginStr kAPC b false s)
  else if b =? c1PM then took (beginStr kPM b false s)
  else if b =? c1SOS then took (beginStr kSOS b false s)
  else if b <=? 0x9F then took s
  else
    let n := utf8Trail b in
    if n =? 0 then took s else took (set_utf8 n [b] s).

Definition stepEsc (s : Sanitizer) (b : Z) : go stepped :=
  if b =? 0x5B then
    let p := pending s ++ [b] in took (set_introLen (blen p) (set_st stCSI (set_pending p s)))
  else if b =? 0x5D then took (beginStrFromEsc kOSC true (set_pending (pending s ++ [b]) s))
  else if b =? 0x50 then
    let p := pending s ++ [b] in took (set_introLen (blen p) (set_st stDCS (set_pending p s)))
  else if b =? 0x5F then took (beginStrFromEsc kAPC false s)
  else if b =? 0x5E then took (beginStrFromEsc kPM false s)
  else if b =? 0x58 then took (beginStrFromEsc kSOS false s)
  else if b =? 0x5C then took (set_st stGround s)
  else if b =? esc then took (set_pending [esc] s)
  else if (b =? can) || (b =? sub) then took (set_st stGround s)
  else if in_range 0x20 0x2F b then took (set_st stEscInt (set_pending (pending s ++ [b]) s))
  else if in_range 0x30 0x7E b then
    if b =? 0x5A then took (set_st stGround s)
    else took_out (set_st stGround s) (pending s ++ [b])
  else again (set_st stGround s).

Definition stepEscInt (s : Sanitizer) (b : Z) : go stepped :=
  if in_range 0x20 0x2F b then
    let s := set_pending (pending s ++ [b]) s in
    if csiMaxBytes <? blen (pending s) then took (set_st stCSIIgnore s) else took s
  else if in_range 0x30 0x7E b then
    if (b =? 0x47) && (blen (pending s) =? 2) && byte_at_is (pending s) 1 0x20 then took (set_st stGround s)
    else took_out (set_st stGround s) (pending s ++ [b])
  else if b =? esc then took (set_st stEsc (set_pending [esc] s))
  else if (b =? can) || (b =? sub) then took (set_st stGround s)
  else again (set_st stGround s).

Definition stepCSI (s : Sanitizer) (b : Z) : go stepped :=
  if in_range 0x30 0x3F b || in_range 0x20 0x2F b then
    let s := set_pending (pending s ++ [b]) s in
    if csiMaxBytes <? blen (pending s) then took (set_st stCSIIgnore s) else took s
  else if in_range 0x40 0x7E b then
    let* content := slice_from (pending s) (introLen s) in
    let* rw := csiRewrite content b in
    if snd rw then
      let* intro := slice_to (pending s) (introLen s) in
      took_out (set_st stGround s) (intro ++ fst rw ++ [b])
    else took (set_st stGround s)
  else if b =? esc then took (set_st stEsc (set_pending [esc] s))
  else if (b =? can) || (b =? sub) then took (set_st stGround s)
  else took (set_st stCSIIgnore s).

Definition stepCSIIgnore (s : Sanitizer) (b : Z) : go stepped :=
  if in_range 0x40 0x7E b then took (set_st stGround s)
  else if b =? esc then took (set_st stEsc (set_pending [esc] s))
  else if (b =? can) || (b =? sub) then took (set_st stGround s)
  else took s.

Definition classifyDCS (final : Z) (s : Sanitizer) : go Sanitizer :=
  let* header := slice_from (pending s) (introLen s) in
  let* params := slice_to header (blen header - 1) in
  if (final =? 0x71) && sixelParams params then
    Ok (set_curCap (sixelMax s) (set_sawEsc false (set_oscBEL false (set_drop false (set_kind kDCS (set_st stStr s))))))
  else Ok (dropStringUntilST s).

Definition stepDCS (s : Sanitizer) (b : Z) : go stepped :=
  if in_range 0x30 0x3F b || in_range 0x20 0x2F b then
    let s := set_pending (pending s ++ [b]) s in
    if holdMax s <? blen (pending s) then took (dropStringUntilST s) else took s
  else if in_range 0x40 0x7E b then
    let* s := classifyDCS b (set_pending (pending s ++ [b]) s) in took s
  else if b =? esc then took (set_st stEsc (set_pending [esc] s))
  else if b =? c1ST then took (set_st stGround s)
  else if (b =? can) || (b =? sub) then took (set_st stGround s)
  else took (set_strLead b (set_strRem (utf8Trail b) (dropStringUntilST s))).

Definition strBody (b : Z) (s : Sanitizer) : Sanitizer :=
  if dropping s then s
  else
    let s := set_pending (pending s ++ [b]) s in
    if curCap s <? blen (pending s) then dropStringUntilST s else s.

Definition emitString (s : Sanitizer) (term : bytes) : go bytes :=
  let tail := if bytes_eqb term [c1ST] then [esc; 0x5C] else term in
  if introLen s =? 1 then
    let* p0 := index (pending s) 0 in
    let* body := slice_from (pending s) 1 in
    let intro := if p0 =? c1OSC then [esc; 0x5D] else if p0 =? c1DCS then [esc; 0x50] else [] in
    Ok (intro ++ body ++ tail)
  else Ok (pending s ++ tail).

Definition finishOSC (s : Sanitizer) (term : bytes) : go (bytes * list event) :=
  let* content := slice_from (pending s) (introLen s) in
  let '(disp, titleStart) := classifyOSC content (stripLink s) in
  match disp with
  | oscPass => let* o := emitString s term in Ok (o, [])
  | oscTitle =>
      if onTitle s then
        let* title := if (0 <=? titleStart) && (titleStart <? blen content)
                      then slice_from content titleStart else Ok [] in
        Ok ([], [EvTitle (UIString title TitleChipMaxLen)])
      else Ok ([], [])
  | oscStrip =>
      if onClip s then
        match DecodeClipboardSet content with
        | Some text => Ok ([], [EvClipboard text])
        | None => Ok ([], [])
        end
      else Ok ([], [])
  end.

(** The deferred assignments run on every return of [finishStr]. *)
Definition finishStr (s : Sanitizer) (term : bytes) : go stepped :=
  let s' := set_drop false (set_st stGround s) in
  if dropping s then took s'
  else match kind s with
  | kDCS => let* o := emitString s term in took_out s' o
  | kOSC =>
      let* r := finishOSC s term in
      Ok {| consumed := true; next := s'; emit := fst r; evs := snd r |}
  | _ => took s'
  end.

(** The dispatch of a fresh payload byte, after the mid-rune tracking. *)
Definition stepStr_fresh (s : Sanitizer) (b : Z) : go stepped :=
  if b =? esc then took (set_sawEsc true s)
  else if oscBEL s && (b =? bel) then finishStr s [bel]
  else if b =? c1ST then finishStr s [c1ST]
  else if (b =? can) || (b =? sub) then took (set_drop false (set_st stGround s))
  else took (strBody b (set_strLead b (set_strRem (utf8Trail b) s))).

Definition stepStr (s : Sanitizer) (b : Z) : go stepped :=
  if sawEsc s then
    let s := set_sawEsc false s in
    if b =? 0x5C then finishStr s [esc; 0x5C]
    else again (set_pending [esc] (set_st stEsc s))
  else if 0 <? strRem s then
    if in_range 0x80 0xBF b then
      if (strLead s =? 0xC2) && (b <=? 0x9F)
      then took (set_strRem 0 (set_drop false (set_st stGround s)))
      else took (strBody b (set_strRem (strRem s - 1) s))
    else stepStr_fresh (set_strRem 0 s) b
  else stepStr_fresh s b.

Definition step (s : Sanitizer) (b : Z) : go stepped :=
  match st s with
  | stGround => stepGround s b
  | stEsc => stepEsc s b
  | stEscInt => stepEscInt s b
  | stCSI => stepCSI s b
  | stCSIIgnore => stepCSIIgnore s b
  | stDCS => stepDCS s b
  | stStr => stepStr s b
  end.

(** ** [Write] *)

(** What a run of the filter produces. *)
Record filtered := { fstate : Sanitizer; fout : bytes; fevs : list event }.

(** One byte, re-dispatched until a step consumes it. *)
Fixpoint feed (fuel : nat) (s : Sanitizer) (b : Z) : go filtered :=
  match fuel with
  | O => Err OutOfFuel
  | S fuel' =>
      let* r := step s b in
      if consumed r then Ok {| fstate := next r; fout := emit r; fevs := evs r |}
      else
        let* k := feed fuel' (next r) b in
        Ok {| fstate := fstate k; fout := emit r ++ fout k; fevs := evs r ++ fevs k |}
  end.

Definition redispatch_fuel : nat := 4.

Fixpoint Write (s : Sanitizer) (p : bytes) : go filtered :=
  match p with
  | [] => Ok {| fstate := s; fout := []; fevs := [] |}
  | b :: p' =>
      let* r := feed redispatch_fuel s b in
      let* k := Write (fstate r) p' in
      Ok {| fstate := fstate k; fout := fout r ++ fout k; fevs := fevs r ++ fevs k |}
  end.

(** The output of filtering a whole stream with given options. *)
Definition sanitize (opts : Options) (p : bytes) : go bytes :=
  let* r := Write (NewWithOptions opts) p in Ok (fout r).
