(* ===== verification/SanitizerSpec.v ===== *)
(** * SanitizerSpec: what the filter lets through

    The abstract contract of the filter: its output is a sequence of complete
    tokens of a small grammar ([tok]), each of which is safe to render, and its
    state is described by an invariant ([sinv]) that every step preserves.  The
    grammar is written without the automaton; the refinement theorem is
    [step_refines], lifted to whole streams by [Write_refines]. *)

From S2P Require Import Prelude Varint Reader Utf8 Base64 Sanitizer.

(** ** The grammar of safe output *)

Definition cont_range (c : Z) : Prop := 0x80 <= c <= 0xBF.
Definition param_range (c : Z) : Prop := 0x20 <= c <= 0x3F.
Definition inter_range (c : Z) : Prop := 0x20 <= c <= 0x2F.

(** A byte that does not end or abort the string it is in; [bl] says whether
    BEL terminates it. *)
Definition fresh_ok (bl : bool) (b : Z) : Prop :=
  b <> esc /\ (bl = true -> b <> bel) /\ b <> c1ST /\ b <> can /\ b <> sub.

(** [payload bl body rem lead]: [body] is a string payload that ends [rem]
    continuation bytes short of completing the rune led by [lead]. *)
Inductive payload (bl : bool) : bytes -> Z -> Z -> Prop :=
| pl_nil lead : payload bl [] 0 lead
| pl_cont body rem lead b :
    payload bl body rem lead -> 0 < rem -> cont_range b -> ~ (lead = 0xC2 /\ b <= 0x9F) ->
    payload bl (body ++ [b]) (rem - 1) lead
| pl_fresh body rem lead b :
    payload bl body rem lead -> (0 < rem -> ~ cont_range b) -> fresh_ok bl b ->
    payload bl (body ++ [b]) (utf8Trail b) b.

Definition csi_intro (i : bytes) : Prop := i = [esc; 0x5B] \/ i = [c1CSI].
Definition osc_intro (i : bytes) : Prop := i = [esc; 0x5D] \/ i = [c1OSC].
Definition dcs_intro (i : bytes) : Prop := i = [esc; 0x50] \/ i = [c1DCS].

(** A complete token, for hold and Sixel caps [h] and [sx]. *)
Inductive tok (h sx : Z) (strip : bool) : bytes -> Prop :=
| tok_text b : 0x20 <= b <= 0x7E -> tok h sx strip [b]
| tok_format b : b = bs \/ b = ht \/ b = lf \/ b = cr -> tok h sx strip [b]
| tok_rune lead cs :
    0 < utf8Trail lead -> blen cs = utf8Trail lead -> Forall cont_range cs ->
    (lead = 0xC2 -> Forall (fun c => 0x9F < c) cs) -> tok h sx strip (lead :: cs)
| tok_esc b :
    0x30 <= b <= 0x7E ->
    b <> 0x5B -> b <> 0x5D -> b <> 0x50 -> b <> 0x5F -> b <> 0x5E -> b <> 0x58 -> b <> 0x5C -> b <> 0x5A ->
    tok h sx strip [esc; b]
| tok_nf ints f :
    ints <> [] -> Forall inter_range ints -> blen ints < csiMaxBytes -> 0x30 <= f <= 0x7E ->
    ~ (f = 0x47 /\ ints = [0x20]) -> tok h sx strip ([esc] ++ ints ++ [f])
| tok_csi intro content f :
    csi_intro intro -> Forall param_range content -> blen (intro ++ content) <= csiMaxBytes ->
    0x40 <= f <= 0x7E -> csiRewrite content f = Ok (content, true) ->
    tok h sx strip (intro ++ content ++ [f])
| tok_osc body rem lead term :
    payload true body rem lead -> fst (classifyOSC body strip) = oscPass ->
    (body <> [] -> 2 + blen body <= h) -> term = [bel] \/ term = [esc; 0x5C] ->
    tok h sx strip ([esc; 0x5D] ++ body ++ term)
| tok_sixel params body rem lead :
    Forall param_range params -> sixelParams params = true -> (params <> [] -> 2 + blen params <= h) ->
    payload false body rem lead -> (body <> [] -> 3 + blen params + blen body <= sx) ->
    tok h sx strip ([esc; 0x50] ++ params ++ [0x71] ++ body ++ [esc; 0x5C]).

Definition toks (h sx : Z) (strip : bool) (out : bytes) : Prop :=
  exists ts, out = concat ts /\ Forall (tok h sx strip) ts.

Lemma toks_nil h sx sl : toks h sx sl [].
Proof. by exists []. Qed.

Lemma toks_one h sx sl t : tok h sx sl t -> toks h sx sl t.
Proof. intros Ht. exists [t]. split; [simpl; by rewrite app_nil_r | by repeat constructor]. Qed.

Lemma toks_app h sx sl a b : toks h sx sl a -> toks h sx sl b -> toks h sx sl (a ++ b).
Proof.
  intros (ta & -> & Ha) (tb & -> & Hb). exists (ta ++ tb). split; [by rewrite concat_app | by apply Forall_app].
Qed.

(** ** The state invariant *)

(** A partial rune in ground: a lead byte and fewer continuation bytes than it
    announces. *)
Definition partial_rune (rem : Z) (b : bytes) : Prop :=
  exists lead cs, b = lead :: cs /\ utf8Trail lead = rem + blen cs /\ 0 < rem /\ Forall cont_range cs.

(** The payload so far; an ESC that may start the terminator resets the rune
    tracking. *)
Definition str_payload (bl : bool) (body : bytes) (s : Sanitizer) : Prop :=
  exists rem, payload bl body rem (strLead s) /\ (sawEsc s = false -> rem = strRem s).

Definition shape (s : Sanitizer) : Prop :=
  match st s with
  | stGround => utf8Rem s = 0 \/ partial_rune (utf8Rem s) (utf8Buf s)
  | stEsc => pending s = [esc]
  | stEscInt =>
      exists ints, pending s = [esc] ++ ints /\ ints <> [] /\ Forall inter_range ints /\
        blen (pending s) <= csiMaxBytes
  | stCSI =>
      exists intro content, pending s = intro ++ content /\ csi_intro intro /\ introLen s = blen intro /\
        Forall param_range content /\ blen (pending s) <= csiMaxBytes
  | stCSIIgnore => True
  | stDCS =>
      exists intro content, pending s = intro ++ content /\ dcs_intro intro /\ introLen s = blen intro /\
        Forall param_range content /\ (content <> [] -> blen (pending s) <= holdMax s)
  | stStr =>
      dropping s = true \/
      (kind s = kOSC /\ oscBEL s = true /\ curCap s = holdMax s /\
       exists intro body, pending s = intro ++ body /\ osc_intro intro /\ introLen s = blen intro /\
         str_payload true body s /\ (body <> [] -> blen (pending s) <= curCap s)) \/
      (kind s = kDCS /\ oscBEL s = false /\ curCap s = sixelMax s /\
       exists intro params body, pending s = intro ++ params ++ [0x71] ++ body /\ dcs_intro intro /\
         introLen s = blen intro /\ Forall param_range params /\ sixelParams params = true /\
         (params <> [] -> blen (intro ++ params) <= holdMax s) /\
         str_payload false body s /\ (body <> [] -> blen (pending s) <= curCap s))
  end.

Definition sinv (s : Sanitizer) : Prop :=
  shape s /\ (st s <> stGround -> utf8Rem s = 0) /\ (st s <> stStr -> strRem s = 0) /\
  (sawEsc s = true -> strRem s = 0) /\ 0 <= strRem s.

(** The options never change. *)
Definition same_config (s s' : Sanitizer) : Prop :=
  holdMax s' = holdMax s /\ sixelMax s' = sixelMax s /\ stripLink s' = stripLink s /\
  onTitle s' = onTitle s /\ onClip s' = onClip s.

Lemma same_config_refl s : same_config s s.
Proof. by repeat split. Qed.

Lemma same_config_trans a b c : same_config a b -> same_config b c -> same_config a c.
Proof. unfold same_config. intros (?&?&?&?&?) (?&?&?&?&?). repeat split; congruence. Qed.

(** How many more re-dispatches the next byte can take. *)
Definition rank (s : Sanitizer) : nat :=
  match st s with
  | stGround => if 0 <? utf8Rem s then 1 else 0
  | stEsc | stEscInt => 1
  | stStr => 2
  | _ => 0
  end.

(** What a step guarantees; tokens of 8-bit strings grow by one byte when their
    introducer is rewritten, hence the caps plus one. *)
Definition step_ok (s : Sanitizer) (m : go stepped) : Prop :=
  match m with
  | Ok r => sinv (next r) /\ same_config s (next r) /\
            toks (holdMax s + 1) (sixelMax s + 1) (stripLink s) (emit r) /\
            (consumed r = false -> (rank (next r) < rank s)%nat /\ emit r = [] /\ evs r = [])
  | Err _ => False
  | Panic => False
  end.

Lemma took_ok s s' : sinv s' -> same_config s s' -> step_ok s (took s').
Proof. intros Hi Hc. simpl. repeat (split; [done|]). split; [apply toks_nil | done]. Qed.

Lemma took_out_ok s s' o :
  sinv s' -> same_config s s' -> toks (holdMax s + 1) (sixelMax s + 1) (stripLink s) o ->
  step_ok s (took_out s' o).
Proof. intros Hi Hc Ht. simpl. by repeat (split; [done|]). Qed.

Lemma again_ok s s' : sinv s' -> same_config s s' -> (rank s' < rank s)%nat -> step_ok s (again s').
Proof. intros Hi Hc Hr. simpl. repeat (split; [done|]). split; [apply toks_nil | done]. Qed.

(** ** CSI rewriting is idempotent *)

Definition dropped_by (drop : list Z) (f : bytes) : bool :=
  let '(n, ok) := leadingDigits f in ok && existsb (Z.eqb n) drop.

(** A field the filter keeps. *)
Definition kept_field (drop : list Z) (f : bytes) : Prop :=
  f <> [] /\ dropped_by drop f = false /\ Forall (fun c => c <> 0x3B) f.

Lemma filter_fields_cons drop f fields kept d :
  filter_fields drop (f :: fields) kept d =
  if dropped_by drop f then filter_fields drop fields kept true
  else if blen f =? 0 then filter_fields drop fields kept d
  else filter_fields drop fields ((if 0 <? blen kept then kept ++ [0x3B] else kept) ++ f) d.
Proof. cbn [filter_fields]. unfold dropped_by. by destruct (leadingDigits f) as [n ok]. Qed.

Lemma filter_fields_all_kept drop fields kept d :
  Forall (kept_field drop) fields -> snd (filter_fields drop fields kept d) = d.
Proof.
  intros Hf. revert kept. induction Hf as [|f fields (_ & Hd & _) _ IH]; intros kept; [done|].
  rewrite filter_fields_cons, Hd. by destruct (blen f =? 0); rewrite IH.
Qed.

Lemma split_bytes_field sep f : Forall (fun c => c <> sep) f -> split_bytes sep f = [f].
Proof.
  induction 1 as [|c f Hc _ IH]; [done|]. cbn [split_bytes].
  destruct (Z.eqb_spec c sep); [done|]. by rewrite IH.
Qed.

Lemma split_bytes_ne sep a : split_bytes sep a <> [].
Proof. destruct a as [|c a]; simpl; [done|]. destruct (c =? sep); [done|]. by destruct (split_bytes sep a). Qed.

Lemma split_bytes_app sep a b :
  split_bytes sep (a ++ [sep] ++ b) = split_bytes sep a ++ split_bytes sep b.
Proof.
  change ([sep] ++ b) with (sep :: b).
  induction a as [|c a IH]; simpl; [by rewrite Z.eqb_refl|].
  destruct (c =? sep); [by rewrite IH|]. rewrite IH. pose proof (split_bytes_ne sep a).
  by destruct (split_bytes sep a).
Qed.

Lemma split_bytes_no_sep sep c : Forall (Forall (fun x => x <> sep)) (split_bytes sep c).
Proof.
  induction c as [|x c IH]; simpl; [by repeat constructor|].
  destruct (Z.eqb_spec x sep); [by constructor|].
  destruct (split_bytes sep c) as [|f fs]; [by repeat constructor|].
  inversion IH; subst. by repeat constructor.
Qed.

Lemma split_bytes_Forall (P : Z -> Prop) sep c : Forall P c -> Forall (Forall P) (split_bytes sep c).
Proof.
  induction 1 as [|x c Hx _ IH]; simpl; [by repeat constructor|].
  destruct (x =? sep); [by constructor|].
  destruct (split_bytes sep c) as [|f fs]; [by repeat constructor|].
  inversion IH; subst. by repeat constructor.
Qed.

(** The bytes of the fields, separators included. *)
Definition fields_size (fields : list bytes) : Z := foldr (fun f n => blen f + 1 + n) 0 fields.

Lemma fields_size_cons f fields : fields_size (f :: fields) = blen f + 1 + fields_size fields.
Proof. done. Qed.

Lemma split_bytes_size sep c : fields_size (split_bytes sep c) = blen c + 1.
Proof.
  induction c as [|x c IH]; [done|]. cbn [split_bytes]. rewrite blen_cons.
  destruct (x =? sep); [rewrite fields_size_cons, IH, blen_nil; lia|].
  pose proof (split_bytes_ne sep c).
  destruct (split_bytes sep c) as [|f fs]; [done|]. rewrite !fields_size_cons in *. rewrite blen_cons. lia.
Qed.

Lemma dropped_by_nil drop : dropped_by drop [] = false.
Proof. done. Qed.

Lemma filter_fields_size drop fields kept d kept' d' :
  filter_fields drop fields kept d = (kept', d') ->
  blen kept' + 2 * Z.b2z (negb d && d') <= blen kept + fields_size fields.
Proof.
  revert kept d. induction fields as [|f fields IH]; intros kept d.
  - intros [= -> ->]. rewrite Z.add_comm. destruct d'; cbn; lia.
  - rewrite filter_fields_cons, fields_size_cons. pose proof (blen_nonneg f).
    destruct (dropped_by drop f) eqn:Hd.
    + intros H1%IH. destruct f; [done|]. rewrite blen_cons in *. pose proof (blen_nonneg f).
      destruct d, d'; cbn in *; lia.
    + destruct (blen f =? 0); intros H1%IH; [destruct d, d'; cbn in *; lia|].
      rewrite blen_app in H1. destruct (0 <? blen kept); rewrite ?blen_app, ?blen_cons, ?blen_nil in H1; lia.
Qed.

Definition kept_ok (drop : list Z) (kept : bytes) : Prop :=
  kept = [] \/ Forall (kept_field drop) (split_bytes 0x3B kept).

Lemma filter_fields_kept_ok drop fields kept d :
  Forall (Forall (fun c => c <> 0x3B)) fields -> kept_ok drop kept ->
  kept_ok drop (fst (filter_fields drop fields kept d)).
Proof.
  intros Hns. revert kept d. induction Hns as [|f fields Hf _ IH]; intros kept d Hk; [done|].
  rewrite filter_fields_cons. destruct (dropped_by drop f) eqn:Hd; [auto|].
  destruct (Z.eqb_spec (blen f) 0) as [Hz|Hz]; [auto|]. apply IH. right.
  assert (kept_field drop f) as Hkf by (repeat split; [by intros ->|done|done]).
  destruct (Z.ltb_spec 0 (blen kept)) as [Hp|Hp].
  - destruct Hk as [->|Hk]; [done|]. rewrite <- app_assoc, split_bytes_app, (split_bytes_field _ f) by done.
    apply Forall_app. split; [done | by apply Forall_singleton].
  - pose proof (blen_nonneg kept). assert (kept = []) as -> by (apply blen_0_inv; lia).
    simpl. rewrite split_bytes_field by done. by apply Forall_singleton.
Qed.

Lemma filter_fields_param drop fields kept d :
  Forall (Forall param_range) fields -> Forall param_range kept ->
  Forall param_range (fst (filter_fields drop fields kept d)).
Proof.
  intros Hns. revert kept d. induction Hns as [|f fields Hf _ IH]; intros kept d Hk; [done|].
  rewrite filter_fields_cons. destruct (dropped_by drop f); [auto|]. destruct (blen f =? 0); [auto|].
  apply IH. destruct (0 <? blen kept); rewrite ?Forall_app; repeat split; try done.
  repeat constructor; unfold param_range; lia.
Qed.

(** What both rewriting branches guarantee of the content they keep. *)
Lemma filterPrivateModes_ok drop c c' :
  first_is 0x3F c = true -> Forall param_range c -> filterPrivateModes c drop = Ok (c', true) ->
  first_is 0x3F c' = true /\ Forall param_range c' /\ blen c' <= blen c /\
  filterPrivateModes c' drop = Ok (c', true).
Proof.
  intros Hq Hp H. destruct c as [|q tail]; [done|]. simpl in Hq. apply Z.eqb_eq in Hq as ->.
  pose proof H as H0. revert H. unfold filterPrivateModes. change (0x3F :: tail) with ([0x3F] ++ tail).
  rewrite (slice_from_app [0x3F] tail : slice_from _ 1 = _). cbn [obind].
  destruct (filter_fields _ _ _ _) as [kept dropped] eqn:Hf.
  destruct dropped; cbn [negb]; [|by intros [= <-]].
  destruct (blen kept =? 0) eqn:Hz; [done|]. intros [= <-].
  inversion Hp as [|? ? Hq' Htail]; subst.
  pose proof (filter_fields_kept_ok drop _ [] false (split_bytes_no_sep 0x3B tail) (or_introl eq_refl)) as Hk.
  pose proof (filter_fields_param drop _ [] false (split_bytes_Forall _ 0x3B _ Htail) (Forall_nil_2 _)) as Hpr.
  pose proof (filter_fields_size _ _ _ _ _ _ Hf) as Hs. rewrite split_bytes_size, blen_nil in Hs.
  rewrite Hf in Hk, Hpr. cbn [fst] in Hk, Hpr. cbn [negb andb Z.b2z] in Hs.
  split; [done|]. split; [by constructor|]. split; [rewrite ?blen_app, ?blen_cons, ?blen_nil; lia|].
  destruct Hk as [->|Hk]; [done|].
  rewrite (slice_from_app [0x3F] kept : slice_from _ 1 = _). cbn [obind].
  pose proof (filter_fields_all_kept _ _ [] false Hk) as Ha.
  rewrite (surjective_pairing (filter_fields _ _ _ _)), Ha. reflexivity.
Qed.

Lemma csiRewrite_h c :
  csiRewrite c 0x68 = if first_is 0x3F c then filterPrivateModes c replyModes else Ok (c, true).
Proof. unfold csiRewrite, csiPasses. simpl. rewrite !andb_false_r. simpl. by destruct (first_is _ _). Qed.

Lemma csiRewrite_l c :
  csiRewrite c 0x6C = if first_is 0x3F c then filterPrivateModes c vt52Modes else Ok (c, true).
Proof. unfold csiRewrite, csiPasses. simpl. rewrite !andb_false_r. simpl. by destruct (first_is _ _). Qed.

Lemma csiRewrite_other c f :
  f <> 0x68 -> f <> 0x6C -> csiRewrite c f = Ok (c, true) \/ csiRewrite c f = Ok ([], false).
Proof.
  intros Hh Hl. apply Z.eqb_neq in Hh, Hl. unfold csiRewrite. rewrite Hh, Hl, !andb_false_r.
  repeat (case_match; [by right|]). by left.
Qed.

Lemma filterPrivateModes_total drop c : first_is 0x3F c = true -> exists r, filterPrivateModes c drop = Ok r.
Proof.
  destruct c as [|q tail]; [done|]. intros _. unfold filterPrivateModes.
  change (q :: tail) with ([q] ++ tail). rewrite (slice_from_app [q] tail : slice_from _ 1 = _). cbn [obind].
  destruct (filter_fields _ _ _ _) as [kept dropped]. destruct (negb dropped); [eauto|]. destruct (_ =? _); eauto.
Qed.

Lemma csiRewrite_total c f : exists r, csiRewrite c f = Ok r.
Proof.
  destruct (Z.eq_dec f 0x68) as [->|]; [rewrite csiRewrite_h|].
  { destruct (first_is _ _) eqn:E; [by apply filterPrivateModes_total | eauto]. }
  destruct (Z.eq_dec f 0x6C) as [->|]; [rewrite csiRewrite_l|].
  { destruct (first_is _ _) eqn:E; [by apply filterPrivateModes_total | eauto]. }
  destruct (csiRewrite_other c f) as [-> | ->]; eauto.
Qed.

Lemma csiRewrite_ok c f c' :
  Forall param_range c -> csiRewrite c f = Ok (c', true) ->
  Forall param_range c' /\ blen c' <= blen c /\ csiRewrite c' f = Ok (c', true).
Proof.
  intros Hp H. pose proof H as H0.
  destruct (Z.eq_dec f 0x68) as [->|]; [rewrite csiRewrite_h in *|].
  { destruct (first_is _ c) eqn:E; [|by injection H0 as <-; rewrite E].
    apply filterPrivateModes_ok in H as (-> & ? & ? & ?); auto. }
  destruct (Z.eq_dec f 0x6C) as [->|]; [rewrite csiRewrite_l in *|].
  { destruct (first_is _ c) eqn:E; [|by injection H0 as <-; rewrite E].
    apply filterPrivateModes_ok in H as (-> & ? & ? & ?); auto. }
  destruct (csiRewrite_other c f) as [H1|H1]; [done|done| |]; rewrite H1 in H; [|done].
  injection H as <-. by rewrite H1.
Qed.

(** ** Every step keeps the invariant and emits tokens *)

Lemma utf8Trail_nonneg b : 0 <= utf8Trail b.
Proof. unfold utf8Trail. repeat case_match; lia. Qed.

(** States in which no rune is pending. *)
Lemma sinv_clean s : utf8Rem s = 0 -> strRem s = 0 -> shape s -> sinv s.
Proof. intros Hu Hs Hp. repeat split; auto; lia. Qed.

Lemma sinv_ground s : st s = stGround -> utf8Rem s = 0 -> strRem s = 0 -> sinv s.
Proof. intros Hst Hu Hs. apply sinv_clean; [done|done|]. unfold shape. rewrite Hst. by left. Qed.

Lemma sinv_esc s : st s = stEsc -> pending s = [esc] -> utf8Rem s = 0 -> strRem s = 0 -> sinv s.
Proof. intros Hst Hp Hu Hs. apply sinv_clean; [done|done|]. unfold shape. by rewrite Hst. Qed.

Lemma sinv_dropping s :
  st s = stStr -> dropping s = true -> utf8Rem s = 0 -> 0 <= strRem s -> (sawEsc s = true -> strRem s = 0) -> sinv s.
Proof.
  intros Hst Hd Hu Hs He. split; [unfold shape; rewrite Hst; by left|]. split; [done|].
  by rewrite Hst.
Qed.

Lemma sinv_csi s intro content :
  st s = stCSI -> pending s = intro ++ content -> csi_intro intro -> introLen s = blen intro ->
  Forall param_range content -> blen (intro ++ content) <= csiMaxBytes ->
  utf8Rem s = 0 -> strRem s = 0 -> sinv s.
Proof.
  intros Hst Hp ? ? ? ? ? ?. apply sinv_clean; [done..|]. unfold shape. rewrite Hst, Hp. by exists intro, content.
Qed.

Lemma sinv_dcs s intro content :
  st s = stDCS -> pending s = intro ++ content -> dcs_intro intro -> introLen s = blen intro ->
  Forall param_range content -> (content <> [] -> blen (intro ++ content) <= holdMax s) ->
  utf8Rem s = 0 -> strRem s = 0 -> sinv s.
Proof.
  intros Hst Hp ? ? ? ? ? ?. apply sinv_clean; [done..|]. unfold shape. rewrite Hst, Hp. by exists intro, content.
Qed.

Lemma sinv_osc s intro body :
  st s = stStr -> kind s = kOSC -> oscBEL s = true -> curCap s = holdMax s ->
  pending s = intro ++ body -> osc_intro intro -> introLen s = blen intro ->
  str_payload true body s -> (body <> [] -> blen (intro ++ body) <= curCap s) ->
  utf8Rem s = 0 -> 0 <= strRem s -> (sawEsc s = true -> strRem s = 0) -> sinv s.
Proof.
  intros Hst ? ? ? Hp ? ? ? ? ? ? ?. split; [|by rewrite Hst].
  unfold shape. rewrite Hst, Hp. right; left. repeat (split; [done|]). by exists intro, body.
Qed.

Lemma sinv_sixel s intro params body :
  st s = stStr -> kind s = kDCS -> oscBEL s = false -> curCap s = sixelMax s ->
  pending s = intro ++ params ++ [0x71] ++ body -> dcs_intro intro -> introLen s = blen intro ->
  Forall param_range params -> sixelParams params = true ->
  (params <> [] -> blen (intro ++ params) <= holdMax s) ->
  str_payload false body s ->
  (body <> [] -> blen (intro ++ params ++ [0x71] ++ body) <= curCap s) ->
  utf8Rem s = 0 -> 0 <= strRem s -> (sawEsc s = true -> strRem s = 0) -> sinv s.
Proof.
  intros Hst ? ? ? Hp ? ? ? ? ? ? ? ? ? ?. split; [|by rewrite Hst].
  unfold shape. rewrite Hst, Hp. right; right. repeat (split; [done|]). by exists intro, params, body.
Qed.

Lemma same_config_sym_ok s s' :
  holdMax s' = holdMax s -> sixelMax s' = sixelMax s -> stripLink s' = stripLink s ->
  onTitle s' = onTitle s -> onClip s' = onClip s -> same_config s s'.
Proof. by repeat split. Qed.

Ltac cfg := solve [apply same_config_sym_ok; reflexivity].

(** Case analysis on the next test of a step. *)
Tactic Notation "tst" "as" ident(H) :=
  match goal with |- step_ok _ (if ?c then _ else _) => destruct c eqn:H end.
Tactic Notation "tst" := let H := fresh "T" in tst as H.

Lemma csi_intro_len i : csi_intro i -> 1 <= blen i <= 2.
Proof. unfold blen. intros [-> | ->]; simpl; lia. Qed.
Lemma osc_intro_len i : osc_intro i -> 1 <= blen i <= 2.
Proof. unfold blen. intros [-> | ->]; simpl; lia. Qed.
Lemma dcs_intro_len i : dcs_intro i -> 1 <= blen i <= 2.
Proof. unfold blen. intros [-> | ->]; simpl; lia. Qed.

(** The conditions of the state just after an introducer. *)
Ltac start_left := first [reflexivity | by left | by apply Forall_nil_2 | (exists 0; split; [apply pl_nil|done]) | assumption | done].
Ltac start_right := first [reflexivity | by right | by apply Forall_nil_2 | (exists 0; split; [apply pl_nil|done]) | assumption | done].

Lemma index_head {E A} (x : A) l : index (E := E) (x :: l) 0 = Ok x.
Proof. done. Qed.

Section Steps.
Context (s : Sanitizer) (b : Z) (Hinv : sinv s) (Hb : u8_ok b).

Lemma stepGround_rune_ok : st s = stGround -> 0 < utf8Rem s -> step_ok s (stepGround s b).
Proof.
  intros Hst Hrem. destruct Hinv as (Hsh & Hu & Hs & He & Hn). unfold shape in Hsh. rewrite Hst in *.
  destruct Hsh as [?|(lead & cs & Hbuf & Htr & _ & Hcs)]; [lia|].
  unfold stepGround. apply Z.ltb_lt in Hrem as Hr. rewrite Hr, Hbuf, index_head.
  destruct (in_range _ _ b) eqn:Hc.
  2:{ apply again_ok; [|cfg|unfold rank; simpl; rewrite Hst, Hr; lia].
      apply sinv_ground; simpl; [done|done|by apply Hs]. }
  unfold in_range in Hc. cbn [obind]. destruct ((lead =? _) && _) eqn:Hc2.
  { apply took_ok; [|cfg]. apply sinv_ground; simpl; [done|done|by apply Hs]. }
  assert (Forall cont_range (cs ++ [b])) as Hall.
  { apply Forall_app. split; [done|]. apply Forall_singleton. unfold cont_range. lia. }
  destruct (utf8Rem s - 1 =? 0) eqn:Hz.
  - apply took_out_ok; [|cfg|apply toks_one].
    { apply sinv_ground; simpl; [done|lia|by apply Hs]. }
    change ((lead :: cs) ++ [b]) with (lead :: (cs ++ [b])). constructor; auto.
    + pose proof (blen_nonneg cs). lia.
    + rewrite blen_app, blen_cons, blen_nil. lia.
    + intros ->. assert (cs = []) as -> by (apply blen_0_inv; cbn in Htr; lia).
      apply Forall_singleton. lia.
  - apply took_ok; [|cfg]. repeat split; simpl; try done.
    + unfold shape; simpl. rewrite Hst. right. exists lead, (cs ++ [b]).
      rewrite blen_app, blen_cons, blen_nil. repeat split; auto; lia.
    + rewrite Hst. exact Hs.
Qed.

Lemma stepGround_ok : st s = stGround -> step_ok s (stepGround s b).
Proof.
  intros Hst. destruct (Z.ltb_spec 0 (utf8Rem s)) as [Hr|Hr]; [by apply stepGround_rune_ok|].
  destruct Hinv as (Hsh & Hu & Hs & He & Hn). unfold shape in Hsh. rewrite Hst in *.
  assert (utf8Rem s = 0) as Hr0 by (destruct Hsh as [?|(? & ? & ? & ? & ? & ?)]; lia).
  assert (strRem s = 0) as Hs0 by (apply Hs; done).
  unfold stepGround. replace (0 <? utf8Rem s) with false by lia.
  destruct (b =? esc) eqn:?; [apply took_ok; [by apply sinv_esc|cfg]|].
  tst; [apply took_out_ok; [by apply sinv_ground|cfg|apply toks_one, tok_format; lia]|].
  destruct (b <? 0x20) eqn:?; [apply took_ok; [by apply sinv_ground|cfg]|].
  destruct (b =? del) eqn:?; [apply took_ok; [by apply sinv_ground|cfg]|].
  destruct (b <=? 0x7E) eqn:?; [apply took_out_ok; [by apply sinv_ground|cfg|apply toks_one, tok_text; lia]|].
  destruct (b =? c1CSI) eqn:Hc.
  { apply Z.eqb_eq in Hc as ->. apply took_ok; [|cfg].
    apply (sinv_csi _ [c1CSI] []); start_right. }
  destruct (b =? c1OSC) eqn:Hc2.
  { apply Z.eqb_eq in Hc2 as ->. apply took_ok; [|cfg].
    apply (sinv_osc _ [c1OSC] []); start_right. }
  destruct (b =? c1DCS) eqn:Hc3.
  { apply Z.eqb_eq in Hc3 as ->. apply took_ok; [|cfg].
    apply (sinv_dcs _ [c1DCS] []); start_right. }
  do 3 (tst; [apply took_ok; [by apply sinv_dropping|cfg]|]).
  destruct (b <=? 0x9F) eqn:?; [apply took_ok; [by apply sinv_ground|cfg]|].
  destruct (utf8Trail b =? 0) eqn:?; [apply took_ok; [by apply sinv_ground|cfg]|].
  apply took_ok; [|cfg]. repeat split; simpl; try done; rewrite ?Hst; auto.
  unfold shape; simpl; rewrite Hst. right. exists b, []. pose proof (utf8Trail_nonneg b).
  rewrite blen_nil. repeat split; [lia|lia|constructor].
Qed.

Lemma not_str_rem : st s <> stStr -> st s <> stGround -> utf8Rem s = 0 /\ strRem s = 0.
Proof. destruct Hinv as (_ & Hu & Hs & _). auto. Qed.

Lemma stepEsc_ok : st s = stEsc -> step_ok s (stepEsc s b).
Proof.
  intros Hst. destruct not_str_rem as [Hu Hs]; [by rewrite Hst..|].
  destruct Hinv as (Hsh & _). unfold shape in Hsh. rewrite Hst in Hsh.
  unfold stepEsc. rewrite Hsh.
  destruct (b =? 0x5B) eqn:Hc.
  { apply Z.eqb_eq in Hc as ->. apply took_ok; [|cfg].
    apply (sinv_csi _ [esc; 0x5B] []); start_left. }
  destruct (b =? 0x5D) eqn:Hc2.
  { apply Z.eqb_eq in Hc2 as ->. apply took_ok; [|cfg].
    apply (sinv_osc _ [esc; 0x5D] []); start_left. }
  destruct (b =? 0x50) eqn:Hc3.
  { apply Z.eqb_eq in Hc3 as ->. apply took_ok; [|cfg].
    apply (sinv_dcs _ [esc; 0x50] []); start_left. }
  do 3 (tst; [apply took_ok; [by apply sinv_dropping|cfg]|]).
  destruct (b =? 0x5C) eqn:?; [apply took_ok; [by apply sinv_ground|cfg]|].
  destruct (b =? esc) eqn:?; [apply took_ok; [by apply sinv_esc|cfg]|].
  tst; [apply took_ok; [by apply sinv_ground|cfg]|].
  destruct (in_range 0x20 0x2F b) eqn:?.
  { apply took_ok; [|cfg]. apply sinv_clean; [done..|]. exists [b]. unfold in_range in *.
    repeat split; [done|apply Forall_singleton; unfold inter_range; lia|done]. }
  destruct (in_range 0x30 0x7E b) eqn:?.
  2:{ apply again_ok; [by apply sinv_ground|cfg|]. unfold rank; simpl. rewrite Hst, Hu. simpl. lia. }
  destruct (b =? 0x5A) eqn:?; [apply took_ok; [by apply sinv_ground|cfg]|].
  apply took_out_ok; [by apply sinv_ground|cfg|]. apply toks_one. unfold in_range in *. apply tok_esc; lia.
Qed.

Lemma stepEscInt_ok : st s = stEscInt -> step_ok s (stepEscInt s b).
Proof.
  intros Hst. destruct not_str_rem as [Hu Hs]; [by rewrite Hst..|].
  destruct Hinv as (Hsh & _). unfold shape in Hsh. rewrite Hst in Hsh.
  destruct Hsh as (ints & Hp & Hne & Hints & Hlen).
  unfold stepEscInt. cbn [pending set_pending].
  destruct (in_range 0x20 0x2F b) eqn:Hr; unfold in_range in Hr.
  { destruct (csiMaxBytes <? _) eqn:Hcap; (apply took_ok; [|cfg]); [apply sinv_clean; [done..|exact I]|].
    apply sinv_clean; [done..|]. unfold shape; simpl. rewrite Hst. exists (ints ++ [b]).
    rewrite Hp in *. rewrite <- app_assoc in *. repeat split; [by destruct ints| |lia].
    apply Forall_app. split; [done|]. apply Forall_singleton. unfold inter_range. lia. }
  destruct (in_range 0x30 0x7E b) eqn:Hr2; unfold in_range in Hr2.
  { tst as Hsp; [apply took_ok; [by apply sinv_ground|cfg]|].
    apply took_out_ok; [by apply sinv_ground|cfg|]. apply toks_one. rewrite Hp in *.
    rewrite <- app_assoc. rewrite blen_app, blen_cons, blen_nil in Hlen. apply tok_nf; try done; try lia.
    intros [-> ->]. done. }
  destruct (b =? esc) eqn:?; [apply took_ok; [by apply sinv_esc|cfg]|].
  tst; [apply took_ok; [by apply sinv_ground|cfg]|].
  apply again_ok; [by apply sinv_ground|cfg|]. unfold rank; simpl. rewrite Hst, Hu. simpl. lia.
Qed.

Lemma stepCSI_ok : st s = stCSI -> step_ok s (stepCSI s b).
Proof.
  intros Hst. destruct not_str_rem as [Hu Hs]; [by rewrite Hst..|].
  destruct Hinv as (Hsh & _). unfold shape in Hsh. rewrite Hst in Hsh.
  destruct Hsh as (intro & content & Hp & Hi & Hil & Hc & Hlen).
  unfold stepCSI. cbn [pending set_pending].
  tst as Hr; unfold in_range in Hr.
  { destruct (csiMaxBytes <? _) eqn:Hcap; (apply took_ok; [|cfg]); [apply sinv_clean; [done..|exact I]|].
    apply sinv_clean; [done..|]. unfold shape; simpl. rewrite Hst. exists intro, (content ++ [b]).
    rewrite Hp in *. rewrite <- app_assoc in *. repeat split; [done|done| |lia].
    apply Forall_app. split; [done|]. apply Forall_singleton. unfold param_range. lia. }
  destruct (in_range 0x40 0x7E b) eqn:Hr2; unfold in_range in Hr2.
  { rewrite Hp, Hil, slice_from_app, slice_to_app. cbn [obind].
    destruct (csiRewrite_total content b) as [[c' pass] Hrw]. rewrite Hrw. cbn [obind fst snd].
    destruct pass; [|apply took_ok; [by apply sinv_ground|cfg]].
    apply took_out_ok; [by apply sinv_ground|cfg|]. apply toks_one.
    apply csiRewrite_ok in Hrw as (? & ? & ?); [|done]. rewrite Hp, blen_app in Hlen.
    apply tok_csi; try done; [rewrite blen_app; lia|lia]. }
  destruct (b =? esc) eqn:?; [apply took_ok; [by apply sinv_esc|cfg]|].
  tst; [apply took_ok; [by apply sinv_ground|cfg]|].
  apply took_ok; [|cfg]. by apply sinv_clean.
Qed.

Lemma stepCSIIgnore_ok : st s = stCSIIgnore -> step_ok s (stepCSIIgnore s b).
Proof.
  intros Hst. destruct not_str_rem as [Hu Hs]; [by rewrite Hst..|]. unfold stepCSIIgnore.
  tst; [apply took_ok; [by apply sinv_ground|cfg]|].
  destruct (b =? esc) eqn:?; [apply took_ok; [by apply sinv_esc|cfg]|].
  tst; [apply took_ok; [by apply sinv_ground|cfg]|].
  apply took_ok; [exact Hinv|cfg].
Qed.

Lemma stepDCS_ok : st s = stDCS -> step_ok s (stepDCS s b).
Proof.
  intros Hst. destruct not_str_rem as [Hu Hs]; [by rewrite Hst..|].
  destruct Hinv as (Hsh & _). unfold shape in Hsh. rewrite Hst in Hsh.
  destruct Hsh as (intro & content & Hp & Hi & Hil & Hc & Hlen).
  unfold stepDCS. cbn [pending set_pending holdMax].
  tst as Hr; unfold in_range in Hr.
  { rewrite Hp, <- app_assoc in *. tst as Hcap; (apply took_ok; [|cfg]).
    - apply sinv_dropping; simpl; [done|done|done|lia|done].
    - eapply (sinv_dcs _ intro (content ++ [b])); simpl; try done; [|intros _; lia].
      apply Forall_app. split; [done|]. apply Forall_singleton. unfold param_range. lia. }
  tst as Hr2.
  { unfold classifyDCS. cbn [pending set_pending introLen sixelMax].
    rewrite Hp, <- app_assoc, Hil, slice_from_app. cbn [obind]. rewrite slice_to_snoc. cbn [obind].
    destruct ((b =? 0x71) && _) eqn:Hq; cbn [obind]; (apply took_ok; [|cfg]).
    - apply andb_prop in Hq as [->%Z.eqb_eq Hsx].
      apply (sinv_sixel _ intro content []); try done; cbn; try lia; try done.
      + intros Hne. rewrite <- Hp. auto.
      + exists 0. split; [constructor|by cbn].
    - apply sinv_dropping; simpl; [done|done|done|lia|done]. }
  tst; [apply took_ok; [by apply sinv_esc|cfg]|].
  tst; [apply took_ok; [by apply sinv_ground|cfg]|].
  tst; [apply took_ok; [by apply sinv_ground|cfg]|].
  apply took_ok; [|cfg]. apply sinv_dropping; simpl; [done|done|done|apply utf8Trail_nonneg|done].
Qed.

Lemma step_dropping_ok : st s = stStr -> dropping s = true -> step_ok s (stepStr s b).
Proof.
  intros Hst Hd. destruct Hinv as (Hsh & Hu & _ & He & Hn). assert (utf8Rem s = 0) as Hu0 by (apply Hu; by rewrite Hst).
  unfold stepStr. tst as Hsaw.
  { tst; [unfold finishStr; cbn [dropping set_sawEsc]; rewrite Hd; apply took_ok; [by apply sinv_ground; simpl; auto|cfg]|].
    apply again_ok; [by apply sinv_esc; simpl; auto|cfg|]. unfold rank; simpl. rewrite Hst. lia. }
  assert (forall s', st s' = stStr -> dropping s' = true -> utf8Rem s' = 0 -> strRem s' = 0 -> sawEsc s' = false ->
            same_config s s' -> step_ok s (stepStr_fresh s' b)) as Hfresh.
  { intros s' ? Hd' ? ? ? Hcfg. unfold stepStr_fresh, finishStr, strBody. cbn [dropping set_strLead set_strRem]. rewrite Hd'.
    tst; [apply took_ok; [by apply sinv_dropping; simpl; try lia|done]|].
    tst; [apply took_ok; [by apply sinv_ground|done]|].
    tst; [apply took_ok; [by apply sinv_ground|done]|].
    tst; [apply took_ok; [by apply sinv_ground|done]|].
    apply took_ok; [|done]. apply sinv_dropping; simpl; try done; [apply utf8Trail_nonneg|congruence]. }
  tst as Hrem; [|apply Hfresh; try done; lia || cfg].
  tst; [|apply Hfresh; try done; cfg].
  tst; [apply took_ok; [by apply sinv_ground|cfg]|].
  unfold strBody. cbn [dropping set_strRem]. rewrite Hd. apply took_ok; [|cfg].
  apply sinv_dropping; simpl; try done; [lia|congruence].
Qed.
End Steps.

(** The terminators of the source; the 8-bit one is rewritten. *)
Definition is_term (bl : bool) (term : bytes) : Prop :=
  (bl = true /\ term = [bel]) \/ term = [c1ST] \/ term = [esc; 0x5C].

Definition out_term (term : bytes) : bytes := if bytes_eqb term [c1ST] then [esc; 0x5C] else term.

Lemma emitString_ok s x c1 intro rest term :
  pending s = intro ++ rest -> introLen s = blen intro -> intro = [esc; x] \/ intro = [c1] ->
  (c1 = c1OSC /\ x = 0x5D) \/ (c1 = c1DCS /\ x = 0x50) ->
  emitString s term = Ok ([esc; x] ++ rest ++ out_term term).
Proof.
  intros Hp Hl Hi Hx. unfold emitString. rewrite Hp, Hl. fold (out_term term).
  destruct Hi as [-> | ->]; unfold blen; simpl length.
  - change (Z.of_nat 2 =? 1) with false. cbv iota. by rewrite <- app_assoc.
  - change (Z.of_nat 1 =? 1) with true. cbv iota. rewrite (index_head c1 rest : index _ 0 = _). cbn [obind].
    rewrite (slice_from_app [c1] rest : slice_from _ 1 = _). cbn [obind].
    by destruct Hx as [[-> ->] | [-> ->]].
Qed.

Section Strings.
Context (s : Sanitizer) (b : Z) (Hb : u8_ok b) (Hst : st s = stStr) (Hdrop : dropping s = false)
  (Hu : utf8Rem s = 0).

Lemma out_term_osc term : is_term true term -> out_term term = [bel] \/ out_term term = [esc; 0x5C].
Proof. intros [[_ ->] | [-> | ->]]; [by left | by right | by right]. Qed.

Lemma out_term_dcs term : is_term false term -> out_term term = [esc; 0x5C].
Proof. by intros [[? ->] | [-> | ->]]. Qed.

Lemma finishStr_osc_ok s0 intro body rem lead term :
  same_config s0 s -> kind s = kOSC -> pending s = intro ++ body -> osc_intro intro -> introLen s = blen intro ->
  payload true body rem lead -> (body <> [] -> blen (intro ++ body) <= holdMax s) -> strRem s = 0 ->
  is_term true term -> step_ok s0 (finishStr s term).
Proof.
  intros Hcfg Hk Hp Hi Hl Hpl Hcap Hr Ht. unfold finishStr, finishOSC. rewrite Hdrop, Hk, Hp, Hl, slice_from_app.
  assert (sinv (set_drop false (set_st stGround s))) as Hs' by (by apply sinv_ground).
  pose proof Hcfg as (Hh & Hsx & Hlk & _ & _).
  cbn [obind]. destruct (classifyOSC body (stripLink s)) as [disp ts] eqn:Hcl.
  destruct disp; cbn [obind].
  - destruct (onClip s); [destruct (DecodeClipboardSet body)|]; cbn; (split; [done|]; split; [done|]; split; [apply toks_nil|done]).
  - rewrite (emitString_ok s 0x5D c1OSC intro body) by (auto; destruct Hi; auto). cbn [obind].
    simpl. split; [done|]. split; [done|]. split; [|done]. apply toks_one.
    change (esc :: 93 :: body ++ out_term term) with ([esc; 0x5D] ++ body ++ out_term term).
    apply (tok_osc _ _ _ body rem lead); [done|by rewrite <- Hlk, Hcl| |by apply out_term_osc].
    intros Hne. specialize (Hcap Hne). apply osc_intro_len in Hi. rewrite blen_app in Hcap. lia.
  - destruct (onTitle s); [|cbn; split; [done|]; split; [done|]; split; [apply toks_nil|done]].
    assert (exists t, (if (0 <=? ts) && (ts <? blen body) then slice_from body ts else Ok []) = (Ok t : go bytes)) as [t ->].
    { unfold slice_from. destruct (_ && _) eqn:Hts; [|eauto]. replace (_ && _) with true by lia. eauto. }
    cbn. split; [done|]. split; [done|]. split; [apply toks_nil|done].
Qed.

Lemma finishStr_sixel_ok s0 intro params body rem lead term :
  same_config s0 s -> kind s = kDCS -> pending s = intro ++ params ++ [0x71] ++ body -> dcs_intro intro ->
  introLen s = blen intro -> Forall param_range params -> sixelParams params = true ->
  (params <> [] -> blen (intro ++ params) <= holdMax s) -> payload false body rem lead ->
  (body <> [] -> blen (intro ++ params ++ [0x71] ++ body) <= sixelMax s) -> strRem s = 0 ->
  is_term false term -> step_ok s0 (finishStr s term).
Proof.
  intros Hcfg Hk Hp Hi Hl Hpr Hsp Hpc Hpl Hcap Hr Ht. unfold finishStr. rewrite Hdrop, Hk.
  rewrite (emitString_ok s 0x50 c1DCS intro (params ++ [0x71] ++ body)) by (auto; destruct Hi; auto). cbn [obind].
  pose proof Hcfg as (Hh & Hsx & Hlk & _ & _). apply dcs_intro_len in Hi.
  apply took_out_ok; [by apply sinv_ground|done|]. apply toks_one. rewrite out_term_dcs by done.
  rewrite <- !app_assoc. apply (tok_sixel _ _ _ params body rem lead); auto.
  - intros Hne. specialize (Hpc Hne). rewrite blen_app in Hpc. lia.
  - intros Hne. specialize (Hcap Hne). rewrite !blen_app, blen_cons, blen_nil in Hcap. lia.
Qed.
End Strings.

(** A string whose bytes are being held: an OSC ([bl] true) or a Sixel image. *)
Definition held (bl : bool) (s : Sanitizer) (body : bytes) : Prop :=
  oscBEL s = bl /\ (body <> [] -> blen (pending s) <= curCap s) /\
  if bl then
    kind s = kOSC /\ curCap s = holdMax s /\
    exists intro, pending s = intro ++ body /\ osc_intro intro /\ introLen s = blen intro
  else
    kind s = kDCS /\ curCap s = sixelMax s /\
    exists intro params, pending s = intro ++ params ++ [0x71] ++ body /\ dcs_intro intro /\
      introLen s = blen intro /\ Forall param_range params /\ sixelParams params = true /\
      (params <> [] -> blen (intro ++ params) <= holdMax s).

Lemma held_sinv bl s body :
  held bl s body -> st s = stStr -> str_payload bl body s -> utf8Rem s = 0 -> 0 <= strRem s ->
  (sawEsc s = true -> strRem s = 0) -> sinv s.
Proof.
  intros (Ho & Hcap & Hk) Hst Hpl Hu Hn He. destruct bl.
  - destruct Hk as (Hk & Hc & intro & Hp & Hi & Hl). rewrite Hp in Hcap. by apply (sinv_osc s intro body).
  - destruct Hk as (Hk & Hc & intro & params & Hp & Hi & Hl & ? & ? & ?). rewrite Hp in Hcap.
    by apply (sinv_sixel s intro params body).
Qed.

Lemma held_finish bl s0 s body rem lead term :
  held bl s body -> dropping s = false -> utf8Rem s = 0 -> strRem s = 0 -> payload bl body rem lead ->
  same_config s0 s -> is_term bl term -> step_ok s0 (finishStr s term).
Proof.
  intros (Ho & Hcap & Hk) Hd Hu Hr Hpl Hcfg Ht. destruct bl.
  - destruct Hk as (Hk & Hc & intro & Hp & Hi & Hl). rewrite Hp, Hc in Hcap. by eapply finishStr_osc_ok.
  - destruct Hk as (Hk & Hc & intro & params & Hp & Hi & Hl & ? & ? & ?). rewrite Hp, Hc in Hcap.
    by eapply finishStr_sixel_ok.
Qed.

Lemma held_push bl s body b :
  held bl s body -> blen (pending s ++ [b]) <= curCap s ->
  held bl (set_pending (pending s ++ [b]) s) (body ++ [b]).
Proof.
  intros (Ho & _ & Hk) Hcap. split; [done|]. split; [done|]. destruct bl; simpl.
  - destruct Hk as (Hk & Hc & intro & -> & Hi & Hl). do 2 (split; [done|]). exists intro. by rewrite app_assoc.
  - destruct Hk as (Hk & Hc & intro & params & -> & Hrest). do 2 (split; [done|]). exists intro, params.
    by rewrite <- !app_assoc.
Qed.

(** A payload byte is stored, or the cap turns the string into a dropped one. *)
Lemma strBody_ok bl s0 s body b :
  held bl s body -> st s = stStr -> dropping s = false -> utf8Rem s = 0 -> sawEsc s = false ->
  payload bl (body ++ [b]) (strRem s) (strLead s) -> 0 <= strRem s -> same_config s0 s ->
  step_ok s0 (took (strBody b s)).
Proof.
  intros Hh Hst Hd Hu He Hpl Hn Hcfg. unfold strBody. rewrite Hd. cbn [pending set_pending curCap].
  destruct (Z.ltb_spec (curCap s) (blen (pending s ++ [b]))) as [Hc|Hc]; (apply took_ok; [|done]).
  - by apply sinv_dropping.
  - apply (held_sinv bl _ (body ++ [b])); try done; [by apply held_push| |simpl; congruence].
    by exists (strRem s).
Qed.

Lemma stepStr_fresh_ok bl s0 s body rem b :
  held bl s body -> st s = stStr -> dropping s = false -> utf8Rem s = 0 -> strRem s = 0 -> sawEsc s = false ->
  payload bl body rem (strLead s) -> (0 < rem -> ~ cont_range b) -> same_config s0 s ->
  step_ok s0 (stepStr_fresh s b).
Proof.
  intros Hh Hst Hd Hu Hr He Hpl Hf Hcfg. unfold stepStr_fresh.
  tst as Hesc.
  { apply took_ok; [|done]. apply (held_sinv bl _ body); try done; simpl; [|lia]. by exists rem. }
  assert (oscBEL s = bl) as Hbl by apply Hh. rewrite Hbl.
  tst as Hbel; [eapply (held_finish bl); eauto; left; by destruct bl|].
  tst as Hst1; [eapply (held_finish bl); eauto; by right; left|].
  tst as Hcan; [apply took_ok; [by apply sinv_ground|done]|].
  apply (strBody_ok bl _ _ body); try done; [|apply utf8Trail_nonneg].
  apply (pl_fresh bl body rem (strLead s)); [done..|].
  change (fresh_ok bl b). unfold fresh_ok. destruct bl; cbn [andb] in Hbel; repeat split; try done; intros; lia.
Qed.

Lemma stepStr_held_ok bl s body b :
  sinv s -> held bl s body -> st s = stStr -> dropping s = false -> str_payload bl body s -> step_ok s (stepStr s b).
Proof.
  intros (_ & Hu & _ & He & Hn) Hh Hst Hd (rem & Hpl & Hrem).
  assert (utf8Rem s = 0) as Hu0 by (apply Hu; by rewrite Hst). unfold stepStr.
  tst as Hsaw.
  { tst; [eapply (held_finish bl); eauto using same_config_refl; [cfg|by right; right]|].
    apply again_ok; [by apply sinv_esc; simpl; auto|cfg|]. unfold rank; simpl. rewrite Hst. lia. }
  specialize (Hrem eq_refl). subst rem.
  tst as Hr; [|apply (stepStr_fresh_ok bl _ _ body (strRem s)); try done; [lia|intros; lia]].
  tst as Hc; unfold in_range in Hc.
  2:{ apply (stepStr_fresh_ok bl _ (set_strRem 0 s) body (strRem s)); try done.
      unfold cont_range. lia. }
  tst as Hlead; [apply took_ok; [by apply sinv_ground|cfg]|].
  apply (strBody_ok bl _ _ body); try done; [|simpl; lia].
  simpl. apply pl_cont; [done|lia|unfold cont_range; lia|lia].
Qed.

(** ** Refinement: one step, one byte, a whole stream *)

Lemma step_refines s b : sinv s -> u8_ok b -> step_ok s (step s b).
Proof.
  intros Hinv Hb. unfold step. destruct (st s) eqn:Hst.
  - by apply stepGround_ok.
  - by apply stepEsc_ok.
  - by apply stepEscInt_ok.
  - by apply stepCSI_ok.
  - by apply stepCSIIgnore_ok.
  - by apply stepDCS_ok.
  - destruct (dropping s) eqn:Hd; [by apply step_dropping_ok|].
    pose proof Hinv as (Hsh & _). unfold shape in Hsh. rewrite Hst in Hsh.
    destruct Hsh as [?|[(Hk & Hbl & Hc & intro & body & Hp & Hi & Hl & Hpl & Hcap)
      |(Hk & Hbl & Hc & intro & params & body & Hp & Hi & Hl & Hpr & Hsx & Hpc & Hpl & Hcap)]]; [congruence| |].
    + apply (stepStr_held_ok true s body); try done. repeat (split; [done|]). by exists intro.
    + apply (stepStr_held_ok false s body); try done. repeat (split; [done|]). by exists intro, params.
Qed.

(** What a run guarantees. *)
Definition run_ok (s : Sanitizer) (m : go filtered) : Prop :=
  exists r, m = Ok r /\ sinv (fstate r) /\ same_config s (fstate r) /\
    toks (holdMax s + 1) (sixelMax s + 1) (stripLink s) (fout r).

Lemma rank_le s : (rank s <= 2)%nat.
Proof. unfold rank. repeat case_match; lia. Qed.

Lemma feed_refines fuel s b : (rank s < fuel)%nat -> sinv s -> u8_ok b -> run_ok s (feed fuel s b).
Proof.
  revert s. induction fuel as [|fuel IH]; intros s Hf Hinv Hb; [lia|]. cbn [feed].
  pose proof (step_refines s b Hinv Hb) as Hs. destruct (step s b) as [r| |]; [|done|done].
  destruct Hs as (Hi & Hc & Ht & Hcons). cbn [obind]. destruct (consumed r) eqn:Er.
  - exists {| fstate := next r; fout := emit r; fevs := evs r |}. done.
  - destruct Hcons as (Hrk & -> & ->); [done|].
    destruct (IH (next r)) as (k & -> & Hik & Hck & Htk); [lia|done|done|]. cbn [obind].
    eexists. split; [done|]. cbn. split; [done|]. split; [by eapply same_config_trans|].
    destruct Hc as (<- & <- & <- & _). done.
Qed.

Lemma Write_ok s p : sinv s -> bytes_ok p -> run_ok s (Write s p).
Proof.
  intros Hinv Hp. revert s Hinv. induction Hp as [|b p Hb Hp IH]; intros s Hinv; cbn [Write].
  { eexists. split; [done|]. cbn. split; [done|]. split; [apply same_config_refl|apply toks_nil]. }
  destruct (feed_refines redispatch_fuel s b) as (r & -> & Hi & Hc & Ht); [pose proof (rank_le s); unfold redispatch_fuel; lia|done|done|].
  cbn [obind]. destruct (IH (fstate r) Hi) as (k & -> & Hik & Hck & Htk). cbn [obind].
  eexists. split; [done|]. cbn. split; [done|]. split; [by eapply same_config_trans|].
  apply toks_app; [done|]. destruct Hc as (<- & <- & <- & _). done.
Qed.

Lemma sinv_new opts : sinv (NewWithOptions opts).
Proof. by apply sinv_ground. Qed.
