(* ===== verification/SanitizerReplay.v ===== *)
(** * SanitizerReplay: filtered output passes the filter unchanged

    The converse of the refinement of SanitizerSpec: every token of the grammar
    replays to itself from a clean state.  Together they say that filtering is
    idempotent once the caps leave room for the byte an 8-bit introducer gains;
    without that room it is not, which the last section shows. *)

From S2P Require Import Prelude Varint Reader Utf8 Base64 Sanitizer SanitizerSpec.

(** [passes s p s' o]: writing [p] in state [s] gives output [o], no callback,
    and state [s']. *)
Definition passes (s : Sanitizer) (p : bytes) (s' : Sanitizer) (o : bytes) : Prop :=
  Write s p = Ok {| fstate := s'; fout := o; fevs := [] |}.

Lemma passes_nil s : passes s [] s [].
Proof. done. Qed.

Lemma passes_cons s b p s1 o1 s2 o2 :
  step s b = took_out s1 o1 -> passes s1 p s2 o2 -> passes s (b :: p) s2 (o1 ++ o2).
Proof.
  unfold passes. intros Hs Hp. cbn [Write]. unfold redispatch_fuel. cbn [feed]. rewrite Hs.
  cbn [obind took_out consumed next emit evs fstate fout fevs]. by rewrite Hp.
Qed.

Lemma passes_one s b s1 o : step s b = took_out s1 o -> passes s [b] s1 o.
Proof. intros Hs. rewrite <- (app_nil_r o). by eapply passes_cons. Qed.

(** Writing in two chunks is writing the concatenation. *)
Lemma Write_app s p q :
  Write s (p ++ q) =
  (let* r := Write s p in
   let* k := Write (fstate r) q in
   Ok {| fstate := fstate k; fout := fout r ++ fout k; fevs := fevs r ++ fevs k |})%go.
Proof.
  revert s. induction p as [|b p IH]; intros s; cbn [Write app].
  - cbn [obind fstate fout fevs app]. by destruct (Write s q) as [[]| |].
  - destruct (feed redispatch_fuel s b) as [r| |]; cbn [obind]; [|done..]. rewrite IH.
    destruct (Write (fstate r) p) as [k| |]; cbn [obind fstate]; [|done..].
    destruct (Write (fstate k) q); cbn [obind fstate fout fevs]; [|done..]. by rewrite !app_assoc.
Qed.

Lemma passes_app s p s1 o1 q s2 o2 :
  passes s p s1 o1 -> passes s1 q s2 o2 -> passes s (p ++ q) s2 (o1 ++ o2).
Proof. unfold passes. intros Hp Hq. rewrite Write_app, Hp. cbn [obind fstate]. by rewrite Hq. Qed.

(** The state between tokens. *)
Definition clean (s : Sanitizer) : Prop := st s = stGround /\ utf8Rem s = 0 /\ strRem s = 0.

(** A token replays from [s] to itself. *)
Definition replays (s : Sanitizer) (t : bytes) : Prop :=
  exists s', passes s t s' t /\ clean s' /\ same_config s s'.

Lemma replays_app s a b : replays s a -> (forall s', clean s' -> same_config s s' -> replays s' b) -> replays s (a ++ b).
Proof.
  intros (s1 & Ha & Hc1 & Hs1) Hb. destruct (Hb s1 Hc1 Hs1) as (s2 & Hb2 & Hc2 & Hs2).
  exists s2. split; [by eapply passes_app|]. split; [done|]. by eapply same_config_trans.
Qed.

Section Replay.
Context (s : Sanitizer) (Hclean : clean s).

Lemma ground_step b : step s b = stepGround s b.
Proof. unfold step. by destruct Hclean as (-> & _). Qed.

Lemma ground_no_rune : (0 <? utf8Rem s) = false.
Proof. by destruct Hclean as (_ & -> & _). Qed.

Lemma replay_byte b : 0x20 <= b <= 0x7E \/ (b = bs \/ b = ht \/ b = lf \/ b = cr) -> replays s [b].
Proof.
  intros Hb. exists s. split; [|split; [done|apply same_config_refl]]. apply passes_one.
  rewrite ground_step. unfold stepGround. rewrite ground_no_rune.
  unfold bs, ht, lf, cr, esc, del in *.
  repeat (case_match; [try done; lia|]). lia.
Qed.

Lemma esc_step : step s esc = took (beginEsc s).
Proof. rewrite ground_step. unfold stepGround. rewrite ground_no_rune. done. Qed.
End Replay.

(** The continuation bytes of a rune whose lead is buffered. *)
Lemma replay_conts lead cs : forall s pre,
  st s = stGround -> utf8Rem s = blen cs -> cs <> [] -> utf8Buf s = lead :: pre ->
  Forall cont_range cs -> (lead = 0xC2 -> Forall (fun c => 0x9F < c) cs) ->
  passes s cs (set_utf8 0 [] s) (lead :: pre ++ cs).
Proof.
  induction cs as [|c cs IH]; intros s pre Hst Hrem Hne Hbuf Hcs Hc2; [done|].
  inversion Hcs as [|? ? Hc Hcs']; subst. rewrite blen_cons in Hrem. pose proof (blen_nonneg cs).
  assert (step s c = (let buf := utf8Buf s ++ [c] in let rem := utf8Rem s - 1 in
            if rem =? 0 then took_out (set_utf8 rem [] s) buf else took (set_utf8 rem buf s))) as Hs.
  { unfold step. rewrite Hst. unfold stepGround. unfold cont_range in Hc.
    replace (0 <? utf8Rem s) with true by lia. replace (in_range 0x80 0xBF c) with true by (unfold in_range; lia).
    rewrite Hbuf, index_head. cbn [obind]. destruct (Z.eqb_spec lead 0xC2) as [Hl|Hl]; [|done].
    specialize (Hc2 Hl). inversion Hc2; subst. by replace (c <=? 0x9F) with false by lia. }
  cbv zeta in Hs. destruct cs as [|c' cs].
  - rewrite Hrem in Hs. replace (1 + blen [] - 1) with 0 in Hs by done. rewrite Hbuf in Hs.
    by apply passes_one.
  - rewrite Hrem in Hs. rewrite blen_cons in Hrem, Hs. pose proof (blen_nonneg cs).
    replace (_ =? 0) with false in Hs by lia.
    change (lead :: pre ++ c :: c' :: cs) with ([] ++ lead :: pre ++ c :: c' :: cs).
    eapply passes_cons; [exact Hs|]. replace (pre ++ c :: c' :: cs) with ((pre ++ [c]) ++ c' :: cs) by (by rewrite <- app_assoc).
    replace (set_utf8 0 [] s) with (set_utf8 0 [] (set_utf8 (1 + (1 + blen cs) - 1) (utf8Buf s ++ [c]) s)) by done.
    apply IH; simpl; try done; [rewrite blen_cons; lia|by rewrite Hbuf|].
    intros Hl. specialize (Hc2 Hl). by inversion Hc2.
Qed.

Lemma replay_rune s lead cs :
  clean s -> 0 < utf8Trail lead -> blen cs = utf8Trail lead -> Forall cont_range cs ->
  (lead = 0xC2 -> Forall (fun c => 0x9F < c) cs) -> replays s (lead :: cs).
Proof.
  intros Hcl Hl Hlen Hcs Hc2. exists (set_utf8 0 [] (set_utf8 (utf8Trail lead) [lead] s)).
  destruct Hcl as (Hst & Hu & Hr).
  split; [|split; [by repeat split|by apply same_config_sym_ok]].
  change (lead :: cs) with ([] ++ lead :: [] ++ cs) at 2.
  eapply passes_cons; [|apply replay_conts; simpl; try done].
  - unfold step. rewrite Hst. unfold stepGround. rewrite Hu. simpl Z.ltb. cbv iota.
    assert (0xC2 <= lead) by (unfold utf8Trail, in_range in Hl; repeat case_match; lia).
    unfold esc, ht, lf, cr, bs, del, c1CSI, c1OSC, c1DCS, c1APC, c1PM, c1SOS.
    repeat (case_match; [lia|]). done.
  - intros ->. rewrite blen_nil in Hlen. lia.
Qed.

(** ESC Fe/Fs/Fp and nF sequences. *)
Lemma replay_esc s b :
  clean s -> 0x30 <= b <= 0x7E ->
  b <> 0x5B -> b <> 0x5D -> b <> 0x50 -> b <> 0x5F -> b <> 0x5E -> b <> 0x58 -> b <> 0x5C -> b <> 0x5A ->
  replays s [esc; b].
Proof.
  intros Hcl Hb ? ? ? ? ? ? ? ?. exists (set_st stGround (beginEsc s)). destruct Hcl as (Hst & Hu & Hr).
  split; [|split; [done|by apply same_config_sym_ok]].
  apply (passes_cons _ _ _ (beginEsc s) [] _ _); [by apply esc_step|].
  apply passes_one. change (stepEsc (beginEsc s) b = took_out (set_st stGround (beginEsc s)) [esc; b]).
  unfold stepEsc, in_range, esc, can, sub.
  repeat (case_match; [lia|]). case_match; [|lia]. case_match; [lia|]. done.
Qed.

Lemma replay_ints ints : forall s,
  st s = stEscInt -> Forall inter_range ints -> blen (pending s ++ ints) <= csiMaxBytes ->
  passes s ints (set_pending (pending s ++ ints) s) [].
Proof.
  induction ints as [|i ints IH]; intros s Hst Hi Hlen.
  - rewrite app_nil_r. destruct s; apply passes_nil.
  - inversion Hi as [|? ? Hi1 Hi2]; subst. unfold inter_range in Hi1.
    replace (pending s ++ i :: ints) with ((pending s ++ [i]) ++ ints) in * by (by rewrite <- app_assoc).
    change (@nil Z) with (@nil Z ++ []). eapply passes_cons.
    + unfold step. rewrite Hst. unfold stepEscInt. replace (in_range 0x20 0x2F i) with true by (unfold in_range; lia).
      cbn [pending set_pending]. rewrite blen_app in Hlen. pose proof (blen_nonneg ints).
      replace (_ <? _) with false by lia. done.
    + apply (IH (set_pending (pending s ++ [i]) s)); done.
Qed.

Lemma replay_nf s ints f :
  clean s -> ints <> [] -> Forall inter_range ints -> blen ints < csiMaxBytes -> 0x30 <= f <= 0x7E ->
  ~ (f = 0x47 /\ ints = [0x20]) -> replays s ([esc] ++ ints ++ [f]).
Proof.
  intros Hcl Hne Hi Hlen Hf Hsp. destruct ints as [|i ints]; [done|]. inversion Hi as [|? ? Hi1 Hi2]; subst.
  set (s1 := set_st stEscInt (set_pending [esc; i] (beginEsc s))).
  set (s2 := set_pending ([esc; i] ++ ints) s1). exists (set_st stGround s2).
  destruct Hcl as (Hst & Hu & Hr). split; [|split; [done|by apply same_config_sym_ok]].
  apply (passes_cons _ _ _ (beginEsc s) [] _ _); [by apply esc_step|].
  unfold inter_range in Hi1. apply (passes_cons _ _ _ s1 [] _ _).
  { change (stepEsc (beginEsc s) i = took_out s1 []). unfold stepEsc, in_range, esc, can, sub.
    repeat (case_match; [lia|]). case_match; [|lia]. done. }
  apply (passes_app _ _ s2 [] _ _ _); [apply (replay_ints ints s1); [done|done|]|].
  { simpl. rewrite blen_cons in Hlen. rewrite !blen_cons. lia. }
  apply passes_one. change (stepEscInt s2 f = took_out (set_st stGround s2) (([esc; i] ++ ints) ++ [f])).
  unfold stepEscInt, in_range. case_match; [lia|]. case_match; [|lia].
  cbn [s2 pending set_pending]. match goal with |- context [if ?c then _ else _] => destruct c eqn:Hg end; [|done]. exfalso. apply Hsp.
  apply andb_prop in Hg as [[Hg Hl]%andb_prop Hb]. change ((i =? 0x20) = true) in Hb.
  rewrite blen_app, !blen_cons, blen_nil in Hl. assert (ints = []) as -> by (apply blen_0_inv; lia).
  split; [lia|]. f_equal. lia.
Qed.

(** CSI sequences. *)
Lemma replay_params content : forall s,
  st s = stCSI -> Forall param_range content -> blen (pending s ++ content) <= csiMaxBytes ->
  passes s content (set_pending (pending s ++ content) s) [].
Proof.
  induction content as [|c content IH]; intros s Hst Hi Hlen.
  - rewrite app_nil_r. destruct s; apply passes_nil.
  - inversion Hi as [|? ? Hi1 Hi2]; subst. unfold param_range in Hi1.
    replace (pending s ++ c :: content) with ((pending s ++ [c]) ++ content) in * by (by rewrite <- app_assoc).
    change (@nil Z) with (@nil Z ++ []). eapply passes_cons.
    + unfold step. rewrite Hst. unfold stepCSI. replace (_ || _) with true by (unfold in_range; lia).
      cbn [pending set_pending]. rewrite blen_app in Hlen. pose proof (blen_nonneg content).
      replace (_ <? _) with false by lia. done.
    + apply (IH (set_pending (pending s ++ [c]) s)); done.
Qed.

(** Past the introducer. *)
Lemma replay_csi_tail s intro content f :
  st s = stCSI -> pending s = intro -> introLen s = blen intro -> utf8Rem s = 0 -> strRem s = 0 ->
  Forall param_range content -> blen (intro ++ content) <= csiMaxBytes ->
  0x40 <= f <= 0x7E -> csiRewrite content f = Ok (content, true) ->
  exists s', passes s (content ++ [f]) s' (intro ++ content ++ [f]) /\ clean s' /\ same_config s s'.
Proof.
  intros Hst Hp Hl Hu Hr Hc Hlen Hf Hrw. set (s1 := set_pending (intro ++ content) s).
  exists (set_st stGround s1). split; [|split; [done|by apply same_config_sym_ok]].
  change (intro ++ content ++ [f]) with ([] ++ intro ++ content ++ [f]).
  eapply passes_app; [apply (replay_params content s); by rewrite ?Hp|]. apply passes_one. rewrite Hp.
  fold s1. unfold step. change (st s1) with (st s). rewrite Hst.
  unfold stepCSI, in_range. case_match; [lia|]. case_match; [|lia].
  change (pending s1) with (intro ++ content). change (introLen s1) with (introLen s).
  rewrite Hl, slice_from_app, slice_to_app. cbn [obind]. rewrite Hrw. done.
Qed.

Lemma replay_csi s intro content f :
  clean s -> csi_intro intro -> Forall param_range content -> blen (intro ++ content) <= csiMaxBytes ->
  0x40 <= f <= 0x7E -> csiRewrite content f = Ok (content, true) -> replays s (intro ++ content ++ [f]).
Proof.
  intros Hcl Hi Hc Hlen Hf Hrw. pose proof Hcl as (Hst & Hu & Hr).
  destruct Hi as [-> | ->].
  - set (s1 := set_introLen 2 (set_st stCSI (set_pending [esc; 0x5B] (beginEsc s)))).
    destruct (replay_csi_tail s1 [esc; 0x5B] content f) as (s' & Hp & Hc' & Hs'); try done.
    exists s'. split; [|split; [done|exact Hs']].
    apply (passes_cons _ _ _ (beginEsc s) [] _ _); [by apply esc_step|].
    by apply (passes_cons _ _ _ s1 [] _ _).
  - destruct (replay_csi_tail (beginCSI c1CSI s) [c1CSI] content f) as (s' & Hp & Hc' & Hs'); try done.
    exists s'. split; [|split; [done|exact Hs']].
    apply (passes_cons _ _ _ (beginCSI c1CSI s) [] _ _); [|done].
    rewrite ground_step by done. unfold stepGround. rewrite ground_no_rune by done. done.
Qed.

(** ** Strings *)

(** The fields a payload byte does not touch. *)
Definition same_string (s s' : Sanitizer) : Prop :=
  same_config s s' /\ st s' = st s /\ dropping s' = dropping s /\ curCap s' = curCap s /\ oscBEL s' = oscBEL s /\
  kind s' = kind s /\ introLen s' = introLen s /\ utf8Rem s' = utf8Rem s /\ sawEsc s' = sawEsc s.

Lemma same_string_trans a b c : same_string a b -> same_string b c -> same_string a c.
Proof.
  unfold same_string. intros (? & ? & ? & ? & ? & ? & ? & ? & ?) (? & ? & ? & ? & ? & ? & ? & ? & ?).
  split; [by eapply same_config_trans|]. repeat split; congruence.
Qed.

Lemma payload_rem_nonneg bl body rem lead : payload bl body rem lead -> 0 <= rem.
Proof. induction 1; [lia|lia|apply utf8Trail_nonneg]. Qed.

(** A string being held with pending bytes [pre], between bytes. *)
Definition holding (s : Sanitizer) (rem : Z) (pre : bytes) : Prop :=
  st s = stStr /\ dropping s = false /\ sawEsc s = false /\ pending s = pre /\ strRem s = rem.

Lemma fresh_body s b :
  fresh_ok (oscBEL s) b -> stepStr_fresh s b = took (strBody b (set_strLead b (set_strRem (utf8Trail b) s))).
Proof.
  intros (Hesc & Hbel & Hst & Hcan & Hsub). unfold stepStr_fresh.
  replace (b =? esc) with false by lia. replace (b =? c1ST) with false by lia.
  replace ((b =? can) || (b =? sub)) with false by lia.
  destruct (oscBEL s); [|done]. replace (b =? bel) with false by (specialize (Hbel eq_refl); lia). done.
Qed.

Lemma strBody_holds s b pre :
  dropping s = false -> pending s = pre -> blen (pre ++ [b]) <= curCap s ->
  strBody b s = set_pending (pre ++ [b]) s.
Proof.
  intros Hd Hp Hcap. unfold strBody. rewrite Hd, Hp. cbn [pending set_pending curCap].
  by replace (_ <? _) with false by lia.
Qed.

(** A payload passes into the hold buffer byte by byte. *)
Lemma replay_payload bl body rem lead s pre :
  payload bl body rem lead -> holding s 0 pre -> oscBEL s = bl ->
  (body <> [] -> blen (pre ++ body) <= curCap s) ->
  exists s', passes s body s' [] /\ holding s' rem (pre ++ body) /\ same_string s s' /\
    (0 < rem -> strLead s' = lead).
Proof.
  intros Hpl Hs Hbl. induction Hpl as [lead|body rem lead b Hpl IH Hrem Hc Hl|body rem lead b Hpl IH Hnc Hf]; intros Hcap.
  { exists s. rewrite app_nil_r. split; [apply passes_nil|]. split; [done|]. split; [|lia]. by repeat split. }
  all: destruct IH as (s1 & Hp & (Hst1 & Hd1 & He1 & Hpe1 & Hr1) & Hss & Hl1);
    [intros _; specialize (Hcap ltac:(by destruct body)); rewrite app_assoc, blen_app in Hcap;
     pose proof (blen_nonneg [b]); lia|];
    pose proof Hss as (_ & _ & _ & Hcc & Hob & _);
    specialize (Hcap ltac:(by destruct body)); rewrite app_assoc, <- Hcc in Hcap.
  - exists (set_pending ((pre ++ body) ++ [b]) (set_strRem (rem - 1) s1)). split.
    { apply (passes_app _ _ s1 []); [done|]. apply passes_one. unfold step. rewrite Hst1. unfold stepStr. rewrite He1, Hr1.
      replace (0 <? rem) with true by lia. unfold cont_range in Hc.
      replace (in_range 0x80 0xBF b) with true by (unfold in_range; lia). rewrite Hl1 by done.
      replace ((lead =? 0xC2) && (b <=? 0x9F)) with false by lia.
      by rewrite (strBody_holds _ b (pre ++ body)). }
    split; [by rewrite app_assoc|]. split; [|intros _; by apply Hl1]. eapply same_string_trans; [exact Hss|]. by repeat split.
  - assert (exists s2, stepStr s1 b = took (strBody b (set_strLead b (set_strRem (utf8Trail b) s2))) /\
        (s2 = s1 \/ s2 = set_strRem 0 s1)) as (s2 & Hstep & Hs2).
    { unfold stepStr. rewrite He1, Hr1. destruct (Z.ltb_spec 0 rem) as [Hr|Hr].
      - replace (in_range 0x80 0xBF b) with false by (specialize (Hnc Hr); unfold cont_range in Hnc; unfold in_range; lia).
        exists (set_strRem 0 s1). split; [|by right]. apply fresh_body. simpl. congruence.
      - exists s1. split; [|by left]. apply fresh_body. congruence. }
    exists (set_pending ((pre ++ body) ++ [b]) (set_strLead b (set_strRem (utf8Trail b) s2))).
    split.
    { apply (passes_app _ _ s1 []); [done|]. apply passes_one. unfold step. rewrite Hst1, Hstep.
      rewrite (strBody_holds _ b (pre ++ body)); [done|by destruct Hs2 as [-> | ->]..]. }
    split; [rewrite app_assoc; by destruct Hs2 as [-> | ->]|].
    split; [|done]. eapply same_string_trans; [exact Hss|]. by destruct Hs2 as [-> | ->].
Qed.

(** The two terminators, from any rune position. *)
Lemma replay_term s rem pre term s' o :
  holding s rem pre -> 0 <= rem -> utf8Rem s = 0 ->
  (oscBEL s = true /\ term = [bel]) \/ term = [esc; 0x5C] ->
  finishStr (set_strRem 0 s) term = took_out s' o -> passes s term s' o.
Proof.
  intros (Hst & Hd & He & Hp & Hr) Hn Hu Ht Hf.
  assert (forall b, ~ cont_range b -> stepStr s b = stepStr_fresh (set_strRem 0 s) b) as Hfresh.
  { intros b Hb. unfold stepStr. rewrite He, Hr. unfold cont_range in Hb.
    destruct (Z.ltb_spec 0 rem); [by replace (in_range 0x80 0xBF b) with false by (unfold in_range; lia)|].
    f_equal. assert (strRem s = 0) as H0 by lia. clear - H0. destruct s; simpl in *. by subst. }
  destruct Ht as [[Hb ->] | ->].
  - apply passes_one. unfold step. rewrite Hst, Hfresh by (unfold cont_range, bel; lia).
    unfold stepStr_fresh. cbn [oscBEL set_strRem]. by rewrite Hb.
  - apply (passes_cons _ _ _ (set_sawEsc true (set_strRem 0 s)) [] _ _).
    { unfold step. rewrite Hst, Hfresh by (unfold cont_range, esc; lia). done. }
    apply passes_one. unfold step. cbn [st set_sawEsc set_strRem]. rewrite Hst. unfold stepStr.
    cbn [sawEsc set_sawEsc]. cbv iota. replace (set_sawEsc false _) with (set_strRem 0 s); [done|].
    clear - He. destruct s; simpl in *. by subst.
Qed.

Lemma out_term_id term : term = [bel] \/ term = [esc; 0x5C] -> out_term term = term.
Proof. by intros [-> | ->]. Qed.

Lemma replay_osc s body rem lead term :
  clean s -> payload true body rem lead -> fst (classifyOSC body (stripLink s)) = oscPass ->
  (body <> [] -> 2 + blen body <= holdMax s) -> term = [bel] \/ term = [esc; 0x5C] ->
  replays s ([esc; 0x5D] ++ body ++ term).
Proof.
  intros Hcl Hpl Hcls Hcap Ht. pose proof Hcl as (Hst & Hu & Hr).
  set (s1 := beginStrFromEsc kOSC true (set_pending [esc; 0x5D] (beginEsc s))).
  assert (passes s [esc; 0x5D] s1 []) as Hp1.
  { apply (passes_cons _ _ _ (beginEsc s) [] _ []); [by apply esc_step|]. by apply passes_one. }
  assert (holding s1 0 [esc; 0x5D]) as Hh1 by (by repeat split).
  destruct (replay_payload true body rem lead s1 [esc; 0x5D]) as (s2 & Hp2 & Hh2 & Hss & _);
    [done|done|done|rewrite blen_app; exact Hcap|].
  destruct Hss as (Hc2 & Hst2 & Hd2 & Hcc2 & Hob2 & Hk2 & Hil2 & Hu2 & He2).
  destruct Hh2 as (Hst2' & Hd2' & _ & Hpe2 & Hr2).
  assert (same_config s s2) as Hcfg by (eapply same_config_trans; [|exact Hc2]; cfg).
  set (s3 := set_drop false (set_st stGround (set_strRem 0 s2))). exists s3.
  split; [|split].
  - apply (passes_app _ _ s1 []); [done|]. apply (passes_app _ _ s2 []); [done|].
    apply (replay_term _ rem ([esc; 0x5D] ++ body)).
    + by repeat split.
    + by eapply payload_rem_nonneg.
    + rewrite Hu2. exact Hu.
    + destruct Ht as [-> | ->]; [left; split; [exact Hob2|done]|by right].
    + unfold finishStr, finishOSC. cbn [dropping kind pending introLen stripLink set_strRem].
      rewrite Hd2', Hk2, Hpe2, Hil2. change (introLen s1) with (blen [esc; 0x5D]).
      change (kind s1) with kOSC. cbv iota. rewrite slice_from_app. cbn [obind].
      pose proof Hcfg as (_ & _ & Hl & _). rewrite <- Hl in Hcls.
      destruct (classifyOSC body (stripLink s2)) as [disp ts]. simpl in Hcls. subst disp.
      rewrite (emitString_ok _ 0x5D c1OSC [esc; 0x5D] body) by (auto; simpl; by rewrite ?Hil2).
      cbn [obind fst snd]. by rewrite out_term_id.
  - repeat split. cbn. rewrite Hu2. exact Hu.
  - eapply same_config_trans; [exact Hcfg|cfg].
Qed.

(** The parameters of a DCS header. *)
Lemma replay_dcs_params params : forall s,
  st s = stDCS -> Forall param_range params -> (params <> [] -> blen (pending s ++ params) <= holdMax s) ->
  passes s params (set_pending (pending s ++ params) s) [].
Proof.
  induction params as [|c params IH]; intros s Hst Hi Hlen.
  - rewrite app_nil_r. destruct s; apply passes_nil.
  - inversion Hi as [|? ? Hi1 Hi2]; subst. unfold param_range in Hi1. specialize (Hlen ltac:(done)).
    replace (pending s ++ c :: params) with ((pending s ++ [c]) ++ params) in * by (by rewrite <- app_assoc).
    change (@nil Z) with (@nil Z ++ []). eapply passes_cons.
    + unfold step. rewrite Hst. unfold stepDCS. replace (_ || _) with true by (unfold in_range; lia).
      cbn [pending set_pending holdMax]. rewrite blen_app in Hlen. pose proof (blen_nonneg params).
      replace (_ <? _) with false by lia. done.
    + by apply (IH (set_pending (pending s ++ [c]) s)).
Qed.

Lemma replay_sixel s params body rem lead :
  clean s -> Forall param_range params -> sixelParams params = true ->
  (params <> [] -> 2 + blen params <= holdMax s) -> payload false body rem lead ->
  (body <> [] -> 3 + blen params + blen body <= sixelMax s) ->
  replays s ([esc; 0x50] ++ params ++ [0x71] ++ body ++ [esc; 0x5C]).
Proof.
  intros Hcl Hpr Hsx Hpc Hpl Hcap. pose proof Hcl as (Hst & Hu & Hr).
  set (s1 := set_introLen 2 (set_st stDCS (set_pending [esc; 0x50] (beginEsc s)))).
  set (s2 := set_pending ([esc; 0x50] ++ params) s1).
  set (hd := [esc; 0x50] ++ params ++ [0x71]).
  set (s3 := set_curCap (sixelMax s) (set_sawEsc false (set_oscBEL false (set_drop false
               (set_kind kDCS (set_st stStr (set_pending hd s2))))))).
  assert (passes s ([esc; 0x50] ++ params ++ [0x71]) s3 []) as Hp3.
  { apply (passes_cons _ _ _ (beginEsc s) [] _ []); [by apply esc_step|].
    apply (passes_cons _ _ _ s1 [] _ []); [done|].
    apply (passes_app _ _ s2 [] _ _ []); [apply (replay_dcs_params params s1); [done|done|rewrite blen_app; exact Hpc]|].
    apply passes_one.
    change (stepDCS s2 0x71 = took_out s3 []). unfold stepDCS, classifyDCS.
    change (in_range 48 63 113 || in_range 32 47 113) with false. change (in_range 64 126 113) with true. cbv iota.
    cbn [pending set_pending introLen sixelMax]. change (introLen s2) with (blen [esc; 0x50]).
    change (pending s2) with ([esc; 0x50] ++ params). rewrite <- app_assoc, slice_from_app. cbn [obind].
    rewrite slice_to_snoc. cbn [obind]. rewrite Hsx. done. }
  assert (holding s3 0 hd) as Hh3 by (by repeat split).
  destruct (replay_payload false body rem lead s3 hd) as (s4 & Hp4 & Hh4 & Hss & _); [done|done|done| |].
  { intros Hne. specialize (Hcap Hne). unfold hd. rewrite !blen_app, !blen_cons, blen_nil. cbn [curCap s3 set_curCap]. lia. }
  destruct Hss as (Hc4 & Hst4 & Hd4 & Hcc4 & Hob4 & Hk4 & Hil4 & Hu4 & He4).
  destruct Hh4 as (Hst4' & Hd4' & _ & Hpe4 & Hr4).
  assert (same_config s s4) as Hcfg by (eapply same_config_trans; [|exact Hc4]; cfg).
  exists (set_drop false (set_st stGround (set_strRem 0 s4))). split; [|split].
  - replace ([esc; 0x50] ++ params ++ [0x71] ++ body ++ [esc; 0x5C]) with (hd ++ body ++ [esc; 0x5C])
      by (unfold hd; by rewrite <- !app_assoc).
    apply (passes_app _ _ s3 []); [done|]. apply (passes_app _ _ s4 []); [done|].
    apply (replay_term _ rem (hd ++ body)).
    + by repeat split.
    + by eapply payload_rem_nonneg.
    + rewrite Hu4. exact Hu.
    + by right.
    + unfold finishStr. cbn [dropping kind pending introLen set_strRem]. rewrite Hd4', Hk4.
      change (kind s3) with kDCS. cbv iota.
      rewrite (emitString_ok _ 0x50 c1DCS [esc; 0x50] (params ++ [0x71] ++ body)).
      * cbn [obind]. rewrite out_term_id by (by right). unfold hd. f_equal.
        change ([esc; 0x50] ++ (params ++ [0x71] ++ body) ++ [esc; 0x5C] =
                ([esc; 0x50] ++ params ++ [0x71]) ++ body ++ [esc; 0x5C]).
        by rewrite <- !app_assoc.
      * simpl pending. rewrite Hpe4. unfold hd. by rewrite <- !app_assoc.
      * simpl introLen. by rewrite Hil4.
      * by left.
      * by right.
  - repeat split. cbn. rewrite Hu4. exact Hu.
  - eapply same_config_trans; [exact Hcfg|cfg].
Qed.

(** ** Every token, every stream *)

Lemma replay_tok s t : clean s -> tok (holdMax s) (sixelMax s) (stripLink s) t -> replays s t.
Proof.
  intros Hcl Ht. destruct Ht.
  - apply replay_byte; auto.
  - apply replay_byte; auto.
  - by apply replay_rune.
  - by apply replay_esc.
  - by apply replay_nf.
  - by apply replay_csi.
  - by eapply replay_osc.
  - by eapply replay_sixel.
Qed.

Lemma replay_toks s o : clean s -> toks (holdMax s) (sixelMax s) (stripLink s) o -> replays s o.
Proof.
  intros Hcl (ts & -> & Hts). revert s Hcl Hts. induction ts as [|t ts IH]; intros s Hcl Hts; simpl.
  - exists s. split; [apply passes_nil|]. split; [done|apply same_config_refl].
  - inversion Hts; subst. apply replays_app; [by apply replay_tok|]. intros s' Hcl' (Hh & Hx & Hl & _).
    apply IH; by rewrite ?Hh, ?Hx, ?Hl.
Qed.

Lemma clean_new opts : clean (NewWithOptions opts).
Proof. done. Qed.

(** ** Theorems *)

(** C15. The filter implements its contract on every input: from the initial
    state and for every byte stream, [Write] returns (no index or slice panic, no
    re-dispatch loop that does not end), its state stays within the invariant
    with the options unchanged, and the bytes it emits are a sequence of
    complete tokens of the safe grammar. *)
Theorem Write_refines opts p :
  bytes_ok p ->
  exists r, Write (NewWithOptions opts) p = Ok r /\ sinv (fstate r) /\
    same_config (NewWithOptions opts) (fstate r) /\
    toks (holdMax (NewWithOptions opts) + 1) (sixelMax (NewWithOptions opts) + 1) (StripHyperlinks opts) (fout r).
Proof. intros Hp. apply (Write_ok (NewWithOptions opts) p (sinv_new opts) Hp). Qed.

(** An input with a title, a colour change, a query and an unfinished rune. *)
Definition sample_stream : bytes :=
  [esc; 0x5D; 0x30; 0x3B; 0x74; bel; esc; 0x5B; 0x33; 0x31; 0x6D; 0x68; 0x69; esc; 0x5B; 0x36; 0x6E; 0xE2; 0x82].

Definition sample_opts : Options :=
  {| HoldMaxBytes := 64; SixelMaxBytes := 64; StripHyperlinks := false; OnTitle := true; OnClipboard := true |}.

Lemma sample_stream_ok : bytes_ok sample_stream.
Proof. unfold sample_stream, esc, bel. repeat constructor; unfold u8_ok; lia. Qed.

Lemma Write_refines_witness :
  (exists r, Write (NewWithOptions sample_opts) sample_stream = Ok r /\ sinv (fstate r) /\
    same_config (NewWithOptions sample_opts) (fstate r) /\ toks 65 65 false (fout r)) /\
  sanitize sample_opts sample_stream = Ok [esc; 0x5B; 0x33; 0x31; 0x6D; 0x68; 0x69].
Proof.
  split; [|vm_compute; reflexivity].
  exact (Write_refines sample_opts sample_stream sample_stream_ok).
Defined.

(** Filtering does not depend on how the stream is cut into writes: writing
    [p] and then [q] gives the state, the output and the callbacks of writing
    their concatenation. *)
Theorem Write_chunking s p q r k :
  Write s p = Ok r -> Write (fstate r) q = Ok k ->
  Write s (p ++ q) = Ok {| fstate := fstate k; fout := fout r ++ fout k; fevs := fevs r ++ fevs k |}.
Proof. intros Hp Hq. rewrite Write_app, Hp. cbn [obind]. by rewrite Hq. Qed.

Lemma Write_chunking_witness :
  sanitize sample_opts ([esc; 0x5B] ++ [0x6D]) = Ok [esc; 0x5B; 0x6D] /\
  exists k, Write (NewWithOptions sample_opts) ([esc; 0x5B] ++ [0x6D]) = Ok k.
Proof.
  split; [vm_compute; reflexivity|]. eexists.
  exact (Write_chunking (NewWithOptions sample_opts) [esc; 0x5B] [0x6D] _ _ eq_refl eq_refl).
Defined.

(** The options with room for one more byte of introducer. *)
Definition relaxed (opts : Options) : Options :=
  {| HoldMaxBytes := holdMax (NewWithOptions opts) + 1; SixelMaxBytes := sixelMax (NewWithOptions opts) + 1;
     StripHyperlinks := StripHyperlinks opts; OnTitle := OnTitle opts; OnClipboard := OnClipboard opts |}.

Lemma relaxed_caps opts :
  holdMax (NewWithOptions (relaxed opts)) = holdMax (NewWithOptions opts) + 1 /\
  sixelMax (NewWithOptions (relaxed opts)) = sixelMax (NewWithOptions opts) + 1.
Proof.
  assert (0 < holdMax (NewWithOptions opts) /\ 0 < sixelMax (NewWithOptions opts)) as [Hh Hs].
  { cbn [holdMax sixelMax NewWithOptions].
    split; case_match; try lia; [unfold DefaultHoldMaxBytes; lia|done]. }
  unfold relaxed. cbn [HoldMaxBytes SixelMaxBytes]. revert Hh Hs.
  generalize (holdMax (NewWithOptions opts)) (sixelMax (NewWithOptions opts)). intros h x Hh Hx.
  cbn [NewWithOptions holdMax sixelMax HoldMaxBytes SixelMaxBytes].
  split; case_match; lia.
Qed.

(** Filtered output is a fixed point: a second pass whose caps leave room
    for the longer 7-bit introducer passes it through byte for byte, so a relay
    behind a relay never strips what the first one let through. *)
Theorem sanitize_fixpoint opts p o :
  bytes_ok p -> sanitize opts p = Ok o -> sanitize (relaxed opts) o = Ok o.
Proof.
  intros Hp Ho. destruct (Write_ok (NewWithOptions opts) p (sinv_new opts) Hp) as (r & Hr & _ & _ & Ht).
  unfold sanitize in Ho. rewrite Hr in Ho. injection Ho as <-.
  destruct (relaxed_caps opts) as [Hh Hx].
  destruct (replay_toks (NewWithOptions (relaxed opts)) (fout r)) as (s' & Hps & _); [apply clean_new| |].
  { rewrite Hh, Hx. exact Ht. }
  unfold sanitize. by rewrite Hps.
Qed.

Lemma sanitize_fixpoint_witness :
  sanitize (relaxed sample_opts) [esc; 0x5B; 0x33; 0x31; 0x6D; 0x68; 0x69] = Ok [esc; 0x5B; 0x33; 0x31; 0x6D; 0x68; 0x69].
Proof. apply (sanitize_fixpoint sample_opts sample_stream); [exact sample_stream_ok|vm_compute; reflexivity]. Defined.

(** ** Where the code and its documentation part *)

Definition small_caps : Options :=
  {| HoldMaxBytes := 8; SixelMaxBytes := 8; StripHyperlinks := false; OnTitle := false; OnClipboard := false |}.

(** With the same caps the second pass can strip what the first passed: an OSC
    with an 8-bit introducer that exactly fills the hold cap comes out one byte
    longer. *)
Theorem sanitize_not_idempotent :
  let p := [c1OSC; 0x38; 0x3B; 0x3B; 0x61; 0x61; 0x61; 0x61; bel] in
  let o := [esc; 0x5D; 0x38; 0x3B; 0x3B; 0x61; 0x61; 0x61; 0x61; bel] in
  sanitize small_caps p = Ok o /\ sanitize small_caps o = Ok [].
Proof. split; vm_compute; reflexivity. Qed.

(** A stripped DCS is terminated by BEL when an OSC came before it, because the
    flag that OSC set is still there; the rest of the DCS then leaks as text. *)
Theorem stale_bel_leaks_dcs_payload :
  let osc := [esc; 0x5D; 0x30; 0x3B; 0x74; bel] in
  let dcs := [esc; 0x50; 0x2B; 0x71; 0x34; 0x31; bel; 0x65; 0x76; 0x69; 0x6C; esc; 0x5C] in
  sanitize small_caps dcs = Ok [] /\ sanitize small_caps osc = Ok [] /\
  sanitize small_caps (osc ++ dcs) = Ok [0x65; 0x76; 0x69; 0x6C].
Proof. repeat split; vm_compute; reflexivity. Qed.

(** The rune tracking of ground does not reject overlong forms: the output need
    not be valid UTF-8. *)
Theorem overlong_passes :
  sanitize small_caps [0xE0; 0x80; 0x9B] = Ok [0xE0; 0x80; 0x9B] /\ utf8_Valid [0xE0; 0x80; 0x9B] = false.
Proof. split; vm_compute; reflexivity. Qed.
