(* ===== verification/SanitizerPolicy.v ===== *)
(** * SanitizerPolicy: no sequence that makes a terminal answer gets through

    The security policy of the filter, written as a list of the queries a
    terminal replies to (independently of the order of the code's tests), and
    the theorem that no token of the output is one of them. *)

From S2P Require Import Prelude Varint Reader Utf8 Base64 Sanitizer SanitizerSpec.

(** The parameter numbers of a private mode sequence. *)
Definition mode_numbers (content : bytes) : list Z :=
  omap (fun f => let '(n, ok) := leadingDigits f in if ok : bool then Some n else None)
    (split_bytes 0x3B (tail content)).

(** CSI sequences that elicit a reply or switch the terminal to VT52. *)
Inductive answered : bytes -> Z -> Prop :=
| ans_dsr c : answered c 0x6E
| ans_da c : answered c 0x63
| ans_window c : answered c 0x74
| ans_xtversion c : answered (0x3E :: c) 0x71
| ans_decrqm c : 0x24 ∈ c -> answered c 0x70
| ans_kitty c : answered (0x3F :: c) 0x75
| ans_xtqmodkeys c : answered (0x3F :: c) 0x6D
| ans_xtsmgraphics c : answered (0x3F :: c) 0x53
| ans_decreqtparm c : first_is 0x3F c = false -> csiIntermediates c = [] -> answered c 0x78
| ans_locator c f : csiIntermediates c = [0x27] -> f = 0x7A \/ f = 0x7B \/ f = 0x7C -> answered c f
| ans_checksum c : csiIntermediates c = [0x2A] -> answered c 0x79
| ans_presentation c f : csiIntermediates c = [0x24] -> f = 0x77 \/ f = 0x75 -> answered c f
| ans_decrqupss c : csiIntermediates c = [0x26] -> answered c 0x75
| ans_reply_mode c n : n ∈ mode_numbers (0x3F :: c) -> n ∈ replyModes -> answered (0x3F :: c) 0x68
| ans_vt52 c n : n ∈ mode_numbers (0x3F :: c) -> n ∈ vt52Modes -> answered (0x3F :: c) 0x6C.

(** A number the filter drops is noticed. *)
Lemma filter_fields_dropped drop fields kept d :
  snd (filter_fields drop fields kept d) = d || existsb (dropped_by drop) fields.
Proof.
  revert kept d. induction fields as [|f fields IH]; intros kept d; [by rewrite orb_false_r|].
  rewrite filter_fields_cons. simpl existsb. destruct (dropped_by drop f); simpl; [rewrite IH; by rewrite orb_true_r|].
  destruct (blen f =? 0); by rewrite IH.
Qed.

Lemma filterPrivateModes_clean drop c n :
  filterPrivateModes (0x3F :: c) drop = Ok (0x3F :: c, true) -> n ∈ mode_numbers (0x3F :: c) -> n ∉ drop.
Proof.
  unfold filterPrivateModes. change (0x3F :: c) with ([0x3F] ++ c) at 1.
  rewrite (slice_from_app [0x3F] c : slice_from _ 1 = _). cbn [obind].
  pose proof (filter_fields_dropped drop (split_bytes 0x3B c) [] false) as Hd.
  pose proof (filter_fields_size drop (split_bytes 0x3B c) [] false) as Hs.
  destruct (filter_fields _ _ [] false) as [kept dropped]. specialize (Hs _ _ eq_refl).
  rewrite split_bytes_size, blen_nil in Hs. simpl in Hd. destruct dropped; cbn [negb].
  { destruct (blen kept =? 0); [done|]. intros [= ->]. cbn [negb andb Z.b2z] in Hs. lia. }
  intros _. unfold mode_numbers. cbn [tail]. rewrite list_elem_of_omap. intros (f & Hf & Hn) Hin.
  symmetry in Hd. enough (existsb (dropped_by drop) (split_bytes 0x3B c) = true) by congruence.
  apply existsb_exists. exists f. split; [by apply list_elem_of_In|]. unfold dropped_by.
  destruct (leadingDigits f) as [m ok]. destruct ok; [|done]. injection Hn as ->.
  apply existsb_exists. exists n. split; [by apply list_elem_of_In | apply Z.eqb_refl].
Qed.

Lemma has_byte_elem x c : x ∈ c -> has_byte x c = true.
Proof. intros Hx. apply existsb_exists. exists x. split; [by apply list_elem_of_In | apply Z.eqb_refl]. Qed.

(** A sequence the rewriting leaves as it is is never an answered one. *)
Lemma rewrite_stable_not_answered c f : csiRewrite c f = Ok (c, true) -> ~ answered c f.
Proof.
  intros Hrw Ha. revert Hrw. destruct Ha as [| | | | |? |? |? |? Hq Hi|? ? Hi Hf|? Hi|? ? Hi Hf|? Hi|c n Hn Hd|c n Hn Hd].
  1-3: done.
  1: done.
  - unfold csiRewrite, csiPasses. simpl. by rewrite has_byte_elem.
  - unfold csiRewrite, csiPasses. done.
  - unfold csiRewrite, csiPasses. done.
  - unfold csiRewrite, csiPasses. done.
  - unfold csiRewrite, csiPasses. simpl. rewrite Hq, Hi. done.
  - unfold csiRewrite, csiPasses. rewrite Hi. destruct Hf as [-> | [-> | ->]]; simpl; rewrite ?andb_false_r; done.
  - unfold csiRewrite, csiPasses. rewrite Hi. simpl. rewrite !andb_false_r. done.
  - unfold csiRewrite, csiPasses. rewrite Hi. destruct Hf as [-> | ->]; simpl; rewrite ?andb_false_r; [done|].
    by destruct (first_is _ _).
  - unfold csiRewrite, csiPasses. rewrite Hi. simpl. rewrite ?andb_false_r. by destruct (first_is _ _).
  - rewrite csiRewrite_h. simpl. intros H. by eapply filterPrivateModes_clean.
  - rewrite csiRewrite_l. simpl. intros H. by eapply filterPrivateModes_clean.
Qed.

(** ** Callbacks *)

(** What a callback may be handed: a title without escapes or control runes; a
    non-empty clipboard text with no control byte but tab and line ends. *)
Definition clip_byte (b : Z) : Prop := b = ht \/ b = lf \/ b = cr \/ 0x20 <= b /\ b <> del.

Definition event_ok (e : event) : Prop :=
  match e with
  | EvTitle t => validateRuneBytes t = None
  | EvClipboard t => t <> [] /\ Forall clip_byte t
  end.

Lemma rune_bytes_high r : 0x80 <= r -> Forall (fun b => 0x80 <= b) (rune_bytes r).
Proof.
  intros Hr. unfold rune_bytes.
  repeat case_match; repeat constructor; Z.to_euclidean_division_equations; lia.
Qed.

Lemma clip_rune_bytes r : clip_keep r = true -> Forall clip_byte (rune_bytes r).
Proof.
  unfold clip_keep, in_range. intros Hk. destruct (Z.le_gt_cases 0x80 r) as [Hr|Hr].
  - eapply Forall_impl; [by apply rune_bytes_high|]. intros b Hb. cbv beta in Hb. unfold clip_byte, del. lia.
  - unfold rune_bytes. replace (r <=? 0x7F) with true by lia. apply Forall_singleton.
    unfold clip_byte, ht, lf, cr, del in *. lia.
Qed.

Lemma trim_newline_prefix t : exists n, trim_newline t = take n t.
Proof. unfold trim_newline, drop_last. repeat case_match; eauto. exists (length t). by rewrite take_ge. Qed.

Lemma DecodeClipboardSet_ok content t : DecodeClipboardSet content = Some t -> event_ok (EvClipboard t).
Proof.
  unfold DecodeClipboardSet. destruct (clipboardSet content) as [data|]; [|done].
  destruct (_ =? 0); [done|]. destruct (DecodeString _ data) as [raw|]; [|done].
  destruct (negb _); [done|]. destruct (blen (trim_newline _) =? 0) eqn:Hz; [done|]. intros [= <-].
  split; [by intros H; rewrite H in Hz|]. destruct (trim_newline_prefix (utf8_text (List.filter clip_keep (map fst (decode_all raw))))) as [n ->].
  clear Hz. apply Forall_take. unfold utf8_text.
  induction (map fst (decode_all raw)) as [|r rs IH]; simpl; [constructor|].
  destruct (clip_keep r) eqn:Hk; [|done]. simpl. apply Forall_app. split; [by apply clip_rune_bytes|done].
Qed.

Lemma UIString_safe t : bytes_ok t -> validateRuneBytes (UIString t TitleChipMaxLen) = None.
Proof.
  intros Ht. pose proof (Forall_take _ (Z.to_nat TitleChipMaxLen) _ (ui_runes_printable t Ht)) as Hp.
  apply validateRuneBytes_iff; rewrite UIString_eq by done; [|by eexists].
  apply utf8_text_bytes. eapply Forall_impl; [exact Hp|]. by intros r [? _].
Qed.

(** A step stores bytes of the input and hands out safe events. *)
Definition ev_ok (m : go stepped) : Prop :=
  match m with Ok r => bytes_ok (pending (next r)) /\ Forall event_ok (evs r) | _ => True end.

Lemma slice_from_bytes {E} (l : bytes) n t : bytes_ok l -> slice_from (E := E) l n = Ok t -> bytes_ok t.
Proof. unfold slice_from. intros Hl. destruct (_ && _); [|done]. intros [= <-]. by apply Forall_drop. Qed.

Lemma finishStr_ev s term : bytes_ok (pending s) -> ev_ok (finishStr s term).
Proof.
  intros Hp. unfold finishStr, finishOSC. destruct (dropping s); [by split|].
  destruct (kind s); try (by split).
  - destruct (slice_from _ _) as [content| |] eqn:Hc; cbn [obind]; [|done..].
    apply slice_from_bytes in Hc; [|done].
    destruct (classifyOSC content _) as [[] ts]; cbn [obind].
    + destruct (onClip s); [destruct (DecodeClipboardSet content) eqn:Hd|]; (split; [done|]); cbn; try done.
      apply Forall_singleton. by apply (DecodeClipboardSet_ok content).
    + destruct (emitString s term); cbn [obind]; [by split|done..].
    + destruct (onTitle s); [|by split].
      destruct (_ && _); cbn [obind].
      * destruct (slice_from content ts) as [t| |] eqn:Ht; cbn [obind]; [|done..].
        split; [done|]. apply Forall_singleton. apply UIString_safe. by eapply slice_from_bytes.
      * split; [done|]. apply Forall_singleton. apply UIString_safe. constructor.
  - destruct (emitString s term); cbn [obind]; [by split|done..].
Qed.

Section Events.
Context (s : Sanitizer) (b : Z) (Hp : bytes_ok (pending s)) (Hb : u8_ok b).

Lemma grown_bytes : bytes_ok (pending s ++ [b]).
Proof. apply bytes_ok_app. split; [done | by apply Forall_singleton]. Qed.

Lemma one_byte : bytes_ok [b].
Proof. by apply Forall_singleton. Qed.

Lemma esc_byte : bytes_ok [esc].
Proof. apply Forall_singleton. unfold u8_ok, esc. lia. Qed.

Ltac leaf :=
  first [ exact I
        | split; [first [exact Hp | exact grown_bytes | exact one_byte | exact esc_byte | apply Forall_nil_2]
                 | apply Forall_nil_2] ].

Ltac leaves := repeat match goal with |- ev_ok (if ?c then _ else _) => destruct c end; try leaf.

Lemma stepStr_fresh_ev s' : bytes_ok (pending s') -> ev_ok (stepStr_fresh s' b).
Proof.
  intros Hp'. unfold stepStr_fresh.
  repeat match goal with |- ev_ok (if ?c then _ else _) => destruct c end;
    try (by apply finishStr_ev); try (by split).
  split; [|constructor]. unfold took, strBody. cbn [next dropping set_strLead set_strRem].
  destruct (dropping s'); [done|]. cbn [pending set_pending curCap set_strLead set_strRem].
  destruct (_ <? _); [constructor|]. cbn. apply bytes_ok_app. split; [done|exact one_byte].
Qed.

Lemma step_events : ev_ok (step s b).
Proof.
  unfold step. destruct (st s).
  - unfold stepGround. leaves. destruct (index _ _) as [lead| |]; cbn [obind]; leaves.
  - unfold stepEsc. leaves.
  - unfold stepEscInt. leaves.
  - unfold stepCSI. leaves.
    destruct (slice_from _ _) as [content| |]; cbn [obind]; [|done..].
    destruct (csiRewrite _ _) as [rw| |]; cbn [obind]; [|done..]. leaves.
    destruct (slice_to _ _) as [intro| |]; cbn [obind]; leaf.
  - unfold stepCSIIgnore. leaves.
  - unfold stepDCS, classifyDCS. leaves.
    destruct (slice_from _ _) as [h| |]; cbn [obind]; [|done..].
    destruct (slice_to _ _) as [ps| |]; cbn [obind]; [|done..]. destruct (_ && _); cbn [obind]; leaf.
  - unfold stepStr. destruct (sawEsc s); [destruct (b =? 0x5C); [by apply finishStr_ev|leaf]|].
    destruct (0 <? strRem s); [|by apply stepStr_fresh_ev].
    destruct (in_range 0x80 0xBF b); [|by apply stepStr_fresh_ev].
    destruct (_ && _); [leaf|]. split; [|constructor]. unfold took, strBody. cbn [next dropping set_strRem].
    destruct (dropping s); [done|]. cbn [pending set_pending curCap set_strRem].
    destruct (_ <? _); [constructor|]. exact grown_bytes.
Qed.
End Events.

Lemma feed_events fuel s b r :
  bytes_ok (pending s) -> u8_ok b -> feed fuel s b = Ok r ->
  bytes_ok (pending (fstate r)) /\ Forall event_ok (fevs r).
Proof.
  revert s r. induction fuel as [|fuel IH]; intros s r Hp Hb; cbn [feed]; [done|].
  pose proof (step_events s b Hp Hb) as Hs. destruct (step s b) as [q| |]; cbn [obind]; [|done..].
  destruct Hs as [Hq He]. destruct (consumed q); [by intros [= <-]|].
  destruct (feed fuel (next q) b) as [k| |] eqn:Hk; cbn [obind]; [|done..]. intros [= <-]. cbn.
  destruct (IH _ _ Hq Hb Hk). split; [done|]. by apply Forall_app.
Qed.

Lemma Write_events s p r :
  bytes_ok (pending s) -> bytes_ok p -> Write s p = Ok r -> Forall event_ok (fevs r).
Proof.
  intros Hs Hp. revert s r Hs. induction Hp as [|b p Hb Hp IH]; intros s r Hs; cbn [Write].
  { by intros [= <-]. }
  destruct (feed _ s b) as [q| |] eqn:Hq; cbn [obind]; [|done..].
  apply feed_events in Hq as [Hq He]; [|done|done].
  destruct (Write (fstate q) p) as [k| |] eqn:Hk; cbn [obind]; [|done..]. intros [= <-]. cbn.
  apply Forall_app. split; [done|]. by eapply IH.
Qed.

(** ** Theorems *)

(** The 7- and 8-bit CSI tokens of the grammar are not answered, and its OSC
    tokens are hyperlinks (unless stripped) or colour settings. *)
Definition token_policy (strip : bool) (t : bytes) : Prop :=
  (forall intro content f, csi_intro intro -> t = intro ++ content ++ [f] -> ~ answered content f) /\
  (forall rest, t = [esc; 0x5D] ++ rest ->
     exists ps nlen, leadingOSCNumber rest = (ps, nlen, true) /\
       (ps = 8 /\ strip = false \/ (ps = 4 \/ ps = 10 \/ ps = 11 \/ ps = 12))) /\
  head t <> Some c1OSC /\ head t <> Some c1DCS /\ head t <> Some c1APC /\ head t <> Some c1PM /\ head t <> Some c1SOS.

Lemma digits_prefix_app c rest :
  match rest with x :: _ => digit_byte x = false | [] => True end ->
  digits_prefix (c ++ rest) = digits_prefix c.
Proof.
  intros Hr. induction c as [|x c IH]; simpl; [by destruct rest as [|y rest]; [|simpl; rewrite Hr]|].
  by rewrite IH.
Qed.

(** The terminator does not extend the number. *)
Lemma leadingOSCNumber_term body term :
  term = [bel] \/ term = [esc; 0x5C] -> leadingOSCNumber (body ++ term) = leadingOSCNumber body.
Proof.
  intros Ht. unfold leadingOSCNumber. rewrite digits_prefix_app; [done|]. by destruct Ht as [-> | ->].
Qed.

Lemma classifyOSC_pass body strip :
  fst (classifyOSC body strip) = oscPass ->
  exists ps nlen, leadingOSCNumber body = (ps, nlen, true) /\
    (ps = 8 /\ strip = false \/ (ps = 4 \/ ps = 10 \/ ps = 11 \/ ps = 12)).
Proof.
  unfold classifyOSC. destruct (leadingOSCNumber body) as [[ps nlen] ok]. destruct ok; [|done]. cbn [negb].
  intros H. exists ps, nlen. split; [done|]. revert H.
  destruct (ps =? 52); [done|]. destruct (Z.eqb_spec ps 8); [destruct strip; [done|auto]|].
  destruct (_ || _) eqn:?; [done|].
  match goal with |- context [if ?c then _ else _] => destruct c eqn:? end; [right; lia|done].
Qed.

Lemma last_snoc_inj {A} (l k : list A) x y : l ++ [x] = k ++ [y] -> l = k /\ x = y.
Proof. apply app_inj_tail. Qed.

Lemma tok_policy h sx strip t : tok h sx strip t -> token_policy strip t.
Proof.
  intros Ht. unfold token_policy. destruct Ht as [b Hb|b Hb|lead cs Hl Hlen Hcs Hc2|b Hb|ints f Hne Hi Hlen Hf Hsp
    |intro content f Hi Hc Hlen Hf Hrw|body rem lead term Hpl Hcls Hcap Hterm|params body rem lead Hp Hsx Hpc Hpl Hcap].
  - split; [|split; [|repeat split; simpl; intros [= ->]; unfold c1OSC, c1DCS, c1APC, c1PM, c1SOS in *; lia]].
    + intros intro content f [-> | ->]; [by destruct content|]. intros [= -> H]. by destruct content.
    + by intros rest [=].
  - split; [|split; [|repeat split; simpl; intros [= ->]; unfold bs, ht, lf, cr, c1OSC, c1DCS, c1APC, c1PM, c1SOS in *; lia]].
    + intros intro content f [-> | ->]; [by destruct content|]. intros [= -> H]. by destruct content.
    + by intros rest [=].
  - split; [|split; [|repeat split; simpl; intros [= ->]; by vm_compute in Hl]].
    + intros intro content f [-> | ->]; intros [= -> _]; by vm_compute in Hl.
    + intros rest [= -> _]; by vm_compute in Hl.
  - split; [|split; [|done]].
    + intros intro content f [-> | ->]; [by intros [= ->]|by intros [=]].
    + by intros rest [= ->].
  - destruct ints as [|i ints]; [done|]. inversion Hi as [|? ? Hi1 _]; subst. unfold inter_range in Hi1.
    split; [|split; [|done]].
    + intros intro content f' [-> | ->]; [intros [= -> _]; lia|by intros [=]].
    + intros rest [= -> _]; lia.
  - split; [|split].
    + intros intro' content' f' Hi' Heq.
      assert (content' = content /\ f' = f) as [-> ->].
      { destruct Hi as [-> | ->], Hi' as [-> | ->]; injection Heq; try done;
          intros Heq'; apply last_snoc_inj in Heq'; naive_solver. }
      by apply rewrite_stable_not_answered.
    + intros rest Heq. by destruct Hi as [-> | ->].
    + by destruct Hi as [-> | ->].
  - split; [|split; [|done]].
    + by intros intro content f [-> | ->].
    + intros rest [= <-]. rewrite leadingOSCNumber_term by done. by apply classifyOSC_pass.
  - split; [|split; [|done]].
    + by intros intro content f [-> | ->].
    + by intros rest [=].
Qed.


