(* ===== verification/Ring.v ===== *)
(** * Ring: the bounded replay buffer ([src/ptyhost/ring.go], type [ring])

    The frames a host session keeps for replay, oldest first, within a byte
    budget.  The contract is stated against the whole history of appended frames:
    the ring is a suffix of it, and [replayFrom] either returns exactly what a
    reader at the given position still misses or says that it no longer can. *)

From S2P Require Import Prelude Varint Reader Frame.

Record ring := { maxBytes : Z; curBytes : Z; frames : list Frame }.

Definition newRing (mb : Z) : ring := {| maxBytes := mb; curBytes := 0; frames := [] |}.

(** The eviction loop of [append]: [for len(r.frames) > 1 && r.curBytes > r.maxBytes]. *)
Fixpoint evict (mb cur : Z) (fs : list Frame) : Z * list Frame :=
  match fs with
  | f :: rest =>
      if (0 <? blen rest) && (mb <? cur) then evict mb (cur - blen (Payload f)) rest else (cur, fs)
  | [] => (cur, fs)
  end.

Definition ring_append (r : ring) (f : Frame) : ring :=
  let '(cur, fs) := evict (maxBytes r) (curBytes r + blen (Payload f)) (frames r ++ [f]) in
  {| maxBytes := maxBytes r; curBytes := cur; frames := fs |}.

Definition firstSeq (r : ring) : Z :=
  match frames r with [] => 0 | f :: _ => Seq f end.

Definition lastSeq (r : ring) : Z :=
  match last (frames r) with None => 0 | Some f => Seq f end.

(** [first-1] is unsigned: it wraps to the largest value when [first] is 0. *)
Definition replayFrom (r : ring) (afterSeq : Z) : list Frame * bool :=
  match frames r with
  | [] => ([], afterSeq =? 0)
  | _ =>
      let first := firstSeq r in
      let last := lastSeq r in
      if afterSeq =? 0 then (frames r, true)
      else if (afterSeq <? u64 (first - 1)) || (last <? afterSeq) then ([], false)
      else (List.filter (fun f => afterSeq <? Seq f) (frames r), true)
  end.

(** ** Lemmas *)

Definition payload_bytes (fs : list Frame) : Z := foldr (fun f n => blen (Payload f) + n) 0 fs.

(** [seq_from k fs]: the frames carry the sequence numbers k, k+1, ... *)
Fixpoint seq_from (k : Z) (fs : list Frame) : Prop :=
  match fs with [] => True | f :: fs' => Seq f = k /\ seq_from (k + 1) fs' end.

Lemma seq_from_app k a b : seq_from k (a ++ b) <-> seq_from k a /\ seq_from (k + blen a) b.
Proof.
  revert k. induction a as [|f a IH]; intros k; simpl; [rewrite blen_nil, Z.add_0_r; tauto|].
  rewrite IH, blen_cons. replace (k + 1 + blen a) with (k + (1 + blen a)) by lia. tauto.
Qed.

Lemma payload_bytes_app a b : payload_bytes (a ++ b) = payload_bytes a + payload_bytes b.
Proof. unfold payload_bytes. induction a as [|f a IH]; simpl; [done|]. rewrite IH. lia. Qed.

Lemma payload_bytes_nonneg fs : 0 <= payload_bytes fs.
Proof. unfold payload_bytes. induction fs as [|f fs IH]; simpl; [done|]. pose proof (blen_nonneg (Payload f)). lia. Qed.

(** Eviction drops a prefix, keeps the byte count, and stops within the budget
    or at one frame. *)
Lemma evict_spec mb fs cur c' fs' :
  cur = payload_bytes fs -> evict mb cur fs = (c', fs') ->
  exists out, fs = out ++ fs' /\ c' = payload_bytes fs' /\ (c' <= mb \/ blen fs' <= 1) /\ (fs <> [] -> fs' <> []).
Proof.
  revert cur. induction fs as [|f fs IH]; intros cur Hc; cbn [evict].
  - intros [= <- <-]. exists []. repeat split; auto. right. done.
  - destruct fs as [|g fs].
    + intros [= <- <-]. exists []. repeat split; auto. right. unfold blen. simpl. lia.
    + replace (0 <? blen (g :: fs)) with true by (rewrite blen_cons; pose proof (blen_nonneg fs); lia).
      cbn [andb]. destruct (Z.ltb_spec mb cur) as [Hlt|Hge].
      * intros He. destruct (IH (cur - blen (Payload f)) ltac:(rewrite Hc; unfold payload_bytes; simpl; lia) He) as (out & Hfs & ? & ? & Hne).
        exists (f :: out). rewrite Hfs. split; [done|]. split; [done|]. split; [done|]. intros _. by apply Hne.
      * intros [= <- <-]. exists []. repeat split; auto.
Qed.

Lemma seq_from_elem k fs f : seq_from k fs -> f ∈ fs -> k <= Seq f < k + blen fs.
Proof.
  revert k. induction fs as [|g fs IH]; intros k Hs Hf; [by apply not_elem_of_nil in Hf|].
  simpl in Hs. destruct Hs as [Hg Hs]. rewrite blen_cons. pose proof (blen_nonneg fs).
  apply elem_of_cons in Hf as [-> | Hf]; [lia|]. specialize (IH _ Hs Hf). lia.
Qed.

Lemma seq_from_last k fs f : seq_from k fs -> last fs = Some f -> Seq f = k + blen fs - 1.
Proof.
  intros Hs Hl. apply last_Some in Hl as [l' ->]. apply seq_from_app in Hs as [_ [Hs _]].
  rewrite blen_app, Hs. unfold blen. simpl. lia.
Qed.

(** Selecting by sequence number is dropping a prefix. *)
Lemma seq_filter k fs a :
  seq_from k fs -> List.filter (fun f => a <? Seq f) fs = drop (Z.to_nat (a + 1 - k)) fs.
Proof.
  revert k. induction fs as [|f fs IH]; intros k Hs; simpl; [by rewrite drop_nil|].
  destruct Hs as [Hf Hs]. rewrite (IH _ Hs). destruct (Z.ltb_spec a (Seq f)) as [Hlt|Hge].
  - replace (Z.to_nat (a + 1 - (k + 1))) with 0%nat by lia.
    replace (Z.to_nat (a + 1 - k)) with 0%nat by lia. done.
  - replace (Z.to_nat (a + 1 - k)) with (S (Z.to_nat (a + 1 - (k + 1)))) by lia. done.
Qed.

(** ** The ring against the history *)

(** [ring_of r hist]: [r] holds the newest frames of the history [hist], which is
    numbered from [HostSeqStart]. *)
Definition ring_of (r : ring) (hist : list Frame) : Prop :=
  seq_from HostSeqStart hist /\
  (exists evicted, hist = evicted ++ frames r) /\
  curBytes r = payload_bytes (frames r) /\
  (curBytes r <= maxBytes r \/ blen (frames r) <= 1) /\
  (hist <> [] -> frames r <> []).

Lemma ring_of_new mb : ring_of (newRing mb) [].
Proof. repeat split; [by exists []|by right|done]. Qed.

Lemma ring_of_append r hist f :
  ring_of r hist -> Seq f = HostSeqStart + blen hist -> ring_of (ring_append r f) (hist ++ [f]).
Proof.
  intros (Hseq & (ev & Hev) & Hcur & _ & _) Hf. unfold ring_append.
  destruct (evict _ _ _) as [c fs] eqn:He.
  apply evict_spec in He as (out & Hfs & Hc & Hb & Hne); [|rewrite payload_bytes_app, Hcur; cbn; lia].
  split; [|split; [|split; [|split]]]; cbn.
  - apply seq_from_app. split; [done|]. by split.
  - exists (ev ++ out). by rewrite Hev, <- !app_assoc, <- Hfs.
  - done.
  - done.
  - intros _. apply Hne. by destruct (frames r).
Qed.

Lemma ring_of_seq r hist evicted :
  ring_of r hist -> hist = evicted ++ frames r -> seq_from (HostSeqStart + blen evicted) (frames r).
Proof. intros (Hseq & _) ->. by apply seq_from_app in Hseq as [_ ?]. Qed.

Lemma firstSeq_eq r hist evicted :
  ring_of r hist -> hist = evicted ++ frames r -> frames r <> [] -> firstSeq r = HostSeqStart + blen evicted.
Proof.
  intros Hr He Hne. pose proof (ring_of_seq _ _ _ Hr He) as Hs. unfold firstSeq.
  destruct (frames r); [done|]. by destruct Hs.
Qed.

Lemma lastSeq_eq r hist : ring_of r hist -> hist <> [] -> lastSeq r = HostSeqStart + blen hist - 1.
Proof.
  intros Hr Hne. pose proof Hr as (_ & (ev & Hev) & _ & _ & Hf). specialize (Hf Hne).
  pose proof (ring_of_seq _ _ _ Hr Hev) as Hs. unfold lastSeq.
  destruct (last (frames r)) as [f|] eqn:Hl; [|by apply last_None in Hl].
  rewrite (seq_from_last _ _ _ Hs Hl), Hev, blen_app. lia.
Qed.

(** What a replay returns. *)
Lemma replayFrom_spec r hist a :
  ring_of r hist -> blen hist < 2 ^ 64 - 1 -> 0 < a < 2 ^ 64 ->
  replayFrom r a =
    (if (blen hist - blen (frames r) <=? a) && (a <=? blen hist) && (0 <? blen hist)
     then (drop (Z.to_nat a) hist, true) else ([], false)).
Proof.
  intros Hr Hlen Ha. pose proof Hr as (_ & (ev & Hev) & _ & _ & Hne). unfold replayFrom.
  destruct (frames r) as [|f fs] eqn:Hfs.
  { destruct hist; [|by exfalso; apply Hne]. rewrite andb_false_r. f_equal. lia. }
  assert (hist <> []) as Hh by (rewrite Hev; by destruct ev). rewrite <- Hfs in *.
  assert (frames r <> []) as Hf by (by rewrite Hfs).
  rewrite (firstSeq_eq r hist ev) by done. rewrite (lastSeq_eq r hist) by done.
  pose proof (ring_of_seq _ _ _ Hr Hev) as Hs. unfold HostSeqStart in *.
  assert (blen hist = blen ev + blen (frames r)) as Hl by (by rewrite Hev, blen_app).
  pose proof (blen_nonneg ev). assert (0 < blen (frames r)) by (rewrite Hfs, blen_cons; pose proof (blen_nonneg fs); lia).
  rewrite u64_small by (unfold u64_ok; lia).
  replace (a =? 0) with false by lia.
  replace ((a <? 1 + blen ev - 1) || (1 + blen hist - 1 <? a)) with (negb ((blen hist - blen (frames r) <=? a) && (a <=? blen hist) && (0 <? blen hist)))
    by lia.
  destruct (_ && _ && _) eqn:Hin; cbn [negb]; [|done]. f_equal.
  rewrite (seq_filter _ _ _ Hs), Hev, drop_app. rewrite (drop_ge ev) by (unfold blen in *; lia). simpl. f_equal.
  unfold blen in *. lia.
Qed.
