(* ===== verification/FlowGate.v ===== *)
(** * FlowGate: output back-pressure ([src/ptyhost/flowcontrol.go], the
    [subscription] of [src/ptyhost/ring.go])

    The gate that stops the PTY reader while a subscriber is saturated, and the
    per-subscriber queue that reports its crossings to it.  A nil gate (flow
    control off) is [None].  One operation here is one critical section under
    the subscription's lock; the gate calls it makes are atomic under the gate's
    own lock and the first of them, [account], commutes with the others
    ([account_saturate_comm], [account_relieve_comm]), so that running a section
    at once loses no behaviour.  Byte counts are unbounded: they count memory
    that is allocated. *)

From S2P Require Import Prelude Varint Reader Frame Ring.

Definition DefaultRingBytes : Z := Z.shiftl 8 20.
Definition DefaultOutputHighWaterBytes : Z := DefaultRingBytes.
Definition defaultOutputLowWaterDivisor : Z := 4.
(** 15 minutes, in nanoseconds *)
Definition DefaultOutputPauseBound : Z := 15 * 60 * 1000000000.
Definition outputFrameOverheadBytes : Z := 64.

Record OutputFlowControl := { HighWaterBytes : Z; LowWaterBytes : Z; PauseBound : Z }.

(** The zero [time.Time] of [since] is [None]; [releases] counts the closed
    resume latches. *)
Record outputGate := {
  high : Z; low : Z; bound : Z;
  g_pending : Z;
  g_saturated : Z;
  paused : bool;
  since : option Z;
  forced : bool;
  releases : Z
}.

Definition newOutputGate (cfg : option OutputFlowControl) : option outputGate :=
  match cfg with
  | None => None
  | Some cfg =>
      let high := if HighWaterBytes cfg <=? 0 then DefaultOutputHighWaterBytes else HighWaterBytes cfg in
      let low := if (LowWaterBytes cfg <=? 0) || (high <=? LowWaterBytes cfg)
                 then Z.quot high defaultOutputLowWaterDivisor else LowWaterBytes cfg in
      let bound := if PauseBound cfg <=? 0 then DefaultOutputPauseBound else PauseBound cfg in
      Some {| high := high; low := low; bound := bound; g_pending := 0; g_saturated := 0;
              paused := false; since := None; forced := false; releases := 0 |}
  end.

Definition highWater (g : option outputGate) : Z := match g with Some g => high g | None => 0 end.
Definition lowWater (g : option outputGate) : Z := match g with Some g => low g | None => 0 end.

Definition account (delta : Z) (g : option outputGate) : option outputGate :=
  match g with
  | None => None
  | Some g =>
      if delta =? 0 then Some g
      else Some {| high := high g; low := low g; bound := bound g; g_pending := g_pending g + delta;
                   g_saturated := g_saturated g; paused := paused g; since := since g; forced := forced g;
                   releases := releases g |}
  end.

Definition saturate (now : Z) (g : option outputGate) : option outputGate :=
  match g with
  | None => None
  | Some g =>
      let n := g_saturated g + 1 in
      let entered := (n =? 1) && negb (paused g) && negb (forced g) in
      Some {| high := high g; low := low g; bound := bound g; g_pending := g_pending g; g_saturated := n;
              paused := if entered then true else paused g;
              since := if entered then Some now else since g; forced := forced g; releases := releases g |}
  end.

Definition relieve (g : option outputGate) : option outputGate :=
  match g with
  | None => None
  | Some g =>
      let n := if 0 <? g_saturated g then g_saturated g - 1 else g_saturated g in
      let released := (n =? 0) && (paused g || forced g) in
      Some {| high := high g; low := low g; bound := bound g; g_pending := g_pending g; g_saturated := n;
              paused := if released then false else paused g;
              since := if released then None else since g;
              forced := if released then false else forced g;
              releases := if released then releases g + 1 else releases g |}
  end.

Definition forceRelease (g : option outputGate) : option outputGate :=
  match g with
  | None => None
  | Some g =>
      if paused g then
        Some {| high := high g; low := low g; bound := bound g; g_pending := g_pending g;
                g_saturated := g_saturated g; paused := false; since := since g; forced := true;
                releases := releases g + 1 |}
      else Some g
  end.

(** One turn of the [await] loop at time [now]: read on, give up on the pause, or
    wait for the latch or for the remaining time. *)
Inductive await_turn := AwaitRead | AwaitForce | AwaitWait (remaining : Z).

Definition await (now : Z) (g : option outputGate) : await_turn :=
  match g with
  | None => AwaitRead
  | Some g =>
      if negb (paused g) then AwaitRead
      else
        let remaining := bound g - (now - default 0 (since g)) in
        if remaining <=? 0 then AwaitForce else AwaitWait remaining
  end.

(** ** The subscription *)

(** [inflight] is the frame the pump took off the queue and is offering on the
    channel; [delivered] and [closed] are what the receiver saw; [base] is the
    position in the host's history at which the feed starts. *)
Record subscription := {
  queue : list Frame;
  inflight : option Frame;
  queued : Z;
  saturated : bool;
  abandoned : bool;
  ended : bool;
  stop : bool;
  attached : bool;
  delivered : list Frame;
  closed : bool;
  base : nat
}.

Definition subscriptionFrameCost (f : Frame) : Z := outputFrameOverheadBytes + blen (Payload f).

Definition queue_cost (fs : list Frame) : Z := foldr (fun f n => subscriptionFrameCost f + n) 0 fs.

Definition set_flow (q : Z) (sat : bool) (s : subscription) : subscription :=
  {| queue := queue s; inflight := inflight s; queued := q; saturated := sat; abandoned := abandoned s;
     ended := ended s; stop := stop s; attached := attached s; delivered := delivered s; closed := closed s;
     base := base s |}.

Definition newSubscription (now : Z) (replay : list Frame) (pos : nat) (g : option outputGate)
  : subscription * option outputGate :=
  let s := {| queue := replay; inflight := None; queued := queue_cost replay; saturated := false;
              abandoned := false; ended := false; stop := false; attached := false; delivered := [];
              closed := false; base := pos |} in
  let g := account (queued s) g in
  let high := highWater g in
  if (0 <? high) && (high <? queued s) then (set_flow (queued s) true s, saturate now g) else (s, g).

Definition growLocked (now cost : Z) (s : subscription) (g : option outputGate) : subscription * option outputGate :=
  let q := queued s + cost in
  let g := account cost g in
  let high := highWater g in
  if negb (saturated s) && (0 <? high) && (high <? q)
  then (set_flow q true s, saturate now g) else (set_flow q (saturated s) s, g).

Definition shrinkLocked (cost : Z) (s : subscription) (g : option outputGate) : subscription * option outputGate :=
  let q := queued s - cost in
  let g := account (- cost) g in
  if saturated s && (q <=? lowWater g)
  then (set_flow q false s, relieve g) else (set_flow q (saturated s) s, g).

Definition set_abandoned (s : subscription) : subscription :=
  {| queue := queue s; inflight := inflight s; queued := queued s; saturated := saturated s; abandoned := true;
     ended := ended s; stop := stop s; attached := attached s; delivered := delivered s; closed := closed s;
     base := base s |}.

Definition abandonQueueLocked (s : subscription) (g : option outputGate) : subscription * option outputGate :=
  let s := set_abandoned s in
  let '(s, g) := if 0 <? queued s then shrinkLocked (queued s) s g else (s, g) in
  if saturated s then (set_flow (queued s) false s, relieve g) else (s, g).

(** [Close], with the removal from the session's set; a second call changes
    nothing. *)
Definition Close (s : subscription) (g : option outputGate) : subscription * option outputGate :=
  if stop s then (s, g)
  else
    let '(s, g) := abandonQueueLocked
      {| queue := queue s; inflight := inflight s; queued := queued s; saturated := saturated s;
         abandoned := abandoned s; ended := ended s; stop := true; attached := false;
         delivered := delivered s; closed := closed s; base := base s |} g in
    (s, g).

Definition enqueue (now : Z) (f : Frame) (s : subscription) (g : option outputGate)
  : subscription * option outputGate :=
  if negb (stop s) && negb (ended s) then
    growLocked now (subscriptionFrameCost f)
      {| queue := queue s ++ [f]; inflight := inflight s; queued := queued s; saturated := saturated s;
         abandoned := abandoned s; ended := ended s; stop := stop s; attached := attached s;
         delivered := delivered s; closed := closed s; base := base s |} g
  else (s, g).

Definition finish (s : subscription) : subscription :=
  {| queue := queue s; inflight := inflight s; queued := queued s; saturated := saturated s;
     abandoned := abandoned s; ended := true; stop := stop s; attached := attached s; delivered := delivered s;
     closed := closed s; base := base s |}.

(** The pump goroutine, one critical section or channel operation at a time;
    [None] when it cannot move. *)
Definition pump_take (s : subscription) : option subscription :=
  match closed s, inflight s, stop s, queue s with
  | false, None, false, f :: rest =>
      Some {| queue := rest; inflight := Some f; queued := queued s; saturated := saturated s;
              abandoned := abandoned s; ended := ended s; stop := stop s; attached := attached s;
              delivered := delivered s; closed := closed s; base := base s |}
  | _, _, _, _ => None
  end.

Definition pump_close (s : subscription) : option subscription :=
  let done_ := {| queue := queue s; inflight := None; queued := queued s; saturated := saturated s;
                  abandoned := abandoned s; ended := ended s; stop := stop s; attached := attached s;
                  delivered := delivered s; closed := true; base := base s |} in
  if closed s then None
  else match inflight s with
  | Some _ => if stop s then Some done_ else None
  | None =>
      if stop s then Some done_
      else match queue s with [] => if ended s then Some done_ else None | _ => None end
  end.

(** The receiver takes the offered frame; the pump then releases its charge. *)
Definition pump_deliver (s : subscription) (g : option outputGate) : option (subscription * option outputGate) :=
  match closed s, inflight s with
  | false, Some f =>
      let s' := {| queue := queue s; inflight := None; queued := queued s; saturated := saturated s;
                   abandoned := abandoned s; ended := ended s; stop := stop s; attached := attached s;
                   delivered := delivered s ++ [f]; closed := closed s; base := base s |} in
      Some (if abandoned s' then (s', g) else shrinkLocked (subscriptionFrameCost f) s' g)
  | _, _ => None
  end.

(** ** The gate and one subscriber *)

Lemma account_saturate_comm d now g : account d (saturate now g) = saturate now (account d g).
Proof. destruct g as [g|]; [|done]. simpl. by destruct (d =? 0). Qed.

Lemma account_relieve_comm d g : account d (relieve g) = relieve (account d g).
Proof. destruct g as [g|]; [|done]. simpl. by destruct (d =? 0). Qed.

Lemma account_force_comm d g : account d (forceRelease g) = forceRelease (account d g).
Proof.
  destruct g as [g|]; [|done]. simpl.
  destruct (d =? 0) eqn:Hd, (paused g) eqn:Hp; simpl; rewrite ?Hd, ?Hp; done.
Qed.

Lemma frame_cost_pos f : 0 < subscriptionFrameCost f.
Proof. unfold subscriptionFrameCost, outputFrameOverheadBytes. pose proof (blen_nonneg (Payload f)). lia. Qed.

Lemma queue_cost_app a b : queue_cost (a ++ b) = queue_cost a + queue_cost b.
Proof. unfold queue_cost. induction a as [|f a IH]; simpl; [done|]. rewrite IH. lia. Qed.

Lemma queue_cost_nonneg fs : 0 <= queue_cost fs.
Proof. unfold queue_cost. induction fs as [|f fs IH]; simpl; [done|]. pose proof (frame_cost_pos f). lia. Qed.

Definition config_ok (g : option outputGate) : Prop :=
  match g with Some g => 0 < high g /\ 0 <= low g < high g /\ 0 < bound g | None => True end.

(** The gate counts [N] saturated subscribers and [Q] queued bytes; it is paused
    or has been forced open exactly while somebody is saturated. *)
Definition gate_counts (g : option outputGate) (Q N : Z) : Prop :=
  0 <= N /\ config_ok g /\
  match g with
  | None => N = 0
  | Some g =>
      g_pending g = Q /\ g_saturated g = N /\ paused g || forced g = (0 <? N) /\ paused g && forced g = false /\
      (paused g = true -> exists t, since g = Some t)
  end.

Lemma newOutputGate_counts cfg : gate_counts (newOutputGate cfg) 0 0.
Proof.
  destruct cfg as [cfg|]; [|done]. unfold newOutputGate, gate_counts, config_ok.
  cbn [high low bound g_pending g_saturated paused forced since].
  split; [lia|]. split; [|repeat split; done].
  assert (0 < (if HighWaterBytes cfg <=? 0 then DefaultOutputHighWaterBytes else HighWaterBytes cfg)) as Hh.
  { case_match; [done|lia]. }
  revert Hh. generalize (if HighWaterBytes cfg <=? 0 then DefaultOutputHighWaterBytes else HighWaterBytes cfg). intros h Hh.
  split; [done|]. split; [|case_match; [done|lia]].
  match goal with |- context [if ?c then _ else _] => destruct c eqn:Hc end; [|lia].
  unfold defaultOutputLowWaterDivisor. rewrite Z.quot_div_nonneg by lia.
  Z.to_euclidean_division_equations. lia.
Qed.

Lemma account_counts d g Q N : gate_counts g Q N -> gate_counts (account d g) (Q + d) N.
Proof.
  destruct g as [g|]; [|done]. simpl. intros (Hn & Hc & Hq & Hr). destruct (Z.eqb_spec d 0) as [->|Hd].
  - split; [done|]. split; [done|]. split; [lia|done].
  - split; [done|]. split; [done|]. split; [simpl; lia|done].
Qed.

Lemma saturate_counts now g Q N : gate_counts g Q N -> g <> None -> gate_counts (saturate now g) Q (N + 1).
Proof.
  destruct g as [g|]; [|done]. simpl. intros (Hn & Hc & Hq & Hs & Hp & Hx & Ht) _. unfold gate_counts. cbn.
  split; [lia|]. split; [exact Hc|]. rewrite Hs. split; [done|]. split; [done|].
  replace (0 <? N + 1) with true by lia.
  destruct (Z.eqb_spec (N + 1) 1) as [He|He]; cbn [andb].
  - replace (0 <? N) with false in Hp by lia. apply orb_false_iff in Hp as [Hp Hf]. rewrite Hp, Hf. cbn. eauto.
  - by replace (0 <? N) with true in Hp by lia.
Qed.

Lemma relieve_counts g Q N : gate_counts g Q (N + 1) -> 0 <= N -> gate_counts (relieve g) Q N.
Proof.
  destruct g as [g|]; [|simpl; intros (? & ? & ?); lia].
  simpl. intros (Hn & Hc & Hq & Hs & Hp & Hx & Ht) HN. unfold gate_counts. cbn.
  split; [lia|]. split; [exact Hc|]. rewrite Hs. replace (0 <? N + 1) with true in * by lia. rewrite Hp.
  replace (N + 1 - 1) with N by lia. split; [done|]. split; [done|].
  destruct (Z.eqb_spec N 0) as [->|Hz]; cbn [andb]; [done|].
  replace (0 <? N) with true by lia. done.
Qed.

Lemma force_counts g Q N : gate_counts g Q N -> gate_counts (forceRelease g) Q N.
Proof.
  destruct g as [g|]; [|done]. simpl. intros (Hn & Hc & Hq & Hs & Hp & Hx & Ht).
  destruct (paused g) eqn:Hpa; unfold gate_counts; cbn; [|by rewrite Hpa].
  split; [done|]. split; [done|]. split; [done|]. split; [done|]. simpl in Hp. done.
Qed.

Lemma marks_account d g : highWater (account d g) = highWater g /\ lowWater (account d g) = lowWater g.
Proof. destruct g as [g|]; [|done]. simpl. by destruct (d =? 0). Qed.

(** The flow accounting of one subscriber: its charge is the cost of what it
    holds, nothing once abandoned, and its saturation agrees with the marks. *)
Definition flight_cost (s : subscription) : Z := queue_cost (option_list (inflight s) ++ queue s).

Record sub_flow (hi lo : Z) (s : subscription) : Prop := {
  sf_stop : abandoned s = stop s;
  sf_queued : queued s = if stop s then 0 else flight_cost s;
  sf_sat : saturated s = true -> lo < queued s /\ 0 < hi /\ stop s = false;
  sf_unsat : saturated s = false -> 0 < hi -> queued s <= hi
}.

(** [flow_keeps s g s' g']: a critical section that takes the subscriber from [s]
    to [s'] and the gate from [g] to [g'] leaves the marks alone, keeps the
    subscriber's accounting, and keeps the gate's counts whatever the other
    subscribers contribute to them. *)
Definition flow_keeps (s : subscription) (g : option outputGate) (s' : subscription) (g' : option outputGate) : Prop :=
  highWater g' = highWater g /\ lowWater g' = lowWater g /\
  sub_flow (highWater g) (lowWater g) s' /\
  forall Q N, 0 <= N -> gate_counts g (Q + queued s) (N + Z.b2z (saturated s)) ->
    gate_counts g' (Q + queued s') (N + Z.b2z (saturated s')).

Lemma b2z_range c : 0 <= Z.b2z c <= 1.
Proof. destruct c; simpl; lia. Qed.

Lemma marks_saturate now g : highWater (saturate now g) = highWater g /\ lowWater (saturate now g) = lowWater g.
Proof. by destruct g. Qed.
Lemma marks_relieve g : highWater (relieve g) = highWater g /\ lowWater (relieve g) = lowWater g.
Proof. by destruct g. Qed.
Lemma marks_force g : highWater (forceRelease g) = highWater g /\ lowWater (forceRelease g) = lowWater g.
Proof. destruct g as [g|]; [|done]. simpl. by destruct (paused g). Qed.

(** Low below high, whenever there is a gate. *)
Lemma low_nonneg g : config_ok g -> 0 <= lowWater g.
Proof. destruct g as [g|]; simpl; lia. Qed.
Lemma low_high g : config_ok g -> 0 < highWater g -> lowWater g < highWater g.
Proof. destruct g as [g|]; simpl; lia. Qed.
Lemma high_gate g : 0 < highWater g -> g <> None.
Proof. by destruct g. Qed.

Lemma growLocked_keeps now cost s0 s g s' g' :
  config_ok g -> 0 <= cost -> growLocked now cost s g = (s', g') ->
  queued s0 = queued s -> saturated s0 = saturated s ->
  abandoned s = stop s -> stop s = false -> queued s + cost = flight_cost s ->
  (saturated s = true -> lowWater g < queued s /\ 0 < highWater g) ->
  flow_keeps s0 g s' g'.
Proof.
  intros Hc Hcost Hgr Hq0 Hs0 Ha Hst Hq Hsat. unfold growLocked in Hgr. destruct (marks_account cost g) as [Hh Hl].
  rewrite Hh in Hgr. destruct (_ && _) eqn:Hx in Hgr; injection Hgr as <- <-.
  - apply andb_prop in Hx as [[Hx Hpos]%andb_prop Hgt]. apply negb_true_iff in Hx.
    destruct (marks_saturate now (account cost g)) as [Hh2 Hl2]. split; [congruence|]. split; [congruence|].
    split.
    + constructor; cbn; try done; [by rewrite Hst, Hq|]. intros _. pose proof (low_high g Hc). rewrite Hst. lia.
    + intros Q N HN Hg. cbn. rewrite Hq0, Hs0, Hx in Hg. rewrite Z.add_0_r in Hg.
      rewrite Z.add_assoc. apply saturate_counts; [by apply account_counts|].
      apply high_gate. rewrite Hh. lia.
  - split; [done|]. split; [done|]. split.
    + constructor; cbn; try done; [by rewrite Hst, Hq| |].
      * intros Hs. rewrite Hst. specialize (Hsat Hs). lia.
      * intros Hs Hp. rewrite Hs in Hx. cbn in Hx. lia.
    + intros Q N HN Hg. cbn. rewrite Hq0, Hs0 in Hg. rewrite Z.add_assoc. by apply account_counts.
Qed.

Lemma shrinkLocked_keeps cost s0 s g s' g' :
  config_ok g -> 0 <= cost -> shrinkLocked cost s g = (s', g') ->
  queued s0 = queued s -> saturated s0 = saturated s -> abandoned s = stop s ->
  queued s - cost = (if stop s then 0 else flight_cost s) ->
  (saturated s = true -> 0 < highWater g) -> (stop s = true -> cost = queued s) ->
  (saturated s = false -> 0 < highWater g -> queued s <= highWater g) ->
  flow_keeps s0 g s' g'.
Proof.
  intros Hc Hcost Hsh Hq0 Hs0 Ha Hq Hsat Hst Huns. unfold shrinkLocked in Hsh.
  destruct (marks_account (- cost) g) as [Hh Hl]. pose proof (low_nonneg g Hc) as Hlo.
  rewrite Hl in Hsh. destruct (_ && _) eqn:Hx in Hsh; injection Hsh as <- <-.
  - apply andb_prop in Hx as [Hx Hle].
    destruct (marks_relieve (account (- cost) g)) as [Hh2 Hl2]. split; [congruence|]. split; [congruence|].
    split.
    + constructor; cbn; try done. intros _ Hp. pose proof (low_high g Hc Hp). lia.
    + intros Q N HN Hg. cbn. rewrite Hq0, Hs0, Hx in Hg. cbn in Hg. rewrite Z.add_0_r.
      replace (Q + (queued s - cost)) with (Q + queued s + - cost) by lia.
      apply relieve_counts; [|done]. by apply account_counts.
  - split; [done|]. split; [done|]. split.
    + constructor; cbn; try done.
      * intros Hs. rewrite Hs in Hx. cbn in Hx. specialize (Hsat Hs). split; [lia|]. split; [done|].
        destruct (stop s); [specialize (Hst eq_refl); lia|done].
      * intros Hs Hp. specialize (Huns Hs Hp). lia.
    + intros Q N HN Hg. cbn. rewrite Hq0, Hs0 in Hg.
      replace (Q + (queued s - cost)) with (Q + queued s + - cost) by lia. by apply account_counts.
Qed.

Section Operations.
Context (g : option outputGate) (Hc : config_ok g).

Lemma newSubscription_keeps now replay pos s' g' :
  newSubscription now replay pos g = (s', g') ->
  highWater g' = highWater g /\ lowWater g' = lowWater g /\ sub_flow (highWater g) (lowWater g) s' /\
  forall Q N, 0 <= N -> gate_counts g Q N -> gate_counts g' (Q + queued s') (N + Z.b2z (saturated s')).
Proof.
  unfold newSubscription. intros Hn. cbn [queued] in Hn. destruct (marks_account (queue_cost replay) g) as [Hh Hl].
  rewrite Hh in Hn. destruct (_ && _) eqn:Hx in Hn; injection Hn as <- <-.
  - destruct (marks_saturate now (account (queue_cost replay) g)) as [Hh2 Hl2].
    split; [congruence|]. split; [congruence|]. split.
    + constructor; cbn; try done. intros _. pose proof (low_high g Hc). lia.
    + intros Q N HN Hg. cbn. apply saturate_counts; [by apply account_counts|]. apply high_gate. rewrite Hh. lia.
  - split; [done|]. split; [done|]. split.
    + constructor; cbn; try done. intros _ Hp. lia.
    + intros Q N HN Hg. cbn. rewrite Z.add_0_r. by apply account_counts.
Qed.

Context (s : subscription) (Hs : sub_flow (highWater g) (lowWater g) s).

Lemma flow_keeps_refl s' :
  queued s' = queued s -> saturated s' = saturated s -> abandoned s' = abandoned s -> stop s' = stop s ->
  (stop s = false -> flight_cost s' = flight_cost s) -> flow_keeps s g s' g.
Proof.
  intros Hq Hsa Ha Hst Hf. destruct Hs as [H1 H2 H3 H4]. split; [done|]. split; [done|]. split.
  - constructor; rewrite ?Hq, ?Hsa, ?Ha, ?Hst; auto. rewrite H2. destruct (stop s); [done|]. symmetry. auto.
  - intros Q N HN. by rewrite Hq, Hsa.
Qed.

Lemma enqueue_keeps now f s' g' : enqueue now f s g = (s', g') -> flow_keeps s g s' g'.
Proof.
  unfold enqueue. destruct (negb (stop s) && negb (ended s)) eqn:He.
  2:{ intros [= <- <-]. by apply flow_keeps_refl. }
  apply andb_prop in He as [Hst%negb_true_iff _]. destruct Hs as [H1 H2 H3 H4]. intros Hgr. rewrite Hst in H2.
  eapply growLocked_keeps; [done| |exact Hgr|..]; cbn; try done.
  - pose proof (frame_cost_pos f). lia.
  - rewrite H2. unfold flight_cost. cbn. rewrite app_assoc, (queue_cost_app _ [f]). cbn. lia.
  - intros Hsa. destruct (H3 Hsa) as (? & ? & ?). done.
Qed.

Lemma Close_keeps s' g' : Close s g = (s', g') -> flow_keeps s g s' g'.
Proof.
  unfold Close, abandonQueueLocked. destruct (stop s) eqn:Hst; [intros [= <- <-]; by apply flow_keeps_refl|].
  destruct Hs as [H1 H2 H3 H4]. cbn [queued set_abandoned].
  destruct (Z.ltb_spec 0 (queued s)) as [Hq|Hq].
  - destruct (shrinkLocked _ _ _) as [s1 g1] eqn:Hsh.
    assert (flow_keeps s g s1 g1) as Hk.
    { eapply shrinkLocked_keeps; [done| |exact Hsh|..]; cbn; try done; [lia|lia|].
      intros Hsa. destruct (H3 Hsa) as (? & ? & ?). done. }
    assert (saturated s1 = false) as Hsa.
    { destruct Hk as (_ & _ & [_ _ K _] & _). destruct (saturated s1) eqn:E; [|done]. destruct (K eq_refl) as (_ & _ & K3).
      unfold shrinkLocked in Hsh. case_match; injection Hsh as <- <-; done. }
    rewrite Hsa. intros [= <- <-]. exact Hk.
  - rewrite Hst in H2. assert (queued s = 0) as H0 by (rewrite H2 in *; unfold flight_cost in *; pose proof (queue_cost_nonneg (option_list (inflight s) ++ queue s)); lia).
    cbn [saturated set_abandoned]. destruct (saturated s) eqn:Hsa.
    { destruct (H3 eq_refl) as (? & ? & ?). pose proof (low_nonneg g Hc). lia. }
    intros [= <- <-]. split; [done|]. split; [done|]. split.
    + constructor; cbn; rewrite ?Hsa; done.
    + intros Q N HN. cbn. by rewrite Hsa.
Qed.

Lemma pump_take_keeps s' : pump_take s = Some s' -> flow_keeps s g s' g.
Proof.
  unfold pump_take. intros H. repeat case_match; try done. injection H as <-. apply flow_keeps_refl; try done.
  intros _. unfold flight_cost. cbn. by rewrite H1, H3.
Qed.

Lemma pump_close_keeps s' : pump_close s = Some s' -> flow_keeps s g s' g.
Proof.
  unfold pump_close. intros H. repeat case_match; try done; injection H as <-; apply flow_keeps_refl; try done;
    unfold flight_cost; cbn; intros ?; try congruence;
    by match goal with H : inflight s = _, H' : queue s = _ |- _ => rewrite H, H' end.
Qed.

Lemma pump_deliver_keeps s' g' : pump_deliver s g = Some (s', g') -> flow_keeps s g s' g'.
Proof.
  unfold pump_deliver. destruct (closed s); [done|]. destruct (inflight s) as [f|] eqn:Hf; [|done].
  destruct Hs as [H1 H2 H3 H4]. cbn [abandoned]. destruct (abandoned s) eqn:Ha.
  - intros [= <- <-]. apply flow_keeps_refl; cbn; try done. congruence.
  - assert (stop s = false) as Hst by congruence. rewrite Hst in *. intros [= Hsh].
    eapply shrinkLocked_keeps; [done| |exact Hsh|..]; cbn; try done.
    + pose proof (frame_cost_pos f). lia.
    + rewrite H2. unfold flight_cost. rewrite Hf. cbn. lia.
    + intros Hsa. destruct (H3 Hsa) as (? & ? & ?). done.
Qed.
End Operations.
