(* ===== verification/PtySession.v ===== *)
(** * PtySession: sequencing and delivery of a host session
    ([src/ptyhost/session.go], [src/ptyhost/ring.go])

    The part of [Session] that numbers the host's frames, buffers them in the
    ring and fans them out to subscribers, as a state machine whose steps are
    the session's methods (atomic under its lock) and the steps of the pump
    goroutines and of the receivers, in any interleaving.  What the terminal
    emulator, the recorder and the operating system contribute is an argument of
    the operation: the bytes read, the screen, the exit payload, the result of
    the window-size call and the clock.  The emulator's and the recorder's own
    state is not modelled.

    The ghost [hist] is the list of all frames ever put in the stream; the ghost
    in [barrier] is the sequence number [BeginOutputBarrier] returned. *)

From Stdlib Require Import Sorted.
From S2P Require Import Prelude Varint Reader Frame Payloads Utf8 Snapshot Ring FlowGate.

Record Session := {
  nextSeq : Z;
  lastRel : Z;
  s_ring : ring;
  exited : bool;
  exitSeq : Z;
  subs : list subscription;
  flow : option outputGate;
  barrier : option Z;
  hist : list Frame
}.

(** A reading of the clocks: the time, and the microseconds since the spawn. *)
Record instant := { wall : Z; micros : Z }.

Inductive SessionError := errExited | ErrRingMiss | ErrWinsize | ErrWire (e : WireError) | ErrBarrier.

Definition maxOutputFrame : Z := 32 * 1024.

Definition NewSession (ringBytes : Z) (cfg : option OutputFlowControl) : Session :=
  {| nextSeq := HostSeqStart; lastRel := 0; s_ring := newRing ringBytes; exited := false; exitSeq := 0;
     subs := []; flow := newOutputGate cfg; barrier := None; hist := [] |}.

(** The value [relTimeLocked] returns and stores. *)
Definition relTimeLocked (i : instant) (s : Session) : Z :=
  let rel := if 0 <? micros i then u64 (micros i) else 0 in
  if rel <? lastRel s then lastRel s else rel.

Definition lastSeqLocked (s : Session) : Z := u64 (nextSeq s - 1).

(** [s.nextSeq++] and the frame that takes the number. *)
Definition allocFrameLocked (i : instant) (t : EventType) (payload : bytes) (s : Session) : Frame * Session :=
  let rel := relTimeLocked i s in
  ({| Type_ := t; Seq := nextSeq s; RelTime := rel; Payload := payload |},
   {| nextSeq := u64 (nextSeq s + 1); lastRel := rel; s_ring := s_ring s; exited := exited s;
      exitSeq := exitSeq s; subs := subs s; flow := flow s; barrier := barrier s; hist := hist s |}).

(** The fan-out loop of [publishLocked] and [finalize]. *)
Fixpoint enqueue_all (now : Z) (f : Frame) (xs : list subscription) (g : option outputGate)
  : list subscription * option outputGate :=
  match xs with
  | [] => ([], g)
  | x :: xs' =>
      let '(x', g) := if attached x then enqueue now f x g else (x, g) in
      let '(xs', g) := enqueue_all now f xs' g in
      (x' :: xs', g)
  end.

Definition publishLocked (i : instant) (f : Frame) (s : Session) : Session :=
  let '(xs, g) := enqueue_all (wall i) f (subs s) (flow s) in
  {| nextSeq := nextSeq s; lastRel := lastRel s; s_ring := ring_append (s_ring s) f; exited := exited s;
     exitSeq := exitSeq s; subs := xs; flow := g; barrier := barrier s; hist := hist s ++ [f] |}.

(** [allocFrameLocked] then [publishLocked]. *)
Definition emit_frame (i : instant) (t : EventType) (payload : bytes) (s : Session) : Session :=
  let '(f, s) := allocFrameLocked i t payload s in publishLocked i f s.

(** The chunk loop of [onOutput]; every turn consumes at least a byte, so
    [length data] turns are enough. *)
Fixpoint output_chunks (fuel : nat) (clk : nat -> instant) (data : bytes) (s : Session) : Session :=
  match fuel with
  | O => s
  | S fuel' =>
      if 0 <? blen data then
        let chunk := if maxOutputFrame <? blen data then take (Z.to_nat maxOutputFrame) data else data in
        output_chunks fuel' clk (drop (length chunk) data) (emit_frame (clk fuel) TypeOutput (EncodeOutput chunk) s)
      else s
  end.

Definition onOutput (clk : nat -> instant) (data : bytes) (s : Session) : Session :=
  if exited s then s else output_chunks (length data) clk data s.

Definition EmitMarker (i : instant) (label : bytes) (s : Session) : Session * option SessionError :=
  if exited s then (s, Some errExited)
  else (emit_frame i TypeMarker (MarkerPayload_Encode {| Label := label |}) s, None).

Definition Resize (i : instant) (p : ResizePayload) (winsize_ok : bool) (s : Session) : Session * option SessionError :=
  match ResizePayload_Encode p with
  | Ok payload =>
      if exited s then (s, Some errExited)
      else if negb winsize_ok then (s, Some ErrWinsize)
      else (emit_frame i TypeResize payload s, None)
  | Err e => (s, Some (ErrWire e))
  | Panic => (s, None)
  end.

(** The frame returned, and whether it is part of the stream. *)
Definition emitSnapshotLocked (i : instant) (scr : Screen) (s : Session)
  : Session * outcome SessionError (Frame * bool) :=
  match Screen_Encode scr with
  | Ok snapBytes =>
      if exited s then
        (s, Ok ({| Type_ := TypeSnapshot; Seq := PostExitSnapshotSeq; RelTime := 0;
                   Payload := SnapshotEnvelope_Encode
                     {| EnvAtSeq := exitSeq s; SnapFormat := SnapFormatScreen; Snap := snapBytes |} |}, false))
      else
        let env := {| EnvAtSeq := u64 (nextSeq s - 1); SnapFormat := SnapFormatScreen; Snap := snapBytes |} in
        let '(f, s) := allocFrameLocked i TypeSnapshot (SnapshotEnvelope_Encode env) s in
        (publishLocked i f s, Ok (f, true))
  | Err e => (s, Err (ErrWire e))
  | Panic => (s, Panic)
  end.

(** The locked part of [finalize], which runs once. *)
Definition finalize (i : instant) (p : ExitPayload) (s : Session) : Session :=
  let seq := nextSeq s in
  let '(f, s) := allocFrameLocked i TypeExit (ExitPayload_Encode p) s in
  let s := publishLocked i f s in
  {| nextSeq := nextSeq s; lastRel := lastRel s; s_ring := s_ring s; exited := true; exitSeq := seq;
     subs := subs s; flow := flow s; barrier := barrier s; hist := hist s |}.

Definition with_subs (xs : list subscription) (g : option outputGate) (s : Session) : Session :=
  {| nextSeq := nextSeq s; lastRel := lastRel s; s_ring := s_ring s; exited := exited s; exitSeq := exitSeq s;
     subs := xs; flow := g; barrier := barrier s; hist := hist s |}.

Definition set_attached (x : subscription) : subscription :=
  {| queue := queue x; inflight := inflight x; queued := queued x; saturated := saturated x;
     abandoned := abandoned x; ended := ended x; stop := stop x; attached := true; delivered := delivered x;
     closed := closed x; base := base x |}.

Definition Subscribe (i : instant) (fromSeq : Z) (s : Session) : outcome SessionError Session :=
  let '(replay, hit) := replayFrom (s_ring s) fromSeq in
  if negb hit then Err ErrRingMiss
  else
    let '(x, g) := newSubscription (wall i) replay (length (hist s) - length replay) (flow s) in
    let x := if exited s then finish x else set_attached x in
    Ok (with_subs (subs s ++ [x]) g s).

(** [BeginOutputBarrier], [Release] and [EmitSnapshot] of the barrier. *)
Definition set_barrier (b : option Z) (s : Session) : Session :=
  {| nextSeq := nextSeq s; lastRel := lastRel s; s_ring := s_ring s; exited := exited s; exitSeq := exitSeq s;
     subs := subs s; flow := flow s; barrier := b; hist := hist s |}.

Definition BeginOutputBarrier (s : Session) : Session * Z :=
  let last := lastSeqLocked s in (set_barrier (Some last) s, last).

Definition Barrier_Release (s : Session) : Session := set_barrier None s.

Definition Barrier_EmitSnapshot (i : instant) (scr : Screen) (s : Session)
  : Session * outcome SessionError (Frame * bool) :=
  match barrier s with
  | None => (s, Err ErrBarrier)
  | Some _ =>
      let '(s, r) := emitSnapshotLocked i scr s in (set_barrier None s, r)
  end.

(** ** The state machine *)

(** One subscriber moves. *)
Definition with_sub (k : nat) (x : subscription) (g : option outputGate) (s : Session) : Session :=
  with_subs (<[k := x]> (subs s)) g s.

(** The sequence allocators wait while the barrier is held. *)
Inductive session_step : Session -> Session -> Prop :=
| st_output s clk data : barrier s = None -> session_step s (onOutput clk data s)
| st_marker s i label : barrier s = None -> session_step s (fst (EmitMarker i label s))
| st_resize s i p ok : barrier s = None -> session_step s (fst (Resize i p ok s))
| st_snapshot s i scr : barrier s = None -> session_step s (fst (emitSnapshotLocked i scr s))
| st_finalize s i p : barrier s = None -> exited s = false -> session_step s (finalize i p s)
| st_subscribe s i from s' : u64_ok from -> Subscribe i from s = Ok s' -> session_step s s'
| st_finish s k x : exited s = true -> subs s !! k = Some x -> attached x = true ->
    session_step s (with_sub k (finish x) (flow s) s)
| st_close s k x x' g : subs s !! k = Some x -> Close x (flow s) = (x', g) -> session_step s (with_sub k x' g s)
| st_take s k x x' : subs s !! k = Some x -> pump_take x = Some x' -> session_step s (with_sub k x' (flow s) s)
| st_deliver s k x x' g : subs s !! k = Some x -> pump_deliver x (flow s) = Some (x', g) ->
    session_step s (with_sub k x' g s)
| st_pump_close s k x x' : subs s !! k = Some x -> pump_close x = Some x' ->
    session_step s (with_sub k x' (flow s) s)
| st_force s now : await now (flow s) = AwaitForce -> session_step s (with_subs (subs s) (forceRelease (flow s)) s)
| st_begin s : barrier s = None -> session_step s (fst (BeginOutputBarrier s))
| st_release s : session_step s (Barrier_Release s)
| st_barrier_snapshot s i scr : session_step s (fst (Barrier_EmitSnapshot i scr s)).

Inductive reachable (ringBytes : Z) (cfg : option OutputFlowControl) : Session -> Prop :=
| reach_new : reachable ringBytes cfg (NewSession ringBytes cfg)
| reach_step s s' : reachable ringBytes cfg s -> session_step s s' -> reachable ringBytes cfg s'.

(** ** Sums over the subscribers *)

Definition zsum {A} (f : A -> Z) (xs : list A) : Z := foldr (fun x n => f x + n) 0 xs.

Definition total_queued (xs : list subscription) : Z := zsum queued xs.
Definition total_saturated (xs : list subscription) : Z := zsum (fun x => Z.b2z (saturated x)) xs.

Lemma zsum_app {A} (f : A -> Z) xs ys : zsum f (xs ++ ys) = zsum f xs + zsum f ys.
Proof. unfold zsum. induction xs as [|x xs IH]; simpl; [done|]. rewrite IH. lia. Qed.

Lemma zsum_nonneg {A} (f : A -> Z) xs : (forall x, 0 <= f x) -> 0 <= zsum f xs.
Proof. intros Hf. unfold zsum. induction xs as [|x xs IH]; simpl; [done|]. specialize (Hf x). lia. Qed.

Lemma zsum_split {A} (f : A -> Z) xs k x :
  xs !! k = Some x -> zsum f xs = (zsum f (take k xs) + zsum f (drop (S k) xs)) + f x.
Proof.
  intros Hk. rewrite <- (take_drop_middle xs k x Hk) at 1. rewrite zsum_app. cbn. fold (zsum f (drop (S k) xs)). lia.
Qed.

Lemma zsum_insert {A} (f : A -> Z) xs k x y :
  xs !! k = Some x -> zsum f (<[k := y]> xs) = (zsum f (take k xs) + zsum f (drop (S k) xs)) + f y.
Proof.
  intros Hk. rewrite (insert_take_drop xs k y) by (by eapply lookup_lt_Some). rewrite zsum_app. cbn.
  fold (zsum f (drop (S k) xs)). lia.
Qed.

Lemma saturated_nonneg xs : 0 <= total_saturated xs.
Proof. apply zsum_nonneg. intros x. apply b2z_range. Qed.

(** ** What a published frame does to the feeds *)

(** The fields the accounting does not touch. *)
Definition same_feed (x x' : subscription) : Prop :=
  inflight x' = inflight x /\ ended x' = ended x /\ stop x' = stop x /\ attached x' = attached x /\
  delivered x' = delivered x /\ closed x' = closed x /\ base x' = base x.

Definition takes_frame (x : subscription) : bool := attached x && negb (stop x) && negb (ended x).

Definition pushed (f : Frame) (x x' : subscription) : Prop :=
  same_feed x x' /\ queue x' = if takes_frame x then queue x ++ [f] else queue x.

Lemma enqueue_pushed now f x g x' g' : attached x = true -> enqueue now f x g = (x', g') -> pushed f x x'.
Proof.
  intros Ha. unfold enqueue, growLocked, pushed, takes_frame. rewrite Ha. cbn [andb].
  destruct (negb (stop x) && negb (ended x)); [|by intros [= <- <-]].
  match goal with |- context [if ?c then _ else _] => destruct c end; by intros [= <- <-].
Qed.

Lemma enqueue_all_keeps now f xs : forall g xs' g' Q N,
  enqueue_all now f xs g = (xs', g') -> 0 <= N ->
  Forall (sub_flow (highWater g) (lowWater g)) xs ->
  gate_counts g (Q + total_queued xs) (N + total_saturated xs) ->
  highWater g' = highWater g /\ lowWater g' = lowWater g /\
  Forall (sub_flow (highWater g) (lowWater g)) xs' /\ Forall2 (pushed f) xs xs' /\
  gate_counts g' (Q + total_queued xs') (N + total_saturated xs').
Proof.
  induction xs as [|x xs IH]; intros g xs' g' Q N He HN Hf Hg; cbn in He.
  { injection He as <- <-. do 4 (split; [done|]). done. }
  inversion Hf as [|? ? Hx Hxs]; subst.
  assert (exists x1 g1, (if attached x then enqueue now f x g else (x, g)) = (x1, g1) /\ flow_keeps x g x1 g1 /\ pushed f x x1)
    as (x1 & g1 & Hx1 & (Hh & Hl & Hx1f & Hk) & Hp).
  { assert (config_ok g) as Hc by apply Hg. destruct (attached x) eqn:Ha.
    - destruct (enqueue now f x g) as [x1 g1] eqn:Hq. exists x1, g1. split; [done|].
      split; [by eapply enqueue_keeps|by eapply enqueue_pushed].
    - exists x, g. split; [done|]. split; [by apply flow_keeps_refl|]. unfold pushed, takes_frame. by rewrite Ha. }
  rewrite Hx1 in He. destruct (enqueue_all now f xs g1) as [xs1 g2] eqn:Hq. injection He as <- <-.
  specialize (Hk (Q + total_queued xs) (N + total_saturated xs)).
  unfold total_queued, total_saturated, zsum in Hg, Hk |- *. cbn in Hg |- *.
  fold (zsum queued xs) (zsum (fun y => Z.b2z (saturated y)) xs) in Hg, Hk.
  fold (zsum queued xs1) (zsum (fun y => Z.b2z (saturated y)) xs1).
  pose proof (saturated_nonneg xs) as Hn. unfold total_saturated in Hn.
  assert (gate_counts g1 (Q + queued x1 + zsum queued xs) (N + Z.b2z (saturated x1) + zsum (fun y => Z.b2z (saturated y)) xs)) as Hg1.
  { rewrite <- !Z.add_assoc, (Z.add_comm (queued x1)), (Z.add_comm (Z.b2z _)), !Z.add_assoc. apply Hk; [lia|].
    rewrite <- !Z.add_assoc, (Z.add_comm _ (queued x)), (Z.add_comm _ (Z.b2z (saturated x))). done. }
  pose proof (b2z_range (saturated x1)).
  destruct (IH g1 xs1 g2 (Q + queued x1) (N + Z.b2z (saturated x1)) Hq) as (Hh2 & Hl2 & Hf2 & Hp2 & Hg2);
    [lia|by rewrite Hh, Hl|done|].
  rewrite Hh, Hl in *. split; [done|]. split; [done|]. split; [by constructor|]. split; [by constructor|].
  unfold total_queued, total_saturated in Hg2. by rewrite !Z.add_assoc.
Qed.

(** ** The invariant *)

(** [feed_ok ex h x]: subscriber [x] has received, holds in flight and has queued
    a run of the history [h] that starts at its position; the run reaches the
    end of the history unless the subscriber was closed. *)
Record feed_ok (ex : bool) (h : list Frame) (x : subscription) : Prop := {
  fo_base : (base x <= length h)%nat;
  fo_run : exists rest, drop (base x) h = delivered x ++ option_list (inflight x) ++ rest /\
             (stop x = false -> rest = queue x);
  fo_detached : attached x = false -> stop x = true \/ ex = true;
  fo_ended : ended x = true -> ex = true;
  fo_closed : closed x = true -> stop x = false -> inflight x = None /\ queue x = [] /\ ended x = true
}.

Definition rel_ok (last : Z) (h : list Frame) : Prop :=
  Forall (fun f => RelTime f <= last) h /\ StronglySorted Z.le (map RelTime h).

Record session_core (ex : bool) (s : Session) : Prop := {
  sc_next : nextSeq s = HostSeqStart + blen (hist s);
  sc_ring : ring_of (s_ring s) (hist s);
  sc_gate : gate_counts (flow s) (total_queued (subs s)) (total_saturated (subs s));
  sc_flow : Forall (sub_flow (highWater (flow s)) (lowWater (flow s))) (subs s);
  sc_feed : Forall (feed_ok ex (hist s)) (subs s);
  sc_rel : rel_ok (lastRel s) (hist s)
}.

Definition exit_ok (s : Session) : Prop :=
  if exited s then
    exists pre e, hist s = pre ++ [e] /\ Type_ e = TypeExit /\ exitSeq s = Seq e /\
      Forall (fun f => Type_ f <> TypeExit) pre
  else Forall (fun f => Type_ f <> TypeExit) (hist s).

Definition session_inv (s : Session) : Prop :=
  session_core (exited s) s /\ exit_ok s /\
  (forall l, barrier s = Some l -> nextSeq s = l + 1).

(** The history is short of the largest sequence number. *)
Definition seq_room (h : list Frame) : Prop := blen h < 2 ^ 64 - 1.

Lemma sorted_snoc l x : StronglySorted Z.le l -> Forall (fun y => y <= x) l -> StronglySorted Z.le (l ++ [x]).
Proof.
  induction 1 as [|y l Hs IH Hy]; intros Hx; simpl; [by repeat constructor|].
  inversion Hx; subst. constructor; [by apply IH|]. apply Forall_app. split; [done|]. by apply Forall_singleton.
Qed.

Lemma rel_ok_snoc last last' h f :
  rel_ok last h -> last <= last' -> RelTime f = last' -> rel_ok last' (h ++ [f]).
Proof.
  intros [Hl Hs] Hle Hf. split.
  - apply Forall_app. split; [|apply Forall_singleton; lia]. eapply Forall_impl; [exact Hl|]. intros g. cbv beta. lia.
  - rewrite map_app. apply sorted_snoc; [done|]. apply Forall_map. eapply Forall_impl; [exact Hl|].
    intros g. cbv beta. simpl. lia.
Qed.

Lemma relTime_ge i s : lastRel s <= relTimeLocked i s.
Proof. unfold relTimeLocked. case_match; lia. Qed.

Lemma feed_pushed h f x x' : feed_ok false h x -> pushed f x x' -> feed_ok false (h ++ [f]) x'.
Proof.
  intros [Hb (rest & Hr & Hq) Hd He Hc] ((Hi & Hen & Hst & Hat & Hde & Hcl & Hba) & Hqu). constructor.
  - rewrite Hba, length_app. lia.
  - rewrite Hba, Hde, Hi, Hst, drop_app_le by done. exists (rest ++ [f]). split.
    { by rewrite Hr, <- !app_assoc. }
    intros Hs. rewrite (Hq Hs), Hqu. unfold takes_frame. rewrite Hs.
    destruct (attached x) eqn:Ha; [|by destruct (Hd eq_refl); congruence].
    destruct (ended x) eqn:Ee; [by specialize (He eq_refl)|]. done.
  - by rewrite Hat, Hst.
  - by rewrite Hen.
  - rewrite Hcl, Hst. intros Hcl' Hst'. destruct (Hc Hcl' Hst') as (_ & _ & H3). by specialize (He H3).
Qed.

Lemma feed_ok_mono ex h x : feed_ok false h x -> feed_ok ex h x.
Proof.
  intros [Hb Hr Hd He Hc]. constructor; auto.
  - intros Ha. destruct (Hd Ha); auto. done.
  - intros H. by specialize (He H).
Qed.

Lemma emit_frame_hist i t p s : hist (emit_frame i t p s) = hist s ++ [fst (allocFrameLocked i t p s)].
Proof.
  unfold emit_frame, publishLocked. cbn. by destruct (enqueue_all _ _ _ _).
Qed.

Lemma emit_frame_core i t p s :
  session_core false s -> seq_room (hist s ++ [fst (allocFrameLocked i t p s)]) ->
  session_core false (emit_frame i t p s).
Proof.
  intros [Hn Hr Hg Hf Hfe Hrel] Hroom. unfold emit_frame, publishLocked. cbn [allocFrameLocked subs flow].
  set (f := {| Type_ := t; Seq := nextSeq s; RelTime := relTimeLocked i s; Payload := p |}) in *.
  destruct (enqueue_all (wall i) f (subs s) (flow s)) as [xs g] eqn:He.
  destruct (enqueue_all_keeps (wall i) f (subs s) (flow s) xs g 0 0 He) as (Hh & Hl & Hf' & Hp & Hg'); [done|done|done|].
  unfold seq_room in Hroom. cbn in Hroom. fold f in Hroom. rewrite blen_app in Hroom. change (blen [f]) with 1 in Hroom.
  pose proof (blen_nonneg (hist s)).
  constructor; cbn.
  - rewrite u64_small by (unfold u64_ok; rewrite Hn; unfold HostSeqStart; lia). rewrite Hn, blen_app.
    change (blen [f]) with 1. lia.
  - apply ring_of_append; [done|]. exact Hn.
  - exact Hg'.
  - by rewrite Hh, Hl.
  - clear -Hfe Hp. induction Hp as [|x x' xs xs' Hx Hp IH]; [constructor|].
    inversion Hfe; subst. constructor; [by eapply feed_pushed|by apply IH].
  - apply (rel_ok_snoc (lastRel s)); [done|apply relTime_ge|done].
Qed.

Lemma exit_ok_emit i t p s : t <> TypeExit -> exited s = false -> exit_ok s -> exit_ok (emit_frame i t p s).
Proof.
  intros Ht Hx. unfold exit_ok.
  assert (exited (emit_frame i t p s) = exited s) as -> by (unfold emit_frame, publishLocked; cbn; by destruct (enqueue_all _ _ _ _)).
  rewrite Hx, emit_frame_hist. intros Hf. apply Forall_app. split; [done|]. by apply Forall_singleton.
Qed.

Lemma emit_frame_same i t p s :
  exited (emit_frame i t p s) = exited s /\ barrier (emit_frame i t p s) = barrier s.
Proof. unfold emit_frame, publishLocked. cbn. by destruct (enqueue_all _ _ _ _). Qed.

Lemma emit_frame_inv i t p s :
  session_inv s -> t <> TypeExit -> exited s = false -> barrier s = None ->
  seq_room (hist (emit_frame i t p s)) -> session_inv (emit_frame i t p s).
Proof.
  intros (Hc & He & _) Ht Hx Hb Hroom. destruct (emit_frame_same i t p s) as [Hx' Hb'].
  rewrite emit_frame_hist in Hroom. split; [|split].
  - rewrite Hx', Hx. apply emit_frame_core; [by rewrite Hx in Hc|done].
  - by apply exit_ok_emit.
  - rewrite Hb', Hb. done.
Qed.

Lemma seq_room_prefix a b : seq_room (a ++ b) -> seq_room a.
Proof. unfold seq_room. rewrite blen_app. pose proof (blen_nonneg b). lia. Qed.

Lemma output_chunks_hist fuel clk data s : exists fs, hist (output_chunks fuel clk data s) = hist s ++ fs.
Proof.
  revert data s. induction fuel as [|fuel IH]; intros data s; cbn [output_chunks]; [exists []; by rewrite app_nil_r|].
  destruct (0 <? blen data); [|exists []; by rewrite app_nil_r]. edestruct IH as [fs ->]. rewrite emit_frame_hist.
  eexists. by rewrite <- app_assoc.
Qed.

Lemma output_chunks_inv fuel clk data s :
  session_inv s -> exited s = false -> barrier s = None ->
  seq_room (hist (output_chunks fuel clk data s)) -> session_inv (output_chunks fuel clk data s).
Proof.
  revert data s. induction fuel as [|fuel IH]; intros data s Hi Hx Hb; cbn [output_chunks]; [done|].
  destruct (0 <? blen data); [|done]. intros Hroom.
  match goal with |- session_inv (output_chunks _ _ ?d (emit_frame ?i ?t ?p s)) =>
    destruct (emit_frame_same i t p s) as [Hx' Hb']; destruct (output_chunks_hist fuel clk d (emit_frame i t p s)) as [fs Hfs] end.
  apply IH; [|congruence|congruence|done]. apply emit_frame_inv; try done. rewrite Hfs in Hroom.
  by eapply seq_room_prefix.
Qed.

(** *** Steps of one subscriber *)

Ltac sess := cbn [nextSeq lastRel s_ring exited exitSeq subs flow barrier hist with_sub with_subs set_barrier].

Lemma with_sub_inv s k x x' g :
  session_inv s -> subs s !! k = Some x -> flow_keeps x (flow s) x' g -> feed_ok (exited s) (hist s) x' ->
  session_inv (with_sub k x' g s).
Proof.
  intros ([Hn Hr Hg Hf Hfe Hrel] & He & Hb) Hk (Hh & Hl & Hx' & Hc) Hfx. split; [|split; [exact He|exact Hb]].
  constructor; sess; try done.
  - unfold total_queued, total_saturated in *. rewrite (zsum_split _ _ _ _ Hk), (zsum_split (fun y => Z.b2z _) _ _ _ Hk) in Hg.
    rewrite (zsum_insert _ _ _ _ _ Hk), (zsum_insert (fun y => Z.b2z _) _ _ _ _ Hk). apply Hc; [|done].
    pose proof (saturated_nonneg (take k (subs s))). pose proof (saturated_nonneg (drop (S k) (subs s))).
    unfold total_saturated in *. lia.
  - rewrite Hh, Hl. by apply Forall_insert.
  - by apply Forall_insert.
Qed.

Lemma sub_facts s k x :
  session_inv s -> subs s !! k = Some x ->
  config_ok (flow s) /\ sub_flow (highWater (flow s)) (lowWater (flow s)) x /\ feed_ok (exited s) (hist s) x.
Proof.
  intros ([Hn Hr Hg Hf Hfe Hrel] & _) Hk. split; [apply Hg|].
  split; by eapply Forall_lookup_1.
Qed.

Lemma shrink_feed c x g x' g' :
  shrinkLocked c x g = (x', g') -> same_feed x x' /\ queue x' = queue x /\ abandoned x' = abandoned x.
Proof. unfold shrinkLocked. intros H. case_match; by injection H as <- <-. Qed.

Lemma Close_feed ex h x g x' g' : feed_ok ex h x -> Close x g = (x', g') -> feed_ok ex h x'.
Proof.
  intros Hf. unfold Close. destruct (stop x) eqn:Hs; [by intros [= <- <-]|].
  unfold abandonQueueLocked. set (x0 := set_abandoned _).
  assert (feed_ok ex h x0) as H0.
  { destruct Hf as [Hb (rest & Hr & _) Hd He Hc]. constructor; cbn; auto; try done. by exists rest. }
  assert (forall y, same_feed x0 y -> feed_ok ex h y) as Hsame.
  { intros y (Hi & Hen & Hst & Hat & Hde & Hcl & Hba). destruct H0 as [Hb (rest & Hr & _) Hd He Hc].
    constructor; rewrite ?Hi, ?Hen, ?Hst, ?Hat, ?Hde, ?Hcl, ?Hba; auto; try done. by exists rest. }
  destruct (0 <? queued x0).
  - destruct (shrinkLocked _ _ _) as [x1 g1] eqn:Hsh. apply shrink_feed in Hsh as (Hsf & _).
    destruct (saturated x1); intros [= <- <-]; by apply Hsame.
  - destruct (saturated x0); intros [= <- <-]; by apply Hsame.
Qed.

Lemma pump_take_feed ex h x x' : feed_ok ex h x -> pump_take x = Some x' -> feed_ok ex h x'.
Proof.
  intros [Hb (rest & Hr & Hq) Hd He Hc] Ht. unfold pump_take in Ht.
  destruct (closed x) eqn:Hcl; [done|]. destruct (inflight x) eqn:Hi; [done|].
  destruct (stop x) eqn:Hs; [done|]. destruct (queue x) as [|f q] eqn:Hqu; [done|]. injection Ht as <-.
  rewrite (Hq eq_refl) in Hr. constructor; cbn; auto; [|done]. by exists q.
Qed.

Lemma pump_deliver_feed ex h x g x' g' : feed_ok ex h x -> pump_deliver x g = Some (x', g') -> feed_ok ex h x'.
Proof.
  intros [Hb (rest & Hr & Hq) Hd He Hc] Ht. unfold pump_deliver in Ht.
  destruct (closed x) eqn:Hcl; [done|]. destruct (inflight x) as [f|] eqn:Hi; [|done]. injection Ht as Ht.
  match type of Ht with (if _ then (?y, _) else _) = _ => assert (feed_ok ex h y) as H0; [|set (x0 := y) in *] end.
  { constructor; cbn; auto; [|done]. exists rest. by rewrite <- app_assoc. }
  match type of Ht with (if ?c then _ else _) = _ => destruct c end; [by injection Ht as <- <-|].
  apply shrink_feed in Ht as ((Hi' & Hen & Hst & Hat & Hde & Hcl' & Hba) & Hqu & _).
  destruct H0 as [Hb0 Hr0 Hd0 He0 Hc0].
  constructor; rewrite ?Hi', ?Hen, ?Hst, ?Hat, ?Hde, ?Hcl', ?Hba, ?Hqu; auto.
Qed.

Lemma pump_close_feed ex h x x' : feed_ok ex h x -> pump_close x = Some x' -> feed_ok ex h x'.
Proof.
  intros [Hb (rest & Hr & Hq) Hd He Hc] Ht. unfold pump_close in Ht.
  destruct (closed x) eqn:Hcl; [done|]. destruct (inflight x) as [f|] eqn:Hi.
  - destruct (stop x) eqn:Hs; [|done]. injection Ht as <-. constructor; cbn; auto; try done. by exists (f :: rest).
  - destruct (stop x) eqn:Hs.
    + injection Ht as <-. constructor; cbn; auto; try done. by exists rest.
    + destruct (queue x) eqn:Hqu; [|done]. destruct (ended x) eqn:Hen; [|done]. injection Ht as <-.
      constructor; cbn; auto; rewrite ?Hen, ?Hqu; auto. exists rest. by rewrite ?Hqu in *.
Qed.

Lemma finish_feed h x : feed_ok true h x -> feed_ok true h (finish x).
Proof.
  intros [Hb Hr Hd He Hc]. constructor; cbn; auto. intros Hcl Hs. destruct (Hc Hcl Hs) as (? & ? & ?). auto.
Qed.

(** *** Subscribing *)

(** A replay is a tail of the history. *)
Lemma replay_suffix r h a out :
  ring_of r h -> seq_room h -> u64_ok a -> replayFrom r a = (out, true) ->
  out = drop (length h - length out) h /\ (length out <= length h)%nat.
Proof.
  intros Hr Hroom Ha Hrp. destruct (Z.eq_dec a 0) as [->|Hne].
  - destruct Hr as (_ & (ev & Hev) & _). unfold replayFrom in Hrp.
    assert (out = frames r) as -> by (destruct (frames r); by injection Hrp).
    rewrite Hev, length_app. replace (length ev + length (frames r) - length (frames r))%nat with (length ev) by lia.
    rewrite drop_app_length. split; [done|lia].
  - unfold u64_ok in Ha. rewrite (replayFrom_spec r h a Hr Hroom) in Hrp by lia. case_match; [|done].
    injection Hrp as <-. rewrite length_drop. split; [|lia]. unfold blen in *.
    f_equal. lia.
Qed.

Lemma Subscribe_inv i from s s' :
  session_inv s -> seq_room (hist s) -> u64_ok from -> Subscribe i from s = Ok s' -> session_inv s'.
Proof.
  intros ([Hn Hr Hg Hf Hfe Hrel] & He & Hb) Hroom Hfrom Hsub. unfold Subscribe in Hsub.
  destruct (replayFrom (s_ring s) from) as [out hit] eqn:Hrp. destruct hit; cbn [negb] in Hsub; [|done].
  destruct (newSubscription _ _ _ _) as [x g] eqn:Hnew. injection Hsub as <-.
  apply (replay_suffix _ (hist s)) in Hrp as [Hout Hle]; [|done..].
  pose proof (newSubscription_keeps _ (proj1 (proj2 Hg)) _ _ _ _ _ Hnew) as (Hh & Hl & Hxf & Hc).
  assert (queue x = out /\ inflight x = None /\ delivered x = [] /\ stop x = false /\ closed x = false /\ ended x = false /\
          base x = (length (hist s) - length out)%nat) as (Hq & Hi & Hd & Hs & Hcl & Hen & Hba).
  { unfold newSubscription in Hnew. cbn in Hnew. case_match; by injection Hnew as <- <-. }
  set (y := if exited s then finish x else set_attached x).
  assert (queued y = queued x /\ saturated y = saturated x) as [Hyq Hys] by (unfold y; by destruct (exited s)).
  split; [|split; [exact He|exact Hb]]. constructor; sess; try done; fold y.
  - unfold total_queued, total_saturated. rewrite !zsum_app. cbn. rewrite !Z.add_0_r, Hyq, Hys.
    apply Hc; [apply saturated_nonneg|done].
  - rewrite Hh, Hl. apply Forall_app. split; [done|]. apply Forall_singleton.
    destruct Hxf as [H1 H2 H3 H4]. unfold y. by destruct (exited s).
  - apply Forall_app. split; [done|]. apply Forall_singleton. constructor.
    + unfold y. destruct (exited s); cbn; rewrite Hba; lia.
    + exists out. unfold y. destruct (exited s); cbn; rewrite Hba, Hd, Hi, Hq; done.
    + unfold y. destruct (exited s); cbn; auto.
    + unfold y. destruct (exited s); cbn; auto. congruence.
    + unfold y. destruct (exited s); cbn; rewrite Hcl; done.
Qed.

(** *** Exit, snapshots and the barrier *)

Lemma finalize_inv i p s :
  session_inv s -> exited s = false -> barrier s = None -> seq_room (hist (finalize i p s)) ->
  session_inv (finalize i p s).
Proof.
  intros (Hc & He & _) Hx Hb Hroom. rewrite Hx in Hc.
  pose proof (emit_frame_same i TypeExit (ExitPayload_Encode p) s) as [_ Hb'].
  change (finalize i p s) with
    (let s1 := emit_frame i TypeExit (ExitPayload_Encode p) s in
     {| nextSeq := nextSeq s1; lastRel := lastRel s1; s_ring := s_ring s1; exited := true; exitSeq := nextSeq s;
        subs := subs s1; flow := flow s1; barrier := barrier s1; hist := hist s1 |}) in *. cbv zeta in *.
  pose proof (emit_frame_core i TypeExit (ExitPayload_Encode p) s Hc) as Hcore.
  cbn [hist] in Hroom. pose proof (emit_frame_hist i TypeExit (ExitPayload_Encode p) s) as Hh. rewrite Hh in Hroom.
  specialize (Hcore Hroom). destruct Hcore as [Hn Hr Hg Hf Hfe Hrel]. split; [|split].
  - constructor; cbn; try done. eapply Forall_impl; [exact Hfe|]. intros x. by apply feed_ok_mono.
  - unfold exit_ok. cbn [exited hist exitSeq]. rewrite Hh. eexists _, _. split; [done|]. unfold exit_ok in He.
    rewrite Hx in He. done.
  - cbn [barrier]. rewrite Hb', Hb. done.
Qed.

Lemma emitSnapshot_inv i scr s :
  session_inv s -> barrier s = None -> seq_room (hist (fst (emitSnapshotLocked i scr s))) ->
  session_inv (fst (emitSnapshotLocked i scr s)).
Proof.
  intros Hi Hb. unfold emitSnapshotLocked. destruct (Screen_Encode scr) as [bs| |]; [|done..].
  destruct (exited s) eqn:Hx; [done|].
  match goal with |- context [allocFrameLocked i TypeSnapshot ?p s] => intros Hroom; apply (emit_frame_inv i TypeSnapshot p s) end; done.
Qed.

Lemma set_barrier_inv b s :
  session_inv s -> (forall l, b = Some l -> nextSeq s = l + 1) -> session_inv (set_barrier b s).
Proof. intros ([Hn Hr Hg Hf Hfe Hrel] & He & _) Hb. by split; [constructor|split]. Qed.

Lemma step_hist s s' : session_step s s' -> exists fs, hist s' = hist s ++ fs.
Proof.
  assert (forall h : list Frame, exists fs, h = h ++ fs) as Hsame by (intros h; exists []; by rewrite app_nil_r).
  assert (forall i scr t, exists fs, hist (fst (emitSnapshotLocked i scr t)) = hist t ++ fs) as Hsnap.
  { intros i scr t. unfold emitSnapshotLocked. destruct (Screen_Encode scr); [|apply Hsame..].
    destruct (exited t); [apply Hsame|]. match goal with |- context [allocFrameLocked i TypeSnapshot ?p t] =>
      exists [fst (allocFrameLocked i TypeSnapshot p t)]; apply (emit_frame_hist i TypeSnapshot p t) end. }
  intros Hst. destruct Hst as [s clk data|s i label|s i p ok|s i scr|s i p|s i from s' Hu Hsub| | | | | |s now| |s|s i scr]; try apply Hsame.
  - unfold onOutput. destruct (exited s); [apply Hsame|apply output_chunks_hist].
  - unfold EmitMarker. destruct (exited s); [apply Hsame|]. eexists. apply emit_frame_hist.
  - unfold Resize. destruct (ResizePayload_Encode p); [|apply Hsame..]. destruct (exited s); [apply Hsame|].
    destruct (negb ok); [apply Hsame|]. eexists. apply emit_frame_hist.
  - apply Hsnap.
  - eexists. apply (emit_frame_hist i TypeExit (ExitPayload_Encode p) s).
  - unfold Subscribe in Hsub. destruct (replayFrom _ _) as [out hit]. destruct (negb hit); [done|].
    destruct (newSubscription _ _ _ _). injection Hsub as <-. apply Hsame.
  - unfold Barrier_EmitSnapshot. destruct (barrier s); [|apply Hsame].
    destruct (emitSnapshotLocked i scr s) as [s1 r] eqn:E. specialize (Hsnap i scr s). by rewrite E in Hsnap.
Qed.

Lemma step_inv s s' : session_inv s -> session_step s s' -> seq_room (hist s') -> session_inv s'.
Proof.
  intros Hi Hst Hroom.
  assert (seq_room (hist s)) as Hroom0 by (destruct (step_hist _ _ Hst) as [fs E]; rewrite E in Hroom; by eapply seq_room_prefix).
  destruct Hst as [s clk data Hb|s i label Hb|s i p ok Hb|s i scr Hb|s i p Hb Hx|s i from s' Hu Hsub|s k x Hx Hk Ha
    |s k x x' g Hk Hc|s k x x' Hk Ht|s k x x' g Hk Ht|s k x x' Hk Ht|s now Ha|s Hb|s|s i scr].
  - unfold onOutput in *. destruct (exited s) eqn:Hx; [done|]. by apply output_chunks_inv.
  - unfold EmitMarker in *. destruct (exited s) eqn:Hx; [done|]. by apply emit_frame_inv.
  - unfold Resize in *. destruct (ResizePayload_Encode p); [|done..]. destruct (exited s) eqn:Hx; [done|].
    destruct (negb ok); [done|]. by apply emit_frame_inv.
  - by apply emitSnapshot_inv.
  - by apply finalize_inv.
  - by eapply Subscribe_inv.
  - destruct (sub_facts s k x Hi Hk) as (Hc & Hf & Hfe). apply (with_sub_inv s k x); try done.
    + by apply flow_keeps_refl.
    + rewrite Hx in *. by apply finish_feed.
  - destruct (sub_facts s k x Hi Hk) as (Hc' & Hf & Hfe). apply (with_sub_inv s k x); try done.
    + by eapply Close_keeps.
    + by eapply Close_feed.
  - destruct (sub_facts s k x Hi Hk) as (Hc & Hf & Hfe). apply (with_sub_inv s k x); try done.
    + by apply pump_take_keeps.
    + by eapply pump_take_feed.
  - destruct (sub_facts s k x Hi Hk) as (Hc & Hf & Hfe). apply (with_sub_inv s k x); try done.
    + by apply pump_deliver_keeps.
    + by eapply pump_deliver_feed.
  - destruct (sub_facts s k x Hi Hk) as (Hc & Hf & Hfe). apply (with_sub_inv s k x); try done.
    + by apply pump_close_keeps.
    + by eapply pump_close_feed.
  - destruct Hi as ([Hn Hr Hg Hf Hfe Hrel] & He & Hb). split; [|split; done].
    destruct (marks_force (flow s)) as [Hh Hl].
    constructor; sess; try done; [by apply force_counts|by rewrite Hh, Hl].
  - apply set_barrier_inv; [done|]. unfold lastSeqLocked. intros l [= <-]. destruct Hi as ([Hn _ _ _ _ _] & _).
    unfold seq_room in Hroom0. pose proof (blen_nonneg (hist s)).
    rewrite u64_small by (unfold u64_ok; rewrite Hn; unfold HostSeqStart; lia). lia.
  - by apply set_barrier_inv.
  - unfold Barrier_EmitSnapshot in *. destruct (barrier s) eqn:Hb; [|done].
    pose proof (emitSnapshot_inv i scr (set_barrier None s)) as Hsi.
    assert (fst (let '(s1, r) := emitSnapshotLocked i scr s in (set_barrier None s1, r)) =
            fst (emitSnapshotLocked i scr (set_barrier None s))) as Heq.
    { unfold emitSnapshotLocked. destruct (Screen_Encode scr); [|done..]. sess.
      destruct (exited s); [done|]. cbn. unfold publishLocked. cbn. by destruct (enqueue_all _ _ _ _). }
    rewrite Heq in *. apply Hsi; [by apply set_barrier_inv|done|done].
Qed.

Lemma reachable_inv rb cfg s : reachable rb cfg s -> seq_room (hist s) -> session_inv s.
Proof.
  induction 1 as [|s s' Hr IH Hst]; intros Hroom.
  - split; [|split; [constructor|done]]. constructor; cbn; try done.
    + apply ring_of_new.
    + apply newOutputGate_counts.
    + split; constructor.
  - apply (step_inv s); try done. apply IH. destruct (step_hist _ _ Hst) as [fs E]. rewrite E in Hroom.
    by eapply seq_room_prefix.
Qed.

(** ** A run

    Two bytes are read, a subscriber joins from the start, takes and receives the
    frame, the barrier is raised. *)

Definition demo_clk (n : nat) : instant := {| wall := Z.of_nat n; micros := 5 |}.
Definition demo_flow : OutputFlowControl := {| HighWaterBytes := 10; LowWaterBytes := 1; PauseBound := 0 |}.

Definition demo0 : Session := NewSession 100 (Some demo_flow).
Definition demo1 : Session := onOutput demo_clk [0x41; 0x42] demo0.
Definition demo2 : Session := match Subscribe (demo_clk 7) 0 demo1 with Ok s => s | _ => demo1 end.
Definition demo_sub : subscription := nth 0 (subs demo2) (fst (newSubscription 0 [] 0 None)).
Definition demo_taken : subscription := default demo_sub (pump_take demo_sub).
Definition demo3 : Session := with_sub 0 demo_taken (flow demo2) demo2.
Definition demo_got : subscription * option outputGate :=
  default (demo_taken, flow demo3) (pump_deliver demo_taken (flow demo3)).
Definition demo4 : Session := with_sub 0 (fst demo_got) (snd demo_got) demo3.
Definition demo5 : Session := fst (BeginOutputBarrier demo4).

Lemma demo1_reachable : reachable 100 (Some demo_flow) demo1.
Proof. apply (reach_step _ _ demo0); [apply reach_new|]. by apply st_output. Qed.

Lemma demo2_reachable : reachable 100 (Some demo_flow) demo2.
Proof.
  apply (reach_step _ _ demo1); [apply demo1_reachable|].
  apply (st_subscribe demo1 (demo_clk 7) 0); [unfold u64_ok; lia|vm_compute; reflexivity].
Qed.

Lemma demo4_reachable : reachable 100 (Some demo_flow) demo4.
Proof.
  apply (reach_step _ _ demo3); [apply (reach_step _ _ demo2); [apply demo2_reachable|]|].
  - apply (st_take demo2 0 demo_sub); vm_compute; reflexivity.
  - apply (st_deliver demo3 0 demo_taken); vm_compute; reflexivity.
Qed.

Lemma demo5_reachable : reachable 100 (Some demo_flow) demo5.
Proof. apply (reach_step _ _ demo4); [apply demo4_reachable|]. apply st_begin. vm_compute; reflexivity. Qed.

(** ** Theorems *)

(** C3. Delivery is lossless and in order, under every interleaving of output,
    subscriptions, closes and slow consumers: in every reachable state what a
    subscriber has received is a contiguous run of the host's frames from its
    position on; while it is not closed, what it received, the frame being handed
    over and its queue together are all of the frames from its position on; and a
    channel that ends without a close has delivered everything, the Exit frame
    last. *)
Theorem lossless_delivery rb cfg s x :
  reachable rb cfg s -> seq_room (hist s) -> x ∈ subs s ->
  (exists rest, drop (base x) (hist s) = delivered x ++ rest) /\
  (stop x = false -> drop (base x) (hist s) = delivered x ++ option_list (inflight x) ++ queue x) /\
  (closed x = true -> stop x = false ->
     delivered x = drop (base x) (hist s) /\ exists e, last (hist s) = Some e /\ Type_ e = TypeExit).
Proof.
  intros Hr Hroom Hx. destruct (reachable_inv _ _ _ Hr Hroom) as ([_ _ _ _ Hfe _] & He & _).
  rewrite Forall_forall in Hfe. destruct (Hfe x Hx) as [Hb (rest & Hrest & Hq) Hd Hen Hc].
  split; [by exists (option_list (inflight x) ++ rest)|]. split; [intros Hs; by rewrite Hrest, (Hq Hs)|].
  intros Hcl Hs. destruct (Hc Hcl Hs) as (Hi & Hqu & Hend). rewrite Hrest, (Hq Hs), Hi, Hqu. simpl. rewrite app_nil_r.
  split; [done|]. unfold exit_ok in He. rewrite (Hen Hend) in He. destruct He as (pre & e & -> & Ht & _).
  exists e. by rewrite last_snoc.
Qed.

Lemma lossless_delivery_witness :
  exists x, x ∈ subs demo4 /\ delivered x = hist demo4 /\ blen (delivered x) = 1 /\
    drop (base x) (hist demo4) = delivered x ++ option_list (inflight x) ++ queue x.
Proof.
  exists (fst demo_got). assert (fst demo_got ∈ subs demo4) as Hin by (vm_compute; by left).
  split; [exact Hin|]. split; [vm_compute; reflexivity|]. split; [vm_compute; reflexivity|].
  refine (proj1 (proj2 (lossless_delivery 100 (Some demo_flow) demo4 (fst demo_got) demo4_reachable _ Hin)) _).
  - unfold seq_room. vm_compute. reflexivity.
  - vm_compute. reflexivity.
Defined.

(** Sequence numbers and times: in every reachable state the stream is
    numbered 1, 2, 3, ... without a hole, the ring is a suffix of it within its
    byte budget (or a single frame), the relative times never decrease, and
    nothing follows the Exit frame. *)
Theorem stream_well_formed rb cfg s :
  reachable rb cfg s -> seq_room (hist s) ->
  seq_from HostSeqStart (hist s) /\ nextSeq s = HostSeqStart + blen (hist s) /\
  (exists evicted, hist s = evicted ++ frames (s_ring s)) /\
  (curBytes (s_ring s) = payload_bytes (frames (s_ring s))) /\
  (curBytes (s_ring s) <= maxBytes (s_ring s) \/ blen (frames (s_ring s)) <= 1) /\
  StronglySorted Z.le (map RelTime (hist s)) /\
  (forall pre f post, hist s = pre ++ f :: post -> Type_ f = TypeExit -> post = [] /\ exited s = true /\ exitSeq s = Seq f).
Proof.
  intros Hr Hroom. destruct (reachable_inv _ _ _ Hr Hroom) as ([Hn (Hs & Hev & Hcur & Hbud & _) _ _ _ [_ Hrel]] & He & _).
  repeat (split; [done|]). intros pre f post Hh Ht. unfold exit_ok in He. destruct (exited s).
  - destruct He as (pre' & e & Hh' & _ & Hseq & Hpre). rewrite Hh' in Hh.
    destruct post as [|g post] using rev_ind.
    + apply app_inj_tail in Hh as [_ ->]. done.
    + rewrite app_comm_cons, app_assoc in Hh. apply app_inj_tail in Hh as [-> _].
      apply Forall_app in Hpre as [_ Hpre]. by inversion Hpre.
  - rewrite Hh in He. apply Forall_app in He as [_ He]. by inversion He.
Qed.

Lemma stream_well_formed_witness :
  seq_from HostSeqStart (hist demo4) /\ nextSeq demo4 = 2.
Proof.
  split; [|vm_compute; reflexivity].
  refine (proj1 (stream_well_formed 100 (Some demo_flow) demo4 demo4_reachable _)).
  unfold seq_room. vm_compute. reflexivity.
Defined.

(** Subscribing at an applied position replays exactly the missing frames:
    for a position between 1 and the number of frames so far the new subscriber
    starts there, with precisely the frames after it queued, whenever the ring
    still reaches that far back; otherwise the call reports a ring miss and
    changes nothing. *)
Theorem subscribe_position rb cfg s i from :
  reachable rb cfg s -> seq_room (hist s) -> 0 < from < 2 ^ 64 ->
  if (blen (hist s) - blen (frames (s_ring s)) <=? from) && (from <=? blen (hist s)) && (0 <? blen (hist s))
  then exists s' x, Subscribe i from s = Ok s' /\ subs s' = subs s ++ [x] /\ hist s' = hist s /\
         base x = Z.to_nat from /\ queue x = drop (Z.to_nat from) (hist s) /\ delivered x = [] /\
         attached x = negb (exited s) /\ ended x = exited s
  else Subscribe i from s = Err ErrRingMiss.
Proof.
  intros Hr Hroom Hfrom. destruct (reachable_inv _ _ _ Hr Hroom) as ([_ Hring _ _ _ _] & _).
  unfold Subscribe. rewrite (replayFrom_spec _ (hist s)) by done.
  match goal with |- if ?c then _ else _ => destruct c eqn:Hin end; [|done]. cbn [negb].
  destruct (newSubscription _ _ _ _) as [x g] eqn:Hnew.
  assert (queue x = drop (Z.to_nat from) (hist s) /\ delivered x = [] /\ ended x = false /\ attached x = false /\
          base x = (length (hist s) - length (drop (Z.to_nat from) (hist s)))%nat) as (Hq & Hd & Hen & Hat & Hba).
  { unfold newSubscription in Hnew. cbn in Hnew. case_match; by injection Hnew as <- <-. }
  rewrite length_drop in Hba. eexists _, _. split; [done|]. split; [done|]. split; [done|].
  unfold blen in Hin. destruct (exited s); cbn; rewrite ?Hq, ?Hd, ?Hen, ?Hba, ?Hat; repeat split; try done; lia.
Qed.

Lemma subscribe_position_witness :
  Subscribe (demo_clk 9) 2 demo4 = Err ErrRingMiss /\
  exists s' x, Subscribe (demo_clk 9) 1 demo4 = Ok s' /\ subs s' = subs demo4 ++ [x] /\ base x = 1%nat.
Proof.
  assert (seq_room (hist demo4)) as Hroom by (unfold seq_room; vm_compute; reflexivity). split.
  - exact (subscribe_position 100 (Some demo_flow) demo4 (demo_clk 9) 2 demo4_reachable Hroom ltac:(lia)).
  - destruct (subscribe_position 100 (Some demo_flow) demo4 (demo_clk 9) 1 demo4_reachable Hroom ltac:(lia))
      as (s' & x & H1 & H2 & _ & H3 & _). by exists s', x.
Defined.

(** C20. The gate: in every reachable state with flow control on, the gate's
    byte and saturation counts are those of the subscribers, a saturated
    subscriber is open and holds more than the low-water mark, the reader is
    paused or was forced open exactly while some subscriber is saturated, and an
    unsaturated one is within the high-water mark.  So once every subscriber is
    closed or has drained to the low-water mark the reader reads on at once. *)
Theorem flow_gate_correct rb cfg s g :
  reachable rb cfg s -> seq_room (hist s) -> flow s = Some g ->
  g_pending g = total_queued (subs s) /\ g_saturated g = total_saturated (subs s) /\
  (paused g || forced g = true <-> exists x, x ∈ subs s /\ saturated x = true) /\
  (forall x, x ∈ subs s -> saturated x = true -> low g < queued x /\ stop x = false) /\
  (forall x, x ∈ subs s -> saturated x = false -> queued x <= high g) /\
  ((forall x, x ∈ subs s -> stop x = true \/ queued x <= low g) -> forall now, await now (flow s) = AwaitRead).
Proof.
  intros Hr Hroom Hg. destruct (reachable_inv _ _ _ Hr Hroom) as ([_ _ Hgc Hf _ _] & _).
  rewrite Hg in *. destruct Hgc as (_ & Hc & Hq & Hs & Hp & Hx & _). simpl in Hf, Hc. rewrite Forall_forall in Hf.
  assert (0 < total_saturated (subs s) <-> exists x, x ∈ subs s /\ saturated x = true) as Hex.
  { clear. unfold total_saturated, zsum. induction (subs s) as [|x xs IH]; simpl.
    - split; [lia|]. intros (x & Hx & _). by apply not_elem_of_nil in Hx.
    - pose proof (b2z_range (saturated x)). pose proof (saturated_nonneg xs) as Hn. unfold total_saturated, zsum in Hn. split.
      + intros Hlt. destruct (saturated x) eqn:Hx; [exists x; split; [by left|done]|]. simpl in Hlt.
        destruct (proj1 IH) as (y & ? & ?); [lia|]. exists y. split; [by right|done].
      + intros (y & Hy & Hsy). apply elem_of_cons in Hy as [-> | Hy]; [rewrite Hsy; simpl; lia|].
        pose proof (proj2 IH ltac:(eauto)). lia. }
  assert (paused g || forced g = true <-> exists x, x ∈ subs s /\ saturated x = true) as Hiff.
  { rewrite Hp, Z.ltb_lt. exact Hex. }
  assert (forall x, x ∈ subs s -> saturated x = true -> low g < queued x /\ stop x = false) as Hsat.
  { intros x Hxs Hsa. destruct (Hf x Hxs) as [_ _ H3 _]. by destruct (H3 Hsa) as (? & ? & ?). }
  repeat (split; [done|]). split.
  - intros x Hxs Hsa. destruct (Hf x Hxs) as [_ _ _ H4]. apply H4; [done|lia].
  - intros Hall now. simpl. destruct (paused g) eqn:Hpa; [|done]. exfalso.
    destruct (proj1 Hiff) as (x & Hxs & Hsa); [done|]. destruct (Hsat x Hxs Hsa) as [Hlo Hst].
    destruct (Hall x Hxs); [congruence|lia].
Qed.

Definition paused_gate : outputGate :=
  {| high := 10; low := 1; bound := DefaultOutputPauseBound; g_pending := 66; g_saturated := 1; paused := true;
     since := Some 7; forced := false; releases := 0 |}.

Lemma demo2_gate : flow demo2 = Some paused_gate.
Proof. vm_compute. reflexivity. Qed.

Lemma demo2_room : seq_room (hist demo2).
Proof. unfold seq_room. vm_compute. reflexivity. Qed.

Lemma flow_gate_correct_witness :
  (exists x, x ∈ subs demo2 /\ saturated x = true) /\ g_pending paused_gate = total_queued (subs demo2).
Proof.
  destruct (flow_gate_correct 100 (Some demo_flow) demo2 paused_gate demo2_reachable demo2_room demo2_gate)
    as (Hp & _ & Hiff & _). split; [|exact Hp]. apply Hiff. reflexivity.
Defined.

(** The output barrier: the snapshot emitted through a held barrier is the
    exact successor of the position the barrier froze, and it says so ([AtSeq] is
    that position); the sequence allocators cannot run in between. *)
Theorem barrier_snapshot_successor rb cfg s l i scr snap :
  reachable rb cfg s -> seq_room (hist s) -> barrier s = Some l -> exited s = false -> Screen_Encode scr = Ok snap ->
  exists f, Barrier_EmitSnapshot i scr s =
      (set_barrier None (publishLocked i f (snd (allocFrameLocked i TypeSnapshot (Payload f) s))), Ok (f, true)) /\
    Seq f = l + 1 /\ Type_ f = TypeSnapshot /\
    Payload f = SnapshotEnvelope_Encode {| EnvAtSeq := l; SnapFormat := SnapFormatScreen; Snap := snap |} /\
    hist (fst (Barrier_EmitSnapshot i scr s)) = hist s ++ [f] /\ l = blen (hist s).
Proof.
  intros Hr Hroom Hb Hx Hscr. destruct (reachable_inv _ _ _ Hr Hroom) as ([Hn _ _ _ _ _] & _ & Hbar).
  specialize (Hbar _ Hb). unfold seq_room in Hroom. pose proof (blen_nonneg (hist s)). unfold HostSeqStart in Hn.
  unfold Barrier_EmitSnapshot, emitSnapshotLocked. rewrite Hb, Hscr, Hx.
  replace (u64 (nextSeq s - 1)) with l by (rewrite u64_small; unfold u64_ok; lia).
  eexists {| Type_ := TypeSnapshot; Seq := nextSeq s; RelTime := relTimeLocked i s;
             Payload := SnapshotEnvelope_Encode {| EnvAtSeq := l; SnapFormat := SnapFormatScreen; Snap := snap |} |}.
  split; [done|]. split; [done|]. split; [done|]. split; [done|]. split; [|lia].
  cbn. unfold publishLocked. cbn. by destruct (enqueue_all _ _ _ _).
Qed.

Lemma barrier_snapshot_successor_witness :
  exists f, hist (fst (Barrier_EmitSnapshot (demo_clk 3) sample_screen demo5)) = hist demo5 ++ [f] /\ Seq f = 2.
Proof.
  assert (exists snap, Screen_Encode sample_screen = Ok snap) as [snap Hs] by (eexists; vm_compute; reflexivity).
  destruct (barrier_snapshot_successor 100 (Some demo_flow) demo5 1 (demo_clk 3) sample_screen snap) as (f & _ & Hf & _ & _ & Hh & _);
    [exact demo5_reachable|unfold seq_room; vm_compute; reflexivity|vm_compute; reflexivity|vm_compute; reflexivity|exact Hs|].
  by exists f.
Defined.
