(* ===== verification/TitleFilter.v ===== *)
(** * TitleFilter: the OSC title filter in front of the snapshot emulator
    ([src/ptyhost/osc_title_filter.go])

    A second, narrower byte automaton: it removes OSC 0/1/2 and passes every other
    byte.  [Write] has a fast path that returns the chunk as it is; the theorems
    say what the automaton removes and keeps, and when the fast path agrees with
    it. *)

From S2P Require Import Prelude Varint Reader Utf8 Base64 Sanitizer.

Module TitleFilter.

Inductive oscTitleState := oscTitleGround | oscTitleEsc | oscTitleCommand | oscTitlePass | oscTitleDrop.

Record oscTitleFilter := { state : oscTitleState; pending : bytes; utf8Rem : Z; oscEsc : bool }.

Definition oscTitleSelectorMax : Z := 16.

Definition new : oscTitleFilter := {| state := oscTitleGround; pending := []; utf8Rem := 0; oscEsc := false |}.

Definition utf8ContinuationCount (b : Z) : Z :=
  if in_range 0xC2 0xDF b then 1
  else if in_range 0xE0 0xEF b then 2
  else if in_range 0xF0 0xF4 b then 3
  else 0.

Definition reset (f : oscTitleFilter) : oscTitleFilter :=
  {| state := oscTitleGround; pending := []; utf8Rem := 0; oscEsc := false |}.

(** Index and slice expressions keep Go's panics. *)
Definition selector (p : bytes) : go bytes :=
  let* intro :=
    if 2 <=? blen p then
      let* p0 := index p 0 in
      let* p1 := index p 1 in
      Ok (if (p0 =? 0x1B) && (p1 =? 0x5D) then 2 else 1)
    else Ok 1 in
  let end_ := blen p in
  let* end_ :=
    if intro <? end_ then
      let* l := index p (end_ - 1) in
      Ok (if (l =? 0x3B) || (l =? 0x1B) then end_ - 1 else end_)
    else Ok end_ in
  let* t := slice_to p end_ in slice_from t intro.

Definition isTitleSelector (p : bytes) : go bool :=
  let* s := selector p in
  Ok (match s with [c] => (c =? 0x30) || (c =? 0x31) || (c =? 0x32) | _ => false end).

(** A step: was the byte consumed, the new filter, the bytes appended. *)
Definition result : Type := bool * oscTitleFilter * bytes.

Definition stepGround (f : oscTitleFilter) (b : Z) : go result :=
  if 0 <? utf8Rem f then
    if in_range 0x80 0xBF b
    then Ok (true, {| state := state f; pending := pending f; utf8Rem := utf8Rem f - 1; oscEsc := oscEsc f |}, [b])
    else Ok (false, {| state := state f; pending := pending f; utf8Rem := 0; oscEsc := oscEsc f |}, [])
  else if b =? 0x1B then
    Ok (true, {| state := oscTitleEsc; pending := [b]; utf8Rem := utf8Rem f; oscEsc := oscEsc f |}, [])
  else if b =? 0x9D then
    Ok (true, {| state := oscTitleCommand; pending := [b]; utf8Rem := utf8Rem f; oscEsc := oscEsc f |}, [])
  else Ok (true, {| state := state f; pending := pending f; utf8Rem := utf8ContinuationCount b; oscEsc := oscEsc f |}, [b]).

Definition stepCommand (f : oscTitleFilter) (b : Z) : go result :=
  if b =? 0x3B then
    let p := pending f ++ [b] in
    let* t := isTitleSelector p in
    if t : bool
    then Ok (true, {| state := oscTitleDrop; pending := []; utf8Rem := utf8Rem f; oscEsc := oscEsc f |}, [])
    else Ok (true, {| state := oscTitlePass; pending := []; utf8Rem := utf8Rem f; oscEsc := oscEsc f |}, p)
  else if (b =? 0x07) || (b =? 0x9C) then
    let* t := isTitleSelector (pending f) in
    Ok (true, reset f, if t : bool then [] else pending f ++ [b])
  else if b =? 0x1B then
    Ok (true, {| state := state f; pending := pending f ++ [b]; utf8Rem := utf8Rem f; oscEsc := true |}, [])
  else if (b =? 0x18) || (b =? 0x1A) then Ok (true, reset f, pending f ++ [b])
  else if oscEsc f then
    if b =? 0x5C then
      let* t := isTitleSelector (pending f) in
      Ok (true, reset f, if t : bool then [] else pending f ++ [b])
    else
      Ok (false, {| state := oscTitlePass; pending := []; utf8Rem := utf8Rem f; oscEsc := false |}, pending f)
  else
    let* sel := if digit_byte b then selector (pending f) else Ok [] in
    if digit_byte b && (blen sel <? oscTitleSelectorMax)
    then Ok (true, {| state := state f; pending := pending f ++ [b]; utf8Rem := utf8Rem f; oscEsc := oscEsc f |}, [])
    else Ok (true, {| state := oscTitlePass; pending := []; utf8Rem := utf8Rem f; oscEsc := oscEsc f |}, pending f ++ [b]).

Definition stepOSC (f : oscTitleFilter) (b : Z) (drop : bool) : go result :=
  let keep := if drop then [] else [b] in
  if 0 <? utf8Rem f then
    if in_range 0x80 0xBF b
    then Ok (true, {| state := state f; pending := pending f; utf8Rem := utf8Rem f - 1; oscEsc := oscEsc f |}, keep)
    else Ok (false, {| state := state f; pending := pending f; utf8Rem := 0; oscEsc := oscEsc f |}, [])
  else if oscEsc f then
    if b =? 0x5C then Ok (true, reset f, keep)
    else Ok (false, {| state := state f; pending := pending f; utf8Rem := utf8Rem f; oscEsc := false |}, [])
  else if b =? 0x1B then
    Ok (true, {| state := state f; pending := pending f; utf8Rem := utf8Rem f; oscEsc := true |}, keep)
  else if (b =? 0x07) || (b =? 0x9C) then Ok (true, reset f, keep)
  else if (b =? 0x18) || (b =? 0x1A) then Ok (true, reset f, keep)
  else Ok (true, {| state := state f; pending := pending f; utf8Rem := utf8ContinuationCount b; oscEsc := oscEsc f |}, keep).

Definition step (f : oscTitleFilter) (b : Z) : go result :=
  match state f with
  | oscTitleGround => stepGround f b
  | oscTitleEsc =>
      if b =? 0x5D
      then Ok (true, {| state := oscTitleCommand; pending := pending f ++ [b]; utf8Rem := utf8Rem f; oscEsc := oscEsc f |}, [])
      else Ok (false, {| state := oscTitleGround; pending := []; utf8Rem := utf8Rem f; oscEsc := oscEsc f |}, pending f)
  | oscTitleCommand => stepCommand f b
  | oscTitlePass => stepOSC f b false
  | oscTitleDrop => stepOSC f b true
  end.

(** The loop of [Write]: each byte is re-dispatched until it is consumed, at most
    [redispatch] times. *)
Definition redispatch : nat := 4.

Fixpoint feed (fuel : nat) (f : oscTitleFilter) (b : Z) : go (oscTitleFilter * bytes) :=
  match fuel with
  | O => Err OutOfFuel
  | S fuel' =>
      let* r := step f b in
      let '(consumed, f', o) := r in
      if consumed : bool then Ok (f', o)
      else let* k := feed fuel' f' b in Ok (fst k, o ++ snd k)
  end.

Fixpoint run (f : oscTitleFilter) (p : bytes) : go (oscTitleFilter * bytes) :=
  match p with
  | [] => Ok (f, [])
  | b :: p' =>
      let* r := feed redispatch f b in
      let* k := run (fst r) p' in
      Ok (fst k, snd r ++ snd k)
  end.

Definition plain (p : bytes) : bool := negb (has_byte 0x1B p) && negb (has_byte 0x9D p).

Definition at_ground (f : oscTitleFilter) : bool :=
  match state f with oscTitleGround => true | _ => false end.

Definition Write (f : oscTitleFilter) (p : bytes) : go (oscTitleFilter * bytes) :=
  if at_ground f && (utf8Rem f =? 0) && plain p then Ok (f, p) else run f p.

(** ** Totality *)

(** Between bytes, what is held back is an introducer with a selector and
    perhaps ESCs; in the other states nothing is. *)
Definition intro_ok (i : bytes) : Prop := i = [0x1B; 0x5D] \/ i = [0x9D].

Definition all_digits (ds : bytes) : Prop := Forall (fun d => digit_byte d = true) ds.

Definition inv (f : oscTitleFilter) : Prop :=
  0 <= utf8Rem f /\
  match state f with
  | oscTitleGround => oscEsc f = false /\ pending f = []
  | oscTitleEsc => pending f = [0x1B] /\ oscEsc f = false /\ utf8Rem f = 0
  | oscTitleCommand =>
      utf8Rem f = 0 /\
      exists i ds n, intro_ok i /\ all_digits ds /\ blen ds <= oscTitleSelectorMax /\
        pending f = i ++ ds ++ repeat 0x1B n /\ oscEsc f = negb (Nat.eqb n 0)
  | oscTitlePass | oscTitleDrop => pending f = []
  end.

(** How many more re-dispatches the next byte can take. *)
Definition rank (f : oscTitleFilter) : nat :=
  let r := if 0 <? utf8Rem f then 1%nat else 0%nat in
  match state f with
  | oscTitleGround => r
  | oscTitleEsc => 2
  | oscTitleCommand => 1
  | _ => r + if oscEsc f then 1 else 0
  end.

Lemma repeat_esc_last n : repeat 0x1B (S n) = repeat 0x1B n ++ [0x1B].
Proof. induction n as [|n IH]; [done|]. cbn [repeat app]. f_equal. exact IH. Qed.

Lemma index_snoc {E A} (l : list A) x : index (E := E) (l ++ [x]) (blen (l ++ [x]) - 1) = Ok x.
Proof.
  unfold index. rewrite blen_app. change (blen [x]) with 1. pose proof (blen_nonneg l).
  replace (0 <=? blen l + 1 - 1) with true by lia. replace (Z.to_nat (blen l + 1 - 1)) with (length l) by (unfold blen; lia).
  by rewrite list_lookup_middle.
Qed.

(** The two index tests of [selector] find the introducer. *)
Lemma selector_intro i ds rest :
  intro_ok i -> all_digits ds ->
  (if 2 <=? blen (i ++ ds ++ rest) then
     let* p0 := index (i ++ ds ++ rest) 0 in
     let* p1 := index (i ++ ds ++ rest) 1 in
     Ok (if (p0 =? 0x1B) && (p1 =? 0x5D) then 2 else 1)
   else Ok 1) = (Ok (blen i) : go Z).
Proof.
  intros [-> | ->] Hd.
  - replace (2 <=? _) with true; [done|]. rewrite blen_app. pose proof (blen_nonneg (ds ++ rest)).
    change (blen [0x1B; 0x5D]) with 2. lia.
  - destruct (2 <=? _) eqn:Hl; [|done]. destruct (ds ++ rest) as [|c l] eqn:E; [done|]. done.
Qed.

Lemma selector_ok i ds rest :
  intro_ok i -> all_digits ds ->
  selector (i ++ ds ++ rest) =
    match last rest with
    | None => Ok ds
    | Some l => Ok (ds ++ if (l =? 0x3B) || (l =? 0x1B) then take (length rest - 1) rest else rest)
    end.
Proof.
  intros Hi Hd. unfold selector. rewrite (selector_intro i ds rest Hi Hd). cbn [obind].
  pose proof (blen_nonneg i). pose proof (blen_nonneg ds). pose proof (blen_nonneg rest).
  destruct (last rest) as [l|] eqn:Hl.
  - apply last_Some in Hl as [r ->]. replace (blen i <? _) with true by (rewrite !blen_app; change (blen [l]) with 1; pose proof (blen_nonneg r); lia).
    rewrite !app_assoc, index_snoc. cbn [obind]. rewrite <- !app_assoc. rewrite length_app, Nat.add_sub, take_app_length.
    destruct ((l =? 0x3B) || (l =? 0x1B)).
    + replace (blen (i ++ ds ++ r ++ [l]) - 1) with (blen (i ++ ds ++ r)) by (rewrite !blen_app; change (blen [l]) with 1; lia).
      replace (i ++ ds ++ r ++ [l]) with ((i ++ ds ++ r) ++ [l]) by (by rewrite <- !app_assoc).
      rewrite slice_to_app. cbn [obind]. apply slice_from_app.
    + rewrite slice_to_full. cbn [obind]. apply slice_from_app.
  - apply last_None in Hl as ->. rewrite app_nil_r.
    assert (forall m : go Z, m = Ok (blen (i ++ ds)) -> (let* e := m in let* t := slice_to (i ++ ds) e in slice_from t (blen i)) = Ok ds) as Hm.
    { intros m ->. cbn [obind]. rewrite slice_to_full. cbn [obind]. apply slice_from_app. }
    apply Hm. destruct (blen i <? _) eqn:Hlt; [|done].
    destruct ds as [|d ds _] using rev_ind; [rewrite app_nil_r in Hlt; lia|].
    rewrite app_assoc, index_snoc. cbn [obind]. apply Forall_app in Hd as [_ Hd]. inversion Hd as [|? ? Hd0 _]; subst. clear Hd. rename Hd0 into Hd.
    unfold digit_byte, in_range in Hd. by replace ((d =? 0x3B) || (d =? 0x1B)) with false by lia.
Qed.

Definition one_title_digit (s : bytes) : bool :=
  match s with [c] => (c =? 0x30) || (c =? 0x31) || (c =? 0x32) | _ => false end.

Lemma isTitle_semi i ds n :
  intro_ok i -> all_digits ds ->
  isTitleSelector ((i ++ ds ++ repeat 0x1B n) ++ [0x3B]) = Ok (one_title_digit (ds ++ repeat 0x1B n)).
Proof.
  intros Hi Hd. unfold isTitleSelector. rewrite <- !app_assoc, selector_ok by done.
  rewrite last_snoc. cbn [obind]. rewrite length_app, Nat.add_sub, take_app_length. done.
Qed.

Lemma isTitle_end i ds n :
  intro_ok i -> all_digits ds ->
  isTitleSelector (i ++ ds ++ repeat 0x1B n) = Ok (one_title_digit (ds ++ repeat 0x1B (n - 1))).
Proof.
  intros Hi Hd. unfold isTitleSelector. rewrite selector_ok by done. destruct n as [|n]; [simpl; by rewrite app_nil_r|].
  rewrite repeat_esc_last, last_snoc. cbn [obind]. rewrite length_app, Nat.add_sub, take_app_length.
  simpl. by rewrite Nat.sub_0_r.
Qed.

(** What a step guarantees: no panic, the invariant, fewer re-dispatches left,
    and no byte that was not held back or just read. *)
Definition step_ok (f : oscTitleFilter) (b : Z) (m : go result) : Prop :=
  match m with
  | Ok (c, f', o) =>
      inv f' /\ if c then (o ++ pending f') `sublist_of` (pending f ++ [b])
                else (rank f' < rank f)%nat /\ (o ++ pending f') `sublist_of` pending f
  | _ => False
  end.

Lemma count_nonneg b : 0 <= utf8ContinuationCount b.
Proof. unfold utf8ContinuationCount. repeat case_match; lia. Qed.

Lemma title_ground_ok f b : inv f -> state f = oscTitleGround -> step_ok f b (stepGround f b).
Proof.
  intros [H0 Hi] Hs. rewrite Hs in Hi. destruct Hi as [He Hp]. unfold stepGround. rewrite Hs, Hp, He.
  destruct (0 <? utf8Rem f) eqn:Hr.
  - destruct (in_range _ _ b); cbn; rewrite Hp.
    + split; [|done]. split; [cbn; lia|done].
    + split; [|split; [|done]]; [split; [cbn; lia|done]|]. unfold rank. cbn [state utf8Rem]. rewrite Hs, Hr. simpl. lia.
  - destruct (Z.eqb_spec b 0x1B) as [->|]; [cbn; rewrite Hp; split; [|done]; split; [done|cbn; repeat split; lia]|].
    destruct (Z.eqb_spec b 0x9D) as [->|].
    + cbn. rewrite Hp. split; [|done]. split; [done|]. split; [cbn; lia|].
      exists [0x9D], [], 0%nat. repeat split; [by right|constructor|done].
    + cbn. rewrite Hp. split; [|done]. split; [apply count_nonneg|done].
Qed.

Lemma stepCommand_ok f b : inv f -> state f = oscTitleCommand -> step_ok f b (stepCommand f b).
Proof.
  intros [H0 Hi] Hs. rewrite Hs in Hi. destruct Hi as (Hu & i & ds & n & Hin & Hd & Hl & Hp & He).
  unfold stepCommand. rewrite Hs, Hp, Hu.
  destruct (Z.eqb_spec b 0x3B) as [->|N1].
  { rewrite isTitle_semi by done. cbn [obind]. destruct (one_title_digit _); cbn [step_ok pending].
    - split; [by split|]. apply sublist_nil_l.
    - split; [by split|]. rewrite Hp, app_nil_r. done. }
  destruct (_ || _) eqn:N2.
  { rewrite isTitle_end by done. cbn [obind step_ok reset pending]. split; [by split|]. rewrite Hp, app_nil_r.
    destruct (one_title_digit _); [apply sublist_nil_l|done]. }
  destruct (Z.eqb_spec b 0x1B) as [->|N3].
  { cbn. rewrite Hp. split; [|done]. split; [done|]. split; [done|]. exists i, ds, (S n).
    split; [done|]. split; [done|]. split; [done|]. split; [|done]. by rewrite repeat_esc_last, <- !app_assoc. }
  destruct ((b =? 0x18) || _) eqn:N4; [cbn; rewrite Hp, app_nil_r; split; [by split|done]|].
  destruct n as [|n]; cbn in He; rewrite He.
  - cbn [repeat] in *. rewrite app_nil_r in *. pose proof (selector_ok i ds [] Hin Hd) as Hsel. rewrite app_nil_r in Hsel.
    cbn in Hsel. rewrite Hsel.
    assert (forall m : go bytes, m = Ok (if digit_byte b then ds else []) -> step_ok f b
      (let* sel := m in
       if digit_byte b && (blen sel <? oscTitleSelectorMax)
       then Ok (true, {| state := oscTitleCommand; pending := (i ++ ds) ++ [b]; utf8Rem := 0; oscEsc := false |}, [])
       else Ok (true, {| state := oscTitlePass; pending := []; utf8Rem := 0; oscEsc := false |}, (i ++ ds) ++ [b]))) as Hm.
    { intros m ->. cbn [obind]. destruct (digit_byte b) eqn:Hdb; cbn [andb].
      - destruct (Z.ltb_spec (blen ds) oscTitleSelectorMax) as [Hlt|Hge]; cbn; rewrite Hp, ?app_nil_r; (split; [|done]).
        + split; [done|]. split; [done|]. exists i, (ds ++ [b]), 0%nat. cbn. rewrite app_nil_r, <- app_assoc.
          repeat split; try done; [apply Forall_app; split; [done|by apply Forall_singleton]|].
          rewrite blen_app. change (blen [b]) with 1. lia.
        + by split.
      - cbn. rewrite Hp, app_nil_r. split; [by split|done]. }
    apply Hm. by destruct (digit_byte b).
  - destruct (b =? 0x5C).
    + rewrite isTitle_end by done. cbn [obind step_ok reset pending]. split; [by split|]. rewrite Hp, app_nil_r.
      destruct (one_title_digit _); [apply sublist_nil_l|done].
    + cbn [step_ok pending]. split; [by split|]. rewrite Hp, app_nil_r. split; [unfold rank; cbn; rewrite Hs; lia|done].
Qed.

Lemma stepOSC_ok f b d : inv f -> state f = oscTitlePass \/ state f = oscTitleDrop -> step_ok f b (stepOSC f b d).
Proof.
  intros [H0 Hi] Hs. assert (pending f = []) as Hp by (by destruct Hs as [Hs | Hs]; rewrite Hs in Hi).
  assert (forall u e, 0 <= u -> inv {| state := state f; pending := []; utf8Rem := u; oscEsc := e |}) as Hinv.
  { intros u e Hu. split; [done|]. by destruct Hs as [-> | ->]. }
  assert (forall l, (if d then [] else l) ++ [] `sublist_of` ([] : bytes) ++ l) as Hsub
    by (intros l; rewrite app_nil_r; destruct d; [apply sublist_nil_l|done]).
  unfold stepOSC. rewrite Hp.
  destruct (0 <? utf8Rem f) eqn:Hr.
  { destruct (in_range _ _ b); cbn [step_ok pending].
    - rewrite Hp. split; [apply Hinv; lia|apply Hsub].
    - rewrite Hp. split; [by apply Hinv|]. split; [|done]. unfold rank. cbn [state utf8Rem oscEsc].
      destruct Hs as [-> | ->]; rewrite Hr; simpl; lia. }
  destruct (oscEsc f) eqn:He.
  { destruct (b =? 0x5C); cbn [step_ok pending reset]; rewrite Hp.
    - split; [by split|apply Hsub].
    - split; [by apply Hinv|]. split; [|done]. unfold rank. cbn [state utf8Rem oscEsc].
      destruct Hs as [-> | ->]; rewrite Hr, He; simpl; lia. }
  repeat (match goal with |- step_ok _ _ (if ?c then _ else _) => destruct c end); cbn [step_ok pending reset]; rewrite Hp;
    (split; [|apply Hsub]); try (by split); apply Hinv; [done|apply count_nonneg].
Qed.

Lemma step_total f b : inv f -> step_ok f b (step f b).
Proof.
  intros Hi. unfold step. destruct (state f) eqn:Hs.
  - by apply title_ground_ok.
  - destruct Hi as [H0 Hi]. rewrite Hs in Hi. destruct Hi as (Hp & He & Hu). rewrite Hp, He, Hu.
    destruct (Z.eqb_spec b 0x5D) as [->|]; cbn [step_ok pending]; rewrite Hp.
    + split; [|done]. split; [done|]. split; [done|]. exists [0x1B; 0x5D], [], 0%nat. repeat split; [by left|constructor|done].
    + split; [by split|]. split; [unfold rank; cbn; rewrite Hs; lia|done].
  - by apply stepCommand_ok.
  - apply stepOSC_ok; auto.
  - apply stepOSC_ok; auto.
Qed.

Lemma redispatch_rank_le f : (rank f <= 2)%nat.
Proof. unfold rank. repeat case_match; lia. Qed.

Lemma feed_total fuel f b : (rank f < fuel)%nat -> inv f ->
  exists f' o, feed fuel f b = Ok (f', o) /\ inv f' /\ (o ++ pending f') `sublist_of` (pending f ++ [b]).
Proof.
  revert f. induction fuel as [|fuel IH]; intros f Hf Hi; [lia|]. cbn [feed].
  pose proof (step_total f b Hi) as Hs. destruct (step f b) as [[[c f'] o]| |]; [|done..]. destruct Hs as [Hi' Hs].
  cbn [obind]. destruct c; [by exists f', o|]. destruct Hs as [Hr Hs].
  destruct (IH f' ltac:(lia) Hi') as (f2 & o2 & -> & Hi2 & Hs2). exists f2, (o ++ o2). split; [done|]. split; [done|].
  rewrite <- app_assoc. etrans; [by apply sublist_app|]. rewrite app_assoc. by apply sublist_app.
Qed.

Lemma run_total f p : inv f ->
  exists f' o, run f p = Ok (f', o) /\ inv f' /\ (o ++ pending f') `sublist_of` (pending f ++ p).
Proof.
  revert f. induction p as [|b p IH]; intros f Hi; cbn [run].
  { exists f, []. rewrite app_nil_r. done. }
  destruct (feed_total redispatch f b) as (f1 & o1 & -> & Hi1 & Hs1); [pose proof (redispatch_rank_le f); unfold redispatch; lia|done|].
  cbn [obind fst snd]. destruct (IH f1 Hi1) as (f2 & o2 & -> & Hi2 & Hs2). exists f2, (o1 ++ o2).
  split; [done|]. split; [done|]. rewrite <- app_assoc. etrans; [by apply sublist_app|].
  rewrite app_assoc. change (b :: p) with ([b] ++ p). rewrite (app_assoc (pending f)). by apply sublist_app.
Qed.

Lemma run_app f p q :
  run f (p ++ q) = (let* r := run f p in let* k := run (fst r) q in Ok (fst k, snd r ++ snd k))%go.
Proof.
  revert f. induction p as [|b p IH]; intros f; cbn [run app].
  - cbn. by destruct (run f q) as [[]| |].
  - destruct (feed redispatch f b) as [r| |]; cbn [obind]; [|done..]. rewrite IH.
    destruct (run (fst r) p) as [k| |]; cbn [obind fst snd]; [|done..].
    destruct (run (fst k) q); cbn [obind fst snd]; [|done..]. by rewrite app_assoc.
Qed.

(** ** What is removed and what is kept *)

Definition cont (b : Z) : Prop := 0x80 <= b <= 0xBF.
(** The terminators, [rem] bytes short of the end of a rune: there 0x9C is a
    continuation byte. *)
Definition terminator (rem : Z) (t : bytes) : Prop := t = [0x07] \/ (t = [0x9C] /\ rem = 0) \/ t = [0x1B; 0x5C].

(** An OSC payload, [rem] bytes short of the end of a rune. *)
Inductive body_of : bytes -> Z -> Prop :=
| body_nil : body_of [] 0
| body_cont x rem b : body_of x rem -> 0 < rem -> cont b -> body_of (x ++ [b]) (rem - 1)
| body_fresh x rem b : body_of x rem -> (0 < rem -> ~ cont b) ->
    b <> 0x1B -> b <> 0x07 -> b <> 0x9C -> b <> 0x18 -> b <> 0x1A ->
    body_of (x ++ [b]) (utf8ContinuationCount b).

(** A piece of the stream and what the emulator gets of it. *)
Inductive segment : bytes -> bytes -> Prop :=
| seg_byte b : b <> 0x1B -> b <> 0x9D -> utf8ContinuationCount b = 0 -> segment [b] [b]
| seg_rune lead cs : 0 < utf8ContinuationCount lead -> blen cs = utf8ContinuationCount lead -> Forall cont cs ->
    segment (lead :: cs) (lead :: cs)
| seg_esc b : b <> 0x5D -> b <> 0x1B -> b <> 0x9D -> utf8ContinuationCount b = 0 -> segment [0x1B; b] [0x1B; b]
| seg_title i d body rem t :
    intro_ok i -> one_title_digit [d] = true -> body_of body rem -> terminator rem t ->
    segment (i ++ [d; 0x3B] ++ body ++ t) []
| seg_title_empty i d t :
    intro_ok i -> one_title_digit [d] = true -> terminator 0 t -> segment (i ++ [d] ++ t) []
| seg_osc i ds body rem t :
    intro_ok i -> all_digits ds -> blen ds <= oscTitleSelectorMax -> one_title_digit ds = false ->
    body_of body rem -> terminator rem t ->
    segment (i ++ ds ++ [0x3B] ++ body ++ t) (i ++ ds ++ [0x3B] ++ body ++ t).

Definition goes (f : oscTitleFilter) (p : bytes) (f' : oscTitleFilter) (o : bytes) : Prop := run f p = Ok (f', o).

Lemma goes_nil f : goes f [] f [].
Proof. done. Qed.

Lemma goes_app f p f1 o1 q f2 o2 : goes f p f1 o1 -> goes f1 q f2 o2 -> goes f (p ++ q) f2 (o1 ++ o2).
Proof. unfold goes. intros H1 H2. rewrite run_app, H1. cbn [obind fst snd]. by rewrite H2. Qed.

Lemma goes_feed f b f' o : feed redispatch f b = Ok (f', o) -> goes f [b] f' o.
Proof. unfold goes. intros H. cbn [run]. rewrite H. cbn. by rewrite app_nil_r. Qed.

Lemma goes_one f b f' o : step f b = Ok (true, f', o) -> goes f [b] f' o.
Proof. intros H. apply goes_feed. unfold redispatch. cbn [feed]. by rewrite H. Qed.

Lemma goes_cons f b p f1 o1 f2 o2 : goes f [b] f1 o1 -> goes f1 p f2 o2 -> goes f (b :: p) f2 (o1 ++ o2).
Proof. apply (goes_app f [b]). Qed.

Definition command (p : bytes) : oscTitleFilter :=
  {| state := oscTitleCommand; pending := p; utf8Rem := 0; oscEsc := false |}.
Definition inside (drop : bool) (rem : Z) : oscTitleFilter :=
  {| state := if drop then oscTitleDrop else oscTitlePass; pending := []; utf8Rem := rem; oscEsc := false |}.

Lemma goes_intro i : intro_ok i -> goes new i (command i) [].
Proof. by intros [-> | ->]. Qed.

Lemma goes_digits i ds rest :
  intro_ok i -> all_digits ds -> all_digits rest -> blen (ds ++ rest) <= oscTitleSelectorMax ->
  goes (command (i ++ ds)) rest (command (i ++ ds ++ rest)) [].
Proof.
  intros Hi. revert ds. induction rest as [|d rest IH]; intros ds Hds Hr Hl; [rewrite app_nil_r; apply goes_nil|].
  inversion Hr as [|? ? Hd Hr']; subst.
  replace (ds ++ d :: rest) with ((ds ++ [d]) ++ rest) in * by (by rewrite <- app_assoc).
  apply (goes_cons _ _ _ (command (i ++ ds ++ [d])) [] _ []).
  - apply goes_one. unfold step, stepCommand. cbn [state command oscEsc pending utf8Rem].
    pose proof Hd as Hd'. unfold digit_byte, in_range in Hd'.
    replace (d =? 0x3B) with false by lia. replace ((d =? 0x07) || (d =? 0x9C)) with false by lia.
    replace (d =? 0x1B) with false by lia. replace ((d =? 0x18) || (d =? 0x1A)) with false by lia.
    rewrite Hd. pose proof (selector_ok i ds [] Hi Hds) as Hsel. rewrite app_nil_r in Hsel. cbn in Hsel. rewrite Hsel.
    cbn [obind andb]. rewrite !blen_app in Hl. change (blen [d]) with 1 in Hl. pose proof (blen_nonneg rest).
    replace (blen ds <? oscTitleSelectorMax) with true by lia. by rewrite <- app_assoc.
  - apply IH; [apply Forall_app; split; [done|by apply Forall_singleton]|done|done].
Qed.

Lemma goes_selector i ds :
  intro_ok i -> all_digits ds -> blen ds <= oscTitleSelectorMax -> goes new (i ++ ds) (command (i ++ ds)) [].
Proof.
  intros Hi Hd Hl. apply (goes_app _ _ (command i) [] _ _ []); [by apply goes_intro|].
  pose proof (goes_digits i [] ds Hi) as H. rewrite !app_nil_r in H. simpl in H. apply H; [constructor|done|done].
Qed.

Lemma goes_semi i ds :
  intro_ok i -> all_digits ds ->
  goes (command (i ++ ds)) [0x3B] (inside (one_title_digit ds) 0)
    (if one_title_digit ds then [] else i ++ ds ++ [0x3B]).
Proof.
  intros Hi Hd. apply goes_one. unfold step, stepCommand. cbn [state command pending oscEsc utf8Rem].
  change (0x3B =? 0x3B) with true. cbv iota.
  pose proof (isTitle_semi i ds 0 Hi Hd) as H. simpl repeat in H. rewrite !app_nil_r in H. rewrite H. cbn [obind].
  rewrite <- app_assoc. by destruct (one_title_digit ds).
Qed.

Lemma body_rem_nonneg x rem : body_of x rem -> 0 <= rem.
Proof. induction 1; [lia|lia|apply count_nonneg]. Qed.

(** A byte that is not a continuation is dispatched afresh. *)
Lemma goes_fresh d rem b f' o :
  0 <= rem -> (0 < rem -> ~ cont b) -> stepOSC (inside d 0) b d = Ok (true, f', o) -> goes (inside d rem) [b] f' o.
Proof.
  intros Hr Hnc H.
  assert (forall r, step (inside d r) b = stepOSC (inside d r) b d) as Hstep by (intros r; by destruct d).
  destruct (Z.ltb_spec 0 rem) as [Hlt|Hge].
  - apply goes_feed. unfold redispatch. cbn [feed]. rewrite Hstep.
    assert (stepOSC (inside d rem) b d = Ok (false, inside d 0, [])) as ->.
    { unfold stepOSC. cbn [inside state utf8Rem oscEsc pending]. replace (0 <? rem) with true by lia.
      by replace (in_range 0x80 0xBF b) with false by (specialize (Hnc Hlt); unfold cont in Hnc; unfold in_range; lia). }
    cbn [obind]. by rewrite Hstep, H.
  - assert (rem = 0) as -> by lia. apply goes_one. by rewrite Hstep.
Qed.

Lemma goes_body body rem d : body_of body rem -> goes (inside d 0) body (inside d rem) (if d then [] else body).
Proof.
  induction 1 as [|x rem b Hx IH Hr Hc|x rem b Hx IH Hnc Hb1 Hb2 Hb3 Hb4 Hb5].
  - destruct d; apply goes_nil.
  - replace (if d then [] else x ++ [b]) with ((if d then [] else x) ++ (if d then [] else [b])) by (by destruct d).
    eapply goes_app; [exact IH|]. apply goes_one.
    assert (stepOSC (inside d rem) b d = Ok (true, inside d (rem - 1), if d then [] else [b])) as H.
    { unfold stepOSC, inside. cbn [state utf8Rem oscEsc pending]. unfold cont in Hc. replace (0 <? rem) with true by lia.
      by replace (in_range 0x80 0xBF b) with true by (unfold in_range; lia). }
    unfold step. by destruct d.
  - replace (if d then [] else x ++ [b]) with ((if d then [] else x) ++ (if d then [] else [b])) by (by destruct d).
    eapply goes_app; [exact IH|]. apply goes_fresh; [by eapply body_rem_nonneg|done|].
    unfold stepOSC, inside. cbn [state utf8Rem oscEsc pending]. cbn [Z.ltb Z.compare].
    replace (b =? 0x1B) with false by lia. replace ((b =? 0x07) || (b =? 0x9C)) with false by lia.
    by replace ((b =? 0x18) || (b =? 0x1A)) with false by lia.
Qed.

Lemma goes_end d rem t : 0 <= rem -> terminator rem t -> goes (inside d rem) t new (if d then [] else t).
Proof.
  intros Hr [-> | [[-> ->] | ->]].
  - apply goes_fresh; [done|unfold cont; lia|by destruct d].
  - apply goes_fresh; [done|lia|by destruct d].
  - replace (if d then [] else [0x1B; 0x5C]) with ((if d then [] else [0x1B]) ++ (if d then [] else [0x5C])) by (by destruct d).
    eapply (goes_cons _ _ _ {| state := if d then oscTitleDrop else oscTitlePass; pending := []; utf8Rem := 0; oscEsc := true |}).
    + apply goes_fresh; [done|unfold cont; lia|by destruct d].
    + apply goes_one. by destruct d.
Qed.

(** A title with no text: the terminator ends the command itself. *)
Lemma goes_command_end i d t :
  intro_ok i -> one_title_digit [d] = true -> terminator 0 t -> goes (command (i ++ [d])) t new [].
Proof.
  intros Hi Hd Ht. assert (all_digits [d]) as Hds.
  { apply Forall_singleton. unfold one_title_digit, digit_byte, in_range in *. lia. }
  pose proof (isTitle_end i [d] 0 Hi Hds) as H0. pose proof (isTitle_end i [d] 1 Hi Hds) as H1.
  simpl repeat in H0, H1. rewrite !app_nil_r in H0. rewrite app_nil_r in H1. rewrite Hd in H0, H1.
  destruct Ht as [-> | [[-> _] | ->]].
  - apply goes_one. unfold step, stepCommand. cbn [command state pending]. rewrite H0. done.
  - apply goes_one. unfold step, stepCommand. cbn [command state pending]. rewrite H0. done.
  - apply (goes_cons _ _ _ {| state := oscTitleCommand; pending := (i ++ [d]) ++ [0x1B]; utf8Rem := 0; oscEsc := true |} [] _ []).
    + by apply goes_one.
    + apply goes_one. unfold step, stepCommand. cbn [command state pending oscEsc].
      replace ((i ++ [d]) ++ [0x1B]) with (i ++ [d] ++ [0x1B]) by (by rewrite <- app_assoc).
      change (isTitleSelector (i ++ [d] ++ [27]) = Ok true) in H1. by rewrite H1.
Qed.

Lemma goes_conts cs : forall rem f,
  f = {| state := oscTitleGround; pending := []; utf8Rem := rem; oscEsc := false |} ->
  rem = blen cs -> Forall cont cs -> goes f cs new cs.
Proof.
  induction cs as [|c cs IH]; intros rem f -> -> Hc; [apply goes_nil|]. inversion Hc as [|? ? Hc1 Hc2]; subst.
  pose proof (blen_nonneg cs). apply (goes_cons _ _ _ {| state := oscTitleGround; pending := []; utf8Rem := blen cs; oscEsc := false |} [c] _ cs).
  - apply goes_one. unfold step, stepGround. cbn [state utf8Rem pending oscEsc]. rewrite blen_cons.
    replace (0 <? 1 + blen cs) with true by lia. unfold cont in Hc1.
    replace (in_range 0x80 0xBF c) with true by (unfold in_range; lia). by replace (1 + blen cs - 1) with (blen cs) by lia.
  - by eapply IH.
Qed.

Lemma goes_plain_byte b :
  b <> 0x1B -> b <> 0x9D ->
  goes new [b] {| state := oscTitleGround; pending := []; utf8Rem := utf8ContinuationCount b; oscEsc := false |} [b].
Proof.
  intros H1 H2. apply goes_one. unfold step, stepGround. cbn [new state utf8Rem pending oscEsc].
  cbn [Z.ltb Z.compare]. replace (b =? 0x1B) with false by lia. by replace (b =? 0x9D) with false by lia.
Qed.

Lemma segment_goes p o : segment p o -> goes new p new o.
Proof.
  intros Hseg. destruct Hseg as [b H1 H2 H3|lead cs Hl Hlen Hcs|b H1 H2 H3 H4|i d body rem t Hi Hd Hb Ht|i d t Hi Hd Ht
    |i ds body rem t Hi Hd Hlen Ht Hb Hterm].
  - pose proof (goes_plain_byte b H1 H2) as H. by rewrite H3 in H.
  - assert (lead <> 0x1B /\ lead <> 0x9D) as [? ?]
      by (unfold utf8ContinuationCount, in_range in Hl; repeat case_match; lia).
    apply (goes_cons _ _ _ _ [lead] _ cs (goes_plain_byte lead ltac:(done) ltac:(done))). by eapply goes_conts.
  - apply (goes_cons _ _ _ {| state := oscTitleEsc; pending := [0x1B]; utf8Rem := 0; oscEsc := false |} [] _ [0x1B; b]).
    + by apply goes_one.
    + apply goes_feed. unfold redispatch. cbn [feed]. unfold step at 1. cbn [state].
      replace (b =? 0x5D) with false by lia. cbn [obind].
      change {| state := oscTitleGround; pending := []; utf8Rem := _; oscEsc := _ |} with new.
      assert (step new b = Ok (true, new, [b])) as ->; [|done].
      unfold step, stepGround. cbn [new state utf8Rem pending oscEsc Z.ltb Z.compare].
      replace (b =? 0x1B) with false by lia. replace (b =? 0x9D) with false by lia. by rewrite H4.
  - assert (all_digits [d]) as Hds by (apply Forall_singleton; unfold one_title_digit, digit_byte, in_range in *; lia).
    replace (i ++ [d; 0x3B] ++ body ++ t) with ((i ++ [d]) ++ [0x3B] ++ body ++ t) by (by rewrite <- app_assoc).
    apply (goes_app _ _ (command (i ++ [d])) [] _ _ []); [by apply goes_selector|].
    pose proof (goes_semi i [d] Hi Hds) as Hs. rewrite Hd in Hs. apply (goes_app _ _ _ [] _ _ [] Hs).
    apply (goes_app _ _ _ [] _ _ [] (goes_body body rem true Hb)). apply (goes_end true); [by eapply body_rem_nonneg|done].
  - assert (all_digits [d]) as Hds by (apply Forall_singleton; unfold one_title_digit, digit_byte, in_range in *; lia).
    rewrite app_assoc. apply (goes_app _ _ (command (i ++ [d])) [] _ _ []); [by apply goes_selector|].
    by apply goes_command_end.
  - pose proof (goes_semi i ds Hi Hd) as Hs. rewrite Ht in Hs.
    assert (goes (command (i ++ ds)) ([0x3B] ++ body ++ t) new ((i ++ ds ++ [0x3B]) ++ body ++ t)) as Hrest.
    2:{ replace ((i ++ ds ++ [0x3B]) ++ body ++ t) with (i ++ ds ++ [0x3B] ++ body ++ t) in Hrest
          by (by rewrite <- !app_assoc).
        pose proof (goes_app _ _ _ _ _ _ _ (goes_selector i ds Hi Hd Hlen) Hrest) as H. by rewrite <- app_assoc in H. }
    apply (goes_app _ _ _ _ _ _ _ Hs). apply (goes_app _ _ _ _ _ _ _ (goes_body body rem false Hb)).
    apply (goes_end false); [by eapply body_rem_nonneg|done].
Qed.

(** ** The fast path *)

Definition mid_rune (rem : Z) : oscTitleFilter :=
  {| state := oscTitleGround; pending := []; utf8Rem := rem; oscEsc := false |}.

(** Without an introducer the automaton is the identity; it only tracks runes. *)
Lemma run_plain p : forall rem, 0 <= rem -> plain p = true ->
  exists rem', run (mid_rune rem) p = Ok (mid_rune rem', p) /\ 0 <= rem'.
Proof.
  induction p as [|b p IH]; intros rem Hr Hp; [by exists rem|].
  unfold plain, has_byte in Hp. cbn [existsb] in Hp. rewrite !negb_orb in Hp.
  apply andb_prop in Hp as [[H1 Hp1]%andb_prop [H2 Hp2]%andb_prop].
  assert (plain p = true) as Hp' by (unfold plain, has_byte; by rewrite Hp1, Hp2).
  apply negb_true_iff, Z.eqb_neq in H1, H2.
  assert (forall r, 0 <= r -> exists r', feed redispatch (mid_rune r) b = Ok (mid_rune r', [b]) /\ 0 <= r') as Hfeed.
  { assert (step (mid_rune 0) b = Ok (true, mid_rune (utf8ContinuationCount b), [b])) as H0.
    { unfold step, stepGround, mid_rune. cbn [state utf8Rem pending oscEsc Z.ltb Z.compare].
      replace (b =? 0x1B) with false by lia. by replace (b =? 0x9D) with false by lia. }
    intros r Hr'. unfold redispatch. cbn [feed]. destruct (Z.ltb_spec 0 r) as [Hlt|Hge].
    - unfold step at 1, stepGround at 1. cbn [mid_rune state utf8Rem pending oscEsc]. replace (0 <? r) with true by lia.
      destruct (in_range 0x80 0xBF b); cbn [obind]; [exists (r - 1); split; [done|lia]|].
      change {| state := oscTitleGround; pending := []; utf8Rem := 0; oscEsc := false |} with (mid_rune 0).
      rewrite H0. cbn [obind]. exists (utf8ContinuationCount b). split; [done|apply count_nonneg].
    - assert (r = 0) as -> by lia. rewrite H0. cbn [obind]. exists (utf8ContinuationCount b). split; [done|apply count_nonneg]. }
  destruct (Hfeed rem Hr) as (r1 & Hf & Hr1). destruct (IH r1 Hr1 Hp') as (r2 & Hrun & Hr2).
  exists r2. split; [|done]. cbn [run]. rewrite Hf. cbn [obind fst snd]. rewrite Hrun. done.
Qed.

Lemma Write_run f p f1 o :
  inv f -> Write f p = Ok (f1, o) ->
  exists f2, run f p = Ok (f2, o) /\ (utf8Rem f2 = 0 -> f2 = f1).
Proof.
  intros [H0 Hi]. unfold Write. destruct (_ && _) eqn:Hc; [|intros H; exists f1; done].
  intros [= <- <-]. apply andb_prop in Hc as [[Hg Hu]%andb_prop Hp]. apply Z.eqb_eq in Hu.
  unfold at_ground in Hg. destruct (state f) eqn:Hs; try done. destruct Hi as [He Hpe].
  assert (f = mid_rune 0) as -> by (destruct f; simpl in *; by subst).
  destruct (run_plain p 0 ltac:(lia) Hp) as (r & Hrun & Hr). exists (mid_rune r). split; [done|].
  cbn. intros ->. done.
Qed.

(** ** Theorems *)

(** The filter is total and never adds anything: on every byte stream the
    re-dispatch loop ends without a panic, the state stays within its invariant,
    and what comes out (with what is still held back) is a subsequence of what
    went in, in order. *)
Theorem title_filter_safe p :
  exists f o, run new p = Ok (f, o) /\ inv f /\ (o ++ pending f) `sublist_of` p.
Proof. apply (run_total new p). by split. Qed.



(** The fast path returns what the automaton would: [Write] gives the same
    bytes as running the automaton over the chunk, and leaves the same state
    whenever the chunk does not end inside a UTF-8 sequence. *)
Theorem title_filter_fast_path f p f1 o :
  inv f -> Write f p = Ok (f1, o) ->
  exists f2, run f p = Ok (f2, o) /\ (utf8Rem f2 = 0 -> f2 = f1).
Proof. exact (Write_run f p f1 o). Qed.

Lemma title_filter_fast_path_witness :
  exists f2, run new [0x41; 0xC3; 0xA9] = Ok (f2, [0x41; 0xC3; 0xA9]) /\ (utf8Rem f2 = 0 -> f2 = new).
Proof. apply (title_filter_fast_path new); [by split|reflexivity]. Defined.

(** ** Where the code and its documentation part *)

(** The fast path forgets a rune that continues in the next chunk, so not every
    split point is equivalent to a contiguous write: with a heart (E2 9D A4) cut
    after its first byte, 9D is taken for an OSC introducer, and the title that
    follows reaches the emulator. *)
Theorem split_rune_leaks_title :
  let heart := [0xE2; 0x9D; 0xA4] in
  let title := [0x1B; 0x5D; 0x30; 0x3B; 0x74; 0x07] in
  (exists f, Write new (heart ++ title) = Ok (f, heart)) /\
  (exists f1 f2, Write new [0xE2] = Ok (f1, [0xE2]) /\
     Write f1 ([0x9D; 0xA4] ++ title) = Ok (f2, [0x9D; 0xA4] ++ title)).
Proof.
  set (next := fun r : go (oscTitleFilter * bytes) => match r with Ok (f, _) => f | _ => new end).
  split; [exists (next (Write new [0xE2; 0x9D; 0xA4; 0x1B; 0x5D; 0x30; 0x3B; 0x74; 0x07])); vm_compute; reflexivity|].
  exists (next (Write new [0xE2])), (next (Write (next (Write new [0xE2])) [0x9D; 0xA4; 0x1B; 0x5D; 0x30; 0x3B; 0x74; 0x07])).
  split; vm_compute; reflexivity.
Qed.

(** The held-back prefix is not bounded: every further ESC is appended to it. *)
Theorem undecided_prefix_unbounded n :
  exists f, run new ([0x1B; 0x5D] ++ repeat 0x1B n) = Ok (f, []) /\ blen (pending f) = 2 + Z.of_nat n.
Proof.
  assert (forall m k, goes {| state := oscTitleCommand; pending := [0x1B; 0x5D] ++ repeat 0x1B k; utf8Rem := 0;
                              oscEsc := negb (Nat.eqb k 0) |} (repeat 0x1B m)
            {| state := oscTitleCommand; pending := [0x1B; 0x5D] ++ repeat 0x1B (k + m); utf8Rem := 0;
               oscEsc := negb (Nat.eqb (k + m) 0) |} []) as H.
  { induction m as [|m IH]; intros k; [rewrite Nat.add_0_r; apply goes_nil|]. cbn [repeat].
    eapply (goes_cons _ _ _ _ [] _ []); [|rewrite <- Nat.add_succ_comm; apply (IH (S k))].
    apply goes_one. unfold step, stepCommand. cbn [state pending oscEsc utf8Rem].
    by rewrite repeat_esc_last, app_assoc. }
  eexists. split; [exact (goes_app _ _ _ _ _ _ _ (goes_intro [0x1B; 0x5D] (or_introl eq_refl)) (H n 0%nat))|].
  cbn [pending]. rewrite blen_app. unfold blen at 2. rewrite repeat_length. unfold blen. simpl. lia.
Qed.

End TitleFilter.
