(* ===== verification/GoStrings.v ===== *)
(** * GoStrings: the string functions the code uses

    Go strings as [string]: equality, character classes, [strings.HasPrefix],
    [strings.TrimPrefix], [strings.Split], [strconv.Atoi], and the lemmas that read
    a key built from parts back into its parts. *)

From Stdlib Require Import Ascii String.
From stdpp Require Import pretty.
From S2P Require Import Prelude.

Definition str_eqb (a b : string) : bool := bool_decide (a = b).

Definition char_in (lo hi : Z) (c : ascii) : bool := in_range lo hi (Z.of_N (N_of_ascii c)).
Definition is_digit (c : ascii) : bool := char_in 0x30 0x39 c.
Definition is_lower (c : ascii) : bool := char_in 0x61 0x7A c.
Definition is_upper (c : ascii) : bool := char_in 0x41 0x5A c.
Definition is_alnum (c : ascii) : bool := is_digit c || is_lower c || is_upper c.
Definition is_hex (c : ascii) : bool := is_digit c || char_in 0x61 0x66 c.
Definition char_eqb (c d : ascii) : bool := Ascii.eqb c d.

Fixpoint all_chars (p : ascii -> bool) (s : string) : bool :=
  match s with EmptyString => true | String c s' => p c && all_chars p s' end.

Definition has_prefix (pre s : string) : bool := String.prefix pre s.

Definition trim_prefix (pre s : string) : string :=
  if has_prefix pre s then String.substring (String.length pre) (String.length s - String.length pre) s else s.

(** [strings.Split] at a one-byte separator *)
Fixpoint split_on (sep : ascii) (s : string) : list string :=
  match s with
  | EmptyString => [EmptyString]
  | String c s' =>
      if char_eqb c sep then EmptyString :: split_on sep s'
      else match split_on sep s' with
           | f :: fs => String c f :: fs
           | [] => [String c EmptyString]
           end
  end.

(** [strconv]: decimal digits to a number, [None] on another character or on none *)
Fixpoint digits_value (s : string) (acc : Z) : option Z :=
  match s with
  | EmptyString => Some acc
  | String c s' => if is_digit c then digits_value s' (acc * 10 + (Z.of_N (N_of_ascii c) - 0x30)) else None
  end.

Definition ParseUint (s : string) : option Z :=
  match s with
  | EmptyString => None
  | _ => match digits_value s 0 with Some n => if n <? 2 ^ 64 then Some n else None | None => None end
  end.

Definition Atoi (s : string) : option Z :=
  let go sign body :=
    match body with
    | EmptyString => None
    | _ => match digits_value body 0 with
           | Some n => let v := sign * n in if (- 2 ^ 63 <=? v) && (v <? 2 ^ 63) then Some v else None
           | None => None
           end
    end in
  match s with
  | String "+" body => go 1 body
  | String "-" body => go (-1) body
  | _ => go 1 s
  end.

(** ** Lemmas *)

Lemma str_eqb_true a b : str_eqb a b = true <-> a = b.
Proof. unfold str_eqb. apply bool_decide_eq_true. Qed.

Lemma str_eqb_refl a : str_eqb a a = true.
Proof. by apply str_eqb_true. Qed.

Definition chars (s : string) : list ascii := String.list_ascii_of_string s.

Lemma chars_app a b : chars (a +:+ b) = chars a ++ chars b.
Proof. unfold chars. induction a as [|c a IH]; simpl; [done | by rewrite IH]. Qed.

Lemma chars_length a : length (chars a) = String.length a.
Proof. unfold chars. induction a as [|c a IH]; simpl; [done | by rewrite IH]. Qed.

Lemma chars_inj a b : chars a = chars b -> a = b.
Proof.
  intros H. rewrite <- (string_of_list_ascii_of_string a), <- (string_of_list_ascii_of_string b).
  by unfold chars in H; rewrite H.
Qed.

Lemma all_chars_Forall p s : all_chars p s = true -> Forall (fun c => p c = true) (chars s).
Proof.
  induction s as [|c s IH]; simpl; [constructor|]. intros H. apply andb_prop in H as [? ?]. constructor; auto.
Qed.

Lemma split_unique {A} (x : A) a b c d :
  Forall (fun y => y <> x) c -> Forall (fun y => y <> x) d -> a ++ x :: b = c ++ x :: d -> a = c /\ b = d.
Proof.
  intros Hc Hd. revert c Hc. induction a as [|y a IH]; intros [|z c] Hc H; simpl in *.
  - by injection H.
  - injection H as <- H. by inversion Hc.
  - injection H as -> H. subst. apply Forall_app in Hd as [_ Hd]. by inversion Hd.
  - injection H as -> H. inversion Hc; subst. destruct (IH c) as [-> ->]; auto.
Qed.

(** A decimal number has no colon, so the two numbers can be read back. *)
Definition no_colon (s : string) : Prop := Forall (fun c => c <> ":"%char) (chars s).

Lemma split_at_colon a b c d : no_colon a -> no_colon c -> a +:+ ":" +:+ b = c +:+ ":" +:+ d -> a = c /\ b = d.
Proof.
  intros Ha Hc H. apply (f_equal chars) in H. rewrite !chars_app in H.
  enough (chars a = chars c /\ chars b = chars d) as [? ?] by (split; by apply chars_inj).
  unfold no_colon in *. revert Ha Hc H. generalize (chars a) (chars c) (chars b) (chars d). clear.
  induction l as [|x l IH]; intros [|y k] p q Ha Hc H; simpl in *.
  - by injection H.
  - injection H as <- H. by inversion Hc.
  - injection H as -> H. by inversion Ha.
  - injection H as -> H. inversion Ha; inversion Hc; subst.
    destruct (IH k p q) as [-> ->]; auto.
Qed.

Lemma pretty_N_go_no_colon x s : no_colon s -> no_colon (pretty_N_go x s).
Proof.
  revert s. induction (N.lt_wf_0 x) as [x _ IH]. intros s Hs.
  destruct (decide (x = 0)%N) as [->|Hx]; [by rewrite pretty_N_go_0|].
  rewrite pretty_N_go_step by lia. apply IH; [apply N.div_lt; lia|].
  unfold no_colon. simpl. constructor; [|done].
  unfold pretty_N_char. repeat case_match; discriminate.
Qed.

Lemma pretty_Z_no_colon (z : Z) : no_colon (pretty z).
Proof.
  assert (Hn : forall n : N, no_colon (pretty n)).
  { intros n. unfold pretty, pretty_N. case_decide.
    - unfold no_colon; simpl. by apply Forall_singleton.
    - apply pretty_N_go_no_colon. constructor. }
  assert (Hp : forall p : positive, no_colon (pretty p)) by (intros p; apply Hn).
  destruct z; unfold pretty, pretty_Z.
  - unfold no_colon; simpl; by apply Forall_singleton.
  - apply Hp.
  - unfold no_colon. rewrite chars_app. apply Forall_app. split; [by apply Forall_singleton | apply Hp].
Qed.

(** ** Decimal numbers read back *)

Lemma pretty_N_char_digit x :
  (x < 10)%N -> is_digit (pretty_N_char x) = true /\ Z.of_N (N_of_ascii (pretty_N_char x)) - 0x30 = Z.of_N x.
Proof.
  intros H. assert (Hx : x ∈ [0; 1; 2; 3; 4; 5; 6; 7; 8; 9]%N) by (repeat rewrite elem_of_cons; lia).
  repeat (apply elem_of_cons in Hx as [->|Hx]; [done|]). by apply elem_of_nil in Hx.
Qed.

Lemma pretty_N_go_value x s : digits_value (pretty_N_go x s) 0 = digits_value s (Z.of_N x).
Proof.
  revert s. induction (N.lt_wf_0 x) as [x _ IH]. intros s.
  destruct (decide (x = 0)%N) as [->|Hx]; [by rewrite pretty_N_go_0|].
  rewrite pretty_N_go_step by lia. rewrite IH by (apply N.div_lt; lia). cbn [digits_value].
  destruct (pretty_N_char_digit (x `mod` 10)) as [-> ->]; [apply N.mod_lt; lia|]. f_equal.
  rewrite N2Z.inj_div, N2Z.inj_mod. pose proof (Z.div_mod (Z.of_N x) 10). lia.
Qed.

Lemma pretty_N_go_digits x s : all_chars is_digit s = true -> all_chars is_digit (pretty_N_go x s) = true.
Proof.
  revert s. induction (N.lt_wf_0 x) as [x _ IH]. intros s Hs.
  destruct (decide (x = 0)%N) as [->|Hx]; [by rewrite pretty_N_go_0|].
  rewrite pretty_N_go_step by lia. apply IH; [apply N.div_lt; lia|]. cbn [all_chars].
  rewrite Hs, (proj1 (pretty_N_char_digit _ (N.mod_lt x 10 ltac:(lia)))). done.
Qed.

Lemma pretty_N_value (x : N) : digits_value (pretty x) 0 = Some (Z.of_N x).
Proof. unfold pretty, pretty_N. case_decide as E; [by subst|]. by rewrite pretty_N_go_value. Qed.

Lemma pretty_N_digits (x : N) : all_chars is_digit (pretty x) = true.
Proof. unfold pretty, pretty_N. case_decide as E; [by subst|]. by apply pretty_N_go_digits. Qed.

Lemma pretty_N_nonempty (x : N) : exists c s, pretty x = String c s /\ is_digit c = true.
Proof.
  pose proof (pretty_N_digits x) as Hd. pose proof (pretty_N_value x) as Hv.
  destruct (pretty x) as [|c s] eqn:E.
  - exfalso. cbn in Hv. injection Hv as Hv. destruct x; [|done]. done.
  - exists c, s. cbn in Hd. by apply andb_prop in Hd as [-> _].
Qed.

(** An integer of 64 bits is read back, any other is refused. *)
Lemma Atoi_pretty (z : Z) : Atoi (pretty z) = if (- 2 ^ 63 <=? z) && (z <? 2 ^ 63) then Some z else None.
Proof.
  assert (Hpos : forall n : N, Atoi (pretty n) = if (- 2 ^ 63 <=? Z.of_N n) && (Z.of_N n <? 2 ^ 63) then Some (Z.of_N n) else None).
  { intros n. pose proof (pretty_N_value n) as Hv. destruct (pretty_N_nonempty n) as (c & s & E & Hc). rewrite E in *.
    unfold Atoi. destruct c as [[] [] [] [] [] [] [] []]; try discriminate; rewrite Hv, Z.mul_1_l; done. }
  destruct z as [|p|p].
  - done.
  - exact (Hpos (N.pos p)).
  - change (pretty (Z.neg p)) with (String "-" (pretty (N.pos p))). unfold Atoi.
    destruct (pretty_N_nonempty (N.pos p)) as (c & s & E & Hc). pose proof (pretty_N_value (N.pos p)) as Hv.
    rewrite E in *. rewrite Hv. done.
Qed.
