(* ===== verification/QueueModel.v ===== *)
(** * QueueModel: data and validation of the host-local session queue

    [src/internal/localqueue/types.go] and [validation.go], and the evidence checks
    of [transactions.go].  A transaction carries its payload as a value: the JSON
    encoding of payloads is not modelled (strings are taken to be valid UTF-8, on
    which it is the identity).  What the code takes from the standard library and
    from the execution-cell package is a value of [Externals]; [ExternalLaws] is
    what the theorems rely on. *)

From Stdlib Require Import Ascii String.
From stdpp Require Import gmap pretty.
From S2P Require Import Prelude GoStrings.

(** ** Identifier patterns *)

(** [localIDPattern], [sha256Pattern], [credentialRefPattern] *)
Definition id_char (c : ascii) : bool :=
  is_alnum c || char_eqb c "." || char_eqb c "_" || char_eqb c ":" || char_eqb c "-".

Definition validLocalID (s : string) : bool :=
  match s with
  | EmptyString => false
  | String c s' => is_alnum c && all_chars id_char s' && (Z.of_nat (String.length s') <=? 127)
  end.

Definition validSHA256 (s : string) : bool := (Z.of_nat (String.length s) =? 64) && all_chars is_hex s.

Definition validHeadSHA (s : string) : bool :=
  ((Z.of_nat (String.length s) =? 40) || (Z.of_nat (String.length s) =? 64)) && all_chars is_hex s.

Definition credential_char (c : ascii) : bool := is_alnum c || char_eqb c "_" || char_eqb c "-".

(** ** Data *)

Definition EventSessionAdmitted : string := "session.admitted".
Definition PublicationGitHubPR : string := "github_pr".
Definition PublicationGitHubComment : string := "github_comment".

(** [DispatchPending] ... [DispatchTerminal] *)
Inductive DispatchState := DispatchPending | DispatchClaimed | DispatchUnknown | DispatchLaunched | DispatchTerminal.
#[global] Instance DispatchState_eq_dec : EqDecision DispatchState.
Proof. solve_decision. Defined.

Inductive QueueError :=
| ErrConflict | ErrBindingMismatch | ErrAlreadyAdmitted | ErrUnknownSession | ErrAttemptMismatch
| ErrInvalidEnvelope | ErrCorruptStore | ErrAmbiguousCommit
| ErrContext        (* the caller's context ended *)
| ErrIO             (* a failure before the transaction was published *)
| ErrReplay.        (* the errors.New cases of applyTransaction *)

(** [executioncell.ExecutionSelectorRegistry]; a nil map or slice is [None]. *)
Record ExecutionSelectorRegistry := {
  HarnessVersions : option (list (string * list string)); Models : option (list string);
  Endpoints : option (list string); AuthBindings : option (list string); Placements : option (list string);
  Capabilities : option (list string)
}.

Record ConfiguredHostBinding := {
  b_ScopeID : string; b_HostID : string; b_WorkerID : string; b_Selectors : option ExecutionSelectorRegistry
}.
Record Authority := { a_ScopeID : string; a_HostID : string; a_WorkerID : string; a_CreatedAt : string }.
Record GitHubSource := { RepositoryID : Z; OwnerRepo : string; IssueNumber : Z; IssueURL : string }.

Record LifecycleEvent := {
  ev_Type : string; ev_ScopeID : string; ev_SessionID : string; ev_ReceiptID : string; ev_RecordedAt : string
}.

(** A [State] of "" is [None]. *)
Record DispatchOutbox := { d_Key : string; d_State : option DispatchState; d_EnvelopeSHA256 : string }.

(** [executioncell.SessionRef]; its contract version and the capabilities the
    queue does not read are one opaque string. *)
Record SessionRef := {
  sr_SessionID : string; sr_AdmissionReceiptID : string; sr_ClaimReceiptID : string; sr_Mode : string;
  sr_TakeControl : bool; sr_rest : string
}.
#[global] Instance SessionRef_eq_dec : EqDecision SessionRef.
Proof. solve_decision. Defined.

(** The raw JSON members are byte strings. *)
Record AdmissionEnvelope := {
  e_ScopeID : string;
  e_Source : GitHubSource;
  e_Session : SessionRef;
  e_Intent : bytes;
  e_Receipt : bytes;
  e_EffectiveCell : bytes;
  e_RuntimeBinding : bytes;
  e_OperationalPayload : bytes;
  e_HostPreflight : bytes;
  e_ProducerEvidence : bytes;
  e_InitialEvent : LifecycleEvent;
  e_Dispatch : DispatchOutbox;
  e_CredentialHandle : string
}.

Record AttemptRef := {
  at_ScopeID : string; at_SessionID : string; at_AttemptID : string; at_WorkerID : string; at_Generation : Z
}.
#[global] Instance AttemptRef_eq_dec : EqDecision AttemptRef.
Proof. solve_decision. Defined.

Record AdmissionRecord := {
  r_Revision : Z; r_Envelope : AdmissionEnvelope; r_EnvelopeSHA256 : string;
  r_DispatchState : DispatchState; r_CurrentAttemptID : string
}.

Record OwnedProcessCorrelation := { ProcessID : Z; ProcessStart : string; SessionDetailSHA256 : string }.

Inductive ObservationKind := ObservationLiveness | ObservationStopRequest | ObservationPrestartDeny | ObservationOther.
#[global] Instance ObservationKind_eq_dec : EqDecision ObservationKind.
Proof. solve_decision. Defined.

Record BoundedTypedObservation := { o_Kind : ObservationKind; ObservedAt : string; Evidence : string }.

Record DurableReceipt := {
  rc_Attempt : AttemptRef; rc_Body : bytes; rc_BodySHA256 : string; rc_Status : string; rc_Revision : Z
}.

Inductive PublicationState := PubPending | PubDelivered.
#[global] Instance PublicationState_eq_dec : EqDecision PublicationState.
Proof. solve_decision. Defined.

Record PublicationOutbox := {
  p_Key : string; p_SessionID : string; p_ResultSHA256 : string; p_Operation : string;
  p_State : PublicationState; p_URL : string; p_HeadSHA : string; p_ReadAt : string
}.

Record PublicationEvidence := { pe_URL : string; pe_HeadSHA : string; pe_ReadAt : string }.

Record terminalEvent := {
  te_Type : string; te_ScopeID : string; te_SessionID : string; te_Status : string; te_BodySHA256 : string
}.

Record terminalCorrelation := { PullRequestURL : string; CommitSHA : string }.

(** The payload of a transaction, one constructor per kind. *)
Inductive txData :=
| TxAuthority (a : Authority)
| TxAdmit (r : AdmissionRecord)
| TxClaim (a : AttemptRef)
| TxLaunchIntent (a : AttemptRef)
| TxObserveLaunch (a : AttemptRef) (p : OwnedProcessCorrelation)
| TxObservation (a : AttemptRef) (o : BoundedTypedObservation)
| TxTerminal (r : DurableReceipt) (e : terminalEvent) (p : PublicationOutbox)
| TxPublication (key : string) (e : PublicationEvidence).

Record journalTransaction := { tx_Revision : Z; tx_Previous : string; tx_Data : txData; tx_SHA256 : string }.

Record sessionState := {
  record : AdmissionRecord;
  attempt : option AttemptRef;
  launch : option OwnedProcessCorrelation;
  observations : list BoundedTypedObservation;
  terminal : option DurableReceipt
}.

Record Store := {
  binding : ConfiguredHostBinding;
  authority : Authority;
  revision : Z;
  digest : string;
  sessions : gmap string sessionState;
  sources : gmap string string;
  publications : gmap string PublicationOutbox;
  closed : bool;
  poisoned : bool
}.

Definition no_authority : Authority := {| a_ScopeID := ""; a_HostID := ""; a_WorkerID := ""; a_CreatedAt := "" |}.

Definition newStore (b : ConfiguredHostBinding) : Store :=
  {| binding := b; authority := no_authority; revision := 0; digest := ""; sessions := ∅; sources := ∅;
     publications := ∅; closed := false; poisoned := false |}.

Definition NUL : string := String Ascii.zero "".

Definition sessionKey (scopeID sessionID : string) : string := scopeID +:+ NUL +:+ sessionID.

Definition sourceKey (s : GitHubSource) : string := pretty (RepositoryID s) +:+ ":" +:+ pretty (IssueNumber s).

Definition DispatchKey (sessionID : string) : string := "dispatch:" +:+ sessionID.

Definition publicationOperation (status : string) : string :=
  if str_eqb status "completed" then PublicationGitHubPR else PublicationGitHubComment.

Definition publicationKey (sessionID digest operation : string) : string :=
  "publication:" +:+ sessionID +:+ ":" +:+ digest +:+ ":" +:+ operation.

(** ** Validation *)

(** The parts of [net/url.URL] the code reads. *)
Record URL := {
  u_Scheme : string; u_Host : string; u_User : bool; u_Opaque : string; u_Path : string; u_RawPath : string;
  u_RawQuery : string; u_ForceQuery : bool; u_Fragment : string
}.

(** What the queue reads of the execution-cell contracts.  A canonical cell is its
    bytes; [plan_digest] is what unmarshalling the host plan yields. *)
Record DispatchIntent := { in_RequestID : string; in_SessionMode : string; in_Fallbacks : Z }.
Record ResolvedExecutionCell := { cell_canonical : bytes; Placement_ID : string; Placement_Kind : string; Placement_Resolution : string }.
Record AdmissionReceipt := {
  ar_ReceiptID : string; ar_RequestID : string; ar_Decision : string; ar_Cell : option bytes;
  ar_OperationalPayloadDigest : string; ar_Decisions : list string
}.
Record RuntimeBinding := {
  rb_ContractVersion : string; rb_RequestID : string; rb_WorkerID : string; rb_PlacementID : string; rb_ClaimID : string
}.
Record HostAdaptationReceipt := {
  hr_Decision : string; hr_RequestID : string; hr_WorkerID : string; hr_PlacementID : string; hr_ClaimID : string;
  hr_secret_free : bool; plan_digest : option string
}.

(** What the component takes from outside, as one value: the standard library's
    URL and time parsing, case mapping, JSON and SHA-256, and the decoders and
    digests of the execution-cell contracts. *)
Record Externals := {
  url_Parse : string -> option URL;
  strings_ToLower : string -> string;
  strings_EqualFold : string -> string -> bool;
  validTimestamp : string -> bool;
  (** [json.Unmarshal] of an object and of a string *)
  json_object : bytes -> option (list (string * bytes));
  json_string : bytes -> option string;
  (** [hex(sha256(b))], and the digests of a canonical envelope and transaction *)
  sha256_hex : bytes -> string;
  envelope_hash : AdmissionEnvelope -> string;
  transaction_hash : Z -> string -> txData -> string;
  (** [executioncell]: decoders ([None] is an error), normal forms, digests *)
  NormalizeOperationalPayload : bytes -> option bytes;
  DigestOperationalPayload : bytes -> option string;
  DecodeDispatchIntent : bytes -> option ExecutionSelectorRegistry -> option DispatchIntent;
  DecodeSessionRef : SessionRef -> bool;
  DecodeAdmissionReceipt : bytes -> option AdmissionReceipt;
  AssertAdmissionProvenance : DispatchIntent -> AdmissionReceipt -> bool;
  DecodeResolvedExecutionCell : bytes -> option ResolvedExecutionCell;
  DecodeRuntimeBinding : bytes -> option RuntimeBinding;
  DecodeHostAdaptationReceipt : bytes -> option HostAdaptationReceipt;
  (** [validateProducerEvidence] of raw evidence, the envelope's scope and
      operational payload, the binding's three identities, the cell and receipt *)
  validateProducerEvidence : bytes -> string -> bytes -> string * string * string ->
                             ResolvedExecutionCell -> AdmissionReceipt -> bool
}.

(** What the theorems use of them: an intent decoded against a selector catalogue
    decodes to the same value without one (the catalogue is one more check, made
    last), and a SHA-256 digest is 64 lower-case hexadecimal digits. *)
Class ExternalLaws (X : Externals) := {
  decode_without_catalogue raw reg i :
    DecodeDispatchIntent X raw (Some reg) = Some i -> DecodeDispatchIntent X raw None = Some i;
  transaction_hash_hex n prev d : validSHA256 (transaction_hash X n prev d) = true;
  sha256_hex_hex b : validSHA256 (sha256_hex X b) = true
}.

Section Queue.
Context (X : Externals).

Definition ownerRepo_ok (s : string) : bool :=
  match split_on "/" s with
  | [a; b] => negb (str_eqb a "") && negb (str_eqb b "") &&
              all_chars (fun c => credential_char c || char_eqb c ".") a &&
              all_chars (fun c => credential_char c || char_eqb c ".") b
  | _ => false
  end.

Definition validateSource (s : GitHubSource) : bool :=
  (0 <? RepositoryID s) && (0 <? IssueNumber s) && ownerRepo_ok (OwnerRepo s) &&
  match url_Parse X (IssueURL s) with
  | None => false
  | Some u =>
      str_eqb (u_Scheme u) "https" && strings_EqualFold X (u_Host u) "github.com" && negb (u_User u) &&
      str_eqb (u_RawQuery u) "" && str_eqb (u_Fragment u) "" && str_eqb (u_RawPath u) "" &&
      strings_EqualFold X (u_Path u) ("/" +:+ OwnerRepo s +:+ "/issues/" +:+ pretty (IssueNumber s))
  end.

Definition validateCredentialHandle (h : string) : bool :=
  match h with
  | EmptyString => false
  | String c h' =>
      (is_lower c || is_upper c) && all_chars credential_char h' &&
      (1 <=? Z.of_nat (String.length h')) && (Z.of_nat (String.length h') <=? 127)
  end &&
  negb (has_prefix "rsp_" h) && negb (has_prefix "rsk_" h) && negb (has_prefix "ghp_" h) &&
  negb (has_prefix "github_pat_" h).

Definition set_dispatch (d : DispatchOutbox) (e : AdmissionEnvelope) : AdmissionEnvelope :=
  {| e_ScopeID := e_ScopeID e; e_Source := e_Source e; e_Session := e_Session e; e_Intent := e_Intent e;
     e_Receipt := e_Receipt e; e_EffectiveCell := e_EffectiveCell e; e_RuntimeBinding := e_RuntimeBinding e;
     e_OperationalPayload := e_OperationalPayload e; e_HostPreflight := e_HostPreflight e;
     e_ProducerEvidence := e_ProducerEvidence e; e_InitialEvent := e_InitialEvent e; e_Dispatch := d;
     e_CredentialHandle := e_CredentialHandle e |}.

(** The digest field itself is excluded. *)
Definition DigestAdmissionEnvelope (e : AdmissionEnvelope) : string :=
  envelope_hash X (set_dispatch {| d_Key := d_Key (e_Dispatch e); d_State := d_State (e_Dispatch e); d_EnvelopeSHA256 := "" |} e).

(** The five selector lists an admission needs are all present. *)
Definition complete_selectors (r : option ExecutionSelectorRegistry) : bool :=
  match r with
  | None => false
  | Some r =>
      bool_decide (is_Some (HarnessVersions r)) && bool_decide (is_Some (Models r)) &&
      bool_decide (is_Some (Endpoints r)) && bool_decide (is_Some (AuthBindings r)) &&
      bool_decide (is_Some (Placements r))
  end.

Definition SessionAutonomous : string := "autonomous".
Definition AdmissionAdmitted : string := "admitted".
Definition PlacementHost : string := "host".
Definition PlacementExact : string := "exact".
Definition RuntimeBindingV2ContractVersion : string := "execution-runtime-binding/v2".

(** The evidence an admission carries: intent, session, receipt, cell, producer
    evidence, payload, runtime binding and host preflight all name one request,
    one worker, one host (the checks between the two decodings of the code). *)
Definition admission_evidence (e : AdmissionEnvelope) (b : ConfiguredHostBinding)
    (selectors : option ExecutionSelectorRegistry) : bool :=
  let session := e_Session e in
  let sid := sr_SessionID session in
  match DecodeDispatchIntent X (e_Intent e) selectors with
  | None => false
  | Some intent =>
  str_eqb (in_SessionMode intent) SessionAutonomous && (in_Fallbacks intent =? 0) &&
  DecodeSessionRef X session &&
  str_eqb sid (in_RequestID intent) && str_eqb (sr_ClaimReceiptID session) "" && validLocalID sid &&
  str_eqb (sr_Mode session) SessionAutonomous && negb (sr_TakeControl session) &&
  match DecodeAdmissionReceipt X (e_Receipt e) with
  | None => false
  | Some receipt =>
  AssertAdmissionProvenance X intent receipt &&
  str_eqb (ar_Decision receipt) AdmissionAdmitted && bool_decide (is_Some (ar_Cell receipt)) &&
  str_eqb (ar_ReceiptID receipt) (sr_AdmissionReceiptID session) && str_eqb (ar_RequestID receipt) sid &&
  str_eqb (sr_Mode session) (in_SessionMode intent) &&
  match DecodeResolvedExecutionCell X (e_EffectiveCell e) with
  | None => false
  | Some cell =>
  bool_decide (ar_Cell receipt = Some (cell_canonical cell)) && str_eqb (Placement_ID cell) (b_HostID b) &&
  str_eqb (Placement_Kind cell) PlacementHost && str_eqb (Placement_Resolution cell) PlacementExact &&
  validateProducerEvidence X (e_ProducerEvidence e) (e_ScopeID e) (e_OperationalPayload e)
    (b_ScopeID b, b_HostID b, b_WorkerID b) cell receipt &&
  bool_decide (NormalizeOperationalPayload X (e_OperationalPayload e) = Some (e_OperationalPayload e)) &&
  match DigestOperationalPayload X (e_OperationalPayload e) with
  | None => false
  | Some payloadDigest =>
  str_eqb (ar_OperationalPayloadDigest receipt) payloadDigest &&
  match DecodeRuntimeBinding X (e_RuntimeBinding e) with
  | None => false
  | Some rb =>
  str_eqb (rb_ContractVersion rb) RuntimeBindingV2ContractVersion && str_eqb (rb_RequestID rb) sid &&
  str_eqb (rb_WorkerID rb) (b_WorkerID b) && str_eqb (rb_PlacementID rb) (b_HostID b) && str_eqb (rb_ClaimID rb) "" &&
  match DecodeHostAdaptationReceipt X (e_HostPreflight e) with
  | None => false
  | Some host =>
  str_eqb (hr_Decision host) "ready" && str_eqb (hr_RequestID host) sid && str_eqb (hr_WorkerID host) (b_WorkerID b) &&
  str_eqb (hr_PlacementID host) (b_HostID b) && str_eqb (hr_ClaimID host) "" && hr_secret_free host &&
  bool_decide (plan_digest host = Some payloadDigest) &&
  let ev := e_InitialEvent e in
  str_eqb (ev_Type ev) EventSessionAdmitted && str_eqb (ev_ScopeID ev) (e_ScopeID e) && str_eqb (ev_SessionID ev) sid &&
  str_eqb (ev_ReceiptID ev) (ar_ReceiptID receipt) && validTimestamp X (ev_RecordedAt ev)
  end end end end end end.

(** The normalised envelope (its dispatch outbox filled in) and its digest.  Every
    failure is [ErrInvalidEnvelope], so the order of the checks does not show. *)
Definition validateAdmission (e : AdmissionEnvelope) (b : ConfiguredHostBinding) (requireSelectors : bool)
  : outcome QueueError (AdmissionEnvelope * string) :=
  let sid := sr_SessionID (e_Session e) in
  if negb (validLocalID (e_ScopeID e) && str_eqb (e_ScopeID e) (b_ScopeID b) &&
           validLocalID (b_HostID b) && validLocalID (b_WorkerID b)) then Err ErrInvalidEnvelope
  else if negb (validateSource (e_Source e)) then Err ErrInvalidEnvelope
  else if negb (validateCredentialHandle (e_CredentialHandle e)) then Err ErrInvalidEnvelope
  else if requireSelectors && negb (complete_selectors (b_Selectors b)) then Err ErrInvalidEnvelope
  else if negb (admission_evidence e b (if requireSelectors then b_Selectors b else None)) then Err ErrInvalidEnvelope
  else if negb (bool_decide (d_State (e_Dispatch e) = None) ||
                bool_decide (d_State (e_Dispatch e) = Some DispatchPending)) then Err ErrInvalidEnvelope
  else if negb (str_eqb (d_Key (e_Dispatch e)) "") && negb (str_eqb (d_Key (e_Dispatch e)) (DispatchKey sid))
  then Err ErrInvalidEnvelope
  else
    let filled sha := set_dispatch {| d_Key := DispatchKey sid; d_State := Some DispatchPending; d_EnvelopeSHA256 := sha |} e in
    let dg := DigestAdmissionEnvelope (filled (d_EnvelopeSHA256 (e_Dispatch e))) in
    if negb (str_eqb (d_EnvelopeSHA256 (e_Dispatch e)) "") && negb (str_eqb (d_EnvelopeSHA256 (e_Dispatch e)) dg)
    then Err ErrInvalidEnvelope
    else Ok (filled dg, dg).

Definition validProcess (p : OwnedProcessCorrelation) : bool :=
  (0 <? ProcessID p) && validLocalID (ProcessStart p) && validSHA256 (SessionDetailSHA256 p).

Definition validObservation (o : BoundedTypedObservation) : bool :=
  negb (bool_decide (o_Kind o = ObservationOther)) && validTimestamp X (ObservedAt o) &&
  (str_eqb (Evidence o) "" || validSHA256 (Evidence o)).

Definition hasPrestartDenial (s : sessionState) : bool :=
  existsb (fun o => bool_decide (o_Kind o = ObservationPrestartDeny)) (observations s).

Definition parseCanonicalGitHubURL (raw : string) : option URL :=
  match url_Parse X raw with
  | Some u =>
      if str_eqb (u_Scheme u) "https" && str_eqb (u_Host u) "github.com" && negb (u_User u) &&
         str_eqb (u_Opaque u) "" && negb (str_eqb (u_Path u) "") && str_eqb (u_RawPath u) "" &&
         str_eqb (u_RawQuery u) "" && negb (u_ForceQuery u)
      then Some u else None
  | None => None
  end.

Definition positive_number (s : string) : option Z :=
  match Atoi s with Some n => if 0 <? n then Some n else None | None => None end.

Definition terminalPRMatchesSource (raw : string) (s : GitHubSource) : bool :=
  match parseCanonicalGitHubURL raw with
  | Some u =>
      let path := strings_ToLower X (u_Path u) in
      let pre := "/" +:+ strings_ToLower X (OwnerRepo s) +:+ "/pull/" in
      str_eqb (u_Fragment u) "" && has_prefix pre path &&
      match split_on "/" (trim_prefix pre path) with
      | [n] => match positive_number n with Some _ => true | None => false end
      | _ => false
      end
  | None => false
  end.

Definition validPublicationEvidence (v : PublicationEvidence) : bool :=
  match parseCanonicalGitHubURL (pe_URL v) with
  | Some u =>
      validTimestamp X (pe_ReadAt v) &&
      if str_eqb (pe_HeadSHA v) "" then
        has_prefix "issuecomment-" (u_Fragment u) &&
        match ParseUint (trim_prefix "issuecomment-" (u_Fragment u)) with Some n => 0 <? n | None => false end
      else validHeadSHA (pe_HeadSHA v)
  | None => false
  end.

Definition publicationMatchesSource (v : PublicationEvidence) (s : GitHubSource) (operation : string) : bool :=
  if str_eqb operation PublicationGitHubPR
  then negb (str_eqb (pe_HeadSHA v) "") && terminalPRMatchesSource (pe_URL v) s
  else
    match parseCanonicalGitHubURL (pe_URL v) with
    | Some u =>
        let path := strings_ToLower X (u_Path u) in
        let pre := "/" +:+ strings_ToLower X (OwnerRepo s) +:+ "/" in
        has_prefix pre path &&
        match split_on "/" (trim_prefix pre path) with
        | [what; n] =>
            (str_eqb what "pull" || str_eqb what "issues") &&
            match positive_number n with
            | Some n =>
                str_eqb operation PublicationGitHubComment && str_eqb what "issues" && str_eqb (pe_HeadSHA v) "" &&
                (n =? IssueNumber s) && has_prefix "issuecomment-" (u_Fragment u)
            | None => false
            end
        | _ => false
        end
    | None => false
    end.

(** [json.Unmarshal(fields[key], &v)]; a missing member is a nil raw message,
    which does not unmarshal. *)
Definition field_string (fields : list (string * bytes)) (key : string) : option string :=
  match List.find (fun kv => str_eqb (fst kv) key) fields with Some kv => json_string X (snd kv) | None => None end.

(** An optional member: absent is "". *)
Definition optional_string (fields : list (string * bytes)) (key : string) : option string :=
  match List.find (fun kv => str_eqb (fst kv) key) fields with
  | Some kv => if blen (snd kv) =? 0 then Some "" else json_string X (snd kv)
  | None => Some ""
  end.

Definition credential_fields : list string :=
  ["authorization"; "token"; "accesstoken"; "refreshtoken"; "apikey"; "headers"; "env"; "credentialvalue"].

Definition terminal_statuses : list string := ["completed"; "failed"; "cancelled"; "blocked"].

Definition validateTerminalBody (a : AttemptRef) (src : GitHubSource) (body : bytes)
  : outcome QueueError (string * string * terminalCorrelation) :=
  if (blen body =? 0) || (Z.shiftl 1 20 <? blen body) then Err ErrInvalidEnvelope
  else if bool_decide (NormalizeOperationalPayload X body = None) then Err ErrInvalidEnvelope
  else match json_object X body with
  | None => Err ErrInvalidEnvelope
  | Some fields =>
      if existsb (fun kv => existsb (str_eqb (strings_ToLower X (fst kv))) credential_fields) fields
      then Err ErrInvalidEnvelope
      else if negb (bool_decide (field_string fields "workerId" = Some (at_WorkerID a))) then Err ErrAttemptMismatch
      else match field_string fields "status" with
      | None => Err ErrInvalidEnvelope
      | Some status =>
          if negb (existsb (str_eqb status) terminal_statuses) then Err ErrInvalidEnvelope
          else match optional_string fields "pullRequestUrl", optional_string fields "commitSha" with
          | Some pr, Some sha =>
              if negb (str_eqb pr "") && negb (terminalPRMatchesSource pr src) then Err ErrInvalidEnvelope
              else if negb (str_eqb sha "") && negb (validHeadSHA sha) then Err ErrInvalidEnvelope
              else if str_eqb status "completed" && (str_eqb pr "" || str_eqb sha "") then Err ErrInvalidEnvelope
              else Ok (status, sha256_hex X body, {| PullRequestURL := pr; CommitSHA := sha |})
          | _, _ => Err ErrInvalidEnvelope
          end
      end
  end.

End Queue.
