(* ===== verification/QueueStore.v ===== *)
(** * QueueStore: the journaled session authority ([src/internal/localqueue])

    The [Store] of [store.go], its journal ([journal.go]) and its operations
    ([transactions.go]).  The world is the list of published transaction files and
    the live store: [applyTransaction] is the state machine; an operation checks its
    own guards and commits one transaction through [commitLocked], which can fail
    before the transaction is published, after it (the store is then poisoned), or
    not at all, as the environment chooses ([commit_io]); [recoverJournal] replays
    the files at the next [Open].  A live store holds the writer lock, so operations
    run one after the other and nobody else publishes files. *)

From Stdlib Require Import Ascii String.
From stdpp Require Import gmap pretty.
From S2P Require Import Prelude GoStrings QueueModel.

Section Store.
Context (X : Externals).

(** ** The state machine *)

Definition stateFor (s : Store) (a : AttemptRef) : outcome QueueError sessionState :=
  match sessions s !! sessionKey (at_ScopeID a) (at_SessionID a) with
  | None => Err ErrUnknownSession
  | Some st =>
      if bool_decide (attempt st = Some a) && str_eqb (at_WorkerID a) (a_WorkerID (authority s))
      then Ok st else Err ErrAttemptMismatch
  end.

Definition set_state (r : AdmissionRecord) (d : DispatchState) (att : string) : AdmissionRecord :=
  {| r_Revision := r_Revision r; r_Envelope := r_Envelope r; r_EnvelopeSHA256 := r_EnvelopeSHA256 r;
     r_DispatchState := d; r_CurrentAttemptID := att |}.

Definition with_session (key : string) (st : sessionState) (s : Store) : Store :=
  {| binding := binding s; authority := authority s; revision := revision s; digest := digest s;
     sessions := <[key := st]> (sessions s); sources := sources s; publications := publications s;
     closed := closed s; poisoned := poisoned s |}.

Definition with_publication (key : string) (p : PublicationOutbox) (s : Store) : Store :=
  {| binding := binding s; authority := authority s; revision := revision s; digest := digest s;
     sessions := sessions s; sources := sources s; publications := <[key := p]> (publications s);
     closed := closed s; poisoned := poisoned s |}.

Definition attempt_key (a : AttemptRef) : string := sessionKey (at_ScopeID a) (at_SessionID a).

(** May a terminal result arrive in this state? *)
Definition terminal_allowed (st : sessionState) : bool :=
  match r_DispatchState (record st) with
  | DispatchUnknown | DispatchLaunched => true
  | DispatchClaimed => hasPrestartDenial st
  | _ => false
  end.

(** A denial only before the launch intent, anything else only after it. *)
Definition observation_allowed (st : sessionState) (o : BoundedTypedObservation) : bool :=
  let denial := bool_decide (o_Kind o = ObservationPrestartDeny) in
  let claimed := bool_decide (r_DispatchState (record st) = DispatchClaimed) in
  negb (denial && negb claimed) && negb (negb denial && claimed).

Definition applyTransaction (s : Store) (tx : journalTransaction) : outcome QueueError Store :=
  match tx_Data tx with
  | TxAuthority a =>
      if negb (revision s =? 0) || negb (str_eqb (a_ScopeID (authority s)) "") then Err ErrReplay
      else if negb (validLocalID (a_ScopeID a) && validLocalID (a_HostID a) && validLocalID (a_WorkerID a) &&
                    validTimestamp X (a_CreatedAt a)) then Err ErrReplay
      else if negb (str_eqb (a_ScopeID a) (b_ScopeID (binding s)) && str_eqb (a_HostID a) (b_HostID (binding s)) &&
                    str_eqb (a_WorkerID a) (b_WorkerID (binding s))) then Err ErrBindingMismatch
      else Ok {| binding := binding s; authority := a; revision := revision s; digest := digest s;
                 sessions := sessions s; sources := sources s; publications := publications s;
                 closed := closed s; poisoned := poisoned s |}
  | TxAdmit r =>
      if str_eqb (a_ScopeID (authority s)) "" then Err ErrReplay
      else if negb ((r_Revision r =? tx_Revision tx) && bool_decide (r_DispatchState r = DispatchPending) &&
                    str_eqb (r_CurrentAttemptID r) "") then Err ErrReplay
      else match validateAdmission X (r_Envelope r) (binding s) false with
      | Ok (e, dg) =>
          if negb (str_eqb dg (r_EnvelopeSHA256 r) && str_eqb (d_EnvelopeSHA256 (e_Dispatch e)) dg) then Err ErrReplay
          else
            let key := sessionKey (e_ScopeID e) (sr_SessionID (e_Session e)) in
            let source := sourceKey (e_Source e) in
            if bool_decide (is_Some (sessions s !! key)) then Err ErrReplay
            else if bool_decide (is_Some (sources s !! source)) then Err ErrReplay
            else Ok {| binding := binding s; authority := authority s; revision := revision s; digest := digest s;
                       sessions := <[key := {| record := r; attempt := None; launch := None; observations := [];
                                               terminal := None |}]> (sessions s);
                       sources := <[source := key]> (sources s); publications := publications s;
                       closed := closed s; poisoned := poisoned s |}
      | _ => Err ErrReplay
      end
  | TxClaim a =>
      if negb (validLocalID (at_AttemptID a) && (at_Generation a =? 1) &&
               str_eqb (at_WorkerID a) (a_WorkerID (authority s))) then Err ErrReplay
      else match sessions s !! attempt_key a with
      | None => Err ErrReplay
      | Some st =>
          if negb (bool_decide (attempt st = None) && bool_decide (r_DispatchState (record st) = DispatchPending))
          then Err ErrReplay
          else Ok (with_session (attempt_key a)
                 {| record := set_state (record st) DispatchClaimed (at_AttemptID a); attempt := Some a;
                    launch := launch st; observations := observations st; terminal := terminal st |} s)
      end
  | TxLaunchIntent a =>
      match stateFor s a with
      | Ok st =>
          if negb (bool_decide (r_DispatchState (record st) = DispatchClaimed)) || hasPrestartDenial st then Err ErrReplay
          else Ok (with_session (attempt_key a)
                 {| record := set_state (record st) DispatchUnknown (r_CurrentAttemptID (record st));
                    attempt := attempt st; launch := launch st; observations := observations st;
                    terminal := terminal st |} s)
      | _ => Err ErrReplay
      end
  | TxObserveLaunch a p =>
      if negb (validProcess p) then Err ErrReplay
      else match stateFor s a with
      | Ok st =>
          if negb (bool_decide (r_DispatchState (record st) = DispatchUnknown)) || negb (bool_decide (launch st = None))
          then Err ErrReplay
          else Ok (with_session (attempt_key a)
                 {| record := set_state (record st) DispatchLaunched (r_CurrentAttemptID (record st));
                    attempt := attempt st; launch := Some p; observations := observations st;
                    terminal := terminal st |} s)
      | _ => Err ErrReplay
      end
  | TxObservation a o =>
      if negb (validObservation X o) then Err ErrReplay
      else match stateFor s a with
      | Ok st =>
          if negb (bool_decide (terminal st = None)) then Err ErrReplay
          else if negb (observation_allowed st o) then Err ErrReplay
          else Ok (with_session (attempt_key a)
                 {| record := record st; attempt := attempt st; launch := launch st;
                    observations := observations st ++ [o]; terminal := terminal st |} s)
      | _ => Err ErrReplay
      end
  | TxTerminal rc ev p =>
      match stateFor s (rc_Attempt rc) with
      | Ok st =>
          if negb (bool_decide (terminal st = None)) || negb (rc_Revision rc =? tx_Revision tx) then Err ErrReplay
          else if negb (terminal_allowed st) then Err ErrReplay
          else match validateTerminalBody X (rc_Attempt rc) (e_Source (r_Envelope (record st))) (rc_Body rc) with
          | Ok (status, dg, corr) =>
              let op := publicationOperation status in
              let sid := at_SessionID (rc_Attempt rc) in
              if negb (str_eqb status (rc_Status rc) && str_eqb dg (rc_BodySHA256 rc)) then Err ErrReplay
              else if bool_decide (r_DispatchState (record st) = DispatchClaimed) && negb (str_eqb status "failed") then Err ErrReplay
              else if negb (str_eqb (te_Type ev) "session.ended" && str_eqb (te_ScopeID ev) (at_ScopeID (rc_Attempt rc)) &&
                            str_eqb (te_SessionID ev) sid && str_eqb (te_Status ev) status &&
                            str_eqb (te_BodySHA256 ev) dg) then Err ErrReplay
              else if negb (str_eqb (p_Key p) (publicationKey sid dg op) && str_eqb (p_SessionID p) sid &&
                            str_eqb (p_ResultSHA256 p) dg && bool_decide (p_State p = PubPending) &&
                            str_eqb (p_Operation p) op) then Err ErrReplay
              else if negb (if str_eqb op PublicationGitHubPR
                            then str_eqb (p_URL p) (PullRequestURL corr) && str_eqb (p_HeadSHA p) (CommitSHA corr) &&
                                 str_eqb (p_ReadAt p) ""
                            else str_eqb (p_URL p) "" && str_eqb (p_HeadSHA p) "" && str_eqb (p_ReadAt p) "") then Err ErrReplay
              else Ok (with_publication (p_Key p) p (with_session (attempt_key (rc_Attempt rc))
                     {| record := set_state (record st) DispatchTerminal (r_CurrentAttemptID (record st));
                        attempt := attempt st; launch := launch st; observations := observations st;
                        terminal := Some rc |} s))
          | _ => Err ErrReplay
          end
      | _ => Err ErrReplay
      end
  | TxPublication key ev =>
      if negb (validPublicationEvidence X ev) then Err ErrReplay
      else match publications s !! key with
      | None => Err ErrReplay
      | Some item =>
          match sessions s !! sessionKey (b_ScopeID (binding s)) (p_SessionID item) with
          | None => Err ErrReplay
          | Some st =>
              if negb (bool_decide (p_State item = PubPending) &&
                       publicationMatchesSource X ev (e_Source (r_Envelope (record st))) (p_Operation item)) then Err ErrReplay
              else if str_eqb (p_Operation item) PublicationGitHubPR &&
                      (negb (str_eqb (pe_URL ev) (p_URL item)) || negb (str_eqb (pe_HeadSHA ev) (p_HeadSHA item))) then Err ErrReplay
              else Ok (with_publication key
                     {| p_Key := p_Key item; p_SessionID := p_SessionID item; p_ResultSHA256 := p_ResultSHA256 item;
                        p_Operation := p_Operation item; p_State := PubDelivered; p_URL := pe_URL ev;
                        p_HeadSHA := pe_HeadSHA ev; p_ReadAt := pe_ReadAt ev |} s)
          end
      end
  end.

(** ** The journal *)

Definition zeros64 : string := "0000000000000000000000000000000000000000000000000000000000000000".

Definition previousHash (s : Store) : string := if revision s =? 0 then zeros64 else digest s.

(** [transactionDigest]: the digest field itself is blank. *)
Definition transactionDigest (tx : journalTransaction) : string :=
  transaction_hash X (tx_Revision tx) (tx_Previous tx) (tx_Data tx).

(** The header checks of a transaction file, canonical JSON apart. *)
Definition decodeCanonicalTransaction (tx : journalTransaction) : bool :=
  validSHA256 (tx_SHA256 tx) && validSHA256 (tx_Previous tx) && str_eqb (transactionDigest tx) (tx_SHA256 tx).

Definition set_head (n : Z) (d : string) (s : Store) : Store :=
  {| binding := binding s; authority := authority s; revision := n; digest := d;
     sessions := sessions s; sources := sources s; publications := publications s;
     closed := closed s; poisoned := poisoned s |}.

Definition set_flags (c p : bool) (s : Store) : Store :=
  {| binding := binding s; authority := authority s; revision := revision s; digest := digest s;
     sessions := sessions s; sources := sources s; publications := publications s;
     closed := c; poisoned := p |}.

Definition set_selectors (sel : option ExecutionSelectorRegistry) (s : Store) : Store :=
  {| binding := {| b_ScopeID := b_ScopeID (binding s); b_HostID := b_HostID (binding s);
                   b_WorkerID := b_WorkerID (binding s); b_Selectors := sel |};
     authority := authority s; revision := revision s; digest := digest s;
     sessions := sessions s; sources := sources s; publications := publications s;
     closed := closed s; poisoned := poisoned s |}.

(** One iteration of the replay loop, on the file of revision [expected]. *)
Definition recover_one (expected : Z) (tx : journalTransaction) (s : Store) : outcome QueueError Store :=
  if negb (decodeCanonicalTransaction tx) then Err ErrCorruptStore
  else if negb (tx_Revision tx =? expected) || negb (str_eqb (tx_Previous tx) (previousHash s)) then Err ErrCorruptStore
  else match applyTransaction s tx with
  | Ok s' => Ok (set_head expected (tx_SHA256 tx) s')
  | Err ErrBindingMismatch => Err ErrBindingMismatch
  | _ => Err ErrCorruptStore
  end.

(** The files in the order of their names, from the file of revision [expected]. *)
Fixpoint recover_loop (expected : Z) (files : list journalTransaction) (s : Store) : outcome QueueError Store :=
  match files with
  | [] => Ok s
  | tx :: rest =>
      match recover_one expected tx s with
      | Ok s' => recover_loop (expected + 1) rest s'
      | Err e => Err e
      | Panic => Panic
      end
  end.

Definition recoverJournal (files : list journalTransaction) (s : Store) : outcome QueueError Store :=
  match recover_loop 1 files s with
  | Ok s' => if negb (revision s' =? 0) && str_eqb (a_ScopeID (authority s')) "" then Err ErrCorruptStore else Ok s'
  | e => e
  end.

(** ** Committing *)

Record World := { journal : list journalTransaction; store : Store }.

(** What the environment does to one commit: the caller's context is done at the
    first or at the second check, something fails before the link, the link fails,
    the directory cannot be synced after the link, or nothing fails. *)
Inductive commit_io := IoCtxDone | IoBeforeLink | IoCtxLate | IoLinkFails | IoAfterLink | IoOk.
#[global] Instance commit_io_eq_dec : EqDecision commit_io.
Proof. solve_decision. Defined.

Definition new_transaction (s : Store) (expected : Z) (d : txData) : journalTransaction :=
  {| tx_Revision := expected + 1; tx_Previous := previousHash s; tx_Data := d;
     tx_SHA256 := transaction_hash X (expected + 1) (previousHash s) d |}.

Definition commitLocked (io : commit_io) (expected : Z) (d : txData) (w : World) : World * option QueueError :=
  let s := store w in
  if closed s || poisoned s then (w, Some ErrCorruptStore)
  else if bool_decide (io = IoCtxDone) then (w, Some ErrContext)
  else if negb (expected =? revision s) then (w, Some ErrConflict)
  else
    let tx := new_transaction s expected d in
    let ambiguous := ({| journal := journal w ++ [tx]; store := set_flags (closed s) true s |}, Some ErrAmbiguousCommit) in
    match io with
    | IoBeforeLink | IoLinkFails => (w, Some ErrIO)
    | IoCtxDone | IoCtxLate => (w, Some ErrContext)
    | IoAfterLink => ambiguous
    | IoOk =>
        match applyTransaction s tx with
        | Ok s' => ({| journal := journal w ++ [tx]; store := set_head (tx_Revision tx) (tx_SHA256 tx) s' |}, None)
        | _ => ambiguous
        end
    end.

(** ** The operations *)

Definition validateConfiguredBinding (b : ConfiguredHostBinding) : bool :=
  validLocalID (b_ScopeID b) && validLocalID (b_HostID b) && validLocalID (b_WorkerID b).

(** [Open] on the files it finds, with the clock's time: the store, or an error
    with the files as it leaves them.  [resync] is the sync of the directory before
    the replay; the creation of the directories and the lock is not modelled. *)
Definition Open (resync : bool) (io : commit_io) (b : ConfiguredHostBinding) (now : string) (files : list journalTransaction)
  : outcome (QueueError * list journalTransaction) World :=
  if negb (validateConfiguredBinding b) then Err (ErrBindingMismatch, files)
  else if negb resync then Err (ErrAmbiguousCommit, files)
  else match recoverJournal files (newStore b) with
  | Err e => Err (e, files)
  | Panic => Panic
  | Ok s =>
      let '(w, err) :=
        if revision s =? 0
        then commitLocked io 0 (TxAuthority {| a_ScopeID := b_ScopeID b; a_HostID := b_HostID b;
                                               a_WorkerID := b_WorkerID b; a_CreatedAt := now |})
                          {| journal := files; store := s |}
        else ({| journal := files; store := s |}, None) in
      match err with
      | Some e => Err (e, journal w)
      | None =>
          let a := authority (store w) in
          if negb (str_eqb (a_ScopeID a) (b_ScopeID b) && str_eqb (a_HostID a) (b_HostID b) &&
                   str_eqb (a_WorkerID a) (b_WorkerID b))
          then Err (ErrBindingMismatch, journal w) else Ok w
      end
  end.

Definition Close (w : World) : World :=
  {| journal := journal w; store := set_flags true (poisoned (store w)) (store w) |}.

Definition UpdateSelectors (ctx_done : bool) (sel : option ExecutionSelectorRegistry) (w : World) : World * option QueueError :=
  if ctx_done then (w, Some ErrContext)
  else if negb (complete_selectors sel) then (w, Some ErrInvalidEnvelope)
  else if closed (store w) || poisoned (store w) then (w, Some ErrCorruptStore)
  else ({| journal := journal w; store := set_selectors sel (store w) |}, None).

Definition Admit (io : commit_io) (expected : Z) (e : AdmissionEnvelope) (w : World) : World * outcome QueueError AdmissionRecord :=
  let s := store w in
  if closed s || poisoned s then (w, Err ErrCorruptStore)
  else if negb (expected =? revision s) then (w, Err ErrConflict)
  else match validateAdmission X e (binding s) true with
  | Ok (e, dg) =>
      if bool_decide (is_Some (sources s !! sourceKey (e_Source e))) then (w, Err ErrAlreadyAdmitted)
      else if bool_decide (is_Some (sessions s !! sessionKey (e_ScopeID e) (sr_SessionID (e_Session e)))) then (w, Err ErrConflict)
      else
        let r := {| r_Revision := expected + 1; r_Envelope := e; r_EnvelopeSHA256 := dg;
                    r_DispatchState := DispatchPending; r_CurrentAttemptID := "" |} in
        match commitLocked io expected (TxAdmit r) w with
        | (w', Some err) => (w', Err err)
        | (w', None) => (w', Ok r)
        end
  | Err err => (w, Err err)
  | Panic => (w, Panic)
  end.

(** [hex.EncodeToString] of the random bytes. *)
Definition hex_digit (n : Z) : ascii := ascii_of_N (Z.to_N (if n <? 10 then 0x30 + n else 0x57 + n)).

Fixpoint hex_string (bs : bytes) : string :=
  match bs with
  | [] => ""
  | b :: bs' => String (hex_digit (Z.shiftr b 4)) (String (hex_digit (Z.land b 0xF)) (hex_string bs'))
  end.

(** [random] is what the random source gives, [None] when it fails. *)
Definition Claim (io : commit_io) (random : option bytes) (expected : Z) (ref : SessionRef) (w : World)
  : World * outcome QueueError AttemptRef :=
  let s := store w in
  if closed s || poisoned s then (w, Err ErrCorruptStore)
  else if negb (expected =? revision s) then (w, Err ErrConflict)
  else if negb (DecodeSessionRef X ref && str_eqb (sr_ClaimReceiptID ref) "") then (w, Err ErrInvalidEnvelope)
  else match sessions s !! sessionKey (b_ScopeID (binding s)) (sr_SessionID ref) with
  | None => (w, Err ErrUnknownSession)
  | Some st =>
      if negb (bool_decide (r_DispatchState (record st) = DispatchPending)) || negb (bool_decide (attempt st = None)) ||
         negb (bool_decide (ref = e_Session (r_Envelope (record st)))) then (w, Err ErrAttemptMismatch)
      else match random with
      | None => (w, Err ErrIO)
      | Some rnd =>
          let a := {| at_ScopeID := b_ScopeID (binding s); at_SessionID := sr_SessionID ref;
                      at_AttemptID := "att_" +:+ hex_string rnd; at_WorkerID := b_WorkerID (binding s); at_Generation := 1 |} in
          match commitLocked io expected (TxClaim a) w with
          | (w', Some err) => (w', Err err)
          | (w', None) => (w', Ok a)
          end
      end
  end.

Definition BeginLaunch (io : commit_io) (expected : Z) (a : AttemptRef) (w : World) : World * option QueueError :=
  match stateFor (store w) a with
  | Ok st =>
      if negb (bool_decide (r_DispatchState (record st) = DispatchClaimed)) || hasPrestartDenial st
      then (w, Some ErrAttemptMismatch)
      else commitLocked io expected (TxLaunchIntent a) w
  | _ => (w, Some ErrAttemptMismatch)
  end.

Definition ObserveLaunch (io : commit_io) (expected : Z) (a : AttemptRef) (p : OwnedProcessCorrelation) (w : World)
  : World * option QueueError :=
  match stateFor (store w) a with
  | Ok st =>
      if negb (bool_decide (r_DispatchState (record st) = DispatchUnknown)) || negb (validProcess p)
      then (w, Some ErrAttemptMismatch)
      else commitLocked io expected (TxObserveLaunch a p) w
  | _ => (w, Some ErrAttemptMismatch)
  end.

Definition RecordObservation (io : commit_io) (a : AttemptRef) (o : BoundedTypedObservation) (w : World)
  : World * option QueueError :=
  match stateFor (store w) a with
  | Ok st =>
      if negb (bool_decide (terminal st = None)) || negb (validObservation X o) then (w, Some ErrAttemptMismatch)
      else if negb (observation_allowed st o) then (w, Some ErrAttemptMismatch)
      else commitLocked io (revision (store w)) (TxObservation a o) w
  | _ => (w, Some ErrAttemptMismatch)
  end.

(** The three parts of the one terminal transaction. *)
Definition terminal_data (a : AttemptRef) (n : Z) (body : bytes) (status dg : string) (corr : terminalCorrelation)
  : DurableReceipt * terminalEvent * PublicationOutbox :=
  let completed := str_eqb status "completed" in
  ({| rc_Attempt := a; rc_Body := body; rc_BodySHA256 := dg; rc_Status := status; rc_Revision := n |},
   {| te_Type := "session.ended"; te_ScopeID := at_ScopeID a; te_SessionID := at_SessionID a; te_Status := status;
      te_BodySHA256 := dg |},
   {| p_Key := publicationKey (at_SessionID a) dg (publicationOperation status); p_SessionID := at_SessionID a;
      p_ResultSHA256 := dg; p_Operation := publicationOperation status; p_State := PubPending;
      p_URL := if completed then PullRequestURL corr else ""; p_HeadSHA := if completed then CommitSHA corr else "";
      p_ReadAt := "" |}).

Definition CommitTerminal (io : commit_io) (a : AttemptRef) (body : bytes) (w : World) : World * outcome QueueError DurableReceipt :=
  let s := store w in
  if closed s || poisoned s then (w, Err ErrCorruptStore)
  else match stateFor s a with
  | Err e => (w, Err e)
  | Panic => (w, Panic)
  | Ok st =>
      match terminal st with
      | Some rc => (w, if bytes_eqb (rc_Body rc) body then Ok rc else Err ErrConflict)
      | None =>
          if negb (terminal_allowed st) then (w, Err ErrAttemptMismatch)
          else match validateTerminalBody X a (e_Source (r_Envelope (record st))) body with
          | Err e => (w, Err e)
          | Panic => (w, Panic)
          | Ok (status, dg, corr) =>
              if bool_decide (r_DispatchState (record st) = DispatchClaimed) && negb (str_eqb status "failed")
              then (w, Err ErrAttemptMismatch)
              else
                let '(rc, ev, p) := terminal_data a (revision s + 1) body status dg corr in
                match commitLocked io (revision s) (TxTerminal rc ev p) w with
                | (w', Some err) => (w', Err err)
                | (w', None) => (w', Ok rc)
                end
          end
      end
  end.

Definition CompletePublication (io : commit_io) (key : string) (ev : PublicationEvidence) (w : World) : World * option QueueError :=
  let s := store w in
  match publications s !! key with
  | None => (w, Some ErrConflict)
  | Some item =>
      match sessions s !! sessionKey (b_ScopeID (binding s)) (p_SessionID item) with
      | None => (w, Some ErrConflict)
      | Some st =>
          if negb (bool_decide (p_State item = PubPending)) || negb (validPublicationEvidence X ev) ||
             negb (publicationMatchesSource X ev (e_Source (r_Envelope (record st))) (p_Operation item))
          then (w, Some ErrConflict)
          else if str_eqb (p_Operation item) PublicationGitHubPR &&
                  (negb (str_eqb (pe_URL ev) (p_URL item)) || negb (str_eqb (pe_HeadSHA ev) (p_HeadSHA item)))
          then (w, Some ErrConflict)
          else commitLocked io (revision s) (TxPublication key ev) w
      end
  end.

(** ** Queries *)

(** [sort.Slice] over the values of a map, which come in no particular order. *)
Fixpoint insert_by {A} (less : A -> A -> bool) (x : A) (l : list A) : list A :=
  match l with
  | [] => [x]
  | y :: l' => if less x y then x :: l else y :: insert_by less x l'
  end.

Definition sort_by {A} (less : A -> A -> bool) (l : list A) : list A := foldr (insert_by less) [] l.

Definition values {A} (m : gmap string A) : list A := map snd (map_to_list m).

Definition LoadAuthority (s : Store) : outcome QueueError Authority :=
  if closed s || poisoned s || (revision s =? 0) then Err ErrCorruptStore else Ok (authority s).

Record SessionProjection := {
  Admission : AdmissionRecord; Attempt : option AttemptRef; Launch : option OwnedProcessCorrelation;
  Observations : list BoundedTypedObservation; Terminal : option DurableReceipt; Publications : list PublicationOutbox
}.

Definition key_less (p q : PublicationOutbox) : bool := String.ltb (p_Key p) (p_Key q).

Definition projectionLocked (s : Store) (st : sessionState) : SessionProjection :=
  {| Admission := record st; Attempt := attempt st; Launch := launch st; Observations := observations st;
     Terminal := terminal st;
     Publications := sort_by key_less
       (List.filter (fun p => str_eqb (p_SessionID p) (sr_SessionID (e_Session (r_Envelope (record st))))) (values (publications s))) |}.

Definition SessionOf (ctx_done : bool) (s : Store) (scopeID sessionID : string) : outcome QueueError SessionProjection :=
  if ctx_done then Err ErrContext
  else if closed s || poisoned s then Err ErrCorruptStore
  else match sessions s !! sessionKey scopeID sessionID with
  | None => Err ErrUnknownSession
  | Some st => Ok (projectionLocked s st)
  end.

Definition SessionForSource (ctx_done : bool) (s : Store) (scopeID : string) (src : GitHubSource) : outcome QueueError SessionProjection :=
  if ctx_done then Err ErrContext
  else if negb (validateSource X src) then Err ErrInvalidEnvelope
  else if closed s || poisoned s then Err ErrCorruptStore
  else if negb (str_eqb scopeID (a_ScopeID (authority s))) then Err ErrUnknownSession
  else match sources s !! sourceKey src with
  | None => Err ErrUnknownSession
  | Some key =>
      match sessions s !! key with
      | None => Err ErrCorruptStore
      | Some st =>
          let original := e_Source (r_Envelope (record st)) in
          if negb (strings_EqualFold X (OwnerRepo original) (OwnerRepo src)) ||
             negb (strings_EqualFold X (IssueURL original) (IssueURL src)) then Err ErrBindingMismatch
          else Ok (projectionLocked s st)
      end
  end.

Definition in_flight (st : sessionState) : bool :=
  match r_DispatchState (record st) with DispatchClaimed | DispatchUnknown | DispatchLaunched => true | _ => false end.

Definition SessionsNeedingRecovery (ctx_done : bool) (s : Store) : outcome QueueError (list SessionProjection) :=
  if ctx_done then Err ErrContext
  else if closed s || poisoned s then Err ErrCorruptStore
  else Ok (sort_by (fun p q => r_Revision (Admission p) <? r_Revision (Admission q))
             (map (projectionLocked s) (List.filter in_flight (values (sessions s))))).

Definition PendingDispatch (ctx_done : bool) (s : Store) : outcome QueueError (list AdmissionRecord) :=
  if ctx_done then Err ErrContext
  else if closed s || poisoned s then Err ErrCorruptStore
  else Ok (sort_by (fun p q => r_Revision p <? r_Revision q)
             (List.filter (fun r => bool_decide (r_DispatchState r = DispatchPending)) (map record (values (sessions s))))).

Definition PendingPublication (ctx_done : bool) (s : Store) : outcome QueueError (list PublicationOutbox) :=
  if ctx_done then Err ErrContext
  else if closed s || poisoned s then Err ErrCorruptStore
  else Ok (sort_by key_less (List.filter (fun p => bool_decide (p_State p = PubPending)) (values (publications s)))).

(** ** Histories *)

(** A call on a live store, with what the environment does during it. *)
Inductive op :=
| OpUpdateSelectors (ctx_done : bool) (sel : option ExecutionSelectorRegistry)
| OpAdmit (io : commit_io) (expected : Z) (e : AdmissionEnvelope)
| OpClaim (io : commit_io) (random : option bytes) (expected : Z) (ref : SessionRef)
| OpBeginLaunch (io : commit_io) (expected : Z) (a : AttemptRef)
| OpObserveLaunch (io : commit_io) (expected : Z) (a : AttemptRef) (p : OwnedProcessCorrelation)
| OpRecordObservation (io : commit_io) (a : AttemptRef) (o : BoundedTypedObservation)
| OpCommitTerminal (io : commit_io) (a : AttemptRef) (body : bytes)
| OpCompletePublication (io : commit_io) (key : string) (ev : PublicationEvidence)
| OpClose.

Definition run_op (o : op) (w : World) : World :=
  match o with
  | OpUpdateSelectors c sel => fst (UpdateSelectors c sel w)
  | OpAdmit io n e => fst (Admit io n e w)
  | OpClaim io rnd n ref => fst (Claim io rnd n ref w)
  | OpBeginLaunch io n a => fst (BeginLaunch io n a w)
  | OpObserveLaunch io n a p => fst (ObserveLaunch io n a p w)
  | OpRecordObservation io a ob => fst (RecordObservation io a ob w)
  | OpCommitTerminal io a b => fst (CommitTerminal io a b w)
  | OpCompletePublication io k ev => fst (CompletePublication io k ev w)
  | OpClose => Close w
  end.

(** [rand.Read] fills eight bytes. *)
Definition op_ok (o : op) : Prop :=
  match o with OpClaim _ (Some rnd) _ _ => length rnd = 8%nat /\ bytes_ok rnd | _ => True end.

(** What the environment does to the commit of a call. *)
Definition op_io (o : op) : commit_io :=
  match o with
  | OpAdmit io _ _ | OpClaim io _ _ _ | OpBeginLaunch io _ _ | OpObserveLaunch io _ _ _ | OpRecordObservation io _ _
  | OpCommitTerminal io _ _ | OpCompletePublication io _ _ => io
  | OpUpdateSelectors _ _ | OpClose => IoOk
  end.

Definition run (ops : list op) (w : World) : World := fold_left (fun w o => run_op o w) ops w.

End Store.
