(* ===== verification/QueueInvariant.v ===== *)
(** * QueueInvariant: the store invariant of the session queue

    What every journal that [recoverJournal] accepts, and every operation,
    maintains: the fields a session has in each dispatch state, the one-to-one
    correspondence of sessions and sources, and the publication outbox of every
    terminal session.  [extends] is the order in which stores grow: sessions never
    disappear, their admission is immutable, an attempt, a launch or a terminal
    receipt once present never changes, and the dispatch state only advances. *)

From Stdlib Require Import Ascii String.
From stdpp Require Import gmap pretty.
From S2P Require Import Prelude GoStrings QueueModel QueueStore.

(** Read every boolean test of the context. *)
Ltac queue_bools :=
  repeat match goal with
  | H : negb _ = false |- _ => apply negb_false_iff in H
  | H : negb _ = true |- _ => apply negb_true_iff in H
  | H : _ || _ = false |- _ => apply orb_false_elim in H; destruct H
  | H : _ && _ = true |- _ => apply andb_prop in H; destruct H
  | H : str_eqb _ _ = true |- _ => apply str_eqb_true in H
  | H : bool_decide _ = true |- _ => apply bool_decide_eq_true in H
  | H : bool_decide _ = false |- _ => apply bool_decide_eq_false in H
  | H : (_ =? _) = true |- _ => apply Z.eqb_eq in H
  end.

(** Split the guards of a successful call. *)
Ltac guards H :=
  repeat match type of H with
  | (if ?c then _ else _) = Ok _ => destruct c eqn:?; [try discriminate H | try discriminate H]
  | (if ?c then _ else _) = Ok _ => destruct c eqn:?; try discriminate H
  | match ?m with _ => _ end = Ok _ => destruct m eqn:?; try discriminate H
  end.

(** ** Keys *)

Lemma sessionKey_inj scope a b : sessionKey scope a = sessionKey scope b -> a = b.
Proof. unfold sessionKey. intros H. by do 2 apply (inj _) in H. Qed.

(** A local ID has no NUL, so a session key splits in one way. *)
Lemma validLocalID_no_NUL s : validLocalID s = true -> Forall (fun c => c <> Ascii.zero) (chars s).
Proof.
  unfold validLocalID. destruct s as [|c s]; [done|]. intros H. queue_bools.
  simpl. constructor; [by intros ->|].
  eapply Forall_impl; [by apply all_chars_Forall|]. intros x Hx ->. by vm_compute in Hx.
Qed.

Lemma sessionKey_split a b scope sid :
  validLocalID scope = true -> validLocalID sid = true -> sessionKey a b = sessionKey scope sid -> a = scope /\ b = sid.
Proof.
  intros H1 H2 H. apply (f_equal chars) in H. unfold sessionKey in H. rewrite !chars_app in H.
  apply split_unique in H as [Ha Hb]; [|by apply validLocalID_no_NUL..]. split; by apply chars_inj.
Qed.

Lemma validSHA256_length s : validSHA256 s = true -> String.length s = 64%nat.
Proof. unfold validSHA256. intros H. queue_bools. lia. Qed.

Lemma sourceKey_inj s t :
  sourceKey s = sourceKey t -> RepositoryID s = RepositoryID t /\ IssueNumber s = IssueNumber t.
Proof.
  unfold sourceKey. intros H. apply split_at_colon in H as [H1 H2]; [|apply pretty_Z_no_colon..].
  split; by apply (inj pretty).
Qed.

Lemma publicationKey_inj sid1 dg1 st1 sid2 dg2 st2 :
  String.length dg1 = String.length dg2 ->
  publicationKey sid1 dg1 (publicationOperation st1) = publicationKey sid2 dg2 (publicationOperation st2) ->
  sid1 = sid2 /\ dg1 = dg2 /\ publicationOperation st1 = publicationOperation st2.
Proof.
  intros Hl H.
  assert (Hop : publicationOperation st1 = publicationOperation st2).
  { apply (f_equal (fun k => last (chars k))) in H. unfold publicationKey in H.
    rewrite !chars_app, !app_assoc in H.
    unfold publicationOperation in *. destruct (str_eqb st1 "completed"), (str_eqb st2 "completed"); auto;
      rewrite !last_app in H; simpl in H; discriminate. }
  rewrite Hop in H. apply (f_equal chars) in H. unfold publicationKey in H.
  rewrite !chars_app, !app_assoc in H.
  apply app_inj_2 in H as [H _]; [|done]. apply app_inj_2 in H as [H _]; [|done].
  apply app_inj_2 in H as [H Hd]; [|by rewrite !chars_length].
  apply app_inj_2 in H as [H _]; [|done]. apply app_inv_head in H.
  apply chars_inj in H, Hd. by subst.
Qed.

Section Invariant.
Context (X : Externals) `{!ExternalLaws X}.

(** ** The invariant *)

Definition env (st : sessionState) : AdmissionEnvelope := r_Envelope (record st).
Definition sid (st : sessionState) : string := sr_SessionID (e_Session (env st)).

(** The fields a session has after its claim, by dispatch state. *)
Definition attempt_fields (st : sessionState) (a : AttemptRef) : Prop :=
  match r_DispatchState (record st) with
  | DispatchPending => False
  | DispatchClaimed =>
      launch st = None /\ terminal st = None /\ Forall (fun o => o_Kind o = ObservationPrestartDeny) (observations st)
  | DispatchUnknown => launch st = None /\ terminal st = None /\ hasPrestartDenial st = false
  | DispatchLaunched =>
      (exists p, launch st = Some p /\ validProcess p = true) /\ terminal st = None /\ hasPrestartDenial st = false
  | DispatchTerminal =>
      exists rc corr, terminal st = Some rc /\ rc_Attempt rc = a /\
        validateTerminalBody X a (e_Source (env st)) (rc_Body rc) = Ok (rc_Status rc, rc_BodySHA256 rc, corr) /\
        (hasPrestartDenial st = true -> launch st = None /\ rc_Status rc = "failed")
  end.

Definition lifecycle (st : sessionState) : Prop :=
  if decide (r_DispatchState (record st) = DispatchPending)
  then attempt st = None /\ launch st = None /\ observations st = [] /\ terminal st = None /\ r_CurrentAttemptID (record st) = ""
  else exists a, attempt st = Some a /\ at_ScopeID a = e_ScopeID (env st) /\ at_SessionID a = sid st /\
         r_CurrentAttemptID (record st) = at_AttemptID a /\ attempt_fields st a.

Definition session_ok (s : Store) (key : string) (st : sessionState) : Prop :=
  key = sessionKey (b_ScopeID (binding s)) (sid st) /\ validLocalID (sid st) = true /\ e_ScopeID (env st) = b_ScopeID (binding s) /\
  sources s !! sourceKey (e_Source (env st)) = Some key /\ lifecycle st.

Definition source_ok (s : Store) (src key : string) : Prop :=
  exists st, sessions s !! key = Some st /\ sourceKey (e_Source (env st)) = src.

(** An entry of the outbox is the publication of a terminal receipt. *)
Definition receipt_key (rc : DurableReceipt) : string :=
  publicationKey (at_SessionID (rc_Attempt rc)) (rc_BodySHA256 rc) (publicationOperation (rc_Status rc)).

Definition publication_of (rc : DurableReceipt) (p : PublicationOutbox) : Prop :=
  p_Key p = receipt_key rc /\ p_SessionID p = at_SessionID (rc_Attempt rc) /\ p_ResultSHA256 p = rc_BodySHA256 rc /\
  p_Operation p = publicationOperation (rc_Status rc).

Definition publication_ok (s : Store) (key : string) (p : PublicationOutbox) : Prop :=
  exists st rc, sessions s !! sessionKey (b_ScopeID (binding s)) (p_SessionID p) = Some st /\
    terminal st = Some rc /\ key = receipt_key rc /\ publication_of rc p.

Definition outbox_ok (s : Store) (key : string) (st : sessionState) : Prop :=
  forall rc, terminal st = Some rc -> exists p, publications s !! receipt_key rc = Some p /\ publication_of rc p.

Definition authority_ok (s : Store) : Prop :=
  a_ScopeID (authority s) = b_ScopeID (binding s) /\ a_HostID (authority s) = b_HostID (binding s) /\
  a_WorkerID (authority s) = b_WorkerID (binding s) /\ validateConfiguredBinding (binding s) = true.

Definition empty_store (s : Store) : Prop :=
  authority s = no_authority /\ sessions s = ∅ /\ sources s = ∅ /\ publications s = ∅.

Record store_inv (s : Store) : Prop := {
  inv_revision : 0 <= revision s;
  inv_authority : if revision s =? 0 then empty_store s else authority_ok s;
  inv_sessions : map_Forall (session_ok s) (sessions s);
  inv_sources : map_Forall (source_ok s) (sources s);
  inv_publications : map_Forall (publication_ok s) (publications s);
  inv_outbox : map_Forall (outbox_ok s) (sessions s)
}.

Lemma store_inv_new b : store_inv (newStore b).
Proof. split; cbn; try lia; try apply map_Forall_empty. done. Qed.

(** The head, the flags and the selectors are not part of it. *)
Lemma store_inv_flags c p s : store_inv s -> store_inv (set_flags c p s).
Proof. intros [????? H]. split; assumption. Qed.

Lemma store_inv_selectors sel s : store_inv s -> store_inv (set_selectors sel s).
Proof. intros [????? H]. split; assumption. Qed.

(** A later revision needs the authority. *)
Lemma store_inv_head n d s :
  0 < n -> authority_ok s -> map_Forall (session_ok s) (sessions s) -> map_Forall (source_ok s) (sources s) ->
  map_Forall (publication_ok s) (publications s) -> map_Forall (outbox_ok s) (sessions s) ->
  store_inv (set_head n d s).
Proof.
  intros Hn Ha H1 H2 H3 H4. split; cbn; try assumption; [lia|].
  destruct (Z.eqb_spec n 0); [lia | exact Ha].
Qed.

Lemma inv_nonempty s key st : store_inv s -> sessions s !! key = Some st -> authority_ok s.
Proof.
  intros H Hk. pose proof (inv_authority _ H) as Ha.
  destruct (revision s =? 0); [|exact Ha]. destruct Ha as (_ & He & _). rewrite He in Hk. by rewrite lookup_empty in Hk.
Qed.

(** ** Updating one session *)

Lemma update_session s key st st' n d :
  store_inv s -> 0 < n -> sessions s !! key = Some st -> env st' = env st -> terminal st' = terminal st -> lifecycle st' ->
  store_inv (set_head n d (with_session key st' s)).
Proof.
  intros Hs Hn Hk He Ht Hl. pose proof (inv_nonempty _ _ _ Hs Hk) as Ha. destruct Hs as [_ _ H1 H2 H3 H4].
  apply store_inv_head; [done | exact Ha | ..].
  - intros k x Hx. cbn in Hx. apply lookup_insert_Some in Hx as [[<- <-]|[_ Hx]]; [|exact (H1 _ _ Hx)].
    destruct (H1 _ _ Hk) as (?&?&?&?&_). unfold session_ok, sid in *. rewrite He. repeat split; assumption.
  - intros src k Hx. destruct (H2 _ _ Hx) as (x & Hx1 & Hx2). unfold source_ok. cbn.
    destruct (decide (key = k)) as [<-|].
    + exists st'. rewrite lookup_insert_eq. rewrite Hk in Hx1. injection Hx1 as <-. by rewrite He.
    + exists x. by rewrite lookup_insert_ne.
  - intros k p Hp. destruct (H3 _ _ Hp) as (x & rc & Hx & Hrc & Hr). unfold publication_ok. cbn.
    destruct (decide (key = sessionKey (b_ScopeID (binding s)) (p_SessionID p))) as [Heq|].
    + exists st', rc. rewrite <- Heq in *. rewrite lookup_insert_eq. rewrite Hk in Hx. injection Hx as <-. by rewrite Ht.
    + exists x, rc. by rewrite lookup_insert_ne.
  - intros k x Hx. cbn in Hx. apply lookup_insert_Some in Hx as [[<- <-]|[_ Hx]]; [|exact (H4 _ _ Hx)].
    intros rc Hrc. rewrite Ht in Hrc. exact (H4 _ _ Hk rc Hrc).
Qed.

(** [stateFor] finds the session of the attempt. *)
Lemma stateFor_Ok s a st :
  stateFor s a = Ok st ->
  sessions s !! attempt_key a = Some st /\ attempt st = Some a /\ at_WorkerID a = a_WorkerID (authority s).
Proof.
  unfold stateFor, attempt_key. intros H. guards H. injection H as <-. queue_bools. done.
Qed.

(** A session with an attempt is past its claim. *)
Lemma lifecycle_attempt st a :
  lifecycle st -> attempt st = Some a ->
  r_DispatchState (record st) <> DispatchPending /\ at_ScopeID a = e_ScopeID (env st) /\ at_SessionID a = sid st /\
  r_CurrentAttemptID (record st) = at_AttemptID a /\ attempt_fields st a.
Proof.
  unfold lifecycle. case_decide as Hd; [intros (Hn & _) Ha; congruence|].
  intros (a' & Ha' & H) Ha. rewrite Ha in Ha'. injection Ha' as <-. tauto.
Qed.

Lemma lifecycle_intro st a :
  attempt st = Some a -> at_ScopeID a = e_ScopeID (env st) -> at_SessionID a = sid st ->
  r_CurrentAttemptID (record st) = at_AttemptID a -> attempt_fields st a -> lifecycle st.
Proof.
  intros ???? Hf. unfold lifecycle. case_decide as Hd; [|by exists a].
  unfold attempt_fields in Hf. by rewrite Hd in Hf.
Qed.

(** ** The transactions *)

Lemma admission_evidence_sid e b sel :
  admission_evidence X e b sel = true -> validLocalID (sr_SessionID (e_Session e)) = true.
Proof.
  unfold admission_evidence. destruct (DecodeDispatchIntent X (e_Intent e) sel) as [i|]; [|discriminate].
  intros H. queue_bools. done.
Qed.

Lemma validateAdmission_Ok e b req e' dg :
  validateAdmission X e b req = Ok (e', dg) ->
  e_ScopeID e = b_ScopeID b /\ validLocalID (sr_SessionID (e_Session e)) = true /\
  e' = set_dispatch {| d_Key := DispatchKey (sr_SessionID (e_Session e)); d_State := Some DispatchPending; d_EnvelopeSHA256 := dg |} e /\
  dg = DigestAdmissionEnvelope X e'.
Proof.
  unfold validateAdmission. intros H. guards H; injection H as <- <-; queue_bools; split_and!; try done.
  all: by eapply admission_evidence_sid.
Qed.

Lemma apply_authority_inv s tx s' d a :
  store_inv s -> tx_Revision tx = revision s + 1 -> tx_Data tx = TxAuthority a ->
  applyTransaction X s tx = Ok s' -> store_inv (set_head (tx_Revision tx) d s').
Proof.
  intros Hs Hr Hd. unfold applyTransaction. rewrite Hd. intros H. guards H. injection H as <-. queue_bools.
  pose proof (inv_authority _ Hs) as Ha. rewrite (proj2 (Z.eqb_eq _ _)) in Ha by done.
  destruct Ha as (_ & E1 & E2 & E3). pose proof (inv_revision _ Hs).
  assert (0 < tx_Revision tx) by lia.
  apply store_inv_head; [done|..]; cbn; rewrite ?E1, ?E2, ?E3; try apply map_Forall_empty.
  unfold authority_ok, validateConfiguredBinding; cbn. subst.
  repeat match goal with H : _ = b_ScopeID _ |- _ => rewrite <- H | H : _ = b_HostID _ |- _ => rewrite <- H
                       | H : _ = b_WorkerID _ |- _ => rewrite <- H end.
  split_and?; try done. by rewrite !andb_true_iff.
Qed.

Lemma apply_admit_inv s tx s' d r :
  store_inv s -> tx_Revision tx = revision s + 1 -> tx_Data tx = TxAdmit r ->
  applyTransaction X s tx = Ok s' -> store_inv (set_head (tx_Revision tx) d s').
Proof.
  intros Hs Hr Hd. unfold applyTransaction. rewrite Hd. intros H. guards H. injection H as <-.
  match goal with H : validateAdmission _ _ _ _ = _ |- _ => apply validateAdmission_Ok in H as (Hsc & Hsid & He & _) end.
  queue_bools.
  assert (Ha : authority_ok s).
  { pose proof (inv_authority _ Hs) as Ha. destruct (revision s =? 0); [|exact Ha].
    destruct Ha as [Ha _]. rewrite Ha in Heqb. by vm_compute in Heqb. }
  assert (Hks : e_ScopeID a0 = e_ScopeID (r_Envelope r) /\ e_Session a0 = e_Session (r_Envelope r) /\
                e_Source a0 = e_Source (r_Envelope r)) by (rewrite He; done).
  destruct Hks as (K1 & K2 & K3). rewrite K1, K2, K3 in *. clear He K1 K2 K3.
  rewrite Hsc in *. pose proof (inv_revision _ Hs). destruct Hs as [_ _ J1 J2 J3 J4].
  set (key := sessionKey _ _) in *. set (src := sourceKey _) in *.
  assert (Hfresh : sessions s !! key = None) by (by apply eq_None_not_Some).
  assert (Hsrc : sources s !! src = None) by (by apply eq_None_not_Some).
  apply store_inv_head; [lia | exact Ha | ..]; cbn.
  - apply map_Forall_insert_2.
    + unfold session_ok, lifecycle, env, sid; cbn. rewrite lookup_insert_eq.
      rewrite decide_True by done. done.
    + intros k x Hx. destruct (J1 _ _ Hx) as (?&?&?&?&?). split_and!; try done. cbn.
      rewrite lookup_insert_ne; [done|]. intros Hk. congruence.
  - apply map_Forall_insert_2.
    + unfold source_ok; cbn. rewrite lookup_insert_eq. eexists. split; [reflexivity|]. done.
    + intros k x Hx. destruct (J2 _ _ Hx) as (st & ? & ?). exists st. cbn.
      rewrite lookup_insert_ne; [done|]. intros Hk. congruence.
  - intros k p Hp. destruct (J3 _ _ Hp) as (st & rc & Hx & ?). exists st, rc. cbn.
    rewrite lookup_insert_ne; [done|]. intros Hk. congruence.
  - apply map_Forall_insert_2; [intros rc; discriminate|]. exact J4.
Qed.

Lemma apply_claim_inv s tx s' d a :
  store_inv s -> tx_Revision tx = revision s + 1 -> tx_Data tx = TxClaim a ->
  applyTransaction X s tx = Ok s' -> store_inv (set_head (tx_Revision tx) d s').
Proof.
  intros Hs Hr Hd. unfold applyTransaction. rewrite Hd. intros H. guards H. injection H as <-. queue_bools.
  match goal with H : sessions s !! _ = Some ?x |- _ => rename H into Hk; rename x into st end.
  destruct (inv_sessions _ Hs _ _ Hk) as (Hkey & Hsid & Hsc & _ & Hl).
  unfold lifecycle in Hl. rewrite decide_True in Hl by done. destruct Hl as (_ & L1 & L2 & L3 & _).
  pose proof (inv_revision _ Hs).
  assert (Hids : at_ScopeID a = e_ScopeID (env st) /\ at_SessionID a = sid st).
  { destruct (inv_nonempty _ _ _ Hs Hk) as (_ & _ & _ & Hv). revert Hkey. unfold attempt_key.
    rewrite Hsc. unfold validateConfiguredBinding in Hv. queue_bools. by apply sessionKey_split. }
  eapply update_session; [done | lia | exact Hk | done | done |].
  eapply (lifecycle_intro _ a); try done; try apply Hids. unfold attempt_fields; cbn. rewrite L2. done.
Qed.

(** The session an attempt owns, with what its state says of it. *)
Lemma owned_session s a st :
  store_inv s -> stateFor s a = Ok st ->
  sessions s !! attempt_key a = Some st /\ attempt st = Some a /\ at_ScopeID a = e_ScopeID (env st) /\
  at_SessionID a = sid st /\ r_CurrentAttemptID (record st) = at_AttemptID a /\ attempt_fields st a.
Proof.
  intros Hs H. apply stateFor_Ok in H as (Hk & Ha & _).
  destruct (inv_sessions _ Hs _ _ Hk) as (_ & _ & _ & _ & Hl).
  destruct (lifecycle_attempt _ _ Hl Ha) as (_ & ? & ? & ? & ?). done.
Qed.

(** A transaction of the owner that leaves the terminal receipt alone. *)
Lemma update_owned s a st st' n d :
  store_inv s -> 0 < n -> stateFor s a = Ok st ->
  env st' = env st -> attempt st' = attempt st -> terminal st' = terminal st ->
  r_CurrentAttemptID (record st') = r_CurrentAttemptID (record st) -> attempt_fields st' a ->
  store_inv (set_head n d (with_session (attempt_key a) st' s)).
Proof.
  intros Hs Hn Hst He Ha Ht Hc Hf. destruct (owned_session _ _ _ Hs Hst) as (Hk & A1 & A2 & A3 & A4 & _).
  eapply update_session; try done. apply (lifecycle_intro _ a); try congruence.
  unfold sid in *. by rewrite He.
Qed.

Lemma apply_launch_intent_inv s tx s' d a :
  store_inv s -> tx_Revision tx = revision s + 1 -> tx_Data tx = TxLaunchIntent a ->
  applyTransaction X s tx = Ok s' -> store_inv (set_head (tx_Revision tx) d s').
Proof.
  intros Hs Hr Hd. unfold applyTransaction. rewrite Hd. intros H. guards H. injection H as <-. queue_bools.
  pose proof (inv_revision _ Hs). destruct (owned_session _ _ _ Hs Heqo) as (_ & _ & _ & _ & _ & Hf).
  eapply update_owned; try done; [lia|]. unfold attempt_fields in *; cbn.
  match goal with H : r_DispatchState _ = _ |- _ => rewrite H in Hf end. tauto.
Qed.

Lemma apply_observe_launch_inv s tx s' d a p :
  store_inv s -> tx_Revision tx = revision s + 1 -> tx_Data tx = TxObserveLaunch a p ->
  applyTransaction X s tx = Ok s' -> store_inv (set_head (tx_Revision tx) d s').
Proof.
  intros Hs Hr Hd. unfold applyTransaction. rewrite Hd. intros H. guards H. injection H as <-. queue_bools.
  pose proof (inv_revision _ Hs). destruct (owned_session _ _ _ Hs Heqo) as (_ & _ & _ & _ & _ & Hf).
  eapply update_owned; try done; [lia|]. unfold attempt_fields in *; cbn.
  match goal with H : r_DispatchState _ = _ |- _ => rewrite H in Hf end.
  destruct Hf as (_ & ? & ?). split_and!; try done. by exists p.
Qed.

Lemma observation_allowed_iff st o :
  observation_allowed st o = true <-> (o_Kind o = ObservationPrestartDeny <-> r_DispatchState (record st) = DispatchClaimed).
Proof.
  unfold observation_allowed.
  destruct (bool_decide_reflect (o_Kind o = ObservationPrestartDeny)), (bool_decide_reflect (r_DispatchState (record st) = DispatchClaimed));
    cbn; intuition congruence.
Qed.

(** Past the launch intent no denial is added. *)
Lemma no_denial_added st o :
  observation_allowed st o = true -> r_DispatchState (record st) <> DispatchClaimed -> hasPrestartDenial st = false ->
  existsb (fun o => bool_decide (o_Kind o = ObservationPrestartDeny)) (observations st ++ [o]) = false.
Proof.
  intros Ho Hd Hf. rewrite existsb_app. unfold hasPrestartDenial in Hf. rewrite Hf. cbn. rewrite orb_false_r.
  apply bool_decide_eq_false. rewrite observation_allowed_iff in Ho. tauto.
Qed.

Lemma apply_observation_inv s tx s' d a o :
  store_inv s -> tx_Revision tx = revision s + 1 -> tx_Data tx = TxObservation a o ->
  applyTransaction X s tx = Ok s' -> store_inv (set_head (tx_Revision tx) d s').
Proof.
  intros Hs Hr Hd. unfold applyTransaction. rewrite Hd. intros H. guards H. injection H as <-. queue_bools.
  pose proof (inv_revision _ Hs). destruct (owned_session _ _ _ Hs Heqo0) as (_ & _ & _ & _ & _ & Hf).
  eapply update_owned; try done; [lia|]. unfold attempt_fields in *; cbn.
  match goal with H : observation_allowed _ _ = true |- _ => rename H into Ho end.
  destruct (r_DispatchState (record a0)) eqn:Hst; try done.
  - destruct Hf as (? & ? & Hf). split_and!; try done. apply Forall_app. split; [done|]. apply Forall_singleton.
    apply observation_allowed_iff in Ho. tauto.
  - destruct Hf as (? & ? & Hf). split_and!; try done. apply no_denial_added; congruence.
  - destruct Hf as (? & ? & Hf). split_and!; try done. apply no_denial_added; congruence.
  - destruct Hf as (rc & corr & Hrc & _). congruence.
Qed.

Lemma attempt_key_owned s a st :
  store_inv s -> stateFor s a = Ok st -> attempt_key a = sessionKey (b_ScopeID (binding s)) (at_SessionID a).
Proof.
  intros Hs H. destruct (owned_session _ _ _ Hs H) as (Hk & _ & Hsc & _).
  destruct (inv_sessions _ Hs _ _ Hk) as (_ & _ & Hsc' & _). unfold attempt_key. congruence.
Qed.

Lemma terminal_body_digest a src body status dg corr :
  validateTerminalBody X a src body = Ok (status, dg, corr) -> dg = sha256_hex X body.
Proof. unfold validateTerminalBody. intros H. guards H; by injection H. Qed.

(** Receipts of different sessions have different outbox keys. *)
Lemma receipt_key_inj s k1 st1 rc1 rc2 :
  store_inv s -> sessions s !! k1 = Some st1 -> terminal st1 = Some rc1 ->
  String.length (rc_BodySHA256 rc2) = 64%nat -> receipt_key rc1 = receipt_key rc2 ->
  k1 = sessionKey (b_ScopeID (binding s)) (at_SessionID (rc_Attempt rc2)).
Proof.
  intros Hs Hk Ht Hl Heq. destruct (inv_sessions _ Hs _ _ Hk) as (Hkey & _ & _ & _ & Hlife).
  unfold lifecycle in Hlife. case_decide; [destruct Hlife as (_ & _ & _ & ? & _); congruence|].
  destruct Hlife as (a & _ & _ & Hsid & _ & Hf). unfold attempt_fields in Hf.
  destruct (r_DispatchState (record st1)); try (decompose [and ex] Hf; congruence).
  destruct Hf as (rc & corr & Hrc & <- & Hb & _). rewrite Ht in Hrc. injection Hrc as <-.
  apply terminal_body_digest in Hb.
  apply publicationKey_inj in Heq as (Heq & _); [congruence|].
  rewrite Hl, Hb. apply validSHA256_length, sha256_hex_hex.
Qed.

Lemma add_terminal s a st st' rc p n d :
  store_inv s -> 0 < n -> stateFor s a = Ok st -> terminal st = None -> env st' = env st -> terminal st' = Some rc ->
  rc_Attempt rc = a -> String.length (rc_BodySHA256 rc) = 64%nat -> lifecycle st' -> publication_of rc p ->
  store_inv (set_head n d (with_publication (p_Key p) p (with_session (attempt_key a) st' s))).
Proof.
  intros Hs Hn Hst Hno He Ht Hrc Hlen Hl Hp.
  pose proof (attempt_key_owned _ _ _ Hs Hst) as Hkey. apply stateFor_Ok in Hst as (Hk & _ & _).
  pose proof Hp as (Hpk & Hps & _).
  apply store_inv_head; cbn; [done | exact (inv_nonempty _ _ _ Hs Hk) | ..].
  - apply map_Forall_insert_2; [|exact (inv_sessions _ Hs)].
    destruct (inv_sessions _ Hs _ _ Hk) as (?&?&?&?&_). unfold session_ok, sid in *. rewrite He. done.
  - intros src k Hx. destruct (inv_sources _ Hs _ _ Hx) as (x & Hx1 & Hx2). unfold source_ok. cbn.
    destruct (decide (attempt_key a = k)) as [<-|].
    + exists st'. rewrite lookup_insert_eq. split; [done|]. rewrite He. congruence.
    + exists x. by rewrite lookup_insert_ne.
  - apply map_Forall_insert_2.
    + exists st', rc. cbn. rewrite Hps, Hrc, <- Hkey, lookup_insert_eq. done.
    + intros k q Hq. destruct (inv_publications _ Hs _ _ Hq) as (x & rc' & Hx & Hrc' & ?). exists x, rc'. cbn.
      rewrite lookup_insert_ne; [done|]. intros Heq. rewrite <- Heq in Hx. congruence.
  - apply map_Forall_insert_2.
    + intros rc' Hrc'. rewrite Ht in Hrc'. injection Hrc' as <-. exists p. cbn. rewrite <- Hpk, lookup_insert_eq. done.
    + intros k x Hx rc' Hrc'. cbn. destruct (inv_outbox _ Hs _ _ Hx rc' Hrc') as (q & Hq & Hq').
      exists q. rewrite lookup_insert_ne; [done|]. intros Heq. rewrite Hpk in Heq. symmetry in Heq.
      pose proof (receipt_key_inj _ _ _ _ _ Hs Hx Hrc' Hlen Heq) as Hkk.
      rewrite Hrc, <- Hkey in Hkk. congruence.
Qed.

Lemma apply_terminal_inv s tx s' d rc ev p :
  store_inv s -> tx_Revision tx = revision s + 1 -> tx_Data tx = TxTerminal rc ev p ->
  applyTransaction X s tx = Ok s' -> store_inv (set_head (tx_Revision tx) d s').
Proof.
  intros Hs Hr Hd. unfold applyTransaction. rewrite Hd. intros H.
  destruct (stateFor s (rc_Attempt rc)) as [st| |] eqn:Hst; try discriminate H.
  guards H; injection H as <-; queue_bools; subst;
  match goal with H : validateTerminalBody _ _ _ _ = _ |- _ => rename H into Hb end.
  all: pose proof (inv_revision _ Hs); pose proof (terminal_body_digest _ _ _ _ _ _ Hb) as Hdg.
  all: destruct (owned_session _ _ _ Hs Hst) as (_ & A1 & A2 & A3 & A4 & Hf).
  all: eapply add_terminal; try done; [lia | by rewrite Hdg; apply validSHA256_length, sha256_hex_hex |].
  all: apply (lifecycle_intro _ (rc_Attempt rc)); try done.
  all: unfold attempt_fields in *; cbn; exists rc; eexists; split_and!; try done.
  all: unfold terminal_allowed in *; destruct (r_DispatchState (record st)); try done.
  all: try (rewrite bool_decide_eq_true_2 in * by done; rewrite andb_true_l in *; queue_bools).
  all: unfold hasPrestartDenial in *; intuition congruence.
Qed.

Lemma apply_publication_inv s tx s' d key ev :
  store_inv s -> tx_Revision tx = revision s + 1 -> tx_Data tx = TxPublication key ev ->
  applyTransaction X s tx = Ok s' -> store_inv (set_head (tx_Revision tx) d s').
Proof.
  intros Hs Hr Hd. unfold applyTransaction. rewrite Hd. intros H.
  destruct (negb (validPublicationEvidence X ev)); [discriminate|].
  destruct (publications s !! key) as [item|] eqn:Hp; [|discriminate].
  destruct (sessions s !! sessionKey _ _) as [st|] eqn:Hk; [|discriminate]. guards H. injection H as <-.
  pose proof (inv_revision _ Hs).
  apply store_inv_head; [lia | exact (inv_nonempty _ _ _ Hs Hk) | exact (inv_sessions _ Hs) | exact (inv_sources _ Hs) | ..]; cbn.
  - apply map_Forall_insert_2; [|exact (inv_publications _ Hs)].
    destruct (inv_publications _ Hs _ _ Hp) as (x & rc & ? & ? & ? & ?). exists x, rc. done.
  - intros k x Hx rc Hrc. destruct (inv_outbox _ Hs _ _ Hx rc Hrc) as (q & Hq & Hq'). cbn.
    destruct (decide (key = receipt_key rc)) as [->|]; [|exists q; by rewrite lookup_insert_ne].
    rewrite lookup_insert_eq. eexists. split; [reflexivity|]. rewrite Hp in Hq. injection Hq as ->. exact Hq'.
Qed.

(** Every transaction keeps the invariant. *)
Lemma apply_inv s tx s' d :
  store_inv s -> tx_Revision tx = revision s + 1 -> applyTransaction X s tx = Ok s' -> store_inv (set_head (tx_Revision tx) d s').
Proof.
  intros Hs Hr H. destruct (tx_Data tx) eqn:Hd;
    [ eapply apply_authority_inv | eapply apply_admit_inv | eapply apply_claim_inv | eapply apply_launch_intent_inv
    | eapply apply_observe_launch_inv | eapply apply_observation_inv | eapply apply_terminal_inv
    | eapply apply_publication_inv ]; eassumption.
Qed.

(** ** Growth *)

Definition rank (d : DispatchState) : Z :=
  match d with
  | DispatchPending => 0
  | DispatchClaimed => 1
  | DispatchUnknown => 2
  | DispatchLaunched => 3
  | DispatchTerminal => 4
  end.

(** A session later on. *)
Record session_extends (st st' : sessionState) : Prop := {
  ext_envelope : env st' = env st;
  ext_revision : r_Revision (record st') = r_Revision (record st);
  ext_state : rank (r_DispatchState (record st)) <= rank (r_DispatchState (record st'));
  ext_attempt a : attempt st = Some a -> attempt st' = Some a;
  ext_launch p : launch st = Some p -> launch st' = Some p;
  ext_observations : observations st `prefix_of` observations st';
  ext_terminal rc : terminal st = Some rc -> terminal st' = Some rc
}.

(** A publication later on: a delivered one is final. *)
Definition publication_extends (p p' : PublicationOutbox) : Prop :=
  p_Key p' = p_Key p /\ p_SessionID p' = p_SessionID p /\ p_ResultSHA256 p' = p_ResultSHA256 p /\
  p_Operation p' = p_Operation p /\ (p_State p = PubDelivered -> p' = p).

Record extends (s s' : Store) : Prop := {
  ext_sessions k st : sessions s !! k = Some st -> exists st', sessions s' !! k = Some st' /\ session_extends st st';
  ext_sources k v : sources s !! k = Some v -> sources s' !! k = Some v;
  ext_publications k p : publications s !! k = Some p -> exists p', publications s' !! k = Some p' /\ publication_extends p p';
  ext_authority : a_ScopeID (authority s) <> "" -> authority s' = authority s
}.

Lemma session_extends_refl st : session_extends st st.
Proof. split; auto; try done. Qed.

Lemma session_extends_trans a b c : session_extends a b -> session_extends b c -> session_extends a c.
Proof.
  intros [] []. split; try congruence; try (by auto); try lia. by etrans.
Qed.

Lemma publication_extends_refl p : publication_extends p p.
Proof. by split_and!. Qed.

Lemma publication_extends_trans a b c : publication_extends a b -> publication_extends b c -> publication_extends a c.
Proof.
  intros (?&?&?&?&H) (?&?&?&?&H'). split_and!; try congruence. intros Hd. rewrite (H Hd) in *. auto.
Qed.

#[global] Instance extends_preorder : PreOrder extends.
Proof.
  split.
  - intros s. split; auto; intros k x Hx; exists x; auto using session_extends_refl, publication_extends_refl.
  - intros s t u [S1 S2 S3 S4] [T1 T2 T3 T4]. split; auto.
    + intros k x Hx. destruct (S1 _ _ Hx) as (y & Hy & ?). destruct (T1 _ _ Hy) as (z & Hz & ?).
      exists z. eauto using session_extends_trans.
    + intros k x Hx. destruct (S3 _ _ Hx) as (y & Hy & ?). destruct (T3 _ _ Hy) as (z & Hz & ?).
      exists z. eauto using publication_extends_trans.
    + intros Hn. rewrite <- (S4 Hn). apply T4. by rewrite (S4 Hn).
Qed.

Lemma extends_session s key st st' :
  sessions s !! key = Some st -> session_extends st st' -> extends s (with_session key st' s).
Proof.
  intros Hk Hx. split; auto; intros k x; cbn.
  - intros Hkx. destruct (decide (key = k)) as [<-|].
    + exists st'. rewrite lookup_insert_eq. split; [done|]. congruence.
    + exists x. rewrite lookup_insert_ne by done. auto using session_extends_refl.
  - intros Hp. exists x. auto using publication_extends_refl.
Qed.

Lemma extends_publication s key p :
  (forall q, publications s !! key = Some q -> publication_extends q p) -> extends s (with_publication key p s).
Proof.
  intros H. split; auto; intros k x; cbn.
  - intros Hx. exists x. auto using session_extends_refl.
  - intros Hx. destruct (decide (key = k)) as [<-|].
    + exists p. rewrite lookup_insert_eq. auto.
    + exists x. rewrite lookup_insert_ne by done. auto using publication_extends_refl.
Qed.

Lemma extends_head n d s : extends s (set_head n d s).
Proof. destruct s. split; auto; intros k x Hx; exists x; auto using session_extends_refl, publication_extends_refl. Qed.

Lemma extends_flags c p s : extends s (set_flags c p s).
Proof. destruct s. split; auto; intros k x Hx; exists x; auto using session_extends_refl, publication_extends_refl. Qed.

Lemma extends_selectors sel s : extends s (set_selectors sel s).
Proof. destruct s. split; auto; intros k x Hx; exists x; auto using session_extends_refl, publication_extends_refl. Qed.

End Invariant.
