(* ===== verification/QueueRecovery.v ===== *)
(** * QueueRecovery: crash consistency of the session queue

    Whatever the environment does to the commits, the files on disk replay: to the
    live store while it is not poisoned, and to the store just before or just after
    the last commit when it is. *)

From Stdlib Require Import Ascii String.
From stdpp Require Import gmap pretty.
From S2P Require Import Prelude GoStrings QueueModel QueueStore QueueInvariant.

Section Recovery.
Context (X : Externals) `{!ExternalLaws X}.

Local Notation apply_tx := (applyTransaction X).

(** ** Transactions only extend the store *)

Lemma extends_claim st a :
  attempt st = None -> r_DispatchState (record st) = DispatchPending ->
  session_extends st {| record := set_state (record st) DispatchClaimed (at_AttemptID a); attempt := Some a;
                        launch := launch st; observations := observations st; terminal := terminal st |}.
Proof. intros Ha Hd. split; cbn; try done; [rewrite Hd; cbn; lia | congruence]. Qed.

(** The owner's updates: a later state, a launch or an observation more. *)
Lemma extends_owned st d c l o t :
  rank (r_DispatchState (record st)) <= rank d -> (forall p, launch st = Some p -> l = Some p) ->
  observations st `prefix_of` o -> (forall rc, terminal st = Some rc -> t = Some rc) ->
  session_extends st {| record := set_state (record st) d c; attempt := attempt st; launch := l; observations := o; terminal := t |}.
Proof. intros. split; cbn; auto. Qed.

(** A new receipt's outbox entry is new. *)
Lemma publication_fresh s a st rc :
  store_inv X s -> stateFor s a = Ok st -> terminal st = None -> rc_Attempt rc = a ->
  String.length (rc_BodySHA256 rc) = 64%nat -> publications s !! receipt_key rc = None.
Proof.
  intros Hs Hst Hn Ha Hl. destruct (publications s !! receipt_key rc) as [q|] eqn:Hq; [|done].
  destruct (inv_publications _ _ Hs _ _ Hq) as (x & rc' & Hx & Ht & Heq & _).
  symmetry in Heq. pose proof (receipt_key_inj X _ _ _ _ _ Hs Hx Ht Hl Heq) as Hk. rewrite Hk in Hx.
  rewrite Ha in Hx. rewrite <- (attempt_key_owned _ _ _ _ Hs Hst) in Hx.
  apply stateFor_Ok in Hst as (Hst & _). congruence.
Qed.

Lemma apply_extends s tx s' : store_inv X s -> apply_tx s tx = Ok s' -> extends s s'.
Proof.
  intros Hs. unfold applyTransaction. destruct (tx_Data tx) as [a|r|a|a|a p|a o|rc ev p|key ev]; intros H.
  - guards H. injection H as <-. queue_bools.
    split; cbn; auto; [intros k x Hx; exists x; auto using session_extends_refl
                      | intros k x Hx; exists x; auto using publication_extends_refl | congruence].
  - guards H. injection H as <-. queue_bools.
    split; cbn; auto; intros k x Hx; [|rewrite lookup_insert_ne; [done|]; intros <-; apply Heqb3; by eexists
                                      | exists x; auto using publication_extends_refl].
    exists x. rewrite lookup_insert_ne; [auto using session_extends_refl|]. intros <-. apply Heqb2. by eexists.
  - guards H. injection H as <-. queue_bools. eapply extends_session; [done | by apply extends_claim].
  - guards H. injection H as <-. queue_bools. apply stateFor_Ok in Heqo as (Hk & _).
    eapply extends_session; [done|]. apply extends_owned; try done. rewrite H. cbn. lia.
  - guards H. injection H as <-. queue_bools. apply stateFor_Ok in Heqo as (Hk & _).
    eapply extends_session; [done|]. apply extends_owned; try done; [rewrite H; cbn; lia | congruence].
  - guards H. injection H as <-. queue_bools. apply stateFor_Ok in Heqo0 as (Hk & _).
    eapply extends_session; [done|]. split; cbn; try done. by exists [o].
  - destruct (stateFor s (rc_Attempt rc)) as [st| |] eqn:Hst; try discriminate H.
    guards H; injection H as <-; queue_bools; subst.
    match goal with H : validateTerminalBody _ _ _ _ = _ |- _ => apply terminal_body_digest in H as Hdg end.
    pose proof (stateFor_Ok _ _ _ Hst) as (Hk & _).
    assert (Hfresh : publications s !! p_Key p = None).
    { replace (p_Key p) with (receipt_key rc) by done. eapply publication_fresh; try done.
      rewrite Hdg. apply validSHA256_length, sha256_hex_hex. }
    etrans; [eapply (extends_session s); [exact Hk|] | apply extends_publication].
    + apply extends_owned; try done; [|congruence]. destruct (r_DispatchState (record st)); cbn; lia.
    + cbn. intros q Hq. congruence.
  - destruct (negb (validPublicationEvidence X ev)); [discriminate|].
    destruct (publications s !! key) as [item|] eqn:Hp; [|discriminate].
    destruct (sessions s !! sessionKey _ _) as [st|] eqn:Hk; [|discriminate]. guards H. injection H as <-. queue_bools.
    apply extends_publication. intros q Hq. rewrite Hp in Hq. injection Hq as <-. split_and!; cbn; try done. congruence.
Qed.

(** ** What is durable of a store *)

(** The flags and the selector catalogue are not in the journal. *)
Definition core (s : Store) : Store := set_flags false false (set_selectors None s).

Definition on_ok {E A B} (f : A -> B) (m : outcome E A) : outcome E B :=
  match m with Ok a => Ok (f a) | Err e => Err e | Panic => Panic end.

Lemma evidence_ids e b b' sel :
  b_ScopeID b = b_ScopeID b' -> b_HostID b = b_HostID b' -> b_WorkerID b = b_WorkerID b' ->
  admission_evidence X e b sel = admission_evidence X e b' sel.
Proof. intros E1 E2 E3. unfold admission_evidence. by rewrite E1, E2, E3. Qed.

Lemma validateAdmission_ids e b b' :
  b_ScopeID b = b_ScopeID b' -> b_HostID b = b_HostID b' -> b_WorkerID b = b_WorkerID b' ->
  validateAdmission X e b false = validateAdmission X e b' false.
Proof. intros E1 E2 E3. unfold validateAdmission. by rewrite (evidence_ids e b b'), E1, E2, E3. Qed.

(** Replay reads and writes only the core. *)
Lemma apply_core s tx : apply_tx (core s) tx = on_ok core (apply_tx s tx).
Proof.
  unfold applyTransaction. destruct (tx_Data tx).
  2: rewrite (validateAdmission_ids _ (binding (core s)) (binding s)) by done.
  all: unfold stateFor; cbn [core set_flags set_selectors binding authority revision sessions sources publications b_ScopeID b_HostID b_WorkerID];
    repeat match goal with
    | |- context [if ?c then _ else _] => destruct c; try reflexivity
    | |- context [match ?m with _ => _ end] => destruct m; try reflexivity
    end.
Qed.

Lemma apply_frame s tx s' :
  apply_tx s tx = Ok s' -> binding s' = binding s /\ closed s' = closed s /\ poisoned s' = poisoned s /\ revision s' = revision s.
Proof.
  unfold applyTransaction. destruct (tx_Data tx); intros H; try destruct (stateFor s _) eqn:?; try discriminate H;
    guards H; injection H as <-; done.
Qed.

Lemma recover_one_core n tx s : recover_one X n tx (core s) = on_ok core (recover_one X n tx s).
Proof.
  unfold recover_one. rewrite apply_core. change (previousHash (core s)) with (previousHash s).
  destruct (negb _); [done|]. destruct (_ || _); [done|]. destruct (apply_tx s tx) as [s'|[]|]; done.
Qed.

Lemma recover_loop_core n l s : recover_loop X n l (core s) = on_ok core (recover_loop X n l s).
Proof.
  revert n s. induction l as [|tx l IH]; intros n s; [done|]. cbn [recover_loop]. rewrite recover_one_core.
  destruct (recover_one X n tx s); cbn [on_ok]; auto.
Qed.

Lemma recoverJournal_core l s : recoverJournal X l (core s) = on_ok core (recoverJournal X l s).
Proof.
  unfold recoverJournal. rewrite recover_loop_core. destruct (recover_loop X 1 l s) as [s'| |]; cbn [on_ok]; try done.
  change (revision (core s')) with (revision s'). change (authority (core s')) with (authority s').
  by destruct (_ && _).
Qed.

(** ** The replay loop *)

Lemma recover_one_Ok n tx s s' :
  store_inv X s -> n = revision s + 1 -> recover_one X n tx s = Ok s' ->
  store_inv X s' /\ extends s s' /\ revision s' = n /\ digest s' = tx_SHA256 tx /\ binding s' = binding s.
Proof.
  intros Hs Hn H. unfold recover_one in H. guards H. injection H as <-. queue_bools.
  pose proof (apply_frame _ _ _ Heqo) as (Hb & _).
  split_and!; try done.
  - match goal with H : tx_Revision tx = n |- _ => rewrite <- H end. eapply apply_inv; [done.. | lia | done].
  - etrans; [by eapply apply_extends | apply extends_head].
Qed.

Lemma recover_loop_Ok l : forall n s s',
  store_inv X s -> n = revision s + 1 -> recover_loop X n l s = Ok s' ->
  store_inv X s' /\ extends s s' /\ revision s' = revision s + blen l /\ binding s' = binding s.
Proof.
  induction l as [|tx l IH]; intros n s s' Hs Hn H; cbn [recover_loop] in H.
  - injection H as <-. rewrite blen_nil. split_and!; try done. lia.
  - destruct (recover_one X n tx s) as [s1| |] eqn:H1; try discriminate.
    destruct (recover_one_Ok _ _ _ _ Hs Hn H1) as (Hs1 & Hx & Hr & _ & Hb).
    destruct (IH (n + 1) s1 s') as (? & ? & ? & ?); [done | lia | done |].
    rewrite blen_cons. split_and!; try done; [by etrans | lia | congruence].
Qed.

Lemma recover_loop_app l tx : forall n s,
  recover_loop X n (l ++ [tx]) s =
  match recover_loop X n l s with Ok s' => recover_one X (n + blen l) tx s' | e => e end.
Proof.
  induction l as [|t l IH]; intros n s; cbn [recover_loop app].
  - rewrite blen_nil, Z.add_0_r. by destruct (recover_one X n tx s).
  - destruct (recover_one X n t s); try done. rewrite IH, blen_cons.
    by replace (n + 1 + blen l) with (n + (1 + blen l)) by lia.
Qed.

(** ** The world invariant *)

Definition fresh (s : Store) : Store := core (newStore (binding s)).

Lemma fresh_inv s : store_inv X (fresh s).
Proof. apply store_inv_flags, store_inv_selectors, store_inv_new. Qed.

Lemma authority_nonempty s : store_inv X s -> revision s <> 0 -> a_ScopeID (authority s) <> "".
Proof.
  intros Hs Hr Heq. pose proof (inv_authority _ _ Hs) as Ha. destruct (Z.eqb_spec (revision s) 0); [done|].
  destruct Ha as (Ha & _ & _ & Hv). unfold validateConfiguredBinding in Hv. rewrite <- Ha, Heq in Hv. by vm_compute in Hv.
Qed.

(** The files replay to [s]. *)
Definition replays (files : list journalTransaction) (s : Store) : Prop := recover_loop X 1 files (fresh s) = Ok s.

Lemma replays_inv files s : replays files s -> store_inv X s /\ revision s = blen files.
Proof.
  intros H. destruct (recover_loop_Ok _ _ _ _ (fresh_inv s) eq_refl H) as (? & _ & Hr & _). split; [done|]. by rewrite Hr.
Qed.

Lemma replays_recoverJournal files s : replays files s -> recoverJournal X files (fresh s) = Ok s.
Proof.
  intros H. pose proof (replays_inv _ _ H) as [Hs _]. unfold recoverJournal. rewrite H.
  destruct (Z.eqb_spec (revision s) 0) as [|Hr]; [done|]. pose proof (authority_nonempty _ Hs Hr) as Ha.
  destruct (str_eqb _ _) eqn:E; [|done]. by apply str_eqb_true in E.
Qed.

Definition advance (s : Store) (tx : journalTransaction) : Store := set_head (tx_Revision tx) (tx_SHA256 tx) s.

(** A transaction of the live store that applies is one more file that replays. *)
Lemma replays_snoc files s d s' :
  replays files (core s) -> validSHA256 (previousHash s) = true ->
  apply_tx s (new_transaction X s (revision s) d) = Ok s' ->
  replays (files ++ [new_transaction X s (revision s) d]) (core (advance s' (new_transaction X s (revision s) d))).
Proof.
  intros Hf Hp Ha. pose proof (replays_inv _ _ Hf) as [_ Hr]. change (revision (core s)) with (revision s) in Hr.
  set (tx := new_transaction X s (revision s) d) in *.
  assert (Hb : fresh (core (advance s' tx)) = fresh (core s)).
  { pose proof (apply_frame _ _ _ Ha) as (Hb & _). unfold fresh, core, advance; cbn. by rewrite Hb. }
  unfold replays in *. rewrite Hb, recover_loop_app, Hf. rewrite recover_one_core. unfold recover_one.
  replace (decodeCanonicalTransaction X tx) with true.
  2: { unfold decodeCanonicalTransaction, transactionDigest. cbn. by rewrite transaction_hash_hex, Hp, str_eqb_refl. }
  cbn [negb]. replace (1 + blen files) with (revision s + 1) by lia.
  replace (tx_Revision tx =? revision s + 1) with true by (symmetry; apply Z.eqb_refl).
  replace (tx_Previous tx) with (previousHash s) by done. rewrite str_eqb_refl. cbn [negb orb]. rewrite Ha. done.
Qed.

Definition after_commit (w : World) (d : txData) : Prop :=
  exists s', apply_tx (store w) (new_transaction X (store w) (revision (store w)) d) = Ok s'.

Record world_inv (w : World) : Prop := {
  wi_store : store_inv X (store w);
  wi_head : validSHA256 (previousHash (store w)) = true;
  wi_replay :
    if poisoned (store w)
    then exists files tx s', journal w = files ++ [tx] /\ replays files (core (store w)) /\
           replays (journal w) s' /\ extends (core (store w)) s' /\ binding s' = binding (core (store w))
    else replays (journal w) (core (store w))
}.

(** A commit whose transaction applies keeps the world consistent on every
    outcome. *)
Lemma commit_inv io expected d w :
  world_inv w -> after_commit w d -> world_inv (fst (commitLocked X io expected d w)).
Proof.
  intros Hw [s' Ha]. unfold commitLocked.
  destruct (closed (store w) || poisoned (store w)) eqn:Hfl; [done|]. apply orb_false_elim in Hfl as [_ Hp].
  destruct (bool_decide _); [done|]. destruct (Z.eqb_spec expected (revision (store w))) as [->|]; cbn [negb]; [|done].
  destruct Hw as [Hs Hh Hr]. rewrite Hp in Hr.
  pose proof (replays_snoc _ _ _ _ Hr Hh Ha) as Hr'. pose proof (inv_revision _ _ Hs).
  pose proof (apply_frame _ _ _ Ha) as (Hb & _ & Hp' & _).
  assert (Hx : extends (core (store w)) (core (advance s' (new_transaction X (store w) (revision (store w)) d)))).
  { refine (transitivity (y := core s') _ (extends_head _ _ (core s'))).
    eapply (apply_extends _ (new_transaction X (store w) (revision (store w)) d)).
    - by apply store_inv_flags, store_inv_selectors.
    - by rewrite apply_core, Ha. }
  assert (Hamb : world_inv {| journal := journal w ++ [new_transaction X (store w) (revision (store w)) d];
                              store := set_flags (closed (store w)) true (store w) |}).
  { split; [by apply store_inv_flags | done|]. cbn [poisoned set_flags store journal].
    do 3 eexists. split; [reflexivity|]. split_and!; [exact Hr | exact Hr' | exact Hx | cbn; by rewrite Hb]. }
  destruct io; cbn [fst]; try (split; try done; by rewrite Hp).
  - exact Hamb.
  - rewrite Ha. cbn [fst]. split; cbn [store journal].
    + eapply apply_inv; try done.
    + cbn [tx_Revision tx_SHA256 new_transaction]. unfold previousHash at 1. cbn [revision digest set_head].
      destruct (Z.eqb_spec (revision (store w) + 1) 0); [lia|]. apply transaction_hash_hex.
    + cbn [poisoned set_head]. rewrite Hp', Hp. exact Hr'.
Qed.

(** ** The guards of the operations imply the replay checks *)

Lemma evidence_replay e d b reg :
  admission_evidence X e b (Some reg) = true -> admission_evidence X (set_dispatch d e) b None = true.
Proof.
  unfold admission_evidence.
  destruct (DecodeDispatchIntent X (e_Intent e) (Some reg)) as [i|] eqn:Hi; [|discriminate].
  apply decode_without_catalogue in Hi.
  change (e_Intent (set_dispatch d e)) with (e_Intent e). rewrite Hi. exact id.
Qed.

(** A filled envelope is its own normal form. *)
Lemma validateAdmission_filled e b dg :
  let D := {| d_Key := DispatchKey (sr_SessionID (e_Session e)); d_State := Some DispatchPending; d_EnvelopeSHA256 := dg |} in
  validLocalID (e_ScopeID e) && str_eqb (e_ScopeID e) (b_ScopeID b) && validLocalID (b_HostID b) && validLocalID (b_WorkerID b) = true ->
  validateSource X (e_Source e) = true -> validateCredentialHandle (e_CredentialHandle e) = true ->
  admission_evidence X (set_dispatch D e) b None = true -> dg = DigestAdmissionEnvelope X (set_dispatch D e) ->
  validateAdmission X (set_dispatch D e) b false = Ok (set_dispatch D e, dg).
Proof.
  intros D C1 C2 C3 C4 Hdg. unfold validateAdmission.
  change (e_ScopeID (set_dispatch D e)) with (e_ScopeID e). change (e_Source (set_dispatch D e)) with (e_Source e).
  change (e_CredentialHandle (set_dispatch D e)) with (e_CredentialHandle e).
  change (e_Dispatch (set_dispatch D e)) with D. change (e_Session (set_dispatch D e)) with (e_Session e).
  rewrite C1, C2, C3, C4. cbn [negb andb].
  change (d_State D) with (Some DispatchPending). change (d_Key D) with (DispatchKey (sr_SessionID (e_Session e))).
  change (d_EnvelopeSHA256 D) with dg.
  rewrite str_eqb_refl, (bool_decide_eq_true_2 (Some DispatchPending = Some DispatchPending)) by done.
  rewrite orb_true_r. cbn [negb]. rewrite andb_false_r.
  change (DigestAdmissionEnvelope X (set_dispatch _ (set_dispatch D e))) with (DigestAdmissionEnvelope X (set_dispatch D e)).
  rewrite <- Hdg, str_eqb_refl. cbn [negb]. rewrite andb_false_r. reflexivity.
Qed.

(** What an admission was checked with, it replays with, without the catalogue. *)
Lemma validateAdmission_replay e b e' dg :
  validateAdmission X e b true = Ok (e', dg) -> validateAdmission X e' b false = Ok (e', dg).
Proof.
  intros H. pose proof (validateAdmission_Ok _ _ _ _ _ _ H) as (_ & _ & He' & Hdg). unfold validateAdmission in H.
  match type of H with (if negb ?c then _ else _) = _ => destruct c eqn:C1; [|discriminate H] end.
  match type of H with context [validateSource ?x ?y] => destruct (validateSource x y) eqn:C2; [|discriminate H] end.
  match type of H with context [validateCredentialHandle ?y] => destruct (validateCredentialHandle y) eqn:C3; [|discriminate H] end.
  destruct (b_Selectors b) as [reg|]; [|discriminate H].
  destruct (complete_selectors (Some reg)); [|discriminate H].
  destruct (admission_evidence X e b (Some reg)) eqn:C4; [|discriminate H]. clear H.
  subst e'. apply validateAdmission_filled; try done. by eapply evidence_replay.
Qed.

Lemma live_authority w : world_inv w -> 0 < revision (store w) -> authority_ok (store w).
Proof.
  intros Hw Hr. pose proof (inv_authority _ _ (wi_store _ Hw)) as Ha. destruct (Z.eqb_spec (revision (store w)) 0); [lia | done].
Qed.

Lemma admit_applies w e e' dg n :
  world_inv w -> 0 < revision (store w) -> n = revision (store w) + 1 ->
  validateAdmission X e (binding (store w)) true = Ok (e', dg) ->
  sources (store w) !! sourceKey (e_Source e') = None ->
  sessions (store w) !! sessionKey (e_ScopeID e') (sr_SessionID (e_Session e')) = None ->
  after_commit w (TxAdmit {| r_Revision := n; r_Envelope := e'; r_EnvelopeSHA256 := dg;
                             r_DispatchState := DispatchPending; r_CurrentAttemptID := "" |}).
Proof.
  intros Hw Hr -> Hv H1 H2. unfold after_commit, applyTransaction.
  cbn [new_transaction tx_Data tx_Revision r_Revision r_DispatchState r_CurrentAttemptID r_Envelope r_EnvelopeSHA256].
  pose proof (authority_nonempty _ (wi_store _ Hw)) as Ha.
  destruct (str_eqb (a_ScopeID (authority (store w))) "") eqn:E; [apply str_eqb_true in E; exfalso; apply Ha; [lia|done]|].
  rewrite Z.eqb_refl, str_eqb_refl, bool_decide_eq_true_2 by done. cbn [negb andb].
  rewrite (validateAdmission_replay _ _ _ _ Hv).
  pose proof (validateAdmission_Ok _ _ _ _ _ _ Hv) as (_ & _ & He' & _).
  replace (d_EnvelopeSHA256 (e_Dispatch e')) with dg by (rewrite He'; done). rewrite str_eqb_refl. cbn [negb andb].
  rewrite H1, H2, !bool_decide_eq_false_2 by apply is_Some_None. eauto.
Qed.

Lemma hex_digit_id n : 0 <= n < 16 -> id_char (hex_digit n) = true.
Proof.
  intros Hn. assert (H : forallb (fun k => id_char (hex_digit (Z.of_nat k))) (seq 0 16) = true) by reflexivity.
  rewrite forallb_forall in H. specialize (H (Z.to_nat n)). rewrite Z2Nat.id in H by lia.
  apply H, in_seq. lia.
Qed.

Lemma hex_string_id bs :
  bytes_ok bs -> all_chars id_char (hex_string bs) = true /\ String.length (hex_string bs) = (2 * length bs)%nat.
Proof.
  induction 1 as [|b bs Hb _ [IH1 IH2]]; [done|]. cbn [hex_string all_chars String.length length].
  unfold u8_ok in Hb. rewrite IH1, IH2, !hex_digit_id.
  - split; [done | lia].
  - rewrite Z.land_ones with (n := 4) by lia. apply Z.mod_pos_bound. lia.
  - rewrite Z.shiftr_div_pow2 by lia. split; [apply Z.div_pos; lia | apply Z.div_lt_upper_bound; lia].
Qed.

Lemma attempt_id_valid rnd : length rnd = 8%nat -> bytes_ok rnd -> validLocalID ("att_" +:+ hex_string rnd) = true.
Proof.
  intros Hl Hb. destruct (hex_string_id rnd Hb) as [H1 H2].
  change ("att_" +:+ hex_string rnd) with (String "a" (String "t" (String "t" (String "_" (hex_string rnd))))).
  unfold validLocalID. cbn [all_chars String.length]. rewrite H1, H2, Hl. reflexivity.
Qed.

Lemma claim_applies w st rnd ssid :
  world_inv w -> 0 < revision (store w) -> length rnd = 8%nat -> bytes_ok rnd ->
  sessions (store w) !! sessionKey (b_ScopeID (binding (store w))) ssid = Some st ->
  r_DispatchState (record st) = DispatchPending -> attempt st = None ->
  after_commit w (TxClaim {| at_ScopeID := b_ScopeID (binding (store w)); at_SessionID := ssid;
                             at_AttemptID := "att_" +:+ hex_string rnd; at_WorkerID := b_WorkerID (binding (store w)); at_Generation := 1 |}).
Proof.
  intros Hw Hr Hl Hb Hk Hd Ha. unfold after_commit, applyTransaction.
  cbn [new_transaction tx_Data at_AttemptID at_Generation at_WorkerID attempt_key at_ScopeID at_SessionID].
  destruct (live_authority _ Hw Hr) as (_ & _ & -> & _).
  rewrite (attempt_id_valid rnd), str_eqb_refl by done. cbn [negb andb Z.eqb Pos.eqb].
  unfold attempt_key. cbn [at_ScopeID at_SessionID]. rewrite Hk, Hd, Ha, !bool_decide_eq_true_2 by done. cbn [negb andb]. eauto.
Qed.

Lemma launch_intent_applies w a st :
  stateFor (store w) a = Ok st -> r_DispatchState (record st) = DispatchClaimed -> hasPrestartDenial st = false ->
  after_commit w (TxLaunchIntent a).
Proof.
  intros Hst Hd Hh. unfold after_commit, applyTransaction. cbn [new_transaction tx_Data].
  rewrite Hst, Hd, Hh, bool_decide_eq_true_2 by done. cbn [negb orb]. eauto.
Qed.

Lemma observe_launch_applies w a st p :
  world_inv w -> stateFor (store w) a = Ok st -> r_DispatchState (record st) = DispatchUnknown -> validProcess p = true ->
  after_commit w (TxObserveLaunch a p).
Proof.
  intros Hw Hst Hd Hv. unfold after_commit, applyTransaction. cbn [new_transaction tx_Data].
  destruct (owned_session _ _ _ _ (wi_store _ Hw) Hst) as (_ & _ & _ & _ & _ & Hf). unfold attempt_fields in Hf.
  rewrite Hd in Hf. destruct Hf as (Hl & _).
  rewrite Hv, Hst, Hd, Hl, !bool_decide_eq_true_2 by done. cbn [negb orb]. eauto.
Qed.

Lemma observation_applies w a st o :
  stateFor (store w) a = Ok st -> terminal st = None -> validObservation X o = true -> observation_allowed st o = true ->
  after_commit w (TxObservation a o).
Proof.
  intros Hst Ht Hv Ho. unfold after_commit, applyTransaction. cbn [new_transaction tx_Data].
  rewrite Hv, Hst, Ht, Ho, bool_decide_eq_true_2 by done. cbn [negb]. eauto.
Qed.

Lemma terminal_applies w a st body status dg corr rc ev p :
  stateFor (store w) a = Ok st -> terminal st = None -> terminal_allowed st = true ->
  validateTerminalBody X a (e_Source (r_Envelope (record st))) body = Ok (status, dg, corr) ->
  bool_decide (r_DispatchState (record st) = DispatchClaimed) && negb (str_eqb status "failed") = false ->
  terminal_data a (revision (store w) + 1) body status dg corr = (rc, ev, p) ->
  after_commit w (TxTerminal rc ev p).
Proof.
  intros Hst Ht Hal Hb Hd Hdata. injection Hdata as <- <- <-. unfold after_commit, applyTransaction.
  cbn [new_transaction tx_Data tx_Revision rc_Attempt rc_Revision rc_Body rc_Status rc_BodySHA256 te_Type te_ScopeID
       te_SessionID te_Status te_BodySHA256 p_Key p_SessionID p_ResultSHA256 p_State p_Operation p_URL p_HeadSHA p_ReadAt].
  rewrite Hst, Ht, Hal, Hb, Hd, Z.eqb_refl, !str_eqb_refl, !bool_decide_eq_true_2 by done. cbn [negb orb andb].
  unfold publicationOperation. destruct (str_eqb status "completed"); cbn; rewrite ?str_eqb_refl; cbn [negb andb]; eauto.
Qed.

Lemma publication_applies w key ev item st :
  publications (store w) !! key = Some item ->
  sessions (store w) !! sessionKey (b_ScopeID (binding (store w))) (p_SessionID item) = Some st ->
  p_State item = PubPending -> validPublicationEvidence X ev = true ->
  publicationMatchesSource X ev (e_Source (r_Envelope (record st))) (p_Operation item) = true ->
  str_eqb (p_Operation item) PublicationGitHubPR &&
    (negb (str_eqb (pe_URL ev) (p_URL item)) || negb (str_eqb (pe_HeadSHA ev) (p_HeadSHA item))) = false ->
  after_commit w (TxPublication key ev).
Proof.
  intros Hp Hk Hs Hv Hm Hpr. unfold after_commit, applyTransaction. cbn [new_transaction tx_Data].
  rewrite Hv, Hp, Hk, Hs, Hm, Hpr, bool_decide_eq_true_2 by done. cbn [negb andb]. eauto.
Qed.

(** ** Every call *)

(** A call changes nothing durable, or commits one transaction that applies. *)
Inductive call_effect (io : commit_io) (w : World) : World -> Prop :=
| effect_none : call_effect io w w
| effect_selectors sel : call_effect io w {| journal := journal w; store := set_selectors sel (store w) |}
| effect_close : call_effect io w (Close w)
| effect_commit n d : after_commit w d -> call_effect io w (fst (commitLocked X io n d w)).

Lemma fst_commit {A} (r : World * option QueueError) (a : A) :
  fst (match r with (w', Some err) => (w', Err err) | (w', None) => (w', Ok a) end) = fst r.
Proof. by destruct r as [? []]. Qed.

Lemma Admit_effect io n e w : world_inv w -> 0 < revision (store w) -> call_effect io w (fst (Admit X io n e w)).
Proof.
  intros Hw Hr. unfold Admit. destruct (_ || _); [constructor|]. destruct (Z.eqb_spec n (revision (store w))) as [->|]; [|constructor].
  cbn [negb]. destruct (validateAdmission X e _ true) as [[e' dg]| |] eqn:Hv; try constructor.
  destruct (bool_decide_reflect (is_Some (sources (store w) !! sourceKey (e_Source e')))) as [|H1]; [constructor|].
  destruct (bool_decide_reflect (is_Some (sessions (store w) !! sessionKey (e_ScopeID e') (sr_SessionID (e_Session e'))))) as [|H2]; [constructor|].
  rewrite fst_commit. apply eq_None_not_Some in H1, H2. constructor. by eapply admit_applies.
Qed.

Lemma Claim_effect io rnd n ref w :
  world_inv w -> 0 < revision (store w) -> op_ok (OpClaim io rnd n ref) -> call_effect io w (fst (Claim X io rnd n ref w)).
Proof.
  intros Hw Hr Hok. unfold Claim. destruct (_ || _); [constructor|]. destruct (negb (n =? _)); [constructor|].
  destruct (negb (_ && _)); [constructor|].
  destruct (sessions (store w) !! _) as [st|] eqn:Hk; [|constructor].
  match goal with |- context [if ?c then _ else _] => destruct c eqn:Hc; [constructor|] end. queue_bools.
  destruct rnd as [rnd|]; [|constructor]. destruct Hok as [Hl Hb]. rewrite fst_commit. constructor. by eapply claim_applies.
Qed.

Lemma CommitTerminal_effect io a body w : call_effect io w (fst (CommitTerminal X io a body w)).
Proof.
  unfold CommitTerminal. destruct (_ || _); [constructor|]. destruct (stateFor (store w) a) as [st| |] eqn:Hst; try constructor.
  destruct (terminal st) as [rc|] eqn:Ht; [constructor|].
  destruct (terminal_allowed st) eqn:Hal; [|constructor]. cbn [negb].
  destruct (validateTerminalBody X a _ body) as [[[status dg] corr]| |] eqn:Hb; try constructor.
  match goal with |- context [if ?c then _ else _] => destruct c eqn:Hc; [constructor|] end.
  destruct (terminal_data a _ body status dg corr) as [[rc ev] p] eqn:Hd.
  rewrite fst_commit. constructor. by eapply terminal_applies.
Qed.

Lemma CompletePublication_effect io key ev w : call_effect io w (fst (CompletePublication X io key ev w)).
Proof.
  unfold CompletePublication. destruct (publications (store w) !! key) as [item|] eqn:Hp; [|constructor].
  destruct (sessions (store w) !! _) as [st|] eqn:Hk; [|constructor].
  match goal with |- context [if ?c then _ else _] => destruct c eqn:Hc; [constructor|] end.
  match goal with |- context [if ?c then _ else _] => destruct c eqn:Hc'; [constructor|] end.
  queue_bools. constructor. by eapply publication_applies.
Qed.

Lemma run_op_effect o w : op_ok o -> world_inv w -> 0 < revision (store w) -> call_effect (op_io o) w (run_op X o w).
Proof.
  intros Hok Hw Hr. destruct o; cbn [run_op].
  - unfold UpdateSelectors. destruct ctx_done; [constructor|]. destruct (negb _); [constructor|].
    destruct (_ || _); constructor.
  - by apply Admit_effect.
  - by apply Claim_effect.
  - unfold BeginLaunch. destruct (stateFor (store w) a) as [st| |] eqn:Hst; try constructor.
    match goal with |- context [if ?c then _ else _] => destruct c eqn:Hc; [constructor|] end. queue_bools.
    constructor. by eapply launch_intent_applies.
  - unfold ObserveLaunch. destruct (stateFor (store w) a) as [st| |] eqn:Hst; try constructor.
    match goal with |- context [if ?c then _ else _] => destruct c eqn:Hc; [constructor|] end. queue_bools.
    constructor. by eapply observe_launch_applies.
  - unfold RecordObservation. destruct (stateFor (store w) a) as [st| |] eqn:Hst; try constructor.
    match goal with |- context [if ?c then _ else _] => destruct c eqn:Hc; [constructor|] end.
    destruct (observation_allowed st o) eqn:Ho; [|constructor]. queue_bools. constructor. by eapply observation_applies.
  - apply CommitTerminal_effect.
  - apply CompletePublication_effect.
  - constructor.
Qed.

Lemma commit_grows io n d w :
  store_inv X (store w) -> extends (store w) (store (fst (commitLocked X io n d w))) /\
  revision (store w) <= revision (store (fst (commitLocked X io n d w))).
Proof.
  intros Hs. assert (Hsame : forall w', store w' = store w -> extends (store w) (store w') /\ revision (store w) <= revision (store w'))
    by (intros w' ->; split; [reflexivity | lia]).
  assert (Hamb : forall j, extends (store w) (store {| journal := j; store := set_flags (closed (store w)) true (store w) |}) /\
                           revision (store w) <= revision (set_flags (closed (store w)) true (store w)))
    by (intros j; split; [apply extends_flags | cbn; lia]).
  unfold commitLocked. destruct (_ || _); [by apply Hsame|]. destruct (bool_decide _); [by apply Hsame|].
  destruct (Z.eqb_spec n (revision (store w))) as [->|]; cbn [negb]; [|by apply Hsame].
  destruct io; cbn [fst]; try (by apply Hsame); [apply Hamb|].
  destruct (apply_tx (store w) _) as [s'| |] eqn:Ha; cbn [fst]; [|apply Hamb..].
  cbn [store]. split; [etrans; [by eapply apply_extends | apply extends_head]|]. cbn. lia.
Qed.

Lemma effect_keeps io w w' :
  world_inv w -> call_effect io w w' ->
  world_inv w' /\ extends (store w) (store w') /\ revision (store w) <= revision (store w').
Proof.
  intros Hw He. pose proof Hw as [Hs Hh Hr]. destruct He as [|sel| |n d Ha].
  - split_and!; [done | reflexivity | lia].
  - split_and!; [|apply extends_selectors | cbn; lia].
    split; [by apply store_inv_selectors | done | exact Hr].
  - split_and!; [|apply extends_flags | cbn; lia]. split; [by apply store_inv_flags | done | exact Hr].
  - split; [by apply commit_inv | by apply commit_grows].
Qed.

Lemma run_keeps ops : forall w,
  Forall op_ok ops -> world_inv w -> 0 < revision (store w) ->
  world_inv (run X ops w) /\ extends (store w) (store (run X ops w)) /\ 0 < revision (store (run X ops w)).
Proof.
  induction ops as [|o ops IH]; intros w Hok Hw Hr; [cbn; split_and!; [done | reflexivity | done]|].
  inversion Hok as [|?? Ho Hops]; subst. cbn [run fold_left].
  destruct (effect_keeps _ _ _ Hw (run_op_effect o w Ho Hw Hr)) as (Hw' & Hx & Hr').
  destruct (IH (run_op X o w) Hops Hw') as (? & ? & ?); [lia|]. split_and!; try done. by etrans.
Qed.

(** A commit that applies poisons the store only when the sync is lost. *)
Lemma effect_poisoned io w w' :
  call_effect io w w' -> io <> IoAfterLink -> poisoned (store w') = poisoned (store w).
Proof.
  intros He Hio. destruct He as [| | |n d [s' Ha]]; try done. unfold commitLocked.
  destruct (_ || _); [done|]. destruct (bool_decide _); [done|].
  destruct (Z.eqb_spec n (revision (store w))) as [->|]; cbn [negb]; [|done].
  destruct io; try done. rewrite Ha. cbn. by apply apply_frame in Ha as (_ & _ & ? & _).
Qed.

(** The identities of the binding never change. *)
Lemma commit_binding io n d w : binding (store (fst (commitLocked X io n d w))) = binding (store w).
Proof.
  unfold commitLocked. destruct (_ || _); [done|]. destruct (bool_decide _); [done|]. destruct (negb _); [done|].
  destruct io; try done. destruct (apply_tx (store w) _) as [s'| |] eqn:Ha; try done.
  cbn. by apply apply_frame in Ha as (-> & _).
Qed.

Lemma run_binding ops : forall w,
  Forall op_ok ops -> world_inv w -> 0 < revision (store w) ->
  binding (core (store (run X ops w))) = binding (core (store w)).
Proof.
  induction ops as [|o ops IH]; intros w Hok Hw Hr; [done|].
  inversion Hok as [|?? Ho Hops]; subst. cbn [run fold_left].
  pose proof (run_op_effect o w Ho Hw Hr) as He. destruct (effect_keeps _ _ _ Hw He) as (Hw' & _ & Hr').
  change (fold_left _ ops (run_op X o w)) with (run X ops (run_op X o w)).
  rewrite (IH (run_op X o w) Hops Hw') by lia. destruct He; try done.
  unfold core. cbn. by rewrite commit_binding.
Qed.

(** ** Opening *)

Lemma recover_loop_head l : forall n s s',
  0 < n -> validSHA256 (previousHash s) = true -> recover_loop X n l s = Ok s' ->
  validSHA256 (previousHash s') = true /\ closed s' = closed s /\ poisoned s' = poisoned s.
Proof.
  induction l as [|tx l IH]; intros n s s' Hn Hs H; cbn [recover_loop] in H; [by injection H as <-|].
  destruct (recover_one X n tx s) as [s1| |] eqn:H1; try discriminate.
  unfold recover_one in H1. guards H1. injection H1 as <-. apply apply_frame in Heqo as (_ & Hc & Hp & _).
  unfold decodeCanonicalTransaction in *. queue_bools.
  destruct (IH (n + 1) (set_head n (tx_SHA256 tx) a) s') as (? & ? & ?); try done; [lia | |].
  - unfold previousHash. cbn. destruct (Z.eqb_spec n 0); [lia | done].
  - cbn in *. split_and!; congruence.
Qed.

Lemma commitLocked_None io n d w : snd (commitLocked X io n d w) = None -> after_commit w d /\ n = revision (store w) /\ io = IoOk.
Proof.
  unfold commitLocked. destruct (_ || _); [done|]. destruct (bool_decide _); [done|].
  destruct (Z.eqb_spec n (revision (store w))) as [->|]; cbn [negb]; [|done].
  destruct io; try done. destruct (apply_tx (store w) _) as [s'| |] eqn:Ha; try done. intros _. split; [|done]. by exists s'.
Qed.

Lemma recovered_world b files s :
  recoverJournal X files (newStore b) = Ok s ->
  world_inv {| journal := files; store := s |} /\ binding s = b /\ closed s = false /\ poisoned s = false.
Proof.
  unfold recoverJournal. destruct (recover_loop X 1 files (newStore b)) as [s'| |] eqn:Hl; try discriminate.
  intros H. assert (s' = s) as -> by (by destruct (_ && _); [|injection H]).
  destruct (recover_loop_Ok _ _ _ _ (store_inv_new _ b) eq_refl Hl) as (Hs & _ & _ & Hb).
  destruct (recover_loop_head _ _ _ _ Z.lt_0_1 (eq_refl : validSHA256 (previousHash (newStore b)) = true) Hl) as (Hh & Hc & Hp).
  cbn in Hb, Hc, Hp. split_and!; try done. split; cbn [store journal]; [done | done |]. rewrite Hp. unfold replays.
  replace (fresh (core s)) with (core (newStore b)) by (unfold fresh; cbn; by rewrite Hb).
  by rewrite recover_loop_core, Hl.
Qed.

Lemma Open_world resync io b now files w :
  Open X resync io b now files = Ok w ->
  world_inv w /\ 0 < revision (store w) /\ binding (store w) = b /\ closed (store w) = false /\ poisoned (store w) = false.
Proof.
  unfold Open. destruct (negb (validateConfiguredBinding b)); [done|]. destruct (negb resync); [done|].
  destruct (recoverJournal X files (newStore b)) as [s| |] eqn:Hrec; try done.
  destruct (recovered_world _ _ _ Hrec) as (Hw & Hb & Hc & Hp).
  destruct (Z.eqb_spec (revision s) 0) as [Hr|Hr].
  - destruct (commitLocked X io 0 _ _) as [w1 [e|]] eqn:Hcm; [done|].
    destruct (negb _); [done|]. intros [= <-].
    match type of Hcm with commitLocked X io 0 ?d ?w0 = _ =>
      pose proof (commitLocked_None io 0 d w0) as Ha; pose proof (commit_inv io 0 d w0) as Hinv; pose proof (commit_binding io 0 d w0) as Hbd end.
    rewrite Hcm in Ha, Hinv, Hbd. destruct (Ha eq_refl) as (Haf & _ & ->). specialize (Hinv Hw Haf). cbn [fst store] in *.
    split_and!; [done | | congruence | |].
    all: unfold commitLocked in Hcm; cbn [store] in Hcm; rewrite Hc, Hp, Hr in Hcm; cbn [orb negb Z.eqb] in Hcm.
    all: destruct (apply_tx s _) as [s'| |] eqn:Hap; try discriminate; injection Hcm as <-; cbn; try lia.
    all: apply apply_frame in Hap as (_ & ? & ? & _); congruence.
  - destruct (negb _); [done|]. intros [= <-]. cbn [store]. split_and!; try done.
    pose proof (inv_revision _ _ (wi_store _ Hw)). cbn in *. lia.
Qed.

(** The files of any world open again under the same identities. *)
Lemma reopen w s io b now :
  replays (journal w) s -> 0 < revision s -> validateConfiguredBinding b = true ->
  b_ScopeID b = b_ScopeID (binding s) -> b_HostID b = b_HostID (binding s) -> b_WorkerID b = b_WorkerID (binding s) ->
  exists w', Open X true io b now (journal w) = Ok w' /\ journal w' = journal w /\ core (store w') = core s.
Proof.
  intros Hrep Hr Hv E1 E2 E3. pose proof (replays_inv _ _ Hrep) as [Hs _].
  pose proof (replays_recoverJournal _ _ Hrep) as Hrec.
  replace (fresh s) with (core (newStore b)) in Hrec
    by (unfold fresh, core, set_flags, set_selectors, newStore; cbn; by rewrite <- E1, <- E2, <- E3).
  rewrite recoverJournal_core in Hrec.
  destruct (recoverJournal X (journal w) (newStore b)) as [s2| |] eqn:H2; try discriminate. injection Hrec as Hc.
  exists {| journal := journal w; store := s2 |}. unfold Open. rewrite Hv, H2. cbn [negb].
  assert (Hr2 : revision s2 = revision s) by (rewrite <- Hc; done). rewrite Hr2.
  destruct (Z.eqb_spec (revision s) 0); [lia|]. cbn [store].
  assert (Ha : authority s2 = authority s) by (rewrite <- Hc; done).
  pose proof (inv_authority _ _ Hs) as Hau. destruct (Z.eqb_spec (revision s) 0); [lia|]. destruct Hau as (A1 & A2 & A3 & _).
  rewrite Ha, A1, A2, A3, E1, E2, E3, !str_eqb_refl. cbn [andb negb]. split_and!; try done. by rewrite <- Hc.
Qed.

End Recovery.
