(* ===== verification/QueueProperties.v ===== *)
(** * QueueProperties: what the session queue guarantees

    Histories are any sequences of calls on a store that [Open] returned, with any
    failure of the environment at every commit.  The theorems: the files recover
    the store; replay accepts only well-formed histories; sessions only advance and
    keep their owner; no commit of a live store fails its own replay; a terminal
    result is recorded once; an issue is admitted once; and the head digest fixes
    the whole journal up to a hash collision. *)

From Stdlib Require Import Ascii String.
From stdpp Require Import gmap pretty.
From S2P Require Import Prelude GoStrings QueueModel QueueStore QueueInvariant QueueRecovery.

#[global] Instance Authority_eq_dec : EqDecision Authority.
Proof. solve_decision. Defined.
#[global] Instance GitHubSource_eq_dec : EqDecision GitHubSource.
Proof. solve_decision. Defined.
#[global] Instance LifecycleEvent_eq_dec : EqDecision LifecycleEvent.
Proof. solve_decision. Defined.
#[global] Instance DispatchOutbox_eq_dec : EqDecision DispatchOutbox.
Proof. solve_decision. Defined.
#[global] Instance AdmissionEnvelope_eq_dec : EqDecision AdmissionEnvelope.
Proof. solve_decision. Defined.
#[global] Instance AdmissionRecord_eq_dec : EqDecision AdmissionRecord.
Proof. solve_decision. Defined.
#[global] Instance OwnedProcessCorrelation_eq_dec : EqDecision OwnedProcessCorrelation.
Proof. solve_decision. Defined.
#[global] Instance BoundedTypedObservation_eq_dec : EqDecision BoundedTypedObservation.
Proof. solve_decision. Defined.
#[global] Instance DurableReceipt_eq_dec : EqDecision DurableReceipt.
Proof. solve_decision. Defined.
#[global] Instance PublicationOutbox_eq_dec : EqDecision PublicationOutbox.
Proof. solve_decision. Defined.
#[global] Instance PublicationEvidence_eq_dec : EqDecision PublicationEvidence.
Proof. solve_decision. Defined.
#[global] Instance terminalEvent_eq_dec : EqDecision terminalEvent.
Proof. solve_decision. Defined.
#[global] Instance txData_eq_dec : EqDecision txData.
Proof. solve_decision. Defined.

(** ** A concrete environment, for the witnesses *)

Definition lower (c : ascii) : ascii := if is_upper c then ascii_of_N (N_of_ascii c + 32) else c.
Fixpoint ToLower (s : string) : string := match s with EmptyString => "" | String c s' => String (lower c) (ToLower s') end.

Definition demo_url (s : string) : option URL :=
  if has_prefix "https://github.com" s then
    match split_on "#" (trim_prefix "https://github.com" s) with
    | path :: frag => Some {| u_Scheme := "https"; u_Host := "github.com"; u_User := false; u_Opaque := ""; u_Path := path;
                              u_RawPath := ""; u_RawQuery := ""; u_ForceQuery := false;
                              u_Fragment := match frag with f :: _ => f | [] => "" end |}
    | [] => None
    end
  else None.

(** A terminal body is [1] (failed) or [2] (blocked); raw members are one byte. *)
Definition demo_strings (b : bytes) : option string :=
  match b with [1] => Some "failed" | [2] => Some "blocked" | [3] => Some "worker" | _ => None end.

Definition demoX : Externals := {|
  url_Parse := demo_url;
  strings_ToLower := ToLower;
  strings_EqualFold a b := str_eqb (ToLower a) (ToLower b);
  validTimestamp s := negb (str_eqb s "");
  json_object b := Some [("workerId", [3]); ("status", b)];
  json_string := demo_strings;
  sha256_hex b := zeros64;
  envelope_hash e := zeros64;
  transaction_hash n prev d := zeros64;
  NormalizeOperationalPayload b := Some b;
  DigestOperationalPayload b := Some "payload";
  DecodeDispatchIntent b reg := Some {| in_RequestID := "s1"; in_SessionMode := "autonomous"; in_Fallbacks := 0 |};
  DecodeSessionRef r := true;
  DecodeAdmissionReceipt b := Some {| ar_ReceiptID := "rc1"; ar_RequestID := "s1"; ar_Decision := "admitted"; ar_Cell := Some [7];
                                      ar_OperationalPayloadDigest := "payload"; ar_Decisions := [] |};
  AssertAdmissionProvenance i r := true;
  DecodeResolvedExecutionCell b := Some {| cell_canonical := [7]; Placement_ID := "host"; Placement_Kind := "host"; Placement_Resolution := "exact" |};
  DecodeRuntimeBinding b := Some {| rb_ContractVersion := RuntimeBindingV2ContractVersion; rb_RequestID := "s1"; rb_WorkerID := "worker";
                                    rb_PlacementID := "host"; rb_ClaimID := "" |};
  DecodeHostAdaptationReceipt b := Some {| hr_Decision := "ready"; hr_RequestID := "s1"; hr_WorkerID := "worker"; hr_PlacementID := "host";
                                           hr_ClaimID := ""; hr_secret_free := true; plan_digest := Some "payload" |};
  validateProducerEvidence raw scope payload ids cell receipt := true
|}.

#[global] Instance demoX_laws : ExternalLaws demoX.
Proof. split; try done. Qed.

Definition demo_selectors : option ExecutionSelectorRegistry :=
  Some {| HarnessVersions := Some []; Models := Some []; Endpoints := Some []; AuthBindings := Some []; Placements := Some [];
          Capabilities := None |}.

Definition demo_binding : ConfiguredHostBinding :=
  {| b_ScopeID := "scope"; b_HostID := "host"; b_WorkerID := "worker"; b_Selectors := demo_selectors |}.

Definition demo_ref : SessionRef :=
  {| sr_SessionID := "s1"; sr_AdmissionReceiptID := "rc1"; sr_ClaimReceiptID := ""; sr_Mode := "autonomous"; sr_TakeControl := false; sr_rest := "" |}.

Definition demo_envelope : AdmissionEnvelope := {|
  e_ScopeID := "scope";
  e_Source := {| RepositoryID := 12; OwnerRepo := "o/r"; IssueNumber := 7; IssueURL := "https://github.com/o/r/issues/7" |};
  e_Session := demo_ref; e_Intent := []; e_Receipt := []; e_EffectiveCell := []; e_RuntimeBinding := []; e_OperationalPayload := [];
  e_HostPreflight := []; e_ProducerEvidence := [];
  e_InitialEvent := {| ev_Type := EventSessionAdmitted; ev_ScopeID := "scope"; ev_SessionID := "s1"; ev_ReceiptID := "rc1"; ev_RecordedAt := "t0" |};
  e_Dispatch := {| d_Key := ""; d_State := None; d_EnvelopeSHA256 := "" |}; e_CredentialHandle := "local-handle"
|}.

Definition demo_attempt : AttemptRef :=
  {| at_ScopeID := "scope"; at_SessionID := "s1"; at_AttemptID := "att_0102030405060708"; at_WorkerID := "worker"; at_Generation := 1 |}.

Definition demo_open : outcome (QueueError * list journalTransaction) World := Open demoX true IoOk demo_binding "t0" [].
Definition demo_w0 : World :=
  match demo_open with Ok w => w | _ => {| journal := []; store := newStore demo_binding |} end.

Definition demo_launch : list op :=
  [ OpAdmit IoBeforeLink 1 demo_envelope; OpAdmit IoOk 1 demo_envelope; OpClaim IoOk (Some [1;2;3;4;5;6;7;8]) 2 demo_ref;
    OpBeginLaunch IoOk 3 demo_attempt;
    OpObserveLaunch IoOk 4 demo_attempt {| ProcessID := 99; ProcessStart := "p99"; SessionDetailSHA256 := zeros64 |};
    OpRecordObservation IoOk demo_attempt {| o_Kind := ObservationLiveness; ObservedAt := "t1"; Evidence := "" |} ].

Definition demo_finish : list op :=
  [ OpCommitTerminal IoOk demo_attempt [1];
    OpCompletePublication IoOk (publicationKey "s1" zeros64 PublicationGitHubComment)
      {| pe_URL := "https://github.com/o/r/issues/7#issuecomment-5"; pe_HeadSHA := ""; pe_ReadAt := "t2" |} ].

Example demo_opens : demo_open = Ok demo_w0.
Proof. vm_compute. reflexivity. Qed.

Example demo_runs :
  let w := run demoX (demo_launch ++ demo_finish) demo_w0 in
  length (journal w) = 8%nat /\ map (fun p => (p_State p, p_URL p)) (values (publications (store w))) =
    [(PubDelivered, "https://github.com/o/r/issues/7#issuecomment-5")].
Proof. vm_compute. split; reflexivity. Qed.

Lemma demo_launch_ok : Forall op_ok demo_launch.
Proof. repeat constructor; try done. Qed.

(** ** The properties *)

Definition same_ids (b b' : ConfiguredHostBinding) : Prop :=
  b_ScopeID b = b_ScopeID b' /\ b_HostID b = b_HostID b' /\ b_WorkerID b = b_WorkerID b'.

Section Properties.
Context (X : Externals) `{!ExternalLaws X}.

Lemma Open_binding resync io b now files w : Open X resync io b now files = Ok w -> validateConfiguredBinding b = true.
Proof. unfold Open. by destruct (validateConfiguredBinding b). Qed.

Lemma same_ids_valid b b' : same_ids b b' -> validateConfiguredBinding b = true -> validateConfiguredBinding b' = true.
Proof. intros (E1 & E2 & E3). unfold validateConfiguredBinding. by rewrite E1, E2, E3. Qed.

(** A world that [Open] returned, after any history. *)
Lemma opened_run resync io b now files w0 ops :
  Open X resync io b now files = Ok w0 -> Forall op_ok ops ->
  world_inv X (run X ops w0) /\ extends (store w0) (store (run X ops w0)) /\ 0 < revision (store (run X ops w0)) /\
  binding (core (store (run X ops w0))) = binding (core (newStore b)).
Proof.
  intros Ho Hok. destruct (Open_world _ _ _ _ _ _ _ Ho) as (Hw & Hr & Hb & _).
  destruct (run_keeps X ops w0 Hok Hw Hr) as (? & ? & ?). split_and!; try done.
  rewrite (run_binding X ops w0 Hok Hw Hr). unfold core; cbn. by rewrite Hb.
Qed.


(** Replay accepts only well-formed histories.  Whatever the files on disk,
    when [Open] accepts them the store satisfies its invariant: every session has
    exactly the fields of its dispatch state, sessions and issues correspond one to
    one, every terminal session has its outbox entry and every entry its session,
    and the revision is the number of files. *)
Theorem replay_sound resync io b now files w :
  Open X resync io b now files = Ok w ->
  store_inv X (store w) /\ revision (store w) = blen (journal w) /\
  (forall k1 k2 st1 st2, sessions (store w) !! k1 = Some st1 -> sessions (store w) !! k2 = Some st2 ->
     RepositoryID (e_Source (env st1)) = RepositoryID (e_Source (env st2)) ->
     IssueNumber (e_Source (env st1)) = IssueNumber (e_Source (env st2)) -> k1 = k2).
Proof.
  intros Ho. destruct (Open_world _ _ _ _ _ _ _ Ho) as (Hw & _ & _ & _ & Hp). pose proof (wi_store _ _ Hw) as Hs.
  pose proof (wi_replay _ _ Hw) as Hrep. rewrite Hp in Hrep. split_and!; [done | by apply replays_inv in Hrep as [_ Hr]|].
  intros k1 k2 st1 st2 H1 H2 E1 E2.
  destruct (inv_sessions _ _ Hs _ _ H1) as (_ & _ & _ & S1 & _). destruct (inv_sessions _ _ Hs _ _ H2) as (_ & _ & _ & S2 & _).
  unfold sourceKey in *. rewrite E1, E2 in S1. congruence.
Qed.

(** Sessions only advance.  Along every history a session stays, its admission
    is immutable, its dispatch state never goes back, and its attempt, its launch,
    its observations and its terminal receipt, once recorded, stay; a delivered
    publication is final. *)
Theorem sessions_advance resync io b now files w0 ops1 ops2 k st :
  Open X resync io b now files = Ok w0 -> Forall op_ok (ops1 ++ ops2) ->
  sessions (store (run X ops1 w0)) !! k = Some st ->
  extends (store (run X ops1 w0)) (store (run X (ops1 ++ ops2) w0)) /\
  exists st', sessions (store (run X (ops1 ++ ops2) w0)) !! k = Some st' /\ session_extends st st' /\ lifecycle X st'.
Proof.
  intros Ho Hok Hk. apply Forall_app in Hok as [Hok1 Hok2].
  destruct (opened_run _ _ _ _ _ _ _ Ho Hok1) as (Hw & _ & Hr & _).
  destruct (run_keeps X ops2 _ Hok2 Hw Hr) as (Hw' & Hx & _).
  replace (run X (ops1 ++ ops2) w0) with (run X ops2 (run X ops1 w0)) by (unfold run; by rewrite fold_left_app).
  split; [done|]. destruct (ext_sessions _ _ Hx _ _ Hk) as (st' & Hk' & Hx'). exists st'. split_and!; try done.
  by destruct (inv_sessions _ _ (wi_store _ _ Hw') _ _ Hk') as (_ & _ & _ & _ & Hl).
Qed.

Lemma ops_run_app ops1 ops2 w : run X (ops1 ++ ops2) w = run X ops2 (run X ops1 w).
Proof. unfold run. by rewrite fold_left_app. Qed.

Lemma run_snoc ops o w : run X (ops ++ [o]) w = run_op X o (run X ops w).
Proof. by rewrite ops_run_app. Qed.

(** No commit fails its own replay.  A history in which no directory sync is
    lost after a link never poisons the store: the guards of every call imply the
    checks of the replay, so the error path "committed transition replay" is never
    taken. *)
Theorem commits_replay resync io b now files w0 ops :
  Open X resync io b now files = Ok w0 -> Forall op_ok ops -> Forall (fun o => op_io o <> IoAfterLink) ops ->
  poisoned (store (run X ops w0)) = false.
Proof.
  intros Ho. induction ops as [|o ops IH] using rev_ind; intros Hok Hsy.
  - by destruct (Open_world _ _ _ _ _ _ _ Ho) as (_ & _ & _ & _ & Hp).
  - apply Forall_app in Hok as [Hok Hok1], Hsy as [Hsy Hsy1].
    destruct (opened_run _ _ _ _ _ _ _ Ho Hok) as (Hw & _ & Hr & _).
    rewrite run_snoc. rewrite (effect_poisoned X (op_io o) (run X ops w0)); [by apply IH | |].
    + apply run_op_effect; try done. by inversion Hok1.
    + by inversion Hsy1.
Qed.

(** An owner's update of its session. *)
Lemma stateFor_update s a st st' :
  stateFor s a = Ok st -> attempt st' = attempt st -> stateFor (with_session (attempt_key a) st' s) a = Ok st'.
Proof.
  intros Hst Ha. apply stateFor_Ok in Hst as (Hk & Hat & Hwk). unfold stateFor. cbn.
  change (sessionKey (at_ScopeID a) (at_SessionID a)) with (attempt_key a). rewrite lookup_insert_eq.
  by rewrite Ha, Hat, bool_decide_eq_true_2, Hwk, str_eqb_refl.
Qed.

(** The session after a successful terminal commit. *)
Lemma CommitTerminal_Ok io a body w w' rc :
  store_inv X (store w) -> CommitTerminal X io a body w = (w', Ok rc) ->
  rc_Body rc = body /\ exists st, stateFor (store w') a = Ok st /\ terminal st = Some rc.
Proof.
  intros Hs. unfold CommitTerminal. destruct (_ || _) eqn:Hfl; [discriminate|]. apply orb_false_elim in Hfl as [Hc Hp].
  destruct (stateFor (store w) a) as [st| |] eqn:Hst; try discriminate.
  destruct (terminal st) as [rc0|] eqn:Ht.
  { destruct (bytes_eqb _ _) eqn:Hb; [|discriminate]. apply bytes_eqb_eq in Hb. intros [= <- <-]. split; [done|]. by exists st. }
  destruct (negb _); [discriminate|].
  destruct (validateTerminalBody X a _ body) as [[[status dg] corr]| |]; try discriminate.
  destruct (_ && _); [discriminate|].
  destruct (terminal_data a _ body status dg corr) as [[rc0 ev] p] eqn:Hd.
  destruct (commitLocked X io _ _ w) as [w1 [err|]] eqn:Hcm; [discriminate|]. intros [= <- <-].
  pose proof (commitLocked_None X io (revision (store w)) (TxTerminal rc0 ev p) w) as Hn. rewrite Hcm in Hn.
  destruct (Hn eq_refl) as ([s' Ha] & _ & ->).
  unfold commitLocked in Hcm. rewrite Hc, Hp, Z.eqb_refl, Ha in Hcm. injection Hcm as <-.
  injection Hd as <- <- <-. split; [done|]. cbn [store].
  unfold applyTransaction in Ha. cbn [tx_Data new_transaction rc_Attempt] in Ha. rewrite Hst in Ha.
  guards Ha; injection Ha as <-; eexists; (split; [eapply (stateFor_update _ _ st _ Hst); reflexivity | reflexivity]).
Qed.

(** An owner keeps its session as the store grows. *)
Lemma stateFor_extends s s' a st :
  store_inv X s -> extends s s' -> stateFor s a = Ok st -> exists st', stateFor s' a = Ok st' /\ session_extends st st'.
Proof.
  intros Hs Hx Hst. apply stateFor_Ok in Hst as (Hk & Hat & Hwk).
  destruct (ext_sessions _ _ Hx _ _ Hk) as (st' & Hk' & Hx'). exists st'. split; [|done].
  pose proof (inv_nonempty X _ _ _ Hs Hk) as (Hsc & _ & _ & Hv).
  assert (Ha : authority s' = authority s).
  { apply (ext_authority _ _ Hx). rewrite Hsc. intros He. unfold validateConfiguredBinding in Hv. rewrite He in Hv. by vm_compute in Hv. }
  unfold stateFor. unfold attempt_key in Hk'. rewrite Hk', (ext_attempt _ _ Hx' _ Hat), Ha, Hwk, str_eqb_refl.
  by rewrite bool_decide_eq_true_2.
Qed.

(** The world after a call, and after a history that follows it. *)
Lemma later_run resync io b now files w0 ops1 o ops2 :
  Open X resync io b now files = Ok w0 -> Forall op_ok (ops1 ++ o :: ops2) ->
  let w1 := run X ops1 w0 in let w2 := run_op X o w1 in
  world_inv X w1 /\ world_inv X w2 /\ 0 < revision (store w1) /\ 0 < revision (store w2) /\ world_inv X (run X ops2 w2) /\
  extends (store w2) (store (run X ops2 w2)).
Proof.
  intros Ho Hok w1 w2. apply Forall_app in Hok as [Hok1 Hok2]. inversion Hok2 as [|?? Hok3 Hok4]; subst.
  destruct (opened_run _ _ _ _ _ _ _ Ho Hok1) as (Hw & _ & Hr & _). fold w1 in Hw, Hr.
  destruct (effect_keeps X _ _ _ Hw (run_op_effect X o w1 Hok3 Hw Hr)) as (Hw2 & _ & Hr2). fold w2 in Hw2, Hr2.
  destruct (run_keeps X ops2 w2 Hok4 Hw2) as (? & ? & ?); [lia|]. split_and!; try done. lia.
Qed.

(** C19. A terminal result is recorded once.  After a successful terminal commit,
    at every later point the same call replays the same receipt and a different
    body is a conflict, neither changing anything; and the outbox holds the
    publication of exactly that receipt. *)
Theorem terminal_once resync io b now files w0 ops1 tio a body w' rc ops2 :
  Open X resync io b now files = Ok w0 -> Forall op_ok (ops1 ++ OpCommitTerminal tio a body :: ops2) ->
  CommitTerminal X tio a body (run X ops1 w0) = (w', Ok rc) ->
  let w2 := run X ops2 w' in
  rc_Body rc = body /\ rc_Attempt rc = a /\
  (closed (store w2) = false -> poisoned (store w2) = false -> forall io' body',
     CommitTerminal X io' a body' w2 = (w2, if decide (body' = body) then Ok rc else Err ErrConflict)) /\
  exists p, publications (store w2) !! receipt_key rc = Some p /\ publication_of rc p.
Proof.
  intros Ho Hok Hct w2. destruct (later_run _ _ _ _ _ _ _ _ _ Ho Hok) as (Hw1 & Hw' & _ & _ & Hw2 & Hx).
  cbn [run_op] in Hw', Hw2, Hx. rewrite Hct in Hw', Hw2, Hx. cbn [fst] in Hw', Hw2, Hx. fold w2 in Hw2, Hx.
  destruct (CommitTerminal_Ok _ _ _ _ _ _ (wi_store _ _ Hw1) Hct) as (Hbody & st & Hst & Ht).
  destruct (stateFor_extends _ _ _ _ (wi_store _ _ Hw') Hx Hst) as (st2 & Hst2 & Hx2).
  pose proof (ext_terminal _ _ Hx2 _ Ht) as Ht2.
  destruct (owned_session X _ _ _ (wi_store _ _ Hw2) Hst2) as (Hk2 & _ & _ & _ & _ & Hf).
  split_and!; [done | | | by apply (inv_outbox _ _ (wi_store _ _ Hw2) _ _ Hk2)].
  - unfold attempt_fields in Hf. destruct (r_DispatchState (record st2)); try (decompose [and ex] Hf; congruence).
    destruct Hf.
  - intros Hc Hp io' body'. unfold CommitTerminal. rewrite Hc, Hp, Hst2, Ht2. cbn [orb]. rewrite Hbody.
    case_decide as He; [by rewrite He, bytes_eqb_refl|].
    destruct (bytes_eqb body body') eqn:E; [|done]. apply bytes_eqb_eq in E. congruence.
Qed.

Lemma Admit_Ok io n e w w' r :
  Admit X io n e w = (w', Ok r) ->
  sources (store w') !! sourceKey (e_Source e) = Some (sessionKey (e_ScopeID e) (sr_SessionID (e_Session e))) /\
  exists st, sessions (store w') !! sessionKey (e_ScopeID e) (sr_SessionID (e_Session e)) = Some st /\ record st = r.
Proof.
  unfold Admit. destruct (_ || _) eqn:Hfl; [discriminate|]. apply orb_false_elim in Hfl as [Hc Hp].
  destruct (Z.eqb_spec n (revision (store w))) as [->|]; [|discriminate]. cbn [negb].
  destruct (validateAdmission X e _ true) as [[e' dg]| |] eqn:Hv; try discriminate.
  destruct (bool_decide _); [discriminate|]. destruct (bool_decide _); [discriminate|].
  destruct (commitLocked X io _ _ w) as [w1 [err|]] eqn:Hcm; [discriminate|]. intros [= <- <-].
  match type of Hcm with commitLocked X io ?m ?d ?w0 = _ => pose proof (commitLocked_None X io m d w0) as Hn end.
  rewrite Hcm in Hn. destruct (Hn eq_refl) as ([s' Ha] & _ & ->).
  unfold commitLocked in Hcm. rewrite Hc, Hp, Z.eqb_refl, Ha in Hcm. injection Hcm as <-. cbn [store].
  unfold applyTransaction in Ha. cbn [tx_Data new_transaction r_Envelope] in Ha.
  pose proof (validateAdmission_Ok _ _ _ _ _ _ Hv) as (_ & _ & He' & _).
  guards Ha. injection Ha as <-. cbn.
  match goal with H : validateAdmission X e' _ false = _ |- _ => rewrite (validateAdmission_replay _ _ _ _ _ Hv) in H; injection H as <- <- end.
  rewrite He'. cbn. rewrite !lookup_insert_eq. split; [done|]. eexists; split; reflexivity.
Qed.

(** An issue is admitted once.  After a successful admission, at every later
    point its session is still there, no admission for the same repository and
    issue succeeds or changes anything, whatever else it carries, and a valid one
    on an open store is told that the issue is already admitted. *)
Theorem admitted_once resync io b now files w0 ops1 aio n e w' r ops2 :
  Open X resync io b now files = Ok w0 -> Forall op_ok (ops1 ++ OpAdmit aio n e :: ops2) ->
  Admit X aio n e (run X ops1 w0) = (w', Ok r) ->
  let w2 := run X ops2 w' in
  (exists st, sessions (store w2) !! sessionKey (e_ScopeID e) (sr_SessionID (e_Session e)) = Some st /\ env st = r_Envelope r) /\
  forall io' n' e', RepositoryID (e_Source e') = RepositoryID (e_Source e) -> IssueNumber (e_Source e') = IssueNumber (e_Source e) ->
    exists err, Admit X io' n' e' w2 = (w2, Err err) /\
      (closed (store w2) = false -> poisoned (store w2) = false -> n' = revision (store w2) ->
       is_ok (validateAdmission X e' (binding (store w2)) true) = true -> err = ErrAlreadyAdmitted).
Proof.
  intros Ho Hok Had w2. destruct (later_run _ _ _ _ _ _ _ _ _ Ho Hok) as (_ & _ & _ & _ & _ & Hx).
  cbn [run_op] in Hx. rewrite Had in Hx. cbn [fst] in Hx. fold w2 in Hx.
  destruct (Admit_Ok _ _ _ _ _ _ Had) as (Hsrc & st & Hk & Hr).
  destruct (ext_sessions _ _ Hx _ _ Hk) as (st2 & Hk2 & Hx2). pose proof (ext_sources _ _ Hx _ _ Hsrc) as Hsrc2.
  split; [exists st2; split; [done|]; rewrite (ext_envelope _ _ Hx2), <- Hr; done|].
  intros io' n' e' E1 E2. unfold Admit. destruct (_ || _) eqn:Hfl.
  { eexists. split; [reflexivity|]. intros Hc Hp. rewrite Hc, Hp in Hfl. discriminate. }
  destruct (Z.eqb_spec n' (revision (store w2))) as [->|]; cbn [negb]; [|by eexists].
  destruct (validateAdmission X e' _ true) as [[e'' dg]| |] eqn:Hv; [|by eexists|].
  - pose proof (validateAdmission_Ok _ _ _ _ _ _ Hv) as (_ & _ & He'' & _).
    replace (sourceKey (e_Source e'')) with (sourceKey (e_Source e)) by (rewrite He''; unfold sourceKey; cbn; by rewrite E1, E2).
    rewrite bool_decide_eq_true_2 by (by eexists). by eexists.
  - unfold validateAdmission in Hv. by repeat (destruct (_ : bool) in Hv; try discriminate Hv).
Qed.

Lemma Claim_Ok io rnd n ref w w' a :
  store_inv X (store w) -> 0 < revision (store w) -> Claim X io rnd n ref w = (w', Ok a) ->
  at_SessionID a = sr_SessionID ref /\ exists st, stateFor (store w') a = Ok st.
Proof.
  intros Hs Hr. unfold Claim. destruct (_ || _) eqn:Hfl; [discriminate|]. apply orb_false_elim in Hfl as [Hc Hp].
  destruct (Z.eqb_spec n (revision (store w))) as [->|]; [|discriminate]. cbn [negb]. destruct (negb _); [discriminate|].
  destruct (sessions (store w) !! _) as [st|] eqn:Hk; [|discriminate].
  match goal with |- context [if ?c then _ else _] => destruct c; [discriminate|] end.
  destruct rnd as [rnd|]; [|discriminate].
  destruct (commitLocked X io _ _ w) as [w1 [err|]] eqn:Hcm; [discriminate|]. intros [= <- <-]. split; [done|].
  match type of Hcm with commitLocked X io ?m ?d ?w0 = _ => pose proof (commitLocked_None X io m d w0) as Hn end.
  rewrite Hcm in Hn. destruct (Hn eq_refl) as ([s' Ha] & _ & ->).
  unfold commitLocked in Hcm. rewrite Hc, Hp, Z.eqb_refl, Ha in Hcm. injection Hcm as <-. cbn [store].
  unfold applyTransaction in Ha. cbn [tx_Data new_transaction] in Ha. guards Ha. injection Ha as <-. queue_bools.
  unfold stateFor. cbn. unfold attempt_key. cbn. rewrite lookup_insert_eq. cbn.
  rewrite bool_decide_eq_true_2 by done. cbn.
  match goal with H : at_WorkerID _ = a_WorkerID _ |- _ => cbn in H; rewrite H, str_eqb_refl end. by eexists.
Qed.

(** Attempt fencing.  After a successful claim, at every later point the
    session is owned by exactly that attempt: launches, observations and terminal
    results under any other attempt of the session are refused without effect, and
    the session is never claimed again. *)
Theorem attempt_fenced resync io b now files w0 ops1 cio rnd n ref w' a ops2 :
  Open X resync io b now files = Ok w0 -> Forall op_ok (ops1 ++ OpClaim cio rnd n ref :: ops2) ->
  Claim X cio rnd n ref (run X ops1 w0) = (w', Ok a) ->
  let w2 := run X ops2 w' in
  (exists st, stateFor (store w2) a = Ok st) /\
  (forall a' io' n' p o body, at_ScopeID a' = at_ScopeID a -> at_SessionID a' = at_SessionID a -> a' <> a ->
     BeginLaunch X io' n' a' w2 = (w2, Some ErrAttemptMismatch) /\
     ObserveLaunch X io' n' a' p w2 = (w2, Some ErrAttemptMismatch) /\
     RecordObservation X io' a' o w2 = (w2, Some ErrAttemptMismatch) /\
     exists err, CommitTerminal X io' a' body w2 = (w2, Err err)) /\
  (forall io' rnd' n' ref', sr_SessionID ref' = sr_SessionID ref -> exists err, Claim X io' rnd' n' ref' w2 = (w2, Err err)).
Proof.
  intros Ho Hok Hcl w2. destruct (later_run _ _ _ _ _ _ _ _ _ Ho Hok) as (Hw1 & Hw' & Hr1 & _ & Hw2 & Hx).
  cbn [run_op] in Hw', Hw2, Hx. rewrite Hcl in Hw', Hw2, Hx. cbn [fst] in Hw', Hw2, Hx. fold w2 in Hw2, Hx.
  destruct (Claim_Ok _ _ _ _ _ _ _ (wi_store _ _ Hw1) Hr1 Hcl) as (Hsid & st & Hst).
  destruct (stateFor_extends _ _ _ _ (wi_store _ _ Hw') Hx Hst) as (st2 & Hst2 & _).
  pose proof (attempt_key_owned X _ _ _ (wi_store _ _ Hw2) Hst2) as Hkey.
  pose proof (stateFor_Ok _ _ _ Hst2) as (Hk2 & Hat & _). split_and!.
  - by exists st2.
  - intros a' io' n' p o body E1 E2 Hne.
    assert (Hmis : stateFor (store w2) a' = Err ErrAttemptMismatch).
    { unfold stateFor. rewrite E1, E2. unfold attempt_key in Hk2. rewrite Hk2, Hat.
      rewrite bool_decide_eq_false_2 by congruence. done. }
    unfold BeginLaunch, ObserveLaunch, RecordObservation, CommitTerminal. rewrite Hmis. split_and!; try done.
    destruct (_ || _); by eexists.
  - intros io' rnd' n' ref' Hs. unfold Claim. destruct (_ || _); [by eexists|]. destruct (negb _); [by eexists|].
    destruct (negb _); [by eexists|]. rewrite Hs, <- Hsid, <- Hkey, Hk2, Hat, (bool_decide_eq_false_2 (Some a = None)) by done.
    cbn [negb]. rewrite orb_true_r. cbn [orb]. by eexists.
Qed.

(** ** The hash chain *)

Definition collision : Prop :=
  exists n p d n' p' d', (n, p, d) <> (n', p', d') /\ transaction_hash X n p d = transaction_hash X n' p' d'.

(** The head of a chain of files. *)
Definition head_of (files : list journalTransaction) : string :=
  match last files with Some tx => tx_SHA256 tx | None => zeros64 end.

(** Files that pass the header, revision and chain checks. *)
Inductive chained : list journalTransaction -> Prop :=
| chained_nil : chained []
| chained_snoc files tx :
    chained files -> tx_Revision tx = blen files + 1 -> tx_Previous tx = head_of files ->
    tx_SHA256 tx = transactionDigest X tx -> chained (files ++ [tx]).

Lemma recover_loop_chained files : forall s s',
  revision s = 0 -> recover_loop X 1 files s = Ok s' ->
  chained files /\ previousHash s' = head_of files /\ revision s' = blen files.
Proof.
  induction files as [|tx files IH] using rev_ind; intros s s' Hr H.
  - injection H as <-. split_and!; [constructor | | done]. unfold previousHash. by rewrite Hr.
  - rewrite recover_loop_app in H. destruct (recover_loop X 1 files s) as [s1| |] eqn:H1; try discriminate.
    destruct (IH s s1) as (Hc & Hp & Hrev); auto. unfold recover_one in H. guards H. injection H as <-.
    unfold decodeCanonicalTransaction in *. queue_bools. pose proof (blen_nonneg files).
    split_and!.
    + constructor; try done; [lia | congruence].
    + unfold previousHash, head_of. cbn. rewrite last_snoc. destruct (Z.eqb_spec (1 + blen files) 0); [lia | done].
    + cbn. rewrite blen_app. change (blen [tx]) with 1. lia.
Qed.

Lemma chained_inj f1 : forall f2, chained f1 -> chained f2 -> length f1 = length f2 -> head_of f1 = head_of f2 -> f1 = f2 \/ collision.
Proof.
  induction f1 as [|t1 f1 IH] using rev_ind; intros f2 H1 H2 Hl Hh.
  { left. symmetry. apply nil_length_inv. by rewrite <- Hl. }
  destruct f2 as [|t2 f2 _] using rev_ind; [rewrite length_app in Hl; simpl in Hl; lia|].
  inversion H1 as [|g1 u1 C1 R1 P1 S1 E1]; [by destruct f1|]. apply app_inj_tail in E1 as [-> ->].
  inversion H2 as [|g2 u2 C2 R2 P2 S2 E2]; [by destruct f2|]. apply app_inj_tail in E2 as [-> ->].
  rewrite !length_app in Hl. simpl in Hl. unfold head_of in Hh. rewrite !last_snoc in Hh.
  assert (Hd : transactionDigest X t1 = transactionDigest X t2) by congruence. unfold transactionDigest in Hd.
  destruct (decide ((tx_Revision t1, tx_Previous t1, tx_Data t1) = (tx_Revision t2, tx_Previous t2, tx_Data t2))) as [Heq|Hne].
  - destruct (IH f2) as [->|?]; [done | done | lia | congruence | | by right]. left. f_equal.
    destruct t1, t2; cbn in *. by simplify_eq.
  - right. do 6 eexists. split; [exact Hne | exact Hd].
Qed.

Lemma chained_length f1 f2 t1 t2 :
  chained (f1 ++ [t1]) -> chained (f2 ++ [t2]) -> tx_SHA256 t1 = tx_SHA256 t2 -> length f1 = length f2 \/ collision.
Proof.
  intros H1 H2 Hh.
  inversion H1 as [|g1 u1 C1 R1 P1 S1 E1]; [by destruct f1|]. apply app_inj_tail in E1 as [-> ->].
  inversion H2 as [|g2 u2 C2 R2 P2 S2 E2]; [by destruct f2|]. apply app_inj_tail in E2 as [-> ->].
  destruct (decide (length f1 = length f2)) as [|Hne]; [by left|]. right.
  exists (tx_Revision t1), (tx_Previous t1), (tx_Data t1), (tx_Revision t2), (tx_Previous t2), (tx_Data t2).
  split; [|unfold transactionDigest in *; congruence]. intros [= Heq _ _]. unfold blen in *. lia.
Qed.

Lemma recover_digest b f s :
  recoverJournal X f (newStore b) = Ok s ->
  chained f /\ match last f with Some tx => digest s = tx_SHA256 tx /\ validSHA256 (tx_SHA256 tx) = true | None => digest s = "" end.
Proof.
  unfold recoverJournal. destruct (recover_loop X 1 f (newStore b)) as [t| |] eqn:L; try discriminate.
  intros H. assert (t = s) as -> by (by destruct (_ && _); [|injection H]). clear H.
  destruct (recover_loop_chained f (newStore b) s eq_refl L) as (Hc & Hp & Hr). split; [done|].
  destruct f as [|tx f _] using rev_ind; [by injection L as <-|]. rewrite last_snoc.
  rewrite blen_app in Hr. change (blen [tx]) with 1 in Hr. pose proof (blen_nonneg f).
  unfold previousHash, head_of in Hp. rewrite last_snoc in Hp. destruct (Z.eqb_spec (revision s) 0); [lia|]. split; [done|].
  inversion Hc as [|g u C R P S E]; [by destruct f|]. apply app_inj_tail in E as [-> ->]. rewrite S. apply transaction_hash_hex.
Qed.

(** The head digest fixes the journal.  Two journals that both open, under any
    bindings, and end in the same digest are the same list of transactions, or a
    collision of the transaction hash has been found. *)
Theorem journal_tamper_evident b b' f1 f2 s1 s2 :
  recoverJournal X f1 (newStore b) = Ok s1 -> recoverJournal X f2 (newStore b') = Ok s2 ->
  digest s1 = digest s2 -> f1 = f2 \/ collision.
Proof.
  intros H1 H2 Hd. apply recover_digest in H1 as [C1 D1]. apply recover_digest in H2 as [C2 D2].
  destruct f1 as [|t1 f1 _] using rev_ind; destruct f2 as [|t2 f2 _] using rev_ind; [by left | | |].
  - rewrite last_snoc in D2. destruct D2 as [D2 V]. simpl in D1. rewrite <- D2, <- Hd, D1 in V. discriminate.
  - rewrite last_snoc in D1. destruct D1 as [D1 V]. simpl in D2. rewrite <- D1, Hd, D2 in V. discriminate.
  - rewrite last_snoc in D1, D2. destruct D1 as [D1 _], D2 as [D2 _].
    destruct (chained_length _ _ _ _ C1 C2) as [Hl|]; [congruence | | by right].
    apply chained_inj; try done; [rewrite !length_app; simpl; lia|].
    unfold head_of. rewrite !last_snoc. congruence.
Qed.

End Properties.

(** ** Witnesses *)

Definition demo_all : list op := demo_launch ++ demo_finish.

Lemma demo_all_ok : Forall op_ok demo_all.
Proof. repeat constructor; try done. Qed.

(** The environment loses the sync of the terminal commit. *)
Definition demo_ambiguous : list op := demo_launch ++ [OpCommitTerminal IoAfterLink demo_attempt [1]].

Lemma demo_ambiguous_ok : Forall op_ok demo_ambiguous.
Proof. repeat constructor; try done. Qed.

Lemma demo_ambiguous_poisoned : poisoned (store (run demoX demo_ambiguous demo_w0)) = true.
Proof. vm_compute. reflexivity. Qed.

Definition demo_binding2 : ConfiguredHostBinding :=
  {| b_ScopeID := "scope"; b_HostID := "host"; b_WorkerID := "worker"; b_Selectors := None |}.


Lemma replay_sound_witness : demo_open = Ok demo_w0 /\ store_inv demoX (store demo_w0).
Proof. split; [exact demo_opens | apply (replay_sound demoX true IoOk demo_binding "t0" [] demo_w0 demo_opens)]. Defined.

Definition demo_key : string := sessionKey "scope" "s1".

Lemma demo_claimed : is_Some (sessions (store (run demoX demo_launch demo_w0)) !! demo_key).
Proof. vm_compute. by eexists. Qed.

Lemma sessions_advance_witness :
  exists st st', sessions (store (run demoX demo_launch demo_w0)) !! demo_key = Some st /\
    sessions (store (run demoX (demo_launch ++ demo_finish) demo_w0)) !! demo_key = Some st' /\ session_extends st st'.
Proof.
  destruct demo_claimed as [st Hst].
  destruct (sessions_advance demoX true IoOk demo_binding "t0" [] demo_w0 demo_launch demo_finish demo_key st demo_opens demo_all_ok Hst)
    as (_ & st' & H1 & H2 & _).
  exists st, st'. split; [exact Hst | split; [exact H1 | exact H2]].
Defined.

Lemma demo_all_synced : Forall (fun o => op_io o <> IoAfterLink) demo_all.
Proof. repeat constructor; discriminate. Qed.

Lemma commits_replay_witness : poisoned (store (run demoX demo_all demo_w0)) = false.
Proof. exact (commits_replay demoX true IoOk demo_binding "t0" [] demo_w0 demo_all demo_opens demo_all_ok demo_all_synced). Defined.

Lemma demo_terminal_ok : exists w' rc, CommitTerminal demoX IoOk demo_attempt [1] (run demoX demo_launch demo_w0) = (w', Ok rc) /\ closed (store (run demoX [] w')) = false /\ poisoned (store (run demoX [] w')) = false.
Proof. vm_compute. by do 2 eexists. Qed.

Lemma demo_terminal_ops : Forall op_ok (demo_launch ++ [OpCommitTerminal IoOk demo_attempt [1]]).
Proof. repeat constructor; try done. Qed.

Lemma terminal_once_witness :
  exists w' rc, CommitTerminal demoX IoOk demo_attempt [1] (run demoX demo_launch demo_w0) = (w', Ok rc) /\ CommitTerminal demoX IoOk demo_attempt [1] (run demoX [] w') = (run demoX [] w', Ok rc) /\
    CommitTerminal demoX IoOk demo_attempt [2] (run demoX [] w') = (run demoX [] w', Err ErrConflict).
Proof.
  destruct demo_terminal_ok as (w' & rc & H & Hc & Hp). exists w', rc.
  destruct (terminal_once demoX true IoOk demo_binding "t0" [] demo_w0 demo_launch IoOk demo_attempt [1] w' rc []
              demo_opens demo_terminal_ops H) as (_ & _ & Ht & _).
  split; [exact H | split]; [exact (Ht Hc Hp IoOk [1]) | exact (Ht Hc Hp IoOk [2])].
Defined.

Lemma demo_admit_ok : exists w' r, Admit demoX IoOk 1 demo_envelope (run demoX [] demo_w0) = (w', Ok r).
Proof. vm_compute. by do 2 eexists. Qed.

Lemma demo_admit_ops : Forall op_ok [OpAdmit IoOk 1 demo_envelope].
Proof. repeat constructor. Qed.

Lemma admitted_once_witness :
  exists w' r err, Admit demoX IoOk 1 demo_envelope (run demoX [] demo_w0) = (w', Ok r) /\ Admit demoX IoOk 2 demo_envelope (run demoX [] w') = (run demoX [] w', Err err).
Proof.
  destruct demo_admit_ok as (w' & r & H). exists w', r.
  destruct (admitted_once demoX true IoOk demo_binding "t0" [] demo_w0 [] IoOk 1 demo_envelope w' r [] demo_opens demo_admit_ops H)
    as (_ & Ha).
  destruct (Ha IoOk 2 demo_envelope eq_refl eq_refl) as (err & He & _). exists err. split; [exact H | exact He].
Defined.

Definition demo_ops1 : list op := [OpAdmit IoOk 1 demo_envelope].

Lemma demo_claim_ok : exists w', Claim demoX IoOk (Some [1;2;3;4;5;6;7;8]) 2 demo_ref (run demoX demo_ops1 demo_w0) = (w', Ok demo_attempt).
Proof. vm_compute. by eexists. Qed.

Lemma demo_claim_ops : Forall op_ok (demo_ops1 ++ [OpClaim IoOk (Some [1;2;3;4;5;6;7;8]) 2 demo_ref]).
Proof. repeat constructor; try done. Qed.

Definition demo_stranger : AttemptRef :=
  {| at_ScopeID := "scope"; at_SessionID := "s1"; at_AttemptID := "att_other"; at_WorkerID := "worker"; at_Generation := 1 |}.

Lemma demo_stranger_other : demo_stranger <> demo_attempt.
Proof. discriminate. Qed.

Lemma attempt_fenced_witness :
  exists w', Claim demoX IoOk (Some [1;2;3;4;5;6;7;8]) 2 demo_ref (run demoX demo_ops1 demo_w0) = (w', Ok demo_attempt) /\ BeginLaunch demoX IoOk 3 demo_stranger (run demoX [] w') = (run demoX [] w', Some ErrAttemptMismatch).
Proof.
  destruct demo_claim_ok as (w' & H). exists w'. split; [exact H|].
  destruct (attempt_fenced demoX true IoOk demo_binding "t0" [] demo_w0 demo_ops1 IoOk (Some [1;2;3;4;5;6;7;8]) 2 demo_ref w' demo_attempt []
              demo_opens demo_claim_ops H) as (_ & Hf & _).
  exact (proj1 (Hf demo_stranger IoOk 3 {| ProcessID := 1; ProcessStart := ""; SessionDetailSHA256 := "" |}
                  {| o_Kind := ObservationLiveness; ObservedAt := ""; Evidence := "" |} [] eq_refl eq_refl demo_stranger_other)).
Defined.

Lemma demo_recovers : exists s, recoverJournal demoX (journal demo_w0) (newStore demo_binding) = Ok s /\
  recoverJournal demoX (journal demo_w0) (newStore demo_binding2) = Ok (set_selectors None s).
Proof. vm_compute. by eexists. Qed.

Lemma journal_tamper_evident_witness : journal demo_w0 = journal demo_w0 \/ collision demoX.
Proof.
  destruct demo_recovers as (s & H1 & H2).
  exact (journal_tamper_evident demoX demo_binding demo_binding2 (journal demo_w0) (journal demo_w0) s (set_selectors None s) H1 H2 eq_refl).
Defined.
