(* ===== verification/Landing.v ===== *)
(** * Landing: keys and batching of the landing serializer ([src/landing])

    The Redis key construction of [queue.go] (one serialized landing stream per
    organization and repository) and the conflict graph of [conflictgraph.go], whose
    independent batches are what [pool.go] lands in parallel.  The queue that uses the
    keys is in [LandingQueue], the pool that uses the batches in [LandingWorker]. *)

From Stdlib Require Import Ascii String.
From stdpp Require Import gmap pretty.
From S2P Require Import Prelude GoStrings.

(** ** Keys *)

Record Key := { OrgID : string; RepoID : string }.

Definition Key_String (k : Key) : string := "landing:" +:+ OrgID k +:+ ":" +:+ RepoID k.

Definition Valid (k : Key) : bool := negb (str_eqb (OrgID k) "") && negb (str_eqb (RepoID k) "").

Definition queueKey (k : Key) : string := Key_String k +:+ ":queue".
Definition seqKey (k : Key) : string := Key_String k +:+ ":seq".
Definition entryKey (k : Key) (proposal : Z) : string := Key_String k +:+ ":entry:" +:+ pretty proposal.
Definition lockKey (k : Key) : string := Key_String k +:+ ":lock".
Definition pausedKey (k : Key) : string := Key_String k +:+ ":paused".
Definition completedKey (k : Key) (proposal : Z) : string := Key_String k +:+ ":completed:" +:+ pretty proposal.
Definition failedKey (k : Key) (proposal : Z) : string := Key_String k +:+ ":failed:" +:+ pretty proposal.
Definition blockedKey (k : Key) (proposal : Z) : string := Key_String k +:+ ":blocked:" +:+ pretty proposal.

(** Every key a landing stream uses, by what it names. *)
Inductive key_kind :=
| KQueue | KSeq | KEntry (p : Z) | KLock | KPaused | KCompleted (p : Z) | KFailed (p : Z) | KBlocked (p : Z).

Definition redis_key (k : Key) (kind : key_kind) : string :=
  match kind with
  | KQueue => queueKey k
  | KSeq => seqKey k
  | KEntry p => entryKey k p
  | KLock => lockKey k
  | KPaused => pausedKey k
  | KCompleted p => completedKey k p
  | KFailed p => failedKey k p
  | KBlocked p => blockedKey k p
  end.

(** ** The conflict graph *)

Record FileManifest := { Proposal : Z; Files : list string }.

Record ConflictGraph := {
  proposalFiles : gmap Z (gset string);
  order : list Z;
  edges : gmap Z (gset Z)
}.

Definition NewConflictGraph : ConflictGraph := {| proposalFiles := ∅; order := []; edges := ∅ |}.

(** The smaller set is iterated; the answer does not depend on which. *)
Definition overlaps (a b : gset string) : bool :=
  if (size a =? 0)%nat || (size b =? 0)%nat then true
  else
    let '(small, large) := if (size b <? size a)%nat then (b, a) else (a, b) in
    existsb (fun f => bool_decide (f ∈ large)) (elements small).

(** A nil adjacency set reads as empty and is made on the first write. *)
Definition adj (es : gmap Z (gset Z)) (p : Z) : gset Z := default ∅ (es !! p).

Definition add_edge (p other : Z) (es : gmap Z (gset Z)) : gmap Z (gset Z) :=
  let es := <[p := {[other]} ∪ adj es p]> es in <[other := {[p]} ∪ adj es other]> es.

(** The loop over [g.order]. *)
Fixpoint add_edges (p : Z) (fileSet : gset string) (files : gmap Z (gset string)) (others : list Z) (es : gmap Z (gset Z))
  : gmap Z (gset Z) :=
  match others with
  | [] => es
  | other :: others' =>
      add_edges p fileSet files others'
        (if other =? p then es
         else if overlaps fileSet (default ∅ (files !! other)) then add_edge p other es else es)
  end.

Definition AddProposal (proposal : Z) (files : list string) (g : ConflictGraph) : ConflictGraph :=
  let fileSet : gset string := list_to_set files in
  let order' := if bool_decide (is_Some (proposalFiles g !! proposal)) then order g else order g ++ [proposal] in
  let files' := <[proposal := fileSet]> (proposalFiles g) in
  let es := if bool_decide (is_Some (edges g !! proposal)) then edges g else <[proposal := ∅]> (edges g) in
  {| proposalFiles := files'; order := order'; edges := add_edges proposal fileSet files' order' es |}.

Definition BuildConflictGraph (ms : list FileManifest) : ConflictGraph :=
  fold_left (fun g m => AddProposal (Proposal m) (Files m) g) ms NewConflictGraph.

Definition Conflicts (g : ConflictGraph) (a b : Z) : bool :=
  match edges g !! a with Some s => bool_decide (b ∈ s) | None => false end.

Definition SharedFiles (g : ConflictGraph) (a b : Z) : option (gset string) :=
  match proposalFiles g !! a, proposalFiles g !! b with
  | Some fa, Some fb => Some (fa ∩ fb)
  | _, _ => None
  end.

Definition conflictsWithBatch (g : ConflictGraph) (p : Z) (batch : list Z) : bool :=
  existsb (fun member => bool_decide (member ∈ adj (edges g) p)) batch.

(** The inner loop: the first batch with room that [p] does not conflict with. *)
Fixpoint place (g : ConflictGraph) (maxBatchSize p : Z) (batches : list (list Z)) : list (list Z) :=
  match batches with
  | [] => [[p]]
  | b :: bs =>
      if (0 <? maxBatchSize) && (maxBatchSize <=? blen b) then b :: place g maxBatchSize p bs
      else if conflictsWithBatch g p b then b :: place g maxBatchSize p bs
      else (b ++ [p]) :: bs
  end.

(** The outer loop, with the set of proposals already assigned. *)
Fixpoint batch_loop (g : ConflictGraph) (maxBatchSize : Z) (ps : list Z) (assigned : gset Z) (batches : list (list Z))
  : list (list Z) :=
  match ps with
  | [] => batches
  | p :: ps' =>
      if bool_decide (p ∈ assigned) then batch_loop g maxBatchSize ps' assigned batches
      else batch_loop g maxBatchSize ps' ({[p]} ∪ assigned) (place g maxBatchSize p batches)
  end.

Definition IndependentBatches (g : ConflictGraph) (maxBatchSize : Z) : list (list Z) :=
  batch_loop g maxBatchSize (order g) ∅ [].

Definition Size (g : ConflictGraph) : Z := Z.of_nat (size (proposalFiles g)).

(** ** The graph is the conflict relation *)

Lemma overlaps_spec a b : overlaps a b = true <-> a = ∅ \/ b = ∅ \/ exists f, f ∈ a /\ f ∈ b.
Proof.
  unfold overlaps. destruct (Nat.eqb_spec (size a) 0) as [Ha|Ha].
  { apply size_empty_inv in Ha. split; [intros _; left; set_solver | done]. }
  destruct (Nat.eqb_spec (size b) 0) as [Hb|Hb].
  { apply size_empty_inv in Hb. split; [intros _; right; left; set_solver | done]. }
  assert (Hne : forall x : gset string, size x <> 0%nat -> x <> ∅) by (intros x Hx ->; by rewrite size_empty in Hx).
  cbn [orb]. transitivity (exists f, f ∈ a /\ f ∈ b).
  - destruct (size b <? size a)%nat; rewrite existsb_exists; split.
    all: try (intros (f & Hf & Hl); apply list_elem_of_In, elem_of_elements in Hf; apply bool_decide_eq_true in Hl; by exists f).
    all: intros (f & Hf1 & Hf2); exists f; rewrite <- list_elem_of_In, elem_of_elements, bool_decide_eq_true; done.
  - split; [by auto|]. intros [E|[E|E]]; [by apply Hne in Ha|by apply Hne in Hb|done].
Qed.

Lemma overlaps_comm a b : overlaps a b = overlaps b a.
Proof. apply eq_true_iff_eq. rewrite !overlaps_spec. naive_solver. Qed.

Lemma adj_insert es p s x : adj (<[p := s]> es) x = if decide (p = x) then s else adj es x.
Proof. unfold adj. case_decide as H; [subst; by rewrite lookup_insert_eq | by rewrite lookup_insert_ne]. Qed.

Lemma add_edge_adj p o es x y :
  p <> o -> y ∈ adj (add_edge p o es) x <-> y ∈ adj es x \/ (x = p /\ y = o) \/ (x = o /\ y = p).
Proof.
  intros Hpo. unfold add_edge. rewrite !adj_insert.
  destruct (decide (o = x)) as [<-|]; rewrite ?decide_False by congruence; [set_solver|].
  destruct (decide (p = x)) as [<-|]; set_solver.
Qed.

Lemma add_edges_adj p fs files others : forall es x y,
  y ∈ adj (add_edges p fs files others es) x <->
  y ∈ adj es x \/
  (x = p /\ y ∈ others /\ y <> p /\ overlaps fs (default ∅ (files !! y)) = true) \/
  (y = p /\ x ∈ others /\ x <> p /\ overlaps fs (default ∅ (files !! x)) = true).
Proof.
  induction others as [|o others IH]; intros es x y; cbn [add_edges]; [set_solver|].
  rewrite IH, !elem_of_cons. destruct (Z.eqb_spec o p) as [->|Hop]; [naive_solver|].
  destruct (overlaps fs (default ∅ (files !! o))) eqn:Ho; [rewrite add_edge_adj by congruence|]; naive_solver congruence.
Qed.

(** The edges are the overlaps between different proposals. *)
Record graph_ok (ms : list FileManifest) (g : ConflictGraph) : Prop := {
  go_order : order g = map Proposal ms;
  go_files m : m ∈ ms -> proposalFiles g !! Proposal m = Some (list_to_set (Files m));
  go_dom p : is_Some (proposalFiles g !! p) -> p ∈ map Proposal ms;
  go_adj x y : y ∈ adj (edges g) x <->
    x <> y /\ exists m1 m2, m1 ∈ ms /\ m2 ∈ ms /\ Proposal m1 = x /\ Proposal m2 = y /\
      overlaps (list_to_set (Files m1)) (list_to_set (Files m2)) = true
}.

Lemma AddProposal_ok ms m g :
  graph_ok ms g -> Proposal m ∉ map Proposal ms -> graph_ok (ms ++ [m]) (AddProposal (Proposal m) (Files m) g).
Proof.
  intros [Ho Hf Hd Ha] Hm.
  assert (Hnew : proposalFiles g !! Proposal m = None) by (apply eq_None_not_Some; intros H; by apply Hm, Hd).
  assert (Hne : forall m', m' ∈ ms -> Proposal m' <> Proposal m)
    by (intros m' Hm' He; apply Hm; rewrite <- He; by apply list_elem_of_fmap_2).
  unfold AddProposal. rewrite (bool_decide_eq_false_2 (is_Some (proposalFiles g !! Proposal m))) by (rewrite Hnew; by intros []).
  split; cbn [order proposalFiles edges].
  - by rewrite Ho, map_app.
  - intros m' [Hm'|Hm']%elem_of_app; [rewrite lookup_insert_ne by (by apply not_eq_sym, Hne); by apply Hf|].
    apply list_elem_of_singleton in Hm' as ->. by rewrite lookup_insert_eq.
  - intros p Hp. rewrite map_app. destruct (decide (Proposal m = p)) as [<-|Hpm]; [set_solver|].
    rewrite lookup_insert_ne in Hp by done. apply elem_of_app. left. by apply Hd.
  - intros x y. rewrite add_edges_adj.
    assert (Hadj : forall z, adj (if bool_decide (is_Some (edges g !! Proposal m)) then edges g else <[Proposal m:=∅]> (edges g)) z = adj (edges g) z).
    { intros z. destruct (bool_decide_reflect (is_Some (edges g !! Proposal m))) as [|Hn]; [done|].
      rewrite adj_insert. case_decide as Hz; [|done]. subst. unfold adj. apply eq_None_not_Some in Hn. by rewrite Hn. }
    rewrite Hadj, Ha, Ho.
    assert (Hin : forall z, z ∈ map Proposal ms ++ [Proposal m] -> z <> Proposal m ->
                  exists m', m' ∈ ms /\ Proposal m' = z /\ default ∅ (<[Proposal m:=list_to_set (Files m)]> (proposalFiles g) !! z) = list_to_set (Files m')).
    { intros z [(m' & -> & Hm')%list_elem_of_fmap|Hz%list_elem_of_singleton]%elem_of_app Hz'; [|done].
      exists m'. rewrite lookup_insert_ne by done. by rewrite (Hf _ Hm'). }
    split.
    + intros [(Hxy & m1 & m2 & H1 & H2 & H)|[(-> & Hy & Hyp & Hov)|(-> & Hx & Hxp & Hov)]].
      * split; [done|]. exists m1, m2. rewrite !elem_of_app. naive_solver.
      * destruct (Hin y Hy Hyp) as (m' & Hm' & <- & He). rewrite He in Hov. split; [done|]. exists m, m'. set_solver.
      * destruct (Hin x Hx Hxp) as (m' & Hm' & <- & He). rewrite He, overlaps_comm in Hov. split; [done|]. exists m', m. set_solver.
    + intros (Hxy & m1 & m2 & H1 & H2 & <- & <- & Hov).
      apply elem_of_app in H1 as [H1|H1%list_elem_of_singleton], H2 as [H2|H2%list_elem_of_singleton]; subst.
      * left. split; [done|]. by exists m1, m2.
      * right; right. split_and!; try done; [apply elem_of_app; left; by apply list_elem_of_fmap_2|].
        rewrite lookup_insert_ne, (Hf _ H1) by done. cbn. by rewrite overlaps_comm.
      * right; left. split_and!; try done; [apply elem_of_app; left; by apply list_elem_of_fmap_2|].
        rewrite lookup_insert_ne, (Hf _ H2) by done. done.
      * done.
Qed.

Lemma BuildConflictGraph_ok ms : NoDup (map Proposal ms) -> graph_ok ms (BuildConflictGraph ms).
Proof.
  induction ms as [|m ms IH] using rev_ind; intros Hnd.
  - split; cbn; try done; [intros m Hm; by apply elem_of_nil in Hm | intros p [? Hp]; by rewrite lookup_empty in Hp|].
    intros x y. unfold adj. rewrite lookup_empty. cbn. split; [set_solver|].
    intros (_ & m1 & m2 & H & _). by apply elem_of_nil in H.
  - rewrite map_app in Hnd. apply NoDup_app in Hnd as (Hnd & Hdis & _).
    unfold BuildConflictGraph. rewrite fold_left_app. apply AddProposal_ok; [by apply IH|].
    intros Hin. eapply Hdis; [exact Hin|]. set_solver.
Qed.

(** ** Batches *)

(** No two members conflict. *)
Definition independent (g : ConflictGraph) (b : list Z) : Prop := forall x y, x ∈ b -> y ∈ b -> y ∉ adj (edges g) x.

Definition batch_ok (g : ConflictGraph) (k : Z) (done : list Z) (b : list Z) : Prop :=
  b <> [] /\ (0 < k -> blen b <= k) /\ b `sublist_of` done /\ independent g b.

(** Why a proposal is not in a batch: the batch is full, or has a member that
    conflicts with it. *)
Definition left_out (g : ConflictGraph) (k : Z) (b : list Z) (p : Z) : Prop :=
  (0 < k /\ blen b = k) \/ exists m, m ∈ b /\ m ∈ adj (edges g) p.

Definition first_ok (g : ConflictGraph) (k : Z) (done : list Z) (batches : list (list Z)) : Prop :=
  match batches with
  | [] => done = []
  | b0 :: _ => head b0 = head done /\ forall p, p ∈ done -> p ∈ b0 \/ left_out g k b0 p
  end.

Record batches_ok (g : ConflictGraph) (k : Z) (done : list Z) (batches : list (list Z)) : Prop := {
  bo_all : concat batches ≡ₚ done;
  bo_each : Forall (batch_ok g k done) batches;
  bo_first : first_ok g k done batches
}.

Lemma conflictsWithBatch_false g p b : conflictsWithBatch g p b = false -> forall m, m ∈ b -> m ∉ adj (edges g) p.
Proof.
  unfold conflictsWithBatch. intros H m Hm Hadj.
  assert (existsb (fun member => bool_decide (member ∈ adj (edges g) p)) b = true); [|congruence].
  apply existsb_exists. exists m. rewrite <- list_elem_of_In, bool_decide_eq_true. done.
Qed.

Lemma conflictsWithBatch_true g p b : conflictsWithBatch g p b = true -> exists m, m ∈ b /\ m ∈ adj (edges g) p.
Proof.
  unfold conflictsWithBatch. intros (m & Hm & Hadj)%existsb_exists.
  exists m. by rewrite list_elem_of_In, <- (bool_decide_eq_true (m ∈ _)).
Qed.

Section Batches.
Context (ms : list FileManifest) (g : ConflictGraph) (Hg : graph_ok ms g) (k : Z).

Lemma adj_sym x y : y ∈ adj (edges g) x -> x ∈ adj (edges g) y.
Proof. rewrite !(go_adj _ _ Hg). intros (? & m1 & m2 & ?). split; [naive_solver|]. exists m2, m1. rewrite overlaps_comm. naive_solver. Qed.

Lemma adj_irrefl x : x ∉ adj (edges g) x.
Proof. rewrite (go_adj _ _ Hg). naive_solver. Qed.

Lemma place_all p bs : concat (place g k p bs) ≡ₚ p :: concat bs.
Proof.
  induction bs as [|b bs IH]; cbn [place concat]; [done|].
  assert (Hskip : b ++ concat (place g k p bs) ≡ₚ p :: b ++ concat bs) by (rewrite IH; by rewrite Permutation_middle).
  destruct (_ && _); [exact Hskip|]. destruct (conflictsWithBatch g p b); [exact Hskip|].
  cbn [concat]. rewrite <- app_assoc. cbn. by rewrite Permutation_middle.
Qed.

Lemma batch_ok_later done p b : batch_ok g k done b -> batch_ok g k (done ++ [p]) b.
Proof. intros (? & ? & ? & ?). split_and!; try done. by apply sublist_inserts_r. Qed.

Lemma batch_ok_snoc done p b :
  batch_ok g k done b -> (0 <? k) && (k <=? blen b) = false -> conflictsWithBatch g p b = false ->
  batch_ok g k (done ++ [p]) (b ++ [p]).
Proof.
  intros (? & ? & ? & Hi) Hsz Hc. pose proof (conflictsWithBatch_false _ _ _ Hc) as Hc'. split_and!.
  - by destruct b.
  - intros Hk. rewrite blen_app. change (blen [p]) with 1. destruct (Z.ltb_spec 0 k); [|lia]. cbn in Hsz.
    apply Z.leb_gt in Hsz. lia.
  - by apply sublist_app.
  - intros x y Hx Hy. apply elem_of_app in Hx as [Hx|Hx%list_elem_of_singleton], Hy as [Hy|Hy%list_elem_of_singleton]; subst.
    + by apply Hi.
    + intros Hadj. by apply (Hc' x Hx), adj_sym.
    + by apply Hc'.
    + apply adj_irrefl.
Qed.

Lemma place_each done p bs :
  Forall (batch_ok g k done) bs -> Forall (batch_ok g k (done ++ [p])) (place g k p bs).
Proof.
  induction 1 as [|b bs Hb Hbs IH]; cbn [place].
  - apply Forall_singleton. split_and!; [done | intros; unfold blen; simpl length; lia | by apply sublist_inserts_l |].
    intros x y Hx%list_elem_of_singleton Hy%list_elem_of_singleton. subst. apply adj_irrefl.
  - pose proof (batch_ok_later done p b Hb) as Hlater.
    destruct ((0 <? k) && (k <=? blen b)) eqn:Hsz; [by constructor|].
    destruct (conflictsWithBatch g p b) eqn:Hc; [by constructor|].
    constructor; [by apply batch_ok_snoc|]. eapply Forall_impl; [exact Hbs|]. intros; by apply batch_ok_later.
Qed.

Lemma left_out_snoc b q p : (0 <? k) && (k <=? blen b) = false -> left_out g k b q -> left_out g k (b ++ [p]) q.
Proof.
  intros Hsz [[Hk He]|(m & Hm & Ha)].
  - destruct (Z.ltb_spec 0 k); [|lia]. cbn in Hsz. apply Z.leb_gt in Hsz. lia.
  - right. exists m. split; [set_solver | done].
Qed.

Lemma place_first done p bs :
  Forall (batch_ok g k done) bs -> first_ok g k done bs -> first_ok g k (done ++ [p]) (place g k p bs).
Proof.
  intros Hbs Hf. destruct bs as [|b bs]; cbn [place].
  { cbn in *. subst. cbn. split; [done|]. intros q Hq. by left. }
  destruct Hf as [Hh Hf]. inversion Hbs as [|?? (Hne & Hcap & Hsub & _) _]; subst.
  assert (Hh' : head b = head (done ++ [p])).
  { destruct done as [|d done]; [|by rewrite Hh]. apply sublist_nil_r in Hsub. done. }
  assert (Hstay : left_out g k b p -> forall q, q ∈ done ++ [p] -> q ∈ b \/ left_out g k b q).
  { intros Hp q [Hq|Hq%list_elem_of_singleton]%elem_of_app; [by apply Hf | subst; by right]. }
  destruct ((0 <? k) && (k <=? blen b)) eqn:Hsz.
  { split; [done|]. apply Hstay. left. apply andb_prop in Hsz as [H1 H2]. split; [lia|]. assert (0 < k) as Hk0 by lia. specialize (Hcap Hk0). lia. }
  destruct (conflictsWithBatch g p b) eqn:Hc.
  { split; [done|]. apply Hstay. right. by apply conflictsWithBatch_true. }
  split; [by rewrite <- Hh'; destruct b|].
  intros q [Hq|Hq%list_elem_of_singleton]%elem_of_app; [|left; set_solver].
  destruct (Hf q Hq) as [?|Hl]; [left; set_solver | right; by apply left_out_snoc].
Qed.

Lemma batch_loop_ok ps : forall done batches,
  NoDup (done ++ ps) -> batches_ok g k done batches ->
  batches_ok g k (done ++ ps) (batch_loop g k ps (list_to_set done) batches).
Proof.
  induction ps as [|p ps IH]; intros done batches Hnd Hb; cbn [batch_loop]; [by rewrite app_nil_r|].
  assert (Hp : p ∉ (list_to_set done : gset Z)).
  { rewrite elem_of_list_to_set. apply NoDup_app in Hnd as (_ & Hd & _). intros H. apply (Hd _ H). set_solver. }
  rewrite bool_decide_eq_false_2 by done.
  replace (done ++ p :: ps) with ((done ++ [p]) ++ ps) in * by (by rewrite <- app_assoc).
  replace ({[p]} ∪ list_to_set done) with (list_to_set (done ++ [p]) : gset Z) by set_solver.
  apply IH; [done|]. destruct Hb as [H1 H2 H3]. split.
  - rewrite place_all, H1. by rewrite Permutation_app_comm.
  - by apply place_each.
  - by apply place_first.
Qed.

End Batches.

Lemma manifest_unique ms m1 m2 :
  NoDup (map Proposal ms) -> m1 ∈ ms -> m2 ∈ ms -> Proposal m1 = Proposal m2 -> m1 = m2.
Proof.
  intros Hnd [i Hi]%list_elem_of_lookup [j Hj]%list_elem_of_lookup He.
  assert (i = j) as ->; [|congruence].
  apply (NoDup_lookup (Proposal <$> ms) i j (Proposal m1)); [done | |]; rewrite list_lookup_fmap.
  - by rewrite Hi.
  - by rewrite Hj, He.
Qed.

(** Parallel landing batches are safe.  From the manifests of the queued
    proposals, the batches put every proposal in exactly one batch, in queue order
    and within the size cap; two proposals of one batch have known, non-empty and
    disjoint file sets; the first batch starts with the first proposal of the queue,
    and whoever is left out of it overlaps with a member or found it full. *)
Lemma batches_spec ms k :
  NoDup (map Proposal ms) ->
  let batches := IndependentBatches (BuildConflictGraph ms) k in
  concat batches ≡ₚ map Proposal ms /\
  Forall (fun b => b <> [] /\ (0 < k -> blen b <= k) /\ b `sublist_of` map Proposal ms) batches /\
  (forall b m1 m2, b ∈ batches -> m1 ∈ ms -> m2 ∈ ms -> Proposal m1 ∈ b -> Proposal m2 ∈ b -> Proposal m1 <> Proposal m2 ->
     Files m1 <> [] /\ Files m2 <> [] /\ forall f, f ∈ Files m1 -> f ∉ Files m2) /\
  (forall b0 rest m, batches = b0 :: rest -> head b0 = head (map Proposal ms) /\
     (m ∈ ms -> Proposal m ∉ b0 ->
      (0 < k /\ blen b0 = k) \/
      exists m', m' ∈ ms /\ Proposal m' ∈ b0 /\ overlaps (list_to_set (Files m')) (list_to_set (Files m)) = true)).
Proof.
  intros Hnd batches. pose proof (BuildConflictGraph_ok ms Hnd) as Hg. set (g := BuildConflictGraph ms) in *.
  assert (Hb : batches_ok g k (map Proposal ms) batches).
  { unfold batches, IndependentBatches. rewrite (go_order _ _ Hg).
    apply (batch_loop_ok ms g Hg k (map Proposal ms) [] []); [done|]. split; [done | constructor | done]. }
  destruct Hb as [H1 H2 H3]. split_and!; [done | | |].
  - eapply Forall_impl; [exact H2|]. intros b (? & ? & ? & _). done.
  - intros b m1 m2 Hbin Hm1 Hm2 Hp1 Hp2 Hne. rewrite Forall_forall in H2.
    destruct (H2 b Hbin) as (_ & _ & _ & Hi). specialize (Hi _ _ Hp1 Hp2). rewrite (go_adj _ _ Hg) in Hi.
    assert (Hno : overlaps (list_to_set (Files m1)) (list_to_set (Files m2)) <> true) by (intros Ho; apply Hi; split; [done | by exists m1, m2]).
    rewrite overlaps_spec in Hno. split_and!.
    + intros E. apply Hno. left. by rewrite E.
    + intros E. apply Hno. right. left. by rewrite E.
    + intros f Hf1 Hf2. apply Hno. right. right. exists f. by rewrite !elem_of_list_to_set.
  - intros b0 rest m E. rewrite E in H3. destruct H3 as [Hh Hf]. split; [done|]. intros Hm Hnot.
    destruct (Hf (Proposal m)) as [?|[Hfull|(x & Hx & Ha)]]; [by apply list_elem_of_fmap_2 | done | by left|]. right.
    apply (go_adj _ _ Hg) in Ha as (_ & m1 & m2 & Hm1 & Hm2 & E1 & <- & Ho).
    exists m2. split_and!; try done. rewrite overlaps_comm.
    replace m with m1; [done|]. by eapply (manifest_unique ms).
Qed.

Definition demo_manifests : list FileManifest :=
  [ {| Proposal := 11; Files := ["a"; "b"] |}; {| Proposal := 12; Files := ["b"] |}; {| Proposal := 13; Files := ["c"] |};
    {| Proposal := 14; Files := [] |}; {| Proposal := 15; Files := ["d"] |} ].

Example demo_batches : IndependentBatches (BuildConflictGraph demo_manifests) 2 = [[11; 13]; [12; 15]; [14]].
Proof. vm_compute. reflexivity. Qed.

Lemma demo_manifests_nodup : NoDup (map Proposal demo_manifests).
Proof. by apply (bool_decide_unpack _). Qed.

Lemma demo_batches_cover :
  concat (IndependentBatches (BuildConflictGraph demo_manifests) 2) ≡ₚ map Proposal demo_manifests.
Proof. exact (proj1 (batches_spec demo_manifests 2 demo_manifests_nodup)). Defined.

(** ** Keys *)

(** A kind's suffix: its word and its proposal. *)
Definition suffix (kind : key_kind) : string * option Z :=
  match kind with
  | KQueue => ("queue", None)
  | KSeq => ("seq", None)
  | KEntry p => ("entry", Some p)
  | KLock => ("lock", None)
  | KPaused => ("paused", None)
  | KCompleted p => ("completed", Some p)
  | KFailed p => ("failed", Some p)
  | KBlocked p => ("blocked", Some p)
  end.

Definition suffix_string (s : string * option Z) : string :=
  match snd s with None => fst s | Some p => fst s +:+ ":" +:+ pretty p end.

Lemma append_assoc a b c : (a +:+ b) +:+ c = a +:+ (b +:+ c).
Proof. apply chars_inj. rewrite !chars_app. by rewrite app_assoc. Qed.

Lemma redis_key_eq k kind : redis_key k kind = "landing:" +:+ OrgID k +:+ ":" +:+ RepoID k +:+ ":" +:+ suffix_string (suffix kind).
Proof. destruct kind; cbn -[String.append pretty]; unfold queueKey, seqKey, entryKey, lockKey, pausedKey, completedKey, failedKey, blockedKey, Key_String; by rewrite !append_assoc. Qed.

Lemma suffix_string_inj k1 k2 : suffix_string (suffix k1) = suffix_string (suffix k2) -> k1 = k2.
Proof.
  destruct k1, k2; cbn -[pretty]; intros H; try discriminate; try reflexivity;
    repeat (injection H as H); f_equal; by apply (inj pretty).
Qed.

(** Tenant isolation of the keyspace.  For organizations and repositories whose
    names have no colon, two keys of the landing serializer are the same string only
    when they belong to the same organization and repository and name the same
    thing. *)
Theorem keys_isolated k1 k2 kind1 kind2 :
  no_colon (OrgID k1) -> no_colon (RepoID k1) -> no_colon (OrgID k2) -> no_colon (RepoID k2) ->
  redis_key k1 kind1 = redis_key k2 kind2 -> k1 = k2 /\ kind1 = kind2.
Proof.
  intros Ho1 Hr1 Ho2 Hr2. rewrite !redis_key_eq. intros H. apply (inj _) in H.
  apply split_at_colon in H as [E1 H]; [|done..]. apply split_at_colon in H as [E2 H]; [|done..].
  destruct k1, k2; cbn in *. subst. split; [done|]. by apply suffix_string_inj.
Qed.

Definition acme : Key := {| OrgID := "acme"; RepoID := "o/r" |}.

Lemma keys_isolated_witness : acme = acme /\ KEntry 7 = KEntry 7.
Proof.
  apply (keys_isolated acme acme (KEntry 7) (KEntry 7)); try reflexivity; unfold no_colon; cbn;
    repeat (constructor; [discriminate|]); constructor.
Defined.

(** Without that, an organization can share a stream with another: [Valid] only
    asks for non-empty names. *)
Theorem colon_shares_stream :
  let k1 := {| OrgID := "a:b"; RepoID := "c" |} in let k2 := {| OrgID := "a"; RepoID := "b:c" |} in
  Valid k1 = true /\ Valid k2 = true /\ k1 <> k2 /\ forall kind, redis_key k1 kind = redis_key k2 kind.
Proof. split_and!; done. Qed.

(** Adding a proposal again does compute new edges to those already present. *)
Theorem readd_recomputes_edges :
  let g := BuildConflictGraph [ {| Proposal := 1; Files := ["a"] |}; {| Proposal := 2; Files := ["b"] |} ] in
  Conflicts g 1 2 = false /\ Conflicts (AddProposal 1 ["b"] g) 1 2 = true.
Proof. split; vm_compute; reflexivity. Qed.
