(* ===== verification/LandingScore.v ===== *)
(** * LandingScore: the sorted-set score of the landing queue ([encodeScore] of [src/landing/queue.go])

    One float64 carries both the priority and the arrival order of a proposal, so
    its rounding decides who lands first.  The arithmetic is modelled exactly: a
    float64 between one half and one is a multiple of [2^-53], as is every larger
    float64 with a magnitude this code can reach, so a value is the integer number of
    those units and each operation is the exact rational result rounded to nearest,
    ties to even, at the 53 significant bits of the format. *)

From S2P Require Import Prelude.

(** ** IEEE 754 rounding *)

(** [n / d] rounded to the nearest integer, ties to even *)
Definition rne (n d : Z) : Z :=
  let q := n / d in
  let r := n mod d in
  if 2 * r <? d then q else if d <? 2 * r then q + 1 else if Z.even q then q else q + 1.

(** The exponent of the last of 53 significant bits, in units *)
Definition ulp_exp (n : Z) : Z := Z.max 0 (Z.log2 (Z.abs n) + 1 - 53).

(** The integer rounded to 53 significant bits *)
Definition round53 (n : Z) : Z := rne n (2 ^ ulp_exp n) * 2 ^ ulp_exp n.

(** The number of units in one *)
Definition one : Z := 2 ^ 53.

(** [a / b] for [0 <= a <= b] with [b <= 2 * a] or [a = 0]: the quotient is zero, or at
    least one half, where the float64 grid is the grid of units *)
Definition fdiv (a b : Z) : Z := rne (a * one) b.

(** ** [encodeScore] *)

(** The untyped constant [0.9999999999] as the float64 it is compared as *)
Definition maxScoreFrac : Z := rne (9999999999 * one) 10000000000.

Definition encodeScore (priority seq : Z) : Z :=
  let seq := if seq <? 0 then 0 else seq in
  let frac := fdiv (round53 seq) (round53 (1 + round53 seq)) in
  let frac := if maxScoreFrac <=? frac then maxScoreFrac else frac in
  round53 (round53 priority * one + frac).

(** ** Rounding lemmas *)

Lemma rne_error n d : 0 < d -> - d <= 2 * (d * rne n d - n) <= d.
Proof.
  intros Hd. pose proof (Z.div_mod n d ltac:(lia)). pose proof (Z.mod_pos_bound n d Hd). unfold rne.
  destruct (Z.ltb_spec (2 * (n mod d)) d); [nia|]. destruct (Z.ltb_spec d (2 * (n mod d))); [nia|].
  destruct (Z.even (n / d)); nia.
Qed.

(** A multiple of the grid is not crossed by rounding. *)
Lemma rne_ge n d q : 0 < d -> q * d <= n -> q <= rne n d.
Proof. intros Hd H. pose proof (rne_error n d Hd). nia. Qed.

Lemma rne_le n d q : 0 < d -> n <= q * d -> rne n d <= q.
Proof. intros Hd H. pose proof (rne_error n d Hd). nia. Qed.

Lemma rne_mult n d : 0 < d -> rne (n * d) d = n.
Proof. intros Hd. apply Z.le_antisymm; [apply rne_le | apply rne_ge]; lia. Qed.

Lemma ulp_exp_nonneg n : 0 <= ulp_exp n.
Proof. unfold ulp_exp. lia. Qed.

Lemma ulp_exp_bound n k : 0 <= k -> Z.abs n < 2 ^ (53 + k) -> ulp_exp n <= k.
Proof.
  intros Hk Hn. unfold ulp_exp. destruct (Z.eq_dec n 0) as [->|Hz]; [simpl; lia|].
  assert (Z.log2 (Z.abs n) < 53 + k) by (apply Z.log2_lt_pow2; lia). lia.
Qed.

Lemma ulp_pos n : 0 < 2 ^ ulp_exp n.
Proof. apply Z.pow_pos_nonneg; [lia | apply ulp_exp_nonneg]. Qed.

Lemma ulp_divides n k : ulp_exp n <= k -> 2 ^ k = 2 ^ (k - ulp_exp n) * 2 ^ ulp_exp n.
Proof. intros H. rewrite <- Z.pow_add_r by (pose proof (ulp_exp_nonneg n); lia). f_equal. lia. Qed.

Lemma round53_exact n : Z.abs n < 2 ^ 53 -> round53 n = n.
Proof.
  intros Hn. assert (He : ulp_exp n = 0) by (pose proof (ulp_exp_nonneg n); pose proof (ulp_exp_bound n 0 ltac:(lia) ltac:(done)); lia).
  unfold round53. rewrite He. change (2 ^ 0) with 1. rewrite Z.mul_1_r. rewrite <- (Z.mul_1_r n) at 1. by apply rne_mult.
Qed.

(** Rounding at 53 bits stays on the same side of a multiple of [2^k]. *)
Lemma round53_ge n q k : ulp_exp n <= k -> q * 2 ^ k <= n -> q * 2 ^ k <= round53 n.
Proof.
  intros He H. rewrite (ulp_divides n k He), Z.mul_assoc in *. unfold round53. pose proof (ulp_pos n).
  apply Z.mul_le_mono_nonneg_r; [lia|]. by apply rne_ge.
Qed.

Lemma round53_le n q k : ulp_exp n <= k -> n <= q * 2 ^ k -> round53 n <= q * 2 ^ k.
Proof.
  intros He H. rewrite (ulp_divides n k He), Z.mul_assoc in *. unfold round53. pose proof (ulp_pos n).
  apply Z.mul_le_mono_nonneg_r; [lia|]. by apply rne_le.
Qed.

Lemma round53_error n k : ulp_exp n <= k -> - 2 ^ k <= 2 * (round53 n - n) <= 2 ^ k.
Proof.
  intros He. pose proof (rne_error n _ (ulp_pos n)) as Hr. unfold round53.
  assert (2 ^ ulp_exp n <= 2 ^ k) by (apply Z.pow_le_mono_r; lia). lia.
Qed.

(** The relative error is at most [2^-53]. *)
Lemma round53_relative n : 2 ^ 53 * Z.abs (round53 n - n) <= Z.abs n.
Proof.
  destruct (Z.lt_ge_cases (Z.abs n) (2 ^ 53)) as [Hs|Hs].
  { rewrite round53_exact by done. rewrite Z.sub_diag. simpl Z.abs. lia. }
  pose proof (round53_error n (ulp_exp n) (Z.le_refl _)) as Hr.
  assert (Hu : 2 ^ ulp_exp n * 2 ^ 52 <= Z.abs n).
  { rewrite <- Z.pow_add_r by (pose proof (ulp_exp_nonneg n); lia).
    assert (Hl : 53 <= Z.log2 (Z.abs n)) by (apply Z.log2_le_pow2; lia).
    replace (ulp_exp n + 52) with (Z.log2 (Z.abs n)) by (unfold ulp_exp; lia).
    apply Z.log2_spec. lia. }
  replace (2 ^ 53) with (2 * 2 ^ 52) by reflexivity. lia.
Qed.

(** ** The fraction *)

Definition frac (seq : Z) : Z := fdiv (round53 seq) (round53 (1 + round53 seq)).

Lemma encodeScore_frac p seq : 0 <= seq -> encodeScore p seq = round53 (round53 p * one + Z.min maxScoreFrac (frac seq)).
Proof.
  intros Hs. unfold encodeScore. destruct (Z.ltb_spec seq 0); [lia|]. fold (frac seq).
  destruct (Z.leb_spec maxScoreFrac (frac seq)); do 2 f_equal; lia.
Qed.

(** From the first sequence number on, the fraction is at least one half. *)
Lemma frac_half seq : 1 <= seq -> 2 ^ 52 <= frac seq.
Proof.
  intros Hs. unfold frac. set (a := round53 seq). set (b := round53 (1 + a)).
  pose proof (round53_relative seq) as Ha. fold a in Ha.
  assert (Ha1 : 1 <= a) by lia.
  pose proof (round53_relative (1 + a)) as Hb. fold b in Hb.
  assert (Hb2 : b <= 2 * a).
  { destruct (Z.eq_dec a 1) as [E|]; [|lia]. unfold b. rewrite E. change (round53 (1 + 1)) with 2. lia. }
  assert (0 < b) by lia. apply rne_ge; [done|]. unfold one. lia.
Qed.

Lemma maxScoreFrac_val : maxScoreFrac = 9007199253840272.
Proof. reflexivity. Qed.

(** Below [2^24] the sequence numbers are exact and the fractions well apart. *)
Lemma frac_gap s1 s2 : 1 <= s1 -> s1 < s2 -> s2 <= 2 ^ 24 -> frac s1 + 31 <= frac s2 /\ frac s2 < maxScoreFrac.
Proof.
  intros H1 H12 H2. unfold frac, fdiv. rewrite !(round53_exact s1), !(round53_exact s2), !round53_exact by lia.
  assert (Hu : 2 ^ 24 = 16777216) by reflexivity. assert (Hd : one = 9007199254740992) by reflexivity.
  pose proof (rne_error (s1 * one) (1 + s1) ltac:(lia)) as E1.
  pose proof (rne_error (s2 * one) (1 + s2) ltac:(lia)) as E2.
  rewrite maxScoreFrac_val. set (f1 := rne (s1 * one) (1 + s1)) in *. set (f2 := rne (s2 * one) (1 + s2)) in *.
  split.
  - assert (Hg : (1 + s1) * (1 + s2) * 63 <= 2 * one * (s2 - s1)) by (rewrite Hd; nia).
    assert (Hm : (1 + s1) * (1 + s2) * (2 * (f1 + 31)) < (1 + s1) * (1 + s2) * (2 * f2 + 2)) by nia.
    apply Z.mul_lt_mono_pos_l in Hm; nia.
  - nia.
Qed.

(** ** The order of scores *)

Lemma score_magnitude p f k : Z.abs p < 2 ^ k -> 0 <= k -> 0 <= f < one -> Z.abs (p * one + f) < 2 ^ (53 + k) + one.
Proof. intros Hp Hk Hf. rewrite Z.pow_add_r by lia. fold one. assert (0 < one) by reflexivity. nia. Qed.

Lemma min_frac_range seq : 1 <= seq -> 2 ^ 52 <= Z.min maxScoreFrac (frac seq) < one.
Proof. intros H. pose proof (frac_half seq H). rewrite maxScoreFrac_val in *. unfold one. lia. Qed.

(** The score of a proposal stays in the upper half of its priority's band. *)
Lemma encodeScore_band p seq :
  Z.abs p < 2 ^ 50 -> 1 <= seq -> p * one + 2 ^ 52 <= encodeScore p seq <= (p + 1) * one.
Proof.
  intros Hp Hs. rewrite encodeScore_frac, (round53_exact p) by lia.
  pose proof (min_frac_range seq Hs) as Hf. set (f := Z.min maxScoreFrac (frac seq)) in *.
  assert (He : ulp_exp (p * one + f) <= 51).
  { apply ulp_exp_bound; [lia|]. pose proof (score_magnitude p f 50 Hp ltac:(lia) ltac:(lia)). unfold one in *. lia. }
  split.
  - replace (p * one + 2 ^ 52) with ((p * 4 + 2) * 2 ^ 51) by (unfold one; lia). apply round53_ge; [done|]. unfold one. lia.
  - replace ((p + 1) * one) with ((p * 4 + 4) * 2 ^ 51) by (unfold one; lia). apply round53_le; [done|]. unfold one in *. lia.
Qed.

Lemma encodeScore_priority p1 p2 s1 s2 :
  Z.abs p1 < 2 ^ 50 -> Z.abs p2 < 2 ^ 50 -> 1 <= s1 -> 1 <= s2 -> p1 < p2 -> encodeScore p1 s1 < encodeScore p2 s2.
Proof.
  intros Hp1 Hp2 Hs1 Hs2 Hlt. pose proof (encodeScore_band p1 s1 Hp1 Hs1). pose proof (encodeScore_band p2 s2 Hp2 Hs2).
  unfold one in *. lia.
Qed.

Lemma encodeScore_fifo p s1 s2 :
  -8 <= p < 8 -> 1 <= s1 -> s1 < s2 -> s2 <= 2 ^ 24 -> encodeScore p s1 < encodeScore p s2.
Proof.
  intros Hp H1 H12 H2. destruct (frac_gap s1 s2 H1 H12 H2) as [Hg Hm].
  rewrite !encodeScore_frac, (round53_exact p) by lia.
  pose proof (min_frac_range s1 H1) as F1. pose proof (min_frac_range s2 ltac:(lia)) as F2.
  rewrite !Z.min_r in * by lia.
  assert (He : forall f, 2 ^ 52 <= f < one -> ulp_exp (p * one + f) <= 3) by (intros f Hf; apply ulp_exp_bound; unfold one in *; lia).
  pose proof (round53_error _ _ (He _ F1)). pose proof (round53_error _ _ (He _ F2)). lia.
Qed.

(** Priority first, then arrival.  For every priority below [2^50] in magnitude, a
    proposal of lower priority value gets a strictly smaller score than one of a
    higher value, whatever their sequence numbers; and within one priority between
    [-8] and [7] the first [2^24] enqueues of a repository get strictly increasing
    scores, rounding included. *)
Theorem score_order p1 p2 s1 s2 :
  1 <= s1 -> 1 <= s2 ->
  (Z.abs p1 < 2 ^ 50 -> Z.abs p2 < 2 ^ 50 -> p1 < p2 -> encodeScore p1 s1 < encodeScore p2 s2) /\
  (-8 <= p1 < 8 -> s1 <= 2 ^ 24 -> s2 <= 2 ^ 24 -> (encodeScore p1 s1 < encodeScore p1 s2 <-> s1 < s2)).
Proof.
  intros H1 H2. split; [intros; by apply encodeScore_priority|].
  intros Hp Hs1 Hs2. split; [|intros; by apply encodeScore_fifo].
  intros Hlt. destruct (Z.lt_trichotomy s1 s2) as [?|[->|Hgt]]; [done | lia|].
  pose proof (encodeScore_fifo p1 s2 s1 Hp H2 Hgt Hs1). lia.
Qed.

Lemma score_order_witness :
  encodeScore 2 16777216 < encodeScore 3 1 /\ (encodeScore 3 16777215 < encodeScore 3 16777216 <-> 16777215 < 16777216).
Proof.
  split.
  - apply (score_order 2 3 16777216 1); lia.
  - apply (score_order 3 3 16777215 16777216); lia.
Defined.

(** Sequence numbers around [10^8] share a score, and at the default priority two
    neighbours already do: the order of the queue is then the byte order of the
    proposal numbers. *)
Lemma score_collision : encodeScore 3 100000000 = encodeScore 3 100000001.
Proof. vm_compute. reflexivity. Qed.

(** At the far end of the priorities the fraction is rounded away. *)
Lemma score_band_collapse : encodeScore (2 ^ 52 + 1) 1 = encodeScore (2 ^ 52 + 2) 1.
Proof. vm_compute. reflexivity. Qed.
