(* ===== verification/Redis.v ===== *)
(** * Redis: the server interface the landing serializer relies on

    Redis is a service, so it is an interface here: a class with the documented
    behaviour of the commands the code sends (one key each) as its laws.  A command
    is a function of the entry at its key and of the time, an entry past its expiry
    does not exist, and a command changes no other key.  A request is one command, a
    [MULTI]/[EXEC] transaction or a Lua script, each executed without interleaving.
    The keyspace of [mem_server] is a concrete server that satisfies the laws. *)

From Stdlib Require Import Ascii String.
From stdpp Require Import gmap pretty sorting.
From S2P Require Import Prelude GoStrings.

(** ** Values, commands, replies *)

Inductive rvalue := RString (s : string) | RHash (h : gmap string string) | RZset (z : gmap string Z).

(** A value and the millisecond it expires at. *)
Record rentry := { r_value : rvalue; r_expires : option Z }.

Definition alive (now : Z) (o : option rentry) : option rentry :=
  match o with
  | Some e => match r_expires e with
              | Some t => if t <=? now then None else o
              | None => o
              end
  | None => None
  end.

Inductive command :=
| INCR (k : string)
| ZADDNX (k : string) (score : Z) (member : string)
| ZPOPMIN (k : string)
| ZRANGE (k : string)
| ZREM (k member : string)
| ZCARD (k : string)
| ZSCORE (k member : string)
| ZRANK (k member : string)
| HSET (k : string) (fields : list (string * string))
| HGETALL (k : string)
| DEL (k : string)
| GET (k : string)
| SET (k v : string) (ttl : option Z)
| SETNX (k v : string) (ttl : option Z)
| PEXPIRE (k : string) (ms : Z).

Definition ckey (c : command) : string :=
  match c with
  | INCR k | ZADDNX k _ _ | ZPOPMIN k | ZRANGE k | ZREM k _ | ZCARD k | ZSCORE k _ | ZRANK k _
  | HSET k _ | HGETALL k | DEL k | GET k | SET k _ _ | SETNX k _ _ | PEXPIRE k _ => k
  end.

Inductive reply :=
| RInt (n : Z)
| RNil
| ROK
| RBulk (s : string)
| RList (l : list string)
| RMap (h : gmap string string)
| RScored (l : list (string * Z))
| RError (e : string).

(** ** The order of a sorted set: by score, then by the bytes of the member *)

Definition zle (a b : string * Z) : Prop := snd a < snd b \/ (snd a = snd b /\ String.leb (fst a) (fst b) = true).

#[export] Instance zle_dec : RelDecision zle.
Proof. intros a b. unfold zle. apply _. Defined.

Definition zsorted (z : gmap string Z) : list (string * Z) := merge_sort zle (map_to_list z).

Fixpoint zrank_in (l : list (string * Z)) (m : string) (i : Z) : option Z :=
  match l with
  | [] => None
  | (x, _) :: l' => if str_eqb x m then Some i else zrank_in l' m (i + 1)
  end.

(** ** What a command does to its key *)

Definition wrongtype : reply := RError "WRONGTYPE Operation against a key holding the wrong kind of value".

(** A canonical 64-bit decimal integer *)
Definition int_of (s : string) : option Z :=
  match Atoi s with Some n => if str_eqb (pretty n) s then Some n else None | None => None end.

(** An empty sorted set is no key. *)
Definition zentry (z : gmap string Z) (ex : option Z) : option rentry :=
  if bool_decide (z = ∅) then None else Some {| r_value := RZset z; r_expires := ex |}.

Definition string_entry (s : string) (now : Z) (ttl : option Z) : option rentry :=
  Some {| r_value := RString s; r_expires := match ttl with Some ms => Some (now + ms) | None => None end |}.

(** A command on a sorted set: a missing key is the empty set. *)
Definition on_zset (o : option rentry) (f : gmap string Z -> gmap string Z * reply) : option rentry * reply :=
  match o with
  | None => let '(z, r) := f ∅ in (zentry z None, r)
  | Some {| r_value := RZset z; r_expires := ex |} => let '(z', r) := f z in (zentry z' ex, r)
  | Some _ => (o, wrongtype)
  end.

Definition cmd_spec (now : Z) (c : command) (o : option rentry) : option rentry * reply :=
  match c with
  | INCR _ =>
      match o with
      | None => (Some {| r_value := RString "1"; r_expires := None |}, RInt 1)
      | Some {| r_value := RString s; r_expires := ex |} =>
          match int_of s with
          | Some n =>
              if n =? 2 ^ 63 - 1 then (o, RError "ERR increment or decrement would overflow")
              else (Some {| r_value := RString (pretty (n + 1)); r_expires := ex |}, RInt (n + 1))
          | None => (o, RError "ERR value is not an integer or out of range")
          end
      | Some _ => (o, wrongtype)
      end
  | ZADDNX _ sc m => on_zset o (fun z => match z !! m with Some _ => (z, RInt 0) | None => (<[m := sc]> z, RInt 1) end)
  | ZPOPMIN _ =>
      on_zset o (fun z => match zsorted z with [] => (z, RScored []) | x :: _ => (delete (fst x) z, RScored [x]) end)
  | ZRANGE _ => on_zset o (fun z => (z, RList (map fst (zsorted z))))
  | ZREM _ m => on_zset o (fun z => match z !! m with Some _ => (delete m z, RInt 1) | None => (z, RInt 0) end)
  | ZCARD _ => on_zset o (fun z => (z, RInt (Z.of_nat (size z))))
  | ZSCORE _ m => on_zset o (fun z => (z, match z !! m with Some sc => RScored [(m, sc)] | None => RNil end))
  | ZRANK _ m => on_zset o (fun z => (z, match zrank_in (zsorted z) m 0 with Some i => RInt i | None => RNil end))
  | HSET _ fs =>
      match o with
      | None => (Some {| r_value := RHash (list_to_map fs); r_expires := None |}, RInt (blen fs))
      | Some {| r_value := RHash h; r_expires := ex |} =>
          (Some {| r_value := RHash (list_to_map fs ∪ h); r_expires := ex |}, RInt (blen fs - Z.of_nat (size (filter (fun f => f.1 ∈ dom h) (list_to_map fs : gmap string string)))))
      | Some _ => (o, wrongtype)
      end
  | HGETALL _ =>
      match o with
      | None => (o, RMap ∅)
      | Some {| r_value := RHash h |} => (o, RMap h)
      | Some _ => (o, wrongtype)
      end
  | DEL _ => (None, RInt (match o with Some _ => 1 | None => 0 end))
  | GET _ =>
      match o with
      | None => (o, RNil)
      | Some {| r_value := RString s |} => (o, RBulk s)
      | Some _ => (o, wrongtype)
      end
  | SET _ v ttl => (string_entry v now ttl, ROK)
  | SETNX _ v ttl => match o with None => (string_entry v now ttl, RInt 1) | Some _ => (o, RInt 0) end
  | PEXPIRE _ ms =>
      match o with
      | None => (o, RInt 0)
      | Some e => (alive now (Some {| r_value := r_value e; r_expires := Some (now + ms) |}), RInt 1)
      end
  end.

(** ** The server *)

Class RedisServer := {
  db : Type;
  look : Z -> db -> string -> option rentry;
  run_cmd : Z -> command -> db -> db * reply;
  run_reply now c d : snd (run_cmd now c d) = snd (cmd_spec now c (look now d (ckey c)));
  run_key now c d : look now (fst (run_cmd now c d)) (ckey c) = alive now (fst (cmd_spec now c (look now d (ckey c))));
  run_other now c d k : k <> ckey c -> look now (fst (run_cmd now c d)) k = look now d k;
  look_later now now' d k : now <= now' -> look now' d k = alive now' (look now d k)
}.

(** A Lua script: its [redis.call]s and what it returns. *)
Inductive lua := LReturn (r : reply) | LCall (c : command) (k : reply -> lua).

Inductive request := Single (c : command) | Tx (cs : list command) | Script (s : lua).

Section Serve.
Context `{R : RedisServer}.

(** A failing command of a transaction does not stop the others. *)
Fixpoint serve_tx (now : Z) (cs : list command) (d : db) : db * list reply :=
  match cs with
  | [] => (d, [])
  | c :: cs' =>
      let '(d1, r) := run_cmd now c d in
      let '(d2, rs) := serve_tx now cs' d1 in
      (d2, r :: rs)
  end.

(** [redis.call] raises an error reply, which ends the script. *)
Fixpoint serve_lua (now : Z) (s : lua) (d : db) : db * reply :=
  match s with
  | LReturn r => (d, r)
  | LCall c k =>
      let '(d1, r) := run_cmd now c d in
      match r with RError _ => (d1, r) | _ => serve_lua now (k r) d1 end
  end.

Definition serve (now : Z) (q : request) (d : db) : db * list reply :=
  match q with
  | Single c => let '(d', r) := run_cmd now c d in (d', [r])
  | Tx cs => serve_tx now cs d
  | Script s => let '(d', r) := serve_lua now s d in (d', [r])
  end.

End Serve.

(** ** A concrete server *)

Definition store_key (k : string) (o : option rentry) (m : gmap string rentry) : gmap string rentry :=
  match o with Some e => <[k := e]> m | None => delete k m end.

Lemma alive_idem now o : alive now (alive now o) = alive now o.
Proof. destruct o as [[v [t|]]|]; simpl; try done. destruct (t <=? now) eqn:E; simpl; [done | by rewrite E]. Qed.

Lemma alive_later now now' o : now <= now' -> alive now' (alive now o) = alive now' o.
Proof.
  intros H. destruct o as [[v [t|]]|]; simpl; try done.
  destruct (Z.leb_spec t now); simpl; [|done]. destruct (Z.leb_spec t now'); [done | lia].
Qed.

#[export] Program Instance mem_server : RedisServer := {|
  db := gmap string rentry;
  look now d k := alive now (d !! k);
  run_cmd now c d :=
    let '(o, r) := cmd_spec now c (alive now (d !! ckey c)) in (store_key (ckey c) o d, r)
|}.
Next Obligation. intros now c d. simpl. by destruct (cmd_spec now c _). Qed.
Next Obligation.
  intros now c d. simpl. destruct (cmd_spec now c _) as [o r]. simpl.
  destruct o as [e|]; simpl; [by rewrite lookup_insert_eq | by rewrite lookup_delete_eq].
Qed.
Next Obligation.
  intros now c d k Hk. simpl. destruct (cmd_spec now c _) as [o r]. simpl.
  destruct o as [e|]; simpl; [by rewrite lookup_insert_ne by congruence | by rewrite lookup_delete_ne by congruence].
Qed.
Next Obligation. intros now now' d k H. simpl. by rewrite alive_later. Qed.

(** ** Sorted sets *)

Lemma string_leb_total a b : String.leb a b = true \/ String.leb b a = true.
Proof.
  unfold String.leb. rewrite (String.compare_antisym a b). destruct (String.compare b a); simpl; auto.
Qed.

Lemma string_compare_refl a : String.compare a a = Eq.
Proof. induction a as [|c a IH]; simpl; [done|]. unfold Ascii.compare. by rewrite N.compare_refl. Qed.

Lemma string_compare_eq a b : String.compare a b = Eq -> a = b.
Proof. apply String.compare_eq_iff. Qed.

Lemma ascii_compare_lt a b : Ascii.compare a b = Lt <-> (N_of_ascii a < N_of_ascii b)%N.
Proof. unfold Ascii.compare. apply N.compare_lt_iff. Qed.

Lemma string_compare_lt_trans a : forall b c, String.compare a b = Lt -> String.compare b c = Lt -> String.compare a c = Lt.
Proof.
  induction a as [|x a IH]; intros [|y b] [|z c]; simpl; try done.
  intros H1 H2.
  destruct (Ascii.compare x y) eqn:E1; try done; destruct (Ascii.compare y z) eqn:E2; try done.
  - apply Ascii.compare_eq_iff in E1 as ->. rewrite E2. eauto.
  - apply Ascii.compare_eq_iff in E1 as ->. by rewrite E2.
  - apply Ascii.compare_eq_iff in E2 as <-. by rewrite E1.
  - assert (Ascii.compare x z = Lt) as -> by (rewrite ascii_compare_lt in *; lia). done.
Qed.

Lemma string_leb_spec a b : String.leb a b = true <-> a = b \/ String.compare a b = Lt.
Proof.
  unfold String.leb. destruct (String.compare a b) eqn:E; split; try done; auto.
  - intros _. left. by apply string_compare_eq.
  - intros [->|?]; [|done]. by rewrite string_compare_refl in E.
Qed.

#[export] Instance zle_total : Total zle.
Proof.
  intros [a x] [b y]. unfold zle; simpl. destruct (Z.lt_trichotomy x y) as [?|[->|?]]; [by left; left | | by right; left].
  destruct (string_leb_total a b); [left | right]; right; done.
Qed.

#[export] Instance zle_trans : Transitive zle.
Proof.
  intros [a x] [b y] [c z]. unfold zle; simpl. intros [?|[-> H1]] [?|[-> H2]]; try (left; lia).
  right. split; [done|]. rewrite string_leb_spec in *. destruct H1 as [->|H1]; [done|]. destruct H2 as [<-|H2]; [by right|].
  right. by eapply string_compare_lt_trans.
Qed.

#[export] Instance zle_anti : AntiSymm (=) zle.
Proof.
  intros [a x] [b y]. unfold zle; simpl. intros [?|[-> H1]] [?|[E H2]]; try lia.
  rewrite string_leb_spec in *. destruct H1 as [->|H1]; [done|]. destruct H2 as [->|H2]; [done|].
  pose proof (string_compare_lt_trans _ _ _ H1 H2) as H. by rewrite string_compare_refl in H.
Qed.

Lemma zsorted_perm z : zsorted z ≡ₚ map_to_list z.
Proof. apply merge_sort_Permutation. Qed.

Lemma zsorted_elem z m sc : (m, sc) ∈ zsorted z <-> z !! m = Some sc.
Proof. rewrite zsorted_perm. apply elem_of_map_to_list. Qed.

(** A sorted listing of the members is the one the server gives. *)
Lemma zsorted_unique z l : StronglySorted zle l -> l ≡ₚ map_to_list z -> zsorted z = l.
Proof.
  intros Hs Hp. apply (StronglySorted_unique zle); [|done|].
  - apply StronglySorted_merge_sort; apply _.
  - by rewrite zsorted_perm.
Qed.

Lemma zentry_alive now z ex : (forall t, ex = Some t -> now < t) -> alive now (zentry z ex) = zentry z ex.
Proof.
  intros H. unfold zentry. case_bool_decide; [done|]. simpl. destruct ex as [t|]; [|done].
  destruct (Z.leb_spec t now); [|done]. specialize (H t eq_refl). lia.
Qed.
