(* ===== verification/LandingProg.v ===== *)
(** * LandingProg: programs of the landing serializer

    The landing serializer talks to Redis, to child processes (git, package
    managers, the test command), to the [gh] CLI, to the filesystem and to a clock.
    An operation is a [prog]: a tree of these calls, each with a continuation for
    every answer, so that a theorem over all answers covers every failure of every
    call.  [wp] quantifies over all answers and gives the trace of calls; [run]
    executes a program on a Redis server with a schedule of faults; [par] interleaves
    programs under a schedule, one call at a time. *)

From Stdlib Require Import Ascii String.
From stdpp Require Import gmap pretty.
From S2P Require Import Prelude GoStrings Redis Landing.

(** ** Data *)

(** Instants are nanoseconds since the Unix epoch; [zeroTime] is Go's zero time. *)
Definition zeroTime : Z := - 62135596800 * 10 ^ 9.

Record Entry := {
  e_OrgID : string; e_RepoID : string; e_Proposal : Z; ProposalURL : string; IssueID : string; LinearSessionID : string;
  Priority : Z; SourceBranch : string; TargetBranch : string; EnqueuedAt : Z
}.

Definition Entry_Key (e : Entry) : Key := {| OrgID := e_OrgID e; RepoID := e_RepoID e |}.

Inductive ProcessStatus := ProcessMerged | ProcessNoop | ProcessConflict | ProcessTestFailure | ProcessError.

#[export] Instance ProcessStatus_eq_dec : EqDecision ProcessStatus.
Proof. solve_decision. Defined.

Record ProcessResult := { p_Proposal : Z; p_Status : ProcessStatus; p_Message : string }.

Record ghProposal := { gh_State : string; gh_HeadRefName : string; gh_URL : string; gh_Title : string }.

(** ** Programs *)

(** A call and the type of its answer.  An error is its message. *)
Inductive event : Type -> Type :=
| ERedis (q : request) : event (string + list reply)
| EExec (dir : string) (env : list string) (name : string) (args : list string) : event (string * option string)
| EGh (repo : string) (proposal : Z) (fields : string) : event (option ghProposal)
| EClock : event Z
| ESleep (d : Z) : event unit
| EStat (path : string) : event bool
| ERead (path : string) : event (option string)
| EWrite (path content : string) : event (option string)
| EToken : event (string + string)
| EPost (e : Entry) (r : ProcessResult) : event bool
| EStopped : event bool.

Inductive prog (A : Type) : Type :=
| Ret (a : A)
| Vis {X : Type} (e : event X) (k : X -> prog A).
Arguments Ret {A} a.
Arguments Vis {A X} e k.

Fixpoint pbind {A B} (m : prog A) (f : A -> prog B) : prog B :=
  match m with
  | Ret a => f a
  | Vis e k => Vis e (fun x => pbind (k x) f)
  end.

Definition trigger {X} (e : event X) : prog X := Vis e Ret.

(** Fallible operations: an error message or a value. *)
Definition ebind {A B} (m : prog (string + A)) (f : A -> prog (string + B)) : prog (string + B) :=
  pbind m (fun r => match r with inl err => Ret (inl err) | inr a => f a end).

Declare Scope prog_scope.
Delimit Scope prog_scope with prog.
Notation "'do!' x ':=' m 'in' k" := (pbind m (fun x => k))
  (at level 10, x pattern, m at level 100, k at level 200) : prog_scope.
Notation "'try!' x ':=' m 'in' k" := (ebind m (fun x => k))
  (at level 10, x pattern, m at level 100, k at level 200) : prog_scope.
Open Scope prog_scope.

Definition ok {A} (a : A) : prog (string + A) := Ret (inr a).
Definition fail {A} (msg : string) : prog (string + A) := Ret (inl msg).

(** [fmt.Errorf("...: %w", err)] *)
Definition wrap {A} (msg : string) (m : prog (string + A)) : prog (string + A) :=
  do! r := m in Ret (match r with inl err => inl (msg +:+ ": " +:+ err) | inr a => inr a end).

Fixpoint mapM {A B} (f : A -> prog (string + B)) (l : list A) : prog (string + list B) :=
  match l with
  | [] => ok []
  | x :: l' => try! y := f x in try! ys := mapM f l' in ok (y :: ys)
  end.

(** One Redis command: a transport failure and an error reply are both errors. *)
Definition redis (c : command) : prog (string + reply) :=
  do! a := trigger (ERedis (Single c)) in
  match a with
  | inl err => fail err
  | inr [RError err] => fail err
  | inr [r] => ok r
  | inr _ => fail "redis: unexpected reply"
  end.

Fixpoint first_error (rs : list reply) : option string :=
  match rs with
  | [] => None
  | RError e :: _ => Some e
  | _ :: rs' => first_error rs'
  end.

(** [pipe.Exec]: the replies of the transaction, or the first error among them *)
Definition redis_tx (cs : list command) : prog (string + list reply) :=
  do! a := trigger (ERedis (Tx cs)) in
  match a with
  | inl err => fail err
  | inr rs => match first_error rs with Some err => fail err | None => ok rs end
  end.

Definition redis_script (s : lua) : prog (string + reply) :=
  do! a := trigger (ERedis (Script s)) in
  match a with
  | inl err => fail err
  | inr [RError err] => fail err
  | inr [r] => ok r
  | inr _ => fail "redis: unexpected reply"
  end.

(** ** All answers: weakest preconditions over traces *)

Inductive obs := | Obs {X : Type} (e : event X) (x : X).

Fixpoint wp {A} (p : prog A) (Q : list obs -> A -> Prop) : Prop :=
  match p with
  | Ret a => Q [] a
  | Vis e k => forall x, wp (k x) (fun tr => Q (Obs e x :: tr))
  end.

Lemma wp_weaken {A} (p : prog A) : forall (P Q : list obs -> A -> Prop),
  (forall tr a, P tr a -> Q tr a) -> wp p P -> wp p Q.
Proof. induction p as [a|X e k IH]; simpl; intros P Q H Hp; [auto|]. intros x. eapply IH; [|apply Hp]. simpl. auto. Qed.

Lemma wp_pbind {A B} (p : prog A) (f : A -> prog B) : forall Q,
  wp (pbind p f) Q <-> wp p (fun tr a => wp (f a) (fun tr' => Q (tr ++ tr'))).
Proof.
  induction p as [a|X e k IH]; intros Q; simpl; [done|].
  split; intros H x; [apply (IH x (fun tr => Q (Obs e x :: tr))), H | apply (IH x (fun tr => Q (Obs e x :: tr))), H].
Qed.

Lemma wp_Ret {A} (a : A) Q : wp (Ret a) Q <-> Q [] a.
Proof. done. Qed.

Lemma wp_trigger {X} (e : event X) Q : wp (trigger e) Q <-> forall x, Q [Obs e x] x.
Proof. done. Qed.

(** Rules for the error monad: an error ends the program with the trace so far. *)
Lemma wp_ebind {A B} (m : prog (string + A)) (f : A -> prog (string + B)) Q :
  wp m (fun tr r => match r with inl err => Q tr (inl err) | inr a => wp (f a) (fun tr' => Q (tr ++ tr')) end) ->
  wp (ebind m f) Q.
Proof.
  intros H. apply wp_pbind. eapply wp_weaken; [|exact H]. intros tr [err|a]; simpl; [by rewrite app_nil_r | done].
Qed.

Lemma wp_wrap {A} msg (m : prog (string + A)) Q :
  wp m (fun tr r => Q tr (match r with inl err => inl (msg +:+ ": " +:+ err) | inr a => inr a end)) -> wp (wrap msg m) Q.
Proof. intros H. apply wp_pbind. eapply wp_weaken; [|exact H]. intros tr r. simpl. by rewrite app_nil_r. Qed.

(** A Redis command fails, or answers what the server replied. *)
Lemma wp_redis c (Q : list obs -> string + reply -> Prop) :
  (forall a err, Q [Obs (ERedis (Single c)) a] (inl err)) ->
  (forall r, Q [Obs (ERedis (Single c)) (inr [r])] (inr r)) -> wp (redis c) Q.
Proof. intros He Hr a. simpl. destruct a as [err|[|r [|r2 rs]]]; simpl; try apply He; destruct r; simpl; auto. Qed.

Lemma wp_redis_tx cs (Q : list obs -> string + list reply -> Prop) :
  (forall a err, Q [Obs (ERedis (Tx cs)) a] (inl err)) ->
  (forall rs, Q [Obs (ERedis (Tx cs)) (inr rs)] (inr rs)) -> wp (redis_tx cs) Q.
Proof. intros He Hr a. simpl. destruct a as [err|rs]; simpl; auto. destruct (first_error rs); simpl; auto. Qed.

(** ** Interleaving *)

Definition finished {A} (p : prog A) : option A := match p with Ret a => Some a | Vis _ _ => None end.

(** Run the programs one after the other. *)
Fixpoint seq_all {A} (ps : list (prog A)) : prog (list A) :=
  match ps with
  | [] => Ret []
  | p :: ps' => do! a := p in do! rest := seq_all ps' in Ret (a :: rest)
  end.

(** The schedule names the program that makes its next call; the calls left at its
    end are made in order. *)
Fixpoint par {A} (sched : list nat) (ps : list (prog A)) : prog (list A) :=
  match sched with
  | [] => seq_all ps
  | i :: sched' =>
      match ps !! i with
      | Some (Vis e k) => Vis e (fun x => par sched' (<[i := k x]> ps))
      | _ => par sched' ps
      end
  end.

(** ** Costs of interleaved programs *)

Definition zsum (l : list Z) : Z := foldr Z.add 0 l.

Lemma zsum_concat a b : zsum (a ++ b) = zsum a + zsum b.
Proof. induction a as [|x a IH]; simpl; [done|]. rewrite IH. lia. Qed.

Lemma zsum_update l i x y : l !! i = Some x -> zsum (<[i := y]> l) = zsum l - x + y.
Proof.
  revert i. induction l as [|z l IH]; intros [|i] H; simpl in *; try done; [injection H as ->; lia|].
  rewrite (IH i H). lia.
Qed.

Section Cost.
Context {A : Type} (phi : obs -> Z) (f : A -> Z).

Definition cost (tr : list obs) : Z := zsum (map phi tr).

(** The calls of a program cost at most [n], its result included. *)
Definition within (p : prog A) (n : Z) : Prop := wp p (fun tr a => f a + cost tr <= n).

Lemma within_step X (e : event X) k n x : within (Vis e k) n -> within (k x) (n - phi (Obs e x)).
Proof. intros H. eapply wp_weaken; [|exact (H x)]. unfold cost. simpl. intros tr a ?. lia. Qed.

Lemma within_seq ps : forall ns, Forall2 within ps ns -> wp (seq_all ps) (fun tr l => zsum (map f l) + cost tr <= zsum ns).
Proof.
  induction ps as [|p ps IH]; intros ns H; inversion H as [|? n ? ns' Hp Hps]; subst; simpl; [done|].
  apply wp_pbind. eapply wp_weaken; [|exact Hp]. intros tr a Ha. simpl.
  apply wp_pbind. eapply wp_weaken; [|exact (IH ns' Hps)]. intros tr' l Hl. simpl.
  unfold cost in *. rewrite !map_app, !zsum_concat. simpl. lia.
Qed.

(** Interleaved programs cost at most the sum of what each may cost. *)
Lemma within_par sched : forall ps ns, Forall2 within ps ns ->
  wp (par sched ps) (fun tr l => zsum (map f l) + cost tr <= zsum ns).
Proof.
  induction sched as [|i sched IH]; intros ps ns H; simpl; [by apply within_seq|].
  destruct (ps !! i) as [[a|X e k]|] eqn:Hi; [by apply IH | | by apply IH].
  destruct (Forall2_lookup_l _ _ _ _ _ H Hi) as (n & Hn & Hw). intros x.
  eapply wp_weaken; [|apply (IH (<[i := k x]> ps) (<[i := n - phi (Obs e x)]> ns))].
  - intros tr l. rewrite (zsum_update _ _ _ _ Hn). unfold cost. simpl. lia.
  - apply Forall2_insert; [done|]. by apply within_step.
Qed.
End Cost.

(** Every call a program can make satisfies a predicate. *)
Fixpoint all_events (P : forall X, event X -> Prop) {A} (p : prog A) : Prop :=
  match p with
  | Ret _ => True
  | Vis e k => P _ e /\ forall x, all_events P (k x)
  end.

Lemma all_events_bind (P : forall X, event X -> Prop) {A B} (p : prog A) (f : A -> prog B) :
  all_events P p -> (forall a, all_events P (f a)) -> all_events P (pbind p f).
Proof. induction p as [a|X e k IH]; simpl; [auto|]. intros [He Hk] Hf. split; [done|]. intros x. by apply IH. Qed.

Lemma all_events_seq (P : forall X, event X -> Prop) {A} (ps : list (prog A)) :
  Forall (all_events P) ps -> all_events P (seq_all ps).
Proof.
  induction 1 as [|p ps Hp Hps IH]; simpl; [done|].
  apply all_events_bind; [done|]. intros a. by apply all_events_bind.
Qed.

Lemma all_events_par (P : forall X, event X -> Prop) {A} sched : forall ps : list (prog A),
  Forall (all_events P) ps -> all_events P (par sched ps).
Proof.
  induction sched as [|i sched IH]; intros ps H; simpl; [by apply all_events_seq|].
  destruct (ps !! i) as [[a|X e k]|] eqn:Hi; [by apply IH | | by apply IH].
  pose proof (Forall_lookup_1 _ _ _ _ H Hi) as [He Hk]. split; [done|]. intros x. apply IH. by apply Forall_insert.
Qed.

Lemma all_events_ebind (P : forall X, event X -> Prop) {A B} (p : prog (string + A)) (f : A -> prog (string + B)) :
  all_events P p -> (forall a, all_events P (f a)) -> all_events P (ebind p f).
Proof. intros Hp Hf. apply all_events_bind; [done|]. by intros [err|a]. Qed.

Lemma all_events_wrap (P : forall X, event X -> Prop) {A} msg (p : prog (string + A)) : all_events P p -> all_events P (wrap msg p).
Proof. intros H. by apply all_events_bind. Qed.

Lemma all_events_redis (P : forall X, event X -> Prop) c : P _ (ERedis (Single c)) -> all_events P (redis c).
Proof. intros H. split; [done|]. intros [err|[|r [|r2 rs]]]; simpl; try done; by destruct r. Qed.

Lemma all_events_redis_tx (P : forall X, event X -> Prop) cs : P _ (ERedis (Tx cs)) -> all_events P (redis_tx cs).
Proof. intros H. split; [done|]. intros [err|rs]; simpl; [done|]. by destruct (first_error rs). Qed.

Lemma all_events_mapM (P : forall X, event X -> Prop) {A B} (f : A -> prog (string + B)) l :
  (forall x, all_events P (f x)) -> all_events P (mapM f l).
Proof.
  intros Hf. induction l as [|x l IH]; simpl; [done|].
  apply all_events_ebind; [apply Hf|]. intros y. by apply all_events_ebind.
Qed.

Create HintDb events.
#[export] Hint Resolve all_events_wrap all_events_redis all_events_redis_tx all_events_mapM : events.

(** Walk a program call by call. *)
Ltac events_step :=
  match goal with
  | |- all_events _ (ebind _ _) => apply all_events_ebind; [|intros ?]
  | |- all_events _ (pbind _ _) => apply all_events_bind; [|intros ?]
  | |- all_events _ (wrap _ _) => apply all_events_wrap
  | |- all_events _ (redis _) => apply all_events_redis
  | |- all_events _ (redis_tx _) => apply all_events_redis_tx
  | |- all_events _ (mapM _ _) => apply all_events_mapM; intros ?
  | |- all_events _ (Ret _) => exact I
  | |- all_events _ (ok _) => exact I
  | |- all_events _ (fail _) => exact I
  | |- all_events _ (trigger _) => split; [|intros ?; exact I]
  | |- all_events _ (match ?x with _ => _ end) => destruct x
  end.

(** ** Execution *)

Inductive fault := Delivered | RequestLost | ReplyLost.

(** What the other calls answer, as a function of how many calls were made. *)
Record environment := {
  env_exec : nat -> string -> list string -> string -> list string -> string * option string;
  env_gh : nat -> string -> Z -> string -> option ghProposal;
  env_clock : nat -> Z;
  env_stat : nat -> string -> bool;
  env_read : nat -> string -> option string;
  env_write : nat -> string -> string -> option string;
  env_token : nat -> string + string;
  env_post : nat -> bool;
  env_stopped : nat -> bool
}.

Section Run.
Context `{R : RedisServer} (env : environment).

(** The server, its clock in milliseconds, the delay and the fault of each request to
    come, the number of calls made and the trace. *)
Record world := { w_db : db; w_now : Z; w_faults : list (N * fault); w_step : nat; w_log : list obs }.

Definition redis_step (q : request) (w : world) : world * (string + list reply) :=
  let '(delay, f) := match w_faults w with [] => (0%N, Delivered) | x :: _ => x end in
  let now := w_now w + Z.of_N delay in
  let '(d, rs) := serve now q (w_db w) in
  let next d' := {| w_db := d'; w_now := now; w_faults := tail (w_faults w); w_step := S (w_step w); w_log := w_log w |} in
  match f with
  | Delivered => (next d, inr rs)
  | RequestLost => (next (w_db w), inl "connection refused")
  | ReplyLost => (next d, inl "i/o timeout")
  end.

Definition tick (w : world) : world :=
  {| w_db := w_db w; w_now := w_now w; w_faults := w_faults w; w_step := S (w_step w); w_log := w_log w |}.

Definition handle {X} (e : event X) (w : world) : world * X :=
  match e in event X return world * X with
  | ERedis q => redis_step q w
  | EExec dir ev name args => (tick w, env_exec env (w_step w) dir ev name args)
  | EGh repo p fields => (tick w, env_gh env (w_step w) repo p fields)
  | EClock => (tick w, env_clock env (w_step w))
  | ESleep _ => (tick w, tt)
  | EStat path => (tick w, env_stat env (w_step w) path)
  | ERead path => (tick w, env_read env (w_step w) path)
  | EWrite path content => (tick w, env_write env (w_step w) path content)
  | EToken => (tick w, env_token env (w_step w))
  | EPost _ _ => (tick w, env_post env (w_step w))
  | EStopped => (tick w, env_stopped env (w_step w))
  end.

Definition logged {X} (e : event X) (wx : world * X) : world * X :=
  let '(w, x) := wx in
  ({| w_db := w_db w; w_now := w_now w; w_faults := w_faults w; w_step := w_step w; w_log := w_log w ++ [Obs e x] |}, x).

Fixpoint run {A} (p : prog A) (w : world) : world * A :=
  match p with
  | Ret a => (w, a)
  | Vis e k => let '(w', x) := logged e (handle e w) in run (k x) w'
  end.

Lemma handle_log {X} (e : event X) w : w_log (fst (handle e w)) = w_log w.
Proof.
  destruct e; try done. simpl. unfold redis_step. destruct (match w_faults w with [] => _ | x :: _ => x end) as [dl f].
  destruct (serve _ _ _) as [d rs]. by destruct f.
Qed.

(** A run is one of the traces the weakest precondition quantifies over. *)
Lemma run_wp {A} (p : prog A) : forall w Q, wp p Q -> exists tr, w_log (fst (run p w)) = w_log w ++ tr /\ Q tr (snd (run p w)).
Proof.
  induction p as [a|X e k IH]; intros w Q H; simpl; [exists []; by rewrite app_nil_r|].
  pose proof (handle_log e w) as Hl. destruct (handle e w) as [w1 x]. simpl in *.
  destruct (IH x {| w_db := w_db w1; w_now := w_now w1; w_faults := w_faults w1; w_step := w_step w1; w_log := w_log w1 ++ [Obs e x] |} _ (H x))
    as (tr & E & HQ).
  exists (Obs e x :: tr). split; [|done]. simpl in E. rewrite E, Hl, <- app_assoc. done.
Qed.

Lemma run_bind {A B} (p : prog A) (f : A -> prog B) : forall w, run (pbind p f) w = let '(w', a) := run p w in run (f a) w'.
Proof. induction p as [a|X e k IH]; intros w; simpl; [done|]. destruct (handle e w) as [w1 x]. simpl. apply IH. Qed.

End Run.
