(* ===== verification/LandingQueue.v ===== *)
(** * LandingQueue: the Redis queue of the landing serializer ([src/landing/queue.go], [adapter_local.go])

    [RedisStorage]: the sorted set of queued proposals, the sequence counter, the
    metadata hash of each proposal and the failed and blocked reasons, with every
    operation as a program over Redis commands in the order the code sends them.
    [LocalAdapter]: eligibility, enqueueing and status on top of the storage, with
    the [gh] CLI as a call.  [ExtractIssueID] is the scan its regular expression
    describes. *)

From Stdlib Require Import Ascii String.
From stdpp Require Import gmap pretty.
From S2P Require Import Prelude GoStrings Redis Landing LandingScore LandingProg.

(** ** Issue identifiers *)

Definition is_alpha (c : ascii) : bool := is_lower c || is_upper c.
(** [\w] of the regular expression: ASCII letters, digits and the underscore *)
Definition is_word (c : ascii) : bool := is_alnum c || char_eqb c "_".

Fixpoint span (p : ascii -> bool) (s : string) : string * string :=
  match s with
  | EmptyString => (EmptyString, EmptyString)
  | String c s' => if p c then let '(a, b) := span p s' in (String c a, b) else (EmptyString, s)
  end.

Definition starts_word (s : string) : bool := match s with String c _ => is_word c | EmptyString => false end.

(** [[A-Za-z]{2,10}-\d+\b] at the start: both runs are maximal, because a letter
    cannot be the dash and a shorter run of digits ends before a word character. *)
Definition match_issue (s : string) : option (string * string) :=
  let '(letters, rest) := span is_alpha s in
  if (2 <=? String.length letters)%nat && (String.length letters <=? 10)%nat then
    match rest with
    | String "-" rest' =>
        let '(digits, rest2) := span is_digit rest' in
        if negb (str_eqb digits "") && negb (starts_word rest2) then Some (letters, digits) else None
    | _ => None
    end
  else None.

(** The leftmost match whose start is a word boundary. *)
Fixpoint find_issue (prev_word : bool) (s : string) : option (string * string) :=
  match s with
  | EmptyString => None
  | String c s' =>
      if negb prev_word && is_alpha c then
        match match_issue s with
        | Some m => Some m
        | None => find_issue (is_word c) s'
        end
      else find_issue (is_word c) s'
  end.

Definition upper (c : ascii) : ascii := if is_lower c then ascii_of_N (N_of_ascii c - 32) else c.
Fixpoint ToUpper (s : string) : string := match s with EmptyString => EmptyString | String c s' => String (upper c) (ToUpper s') end.

Definition ExtractIssueID (input : string) : string :=
  if str_eqb input "" then ""
  else match find_issue false input with
       | None => ""
       | Some (letters, digits) => ToUpper letters +:+ "-" +:+ digits
       end.

(** ** Entries and their hashes *)

(** [strconv.Atoi] with its error ignored: zero on a syntax error, the nearest
    value of the type on a range error *)
Definition Atoi_value (s : string) : Z :=
  let clamp sign body :=
    match body with
    | EmptyString => 0
    | _ => match digits_value body 0 with
           | Some n => Z.max (- 2 ^ 63) (Z.min (2 ^ 63 - 1) (sign * n))
           | None => 0
           end
    end in
  match s with
  | String "+" body => clamp 1 body
  | String "-" body => clamp (-1) body
  | _ => clamp 1 s
  end.

Definition entryFields (e : Entry) : list (string * string) :=
  [ ("proposalUrl", ProposalURL e); ("issueId", IssueID e); ("linearSessionId", LinearSessionID e);
    ("priority", pretty (Priority e)); ("sourceBranch", SourceBranch e); ("targetBranch", TargetBranch e);
    ("enqueuedAt", pretty (i64 (EnqueuedAt e))) ].

Definition hget (h : gmap string string) (f : string) : string := default "" (h !! f).

Definition entryFromHash (key : Key) (proposal : Z) (h : gmap string string) : Entry :=
  {| e_OrgID := OrgID key; e_RepoID := RepoID key; e_Proposal := proposal;
     ProposalURL := hget h "proposalUrl"; IssueID := hget h "issueId"; LinearSessionID := hget h "linearSessionId";
     Priority := Atoi_value (hget h "priority");
     SourceBranch := hget h "sourceBranch"; TargetBranch := hget h "targetBranch";
     EnqueuedAt := match Atoi (hget h "enqueuedAt") with Some ns => ns | None => zeroTime end |}.

Definition with_EnqueuedAt (e : Entry) (t : Z) : Entry :=
  {| e_OrgID := e_OrgID e; e_RepoID := e_RepoID e; e_Proposal := e_Proposal e; ProposalURL := ProposalURL e;
     IssueID := IssueID e; LinearSessionID := LinearSessionID e; Priority := Priority e;
     SourceBranch := SourceBranch e; TargetBranch := TargetBranch e; EnqueuedAt := t |}.

(** ** [RedisStorage] *)

Definition validateKey (key : Key) : prog (string + unit) :=
  if Valid key then ok tt else fail "landing: invalid key: both required".

(** An integer reply. *)
Definition redis_int (c : command) : prog (string + Z) :=
  try! r := redis c in
  match r with RInt n => ok n | _ => fail "redis: unexpected reply" end.

Definition loadEntry (key : Key) (proposal : Z) : prog (string + Entry) :=
  try! r := wrap ("RedisStorage.loadEntry hgetall " +:+ entryKey key proposal) (redis (HGETALL (entryKey key proposal))) in
  match r with RMap h => ok (entryFromHash key proposal h) | _ => fail "redis: unexpected reply" end.

(** From the sequence number on. *)
Definition enqueue_stamped (key : Key) (e : Entry) : prog (string + unit) :=
  let member := pretty (e_Proposal e) in
  try! seq := wrap ("RedisStorage.Enqueue incr seq " +:+ seqKey key) (redis_int (INCR (seqKey key))) in
  try! added := wrap ("RedisStorage.Enqueue zadd " +:+ queueKey key)
                  (redis_int (ZADDNX (queueKey key) (encodeScore (Priority e) seq) member)) in
  if added =? 0 then ok tt
  else
    try! _ := wrap ("RedisStorage.Enqueue hset " +:+ entryKey key (e_Proposal e))
                (redis (HSET (entryKey key (e_Proposal e)) (entryFields e))) in
    ok tt.

Definition Enqueue (e : Entry) : prog (string + unit) :=
  let key := Entry_Key e in
  try! _ := validateKey key in
  do! e := (if EnqueuedAt e =? zeroTime then do! now := trigger EClock in Ret (with_EnqueuedAt e now) else Ret e) in
  enqueue_stamped key e.

Definition Dequeue (key : Key) : prog (string + option Entry) :=
  try! _ := validateKey key in
  try! popped := wrap ("RedisStorage.Dequeue zpopmin " +:+ queueKey key) (redis (ZPOPMIN (queueKey key))) in
  match popped with
  | RScored [] => ok None
  | RScored ((member, _) :: _) =>
      match Atoi member with
      | None => fail ("RedisStorage.Dequeue parse member " +:+ member)
      | Some proposal =>
          try! entry := loadEntry key proposal in
          try! _ := wrap ("RedisStorage.Dequeue del entry " +:+ entryKey key proposal) (redis (DEL (entryKey key proposal))) in
          ok (Some entry)
      end
  | _ => fail "redis: unexpected reply"
  end.

Definition PeekAll (key : Key) : prog (string + list Entry) :=
  try! _ := validateKey key in
  try! r := wrap ("RedisStorage.PeekAll zrange " +:+ queueKey key) (redis (ZRANGE (queueKey key))) in
  match r with
  | RList members =>
      mapM (fun m => match Atoi m with
                     | None => fail ("RedisStorage.PeekAll parse member " +:+ m)
                     | Some proposal => loadEntry key proposal
                     end) members
  | _ => fail "redis: unexpected reply"
  end.

(** The [ZREM] and the [DEL] queued for each proposal. *)
Definition claim_commands (key : Key) (proposals : list Z) : list command :=
  concat (map (fun p => [ZREM (queueKey key) (pretty p); DEL (entryKey key p)]) proposals).

(** [remCmds]: the command of a proposal, the last one where it was queued twice. *)
Fixpoint remCmds (proposals : list Z) (rs : list reply) (m : gmap Z reply) : gmap Z reply :=
  match proposals, rs with
  | p :: ps, r :: _ :: rs' => remCmds ps rs' (<[p := r]> m)
  | _, _ => m
  end.

Fixpoint claimed (proposals : list Z) (loaded : gmap Z Entry) (cmds : gmap Z reply) : string + list Entry :=
  match proposals with
  | [] => inr []
  | p :: ps =>
      match cmds !! p, loaded !! p with
      | Some (RInt removed), Some entry =>
          match claimed ps loaded cmds with
          | inl err => inl err
          | inr out => inr (if removed =? 1 then entry :: out else out)
          end
      | _, _ => inl ("RedisStorage.DequeueBatch zrem " +:+ pretty p)
      end
  end.

Definition DequeueBatch (key : Key) (proposals : list Z) : prog (string + list Entry) :=
  try! _ := validateKey key in
  match proposals with
  | [] => ok []
  | _ =>
      try! entries := mapM (loadEntry key) proposals in
      let loaded := fold_left (fun m pe => <[fst pe := snd pe]> m) (combine proposals entries) (∅ : gmap Z Entry) in
      try! rs := wrap "RedisStorage.DequeueBatch exec" (redis_tx (claim_commands key proposals)) in
      Ret (claimed proposals loaded (remCmds proposals rs ∅))
  end.

Definition QueueDepth (key : Key) : prog (string + Z) :=
  try! _ := validateKey key in
  wrap ("RedisStorage.QueueDepth zcard " +:+ queueKey key) (redis_int (ZCARD (queueKey key))).

Definition IsEnqueued (key : Key) (proposal : Z) : prog (string + bool) :=
  try! _ := validateKey key in
  try! r := wrap ("RedisStorage.IsEnqueued zscore " +:+ queueKey key) (redis (ZSCORE (queueKey key) (pretty proposal))) in
  match r with RNil => ok false | _ => ok true end.

Definition Position (key : Key) (proposal : Z) : prog (string + Z) :=
  try! _ := validateKey key in
  try! r := wrap ("RedisStorage.Position zrank " +:+ queueKey key) (redis (ZRANK (queueKey key) (pretty proposal))) in
  match r with RNil => ok 0 | RInt rank => ok (rank + 1) | _ => fail "redis: unexpected reply" end.

(** Clearing a proposal from the queue: the start of every transaction below. *)
Definition clear_commands (key : Key) (proposal : Z) : list command :=
  [ZREM (queueKey key) (pretty proposal); DEL (entryKey key proposal)].

Definition RedisStorage_Remove (key : Key) (proposal : Z) : prog (string + unit) :=
  try! _ := validateKey key in
  try! _ := wrap "RedisStorage.Remove exec" (redis_tx (clear_commands key proposal)) in
  ok tt.

Definition MarkCompleted (key : Key) (proposal : Z) : prog (string + unit) :=
  try! _ := validateKey key in
  try! _ := wrap "RedisStorage.MarkCompleted exec"
              (redis_tx (clear_commands key proposal ++ [DEL (failedKey key proposal); DEL (blockedKey key proposal)])) in
  ok tt.

(** Milliseconds: [DefaultReasonTTL] is 24 hours. *)
Definition DefaultReasonTTL : Z := 24 * 3600 * 1000.

Definition reasonExpiry (reasonTTL : Z) : Z := if 0 <? reasonTTL then reasonTTL else DefaultReasonTTL.

Definition MarkFailed (reasonTTL : Z) (key : Key) (proposal : Z) (reason : string) : prog (string + unit) :=
  try! _ := validateKey key in
  try! _ := wrap "RedisStorage.MarkFailed exec"
              (redis_tx (clear_commands key proposal ++ [SET (failedKey key proposal) reason (Some (reasonExpiry reasonTTL))])) in
  ok tt.

Definition MarkBlocked (reasonTTL : Z) (key : Key) (proposal : Z) (reason : string) : prog (string + unit) :=
  try! _ := validateKey key in
  try! _ := wrap "RedisStorage.MarkBlocked exec"
              (redis_tx (clear_commands key proposal ++ [SET (blockedKey key proposal) reason (Some (reasonExpiry reasonTTL))])) in
  ok tt.

(** A string value, or the empty string when there is none. *)
Definition get_reason (what k : string) : prog (string + string) :=
  try! r := wrap (what +:+ " get " +:+ k) (redis (GET k)) in
  match r with RNil => ok "" | RBulk s => ok s | _ => fail "redis: unexpected reply" end.

Definition FailedReason (key : Key) (proposal : Z) : prog (string + string) :=
  try! _ := validateKey key in get_reason "RedisStorage.FailedReason" (failedKey key proposal).

Definition BlockedReason (key : Key) (proposal : Z) : prog (string + string) :=
  try! _ := validateKey key in get_reason "RedisStorage.BlockedReason" (blockedKey key proposal).

(** ** [LocalAdapter] *)

Inductive State := StateQueued | StateMerging | StateMerged | StateFailed | StateBlocked | StateNotQueued.
Record CheckStatus := { cs_Name : string; cs_Status : string }.
Record Status := { st_State : State; st_Position : Z; st_FailureReason : string; st_Checks : list CheckStatus }.

Definition adapter_key (orgID owner repo : string) : Key := {| OrgID := orgID; RepoID := owner +:+ "/" +:+ repo |}.

Definition defaultPriority : Z := 3.

(** [strings.EqualFold] against an ASCII word without [K] and [S], the letters that
    fold with other runes *)
Definition EqualFold (a b : string) : bool := str_eqb (ToUpper a) (ToUpper b).

Definition viewProposal (owner repo : string) (proposal : Z) (fields : string) : prog (option ghProposal) :=
  trigger (EGh (owner +:+ "/" +:+ repo) proposal fields).

Definition CanEnqueue (owner repo : string) (proposal : Z) : prog bool :=
  do! pr := viewProposal owner repo proposal "state,headRefName" in
  Ret (match pr with Some pr => EqualFold (gh_State pr) "OPEN" | None => false end).

Definition GetStatus (orgID owner repo : string) (proposal : Z) : prog (string + Status) :=
  let key := adapter_key orgID owner repo in
  try! _ := validateKey key in
  try! pos := wrap "LocalAdapter.GetStatus position" (Position key proposal) in
  if 0 <? pos then
    ok {| st_State := if pos =? 1 then StateMerging else StateQueued; st_Position := pos; st_FailureReason := ""; st_Checks := [] |}
  else
    try! failed := wrap "LocalAdapter.GetStatus failed-reason" (FailedReason key proposal) in
    if negb (str_eqb failed "") then ok {| st_State := StateFailed; st_Position := 0; st_FailureReason := failed; st_Checks := [] |}
    else
      try! blocked := wrap "LocalAdapter.GetStatus blocked-reason" (BlockedReason key proposal) in
      if negb (str_eqb blocked "") then ok {| st_State := StateBlocked; st_Position := 0; st_FailureReason := blocked; st_Checks := [] |}
      else
        do! pr := viewProposal owner repo proposal "state" in
        ok {| st_State := match pr with
                          | Some pr => if EqualFold (gh_State pr) "MERGED" then StateMerged else StateNotQueued
                          | None => StateNotQueued
                          end; st_Position := 0; st_FailureReason := ""; st_Checks := [] |}.

Definition or_else (a b : string) : string := if str_eqb a "" then b else a.

(** The entry the adapter enqueues, from what [gh] said. *)
Definition adapter_entry (orgID owner repo : string) (proposal now : Z) (pr : option ghProposal) : Entry :=
  let sourceBranch := match pr with Some pr => or_else (gh_HeadRefName pr) ("pr-" +:+ pretty proposal) | None => "pr-" +:+ pretty proposal end in
  let url := "https://github.com/" +:+ owner +:+ "/" +:+ repo +:+ "/pull/" +:+ pretty proposal in
  let title := match pr with Some pr => gh_Title pr | None => "" end in
  {| e_OrgID := orgID; e_RepoID := owner +:+ "/" +:+ repo; e_Proposal := proposal;
     ProposalURL := match pr with Some pr => or_else (gh_URL pr) url | None => url end;
     IssueID := or_else (or_else (ExtractIssueID sourceBranch) (ExtractIssueID title)) ("PR-" +:+ pretty proposal);
     LinearSessionID := ""; Priority := defaultPriority; SourceBranch := sourceBranch; TargetBranch := "main";
     EnqueuedAt := now |}.

Definition adapter_Enqueue (orgID owner repo : string) (proposal : Z) : prog (string + Status) :=
  let key := adapter_key orgID owner repo in
  try! _ := validateKey key in
  try! already := wrap "LocalAdapter.Enqueue is-enqueued" (IsEnqueued key proposal) in
  if already : bool then GetStatus orgID owner repo proposal
  else
    do! pr := viewProposal owner repo proposal "headRefName,url,title" in
    do! now := trigger EClock in
    try! _ := wrap "LocalAdapter.Enqueue" (Enqueue (adapter_entry orgID owner repo proposal now pr)) in
    GetStatus orgID owner repo proposal.

Definition adapter_Dequeue (orgID owner repo : string) (proposal : Z) : prog (string + unit) :=
  let key := adapter_key orgID owner repo in
  try! _ := validateKey key in
  wrap "LocalAdapter.Dequeue" (RedisStorage_Remove key proposal).
