(* ===== verification/LandingDispatch.v ===== *)
(** * LandingDispatch: no proposal is handed out twice

    Any number of coordinators and producers, any interleaving of their Redis
    requests, any transport failures: a proposal is handed out by [Dequeue] and
    [DequeueBatch] at most once for each time it was enqueued.  The argument is a
    potential: what the server removed from the sorted set plus what is still in it
    never exceeds what was added. *)

From Stdlib Require Import Ascii String.
From stdpp Require Import gmap pretty.
From S2P Require Import Prelude GoStrings Redis Landing LandingScore LandingProg LandingQueue.

(** ** Operations as data *)

Inductive op :=
| OpEnqueue (e : Entry)
| OpDequeue
| OpPeekAll
| OpDequeueBatch (proposals : list Z)
| OpQueueDepth
| OpIsEnqueued (proposal : Z)
| OpPosition (proposal : Z)
| OpRemove (proposal : Z)
| OpMarkCompleted (proposal : Z)
| OpMarkFailed (proposal : Z) (reason : string)
| OpMarkBlocked (proposal : Z) (reason : string)
| OpFailedReason (proposal : Z)
| OpBlockedReason (proposal : Z).

Inductive out := OutUnit | OutEntry (e : option Entry) | OutEntries (l : list Entry) | OutNum (n : Z) | OutBool (b : bool) | OutStr (s : string).

Definition omap {A} (f : A -> out) (m : prog (string + A)) : prog (string + out) :=
  do! r := m in Ret (match r with inl err => inl err | inr a => inr (f a) end).

(** An entry is enqueued under its own key. *)
Definition op_run (ttl : Z) (key : Key) (o : op) : prog (string + out) :=
  match o with
  | OpEnqueue e => omap (fun _ => OutUnit) (Enqueue e)
  | OpDequeue => omap OutEntry (Dequeue key)
  | OpPeekAll => omap OutEntries (PeekAll key)
  | OpDequeueBatch ps => omap OutEntries (DequeueBatch key ps)
  | OpQueueDepth => omap OutNum (QueueDepth key)
  | OpIsEnqueued p => omap OutBool (IsEnqueued key p)
  | OpPosition p => omap OutNum (Position key p)
  | OpRemove p => omap (fun _ => OutUnit) (RedisStorage_Remove key p)
  | OpMarkCompleted p => omap (fun _ => OutUnit) (MarkCompleted key p)
  | OpMarkFailed p r => omap (fun _ => OutUnit) (MarkFailed ttl key p r)
  | OpMarkBlocked p r => omap (fun _ => OutUnit) (MarkBlocked ttl key p r)
  | OpFailedReason p => omap OutStr (FailedReason key p)
  | OpBlockedReason p => omap OutStr (BlockedReason key p)
  end.

(** Down to the calls. *)
Ltac unfold_storage :=
  unfold op_run, omap, Enqueue, enqueue_stamped, Dequeue, PeekAll, DequeueBatch, QueueDepth,
    IsEnqueued, Position, RedisStorage_Remove, MarkCompleted, MarkFailed, MarkBlocked, FailedReason, BlockedReason, get_reason, loadEntry, validateKey, redis_int.

(** The proposals an operation hands to its caller. *)
Definition handed (o : op) (r : string + out) : list Z :=
  match o, r with
  | OpDequeue, inr (OutEntry (Some e)) => [e_Proposal e]
  | OpDequeueBatch _, inr (OutEntries l) => map e_Proposal l
  | _, _ => []
  end.

(** A client: its operations in order, whatever they return; the proposals it was
    handed. *)
Fixpoint client (ttl : Z) (key : Key) (ops : list op) : prog (list Z) :=
  match ops with
  | [] => Ret []
  | o :: ops' => do! r := op_run ttl key o in do! rest := client ttl key ops' in Ret (handed o r ++ rest)
  end.

Definition enqueues (x : Z) (o : op) : nat := match o with OpEnqueue e => if decide (e_Proposal e = x) then 1%nat else 0%nat | _ => 0%nat end.

Definition occ (x : Z) (l : list Z) : nat := count_occ Z.eq_dec l x.

(** ** The potential of the sorted set *)

Section Potential.
Context (qk : string) (x : Z).
Local Open Scope nat_scope.

(** The members that name the proposal, as the code reads them. *)
Definition names (m : string) : Prop := Atoi m = Some x.

#[local] Instance names_dec m : Decision (names m).
Proof. unfold names. apply _. Defined.

Definition inz (z : gmap string Z) : nat := size (filter (fun mz => names (fst mz)) z).

Definition has_member (o : option rentry) : nat :=
  match o with Some {| r_value := RZset z |} => inz z | _ => 0 end.

(** Requests that may add the proposal. *)
Definition cmd_adds (c : command) : nat :=
  match c with ZADDNX k _ m' => if decide (k = qk /\ names m') then 1 else 0 | _ => 0 end.

(** Replies that hand the proposal to the caller. *)
Definition cmd_claims (c : command) (r : reply) : nat :=
  match c, r with
  | ZREM k m', RInt n => if decide (k = qk /\ names m' /\ n = 1%Z) then 1 else 0
  | ZPOPMIN k, RScored ((m', _) :: _) => if decide (k = qk /\ names m') then 1 else 0
  | _, _ => 0
  end.

Fixpoint tx_claims (cs : list command) (rs : list reply) : nat :=
  match cs, rs with
  | c :: cs', r :: rs' => cmd_claims c r + tx_claims cs' rs'
  | _, _ => 0
  end.

Definition tx_adds (cs : list command) : nat := list_sum (map cmd_adds cs).

(** A script that never adds the proposal. *)
Fixpoint lua_silent (s : lua) : Prop :=
  match s with LReturn _ => True | LCall c k => cmd_adds c = 0%nat /\ forall r, lua_silent (k r) end.

Definition req_adds (q : request) : nat :=
  match q with Single c => cmd_adds c | Tx cs => tx_adds cs | Script _ => 0 end.

Definition req_claims (q : request) (rs : list reply) : nat :=
  match q with Single c => tx_claims [c] rs | Tx cs => tx_claims cs rs | Script _ => 0 end.

Definition req_silent (q : request) : Prop := match q with Script s => lua_silent s | _ => True end.

Definition event_silent (X : Type) (e : event X) : Prop := match e with ERedis q => req_silent q | _ => True end.

Definition obs_adds (o : obs) : nat :=
  match o with Obs e x => match e with ERedis q => req_adds q | _ => 0 end end.

Definition obs_claims (o : obs) : nat :=
  match o with
  | Obs e x => match e in event X return X -> nat with
               | ERedis q => fun a => match a with inr rs => req_claims q rs | inl _ => 0 end
               | _ => fun _ => 0
               end x
  end.

Definition adds (tr : list obs) : nat := list_sum (map obs_adds tr).
Definition claims (tr : list obs) : nat := list_sum (map obs_claims tr).

Lemma has_member_alive now o : (has_member (alive now o) <= has_member o)%nat.
Proof. destruct o as [[v [t|]]|]; simpl; try lia. destruct (t <=? now)%Z; simpl; lia. Qed.

Lemma inz_empty : inz ∅ = 0.
Proof. unfold inz. by rewrite map_filter_empty, map_size_empty. Qed.

Lemma has_member_zentry z ex : has_member (zentry z ex) = inz z.
Proof. unfold zentry. case_bool_decide as E; [subst; by rewrite inz_empty | done]. Qed.

Lemma inz_delete z m sc : z !! m = Some sc -> inz z = inz (delete m z) + (if decide (names m) then 1 else 0).
Proof.
  intros Hz. unfold inz. rewrite map_filter_delete. case_decide as E.
  - rewrite map_size_delete, (proj2 (map_lookup_filter_Some _ _ _ _) (conj Hz E)).
    assert (size (filter (fun mz => names mz.1) z) <> 0); [|lia].
    intros H0. apply map_size_empty_inv in H0. assert (filter (fun mz => names mz.1) z !! m = Some sc) as H by (by apply map_lookup_filter_Some).
    by rewrite H0, lookup_empty in H.
  - rewrite delete_id; [lia|]. apply map_lookup_filter_None. right. intros sc' _. done.
Qed.

Lemma inz_insert z m sc : z !! m = None -> inz (<[m := sc]> z) = inz z + (if decide (names m) then 1 else 0).
Proof.
  intros Hz. rewrite (inz_delete (<[m := sc]> z) m sc) by apply lookup_insert_eq. by rewrite delete_insert_id.
Qed.

Lemma on_zset_potential o f (cl : reply -> nat) a :
  cl wrongtype = 0 -> (forall z, cl (snd (f z)) + inz (fst (f z)) <= inz z + a) ->
  cl (snd (on_zset o f)) + has_member (fst (on_zset o f)) <= has_member o + a.
Proof.
  intros Hw Hf. destruct o as [[[s|h|z] ex]|]; simpl; rewrite ?Hw; try lia.
  - specialize (Hf z). destruct (f z) as [z' r]. simpl in *. rewrite has_member_zentry. lia.
  - specialize (Hf ∅). destruct (f ∅) as [z' r]. simpl in *. rewrite has_member_zentry. rewrite inz_empty in Hf. lia.
Qed.

(** One command: what it hands out was there or is being added. *)
Lemma cmd_spec_potential now c o :
  ckey c = qk ->
  cmd_claims c (snd (cmd_spec now c o)) + has_member (fst (cmd_spec now c o)) <= has_member o + cmd_adds c.
Proof.
  intros Hk. destruct c; simpl in Hk; subst k; cbn [cmd_spec cmd_adds].
  all: try (apply (on_zset_potential o _ (cmd_claims _)); [done|]; intros z).
  - simpl. repeat case_match; simplify_eq/=; lia.
  - destruct (z !! member) as [?|] eqn:E; simpl; [case_decide; lia|]. rewrite inz_insert by done.
    repeat case_decide; try lia; naive_solver.
  - destruct (zsorted z) as [|[m' sc] l] eqn:E; simpl; [lia|].
    assert (z !! m' = Some sc) as Hz by (apply zsorted_elem; rewrite E; left).
    rewrite (inz_delete z m' sc Hz). repeat case_decide; try lia; naive_solver.
  - simpl. lia.
  - destruct (z !! member) as [sc|] eqn:E; simpl; [rewrite (inz_delete z member sc E)|]; repeat case_decide; try lia; naive_solver.
  - simpl. lia.
  - simpl. lia.
  - simpl. lia.
  - simpl. repeat case_match; simplify_eq/=; lia.
  - simpl. repeat case_match; simplify_eq/=; lia.
  - simpl. lia.
  - simpl. repeat case_match; simplify_eq/=; lia.
  - simpl. lia.
  - simpl. repeat case_match; simplify_eq/=; lia.
  - destruct o as [e|]; [|simpl; lia]. cbn [fst snd cmd_claims].
    pose proof (has_member_alive now (Some {| r_value := r_value e; r_expires := Some (now + ms)%Z |})) as H.
    destruct e. simpl in *. lia.
Qed.

Lemma cmd_other c r : ckey c <> qk -> cmd_claims c r = 0 /\ cmd_adds c = 0.
Proof.
  destruct c; simpl; intros Hk; (split; [|try done]); try done; repeat case_match; try done; simplify_eq/=;
    try (rewrite decide_False in * by naive_solver); try done; naive_solver.
Qed.

Section Server.
Context `{R : RedisServer}.

Definition queued (now : Z) (d : db) : nat := has_member (look now d qk).

Lemma queued_later now now' d : (now <= now')%Z -> queued now' d <= queued now d.
Proof. intros H. unfold queued. rewrite (look_later now now') by done. apply has_member_alive. Qed.

Lemma run_cmd_potential now c d :
  cmd_claims c (snd (run_cmd now c d)) + queued now (fst (run_cmd now c d)) <= queued now d + cmd_adds c.
Proof.
  unfold queued. destruct (decide (ckey c = qk)) as [E|E].
  - rewrite run_reply, <- E, run_key. pose proof (cmd_spec_potential now c (look now d (ckey c)) E) as H.
    pose proof (has_member_alive now (fst (cmd_spec now c (look now d (ckey c))))). lia.
  - rewrite run_other by done. destruct (cmd_other c (snd (run_cmd now c d)) E) as [-> ->]. lia.
Qed.

Lemma serve_tx_potential now cs : forall d,
  tx_claims cs (snd (serve_tx now cs d)) + queued now (fst (serve_tx now cs d)) <= queued now d + tx_adds cs.
Proof.
  induction cs as [|c cs IH]; intros d; simpl; [lia|].
  pose proof (run_cmd_potential now c d) as Hc. destruct (run_cmd now c d) as [d1 r].
  specialize (IH d1). destruct (serve_tx now cs d1) as [d2 rs]. simpl in *. unfold tx_adds in *. simpl. lia.
Qed.

Lemma serve_lua_potential now s : forall d, lua_silent s -> queued now (fst (serve_lua now s d)) <= queued now d.
Proof.
  induction s as [r|c k IH]; intros d H; simpl; [lia|]. destruct H as [Hc Hk].
  pose proof (run_cmd_potential now c d) as Hp. destruct (run_cmd now c d) as [d1 r]. simpl in *.
  assert (queued now d1 <= queued now d) by lia. pose proof (IH r d1 (Hk r)). destruct r; simpl; lia.
Qed.

Lemma serve_potential now q d :
  req_silent q -> req_claims q (snd (serve now q d)) + queued now (fst (serve now q d)) <= queued now d + req_adds q.
Proof.
  destruct q as [c|cs|s]; simpl; intros H.
  - pose proof (run_cmd_potential now c d) as Hc. destruct (run_cmd now c d) as [d1 r]. simpl in *. lia.
  - apply serve_tx_potential.
  - pose proof (serve_lua_potential now s d H). destruct (serve_lua now s d) as [d1 r]. simpl in *. lia.
Qed.

Lemma handle_potential env X (e : event X) w :
  event_silent X e ->
  obs_claims (Obs e (snd (handle env e w))) + queued (w_now (fst (handle env e w))) (w_db (fst (handle env e w)))
  <= queued (w_now w) (w_db w) + obs_adds (Obs e (snd (handle env e w))).
Proof.
  destruct e; simpl; intros He; try lia.
  unfold redis_step. destruct (match w_faults w with [] => _ | x :: _ => x end) as [dl f].
  set (now := (w_now w + Z.of_N dl)%Z). pose proof (queued_later (w_now w) now (w_db w) ltac:(lia)) as Hl.
  pose proof (serve_potential now q (w_db w) He) as Hs. destruct (serve now q (w_db w)) as [d rs].
  destruct f; simpl in *; lia.
Qed.

(** What the trace claims and what stays queued was queued or added. *)
Lemma run_potential env {A} (p : prog A) : forall w, all_events event_silent p ->
  exists tr, w_log (fst (run env p w)) = w_log w ++ tr /\
    claims tr + queued (w_now (fst (run env p w))) (w_db (fst (run env p w))) <= queued (w_now w) (w_db w) + adds tr.
Proof.
  induction p as [a|X e k IH]; intros w H; simpl; [exists []; rewrite app_nil_r; split; [done | simpl; lia]|].
  destruct H as [He Hk]. pose proof (handle_log env e w) as Hl. pose proof (handle_potential env X e w He) as Hp.
  destruct (handle env e w) as [w1 y]. simpl in *.
  destruct (IH y {| w_db := w_db w1; w_now := w_now w1; w_faults := w_faults w1; w_step := w_step w1; w_log := w_log w1 ++ [Obs e y] |} (Hk y))
    as (tr & E & HQ).
  exists (Obs e y :: tr). split; [simpl in E; by rewrite E, Hl, <- app_assoc|].
  unfold claims, adds in *. simpl in *. lia.
Qed.

End Server.
End Potential.

(** ** Each operation, for every answer *)

Section Ops.
Context (qk : string) (x : Z).

Definition no_adds (X : Type) (e : event X) : Prop := match e with ERedis q => req_adds qk x q = 0%nat | _ => True end.

Lemma no_adds_wp {A} (p : prog A) : all_events no_adds p -> wp p (fun tr _ => adds qk x tr = 0%nat).
Proof.
  induction p as [a|X e k IH]; simpl; [done|]. intros [He Hk] y. eapply wp_weaken; [|exact (IH y (Hk y))].
  intros tr a H. unfold adds in *. simpl. rewrite H. by destruct e; simpl in *; rewrite ?He.
Qed.

Lemma tx_adds_claim key ps : tx_adds qk x (claim_commands key ps) = 0%nat.
Proof. induction ps as [|p ps IH]; [done|]. unfold tx_adds, claim_commands in *. simpl. done. Qed.

Lemma op_silent ttl key o : all_events (event_silent qk x) (op_run ttl key o).
Proof. destruct o; unfold_storage; repeat events_step; done. Qed.

Lemma op_no_adds ttl key o : (forall e, o <> OpEnqueue e) -> all_events no_adds (op_run ttl key o).
Proof. intros Ho. destruct o; try (by destruct (Ho e)); unfold_storage; repeat events_step; try done; apply tx_adds_claim. Qed.

Lemma adds_app a b : adds qk x (a ++ b) = (adds qk x a + adds qk x b)%nat.
Proof. unfold adds. by rewrite map_app, list_sum_app. Qed.
Lemma claims_app a b : claims qk x (a ++ b) = (claims qk x a + claims qk x b)%nat.
Proof. unfold claims. by rewrite map_app, list_sum_app. Qed.

(** A program with no adds before one that has at most [n]. *)
Lemma adds_ebind {A B} (p : prog (string + A)) (f : A -> prog (string + B)) (n : nat) :
  all_events no_adds p -> (forall a, wp (f a) (fun tr _ => (adds qk x tr <= n)%nat)) -> wp (ebind p f) (fun tr _ => (adds qk x tr <= n)%nat).
Proof.
  intros Hp Hf. apply wp_ebind. eapply wp_weaken; [|exact (no_adds_wp p Hp)]. intros tr [err|a] H; [lia|].
  eapply wp_weaken; [|exact (Hf a)]. intros tr' r Hr. cbv beta in *. rewrite adds_app. lia.
Qed.

Lemma redis_int_adds c : wp (redis_int c) (fun tr _ => (adds qk x tr <= cmd_adds qk x c)%nat).
Proof.
  apply wp_ebind, wp_redis; [intros; unfold adds; simpl; lia|].
  intros r. destruct r; simpl; unfold adds; simpl; lia.
Qed.

Lemma Enqueue_adds e : wp (Enqueue e) (fun tr _ => (adds qk x tr <= enqueues x (OpEnqueue e))%nat).
Proof.
  assert (Hs : forall e', e_Proposal e' = e_Proposal e -> wp (enqueue_stamped (Entry_Key e) e') (fun tr _ => (adds qk x tr <= enqueues x (OpEnqueue e))%nat)).
  { intros e' He. apply adds_ebind; [unfold redis_int; repeat events_step; done|]. intros seq.
    apply wp_ebind, wp_wrap. eapply wp_weaken; [|apply redis_int_adds]. intros tr r Hr. rewrite He in Hr.
    assert (Hb : (adds qk x tr <= enqueues x (OpEnqueue e))%nat).
    { simpl in *. destruct (decide (_ /\ _)) as [[_ Hm]|]; [|lia]. unfold names in Hm. rewrite Atoi_pretty in Hm.
      case_match; [|done]. injection Hm as ->. rewrite decide_True by done. lia. }
    destruct r as [err|added]; [done|]. eapply wp_weaken; [|apply no_adds_wp; repeat events_step; done].
    intros tr' r' H0. cbv beta in *. rewrite adds_app. lia. }
  apply adds_ebind; [unfold validateKey; repeat events_step|]. intros _.
  destruct (EnqueuedAt e =? zeroTime); [|by apply Hs]. intros now. by apply Hs.
Qed.

(** ** What is handed out was claimed *)

Lemma wp_any {A} (p : prog A) : forall Q : list obs -> A -> Prop, (forall tr a, Q tr a) -> wp p Q.
Proof. induction p as [a|X e k IH]; simpl; intros Q H; [done|]. intros y. apply IH. auto. Qed.

Lemma remCmds_notin ps : forall rs mp p, p ∉ ps -> remCmds ps rs mp !! p = mp !! p.
Proof.
  induction ps as [|q ps IH]; intros rs mp p Hp; [by destruct rs|]. apply not_elem_of_cons in Hp as [Hq Hp].
  destruct rs as [|r [|r2 rs]]; simpl; try done. rewrite IH by done. by rewrite lookup_insert_ne.
Qed.

Definition int64 (p : Z) : Prop := - 2 ^ 63 <= p < 2 ^ 63.

Lemma names_pretty p : int64 p -> (names x (pretty p) <-> p = x).
Proof.
  intros Hp. unfold names. rewrite Atoi_pretty. destruct ((- 2 ^ 63 <=? p) && (p <? 2 ^ 63)) eqn:E; [naive_solver|].
  apply andb_false_iff in E as [E|E]; unfold int64 in Hp; lia.
Qed.

(** Every entry a batch returns has its own [ZREM] that removed it. *)
Lemma claimed_count key loaded ps : qk = queueKey key ->
  forall rs mp out, NoDup ps -> Forall int64 ps -> (forall p, p ∈ ps -> mp !! p = None) ->
  (forall p e, loaded !! p = Some e -> e_Proposal e = p) ->
  claimed ps loaded (remCmds ps rs mp) = inr out ->
  (occ x (map e_Proposal out) <= tx_claims qk x (claim_commands key ps) rs)%nat.
Proof.
  intros ->. induction ps as [|p ps IH]; intros rs mp out Hnd Hi Hm Hl H; simpl in H; [injection H as <-; simpl; lia|].
  inversion Hnd as [|?? Hp Hnd']; inversion Hi as [|?? Hip Hi']; subst.
  destruct rs as [|r [|r2 rs]]; simpl in H; try (rewrite Hm in H by left; done).
  rewrite remCmds_notin, lookup_insert_eq in H by done.
  destruct r as [n| | | | | | |]; try done. destruct (loaded !! p) as [e|] eqn:He; [|done].
  destruct (claimed ps loaded (remCmds ps rs (<[p:=RInt n]> mp))) as [err|out'] eqn:Hc; [done|].
  assert (Hle : (occ x (map e_Proposal out') <= tx_claims (queueKey key) x (claim_commands key ps) rs)%nat).
  { eapply IH; [done..| |done|exact Hc]. intros q Hq. rewrite lookup_insert_ne by (intros ->; done). apply Hm. by right. }
  cbn [claim_commands map concat app tx_claims]. fold (claim_commands key ps). change (cmd_claims _ _ (DEL _) r2) with 0%nat.
  injection H as <-. destruct (Z.eqb_spec n 1) as [->|]; [|lia].
  cbn [map]. unfold occ in *. cbn [count_occ]. rewrite (Hl p e He). destruct (Z.eq_dec p x) as [->|Hpx]; [|lia].
  cbn [cmd_claims]. rewrite decide_True; [lia|]. split_and!; [done | by apply names_pretty | done].
Qed.

Lemma loaded_proposal ps : forall entries (mp : gmap Z Entry),
  Forall2 (fun p e => e_Proposal e = p) ps entries ->
  (forall p e, mp !! p = Some e -> e_Proposal e = p) ->
  forall p e, fold_left (fun m pe => <[fst pe := snd pe]> m) (combine ps entries) mp !! p = Some e -> e_Proposal e = p.
Proof.
  induction ps as [|q ps IH]; intros entries mp H Hm p e; inversion H as [|? e' ? es He Hes]; subst; simpl; [by apply Hm|].
  apply (IH es); [done|]. intros p' e'' Hl. destruct (decide (e_Proposal e' = p')) as [<-|Hne]; [|rewrite lookup_insert_ne in Hl by done; by apply Hm].
  rewrite lookup_insert_eq in Hl. by injection Hl as <-.
Qed.

Lemma loadEntry_proposal key p :
  wp (loadEntry key p) (fun _ r => match r with inl _ => True | inr e => e_Proposal e = p end).
Proof. apply wp_ebind, wp_wrap, wp_redis; [done|]. intros r. by destruct r. Qed.

Lemma mapM_Forall2 {A B} (f : A -> prog (string + B)) (P : A -> B -> Prop) l :
  (forall a, wp (f a) (fun _ r => match r with inl _ => True | inr b => P a b end)) ->
  wp (mapM f l) (fun _ r => match r with inl _ => True | inr bs => Forall2 P l bs end).
Proof.
  intros Hf. induction l as [|a l IH]; simpl; [constructor|].
  apply wp_ebind. eapply wp_weaken; [|exact (Hf a)]. intros tr [err|b] Hb; [done|].
  apply wp_ebind. eapply wp_weaken; [|exact IH]. intros tr' [err|bs] Hbs; [done|]. by constructor.
Qed.

Definition op_ok (o : op) : Prop := match o with OpDequeueBatch ps => NoDup ps /\ Forall int64 ps | _ => True end.

Lemma Dequeue_claims key : qk = queueKey key ->
  wp (Dequeue key) (fun tr r => match r with inr (Some e) => (occ x [e_Proposal e] <= claims qk x tr)%nat | _ => True end).
Proof.
  intros Hk. apply wp_ebind. unfold validateKey. destruct (Valid key); [|done]. apply wp_ebind, wp_wrap, wp_redis; [done|].
  intros r. destruct r as [| | | | | |[|[m sc] l]|]; try done. destruct (Atoi m) as [p|] eqn:Hm; [|done].
  apply wp_ebind. eapply wp_weaken; [|apply loadEntry_proposal]. intros tr [err|e] He; [done|]. subst p.
  apply wp_ebind. apply wp_any. intros tr2 [err|r]; [done|]. apply wp_Ret. rewrite !claims_app.
  change (claims qk x [Obs (ERedis (Single (ZPOPMIN (queueKey key)))) (inr [RScored ((m, sc) :: l)])])
    with (cmd_claims qk x (ZPOPMIN (queueKey key)) (RScored ((m, sc) :: l)) + 0 + 0)%nat.
  unfold occ. cbn [count_occ cmd_claims]. destruct (Z.eq_dec (e_Proposal e) x) as [Hx|]; [|lia].
  rewrite decide_True by (split; [done|]; unfold names; by rewrite <- Hx). lia.
Qed.

Lemma DequeueBatch_claims key ps : qk = queueKey key -> NoDup ps -> Forall int64 ps ->
  wp (DequeueBatch key ps) (fun tr r => match r with inr l => (occ x (map e_Proposal l) <= claims qk x tr)%nat | _ => True end).
Proof.
  intros Hk Hnd Hi. apply wp_ebind. unfold validateKey. destruct (Valid key); [|done]. apply wp_Ret.
  destruct ps as [|p0 ps0] eqn:Eps; [simpl; lia|]. rewrite <- Eps in *. clear Eps p0 ps0.
  apply wp_ebind. eapply wp_weaken; [|apply (mapM_Forall2 _ (fun p e => e_Proposal e = p)), loadEntry_proposal].
  intros tr [err|entries] He; [done|]. apply wp_ebind, wp_wrap, wp_redis_tx; [done|]. intros rs. apply wp_Ret.
  destruct (claimed _ _ _) as [err|out] eqn:Hc; [done|]. rewrite !claims_app.
  change (claims qk x [Obs (ERedis (Tx (claim_commands key ps))) (inr rs)]) with (tx_claims qk x (claim_commands key ps) rs + 0)%nat.
  pose proof (claimed_count key _ ps Hk rs ∅ out Hnd Hi (fun p _ => lookup_empty p)
                (loaded_proposal ps entries ∅ He ltac:(intros p e Hl; by rewrite lookup_empty in Hl)) Hc). lia.
Qed.

Lemma op_claims ttl key o : qk = queueKey key -> op_ok o ->
  wp (op_run ttl key o) (fun tr r => (occ x (handed o r) <= claims qk x tr)%nat).
Proof.
  intros Hk Ho. destruct o; try (apply wp_any; simpl; intros; lia); apply wp_pbind.
  - eapply wp_weaken; [|by apply Dequeue_claims]. intros tr [err|[e|]] H; apply wp_Ret; rewrite app_nil_r; simpl; try lia. done.
  - destruct Ho as [Hnd Hi]. eapply wp_weaken; [|by apply DequeueBatch_claims].
    intros tr [err|l] H; apply wp_Ret; rewrite app_nil_r; simpl; [lia | done].
Qed.

Lemma op_adds ttl key o : wp (op_run ttl key o) (fun tr _ => (adds qk x tr <= enqueues x o)%nat).
Proof.
  destruct o; try (eapply wp_weaken; [|apply no_adds_wp, op_no_adds; done]; simpl; intros; lia).
  apply wp_pbind. eapply wp_weaken; [|apply Enqueue_adds]. intros tr r H. simpl wp. by rewrite app_nil_r.
Qed.
End Ops.

(** ** Clients *)

Section Clients.
Context (ttl : Z) (key : Key) (x : Z).
Notation qk := (queueKey key).

Lemma client_silent ops : all_events (event_silent qk x) (client ttl key ops).
Proof.
  induction ops as [|o ops IH]; simpl; [done|]. apply all_events_bind; [apply op_silent|].
  intros r. by apply all_events_bind.
Qed.

Lemma client_claims ops : Forall op_ok ops -> wp (client ttl key ops) (fun tr l => (occ x l <= claims qk x tr)%nat).
Proof.
  induction 1 as [|o ops Ho Hops IH]; simpl; [lia|].
  apply wp_pbind. eapply wp_weaken; [|by apply (op_claims qk x)]. intros tr r H1. cbv beta in *.
  apply wp_pbind. eapply wp_weaken; [|exact IH]. intros tr' l H2. cbv beta in *. apply wp_Ret.
  rewrite !claims_app. unfold occ in *. rewrite count_occ_app. lia.
Qed.

Lemma client_adds ops : wp (client ttl key ops) (fun tr _ => (adds qk x tr <= list_sum (map (enqueues x) ops))%nat).
Proof.
  induction ops as [|o ops IH]; simpl; [done|].
  apply wp_pbind. eapply wp_weaken; [|apply (op_adds qk x ttl key o)]. intros tr r H1. cbv beta in *.
  apply wp_pbind. eapply wp_weaken; [|exact IH]. intros tr' l H2. cbv beta in *. apply wp_Ret.
  rewrite !adds_app. change (adds qk x []) with 0%nat. simpl in *. lia.
Qed.

Definition phi_claims (o : obs) : Z := - Z.of_nat (obs_claims qk x o).
Definition phi_adds (o : obs) : Z := Z.of_nat (obs_adds qk x o).

Lemma cost_claims tr : cost phi_claims tr = - Z.of_nat (claims qk x tr).
Proof. unfold cost, claims. induction tr as [|o tr IH]; simpl; [done|]. rewrite IH. unfold phi_claims. lia. Qed.
Lemma cost_adds tr : cost phi_adds tr = Z.of_nat (adds qk x tr).
Proof. unfold cost, adds. induction tr as [|o tr IH]; simpl; [done|]. rewrite IH. unfold phi_adds. lia. Qed.

Lemma zsum_zeros {A} (l : list A) : zsum (map (fun _ => 0) l) = 0.
Proof. induction l; simpl; lia. Qed.

Lemma zsum_occ l : zsum (map (fun k => Z.of_nat (occ x k)) l) = Z.of_nat (occ x (concat l)).
Proof. induction l as [|a l IH]; simpl; [done|]. unfold occ in *. rewrite IH, count_occ_app. lia. Qed.

Lemma zsum_of_nat {A} (f : A -> nat) l : zsum (map (fun a => Z.of_nat (f a)) l) = Z.of_nat (list_sum (map f l)).
Proof. induction l; simpl; lia. Qed.

Lemma Forall2_map {A B C} (P : B -> C -> Prop) (f : A -> B) (g : A -> C) l :
  (forall a, a ∈ l -> P (f a) (g a)) -> Forall2 P (map f l) (map g l).
Proof. induction l as [|a l IH]; simpl; constructor; [apply H; left | apply IH; intros; apply H; by right]. Qed.

Lemma par_claims sched clients : Forall (Forall op_ok) clients ->
  wp (par sched (map (client ttl key) clients)) (fun tr l => (occ x (concat l) <= claims qk x tr)%nat).
Proof.
  intros Hok. eapply wp_weaken; [|apply (within_par phi_claims (fun l => Z.of_nat (occ x l)) sched _ (map (fun _ => 0) clients))].
  - intros tr l. cbv beta. rewrite cost_claims, zsum_occ, zsum_zeros. lia.
  - apply Forall2_map. intros ops Hops. unfold within. rewrite Forall_forall in Hok.
    eapply wp_weaken; [|apply client_claims, Hok, Hops]. intros tr l H. cbv beta in *. rewrite cost_claims. lia.
Qed.

Lemma par_adds sched clients :
  wp (par sched (map (client ttl key) clients))
     (fun tr _ => (adds qk x tr <= list_sum (map (fun ops => list_sum (map (enqueues x) ops)) clients))%nat).
Proof.
  eapply wp_weaken; [|apply (within_par phi_adds (fun _ => 0) sched _ (map (fun ops => Z.of_nat (list_sum (map (enqueues x) ops))) clients))].
  - intros tr l. cbv beta. rewrite cost_adds, zsum_zeros, (zsum_of_nat (fun ops => list_sum (map (enqueues x) ops))). lia.
  - apply Forall2_map. intros ops _. unfold within. eapply wp_weaken; [|apply client_adds].
    intros tr l H. cbv beta in *. rewrite cost_adds. lia.
Qed.

(** C7. No double dispatch.  Whatever coordinators and producers run against one landing
    queue, however their Redis requests interleave, and whichever requests or replies
    are lost: the times a proposal is handed out by [Dequeue] and [DequeueBatch], plus
    the times it is still queued, are at most the times it was queued at the start
    plus the times a client enqueued it. *)
Theorem no_double_dispatch `{R : RedisServer} env clients sched w :
  Forall (Forall op_ok) clients ->
  let '(w', handed) := run env (par sched (map (client ttl key) clients)) w in
  (occ x (concat handed) + queued qk x (w_now w') (w_db w')
   <= queued qk x (w_now w) (w_db w) + list_sum (map (fun ops => list_sum (map (enqueues x) ops)) clients))%nat.
Proof.
  intros Hok. set (p := par sched (map (client ttl key) clients)).
  destruct (run_potential qk x env p w) as (tr & E & Hp).
  { apply all_events_par. apply Forall_fmap, Forall_true. intros ops. apply client_silent. }
  destruct (run_wp env p w _ (par_claims sched clients Hok)) as (tr1 & E1 & Hc).
  destruct (run_wp env p w _ (par_adds sched clients)) as (tr2 & E2 & Ha).
  rewrite E in E1, E2. apply app_inv_head in E1 as <-. apply app_inv_head in E2 as <-.
  destruct (run env p w) as [w' hd]. simpl in *. lia.
Qed.

End Clients.

(** Two coordinators and a producer: proposal 7 is enqueued once and both dequeue. *)
Definition demo_env : environment := {|
  env_exec _ _ _ _ _ := ("", None); env_gh _ _ _ _ := None; env_clock _ := 5; env_stat _ _ := false;
  env_read _ _ := None; env_write _ _ _ := None; env_token _ := inr "token"; env_post _ := true; env_stopped _ := false |}.

Definition demo_entry (p prio : Z) : Entry :=
  {| e_OrgID := "acme"; e_RepoID := "o/r"; e_Proposal := p; ProposalURL := "u"; IssueID := "ABC-1"; LinearSessionID := "";
     Priority := prio; SourceBranch := "b"; TargetBranch := "main"; EnqueuedAt := 1 |}.

Definition demo_clients : list (list op) :=
  [[OpEnqueue (demo_entry 7 3)]; [OpDequeue]; [OpDequeueBatch [7]]].

Definition empty_world (fs : list (N * fault)) : @world mem_server :=
  {| w_db := (∅ : gmap string rentry); w_now := 0; w_faults := fs; w_step := 0; w_log := [] |}.

(** The interleaving in which the batch loads the metadata before the other
    coordinator pops the proposal: only one of them gets it. *)
Example demo_dispatch :
  snd (run demo_env (par [0; 0; 0; 2; 1; 2; 1; 1]%nat (map (client 0 acme) demo_clients)) (empty_world [])) = [[]; [7]; []].
Proof. vm_compute. reflexivity. Qed.

Lemma no_double_dispatch_witness :
  Forall (Forall op_ok) demo_clients /\
  (let '(w', handed) := run demo_env (par [0; 0; 0; 2; 1; 2; 1; 1]%nat (map (client 0 acme) demo_clients)) (empty_world []) in
   (occ 7 (concat handed) + queued (queueKey acme) 7 (w_now w') (w_db w') <= 0 + 1)%nat).
Proof.
  assert (Hok : Forall (Forall op_ok) demo_clients).
  { repeat constructor; try set_solver; unfold int64; lia. }
  split; [exact Hok|].
  exact (no_double_dispatch 0 acme 7 demo_env demo_clients [0; 0; 0; 2; 1; 2; 1; 1]%nat (empty_world []) Hok).
Defined.

(** An error after the pop loses the proposal: it left the sorted set, no caller has
    it, and no failed reason says so. *)
Theorem error_after_pop_drops_proposal :
  let '(w', handed) := run demo_env (client 0 acme [OpEnqueue (demo_entry 7 3); OpDequeue; OpDequeue])
                         (empty_world [(0%N, Delivered); (0%N, Delivered); (0%N, Delivered); (0%N, Delivered); (0%N, RequestLost)]) in
  handed = [] /\ queued (queueKey acme) 7 (w_now w') (w_db w') = 0%nat.
Proof. vm_compute. split; reflexivity. Qed.
