(* ===== verification/LandingTriple.v ===== *)
(** * LandingTriple: Hoare triples for programs on one repository's keys

    The keys of one landing stream are a [view]; without transport faults a program
    takes a view to a view, whatever the delays between its requests.  The rules are
    those of a Hoare logic for the error monad: a Redis command is what the server's
    laws say of the entry at its key, a transaction is its commands at one instant. *)

From Stdlib Require Import Ascii String FunctionalExtensionality.
From stdpp Require Import gmap pretty.
From S2P Require Import Prelude GoStrings Redis Landing LandingProg LandingQueue LandingDispatch.

(** ** Programs on the keys of one repository *)

#[export] Instance key_kind_eq_dec : EqDecision key_kind.
Proof. solve_decision. Defined.

Lemma redis_key_inj key k1 k2 : redis_key key k1 = redis_key key k2 -> k1 = k2.
Proof.
  rewrite !redis_key_eq. intros H. apply (inj _) in H. do 3 (apply (inj _) in H). by apply (inj _), suffix_string_inj in H.
Qed.

(** What the keys of the repository hold. *)
Definition view : Type := key_kind -> option rentry.
Definition set_key (f : view) (kd : key_kind) (o : option rentry) : view := fun k => if decide (k = kd) then o else f k.
Definition later (now : Z) (f : view) : view := fun k => alive now (f k).

(** Commands run one after the other at one instant. *)
Fixpoint vrun (now : Z) (cs : list (key_kind * command)) (f : view) : view * list reply :=
  match cs with
  | [] => (f, [])
  | (kd, c) :: cs' =>
      let '(o, r) := cmd_spec now c (f kd) in
      let '(f', rs) := vrun now cs' (set_key f kd (alive now o)) in
      (f', r :: rs)
  end.

Definition stable (P : view -> Prop) : Prop := forall now f, P f -> P (later now f).

Section Triples.
Context `{R : RedisServer} (env : environment) (key : Key).

Definition kv (w : world) : view := fun kd => look (w_now w) (w_db w) (redis_key key kd).
Definition fault_free (w : world) : Prop := Forall (fun x => snd x = Delivered) (w_faults w).

(** From a state that satisfies [P], without faults, the program ends as [Q] says. *)
Definition triple {A} (P : view -> Prop) (p : prog A) (Q : A -> view -> Prop) : Prop :=
  forall w, fault_free w -> P (kv w) -> fault_free (fst (run env p w)) /\ Q (snd (run env p w)) (kv (fst (run env p w))).

(** The operation returns a value, no error. *)
Definition success {A} (S : A -> view -> Prop) : string + A -> view -> Prop := fun r f => exists a, r = inr a /\ S a f.

Lemma triple_ret {A} (P : view -> Prop) (a : A) Q : (forall f, P f -> Q a f) -> triple P (Ret a) Q.
Proof. intros H w Hw Hp. split; [done | by apply H]. Qed.

Lemma triple_bind {A B} P (p : prog A) (k : A -> prog B) Q S : triple P p S -> (forall a, triple (S a) (k a) Q) -> triple P (pbind p k) Q.
Proof.
  intros Hp Hk w Hw HP. rewrite run_bind. specialize (Hp w Hw HP) as [Hw1 HS]. destruct (run env p w) as [w1 a]. by apply Hk.
Qed.

Lemma triple_weaken {A} P (p : prog A) (Q Q' : A -> view -> Prop) : triple P p Q -> (forall a f, Q a f -> Q' a f) -> triple P p Q'.
Proof. intros H HQ w Hw HP. destruct (H w Hw HP). auto. Qed.

Lemma triple_pre {A} P P' (p : prog A) Q : (forall f, P' f -> P f) -> triple P p Q -> triple P' p Q.
Proof. intros H Ht w Hw HP. auto. Qed.

(** Facts that do not depend on the state. *)
Lemma triple_pure {A} P (H : Prop) (p : prog A) Q : (H -> triple P p Q) -> triple (fun f => H /\ P f) p Q.
Proof. intros Ht w Hw [Hh HP]. by apply Ht. Qed.

Lemma triple_ebind {A B} P (p : prog (string + A)) (k : A -> prog (string + B)) Q S :
  triple P p (success S) -> (forall a, triple (S a) (k a) Q) -> triple P (ebind p k) Q.
Proof. intros Hp Hk. eapply triple_bind; [exact Hp|]. intros r w Hw (a & -> & HS). by apply Hk. Qed.

Lemma triple_ok {A} (P : view -> Prop) (a : A) (S : A -> view -> Prop) : (forall f, P f -> S a f) -> triple P (ok a) (success S).
Proof. intros H. apply triple_ret. intros f Hf. exists a. auto. Qed.

Lemma triple_wrap {A} P msg (p : prog (string + A)) S : triple P p (success S) -> triple P (wrap msg p) (success S).
Proof. intros Hp. eapply triple_bind; [exact Hp|]. intros r. apply triple_ret. intros f (a & -> & HS). by exists a. Qed.

Lemma triple_omap {A} P (g : A -> out) (p : prog (string + A)) S Q :
  triple P p (success S) -> (forall a f, S a f -> Q (inr (g a)) f) -> triple P (omap g p) Q.
Proof. intros Hp HQ. eapply triple_bind; [exact Hp|]. intros r. apply triple_ret. intros f (a & -> & HS). by apply HQ. Qed.

Lemma serve_tx_view now kcs : Forall (fun kc => ckey (snd kc) = redis_key key (fst kc)) kcs -> forall d f,
  (forall kd, look now d (redis_key key kd) = f kd) ->
  snd (serve_tx now (map snd kcs) d) = snd (vrun now kcs f) /\
  forall kd, look now (fst (serve_tx now (map snd kcs) d)) (redis_key key kd) = fst (vrun now kcs f) kd.
Proof.
  induction 1 as [|[kd c] kcs Hc Hkcs IH]; intros d f Hf; simpl in *; [done|].
  pose proof (run_reply now c d) as Hr. pose proof (run_key now c d) as Hk. pose proof (run_other now c d) as Ho.
  rewrite Hc, Hf in Hr, Hk. destruct (run_cmd now c d) as [d1 r]. destruct (cmd_spec now c (f kd)) as [o r']. simpl in *. subst r'.
  destruct (IH d1 (set_key f kd (alive now o))) as [E1 E2].
  { intros k. unfold set_key. case_decide as E; [by subst|]. rewrite <- Hf. apply Ho. rewrite Hc. intros Heq.
    by apply redis_key_inj in Heq. }
  destruct (serve_tx now (map snd kcs) d1) as [d2 rs]. destruct (vrun now kcs _) as [f' rs']. simpl in *. by subst.
Qed.

Lemma redis_step_view q kcs w :
  fault_free w -> Forall (fun kc => ckey (snd kc) = redis_key key (fst kc)) kcs ->
  (forall now d, serve now q d = serve_tx now (map snd kcs) d) ->
  exists now, fault_free (fst (redis_step q w)) /\ snd (redis_step q w) = inr (snd (vrun now kcs (later now (kv w)))) /\
    kv (fst (redis_step q w)) = fst (vrun now kcs (later now (kv w))).
Proof.
  intros Hw Hk Hq. unfold redis_step, fault_free in *.
  destruct (w_faults w) as [|[dl f] fs] eqn:Ef; [|inversion Hw as [|?? Hf Hfs]; subst; simpl in Hf; subst f].
  all: match goal with |- context [serve ?n _ _] => set (now := n); exists now end.
  all: rewrite Hq; destruct (serve_tx_view now kcs Hk (w_db w) (later now (kv w))) as [E1 E2];
    [intros kd; unfold later, kv; apply look_later; unfold now; lia|].
  all: destruct (serve_tx now (map snd kcs) (w_db w)) as [d rs]; simpl in *; rewrite E1.
  all: split_and!; try done; apply functional_extensionality; exact E2.
Qed.

(** One command whose reply is no error. *)
Lemma triple_redis kd c P (S : reply -> view -> Prop) :
  ckey c = redis_key key kd -> stable P ->
  (forall now f, P f -> exists o r, cmd_spec now c (f kd) = (o, r) /\ (forall e, r <> RError e) /\ S r (set_key f kd (alive now o))) ->
  triple P (redis c) (success S).
Proof.
  intros Hc Hst HS w Hw HP.
  destruct (redis_step_view (Single c) [(kd, c)] w Hw) as (now & Hw1 & E1 & E2).
  { by apply Forall_singleton. }
  { intros now d. simpl. by destruct (run_cmd now c d). }
  destruct (HS now _ (Hst now _ HP)) as (o & r & Ec & Hne & HS'). clear HS. rename HS' into HS. simpl in *. rewrite Ec in *.
  destruct (redis_step (Single c) w) as [w1 a]. simpl in *. subst a.
  assert (Hrun : forall wl, fault_free wl -> kv wl = set_key (later now (kv w)) kd (alive now o) ->
            fault_free (fst (run env (match r with RError err => fail err | _ => ok r end) wl)) /\
            success S (snd (run env (match r with RError err => fail err | _ => ok r end) wl))
                      (kv (fst (run env (match r with RError err => fail err | _ => ok r end) wl)))).
  { intros wl Hwl Hkv. destruct r; simpl; rewrite ?Hkv; try (split; [done | by eexists]). by destruct (Hne e). }
  apply Hrun; [exact Hw1 | exact E2].
Qed.

Lemma triple_redis_int kd c P (S : Z -> view -> Prop) :
  ckey c = redis_key key kd -> stable P ->
  (forall now f, P f -> exists o m, cmd_spec now c (f kd) = (o, RInt m) /\ S m (set_key f kd (alive now o))) ->
  triple P (redis_int c) (success S).
Proof.
  intros Hc Hst HS. eapply (triple_ebind _ _ _ _ (fun r f => exists m, r = RInt m /\ S m f)).
  - apply (triple_redis kd); [done..|]. intros now f Hf. destruct (HS now f Hf) as (o & m & E & Hm). exists o, (RInt m). eauto.
  - intros r w Hw (m & -> & Hm). split; [done|]. by exists m.
Qed.

(** A command that may answer with an error. *)
Lemma triple_redis_any kd c P (Q : view -> Prop) :
  ckey c = redis_key key kd -> stable P ->
  (forall now f, P f -> Q (set_key f kd (alive now (fst (cmd_spec now c (f kd)))))) -> triple P (redis c) (fun _ f => Q f).
Proof.
  intros Hc Hst HQ w Hw HP.
  destruct (redis_step_view (Single c) [(kd, c)] w Hw) as (now & Hw1 & E1 & E2).
  { by apply Forall_singleton. }
  { intros now d. simpl. by destruct (run_cmd now c d). }
  specialize (HQ now _ (Hst now _ HP)). simpl in *.
  destruct (cmd_spec now c (later now (kv w) kd)) as [o r]. destruct (redis_step (Single c) w) as [w1 a]. simpl in *. subst a.
  assert (Hrun : forall wl, fault_free wl -> kv wl = set_key (later now (kv w)) kd (alive now o) ->
            fault_free (fst (run env (match r with RError err => fail err | _ => ok r end) wl)) /\
            Q (kv (fst (run env (match r with RError err => fail err | _ => ok r end) wl)))).
  { intros wl Hwl Hkv. destruct r; simpl; by rewrite ?Hkv. }
  apply Hrun; [exact Hw1 | exact E2].
Qed.

Lemma triple_ebind_any {A B} P (p : prog (string + A)) (k : A -> prog (string + B)) (Q : view -> Prop) :
  triple P p (fun _ f => Q f) -> (forall a, triple Q (k a) (fun _ f => Q f)) -> triple P (ebind p k) (fun _ f => Q f).
Proof. intros Hp Hk. eapply triple_bind; [exact Hp|]. intros [err|a]; [by apply triple_ret | apply Hk]. Qed.

(** What the precondition says of the model can be used. *)
Lemma triple_extract {A} P (H : Prop) (p : prog A) Q : (forall f, P f -> H) -> (H -> triple P p Q) -> triple P p Q.
Proof. intros HP Ht w Hw Hp. apply Ht; eauto. Qed.

(** A transaction whose replies are no errors. *)
Lemma triple_redis_tx kcs P (S : list reply -> view -> Prop) :
  Forall (fun kc => ckey (snd kc) = redis_key key (fst kc)) kcs -> stable P ->
  (forall now f, P f -> first_error (snd (vrun now kcs f)) = None /\ S (snd (vrun now kcs f)) (fst (vrun now kcs f))) ->
  triple P (redis_tx (map snd kcs)) (success S).
Proof.
  intros Hc Hst HS w Hw HP.
  destruct (redis_step_view (Tx (map snd kcs)) kcs w Hw Hc) as (now & Hw1 & E1 & E2); [done|].
  specialize (HS now _ (Hst now _ HP)) as [Hne HS]. simpl in *.
  destruct (redis_step (Tx (map snd kcs)) w) as [w1 a]. simpl in *. subst a. rewrite Hne. simpl.
  split; [exact Hw1|]. eexists. split; [done|]. unfold kv in *. simpl in *. by rewrite E2.
Qed.
End Triples.
