(* ===== verification/LandingRefine.v ===== *)
(** * LandingRefine: the Redis queue refines a priority queue

    The abstract queue of a repository is a list of entries in landing order: a new
    entry goes behind every entry of its priority or a more urgent one, [Dequeue]
    takes the head, a removal deletes the entry.  The refinement relation ties the
    sorted set (scores included), the sequence counter and the metadata hashes to
    that list, and every operation of the storage is shown to keep it and to answer
    as the list does. *)

From Stdlib Require Import Ascii String.
From stdpp Require Import gmap pretty sorting.
From S2P Require Import Prelude GoStrings Redis Landing LandingScore LandingProg LandingQueue LandingDispatch LandingTriple.

(** ** The abstract queue *)

Fixpoint s_insert (e : Entry) (q : list Entry) : list Entry :=
  match q with
  | [] => [e]
  | x :: q' => if Priority x <=? Priority e then x :: s_insert e q' else e :: q
  end.

Definition s_has (q : list Entry) (p : Z) : bool := existsb (fun e => e_Proposal e =? p) q.
Definition s_enqueue (e : Entry) (q : list Entry) : list Entry := if s_has q (e_Proposal e) then q else s_insert e q.
Definition s_remove (p : Z) (q : list Entry) : list Entry := List.filter (fun e => negb (e_Proposal e =? p)) q.
Definition s_take (ps : list Z) (q : list Entry) : list Entry :=
  concat (map (fun p => List.filter (fun e => e_Proposal e =? p) q) ps).

Fixpoint s_position (q : list Entry) (p : Z) (i : Z) : Z :=
  match q with [] => 0 | e :: q' => if e_Proposal e =? p then i else s_position q' p (i + 1) end.

(** The new queue and the answer; reading a reason says nothing of the queue. *)
Definition s_step (o : op) (q : list Entry) : list Entry * option out :=
  match o with
  | OpEnqueue e => (s_enqueue e q, Some OutUnit)
  | OpDequeue => (tail q, Some (OutEntry (head q)))
  | OpPeekAll => (q, Some (OutEntries q))
  | OpDequeueBatch ps => (fold_left (fun q p => s_remove p q) ps q, Some (OutEntries (s_take ps q)))
  | OpQueueDepth => (q, Some (OutNum (blen q)))
  | OpIsEnqueued p => (q, Some (OutBool (s_has q p)))
  | OpPosition p => (q, Some (OutNum (s_position q p 1)))
  | OpRemove p | OpMarkCompleted p | OpMarkFailed p _ | OpMarkBlocked p _ => (s_remove p q, Some OutUnit)
  | OpFailedReason _ | OpBlockedReason _ => (q, None)
  end.

(** ** Entries read back *)

Definition entry_ok (key : Key) (e : Entry) : Prop :=
  Entry_Key e = key /\ int64 (e_Proposal e) /\ -8 <= Priority e < 8 /\ int64 (EnqueuedAt e) /\ EnqueuedAt e <> zeroTime.

Lemma hget_insert h k v k' : hget (<[k := v]> h) k' = if String.eqb k k' then v else hget h k'.
Proof. unfold hget. destruct (String.eqb_spec k k'); [subst; by rewrite lookup_insert_eq | by rewrite lookup_insert_ne]. Qed.

Lemma Atoi_pretty_ok z : int64 z -> Atoi (pretty z) = Some z.
Proof.
  intros Hz. rewrite Atoi_pretty. unfold int64 in Hz.
  rewrite (proj2 (Z.leb_le _ _)), (proj2 (Z.ltb_lt _ _)) by lia. done.
Qed.

(** The error of [Atoi] matters only where it refuses. *)
Lemma Atoi_value_ok s z : Atoi s = Some z -> Atoi_value s = z.
Proof.
  unfold Atoi, Atoi_value.
  assert (Hgo : forall sign body,
    match body with
    | EmptyString => None
    | _ => match digits_value body 0 with
           | Some n => if (- 2 ^ 63 <=? sign * n) && (sign * n <? 2 ^ 63) then Some (sign * n) else None
           | None => None
           end
    end = Some z ->
    match body with
    | EmptyString => 0
    | _ => match digits_value body 0 with
           | Some n => Z.max (- 2 ^ 63) (Z.min (2 ^ 63 - 1) (sign * n))
           | None => 0
           end
    end = z).
  { intros sign body H. destruct body; [done|]. destruct (digits_value _ 0) as [n|]; [|done].
    destruct ((- 2 ^ 63 <=? sign * n) && (sign * n <? 2 ^ 63)) eqn:E; [|done]. injection H as <-.
    apply andb_prop in E as [?%Z.leb_le ?%Z.ltb_lt]. lia. }
  destruct s as [|c s']; [done|]. destruct c as [[] [] [] [] [] [] [] []];
    match goal with |- context [digits_value ?b 0] => first [exact (Hgo 1 b) | exact (Hgo (-1) b)] end.
Qed.

Definition entry_hash (e : Entry) : gmap string string := list_to_map (entryFields e).

(** An entry survives its metadata hash. *)
Lemma entry_roundtrip key e : entry_ok key e -> entryFromHash key (e_Proposal e) (entry_hash e) = e.
Proof.
  intros (Hk & Hp & Hpr & Ht & _). subst key.
  assert (Hi : i64 (EnqueuedAt e) = EnqueuedAt e) by (unfold i64, int64 in *; rewrite Z.mod_small; lia).
  unfold entryFromHash, entry_hash, entryFields. rewrite Hi.
  cbn [list_to_map foldr curry uncurry]. unfold list_to_map. cbn [foldr fst snd].
  rewrite !hget_insert. cbn [String.eqb Ascii.eqb Bool.eqb].
  rewrite (Atoi_value_ok _ (Priority e)) by (apply Atoi_pretty_ok; unfold int64; lia).
  rewrite Atoi_pretty_ok by done. by destruct e.
Qed.

(** ** The refinement relation *)

(** A queued entry and the sequence number it was enqueued with. *)
Notation qpair := (Entry * Z)%type.
Definition pair_prop (a : qpair) : Z := e_Proposal (fst a).
Definition zpair (a : qpair) : string * Z := (pretty (pair_prop a), encodeScore (Priority (fst a)) (snd a)).
Definition zmap (l : list qpair) : gmap string Z := list_to_map (map zpair l).

Definition lexlt (a b : qpair) : Prop :=
  Priority (fst a) < Priority (fst b) \/ (Priority (fst a) = Priority (fst b) /\ snd a < snd b).

Definition pair_ok (key : Key) (n : Z) (a : qpair) : Prop := entry_ok key (fst a) /\ 1 <= snd a <= n.

Definition seq_entry (n : Z) : option rentry := if n =? 0 then None else Some {| r_value := RString (pretty n); r_expires := None |}.
Definition hash_entry (hs : list Entry) (p : Z) : option rentry :=
  match find (fun e => e_Proposal e =? p) hs with
  | Some e => Some {| r_value := RHash (entry_hash e); r_expires := None |}
  | None => None
  end.

(** The sequence numbers the score keeps apart. *)
Definition max_seq : Z := 2 ^ 24.

(** The sorted set holds the pairs, the hashes the entries [hs], the counter [n]. *)
Record rep (key : Key) (l : list qpair) (hs : list Entry) (n : Z) (f : view) : Prop := {
  rp_seq : f KSeq = seq_entry n;
  rp_queue : f KQueue = zentry (zmap l) None;
  rp_hash p : f (KEntry p) = hash_entry hs p;
  rp_sorted : StronglySorted lexlt l;
  rp_nodup : NoDup (map pair_prop l);
  rp_ok : Forall (pair_ok key n) l;
  rp_n : 0 <= n <= max_seq
}.

(** The queue [q] with [n] sequence numbers used. *)
Definition Rep (key : Key) (q : list Entry) (n : Z) (f : view) : Prop := exists l, map fst l = q /\ rep key l q n f.

Lemma rep_stable key l hs n : stable (rep key l hs n).
Proof.
  intros now f [H1 H2 H3 H4 H5 H6 H7]. split; try done; unfold later.
  - rewrite H1. unfold seq_entry. by case_match.
  - rewrite H2. by apply zentry_alive.
  - intros p. rewrite H3. unfold hash_entry. by case_match.
Qed.

Lemma Rep_stable key q n : stable (Rep key q n).
Proof. intros now f (l & El & H). exists l. split; [done|]. by apply rep_stable. Qed.

Lemma set_key_eq f kd o : set_key f kd o kd = o.
Proof. unfold set_key. by rewrite decide_True. Qed.
Lemma set_key_ne f kd o k : k <> kd -> set_key f kd o k = f k.
Proof. intros. unfold set_key. by rewrite decide_False. Qed.

(** *** The sorted set *)

Lemma zpair_names l : map fst (map zpair l) = map (fun a => pretty (pair_prop a)) l.
Proof. by rewrite map_map. Qed.

Lemma zmap_nodup l : NoDup (map pair_prop l) -> NoDup (map fst (map zpair l)).
Proof.
  rewrite zpair_names, <- (map_map pair_prop pretty). intros H. by apply (NoDup_fmap_2 (pretty (A := Z))).
Qed.

Lemma zmap_lookup l a : NoDup (map pair_prop l) -> a ∈ l -> zmap l !! pretty (pair_prop a) = Some (encodeScore (Priority (fst a)) (snd a)).
Proof.
  intros Hnd Ha. apply elem_of_list_to_map_1; [by apply zmap_nodup|].
  change (zpair a ∈ map zpair l). by apply list_elem_of_fmap_2.
Qed.

Lemma zmap_lookup_None l p : p ∉ map pair_prop l -> zmap l !! pretty p = None.
Proof.
  intros Hp. apply not_elem_of_list_to_map_1. intros H. apply Hp.
  apply list_elem_of_fmap in H as (z & E & Hz). apply list_elem_of_fmap in Hz as (a & -> & Ha). simpl in E.
  apply (inj pretty) in E as ->. by apply list_elem_of_fmap_2.
Qed.

Definition premove (p : Z) (l : list qpair) : list qpair := List.filter (fun a => negb (pair_prop a =? p)) l.

Lemma premove_fst p l : map fst (premove p l) = s_remove p (map fst l).
Proof.
  unfold premove, s_remove, pair_prop. induction l as [|a l IH]; simpl; [done|]. destruct (negb _); simpl; by rewrite IH.
Qed.

Lemma premove_elem p l a : a ∈ premove p l <-> a ∈ l /\ pair_prop a <> p.
Proof.
  unfold premove. rewrite !list_elem_of_In, filter_In, negb_true_iff, Z.eqb_neq. done.
Qed.

Lemma zmap_delete p l : NoDup (map pair_prop l) -> delete (pretty p) (zmap l) = zmap (premove p l).
Proof.
  induction l as [|a l IH]; intros Hnd; simpl; [apply delete_empty|].
  inversion Hnd as [|?? Ha Hnd']; subst. unfold zmap in *. cbn [map list_to_map foldr]. cbn [zpair].
  destruct (Z.eqb_spec (pair_prop a) p) as [<-|Hne]; cbn [negb].
  - change (list_to_map (zpair a :: map zpair l)) with (<[pretty (pair_prop a) := encodeScore (Priority a.1) a.2]> (zmap l)).
    rewrite delete_insert_eq. unfold zmap. by apply IH.
  - change (list_to_map (zpair a :: map zpair l)) with (<[pretty (pair_prop a) := encodeScore (Priority a.1) a.2]> (zmap l)).
    rewrite delete_insert_ne by (intros E; simpl in E; apply (inj pretty) in E; congruence). unfold zmap. rewrite IH by done. done.
Qed.

Lemma lexlt_score key n a b : n <= max_seq -> pair_ok key n a -> pair_ok key n b -> lexlt a b -> zle (zpair a) (zpair b).
Proof.
  intros Hn [(_ & _ & Ha & _) Hsa] [(_ & _ & Hb & _) Hsb] H. left. simpl. unfold max_seq in *. destruct H as [H|[E H]].
  - apply encodeScore_priority; lia.
  - rewrite E. apply encodeScore_fifo; lia.
Qed.

Lemma zsorted_zmap key n l :
  n <= max_seq -> Forall (pair_ok key n) l -> NoDup (map pair_prop l) -> StronglySorted lexlt l -> zsorted (zmap l) = map zpair l.
Proof.
  intros Hn Hok Hnd Hs. apply zsorted_unique.
  - induction Hs as [|a l Hs IH Hall]; simpl; constructor; inversion Hok; inversion Hnd; subst; [by apply IH|].
    apply Forall_fmap, Forall_forall. intros b Hb. rewrite Forall_forall in Hall.
    apply (lexlt_score key n); [done | done | | by apply Hall]. rewrite Forall_forall in *. auto.
  - symmetry. apply map_to_list_to_map. by apply zmap_nodup.
Qed.

Lemma premove_sorted p l : StronglySorted lexlt l -> StronglySorted lexlt (premove p l).
Proof.
  induction 1 as [|a l Hs IH Hall]; simpl; [constructor|]. destruct (negb _); [|done]. constructor; [done|].
  rewrite Forall_forall in *. intros b Hb. apply premove_elem in Hb as [Hb _]. auto.
Qed.

Lemma premove_nodup p l : NoDup (map pair_prop l) -> NoDup (map pair_prop (premove p l)).
Proof.
  induction l as [|a l IH]; simpl; [done|]. intros Hnd. inversion Hnd as [|?? Ha Hnd']; subst.
  destruct (negb _); [|by apply IH]. simpl. constructor; [|by apply IH].
  intros H. apply Ha. apply list_elem_of_fmap in H as (b & -> & Hb). apply premove_elem in Hb as [Hb _]. by apply list_elem_of_fmap_2.
Qed.

(** *** Updates of one key *)

Section Updates.
Context {key : Key} {l : list qpair} {hs : list Entry} {n : Z} {f : view} (Hrep : rep key l hs n f).

Lemma rep_zdelete p : rep key (premove p l) hs n (set_key f KQueue (zentry (delete (pretty p) (zmap l)) None)).
Proof.
  destruct Hrep as [H1 H2 H3 H4 H5 H6 H7]. split; rewrite ?set_key_eq, ?set_key_ne by done; try done.
  - by rewrite zmap_delete.
  - by apply premove_sorted.
  - by apply premove_nodup.
  - rewrite Forall_forall in *. intros a Ha. apply premove_elem in Ha as [Ha _]. auto.
Qed.

Lemma find_s_remove p p' : find (fun e => e_Proposal e =? p') (s_remove p hs) = if p' =? p then None else find (fun e => e_Proposal e =? p') hs.
Proof.
  clear Hrep. induction hs as [|e k IH]; simpl; [by destruct (p' =? p)|].
  destruct (Z.eqb_spec (e_Proposal e) p) as [<-|Hne]; simpl.
  - rewrite IH. rewrite (Z.eqb_sym (e_Proposal e)). by destruct (p' =? e_Proposal e).
  - destruct (Z.eqb_spec (e_Proposal e) p') as [<-|]; [|done]. by rewrite (proj2 (Z.eqb_neq _ _) Hne).
Qed.

Lemma rep_hdelete p : rep key l (s_remove p hs) n (set_key f (KEntry p) None).
Proof.
  destruct Hrep as [H1 H2 H3 H4 H5 H6 H7]. split; rewrite ?set_key_eq, ?set_key_ne by done; try done.
  intros p'. unfold hash_entry. rewrite find_s_remove. destruct (Z.eqb_spec p' p) as [->|Hne]; [by rewrite set_key_eq|].
  rewrite set_key_ne by congruence. by rewrite H3.
Qed.

Lemma rep_incr : n < max_seq -> rep key l hs (n + 1) (set_key f KSeq (seq_entry (n + 1))).
Proof.
  intros Hn. destruct Hrep as [H1 H2 H3 H4 H5 H6 H7]. split; rewrite ?set_key_eq, ?set_key_ne by done; try done; [|lia].
  eapply Forall_impl; [exact H6|]. intros a [? ?]. split; [done|]. lia.
Qed.

Lemma rep_other kd o : kd <> KQueue -> kd <> KSeq -> (forall p, kd <> KEntry p) -> rep key l hs n (set_key f kd o).
Proof.
  intros Hq Hs He. destruct Hrep as [H1 H2 H3 H4 H5 H6 H7]. split; rewrite ?set_key_ne by done; try done.
  intros p. rewrite set_key_ne by (by apply not_eq_sym). apply H3.
Qed.
End Updates.

(** *** Insertion *)

Fixpoint pinsert (a : qpair) (l : list qpair) : list qpair :=
  match l with
  | [] => [a]
  | b :: l' => if Priority (fst b) <=? Priority (fst a) then b :: pinsert a l' else a :: l
  end.

Lemma pinsert_fst a l : map fst (pinsert a l) = s_insert (fst a) (map fst l).
Proof. induction l as [|b l IH]; simpl; [done|]. destruct (_ <=? _); simpl; [by rewrite IH | done]. Qed.

Lemma pinsert_perm a l : pinsert a l ≡ₚ a :: l.
Proof. induction l as [|b l IH]; simpl; [done|]. destruct (_ <=? _); [|done]. rewrite IH. constructor. Qed.

Lemma pinsert_sorted key n a l :
  Forall (pair_ok key n) l -> n < snd a -> StronglySorted lexlt l -> StronglySorted lexlt (pinsert a l).
Proof.
  intros Hok Ha Hs. induction Hs as [|b l Hs IH Hall]; simpl; [repeat constructor|].
  inversion Hok as [|?? [_ Hb] Hok']; subst. destruct (Z.leb_spec (Priority (fst b)) (Priority (fst a))).
  - constructor; [by apply IH|]. rewrite (pinsert_perm a l). constructor; [|done]. unfold lexlt. lia.
  - constructor; [by constructor|]. constructor; [by left|]. eapply Forall_impl; [exact Hall|]. intros c Hc. unfold lexlt in *. lia.
Qed.

Lemma zmap_insert a l : pair_prop a ∉ map pair_prop l -> NoDup (map pair_prop l) ->
  zmap (pinsert a l) = <[pretty (pair_prop a) := encodeScore (Priority (fst a)) (snd a)]> (zmap l).
Proof.
  intros Ha Hnd. change (<[pretty (pair_prop a) := encodeScore (Priority (fst a)) (snd a)]> (zmap l)) with (zmap (a :: l)).
  unfold zmap. symmetry. apply list_to_map_proper.
  - apply (zmap_nodup (a :: l)). by constructor.
  - change (map zpair (a :: l)) with (zpair <$> (a :: l)). change (map zpair (pinsert a l)) with (zpair <$> pinsert a l).
    by rewrite pinsert_perm.
Qed.

Lemma rep_zinsert key l hs n f e :
  rep key l hs n f -> 0 < n -> Forall (pair_ok key (n - 1)) l -> entry_ok key e -> e_Proposal e ∉ map pair_prop l ->
  rep key (pinsert (e, n) l) hs n (set_key f KQueue (zentry (<[pretty (e_Proposal e) := encodeScore (Priority e) n]> (zmap l)) None)).
Proof.
  intros [H1 H2 H3 H4 H5 H6 H7] Hn Hprev He Hnew. split; rewrite ?set_key_eq, ?set_key_ne by done; try done.
  - by rewrite (zmap_insert (e, n)).
  - eapply pinsert_sorted; [exact Hprev | simpl; lia | done].
  - change (map pair_prop (pinsert (e, n) l)) with (pair_prop <$> pinsert (e, n) l). rewrite pinsert_perm. by constructor.
  - rewrite pinsert_perm. constructor; [|done]. split; [done|]. simpl. lia.
Qed.

Lemma find_s_insert e hs p : find (fun x => e_Proposal x =? e_Proposal e) hs = None ->
  find (fun x => e_Proposal x =? p) (s_insert e hs) = if e_Proposal e =? p then Some e else find (fun x => e_Proposal x =? p) hs.
Proof.
  induction hs as [|x hs IH]; simpl; [by destruct (_ =? _)|].
  destruct (Z.eqb_spec (e_Proposal x) (e_Proposal e)) as [|Hne]; [done|]. intros Hf.
  destruct (Priority x <=? Priority e); simpl; [|by destruct (e_Proposal e =? p)].
  destruct (Z.eqb_spec (e_Proposal x) p) as [<-|]; [|by apply IH]. destruct (Z.eqb_spec (e_Proposal e) (e_Proposal x)); [congruence | done].
Qed.

Lemma rep_hset key l hs n f e :
  rep key l hs n f -> find (fun x => e_Proposal x =? e_Proposal e) hs = None ->
  rep key l (s_insert e hs) n (set_key f (KEntry (e_Proposal e)) (Some {| r_value := RHash (entry_hash e); r_expires := None |})).
Proof.
  intros [H1 H2 H3 H4 H5 H6 H7] Hf. split; rewrite ?set_key_eq, ?set_key_ne by done; try done.
  intros p. unfold hash_entry. rewrite find_s_insert by done. destruct (Z.eqb_spec (e_Proposal e) p) as [<-|Hne]; [by rewrite set_key_eq|].
  rewrite set_key_ne by congruence. by rewrite H3.
Qed.

(** ** The operations *)

Lemma on_zset_zentry z g : on_zset (zentry z None) g = (zentry (fst (g z)) None, snd (g z)).
Proof. unfold zentry at 1. case_bool_decide as E; [subst; simpl; by destruct (g ∅) | simpl; by destruct (g z)]. Qed.

Lemma rep_touch key l hs n now kd f : rep key l hs n f -> rep key l hs n (set_key f kd (alive now (f kd))).
Proof.
  intros H. pose proof (rep_stable key l hs n now f H) as [S1 S2 S3 _ _ _ _]. destruct H as [H1 H2 H3 H4 H5 H6 H7].
  unfold later in *. split; try done; unfold set_key; [| |intros p]; case_decide as E; subst; auto.
Qed.

(** A sorted-set command that only reads. *)
Lemma rep_zread key l hs n now f g : rep key l hs n f -> fst (g (zmap l)) = zmap l ->
  exists o, on_zset (f KQueue) g = (o, snd (g (zmap l))) /\ rep key l hs n (set_key f KQueue (alive now o)).
Proof.
  intros H Hg. exists (f KQueue). split; [|by apply rep_touch]. rewrite (rp_queue _ _ _ _ _ H), on_zset_zentry. by rewrite Hg.
Qed.

Definition load_spec (key : Key) (hs : list Entry) (p : Z) : Entry :=
  match find (fun e => e_Proposal e =? p) hs with Some e => e | None => entryFromHash key p ∅ end.

Section Ops.
Context `{R : RedisServer} (env : environment) (key : Key) (Hkey : Valid key = true).
Context (l : list qpair) (n : Z).
Notation q := (map fst l).
Notation start := (rep key l q n).
Notation triple := (triple env key).

Lemma pairs_have p : s_has q p = true <-> p ∈ map pair_prop l.
Proof.
  unfold s_has. rewrite existsb_exists, list_elem_of_fmap. split.
  - intros (e & He & Hp%Z.eqb_eq). apply in_map_iff in He as (a & <- & Ha). exists a. by rewrite list_elem_of_In.
  - intros (a & -> & Ha). exists (fst a). split; [by apply in_map, list_elem_of_In | apply Z.eqb_refl].
Qed.

Lemma find_has p : s_has q p = false -> find (fun e => e_Proposal e =? p) q = None.
Proof.
  unfold s_has. induction q as [|e k IH]; simpl; [done|]. destruct (e_Proposal e =? p); simpl; [done | exact IH].
Qed.

Lemma valid_triple P : triple P (validateKey key) (success (fun _ f => P f)).
Proof. unfold validateKey. rewrite Hkey. by apply triple_ok. Qed.

Lemma int_of_pretty z : int64 z -> int_of (pretty z) = Some z.
Proof. intros H. unfold int_of. rewrite Atoi_pretty_ok by done. by rewrite str_eqb_refl. Qed.

Lemma incr_triple : n < max_seq -> triple start (redis_int (INCR (seqKey key))) (success (fun m f => m = n + 1 /\ rep key l q (n + 1) f)).
Proof.
  intros Hn. apply (triple_redis_int env key KSeq); [done | apply rep_stable|]. intros now f Hf.
  pose proof (rep_incr Hf Hn) as Hi. pose proof (rp_n _ _ _ _ _ Hf) as H0. rewrite (rp_seq _ _ _ _ _ Hf). unfold seq_entry at 1. cbn [cmd_spec].
  assert (Hm : max_seq = 16777216) by reflexivity.
  assert (Halive : forall m, alive now (seq_entry m) = seq_entry m) by (intros m; unfold seq_entry; by destruct (m =? 0)).
  destruct (Z.eqb_spec n 0) as [->|Hz].
  - exists (seq_entry 1), 1. split; [done|]. split; [done|]. by rewrite Halive.
  - rewrite int_of_pretty by (unfold int64; lia). destruct (Z.eqb_spec n (2 ^ 63 - 1)) as [E|_]; [lia|].
    exists (seq_entry (n + 1)), (n + 1). split; [unfold seq_entry; destruct (Z.eqb_spec (n + 1) 0); [lia | done]|].
    split; [done|]. by rewrite Halive.
Qed.

Lemma enqueue_stamped_triple e : 0 <= n < max_seq -> entry_ok key e -> Forall (pair_ok key n) l ->
  triple start (enqueue_stamped key e) (success (fun _ f => exists l', map fst l' = s_enqueue e q /\ rep key l' (s_enqueue e q) (n + 1) f)).
Proof.
  intros Hn He Hok. eapply triple_ebind; [apply triple_wrap, incr_triple; lia|]. intros m.
  apply triple_pure. intros ->. unfold s_enqueue.
  eapply (triple_ebind _ _ _ _ _ _ (fun added f =>
    if s_has q (e_Proposal e) then added = 0 /\ rep key l q (n + 1) f
    else added = 1 /\ rep key (pinsert (e, n + 1) l) q (n + 1) f)).
  - apply triple_wrap, (triple_redis_int env key KQueue); [done | apply rep_stable|]. intros now f Hf.
    cbn [cmd_spec]. rewrite (rp_queue _ _ _ _ _ Hf), on_zset_zentry.
    destruct (s_has q (e_Proposal e)) eqn:Hh.
    + apply pairs_have, list_elem_of_fmap in Hh as (a & E & Ha). rewrite E, (zmap_lookup l a (rp_nodup _ _ _ _ _ Hf) Ha).
      do 2 eexists. split; [reflexivity|]. split; [done|]. cbn [fst]. rewrite <- (rp_queue _ _ _ _ _ Hf). by apply rep_touch.
    + rewrite zmap_lookup_None by (intros Hp%pairs_have; congruence).
      do 2 eexists. split; [reflexivity|]. split; [done|]. cbn [fst]. rewrite zentry_alive by done.
      apply rep_zinsert; [done | | | done |].
      * lia.
      * by replace (n + 1 - 1) with n by lia.
      * intros Hp%pairs_have; congruence.
  - intros added. destruct (s_has q (e_Proposal e)) eqn:Hh; apply triple_pure; intros ->.
    + apply triple_ok. intros f Hf. by exists l.
    + cbn [Z.eqb]. eapply (triple_ebind _ _ _ _ _ _ (fun _ f => rep key (pinsert (e, n + 1) l) (s_insert e q) (n + 1) f)).
      * apply triple_wrap, (triple_redis env key (KEntry (e_Proposal e))); [done | apply rep_stable|]. intros now f Hf.
        rewrite (rp_hash _ _ _ _ _ Hf). unfold hash_entry. rewrite (find_has _ Hh). cbn [cmd_spec].
        do 2 eexists. split; [reflexivity|]. split; [done|]. cbn [alive r_expires]. apply rep_hset; [done | by apply find_has].
      * intros _. apply triple_ok. intros f Hf. exists (pinsert (e, n + 1) l). by rewrite pinsert_fst.
Qed.

Lemma Enqueue_triple e : 0 <= n < max_seq -> entry_ok key e -> Forall (pair_ok key n) l ->
  triple start (Enqueue e) (success (fun _ f => Rep key (s_enqueue e q) (n + 1) f)).
Proof.
  intros Hn He Hok. unfold Enqueue. destruct He as (Hk & He). rewrite Hk.
  eapply triple_ebind; [by apply valid_triple|]. intros u.
  destruct (Z.eqb_spec (EnqueuedAt e) zeroTime) as [E|_]; [naive_solver|]. by apply enqueue_stamped_triple.
Qed.
End Ops.

Section Ops2.
Context `{R : RedisServer} (env : environment) (key : Key) (Hkey : Valid key = true).
Notation triple := (triple env key).

Lemma load_triple l hs n p : Forall (entry_ok key) hs ->
  triple (rep key l hs n) (loadEntry key p) (success (fun e f => e = load_spec key hs p /\ rep key l hs n f)).
Proof.
  intros Hok. eapply (triple_ebind _ _ _ _ _ _ (fun r f => exists h, r = RMap h /\ entryFromHash key p h = load_spec key hs p /\ rep key l hs n f)).
  - apply triple_wrap, (triple_redis env key (KEntry p)); [done | apply rep_stable|]. intros now f Hf.
    pose proof (rep_touch _ _ _ _ now (KEntry p) f Hf) as Ht. pose proof (rp_hash _ _ _ _ _ Hf p) as Hh.
    unfold load_spec, hash_entry in *. cbn [cmd_spec].
    destruct (find (fun e => e_Proposal e =? p) hs) as [e|] eqn:Ef; rewrite Hh in *; do 2 eexists; (split; [reflexivity|]); (split; [done|]).
    + eexists; split_and!; [done | | done]. apply find_some in Ef as [Hin Hp%Z.eqb_eq]. subst p.
      apply entry_roundtrip. rewrite Forall_forall in Hok. apply Hok. by apply list_elem_of_In.
    + eexists; split_and!; done.
  - intros r w Hw (h & -> & Hh & Hf). split; [done|]. by exists (load_spec key hs p); rewrite <- Hh at 1.
Qed.

Lemma entries_ok n l : Forall (pair_ok key n) l -> Forall (entry_ok key) (map fst l).
Proof. intros H. apply Forall_fmap. eapply Forall_impl; [exact H|]. by intros a [? _]. Qed.

Lemma head_removed a l : NoDup (map pair_prop (a :: l)) ->
  premove (pair_prop a) (a :: l) = l /\ s_remove (pair_prop a) (fst a :: map fst l) = map fst l.
Proof.
  intros Hnd. inversion Hnd as [|?? Ha _]; subst.
  assert (premove (pair_prop a) (a :: l) = l) as E.
  { unfold premove. simpl. rewrite Z.eqb_refl. simpl. clear Hnd. induction l as [|b k IH]; simpl; [done|].
    apply not_elem_of_cons in Ha as [Hb Ha]. rewrite (proj2 (Z.eqb_neq _ _)) by congruence. simpl. by rewrite IH. }
  split; [done|]. change (fst a :: map fst l) with (map fst (a :: l)). by rewrite <- premove_fst, E.
Qed.

Lemma del_triple l hs n p :
  triple (rep key l hs n) (redis (DEL (entryKey key p))) (success (fun _ f => rep key l (s_remove p hs) n f)).
Proof.
  apply (triple_redis env key (KEntry p)); [done | apply rep_stable|]. intros now f Hf.
  do 2 eexists. split; [reflexivity|]. split; [done|]. by apply rep_hdelete.
Qed.

Lemma Dequeue_triple l n :
  triple (rep key l (map fst l) n) (Dequeue key) (success (fun r f => r = head (map fst l) /\ Rep key (tail (map fst l)) n f)).
Proof.
  unfold Dequeue. eapply triple_ebind; [by apply valid_triple|]. intros u.
  eapply (triple_extract _ _ _ (NoDup (map pair_prop l) /\ Forall (pair_ok key n) l)); [by intros f [? ? ? ? ? ? ?]|]. intros [Hnd Hok].
  eapply (triple_ebind _ _ _ _ _ _ (fun r f => match l with
     | [] => r = RScored [] /\ rep key [] [] n f
     | a :: l' => r = RScored [zpair a] /\ rep key l' (map fst l) n f
     end)).
  - apply triple_wrap, (triple_redis env key KQueue); [done | apply rep_stable|]. intros now f Hf.
    cbn [cmd_spec]. rewrite (rp_queue _ _ _ _ _ Hf), on_zset_zentry.
    rewrite (zsorted_zmap key n) by (by destruct Hf as [? ? ? ? ? ? []]). pose proof (rep_zdelete Hf) as Hd.
    destruct l as [|a l']; cbn [map].
    + do 2 eexists. split; [reflexivity|]. split; [done|]. split; [done|]. cbn [fst]. rewrite <- (rp_queue _ _ _ _ _ Hf). by apply rep_touch.
    + do 2 eexists. split; [reflexivity|]. split; [done|]. split; [done|]. cbn [fst zpair]. rewrite zentry_alive by done.
      specialize (Hd (pair_prop a)). by rewrite (proj1 (head_removed a l' Hnd)) in Hd.
  - intros r. destruct l as [|a l']; apply triple_pure; intros ->.
    + apply triple_ok. intros f Hf. split; [done|]. by exists [].
    + cbn [zpair]. pose proof (entries_ok _ _ Hok) as He. inversion Hok as [|?? [Ha _] _]; subst. rewrite Atoi_pretty_ok by apply Ha.
      eapply triple_ebind; [by apply load_triple|]. intros e. apply triple_pure. intros ->.
      eapply triple_ebind; [apply triple_wrap, del_triple|]. intros v. apply triple_ok. intros f Hf.
      destruct (head_removed a l' Hnd) as [_ E]. cbn [map] in Hf. rewrite E in Hf. split; [|by exists l'].
      unfold load_spec. simpl. by rewrite Z.eqb_refl.
Qed.

Lemma zread_triple {A} l hs n c (g : gmap string Z -> gmap string Z * reply) (h : reply -> prog (string + A)) a msg :
  ckey c = queueKey key -> (forall now o, cmd_spec now c o = on_zset o g) -> fst (g (zmap l)) = zmap l ->
  (forall e, snd (g (zmap l)) <> RError e) ->
  (Forall (pair_ok key n) l -> NoDup (map pair_prop l) -> StronglySorted lexlt l -> n <= max_seq -> h (snd (g (zmap l))) = ok a) ->
  triple (rep key l hs n) (try! r := wrap msg (redis c) in h r) (success (fun x f => x = a /\ rep key l hs n f)).
Proof.
  intros Hc Hg Hf Hne Hh.
  eapply (triple_extract _ _ _ (Forall (pair_ok key n) l /\ NoDup (map pair_prop l) /\ StronglySorted lexlt l /\ n <= max_seq));
    [by intros f [? ? ? ? ? ? []]|]. intros (H1 & H2 & H3 & H4).
  eapply (triple_ebind _ _ _ _ _ _ (fun r f => r = snd (g (zmap l)) /\ rep key l hs n f)).
  - apply triple_wrap, (triple_redis env key KQueue); [done | apply rep_stable|]. intros now f Hr. rewrite Hg.
    destruct (rep_zread key l hs n now f g Hr Hf) as (o & E & Ho).
    exists o, (snd (g (zmap l))). by rewrite E.
  - intros r. apply triple_pure. intros ->. rewrite Hh by done. by apply triple_ok.
Qed.

(** *** Reads *)

Lemma IsEnqueued_triple l n p :
  triple (rep key l (map fst l) n) (IsEnqueued key p) (success (fun b f => b = s_has (map fst l) p /\ Rep key (map fst l) n f)).
Proof.
  unfold IsEnqueued. eapply triple_ebind; [by apply valid_triple|]. intros u.
  eapply triple_weaken; [eapply (zread_triple l _ n (ZSCORE (queueKey key) (pretty p)) _ _ (s_has (map fst l) p)); [done | reflexivity | done | |]|].
  - intros e. simpl. by case_match.
  - intros _ Hnd _ _. simpl. destruct (s_has (map fst l) p) eqn:Hh.
    + apply pairs_have, list_elem_of_fmap in Hh as (a & -> & Ha). by rewrite (zmap_lookup l a Hnd Ha).
    + rewrite zmap_lookup_None; [done|]. intros Hp%pairs_have. congruence.
  - intros r f (b & -> & -> & Hf). eexists. split; [done|]. split; [done|]. by exists l.
Qed.

Lemma zrank_zpair l p : forall i, 0 <= i ->
  match zrank_in (map zpair l) (pretty p) i with Some r => r + 1 | None => 0 end = s_position (map fst l) p (i + 1).
Proof.
  induction l as [|a l IH]; intros i Hi; simpl; [done|]. unfold str_eqb. case_bool_decide as E.
  - apply (inj pretty) in E. unfold pair_prop in E. by rewrite E, Z.eqb_refl.
  - rewrite (proj2 (Z.eqb_neq _ _)) by (intros H; apply E; unfold pair_prop; by rewrite H). apply IH. lia.
Qed.

Lemma Position_triple l n p :
  triple (rep key l (map fst l) n) (Position key p) (success (fun r f => r = s_position (map fst l) p 1 /\ Rep key (map fst l) n f)).
Proof.
  unfold Position. eapply triple_ebind; [by apply valid_triple|]. intros u.
  eapply triple_weaken; [eapply (zread_triple l _ n (ZRANK (queueKey key) (pretty p)) _ _ (s_position (map fst l) p 1)); [done | reflexivity | done | |]|].
  - intros e. simpl. by case_match.
  - intros Hok Hnd Hs Hn. simpl. rewrite (zsorted_zmap key n) by done.
    pose proof (zrank_zpair l p 0 ltac:(lia)) as Hr. change (0 + 1) with 1 in Hr. destruct (zrank_in _ _ _) as [r|]; by rewrite <- Hr.
  - intros r f (b & -> & -> & Hf). eexists. split; [done|]. split; [done|]. by exists l.
Qed.

Lemma QueueDepth_triple l n :
  triple (rep key l (map fst l) n) (QueueDepth key) (success (fun r f => r = blen (map fst l) /\ Rep key (map fst l) n f)).
Proof.
  unfold QueueDepth. eapply triple_ebind; [by apply valid_triple|]. intros u.
  apply triple_wrap, (triple_redis_int env key KQueue); [done | apply rep_stable|]. intros now f Hf.
  destruct (rep_zread key l _ n now f (fun z => (z, RInt (Z.of_nat (size z)))) Hf eq_refl) as (o & E & Ho).
  exists o. eexists. split; [exact E|]. split; [|by exists l]. unfold blen, zmap.
  rewrite map_size_list_to_map by (apply zmap_nodup, (rp_nodup _ _ _ _ _ Hf)). by rewrite !length_map.
Qed.

Lemma loads_triple l n k : Forall (pair_ok key n) l -> NoDup (map pair_prop l) -> k ⊆ l ->
  triple (rep key l (map fst l) n)
    (mapM (fun m => match Atoi m with None => fail ("RedisStorage.PeekAll parse member " +:+ m) | Some proposal => loadEntry key proposal end)
          (map fst (map zpair k)))
    (success (fun es f => es = map fst k /\ rep key l (map fst l) n f)).
Proof.
  intros Hok Hnd. induction k as [|a k IH]; intros Hk; simpl; [by apply triple_ok|].
  assert (Ha : a ∈ l) by (apply Hk; left). pose proof (proj1 (Forall_forall _ _) Hok a Ha) as [Hae _].
  rewrite Atoi_pretty_ok by apply Hae.
  eapply triple_ebind; [apply load_triple, (entries_ok n), Hok|]. intros e. apply triple_pure. intros ->.
  eapply triple_ebind; [apply IH; intros x Hx; apply Hk; by right|]. intros es. apply triple_pure. intros ->.
  apply triple_ok. intros f Hf. split; [|done]. f_equal. unfold load_spec.
  destruct (find (fun e => e_Proposal e =? pair_prop a) (map fst l)) as [e|] eqn:Ef.
  - apply find_some in Ef as [Hin He%Z.eqb_eq]. apply in_map_iff in Hin as (b & <- & Hb).
    f_equal. apply list_elem_of_In in Hb. apply list_elem_of_lookup in Hb as [i Hi]. apply list_elem_of_lookup in Ha as [j Hj].
    assert (i = j) as ->; [|apply Some_inj; transitivity (l !! j); done].
    apply (NoDup_lookup (pair_prop <$> l) i j (pair_prop a)); [done | |]; rewrite list_lookup_fmap; [rewrite Hi | rewrite Hj]; [|done].
    simpl. f_equal. exact He.
  - exfalso. assert (s_has (map fst l) (pair_prop a) = true) as Hh by (apply pairs_have, list_elem_of_fmap_2, Ha).
    apply existsb_exists in Hh as (x & Hx & E). by rewrite (find_none _ _ Ef x Hx) in E.
Qed.

Lemma PeekAll_triple l n :
  triple (rep key l (map fst l) n) (PeekAll key) (success (fun r f => r = map fst l /\ Rep key (map fst l) n f)).
Proof.
  unfold PeekAll. eapply triple_ebind; [by apply valid_triple|]. intros u.
  eapply (triple_extract _ _ _ (NoDup (map pair_prop l) /\ Forall (pair_ok key n) l)); [by intros f [? ? ? ? ? ? ?]|]. intros [Hnd Hok].
  eapply (triple_ebind _ _ _ _ _ _ (fun r f => r = RList (map fst (map zpair l)) /\ rep key l (map fst l) n f)).
  - apply triple_wrap, (triple_redis env key KQueue); [done | apply rep_stable|]. intros now f Hf.
    destruct (rep_zread key l _ n now f (fun z => (z, RList (map fst (zsorted z)))) Hf eq_refl) as (o & E & Ho).
    exists o. eexists. split; [exact E|]. split; [done|]. split; [|done]. cbn [snd]. f_equal.
    by rewrite (zsorted_zmap key n) by (by destruct Hf as [? ? ? ? ? ? []]).
  - intros r. apply triple_pure. intros ->. eapply triple_weaken; [by apply loads_triple|].
    intros r f (es & -> & -> & Hf). eexists. split; [done|]. split; [done|]. by exists l.
Qed.

(** *** Removals *)

Definition kclear (p : Z) : list (key_kind * command) :=
  [(KQueue, ZREM (queueKey key) (pretty p)); (KEntry p, DEL (entryKey key p))].

Lemma vrun_clear now l hs n f p rest : rep key l hs n f ->
  exists f1 m, rep key (premove p l) (s_remove p hs) n f1 /\
    vrun now (kclear p ++ rest) f =
      (fst (vrun now rest f1), RInt (if s_has (map fst l) p then 1 else 0) :: RInt m :: snd (vrun now rest f1)).
Proof.
  intros Hf. cbn [kclear app vrun]. 
  assert (E : cmd_spec now (ZREM (queueKey key) (pretty p)) (f KQueue) =
    (zentry (delete (pretty p) (zmap l)) None, RInt (if s_has (map fst l) p then 1 else 0))).
  { cbn [cmd_spec]. rewrite (rp_queue _ _ _ _ _ Hf), on_zset_zentry. destruct (s_has (map fst l) p) eqn:Hh.
    - apply pairs_have, list_elem_of_fmap in Hh as (a & -> & Ha). by rewrite (zmap_lookup l a (rp_nodup _ _ _ _ _ Hf) Ha).
    - rewrite zmap_lookup_None by (intros Hp%pairs_have; congruence). cbn [fst snd].
      by rewrite delete_id by (apply zmap_lookup_None; intros Hp%pairs_have; congruence). }
  rewrite E, zentry_alive by done. cbn [cmd_spec alive].
  do 2 eexists. split; [exact (rep_hdelete (rep_zdelete Hf p) p)|]. by destruct (vrun now rest _).
Qed.

Definition other_kind (kd : key_kind) : Prop := kd <> KQueue /\ kd <> KSeq /\ forall p, kd <> KEntry p.

Lemma vrun_other now l hs n extra : forall f, rep key l hs n f ->
  Forall (fun kc => other_kind (fst kc) /\ forall o e, snd (cmd_spec now (snd kc) o) <> RError e) extra ->
  rep key l hs n (fst (vrun now extra f)) /\ first_error (snd (vrun now extra f)) = None.
Proof.
  induction extra as [|[kd c] extra IH]; intros f Hf H; [done|]. inversion H as [|?? [(H1 & H2 & H3) Hne] Hrest]; subst. simpl in *.
  specialize (Hne (f kd)). destruct (cmd_spec now c (f kd)) as [o r].
  destruct (IH (set_key f kd (alive now o))) as [Hr He]; [by apply rep_other | done|].
  destruct (vrun now extra _) as [f' rs]. simpl in *. split; [done|]. destruct r; try done. by destruct (Hne e).
Qed.

Lemma clear_triple l n p msg extra :
  Forall (fun kc => ckey (snd kc) = redis_key key (fst kc)) extra ->
  (forall now, Forall (fun kc => other_kind (fst kc) /\ forall o e, snd (cmd_spec now (snd kc) o) <> RError e) extra) ->
  triple (rep key l (map fst l) n)
    (try! _ := validateKey key in try! _ := wrap msg (redis_tx (clear_commands key p ++ map snd extra)) in ok tt)
    (success (fun _ f => Rep key (s_remove p (map fst l)) n f)).
Proof.
  intros Hc Ho. eapply triple_ebind; [by apply valid_triple|]. intros u.
  change (clear_commands key p ++ map snd extra) with (map snd (kclear p ++ extra)).
  eapply (triple_ebind _ _ _ _ _ _ (fun _ f => Rep key (s_remove p (map fst l)) n f)).
  - apply triple_wrap, (triple_redis_tx env key); [by repeat constructor | apply rep_stable|]. intros now f Hf.
    destruct (vrun_clear now l _ n f p extra Hf) as (f1 & m & H1 & ->). destruct (vrun_other now _ _ _ extra f1 H1 (Ho now)) as [H2 H3].
    split; [done|]. exists (premove p l). split; [by rewrite premove_fst | done].
  - intros u'. by apply triple_ok.
Qed.

Lemma Remove_triple l n p : triple (rep key l (map fst l) n) (RedisStorage_Remove key p) (success (fun _ f => Rep key (s_remove p (map fst l)) n f)).
Proof. apply (clear_triple l n p _ []); [constructor | by constructor]. Qed.

Lemma MarkCompleted_triple l n p : triple (rep key l (map fst l) n) (MarkCompleted key p) (success (fun _ f => Rep key (s_remove p (map fst l)) n f)).
Proof.
  apply (clear_triple l n p _ [(KFailed p, DEL (failedKey key p)); (KBlocked p, DEL (blockedKey key p))]); [by repeat constructor|].
  intros now. repeat constructor; done.
Qed.

Lemma MarkFailed_triple ttl l n p r : triple (rep key l (map fst l) n) (MarkFailed ttl key p r) (success (fun _ f => Rep key (s_remove p (map fst l)) n f)).
Proof.
  apply (clear_triple l n p _ [(KFailed p, SET (failedKey key p) r (Some (reasonExpiry ttl)))]); [by repeat constructor|].
  intros now. repeat constructor; done.
Qed.

Lemma MarkBlocked_triple ttl l n p r : triple (rep key l (map fst l) n) (MarkBlocked ttl key p r) (success (fun _ f => Rep key (s_remove p (map fst l)) n f)).
Proof.
  apply (clear_triple l n p _ [(KBlocked p, SET (blockedKey key p) r (Some (reasonExpiry ttl)))]); [by repeat constructor|].
  intros now. repeat constructor; done.
Qed.

Lemma reason_triple l n what kd : other_kind kd ->
  triple (rep key l (map fst l) n) (get_reason what (redis_key key kd)) (fun _ f => Rep key (map fst l) n f).
Proof.
  intros (H1 & H2 & H3). apply triple_ebind_any.
  - apply (triple_bind _ _ _ _ _ _ (fun _ f => Rep key (map fst l) n f)); [|intros r; by apply triple_ret].
    apply (triple_redis_any env key kd); [done | apply rep_stable|]. intros now f Hf. exists l. split; [done|]. by apply rep_other.
  - intros r. destruct r; by apply triple_ret.
Qed.

(** *** The batch *)

Inductive batch_replies (has : Z -> bool) : list Z -> list reply -> Prop :=
| br_nil : batch_replies has [] []
| br_cons p ps m rs : batch_replies has ps rs -> batch_replies has (p :: ps) (RInt (if has p then 1 else 0) :: RInt m :: rs).

Lemma batch_replies_ext has has' ps rs : (forall p, p ∈ ps -> has p = has' p) -> batch_replies has ps rs -> batch_replies has' ps rs.
Proof.
  intros He H. induction H as [|p ps m rs H IH]; [constructor|]. rewrite (He p) by left. constructor. apply IH. intros; apply He; by right.
Qed.

Lemma batch_no_error has ps rs : batch_replies has ps rs -> first_error rs = None.
Proof. by induction 1. Qed.

Lemma s_has_remove p p' k : p' <> p -> s_has (s_remove p k) p' = s_has k p'.
Proof.
  intros Hne. unfold s_has, s_remove. induction k as [|e k IH]; simpl; [done|].
  destruct (Z.eqb_spec (e_Proposal e) p) as [E|]; simpl; [|by rewrite IH].
  rewrite IH, (proj2 (Z.eqb_neq _ _)) by congruence. done.
Qed.

Lemma vrun_batch now n ps : NoDup ps -> forall l hs f, rep key l hs n f ->
  exists l' f' rs, map fst l' = fold_left (fun k p => s_remove p k) ps (map fst l) /\
    rep key l' (fold_left (fun k p => s_remove p k) ps hs) n f' /\
    vrun now (concat (map kclear ps)) f = (f', rs) /\ batch_replies (s_has (map fst l)) ps rs.
Proof.
  induction 1 as [|p ps Hp Hnd IH]; intros l hs f Hf; simpl; [exists l, f, []; split_and!; try done; constructor|].
  destruct (vrun_clear now l hs n f p (concat (map kclear ps)) Hf) as (f1 & m & H1 & E). cbn [app] in E.
  destruct (IH _ _ _ H1) as (l' & f' & rs & E1 & H2 & E2 & H3). rewrite premove_fst in *. rewrite E2 in E. cbn [fst snd] in E.
  exists l', f'. eexists. split; [done|]. split; [done|]. split; [exact E|]. constructor.
  eapply batch_replies_ext; [|exact H3]. intros p' Hp'. apply s_has_remove. congruence.
Qed.

Lemma claimed_batch has g loaded ps rs : batch_replies has ps rs -> forall mp, NoDup ps ->
  (forall p, p ∈ ps -> loaded !! p = Some (g p)) ->
  claimed ps loaded (remCmds ps rs mp) = inr (concat (map (fun p => if has p then [g p] else []) ps)).
Proof.
  induction 1 as [|p ps m rs H IH]; intros mp Hnd Hl; simpl; [done|]. inversion Hnd as [|?? Hp Hnd']; subst.
  rewrite remCmds_notin, lookup_insert_eq, (Hl p) by (done || left).
  rewrite IH by (try done; intros; apply Hl; by right). by destruct (has p).
Qed.

Lemma loaded_lookup (g : Z -> Entry) p ps : forall mp : gmap Z Entry, p ∈ ps \/ mp !! p = Some (g p) ->
  fold_left (fun m pe => <[fst pe := snd pe]> m) (combine ps (map g ps)) mp !! p = Some (g p).
Proof.
  induction ps as [|p' ps IH]; intros mp H; simpl; [destruct H as [H|H]; [by apply elem_of_nil in H | done]|].
  apply IH. destruct (decide (p' = p)) as [->|Hne]; [right; by rewrite lookup_insert_eq|].
  destruct H as [[?|?]%elem_of_cons|H]; [congruence | by left | right; by rewrite lookup_insert_ne].
Qed.

Lemma filter_find k p : NoDup (map e_Proposal k) ->
  List.filter (fun e => e_Proposal e =? p) k = if s_has k p then [load_spec key k p] else [].
Proof.
  unfold load_spec. induction k as [|e k IH]; simpl; [done|]. intros Hnd. inversion Hnd as [|?? He Hnd']; subst.
  destruct (Z.eqb_spec (e_Proposal e) p) as [<-|]; simpl; [|by apply IH]. f_equal. rewrite IH by done.
  destruct (s_has k (e_Proposal e)) eqn:Hh; [|done]. exfalso. apply He.
  apply existsb_exists in Hh as (x & Hx & E%Z.eqb_eq). rewrite <- E. apply list_elem_of_fmap_2. by apply list_elem_of_In.
Qed.

Lemma mapM_loads l n ps : Forall (pair_ok key n) l ->
  triple (rep key l (map fst l) n) (mapM (loadEntry key) ps)
    (success (fun es f => es = map (load_spec key (map fst l)) ps /\ rep key l (map fst l) n f)).
Proof.
  intros Hok. induction ps as [|p ps IH]; simpl; [by apply triple_ok|].
  eapply triple_ebind; [apply load_triple, (entries_ok n), Hok|]. intros e. apply triple_pure. intros ->.
  eapply triple_ebind; [exact IH|]. intros es. apply triple_pure. intros ->. by apply triple_ok.
Qed.

Lemma claim_commands_eq ps : claim_commands key ps = map snd (concat (map kclear ps)).
Proof. unfold claim_commands. induction ps as [|p ps IH]; simpl; [done|]. by rewrite IH. Qed.

Lemma DequeueBatch_triple l n ps : NoDup ps ->
  triple (rep key l (map fst l) n) (DequeueBatch key ps)
    (success (fun r f => r = s_take ps (map fst l) /\ Rep key (fold_left (fun k p => s_remove p k) ps (map fst l)) n f)).
Proof.
  intros Hnd. unfold DequeueBatch. eapply triple_ebind; [by apply valid_triple|]. intros u.
  destruct ps as [|p0 ps0] eqn:Eps; [apply triple_ok; intros f Hf; split; [done | by exists l]|]. rewrite <- Eps in *. clear Eps p0 ps0.
  eapply (triple_extract _ _ _ (NoDup (map pair_prop l) /\ Forall (pair_ok key n) l)); [by intros f [? ? ? ? ? ? ?]|]. intros [Hnl Hok].
  eapply triple_ebind; [by apply mapM_loads|]. intros es. apply triple_pure. intros ->.
  eapply (triple_ebind _ _ _ _ _ _ (fun rs f => batch_replies (s_has (map fst l)) ps rs /\ Rep key (fold_left (fun k p => s_remove p k) ps (map fst l)) n f)).
  - rewrite claim_commands_eq. apply triple_wrap, (triple_redis_tx env key); [|apply rep_stable|].
    + clear. induction ps as [|p ps IH]; simpl; [constructor|]. by repeat constructor.
    + intros now f Hf. destruct (vrun_batch now n ps Hnd l _ f Hf) as (l' & f' & rs & E1 & H2 & -> & H3).
      split; [by eapply batch_no_error|]. split; [done|]. exists l'. by rewrite <- E1 in H2 |- *.
  - intros rs. apply triple_pure. intros Hrs. apply triple_ret. intros f Hf.
    rewrite (claimed_batch _ (load_spec key (map fst l)) _ _ _ Hrs _ Hnd) by (intros p Hp; apply loaded_lookup; by left).
    eexists. split; [done|]. split; [|done]. unfold s_take. f_equal. apply map_ext. intros p. rewrite filter_find; [done|].
    by rewrite map_map.
Qed.
End Ops2.

(** ** Refinement *)

Definition op_valid (key : Key) (o : op) : Prop :=
  match o with OpEnqueue e => entry_ok key e | OpDequeueBatch ps => NoDup ps | _ => True end.

Definition is_enqueue (o : op) : Z := match o with OpEnqueue _ => 1 | _ => 0 end.

(** The answers of a list of operations. *)
Fixpoint results (ttl : Z) (key : Key) (ops : list op) : prog (list (string + out)) :=
  match ops with
  | [] => Ret []
  | o :: ops' => do! r := op_run ttl key o in do! rs := results ttl key ops' in Ret (r :: rs)
  end.

Fixpoint s_run (ops : list op) (q : list Entry) : list Entry * list (option out) :=
  match ops with
  | [] => (q, [])
  | o :: ops' => let '(q1, a) := s_step o q in let '(q2, rest) := s_run ops' q1 in (q2, a :: rest)
  end.

Definition answers (r : string + out) (a : option out) : Prop := match a with Some x => r = inr x | None => True end.

Section Refinement.
Context `{R : RedisServer} (env : environment) (ttl : Z) (key : Key) (Hkey : Valid key = true).

Lemma op_refines o q n : op_valid key o -> n + is_enqueue o <= max_seq ->
  triple env key (Rep key q n) (op_run ttl key o)
    (fun r f => answers r (snd (s_step o q)) /\ Rep key (fst (s_step o q)) (n + is_enqueue o) f).
Proof.
  intros Hv Hn w Hw (l & <- & Hr). pose proof (rp_n _ _ _ _ _ Hr) as H0. pose proof (rp_ok _ _ _ _ _ Hr) as Hok. revert w Hw Hr.
  change (triple env key (rep key l (map fst l) n) (op_run ttl key o)
    (fun r f => answers r (snd (s_step o (map fst l))) /\ Rep key (fst (s_step o (map fst l))) (n + is_enqueue o) f)).
  destruct o; cbn [op_run s_step fst snd answers is_enqueue] in *; rewrite ?Z.add_0_r.
  - eapply triple_omap; [apply Enqueue_triple; done || lia|]. done.
  - eapply triple_omap; [by apply Dequeue_triple|]. by intros a f [-> ?].
  - eapply triple_omap; [by apply PeekAll_triple|]. by intros a f [-> ?].
  - eapply triple_omap; [by apply DequeueBatch_triple|]. by intros a f [-> ?].
  - eapply triple_omap; [by apply QueueDepth_triple|]. by intros a f [-> ?].
  - eapply triple_omap; [by apply IsEnqueued_triple|]. by intros a f [-> ?].
  - eapply triple_omap; [by apply Position_triple|]. by intros a f [-> ?].
  - eapply triple_omap; [by apply Remove_triple|]. done.
  - eapply triple_omap; [by apply MarkCompleted_triple|]. done.
  - eapply triple_omap; [by apply MarkFailed_triple|]. done.
  - eapply triple_omap; [by apply MarkBlocked_triple|]. done.
  - eapply (triple_bind _ _ _ _ _ _ (fun _ f => Rep key (map fst l) n f)); [|intros r; by apply triple_ret].
    eapply triple_ebind; [by apply valid_triple|]. intros u. by apply (reason_triple env key l n _ (KFailed proposal)).
  - eapply (triple_bind _ _ _ _ _ _ (fun _ f => Rep key (map fst l) n f)); [|intros r; by apply triple_ret].
    eapply triple_ebind; [by apply valid_triple|]. intros u. by apply (reason_triple env key l n _ (KBlocked proposal)).
Qed.

Lemma ops_refine ops : forall q n, Forall (op_valid key) ops -> n + zsum (map is_enqueue ops) <= max_seq ->
  triple env key (Rep key q n) (results ttl key ops)
    (fun rs f => Forall2 answers rs (snd (s_run ops q)) /\ Rep key (fst (s_run ops q)) (n + zsum (map is_enqueue ops)) f).
Proof.
  induction ops as [|o ops IH]; intros q n Hv Hn; simpl in *; [apply triple_ret; intros f Hf; by rewrite Z.add_0_r|].
  inversion Hv as [|?? Ho Hops]; subst.
  assert (Hpos : 0 <= zsum (map is_enqueue ops)) by (clear; induction ops as [|o ops IH]; simpl; [lia|]; destruct o; simpl; lia).
  eapply triple_bind; [apply op_refines; [done | lia]|]. intros r. apply triple_pure. intros Ha.
  destruct (s_step o q) as [q1 a]. simpl in *. eapply triple_bind; [apply IH; [done | lia]|]. intros rs. apply triple_ret.
  intros f [Hrs Hf]. destruct (s_run ops q1) as [q2 rest]. simpl in *. rewrite Z.add_assoc. split; [by constructor | done].
Qed.

End Refinement.

(** Proposals 7 and 9 at priority 3, then 8 at priority 1. *)
Definition demo_ops : list op :=
  [OpEnqueue (demo_entry 7 3); OpEnqueue (demo_entry 9 3); OpEnqueue (demo_entry 8 1); OpEnqueue (demo_entry 7 1);
   OpPosition 9; OpDequeue; OpPeekAll; OpDequeueBatch [9; 4]; OpDequeue; OpQueueDepth].

Example demo_results :
  snd (run demo_env (results 0 acme demo_ops) (empty_world [])) =
  [inr OutUnit; inr OutUnit; inr OutUnit; inr OutUnit; inr (OutNum 3); inr (OutEntry (Some (demo_entry 8 1)));
   inr (OutEntries [demo_entry 7 3; demo_entry 9 3]); inr (OutEntries [demo_entry 9 3]); inr (OutEntry (Some (demo_entry 7 3)));
   inr (OutNum 0)].
Proof. vm_compute. reflexivity. Qed.

Lemma Rep_empty key now : Rep key [] 0 (kv key {| w_db := (∅ : gmap string rentry); w_now := now; w_faults := []; w_step := 0; w_log := [] |}).
Proof.
  exists []. split; [done|]. split; try done; try constructor; unfold max_seq; try lia.
Qed.

