(* ===== verification/LandingGit.v ===== *)
(** * LandingGit: landing one proposal with git ([src/landing/strategies], [conflictresolver.go], [lockfile.go], [branchconflict.go], [filemanifest.go])

    The three landing strategies, the conflict resolver, the lock-file regeneration
    and the manifests, as programs that run child processes.  The answer of a command
    is its trimmed standard output and, when it failed, the message of its error, in
    which the classifiers look for git's phrasings. *)

From Stdlib Require Import Ascii String.
From stdpp Require Import gmap pretty.
From S2P Require Import Prelude GoStrings Redis Landing LandingProg LandingQueue.

(** ** Strings *)

(** [strings.Contains] *)
Fixpoint contains (s sub : string) : bool :=
  has_prefix sub s || match s with EmptyString => false | String _ s' => contains s' sub end.

Fixpoint has_suffix (s suf : string) : bool :=
  str_eqb s suf || match s with EmptyString => false | String _ s' => has_suffix s' suf end.

(** [strings.Join] *)
Fixpoint join (l : list string) (sep : string) : string :=
  match l with
  | [] => ""
  | [x] => x
  | x :: l' => x +:+ sep +:+ join l' sep
  end.

Definition byte_string (l : list N) : string := string_of_list_ascii (map ascii_of_N l).

(** The encodings of the runes [unicode.IsSpace] accepts. *)
Definition spaces : list string :=
  map byte_string
    ([[0x09]; [0x0A]; [0x0B]; [0x0C]; [0x0D]; [0x20]; [0xC2; 0x85]; [0xC2; 0xA0]; [0xE1; 0x9A; 0x80];
      [0xE2; 0x80; 0x80]; [0xE2; 0x80; 0x81]; [0xE2; 0x80; 0x82]; [0xE2; 0x80; 0x83]; [0xE2; 0x80; 0x84]; [0xE2; 0x80; 0x85];
      [0xE2; 0x80; 0x86]; [0xE2; 0x80; 0x87]; [0xE2; 0x80; 0x88]; [0xE2; 0x80; 0x89]; [0xE2; 0x80; 0x8A];
      [0xE2; 0x80; 0xA8]; [0xE2; 0x80; 0xA9]; [0xE2; 0x80; 0xAF]; [0xE2; 0x81; 0x9F]; [0xE3; 0x80; 0x80]]%N).

Definition rev_string (s : string) : string := string_of_list_ascii (rev (list_ascii_of_string s)).

(** Remove the given words from the front, as often as they come. *)
Fixpoint strip (words : list string) (fuel : nat) (s : string) : string :=
  match fuel with
  | O => s
  | S fuel' =>
      match find (fun w => has_prefix w s) words with
      | Some w => strip words fuel' (trim_prefix w s)
      | None => s
      end
  end.

(** [strings.TrimSpace]: a string has at most as many spaces as bytes. *)
Definition TrimSpace (s : string) : string :=
  let s := strip spaces (String.length s) s in
  rev_string (strip (map rev_string spaces) (String.length s) (rev_string s)).

Definition newline : string := byte_string [0x0A%N].

Definition splitLines (s : string) : list string :=
  let s := TrimSpace s in
  if str_eqb s "" then [] else List.filter (fun p => negb (str_eqb p "")) (split_on (ascii_of_N 0x0A) s).

(** ** Commands *)

Definition exec (dir : string) (env : list string) (name : string) (args : list string) : prog (string * option string) :=
  trigger (EExec dir env name args).

Definition git (dir : string) (args : list string) : prog (string * option string) := exec dir [] "git" args.

(** Run a command and drop its result. *)
Definition git_ignore (dir : string) (args : list string) : prog unit := do! _ := git dir args in Ret tt.

(** ** Error classifiers *)

Definition isBranchConflictError (errMsg : string) : bool :=
  contains errMsg "is already checked out at" || contains errMsg "is already used by worktree at".

Definition isMissingRemoteRefError (errMsg sourceBranch : string) : bool :=
  if negb (contains errMsg "couldn't find remote ref") then false
  else contains errMsg ("couldn't find remote ref " +:+ sourceBranch).

(** The same classifiers of the parent package. *)
Definition IsBranchConflictError (errMsg : string) : bool :=
  contains errMsg "is already checked out at" || contains errMsg "is already used by worktree at".

Definition IsMissingRemoteRefError (errMsg sourceBranch : string) : bool :=
  if negb (contains errMsg "couldn't find remote ref") then false
  else contains errMsg ("couldn't find remote ref " +:+ sourceBranch).

(** [\s+'([^']+)'] at the start *)
Definition match_path (s : string) : option string :=
  let is_s c := existsb (char_eqb c) (map ascii_of_N [0x09; 0x0A; 0x0C; 0x0D; 0x20]%N) in
  let '(ws, rest) := span is_s s in
  if str_eqb ws "" then None
  else match rest with
       | String "'" rest' =>
           let '(path, rest2) := span (fun c => negb (char_eqb c "'")) rest' in
           if str_eqb path "" then None else match rest2 with String _ _ => Some path | EmptyString => None end
       | _ => None
       end.

Definition worktreePathPattern : list string := ["already checked out at"; "already used by worktree at"].

(** The leftmost match. *)
Fixpoint ParseConflictingWorktreePath (errMsg : string) : string :=
  match find (fun w => has_prefix w errMsg && match match_path (trim_prefix w errMsg) with Some _ => true | None => false end) worktreePathPattern with
  | Some w => match match_path (trim_prefix w errMsg) with Some p => p | None => "" end
  | None => match errMsg with EmptyString => "" | String _ s' => ParseConflictingWorktreePath s' end
  end.

(** ** Strategies *)

Record Context := {
  c_RepoPath : string; c_WorktreePath : string; c_SourceBranch : string; c_TargetBranch : string; c_Proposal : Z; c_Remote : string
}.

Record PrepareResult := { pr_Success : bool; pr_Error : string; pr_HeadSHA : string; pr_Retryable : bool; pr_AlreadyMerged : bool }.

Inductive MergeStatus := StatusSuccess | StatusConflict | StatusError.
Record MergeResult := { m_Status : MergeStatus; m_MergedSHA : string; m_ConflictFiles : list string; m_ConflictDetails : string; m_Error : string }.

Inductive Strategy := RebaseStrategy | MergeCommitStrategy | SquashStrategy.

Definition strategies_New (name : string) : string + Strategy :=
  if str_eqb name "rebase" then inr RebaseStrategy
  else if str_eqb name "merge" then inr MergeCommitStrategy
  else if str_eqb name "squash" then inr SquashStrategy
  else inl ("unknown landing strategy: " +:+ name).

Definition classifyPrepareError (msg sourceBranch : string) : PrepareResult :=
  if isBranchConflictError msg then
    {| pr_Success := false; pr_Error := msg; pr_HeadSHA := ""; pr_Retryable := true; pr_AlreadyMerged := false |}
  else if isMissingRemoteRefError msg sourceBranch then
    {| pr_Success := false; pr_Error := msg; pr_HeadSHA := ""; pr_Retryable := false; pr_AlreadyMerged := true |}
  else {| pr_Success := false; pr_Error := msg; pr_HeadSHA := ""; pr_Retryable := false; pr_AlreadyMerged := false |}.

Definition cleanWorktreeState (dir : string) : prog unit :=
  do! _ := git_ignore dir ["rebase"; "--abort"] in
  do! _ := git_ignore dir ["merge"; "--abort"] in
  do! _ := git_ignore dir ["cherry-pick"; "--abort"] in
  do! _ := git_ignore dir ["reset"; "--hard"; "HEAD"] in
  git_ignore dir ["clean"; "-fd"].

(** Clean, fetch both branches, detach at the tip of a branch: the three strategies
    differ in the branch they start from. *)
Definition prepare_at (branch : string) (c : Context) : prog PrepareResult :=
  let dir := c_WorktreePath c in
  do! _ := cleanWorktreeState dir in
  do! fetched := git dir ["fetch"; c_Remote c; c_TargetBranch c; c_SourceBranch c] in
  match snd fetched with
  | Some err => Ret (classifyPrepareError err (c_SourceBranch c))
  | None =>
      do! checked := git dir ["checkout"; "--detach"; c_Remote c +:+ "/" +:+ branch] in
      match snd checked with
      | Some err => Ret (classifyPrepareError err (c_SourceBranch c))
      | None =>
          do! head := git dir ["rev-parse"; "HEAD"] in
          match snd head with
          | Some err => Ret (classifyPrepareError err (c_SourceBranch c))
          | None => Ret {| pr_Success := true; pr_Error := ""; pr_HeadSHA := fst head; pr_Retryable := false; pr_AlreadyMerged := false |}
          end
      end
  end.

Definition RebaseStrategy_Prepare (c : Context) : prog PrepareResult := prepare_at (c_SourceBranch c) c.
Definition MergeCommitStrategy_Prepare (c : Context) : prog PrepareResult := prepare_at (c_TargetBranch c) c.
Definition SquashStrategy_Prepare (c : Context) : prog PrepareResult := prepare_at (c_TargetBranch c) c.

Definition Prepare (s : Strategy) (c : Context) : prog PrepareResult :=
  match s with
  | RebaseStrategy => RebaseStrategy_Prepare c
  | MergeCommitStrategy => MergeCommitStrategy_Prepare c
  | SquashStrategy => SquashStrategy_Prepare c
  end.

Definition collectConflictFiles (dir : string) : prog (list string) :=
  do! r := git dir ["diff"; "--name-only"; "--diff-filter=U"] in
  Ret (match snd r with Some _ => [] | None => splitLines (fst r) end).

Definition merge_error (err : string) : MergeResult :=
  {| m_Status := StatusError; m_MergedSHA := ""; m_ConflictFiles := []; m_ConflictDetails := ""; m_Error := err |}.

Definition abort_args (s : Strategy) : list string :=
  match s with RebaseStrategy => ["rebase"; "--abort"] | _ => ["merge"; "--abort"] end.

Definition conflict_words (s : Strategy) : string :=
  match s with RebaseStrategy => "Rebase conflict in " | MergeCommitStrategy => "Merge conflict in " | SquashStrategy => "Squash merge conflict in " end.

(** The end of every [Execute] whose integration failed. *)
Definition execute_failed (s : Strategy) (dir err : string) : prog MergeResult :=
  do! conflictFiles := collectConflictFiles dir in
  do! _ := git_ignore dir (abort_args s) in
  Ret (match conflictFiles with
       | [] => merge_error err
       | _ => {| m_Status := StatusConflict; m_MergedSHA := ""; m_ConflictFiles := conflictFiles;
                 m_ConflictDetails := conflict_words s +:+ pretty (blen conflictFiles) +:+ " file(s)"; m_Error := "" |}
       end).

Definition execute_done (dir : string) : prog MergeResult :=
  do! head := git dir ["rev-parse"; "HEAD"] in
  Ret (match snd head with
       | Some err => merge_error err
       | None => {| m_Status := StatusSuccess; m_MergedSHA := fst head; m_ConflictFiles := []; m_ConflictDetails := ""; m_Error := "" |}
       end).

Definition RebaseStrategy_Execute (c : Context) : prog MergeResult :=
  let dir := c_WorktreePath c in
  do! r := git dir ["rebase"; c_Remote c +:+ "/" +:+ c_TargetBranch c] in
  match snd r with None => execute_done dir | Some err => execute_failed RebaseStrategy dir err end.

Definition MergeCommitStrategy_Execute (c : Context) : prog MergeResult :=
  let dir := c_WorktreePath c in
  let msg := "Merge PR #" +:+ pretty (c_Proposal c) +:+ " from " +:+ c_SourceBranch c in
  do! r := git dir ["merge"; "--no-ff"; c_Remote c +:+ "/" +:+ c_SourceBranch c; "-m"; msg] in
  match snd r with None => execute_done dir | Some err => execute_failed MergeCommitStrategy dir err end.

Definition SquashStrategy_Execute (c : Context) : prog MergeResult :=
  let dir := c_WorktreePath c in
  do! r := git dir ["merge"; "--squash"; c_Remote c +:+ "/" +:+ c_SourceBranch c] in
  match snd r with
  | Some err => execute_failed SquashStrategy dir err
  | None =>
      let msg := "Squash merge PR #" +:+ pretty (c_Proposal c) +:+ " from " +:+ c_SourceBranch c in
      do! r := git dir ["commit"; "-m"; msg] in
      match snd r with None => execute_done dir | Some err => execute_failed SquashStrategy dir err end
  end.

Definition Execute (s : Strategy) (c : Context) : prog MergeResult :=
  match s with
  | RebaseStrategy => RebaseStrategy_Execute c
  | MergeCommitStrategy => MergeCommitStrategy_Execute c
  | SquashStrategy => SquashStrategy_Execute c
  end.

(** [rebasedSha] is the SHA a successful [Execute] captured, empty otherwise. *)
Definition RebaseStrategy_Finalize (rebasedSha : string) (c : Context) : prog (string + unit) :=
  let dir := c_WorktreePath c in
  try! sha := (if str_eqb rebasedSha "" then
                 do! r := git dir ["rev-parse"; "HEAD"] in
                 Ret (match snd r with Some err => inl ("RebaseStrategy.Finalize resolve HEAD: " +:+ err) | None => inr (fst r) end)
               else ok rebasedSha) in
  do! r := git dir ["push"; c_Remote c; "HEAD:" +:+ c_SourceBranch c; "--force-with-lease=" +:+ c_SourceBranch c] in
  match snd r with
  | Some err => fail ("RebaseStrategy.Finalize push source: " +:+ err)
  | None =>
      do! r := git dir ["push"; c_Remote c; sha +:+ ":" +:+ c_TargetBranch c] in
      Ret (match snd r with Some err => inl ("RebaseStrategy.Finalize push target: " +:+ err) | None => inr tt end)
  end.

Definition MergeCommitStrategy_Finalize (c : Context) : prog (string + unit) :=
  do! r := git (c_WorktreePath c) ["push"; c_Remote c; "HEAD:" +:+ c_TargetBranch c] in
  Ret (match snd r with Some err => inl ("MergeCommitStrategy.Finalize push target: " +:+ err) | None => inr tt end).

Definition SquashStrategy_Finalize (c : Context) : prog (string + unit) :=
  do! r := git (c_WorktreePath c) ["push"; c_Remote c; "HEAD:" +:+ c_TargetBranch c] in
  Ret (match snd r with Some err => inl ("SquashStrategy.Finalize push target: " +:+ err) | None => inr tt end).

Definition Finalize (s : Strategy) (rebasedSha : string) (c : Context) : prog (string + unit) :=
  match s with
  | RebaseStrategy => RebaseStrategy_Finalize rebasedSha c
  | MergeCommitStrategy => MergeCommitStrategy_Finalize c
  | SquashStrategy => SquashStrategy_Finalize c
  end.

Definition captured_sha (s : Strategy) (m : MergeResult) : string :=
  match s, m_Status m with RebaseStrategy, StatusSuccess => m_MergedSHA m | _, _ => "" end.

(** ** Worktrees *)

Definition addWorktree (repoPath worktreePath targetBranch : string) : prog (string + unit) :=
  do! _ := git_ignore repoPath ["worktree"; "remove"; "--force"; worktreePath] in
  do! _ := git_ignore repoPath ["worktree"; "prune"] in
  do! r := git repoPath ["worktree"; "add"; "--detach"; worktreePath; targetBranch] in
  Ret (match snd r with Some err => inl ("git worktree add " +:+ worktreePath +:+ ": " +:+ err) | None => inr tt end).

Definition removeWorktree (repoPath worktreePath : string) : prog (string + unit) :=
  do! r := git repoPath ["worktree"; "remove"; "--force"; worktreePath] in
  Ret (match snd r with Some err => inl ("git worktree remove " +:+ worktreePath +:+ ": " +:+ err) | None => inr tt end).

(** ** Conflict resolution *)

Inductive EscalationStrategy := EscalationReassign | EscalationNotify | EscalationPark | EscalationOther (s : string).

Record ConflictContext := {
  cc_RepoPath : string; cc_WorktreePath : string; cc_SourceBranch : string; cc_TargetBranch : string;
  cc_Proposal : Z; cc_IssueID : string; cc_ConflictFiles : list string; cc_ConflictDetails : string
}.

Inductive ResolutionStatus := ResolutionResolved | ResolutionEscalated | ResolutionParked.
Inductive ResolutionMethod := methodMergiraf | methodEscalation.

Record ResolutionResult := {
  rr_Status : ResolutionStatus; rr_Method : ResolutionMethod; rr_ResolvedFiles : list string; rr_UnresolvedFiles : list string;
  rr_EscalationAction : option EscalationStrategy; rr_Message : string
}.

Definition fileHasConflictMarkers (dir file : string) : prog bool :=
  do! r := exec dir [] "grep" ["-c"; "^<<<<<<<\|^=======\|^>>>>>>>"; file] in
  Ret (match snd r with
       | Some _ => false
       | None => match Atoi (TrimSpace (fst r)) with Some n => 0 <? n | None => false end
       end).

(** The loop over the conflict files: the clean ones are staged. *)
Fixpoint stage_clean (dir : string) (files : list string) : prog (string + (list string * list string)) :=
  match files with
  | [] => ok ([], [])
  | file :: files' =>
      do! hasConflict := fileHasConflictMarkers dir file in
      if hasConflict : bool then
        try! rest := stage_clean dir files' in ok (fst rest, file :: snd rest)
      else
        do! r := git dir ["add"; file] in
        match snd r with
        | Some err => fail ("stage resolved file " +:+ file +:+ ": " +:+ err)
        | None => try! rest := stage_clean dir files' in ok (file :: fst rest, snd rest)
        end
  end.

Definition attemptMergiraf (c : ConflictContext) : prog (string + ResolutionResult) :=
  try! split := stage_clean (cc_WorktreePath c) (cc_ConflictFiles c) in
  let '(resolvedFiles, unresolvedFiles) := split in
  match unresolvedFiles with
  | [] =>
      do! r := exec (cc_WorktreePath c) ["GIT_EDITOR=true"] "git" ["rebase"; "--continue"] in
      match snd r with
      | Some _ => ok {| rr_Status := ResolutionEscalated; rr_Method := methodMergiraf; rr_ResolvedFiles := resolvedFiles;
                        rr_UnresolvedFiles := cc_ConflictFiles c; rr_EscalationAction := None;
                        rr_Message := "Mergiraf resolved conflict files but rebase --continue failed" |}
      | None => ok {| rr_Status := ResolutionResolved; rr_Method := methodMergiraf; rr_ResolvedFiles := resolvedFiles;
                      rr_UnresolvedFiles := []; rr_EscalationAction := None; rr_Message := "" |}
      end
  | _ => ok {| rr_Status := ResolutionEscalated; rr_Method := methodMergiraf; rr_ResolvedFiles := resolvedFiles;
               rr_UnresolvedFiles := unresolvedFiles; rr_EscalationAction := None;
               rr_Message := "Mergiraf resolved " +:+ pretty (blen resolvedFiles) +:+ "/" +:+ pretty (blen (cc_ConflictFiles c)) +:+ " files" |}
  end.

Definition diffTruncateLimit : nat := 5000.

Definition conflictDiff (c : ConflictContext) : prog string :=
  do! r := git (cc_WorktreePath c) ("diff" :: cc_ConflictFiles c) in
  Ret (match snd r with
       | Some _ => "(unable to generate diff)"
       | None => if (diffTruncateLimit <? String.length (fst r))%nat then String.substring 0 diffTruncateLimit (fst r) else fst r
       end).

Definition escalation (status : ResolutionStatus) (action : EscalationStrategy) (c : ConflictContext) (msg : string) : ResolutionResult :=
  {| rr_Status := status; rr_Method := methodEscalation; rr_ResolvedFiles := []; rr_UnresolvedFiles := cc_ConflictFiles c;
     rr_EscalationAction := Some action; rr_Message := msg |}.

Definition escalateNotify (c : ConflictContext) : ResolutionResult :=
  escalation ResolutionEscalated EscalationNotify c
    ("Merge conflict on " +:+ cc_IssueID c +:+ " PR #" +:+ pretty (cc_Proposal c) +:+ " requires resolution. Files: " +:+ join (cc_ConflictFiles c) ", ").

Definition escalatePark (c : ConflictContext) : ResolutionResult :=
  escalation ResolutionParked EscalationPark c
    ("PR #" +:+ pretty (cc_Proposal c) +:+ " parked due to conflicts in: " +:+ join (cc_ConflictFiles c) ", " +:+
     ". Will auto-retry after other merges complete.").

Definition escalateReassign (c : ConflictContext) : prog ResolutionResult :=
  do! diffOutput := conflictDiff c in
  Ret (escalation ResolutionEscalated EscalationReassign c
    ("Conflict on " +:+ cc_IssueID c +:+ " PR #" +:+ pretty (cc_Proposal c) +:+ ". Files: " +:+ join (cc_ConflictFiles c) ", " +:+
     ". Agent should resolve and re-submit." +:+ newline +:+ newline +:+ "Diff:" +:+ newline +:+ diffOutput)).

Definition escalate (strategy : EscalationStrategy) (c : ConflictContext) : prog ResolutionResult :=
  match strategy with
  | EscalationReassign => escalateReassign c
  | EscalationPark => Ret (escalatePark c)
  | EscalationNotify | EscalationOther _ => Ret (escalateNotify c)
  end.

Definition with_files (c : ConflictContext) (files : list string) : ConflictContext :=
  {| cc_RepoPath := cc_RepoPath c; cc_WorktreePath := cc_WorktreePath c; cc_SourceBranch := cc_SourceBranch c;
     cc_TargetBranch := cc_TargetBranch c; cc_Proposal := cc_Proposal c; cc_IssueID := cc_IssueID c;
     cc_ConflictFiles := files; cc_ConflictDetails := cc_ConflictDetails c |}.

Definition Resolve (mergirafEnabled : bool) (strategy : EscalationStrategy) (c : ConflictContext) : prog (string + ResolutionResult) :=
  if mergirafEnabled then
    try! mergiraf := wrap "ConflictResolver.Resolve mergiraf" (attemptMergiraf c) in
    match rr_Status mergiraf with
    | ResolutionResolved => ok mergiraf
    | _ => do! r := escalate strategy (with_files c (rr_UnresolvedFiles mergiraf)) in ok r
    end
  else do! r := escalate strategy c in ok r.

(** ** Lock files *)

Definition lockFile (pm : string) : string :=
  if str_eqb pm "pnpm" then "pnpm-lock.yaml" else if str_eqb pm "npm" then "package-lock.json"
  else if str_eqb pm "yarn" then "yarn.lock" else if str_eqb pm "bun" then "bun.lockb" else "".

Definition regenCommand (pm : string) : list string :=
  if str_eqb pm "pnpm" then ["pnpm"; "install"; "--no-frozen-lockfile"] else if str_eqb pm "npm" then ["npm"; "install"]
  else if str_eqb pm "yarn" then ["yarn"; "install"] else if str_eqb pm "bun" then ["bun"; "install"] else [].

Definition gitattributesEntry (pm : string) : string :=
  if str_eqb (lockFile pm) "" then "" else lockFile pm +:+ " merge=ours".

Definition ShouldRegenerate (pm : string) (lockFileRegenerate : bool) : bool := lockFileRegenerate && negb (str_eqb pm "none").

Definition LockFileName (pm : string) : string := if str_eqb pm "none" then "" else lockFile pm.

(** [filepath.Join] of a directory and a plain file name: the file is the same, its
    cleaned spelling is not modelled. *)
Definition path_in (dir file : string) : string := dir +:+ "/" +:+ file.

(** The error of an unsuccessful regeneration. *)
Definition Regenerate (worktreePath pm : string) : prog (string + unit) :=
  let file := LockFileName pm in
  if str_eqb file "" then fail ("Unsupported package manager: " +:+ pm)
  else match regenCommand pm with
       | [] => fail ("No install command for: " +:+ pm)
       | name :: args =>
           do! exists_ := trigger (EStat (path_in worktreePath file)) in
           try! _ := (if exists_ : bool then
                        do! r := exec worktreePath [] "rm" [file] in Ret (match snd r with Some err => inl err | None => inr tt end)
                      else ok tt) in
           do! r := exec worktreePath [] name args in
           match snd r with
           | Some err => fail err
           | None =>
               do! r := git worktreePath ["add"; file] in
               Ret (match snd r with Some err => inl err | None => inr tt end)
           end
       end.

Definition EnsureGitAttributes (repoPath pm : string) : prog (string + unit) :=
  if str_eqb pm "none" then ok tt
  else
    let entry := gitattributesEntry pm in
    if str_eqb entry "" then ok tt
    else
      let path := path_in repoPath ".gitattributes" in
      do! r := trigger (ERead path) in
      let content := match r with Some c => c | None => "" end in
      if contains content entry then ok tt
      else
        let newContent := if str_eqb content "" || has_suffix content newline then content +:+ entry +:+ newline
                          else content +:+ newline +:+ entry +:+ newline in
        do! w := trigger (EWrite path newContent) in
        Ret (match w with Some err => inl ("EnsureGitAttributes write: " +:+ err) | None => inr tt end).

(** ** Manifests *)

Definition buildFileManifest (repoPath sourceBranch targetBranch remote : string) : prog (list string) :=
  do! r := git repoPath ["diff"; "--name-only"; remote +:+ "/" +:+ targetBranch +:+ "..." +:+ sourceBranch] in
  Ret (match snd r with Some _ => [] | None => splitLines (fst r) end).

Fixpoint buildFileManifests (repoPath : string) (entries : list Entry) (targetBranch remote : string) : prog (list FileManifest) :=
  match entries with
  | [] => Ret []
  | e :: entries' =>
      do! files := buildFileManifest repoPath (SourceBranch e) targetBranch remote in
      do! _ := trigger EClock in
      do! rest := buildFileManifests repoPath entries' targetBranch remote in
      Ret ({| Proposal := e_Proposal e; Files := files |} :: rest)
  end.
