(* ===== verification/LandingWorker.v ===== *)
(** * LandingWorker: the landing worker and pool ([src/landing/worker.go], [pool.go])

    [ProcessEntry] lands one proposal, [handleResult] records its disposition, [Start]
    holds the coordinator lock and loops, and the pool lands a batch of proposals
    whose files do not overlap, each in its own worktree.  The lock is a Redis key
    with a lease, acquired with [SET NX], extended and released by scripts that first
    compare its token. *)

From Stdlib Require Import Ascii String.
From stdpp Require Import gmap pretty.
From S2P Require Import Prelude GoStrings Redis Landing LandingProg LandingQueue LandingGit.

(** ** Configuration *)

(** The fields the worker reads, with the poster and the reason lifetime of its
    dependencies.  [TestTimeout] and [ProcessTimeout] kill a command: its answer is a
    failure.  Nothing reads [MaxRetries], [MergeRecordedTimeout] and the two status
    names. *)
Record WorkerConfig := {
  w_Key : Key; w_RepoPath : string; w_WorktreePath : string; w_Strategy : string; w_TestCommand : string;
  w_LockFileRegenerate : bool; w_Mergiraf : bool; w_PollInterval : Z; w_OnConflict : EscalationStrategy; w_OnTestFailure : string;
  w_DeleteBranchOnMerge : bool; w_PackageManager : string; w_Remote : string; w_TargetBranch : string;
  w_RetryablePrepareBackoffs : option (list Z); w_RecentlyMergedTTL : Z; w_hasPoster : bool; w_reasonTTL : Z
}.

(** Milliseconds. *)
Definition DefaultRetryablePrepareBackoffs : list Z := [5000; 15000; 30000].
Definition DefaultRecentlyMergedTTL : Z := 10 * 60 * 1000.
Definition lockTTL : Z := 5 * 60 * 1000.
Definition heartbeatInterval : Z := 60 * 1000.

(** ** The Redis client of the worker *)

Definition SetNX (key value : string) (ttl : Z) : prog (string + bool) :=
  try! n := wrap ("redis setnx " +:+ key) (redis_int (SETNX key value (Some ttl))) in ok (n =? 1).

(** [delIfMatchesScript] *)
Definition delIfMatchesScript (key token : string) : lua :=
  LCall (GET key) (fun r =>
    match r with
    | RBulk v => if str_eqb v token then LCall (DEL key) LReturn else LReturn (RInt 0)
    | _ => LReturn (RInt 0)
    end).

(** [expireIfMatchesScript] *)
Definition expireIfMatchesScript (key token : string) (ms : Z) : lua :=
  LCall (GET key) (fun r =>
    match r with
    | RBulk v => if str_eqb v token then LCall (PEXPIRE key ms) LReturn else LReturn (RInt 0)
    | _ => LReturn (RInt 0)
    end).

Definition script_bool (msg : string) (s : lua) : prog (string + bool) :=
  try! r := wrap msg (redis_script s) in
  match r with RInt n => ok (n =? 1) | _ => fail "redis: unexpected reply" end.

Definition DelIfMatches (key value : string) : prog (string + bool) :=
  script_bool ("redis compare-and-delete " +:+ key) (delIfMatchesScript key value).

Definition ExpireIfMatches (key value : string) (ttl : Z) : prog (string + bool) :=
  script_bool ("redis compare-and-expire " +:+ key) (expireIfMatchesScript key value ttl).

Definition redisClient_Get (key : string) : prog (string + string) :=
  try! r := wrap ("redis get " +:+ key) (redis (GET key)) in
  match r with RNil => ok "" | RBulk s => ok s | _ => fail "redis: unexpected reply" end.

(** ** One proposal *)

Definition result (e : Entry) (st : ProcessStatus) (msg : string) : ProcessResult :=
  {| p_Proposal := e_Proposal e; p_Status := st; p_Message := msg |}.

(** Retries while the failure is retryable and a backoff is left. *)
Fixpoint retry_prepare (s : Strategy) (c : Context) (backoffs : list Z) (prep : PrepareResult) : prog PrepareResult :=
  match backoffs with
  | [] => Ret prep
  | b :: backoffs' =>
      if negb (pr_Success prep) && pr_Retryable prep then
        do! _ := trigger (ESleep b) in
        do! prep' := Prepare s c in
        retry_prepare s c backoffs' prep'
      else Ret prep
  end.

Definition runTests (cfg : WorkerConfig) (dir : string) : prog (bool * string) :=
  do! r := exec dir [] "sh" ["-c"; w_TestCommand cfg] in
  Ret (match snd r with Some _ => false | None => true end, fst r).

(** Regenerate, test, finalize, delete the source branch. *)
Definition land_merged (cfg : WorkerConfig) (e : Entry) (s : Strategy) (c : Context) (sha : string) : prog ProcessResult :=
  do! regen := (if ShouldRegenerate (w_PackageManager cfg) (w_LockFileRegenerate cfg)
                then Regenerate (c_WorktreePath c) (w_PackageManager cfg) else ok tt) in
  match regen with
  | inl err => Ret (result e ProcessError ("Lock file regeneration failed: " +:+ err))
  | inr _ =>
      do! tests := (if str_eqb (w_TestCommand cfg) "" then Ret (true, "") else runTests cfg (c_WorktreePath c)) in
      if negb (fst tests) then Ret (result e ProcessTestFailure (snd tests))
      else
        do! fin := Finalize s sha c in
        match fin with
        | inl err => Ret (result e ProcessError err)
        | inr _ =>
            do! _ := (if w_DeleteBranchOnMerge cfg then git_ignore (c_WorktreePath c) ["push"; c_Remote c; "--delete"; SourceBranch e]
                      else Ret tt) in
            Ret (result e ProcessMerged "")
        end
  end.

(** Execute, then resolve a conflict. *)
Definition land_prepared (cfg : WorkerConfig) (e : Entry) (s : Strategy) (c : Context) : prog ProcessResult :=
  do! merge := Execute s c in
  match m_Status merge with
  | StatusError => Ret (result e ProcessError (or_else (m_Error merge) "Landing strategy failed"))
  | StatusConflict =>
      do! resolution := Resolve (w_Mergiraf cfg) (w_OnConflict cfg)
        {| cc_RepoPath := c_RepoPath c; cc_WorktreePath := c_WorktreePath c; cc_SourceBranch := c_SourceBranch c;
           cc_TargetBranch := c_TargetBranch c; cc_Proposal := e_Proposal e;
           cc_IssueID := or_else (IssueID e) ("PR-" +:+ pretty (e_Proposal e)); cc_ConflictFiles := m_ConflictFiles merge;
           cc_ConflictDetails := m_ConflictDetails merge |} in
      match resolution with
      | inl err => Ret (result e ProcessError err)
      | inr r =>
          match rr_Status r with
          | ResolutionResolved => land_merged cfg e s c (captured_sha s merge)
          | _ => Ret (result e ProcessConflict (or_else (rr_Message r) "Unresolved conflicts"))
          end
      end
  | StatusSuccess => land_merged cfg e s c (captured_sha s merge)
  end.

Definition entry_context (cfg : WorkerConfig) (e : Entry) : Context :=
  {| c_RepoPath := w_RepoPath cfg; c_WorktreePath := or_else (w_WorktreePath cfg) (w_RepoPath cfg);
     c_SourceBranch := SourceBranch e; c_TargetBranch := or_else (TargetBranch e) (w_TargetBranch cfg);
     c_Proposal := e_Proposal e; c_Remote := or_else (w_Remote cfg) "origin" |}.

Definition ProcessEntry (cfg : WorkerConfig) (e : Entry) : prog ProcessResult :=
  match strategies_New (w_Strategy cfg) with
  | inl err => Ret (result e ProcessError err)
  | inr s =>
      let c := entry_context cfg e in
      do! marker := redisClient_Get (completedKey (w_Key cfg) (e_Proposal e)) in
      if match marker with inr m => negb (str_eqb m "") | inl _ => false end then
        Ret (result e ProcessNoop "already landed (local marker)")
      else
        let backoffs := match w_RetryablePrepareBackoffs cfg with Some b => b | None => DefaultRetryablePrepareBackoffs end in
        do! prep := Prepare s c in
        do! prep := retry_prepare s c backoffs prep in
        if negb (pr_Success prep) then
          if pr_AlreadyMerged prep then Ret (result e ProcessNoop "source branch missing on remote (already landed)")
          else Ret (result e ProcessError ("Prepare failed: " +:+ pr_Error prep))
        else land_prepared cfg e s c
  end.

(** ** The disposition *)

Definition markRecentlyMerged (cfg : WorkerConfig) (proposal : Z) : prog unit :=
  let ttl := if w_RecentlyMergedTTL cfg <=? 0 then DefaultRecentlyMergedTTL else w_RecentlyMergedTTL cfg in
  do! now := trigger EClock in
  do! _ := SetNX (completedKey (w_Key cfg) proposal) (pretty (i64 now)) ttl in
  Ret tt.

Definition record_disposition (cfg : WorkerConfig) (r : ProcessResult) : prog (string + unit) :=
  let key := w_Key cfg in
  match p_Status r with
  | ProcessMerged =>
      try! _ := wrap "mark completed" (MarkCompleted key (p_Proposal r)) in
      do! _ := markRecentlyMerged cfg (p_Proposal r) in
      ok tt
  | ProcessNoop => wrap "mark completed (noop)" (MarkCompleted key (p_Proposal r))
  | ProcessConflict => wrap "mark blocked" (MarkBlocked (w_reasonTTL cfg) key (p_Proposal r) (or_else (p_Message r) "Merge conflict"))
  | ProcessTestFailure =>
      let reason := or_else (p_Message r) "Tests failed" in
      if str_eqb (w_OnTestFailure cfg) "park"
      then wrap "mark blocked (test-failure park)" (MarkBlocked (w_reasonTTL cfg) key (p_Proposal r) reason)
      else wrap "mark failed (test-failure)" (MarkFailed (w_reasonTTL cfg) key (p_Proposal r) reason)
  | ProcessError => wrap "mark failed" (MarkFailed (w_reasonTTL cfg) key (p_Proposal r) (or_else (p_Message r) "Unknown error"))
  end.

Definition handleResult (cfg : WorkerConfig) (e : Entry) (r : ProcessResult) : prog (string + unit) :=
  try! _ := record_disposition cfg r in
  do! _ := (if w_hasPoster cfg then do! _ := trigger (EPost e r) in Ret tt else Ret tt) in
  ok tt.

(** ** The worker loop *)

(** [None] when the iterations of the model are used up. *)
Fixpoint worker_loop (fuel : nat) (cfg : WorkerConfig) : prog (option (string + unit)) :=
  match fuel with
  | O => Ret None
  | S fuel' =>
      do! stopped := trigger EStopped in
      if stopped : bool then Ret (Some (inr tt))
      else
        do! paused := redisClient_Get (pausedKey (w_Key cfg)) in
        if match paused with inr p => negb (str_eqb p "") | inl _ => false end then
          do! _ := trigger (ESleep (w_PollInterval cfg)) in worker_loop fuel' cfg
        else
          do! popped := Dequeue (w_Key cfg) in
          match popped with
          | inl err => Ret (Some (inl ("Worker.Start dequeue: " +:+ err)))
          | inr None => do! _ := trigger (ESleep (w_PollInterval cfg)) in worker_loop fuel' cfg
          | inr (Some entry) =>
              do! r := ProcessEntry cfg entry in
              do! handled := handleResult cfg entry r in
              match handled with
              | inl err => Ret (Some (inl ("Worker.Start handle result: " +:+ err)))
              | inr _ => worker_loop fuel' cfg
              end
          end
  end.

(** Lock, loop, release: shared by the worker and the pool. *)
Definition locked (what busy : string) (cfg : WorkerConfig) (loop : prog (option (string + unit))) : prog (option (string + unit)) :=
  do! valid := validateKey (w_Key cfg) in
  match valid with
  | inl err => Ret (Some (inl err))
  | inr _ =>
      do! token := trigger EToken in
      match token with
      | inl err => Ret (Some (inl (what +:+ ".Start mint lock token: " +:+ err)))
      | inr lockToken =>
          do! acquired := SetNX (lockKey (w_Key cfg)) lockToken lockTTL in
          match acquired with
          | inl err => Ret (Some (inl (what +:+ ".Start acquire lock: " +:+ err)))
          | inr false => Ret (Some (inl (busy +:+ " is already running for " +:+ Key_String (w_Key cfg))))
          | inr true =>
              do! r := loop in
              do! _ := DelIfMatches (lockKey (w_Key cfg)) lockToken in
              Ret r
          end
      end
  end.

Definition Worker_Start (fuel : nat) (cfg : WorkerConfig) : prog (option (string + unit)) := locked "Worker" "another landing worker" cfg (worker_loop fuel cfg).

(** The heartbeat goroutine: one tick. *)
Definition heartbeatExtend (key token : string) (ttl : Z) : prog (string + bool) := ExpireIfMatches key token ttl.

Fixpoint startHeartbeat (ticks : nat) (key token : string) : prog unit :=
  match ticks with
  | O => Ret tt
  | S ticks' =>
      do! _ := trigger (ESleep heartbeatInterval) in
      do! _ := heartbeatExtend key token lockTTL in
      startHeartbeat ticks' key token
  end.

(** ** The pool *)

(** [filepath.Base] *)
Fixpoint last_slash (s acc : string) : string :=
  match s with
  | EmptyString => acc
  | String c s' => if char_eqb c "/" then last_slash s' s' else last_slash s' acc
  end.

Fixpoint trim_right_slash (s : string) : string :=
  match s with
  | EmptyString => EmptyString
  | String c s' => match trim_right_slash s' with
                   | EmptyString => if char_eqb c "/" then EmptyString else String c EmptyString
                   | t => String c t
                   end
  end.

Definition Base (path : string) : string :=
  if str_eqb path "" then "."
  else let t := trim_right_slash path in if str_eqb t "" then "/" else last_slash t t.

Definition sanitizeRepoID (repoID : string) : string := Base repoID.

Definition proposalWorktreePath (cfg : WorkerConfig) (proposal : Z) : string :=
  path_in (w_RepoPath cfg)
    (".landing-worktrees/" +:+ OrgID (w_Key cfg) +:+ "-" +:+ sanitizeRepoID (RepoID (w_Key cfg)) +:+ "-" +:+ pretty proposal).

Definition with_WorktreePath (cfg : WorkerConfig) (p : string) : WorkerConfig :=
  {| w_Key := w_Key cfg; w_RepoPath := w_RepoPath cfg; w_WorktreePath := p; w_Strategy := w_Strategy cfg;
     w_TestCommand := w_TestCommand cfg; w_LockFileRegenerate := w_LockFileRegenerate cfg; w_Mergiraf := w_Mergiraf cfg;
     w_PollInterval := w_PollInterval cfg; w_OnConflict := w_OnConflict cfg; w_OnTestFailure := w_OnTestFailure cfg;
     w_DeleteBranchOnMerge := w_DeleteBranchOnMerge cfg; w_PackageManager := w_PackageManager cfg; w_Remote := w_Remote cfg;
     w_TargetBranch := w_TargetBranch cfg; w_RetryablePrepareBackoffs := w_RetryablePrepareBackoffs cfg;
     w_RecentlyMergedTTL := w_RecentlyMergedTTL cfg; w_hasPoster := w_hasPoster cfg; w_reasonTTL := w_reasonTTL cfg |}.

Definition processOne (cfg : WorkerConfig) (entry : Entry) : prog ProcessResult :=
  let targetBranch := or_else (w_TargetBranch cfg) "main" in
  let worktreePath := proposalWorktreePath cfg (e_Proposal entry) in
  do! added := addWorktree (w_RepoPath cfg) worktreePath targetBranch in
  match added with
  | inl err => Ret (result entry ProcessError ("create worktree: " +:+ err))
  | inr _ =>
      do! r := ProcessEntry (with_WorktreePath cfg worktreePath) entry in
      do! _ := removeWorktree (w_RepoPath cfg) worktreePath in
      Ret r
  end.

(** Recording the dispositions: a failure is logged. *)
Fixpoint record_results (cfg : WorkerConfig) (l : list (Entry * ProcessResult)) : prog unit :=
  match l with
  | [] => Ret tt
  | (e, r) :: l' => do! _ := handleResult cfg e r in record_results cfg l'
  end.

(** Steps 2 to 5: fetch, compute the manifests, take the first independent batch. *)
Definition pick_batch (concurrency : Z) (cfg : WorkerConfig) (entries : list Entry) : prog (list FileManifest * option (list Z)) :=
  let remote := or_else (w_Remote cfg) "origin" in
  do! _ := git_ignore (w_RepoPath cfg) ["fetch"; remote] in
  do! manifests := buildFileManifests (w_RepoPath cfg) entries (or_else (w_TargetBranch cfg) "main") remote in
  Ret (manifests, head (IndependentBatches (BuildConflictGraph manifests) concurrency)).

(** [sched] interleaves the goroutines of the batch. *)
Definition processBatch (sched : list nat) (concurrency : Z) (cfg : WorkerConfig) : prog (string + list ProcessResult) :=
  try! entries := wrap "peek all" (PeekAll (w_Key cfg)) in
  match entries with
  | [] => ok []
  | _ =>
      do! picked := pick_batch concurrency cfg entries in
      match snd picked with
      | None => ok []
      | Some batch =>
          try! dequeued := wrap "dequeue batch" (DequeueBatch (w_Key cfg) batch) in
          match dequeued with
          | [] => ok []
          | _ =>
              do! results := par sched (map (processOne cfg) dequeued) in
              do! _ := record_results cfg (combine dequeued results) in
              ok results
          end
      end
  end.

Fixpoint pool_loop (scheds : list (list nat)) (concurrency : Z) (cfg : WorkerConfig) : prog (option (string + unit)) :=
  match scheds with
  | [] => Ret None
  | sched :: scheds' =>
      do! stopped := trigger EStopped in
      if stopped : bool then Ret (Some (inr tt))
      else
        do! paused := redisClient_Get (pausedKey (w_Key cfg)) in
        if match paused with inr p => negb (str_eqb p "") | inl _ => false end then
          do! _ := trigger (ESleep (w_PollInterval cfg)) in pool_loop scheds' concurrency cfg
        else
          do! results := processBatch sched concurrency cfg in
          match results with
          | inl err => Ret (Some (inl ("Pool.Start process batch: " +:+ err)))
          | inr [] => do! _ := trigger (ESleep (w_PollInterval cfg)) in pool_loop scheds' concurrency cfg
          | inr _ => pool_loop scheds' concurrency cfg
          end
  end.

Definition pool_Start (scheds : list (list nat)) (concurrency : Z) (cfg : WorkerConfig) : prog (option (string + unit)) :=
  if concurrency <=? 1 then Worker_Start (length scheds) cfg else locked "Pool" "another landing worker/pool" cfg (pool_loop scheds concurrency cfg).
