(* ===== verification/LandingSafety.v ===== *)
(** * LandingSafety: what a landing may push, and where it works

    For every answer of every command: nothing is pushed before the change was
    integrated, its lock file regenerated and its tests passed; a proposal is
    reported merged exactly when the push of the target branch succeeded; and all
    commands of a landing run in its own worktree. *)

From Stdlib Require Import Ascii String.
From stdpp Require Import gmap pretty.
From S2P Require Import Prelude GoStrings Redis Landing LandingProg LandingQueue LandingGit LandingWorker.

(** ** Observed commands *)

Definition obs_exec (o : obs) : option (string * string * list string * (string * option string)) :=
  match o with
  | Obs e x => match e in event X return X -> option (string * string * list string * (string * option string)) with
               | EExec dir _ name args => fun r => Some (dir, name, args, r)
               | _ => fun _ => None
               end x
  end.

Definition is_git (verb : string) (name : string) (args : list string) : bool :=
  str_eqb name "git" && match args with v :: _ => str_eqb v verb | [] => false end.

(** Any [git push]. *)
Definition pushes (o : obs) : bool :=
  match obs_exec o with Some (_, name, args, _) => is_git "push" name args | None => false end.

(** A push of the target branch that succeeded: [git push <remote> <refspec>]. *)
Definition target_pushed (o : obs) : bool :=
  match obs_exec o with Some (_, name, args, (_, None)) => is_git "push" name args && (length args =? 3)%nat | _ => false end.

(** The command that integrates the proposal, when it succeeded: the rebase, the
    merge or the squash commit, or the continuation of a rebase. *)
Definition integrates (c : Context) (o : obs) : Prop :=
  exists dir out args, obs_exec o = Some (dir, "git", args, (out, None)) /\
    (args = ["rebase"; c_Remote c +:+ "/" +:+ c_TargetBranch c] \/
     (exists msg, args = ["merge"; "--no-ff"; c_Remote c +:+ "/" +:+ c_SourceBranch c; "-m"; msg]) \/
     (exists msg, args = ["commit"; "-m"; msg]) \/ args = ["rebase"; "--continue"]).

Definition test_passed (cfg : WorkerConfig) (dir : string) (o : obs) : Prop :=
  exists out, o = Obs (EExec dir [] "sh" ["-c"; w_TestCommand cfg]) (out, None).

(** After the tests: pushes and [rev-parse] only. *)
Definition quiet (o : obs) : bool :=
  match obs_exec o with Some (_, name, args, _) => is_git "push" name args || is_git "rev-parse" name args | None => false end.

(** ** Events that are no push *)

Definition no_push (X : Type) (e : event X) : Prop :=
  match e with EExec _ _ name args => is_git "push" name args = false | _ => True end.

Lemma no_push_wp {A} (p : prog A) : all_events no_push p -> wp p (fun tr _ => Forall (fun o => pushes o = false) tr).
Proof.
  induction p as [a|X e k IH]; simpl; [constructor|]. intros [He Hk] x. eapply wp_weaken; [|exact (IH x (Hk x))].
  intros tr a H. constructor; [|done]. by destruct e.
Qed.

Lemma git_ignore_no_push dir args : is_git "push" "git" args = false -> all_events no_push (git_ignore dir args).
Proof. intros H. by repeat events_step. Qed.

Lemma Prepare_no_push s c : all_events no_push (Prepare s c).
Proof. destruct s; unfold Prepare, RebaseStrategy_Prepare, MergeCommitStrategy_Prepare, SquashStrategy_Prepare, prepare_at, cleanWorktreeState, git_ignore, git, exec; repeat events_step; done. Qed.

Lemma retry_no_push s c backoffs : forall prep, all_events no_push (retry_prepare s c backoffs prep).
Proof.
  induction backoffs as [|b backoffs IH]; intros prep; cbn [retry_prepare]; [done|].
  destruct (_ && _); [|done]. apply all_events_bind; [by repeat events_step|]. intros _.
  apply all_events_bind; [apply Prepare_no_push | apply IH].
Qed.

Lemma escalate_no_push st c : all_events no_push (escalate st c).
Proof. unfold escalate, escalateReassign, conflictDiff, git, exec. by repeat events_step. Qed.

Lemma Get_no_push k : all_events no_push (redisClient_Get k).
Proof. unfold redisClient_Get. by repeat events_step. Qed.

Lemma Regenerate_no_push dir pm : all_events no_push (Regenerate dir pm).
Proof.
  unfold Regenerate. destruct (str_eqb (LockFileName pm) ""); [done|]. unfold regenCommand.
  repeat match goal with |- all_events _ (match (if ?b then _ else _) with _ => _ end) => destruct b end;
    unfold git, exec; repeat events_step; done.
Qed.

(** A command and its two kinds of answer. *)
Ltac wp_exec out err := apply wp_pbind; intros [out [err|]]; apply wp_Ret; cbn [snd fst].

(** ** Integration *)

Lemma exists_app_l {A} (P : A -> Prop) l k : Exists P l -> Exists P (l ++ k).
Proof. intros. apply Exists_app. by left. Qed.

Definition no_pushes (tr : list obs) : Prop := Forall (fun o => pushes o = false) tr.

Lemma no_pushes_app a b : no_pushes (a ++ b) <-> no_pushes a /\ no_pushes b.
Proof. apply Forall_app. Qed.

(** A successful [Execute] ran its integrating command. *)
Lemma Execute_spec s c :
  wp (Execute s c) (fun tr m => no_pushes tr /\ (m_Status m = StatusSuccess -> Exists (integrates c) tr)).
Proof.
  assert (Hd : forall dir, wp (execute_done dir) (fun tr m => no_pushes tr)).
  { intros dir [out [err|]]; simpl; by repeat constructor. }
  assert (Hf : forall s' dir err, wp (execute_failed s' dir err) (fun tr m => no_pushes tr /\ m_Status m <> StatusSuccess)).
  { intros s' dir err. unfold execute_failed, collectConflictFiles. intros [out e1]. simpl. intros r2. simpl. split; [by destruct s'; repeat constructor|].
    by destruct (match e1 with Some _ => [] | None => splitLines out end). }
  destruct s; cbn [Execute]; unfold RebaseStrategy_Execute, MergeCommitStrategy_Execute, SquashStrategy_Execute; wp_exec out err.
  - eapply wp_weaken; [|apply Hf]. intros tr m [H1 H2]. split; [by constructor | done].
  - eapply wp_weaken; [|apply Hd]. intros tr m H. split; [by constructor|]. intros _. constructor. do 3 eexists. split; [done|]. by left.
  - eapply wp_weaken; [|apply Hf]. intros tr m [H1 H2]. split; [by constructor | done].
  - eapply wp_weaken; [|apply Hd]. intros tr m H. split; [by constructor|]. intros _. constructor. do 3 eexists. split; [done|]. right; left; eauto.
  - eapply wp_weaken; [|apply Hf]. intros tr m [H1 H2]. split; [by constructor | done].
  - wp_exec out2 err.
    + eapply wp_weaken; [|apply Hf]. intros tr m [H1 H2]. split; [by do 2 constructor | done].
    + eapply wp_weaken; [|apply Hd]. intros tr m H. split; [by do 2 constructor|]. intros _. apply Exists_cons_tl. constructor.
      do 3 eexists. split; [done|]. right; right; left; eauto.
Qed.

Lemma stage_no_push dir files : all_events no_push (stage_clean dir files).
Proof.
  induction files as [|f files IH]; cbn [stage_clean]; [done|]. unfold fileHasConflictMarkers, git, exec.
  repeat events_step; try done; exact IH.
Qed.

(** A resolution continued the rebase. *)
Lemma Resolve_spec mg st c cc :
  wp (Resolve mg st cc) (fun tr r => no_pushes tr /\ match r with
    | inr res => rr_Status res = ResolutionResolved -> Exists (integrates c) tr
    | inl _ => True end).
Proof.
  assert (He : forall cc', wp (do! r := escalate st cc' in ok r) (fun tr r => no_pushes tr /\ match r with
      | inr res => rr_Status res = ResolutionResolved -> Exists (integrates c) tr | inl _ => True end)).
  { intros cc'. apply wp_pbind. destruct st; cbn [escalate]; try (apply wp_Ret; split; [constructor | done]).
    intros r. split; [by repeat constructor | done]. }
  unfold Resolve. destruct mg; [|apply He]. apply wp_ebind, wp_wrap.
  unfold attemptMergiraf. apply wp_ebind. eapply wp_weaken; [|apply no_push_wp, stage_no_push].
  intros tr [err|[res unres]] Hn; [done|]. destruct unres as [|u unres].
  - wp_exec out err; apply wp_Ret; cbn [rr_Status].
    + eapply wp_weaken; [|apply He]. intros tr2 r [H1 H2]. split; [apply no_pushes_app; split; [|done]; apply no_pushes_app; split; [done | by repeat constructor]|].
      destruct r as [|r]; [done|]. intros Hr. apply Exists_app. right. auto.
    + split; [apply no_pushes_app; split; [apply no_pushes_app; split; [done | by repeat constructor] | constructor]|].
      intros _. apply Exists_app. left. apply Exists_app. right. constructor. do 3 eexists. split; [done|]. by do 3 right.
  - simpl. eapply wp_weaken; [|apply He]. intros tr2 r [H1 H2].
    split; [apply no_pushes_app; split; [apply no_pushes_app; split; [done | constructor] | done]|].
    destruct r as [|r]; [done|]. intros Hr. apply Exists_app. right. auto.
Qed.

(** ** Landing *)

Definition untargeted (tr : list obs) : Prop := Forall (fun o => target_pushed o = false) tr.

Lemma untargeted_not tr : untargeted tr -> ~ Exists (fun o => target_pushed o = true) tr.
Proof. intros H E. apply Exists_exists in E as (o & Ho & Ht). rewrite (proj1 (Forall_forall _ _) H o Ho) in Ht. done. Qed.

Lemma Finalize_spec s sha c :
  wp (Finalize s sha c) (fun tr r => Forall (fun o => quiet o = true) tr /\
    match r with inr _ => Exists (fun o => target_pushed o = true) tr | inl _ => untargeted tr end).
Proof.
  assert (Ht : forall dir ref words, wp (do! r := git dir ["push"; c_Remote c; ref] in Ret (match snd r with Some err => inl (words +:+ err) | None => inr tt end))
    (fun tr r => Forall (fun o => quiet o = true) tr /\ match r with inr _ => Exists (fun o => target_pushed o = true) tr | inl _ => untargeted tr end)).
  { intros dir ref words. wp_exec out err; apply wp_Ret; (split; [by repeat constructor|]); [by repeat constructor | by constructor]. }
  destruct s; cbn [Finalize]; unfold RebaseStrategy_Finalize; [|apply Ht..].
  assert (Hp : forall sha', wp (do! r := git (c_WorktreePath c) ["push"; c_Remote c; "HEAD:" +:+ c_SourceBranch c; "--force-with-lease=" +:+ c_SourceBranch c] in
      match snd r with
      | Some err => fail ("RebaseStrategy.Finalize push source: " +:+ err)
      | None => do! r := git (c_WorktreePath c) ["push"; c_Remote c; sha' +:+ ":" +:+ c_TargetBranch c] in
                Ret (match snd r with Some err => inl ("RebaseStrategy.Finalize push target: " +:+ err) | None => inr tt end)
      end)
    (fun tr r => Forall (fun o => quiet o = true) tr /\ match r with inr _ => Exists (fun o => target_pushed o = true) tr | inl _ => untargeted tr end)).
  { intros sha'. wp_exec out err; [apply wp_Ret; split; by repeat constructor|].
    eapply wp_weaken; [|apply Ht]. intros tr [e|u] [H1 H2]; (split; [by constructor|]); [by constructor | by apply Exists_cons_tl]. }
  apply wp_ebind. destruct (str_eqb sha ""); [|apply Hp].
  wp_exec out err; apply wp_Ret; [split; by repeat constructor|].
  eapply wp_weaken; [|apply Hp]. intros tr [e|u] [H1 H2]; (split; [by constructor|]); [by constructor | by apply Exists_cons_tl].
Qed.

(** No push, or: no push until the tests passed, then only the pushes. *)
Definition gated (cfg : WorkerConfig) (dir : string) (must : list obs -> Prop) (tr : list obs) (r : ProcessResult) : Prop :=
  (no_pushes tr /\ p_Status r <> ProcessMerged) \/
  exists pre fin, tr = pre ++ fin /\ no_pushes pre /\ must pre /\
    (w_TestCommand cfg <> "" -> exists pre' o, pre = pre' ++ [o] /\ test_passed cfg dir o) /\
    Forall (fun o => quiet o = true) fin /\
    (p_Status r = ProcessMerged <-> Exists (fun o => target_pushed o = true) fin).

Lemma gated_prefix cfg dir (must must' : list obs -> Prop) tr0 tr r :
  no_pushes tr0 -> (forall pre, must pre -> must' (tr0 ++ pre)) -> gated cfg dir must tr r -> gated cfg dir must' (tr0 ++ tr) r.
Proof.
  intros H0 Hm [[Hn Hs]|(pre & fin & -> & Hn & Hmust & Ht & Hq & Hs)]; [left; split; [by apply no_pushes_app | done]|].
  right. exists (tr0 ++ pre), fin. rewrite app_assoc. split_and!; try done; [by apply no_pushes_app | by apply Hm|].
  intros Hc. destruct (Ht Hc) as (pre' & o & -> & Ho). exists (tr0 ++ pre'), o. by rewrite app_assoc.
Qed.

Lemma land_merged_gated cfg e s c sha : wp (land_merged cfg e s c sha) (gated cfg (c_WorktreePath c) (fun _ => True)).
Proof.
  unfold land_merged. apply wp_pbind.
  eapply wp_weaken with (P := fun tr r => no_pushes tr).
  2:{ apply no_push_wp. destruct (ShouldRegenerate _ _); [apply Regenerate_no_push | done]. }
  intros tr0 [err|u] H0; [apply wp_Ret; rewrite app_nil_r; left; done|].
  eapply wp_weaken; [intros tr r H; apply (gated_prefix _ _ (fun _ => True)); [exact H0 | done | exact H]|].
  apply wp_pbind. eapply wp_weaken with (P := fun tr t => no_pushes tr /\ (fst t = true -> w_TestCommand cfg <> "" ->
    exists pre' o, tr = pre' ++ [o] /\ test_passed cfg (c_WorktreePath c) o)).
  2:{ destruct (str_eqb (w_TestCommand cfg) "") eqn:Et.
      - apply wp_Ret. split; [constructor|]. intros _ Hc. by apply str_eqb_true in Et.
      - unfold runTests. wp_exec out err; apply wp_Ret; (split; [by repeat constructor|]); [done|]. intros _ _.
        exists []. eexists. split; [done|]. by exists out. }
  intros tr1 [passed out] [H1 Ht]. destruct passed; cbn [fst negb]; [|apply wp_Ret; rewrite app_nil_r; left; done].
  apply wp_pbind. eapply wp_weaken; [|apply Finalize_spec]. intros tr2 [err|u2] [Hq Hr].
  - apply wp_Ret. rewrite app_nil_r. right. exists tr1, tr2. split_and!; auto. split; [done|]. intros E. by apply untargeted_not in Hr.
  - apply wp_pbind. destruct (w_DeleteBranchOnMerge cfg).
    + intros r. apply wp_Ret, wp_Ret. right. exists tr1. eexists. split; [done|]. split_and!; auto.
      * rewrite !Forall_app. by repeat constructor.
      * split; [|done]. intros _. apply Exists_app. by left.
    + apply wp_Ret, wp_Ret. rewrite !app_nil_r. right. exists tr1, tr2. split_and!; auto. done.
Qed.

Lemma land_prepared_gated cfg e s c : wp (land_prepared cfg e s c) (gated cfg (c_WorktreePath c) (Exists (integrates c))).
Proof.
  unfold land_prepared. apply wp_pbind. eapply wp_weaken; [|apply Execute_spec]. intros tr0 m [H0 Hi].
  destruct (m_Status m) eqn:Em; [| |apply wp_Ret; rewrite app_nil_r; by left].
  - eapply wp_weaken; [|apply land_merged_gated]. intros tr r. apply gated_prefix; [done|]. intros pre _. apply Exists_app. auto.
  - apply wp_pbind. eapply wp_weaken; [|apply (Resolve_spec _ _ c)]. intros tr1 [err|res] [H1 Hr].
    + apply wp_Ret. rewrite app_nil_r. left. split; [by apply no_pushes_app | done].
    + assert (Hn : no_pushes (tr0 ++ tr1)) by (by apply no_pushes_app).
      destruct (rr_Status res) eqn:Er; [|apply wp_Ret; rewrite app_nil_r; left; done..].
      eapply wp_weaken; [|apply land_merged_gated]. intros tr r Hg. rewrite app_assoc. eapply gated_prefix; [done| |exact Hg].
      intros pre _. apply Exists_app. left. apply Exists_app. auto.
Qed.

(** C6. Nothing untested is pushed.  Whatever git, the package manager, the tests and Redis
    answer while a proposal is landed: either no [git push] of any kind is made and
    the proposal is not reported merged, or the calls are a first part without any
    push, in which the proposal was integrated by a rebase, merge, squash commit or
    resolved conflict that succeeded and which ends with the test command succeeding
    in the landing's worktree (when one is configured), followed by pushes and
    [rev-parse] alone; and the proposal is reported merged exactly when the push of
    the target branch succeeded. *)
Theorem landing_gated cfg e :
  let c := entry_context cfg e in
  wp (ProcessEntry cfg e) (gated cfg (c_WorktreePath c) (Exists (integrates c))).
Proof.
  intros c. unfold ProcessEntry. destruct (strategies_New (w_Strategy cfg)) as [err|s]; [apply wp_Ret; left; split; [constructor | done]|]. fold c.
  apply wp_pbind. eapply wp_weaken; [|apply no_push_wp, Get_no_push]. intros tr0 marker H0.
  destruct (match marker with inr m => negb (str_eqb m "") | inl _ => false end); [apply wp_Ret; rewrite app_nil_r; by left|].
  apply wp_pbind. eapply wp_weaken; [|apply no_push_wp, Prepare_no_push]. intros tr1 prep H1.
  apply wp_pbind. eapply wp_weaken; [|apply no_push_wp, retry_no_push]. intros tr2 prep' H2.
  assert (Hn : no_pushes (tr0 ++ tr1 ++ tr2)) by (rewrite !no_pushes_app; done).
  destruct (negb (pr_Success prep')); [destruct (pr_AlreadyMerged prep'); apply wp_Ret; rewrite app_nil_r; left; (split; [exact Hn | done])|].
  eapply wp_weaken; [|apply land_prepared_gated]. intros tr r Hg. rewrite !app_assoc, <- (app_assoc tr0).
  eapply gated_prefix; [done| |exact Hg]. intros pre Hp. apply Exists_app. by right.
Qed.


(** ** Parallel landings *)

(** A call of the landing of [p]: in its worktree, or about its worktree. *)
Definition own_worktree (cfg : WorkerConfig) (p : Z) (X : Type) (ev : event X) : Prop :=
  let path := proposalWorktreePath cfg p in
  match ev with
  | EExec dir _ name args =>
      dir = path \/
      (dir = w_RepoPath cfg /\ name = "git" /\
       (args = ["worktree"; "remove"; "--force"; path] \/ args = ["worktree"; "prune"] \/
        exists target, args = ["worktree"; "add"; "--detach"; path; target]))
  | EStat f => exists file, f = path_in path file
  | _ => True
  end.

(** A call that stays in one directory and out of Redis. *)
Definition in_dir (dir : string) (X : Type) (ev : event X) : Prop :=
  match ev with EExec d _ _ _ => d = dir | EStat f => exists file, f = path_in dir file | ERedis _ => False | _ => True end.

Ltac dir_events := unfold git_ignore, git, exec; repeat events_step; try done; eauto.

Lemma Prepare_dir s c : all_events (in_dir (c_WorktreePath c)) (Prepare s c).
Proof. destruct s; unfold Prepare, RebaseStrategy_Prepare, MergeCommitStrategy_Prepare, SquashStrategy_Prepare, prepare_at, cleanWorktreeState; dir_events. Qed.

Lemma retry_dir s c backoffs : forall prep, all_events (in_dir (c_WorktreePath c)) (retry_prepare s c backoffs prep).
Proof.
  induction backoffs as [|b backoffs IH]; intros prep; cbn [retry_prepare]; [done|].
  destruct (_ && _); [|done]. apply all_events_bind; [by repeat events_step|]. intros _.
  apply all_events_bind; [apply Prepare_dir | apply IH].
Qed.

Lemma Execute_dir s c : all_events (in_dir (c_WorktreePath c)) (Execute s c).
Proof. destruct s; unfold Execute, RebaseStrategy_Execute, MergeCommitStrategy_Execute, SquashStrategy_Execute, execute_done, execute_failed, collectConflictFiles; dir_events. Qed.

Lemma Finalize_dir s sha c : all_events (in_dir (c_WorktreePath c)) (Finalize s sha c).
Proof. destruct s; unfold Finalize, RebaseStrategy_Finalize, MergeCommitStrategy_Finalize, SquashStrategy_Finalize; dir_events. Qed.

Lemma stage_dir dir files : all_events (in_dir dir) (stage_clean dir files).
Proof.
  induction files as [|f files IH]; cbn [stage_clean]; [done|]. unfold fileHasConflictMarkers, git, exec.
  repeat events_step; try done; exact IH.
Qed.

Lemma Resolve_dir mg st cc : all_events (in_dir (cc_WorktreePath cc)) (Resolve mg st cc).
Proof.
  assert (He : forall cc', cc_WorktreePath cc' = cc_WorktreePath cc -> all_events (in_dir (cc_WorktreePath cc)) (escalate st cc')).
  { intros cc' E. destruct st; unfold escalate, escalateReassign, conflictDiff; rewrite ?E; dir_events. }
  unfold Resolve. destruct mg; [|apply all_events_bind; [by apply He | done]].
  apply all_events_ebind.
  - apply all_events_wrap, all_events_ebind; [apply stage_dir|]. intros [res unres]. destruct unres; dir_events.
  - intros m. destruct (rr_Status m); try done; (apply all_events_bind; [by apply He | done]).
Qed.

Lemma Regenerate_dir dir pm : all_events (in_dir dir) (Regenerate dir pm).
Proof.
  unfold Regenerate. destruct (str_eqb (LockFileName pm) ""); [done|]. destruct (regenCommand pm) as [|name args]; [done|].
  unfold git, exec. repeat events_step; try done. by eexists.
Qed.

Lemma land_merged_dir cfg e s c sha : all_events (in_dir (c_WorktreePath c)) (land_merged cfg e s c sha).
Proof.
  unfold land_merged. apply all_events_bind; [destruct (ShouldRegenerate _ _); [apply Regenerate_dir | done]|].
  intros [err|u]; [done|]. apply all_events_bind; [unfold runTests; dir_events|]. intros [passed out]. destruct passed; [|done].
  apply all_events_bind; [apply Finalize_dir|]. intros [err|u2]; [done|]. dir_events.
Qed.

Lemma all_events_mono (P Q : forall X, event X -> Prop) {A} (p : prog A) :
  (forall X ev, P X ev -> Q X ev) -> all_events P p -> all_events Q p.
Proof. intros H. induction p as [a|X e k IH]; simpl; [done|]. intros [He Hk]. split; auto. Qed.

(** The only Redis command of a landing reads its marker. *)
Lemma ProcessEntry_events (P : forall X, event X -> Prop) cfg e :
  (forall X ev, in_dir (c_WorktreePath (entry_context cfg e)) X ev -> P X ev) ->
  P _ (ERedis (Single (GET (completedKey (w_Key cfg) (e_Proposal e))))) -> all_events P (ProcessEntry cfg e).
Proof.
  intros HP Hget. unfold ProcessEntry. destruct (strategies_New (w_Strategy cfg)) as [err|s]; [done|]. set (c := entry_context cfg e) in *.
  apply all_events_bind; [unfold redisClient_Get; repeat events_step; done|]. intros marker. destruct (match marker with inr m => _ | inl _ => _ end); [done|].
  apply (all_events_mono (in_dir (c_WorktreePath c))); [done|].
  apply all_events_bind; [apply Prepare_dir|]. intros prep. apply all_events_bind; [apply retry_dir|]. intros prep'.
  destruct (negb (pr_Success prep')); [by destruct (pr_AlreadyMerged prep')|].
  unfold land_prepared. apply all_events_bind; [apply Execute_dir|]. intros m. destruct (m_Status m); [apply land_merged_dir | | done].
  apply all_events_bind; [apply (Resolve_dir _ _ {| cc_WorktreePath := c_WorktreePath c |})|]. intros [err|res]; [done|].
  destruct (rr_Status res); [apply land_merged_dir | done..].
Qed.

Lemma path_inj cfg p1 p2 : proposalWorktreePath cfg p1 = proposalWorktreePath cfg p2 -> p1 = p2.
Proof. unfold proposalWorktreePath, path_in. intros H. repeat (apply (inj (String.append _)) in H). by apply (inj pretty) in H. Qed.

Lemma processOne_own cfg e : all_events (own_worktree cfg (e_Proposal e)) (processOne cfg e).
Proof.
  unfold processOne, addWorktree, removeWorktree, git_ignore, git, exec. set (path := proposalWorktreePath cfg (e_Proposal e)).
  apply all_events_bind.
  { repeat events_step; right; (split; [done|]); (split; [done|]); eauto. }
  intros [err|u]; [done|]. apply all_events_bind.
  - apply ProcessEntry_events; [|done].
    assert (E : c_WorktreePath (entry_context (with_WorktreePath cfg path) e) = path).
    { simpl. unfold or_else. destruct (str_eqb path "") eqn:Ep; [|done]. apply str_eqb_true in Ep.
      unfold path, proposalWorktreePath, path_in in Ep. by destruct (w_RepoPath cfg). }
    rewrite E. intros X ev. destruct ev; simpl; auto.
  - intros r. apply all_events_bind; [|done]. repeat events_step; right; (split; [done|]); (split; [done|]); eauto.
Qed.

Lemma manifests_proposals repo entries target remote :
  wp (buildFileManifests repo entries target remote) (fun _ ms => map Proposal ms = map e_Proposal entries).
Proof.
  induction entries as [|e entries IH]; cbn [buildFileManifests]; [done|]. apply wp_pbind. unfold buildFileManifest.
  apply wp_pbind. intros r. apply wp_Ret, wp_Ret. apply wp_pbind. intros now. apply wp_Ret. apply wp_pbind.
  eapply wp_weaken; [|exact IH]. intros tr ms E. apply wp_Ret. simpl. by f_equal.
Qed.

(** C18. Parallel landings do not meet.  From the queued entries, whatever git answers, the
    pool picks a batch that starts with the head of the queue, keeps its order, has
    no proposal twice and no more than the configured concurrency; two members have
    known, non-empty and disjoint sets of changed files; and the landing of each
    member runs every command in a worktree of its own, whose path no other proposal
    has. *)
Theorem pool_dispatch k cfg entries :
  NoDup (map e_Proposal entries) -> entries <> [] ->
  wp (pick_batch k cfg entries) (fun _ r =>
    exists batch, snd r = Some batch /\ map Proposal (fst r) = map e_Proposal entries /\
      head batch = head (map e_Proposal entries) /\ batch `sublist_of` map e_Proposal entries /\ (0 < k -> blen batch <= k) /\
      forall m1 m2, m1 ∈ fst r -> m2 ∈ fst r -> Proposal m1 ∈ batch -> Proposal m2 ∈ batch -> Proposal m1 <> Proposal m2 ->
        Files m1 <> [] /\ Files m2 <> [] /\ (forall f, f ∈ Files m1 -> f ∉ Files m2) /\
        proposalWorktreePath cfg (Proposal m1) <> proposalWorktreePath cfg (Proposal m2)) /\
  forall e, all_events (own_worktree cfg (e_Proposal e)) (processOne cfg e).
Proof.
  intros Hnd Hne. split; [|apply processOne_own]. unfold pick_batch. apply wp_pbind. unfold git_ignore. apply wp_pbind. intros r0. apply wp_Ret, wp_Ret.
  apply wp_pbind. eapply wp_weaken; [|apply manifests_proposals]. intros tr ms Hms. cbv beta in Hms. apply wp_Ret. cbn [fst snd].
  rewrite <- Hms in Hnd. destruct (batches_spec ms k Hnd) as (H1 & H2 & H3 & H4).
  destruct (IndependentBatches (BuildConflictGraph ms) k) as [|b0 rest] eqn:Eb.
  { exfalso. apply Permutation_nil in H1. rewrite H1 in Hms. by destruct entries. }
  inversion H2 as [|?? (Hb1 & Hb2 & Hb3) _]; subst. exists b0. rewrite <- Hms.
  assert (Hh : head b0 = head (map Proposal ms)).
  { destruct ms as [|m ms']; [by apply sublist_nil_r in Hb3|]. apply (H4 b0 rest m eq_refl). }
  split_and!; try done. intros m1 m2 Hm1 Hm2 Hp1 Hp2 Hd.
  destruct (H3 b0 m1 m2) as (? & ? & ?); try done; [left|]. split_and!; try done. intros Hp. by apply path_inj in Hp.
Qed.

Definition demo_cfg : WorkerConfig := {|
  w_Key := acme; w_RepoPath := "/repo"; w_WorktreePath := ""; w_Strategy := "rebase"; w_TestCommand := "make test";
  w_LockFileRegenerate := false; w_Mergiraf := false; w_PollInterval := 1000; w_OnConflict := EscalationNotify; w_OnTestFailure := "notify";
  w_DeleteBranchOnMerge := true; w_PackageManager := "none"; w_Remote := ""; w_TargetBranch := "main";
  w_RetryablePrepareBackoffs := None; w_RecentlyMergedTTL := 0; w_hasPoster := false; w_reasonTTL := 0 |}.

Definition demo_queued (p : Z) : Entry :=
  {| e_OrgID := "acme"; e_RepoID := "o/r"; e_Proposal := p; ProposalURL := "u"; IssueID := "ABC-1"; LinearSessionID := "";
     Priority := 3; SourceBranch := "b"; TargetBranch := "main"; EnqueuedAt := 1 |}.

Lemma pool_dispatch_witness :
  wp (pick_batch 2 demo_cfg [demo_queued 7; demo_queued 9]) (fun _ r => exists batch, snd r = Some batch /\ head batch = Some 7).
Proof.
  assert (Hnd : NoDup (map e_Proposal [demo_queued 7; demo_queued 9])) by (repeat constructor; set_solver).
  destruct (pool_dispatch 2 demo_cfg [demo_queued 7; demo_queued 9] Hnd ltac:(done)) as [H _].
  eapply wp_weaken; [|exact H]. intros tr r (b & E & _ & Hh & _). by exists b.
Defined.

(** ** Retries *)

Definition obs_sleep (o : obs) : list Z :=
  match o with Obs e _ => match e with ESleep d => [d] | _ => [] end end.
Definition sleeps (tr : list obs) : list Z := concat (map obs_sleep tr).

Definition is_fetch (o : obs) : nat :=
  match obs_exec o with Some (_, name, args, _) => if is_git "fetch" name args then 1%nat else 0%nat | None => 0%nat end.
Definition fetches (tr : list obs) : nat := list_sum (map is_fetch tr).

Lemma sleeps_app a b : sleeps (a ++ b) = sleeps a ++ sleeps b.
Proof. unfold sleeps. by rewrite map_app, concat_app. Qed.
Lemma fetches_app a b : fetches (a ++ b) = (fetches a + fetches b)%nat.
Proof. unfold fetches. by rewrite map_app, list_sum_app. Qed.

(** Programs that neither fetch nor sleep. *)
Definition prompt (X : Type) (ev : event X) : Prop :=
  match ev with EExec _ _ name args => is_git "fetch" name args = false | ESleep _ => False | _ => True end.

Lemma prompt_wp {A} (p : prog A) : all_events prompt p -> wp p (fun tr _ => sleeps tr = [] /\ fetches tr = 0%nat).
Proof.
  induction p as [a|X e k IH]; simpl; [done|]. intros [He Hk] x. eapply wp_weaken; [|exact (IH x (Hk x))].
  intros tr a [H1 H2]. unfold sleeps, fetches in *. simpl. rewrite H1, H2. destruct e; try done. unfold is_fetch. simpl in *. by rewrite He.
Qed.

Lemma prepare_at_fetches branch c : wp (prepare_at branch c) (fun tr _ => sleeps tr = [] /\ (fetches tr <= 1)%nat).
Proof.
  unfold prepare_at. apply wp_pbind. eapply wp_weaken; [|apply prompt_wp; unfold cleanWorktreeState, git_ignore, git, exec; by repeat events_step].
  intros tr0 u [H0 H0']. cbv beta in *.
  assert (Hrest : forall ans : string * option string, wp (match snd ans with
      | Some err => Ret (classifyPrepareError err (c_SourceBranch c))
      | None =>
          do! checked := git (c_WorktreePath c) ["checkout"; "--detach"; c_Remote c +:+ "/" +:+ branch] in
          match snd checked with
          | Some err => Ret (classifyPrepareError err (c_SourceBranch c))
          | None =>
              do! head := git (c_WorktreePath c) ["rev-parse"; "HEAD"] in
              match snd head with
              | Some err => Ret (classifyPrepareError err (c_SourceBranch c))
              | None => Ret {| pr_Success := true; pr_Error := ""; pr_HeadSHA := fst head; pr_Retryable := false; pr_AlreadyMerged := false |}
              end
          end
      end) (fun tr _ => sleeps tr = [] /\ fetches tr = 0%nat)).
  { intros ans. apply prompt_wp. unfold git, exec. by repeat events_step. }
  apply wp_pbind. intros ans. apply wp_Ret. eapply wp_weaken; [|apply Hrest]. intros tr r [H1 H2].
  rewrite !sleeps_app, !fetches_app, H0, H0', H1, H2. split; [done|]. simpl. lia.
Qed.

Lemma Prepare_fetches s c : wp (Prepare s c) (fun tr _ => sleeps tr = [] /\ (fetches tr <= 1)%nat).
Proof. destruct s; apply prepare_at_fetches. Qed.

Lemma retry_fetches s c backoffs : forall prep,
  wp (retry_prepare s c backoffs prep) (fun tr _ => sleeps tr `prefix_of` backoffs /\ (fetches tr <= length (sleeps tr))%nat).
Proof.
  induction backoffs as [|b backoffs IH]; intros prep; cbn [retry_prepare]; [apply wp_Ret; split; [apply prefix_nil | done]|].
  destruct (_ && _); [|apply wp_Ret; split; [apply prefix_nil | done]].
  apply wp_pbind. intros u. apply wp_Ret. apply wp_pbind. eapply wp_weaken; [|apply Prepare_fetches]. intros tr0 prep' [H1 H2].
  eapply wp_weaken; [|apply IH]. intros tr1 r [H3 H4]. cbv beta in *. rewrite !sleeps_app, !fetches_app, H1. simpl.
  change (sleeps [Obs (ESleep b) u]) with [b]. change (fetches [Obs (ESleep b) u]) with 0%nat. simpl. split; [by apply prefix_cons | lia].
Qed.

Lemma land_prompt cfg e s c : all_events prompt (land_prepared cfg e s c).
Proof.
  assert (Hm : forall sha, all_events prompt (land_merged cfg e s c sha)).
  { intros sha. unfold land_merged. apply all_events_bind.
    - destruct (ShouldRegenerate _ _); [|done]. unfold Regenerate. destruct (str_eqb (LockFileName _) ""); [done|]. unfold regenCommand.
      repeat match goal with |- all_events _ (match (if ?b then _ else _) with _ => _ end) => destruct b end; unfold git, exec; repeat events_step; done.
    - intros [err|u]; [done|]. apply all_events_bind; [unfold runTests, exec; repeat events_step; done|]. intros [passed out]. destruct passed; [|done].
      apply all_events_bind; [destruct s; unfold Finalize, RebaseStrategy_Finalize, MergeCommitStrategy_Finalize, SquashStrategy_Finalize, git, exec; repeat events_step; done|]. intros [err|u2]; [done|].
      unfold git_ignore, git, exec. repeat events_step; done. }
  unfold land_prepared. apply all_events_bind.
  { destruct s; unfold Execute, RebaseStrategy_Execute, MergeCommitStrategy_Execute, SquashStrategy_Execute, execute_done, execute_failed, collectConflictFiles, git_ignore, git, exec; repeat events_step; done. }
  intros m. destruct (m_Status m); [apply Hm | | done]. apply all_events_bind.
  - assert (He : forall cc, all_events prompt (escalate (w_OnConflict cfg) cc)) by
      (intros cc; unfold escalate, escalateReassign, conflictDiff, git, exec; repeat events_step; done).
    unfold Resolve. destruct (w_Mergiraf cfg); [|apply all_events_bind; [apply He | done]]. apply all_events_ebind.
    + apply all_events_wrap, all_events_ebind; [|intros [res unres]; unfold exec; repeat events_step; done].
      cbn [cc_WorktreePath cc_ConflictFiles]. induction (m_ConflictFiles m) as [|f files IH]; cbn [stage_clean]; [done|].
      unfold fileHasConflictMarkers, git, exec. repeat events_step; try done; exact IH.
    + intros r. destruct (rr_Status r); try done; (apply all_events_bind; [apply He | done]).
  - intros [err|res]; [done|]. destruct (rr_Status res); [apply Hm | done..].
Qed.

(** C37. Landing a proposal terminates with bounded waiting.  Whatever git keeps answering,
    the worker sleeps at most through the configured backoffs, in their order, and
    fetches at most once more than it slept. *)
Theorem retries_bounded cfg e :
  wp (ProcessEntry cfg e) (fun tr _ =>
    sleeps tr `prefix_of` (match w_RetryablePrepareBackoffs cfg with Some b => b | None => DefaultRetryablePrepareBackoffs end) /\
    (fetches tr <= 1 + length (sleeps tr))%nat).
Proof.
  unfold ProcessEntry. destruct (strategies_New (w_Strategy cfg)) as [err|s]; [apply wp_Ret; split; [apply prefix_nil | unfold fetches; simpl; lia]|].
  apply wp_pbind. eapply wp_weaken; [|apply prompt_wp; unfold redisClient_Get; repeat events_step; done]. intros tr0 marker [S0 F0]. cbv beta in *.
  destruct (match marker with inr m => _ | inl _ => _ end).
  { apply wp_Ret. rewrite app_nil_r, S0, F0. split; [apply prefix_nil | simpl; lia]. }
  apply wp_pbind. eapply wp_weaken; [|apply Prepare_fetches]. intros tr1 prep [S1 F1]. cbv beta in *.
  apply wp_pbind. eapply wp_weaken; [|apply retry_fetches]. intros tr2 prep' [S2 F2]. cbv beta in *.
  assert (Hend : forall tr3, sleeps tr3 = [] -> fetches tr3 = 0%nat ->
    sleeps (tr0 ++ tr1 ++ tr2 ++ tr3) `prefix_of` (match w_RetryablePrepareBackoffs cfg with Some b => b | None => DefaultRetryablePrepareBackoffs end) /\
    (fetches (tr0 ++ tr1 ++ tr2 ++ tr3) <= 1 + length (sleeps (tr0 ++ tr1 ++ tr2 ++ tr3)))%nat).
  { intros tr3 S3 F3. rewrite !sleeps_app, !fetches_app, S0, S1, S3, F0, F3, app_nil_r. simpl. split; [done | lia]. }
  destruct (negb (pr_Success prep')); [destruct (pr_AlreadyMerged prep'); apply wp_Ret; by apply Hend|].
  eapply wp_weaken; [|apply prompt_wp, land_prompt]. intros tr3 r [S3 F3]. by apply Hend.
Qed.
