(* ===== verification/LandingLock.v ===== *)
(** * LandingLock: the coordinator lock is a lease

    One coordinator per organization and repository: a worker or pool acquires the
    lock key with [SET NX] and a lifetime, its heartbeat extends it and its shutdown
    releases it, both only where the key still holds its token.  As long as the lease
    of a holder has not run out, nothing the other coordinators, heartbeats and
    producers of the repository do takes the lock from it, whatever the interleaving
    and the transport failures. *)

From Stdlib Require Import Ascii String.
From stdpp Require Import gmap pretty.
From S2P Require Import Prelude GoStrings Redis Landing LandingScore LandingProg LandingQueue LandingDispatch LandingTriple LandingGit LandingWorker LandingSafety.

(** ** Programs whose answers are restricted *)

Fixpoint guarded (P : forall X, event X -> Prop) (G : obs -> Prop) {A} (p : prog A) : Prop :=
  match p with
  | Ret _ => True
  | Vis e k => P _ e /\ forall x, G (Obs e x) -> guarded P G (k x)
  end.

Lemma guarded_all P G {A} (p : prog A) : all_events P p -> guarded P G p.
Proof. induction p as [a|X e k IH]; simpl; [done|]. intros [He Hk]. split; auto. Qed.

Lemma guarded_bind P G {A B} (p : prog A) (f : A -> prog B) :
  guarded P G p -> (forall a, guarded P G (f a)) -> guarded P G (pbind p f).
Proof. induction p as [a|X e k IH]; simpl; [auto|]. intros [He Hk] Hf. split; [done|]. auto. Qed.

Lemma guarded_trigger P G {X B} (e : event X) (f : X -> prog B) :
  P _ e -> (forall x, G (Obs e x) -> guarded P G (f x)) -> guarded P G (pbind (trigger e) f).
Proof. done. Qed.

Lemma guarded_seq P G {A} (ps : list (prog A)) : Forall (guarded P G) ps -> guarded P G (seq_all ps).
Proof. induction 1 as [|p ps Hp Hps IH]; simpl; [done|]. apply guarded_bind; [done|]. intros a. by apply guarded_bind. Qed.

Lemma guarded_par P G {A} sched : forall ps : list (prog A), Forall (guarded P G) ps -> guarded P G (par sched ps).
Proof.
  induction sched as [|i sched IH]; intros ps H; simpl; [by apply guarded_seq|].
  destruct (ps !! i) as [[a|X e k]|] eqn:Hi; [by apply IH | | by apply IH].
  pose proof (Forall_lookup_1 _ _ _ _ H Hi) as [He Hk]. split; [done|]. intros x Hx. apply IH. apply Forall_insert; auto.
Qed.

(** ** What the others may send *)

Section Lease.
Context (lk token : string).

(** On the lock key: an acquisition or a release with another token, or a
    compare-and-extend. *)
Definition lock_ok (X : Type) (ev : event X) : Prop :=
  match ev with
  | ERedis (Single c) => ckey c = lk -> exists v ttl, c = SETNX lk v ttl /\ v <> token
  | ERedis (Tx cs) => Forall (fun c => ckey c <> lk) cs
  | ERedis (Script s) =>
      (exists k v, s = delIfMatchesScript k v /\ (k = lk -> v <> token)) \/ (exists k v, s = expireIfMatchesScript k v lockTTL)
  | _ => True
  end.

(** Tokens are random: no other start mints this one. *)
Definition other_token (o : obs) : Prop :=
  match o with
  | Obs e x => match e in event X return X -> Prop with EToken => fun t => t <> inr token | _ => fun _ => True end x
  end.

(** An answer that makes a coordinator believe it holds the lock. *)
Definition acquires (o : obs) : Prop :=
  exists v ttl, o = Obs (ERedis (Single (SETNX lk v ttl))) (inr [RInt 1]).

Section Server.
Context `{R : RedisServer}.

(** The key holds the token, until [until] at least. *)
Definition held (until now : Z) (d : db) : Prop :=
  exists ex, until <= ex /\ look now d lk = Some {| r_value := RString token; r_expires := Some ex |}.

Lemma held_alive until now d : held until now d -> exists ex, until <= ex /\ now < ex /\ look now d lk = Some {| r_value := RString token; r_expires := Some ex |}.
Proof.
  intros (ex & Hu & Hl). exists ex. split_and!; try done. pose proof (look_later now now d lk (Z.le_refl _)) as E.
  rewrite Hl in E. simpl in E. destruct (Z.leb_spec ex now); [done | lia].
Qed.

Lemma held_later until now now' d : now <= now' -> now' < until -> held until now d -> held until now' d.
Proof.
  intros H1 H2 (ex & Hu & Hl). exists ex. split; [done|]. rewrite (look_later now now'), Hl by done. simpl.
  destruct (Z.leb_spec ex now'); [lia | done].
Qed.

(** A command on another key, or a read of this one. *)
Lemma held_cmd until now c d :
  (ckey c = lk -> fst (cmd_spec now c (look now d lk)) = look now d lk) -> held until now d -> held until now (fst (run_cmd now c d)).
Proof.
  intros Hc (ex & Hu & Hl). exists ex. split; [done|]. destruct (decide (ckey c = lk)) as [E|E].
  - specialize (Hc E). rewrite <- E in *. rewrite run_key, Hc, Hl. rewrite <- Hl. rewrite <- look_later by lia. done.
  - by rewrite run_other.
Qed.

(** Both scripts look before they act. *)
Lemma held_script until now k v c d :
  (k = lk -> v = token -> exists ms, c = PEXPIRE lk ms /\ until <= now + ms /\ 0 < ms) -> ckey c = k -> held until now d ->
  held until now (fst (serve_lua now (LCall (GET k) (fun r =>
    match r with RBulk v' => if str_eqb v' v then LCall c LReturn else LReturn (RInt 0) | _ => LReturn (RInt 0) end)) d)).
Proof.
  intros Hv Hc Hh. cbn [serve_lua]. pose proof (run_reply now (GET k) d) as Hr. cbn [ckey cmd_spec snd] in Hr.
  assert (H1 : held until now (fst (run_cmd now (GET k) d))).
  { apply held_cmd; [|done]. intros _. cbn [cmd_spec]. by destruct (look now d lk) as [[[] ?]|]. }
  destruct (run_cmd now (GET k) d) as [d1 r]. simpl in Hr, H1. subst r.
  destruct (look now d k) as [[[s|h|z] ex]|] eqn:El; cbn [snd]; try exact H1.
  destruct (str_eqb s v) eqn:Es; [|exact H1]. apply str_eqb_true in Es as ->. cbn [serve_lua].
  destruct (decide (k = lk)) as [->|Hk].
  - destruct Hh as (ex' & _ & Hl). rewrite El in Hl. injection Hl as -> ->. destruct (Hv eq_refl eq_refl) as (ms & -> & Hms & Hpos).
    pose proof (run_key now (PEXPIRE lk ms) d1) as Hk. pose proof (run_reply now (PEXPIRE lk ms) d1) as Hr2.
    destruct H1 as (ex1 & _ & Hl1). cbn [ckey cmd_spec] in Hk, Hr2. rewrite Hl1 in Hk, Hr2. simpl in Hk, Hr2.
    destruct (run_cmd now (PEXPIRE lk ms) d1) as [d2 r2]. simpl in *. subst r2. simpl.
    exists (now + ms). split; [done|]. rewrite Hk. destruct (Z.leb_spec (now + ms) now); [lia|]. simpl.
    destruct (Z.leb_spec (now + ms) now); [lia | done].
  - assert (held until now (fst (run_cmd now c d1))) by (apply held_cmd; [congruence | done]).
    destruct (run_cmd now c d1) as [d2 r2]. simpl in *. by destruct r2.
Qed.

Lemma held_serve until now q d :
  lock_ok _ (ERedis q) -> until <= now + lockTTL -> held until now d ->
  held until now (fst (serve now q d)) /\ ~ acquires (Obs (ERedis q) (inr (snd (serve now q d)))).
Proof.
  intros Hq Hu Hh. destruct q as [c|cs|s]; simpl in Hq.
  - assert (Hc : ckey c = lk -> fst (cmd_spec now c (look now d lk)) = look now d lk /\ forall v ttl, c = SETNX lk v ttl -> snd (cmd_spec now c (look now d lk)) = RInt 0).
    { intros E. destruct (Hq E) as (v & ttl & -> & Hv). destruct Hh as (ex & _ & ->). split; [done|]. by intros. }
    pose proof (held_cmd until now c d (fun E => proj1 (Hc E)) Hh) as H1. pose proof (run_reply now c d) as Hr. simpl.
    destruct (run_cmd now c d) as [d1 r]. simpl in *. split; [done|]. intros (v & ttl & E).
    apply (f_equal (fun o => match o with Obs e x => match e in event X return X -> option (command * list reply) with
                                          | ERedis (Single c') => fun a => match a with inr rs => Some (c', rs) | inl _ => None end
                                          | _ => fun _ => None end x end)) in E.
    simpl in E. injection E as -> ->. destruct (Hc eq_refl) as [_ Hc2]. cbn [ckey] in Hr. rewrite (Hc2 v ttl eq_refl) in Hr. done.
  - simpl. split; [|intros (v & ttl & E); by apply (f_equal (fun o => match o with Obs e x => match e with ERedis (Single _) => true | _ => false end end)) in E].
    revert d Hh. induction Hq as [|c cs Hc Hcs IH]; intros d Hh; simpl; [done|].
    pose proof (held_cmd until now c d ltac:(congruence) Hh) as H1. destruct (run_cmd now c d) as [d1 r]. simpl in *.
    specialize (IH d1 H1). by destruct (serve_tx now cs d1).
  - cbn [serve]. split; [|intros (v & ttl & E); by apply (f_equal (fun o => match o with Obs e x => match e with ERedis (Single _) => true | _ => false end end)) in E].
    assert (held until now (fst (serve_lua now s d))) as H.
    { destruct Hq as [(k & v & -> & Hv)|(k & v & ->)]; apply held_script; try done; [intros -> ->; by destruct Hv|].
      intros -> ->. exists lockTTL. split_and!; [done | done | reflexivity]. }
    by destruct (serve_lua now s d).
Qed.

(** Time does not go back. *)
Lemma handle_now env {X} (e : event X) w : w_now w <= w_now (fst (handle env e w)).
Proof.
  destruct e; simpl; try lia. unfold redis_step. destruct (match w_faults w with [] => _ | y :: _ => y end) as [dl f].
  destruct (serve _ _ _) as [d rs]. destruct f; simpl; lia.
Qed.

Lemma run_now env {A} (p : prog A) : forall w, w_now w <= w_now (fst (run env p w)).
Proof.
  induction p as [a|X e k IH]; intros w; cbn [run]; [simpl; lia|]. pose proof (handle_now env e w) as H.
  destruct (handle env e w) as [w1 x]. unfold logged. simpl in H. etransitivity; [exact H|].
  apply (IH x {| w_db := w_db w1; w_now := w_now w1; w_faults := w_faults w1; w_step := w_step w1; w_log := w_log w1 ++ [Obs e x] |}).
Qed.

(** A lease survives everything the others do before it runs out. *)
Lemma held_run env until {A} (p : prog A) : (forall i, env_token env i <> inr token) -> forall w,
  guarded lock_ok other_token p -> until <= w_now w + lockTTL -> held until (w_now w) (w_db w) ->
  w_now (fst (run env p w)) < until ->
  w_now w <= w_now (fst (run env p w)) /\ held until (w_now (fst (run env p w))) (w_db (fst (run env p w))) /\
  exists tr, w_log (fst (run env p w)) = w_log w ++ tr /\ Forall (fun o => ~ acquires o) tr.
Proof.
  intros Htok. induction p as [a|X e k IH]; intros w Hg Hu Hh Hend; [split_and!; [simpl; lia | done | exists []; by rewrite app_nil_r]|].
  destruct Hg as [He Hk].
  assert (Hstep : w_now w <= w_now (fst (handle env e w)) /\ w_log (fst (handle env e w)) = w_log w /\ other_token (Obs e (snd (handle env e w))) /\
    (w_now (fst (handle env e w)) < until -> held until (w_now (fst (handle env e w))) (w_db (fst (handle env e w))) /\
       ~ acquires (Obs e (snd (handle env e w))))).
  { destruct e; try (simpl; split_and!; try done; intros _; split; [done|]; intros (v & ttl & E);
      by apply (f_equal (fun o => match o with Obs e x => match e with ERedis _ => true | _ => false end end)) in E).
    simpl. unfold redis_step. destruct (match w_faults w with [] => _ | x :: _ => x end) as [dl f]. set (now := w_now w + Z.of_N dl).
      assert (Hnow : w_now w <= now) by lia. pose proof (held_later until (w_now w) now (w_db w) Hnow) as Hl.
      pose proof (held_serve until now q (w_db w) He ltac:(lia)) as Hs. destruct (serve now q (w_db w)) as [d rs]. simpl in Hs.
      assert (Hna : forall msg, ~ acquires (Obs (ERedis q) (inl msg))).
      { intros msg (v & ttl & E). by apply (f_equal (fun o => match o with Obs e x => match e in event X return X -> bool with ERedis _ => fun a => match a with inr _ => true | inl _ => false end | _ => fun _ => false end x end)) in E. }
      destruct f; simpl; split_and!; try done; intros Hlt; specialize (Hs (Hl Hlt Hh)) as [Hs1 Hs2]; split; auto. }
  cbn [run] in *. destruct (handle env e w) as [w1 x]. simpl in Hstep. destruct Hstep as (Hle & Hlog & Htk & Hheld). unfold logged in *.
  set (w2 := {| w_db := w_db w1; w_now := w_now w1; w_faults := w_faults w1; w_step := w_step w1; w_log := w_log w1 ++ [Obs e x] |}) in *.
  pose proof (run_now env (k x) w2) as Hmono. assert (Hlt : w_now w1 < until) by (simpl in Hmono; lia).
  destruct (Hheld Hlt) as [Hh1 Hna]. destruct (IH x w2 (Hk x Htk) ltac:(simpl; lia) Hh1 Hend) as (H1 & H2 & tr & E & Hall).
  split_and!; [simpl in H1; lia | done|]. exists (Obs e x :: tr). split; [|by constructor].
  rewrite E. simpl. by rewrite Hlog, <- app_assoc.
Qed.
End Server.
End Lease.

(** ** The participants of one repository *)

Inductive participant :=
| PWorker (fuel : nat) (cfg : WorkerConfig)
| PPool (scheds : list (list nat)) (concurrency : Z) (cfg : WorkerConfig)
| PHeartbeat (ticks : nat) (lockToken : string)
| PClient (ttl : Z) (ops : list op).

Section Participants.
Context (key : Key) (token : string).
Notation lk := (lockKey key).
Notation lock_ok := (lock_ok lk token).

Definition part_prog (p : participant) : prog unit :=
  match p with
  | PWorker fuel cfg => do! _ := Worker_Start fuel cfg in Ret tt
  | PPool scheds k cfg => do! _ := pool_Start scheds k cfg in Ret tt
  | PHeartbeat ticks t => startHeartbeat ticks lk t
  | PClient ttl ops => do! _ := client ttl key ops in Ret tt
  end.

Definition op_here (o : op) : Prop := match o with OpEnqueue e => Entry_Key e = key | _ => True end.

(** On this repository. *)
Definition part_ok (p : participant) : Prop :=
  match p with
  | PWorker _ cfg | PPool _ _ cfg => w_Key cfg = key
  | PHeartbeat _ _ => True
  | PClient _ ops => Forall op_here ops
  end.

Lemma other_kind_key kd : kd <> KLock -> redis_key key kd <> lk.
Proof. intros H E. apply H. by apply (redis_key_inj key kd KLock). Qed.

Lemma lock_single kd c : kd <> KLock -> ckey c = redis_key key kd -> lock_ok _ (ERedis (Single c)).
Proof. intros H E Hl. rewrite E in Hl. by apply other_kind_key in Hl. Qed.

Lemma lock_tx cs : Forall (fun c => exists kd, kd <> KLock /\ ckey c = redis_key key kd) cs -> lock_ok _ (ERedis (Tx cs)).
Proof. intros H. eapply Forall_impl; [exact H|]. intros c (kd & Hk & ->). by apply other_kind_key. Qed.

(** The kind a key was built for. *)
Ltac kind_of k :=
  match k with
  | queueKey _ => constr:(KQueue)
  | seqKey _ => constr:(KSeq)
  | pausedKey _ => constr:(KPaused)
  | entryKey _ ?p => constr:(KEntry p)
  | completedKey _ ?p => constr:(KCompleted p)
  | failedKey _ ?p => constr:(KFailed p)
  | blockedKey _ ?p => constr:(KBlocked p)
  end.

Ltac lock_event :=
  lazymatch goal with
  | |- LandingLock.lock_ok _ _ _ (ERedis (Single ?c)) =>
      let k := eval cbn [ckey] in (ckey c) in let kd := kind_of k in apply (lock_single kd); [discriminate | reflexivity]
  | |- LandingLock.lock_ok _ _ _ (ERedis (Tx _)) =>
      apply lock_tx; cbn [clear_commands app]; repeat apply Forall_cons_2; try apply Forall_nil_2;
      match goal with |- exists kd, _ /\ ckey ?c = _ => let k := eval cbn [ckey] in (ckey c) in let kd := kind_of k in exists kd; split; [discriminate | reflexivity] end
  | |- LandingLock.lock_ok _ _ _ _ => exact I
  end.

Lemma claim_lock ps : lock_ok _ (ERedis (Tx (claim_commands key ps))).
Proof.
  apply lock_tx. induction ps as [|p ps IH]; simpl; [constructor|]. constructor; [by exists KQueue|]. constructor; [by exists (KEntry p) | done].
Qed.

Lemma op_lock ttl o : op_here o -> all_events lock_ok (op_run ttl key o).
Proof.
  intros Ho. destruct o; unfold_storage;
    simpl in Ho; rewrite ?Ho; repeat events_step; lazymatch goal with |- context [claim_commands] => apply claim_lock | _ => lock_event end.
Qed.

Lemma client_lock ttl ops : Forall op_here ops -> all_events lock_ok (client ttl key ops).
Proof.
  induction 1 as [|o ops Ho Hops IH]; simpl; [done|]. apply all_events_bind; [by apply op_lock|]. intros r. by apply all_events_bind.
Qed.

Lemma omap_inv (P : forall X, event X -> Prop) {A} (g : A -> out) (p : prog (string + A)) : all_events P (omap g p) -> all_events P p.
Proof. unfold omap. induction p as [a|X e k IH]; simpl; [done|]. intros [He Hk]. split; auto. Qed.

Section Coordinators.
Context (cfg : WorkerConfig) (Hcfg : w_Key cfg = key).

Lemma ProcessEntry_lock wt e : all_events lock_ok (ProcessEntry (with_WorktreePath cfg wt) e) /\ all_events lock_ok (ProcessEntry cfg e).
Proof.
  split; apply ProcessEntry_events; try (intros X ev; by destruct ev); simpl w_Key; rewrite ?Hcfg; lock_event.
Qed.

Lemma handleResult_lock e r : all_events lock_ok (handleResult cfg e r).
Proof.
  unfold handleResult, record_disposition, markRecentlyMerged, SetNX, redis_int, MarkCompleted, MarkFailed, MarkBlocked, validateKey. rewrite Hcfg.
  repeat events_step; lock_event.
Qed.

Lemma worker_loop_lock fuel : all_events lock_ok (worker_loop fuel cfg).
Proof.
  induction fuel as [|fuel IH]; cbn [worker_loop]; [done|]. apply all_events_bind; [by repeat events_step|]. intros stopped.
  destruct stopped; [done|]. apply all_events_bind; [unfold redisClient_Get; rewrite Hcfg; repeat events_step; lock_event|]. intros paused.
  destruct (match paused with inr p => _ | inl _ => _ end); [apply all_events_bind; [by repeat events_step | done]|].
  rewrite Hcfg. apply all_events_bind; [exact (omap_inv _ _ _ (op_lock 0 OpDequeue I))|].
  intros [err|[entry|]]; [done| |apply all_events_bind; [by repeat events_step | done]].
  apply all_events_bind; [exact (proj2 (ProcessEntry_lock "" entry))|]. intros r. apply all_events_bind; [apply handleResult_lock|].
  by intros [err|u].
Qed.

Lemma no_redis_lock {A} (p : prog A) : all_events (fun X ev => match ev with ERedis _ => False | _ => True end) p -> all_events lock_ok p.
Proof. apply all_events_mono. intros X ev. by destruct ev. Qed.

Lemma processOne_lock e : all_events lock_ok (processOne cfg e).
Proof.
  unfold processOne. apply all_events_bind; [unfold addWorktree, git_ignore, git, exec; by repeat events_step|]. intros [err|u]; [done|].
  apply all_events_bind; [exact (proj1 (ProcessEntry_lock _ e))|]. intros r. apply all_events_bind; [|done].
  unfold removeWorktree, git, exec. by repeat events_step.
Qed.

Lemma pick_lock k entries : all_events lock_ok (pick_batch k cfg entries).
Proof.
  apply all_events_bind; [unfold git_ignore, git, exec; by repeat events_step|]. intros _. apply all_events_bind; [|done].
  induction entries as [|e entries IH]; cbn [buildFileManifests]; [done|].
  apply all_events_bind; [unfold buildFileManifest, git, exec; by repeat events_step|]. intros files.
  apply all_events_bind; [by repeat events_step|]. intros now. by apply all_events_bind.
Qed.

Lemma processBatch_lock sched k : all_events lock_ok (processBatch sched k cfg).
Proof.
  unfold processBatch. rewrite Hcfg. apply all_events_ebind; [apply all_events_wrap, (omap_inv _ _ _ (op_lock 0 OpPeekAll I))|].
  intros entries. destruct entries as [|e entries]; [done|]. apply all_events_bind; [apply pick_lock|]. intros [ms b]. cbn [snd].
  destruct b as [batch|]; [|done]. apply all_events_ebind; [apply all_events_wrap, (omap_inv _ _ _ (op_lock 0 (OpDequeueBatch batch) I))|].
  intros dequeued. destruct dequeued as [|d ds]; [done|]. apply all_events_bind.
  - apply all_events_par, Forall_fmap, Forall_true. intros e'. apply processOne_lock.
  - intros results. apply all_events_bind; [|done]. generalize (combine (d :: ds) results). intros l.
    induction l as [|[e' r] l IH]; simpl; [done|]. apply all_events_bind; [apply handleResult_lock | done].
Qed.

Lemma pool_loop_lock scheds k : all_events lock_ok (pool_loop scheds k cfg).
Proof.
  induction scheds as [|sched scheds IH]; cbn [pool_loop]; [done|]. apply all_events_bind; [by repeat events_step|]. intros stopped.
  destruct stopped; [done|]. apply all_events_bind; [unfold redisClient_Get; rewrite Hcfg; repeat events_step; lock_event|]. intros paused.
  destruct (match paused with inr p => _ | inl _ => _ end); [apply all_events_bind; [by repeat events_step | done]|].
  apply all_events_bind; [apply processBatch_lock|]. intros [err|[|r rs]]; [done| |done].
  apply all_events_bind; [by repeat events_step | done].
Qed.

Lemma locked_guarded what busy loop : all_events lock_ok loop -> guarded lock_ok (other_token token) (locked what busy cfg loop).
Proof.
  intros Hl. unfold locked. apply guarded_bind; [apply guarded_all; unfold validateKey; by repeat events_step|]. intros [err|u]; [done|].
  apply guarded_trigger; [done|]. intros [err|t] Ht; [done|]. simpl in Ht.
  apply guarded_bind.
  - apply guarded_all. unfold SetNX, redis_int. repeat events_step. simpl. rewrite Hcfg. intros _. do 2 eexists. split; [done|]. congruence.
  - intros [err|[|]]; [done| |done]. apply guarded_bind; [by apply guarded_all|]. intros r. apply guarded_bind; [|done].
    apply guarded_all. unfold DelIfMatches, script_bool, redis_script. apply all_events_ebind; [apply all_events_wrap|].
    + split; [left; do 2 eexists; split; [done|]; congruence|]. intros [err|[|r1 [|r2 rs]]]; simpl; try done; by destruct r1.
    + intros r1. by destruct r1.
Qed.
End Coordinators.

Lemma participant_guarded p : part_ok p -> guarded lock_ok (other_token token) (part_prog p).
Proof.
  destruct p as [fuel cfg|scheds k cfg|ticks t|ttl ops]; simpl; intros Hp.
  - apply guarded_bind; [|done]. by apply locked_guarded, worker_loop_lock.
  - apply guarded_bind; [|done]. unfold pool_Start. destruct (k <=? 1); [by apply locked_guarded, worker_loop_lock | by apply locked_guarded, pool_loop_lock].
  - apply guarded_all. induction ticks as [|n IH]; cbn [startHeartbeat]; [done|]. apply all_events_bind; [by repeat events_step|]. intros _.
    apply all_events_bind; [|done]. unfold heartbeatExtend, ExpireIfMatches, script_bool, redis_script.
    apply all_events_ebind; [apply all_events_wrap|].
    + split; [right; by do 2 eexists|]. intros [err|[|r1 [|r2 rs]]]; simpl; try done; by destruct r1.
    + intros r1. by destruct r1.
  - apply guarded_all, all_events_bind; [by apply client_lock | done].
Qed.

(** C17. The coordinator lock is exclusive while its lease runs.  A holder's key has its token
    and expires at [until] or later.  Whatever workers, pools, heartbeats and clients
    run against the repository, in any interleaving and with any requests or replies
    lost: up to [until] the key still holds the token, and no other coordinator was
    told it acquired the lock. *)
Theorem lease_exclusive `{R : RedisServer} env until parts sched w :
  (forall i, env_token env i <> inr token) -> Forall part_ok parts ->
  until <= w_now w + lockTTL -> held lk token until (w_now w) (w_db w) ->
  let w' := fst (run env (par sched (map part_prog parts)) w) in
  w_now w' < until ->
  held lk token until (w_now w') (w_db w') /\
  exists tr, w_log w' = w_log w ++ tr /\ Forall (fun o => ~ acquires lk o) tr.
Proof.
  intros Htok Hparts Hu Hh w' Hend.
  destruct (held_run lk token env until (par sched (map part_prog parts)) Htok w) as (_ & H1 & H2); try done.
  apply guarded_par, Forall_fmap. eapply Forall_impl; [exact Hparts|]. intros p. apply participant_guarded.
Qed.
End Participants.

(** Another worker starts while the lease runs, one second later per request. *)
Definition leased_world : @world mem_server :=
  {| w_db := ({[ lockKey acme := {| r_value := RString "mine"; r_expires := Some 300000 |} ]} : gmap string rentry);
     w_now := 0; w_faults := [(1000%N, Delivered); (1000%N, ReplyLost)]; w_step := 0; w_log := [] |}.

Definition rivals : list participant :=
  [PWorker 3 demo_cfg; PHeartbeat 1 "mine"; PClient 0 [OpEnqueue (demo_entry 7 3)]].

Lemma lease_exclusive_witness :
  held (lockKey acme) "mine" 300000 (w_now leased_world) (w_db leased_world) /\
  held (lockKey acme) "mine" 300000
    (w_now (fst (run demo_env (par [0; 1; 0; 2; 1; 2]%nat (map (part_prog acme) rivals)) leased_world)))
    (w_db (fst (run demo_env (par [0; 1; 0; 2; 1; 2]%nat (map (part_prog acme) rivals)) leased_world))).
Proof.
  assert (Hh : held (lockKey acme) "mine" 300000 (w_now leased_world) (w_db leased_world)).
  { exists 300000. split; [lia|]. vm_compute. reflexivity. }
  split; [exact Hh|].
  refine (proj1 (lease_exclusive acme "mine" demo_env 300000 rivals [0; 1; 0; 2; 1; 2]%nat leased_world _ _ _ Hh _)).
  - intros i. discriminate.
  - repeat constructor.
  - vm_compute. discriminate.
  - vm_compute. reflexivity.
Defined.
