(* ===== verification/LandingAdapter.v ===== *)
(** * LandingAdapter: issue identifiers and the status of a proposal

    [ExtractIssueID] against the declarative meaning of its regular expression, and
    what [GetStatus] of the local adapter reports from the queue and its markers. *)

From Stdlib Require Import Ascii String.
From stdpp Require Import gmap pretty.
From S2P Require Import Prelude GoStrings Redis Landing LandingScore LandingProg LandingQueue LandingDispatch.

(** ** The regular expression *)

(** Whether the text ends inside a word, given how it was entered. *)
Fixpoint ends_word (prev : bool) (s : string) : bool :=
  match s with EmptyString => prev | String c s' => ends_word (is_word c) s' end.

(** [\b([A-Za-z]{2,10})-(\d+)\b] matches after [pre] with these groups. *)
Definition issue_at (prev : bool) (s pre letters digits : string) : Prop :=
  exists post, s = pre +:+ letters +:+ "-" +:+ digits +:+ post /\ ends_word prev pre = false /\
    all_chars is_alpha letters = true /\ (2 <= String.length letters <= 10)%nat /\
    digits <> "" /\ all_chars is_digit digits = true /\ starts_word post = false.

Definition stops (p : ascii -> bool) (s : string) : Prop := match s with String c _ => p c = false | EmptyString => True end.

Lemma span_app p a b : all_chars p a = true -> stops p b -> span p (a +:+ b) = (a, b).
Proof.
  intros Ha Hb. induction a as [|c a IH]; simpl in *.
  - destruct b as [|c b]; simpl in *; [done | by rewrite Hb].
  - apply andb_prop in Ha as [Hc Ha]. rewrite Hc, IH by done. done.
Qed.

Lemma span_spec p s a b : span p s = (a, b) -> s = a +:+ b /\ all_chars p a = true /\ stops p b.
Proof.
  revert a b. induction s as [|c s IH]; intros a b; simpl; [intros [= <- <-]; done|].
  destruct (p c) eqn:Hc; [|intros [= <- <-]; split; [done|]; by split].
  destruct (span p s) as [a' b'] eqn:E. intros [= <- <-]. destruct (IH a' b' eq_refl) as (-> & Ha & Hb). simpl. by rewrite Hc.
Qed.

Lemma word_digit post : starts_word post = false -> stops is_digit post.
Proof.
  destruct post as [|c post]; simpl; [done|]. unfold is_word, is_alnum. intros H. destruct (is_digit c); [done | done].
Qed.

Lemma match_issue_complete s l d : issue_at false s "" l d -> match_issue s = Some (l, d).
Proof.
  intros (post & -> & _ & Hl & Hlen & Hd & Hdig & Hp). unfold match_issue.
  change ("" +:+ l +:+ "-" +:+ d +:+ post) with (l +:+ String "-" (d +:+ post)). rewrite span_app by done.
  rewrite (proj2 (Nat.leb_le _ _)), (proj2 (Nat.leb_le _ _)) by lia. cbn [andb].
  rewrite (span_app is_digit d post Hdig (word_digit post Hp)).
  destruct (str_eqb d "") eqn:E; [by apply str_eqb_true in E|]. by rewrite Hp.
Qed.

Lemma match_issue_sound s l d : match_issue s = Some (l, d) -> issue_at false s "" l d.
Proof.
  unfold match_issue. destruct (span is_alpha s) as [a b] eqn:E1. apply span_spec in E1 as (-> & Ha & Hb).
  destruct ((2 <=? String.length a)%nat && (String.length a <=? 10)%nat) eqn:El; [|done].
  apply andb_prop in El as [H1%Nat.leb_le H2%Nat.leb_le]. destruct b as [|c b]; [done|].
  destruct (decide (c = "-"%char)) as [->|Hne]; [|by destruct c as [[] [] [] [] [] [] [] []]].
  destruct (span is_digit b) as [x post] eqn:E2. apply span_spec in E2 as (-> & Hx & _).
  destruct (negb (str_eqb x "") && negb (starts_word post)) eqn:E3; [|done]. intros [= <- <-].
  apply andb_prop in E3 as [Hne Hp]. exists post. split_and!; try done.
  - intros ->. by rewrite str_eqb_refl in Hne.
  - by destruct (starts_word post).
Qed.

Lemma issue_shift prev c s pre l d : issue_at (is_word c) s pre l d -> issue_at prev (String c s) (String c pre) l d.
Proof. intros (post & -> & H). exists post. done. Qed.

Lemma issue_unshift prev c s pre l d : issue_at prev (String c s) (String c pre) l d -> issue_at (is_word c) s pre l d.
Proof. intros (post & [= E] & H). exists post. done. Qed.

(** A match either starts here or behind the first character. *)
Lemma issue_cases prev c s pre l d : issue_at prev (String c s) pre l d ->
  (pre = "" /\ prev = false /\ is_alpha c = true /\ match_issue (String c s) = Some (l, d)) \/
  (exists pre', pre = String c pre' /\ issue_at (is_word c) s pre' l d).
Proof.
  intros H. destruct pre as [|x pre].
  - left. pose proof H as (post & E & Hp & Hl & Hlen & _). simpl in Hp. subst prev. split_and!; try done; [|by apply match_issue_complete].
    destruct l as [|y l]; [simpl in Hlen; lia|]. simpl in E, Hl. injection E as -> _. by apply andb_prop in Hl as [-> _].
  - right. pose proof H as (post & E & _). simpl in E. injection E as -> _. exists pre. split; [done|]. by apply issue_unshift in H.
Qed.

Lemma find_issue_leftmost s : forall prev pre l d, issue_at prev s pre l d ->
  exists pre' l' d', find_issue prev s = Some (l', d') /\ issue_at prev s pre' l' d' /\ (String.length pre' <= String.length pre)%nat.
Proof.
  induction s as [|c s IH]; intros prev pre l d H.
  { destruct H as (post & E & _ & _ & Hlen & _). destruct pre; [|done]. destruct l; simpl in *; [lia | done]. }
  assert (Hrest : (exists pre', pre = String c pre' /\ issue_at (is_word c) s pre' l d) ->
    exists pre' l' d', find_issue (is_word c) s = Some (l', d') /\ issue_at prev (String c s) pre' l' d' /\ (String.length pre' <= String.length pre)%nat).
  { intros (pre1 & -> & H1). destruct (IH _ _ _ _ H1) as (pre' & l' & d' & E & H2 & Hle). exists (String c pre'), l', d'.
    split_and!; [done | by apply issue_shift | simpl; lia]. }
  cbn [find_issue]. destruct (negb prev && is_alpha c) eqn:Eg.
  - apply andb_prop in Eg as [Hprev Hc]. destruct (match_issue (String c s)) as [[l' d']|] eqn:Em.
    + exists "", l', d'. split_and!; [done | | simpl; lia]. apply match_issue_sound in Em. by destruct prev.
    + apply Hrest. destruct (issue_cases _ _ _ _ _ _ H) as [(_ & _ & _ & E)|?]; [congruence | done].
  - apply Hrest. destruct (issue_cases _ _ _ _ _ _ H) as [(_ & -> & E & _)|?]; [by rewrite E in Eg | done].
Qed.

Lemma find_issue_sound s : forall prev l d, find_issue prev s = Some (l, d) -> exists pre, issue_at prev s pre l d.
Proof.
  induction s as [|c s IH]; intros prev l d; cbn [find_issue]; [done|].
  assert (Hrest : find_issue (is_word c) s = Some (l, d) -> exists pre, issue_at prev (String c s) pre l d).
  { intros E. destruct (IH _ _ _ E) as [pre H]. exists (String c pre). by apply issue_shift. }
  destruct (negb prev && is_alpha c) eqn:Eg; [|done]. apply andb_prop in Eg as [Hprev _].
  destruct (match_issue (String c s)) as [m|] eqn:Em; [|done]. intros [= ->]. exists "". apply match_issue_sound in Em. by destruct prev.
Qed.

(** Issue identifiers.  [ExtractIssueID] returns the leftmost match of its regular
    expression with the letters in upper case, and the empty string when and only
    when the text has no match: two to ten letters, a dash and digits, at word
    boundaries on both sides. *)
Theorem issue_leftmost input :
  (forall pre l d, issue_at false input pre l d ->
     exists pre' l' d', issue_at false input pre' l' d' /\ (String.length pre' <= String.length pre)%nat /\
       ExtractIssueID input = ToUpper l' +:+ "-" +:+ d') /\
  (ExtractIssueID input = "" <-> forall pre l d, ~ issue_at false input pre l d).
Proof.
  assert (H1 : forall pre l d, issue_at false input pre l d ->
     exists pre' l' d', issue_at false input pre' l' d' /\ (String.length pre' <= String.length pre)%nat /\
       ExtractIssueID input = ToUpper l' +:+ "-" +:+ d').
  { intros pre l d H. destruct (find_issue_leftmost input false pre l d H) as (pre' & l' & d' & E & H' & Hle).
    exists pre', l', d'. split_and!; try done. unfold ExtractIssueID. destruct (str_eqb input "") eqn:Ei; [|by rewrite E].
    apply str_eqb_true in Ei as ->. done. }
  split; [done|]. split.
  - intros E pre l d H. destruct (H1 pre l d H) as (pre' & l' & d' & _ & _ & E'). rewrite E in E'. by destruct (ToUpper l').
  - intros Hn. unfold ExtractIssueID. destruct (str_eqb input ""); [done|]. destruct (find_issue false input) as [[l d]|] eqn:E; [|done].
    destruct (find_issue_sound _ _ _ _ E) as [pre H]. by apply Hn in H.
Qed.

Example issue_examples :
  map ExtractIssueID ["ABC-1153"; "feature/abc-1153-cedar-stuff"; "v1.2.3-rc4"; "x-12 toolongprefix-3 my_ab-7 ok-9"; "AB-12c"]
  = ["ABC-1153"; "ABC-1153"; ""; "OK-9"; ""].
Proof. vm_compute. reflexivity. Qed.

Lemma issue_leftmost_witness :
  exists pre' l' d', issue_at false "fix/abc-7" pre' l' d' /\ (String.length pre' <= 4)%nat /\
    ExtractIssueID "fix/abc-7" = ToUpper l' +:+ "-" +:+ d'.
Proof.
  apply (proj1 (issue_leftmost "fix/abc-7") "fix/" "abc" "7"). exists "". split_and!; try done; simpl; lia.
Defined.

(** ** Stale reasons *)

(** A failed reason outlives the next enqueue: a proposal that failed, was queued
    again and then ran into a conflict is reported with its old failure. *)
Theorem stale_failure_reported :
  let ops := [OpMarkFailed 7 "tests failed"; OpEnqueue (demo_entry 7 3); OpDequeue; OpMarkBlocked 7 "merge conflict"] in
  snd (run demo_env (do! _ := client 0 acme ops in GetStatus "acme" "o" "r" 7) (empty_world [])) =
  inr {| st_State := StateFailed; st_Position := 0; st_FailureReason := "tests failed"; st_Checks := [] |}.
Proof. vm_compute. reflexivity. Qed.
