(* ===== verification/BigEndian.v ===== *)
(** * BigEndian: fixed-width integers on the wire ([encoding/binary])

    [binary.BigEndian.PutUint16/32/64] and [Uint16/32/64], and the lemmas the fixed-header codecs share: a write
    followed by a read is the identity on the integer's width, and every slice
    of the right length is the encoding of the integer it decodes to. *)

From S2P Require Import Prelude.

Definition u16 (x : Z) : Z := x mod 2 ^ 16.
Definition u16_ok (x : Z) : Prop := 0 <= x < 2 ^ 16.
Definition u32_ok (x : Z) : Prop := 0 <= x < 2 ^ 32.

(** The [n] bytes of [x], most significant first. *)
Fixpoint be_bytes (n : nat) (x : Z) : bytes :=
  match n with
  | O => []
  | S n' => u8 (Z.shiftr x (8 * Z.of_nat n')) :: be_bytes n' x
  end.

Definition PutUint16 (v : Z) : bytes := be_bytes 2 v.
Definition PutUint32 (v : Z) : bytes := be_bytes 4 v.
Definition PutUint64 (v : Z) : bytes := be_bytes 8 v.

(** The value of a slice of bytes, most significant first. *)
Fixpoint be_value (b : bytes) : Z :=
  match b with
  | [] => 0
  | x :: b' => Z.lor (Z.shiftl x (8 * blen b')) (be_value b')
  end.

(** [Uint..] reads the first bytes of its argument and panics when it is short. *)
Definition be_uint {E} (n : nat) (b : bytes) : outcome E Z :=
  if Z.of_nat n <=? blen b then Ok (be_value (take n b)) else Panic.

Definition Uint16 {E} (b : bytes) : outcome E Z := be_uint 2 b.
Definition Uint32 {E} (b : bytes) : outcome E Z := be_uint 4 b.
Definition Uint64 {E} (b : bytes) : outcome E Z := be_uint 8 b.

(** ** Lemmas *)

Lemma be_bytes_length n x : length (be_bytes n x) = n.
Proof. induction n; simpl; auto. Qed.

Lemma be_bytes_blen n x : blen (be_bytes n x) = Z.of_nat n.
Proof. unfold blen. by rewrite be_bytes_length. Qed.

Lemma be_bytes_ok n x : bytes_ok (be_bytes n x).
Proof. induction n; simpl; constructor; auto using u8_range. Qed.

Lemma be_value_range b : bytes_ok b -> 0 <= be_value b < 2 ^ (8 * blen b).
Proof.
  induction 1 as [|x b Hx Hb IH]; [rewrite blen_nil; simpl; lia|].
  cbn [be_value]. rewrite blen_cons. pose proof (blen_nonneg b).
  rewrite Z.lor_comm, lor_shiftl_add by lia.
  rewrite Z.mul_add_distr_l, Z.pow_add_r by lia. unfold u8_ok in Hx.
  change (2 ^ (8 * 1)) with (2 ^ 8). nia.
Qed.

Lemma be_value_cons x b : bytes_ok b -> be_value (x :: b) = x * 2 ^ (8 * blen b) + be_value b.
Proof.
  intros Hb. cbn [be_value]. pose proof (blen_nonneg b).
  rewrite Z.lor_comm, lor_shiftl_add by (try lia; by apply be_value_range). lia.
Qed.

Lemma be_value_be n x : 0 <= x < 2 ^ (8 * Z.of_nat n) -> be_value (be_bytes n x) = x.
Proof.
  assert (forall y, be_value (be_bytes n y) = y mod 2 ^ (8 * Z.of_nat n)) as H.
  2: { intros. rewrite H. apply Z.mod_small. lia. }
  intros y. induction n as [|n IH]; [by rewrite Z.mod_1_r|].
  cbn [be_bytes]. rewrite be_value_cons by apply be_bytes_ok.
  rewrite IH, be_bytes_blen. rewrite Z.shiftr_div_pow2 by lia. unfold u8.
  replace (8 * Z.of_nat (S n)) with (8 * Z.of_nat n + 8) by lia.
  rewrite Z.pow_add_r by lia. rewrite Z.rem_mul_r by lia. lia.
Qed.

Lemma be_bytes_value b : bytes_ok b -> be_bytes (length b) (be_value b) = b.
Proof.
  induction 1 as [|x b Hx Hb IH]; [done|]. cbn [length be_bytes].
  rewrite be_value_cons by done. pose proof (be_value_range b Hb) as Hr. unfold blen in *.
  assert (Hp : 0 < 2 ^ (8 * Z.of_nat (length b))) by lia. f_equal.
  - rewrite Z.shiftr_div_pow2 by lia. rewrite Z.div_add_l by lia. rewrite (Z.div_small (be_value b)) by lia.
    unfold u8. rewrite Z.add_0_r. by apply Z.mod_small.
  - etransitivity; [|exact IH]. clear -Hp. generalize (be_value b) as v. intros v.
    assert (forall n, (n <= length b)%nat ->
      be_bytes n (x * 2 ^ (8 * Z.of_nat (length b)) + v) = be_bytes n v) as H; [|by apply H].
    induction n as [|n IHn]; intros Hn; [done|]. cbn [be_bytes]. rewrite IHn by lia. f_equal.
    rewrite !Z.shiftr_div_pow2 by lia. unfold u8.
    replace (8 * Z.of_nat (length b)) with
      (8 * Z.of_nat (length b - S n) + 8 + 8 * Z.of_nat n) by lia.
    rewrite !Z.pow_add_r by lia. rewrite !Z.mul_assoc, Z.div_add_l by lia.
    rewrite Z.add_comm. by rewrite Z.mod_add by lia.
Qed.

Lemma be_uint_be {E} n x t :
  0 <= x < 2 ^ (8 * Z.of_nat n) -> be_uint (E := E) n (be_bytes n x ++ t) = Ok x.
Proof.
  intros Hx. unfold be_uint. rewrite blen_app, be_bytes_blen. pose proof (blen_nonneg t).
  replace (Z.of_nat n <=? Z.of_nat n + blen t) with true by lia.
  rewrite take_app_length' by (by rewrite be_bytes_length). by rewrite be_value_be.
Qed.

Lemma Uint64_Put {E} x t : u64_ok x -> Uint64 (E := E) (PutUint64 x ++ t) = Ok x.
Proof. intros. by apply be_uint_be. Qed.
Lemma Uint32_Put {E} x t : u32_ok x -> Uint32 (E := E) (PutUint32 x ++ t) = Ok x.
Proof. intros. by apply be_uint_be. Qed.
Lemma Uint16_Put {E} x t : u16_ok x -> Uint16 (E := E) (PutUint16 x ++ t) = Ok x.
Proof. intros. by apply be_uint_be. Qed.

(** Sub-slices of a concatenation. *)
Lemma slice_mid {E A} (a b c : list A) lo hi :
  lo = blen a -> hi = blen a + blen b -> slice (E := E) (a ++ b ++ c) lo hi = Ok b.
Proof.
  intros -> ->. unfold slice. rewrite !blen_app.
  pose proof (blen_nonneg a); pose proof (blen_nonneg b); pose proof (blen_nonneg c).
  match goal with |- context [if ?x then _ else _] => replace x with true by lia end.
  rewrite to_nat_blen, drop_app_length.
  replace (blen a + blen b - blen a) with (blen b) by lia.
  by rewrite to_nat_blen, take_app_length.
Qed.

Lemma slice_from_mid {E A} (a b : list A) lo :
  lo = blen a -> slice_from (E := E) (a ++ b) lo = Ok b.
Proof. intros ->. apply slice_from_app. Qed.

Lemma index_mid {E A} (a : list A) x b i :
  i = blen a -> index (E := E) (a ++ x :: b) i = Ok x.
Proof.
  intros ->. unfold index. pose proof (blen_nonneg a). replace (0 <=? blen a) with true by lia.
  by rewrite to_nat_blen, list_lookup_middle.
Qed.

(** A slice that is long enough starts with a fixed-width integer. *)
Lemma be_split n b :
  bytes_ok b -> Z.of_nat n <= blen b ->
  exists x t, b = be_bytes n x ++ t /\ 0 <= x < 2 ^ (8 * Z.of_nat n) /\ bytes_ok t.
Proof.
  intros Hb Hl. exists (be_value (take n b)), (drop n b).
  apply Forall_take with (n := n) in Hb as Ht. apply Forall_drop with (n := n) in Hb as Hd.
  assert (length (take n b) = n) as Hn by (rewrite length_take; unfold blen in Hl; lia).
  pose proof (be_value_range _ Ht) as Hr. unfold blen in Hr. rewrite Hn in Hr.
  rewrite <- Hn at 1. rewrite be_bytes_value by done. by rewrite take_drop.
Qed.

Lemma byte_split (b : bytes) :
  bytes_ok b -> 1 <= blen b -> exists x t, b = x :: t /\ u8_ok x /\ bytes_ok t.
Proof.
  intros Hb Hl. destruct b as [|x t]; [rewrite blen_nil in Hl; lia|].
  inversion Hb; subst. by exists x, t.
Qed.

#[export] Hint Rewrite @be_bytes_blen : go.

(** ** Reading a fixed layout

    A field of a body is named by what precedes and follows it. *)

Lemma slice_at {E A} (b pre mid post : list A) lo hi :
  b = pre ++ mid ++ post -> lo = blen pre -> hi = blen pre + blen mid -> slice (E := E) b lo hi = Ok mid.
Proof. intros -> -> ->. by apply slice_mid. Qed.

Lemma slice_from_at {E A} (b pre post : list A) lo :
  b = pre ++ post -> lo = blen pre -> slice_from (E := E) b lo = Ok post.
Proof. intros -> ->. by apply slice_from_mid. Qed.

Lemma slice_to_at {E A} (b pre post : list A) hi :
  b = pre ++ post -> hi = blen pre -> slice_to (E := E) b hi = Ok pre.
Proof. intros -> ->. apply slice_to_app. Qed.

Lemma index_at {E A} (b pre post : list A) x i :
  b = pre ++ x :: post -> i = blen pre -> index (E := E) b i = Ok x.
Proof. intros -> ->. by apply index_mid. Qed.

Lemma Uint64_at {E} b x t : b = PutUint64 x ++ t -> u64_ok x -> Uint64 (E := E) b = Ok x.
Proof. intros ->. apply Uint64_Put. Qed.
Lemma Uint32_at {E} b x t : b = PutUint32 x ++ t -> u32_ok x -> Uint32 (E := E) b = Ok x.
Proof. intros ->. apply Uint32_Put. Qed.
Lemma Uint16_at {E} b x t : b = PutUint16 x ++ t -> u16_ok x -> Uint16 (E := E) b = Ok x.
Proof. intros ->. apply Uint16_Put. Qed.

Lemma PutUint64_blen x : blen (PutUint64 x) = 8.
Proof. apply be_bytes_blen. Qed.
Lemma PutUint32_blen x : blen (PutUint32 x) = 4.
Proof. apply be_bytes_blen. Qed.
Lemma PutUint16_blen x : blen (PutUint16 x) = 2.
Proof. apply be_bytes_blen. Qed.

Lemma PutUint64_ok x : bytes_ok (PutUint64 x).
Proof. apply be_bytes_ok. Qed.
Lemma PutUint32_ok x : bytes_ok (PutUint32 x).
Proof. apply be_bytes_ok. Qed.
Lemma PutUint16_ok x : bytes_ok (PutUint16 x).
Proof. apply be_bytes_ok. Qed.

#[export] Hint Rewrite PutUint64_blen PutUint32_blen PutUint16_blen : go.

Lemma PutUint64_split b :
  bytes_ok b -> 8 <= blen b -> exists x t, b = PutUint64 x ++ t /\ u64_ok x /\ bytes_ok t /\ blen t = blen b - 8.
Proof.
  intros Hb Hl. destruct (be_split 8 b Hb Hl) as (x & t & -> & Hx & Ht).
  exists x, t. rewrite blen_app, be_bytes_blen. do 3 (split; [first [done | exact Hx]|]). lia.
Qed.
Lemma PutUint32_split b :
  bytes_ok b -> 4 <= blen b -> exists x t, b = PutUint32 x ++ t /\ u32_ok x /\ bytes_ok t /\ blen t = blen b - 4.
Proof.
  intros Hb Hl. destruct (be_split 4 b Hb Hl) as (x & t & -> & Hx & Ht).
  exists x, t. rewrite blen_app, be_bytes_blen. do 3 (split; [first [done | exact Hx]|]). lia.
Qed.
Lemma PutUint16_split b :
  bytes_ok b -> 2 <= blen b -> exists x t, b = PutUint16 x ++ t /\ u16_ok x /\ bytes_ok t /\ blen t = blen b - 2.
Proof.
  intros Hb Hl. destruct (be_split 2 b Hb Hl) as (x & t & -> & Hx & Ht).
  exists x, t. rewrite blen_app, be_bytes_blen. do 3 (split; [first [done | exact Hx]|]). lia.
Qed.
Lemma byte_head_split b :
  bytes_ok b -> 1 <= blen b -> exists x t, b = [x] ++ t /\ u8_ok x /\ bytes_ok t /\ blen t = blen b - 1.
Proof.
  intros Hb Hl. destruct (byte_split b Hb Hl) as (x & t & -> & Hx & Ht).
  exists x, t. rewrite blen_cons. do 3 (split; [first [done | exact Hx]|]). lia.
Qed.
Lemma bytes_split n b :
  bytes_ok b -> 0 <= n <= blen b -> exists p t, b = p ++ t /\ blen p = n /\ bytes_ok p /\ bytes_ok t /\ blen t = blen b - n.
Proof.
  intros Hb Hl. exists (take (Z.to_nat n) b), (drop (Z.to_nat n) b). rewrite take_drop.
  unfold blen in *. rewrite length_take, length_drop.
  repeat split; [lia | by apply Forall_take | by apply Forall_drop | lia].
Qed.

(** Side conditions of the lemmas above. *)
Ltac layout := solve [reflexivity | by rewrite <- ?app_assoc | autorewrite with go; lia | assumption].
Ltac field_slice pre mid post := rewrite (slice_at _ pre mid post) by layout; cbn [obind].
Ltac field_from pre post := rewrite (slice_from_at _ pre post) by layout; cbn [obind].
Ltac field_to pre post := rewrite (slice_to_at _ pre post) by layout; cbn [obind].
Ltac field_index pre x post := rewrite (index_at _ pre post x) by layout; cbn [obind].
Ltac field_u64 x t := rewrite (Uint64_at _ x t) by (layout || by rewrite app_nil_r); cbn [obind].
Ltac field_u32 x t := rewrite (Uint32_at _ x t) by (layout || by rewrite app_nil_r); cbn [obind].
Ltac field_u16 x t := rewrite (Uint16_at _ x t) by (layout || by rewrite app_nil_r); cbn [obind].

(** Encoders only emit bytes. *)
Ltac ok_bytes :=
  repeat match goal with
  | |- bytes_ok (_ ++ _) => apply bytes_ok_app; split
  | |- bytes_ok (PutUint64 _) => apply PutUint64_ok
  | |- bytes_ok (PutUint32 _) => apply PutUint32_ok
  | |- bytes_ok (PutUint16 _) => apply PutUint16_ok
  | |- bytes_ok (_ :: _) => apply Forall_cons; split
  | |- bytes_ok [] => apply Forall_nil_2
  | |- Forall _ [] => apply Forall_nil_2
  | |- Forall _ (_ :: _) => apply Forall_cons; split
  | |- _ => assumption
  end.

#[global] Opaque PutUint64 PutUint32 PutUint16 Uint64 Uint32 Uint16.
