(* ===== verification/ShimWire.v ===== *)
(** * ShimWire: the session shim's message stream ([src/shimwire])

    A session shim is the process that owns a session's terminal; a daemon
    adopts it over a socket.  This file has the message vocabulary and its
    versions ([message.go], [version.go], [errors.go]) and the length-delimited
    stream ([codec.go]): the writer over any [io.Writer], the reader over the
    bytes that arrived.  The typed bodies are in [ShimPayloads]. *)

From stdpp Require Import gmap.
From S2P Require Import Prelude BigEndian.

(** ** Errors ([errors.go])

    An error value is a sentinel itself, or an error that wraps sentinels with
    [%w]; [errors.Is] looks through the wrapping.  [IOError n] is any other error
    of the transport. *)
Inductive sentinel :=
| EOF | UnexpectedEOF | IOError (n : Z)
| ErrVersionMismatch | ErrExtensionUnsupported | ErrMalformed | ErrProfileRefused
| ErrMessageTooLarge | ErrStaleGeneration | ErrGenerationRequired
| ErrSnapshotRefused | ErrSnapshotMismatch | ErrDuplicateHostFrame.

#[export] Instance sentinel_eq_dec : EqDecision sentinel.
Proof. solve_decision. Defined.

Inductive error :=
| Bare (s : sentinel)
| Wrapped (ss : list sentinel).

#[export] Instance error_eq_dec : EqDecision error.
Proof. solve_decision. Defined.

(** [fmt.Errorf("...: %w", err)]. *)
Definition wrap (e : error) : error :=
  match e with Bare s => Wrapped [s] | Wrapped ss => Wrapped ss end.

Definition errors_Is (e : error) (s : sentinel) : bool :=
  match e with
  | Bare s' => bool_decide (s' = s)
  | Wrapped ss => bool_decide (s ∈ ss)
  end.

(** The closed set of codes of an Error message. *)
Definition ErrorCode : Type := bytes.
Definition CodeVersionMismatch : ErrorCode := str "version_mismatch".
Definition CodeExtensionRequired : ErrorCode := str "extension_required".
Definition CodeMalformed : ErrorCode := str "malformed".
Definition CodeStaleGeneration : ErrorCode := str "stale_generation".
Definition CodeGenerationRequired : ErrorCode := str "generation_required".
Definition CodeIdentityMismatch : ErrorCode := str "identity_mismatch".
Definition CodeUnauthenticated : ErrorCode := str "unauthenticated".
Definition CodePhaseUnknown : ErrorCode := str "phase_unknown".
Definition CodeExited : ErrorCode := str "exited".
Definition CodeInternal : ErrorCode := str "internal".
Definition CodeDuplicateChanged : ErrorCode := str "duplicate_changed".
Definition CodeRequestLedgerFull : ErrorCode := str "request_ledger_full".
Definition CodeRequestMismatch : ErrorCode := str "request_mismatch".
Definition CodeTimeout : ErrorCode := str "timeout".

(** [x == a || x == b || ...] on strings, the form of the [Known] methods. *)
Definition one_of (x : bytes) (l : list bytes) : bool := existsb (bytes_eqb x) l.

Definition ErrorCode_Known (c : ErrorCode) : bool :=
  one_of c [CodeVersionMismatch; CodeExtensionRequired; CodeMalformed;
            CodeStaleGeneration; CodeGenerationRequired; CodeIdentityMismatch;
            CodeUnauthenticated; CodePhaseUnknown; CodeExited; CodeInternal].

(** ** The vocabulary ([message.go]) *)

Definition V1 : Z := 1.
Definition V2 : Z := 2.
Definition V3 : Z := 3.
Definition V4 : Z := 4.
Definition V5 : Z := 5.
Definition V6 : Z := 6.
Definition HeadlessMin : Z := V6.
Definition HeadlessMax : Z := V6.
Definition ProtocolMin : Z := V1.
Definition ProtocolMax : Z := V5.
Definition ProtocolName : bytes := str "session-shim-v1".

(** [MessageType] is a [uint8]. *)
Abbreviation MessageType := Z.

Module Msg.
Definition TypeHello : MessageType := 0x01.
Definition TypeWelcome : MessageType := 0x02.
Definition TypeAdopted : MessageType := 0x03.
Definition TypeOutput : MessageType := 0x04.
Definition TypeGap : MessageType := 0x05.
Definition TypeSnapshot : MessageType := 0x06.
Definition TypeInput : MessageType := 0x07.
Definition TypeResize : MessageType := 0x08.
Definition TypeStop : MessageType := 0x09.
Definition TypeHeartbeat : MessageType := 0x0A.
Definition TypeExit : MessageType := 0x0B.
Definition TypeError : MessageType := 0x0C.
Definition TypeSnapshotRequest : MessageType := 0x0D.
Definition TypeSnapshotResult : MessageType := 0x0E.
Definition TypeHostFrame : MessageType := 0x0F.
Definition TypeAttributedInput : MessageType := 0x10.
Definition TypeCheckpointRequest : MessageType := 0x11.
Definition TypeCheckpointResult : MessageType := 0x12.
Definition TypeCredentialUpdate : MessageType := 0x13.
Definition TypeCredentialResult : MessageType := 0x14.
Definition TypeHeadlessExit : MessageType := 0x15.
End Msg.

Definition MessageType_Known (t : MessageType) : bool :=
  (Msg.TypeHello <=? t) && (t <=? Msg.TypeError).

Definition AllowedIn (t : MessageType) (version : Z) : bool :=
  if (Msg.TypeHello <=? t) && (t <=? Msg.TypeError)
  then (V1 <=? version) && (version <=? V6)
  else if (t =? Msg.TypeSnapshotRequest) || (t =? Msg.TypeSnapshotResult)
  then (V2 <=? version) && (version <=? V6)
  else if t =? Msg.TypeHostFrame
  then (V3 <=? version) && (version <=? V6)
  else if t =? Msg.TypeAttributedInput
  then (V4 <=? version) && (version <=? V6)
  else if (t =? Msg.TypeCheckpointRequest) || (t =? Msg.TypeCheckpointResult)
  then (version =? V5) || (version =? V6)
  else (version =? V6) &&
       ((t =? Msg.TypeCredentialUpdate) || (t =? Msg.TypeCredentialResult) || (t =? Msg.TypeHeadlessExit)).

Definition Profile : Type := bytes.
Definition ProfileInteractive : Profile := str "interactive".
Definition ProfileHeadless : Profile := str "headless".
Definition Profile_Known (p : Profile) : bool := one_of p [ProfileInteractive; ProfileHeadless].

Definition RefusedIn (t : MessageType) (profile : Profile) (version : Z) : bool :=
  if negb (bytes_eqb profile ProfileHeadless) then false
  else if negb (version =? V6) then true
  else negb (bool_decide
    (t ∈ [Msg.TypeHello; Msg.TypeWelcome; Msg.TypeAdopted; Msg.TypeStop; Msg.TypeHeartbeat; Msg.TypeError;
          Msg.TypeCredentialUpdate; Msg.TypeCredentialResult; Msg.TypeHeadlessExit])).

Definition Mutating (t : MessageType) : bool :=
  bool_decide (t ∈ [Msg.TypeInput; Msg.TypeResize; Msg.TypeStop; Msg.TypeSnapshotRequest;
                    Msg.TypeAttributedInput; Msg.TypeCheckpointRequest; Msg.TypeCredentialUpdate]).

(** [hexByte] of this package uses lower-case digits. *)
Definition lowerHexByte (b : Z) : outcome error bytes :=
  let digits := str "0123456789abcdef" in
  obind (index digits (Z.shiftr b 4)) (fun hi =>
  obind (index digits (Z.land b 15)) (fun lo => Ok [hi; lo])).

Definition message_names : list (MessageType * bytes) :=
  [(Msg.TypeHello, str "Hello"); (Msg.TypeWelcome, str "Welcome"); (Msg.TypeAdopted, str "Adopted");
   (Msg.TypeOutput, str "Output"); (Msg.TypeGap, str "Gap"); (Msg.TypeSnapshot, str "Snapshot");
   (Msg.TypeInput, str "Input"); (Msg.TypeResize, str "Resize"); (Msg.TypeStop, str "Stop");
   (Msg.TypeHeartbeat, str "Heartbeat"); (Msg.TypeExit, str "Exit"); (Msg.TypeError, str "Error");
   (Msg.TypeSnapshotRequest, str "SnapshotRequest"); (Msg.TypeSnapshotResult, str "SnapshotResult");
   (Msg.TypeHostFrame, str "HostFrame"); (Msg.TypeAttributedInput, str "AttributedInput");
   (Msg.TypeCheckpointRequest, str "CheckpointRequest"); (Msg.TypeCheckpointResult, str "CheckpointResult");
   (Msg.TypeCredentialUpdate, str "CredentialUpdate"); (Msg.TypeCredentialResult, str "CredentialResult");
   (Msg.TypeHeadlessExit, str "HeadlessExit")].

Definition MessageType_String (t : MessageType) : outcome error bytes :=
  match list_find (fun p => fst p = t) message_names with
  | Some (_, (_, name)) => Ok name
  | None => obind (lowerHexByte t) (fun h => Ok (str "Unknown(0x" ++ h ++ str ")"))
  end.

Definition Phase : Type := bytes.
Definition PhaseStarting : Phase := str "starting".
Definition PhaseRunning : Phase := str "running".
Definition PhaseOrphaned : Phase := str "orphaned".
Definition PhaseExited : Phase := str "exited".
Definition Phase_Known (p : Phase) : bool :=
  one_of p [PhaseStarting; PhaseRunning; PhaseOrphaned; PhaseExited].
Definition HarnessLive (p : Phase) : bool := one_of p [PhaseRunning; PhaseOrphaned].

Definition GapReason : Type := bytes.
Definition GapRingEvicted : GapReason := str "ring_evicted".
Definition GapAheadOfStream : GapReason := str "ahead_of_stream".
Definition GapReason_Known (r : GapReason) : bool := one_of r [GapRingEvicted; GapAheadOfStream].

Definition StopReason : Type := bytes.
Definition StopOperator : StopReason := str "operator".
Definition StopPolicy : StopReason := str "policy".
Definition StopHostShutdown : StopReason := str "host_shutdown".
Definition StopReason_Known (r : StopReason) : bool :=
  one_of r [StopOperator; StopPolicy; StopHostShutdown].

(** ** Negotiation ([version.go]) *)

Definition Negotiate (peerMin peerMax ourMin ourMax : Z) : outcome error Z :=
  if peerMax <? peerMin then Err (Wrapped [ErrVersionMismatch])
  else if ourMax <? ourMin then Err (Wrapped [ErrVersionMismatch])
  else
    let lo := if peerMin <? ourMin then ourMin else peerMin in
    let hi := if ourMax <? peerMax then ourMax else peerMax in
    if hi <? lo then Err (Wrapped [ErrVersionMismatch]) else Ok hi.

Definition ExtCarrierEpoch : bytes := str "carrier_epoch".
Definition ExtContinuationCheckpoint : bytes := str "continuation_checkpoint".
Definition ExtWorkload : bytes := str "workload".
Definition WorkloadHeadless : bytes := str "headless".

Record Extensions := { Values : gmap bytes bytes; Required : list bytes }.

Definition supported (name : bytes) : bool := bytes_eqb name ExtCarrierEpoch.

Definition Workload_of (e : Extensions) : outcome error Profile :=
  match Values e !! ExtWorkload with
  | None => Ok ProfileInteractive
  | Some value =>
      if negb (bytes_eqb value ProfileHeadless) then Err (Wrapped [ErrMalformed]) else Ok ProfileHeadless
  end.

Definition checkWorkloadRange (profile : Profile) (advertisedMin : Z) : outcome error unit :=
  if bytes_eqb profile ProfileHeadless && (advertisedMin <? V6)
  then Err (Wrapped [ErrMalformed]) else Ok tt.

Definition CheckRequired (e : Extensions) : outcome error unit :=
  if forallb supported (Required e) then Ok tt else Err (Wrapped [ErrExtensionUnsupported]).

Definition Extensions_Get (e : Extensions) (name : bytes) : option bytes := Values e !! name.

(** ** The writer ([codec.go])

    [Sink] is the contract of [io.Writer]: a write appends a prefix of its
    argument, the whole of it when it reports no error; its errors are the
    transport's.  The mutex makes one
    call, and one batch, contiguous on the stream. *)
Class Sink (W : Type) := {
  sink_write : W -> bytes -> W * option error;
  sink_bytes : W -> bytes;
  sink_law w p w' e :
    sink_write w p = (w', e) ->
    exists n, sink_bytes w' = sink_bytes w ++ take n p /\ (n <= length p)%nat /\ (e = None -> n = length p);
  sink_err w p w' e : sink_write w p = (w', Some e) -> exists n, e = Bare (IOError n)
}.

Definition MaxMessageBytes : Z := Z.shiftl 1 20.
Definition lengthPrefixLen : Z := 4.

Record Message := { m_Type : MessageType; m_Body : bytes }.

Section writer.
Context {W : Type} `{Sink W}.

Definition writeAssignedLocked (t : MessageType) (body : bytes) (total : Z) (w : W) : W * option error :=
  let hdr := PutUint32 (u32 total) ++ [u8 t] in
  match sink_write w hdr with
  | (w, Some e) => (w, Some (wrap e))
  | (w, None) =>
      if 0 <? blen body then
        match sink_write w body with
        | (w, Some e) => (w, Some (wrap e))
        | (w, None) => (w, None)
        end
      else (w, None)
  end.

Definition writeAssigned (t : MessageType) (body : bytes) (w : W) : W * option error :=
  let total := 1 + blen body in
  if MaxMessageBytes <? total then (w, Some (Wrapped [ErrMessageTooLarge]))
  else writeAssignedLocked t body total w.

Definition Writer_Write (t : MessageType) (body : bytes) (w : W) : W * option error :=
  if negb (AllowedIn t V1) then (w, Some (Wrapped [ErrMalformed])) else writeAssigned t body w.

Definition WriteMessage (m : Message) (w : W) : W * option error := Writer_Write (m_Type m) (m_Body m) w.

Definition WriteVersion (version : Z) (t : MessageType) (body : bytes) (w : W) : W * option error :=
  if negb (AllowedIn t version) then (w, Some (Wrapped [ErrMalformed])) else writeAssigned t body w.

(** The first pass of a batch: [None] when every message may be written. *)
Fixpoint batch_check (version : Z) (messages : list Message) : option error :=
  match messages with
  | [] => None
  | m :: ms =>
      if negb (AllowedIn (m_Type m) version) then Some (Wrapped [ErrMalformed])
      else if MaxMessageBytes <? 1 + blen (m_Body m) then Some (Wrapped [ErrMessageTooLarge])
      else batch_check version ms
  end.

(** The second pass, under the lock. *)
Fixpoint batch_write (messages : list Message) (w : W) : W * option error :=
  match messages with
  | [] => (w, None)
  | m :: ms =>
      match writeAssignedLocked (m_Type m) (m_Body m) (1 + blen (m_Body m)) w with
      | (w, Some e) => (w, Some e)
      | (w, None) => batch_write ms w
      end
  end.

Definition WriteVersionBatch (version : Z) (messages : list Message) (w : W) : W * option error :=
  match batch_check version messages with
  | Some e => (w, Some e)
  | None => batch_write messages w
  end.
End writer.

(** ** The reader ([codec.go])

    The stream is what the peer's bytes will be until it ends; [fin] is how it
    ends: the peer closed, or the transport failed with some other error. *)
Inductive ending := Closed | Failed (n : Z).

Record stream := { data : bytes; fin : ending }.

(** The error of a read that finds the end of the stream after [got] bytes. *)
Definition end_error (got : Z) (f : ending) : sentinel :=
  match f with
  | Closed => if got =? 0 then EOF else UnexpectedEOF
  | Failed n => IOError n
  end.

(** [io.ReadFull] of [n] bytes. *)
Definition ReadFull (n : Z) (s : stream) : outcome sentinel bytes * stream :=
  if n <=? blen (data s)
  then (Ok (take (Z.to_nat n) (data s)), {| data := drop (Z.to_nat n) (data s); fin := fin s |})
  else (Err (end_error (blen (data s)) (fin s)), {| data := []; fin := fin s |}).

Definition readVersion (version : Z) (s : stream) : outcome error Message * stream :=
  match ReadFull lengthPrefixLen s with
  | (Err e, s) => (Err (if bool_decide (e = EOF) then Bare EOF else Wrapped [e]), s)
  | (Panic, s) => (Panic, s)
  | (Ok hdr, s) =>
      match Uint32 (E := error) hdr with
      | Err e => (Err e, s)
      | Panic => (Panic, s)
      | Ok total =>
          if total =? 0 then (Err (Wrapped [ErrMalformed]), s)
          else if MaxMessageBytes <? total then (Err (Wrapped [ErrMessageTooLarge]), s)
          else match ReadFull total s with
          | (Err e, s) => (Err (Wrapped [e]), s)
          | (Panic, s) => (Panic, s)
          | (Ok buf, s) =>
              (obind (index buf 0) (fun t =>
               if negb (AllowedIn t version) then Err (Wrapped [ErrMalformed])
               else obind (slice_from buf 1) (fun body => Ok {| m_Type := t; m_Body := body |})), s)
          end
      end
  end.

Definition ReadVersion (version : Z) (s : stream) : outcome error Message * stream := readVersion version s.
Definition Reader_Read (s : stream) : outcome error Message * stream := readVersion V1 s.

(** What a read loop over the stream sees: the messages in order, then the
    error that ends it. *)
Inductive delivers (version : Z) : stream -> list Message -> error -> Prop :=
| delivers_end s e s' : readVersion version s = (Err e, s') -> delivers version s [] e
| delivers_msg s m s' ms e :
    readVersion version s = (Ok m, s') -> delivers version s' ms e -> delivers version s (m :: ms) e.

(** ** Lemmas *)

Lemma MaxMessageBytes_eq : MaxMessageBytes = 2 ^ 20.
Proof. reflexivity. Qed.

Lemma AllowedIn_range t v : AllowedIn t v = true -> 1 <= t <= 21 /\ 1 <= v <= 6.
Proof.
  unfold AllowedIn, Msg.TypeHello, Msg.TypeError, Msg.TypeSnapshotRequest, Msg.TypeSnapshotResult,
    Msg.TypeHostFrame, Msg.TypeAttributedInput, Msg.TypeCheckpointRequest, Msg.TypeCheckpointResult,
    Msg.TypeCredentialUpdate, Msg.TypeCredentialResult, Msg.TypeHeadlessExit, V1, V2, V3, V4, V5, V6.
  bool_cases; lia.
Qed.

Lemma AllowedIn_mono t v v' : AllowedIn t v = true -> v <= v' -> v' <= V6 -> AllowedIn t v' = true.
Proof.
  unfold AllowedIn, Msg.TypeHello, Msg.TypeError, Msg.TypeSnapshotRequest, Msg.TypeSnapshotResult,
    Msg.TypeHostFrame, Msg.TypeAttributedInput, Msg.TypeCheckpointRequest, Msg.TypeCheckpointResult,
    Msg.TypeCredentialUpdate, Msg.TypeCredentialResult, Msg.TypeHeadlessExit, V1, V2, V3, V4, V5, V6.
  bool_cases; lia.
Qed.

(** A message that may be written at [version]. *)
Definition message_ok (version : Z) (m : Message) : Prop :=
  AllowedIn (m_Type m) version = true /\ 1 + blen (m_Body m) <= MaxMessageBytes /\ bytes_ok (m_Body m).

(** The bytes of one message and of a batch. *)
Definition message_bytes (m : Message) : bytes :=
  PutUint32 (1 + blen (m_Body m)) ++ [m_Type m] ++ m_Body m.
Definition batch_bytes (ms : list Message) : bytes := mjoin (map message_bytes ms).

Lemma batch_bytes_cons m ms : batch_bytes (m :: ms) = message_bytes m ++ batch_bytes ms.
Proof. done. Qed.

Lemma message_bytes_blen m : blen (message_bytes m) = 5 + blen (m_Body m).
Proof. unfold message_bytes. autorewrite with go. lia. Qed.

Lemma message_total v m : message_ok v m -> u32_ok (1 + blen (m_Body m)) /\ u8_ok (m_Type m).
Proof.
  intros (Ha & Hl & _). apply AllowedIn_range in Ha. rewrite MaxMessageBytes_eq in Hl.
  pose proof (blen_nonneg (m_Body m)). unfold u32_ok, u8_ok. lia.
Qed.

Lemma message_bytes_ok v m : message_ok v m -> bytes_ok (message_bytes m).
Proof.
  intros Hm. destruct (message_total v m Hm) as [_ Ht]. destruct Hm as (_ & _ & Hb).
  unfold message_bytes. rewrite !bytes_ok_app. split; [apply PutUint32_ok|]. split; [|done]. by constructor.
Qed.

Lemma batch_check_none v ms :
  Forall (fun m => bytes_ok (m_Body m)) ms ->
  batch_check v ms = None <-> Forall (message_ok v) ms.
Proof.
  induction 1 as [|m ms Hb _ IH]; [by split|]. cbn [batch_check]. rewrite Forall_cons, <- IH.
  unfold message_ok. destruct (AllowedIn (m_Type m) v); cbn [negb]; [|naive_solver].
  destruct (Z.ltb_spec MaxMessageBytes (1 + blen (m_Body m))); [|naive_solver].
  split; [done | lia].
Qed.

Section writer_lemmas.
Context {W : Type} `{Sink W}.

(** Two writes one after the other, the second only when the first succeeded. *)
Lemma sink_seq (w : W) p q w1 w2 e :
  sink_write w p = (w1, None) -> sink_write w1 q = (w2, e) ->
  exists n, sink_bytes w2 = sink_bytes w ++ take n (p ++ q) /\ (n <= length (p ++ q))%nat /\
            (e = None -> n = length (p ++ q)).
Proof.
  intros H1 H2. destruct (sink_law _ _ _ _ H1) as (n1 & E1 & _ & L1).
  destruct (sink_law _ _ _ _ H2) as (n2 & E2 & B2 & L2). specialize (L1 eq_refl). subst n1.
  exists (length p + n2)%nat. rewrite take_app_add, length_app, E2, E1, firstn_all, app_assoc.
  split; [done|]. split; [lia|]. intros He. by rewrite L2.
Qed.

Lemma writeAssignedLocked_bytes v m (w w' : W) e :
  message_ok v m ->
  writeAssignedLocked (m_Type m) (m_Body m) (1 + blen (m_Body m)) w = (w', e) ->
  exists n, sink_bytes w' = sink_bytes w ++ take n (message_bytes m) /\
            (n <= length (message_bytes m))%nat /\ (e = None -> n = length (message_bytes m)).
Proof.
  intros Hm. destruct (message_total v m Hm) as [Hu Ht].
  unfold writeAssignedLocked, u32, u8. rewrite !Z.mod_small by done.
  assert (message_bytes m = (PutUint32 (1 + blen (m_Body m)) ++ [m_Type m]) ++ m_Body m) as ->
    by (unfold message_bytes; by rewrite <- app_assoc).
  set (hdr := PutUint32 _ ++ _). destruct (sink_write w hdr) as [w1 [e1|]] eqn:E1.
  { intros [= <- <-]. destruct (sink_law _ _ _ _ E1) as (n & Hn & Hb & _). exists n.
    rewrite take_app_le by done. rewrite length_app. split; [done|]. split; [lia | done]. }
  destruct (Z.ltb_spec 0 (blen (m_Body m))) as [Hp|Hp].
  - destruct (sink_write w1 (m_Body m)) as [w2 o] eqn:E2.
    destruct (sink_seq _ _ _ _ _ _ E1 E2) as (n & Hn & Hb & He). intros Heq. exists n.
    destruct o; injection Heq as <- <-; (split; [done|]); (split; [done|]); [done|]; intros _; by apply He.
  - intros [= <- <-]. assert (m_Body m = []) as -> by (apply blen_0_inv; pose proof (blen_nonneg (m_Body m)); lia).
    rewrite app_nil_r. destruct (sink_law _ _ _ _ E1) as (n & Hn & Hb & He).
    exists n. split; [done|]. split; [done|]. intros _. by apply He.
Qed.

Lemma batch_write_bytes v ms (w w' : W) e :
  Forall (message_ok v) ms -> batch_write ms w = (w', e) ->
  exists n, sink_bytes w' = sink_bytes w ++ take n (batch_bytes ms) /\
            (n <= length (batch_bytes ms))%nat /\ (e = None -> n = length (batch_bytes ms)).
Proof.
  revert w; induction ms as [|m ms IH]; intros w Hms; cbn [batch_write].
  { intros [= <- <-]. exists 0%nat. simpl. by rewrite app_nil_r. }
  apply Forall_cons in Hms as [Hm Hms].
  destruct (writeAssignedLocked _ _ _ w) as [w1 [e1|]] eqn:E1;
    destruct (writeAssignedLocked_bytes v m w w1 _ Hm E1) as (n1 & H1 & B1 & L1);
    rewrite batch_bytes_cons.
  - intros [= <- <-]. exists n1. rewrite take_app_le, length_app by done. split; [done|]. split; [lia|done].
  - intros E2. destruct (IH w1 Hms E2) as (n2 & H2 & B2 & L2). rewrite (L1 eq_refl) in H1.
    exists (length (message_bytes m) + n2)%nat. rewrite take_app_add, length_app.
    rewrite H2, H1, firstn_all, app_assoc. split; [done|]. split; [lia|].
    intros He. by rewrite (L2 He).
Qed.
End writer_lemmas.

(** ** Reading *)

Lemma ReadFull_app n a b f :
  n = blen a -> ReadFull n {| data := a ++ b; fin := f |} = (Ok a, {| data := b; fin := f |}).
Proof.
  intros ->. unfold ReadFull. cbn [data fin]. rewrite blen_app. pose proof (blen_nonneg b).
  replace (blen a <=? blen a + blen b) with true by lia.
  by rewrite to_nat_blen, take_app_length, drop_app_length.
Qed.

Lemma ReadFull_short n a f :
  blen a < n ->
  ReadFull n {| data := a; fin := f |} =
    (Err (end_error (blen a) f), {| data := []; fin := f |}).
Proof. intros Hn. unfold ReadFull. cbn [data fin]. by replace (n <=? blen a) with false by lia. Qed.

Lemma readVersion_message v m rest f :
  message_ok v m ->
  readVersion v {| data := message_bytes m ++ rest; fin := f |} = (Ok m, {| data := rest; fin := f |}).
Proof.
  intros Hm. destruct (message_total v m Hm) as [Hu Ht]. destruct Hm as (Ha & Hl & Hb).
  unfold readVersion, message_bytes. rewrite <- app_assoc.
  rewrite ReadFull_app by (by rewrite PutUint32_blen).
  rewrite <- (app_nil_r (PutUint32 _)). rewrite Uint32_Put by done.
  pose proof (blen_nonneg (m_Body m)). replace (1 + blen (m_Body m) =? 0) with false by lia.
  replace (MaxMessageBytes <? 1 + blen (m_Body m)) with false by lia.
  rewrite ReadFull_app by (autorewrite with go; lia).
  change (index ([m_Type m] ++ m_Body m) 0) with (Ok (E := error) (m_Type m)). cbn [obind].
  rewrite Ha. cbn [negb]. rewrite (slice_from_mid [m_Type m]) by done. by destruct m.
Qed.

(** A stream that ends inside a message is not reported as the peer closing. *)
Lemma readVersion_torn v m k :
  message_ok v m -> (0 < k < length (message_bytes m))%nat ->
  exists s', readVersion v {| data := take k (message_bytes m); fin := Closed |} =
    (Err (Wrapped [if decide (k = 4)%nat then EOF else UnexpectedEOF]), s').
Proof.
  intros Hm Hk. destruct (message_total v m Hm) as [Hu Ht]. destruct Hm as (Ha & Hl & Hb).
  pose proof (message_bytes_blen m) as Hlen. unfold message_bytes in *. unfold readVersion.
  assert (length (PutUint32 (1 + blen (m_Body m))) = 4%nat) as Hp
    by (pose proof (PutUint32_blen (1 + blen (m_Body m))); unfold blen in *; lia).
  destruct (decide (k < 4)%nat) as [Hlt|Hge].
  - rewrite take_app_le by lia.
    assert (blen (take k (PutUint32 (1 + blen (m_Body m)))) = Z.of_nat k) as Hlk
      by (unfold blen at 1; rewrite length_take, Hp; lia).
    rewrite ReadFull_short by (rewrite Hlk; unfold lengthPrefixLen; lia).
    rewrite Hlk. unfold end_error. replace (Z.of_nat k =? 0) with false by lia. cbn. rewrite decide_False by lia. by eexists.
  - rewrite take_app_ge by lia. rewrite Hp.
    rewrite ReadFull_app by (by rewrite PutUint32_blen).
    rewrite <- (app_nil_r (PutUint32 _)). rewrite Uint32_Put by done.
    pose proof (blen_nonneg (m_Body m)). replace (1 + blen (m_Body m) =? 0) with false by lia.
    replace (MaxMessageBytes <? 1 + blen (m_Body m)) with false by lia.
    rewrite length_app, Hp in Hk.
    assert (blen (take (k - 4) ([m_Type m] ++ m_Body m)) = Z.of_nat k - 4) as Hlk
      by (unfold blen; rewrite length_take; lia).
    assert (length ([m_Type m] ++ m_Body m) = S (length (m_Body m))) as Hlb by done.
    rewrite ReadFull_short by (rewrite Hlk; unfold blen; lia). rewrite Hlk.
    destruct (decide (k = 4)%nat) as [->|Hne].
    + by eexists.
    + unfold end_error. replace (Z.of_nat k - 4 =? 0) with false by lia. by eexists.
Qed.

Lemma delivers_fun v s ms e ms' e' :
  delivers v s ms e -> delivers v s ms' e' -> ms = ms' /\ e = e'.
Proof.
  intros H. revert ms' e'. induction H as [s e s1 Hr|s m s1 ms e Hr _ IH]; intros ms' e' H';
    inversion H' as [? ? ? Hr'|? ? ? ? ? Hr' Hd']; subst; rewrite Hr in Hr'; try discriminate.
  - by injection Hr' as -> ->.
  - injection Hr' as -> ->. by destruct (IH _ _ Hd') as [-> ->].
Qed.

(** The prefix of a batch that arrived: its complete messages are delivered, and
    the end is clean exactly when the cut is between two messages. *)
Lemma delivers_prefix v ms n :
  Forall (message_ok v) ms -> (n <= length (batch_bytes ms))%nat ->
  exists k e, delivers v {| data := take n (batch_bytes ms); fin := Closed |} (take k ms) e /\
    (k <= length ms)%nat /\ (length (batch_bytes (take k ms)) <= n)%nat /\
    (e = Bare EOF <-> n = length (batch_bytes (take k ms))).
Proof.
  intros Hms. revert n. induction Hms as [|m ms Hm _ IH]; intros n Hn.
  - exists 0%nat, (Bare EOF). cbn in Hn. assert (n = 0)%nat as -> by lia. split; [|by cbn].
    by eapply delivers_end.
  - rewrite batch_bytes_cons in *. rewrite length_app in Hn.
    destruct (decide (length (message_bytes m) <= n)%nat) as [Hge|Hlt].
    + destruct (IH (n - length (message_bytes m))%nat ltac:(lia)) as (k & e & Hd & Hk & Hl & He).
      exists (S k), e. rewrite take_app_ge by done. cbn [take]. rewrite batch_bytes_cons, length_app.
      split; [|cbn [length]; split; [lia|]; split; [lia|]; rewrite He; lia].
      eapply delivers_msg; [by apply readVersion_message | done].
    + exists 0%nat. rewrite take_app_le by lia. destruct (decide (n = 0)%nat) as [->|Hnz].
      * exists (Bare EOF). split; [by eapply delivers_end|]. cbn. split; [lia|]. split; [lia|done].
      * destruct (readVersion_torn v m n Hm ltac:(lia)) as [s' Hs].
        eexists. split; [by eapply delivers_end|]. cbn. split; [lia|]. split; [lia|]. split; [done|lia].
Qed.

Lemma end_error_not_large got f :
  errors_Is (Wrapped [end_error got f]) ErrMessageTooLarge = false.
Proof.
  unfold errors_Is. apply bool_decide_eq_false. rewrite list_elem_of_singleton.
  unfold end_error. destruct f; [destruct (got =? 0)|]; done.
Qed.

(** What one read did to the stream, for every input. *)
Lemma readVersion_cases v s :
  bytes_ok (data s) ->
  match readVersion v s with
  | (Ok m, s') => message_ok v m /\ data s = message_bytes m ++ data s' /\ fin s' = fin s
  | (Err e, s') =>
      fin s' = fin s /\ (e = Bare EOF <-> data s = [] /\ fin s = Closed) /\
      exists used, data s = used ++ data s' /\ blen used <= lengthPrefixLen + MaxMessageBytes /\
        (errors_Is e ErrMessageTooLarge = true -> blen used = lengthPrefixLen)
  | (Panic, _) => False
  end.
Proof.
  destruct s as [d f]. intros Hd. cbn [data fin] in *. unfold readVersion.
  pose proof (blen_nonneg d) as Hd0. rewrite MaxMessageBytes_eq. unfold lengthPrefixLen.
  destruct (Z.le_gt_cases 4 (blen d)) as [Hge|Hlt].
  2: { rewrite ReadFull_short by done. split; [done|]. split.
       - unfold end_error. destruct f; cbn; [|naive_solver].
         destruct (Z.eqb_spec (blen d) 0) as [E|E]; cbn; [apply blen_0_inv in E; naive_solver|].
         split; [done|]. intros [-> _]. by rewrite blen_nil in E.
       - exists d. cbn [data]. rewrite app_nil_r. split; [done|]. split; [lia|].
         case_bool_decide; [done|]. by rewrite end_error_not_large. }
  destruct (PutUint32_split d Hd Hge) as (total & d1 & -> & Htot & Hd1 & _).
  assert (blen (PutUint32 total) = 4) as Hp by apply PutUint32_blen.
  assert (PutUint32 total ++ d1 <> []) as Hne by (intros E; rewrite E, blen_nil in Hge; lia).
  rewrite ReadFull_app by (by rewrite Hp).
  pose proof (Uint32_Put (E := error) total [] Htot) as Hu. rewrite app_nil_r in Hu. rewrite Hu.
  pose proof (blen_nonneg d1) as H0. assert (0 <= total) by apply Htot.
  destruct (Z.eqb_spec total 0) as [->|Hz].
  { split; [done|]. split; [naive_solver|]. exists (PutUint32 0). rewrite Hp. split; [done|]. split; [lia | done]. }
  destruct (Z.ltb_spec (2 ^ 20) total) as [Hbig|Hsmall].
  { split; [done|]. split; [naive_solver|]. exists (PutUint32 total). rewrite Hp. split; [done|]. split; [lia | done]. }
  destruct (Z.le_gt_cases total (blen d1)) as [Hfit|Hshort].
  2: { rewrite ReadFull_short by done. split; [done|]. split; [naive_solver|].
       exists (PutUint32 total ++ d1). cbn [data]. rewrite app_nil_r, blen_app, Hp. split; [done|]. split; [lia|].
       by rewrite end_error_not_large. }
  rewrite <- (take_drop (Z.to_nat total) d1) in Hd1 |- *.
  set (buf := take (Z.to_nat total) d1) in *. set (rest := drop (Z.to_nat total) d1) in *.
  assert (blen buf = total) as Hb by (unfold blen, buf; rewrite length_take; unfold blen in *; lia).
  apply bytes_ok_app in Hd1 as [Hbuf _]. rewrite ReadFull_app by done.
  destruct (byte_split buf Hbuf ltac:(lia)) as (t & body & -> & Ht & Hbody).
  change (index (t :: body) 0) with (Ok (E := error) t). cbn [obind].
  destruct (AllowedIn t v) eqn:Ha; cbn [negb].
  - rewrite (slice_from_mid [t] body) by done. cbn [obind]. rewrite blen_cons in Hb.
    unfold message_ok, message_bytes. cbn [m_Type m_Body]. rewrite MaxMessageBytes_eq, Hb.
    split; [split; [done | split; [lia|done]]|]. split; [|done]. by rewrite <- !app_assoc.
  - split; [done|]. split; [naive_solver|]. exists (PutUint32 total ++ t :: body).
    rewrite blen_app, Hp, Hb, <- app_assoc. split; [done|]. split; [lia | done].
Qed.

(** ** Concrete sinks *)

(** [bytes.Buffer]: every write succeeds. *)
#[export, program] Instance buffer_sink : Sink bytes := {|
  sink_write w p := (w ++ p, None);
  sink_bytes w := w
|}.
Next Obligation.
  intros w p w' e [= <- <-]. exists (length p). by rewrite firstn_all.
Qed.
Next Obligation. discriminate. Qed.

(** A connection that takes [snd w] more bytes and then fails. *)
#[export, program] Instance cut_sink : Sink (bytes * nat) := {|
  sink_write w p :=
    ((w.1 ++ take w.2 p, (w.2 - length p)%nat),
     if decide (length p <= w.2)%nat then None else Some (Bare (IOError 32)));
  sink_bytes w := w.1
|}.
Next Obligation.
  intros [w k] p w' e [= <- <-]. cbn. exists (Nat.min k (length p)).
  split; [f_equal; destruct (Nat.le_ge_cases k (length p)); [by rewrite Nat.min_l |
    by rewrite Nat.min_r, firstn_all, take_ge]|].
  split; [lia|]. destruct (decide _); [lia | done].
Qed.
Next Obligation. intros [w k] p w' e [= _ He]. exists 32. destruct (decide _) in He; congruence. Qed.

Lemma buffer_batch ms (w : bytes) v :
  Forall (message_ok v) ms -> batch_write ms w = (w ++ batch_bytes ms, None).
Proof.
  intros Hms. revert w. induction Hms as [|m ms Hm _ IH]; intros w; cbn [batch_write].
  { by rewrite app_nil_r. }
  destruct (message_total v m Hm) as [Hu Ht]. unfold writeAssignedLocked. cbn [sink_write buffer_sink].
  unfold u32, u8. rewrite !Z.mod_small by done. pose proof (blen_nonneg (m_Body m)).
  rewrite batch_bytes_cons. unfold message_bytes.
  destruct (Z.ltb_spec 0 (blen (m_Body m))); rewrite IH; f_equal; rewrite <- !app_assoc; [done|].
  assert (m_Body m = []) as -> by (apply blen_0_inv; lia). done.
Qed.

Lemma delivers_whole v ms :
  Forall (message_ok v) ms -> delivers v {| data := batch_bytes ms; fin := Closed |} ms (Bare EOF).
Proof.
  induction 1 as [|m ms Hm _ IH]; [by eapply delivers_end|].
  rewrite batch_bytes_cons. eapply delivers_msg; [by apply readVersion_message | done].
Qed.

Lemma buffer_batch_version v ms (w : bytes) :
  Forall (message_ok v) ms -> WriteVersionBatch v ms w = (w ++ batch_bytes ms, None).
Proof.
  intros Hms. assert (Forall (fun m => bytes_ok (m_Body m)) ms) as Hb
    by (eapply Forall_impl; [exact Hms|]; by intros m (_ & _ & ?)).
  unfold WriteVersionBatch. rewrite (proj2 (batch_check_none v ms Hb)) by done. by apply (buffer_batch ms w v).
Qed.

(** One legal message written to a buffer. *)
Lemma buffer_write_one v m : message_ok v m -> WriteVersionBatch v [m] [] = (message_bytes m, None).
Proof.
  intros Hm. rewrite buffer_batch_version by by constructor. by rewrite app_nil_l, batch_bytes_cons, app_nil_r.
Qed.

(** ** Properties *)

(** C32. The message stream is delivered whole or cut cleanly: a batch is checked
    before any byte is written, so a batch with a message that is illegal in the
    selected version or above 1 MiB leaves the connection untouched; otherwise,
    wherever the connection fails, the peer's read loop gets a prefix of the
    messages, each exactly as written and in order, all of them when the writer
    reported success, and it sees a clean end of stream exactly when no message
    was cut. *)
Theorem stream_delivery {W} `{Sink W} (v : Z) (ms : list Message) (w w' : W) (e : option error) :
  Forall (fun m => bytes_ok (m_Body m)) ms ->
  WriteVersionBatch v ms w = (w', e) ->
  (~ Forall (message_ok v) ms -> w' = w /\ e <> None) /\
  (Forall (message_ok v) ms ->
   exists got k fe,
     sink_bytes w' = sink_bytes w ++ got /\
     delivers v {| data := got; fin := Closed |} (take k ms) fe /\
     (e = None -> take k ms = ms /\ fe = Bare EOF) /\
     (fe = Bare EOF <-> got = batch_bytes (take k ms))).
Proof.
  intros Hb Hw. unfold WriteVersionBatch in Hw. pose proof (batch_check_none v ms Hb) as Hc.
  destruct (batch_check v ms) as [e0|].
  { injection Hw as <- <-. split; [by split|]. intros Hms. by apply Hc in Hms. }
  split; [intros Hn; by destruct Hn; apply Hc|]. intros Hms.
  destruct (batch_write_bytes v ms w w' e Hms Hw) as (n & Hn & Hl & Hnone).
  destruct (delivers_prefix v ms n Hms Hl) as (k & fe & Hd & Hk & Hkn & Hfe).
  exists (take n (batch_bytes ms)), k, fe. split; [done|]. split; [done|].
  assert (batch_bytes (take k ms) = take (length (batch_bytes (take k ms))) (batch_bytes ms)) as Hpre.
  { rewrite <- (take_drop k ms) at 3. unfold batch_bytes. rewrite map_app, join_app, take_app_length. done. }
  split.
  - intros He. specialize (Hnone He). subst n. rewrite firstn_all in Hd.
    by destruct (delivers_fun _ _ _ _ _ _ Hd (delivers_whole v ms Hms)).
  - rewrite Hfe. split; [intros ->; by rewrite <- Hpre|].
    intros Heq. apply (f_equal length) in Heq. rewrite length_take in Heq. lia.
Qed.

Definition sample_batch : list Message :=
  [{| m_Type := Msg.TypeHostFrame; m_Body := [0; 0; 0; 7; 1] |}; {| m_Type := Msg.TypeHeartbeat; m_Body := [] |}].

Lemma sample_batch_ok : Forall (message_ok V3) sample_batch.
Proof.
  repeat constructor; try (vm_compute; reflexivity); try (vm_compute; discriminate);
    repeat constructor; vm_compute; (reflexivity || discriminate).
Qed.

Lemma sample_batch_bytes : Forall (fun m => bytes_ok (m_Body m)) sample_batch.
Proof. repeat constructor; vm_compute; (reflexivity || discriminate). Qed.

(** The connection takes twelve bytes: the first message and two bytes of the
    second arrive. *)
Lemma stream_delivery_witness :
  exists got k fe,
    [0; 0; 0; 6; 15; 0; 0; 0; 7; 1; 0; 0] = got /\
    delivers V3 {| data := got; fin := Closed |} (take k sample_batch) fe /\
    (fe = Bare EOF <-> got = batch_bytes (take k sample_batch)).
Proof.
  destruct (proj2 (stream_delivery (H := cut_sink) V3 sample_batch ([], 12%nat)
      ([0; 0; 0; 6; 15; 0; 0; 0; 7; 1; 0; 0], 0%nat) (Some (Wrapped [IOError 32]))
      sample_batch_bytes ltac:(vm_compute; reflexivity)) sample_batch_ok)
    as (got & k & fe & Hg & Hd & _ & He).
  exists got, k, fe. split; [exact Hg | by split].
Defined.

(** C40. One read is strict and bounded on every input: it never panics; a message
    it returns is legal in the selected version, is at most 1 MiB, and is exactly
    what the writer emits for it, followed by the rest of the stream; a refusal
    consumed at most the length prefix and 1 MiB, and an over-long declared
    length is refused after the prefix alone; the error is the bare end of
    stream exactly when the peer closed between messages. *)
Theorem reader_strict (v : Z) (s : stream) :
  bytes_ok (data s) ->
  match readVersion v s with
  | (Ok m, s') =>
      AllowedIn (m_Type m) v = true /\ 1 + blen (m_Body m) <= MaxMessageBytes /\ fin s' = fin s /\
      exists used, data s = used ++ data s' /\ WriteVersionBatch v [m] [] = (used, None)
  | (Err e, s') =>
      fin s' = fin s /\ (e = Bare EOF <-> data s = [] /\ fin s = Closed) /\
      exists used, data s = used ++ data s' /\ blen used <= lengthPrefixLen + MaxMessageBytes /\
        (errors_Is e ErrMessageTooLarge = true -> blen used = lengthPrefixLen)
  | (Panic, _) => False
  end.
Proof.
  intros Hd. pose proof (readVersion_cases v s Hd) as Hc.
  destruct (readVersion v s) as [[m|e|] s']; try done. destruct Hc as (Hm & Hs & Hf).
  split; [apply Hm|]. split; [apply Hm|]. split; [done|]. exists (message_bytes m). split; [done|].
  by apply buffer_write_one.
Qed.

Lemma reader_strict_witness :
  let s := {| data := [0; 32; 0; 0; 1]; fin := Closed |} in
  readVersion V5 s = (Err (Wrapped [ErrMessageTooLarge]), {| data := [1]; fin := Closed |}) /\
  exists used, data s = used ++ [1] /\ blen used = lengthPrefixLen.
Proof.
  pose proof (reader_strict V5 {| data := [0; 32; 0; 0; 1]; fin := Closed |}) as H.
  assert (readVersion V5 {| data := [0; 32; 0; 0; 1]; fin := Closed |} =
    (Err (Wrapped [ErrMessageTooLarge]), {| data := [1]; fin := Closed |})) as E by (vm_compute; reflexivity).
  rewrite E in H. destruct H as (_ & _ & used & Hu & _ & Hl).
  - repeat constructor; vm_compute; (reflexivity || discriminate).
  - split; [exact E|]. exists used. split; [exact Hu | by apply Hl].
Defined.

(** Negotiation selects the highest version both peers speak: it answers [v]
    exactly when [v] is the greatest element of both advertised ranges, and
    refuses with a version mismatch exactly when the ranges have no common
    element, inverted ranges included; a message legal at a version stays legal
    at every later one, so the highest choice never loses a message type, and a
    peer that advertises the headless range is never given an interactive
    version. *)
Theorem negotiate_highest_common (pmin pmax omin omax : Z) :
  let common v := pmin <= v <= pmax /\ omin <= v <= omax in
  match Negotiate pmin pmax omin omax with
  | Ok v => common v /\ (forall v', common v' -> v' <= v) /\
            (checkWorkloadRange ProfileHeadless pmin = Ok tt -> V6 <= v) /\
            (forall t v', common v' -> v <= V6 -> AllowedIn t v' = true -> AllowedIn t v = true)
  | Err e => errors_Is e ErrVersionMismatch = true /\ forall v, ~ common v
  | Panic => False
  end.
Proof.
  cbv zeta. unfold Negotiate.
  destruct (Z.ltb_spec pmax pmin); [split; [done | lia]|].
  destruct (Z.ltb_spec omax omin); [split; [done | lia]|].
  set (lo := if pmin <? omin then omin else pmin). set (hi := if omax <? pmax then omax else pmax).
  assert (lo = Z.max pmin omin) as Hlo by (unfold lo; destruct (Z.ltb_spec pmin omin); lia).
  assert (hi = Z.min pmax omax) as Hhi by (unfold hi; destruct (Z.ltb_spec omax pmax); lia).
  destruct (Z.ltb_spec hi lo); [split; [done | lia]|].
  split; [lia|]. split; [lia|]. split.
  - unfold checkWorkloadRange. rewrite bytes_eqb_refl. cbn [andb].
    destruct (Z.ltb_spec pmin V6); [done|]. lia.
  - intros t v' Hv Hh Ha. pose proof (AllowedIn_range t v' Ha) as [_ Hr].
    apply (AllowedIn_mono t v'); [done | lia | done].
Qed.
