(* ===== verification/ShimPayloads.v ===== *)
(** * ShimPayloads: the binary bodies of the shim protocol
    ([src/shimwire/payloads.go], [checkpoint.go])

    Output, Input and AttributedInput, the authoritative-snapshot request and
    result, the exact host frame, and the chunks of a continuation checkpoint:
    fixed big-endian headers followed by opaque bytes.  Each codec is canonical,
    which is stated once as the class [ShimCodec]. *)

From S2P Require Import Prelude BigEndian Varint Reader Frame Payloads Snapshot Checkpoint ShimWire.

Abbreviation Generation := Z.

(** ** Host frames *)

Record HostFrame := { hf_RequestID : Z; FrameBytes : bytes }.

Definition hostFrameHeaderLen : Z := 8.
Definition MaxHostFrameBytes : Z := MaxMessageBytes - 1 - hostFrameHeaderLen.

(** The check every type but Snapshot makes on the request id. *)
Definition no_request_id (h : HostFrame) : outcome error unit :=
  if negb (hf_RequestID h =? 0) then Err (Wrapped [ErrMalformed]) else Ok tt.

(** [if _, err := decode(payload); err != nil { return malformed }]. *)
Definition payload_ok {A} (r : wire A) : outcome error unit :=
  match r with Ok _ => Ok tt | Err _ => Err (Wrapped [ErrMalformed]) | Panic => Panic end.

Definition validateHostFrame (h : HostFrame) : outcome error unit :=
  if blen (FrameBytes h) =? 0 then Err (Wrapped [ErrMalformed])
  else if MaxHostFrameBytes <? blen (FrameBytes h) then Err (Wrapped [ErrMessageTooLarge])
  else match DecodeFrame (FrameBytes h) with
  | Panic => Panic
  | Err _ => Err (Wrapped [ErrMalformed])
  | Ok frame =>
      if negb (bytes_eqb (EncodeFrame frame) (FrameBytes h)) then Err (Wrapped [ErrMalformed])
      else if Seq frame =? 0 then Err (Wrapped [ErrMalformed])
      else if Type_ frame =? TypeOutput then no_request_id h
      else if Type_ frame =? TypeResize then
        obind (no_request_id h) (fun _ => payload_ok (DecodeResize (Payload frame)))
      else if Type_ frame =? TypeMarker then
        obind (no_request_id h) (fun _ => payload_ok (DecodeMarker (Payload frame)))
      else if Type_ frame =? TypeSnapshot then payload_ok (DecodeSnapshotEnvelope (Payload frame))
      else if Type_ frame =? TypeExit then
        obind (no_request_id h) (fun _ => payload_ok (DecodeExit (Payload frame)))
      else Err (Wrapped [ErrMalformed])
  end.

Definition EncodeHostFrame (h : HostFrame) : outcome error bytes :=
  obind (validateHostFrame h) (fun _ => Ok (PutUint64 (hf_RequestID h) ++ FrameBytes h)).

Definition DecodeHostFrame (body : bytes) : outcome error HostFrame :=
  if blen body <=? hostFrameHeaderLen then Err (Wrapped [ErrMalformed])
  else
    obind (slice_to body hostFrameHeaderLen) (fun hd =>
    obind (Uint64 hd) (fun id =>
    obind (slice_from body hostFrameHeaderLen) (fun fb =>
    let h := {| hf_RequestID := id; FrameBytes := fb |} in
    obind (validateHostFrame h) (fun _ => Ok h)))).

(** ** Authoritative snapshots *)

Abbreviation SnapshotMode := Z.
Definition SnapshotInspect : SnapshotMode := 1.
Definition SnapshotEmit : SnapshotMode := 2.
Definition SnapshotMode_Known (m : SnapshotMode) : bool := (m =? SnapshotInspect) || (m =? SnapshotEmit).

Record SnapshotRequest := { sq_RequestID : Z; sq_Generation : Generation; sq_Mode : SnapshotMode }.

Record SnapshotResult := {
  sr_RequestID : Z;
  sr_Generation : Generation;
  sr_Mode : SnapshotMode;
  sr_Code : ErrorCode;
  sr_AtSeq : Z;
  sr_InStream : bool;
  sr_Bytes : bytes
}.

Definition snapshotRequestLen : Z := 17.
Definition snapshotResultHeaderLen : Z := 27.

Definition EncodeSnapshotRequest (r : SnapshotRequest) : outcome error bytes :=
  if (sq_RequestID r =? 0) || (sq_Generation r =? 0) || negb (SnapshotMode_Known (sq_Mode r))
  then Err (Wrapped [ErrMalformed])
  else Ok (PutUint64 (sq_RequestID r) ++ PutUint64 (sq_Generation r) ++ [sq_Mode r]).

Definition DecodeSnapshotRequest (body : bytes) : outcome error SnapshotRequest :=
  if negb (blen body =? snapshotRequestLen) then Err (Wrapped [ErrMalformed])
  else
    obind (slice body 0 8) (fun b0 => obind (Uint64 b0) (fun id =>
    obind (slice body 8 16) (fun b1 => obind (Uint64 b1) (fun gen =>
    obind (index body 16) (fun mode =>
    if (id =? 0) || (gen =? 0) then Err (Wrapped [ErrMalformed])
    else Ok {| sq_RequestID := id; sq_Generation := gen; sq_Mode := mode |}))))).

(** The result-code table and its inverse by value. *)
Definition snapshotResultCodes : list (ErrorCode * Z) :=
  [([], 0); (CodeMalformed, 1); (CodeStaleGeneration, 2); (CodeDuplicateChanged, 3);
   (CodeRequestLedgerFull, 4); (CodeExited, 5); (CodeInternal, 6); (CodeRequestMismatch, 7); (CodeTimeout, 8)].

Definition resultCode (c : ErrorCode) : option Z :=
  option_map (fun p => p.2.2) (list_find (fun p => p.1 = c) snapshotResultCodes).

Definition snapshotResultCodesByByte (b : Z) : option ErrorCode :=
  option_map (fun p => p.2.1) (list_find (fun p => p.2 = b) snapshotResultCodes).

Definition SnapshotResultMessageBytes (payloadLen : Z) : Z := 1 + snapshotResultHeaderLen + payloadLen.

(** The two checks the encoder and the decoder share. *)
Definition snapshot_result_check (r : SnapshotResult) (code_ok : bool) : outcome error unit :=
  if negb code_ok || (sr_RequestID r =? 0) || (sr_Generation r =? 0) ||
     (bytes_eqb (sr_Code r) [] && negb (SnapshotMode_Known (sr_Mode r)))
  then Err (Wrapped [ErrMalformed])
  else if negb (bytes_eqb (sr_Code r) []) &&
          (negb (sr_AtSeq r =? 0) || sr_InStream r || negb (blen (sr_Bytes r) =? 0))
  then Err (Wrapped [ErrMalformed])
  else Ok tt.

Definition EncodeSnapshotResult (r : SnapshotResult) : outcome error bytes :=
  let status := resultCode (sr_Code r) in
  obind (snapshot_result_check r (bool_decide (is_Some status))) (fun _ =>
  Ok (PutUint64 (sr_RequestID r) ++ PutUint64 (sr_Generation r) ++ [sr_Mode r; default 0 status] ++
      PutUint64 (sr_AtSeq r) ++ [if sr_InStream r then 1 else 0] ++ sr_Bytes r)).

Definition DecodeSnapshotResult (body : bytes) : outcome error SnapshotResult :=
  if blen body <? snapshotResultHeaderLen then Err (Wrapped [ErrMalformed])
  else
    obind (index body 17) (fun status =>
    let code := snapshotResultCodesByByte status in
    obind (slice body 0 8) (fun b0 => obind (Uint64 b0) (fun id =>
    obind (slice body 8 16) (fun b1 => obind (Uint64 b1) (fun gen =>
    obind (index body 16) (fun mode =>
    obind (slice body 18 26) (fun b2 => obind (Uint64 b2) (fun atSeq =>
    obind (index body 26) (fun flag =>
    obind (slice_from body snapshotResultHeaderLen) (fun tail =>
    let r := {| sr_RequestID := id; sr_Generation := gen; sr_Mode := mode; sr_Code := default [] code;
                sr_AtSeq := atSeq; sr_InStream := flag =? 1; sr_Bytes := tail |} in
    obind (snapshot_result_check r (bool_decide (is_Some code) && negb (1 <? flag))) (fun _ => Ok r))))))))))).

(** ** Continuation checkpoints *)

Definition CheckpointChunkBytes : Z := Z.shiftl 256 10.
Definition checkpointChunkHeader : Z := 57.

Record CheckpointRequest := { cq_RequestID : Z; cq_Generation : Generation; cq_Schema : bytes }.

Record CheckpointResult := {
  cr_RequestID : Z;
  cr_Generation : Generation;
  cr_Total : Z;
  cr_Offset : Z;
  cr_Digest : bytes;
  cr_Code : ErrorCode;
  cr_Bytes : bytes
}.

(** The zero value of a [[32]byte]. *)
Definition zeroDigest : bytes := replicate 32 0.

Definition EncodeCheckpointRequest (r : CheckpointRequest) : outcome error bytes :=
  if (cq_RequestID r =? 0) || (cq_Generation r =? 0) || negb (bytes_eqb (cq_Schema r) ContinuationSchema)
  then Err (Wrapped [ErrMalformed])
  else Ok (PutUint64 (cq_RequestID r) ++ PutUint64 (cq_Generation r) ++ cq_Schema r).

Definition DecodeCheckpointRequest (b : bytes) : outcome error CheckpointRequest :=
  if negb (blen b =? 16 + blen ContinuationSchema) then Err (Wrapped [ErrMalformed])
  else
    obind (Uint64 b) (fun id =>
    obind (slice_from b 8) (fun b1 => obind (Uint64 b1) (fun gen =>
    obind (slice_from b 16) (fun schema =>
    let r := {| cq_RequestID := id; cq_Generation := gen; cq_Schema := schema |} in
    obind (EncodeCheckpointRequest r) (fun _ => Ok r))))).

(** [r.Total-r.Offset] on [uint32] is only evaluated below the test
    [r.Offset > r.Total]. *)
Definition EncodeCheckpointResult (r : CheckpointResult) : outcome error bytes :=
  let code := resultCode (cr_Code r) in
  let left := u32 (cr_Total r - cr_Offset r) in
  if negb (bool_decide (is_Some code)) || (cr_RequestID r =? 0) || (cr_Generation r =? 0) ||
     (MaxContinuationBytes <? cr_Total r) || (cr_Total r <? cr_Offset r) ||
     (CheckpointChunkBytes <? blen (cr_Bytes r)) || (left <? blen (cr_Bytes r))
  then Err (Wrapped [ErrMalformed])
  else if
    (if negb (bytes_eqb (cr_Code r) [])
     then negb (cr_Total r =? 0) || negb (cr_Offset r =? 0) || negb (blen (cr_Bytes r) =? 0) ||
          negb (bytes_eqb (cr_Digest r) zeroDigest)
     else (cr_Total r =? 0) || (blen (cr_Bytes r) =? 0) || negb (cr_Offset r mod CheckpointChunkBytes =? 0) ||
          negb (blen (cr_Bytes r) =? Z.min CheckpointChunkBytes left))
  then Err (Wrapped [ErrMalformed])
  else Ok (PutUint64 (cr_RequestID r) ++ PutUint64 (cr_Generation r) ++ PutUint32 (cr_Total r) ++
           PutUint32 (cr_Offset r) ++ cr_Digest r ++ [default 0 code] ++ cr_Bytes r).

Definition DecodeCheckpointResult (b : bytes) : outcome error CheckpointResult :=
  if (blen b <? checkpointChunkHeader) || (checkpointChunkHeader + CheckpointChunkBytes <? blen b)
  then Err (Wrapped [ErrMalformed])
  else
    obind (Uint64 b) (fun id =>
    obind (slice_from b 8) (fun b1 => obind (Uint64 b1) (fun gen =>
    obind (slice_from b 16) (fun b2 => obind (Uint32 b2) (fun total =>
    obind (slice_from b 20) (fun b3 => obind (Uint32 b3) (fun offset =>
    obind (slice_from b 57) (fun tail =>
    obind (slice b 24 56) (fun digest =>
    obind (index b 56) (fun status =>
    match snapshotResultCodesByByte status with
    | None => Err (Wrapped [ErrMalformed])
    | Some code =>
        let r := {| cr_RequestID := id; cr_Generation := gen; cr_Total := total; cr_Offset := offset;
                    cr_Digest := digest; cr_Code := code; cr_Bytes := tail |} in
        obind (EncodeCheckpointResult r) (fun _ => Ok r)
    end)))))))))).

(** ** Output and input *)

Record OutputMsg := { om_Seq : Z; om_RelTime : Z; om_Data : bytes }.
Definition outputHeaderLen : Z := 16.

Definition EncodeOutputMsg (o : OutputMsg) : bytes :=
  PutUint64 (om_Seq o) ++ PutUint64 (om_RelTime o) ++ om_Data o.

Definition DecodeOutputMsg (body : bytes) : outcome error OutputMsg :=
  if blen body <? outputHeaderLen then Err (Wrapped [ErrMalformed])
  else
    obind (slice body 0 8) (fun b0 => obind (Uint64 b0) (fun seq =>
    obind (slice body 8 16) (fun b1 => obind (Uint64 b1) (fun rel =>
    obind (slice_from body outputHeaderLen) (fun d =>
    Ok {| om_Seq := seq; om_RelTime := rel; om_Data := d |}))))).

Record InputMsg := { im_Generation : Generation; im_Data : bytes }.
Definition inputHeaderLen : Z := 8.

Definition EncodeInputMsg (i : InputMsg) : bytes := PutUint64 (im_Generation i) ++ im_Data i.

Definition DecodeInputMsg (body : bytes) : outcome error InputMsg :=
  if blen body <? inputHeaderLen then Err (Wrapped [ErrMalformed])
  else
    obind (slice body 0 8) (fun b0 => obind (Uint64 b0) (fun gen =>
    obind (slice_from body inputHeaderLen) (fun d => Ok {| im_Generation := gen; im_Data := d |}))).

Record AttributedInput := { ai_Generation : Generation; ai_UserID : bytes; ai_Data : bytes }.
Definition attributedInputHeaderLen : Z := 8 + 2.
Definition maxAttributedInputUserID : Z := Z.shiftl 1 16 - 1.

Definition EncodeAttributedInput (a : AttributedInput) : outcome error bytes :=
  if maxAttributedInputUserID <? blen (ai_UserID a) then Err (Wrapped [ErrMalformed])
  else Ok (PutUint64 (ai_Generation a) ++ PutUint16 (u16 (blen (ai_UserID a))) ++ ai_UserID a ++ ai_Data a).

Definition DecodeAttributedInput (body : bytes) : outcome error AttributedInput :=
  if blen body <? attributedInputHeaderLen then Err (Wrapped [ErrMalformed])
  else
    obind (slice body 0 8) (fun b0 => obind (Uint64 b0) (fun gen =>
    obind (slice body 8 10) (fun b1 => obind (Uint16 b1) (fun userIDLen =>
    if blen body <? attributedInputHeaderLen + userIDLen then Err (Wrapped [ErrMalformed])
    else
      obind (slice body attributedInputHeaderLen (attributedInputHeaderLen + userIDLen)) (fun userID =>
      obind (slice_from body (attributedInputHeaderLen + userIDLen)) (fun d =>
      Ok {| ai_Generation := gen; ai_UserID := userID; ai_Data := d |})))))).

(** ** The codec interface *)

(** What the bodies of the protocol promise: encoding is total on checked values
    and decoding is its exact inverse, in both directions, with no panic. *)
Class ShimCodec (A : Type) := {
  sh_enc : A -> outcome error bytes;
  sh_dec : bytes -> outcome error A;
  sh_wf : A -> Prop;
  sh_enc_dec a b : sh_wf a -> sh_enc a = Ok b -> bytes_ok b /\ sh_dec b = Ok a;
  sh_dec_enc b a : bytes_ok b -> sh_dec b = Ok a -> sh_wf a /\ sh_enc a = Ok b;
  sh_dec_total b : bytes_ok b -> sh_dec b <> Panic
}.

Lemma shim_canonical {A} `{ShimCodec A} b a :
  bytes_ok b -> sh_dec b = Ok a <-> sh_wf a /\ sh_enc a = Ok b.
Proof.
  intros Hb. split; [by apply sh_dec_enc|]. intros [Hw He]. by destruct (sh_enc_dec a b Hw He).
Qed.

(** A codec from its layout: [lay] is the body of a value, [chk] the check both
    directions make, and every body long enough is the layout of some value. *)
Section layout.
Context {A : Type} (enc : A -> outcome error bytes) (dec : bytes -> outcome error A)
  (awf : A -> Prop) (lay : A -> bytes) (chk : A -> outcome error unit).
Hypothesis enc_eq : forall a, awf a -> enc a = obind (chk a) (fun _ => Ok (lay a)).
Hypothesis lay_ok : forall a, awf a -> bytes_ok (lay a).
Hypothesis dec_lay : forall a, awf a -> dec (lay a) = obind (chk a) (fun _ => Ok a).
Hypothesis chk_total : forall a, awf a -> chk a <> Panic.
Hypothesis split : forall b, bytes_ok b -> (exists a, awf a /\ b = lay a) \/ (exists e, dec b = Err e).

#[program] Definition layout_codec : ShimCodec A :=
  {| sh_enc := enc; sh_dec := dec; sh_wf := awf |}.
Next Obligation.
  intros a b Hw He. rewrite enc_eq in He by done. pose proof (dec_lay a Hw) as Hd.
  destruct (chk a); cbn [obind] in *; try discriminate. injection He as <-. by split; [apply lay_ok|].
Qed.
Next Obligation.
  intros b a Hb Hd. destruct (split b Hb) as [(a' & Hw & ->)|[e He]]; [|congruence].
  rewrite dec_lay in Hd by done. pose proof (enc_eq a' Hw) as He.
  destruct (chk a'); cbn [obind] in *; try discriminate. by injection Hd as <-.
Qed.
Next Obligation.
  intros b Hb. destruct (split b Hb) as [(a & Hw & ->)|[e He]]; [|congruence].
  rewrite dec_lay by done. pose proof (chk_total a Hw). by destruct (chk a).
Qed.
End layout.

(** *** Output *)

Definition output_msg_wf (o : OutputMsg) : Prop := u64_ok (om_Seq o) /\ u64_ok (om_RelTime o) /\ bytes_ok (om_Data o).

#[export, program] Instance OutputMsg_codec : ShimCodec OutputMsg :=
  layout_codec (fun o => Ok (EncodeOutputMsg o)) DecodeOutputMsg output_msg_wf EncodeOutputMsg (fun _ => Ok tt) _ _ _ _ _.
Next Obligation. reflexivity. Qed.
Next Obligation. intros o (Hs & Hr & Hd). unfold EncodeOutputMsg. ok_bytes. Qed.
Next Obligation.
  intros [s r d] (Hs & Hr & Hd). cbn [om_Seq om_RelTime om_Data] in *. unfold EncodeOutputMsg. cbn [om_Seq om_RelTime om_Data].
  unfold DecodeOutputMsg, outputHeaderLen. pose proof (blen_nonneg d).
  rewrite !blen_app, !PutUint64_blen. replace (_ <? _) with false by lia.
  field_slice (@nil Z) (PutUint64 s) (PutUint64 r ++ d). field_u64 s (@nil Z).
  field_slice (PutUint64 s) (PutUint64 r) d. field_u64 r (@nil Z).
  by field_from (PutUint64 s ++ PutUint64 r) d.
Qed.
Next Obligation. done. Qed.
Next Obligation.
  intros b Hb. destruct (blen b <? outputHeaderLen) eqn:Hl.
  { right. unfold DecodeOutputMsg. rewrite Hl. by eexists. }
  unfold outputHeaderLen in Hl. left.
  destruct (PutUint64_split b Hb ltac:(lia)) as (s & b1 & -> & Hs & Hb1 & Hl1).
  destruct (PutUint64_split b1 Hb1 ltac:(lia)) as (r & d & -> & Hr & Hd & _).
  by exists {| om_Seq := s; om_RelTime := r; om_Data := d |}.
Qed.

(** *** Input *)

Definition input_msg_wf (i : InputMsg) : Prop := u64_ok (im_Generation i) /\ bytes_ok (im_Data i).

#[export, program] Instance InputMsg_codec : ShimCodec InputMsg :=
  layout_codec (fun o => Ok (EncodeInputMsg o)) DecodeInputMsg input_msg_wf EncodeInputMsg (fun _ => Ok tt) _ _ _ _ _.
Next Obligation. reflexivity. Qed.
Next Obligation. intros o (Hs & Hd). unfold EncodeInputMsg. ok_bytes. Qed.
Next Obligation.
  intros [g d] (Hg & Hd). cbn [im_Generation im_Data] in *. unfold EncodeInputMsg. cbn [im_Generation im_Data].
  unfold DecodeInputMsg, inputHeaderLen. pose proof (blen_nonneg d).
  rewrite !blen_app, !PutUint64_blen. replace (_ <? _) with false by lia.
  field_slice (@nil Z) (PutUint64 g) d. field_u64 g (@nil Z). by field_from (PutUint64 g) d.
Qed.
Next Obligation. done. Qed.
Next Obligation.
  intros b Hb. destruct (blen b <? inputHeaderLen) eqn:Hl.
  { right. unfold DecodeInputMsg. rewrite Hl. by eexists. }
  unfold inputHeaderLen in Hl. left.
  destruct (PutUint64_split b Hb ltac:(lia)) as (g & d & -> & Hg & Hd & _).
  by exists {| im_Generation := g; im_Data := d |}.
Qed.

(** *** Attributed input *)

Definition attributed_wf (a : AttributedInput) : Prop :=
  u64_ok (ai_Generation a) /\ bytes_ok (ai_UserID a) /\ bytes_ok (ai_Data a) /\
  blen (ai_UserID a) <= maxAttributedInputUserID.

Definition attributed_bytes (a : AttributedInput) : bytes :=
  PutUint64 (ai_Generation a) ++ PutUint16 (blen (ai_UserID a)) ++ ai_UserID a ++ ai_Data a.

#[export, program] Instance AttributedInput_codec : ShimCodec AttributedInput :=
  layout_codec EncodeAttributedInput DecodeAttributedInput attributed_wf attributed_bytes (fun _ => Ok tt) _ _ _ _ _.
Next Obligation.
  intros a (Hg & Hu & Hd & Hl). unfold EncodeAttributedInput. replace (_ <? _) with false by lia.
  unfold u16. pose proof (blen_nonneg (ai_UserID a)). change maxAttributedInputUserID with 65535 in Hl.
  by rewrite Z.mod_small by lia.
Qed.
Next Obligation. intros a (Hg & Hu & Hd & _). unfold attributed_bytes. ok_bytes. Qed.
Next Obligation.
  intros [g u d] (Hg & Hu & Hd & Hl). cbn [ai_Generation ai_UserID ai_Data] in *. unfold attributed_bytes.
  cbn [ai_Generation ai_UserID ai_Data]. change maxAttributedInputUserID with 65535 in Hl.
  pose proof (blen_nonneg u). pose proof (blen_nonneg d).
  unfold DecodeAttributedInput, attributedInputHeaderLen.
  rewrite !blen_app, PutUint64_blen, PutUint16_blen. replace (_ <? _) with false by lia.
  field_slice (@nil Z) (PutUint64 g) (PutUint16 (blen u) ++ u ++ d). field_u64 g (@nil Z).
  field_slice (PutUint64 g) (PutUint16 (blen u)) (u ++ d).
  rewrite (Uint16_at _ (blen u) []) by (first [by rewrite app_nil_r | unfold u16_ok; lia]). cbn [obind].
  replace (_ <? _) with false by lia.
  field_slice (PutUint64 g ++ PutUint16 (blen u)) u d.
  by field_from (PutUint64 g ++ PutUint16 (blen u) ++ u) d.
Qed.
Next Obligation. done. Qed.
Next Obligation.
  intros b Hb. destruct (blen b <? attributedInputHeaderLen) eqn:Hl.
  { right. unfold DecodeAttributedInput. rewrite Hl. by eexists. }
  unfold attributedInputHeaderLen in Hl.
  destruct (PutUint64_split b Hb ltac:(lia)) as (g & b1 & -> & Hg & Hb1 & Hl1).
  destruct (PutUint16_split b1 Hb1 ltac:(lia)) as (n & t & -> & Hn & Ht & Hl2).
  rewrite !blen_app, PutUint64_blen, PutUint16_blen in *. pose proof (proj1 Hn). pose proof (blen_nonneg t).
  destruct (Z.le_gt_cases n (blen t)) as [Hfit|Hshort].
  - left. destruct (bytes_split n t Ht ltac:(lia)) as (u & d & -> & Hu & Huo & Hdo & _).
    exists {| ai_Generation := g; ai_UserID := u; ai_Data := d |}. unfold attributed_bytes, attributed_wf.
    cbn [ai_Generation ai_UserID ai_Data]. rewrite Hu. split; [|done].
    do 3 (split; [assumption|]). change maxAttributedInputUserID with 65535. unfold u16_ok in Hn. lia.
  - right. unfold DecodeAttributedInput, attributedInputHeaderLen.
    rewrite !blen_app, PutUint64_blen, PutUint16_blen. replace (_ <? _) with false by lia.
    field_slice (@nil Z) (PutUint64 g) (PutUint16 n ++ t). field_u64 g (@nil Z).
    field_slice (PutUint64 g) (PutUint16 n) t. field_u16 n (@nil Z).
    replace (_ <? _) with true by lia. by eexists.
Qed.

(** *** The result-code table *)

Lemma resultCode_in c s : resultCode c = Some s -> (c, s) ∈ snapshotResultCodes.
Proof.
  unfold resultCode. destruct (list_find _ _) as [[i [c' s']]|] eqn:E; [|done]. cbn. intros [= ->].
  apply list_find_Some in E as (Hl & He & _). cbn in He. subst c'. by eapply list_elem_of_lookup_2.
Qed.

Lemma codeByByte_in c s : snapshotResultCodesByByte s = Some c -> (c, s) ∈ snapshotResultCodes.
Proof.
  unfold snapshotResultCodesByByte. destruct (list_find _ _) as [[i [c' s']]|] eqn:E; [|done]. cbn. intros [= ->].
  apply list_find_Some in E as (Hl & He & _). cbn in He. subst s'. by eapply list_elem_of_lookup_2.
Qed.

Lemma code_table_inverse :
  Forall (fun p => snapshotResultCodesByByte p.2 = Some p.1 /\ resultCode p.1 = Some p.2 /\ u8_ok p.2) snapshotResultCodes.
Proof. repeat constructor; vm_compute; (reflexivity || discriminate). Qed.

Lemma resultCode_iff c s : resultCode c = Some s <-> snapshotResultCodesByByte s = Some c.
Proof.
  pose proof code_table_inverse as Ht. rewrite Forall_forall in Ht.
  split; intros H; [apply resultCode_in in H | apply codeByByte_in in H]; by apply Ht in H as (? & ? & _).
Qed.

Lemma resultCode_u8 c s : resultCode c = Some s -> u8_ok s.
Proof.
  intros H%resultCode_in. pose proof code_table_inverse as Ht. rewrite Forall_forall in Ht. by apply Ht in H as (_ & _ & ?).
Qed.

Lemma resultCode_empty : resultCode [] = Some 0.
Proof. vm_compute. reflexivity. Qed.

(** *** Snapshot results *)

Definition flag_byte (b : bool) : Z := if b then 1 else 0.

Definition snapshot_result_wf (r : SnapshotResult) : Prop :=
  u64_ok (sr_RequestID r) /\ u64_ok (sr_Generation r) /\ u8_ok (sr_Mode r) /\ is_Some (resultCode (sr_Code r)) /\
  u64_ok (sr_AtSeq r) /\ bytes_ok (sr_Bytes r).

Definition snapshot_result_bytes (r : SnapshotResult) : bytes :=
  PutUint64 (sr_RequestID r) ++ PutUint64 (sr_Generation r) ++ [sr_Mode r] ++ [default 0 (resultCode (sr_Code r))] ++
  PutUint64 (sr_AtSeq r) ++ [flag_byte (sr_InStream r)] ++ sr_Bytes r.

(** Decoding the seven fields of a result body. *)
Lemma DecodeSnapshotResult_fields id gen mode status atSeq flag tail :
  u64_ok id -> u64_ok gen -> u64_ok atSeq ->
  DecodeSnapshotResult (PutUint64 id ++ PutUint64 gen ++ [mode] ++ [status] ++ PutUint64 atSeq ++ [flag] ++ tail) =
    let code := snapshotResultCodesByByte status in
    let r := {| sr_RequestID := id; sr_Generation := gen; sr_Mode := mode; sr_Code := default [] code;
                sr_AtSeq := atSeq; sr_InStream := flag =? 1; sr_Bytes := tail |} in
    obind (snapshot_result_check r (bool_decide (is_Some code) && negb (1 <? flag))) (fun _ => Ok r).
Proof.
  intros Hi Hg Ha. unfold DecodeSnapshotResult, snapshotResultHeaderLen. pose proof (blen_nonneg tail).
  set (b := PutUint64 id ++ _).
  assert (blen b = 27 + blen tail) as Hb by (unfold b; autorewrite with go; lia).
  rewrite Hb. replace (_ <? 27) with false by lia.
  field_index (PutUint64 id ++ PutUint64 gen ++ [mode]) status (PutUint64 atSeq ++ [flag] ++ tail).
  field_slice (@nil Z) (PutUint64 id) (PutUint64 gen ++ [mode] ++ [status] ++ PutUint64 atSeq ++ [flag] ++ tail).
  field_u64 id (@nil Z).
  field_slice (PutUint64 id) (PutUint64 gen) ([mode] ++ [status] ++ PutUint64 atSeq ++ [flag] ++ tail).
  field_u64 gen (@nil Z).
  field_index (PutUint64 id ++ PutUint64 gen) mode ([status] ++ PutUint64 atSeq ++ [flag] ++ tail).
  field_slice (PutUint64 id ++ PutUint64 gen ++ [mode] ++ [status]) (PutUint64 atSeq) ([flag] ++ tail).
  field_u64 atSeq (@nil Z).
  field_index (PutUint64 id ++ PutUint64 gen ++ [mode] ++ [status] ++ PutUint64 atSeq) flag tail.
  by field_from (PutUint64 id ++ PutUint64 gen ++ [mode] ++ [status] ++ PutUint64 atSeq ++ [flag]) tail.
Qed.

#[export, program] Instance SnapshotResult_codec : ShimCodec SnapshotResult :=
  layout_codec EncodeSnapshotResult DecodeSnapshotResult snapshot_result_wf snapshot_result_bytes
    (fun r => snapshot_result_check r true) _ _ _ _ _.
Next Obligation.
  intros r (_ & _ & _ & Hc & _). unfold EncodeSnapshotResult. rewrite bool_decide_eq_true_2 by done. done.
Qed.
Next Obligation.
  intros r (_ & _ & Hm & [s Hs] & _ & Hb). unfold snapshot_result_bytes. rewrite Hs. cbn [from_option Datatypes.id].
  pose proof (resultCode_u8 _ _ Hs). ok_bytes. unfold flag_byte, u8_ok. destruct (sr_InStream r); lia.
Qed.
Next Obligation.
  intros [id gen mode code atSeq ins tail] (Hi & Hg & _ & [s Hs] & Ha & _).
  cbn [sr_RequestID sr_Generation sr_Mode sr_Code sr_AtSeq sr_InStream sr_Bytes] in *.
  unfold snapshot_result_bytes. cbn [sr_RequestID sr_Generation sr_Mode sr_Code sr_AtSeq sr_InStream sr_Bytes].
  rewrite DecodeSnapshotResult_fields by assumption. rewrite Hs. cbn [from_option Datatypes.id].
  pose proof (proj1 (resultCode_iff _ _) Hs) as Hb. rewrite Hb. cbv zeta. cbn [from_option Datatypes.id].
  rewrite bool_decide_eq_true_2 by done.
  replace (flag_byte ins =? 1) with ins by by destruct ins.
  by replace (negb (1 <? flag_byte ins)) with true by by destruct ins.
Qed.
Next Obligation. intros r _. unfold snapshot_result_check. by repeat match goal with |- context [if ?c then _ else _] => destruct c end. Qed.
Next Obligation.
  intros b Hb. destruct (blen b <? snapshotResultHeaderLen) eqn:Hl.
  { right. unfold DecodeSnapshotResult. rewrite Hl. by eexists. }
  unfold snapshotResultHeaderLen in Hl.
  destruct (PutUint64_split b Hb ltac:(lia)) as (id & b1 & -> & Hi & Hb1 & Hl1).
  destruct (PutUint64_split b1 Hb1 ltac:(lia)) as (gen & b2 & -> & Hg & Hb2 & Hl2).
  destruct (byte_head_split b2 Hb2 ltac:(lia)) as (mode & b3 & -> & Hm & Hb3 & Hl3).
  destruct (byte_head_split b3 Hb3 ltac:(lia)) as (status & b4 & -> & Hst & Hb4 & Hl4).
  destruct (PutUint64_split b4 Hb4 ltac:(lia)) as (atSeq & b5 & -> & Ha & Hb5 & Hl5).
  destruct (byte_head_split b5 Hb5 ltac:(lia)) as (flag & tail & -> & Hf & Ht & _).
  rewrite DecodeSnapshotResult_fields by assumption. cbv zeta.
  destruct (snapshotResultCodesByByte status) as [code|] eqn:Hc; [|right; by eexists].
  apply resultCode_iff in Hc. destruct (Z.le_gt_cases flag 1) as [Hf1|Hf1].
  - left. exists {| sr_RequestID := id; sr_Generation := gen; sr_Mode := mode; sr_Code := code;
                    sr_AtSeq := atSeq; sr_InStream := flag =? 1; sr_Bytes := tail |}.
    unfold snapshot_result_wf, snapshot_result_bytes.
    cbn [sr_RequestID sr_Generation sr_Mode sr_Code sr_AtSeq sr_InStream sr_Bytes]. rewrite Hc.
    split; [do 3 (split; [assumption|]); split; [by eexists | by split]|].
    replace (flag_byte (flag =? 1)) with flag; [done|]. unfold u8_ok in Hf. unfold flag_byte.
    destruct (Z.eqb_spec flag 1); lia.
  - right. replace (1 <? flag) with true by lia. cbn [negb]. rewrite andb_false_r. by eexists.
Qed.

(** *** Checkpoint requests *)

Definition checkpoint_request_wf (r : CheckpointRequest) : Prop :=
  u64_ok (cq_RequestID r) /\ u64_ok (cq_Generation r) /\ bytes_ok (cq_Schema r) /\
  blen (cq_Schema r) = blen ContinuationSchema.

Definition checkpoint_request_bytes (r : CheckpointRequest) : bytes :=
  PutUint64 (cq_RequestID r) ++ PutUint64 (cq_Generation r) ++ cq_Schema r.

(** The check an encoder makes, without its bytes. *)
Definition encodes {A} (r : outcome error A) : outcome error unit := obind r (fun _ => Ok tt).

#[export, program] Instance CheckpointRequest_codec : ShimCodec CheckpointRequest :=
  layout_codec EncodeCheckpointRequest DecodeCheckpointRequest checkpoint_request_wf checkpoint_request_bytes
    (fun r => encodes (EncodeCheckpointRequest r)) _ _ _ _ _.
Next Obligation. intros r _. unfold EncodeCheckpointRequest, encodes. by destruct (_ || _). Qed.
Next Obligation. intros r (_ & _ & Hs & _). unfold checkpoint_request_bytes. ok_bytes. Qed.
Next Obligation.
  intros [id gen schema] (Hi & Hg & Hs & Hl). cbn [cq_RequestID cq_Generation cq_Schema] in *.
  unfold checkpoint_request_bytes. cbn [cq_RequestID cq_Generation cq_Schema]. unfold DecodeCheckpointRequest.
  rewrite !blen_app, !PutUint64_blen, Hl. replace (_ =? _) with true by lia. cbn [negb].
  field_u64 id (PutUint64 gen ++ schema).
  field_from (PutUint64 id) (PutUint64 gen ++ schema). field_u64 gen schema.
  field_from (PutUint64 id ++ PutUint64 gen) schema.
  unfold encodes. by destruct (EncodeCheckpointRequest _).
Qed.
Next Obligation. intros r _. unfold encodes, EncodeCheckpointRequest. by destruct (_ || _). Qed.
Next Obligation.
  intros b Hb. destruct (blen b =? 16 + blen ContinuationSchema) eqn:Hl.
  2: { right. unfold DecodeCheckpointRequest. rewrite Hl. by eexists. }
  left. change (blen ContinuationSchema) with 25 in *.
  destruct (PutUint64_split b Hb ltac:(lia)) as (id & b1 & -> & Hi & Hb1 & Hl1).
  destruct (PutUint64_split b1 Hb1 ltac:(lia)) as (gen & s & -> & Hg & Hs & Hl2).
  exists {| cq_RequestID := id; cq_Generation := gen; cq_Schema := s |}. unfold checkpoint_request_wf.
  cbn [cq_RequestID cq_Generation cq_Schema]. split; [|done]. do 3 (split; [assumption|]).
  change (blen ContinuationSchema) with 25. lia.
Qed.

(** *** Checkpoint chunks *)

Definition checkpoint_result_wf (r : CheckpointResult) : Prop :=
  u64_ok (cr_RequestID r) /\ u64_ok (cr_Generation r) /\ u32_ok (cr_Total r) /\ u32_ok (cr_Offset r) /\
  blen (cr_Digest r) = 32 /\ bytes_ok (cr_Digest r) /\ is_Some (resultCode (cr_Code r)) /\ bytes_ok (cr_Bytes r) /\
  blen (cr_Bytes r) <= CheckpointChunkBytes.

Definition checkpoint_result_bytes (r : CheckpointResult) : bytes :=
  PutUint64 (cr_RequestID r) ++ PutUint64 (cr_Generation r) ++ PutUint32 (cr_Total r) ++
  PutUint32 (cr_Offset r) ++ cr_Digest r ++ [default 0 (resultCode (cr_Code r))] ++ cr_Bytes r.

Lemma EncodeCheckpointResult_eq r :
  EncodeCheckpointResult r = obind (encodes (EncodeCheckpointResult r)) (fun _ => Ok (checkpoint_result_bytes r)).
Proof.
  unfold EncodeCheckpointResult, encodes. destruct (_ || _); [done|].
  match goal with |- context [if ?c then _ else _] => by destruct c end.
Qed.

Lemma DecodeCheckpointResult_fields id gen total offset digest status tail :
  u64_ok id -> u64_ok gen -> u32_ok total -> u32_ok offset -> blen digest = 32 -> blen tail <= CheckpointChunkBytes ->
  DecodeCheckpointResult (PutUint64 id ++ PutUint64 gen ++ PutUint32 total ++ PutUint32 offset ++ digest ++ [status] ++ tail) =
    match snapshotResultCodesByByte status with
    | None => Err (Wrapped [ErrMalformed])
    | Some code =>
        let r := {| cr_RequestID := id; cr_Generation := gen; cr_Total := total; cr_Offset := offset;
                    cr_Digest := digest; cr_Code := code; cr_Bytes := tail |} in
        obind (encodes (EncodeCheckpointResult r)) (fun _ => Ok r)
    end.
Proof.
  intros Hi Hg Ht Ho Hd Hl. unfold DecodeCheckpointResult, checkpointChunkHeader. pose proof (blen_nonneg tail).
  set (b := PutUint64 id ++ _).
  assert (blen b = 57 + blen tail) as Hb by (unfold b; autorewrite with go; lia).
  rewrite Hb. replace (_ <? 57) with false by lia.
  replace (57 + CheckpointChunkBytes <? 57 + blen tail) with false by lia. cbn [orb].
  field_u64 id (PutUint64 gen ++ PutUint32 total ++ PutUint32 offset ++ digest ++ [status] ++ tail).
  field_from (PutUint64 id) (PutUint64 gen ++ PutUint32 total ++ PutUint32 offset ++ digest ++ [status] ++ tail).
  field_u64 gen (PutUint32 total ++ PutUint32 offset ++ digest ++ [status] ++ tail).
  field_from (PutUint64 id ++ PutUint64 gen) (PutUint32 total ++ PutUint32 offset ++ digest ++ [status] ++ tail).
  field_u32 total (PutUint32 offset ++ digest ++ [status] ++ tail).
  field_from (PutUint64 id ++ PutUint64 gen ++ PutUint32 total) (PutUint32 offset ++ digest ++ [status] ++ tail).
  field_u32 offset (digest ++ [status] ++ tail).
  field_from (PutUint64 id ++ PutUint64 gen ++ PutUint32 total ++ PutUint32 offset ++ digest ++ [status]) tail.
  field_slice (PutUint64 id ++ PutUint64 gen ++ PutUint32 total ++ PutUint32 offset) digest ([status] ++ tail).
  field_index (PutUint64 id ++ PutUint64 gen ++ PutUint32 total ++ PutUint32 offset ++ digest) status tail.
  destruct (snapshotResultCodesByByte status); [|done]. cbv zeta. unfold encodes.
  by destruct (EncodeCheckpointResult _).
Qed.

#[export, program] Instance CheckpointResult_codec : ShimCodec CheckpointResult :=
  layout_codec EncodeCheckpointResult DecodeCheckpointResult checkpoint_result_wf checkpoint_result_bytes
    (fun r => encodes (EncodeCheckpointResult r)) _ _ _ _ _.
Next Obligation. intros r _. apply EncodeCheckpointResult_eq. Qed.
Next Obligation.
  intros r (_ & _ & _ & _ & _ & Hd & [s Hs] & Hb & _). unfold checkpoint_result_bytes. rewrite Hs.
  cbn [from_option Datatypes.id]. pose proof (resultCode_u8 _ _ Hs). ok_bytes.
Qed.
Next Obligation.
  intros [id gen total offset digest code tail] (Hi & Hg & Ht & Ho & Hd & _ & [s Hs] & _ & Hl).
  cbn [cr_RequestID cr_Generation cr_Total cr_Offset cr_Digest cr_Code cr_Bytes] in *.
  unfold checkpoint_result_bytes. cbn [cr_RequestID cr_Generation cr_Total cr_Offset cr_Digest cr_Code cr_Bytes].
  rewrite DecodeCheckpointResult_fields by assumption. rewrite Hs. cbn [from_option Datatypes.id].
  by rewrite (proj1 (resultCode_iff _ _) Hs).
Qed.
Next Obligation.
  intros r _. unfold encodes, EncodeCheckpointResult. cbv zeta. destruct (_ || _); [done|].
  match goal with |- context [if ?c then _ else _] => by destruct c end.
Qed.
Next Obligation.
  intros b Hb. destruct ((blen b <? checkpointChunkHeader) || (checkpointChunkHeader + CheckpointChunkBytes <? blen b)) eqn:Hl.
  { right. unfold DecodeCheckpointResult. rewrite Hl. by eexists. }
  apply orb_false_iff in Hl as [Hl Hu]. unfold checkpointChunkHeader in *.
  destruct (PutUint64_split b Hb ltac:(lia)) as (id & b1 & -> & Hi & Hb1 & Hl1).
  destruct (PutUint64_split b1 Hb1 ltac:(lia)) as (gen & b2 & -> & Hg & Hb2 & Hl2).
  destruct (PutUint32_split b2 Hb2 ltac:(lia)) as (total & b3 & -> & Ht & Hb3 & Hl3).
  destruct (PutUint32_split b3 Hb3 ltac:(lia)) as (offset & b4 & -> & Ho & Hb4 & Hl4).
  destruct (bytes_split 32 b4 Hb4 ltac:(lia)) as (digest & b5 & -> & Hd & Hdo & Hb5 & Hl5).
  destruct (byte_head_split b5 Hb5 ltac:(lia)) as (status & tail & -> & Hst & Htl & Hl6).
  autorewrite with go in *. assert (blen tail <= CheckpointChunkBytes) as Htail by lia.
  rewrite DecodeCheckpointResult_fields by assumption.
  destruct (snapshotResultCodesByByte status) as [code|] eqn:Hc; [|right; by eexists].
  apply resultCode_iff in Hc. left.
  exists {| cr_RequestID := id; cr_Generation := gen; cr_Total := total; cr_Offset := offset;
            cr_Digest := digest; cr_Code := code; cr_Bytes := tail |}.
  unfold checkpoint_result_wf, checkpoint_result_bytes.
  cbn [cr_RequestID cr_Generation cr_Total cr_Offset cr_Digest cr_Code cr_Bytes]. rewrite Hc.
  split; [do 6 (split; [assumption|]); split; [by eexists | by split]|done].
Qed.

(** *** Host frames *)

Definition host_frame_wf (h : HostFrame) : Prop :=
  u64_ok (hf_RequestID h) /\ bytes_ok (FrameBytes h) /\ 0 < blen (FrameBytes h).

Lemma payload_ok_safe {A} (Q : A -> Prop) (r : wire A) : decode_safe Q r -> payload_ok r <> Panic.
Proof. by destruct r. Qed.

Lemma validateHostFrame_total h : host_frame_wf h -> validateHostFrame h <> Panic.
Proof.
  intros (_ & Hb & _). unfold validateHostFrame. destruct (_ =? 0); [done|].
  destruct (Z.ltb_spec MaxHostFrameBytes (blen (FrameBytes h))) as [|Hl]; [done|].
  assert (go_slice (FrameBytes h)) as Hgo
    by (split; [|done]; change MaxHostFrameBytes with 1048567 in Hl; lia).
  pose proof (DecodeFrame_safe _ Hgo) as Hs. destruct (DecodeFrame (FrameBytes h)) as [f| |] eqn:E; try done.
  cbn in Hs. destruct Hs as (_ & _ & _ & Hp). apply DecodeFrame_inv in E as (_ & hdr & E & _); [|done].
  assert (go_slice (Payload f)) as Hpo.
  { split; [|done]. destruct Hgo as [Hlen _]. rewrite E, blen_app in Hlen. pose proof (blen_nonneg hdr). lia. }
  pose proof (payload_ok_safe _ _ (dec_safe (A := ResizePayload) _ Hpo)) as H1.
  pose proof (payload_ok_safe _ _ (dec_safe (A := MarkerPayload) _ Hpo)) as H2.
  pose proof (payload_ok_safe _ _ (dec_safe (A := SnapshotEnvelope) _ Hpo)) as H3.
  pose proof (payload_ok_safe _ _ (dec_safe (A := ExitPayload) _ Hpo)) as H4.
  unfold no_request_id.
  repeat match goal with |- context [if ?c then _ else _] => destruct c end; cbn [obind]; done.
Qed.

#[export, program] Instance HostFrame_codec : ShimCodec HostFrame :=
  layout_codec EncodeHostFrame DecodeHostFrame host_frame_wf
    (fun h => PutUint64 (hf_RequestID h) ++ FrameBytes h) validateHostFrame _ _ _ _ _.
Next Obligation. reflexivity. Qed.
Next Obligation. intros h (_ & Hb & _). cbn beta. ok_bytes. Qed.
Next Obligation.
  intros [id fb] (Hi & Hb & Hl). cbn [hf_RequestID FrameBytes] in *. unfold DecodeHostFrame, hostFrameHeaderLen.
  rewrite blen_app, PutUint64_blen. replace (_ <=? _) with false by lia.
  field_to (PutUint64 id) fb. field_u64 id (@nil Z). by field_from (PutUint64 id) fb.
Qed.
Next Obligation. apply validateHostFrame_total. Qed.
Next Obligation.
  intros b Hb. destruct (blen b <=? hostFrameHeaderLen) eqn:Hl.
  { right. unfold DecodeHostFrame. rewrite Hl. by eexists. }
  unfold hostFrameHeaderLen in Hl. left.
  destruct (PutUint64_split b Hb ltac:(lia)) as (id & fb & -> & Hi & Hfb & Hlf).
  exists {| hf_RequestID := id; FrameBytes := fb |}. split; [|done]. split; [assumption|].
  split; [assumption|]. cbn [FrameBytes]. lia.
Qed.

(** *** Snapshot requests *)

Lemma DecodeSnapshotRequest_fields id gen mode :
  u64_ok id -> u64_ok gen ->
  DecodeSnapshotRequest (PutUint64 id ++ PutUint64 gen ++ [mode]) =
    if (id =? 0) || (gen =? 0) then Err (Wrapped [ErrMalformed])
    else Ok {| sq_RequestID := id; sq_Generation := gen; sq_Mode := mode |}.
Proof.
  intros Hi Hg. unfold DecodeSnapshotRequest, snapshotRequestLen.
  rewrite !blen_app, !PutUint64_blen. cbn [negb].
  replace (_ =? 17) with true by (autorewrite with go; lia). cbn [negb].
  field_slice (@nil Z) (PutUint64 id) (PutUint64 gen ++ [mode]). field_u64 id (@nil Z).
  field_slice (PutUint64 id) (PutUint64 gen) [mode]. field_u64 gen (@nil Z).
  by field_index (PutUint64 id ++ PutUint64 gen) mode (@nil Z).
Qed.

(** The decoder keeps an unassigned mode, so that the refusal can be answered
    under the request's own id; everything else is canonical. *)
Lemma DecodeSnapshotRequest_iff b r :
  bytes_ok b ->
  DecodeSnapshotRequest b = Ok r <->
    b = PutUint64 (sq_RequestID r) ++ PutUint64 (sq_Generation r) ++ [sq_Mode r] /\
    u64_ok (sq_RequestID r) /\ u64_ok (sq_Generation r) /\ u8_ok (sq_Mode r) /\
    sq_RequestID r <> 0 /\ sq_Generation r <> 0.
Proof.
  intros Hb. split.
  - intros H. destruct (blen b =? 17) eqn:Hl.
    2: { unfold DecodeSnapshotRequest, snapshotRequestLen in H. by rewrite Hl in H. }
    destruct (PutUint64_split b Hb ltac:(lia)) as (id & b1 & -> & Hi & Hb1 & Hl1).
    destruct (PutUint64_split b1 Hb1 ltac:(lia)) as (gen & b2 & -> & Hg & Hb2 & Hl2).
    destruct (byte_head_split b2 Hb2 ltac:(lia)) as (mode & t & -> & Hm & Ht & Hl3).
    assert (t = []) as -> by (apply blen_0_inv; lia).
    change ([mode] ++ []) with [mode] in *. rewrite DecodeSnapshotRequest_fields in H by assumption.
    destruct (Z.eqb_spec id 0); [done|]. destruct (Z.eqb_spec gen 0); [done|]. injection H as <-. done.
  - destruct r as [id gen mode]. cbn [sq_RequestID sq_Generation sq_Mode].
    intros (-> & Hi & Hg & _ & Hi0 & Hg0). rewrite DecodeSnapshotRequest_fields by assumption.
    destruct (Z.eqb_spec id 0); [done|]. by destruct (Z.eqb_spec gen 0).
Qed.

(** ** Properties *)

(** The bodies of the shim protocol are canonical: for every byte slice, a
    decoder accepts it as a value exactly when the value is within its widths and
    the encoder emits that very slice for it; so no two bodies mean the same
    message and nothing is accepted that could not have been sent.  No decoder
    panics. *)
Theorem shim_bodies_canonical (b : bytes) :
  bytes_ok b ->
  (forall h, DecodeHostFrame b = Ok h <-> host_frame_wf h /\ EncodeHostFrame h = Ok b) /\
  (forall r, DecodeSnapshotResult b = Ok r <-> snapshot_result_wf r /\ EncodeSnapshotResult r = Ok b) /\
  (forall r, DecodeCheckpointRequest b = Ok r <-> checkpoint_request_wf r /\ EncodeCheckpointRequest r = Ok b) /\
  (forall r, DecodeCheckpointResult b = Ok r <-> checkpoint_result_wf r /\ EncodeCheckpointResult r = Ok b) /\
  (forall o, DecodeOutputMsg b = Ok o <-> output_msg_wf o /\ EncodeOutputMsg o = b) /\
  (forall i, DecodeInputMsg b = Ok i <-> input_msg_wf i /\ EncodeInputMsg i = b) /\
  (forall a, DecodeAttributedInput b = Ok a <-> attributed_wf a /\ EncodeAttributedInput a = Ok b) /\
  (forall r, SnapshotMode_Known (sq_Mode r) = true ->
     DecodeSnapshotRequest b = Ok r <->
     u64_ok (sq_RequestID r) /\ u64_ok (sq_Generation r) /\ EncodeSnapshotRequest r = Ok b) /\
  DecodeHostFrame b <> Panic /\ DecodeSnapshotResult b <> Panic /\ DecodeCheckpointRequest b <> Panic /\
  DecodeCheckpointResult b <> Panic /\ DecodeOutputMsg b <> Panic /\ DecodeInputMsg b <> Panic /\
  DecodeAttributedInput b <> Panic.
Proof.
  intros Hb.
  split; [intros h; exact (shim_canonical (H := HostFrame_codec) b h Hb)|].
  split; [intros h; exact (shim_canonical (H := SnapshotResult_codec) b h Hb)|].
  split; [intros h; exact (shim_canonical (H := CheckpointRequest_codec) b h Hb)|].
  split; [intros h; exact (shim_canonical (H := CheckpointResult_codec) b h Hb)|].
  split; [intros o; rewrite (shim_canonical (H := OutputMsg_codec) b o Hb); cbn; naive_solver|].
  split; [intros o; rewrite (shim_canonical (H := InputMsg_codec) b o Hb); cbn; naive_solver|].
  split; [intros h; exact (shim_canonical (H := AttributedInput_codec) b h Hb)|].
  split.
  - intros r Hm. rewrite DecodeSnapshotRequest_iff by done. unfold EncodeSnapshotRequest. rewrite Hm.
    destruct (Z.eqb_spec (sq_RequestID r) 0); [naive_solver|].
    destruct (Z.eqb_spec (sq_Generation r) 0); cbn [orb negb]; [naive_solver|].
    assert (u8_ok (sq_Mode r)) as Hu
      by (unfold SnapshotMode_Known, SnapshotInspect, SnapshotEmit in Hm; unfold u8_ok; lia).
    split; [intros (-> & ? & ? & _); done|]. intros (? & ? & [= <-]). done.
  - split; [apply (sh_dec_total (ShimCodec := HostFrame_codec) b Hb)|].
    split; [apply (sh_dec_total (ShimCodec := SnapshotResult_codec) b Hb)|].
    split; [apply (sh_dec_total (ShimCodec := CheckpointRequest_codec) b Hb)|].
    split; [apply (sh_dec_total (ShimCodec := CheckpointResult_codec) b Hb)|].
    split; [apply (sh_dec_total (ShimCodec := OutputMsg_codec) b Hb)|].
    split; [apply (sh_dec_total (ShimCodec := InputMsg_codec) b Hb)|].
    apply (sh_dec_total (ShimCodec := AttributedInput_codec) b Hb).
Qed.

Lemma EncodeInputMsg_sample_ok : bytes_ok [0; 0; 0; 0; 0; 0; 0; 9; 104; 105].
Proof. repeat constructor; vm_compute; (reflexivity || discriminate). Qed.

Lemma shim_bodies_canonical_witness :
  DecodeInputMsg [0; 0; 0; 0; 0; 0; 0; 9; 104; 105] = Ok {| im_Generation := 9; im_Data := [104; 105] |} /\
  EncodeInputMsg {| im_Generation := 9; im_Data := [104; 105] |} = [0; 0; 0; 0; 0; 0; 0; 9; 104; 105].
Proof.
  assert (DecodeInputMsg [0; 0; 0; 0; 0; 0; 0; 9; 104; 105] = Ok {| im_Generation := 9; im_Data := [104; 105] |})
    as E by (vm_compute; reflexivity).
  split; [exact E|].
  destruct (shim_bodies_canonical [0; 0; 0; 0; 0; 0; 0; 9; 104; 105] EncodeInputMsg_sample_ok)
    as (_ & _ & _ & _ & _ & H & _).
  exact (proj2 (proj1 (H _) E)).
Defined.

Definition host_types : list EventType := [TypeOutput; TypeResize; TypeMarker; TypeSnapshot; TypeExit].

(** What the validation of a host frame establishes. *)
Lemma validateHostFrame_inv h :
  validateHostFrame h = Ok tt ->
  exists f, DecodeFrame (FrameBytes h) = Ok f /\ EncodeFrame f = FrameBytes h /\ Seq f <> 0 /\
    Type_ f ∈ host_types /\ (hf_RequestID h <> 0 -> Type_ f = TypeSnapshot) /\
    0 < blen (FrameBytes h) <= MaxHostFrameBytes.
Proof.
  unfold validateHostFrame, no_request_id. intros H. pose proof (blen_nonneg (FrameBytes h)).
  destruct (Z.eqb_spec (blen (FrameBytes h)) 0); [done|].
  destruct (Z.ltb_spec MaxHostFrameBytes (blen (FrameBytes h))); [done|].
  destruct (DecodeFrame (FrameBytes h)) as [f| |]; try done. exists f. split; [done|].
  destruct (bytes_eqb (EncodeFrame f) (FrameBytes h)) eqn:E; [|done]. apply bytes_eqb_eq in E. split; [done|].
  cbn [negb] in H. destruct (Z.eqb_spec (Seq f) 0); [done|]. split; [done|].
  destruct (Z.eqb_spec (hf_RequestID h) 0) as [Hz|Hz]; cbn [negb obind] in H;
    repeat match type of H with context [if ?a =? ?b then _ else _] => destruct (Z.eqb_spec a b) end;
    try done; (split; [unfold host_types; rewrite !elem_of_cons; tauto|]); (split; [done|lia]).
Qed.

Lemma validateHostFrame_err h e :
  validateHostFrame h = Err e -> e = Wrapped [ErrMalformed] \/ e = Wrapped [ErrMessageTooLarge].
Proof.
  unfold validateHostFrame, no_request_id, payload_ok. intros H.
  repeat match type of H with
  | context [if ?c then _ else _] => destruct c; cbn [obind negb] in H; try (injection H as <-; tauto); try discriminate
  | context [match ?d with Ok _ => _ | Err _ => _ | Panic => _ end] =>
      destruct d; cbn [obind] in H; try (injection H as <-; tauto); try discriminate
  end.
Qed.

(** A host frame crosses the shim connection exactly: an accepted frame is
    one canonical attach frame of a host event with a positive sequence, only a
    Snapshot carries a request id, its message always fits the 1 MiB bound, and
    the peer reads back the same message and decodes the same frame; anything
    else is refused as malformed or too large before a byte is written. *)
Theorem host_frame_exact (v : Z) (h : HostFrame) (rest : bytes) (e : ending) :
  V3 <= v <= V6 -> host_frame_wf h ->
  match EncodeHostFrame h with
  | Ok body =>
      let m := {| m_Type := Msg.TypeHostFrame; m_Body := body |} in
      (exists f, DecodeFrame (FrameBytes h) = Ok f /\ EncodeFrame f = FrameBytes h /\ Seq f <> 0 /\
         Type_ f ∈ host_types /\ (hf_RequestID h <> 0 -> Type_ f = TypeSnapshot)) /\
      readVersion v {| data := message_bytes m ++ rest; fin := e |} = (Ok m, {| data := rest; fin := e |}) /\
      WriteVersionBatch v [m] [] = (message_bytes m, None) /\
      DecodeHostFrame body = Ok h
  | Err err => errors_Is err ErrMalformed = true \/ errors_Is err ErrMessageTooLarge = true
  | Panic => False
  end.
Proof.
  intros Hv Hw. pose proof (sh_enc_dec (ShimCodec := HostFrame_codec) h) as Hdec.
  pose proof (validateHostFrame_total h Hw) as Hnp. change (sh_enc (ShimCodec := HostFrame_codec) h) with (EncodeHostFrame h) in Hdec.
  destruct (EncodeHostFrame h) as [body|err|] eqn:E; unfold EncodeHostFrame in E.
  - destruct (validateHostFrame h) as [[]| |] eqn:Ev; try discriminate. injection E as Hbody.
    destruct (Hdec body Hw eq_refl) as [Hok Hd].
    destruct (validateHostFrame_inv h Ev) as (f & H1 & H2 & H3 & H4 & H5 & Hl).
    assert (message_ok v {| m_Type := Msg.TypeHostFrame; m_Body := body |}) as Hm.
    { split; [cbn [m_Type]; unfold AllowedIn, V1, V2, V3, V4, V5, V6, Msg.TypeHostFrame in *; cbn; lia|].
      cbn [m_Body]. rewrite <- Hbody at 1. rewrite blen_app, PutUint64_blen.
      unfold MaxHostFrameBytes, hostFrameHeaderLen in Hl. split; [lia | done]. }
    cbv zeta. split; [by exists f|]. split; [by apply readVersion_message|].
    split; [by apply buffer_write_one | done].
  - destruct (validateHostFrame h) as [[]| |] eqn:Ev; try discriminate. injection E as ->.
    destruct (validateHostFrame_err h err Ev) as [-> | ->]; [left | right]; reflexivity.
  - destruct (validateHostFrame h); done.
Qed.

Definition sample_host_frame : HostFrame :=
  {| hf_RequestID := 0; FrameBytes := EncodeFrame {| Frame.Type_ := TypeOutput; Seq := 5; RelTime := 9; Payload := [104; 105] |} |}.

Lemma sample_host_frame_wf : host_frame_wf sample_host_frame.
Proof.
  split; [split; vm_compute; (reflexivity || discriminate)|]. split; [|vm_compute; reflexivity].
  repeat constructor; vm_compute; (reflexivity || discriminate).
Qed.

Lemma host_frame_exact_witness :
  exists body, EncodeHostFrame sample_host_frame = Ok body /\ DecodeHostFrame body = Ok sample_host_frame.
Proof.
  assert (EncodeHostFrame sample_host_frame = Ok [0; 0; 0; 0; 0; 0; 0; 0; 1; 5; 9; 104; 105]) as E
    by (vm_compute; reflexivity).
  pose proof (host_frame_exact V3 sample_host_frame [] Closed) as H. rewrite E in H.
  destruct H as (_ & _ & _ & H).
  - unfold V3, V6. lia.
  - apply sample_host_frame_wf.
  - eexists. split; [exact E | exact H].
Defined.
