(* ===== verification/ShimControl.v ===== *)
(** * ShimControl: the JSON control bodies and the workload profile
    ([src/shimwire/payloads.go], [checkpoint.go], [codec.go])

    Hello with its workload and checkpoint advertisements, the bodies whose
    decoders check more than their syntax, and the profile-aware reader.  The
    strict JSON codec ([encoding/json] with unknown fields and trailing documents
    refused) is the argument of each definition. *)

From stdpp Require Import gmap.
From S2P Require Import Prelude BigEndian ShimWire ShimPayloads.

(** [encodeJSON] and [decodeJSON] at one type. *)
Record JsonCodec (A : Type) := {
  encodeJSON : A -> outcome error bytes;
  decodeJSON : bytes -> outcome error A
}.
Arguments encodeJSON {A}.
Arguments decodeJSON {A}.

(** ** Hello *)

Record CheckpointCapability := { cap_Schema : bytes; cap_HostEpoch : Z }.
Definition MaxCheckpointCapabilityBytes : Z := 256.

Record Hello := {
  h_Protocol : bytes;
  h_Min : Z;
  h_Max : Z;
  h_OrgID : bytes;
  h_SessionID : bytes;
  h_ShimID : bytes;
  h_ProcessEpoch : Z;
  h_PID : Z;
  h_ProcessStartedAt : Z;
  h_ProcessStartTicks : Z;
  h_ProcessBootID : bytes;
  h_HarnessPID : Z;
  h_HarnessStartedAt : Z;
  h_HarnessStartTicks : Z;
  h_HarnessBootID : bytes;
  h_WorkareaPath : bytes;
  h_Phase : Phase;
  h_Generation : Generation;
  h_FirstSeq : Z;
  h_LastSeq : Z;
  h_OrphanDeadlineUnixNano : Z;
  h_Extensions : Extensions;
  h_Continuation : option CheckpointCapability;
  h_Workload : Profile
}.

(** [h] with its extension values, or its two derived fields, replaced. *)
Definition set_derived (h : Hello) (x : Extensions) (c : option CheckpointCapability) (w : Profile) : Hello :=
  {| h_Protocol := h_Protocol h; h_Min := h_Min h; h_Max := h_Max h; h_OrgID := h_OrgID h;
     h_SessionID := h_SessionID h; h_ShimID := h_ShimID h; h_ProcessEpoch := h_ProcessEpoch h; h_PID := h_PID h;
     h_ProcessStartedAt := h_ProcessStartedAt h; h_ProcessStartTicks := h_ProcessStartTicks h;
     h_ProcessBootID := h_ProcessBootID h; h_HarnessPID := h_HarnessPID h;
     h_HarnessStartedAt := h_HarnessStartedAt h; h_HarnessStartTicks := h_HarnessStartTicks h;
     h_HarnessBootID := h_HarnessBootID h; h_WorkareaPath := h_WorkareaPath h; h_Phase := h_Phase h;
     h_Generation := h_Generation h; h_FirstSeq := h_FirstSeq h; h_LastSeq := h_LastSeq h;
     h_OrphanDeadlineUnixNano := h_OrphanDeadlineUnixNano h;
     h_Extensions := x; h_Continuation := c; h_Workload := w |}.

Definition set_values (h : Hello) (vs : gmap bytes bytes) : Hello :=
  set_derived h {| Values := vs; Required := Required (h_Extensions h) |} (h_Continuation h) (h_Workload h).

Section hello.
Context (jh : JsonCodec Hello) (jc : JsonCodec CheckpointCapability).

Definition CheckpointCapability_of (e : Extensions) : outcome error (option CheckpointCapability) :=
  match Values e !! ExtContinuationCheckpoint with
  | None => Ok None
  | Some value =>
      if (blen value =? 0) || (MaxCheckpointCapabilityBytes <? blen value) then Err (Wrapped [ErrMalformed])
      else obind (decodeJSON jc value) (fun c =>
        if bytes_eqb (cap_Schema c) [] then Err (Wrapped [ErrMalformed]) else Ok (Some c))
  end.

(** The workload checks of [EncodeHello] and the key it advertises. *)
Definition encode_workload (h : Hello) : outcome error Hello :=
  if negb (bytes_eqb (h_Workload h) []) && negb (bytes_eqb (h_Workload h) ProfileInteractive) &&
     negb (bytes_eqb (h_Workload h) ProfileHeadless)
  then Err (Wrapped [ErrMalformed])
  else if match Values (h_Extensions h) !! ExtWorkload with
          | Some old => negb (bytes_eqb (h_Workload h) ProfileHeadless) || negb (bytes_eqb old WorkloadHeadless)
          | None => false
          end
  then Err (Wrapped [ErrMalformed])
  else obind (checkWorkloadRange (h_Workload h) (h_Min h)) (fun _ =>
    Ok (if bytes_eqb (h_Workload h) ProfileHeadless
        then set_values h (<[ExtWorkload := WorkloadHeadless]> (Values (h_Extensions h))) else h)).

(** The checkpoint advertisement. *)
Definition encode_continuation (h : Hello) : outcome error Hello :=
  match h_Continuation h with
  | None => Ok h
  | Some c =>
      obind (encodeJSON jc c) (fun value =>
      if MaxCheckpointCapabilityBytes <? blen value then Err (Wrapped [ErrMalformed])
      else if match Values (h_Extensions h) !! ExtContinuationCheckpoint with
              | Some old => negb (bytes_eqb old value)
              | None => false
              end
      then Err (Wrapped [ErrMalformed])
      else Ok (set_values h (<[ExtContinuationCheckpoint := value]> (Values (h_Extensions h)))))
  end.

Definition EncodeHello (h : Hello) : outcome error bytes :=
  obind (encode_workload h) (fun h =>
  obind (encode_continuation h) (fun h =>
  obind (CheckpointCapability_of (h_Extensions h)) (fun _ =>
  encodeJSON jh h))).

Definition DecodeHello (body : bytes) : outcome error Hello :=
  obind (decodeJSON jh body) (fun h =>
  obind (Workload_of (h_Extensions h)) (fun workload =>
  obind (checkWorkloadRange workload (h_Min h)) (fun _ =>
  obind (CheckpointCapability_of (h_Extensions h)) (fun c =>
  Ok (set_derived h (h_Extensions h) c workload))))).
End hello.

(** ** Welcome and Adopted: the rest of the handshake, a bare JSON encoding *)

Record Welcome := {
  wl_Protocol : bytes; wl_Selected : Z; wl_ControllerID : bytes; wl_ProposedGeneration : Generation; wl_ResumeFrom : Z;
  wl_Extensions : Extensions
}.

Record Adopted := {
  ad_Generation : Generation; ad_Extensions : Extensions; ad_Contiguous : bool; ad_ReplayFrom : Z; ad_ReplayTo : Z; ad_Phase : Phase
}.

Definition EncodeWelcome (j : JsonCodec Welcome) (w : Welcome) : outcome error bytes := encodeJSON j w.
Definition DecodeAdopted (j : JsonCodec Adopted) (body : bytes) : outcome error Adopted := decodeJSON j body.

(** [CheckpointCapability.UnmarshalJSON]: both members must be present. *)
Definition capability_of_fields (schema : option bytes) (hostEpoch : option Z) : outcome error CheckpointCapability :=
  match schema, hostEpoch with
  | Some s, Some e => Ok {| cap_Schema := s; cap_HostEpoch := e |}
  | _, _ => Err (Wrapped [ErrMalformed])
  end.

(** ** Bodies with checked fields *)

Record GapMsg := { gap_FromSeq : Z; gap_ToSeq : Z; gap_Reason : GapReason }.

Definition DecodeGap (j : JsonCodec GapMsg) (body : bytes) : outcome error GapMsg :=
  obind (decodeJSON j body) (fun g =>
  if negb (GapReason_Known (gap_Reason g)) then Err (Wrapped [ErrMalformed])
  else if gap_ToSeq g <? gap_FromSeq g then Err (Wrapped [ErrMalformed])
  else Ok g).

Record StopMsg := { stop_Generation : Generation; stop_Reason : StopReason }.

Definition DecodeStop (j : JsonCodec StopMsg) (body : bytes) : outcome error StopMsg :=
  obind (decodeJSON j body) (fun s =>
  if negb (StopReason_Known (stop_Reason s)) then Err (Wrapped [ErrMalformed]) else Ok s).

Record CredentialUpdate := {
  cu_RequestID : Z; cu_Generation : Generation; cu_WorkerID : bytes; cu_Bearer : bytes; cu_ExpiresAt : Z
}.
Definition credentialWorkerIDMax : Z := 256.
Definition credentialBearerMax : Z := 16384.

Definition credential_incomplete (u : CredentialUpdate) : bool :=
  (cu_RequestID u =? 0) || (cu_Generation u =? 0) || (blen (cu_WorkerID u) =? 0) ||
  (credentialWorkerIDMax <? blen (cu_WorkerID u)) || (blen (cu_Bearer u) =? 0) ||
  (credentialBearerMax <? blen (cu_Bearer u)) || (cu_ExpiresAt u <=? 0).

Definition EncodeCredentialUpdate (j : JsonCodec CredentialUpdate) (u : CredentialUpdate) : outcome error bytes :=
  if credential_incomplete u then Err (Wrapped [ErrMalformed]) else encodeJSON j u.

Definition DecodeCredentialUpdate (j : JsonCodec CredentialUpdate) (body : bytes) : outcome error CredentialUpdate :=
  obind (decodeJSON j body) (fun u => if credential_incomplete u then Err (Wrapped [ErrMalformed]) else Ok u).

Definition CredentialStatus : Type := bytes.
Definition CredentialSuccess : CredentialStatus := str "success".
Definition CredentialMalformed : CredentialStatus := str "malformed".
Definition CredentialStaleGeneration : CredentialStatus := str "stale_generation".
Definition CredentialDuplicateChanged : CredentialStatus := str "duplicate_changed".
Definition CredentialRequestLedgerFull : CredentialStatus := str "request_ledger_full".
Definition CredentialInternal : CredentialStatus := str "internal".
Definition CredentialRequestMismatch : CredentialStatus := str "request_mismatch".
Definition CredentialTimeout : CredentialStatus := str "timeout".

Definition CredentialStatus_Known (s : CredentialStatus) : bool :=
  one_of s [CredentialSuccess; CredentialMalformed; CredentialStaleGeneration; CredentialDuplicateChanged;
            CredentialRequestLedgerFull; CredentialInternal; CredentialRequestMismatch; CredentialTimeout].

Record CredentialResult := { cs_RequestID : Z; cs_Generation : Generation; cs_Status : CredentialStatus }.

Definition credential_result_incomplete (r : CredentialResult) : bool :=
  (cs_RequestID r =? 0) || (cs_Generation r =? 0) || negb (CredentialStatus_Known (cs_Status r)).

Definition EncodeCredentialResult (j : JsonCodec CredentialResult) (r : CredentialResult) : outcome error bytes :=
  if credential_result_incomplete r then Err (Wrapped [ErrMalformed]) else encodeJSON j r.

Definition DecodeCredentialResult (j : JsonCodec CredentialResult) (body : bytes) : outcome error CredentialResult :=
  obind (decodeJSON j body) (fun r => if credential_result_incomplete r then Err (Wrapped [ErrMalformed]) else Ok r).

(** The headless terminal observation. *)
Definition HeadlessExitCause : Type := bytes.
Definition HeadlessExitCompleted : HeadlessExitCause := str "completed".
Definition HeadlessExitOrphaned : HeadlessExitCause := str "orphaned".
Definition HeadlessExitStoppedForResume : HeadlessExitCause := str "stopped_for_resume".
Definition HeadlessExitShimFailure : HeadlessExitCause := str "shim_failure".
Definition HeadlessExitCause_Known (c : HeadlessExitCause) : bool :=
  one_of c [HeadlessExitCompleted; HeadlessExitOrphaned; HeadlessExitStoppedForResume; HeadlessExitShimFailure].

Definition HeadlessExitState : Type := bytes.
Definition HeadlessExitDelivered : HeadlessExitState := str "delivered".
Definition HeadlessExitPending : HeadlessExitState := str "pending".
Definition HeadlessExitNone : HeadlessExitState := str "none".
Definition HeadlessExitState_Known (s : HeadlessExitState) : bool :=
  one_of s [HeadlessExitDelivered; HeadlessExitPending; HeadlessExitNone].

Record HeadlessExit := {
  he_Seq : Z; he_ProcessEpoch : Z; he_ExitCode : Z; he_Signal : bytes; he_GroupReaped : bool;
  he_Cause : HeadlessExitCause; he_OutboxKey : bytes; he_OutboxState : HeadlessExitState; he_ObservedAt : Z
}.

Definition validateHeadlessExit (e : HeadlessExit) : outcome error unit :=
  if negb (he_Seq e =? 1) then Err (Wrapped [ErrMalformed])
  else if negb (HeadlessExitCause_Known (he_Cause e)) then Err (Wrapped [ErrMalformed])
  else if negb (HeadlessExitState_Known (he_OutboxState e)) then Err (Wrapped [ErrMalformed])
  else if (he_ProcessEpoch e =? 0) || (he_ObservedAt e <=? 0) then Err (Wrapped [ErrMalformed])
  else if bytes_eqb (he_OutboxState e) HeadlessExitNone then
    if negb (bytes_eqb (he_Cause e) HeadlessExitStoppedForResume) then Err (Wrapped [ErrMalformed])
    else if negb (bytes_eqb (he_OutboxKey e) []) then Err (Wrapped [ErrMalformed])
    else Ok tt
  else if bytes_eqb (he_OutboxKey e) [] then Err (Wrapped [ErrMalformed])
  else Ok tt.

Definition EncodeHeadlessExit (j : JsonCodec HeadlessExit) (e : HeadlessExit) : outcome error bytes :=
  obind (validateHeadlessExit e) (fun _ => encodeJSON j e).

Definition DecodeHeadlessExit (j : JsonCodec HeadlessExit) (body : bytes) : outcome error HeadlessExit :=
  obind (decodeJSON j body) (fun e => obind (validateHeadlessExit e) (fun _ => Ok e)).

(** ** The profile-aware reader *)

Record ErrorMsg := { em_Code : ErrorCode; em_Detail : bytes }.

Definition refusal : ErrorMsg :=
  {| em_Code := CodeMalformed; em_Detail := str "message type is refused on the headless profile" |}.

Definition ReadProfileVersion {W} `{Sink W} (j : JsonCodec ErrorMsg) (profile : Profile) (version : Z)
    (s : stream) (w : W) : outcome error Message * stream * W :=
  match readVersion version s with
  | (Err e, s) => (Err e, s, w)
  | (Panic, s) => (Panic, s, w)
  | (Ok msg, s) =>
      if negb (RefusedIn (m_Type msg) profile version) then (Ok msg, s, w)
      else match encodeJSON j refusal with
      | Panic => (Panic, s, w)
      | Err e => (Err e, s, w)
      | Ok body =>
          match WriteVersion version Msg.TypeError body w with
          | (w, Some e) => (Err (wrap e), s, w)
          | (w, None) => (Err (Wrapped [ErrProfileRefused; ErrMalformed]), s, w)
          end
      end
  end.

(** ** Lemmas *)

Definition headless_types : list MessageType :=
  [Msg.TypeHello; Msg.TypeWelcome; Msg.TypeAdopted; Msg.TypeStop; Msg.TypeHeartbeat; Msg.TypeError;
   Msg.TypeCredentialUpdate; Msg.TypeCredentialResult; Msg.TypeHeadlessExit].

Lemma RefusedIn_headless t v :
  RefusedIn t ProfileHeadless v = false <-> v = V6 /\ t ∈ headless_types.
Proof.
  unfold RefusedIn. rewrite bytes_eqb_refl. cbn [negb]. destruct (Z.eqb_spec v V6); cbn [negb]; [|naive_solver].
  rewrite negb_false_iff, bool_decide_eq_true. unfold headless_types. naive_solver.
Qed.

Lemma writeAssigned_err {W} `{Sink W} t b (w w' : W) e :
  writeAssigned t b w = (w', Some e) ->
  e = Wrapped [ErrMessageTooLarge] \/ exists n, e = Wrapped [IOError n].
Proof.
  unfold writeAssigned, writeAssignedLocked. destruct (_ <? _); [intros [= _ <-]; by left|].
  destruct (sink_write w _) as [w1 [e1|]] eqn:E1.
  - intros [= _ <-]. destruct (sink_err _ _ _ _ E1) as [n ->]. right. by exists n.
  - destruct (_ <? _); [|done]. destruct (sink_write w1 b) as [w2 [e2|]] eqn:E2; [|done].
    intros [= _ <-]. destruct (sink_err _ _ _ _ E2) as [n ->]. right. by exists n.
Qed.

Lemma Workload_of_inv e w :
  Workload_of e = Ok w ->
  (w = ProfileInteractive /\ Values e !! ExtWorkload = None) \/
  (w = ProfileHeadless /\ Values e !! ExtWorkload = Some WorkloadHeadless).
Proof.
  unfold Workload_of. destruct (Values e !! ExtWorkload) as [v|]; [|intros [= <-]; by left].
  destruct (bytes_eqb v ProfileHeadless) eqn:E; [|done]. apply bytes_eqb_eq in E as ->.
  cbn [negb]. intros [= <-]. by right.
Qed.

Lemma headless_below_V6 pmin pmax omin omax :
  checkWorkloadRange ProfileHeadless pmin = Ok tt -> omax <= ProtocolMax ->
  Negotiate pmin pmax omin omax = Err (Wrapped [ErrVersionMismatch]).
Proof.
  unfold checkWorkloadRange. rewrite bytes_eqb_refl. cbn [andb]. unfold ProtocolMax, V5, V6.
  destruct (Z.ltb_spec pmin 6); [done|]. intros _ Ho. unfold Negotiate.
  destruct (Z.ltb_spec pmax pmin); [done|]. destruct (Z.ltb_spec omax omin); [done|].
  destruct (Z.ltb_spec pmin omin); destruct (Z.ltb_spec omax pmax); cbv zeta;
    match goal with |- context [if ?c then _ else _] => replace c with true by lia end; done.
Qed.

Lemma readVersion_not_refused v s e s' :
  readVersion v s = (Err e, s') -> errors_Is e ErrProfileRefused = false.
Proof.
  assert (forall got f, errors_Is (Wrapped [end_error got f]) ErrProfileRefused = false) as Hend.
  { intros got f. unfold errors_Is. apply bool_decide_eq_false. rewrite list_elem_of_singleton.
    unfold end_error. destruct f; [destruct (got =? 0)|]; done. }
  unfold readVersion, ReadFull. intros H.
  destruct (lengthPrefixLen <=? blen (data s)).
  - destruct (Uint32 _) as [total|e0|] eqn:Eu; [| |discriminate].
    + destruct (total =? 0); [by injection H as <- _|]. destruct (_ <? total); [by injection H as <- _|].
      cbn [data fin] in H. destruct (total <=? _).
      * destruct (index _ 0) as [t|e0|] eqn:Ei; cbn [obind] in H.
        -- destruct (AllowedIn t v); cbn [negb] in H; [|by injection H as <- _].
           unfold slice_from in H. destruct (_ && _); cbn [obind] in H; discriminate.
        -- exfalso. revert Ei. unfold index. cbn [Z.leb Z.compare]. by case_match.
        -- discriminate.
      * by injection H as <- _.
    + exfalso. revert Eu. Transparent Uint32. unfold Uint32, be_uint. Opaque Uint32. by destruct (_ <=? _).
  - injection H as <- _. case_bool_decide; [done | apply Hend].
Qed.

(** ** Properties *)

(** The headless profile never carries a terminal: on a headless connection
    the reader hands over a message only at version 6 and only of the nine
    profile types; it reports a profile refusal exactly when it read another
    message and answered it with one Error message on the same connection, and
    the stream is then at the next message; and a Hello that decodes as headless
    cannot be selected by a controller that speaks only interactive versions. *)
Theorem headless_isolated {W} `{Sink W} (j : JsonCodec ErrorMsg) (version : Z) (s : stream) (w : W) (answer : bytes) :
  bytes_ok (data s) -> encodeJSON j refusal = Ok answer ->
  match ReadProfileVersion j ProfileHeadless version s w with
  | (Ok m, s', w') => version = V6 /\ m_Type m ∈ headless_types /\ w' = w /\ readVersion version s = (Ok m, s')
  | (Err e, s', w') =>
      errors_Is e ErrProfileRefused = true <->
      exists m, readVersion version s = (Ok m, s') /\ ~ (version = V6 /\ m_Type m ∈ headless_types) /\
        WriteVersion version Msg.TypeError answer w = (w', None)
  | (Panic, _, _) => False
  end /\
  (forall jh jc body h om ox, DecodeHello jh jc body = Ok h -> h_Workload h = ProfileHeadless -> ox <= ProtocolMax ->
     Negotiate (h_Min h) (h_Max h) om ox = Err (Wrapped [ErrVersionMismatch])).
Proof.
  intros Hs Hj. split.
  - unfold ReadProfileVersion. pose proof (readVersion_cases version s Hs) as Hc.
    destruct (readVersion version s) as [[m|e|] s1] eqn:E; [| |done].
    2: { rewrite (readVersion_not_refused _ _ _ _ E). split; [done|]. intros (m & ? & _). congruence. }
    destruct (RefusedIn (m_Type m) ProfileHeadless version) eqn:R; cbn [negb]; [|apply RefusedIn_headless in R; naive_solver].
    assert (~ (version = V6 /\ m_Type m ∈ headless_types)) as Hr
      by (intros Hn; apply RefusedIn_headless in Hn; congruence).
    rewrite Hj. destruct (WriteVersion version Msg.TypeError answer w) as [w1 [e|]] eqn:Ew.
    + split; [|intros (m' & _ & _ & ?); congruence]. unfold WriteVersion in Ew.
      destruct (AllowedIn _ _); cbn [negb] in Ew; [|injection Ew as <- <-; done].
      by apply writeAssigned_err in Ew as [-> | [n ->]].
    + split; [|done]. intros _. by exists m.
  - intros jh jc body h om ox Hd Hw Ho. unfold DecodeHello in Hd.
    destruct (decodeJSON jh body) as [h0| |]; cbn [obind] in Hd; try discriminate.
    destruct (Workload_of _) as [wl| |] eqn:Ewl; cbn [obind] in Hd; try discriminate.
    destruct (checkWorkloadRange wl (h_Min h0)) as [[]| |] eqn:Er; cbn [obind] in Hd; try discriminate.
    destruct (CheckpointCapability_of _ _); cbn [obind] in Hd; try discriminate. injection Hd as <-.
    cbn [h_Workload h_Min h_Max set_derived] in *. subst wl. by apply headless_below_V6.
Qed.

(** A JSON codec for one value, as a table. *)
Definition table_codec {A} `{EqDecision A} (strip : A -> A) (a : A) (b : bytes) : JsonCodec A := {|
  encodeJSON x := if decide (strip x = strip a) then Ok b else Err (Wrapped [ErrMalformed]);
  decodeJSON y := if decide (y = b) then Ok (strip a) else Err (Wrapped [ErrMalformed])
|}.

#[export] Instance ErrorMsg_eq_dec : EqDecision ErrorMsg.
Proof. solve_decision. Defined.

(** A headless peer sends a terminal resize: it is answered and not returned. *)
Lemma headless_isolated_witness :
  let j := table_codec Datatypes.id refusal [123; 125] in
  let s := {| data := [0; 0; 0; 1; 8] ++ [9]; fin := Closed |} in
  ReadProfileVersion j ProfileHeadless V6 s [] =
    (Err (Wrapped [ErrProfileRefused; ErrMalformed]), {| data := [9]; fin := Closed |}, [0; 0; 0; 3; 12; 123; 125]) /\
  exists m, readVersion V6 s = (Ok m, {| data := [9]; fin := Closed |}).
Proof.
  assert (ReadProfileVersion (table_codec Datatypes.id refusal [123; 125]) ProfileHeadless V6
      {| data := [0; 0; 0; 1; 8] ++ [9]; fin := Closed |} [] =
    (Err (Wrapped [ErrProfileRefused; ErrMalformed]), {| data := [9]; fin := Closed |}, [0; 0; 0; 3; 12; 123; 125]))
    as E by (vm_compute; reflexivity).
  split; [exact E|].
  pose proof (headless_isolated (table_codec Datatypes.id refusal [123; 125]) V6
    {| data := [0; 0; 0; 1; 8] ++ [9]; fin := Closed |} [] [123; 125]) as H.
  rewrite E in H. destruct H as [H _].
  - repeat constructor; vm_compute; (reflexivity || discriminate).
  - vm_compute. reflexivity.
  - destruct (proj1 H ltac:(vm_compute; reflexivity)) as (m & Hm & _). exists m. exact Hm.
Defined.

(** What is relied on of the JSON codec: decoding what it encoded gives the
    value back, without the fields tagged ["-"]. *)
Definition json_hello_law (jh : JsonCodec Hello) : Prop :=
  forall h b, encodeJSON jh h = Ok b -> decodeJSON jh b = Ok (set_derived h (h_Extensions h) None []).
Definition json_law {A} (j : JsonCodec A) : Prop :=
  forall a b, encodeJSON j a = Ok b -> decodeJSON j b = Ok a.

(** The profile a Hello claims: the wire default is interactive. *)
Definition claimed_profile (h : Hello) : Profile :=
  if bytes_eqb (h_Workload h) ProfileHeadless then ProfileHeadless else ProfileInteractive.

Lemma encode_workload_inv h h1 :
  encode_workload h = Ok h1 ->
  exists x, h1 = set_derived h x (h_Continuation h) (h_Workload h) /\
    checkWorkloadRange (claimed_profile h) (h_Min h) = Ok tt /\
    Workload_of x = Ok (claimed_profile h) /\ Required x = Required (h_Extensions h) /\
    (forall k, k <> ExtWorkload -> Values x !! k = Values (h_Extensions h) !! k).
Proof.
  unfold encode_workload, claimed_profile. destruct (negb _ && negb _ && negb _); [done|].
  destruct (bytes_eqb (h_Workload h) ProfileHeadless) eqn:Ew.
  - apply bytes_eqb_eq in Ew. destruct (match _ with Some _ => _ | None => _ end); [done|]. rewrite Ew.
    destruct (checkWorkloadRange ProfileHeadless (h_Min h)) as [[]| |] eqn:Er; try done.
    cbn [obind]. intros [= <-]. unfold set_values. rewrite Ew. eexists. split; [done|].
    cbn [Values Required]. split; [done|]. split; [|split; [done|]].
    + unfold Workload_of. cbn [Values]. by rewrite lookup_insert_eq.
    + intros k Hk. by rewrite lookup_insert_ne.
  - destruct (Values (h_Extensions h) !! ExtWorkload) as [old|] eqn:Eo; [done|].
    unfold checkWorkloadRange. rewrite Ew. cbn [andb obind]. intros [= <-].
    exists (h_Extensions h). split; [by destruct h|]. split; [done|]. split; [|done].
    unfold Workload_of. by rewrite Eo.
Qed.

(** Hello round trip: whatever [EncodeHello] emits decodes to the same Hello,
    with the claimed workload profile (interactive when none was given) and the
    advertised checkpoint capability recovered from the extension map, every
    other extension untouched and nothing required that was not. *)
Theorem hello_roundtrip (jh : JsonCodec Hello) (jc : JsonCodec CheckpointCapability) (h : Hello) (b : bytes) :
  json_hello_law jh -> json_law jc -> EncodeHello jh jc h = Ok b ->
  exists x c,
    DecodeHello jh jc b = Ok (set_derived h x c (claimed_profile h)) /\
    (forall cap, h_Continuation h = Some cap -> c = Some cap) /\
    Required x = Required (h_Extensions h) /\
    (forall k, k <> ExtWorkload -> k <> ExtContinuationCheckpoint -> Values x !! k = Values (h_Extensions h) !! k).
Proof.
  intros Lh Lc. unfold EncodeHello. destruct (encode_workload h) as [h1| |] eqn:E1; cbn [obind]; try done.
  destruct (encode_workload_inv h h1 E1) as (x1 & -> & Hr & Hw & Hq & Hv).
  destruct (encode_continuation jc _) as [h2| |] eqn:E2; cbn [obind]; try done.
  destruct (CheckpointCapability_of jc (h_Extensions h2)) as [c| |] eqn:E3; cbn [obind]; try done.
  intros E4. apply Lh in E4. unfold DecodeHello. rewrite E4. cbn [obind set_derived h_Extensions h_Min].
  assert (exists x2, h2 = set_derived h x2 (h_Continuation h) (h_Workload h) /\ Workload_of x2 = Workload_of x1 /\
    Required x2 = Required x1 /\ (forall k, k <> ExtContinuationCheckpoint -> Values x2 !! k = Values x1 !! k) /\
    (forall cap, h_Continuation h = Some cap -> CheckpointCapability_of jc x2 = Ok c -> c = Some cap))
    as (x2 & -> & Hw2 & Hq2 & Hv2 & Hc2).
  { unfold encode_continuation in E2. cbn [set_derived h_Continuation h_Extensions] in E2.
    destruct (h_Continuation h) as [cap|] eqn:Ec.
    - destruct (encodeJSON jc cap) as [value| |] eqn:Ev; cbn [obind] in E2; try done.
      destruct (_ <? _); [done|]. destruct (match _ with Some _ => _ | None => _ end); [done|].
      injection E2 as <-. unfold set_values. cbn [set_derived h_Continuation h_Extensions h_Workload].
      eexists. split; [done|]. cbn [Values Required]. split; [|split; [done|split]].
      + unfold Workload_of. cbn [Values]. by rewrite lookup_insert_ne.
      + intros k Hk. by rewrite lookup_insert_ne.
      + intros cap' [= <-]. unfold CheckpointCapability_of. cbn [Values]. rewrite lookup_insert_eq.
        destruct (_ || _); [done|]. rewrite (Lc _ _ Ev). cbn [obind]. by destruct (bytes_eqb _ _); intros [= <-].
    - injection E2 as <-. by exists x1. }
  cbn [set_derived h_Extensions h_Min] in *. rewrite Hw2, Hw. cbn [obind]. rewrite Hr. cbn [obind]. rewrite E3.
  cbn [obind]. exists x2, c. split; [done|]. split; [intros cap Hcap; by apply (Hc2 cap Hcap)|].
  split; [congruence|]. intros k Hk1 Hk2. rewrite Hv2 by done. by apply Hv.
Qed.

#[export] Instance Capability_eq_dec : EqDecision CheckpointCapability.
Proof. solve_decision. Defined.
#[export] Instance Extensions_eq_dec : EqDecision Extensions.
Proof. solve_decision. Defined.
#[export] Instance Hello_eq_dec : EqDecision Hello.
Proof. solve_decision. Defined.

Lemma table_codec_law {A} `{EqDecision A} (a : A) b : json_law (table_codec Datatypes.id a b).
Proof.
  intros x y. cbn. destruct (decide (x = a)) as [->|]; intros [= <-]. by rewrite decide_True.
Qed.

(** The marshalled part of a Hello. *)
Definition hello_json (h : Hello) : Hello := set_derived h (h_Extensions h) None [].

Lemma table_hello_law a b : json_hello_law (table_codec hello_json a b).
Proof.
  intros x y. cbn. destruct (decide (hello_json x = hello_json a)) as [E|]; intros [= <-].
  rewrite decide_True by done. by rewrite <- E.
Qed.

Definition sample_hello : Hello := {|
  h_Protocol := ProtocolName; h_Min := V6; h_Max := V6; h_OrgID := str "org"; h_SessionID := str "s1";
  h_ShimID := str "shim"; h_ProcessEpoch := 3; h_PID := 42; h_ProcessStartedAt := 1; h_ProcessStartTicks := 0;
  h_ProcessBootID := []; h_HarnessPID := 43; h_HarnessStartedAt := 2; h_HarnessStartTicks := 0; h_HarnessBootID := [];
  h_WorkareaPath := str "/w"; h_Phase := PhaseRunning; h_Generation := 7; h_FirstSeq := 0; h_LastSeq := 0;
  h_OrphanDeadlineUnixNano := 0; h_Extensions := {| Values := ∅; Required := [] |};
  h_Continuation := Some {| cap_Schema := str "v1"; cap_HostEpoch := 5 |}; h_Workload := ProfileHeadless
|}.

(** The extensions of the sample on the wire. *)
Definition sample_extensions : Extensions :=
  {| Values := <[ExtContinuationCheckpoint := [123; 125]]> (<[ExtWorkload := WorkloadHeadless]> ∅); Required := [] |}.

Definition sample_jh : JsonCodec Hello :=
  table_codec hello_json (set_derived sample_hello sample_extensions None []) [91; 93].
Definition sample_jc : JsonCodec CheckpointCapability :=
  table_codec Datatypes.id {| cap_Schema := str "v1"; cap_HostEpoch := 5 |} [123; 125].

Lemma sample_hello_encodes : EncodeHello sample_jh sample_jc sample_hello = Ok [91; 93].
Proof. vm_compute. reflexivity. Qed.

Lemma hello_roundtrip_witness :
  exists x c, DecodeHello sample_jh sample_jc [91; 93] = Ok (set_derived sample_hello x c ProfileHeadless) /\
    c = Some {| cap_Schema := str "v1"; cap_HostEpoch := 5 |}.
Proof.
  destruct (hello_roundtrip sample_jh sample_jc sample_hello [91; 93])
    as (x & c & H1 & H2 & _).
  - apply table_hello_law.
  - apply table_codec_law.
  - apply sample_hello_encodes.
  - exists x, c. split; [exact H1 | exact (H2 _ eq_refl)].
Defined.
