(* ===== verification/SnapshotBound.v ===== *)
(** * SnapshotBound: shortening a snapshot to the wire
    ([src/sessionshim/snapshotbound.go], the senders of [shim.go])

    A snapshot frame is the one host frame whose size is not bounded by
    construction: it carries the scrollback.  When it does not fit the message
    bound the shim re-encodes it with the newest scrollback lines that do, found
    by a binary search. *)

From S2P Require Import Prelude Varint Reader Frame Payloads Utf8 Snapshot BigEndian ShimWire ShimPayloads.

(** The errors: the wire package's, the shim protocol's, a snapshot that does not
    fit without its history. *)
Inductive BoundError :=
| BoundWire (e : WireError)
| BoundShim (e : error)
| ErrSnapshotUnboundable.

Record snapshotBound := { Dropped : Z; Rewritten : bool }.
Definition noBound : snapshotBound := {| Dropped := 0; Rewritten := false |}.

(** An error of another package, wrapped. *)
Definition lift_wire {A} (m : wire A) : outcome BoundError A :=
  match m with Ok a => Ok a | Err e => Err (BoundWire e) | Panic => Panic end.
Definition lift_shim {A} (m : outcome error A) : outcome BoundError A :=
  match m with Ok a => Ok a | Err e => Err (BoundShim e) | Panic => Panic end.

Definition set_scrollback (s : Screen) (l : list (list Cell)) : Screen :=
  {| Epoch := Epoch s; EchoMode := EchoMode s; SCols := SCols s; SRows := SRows s;
     ActiveBuffer := ActiveBuffer s; CursorRow := CursorRow s; CursorCol := CursorCol s;
     CursorVisible := CursorVisible s; CursorShape := CursorShape s; Modes := Modes s;
     SMouseProto := SMouseProto s; SavedCursorRow := SavedCursorRow s; SavedCursorCol := SavedCursorCol s;
     Primary := Primary s; AltPresent := AltPresent s; Alt := Alt s; Scrollback := l |}.

Section bound.
Context (sizeOf : bytes -> outcome BoundError Z) (limit : Z).

(** The closure [keeping]: the screen with its newest [keep] lines, and its size. *)
Definition keeping (decoded : Screen) (history : list (list Cell)) (keep : Z) : outcome BoundError (bytes * Z) :=
  obind (slice_from history (blen history - keep)) (fun tail =>
  obind (lift_wire (Screen_Encode (set_scrollback decoded tail))) (fun encoded =>
  obind (sizeOf encoded) (fun measured => Ok (encoded, measured)))).

(** The binary search; [fuel] is the number of iterations allowed, and
    [search_spec] shows that the length of the interval is enough. *)
Fixpoint search (fuel : nat) (decoded : Screen) (history : list (list Cell)) (lo hi : Z) (best : bytes) (bestKeep : Z)
    : outcome BoundError (bytes * Z) :=
  if hi <? lo then Ok (best, bestKeep)
  else match fuel with
  | O => Panic
  | S fuel' =>
      let mid := lo + (hi - lo) / 2 in
      obind (keeping decoded history mid) (fun em =>
      if snd em <=? limit then search fuel' decoded history (mid + 1) hi (fst em) mid
      else search fuel' decoded history lo (mid - 1) best bestKeep)
  end.

Definition boundSnapshotScreen (screen : bytes) : outcome BoundError (bytes * snapshotBound) :=
  obind (sizeOf screen) (fun size =>
  if size <=? limit then Ok (screen, noBound)
  else
    obind (lift_wire (DecodeScreen screen)) (fun decoded =>
    let history := Scrollback decoded in
    let total := blen history in
    obind (keeping decoded history 0) (fun em =>
    if limit <? snd em then Err ErrSnapshotUnboundable
    else
      obind (search (length history) decoded history 1 total (fst em) 0) (fun bk =>
      Ok (fst bk, {| Dropped := total - snd bk; Rewritten := true |}))))).
End bound.

Definition snapshotFrameWithScreen (frame : Frame) (envelope : SnapshotEnvelope) (screen : bytes) : Frame :=
  {| Type_ := Type_ frame; Seq := Seq frame; RelTime := RelTime frame;
     Payload := SnapshotEnvelope_Encode
       {| EnvAtSeq := EnvAtSeq envelope; SnapFormat := SnapFormat envelope; Snap := screen |} |}.

Definition boundSnapshotFrame (sizeOf : Frame -> outcome BoundError Z) (limit : Z) (frame : Frame)
    : outcome BoundError (Frame * snapshotBound) :=
  obind (sizeOf frame) (fun size =>
  if size <=? limit then Ok (frame, noBound)
  else if negb (Type_ frame =? TypeSnapshot) then Err ErrSnapshotUnboundable
  else
    obind (lift_wire (DecodeSnapshotEnvelope (Payload frame))) (fun envelope =>
    if negb (SnapFormat envelope =? SnapFormatScreen) then Err ErrSnapshotUnboundable
    else
      obind (boundSnapshotScreen (fun screen => sizeOf (snapshotFrameWithScreen frame envelope screen)) limit
               (Snap envelope)) (fun br =>
      let rebuilt := snapshotFrameWithScreen frame envelope (fst br) in
      let result := snd br in
      Ok (rebuilt, if negb (bytes_eqb (Payload rebuilt) (Payload frame))
                   then {| Dropped := Dropped result; Rewritten := true |} else result)))).

(** ** The senders ([shim.go]) *)

Definition messageBytes (body : bytes) : Z := 1 + blen body.

Definition hostFrameBody (requestID : Z) (frame : Frame) : outcome BoundError bytes :=
  let encode f := EncodeHostFrame {| hf_RequestID := requestID; FrameBytes := EncodeFrame f |} in
  match encode frame with
  | Ok body => Ok body
  | Panic => Panic
  | Err e =>
      if negb (errors_Is e ErrMessageTooLarge) then Err (BoundShim e)
      else
        obind (boundSnapshotFrame (fun f => Ok (blen (EncodeFrame f))) MaxHostFrameBytes frame) (fun br =>
        lift_shim (encode (fst br)))
  end.

Definition set_bytes (r : SnapshotResult) (b : bytes) : SnapshotResult :=
  {| sr_RequestID := sr_RequestID r; sr_Generation := sr_Generation r; sr_Mode := sr_Mode r; sr_Code := sr_Code r;
     sr_AtSeq := sr_AtSeq r; sr_InStream := sr_InStream r; sr_Bytes := b |}.

Definition boundSnapshotResultBytes (result : SnapshotResult) : outcome BoundError SnapshotResult :=
  let sizeOf payload := Ok (SnapshotResultMessageBytes (blen payload)) in
  if SnapshotResultMessageBytes (blen (sr_Bytes result)) <=? MaxMessageBytes then Ok result
  else if sr_Mode result =? SnapshotEmit then
    obind (lift_wire (DecodeFrame (sr_Bytes result))) (fun frame =>
    obind (boundSnapshotFrame (fun f => sizeOf (EncodeFrame f)) MaxMessageBytes frame) (fun br =>
    Ok (set_bytes result (EncodeFrame (fst br)))))
  else
    obind (boundSnapshotScreen sizeOf MaxMessageBytes (sr_Bytes result)) (fun br =>
    Ok (set_bytes result (fst br))).

(** The body of a pre-v3 Snapshot; [encode] is [EncodeSnapshot] at one sequence,
    whose JSON inflates the screen. *)
Definition snapshotMsgBody (encode : bytes -> outcome error bytes) (screen : bytes) : outcome BoundError bytes :=
  obind (lift_shim (encode screen)) (fun body =>
  if MaxMessageBytes <? messageBytes body then
    obind (boundSnapshotScreen (fun sc => obind (lift_shim (encode sc)) (fun b => Ok (messageBytes b)))
             MaxMessageBytes screen) (fun br =>
    lift_shim (encode (fst br)))
  else Ok body).

(** ** Lemmas *)

Lemma put_loop_mono n x y : 0 <= x <= y -> blen (put_loop n x) <= blen (put_loop n y).
Proof.
  revert x y. induction n as [|n IH]; intros x y Hxy; [done|]. cbn [put_loop].
  destruct (Z.leb_spec 128 x), (Z.leb_spec 128 y); rewrite ?blen_cons, ?blen_nil; try lia.
  - specialize (IH (Z.shiftr x 7) (Z.shiftr y 7)). rewrite !Z.shiftr_div_pow2 in * by lia.
    assert (x / 2 ^ 7 <= y / 2 ^ 7) by (apply Z.div_le_mono; lia).
    assert (0 <= x / 2 ^ 7) by (apply Z.div_pos; lia). lia.
  - pose proof (blen_nonneg (put_loop n (Z.shiftr y 7))). lia.
Qed.

Lemma uvarint_bytes_mono x y : 0 <= x <= y -> blen (uvarint_bytes x) <= blen (uvarint_bytes y).
Proof. apply put_loop_mono. Qed.

(** The newest [k] lines of a history. *)
Definition newest (k : Z) (h : list (list Cell)) : list (list Cell) := drop (Z.to_nat (blen h - k)) h.

Lemma newest_blen k h : 0 <= k <= blen h -> blen (newest k h) = k.
Proof. intros Hk. unfold newest, blen in *. rewrite length_drop. lia. Qed.

Lemma newest_split j k h : 0 <= j <= k -> k <= blen h -> exists older, newest k h = older ++ newest j h.
Proof.
  intros Hj Hk. exists (take (Z.to_nat (k - j)) (newest k h)). unfold newest.
  replace (Z.to_nat (blen h - j)) with (Z.to_nat (blen h - k) + Z.to_nat (k - j))%nat by lia.
  by rewrite <- drop_drop, take_drop.
Qed.

(** Encoded size is monotone in the number of lines kept. *)
Lemma screen_bytes_mono s j k :
  0 <= j <= k -> k <= blen (Scrollback s) ->
  blen (screen_bytes (set_scrollback s (newest j (Scrollback s)))) <=
  blen (screen_bytes (set_scrollback s (newest k (Scrollback s)))).
Proof.
  intros Hj Hk. unfold screen_bytes, header_bytes.
  cbn [set_scrollback Epoch EchoMode SCols SRows ActiveBuffer CursorRow CursorCol CursorVisible CursorShape
       Modes SMouseProto SavedCursorRow SavedCursorCol Primary AltPresent Alt Scrollback].
  rewrite !newest_blen by lia. destruct (newest_split j k (Scrollback s) Hj Hk) as [older ->].
  unfold lines_bytes. rewrite map_app, concat_app, !blen_app.
  pose proof (uvarint_bytes_mono j k ltac:(lia)). pose proof (blen_nonneg (concat (map line_bytes older))). lia.
Qed.

Lemma set_scrollback_wf s k :
  screen_wf s -> 0 <= k <= blen (Scrollback s) -> screen_wf (set_scrollback s (newest k (Scrollback s))).
Proof.
  intros (H1 & H2 & H3 & H4 & H5 & H6 & H7) Hk.
  unfold screen_wf, header_wf, validateHeader in *.
  cbn [set_scrollback Epoch EchoMode SCols SRows ActiveBuffer CursorRow CursorCol CursorVisible CursorShape
       Modes SMouseProto SavedCursorRow SavedCursorCol Primary AltPresent Alt Scrollback].
  do 5 (split; [assumption|]). rewrite newest_blen by lia. split; [unfold u64_ok in *; lia|].
  unfold newest. by apply Forall_drop.
Qed.

Lemma keeping_eq sizeOf s k :
  screen_wf s -> 0 <= k <= blen (Scrollback s) ->
  keeping sizeOf s (Scrollback s) k =
    let b := screen_bytes (set_scrollback s (newest k (Scrollback s))) in
    obind (sizeOf b) (fun m => Ok (b, m)).
Proof.
  intros Hs Hk. unfold keeping, slice_from.
  replace ((0 <=? blen (Scrollback s) - k) && (blen (Scrollback s) - k <=? blen (Scrollback s))) with true by lia.
  cbn [obind]. fold (newest k (Scrollback s)). rewrite Screen_Encode_eq by by apply set_scrollback_wf. done.
Qed.

(** The screen a search result stands for. *)
Definition kept (s : Screen) (k : Z) : bytes := screen_bytes (set_scrollback s (newest k (Scrollback s))).

Section search.
Context (sizeOf : bytes -> outcome BoundError Z) (limit : Z) (s : Screen) (size : Z -> Z).
Abbreviation total := (blen (Scrollback s)).
Hypothesis s_wf : screen_wf s.
Hypothesis size_eq : forall k, 0 <= k <= total -> sizeOf (kept s k) = Ok (size k).
Hypothesis size_mono : forall j k, 0 <= j <= k -> k <= total -> size j <= size k.

Lemma keeping_size k : 0 <= k <= total -> keeping sizeOf s (Scrollback s) k = Ok (kept s k, size k).
Proof. intros Hk. rewrite keeping_eq by done. cbv zeta. fold (kept s k). by rewrite size_eq. Qed.

Lemma search_spec fuel lo hi :
  1 <= lo -> lo - 1 <= hi <= total -> hi - lo + 1 <= Z.of_nat fuel ->
  size (lo - 1) <= limit -> (forall k, hi < k <= total -> limit < size k) ->
  exists k, search sizeOf limit fuel s (Scrollback s) lo hi (kept s (lo - 1)) (lo - 1) = Ok (kept s k, k) /\
    0 <= k <= total /\ size k <= limit /\ (forall k', k < k' <= total -> limit < size k').
Proof.
  revert lo hi. induction fuel as [|fuel IH]; intros lo hi Hlo Hhi Hf Hbest Hbig; cbn [search].
  - replace (hi <? lo) with true by lia. exists (lo - 1). split; [done|]. split; [lia|]. split; [done|].
    intros k' Hk'. apply Hbig. lia.
  - destruct (Z.ltb_spec hi lo) as [Hend|Hcont].
    { exists (lo - 1). split; [done|]. split; [lia|]. split; [done|]. intros k' Hk'. apply Hbig. lia. }
    set (mid := lo + (hi - lo) / 2).
    assert (lo <= mid <= hi) as Hmid
      by (unfold mid; pose proof (Z.div_pos (hi - lo) 2); pose proof (Z.div_le_upper_bound (hi - lo) 2 (hi - lo)); lia).
    rewrite keeping_size by lia. cbn [obind fst snd].
    destruct (Z.leb_spec (size mid) limit) as [Hfit|Hbigm].
    + assert (mid + 1 - 1 = mid) as Hm by lia. specialize (IH (mid + 1) hi). rewrite Hm in IH.
      apply IH; try lia; done.
    + apply IH; try lia. intros k Hk. destruct (Z.le_gt_cases k hi); [|apply Hbig; lia].
      pose proof (size_mono mid k ltac:(lia) ltac:(lia)). lia.
Qed.

(** Bounding a screen that decodes and does not fit. *)
Lemma bound_decoded screen n :
  DecodeScreen screen = Ok s -> sizeOf screen = Ok n -> limit < n ->
  (limit < size 0 /\ boundSnapshotScreen sizeOf limit screen = Err ErrSnapshotUnboundable) \/
  exists k, boundSnapshotScreen sizeOf limit screen =
      Ok (kept s k, {| Dropped := total - k; Rewritten := true |}) /\
    0 <= k <= total /\ size k <= limit /\ (forall k', k < k' <= total -> limit < size k').
Proof.
  intros Hd Hn Hl. pose proof (blen_nonneg (Scrollback s)). unfold boundSnapshotScreen. rewrite Hn. cbn [obind].
  replace (n <=? limit) with false by lia. rewrite Hd. cbn [lift_wire obind].
  rewrite keeping_size by lia. cbn [obind fst snd]. destruct (Z.ltb_spec limit (size 0)) as [H0|H0]; [by left|]. right.
  destruct (search_spec (length (Scrollback s)) 1 total) as (k & Hs & Hk & Hf & Hm).
  - lia. - lia. - unfold blen. lia. - done. - lia.
  - change (1 - 1) with 0 in Hs. rewrite Hs. cbn [obind fst snd]. by exists k.
Qed.
End search.

Lemma set_scrollback_newest s k :
  0 <= k <= blen (Scrollback s) -> exists older,
    Scrollback s = older ++ Scrollback (set_scrollback s (newest k (Scrollback s))) /\ blen older = blen (Scrollback s) - k.
Proof.
  intros Hk. exists (take (Z.to_nat (blen (Scrollback s) - k)) (Scrollback s)). cbn [set_scrollback Scrollback].
  unfold newest. rewrite take_drop. split; [done|]. unfold blen in *. rewrite length_take. lia.
Qed.

(** ** Properties *)

(** Bounding a snapshot keeps the live screen and the longest history that
    fits: for a size that grows with the encoded length, a screen that fits is
    returned untouched; otherwise the result fits the limit, decodes to the same
    screen with only its oldest scrollback lines dropped, as many as reported,
    and keeping one line more would not fit; it is refused only when it does not
    decode, or when the screen without any scrollback is already too large.  The
    search always terminates. *)
Theorem snapshot_bound_optimal (f : Z -> Z) (limit : Z) (screen : bytes) :
  go_slice screen -> (forall x y, 0 <= x <= y -> f x <= f y) -> (forall x, 0 <= x -> x <= f x) -> limit < 2 ^ 63 ->
  match boundSnapshotScreen (fun b => Ok (f (blen b))) limit screen with
  | Ok (out, r) =>
      f (blen out) <= limit /\
      ((out = screen /\ r = noBound) \/
       exists s s' older,
         DecodeScreen screen = Ok s /\ DecodeScreen out = Ok s' /\ limit < f (blen screen) /\
         Scrollback s = older ++ Scrollback s' /\ s' = set_scrollback s (Scrollback s') /\
         r = {| Dropped := blen older; Rewritten := true |} /\
         (forall l more, older = l ++ more -> more <> [] ->
            exists b, Screen_Encode (set_scrollback s (more ++ Scrollback s')) = Ok b /\ limit < f (blen b)))
  | Err (BoundWire e) => DecodeScreen screen = Err e /\ IsFramingErr e = true
  | Err ErrSnapshotUnboundable =>
      exists s b, DecodeScreen screen = Ok s /\ Screen_Encode (set_scrollback s []) = Ok b /\ limit < f (blen b)
  | Err (BoundShim _) => False
  | Panic => False
  end.
Proof.
  intros Hg Hm Hge Hlim. set (sizeOf := fun b => Ok (f (blen b)) : outcome BoundError Z).
  assert (forall b, sizeOf b = Ok (f (blen b))) as Hsz by done.
  destruct (Z.le_gt_cases (f (blen screen)) limit) as [Hfit|Hbig].
  { unfold boundSnapshotScreen. rewrite Hsz. cbn [obind]. replace (f (blen screen) <=? limit) with true by lia.
    split; [done | by left]. }
  pose proof (DecodeScreen_safe screen Hg) as Hsafe. destruct (DecodeScreen screen) as [s|e|] eqn:Hd.
  2: { unfold boundSnapshotScreen. rewrite Hsz. cbn [obind]. replace (f (blen screen) <=? limit) with false by lia.
       rewrite Hd. cbn [lift_wire obind]. by split. }
  2: done.
  cbn in Hsafe.
  destruct (bound_decoded sizeOf limit s (fun k => f (blen (kept s k))) Hsafe) with (screen := screen) (n := f (blen screen))
    as [[H0 Hb]|(k & Hb & Hk & Hf & Hmax)]; try done.
  { intros j k Hj Hk. apply Hm. split; [apply blen_nonneg | by apply screen_bytes_mono]. }
  2: {
    rewrite Hb. split; [done|]. right.
    destruct (set_scrollback_newest s k Hk) as (older & Hsplit & Holder).
    pose proof (set_scrollback_wf s k Hsafe Hk) as Hwf.
    exists s, (set_scrollback s (newest k (Scrollback s))), older. split; [done|].
    assert (blen (kept s k) < 2 ^ 63) as Hl63 by (pose proof (Hge (blen (kept s k)) (blen_nonneg _)); lia).
    split; [by apply DecodeScreen_bytes|]. split; [lia|]. split; [done|]. split; [done|]. split; [by rewrite Holder|].
    intros l more Hmore Hne. set (k' := k + blen more).
    assert (0 < blen more) as Hpos
      by (pose proof (blen_nonneg more); destruct (Z.eq_dec (blen more) 0) as [E|]; [by apply blen_0_inv in E | lia]).
    assert (k' <= blen (Scrollback s)) as Hk'.
    { rewrite Hmore, blen_app in Holder. pose proof (blen_nonneg l). unfold k'. lia. }
    assert (newest k' (Scrollback s) = more ++ newest k (Scrollback s)) as Hn.
    { unfold newest at 1. rewrite Hsplit at 2. rewrite Hmore, <- app_assoc. cbn [set_scrollback Scrollback].
      rewrite Hmore, blen_app in Holder.
      replace (Z.to_nat (blen (Scrollback s) - k')) with (length l) by (unfold k', blen in *; lia).
      by rewrite drop_app_length. }
    exists (kept s k'). cbn [set_scrollback Scrollback] in *. rewrite <- Hn.
    split; [|apply Hmax; unfold k'; lia]. apply Screen_Encode_eq, set_scrollback_wf; [done | lia].
  }
  rewrite Hb. exists s, (kept s 0). split; [done|].
  assert (newest 0 (Scrollback s) = []) as Hn0
    by (unfold newest; rewrite Z.sub_0_r, to_nat_blen; apply drop_all).
  split; [|done]. rewrite <- Hn0. apply Screen_Encode_eq, set_scrollback_wf; [done|].
  pose proof (blen_nonneg (Scrollback s)). lia.
Qed.

Definition sample_snap : bytes := screen_bytes sample_screen.

Lemma sample_snap_ok : go_slice sample_snap.
Proof. split; [vm_compute; reflexivity | apply screen_bytes_ok, sample_screen_wf]. Qed.

(** The sample screen one byte over the limit loses its oldest line. *)
Lemma snapshot_bound_optimal_witness :
  boundSnapshotScreen (fun b => Ok (28 + blen b)) (27 + blen sample_snap) sample_snap =
    Ok (kept sample_screen 1, {| Dropped := 1; Rewritten := true |}) /\
  28 + blen (kept sample_screen 1) <= 27 + blen sample_snap.
Proof.
  assert (boundSnapshotScreen (fun b => Ok (28 + blen b)) (27 + blen sample_snap) sample_snap =
    Ok (kept sample_screen 1, {| Dropped := 1; Rewritten := true |})) as E by (vm_compute; reflexivity).
  split; [exact E|].
  pose proof (snapshot_bound_optimal (fun n => 28 + n) (27 + blen sample_snap) sample_snap) as H.
  cbv beta in H. rewrite E in H. apply H.
  - apply sample_snap_ok.
  - lia.
  - lia.
  - vm_compute. reflexivity.
Defined.

(** ** The host-frame sender *)

(** The frame that carries the newest [k] lines. *)
Definition kept_frame (frame : Frame) (env : SnapshotEnvelope) (s : Screen) (k : Z) : Frame :=
  snapshotFrameWithScreen frame env (kept s k).

Lemma envelope_roundtrip env :
  envelope_wf env -> blen (SnapshotEnvelope_Encode env) < 2 ^ 63 ->
  DecodeSnapshotEnvelope (SnapshotEnvelope_Encode env) = Ok env.
Proof. intros Hw Hl. exact (dec_enc (A := SnapshotEnvelope) env _ Hw eq_refl Hl). Qed.

Lemma EncodeFrame_blen f :
  frame_wf f ->
  blen (EncodeFrame f) = 1 + blen (uvarint_bytes (Seq f)) + blen (uvarint_bytes (RelTime f)) + blen (Payload f).
Proof. intros Hf. rewrite EncodeFrame_eq by done. autorewrite with go. lia. Qed.

Lemma envelope_blen env :
  blen (SnapshotEnvelope_Encode env) =
  blen (uvarint_bytes (EnvAtSeq env)) + 1 + blen (uvarint_bytes (u64 (blen (Snap env)))) + blen (Snap env).
Proof. unfold SnapshotEnvelope_Encode, AppendUvarint. autorewrite with go. lia. Qed.

(** A snapshot frame of a well-formed screen, as the session host emits it. *)
Definition snapshot_frame (f : Frame) (env : SnapshotEnvelope) (s : Screen) : Prop :=
  Type_ f = TypeSnapshot /\ 0 < Seq f < 2 ^ 64 /\ u64_ok (RelTime f) /\
  u64_ok (EnvAtSeq env) /\ SnapFormat env = SnapFormatScreen /\ screen_wf s /\
  Snap env = screen_bytes s /\ blen (screen_bytes s) < 2 ^ 62 /\ Payload f = SnapshotEnvelope_Encode env.

Lemma kept_total s : kept s (blen (Scrollback s)) = screen_bytes s.
Proof. unfold kept, newest. rewrite Z.sub_diag, drop_0. by destruct s. Qed.

Lemma kept_le s k : 0 <= k <= blen (Scrollback s) -> blen (kept s k) <= blen (screen_bytes s).
Proof. intros Hk. rewrite <- kept_total. by apply screen_bytes_mono. Qed.

Section kept_frames.
Context (f : Frame) (env : SnapshotEnvelope) (s : Screen).
Hypothesis Hsf : snapshot_frame f env s.

Lemma kept_env_wf k :
  0 <= k <= blen (Scrollback s) ->
  envelope_wf {| EnvAtSeq := EnvAtSeq env; SnapFormat := SnapFormat env; Snap := kept s k |}.
Proof.
  destruct Hsf as (_ & _ & _ & Ha & Hsf' & Hs & _ & Hl & _). intros Hk. pose proof (kept_le s k Hk).
  split; [exact Ha|]. cbn [SnapFormat Snap]. rewrite Hsf'. split; [unfold u8_ok, SnapFormatScreen; lia|].
  split; [lia|]. apply screen_bytes_ok, set_scrollback_wf; done.
Qed.

Lemma kept_payload_blen k :
  0 <= k <= blen (Scrollback s) ->
  blen (Payload (kept_frame f env s k)) =
    blen (uvarint_bytes (EnvAtSeq env)) + 1 + blen (uvarint_bytes (blen (kept s k))) + blen (kept s k) /\
  blen (Payload (kept_frame f env s k)) < 2 ^ 62 + 21.
Proof.
  intros Hk. pose proof (kept_le s k Hk) as Hle. destruct Hsf as (_ & _ & _ & Ha & _ & _ & _ & Hl & _).
  unfold kept_frame, snapshotFrameWithScreen. cbn [Payload]. rewrite envelope_blen. cbn [EnvAtSeq Snap].
  pose proof (blen_nonneg (kept s k)). rewrite u64_small by (unfold u64_ok; lia). split; [done|].
  pose proof (uvarint_bytes_nonempty _ Ha). pose proof (uvarint_bytes_nonempty (blen (kept s k))) as Hu.
  unfold MaxVarintLen in *. specialize (Hu ltac:(unfold u64_ok; lia)). lia.
Qed.

Lemma kept_frame_wf k : 0 <= k <= blen (Scrollback s) -> frame_wf (kept_frame f env s k).
Proof.
  intros Hk. pose proof (kept_env_wf k Hk) as He. destruct Hsf as (Ht & Hq & Hr & _).
  split; [cbn; by rewrite Ht|]. split; [cbn; unfold u64_ok; lia|]. split; [exact Hr|].
  cbn [kept_frame snapshotFrameWithScreen Payload].
  exact (enc_bytes (A := SnapshotEnvelope) _ _ He eq_refl).
Qed.

Lemma kept_frame_size j k :
  0 <= j <= k -> k <= blen (Scrollback s) ->
  blen (EncodeFrame (kept_frame f env s j)) <= blen (EncodeFrame (kept_frame f env s k)).
Proof.
  intros Hj Hk. rewrite !EncodeFrame_blen by (apply kept_frame_wf; lia).
  rewrite (proj1 (kept_payload_blen j ltac:(lia))), (proj1 (kept_payload_blen k ltac:(lia))). cbn [kept_frame snapshotFrameWithScreen Seq RelTime].
  pose proof (screen_bytes_mono s j k Hj Hk) as Hm. fold (kept s j) (kept s k) in Hm.
  pose proof (uvarint_bytes_mono (blen (kept s j)) (blen (kept s k)) ltac:(pose proof (blen_nonneg (kept s j)); lia)). lia.
Qed.

Lemma kept_frame_total : kept_frame f env s (blen (Scrollback s)) = f.
Proof.
  destruct Hsf as (_ & _ & _ & _ & _ & _ & Hsn & _ & Hp). unfold kept_frame, snapshotFrameWithScreen.
  rewrite kept_total, <- Hsn. destruct f as [t q r p], env as [a sf sn]. cbn [Type_ Seq RelTime Payload EnvAtSeq SnapFormat Snap] in *.
  by rewrite Hp.
Qed.

(** A frame of this family that fits is accepted as a host frame. *)
Lemma kept_frame_host id k :
  u64_ok id -> 0 <= k <= blen (Scrollback s) -> blen (EncodeFrame (kept_frame f env s k)) <= MaxHostFrameBytes ->
  exists body, EncodeHostFrame {| hf_RequestID := id; FrameBytes := EncodeFrame (kept_frame f env s k) |} = Ok body /\
    DecodeHostFrame body = Ok {| hf_RequestID := id; FrameBytes := EncodeFrame (kept_frame f env s k) |} /\
    1 + blen body <= MaxMessageBytes.
Proof.
  intros Hi Hk Hl. set (h := {| hf_RequestID := id; FrameBytes := _ |}).
  pose proof (kept_frame_wf k Hk) as Hw. pose proof (EncodeFrame_blen _ Hw) as Hb.
  pose proof (blen_nonneg (uvarint_bytes (Seq (kept_frame f env s k)))).
  pose proof (blen_nonneg (uvarint_bytes (RelTime (kept_frame f env s k)))).
  pose proof (blen_nonneg (Payload (kept_frame f env s k))).
  assert (validateHostFrame h = Ok tt) as Hv.
  { unfold validateHostFrame, h. cbn [FrameBytes hf_RequestID].
    replace (blen _ =? 0) with false by lia. replace (MaxHostFrameBytes <? _) with false by lia.
    rewrite DecodeFrame_EncodeFrame by (try assumption; change MaxHostFrameBytes with 1048567 in Hl; lia).
    rewrite bytes_eqb_refl. cbn [negb]. destruct Hsf as (Ht & Hq & _).
    change (Seq (kept_frame f env s k)) with (Seq f). change (Type_ (kept_frame f env s k)) with (Type_ f).
    replace (Seq f =? 0) with false by lia. rewrite Ht. cbn [Z.eqb TypeSnapshot TypeOutput TypeResize TypeMarker Pos.eqb].
    cbn [kept_frame snapshotFrameWithScreen Payload].
    rewrite envelope_roundtrip; [done | by apply kept_env_wf|]. pose proof (proj2 (kept_payload_blen k Hk)) as Hp.
    cbn [kept_frame snapshotFrameWithScreen Payload] in Hp. lia. }
  assert (host_frame_wf h) as Hh.
  { split; [exact Hi|]. split; [by apply EncodeFrame_bytes | cbn [FrameBytes h]; lia]. }
  exists (PutUint64 id ++ EncodeFrame (kept_frame f env s k)).
  assert (EncodeHostFrame h = Ok (PutUint64 id ++ EncodeFrame (kept_frame f env s k))) as He
    by (unfold EncodeHostFrame; by rewrite Hv).
  split; [exact He|]. split; [apply (sh_enc_dec (ShimCodec := HostFrame_codec) h _ Hh He)|].
  rewrite blen_app, PutUint64_blen. unfold MaxHostFrameBytes, hostFrameHeaderLen in Hl. lia.
Qed.

Lemma kept_frame_too_large id k :
  0 <= k <= blen (Scrollback s) -> MaxHostFrameBytes < blen (EncodeFrame (kept_frame f env s k)) ->
  EncodeHostFrame {| hf_RequestID := id; FrameBytes := EncodeFrame (kept_frame f env s k) |} = Err (Wrapped [ErrMessageTooLarge]).
Proof.
  intros Hk Hl. unfold EncodeHostFrame, validateHostFrame. cbn [FrameBytes].
  change MaxHostFrameBytes with 1048567 in *. replace (_ =? 0) with false by lia.
  by replace (1048567 <? _) with true by lia.
Qed.
End kept_frames.

(** What the sender returns: the longest of the frames that fits. *)
Lemma hostFrameBody_spec id f env s :
  u64_ok id -> snapshot_frame f env s -> blen (EncodeFrame (kept_frame f env s 0)) <= MaxHostFrameBytes ->
  exists body k, hostFrameBody id f = Ok body /\ 0 <= k <= blen (Scrollback s) /\
    EncodeHostFrame {| hf_RequestID := id; FrameBytes := EncodeFrame (kept_frame f env s k) |} = Ok body /\
    blen (EncodeFrame (kept_frame f env s k)) <= MaxHostFrameBytes /\
    (forall k', k < k' <= blen (Scrollback s) -> MaxHostFrameBytes < blen (EncodeFrame (kept_frame f env s k'))).
Proof.
  intros Hi Hsf H0. pose proof (blen_nonneg (Scrollback s)) as Hn. unfold hostFrameBody.
  pose proof (kept_frame_total f env s Hsf) as Htot.
  destruct (Z.le_gt_cases (blen (EncodeFrame f)) MaxHostFrameBytes) as [Hfit|Hbig].
  { destruct (kept_frame_host f env s Hsf id (blen (Scrollback s)) Hi ltac:(lia)) as (body & He & _); [by rewrite Htot|].
    exists body, (blen (Scrollback s)). rewrite Htot in He |- *. rewrite He. split; [done|]. split; [lia|].
    split; [done|]. split; [done | lia]. }
  pose proof (kept_frame_too_large f env s id (blen (Scrollback s)) ltac:(lia)) as Herr. rewrite Htot in Herr.
  rewrite Herr by lia. change (errors_Is (Wrapped [ErrMessageTooLarge]) ErrMessageTooLarge) with true. cbn [negb].
  unfold boundSnapshotFrame. cbn [obind]. replace (_ <=? _) with false by lia.
  pose proof Hsf as (Ht & _ & _ & Ha & Hfo & Hs & Hsn & Hl & Hp). rewrite Ht, Z.eqb_refl. cbn [negb].
  assert (DecodeSnapshotEnvelope (Payload f) = Ok env) as Hde.
  { rewrite Hp. pose proof (kept_payload_blen f env s Hsf (blen (Scrollback s)) ltac:(lia)) as [_ Hpb].
    rewrite Htot, Hp in Hpb. apply envelope_roundtrip; [|lia].
    pose proof (kept_env_wf f env s Hsf (blen (Scrollback s)) ltac:(lia)) as He. rewrite kept_total, <- Hsn in He.
    by destruct env. }
  rewrite Hde. cbn [lift_wire obind]. rewrite Hfo, Z.eqb_refl. cbn [negb].
  set (sizeOf := fun screen => Ok (blen (EncodeFrame (snapshotFrameWithScreen f env screen))) : outcome BoundError Z).
  destruct (bound_decoded sizeOf MaxHostFrameBytes s (fun k => blen (EncodeFrame (kept_frame f env s k))) Hs)
    with (screen := Snap env) (n := blen (EncodeFrame f)) as [[Hbad _]|(k & Hb & Hk & Hf & Hm)].
  - done.
  - intros j k Hj Hk. by apply kept_frame_size.
  - rewrite Hsn. apply DecodeScreen_bytes; [done | lia].
  - unfold sizeOf. rewrite Hsn, <- kept_total. fold (kept_frame f env s (blen (Scrollback s))). by rewrite Htot.
  - lia.
  - lia.
  - change (fun screen => Ok (blen (EncodeFrame (snapshotFrameWithScreen f env screen)))) with sizeOf.
    rewrite Hb. cbn [obind fst]. fold (kept_frame f env s k).
    destruct (kept_frame_host f env s Hsf id k Hi Hk Hf) as (body & He & _). rewrite He. cbn [lift_shim].
    by exists body, k.
Qed.

(** C31. An oversized snapshot never severs the carrier: whenever the live screen
    fits, the shim sends the snapshot frame in one message of at most 1 MiB, and
    the peer decodes a frame with the same type, sequence, time and request id
    and a screen equal to the session's with its oldest scrollback lines
    dropped, none of them when the original frame fits and no more than the bound
    requires otherwise. *)
Theorem host_snapshot_fits (id : Z) (f : Frame) (env : SnapshotEnvelope) (s : Screen) :
  u64_ok id -> snapshot_frame f env s -> blen (EncodeFrame (kept_frame f env s 0)) <= MaxHostFrameBytes ->
  exists body f' s' older,
    hostFrameBody id f = Ok body /\ 1 + blen body <= MaxMessageBytes /\
    DecodeHostFrame body = Ok {| hf_RequestID := id; FrameBytes := EncodeFrame f' |} /\
    DecodeFrame (EncodeFrame f') = Ok f' /\
    Type_ f' = TypeSnapshot /\ Seq f' = Seq f /\ RelTime f' = RelTime f /\
    DecodeSnapshotEnvelope (Payload f') =
      Ok {| EnvAtSeq := EnvAtSeq env; SnapFormat := SnapFormatScreen; Snap := screen_bytes s' |} /\
    DecodeScreen (screen_bytes s') = Ok s' /\
    s' = set_scrollback s (Scrollback s') /\ Scrollback s = older ++ Scrollback s' /\
    (blen (EncodeFrame f) <= MaxHostFrameBytes -> older = [] /\ f' = f) /\
    (forall k, blen (Scrollback s') < k <= blen (Scrollback s) ->
       MaxHostFrameBytes < blen (EncodeFrame (kept_frame f env s k))).
Proof.
  intros Hi Hsf H0. destruct (hostFrameBody_spec id f env s Hi Hsf H0) as (body & k & Hb & Hk & He & Hf & Hm).
  destruct (kept_frame_host f env s Hsf id k Hi Hk Hf) as (body' & He' & Hd & Hl).
  rewrite He in He'. injection He' as <-. destruct (set_scrollback_newest s k Hk) as (older & Hold & Hlen).
  pose proof Hsf as (Ht & _ & _ & _ & Hfo & Hs & _ & Hl62 & _). pose proof (kept_le s k Hk) as Hle.
  pose proof (kept_payload_blen f env s Hsf k Hk) as [_ Hpl].
  exists body, (kept_frame f env s k), (set_scrollback s (newest k (Scrollback s))), older.
  split; [done|]. split; [done|]. split; [done|].
  split; [apply DecodeFrame_EncodeFrame; [by apply kept_frame_wf | change MaxHostFrameBytes with 1048567 in Hf; lia]|].
  split; [exact Ht|]. split; [done|]. split; [done|]. split.
  { cbn [kept_frame snapshotFrameWithScreen Payload] in *. rewrite envelope_roundtrip; [by rewrite Hfo | | lia].
    by apply (kept_env_wf f env s Hsf). }
  split; [apply DecodeScreen_bytes; [by apply set_scrollback_wf | fold (kept s k); lia]|].
  split; [done|]. split; [done|]. split.
  - intros Hfit. assert (k = blen (Scrollback s)) as ->.
    { destruct (Z.eq_dec k (blen (Scrollback s))) as [|Hne]; [done|].
      pose proof (Hm (blen (Scrollback s)) ltac:(lia)) as Hbad. rewrite kept_frame_total in Hbad by done. lia. }
    split; [apply blen_0_inv; lia | by apply kept_frame_total].
  - cbn [set_scrollback Scrollback]. by rewrite newest_blen.
Qed.

Definition sample_snapshot_env : SnapshotEnvelope :=
  {| EnvAtSeq := 41; SnapFormat := SnapFormatScreen; Snap := screen_bytes sample_screen |}.
Definition sample_snapshot_frame : Frame :=
  {| Type_ := TypeSnapshot; Seq := 42; RelTime := 7; Payload := SnapshotEnvelope_Encode sample_snapshot_env |}.

Lemma sample_snapshot_frame_ok : snapshot_frame sample_snapshot_frame sample_snapshot_env sample_screen.
Proof.
  split; [done|]. split; [cbn; lia|]. split; [unfold u64_ok; cbn; lia|]. split; [unfold u64_ok; cbn; lia|].
  split; [done|]. split; [apply sample_screen_wf|]. split; [done|]. split; [vm_compute; reflexivity | done].
Qed.

Lemma host_snapshot_fits_witness :
  exists body f' s' older,
    hostFrameBody 9 sample_snapshot_frame = Ok body /\ 1 + blen body <= MaxMessageBytes /\
    DecodeHostFrame body = Ok {| hf_RequestID := 9; FrameBytes := EncodeFrame f' |} /\
    Seq f' = 42 /\ Scrollback sample_screen = older ++ Scrollback s'.
Proof.
  destruct (host_snapshot_fits 9 sample_snapshot_frame sample_snapshot_env sample_screen)
    as (body & f' & s' & older & H1 & H2 & H3 & _ & _ & H4 & _ & _ & _ & _ & H5 & _).
  - unfold u64_ok. lia.
  - apply sample_snapshot_frame_ok.
  - vm_compute. discriminate.
  - exists body, f', s', older. split; [exact H1|]. split; [exact H2|]. split; [exact H3|].
    split; [exact H4 | exact H5].
Defined.
