(* ===== verification/Continuation.v ===== *)
(** * Continuation: transferring a checkpoint over the shim connection
    ([src/sessionshim/checkpoint.go])

    The controller asks for the complete state of a session; the shim encodes
    one checkpoint, cuts it into chunks that carry the digest of the whole, and
    keeps them for an exact retry; the controller reassembles the chunks and
    accepts the checkpoint only when it is complete, has the declared digest,
    decodes under the selected schema and belongs to the announced terminal.

    [Sum256] is [crypto/sha256]; [capture] is the session's state at one instant
    and [restores] whether the terminal emulator accepts it. *)

From S2P Require Import Prelude BigEndian Varint Reader Frame Payloads Snapshot Checkpoint ShimWire ShimPayloads ShimControl.

(** [CPanic] stands for a run-time panic, which the properties exclude. *)
Inductive ContinuationError :=
| CShim (e : error)
| CWire (e : WireError)
| CAlreadyPending
| CIdentityExhausted
| CRefused (c : ErrorCode)
| CRefusedAfterPartial
| CNotContiguous
| CChangedIdentity
| CDigestMismatch
| CEpochMismatch
| CRestoreFailed
| COffsetOutOfBounds
| CMissingResult
| CPanic.

(** An error of another package, as one of this file's. *)
Definition cshim {A} (m : outcome error A) : outcome ContinuationError A :=
  match m with Ok a => Ok a | Err e => Err (CShim e) | Panic => Panic end.

(** ** The controller *)

Record continuationCall := {
  call_request : CheckpointRequest;
  call_total : Z;
  call_digest : bytes;
  call_bytes : bytes;
  call_result : option ContinuationCheckpoint;
  call_err : option ContinuationError;
  call_completed : bool
}.

(** The fields of [Controller] the exchange uses. *)
Record ControllerC := {
  c_selected : Z;
  c_gen : Generation;
  c_capability : option CheckpointCapability;
  c_checkpointCall : option continuationCall;
  c_nextCheckpointID : Z
}.

Definition set_call (c : ControllerC) (call : continuationCall) : ControllerC :=
  {| c_selected := c_selected c; c_gen := c_gen c; c_capability := c_capability c;
     c_checkpointCall := Some call; c_nextCheckpointID := c_nextCheckpointID c |}.

Definition SupportsContinuation (c : ControllerC) : bool :=
  (V5 <=? c_selected c) &&
  match c_capability c with Some cap => bytes_eqb (cap_Schema cap) ContinuationSchema | None => false end.

(** [InspectContinuation] up to the request it hands to the writer: the new call
    and, unless it failed, the body to send. *)
Definition begin_inspect (c : ControllerC) (selected : bytes) : ControllerC * outcome ContinuationError bytes :=
  if negb (SupportsContinuation c) || negb (bytes_eqb selected ContinuationSchema)
  then (c, Err (CShim (Wrapped [ErrVersionMismatch])))
  else if match c_checkpointCall c with Some prior => negb (call_completed prior) | None => false end
  then (c, Err CAlreadyPending)
  else if c_nextCheckpointID c =? 2 ^ 64 - 1 then (c, Err CIdentityExhausted)
  else
    let id := u64 (c_nextCheckpointID c + 1) in
    let req := {| cq_RequestID := id; cq_Generation := c_gen c; cq_Schema := selected |} in
    let body := EncodeCheckpointRequest req in
    let call := {| call_request := req; call_total := 0; call_digest := zeroDigest; call_bytes := []; call_result := None;
                   call_err := match body with Err e => Some (CShim e) | _ => None end;
                   call_completed := match body with Err _ => true | _ => false end |} in
    ({| c_selected := c_selected c; c_gen := c_gen c; c_capability := c_capability c;
        c_checkpointCall := Some call; c_nextCheckpointID := id |},
     cshim body).

(** [writeContinuationRequest]: a request that could not be written fails its
    call. *)
Definition fail_request (c : ControllerC) (err : option error) : ControllerC :=
  match err, c_checkpointCall c with
  | Some e, Some call =>
      if call_completed call then c
      else set_call c {| call_request := call_request call; call_total := call_total call;
                         call_digest := call_digest call; call_bytes := call_bytes call;
                         call_result := call_result call; call_err := Some (CShim e); call_completed := true |}
  | _, _ => c
  end.

(** The end of [InspectContinuation], once the call is done. *)
Definition finish_inspect (c : ControllerC) (selected : bytes) : outcome ContinuationError ContinuationCheckpoint :=
  match c_checkpointCall c with
  | None => Panic
  | Some call =>
      match call_err call, call_result call with
      | Some e, _ => Err e
      | None, None => Err CMissingResult
      | None, Some _ =>
          match DecodeContinuationCheckpoint (call_bytes call) selected with
          | Ok k => Ok k | Err e => Err (CWire e) | Panic => Panic
          end
      end
  end.

Section transfer.
Context (Sum256 : bytes -> bytes) (restores : ContinuationCheckpoint -> bool).

Definition set_chunk (call : continuationCall) (total : Z) (digest bs : bytes) : continuationCall :=
  {| call_request := call_request call; call_total := total; call_digest := digest; call_bytes := bs;
     call_result := call_result call; call_err := call_err call; call_completed := call_completed call |}.

Definition complete_call (call : continuationCall) (r : option ContinuationCheckpoint) (e : option ContinuationError)
    : continuationCall :=
  {| call_request := call_request call; call_total := call_total call; call_digest := call_digest call;
     call_bytes := call_bytes call; call_result := r; call_err := e; call_completed := true |}.

(** The checks on the assembled bytes, after the last chunk. *)
Definition accept_complete (c : ControllerC) (call : continuationCall) : ControllerC * option ContinuationError :=
  if negb (bytes_eqb (Sum256 (call_bytes call)) (call_digest call)) then (set_call c call, Some CDigestMismatch)
  else match DecodeContinuationCheckpoint (call_bytes call) (cq_Schema (call_request call)) with
  | Err e => (set_call c call, Some (CWire e))
  | Panic => (set_call c call, Some CPanic)
  | Ok checkpoint =>
      if match c_capability c with Some cap => negb (CEpoch checkpoint =? cap_HostEpoch cap) | None => true end
      then (set_call c call, Some CEpochMismatch)
      else if negb (restores checkpoint) then (set_call c call, Some CRestoreFailed)
      else (set_call c (complete_call call (Some checkpoint) None), None)
  end.

(** [acceptContinuationChunk]: a returned error makes the read loop close the
    stream. *)
Definition acceptContinuationChunk (c : ControllerC) (body : bytes) : ControllerC * option ContinuationError :=
  match DecodeCheckpointResult body with
  | Panic => (c, Some CPanic)
  | Err e => (c, Some (CShim e))
  | Ok chunk =>
      match c_checkpointCall c with
      | None => (c, Some (CShim (Wrapped [ErrSnapshotMismatch])))
      | Some call =>
          if call_completed call || negb (cr_RequestID chunk =? cq_RequestID (call_request call))
             || negb (cr_Generation chunk =? cq_Generation (call_request call))
          then (c, Some (CShim (Wrapped [ErrSnapshotMismatch])))
          else if negb (bytes_eqb (cr_Code chunk) []) then
            if negb (blen (call_bytes call) =? 0) then (c, Some CRefusedAfterPartial)
            else (set_call c (complete_call call (call_result call) (Some (CRefused (cr_Code chunk)))), None)
          else if negb (cr_Offset chunk =? blen (call_bytes call)) then (c, Some CNotContiguous)
          else if negb (blen (call_bytes call) =? 0) &&
                  (negb (cr_Total chunk =? call_total call) || negb (bytes_eqb (cr_Digest chunk) (call_digest call)))
          then (c, Some CChangedIdentity)
          else
            let first := blen (call_bytes call) =? 0 in
            let call := set_chunk call (if first then cr_Total chunk else call_total call)
                          (if first then cr_Digest chunk else call_digest call) (call_bytes call ++ cr_Bytes chunk) in
            if negb (blen (call_bytes call) =? call_total call) then (set_call c call, None)
            else accept_complete c call
      end
  end.

(** The controller's read loop over the checkpoint messages that arrive. *)
Fixpoint accept_all (c : ControllerC) (bodies : list bytes) : ControllerC * option ContinuationError :=
  match bodies with
  | [] => (c, None)
  | b :: bs =>
      match acceptContinuationChunk c b with
      | (c, Some e) => (c, Some e)
      | (c, None) => accept_all c bs
      end
  end.

(** ** The shim *)

Record connC (W : Type) := {
  k_selected : Z;
  k_checkpointRequest : CheckpointRequest;
  k_checkpointResult : list Message;
  k_w : W
}.
Arguments k_selected {W}.
Arguments k_checkpointRequest {W}.
Arguments k_checkpointResult {W}.
Arguments k_w {W}.

Definition authorized (shimGen gen : Generation) : bool := if gen =? 0 then false else gen =? shimGen.

(** The chunk loop; [fuel] bounds the iterations ([chunk_loop_spec]). *)
Fixpoint chunk_loop (fuel : nat) (req : CheckpointRequest) (total : Z) (digest payload : bytes) (offset : Z)
    : outcome ContinuationError (list Message) :=
  if blen payload <=? offset then Ok []
  else match fuel with
  | O => Panic
  | S fuel' =>
      if (offset <? 0) || (MaxContinuationBytes <? offset) then Err COffsetOutOfBounds
      else
        let fin := Z.min (offset + CheckpointChunkBytes) (blen payload) in
        obind (slice payload offset fin) (fun part =>
        obind (cshim (EncodeCheckpointResult
          {| cr_RequestID := cq_RequestID req; cr_Generation := cq_Generation req; cr_Total := total;
             cr_Offset := u32 offset; cr_Digest := digest; cr_Code := []; cr_Bytes := part |})) (fun b =>
        obind (chunk_loop fuel' req total digest payload (offset + CheckpointChunkBytes)) (fun rest =>
        Ok ({| m_Type := Msg.TypeCheckpointResult; m_Body := b |} :: rest))))
  end.

Context {W : Type} `{Sink W}.
Context (capture : bytes -> option ContinuationCheckpoint) (encodeError : ErrorMsg -> outcome error bytes).

Definition set_ledger (k : connC W) (req : CheckpointRequest) (ms : list Message) : connC W :=
  {| k_selected := k_selected k; k_checkpointRequest := req; k_checkpointResult := ms; k_w := k_w k |}.
Definition set_w (k : connC W) (w : W) : connC W :=
  {| k_selected := k_selected k; k_checkpointRequest := k_checkpointRequest k;
     k_checkpointResult := k_checkpointResult k; k_w := w |}.

(** A write through the connection's writer. *)
Definition writing (k : connC W) (r : W * option error) : connC W * option ContinuationError :=
  (set_w k (fst r), option_map CShim (snd r)).

Definition sendError (k : connC W) (code : ErrorCode) (detail : bytes) : connC W * option ContinuationError :=
  match encodeError {| em_Code := code; em_Detail := detail |} with
  | Ok body => writing k (Writer_Write Msg.TypeError body (k_w k))
  | Err e => (k, Some (CShim e))
  | Panic => (k, Some CPanic)
  end.

(** The closure [refuse]. *)
Definition refuse (k : connC W) (req : CheckpointRequest) (auth : bool) (code : ErrorCode)
    : connC W * option ContinuationError :=
  match EncodeCheckpointResult
    {| cr_RequestID := cq_RequestID req; cr_Generation := cq_Generation req; cr_Total := 0; cr_Offset := 0;
       cr_Digest := zeroDigest; cr_Code := code; cr_Bytes := [] |} with
  | Err e => (k, Some (CShim e))
  | Panic => (k, Some CPanic)
  | Ok b =>
      let k := if auth && (cq_RequestID (k_checkpointRequest k) <? cq_RequestID req)
               then set_ledger k req [{| m_Type := Msg.TypeCheckpointResult; m_Body := b |}] else k in
      writing k (WriteVersion (k_selected k) Msg.TypeCheckpointResult b (k_w k))
  end.

(** [req == ctrl.checkpointRequest] on the three fields. *)
Definition request_eqb (a b : CheckpointRequest) : bool :=
  (cq_RequestID a =? cq_RequestID b) && (cq_Generation a =? cq_Generation b) && bytes_eqb (cq_Schema a) (cq_Schema b).

Definition dispatchContinuationRequest (shimGen : Generation) (k : connC W) (body : bytes)
    : connC W * option ContinuationError :=
  if k_selected k <? V5 then sendError k CodeMalformed (str "continuation requires selected v5")
  else match DecodeCheckpointRequest body with
  | Panic => (k, Some CPanic)
  | Err _ => sendError k CodeMalformed (str "checkpoint request did not decode")
  | Ok req =>
      let auth := authorized shimGen (cq_Generation req) in
      if negb auth then refuse k req auth CodeStaleGeneration
      else if cq_RequestID req <=? cq_RequestID (k_checkpointRequest k) then
        if request_eqb req (k_checkpointRequest k)
        then writing k (WriteVersionBatch (k_selected k) (k_checkpointResult k) (k_w k))
        else refuse k req auth CodeDuplicateChanged
      else match capture (cq_Schema req) with
      | None => refuse k req auth CodeInternal
      | Some checkpoint =>
          match Checkpoint_Encode checkpoint (cq_Schema req) with
          | Err _ => refuse k req auth CodeInternal
          | Panic => (k, Some CPanic)
          | Ok payload =>
              if MaxContinuationBytes <? blen payload then refuse k req auth CodeInternal
              else
                let total := u32 (blen payload) in
                let digest := Sum256 payload in
                match chunk_loop (S (Z.to_nat (blen payload / CheckpointChunkBytes))) req total digest payload 0 with
                | Err e => (k, Some e)
                | Panic => (k, Some CPanic)
                | Ok messages =>
                    let k := set_ledger k req messages in
                    writing k (WriteVersionBatch (k_selected k) messages (k_w k))
                end
          end
      end
  end.
End transfer.
Arguments k_selected {W}.
Arguments k_checkpointRequest {W}.
Arguments k_checkpointResult {W}.
Arguments k_w {W}.

(** ** Lemmas *)

Lemma Chunk_pos : CheckpointChunkBytes = 262144.
Proof. reflexivity. Qed.
Lemma MaxContinuation_eq : MaxContinuationBytes = 20971520.
Proof. reflexivity. Qed.

(** A request the controller may have sent. *)
Definition request_ok (req : CheckpointRequest) : Prop :=
  0 < cq_RequestID req < 2 ^ 64 /\ 0 < cq_Generation req < 2 ^ 64 /\ cq_Schema req = ContinuationSchema.

Lemma request_roundtrip req :
  request_ok req -> exists body, EncodeCheckpointRequest req = Ok body /\ DecodeCheckpointRequest body = Ok req.
Proof.
  intros (Hi & Hg & Hs). exists (checkpoint_request_bytes req).
  assert (EncodeCheckpointRequest req = Ok (checkpoint_request_bytes req)) as He.
  { unfold EncodeCheckpointRequest. replace (cq_RequestID req =? 0) with false by lia.
    replace (cq_Generation req =? 0) with false by lia. rewrite Hs at 1. by rewrite bytes_eqb_refl. }
  split; [done|]. apply (sh_enc_dec (ShimCodec := CheckpointRequest_codec) req _); [|done].
  unfold sh_wf, CheckpointRequest_codec, layout_codec, checkpoint_request_wf. rewrite Hs.
  split; [unfold u64_ok; lia|]. split; [unfold u64_ok; lia|]. split; [|done].
  repeat constructor; vm_compute; (reflexivity || discriminate).
Qed.

Section chunks.
Context (req : CheckpointRequest) (digest payload : bytes).
Hypothesis Hreq : request_ok req.
Hypothesis Hdig : blen digest = 32 /\ bytes_ok digest.
Hypothesis Hpay : 0 < blen payload <= MaxContinuationBytes /\ bytes_ok payload.

(** The chunk at an offset. *)
Definition part_at (offset : Z) : bytes :=
  take (Z.to_nat (Z.min CheckpointChunkBytes (blen payload - offset))) (drop (Z.to_nat offset) payload).
Definition chunk_at (offset : Z) : CheckpointResult :=
  {| cr_RequestID := cq_RequestID req; cr_Generation := cq_Generation req; cr_Total := blen payload;
     cr_Offset := offset; cr_Digest := digest; cr_Code := []; cr_Bytes := part_at offset |}.

Lemma part_at_blen offset :
  0 <= offset < blen payload -> blen (part_at offset) = Z.min CheckpointChunkBytes (blen payload - offset).
Proof.
  intros Ho. unfold part_at, blen in *. rewrite Chunk_pos, length_take, length_drop. lia.
Qed.

Lemma part_at_app offset :
  0 <= offset < blen payload ->
  take (Z.to_nat offset) payload ++ part_at offset = take (Z.to_nat (offset + Z.min CheckpointChunkBytes (blen payload - offset))) payload.
Proof.
  intros Ho. unfold part_at. rewrite Z2Nat.inj_add by (rewrite ?Chunk_pos; lia).
  by rewrite take_take_drop.
Qed.

Lemma chunk_encodes offset :
  0 <= offset < blen payload -> offset mod CheckpointChunkBytes = 0 ->
  EncodeCheckpointResult (chunk_at offset) = Ok (checkpoint_result_bytes (chunk_at offset)) /\
  checkpoint_result_wf (chunk_at offset).
Proof.
  destruct Hreq as (Hi & Hg & _). destruct Hpay as [Hp Hpo]. rewrite MaxContinuation_eq in Hp. intros Ho Hmod.
  pose proof (part_at_blen offset Ho) as Hb. rewrite Chunk_pos in *.
  unfold EncodeCheckpointResult, checkpoint_result_wf.
  cbn [chunk_at cr_RequestID cr_Generation cr_Total cr_Offset cr_Digest cr_Code cr_Bytes]. rewrite Hb, resultCode_empty, Chunk_pos.
  assert (u32 (blen payload - offset) = blen payload - offset) as Hu by (apply Z.mod_small; lia). rewrite Hu.
  change (bytes_eqb [] []) with true. change (bool_decide (is_Some (Some 0))) with true. cbn [negb].
  rewrite MaxContinuation_eq, Hmod.
  replace (_ || _) with false by lia. replace (_ || _) with false by lia. split.
  - unfold checkpoint_result_bytes.
    cbn [chunk_at cr_RequestID cr_Generation cr_Total cr_Offset cr_Digest cr_Code cr_Bytes]. by rewrite resultCode_empty.
  - split; [unfold u64_ok; lia|]. split; [unfold u64_ok; lia|]. split; [unfold u32_ok; lia|].
    split; [unfold u32_ok; lia|]. split; [apply Hdig|]. split; [apply Hdig|]. split; [by eexists|].
    split; [unfold part_at; by apply Forall_take, Forall_drop | lia].
Qed.

Lemma chunk_message_ok v offset :
  V5 <= v <= V6 -> 0 <= offset < blen payload -> offset mod CheckpointChunkBytes = 0 ->
  message_ok v {| m_Type := Msg.TypeCheckpointResult; m_Body := checkpoint_result_bytes (chunk_at offset) |}.
Proof.
  intros Hv Ho Hmod. destruct (chunk_encodes offset Ho Hmod) as [He Hw].
  split; [cbn [m_Type]; unfold AllowedIn, V5, V6 in *; cbn; lia|]. cbn [m_Body]. split.
  - unfold checkpoint_result_bytes. cbn [chunk_at cr_RequestID cr_Generation cr_Total cr_Offset cr_Digest cr_Code cr_Bytes].
    autorewrite with go. rewrite (proj1 Hdig), (part_at_blen offset Ho), Chunk_pos, MaxMessageBytes_eq. lia.
  - apply (sh_enc_dec (ShimCodec := CheckpointResult_codec) _ _ Hw He).
Qed.

(** A pending call that has received the first [offset] bytes. *)
Definition receiving (call : continuationCall) (offset : Z) : Prop :=
  call_request call = req /\ call_completed call = false /\ call_bytes call = take (Z.to_nat offset) payload /\
  (offset = 0 \/ call_total call = blen payload /\ call_digest call = digest).

Lemma accept_chunk Sum256 restores c call offset :
  c_checkpointCall c = Some call -> receiving call offset ->
  0 <= offset < blen payload -> offset mod CheckpointChunkBytes = 0 ->
  let next := offset + Z.min CheckpointChunkBytes (blen payload - offset) in
  let call' := set_chunk call (blen payload) digest (take (Z.to_nat next) payload) in
  acceptContinuationChunk Sum256 restores c (checkpoint_result_bytes (chunk_at offset)) =
    if next =? blen payload then accept_complete Sum256 restores c call' else (set_call c call', None).
Proof.
  intros Hc (Hr & Hnc & Hb & Hid) Ho Hmod. cbv zeta. destruct (chunk_encodes offset Ho Hmod) as [He Hw].
  unfold acceptContinuationChunk.
  assert (DecodeCheckpointResult (checkpoint_result_bytes (chunk_at offset)) = Ok (chunk_at offset)) as ->
    by exact (proj2 (sh_enc_dec (ShimCodec := CheckpointResult_codec) _ _ Hw He)).
  rewrite Hc, Hnc, Hr.
  cbn [chunk_at cr_RequestID cr_Generation cr_Total cr_Offset cr_Digest cr_Code cr_Bytes]. rewrite !Z.eqb_refl.
  change (bytes_eqb [] []) with true. cbn [orb negb].
  assert (blen (call_bytes call) = offset) as Hlen by (rewrite Hb; unfold blen in *; rewrite length_take; lia).
  rewrite Hlen, Z.eqb_refl. cbn [negb].
  assert (negb (offset =? 0) && (negb (blen payload =? call_total call) || negb (bytes_eqb digest (call_digest call))) = false) as ->.
  { destruct Hid as [-> | [-> ->]]; [done|]. rewrite Z.eqb_refl, bytes_eqb_refl. cbn. apply andb_false_r. }
  rewrite Hb, part_at_app by done.
  assert (set_chunk call (if offset =? 0 then blen payload else call_total call)
            (if offset =? 0 then digest else call_digest call) = set_chunk call (blen payload) digest) as ->.
  { destruct (Z.eqb_spec offset 0); [done|]. by destruct Hid as [? | [-> ->]]. }
  cbn [set_chunk call_bytes call_total].
  set (next := offset + _). assert (0 <= next <= blen payload) as Hn by (unfold next; rewrite Chunk_pos; lia).
  assert (blen (take (Z.to_nat next) payload) = next) as -> by (unfold blen in *; rewrite length_take; lia).
  by destruct (next =? blen payload).
Qed.

(** The messages of a transfer from an offset on. *)
Fixpoint chunk_msgs (fuel : nat) (offset : Z) : list Message :=
  if blen payload <=? offset then []
  else match fuel with
  | O => []
  | S fuel' => {| m_Type := Msg.TypeCheckpointResult; m_Body := checkpoint_result_bytes (chunk_at offset) |}
                 :: chunk_msgs fuel' (offset + CheckpointChunkBytes)
  end.

Definition aligned (fuel : nat) (offset : Z) : Prop :=
  0 <= offset /\ offset mod CheckpointChunkBytes = 0 /\ blen payload - offset <= Z.of_nat fuel * CheckpointChunkBytes.

Lemma aligned_next fuel offset : aligned (S fuel) offset -> aligned fuel (offset + CheckpointChunkBytes).
Proof.
  unfold aligned. rewrite Chunk_pos. intros (H0 & Hm & Hf). split; [lia|]. split; [|lia].
  rewrite Z.add_mod, Hm by lia. reflexivity.
Qed.

Lemma chunk_loop_spec fuel offset :
  aligned fuel offset -> chunk_loop fuel req (blen payload) digest payload offset = Ok (chunk_msgs fuel offset).
Proof.
  revert offset. induction fuel as [|fuel IH]; intros offset Ha; cbn [chunk_loop chunk_msgs].
  - destruct Ha as (_ & _ & Hf). rewrite Chunk_pos in Hf. by replace (blen payload <=? offset) with true by lia.
  - destruct (Z.leb_spec (blen payload) offset) as [|Hlt]; [done|]. rewrite IH by by apply aligned_next.
    destruct Ha as (H0 & Hm & _). destruct Hpay as [Hp _].
    replace ((offset <? 0) || (MaxContinuationBytes <? offset)) with false by lia. cbv zeta.
    assert (slice payload offset (Z.min (offset + CheckpointChunkBytes) (blen payload)) =
            Ok (E := ContinuationError) (part_at offset)) as ->.
    { unfold slice, part_at. rewrite Chunk_pos.
      match goal with |- context [if ?x then _ else _] => replace x with true by lia end.
      do 3 f_equal. lia. }
    cbn [obind]. rewrite MaxContinuation_eq in Hp.
    assert (u32 offset = offset) as -> by (apply Z.mod_small; lia).
    fold (chunk_at offset). rewrite (proj1 (chunk_encodes offset ltac:(lia) Hm)). done.
Qed.

Lemma chunk_msgs_ok v fuel offset :
  V5 <= v <= V6 -> aligned fuel offset -> Forall (message_ok v) (chunk_msgs fuel offset).
Proof.
  intros Hv. revert offset. induction fuel as [|fuel IH]; intros offset Ha; cbn [chunk_msgs].
  - by destruct (_ <=? _).
  - destruct (Z.leb_spec (blen payload) offset); [done|]. constructor; [|by apply IH, aligned_next].
    destruct Ha as (H0 & Hm & _). by apply chunk_message_ok.
Qed.

Lemma accept_chunks Sum256 restores fuel offset c call :
  c_checkpointCall c = Some call -> receiving call offset -> offset < blen payload -> aligned fuel offset ->
  accept_all Sum256 restores c (map m_Body (chunk_msgs fuel offset)) =
    accept_complete Sum256 restores c (set_chunk call (blen payload) digest payload).
Proof.
  revert offset c call. induction fuel as [|fuel IH]; intros offset c call Hc Hr Hlt Ha.
  { destruct Ha as (_ & _ & Hf). rewrite Chunk_pos in Hf. lia. }
  cbn [chunk_msgs]. replace (blen payload <=? offset) with false by lia. cbn [map m_Body accept_all].
  pose proof Ha as (H0 & Hm & _). rewrite (accept_chunk Sum256 restores c call offset Hc Hr) by (done || lia).
  set (next := offset + Z.min CheckpointChunkBytes (blen payload - offset)).
  destruct (Z.eqb_spec next (blen payload)) as [He|Hne].
  - assert (chunk_msgs fuel (offset + CheckpointChunkBytes) = []) as ->.
    { destruct fuel; cbn [chunk_msgs]; replace (_ <=? _) with true by (unfold next in He; rewrite Chunk_pos in *; lia); done. }
    assert (take (Z.to_nat next) payload = payload) as -> by (rewrite He, to_nat_blen; apply firstn_all).
    cbn [map accept_all]. by destruct (accept_complete _ _ _ _) as [? []].
  - assert (next = offset + CheckpointChunkBytes) as Hn by (unfold next in *; rewrite Chunk_pos in *; lia).
    set (call' := set_chunk call (blen payload) digest (take (Z.to_nat next) payload)).
    rewrite (IH _ _ call'); [done | done | | | by apply aligned_next].
    + destruct Hr as (Hrq & Hnc & _ & _). rewrite <- Hn. split; [done|]. split; [done|]. split; [done|]. by right.
    + rewrite <- Hn. unfold next in *. rewrite Chunk_pos in *. lia.
Qed.

(** A strict prefix of the chunks leaves the call pending and without a result. *)
Lemma accept_prefix Sum256 restores fuel offset c call j :
  c_checkpointCall c = Some call -> receiving call offset -> aligned fuel offset ->
  (j < length (chunk_msgs fuel offset))%nat ->
  exists call', accept_all Sum256 restores c (take j (map m_Body (chunk_msgs fuel offset))) = (set_call c call', None) /\
    call_completed call' = false /\ call_result call' = call_result call /\ call_request call' = call_request call.
Proof.
  revert offset c call j. induction fuel as [|fuel IH]; intros offset c call j Hc Hr Ha Hj.
  { cbn [chunk_msgs] in Hj. destruct (_ <=? _) in Hj; cbn in Hj; lia. }
  cbn [chunk_msgs] in *. destruct (Z.leb_spec (blen payload) offset) as [|Hlt]; [cbn in Hj; lia|].
  destruct j as [|j].
  { exists call. cbn [take accept_all]. split; [destruct c; cbn in *; by rewrite Hc|].
    destruct Hr as (_ & Hnc & _). done. }
  cbn [map m_Body take accept_all length] in *. pose proof Ha as (H0 & Hm & _).
  rewrite (accept_chunk Sum256 restores c call offset Hc Hr) by (done || lia).
  set (next := offset + Z.min CheckpointChunkBytes (blen payload - offset)).
  destruct (Z.eqb_spec next (blen payload)) as [He|Hne].
  - assert (chunk_msgs fuel (offset + CheckpointChunkBytes) = []) as Hnil.
    { destruct fuel; cbn [chunk_msgs]; replace (_ <=? _) with true by (unfold next in He; rewrite Chunk_pos in *; lia); done. }
    rewrite Hnil in Hj. cbn in Hj. lia.
  - assert (next = offset + CheckpointChunkBytes) as Hn by (unfold next in *; rewrite Chunk_pos in *; lia).
    set (call' := set_chunk call (blen payload) digest (take (Z.to_nat next) payload)).
    destruct (IH (offset + CheckpointChunkBytes) (set_call c call') call' j) as (call'' & Ha' & Hn' & Hr' & Hq').
    + done.
    + destruct Hr as (Hrq & Hnc & _ & _). rewrite <- Hn. split; [done|]. split; [done|]. split; [done|]. by right.
    + by apply aligned_next.
    + lia.
    + exists call''. rewrite Ha'. done.
Qed.
End chunks.

(** ** Safety of the assembly *)

(** What a call that carries a result has checked. *)
Definition call_sound (Sum256 : bytes -> bytes) (restores : ContinuationCheckpoint -> bool) (c : ControllerC)
    (call : continuationCall) : Prop :=
  forall cp, call_result call = Some cp ->
    call_completed call = true /\ call_err call = None /\ Sum256 (call_bytes call) = call_digest call /\
    DecodeContinuationCheckpoint (call_bytes call) (cq_Schema (call_request call)) = Ok cp /\
    blen (call_bytes call) = call_total call /\ restores cp = true /\
    exists cap, c_capability c = Some cap /\ CEpoch cp = cap_HostEpoch cap.

Definition controller_sound Sum256 restores (c : ControllerC) : Prop :=
  match c_checkpointCall c with
  | Some call => call_sound Sum256 restores c call /\ (call_completed call = false -> call_result call = None /\ call_err call = None)
  | None => True
  end.

Lemma set_call_sound Sum256 restores c call :
  call_sound Sum256 restores c call ->
  (call_completed call = false -> call_result call = None /\ call_err call = None) ->
  controller_sound Sum256 restores (set_call c call).
Proof. done. Qed.

Lemma accept_complete_sound Sum256 restores c call c' e :
  accept_complete Sum256 restores c call = (c', e) ->
  call_result call = None -> call_err call = None -> blen (call_bytes call) = call_total call ->
  controller_sound Sum256 restores c' /\ c_capability c' = c_capability c.
Proof.
  intros Ha Hr He Hl. assert (call_sound Sum256 restores c call) as Hs by (intros cp; congruence).
  unfold accept_complete in Ha.
  destruct (bytes_eqb (Sum256 _) _) eqn:Hd; cbn [negb] in Ha; [|injection Ha as <- <-; by split; [apply set_call_sound|]].
  destruct (DecodeContinuationCheckpoint _ _) as [cp| |] eqn:Hdec; try (injection Ha as <- <-; by split; [apply set_call_sound|]).
  destruct (c_capability c) as [cap|] eqn:Hcap; [|injection Ha as <- <-; by split; [apply set_call_sound|]].
  destruct (Z.eqb_spec (CEpoch cp) (cap_HostEpoch cap)) as [Hep|]; cbn [negb] in Ha;
    [|injection Ha as <- <-; by split; [apply set_call_sound|]].
  destruct (restores cp) eqn:Hres; cbn [negb] in Ha; injection Ha as <- <-; (split; [|done]); apply set_call_sound; try done.
  intros cp' [= <-]. cbn [complete_call call_completed call_err call_bytes call_digest call_total call_request].
  apply bytes_eqb_eq in Hd. do 6 (split; [done|]). by exists cap.
Qed.

Lemma accept_sound Sum256 restores c body c' e :
  acceptContinuationChunk Sum256 restores c body = (c', e) ->
  controller_sound Sum256 restores c -> controller_sound Sum256 restores c' /\ c_capability c' = c_capability c.
Proof.
  intros Ha Hs. unfold acceptContinuationChunk in Ha.
  destruct (DecodeCheckpointResult body) as [chunk| |]; try (injection Ha as <- <-; done).
  unfold controller_sound in Hs. destruct (c_checkpointCall c) as [call|] eqn:Hc; [|injection Ha as <- <-; unfold controller_sound; by rewrite Hc].
  assert (controller_sound Sum256 restores c) as Hs' by (unfold controller_sound; by rewrite Hc).
  destruct Hs as [Hcs Hp]. destruct (call_completed call) eqn:Hnc; cbn [orb] in Ha; [by injection Ha as <- <-|].
  destruct (Hp eq_refl) as [Hr He]. destruct (negb _ || negb _); [by injection Ha as <- <-|].
  destruct (negb (bytes_eqb (cr_Code chunk) [])).
  { destruct (negb _); injection Ha as <- <-; [done|]. split; [|done]. apply set_call_sound; [|done].
    intros cp. cbn [complete_call call_result]. congruence. }
  destruct (negb (_ =? blen (call_bytes call))); [by injection Ha as <- <-|].
  destruct (negb _ && _); [by injection Ha as <- <-|]. cbv zeta in Ha.
  match type of Ha with context [set_chunk call ?a ?b ?d] => set (call' := set_chunk call a b d) in * end.
  destruct (Z.eqb_spec (blen (call_bytes call')) (call_total call')) as [Hl|]; cbn [negb] in Ha.
  - by eapply accept_complete_sound.
  - injection Ha as <- <-. split; [|done]. apply set_call_sound; [intros cp; cbn; congruence | done].
Qed.

Lemma accept_all_sound Sum256 restores bodies c c' e :
  accept_all Sum256 restores c bodies = (c', e) ->
  controller_sound Sum256 restores c -> controller_sound Sum256 restores c' /\ c_capability c' = c_capability c.
Proof.
  revert c. induction bodies as [|b bs IH]; intros c Ha Hs; cbn [accept_all] in Ha; [injection Ha as <- <-; done|].
  destruct (acceptContinuationChunk Sum256 restores c b) as [c1 [e1|]] eqn:E1;
    destruct (accept_sound _ _ _ _ _ _ E1 Hs) as [Hs1 Hc1].
  - injection Ha as <- <-. done.
  - destruct (IH c1 Ha Hs1) as [? ?]. split; [done | congruence].
Qed.

Lemma begin_inspect_sound Sum256 restores c sel c1 body :
  begin_inspect c sel = (c1, Ok body) -> controller_sound Sum256 restores c1.
Proof.
  unfold begin_inspect. destruct (_ || _); [done|].
  destruct (match c_checkpointCall c with Some _ => _ | None => _ end); [done|]. destruct (_ =? _); [done|]. cbv zeta.
  destruct (EncodeCheckpointRequest _); cbn [cshim]; intros H; try discriminate. injection H as <- <-.
  split; [intros cp; discriminate | done].
Qed.

(** ** Properties *)


(** ** End to end *)

(** The digest function returns 32 bytes. *)
Definition sum_law (Sum256 : bytes -> bytes) : Prop :=
  forall b, bytes_ok b -> blen (Sum256 b) = 32 /\ bytes_ok (Sum256 b).

(** What an encoded checkpoint is. *)
Lemma Checkpoint_Encode_inv cp payload :
  checkpoint_wf cp -> Checkpoint_Encode cp ContinuationSchema = Ok payload ->
  0 < blen payload <= MaxContinuationBytes /\ bytes_ok payload /\
  DecodeContinuationCheckpoint payload ContinuationSchema = Ok cp.
Proof.
  intros Hw He. destruct (final_bytes_total cp Hw) as [final Hf].
  rewrite (Checkpoint_Encode_eq cp final Hw Hf) in He.
  destruct (Z.ltb_spec MaxContinuationBytes (blen (checkpoint_bytes cp final))) as [|Hl]; [done|].
  injection He as <-. split.
  - split; [|done]. unfold checkpoint_bytes, put_prefixed. rewrite !blen_app, blen_nil.
    pose proof Hw as (Hep & _). pose proof (uvarint_bytes_nonempty _ Hep).
    repeat match goal with |- context [blen ?x] => lazymatch goal with H : 0 <= blen x |- _ => fail | _ => pose proof (blen_nonneg x) end end. lia.
  - split; [|by apply DecodeCheckpoint_bytes]. apply checkpoint_bytes_ok; [done | | done].
    by apply (final_roundtrip cp final).
Qed.

Lemma begin_inspect_ok c :
  SupportsContinuation c = true -> match c_checkpointCall c with Some p => call_completed p = true | None => True end ->
  0 <= c_nextCheckpointID c < 2 ^ 64 - 1 -> 0 < c_gen c < 2 ^ 64 ->
  exists c1 body call, begin_inspect c ContinuationSchema = (c1, Ok body) /\ c_checkpointCall c1 = Some call /\
    c_capability c1 = c_capability c /\ request_ok (call_request call) /\
    cq_RequestID (call_request call) = c_nextCheckpointID c + 1 /\ cq_Generation (call_request call) = c_gen c /\
    DecodeCheckpointRequest body = Ok (call_request call) /\
    call_completed call = false /\ call_bytes call = [] /\ call_result call = None.
Proof.
  intros Hsup Hprior Hid Hg. unfold begin_inspect. rewrite Hsup, bytes_eqb_refl. cbn [negb orb].
  assert (match c_checkpointCall c with Some p => negb (call_completed p) | None => false end = false) as ->
    by (destruct (c_checkpointCall c); [by rewrite Hprior | done]).
  replace (c_nextCheckpointID c =? 2 ^ 64 - 1) with false by lia.
  assert (u64 (c_nextCheckpointID c + 1) = c_nextCheckpointID c + 1) as -> by (apply u64_small; unfold u64_ok; lia).
  set (req := {| cq_RequestID := c_nextCheckpointID c + 1; cq_Generation := c_gen c; cq_Schema := ContinuationSchema |}).
  assert (request_ok req) as Hr by (split; [cbn; lia|]; split; [cbn; lia | done]).
  destruct (request_roundtrip req Hr) as (body & He & Hd). rewrite He. cbn [cshim].
  do 3 eexists. split; [done|]. cbn [c_checkpointCall]. split; [done|]. by cbn.
Qed.

(** The answer to a new request. *)
Lemma dispatch_fresh Sum256 capture encodeError gen (k : connC bytes) body req cp payload :
  V5 <= k_selected k <= V6 -> DecodeCheckpointRequest body = Ok req -> request_ok req -> cq_Generation req = gen ->
  cq_RequestID (k_checkpointRequest k) < cq_RequestID req ->
  capture ContinuationSchema = Some cp -> Checkpoint_Encode cp ContinuationSchema = Ok payload ->
  0 < blen payload <= MaxContinuationBytes /\ bytes_ok payload ->
  blen (Sum256 payload) = 32 /\ bytes_ok (Sum256 payload) ->
  let fuel := S (Z.to_nat (blen payload / CheckpointChunkBytes)) in
  let ms := chunk_msgs req (Sum256 payload) payload fuel 0 in
  aligned payload fuel 0 /\ Forall (message_ok (k_selected k)) ms /\
  dispatchContinuationRequest Sum256 capture encodeError gen k body =
    (set_w (set_ledger k req ms) (k_w k ++ batch_bytes ms), None).
Proof.
  intros Hv Hdr Hreq Hg Hled Hcap Henc Hpay Hdig fuel ms.
  assert (aligned payload fuel 0) as Hal.
  { unfold aligned, fuel. rewrite Chunk_pos. split; [lia|]. split; [done|].
    pose proof (Z.div_pos (blen payload) 262144). pose proof (Z.mod_pos_bound (blen payload) 262144).
    pose proof (Z.div_mod (blen payload) 262144). lia. }
  pose proof (chunk_msgs_ok req (Sum256 payload) payload Hreq Hdig Hpay (k_selected k) fuel 0 Hv Hal) as Hms. fold ms in Hms.
  split; [done|]. split; [done|].
  pose proof Hreq as (Hri & Hrgen & Hrs). unfold dispatchContinuationRequest.
  replace (k_selected k <? V5) with false by lia. rewrite Hdr. cbv zeta. unfold authorized. rewrite Hg.
  replace (gen =? 0) with false by lia. rewrite Z.eqb_refl. cbn [negb].
  replace (cq_RequestID req <=? cq_RequestID (k_checkpointRequest k)) with false by lia.
  rewrite Hrs, Hcap, Henc. replace (MaxContinuationBytes <? blen payload) with false by lia.
  assert (u32 (blen payload) = blen payload) as -> by (rewrite MaxContinuation_eq in Hpay; apply Z.mod_small; lia).
  fold fuel. rewrite (chunk_loop_spec req (Sum256 payload) payload Hreq Hdig Hpay fuel 0 Hal). fold ms.
  unfold writing. cbn [set_ledger k_selected k_w]. rewrite buffer_batch_version by done. done.
Qed.

(** The answer to a repeated request comes from the ledger. *)
Lemma dispatch_retry {W} `{Sink W} Sum256 capture encodeError gen (k : connC W) body :
  V5 <= k_selected k -> DecodeCheckpointRequest body = Ok (k_checkpointRequest k) ->
  cq_Generation (k_checkpointRequest k) = gen -> gen <> 0 ->
  dispatchContinuationRequest Sum256 capture encodeError gen k body =
    writing k (WriteVersionBatch (k_selected k) (k_checkpointResult k) (k_w k)).
Proof.
  intros Hv Hdr Hg Hnz. unfold dispatchContinuationRequest.
  replace (k_selected k <? V5) with false by lia. rewrite Hdr. cbv zeta. unfold authorized. rewrite Hg.
  replace (gen =? 0) with false by lia. rewrite Z.eqb_refl. cbn [negb]. rewrite Z.leb_refl.
  assert (request_eqb (k_checkpointRequest k) (k_checkpointRequest k) = true) as ->
    by (unfold request_eqb; by rewrite !Z.eqb_refl, bytes_eqb_refl). done.
Qed.

(** A continuation request is answered with the session's complete state:
    when both ends selected a version with checkpoints, the generations agree and
    the session's checkpoint encodes within the bound, the shim writes one batch
    of chunks, each within the message bound; the peer reads exactly those
    messages, and reassembling them completes the call with the very checkpoint
    that was captured; any strict prefix of them, which is what a broken
    connection leaves, exposes nothing; and repeating the request writes the same
    messages again without capturing the state anew. *)
Theorem continuation_delivery (Sum256 : bytes -> bytes) (restores : ContinuationCheckpoint -> bool)
    (capture : bytes -> option ContinuationCheckpoint) (encodeError : ErrorMsg -> outcome error bytes)
    (c : ControllerC) (k : connC bytes) (cp : ContinuationCheckpoint) (payload : bytes) :
  sum_law Sum256 -> SupportsContinuation c = true -> c_selected c <= V6 -> k_selected k = c_selected c ->
  match c_checkpointCall c with Some p => call_completed p = true | None => True end ->
  0 <= c_nextCheckpointID c < 2 ^ 64 - 1 -> 0 < c_gen c < 2 ^ 64 ->
  cq_RequestID (k_checkpointRequest k) <= c_nextCheckpointID c ->
  capture ContinuationSchema = Some cp -> checkpoint_wf cp -> Checkpoint_Encode cp ContinuationSchema = Ok payload ->
  restores cp = true -> (exists cap, c_capability c = Some cap /\ CEpoch cp = cap_HostEpoch cap) ->
  exists c1 body k1 ms c2,
    begin_inspect c ContinuationSchema = (c1, Ok body) /\
    dispatchContinuationRequest Sum256 capture encodeError (c_gen c) k body = (k1, None) /\
    k_w k1 = k_w k ++ batch_bytes ms /\
    delivers (c_selected c) {| data := batch_bytes ms; fin := Closed |} ms (Bare EOF) /\
    accept_all Sum256 restores c1 (map m_Body ms) = (c2, None) /\
    finish_inspect c2 ContinuationSchema = Ok cp /\
    (forall j, (j < length ms)%nat -> exists c3 call,
       accept_all Sum256 restores c1 (take j (map m_Body ms)) = (c3, None) /\
       c_checkpointCall c3 = Some call /\ call_completed call = false /\ call_result call = None) /\
    (forall capture', dispatchContinuationRequest Sum256 capture' encodeError (c_gen c) k1 body =
       (set_w k1 (k_w k1 ++ batch_bytes ms), None)).
Proof.
  intros Hsum Hsup Hv6 Hsel Hprior Hid Hg Hled Hcap Hwf Henc Hres (cap & Hcc & Hep).
  assert (V5 <= c_selected c) as Hv5 by (unfold SupportsContinuation in Hsup; lia).
  destruct (begin_inspect_ok c Hsup Hprior Hid Hg)
    as (c1 & body & call & Hbeg & Hcall & Hcap1 & Hreq & Hrid & Hrg & Hdr & Hnc & Hb0 & Hr0).
  destruct (Checkpoint_Encode_inv cp payload Hwf Henc) as (Hlen & Hpok & Hdec).
  pose proof (Hsum payload Hpok) as Hdig. pose proof (conj Hlen Hpok) as Hpay.
  destruct (dispatch_fresh Sum256 capture encodeError (c_gen c) k body (call_request call) cp payload)
    as (Hal & Hms & Hdisp); try done; try lia.
  set (ms := chunk_msgs (call_request call) (Sum256 payload) payload _ 0) in *. rewrite Hsel in Hms.
  assert (receiving (call_request call) (Sum256 payload) payload call 0) as Hrecv
    by (split; [done|]; split; [done|]; split; [done | by left]).
  pose proof (accept_chunks _ _ _ Hreq Hdig Hpay Sum256 restores _ 0 c1 call Hcall Hrecv ltac:(lia) Hal) as Hacc.
  fold ms in Hacc. unfold accept_complete in Hacc. cbn [set_chunk call_bytes call_digest call_request] in Hacc.
  rewrite bytes_eqb_refl in Hacc. pose proof Hreq as (_ & Hgen & Hrs).
  rewrite Hrs, Hdec, Hcap1, Hcc, Hep, Z.eqb_refl, Hres in Hacc. cbn [negb] in Hacc.
  exists c1, body, (set_w (set_ledger k (call_request call) ms) (k_w k ++ batch_bytes ms)), ms. eexists.
  split; [done|]. split; [done|]. split; [done|]. split; [by apply delivers_whole|]. split; [exact Hacc|]. split.
  { unfold finish_inspect. cbn [set_call c_checkpointCall complete_call call_err call_result call_bytes set_chunk]. by rewrite Hdec. }
  split.
  - intros j Hj. destruct (accept_prefix _ _ _ Hreq Hdig Hpay Sum256 restores _ 0 c1 call j Hcall Hrecv Hal Hj)
      as (call' & Ha & Hn & Hr & _). exists (set_call c1 call'), call'. split; [done|]. split; [done|]. split; [done | congruence].
  - intros capture'. rewrite dispatch_retry; cbn [set_w set_ledger k_selected k_checkpointRequest k_checkpointResult k_w];
      try done; try lia.
    unfold writing. rewrite Hsel, buffer_batch_version by done. done.
Qed.

Lemma writing_ledger {W} `{Sink W} (k : connC W) r k' e :
  writing k r = (k', e) ->
  k_checkpointRequest k' = k_checkpointRequest k /\ k_checkpointResult k' = k_checkpointResult k /\ k_selected k' = k_selected k.
Proof. by intros [= <- <-]. Qed.

Lemma sendError_ledger {W} `{Sink W} encodeError (k : connC W) code detail k' e :
  sendError encodeError k code detail = (k', e) ->
  k_checkpointRequest k' = k_checkpointRequest k /\ k_checkpointResult k' = k_checkpointResult k /\ k_selected k' = k_selected k.
Proof.
  unfold sendError. destruct (encodeError _); [apply writing_ledger|by intros [= <- <-]|by intros [= <- <-]].
Qed.

Lemma refuse_ledger {W} `{Sink W} (k : connC W) req auth code k' e :
  refuse k req auth code = (k', e) ->
  (auth = false \/ cq_RequestID req <= cq_RequestID (k_checkpointRequest k) ->
     k_checkpointRequest k' = k_checkpointRequest k /\ k_checkpointResult k' = k_checkpointResult k) /\
  (k_checkpointRequest k' = k_checkpointRequest k \/ k_checkpointRequest k' = req /\
     cq_RequestID (k_checkpointRequest k) < cq_RequestID req).
Proof.
  unfold refuse. destruct (EncodeCheckpointResult _) as [b| |]; [|intros [= <- <-]; by split; [|left]..].
  destruct (Z.ltb_spec (cq_RequestID (k_checkpointRequest k)) (cq_RequestID req)) as [Hlt|Hge];
    destruct auth; cbn [andb]; intros Hw; apply writing_ledger in Hw as (H1 & H2 & _); cbn [set_ledger k_checkpointRequest k_checkpointResult] in *.
  - split; [intros [?|?]; [done|lia]|]. by right.
  - split; [done|]. by left.
  - split; [done|]. by left.
  - split; [done|]. by left.
Qed.

(** The answer to a checkpoint request is fixed once given: on every request
    body, for any transport, the identity the shim remembers only grows, the
    stored answer changes only together with it, a request of a stale generation
    or with a reused identity and other content changes nothing, and the exact
    repetition of the remembered request writes the stored messages. *)
Theorem continuation_ledger {W} `{Sink W} (Sum256 : bytes -> bytes) (capture : bytes -> option ContinuationCheckpoint)
    (encodeError : ErrorMsg -> outcome error bytes) (gen : Generation) (k k' : connC W) (body : bytes)
    (e : option ContinuationError) :
  dispatchContinuationRequest Sum256 capture encodeError gen k body = (k', e) ->
  (k_checkpointRequest k' = k_checkpointRequest k /\ k_checkpointResult k' = k_checkpointResult k \/
   cq_RequestID (k_checkpointRequest k) < cq_RequestID (k_checkpointRequest k') /\
   DecodeCheckpointRequest body = Ok (k_checkpointRequest k') /\ cq_Generation (k_checkpointRequest k') = gen /\ gen <> 0) /\
  (forall req, V5 <= k_selected k -> DecodeCheckpointRequest body = Ok req -> req = k_checkpointRequest k ->
     cq_Generation req = gen -> gen <> 0 ->
     (k', e) = writing k (WriteVersionBatch (k_selected k) (k_checkpointResult k) (k_w k))).
Proof.
  intros Hd. split.
  2: { intros req Hv Hdr -> Hg Hnz. rewrite <- Hd. by apply dispatch_retry. }
  unfold dispatchContinuationRequest in Hd.
  destruct (_ <? V5); [left; by destruct (sendError_ledger _ _ _ _ _ _ Hd) as (? & ? & _)|].
  destruct (DecodeCheckpointRequest body) as [req| |];
    [|left; by destruct (sendError_ledger _ _ _ _ _ _ Hd) as (? & ? & _) | by injection Hd as <- <-; left].
  cbv zeta in Hd. destruct (authorized gen (cq_Generation req)) eqn:Ha; cbn [negb] in Hd.
  2: { left. apply (refuse_ledger _ _ _ _ _ _ Hd). by left. }
  assert (cq_Generation req = gen /\ gen <> 0) as [Hg Hnz].
  { unfold authorized in Ha. destruct (Z.eqb_spec (cq_Generation req) 0); [done|]. lia. }
  destruct (Z.leb_spec (cq_RequestID req) (cq_RequestID (k_checkpointRequest k))) as [Hle|Hlt].
  { left. destruct (request_eqb _ _); [by destruct (writing_ledger _ _ _ _ Hd) as (? & ? & _)|].
    apply (refuse_ledger _ _ _ _ _ _ Hd). by right. }
  assert (forall code, refuse k req true code = (k', e) ->
    k_checkpointRequest k' = k_checkpointRequest k /\ k_checkpointResult k' = k_checkpointResult k \/
    cq_RequestID (k_checkpointRequest k) < cq_RequestID (k_checkpointRequest k') /\
    Ok req = Ok (E := error) (k_checkpointRequest k') /\ cq_Generation (k_checkpointRequest k') = gen /\ gen <> 0) as Hrefuse.
  { intros code. unfold refuse. destruct (EncodeCheckpointResult _) as [b| |]; [|intros [= <- <-]; by left..].
    replace (_ && _) with true by (cbn [andb]; lia). intros Hw. apply writing_ledger in Hw as (-> & _). by right. }
  destruct (capture _) as [cp|]; [|by eapply Hrefuse].
  destruct (Checkpoint_Encode _ _) as [payload| |]; [|by eapply Hrefuse | by injection Hd as <- <-; left].
  destruct (_ <? blen payload); [by eapply Hrefuse|].
  destruct (chunk_loop _ _ _ _ _ _) as [ms| |]; [|by injection Hd as <- <-; left..].
  apply writing_ledger in Hd as (-> & _). right. done.
Qed.

(** ** Witnesses *)

Definition sample_sum (b : bytes) : bytes := be_bytes 32 (foldr Z.add (blen b) b).

Lemma sample_sum_law : sum_law sample_sum.
Proof. intros b _. unfold sample_sum. split; [apply be_bytes_blen | apply be_bytes_ok]. Qed.

Definition sample_controller : ControllerC :=
  {| c_selected := V5; c_gen := 3; c_capability := Some {| cap_Schema := ContinuationSchema; cap_HostEpoch := 7 |};
     c_checkpointCall := None; c_nextCheckpointID := 0 |}.
Definition sample_conn : connC bytes :=
  {| k_selected := V5; k_checkpointRequest := {| cq_RequestID := 0; cq_Generation := 0; cq_Schema := [] |};
     k_checkpointResult := []; k_w := [] |}.
Definition sample_capture (schema : bytes) : option ContinuationCheckpoint := Some sample_checkpoint.
Definition no_error (m : ErrorMsg) : outcome error bytes := Ok [].

Lemma sample_checkpoint_encodes :
  Checkpoint_Encode sample_checkpoint ContinuationSchema = Ok sample_checkpoint_bytes.
Proof. vm_compute. reflexivity. Qed.

Lemma continuation_delivery_witness :
  exists c1 body k1 ms c2,
    begin_inspect sample_controller ContinuationSchema = (c1, Ok body) /\
    dispatchContinuationRequest sample_sum sample_capture no_error 3 sample_conn body = (k1, None) /\
    accept_all sample_sum (fun _ => true) c1 (map m_Body ms) = (c2, None) /\
    finish_inspect c2 ContinuationSchema = Ok sample_checkpoint.
Proof.
  destruct (continuation_delivery sample_sum (fun _ => true) sample_capture no_error sample_controller sample_conn
    sample_checkpoint sample_checkpoint_bytes)
    as (c1 & body & k1 & ms & c2 & H1 & H2 & _ & _ & H3 & H4 & _).
  - apply sample_sum_law.
  - vm_compute. reflexivity.
  - vm_compute. discriminate.
  - reflexivity.
  - exact I.
  - cbn. lia.
  - cbn. lia.
  - vm_compute. discriminate.
  - reflexivity.
  - apply sample_checkpoint_wf.
  - apply sample_checkpoint_encodes.
  - reflexivity.
  - eexists. split; [reflexivity | reflexivity].
  - exists c1, body, k1, ms, c2. split; [exact H1|]. split; [exact H2|]. split; [exact H3 | exact H4].
Defined.

Definition sample_request : CheckpointRequest :=
  {| cq_RequestID := 1; cq_Generation := 3; cq_Schema := ContinuationSchema |}.
Definition sample_chunk : bytes :=
  checkpoint_result_bytes (chunk_at sample_request (sample_sum sample_checkpoint_bytes) sample_checkpoint_bytes 0).
Definition sample_c1 : ControllerC := fst (begin_inspect sample_controller ContinuationSchema).
Definition sample_c2 : ControllerC := fst (accept_all sample_sum (fun _ => true) sample_c1 [sample_chunk]).
Definition sample_call : continuationCall :=
  {| call_request := sample_request; call_total := blen sample_checkpoint_bytes;
     call_digest := sample_sum sample_checkpoint_bytes; call_bytes := sample_checkpoint_bytes;
     call_result := Some sample_checkpoint; call_err := None; call_completed := true |}.

Lemma sample_begins :
  begin_inspect sample_controller ContinuationSchema = (sample_c1, Ok (checkpoint_request_bytes sample_request)).
Proof. vm_compute. reflexivity. Qed.
Lemma sample_accepts : accept_all sample_sum (fun _ => true) sample_c1 [sample_chunk] = (sample_c2, None).
Proof. vm_compute. reflexivity. Qed.
Lemma sample_completes : c_checkpointCall sample_c2 = Some sample_call.
Proof. vm_compute. reflexivity. Qed.


Lemma sample_dispatches :
  exists k', dispatchContinuationRequest sample_sum sample_capture no_error 3 sample_conn
    (checkpoint_request_bytes sample_request) = (k', None) /\ k_checkpointRequest k' = sample_request.
Proof. eexists. split; [vm_compute; reflexivity | vm_compute; reflexivity]. Qed.

Lemma continuation_ledger_witness :
  exists k', dispatchContinuationRequest sample_sum sample_capture no_error 3 sample_conn
      (checkpoint_request_bytes sample_request) = (k', None) /\
    (k_checkpointRequest k' = k_checkpointRequest sample_conn /\ k_checkpointResult k' = k_checkpointResult sample_conn \/
     cq_RequestID (k_checkpointRequest sample_conn) < cq_RequestID (k_checkpointRequest k') /\
     DecodeCheckpointRequest (checkpoint_request_bytes sample_request) = Ok (k_checkpointRequest k') /\
     cq_Generation (k_checkpointRequest k') = 3 /\ 3 <> 0).
Proof.
  destruct sample_dispatches as (k' & Hk & _). exists k'. split; [exact Hk|].
  exact (proj1 (continuation_ledger sample_sum sample_capture no_error 3 sample_conn k'
    (checkpoint_request_bytes sample_request) None Hk)).
Defined.
