(* ===== verification/GoSort.v ===== *)
(** * GoSort: the order of Go strings and [package sort]

    [sort.Slice] promises a permutation of its input in which no element is less
    than an earlier one.  For a comparison that is a linear order there is one
    such list ([sort_Slice_unique]), so the sort is a function and a caller may
    compare two sorted slices element by element. *)

From Stdlib Require Import Sorted.
From stdpp Require Import sorting.
From S2P Require Import Prelude.

(** Go's [a < b] on strings: bytewise, a proper prefix first. *)
Fixpoint bytes_ltb (a b : bytes) : bool :=
  match a, b with
  | [], [] => false
  | [], _ :: _ => true
  | _ :: _, [] => false
  | x :: a', y :: b' => if x =? y then bytes_ltb a' b' else x <? y
  end.

(** [a] is no greater than [b] under the Go [less]. *)
Definition not_greater {A} (less : A -> A -> bool) (a b : A) : Prop := less b a = false.

#[export] Instance not_greater_dec {A} (less : A -> A -> bool) : RelDecision (not_greater less).
Proof. intros a b. unfold not_greater. apply _. Defined.

Definition sort_Slice {A} (less : A -> A -> bool) (l : list A) : list A := merge_sort (not_greater less) l.
Definition sort_Strings (l : list bytes) : list bytes := sort_Slice bytes_ltb l.

(** A Go comparison that is a strict linear order. *)
Class LinearLess {A} (less : A -> A -> bool) := {
  less_irrefl a : less a a = false;
  less_trans a b c : less a b = true -> less b c = true -> less a c = true;
  less_total a b : less a b = false -> less b a = false -> a = b
}.

(** The chain of the Go comparators: compare the first field, and the rest when
    it is equal. *)
Definition less_by {A B} `{EqDecision B} (key : A -> B) (lt : B -> B -> bool) (rest : A -> A -> bool) (a b : A) : bool :=
  if decide (key a = key b) then rest a b else lt (key a) (key b).

Section linear.
Context {A : Type} (less : A -> A -> bool) `{!LinearLess less}.

Lemma less_asym a b : less a b = true -> less b a = false.
Proof.
  intros H. destruct (less b a) eqn:E; [|done].
  pose proof (less_trans a b a H E) as F. by rewrite less_irrefl in F.
Qed.

#[export] Instance not_greater_trans : Transitive (not_greater less).
Proof.
  intros a b c. unfold not_greater. intros Hab Hbc. destruct (less c a) eqn:E; [|done].
  destruct (less b a) eqn:F; [discriminate|]. destruct (less a b) eqn:G.
  - rewrite (less_trans c a b E G) in Hbc. discriminate.
  - rewrite (less_total a b G F) in E. congruence.
Qed.

#[export] Instance not_greater_total : Total (not_greater less).
Proof.
  intros a b. unfold not_greater. destruct (less b a) eqn:E; [right|by left]. by apply less_asym.
Qed.

#[export] Instance not_greater_antisym : AntiSymm (=) (not_greater less).
Proof. intros a b H1 H2. by apply less_total. Qed.

Lemma sort_Slice_permutation (l : list A) : sort_Slice less l ≡ₚ l.
Proof. apply merge_sort_Permutation. Qed.

Lemma sort_Slice_unique (l k : list A) : l ≡ₚ k -> Sorted (not_greater less) k -> sort_Slice less l = k.
Proof.
  intros Hp Hs. apply (StronglySorted_unique (not_greater less)).
  - apply StronglySorted_merge_sort; apply _.
  - apply Sorted_StronglySorted; [apply _|done].
  - by rewrite sort_Slice_permutation.
Qed.

Lemma sort_Slice_sorted (l : list A) : Sorted (not_greater less) (sort_Slice less l).
Proof. apply Sorted_merge_sort; apply _. Qed.

(** Two slices have the same sorted form exactly when one is a permutation of
    the other. *)
Lemma sort_Slice_eq (l k : list A) : sort_Slice less l = sort_Slice less k <-> l ≡ₚ k.
Proof.
  split; [intros E; by rewrite <- (sort_Slice_permutation l), E, sort_Slice_permutation|].
  intros Hp. apply sort_Slice_unique; [|apply sort_Slice_sorted]. by rewrite sort_Slice_permutation.
Qed.
End linear.

#[export] Instance bytes_ltb_linear : LinearLess bytes_ltb.
Proof.
  split.
  - induction a as [|x a IH]; [done|]. cbn. by rewrite Z.eqb_refl.
  - induction a as [|x a IH]; intros [|y b] [|z c]; cbn; try done.
    destruct (Z.eqb_spec x y), (Z.eqb_spec y z), (Z.eqb_spec x z); try lia; subst; eauto.
  - induction a as [|x a IH]; intros [|y b]; cbn; try done.
    rewrite (Z.eqb_sym y x). destruct (Z.eqb_spec x y) as [->|]; [|lia]. intros. f_equal. auto.
Qed.

#[export] Instance Zltb_linear : LinearLess Z.ltb.
Proof. split; intros; lia. Qed.

(** A chain of comparators is a linear order once its keys determine the value. *)
Class OrdersUpTo {A} (same : A -> A -> Prop) (less : A -> A -> bool) := {
  upto_irrefl a b : same a b -> less a b = false;
  upto_trans a b c : less a b = true -> less b c = true -> less a c = true;
  upto_total a b : less a b = false -> less b a = false -> same a b;
  upto_equiv : Equivalence same;
  upto_proper a a' b b' : same a a' -> same b b' -> less a b = less a' b'
}.

Lemma orders_key {A B} (key : A -> B) (lt : B -> B -> bool) `{!LinearLess lt} :
  OrdersUpTo (fun a b => key a = key b) (fun a b => lt (key a) (key b)).
Proof.
  split; intros.
  - rewrite H. apply less_irrefl.
  - by apply less_trans with (key b).
  - by apply less_total.
  - split; intros ?; intros; congruence.
  - congruence.
Qed.

Lemma orders_by {A B} `{EqDecision B} (key : A -> B) (lt : B -> B -> bool) `{!LinearLess lt}
    (same : A -> A -> Prop) (rest : A -> A -> bool) `{!OrdersUpTo same rest} :
  OrdersUpTo (fun a b => key a = key b /\ same a b) (less_by key lt rest).
Proof.
  pose proof upto_equiv as [Hr Hs Ht]. split; unfold less_by.
  - intros a b [E S]. rewrite decide_True by done. by apply upto_irrefl.
  - intros a b c. destruct (decide (key a = key b)) as [E1|], (decide (key b = key c)) as [E2|].
    + rewrite decide_True by congruence. apply upto_trans.
    + rewrite decide_False by congruence. by rewrite E1.
    + rewrite decide_False by congruence. by rewrite E2.
    + intros H1 H2. pose proof (less_trans _ _ _ H1 H2) as H3.
      rewrite decide_False; [done|]. intros E. rewrite E in H1. pose proof (less_asym lt _ _ H1). congruence.
  - intros a b. destruct (decide (key a = key b)) as [E|N].
    + rewrite decide_True by done. split; [done|]. by apply upto_total.
    + rewrite decide_False by done. intros H1 H2. by pose proof (less_total _ _ H1 H2).
  - split; [split; [done|apply Hr] | intros a b [E S]; split; [done|by apply Hs]
      | intros a b c [E1 S1] [E2 S2]; split; [congruence|by eapply Ht]].
  - intros a a' b b' [E1 S1] [E2 S2]. rewrite E1, E2. destruct (decide _); [by apply upto_proper|done].
Qed.

Lemma orders_linear {A} (same : A -> A -> Prop) (less : A -> A -> bool) `{!OrdersUpTo same less} :
  (forall a b, same a b -> a = b) -> LinearLess less.
Proof.
  intros Hi. pose proof upto_equiv as [Hr _ _]. split.
  - intros a. by apply upto_irrefl.
  - apply upto_trans.
  - intros a b H1 H2. by apply Hi, upto_total.
Qed.

Example sort_Strings_example : sort_Strings [str "b"; str "ab"; str ""; str "a"] = [str ""; str "a"; str "ab"; str "b"].
Proof. vm_compute. reflexivity. Qed.
