(* ===== verification/ShimRecord.v ===== *)
(** * ShimRecord: session identities, discovery records and tombstones
    ([src/sessionshim/identity.go], [headless.go], [record.go])

    The lifecycle identity that keys everything about a session, the record a live
    shim publishes so that a restarted daemon can find it, and the tombstone that
    proves its harness ended.  The SHA-256 digest and the parse of one JSON value
    into a Go struct are arguments; the stream decoder around the parse
    ([json.Decoder]'s [More] and end of input) is modelled, because the decoders
    differ in how they use it. *)

From stdpp Require Import sets.
From S2P Require Import Prelude ShimWire ShimControl.

(** The errors of the package, by the sentinel they wrap. *)
Inductive ShimErr :=
| ErrInvalidIdentity
| ErrRecordInvalid
| ErrRecordIdentity  (** [ErrRecordInvalid] and [ErrInvalidIdentity] *)
| ErrMarshal
| ErrContract  (** an unnamed error of a sidecar *)
| ErrNotExist
| ErrRegistryUnsafe
| ErrTombstoneAmbiguous
| ErrIO.

#[export] Instance ShimErr_eq_dec : EqDecision ShimErr.
Proof. solve_decision. Defined.

(** ** Standard library *)

Definition ContainsAny (s chars : bytes) : bool := existsb (fun c => existsb (Z.eqb c) chars) s.

(** [strconv.FormatUint(x, 10)]: twenty digits hold every [uint64]. *)
Fixpoint format_loop (fuel : nat) (x : Z) (acc : bytes) : bytes :=
  match fuel with
  | O => acc
  | S fuel' => if x <? 10 then (0x30 + x) :: acc else format_loop fuel' (x / 10) ((0x30 + x mod 10) :: acc)
  end.
Definition FormatUint (x : Z) : bytes := format_loop 20 x [].

Definition hexDigit (n : Z) : Z := if n <? 10 then 0x30 + n else 0x57 + n.
Definition hex_EncodeToString (b : bytes) : bytes := b ≫= (fun x => [hexDigit (Z.shiftr x 4); hexDigit (Z.land x 0xF)]).

Definition has_suffix (s suffix : bytes) : bool :=
  bytes_eqb (drop (length s - length suffix) s) suffix && (length suffix <=? length s)%nat.

(** The JSON decoder at one struct type: [js_Decode] parses the first value with
    unknown fields refused and returns the unread bytes. *)
Record JsonStream (A : Type) := {
  js_Marshal : A -> option bytes;
  js_Decode : bytes -> option (A * bytes)
}.
Arguments js_Marshal {A}.
Arguments js_Decode {A}.

Fixpoint skip_space (b : bytes) : bytes :=
  match b with
  | c :: b' => if one_of [c] [[0x20]; [0x09]; [0x0A]; [0x0D]] then skip_space b' else b
  | [] => []
  end.

(** [dec.More()] and a further [Decode] that returns [io.EOF]. *)
Definition More (rest : bytes) : bool :=
  match skip_space rest with
  | [] => false
  | c :: _ => negb (c =? 0x5D) && negb (c =? 0x7D)
  end.
Definition at_EOF (rest : bytes) : bool := match skip_space rest with [] => true | _ => false end.

(** [path/filepath] on slash-rooted paths: a path as its components. *)
Fixpoint path_split (b : bytes) : list bytes :=
  match b with
  | [] => [[]]
  | c :: b' =>
      if c =? 0x2F then [] :: path_split b'
      else match path_split b' with w :: ws => (c :: w) :: ws | [] => [[c]] end
  end.

Definition IsAbs (p : bytes) : bool := match p with c :: _ => c =? 0x2F | [] => false end.

Definition clean_step (stack : list bytes) (c : bytes) : list bytes :=
  if bytes_eqb c [] || bytes_eqb c (str ".") then stack
  else if bytes_eqb c (str "..") then tail stack
  else c :: stack.
Definition Clean_abs (p : bytes) : list bytes := rev (fold_left clean_step (path_split p) []).

Fixpoint strip_common (base targ : list bytes) : list bytes * list bytes :=
  match base, targ with
  | b :: bs, t :: ts => if bytes_eqb b t then strip_common bs ts else (base, targ)
  | _, _ => (base, targ)
  end.

Fixpoint path_join (ws : list bytes) : bytes :=
  match ws with
  | [] => []
  | [w] => w
  | w :: ws' => w ++ 0x2F :: path_join ws'
  end.

Definition Rel_abs (base targ : list bytes) : bytes :=
  match strip_common base targ with
  | ([], []) => str "."
  | (b, t) => path_join (map (fun _ => str "..") b ++ t)
  end.

Definition has_prefix_b (s prefix : bytes) : bool := bytes_eqb (take (length prefix) s) prefix.

(** ** Identity *)

Record Identity := { OrgID : bytes; SessionID : bytes }.

#[export] Instance Identity_eq_dec : EqDecision Identity.
Proof. solve_decision. Defined.

Definition maxIdentityField : Z := 256.

Definition validateIdentityField (v : bytes) : outcome ShimErr unit :=
  if bytes_eqb v [] then Err ErrInvalidIdentity
  else if maxIdentityField <? blen v then Err ErrInvalidIdentity
  else if ContainsAny v [0x00; 0x2F; 0x5C] then Err ErrInvalidIdentity
  else Ok tt.

Definition Identity_Validate (id : Identity) : outcome ShimErr unit :=
  obind (validateIdentityField (OrgID id)) (fun _ => validateIdentityField (SessionID id)).

Definition Identity_Key (id : Identity) : bytes := OrgID id ++ [0x1F] ++ SessionID id.
Definition Identity_String (id : Identity) : bytes := OrgID id ++ [0x2F] ++ SessionID id.

Definition recordSuffix : bytes := str ".json".
Definition socketSuffix : bytes := str ".sock".
Definition tombstoneSuffix : bytes := str ".tombstone.json".
Definition logSuffix : bytes := str ".log".

Section names.
Context (Sum256 : bytes -> bytes).

Definition RecordName (id : Identity) : bytes := hex_EncodeToString (Sum256 (Identity_Key id)) ++ recordSuffix.
Definition SocketName (id : Identity) : bytes := hex_EncodeToString (take 16 (Sum256 (Identity_Key id))) ++ socketSuffix.
Definition TombstoneName (id : Identity) : bytes := hex_EncodeToString (Sum256 (Identity_Key id)) ++ tombstoneSuffix.
Definition LogName (id : Identity) : bytes := hex_EncodeToString (Sum256 (Identity_Key id)) ++ logSuffix.
End names.

(** ** Workload and headless exit *)

Definition Workload : Type := bytes.
Definition WorkloadInteractive : Workload := str "interactive".
Definition WorkloadHeadlessRecord : Workload := str "headless".
Definition Workload_Known (w : Workload) : bool := one_of w [WorkloadInteractive; WorkloadHeadlessRecord].

Record HeadlessExitRecord := {
  he_Cause : HeadlessExitCause;
  he_OutboxKey : bytes;
  he_OutboxState : HeadlessExitState;
  he_GroupReaped : bool
}.

Definition HeadlessExit_Validate (e : HeadlessExitRecord) : outcome ShimErr unit :=
  if negb (HeadlessExitCause_Known (he_Cause e)) then Err ErrRecordInvalid
  else if bytes_eqb (he_OutboxState e) [] then
    (if bytes_eqb (he_OutboxKey e) [] then Ok tt else Err ErrRecordInvalid)
  else if negb (HeadlessExitState_Known (he_OutboxState e)) then Err ErrRecordInvalid
  else if bytes_eqb (he_OutboxState e) HeadlessExitNone && negb (bytes_eqb (he_Cause e) HeadlessExitStoppedForResume)
  then Err ErrRecordInvalid
  else Ok tt.

(** ** Record *)

Definition RecordSchemaVersion : Z := 1.
Definition HeadlessRecordSchemaVersion : Z := 2.
Definition MaxRecordBytes : Z := Z.shiftl 8 10.

Record ResumeKey := { CodexHome : bytes; ThreadID : bytes }.

Definition ResumeKey_Validate (k : ResumeKey) : outcome ShimErr unit :=
  if negb (IsAbs (CodexHome k)) || bytes_eqb (ThreadID k) [] then Err ErrRecordInvalid else Ok tt.

#[export] Instance ResumeKey_eq_dec : EqDecision ResumeKey.
Proof. solve_decision. Defined.

Record DiscoveryRecord := {
  r_SchemaVersion : Z;
  r_Workload : Workload;
  r_OrgID : bytes;
  r_SessionID : bytes;
  r_ShimID : bytes;
  r_ProcessEpoch : Z;
  r_PID : Z;
  r_ProcessStartedAt : Z;
  r_ProcessStartTicks : Z;
  r_BootID : bytes;
  r_SocketPath : bytes;
  r_SocketDevice : Z;
  r_SocketInode : Z;
  r_ProtocolMin : Z;
  r_ProtocolMax : Z;
  r_Phase : Phase;
  r_WorkareaPath : bytes;
  r_WorkareaRoot : bytes;
  r_ResumeKey : option ResumeKey;
  r_CreatedAtUnixNano : Z;
  r_OrphanDeadlineUnixNano : Z
}.

#[export] Instance DiscoveryRecord_eq_dec : EqDecision DiscoveryRecord.
Proof. solve_decision. Defined.

Definition Record_Identity (r : DiscoveryRecord) : Identity := {| OrgID := r_OrgID r; SessionID := r_SessionID r |}.

(** A workload absent from the JSON is interactive. *)
Definition default_workload (w : Workload) : Workload := if bytes_eqb w [] then WorkloadInteractive else w.

(** [fmt.Errorf("%w: %w", ErrRecordInvalid, err)] around the identity check. *)
Definition record_identity_ok (id : Identity) : outcome ShimErr unit :=
  match Identity_Validate id with Ok _ => Ok tt | _ => Err ErrRecordIdentity end.

Definition workarea_ok (r : DiscoveryRecord) : outcome ShimErr unit :=
  if bytes_eqb (r_WorkareaRoot r) [] then Ok tt
  else if negb (IsAbs (r_WorkareaRoot r)) || negb (IsAbs (r_WorkareaPath r)) then Err ErrRecordInvalid
  else
    let rel := Rel_abs (Clean_abs (r_WorkareaRoot r)) (Clean_abs (r_WorkareaPath r)) in
    if bytes_eqb rel (str "..") || has_prefix_b rel (str "../") then Err ErrRecordInvalid else Ok tt.

Definition resume_ok (k : option ResumeKey) : outcome ShimErr unit :=
  match k with Some k => ResumeKey_Validate k | None => Ok tt end.

Definition Record_Validate (r : DiscoveryRecord) : outcome ShimErr unit :=
  let w := default_workload (r_Workload r) in
  obind (if bytes_eqb w WorkloadInteractive then
           (if negb (r_SchemaVersion r =? RecordSchemaVersion) then Err ErrRecordInvalid else Ok tt)
         else if bytes_eqb w WorkloadHeadlessRecord then
           (if negb (r_SchemaVersion r =? HeadlessRecordSchemaVersion) then Err ErrRecordInvalid else Ok tt)
         else Err ErrRecordInvalid) (fun _ =>
  obind (record_identity_ok (Record_Identity r)) (fun _ =>
  if bytes_eqb (r_ShimID r) [] then Err ErrRecordInvalid
  else if r_PID r <=? 0 then Err ErrRecordInvalid
  else if r_ProcessStartedAt r <=? 0 then Err ErrRecordInvalid
  else if bytes_eqb (r_SocketPath r) [] then Err ErrRecordInvalid
  else if (r_ProtocolMin r =? 0) || (r_ProtocolMax r <? r_ProtocolMin r) then Err ErrRecordInvalid
  else if bytes_eqb w WorkloadHeadlessRecord && (r_ProtocolMin r <? V6) then Err ErrRecordInvalid
  else if negb (Phase_Known (r_Phase r)) then Err ErrRecordInvalid
  else if r_CreatedAtUnixNano r <=? 0 then Err ErrRecordInvalid
  else obind (workarea_ok r) (fun _ => resume_ok (r_ResumeKey r)))).

(** The common shape of the bounded JSON codecs of the package: validate, marshal,
    bound; and bound, decode, refuse what [trailing] detects, validate. *)
Section bounded.
Context {A : Type} (j : JsonStream A) (validate : A -> outcome ShimErr unit) (limit : Z) (err : ShimErr)
  (trailing : bytes -> bool).

Definition bounded_encode (a : A) : outcome ShimErr bytes :=
  obind (validate a) (fun _ =>
  match js_Marshal j a with
  | None => Err ErrMarshal
  | Some b => if limit <? blen b then Err err else Ok b
  end).

Definition bounded_decode (data : bytes) : outcome ShimErr A :=
  if limit <? blen data then Err err
  else match js_Decode j data with
  | None => Err err
  | Some (a, rest) => if trailing rest then Err err else obind (validate a) (fun _ => Ok a)
  end.
End bounded.

Definition Record_encode (j : JsonStream DiscoveryRecord) : DiscoveryRecord -> outcome ShimErr bytes :=
  bounded_encode j Record_Validate MaxRecordBytes ErrRecordInvalid.
Definition decodeRecord (j : JsonStream DiscoveryRecord) : bytes -> outcome ShimErr DiscoveryRecord :=
  bounded_decode j Record_Validate MaxRecordBytes ErrRecordInvalid More.

(** ** Tombstone *)

Record Tombstone := {
  t_SchemaVersion : Z;
  t_Workload : Workload;
  t_OrgID : bytes;
  t_SessionID : bytes;
  t_ShimID : bytes;
  t_ProcessEpoch : Z;
  t_HarnessPID : Z;
  t_HarnessStartedAt : Z;
  t_ExitCode : Z;
  t_Signal : bytes;
  t_LastSeq : Z;
  t_GroupReaped : bool;
  t_ResumeKey : option ResumeKey;
  t_Cause : HeadlessExitCause;
  t_OutboxKey : bytes;
  t_OutboxState : HeadlessExitState;
  t_ObservedAtUnixNano : Z
}.

#[export] Instance Tombstone_eq_dec : EqDecision Tombstone.
Proof. solve_decision. Defined.

Definition Tombstone_Identity (t : Tombstone) : Identity := {| OrgID := t_OrgID t; SessionID := t_SessionID t |}.

Definition Tombstone_Validate (t : Tombstone) : outcome ShimErr unit :=
  let w := default_workload (t_Workload t) in
  obind (if bytes_eqb w WorkloadInteractive then
           (if negb (t_SchemaVersion t =? RecordSchemaVersion) then Err ErrRecordInvalid
            else if negb (bytes_eqb (t_Cause t) []) || negb (bytes_eqb (t_OutboxKey t) [])
                    || negb (bytes_eqb (t_OutboxState t) []) then Err ErrRecordInvalid
            else Ok tt)
         else if bytes_eqb w WorkloadHeadlessRecord then
           (if negb (t_SchemaVersion t =? HeadlessRecordSchemaVersion) then Err ErrRecordInvalid
            else HeadlessExit_Validate {| he_Cause := t_Cause t; he_OutboxKey := t_OutboxKey t;
                                          he_OutboxState := t_OutboxState t; he_GroupReaped := false |})
         else Err ErrRecordInvalid) (fun _ =>
  obind (record_identity_ok (Tombstone_Identity t)) (fun _ =>
  if bytes_eqb (t_ShimID t) [] then Err ErrRecordInvalid
  else if t_ObservedAtUnixNano t <=? 0 then Err ErrRecordInvalid
  else resume_ok (t_ResumeKey t))).

Definition Tombstone_encode (j : JsonStream Tombstone) : Tombstone -> outcome ShimErr bytes :=
  bounded_encode j Tombstone_Validate MaxRecordBytes ErrRecordInvalid.
Definition decodeTombstone (j : JsonStream Tombstone) : bytes -> outcome ShimErr Tombstone :=
  bounded_decode j Tombstone_Validate MaxRecordBytes ErrRecordInvalid More.

(** ** Paths *)

Lemma path_split_components p : Forall (fun w => 0x2F ∉ w) (path_split p).
Proof.
  induction p as [|c p IH]; cbn [path_split]; [repeat constructor; apply not_elem_of_nil|].
  destruct (Z.eqb_spec c 0x2F) as [|N]; [constructor; [apply not_elem_of_nil|done]|].
  destruct (path_split p) as [|w ws]; [repeat constructor; rewrite list_elem_of_singleton; congruence|].
  inversion IH; subst. constructor; [|done]. rewrite not_elem_of_cons. split; [congruence|done].
Qed.

(** A component of a cleaned path: not empty, not a dot name, without a slash. *)
Definition component (w : bytes) : Prop := w <> [] /\ w <> str "." /\ w <> str ".." /\ 0x2F ∉ w.

Lemma Clean_abs_components p : Forall component (Clean_abs p).
Proof.
  unfold Clean_abs. apply Forall_rev. pose proof (path_split_components p) as Hp. revert Hp.
  assert (Forall component []) as Hs by constructor. revert Hs. generalize (@nil bytes) as st.
  induction (path_split p) as [|w ws IH]; intros st Hs Hp; [done|].
  inversion Hp as [|? ? Hw Hws]; subst. cbn [fold_left]. apply IH; [|done]. unfold clean_step.
  destruct (bytes_eqb w []) eqn:E1; [done|]. destruct (bytes_eqb w (str ".")) eqn:E2; [done|]. cbn [orb].
  destruct (bytes_eqb w (str "..")) eqn:E3; [destruct st; [done|by inversion Hs]|].
  constructor; [|done]. repeat split; [| | |done]; intros ->; vm_compute in E1, E2, E3; discriminate.
Qed.

Lemma strip_common_spec base targ b t :
  strip_common base targ = (b, t) ->
  exists c, base = c ++ b /\ targ = c ++ t /\ (b = [] -> base `prefix_of` targ) /\
    (forall x bs y ts, b = x :: bs -> t = y :: ts -> x <> y).
Proof.
  revert targ. induction base as [|x base IH]; intros targ H.
  { cbn in H. injection H as <- <-. exists []. split_and!; [done|done|intros; apply prefix_nil|done]. }
  destruct targ as [|y targ]; cbn [strip_common] in H.
  { injection H as <- <-. exists []. split_and!; [done|done|discriminate|done]. }
  destruct (bytes_eqb x y) eqn:E.
  - apply bytes_eqb_eq in E as ->. destruct (IH _ H) as (c & -> & -> & Hp & Hd). exists (y :: c).
    split_and!; [done|done| |done]. intros Hb. by apply prefix_cons, Hp.
  - injection H as <- <-. exists []. split_and!; [done|done|discriminate|].
    intros ? ? ? ? [= <- <-] [= <- <-] ->. by rewrite bytes_eqb_refl in E.
Qed.

(** A relative path that starts with a component climbs nowhere. *)
Lemma component_no_climb w ws :
  component w -> bytes_eqb (path_join (w :: ws)) (str "..") || has_prefix_b (path_join (w :: ws)) (str "../") = false.
Proof.
  intros (_ & _ & Hd & Hs).
  assert (forall tail, take 2 (w ++ 0x2F :: tail) = str ".." -> take 3 (w ++ 0x2F :: tail) <> str "../" \/ w = str "..")
    as Ht.
  { intros tail. destruct w as [|a [|b [|c w]]]; cbn; intros E; [discriminate|injection E; intros; subst; lia| |].
    - right. injection E as -> ->. reflexivity.
    - left. intros F. injection F as -> -> ->. apply Hs. set_solver. }
  apply orb_false_iff. unfold has_prefix_b. change (length (str "../")) with 3%nat. split.
  - destruct (bytes_eqb _ _) eqn:E; [|done]. apply bytes_eqb_eq in E. destruct ws as [|v ws].
    + by cbn in E.
    + exfalso. assert (0x2F ∈ str "..") as F; [rewrite <- E; cbn [path_join]; set_solver|]. vm_compute in F. set_solver.
  - destruct (bytes_eqb _ _) eqn:E; [|done]. apply bytes_eqb_eq in E. exfalso. destruct ws as [|v ws].
    + cbn [path_join] in E. apply Hs. assert (0x2F ∈ take 3 w) as F by (rewrite E; vm_compute; set_solver).
      eapply subseteq_take, F.
    + change (path_join (w :: v :: ws)) with (w ++ 0x2F :: path_join (v :: ws)) in E.
      destruct (Ht (path_join (v :: ws))) as [F|F]; [|by apply F|by apply Hd].
      change (take 2 (w ++ 0x2F :: path_join (v :: ws))) with (take (2 `min` 3) (w ++ 0x2F :: path_join (v :: ws))).
      rewrite <- take_take, E. reflexivity.
Qed.

Lemma climbs b bs t :
  bytes_eqb (path_join (map (fun _ => str "..") (b :: bs) ++ t)) (str "..")
  || has_prefix_b (path_join (map (fun _ : bytes => str "..") (b :: bs) ++ t)) (str "../") = true.
Proof. destruct bs as [|b' bs]; [destruct t|]; reflexivity. Qed.

(** The guard on the relative path is exactly containment, component by
    component, of the cleaned paths. *)
Lemma contained_iff base targ :
  Forall component base -> Forall component targ ->
  bytes_eqb (Rel_abs base targ) (str "..") || has_prefix_b (Rel_abs base targ) (str "../") = false <->
  base `prefix_of` targ.
Proof.
  intros Hb Ht. unfold Rel_abs. destruct (strip_common base targ) as [b t] eqn:E.
  destruct (strip_common_spec _ _ _ _ E) as (c & -> & -> & Hp & Hd). destruct b as [|b bs].
  - split; [intros _; by apply Hp|]. intros _. destruct t as [|y ts]; [reflexivity|]. apply component_no_climb.
    apply Forall_app in Ht as [_ Ht]. by inversion Ht.
  - rewrite climbs. split; [discriminate|]. intros [k Hk]. exfalso. rewrite <- app_assoc in Hk.
    apply app_inv_head in Hk. subst t. by eapply (Hd b bs b (bs ++ k)).
Qed.

(** ** What the validators accept *)

Definition identity_wf (id : Identity) : Prop :=
  Forall (fun v => v <> [] /\ blen v <= maxIdentityField /\ Forall (fun c => c <> 0x00 /\ c <> 0x2F /\ c <> 0x5C) v)
    [OrgID id; SessionID id].

Lemma bytes_eqb_neq a b : bytes_eqb a b = false <-> a <> b.
Proof. rewrite <- not_true_iff_false, bytes_eqb_eq. done. Qed.

Lemma ContainsAny_false v (chars : bytes) : ContainsAny v chars = false <-> Forall (fun c => c ∉ chars) v.
Proof.
  unfold ContainsAny. induction v as [|c v IH]; cbn [existsb]; [by split; [constructor|]|].
  rewrite orb_false_iff, IH, Forall_cons. f_equiv. clear IH.
  induction chars as [|d chars IHc]; cbn [existsb]; [split; [set_solver|done]|].
  rewrite orb_false_iff, IHc, not_elem_of_cons, Z.eqb_neq. tauto.
Qed.

(** A guard [if c then return err] on the way to [Ok]. *)
Lemma guard_ok {E A} (c : bool) (e : E) (m : outcome E A) a :
  (if c then Err e else m) = Ok a <-> c = false /\ m = Ok a.
Proof. destruct c; split; [done|intros [? _]; done|done|by intros [_ ?]]. Qed.

Lemma obind_ok {E A B} (m : outcome E A) (k : A -> outcome E B) b : obind m k = Ok b <-> exists a, m = Ok a /\ k a = Ok b.
Proof. destruct m; cbn; split; try naive_solver. Qed.

(** A chain that returns [Ok tt], as the conjunction of its guards. *)
Lemma obind_tt {E B} (m : outcome E unit) (k : unit -> outcome E B) b : obind m k = Ok b <-> m = Ok tt /\ k tt = Ok b.
Proof. rewrite obind_ok. split; [intros ([] & ? & ?); done|intros [? ?]; eauto]. Qed.

Lemma validateIdentityField_ok v :
  validateIdentityField v = Ok tt <->
  v <> [] /\ blen v <= maxIdentityField /\ Forall (fun c => c <> 0x00 /\ c <> 0x2F /\ c <> 0x5C) v.
Proof.
  unfold validateIdentityField. rewrite !guard_ok, bytes_eqb_neq, ContainsAny_false, Z.ltb_ge.
  assert (Forall (fun c => c ∉ [0; 47; 92]) v <-> Forall (fun c => c <> 0x00 /\ c <> 0x2F /\ c <> 0x5C) v) as ->.
  { apply Forall_iff. intros c. rewrite !not_elem_of_cons. split; [tauto|]. intros (? & ? & ?). repeat split; try done. apply not_elem_of_nil. }
  tauto.
Qed.

Lemma Identity_Validate_ok id : Identity_Validate id = Ok tt <-> identity_wf id.
Proof.
  unfold Identity_Validate, identity_wf. rewrite obind_tt, !validateIdentityField_ok, !Forall_cons, Forall_nil. tauto.
Qed.

Lemma record_identity_ok_iff id : record_identity_ok id = Ok tt <-> identity_wf id.
Proof.
  rewrite <- Identity_Validate_ok. unfold record_identity_ok. destruct (Identity_Validate id) as [[]| |]; done.
Qed.

Definition resume_wf (k : option ResumeKey) : Prop :=
  match k with Some k => IsAbs (CodexHome k) = true /\ ThreadID k <> [] | None => True end.

Lemma resume_ok_iff k : resume_ok k = Ok tt <-> resume_wf k.
Proof.
  destruct k as [k|]; [|done]. cbn. unfold ResumeKey_Validate.
  rewrite guard_ok, orb_false_iff, negb_false_iff, bytes_eqb_neq. tauto.
Qed.

(** The workload, its schema version, and what holds of each. *)
Definition workload_case (w : Workload) (schema : Z) (interactive headless : Prop) : Prop :=
  (one_of w [[]; WorkloadInteractive] = true /\ schema = RecordSchemaVersion /\ interactive) \/
  (w = WorkloadHeadlessRecord /\ schema = HeadlessRecordSchemaVersion /\ headless).

Lemma default_workload_cases w :
  let d := default_workload w in
  (one_of w [[]; WorkloadInteractive] = true /\ d = WorkloadInteractive) \/
  (w = WorkloadHeadlessRecord /\ d = WorkloadHeadlessRecord) \/
  (one_of w [[]; WorkloadInteractive] = false /\ w <> WorkloadHeadlessRecord /\
   bytes_eqb d WorkloadInteractive = false /\ bytes_eqb d WorkloadHeadlessRecord = false).
Proof.
  unfold default_workload, one_of. cbn [existsb]. rewrite orb_false_r.
  destruct (bytes_eqb w []) eqn:E1; [by left|]. destruct (bytes_eqb w WorkloadInteractive) eqn:E2.
  { left. by apply bytes_eqb_eq in E2. }
  right. destruct (bytes_eqb w WorkloadHeadlessRecord) eqn:E3; [left; by apply bytes_eqb_eq in E3|right].
  by rewrite bytes_eqb_neq in E3.
Qed.

Lemma workload_switch w schema (mi mh : outcome ShimErr unit) (I H : Prop) :
  (mi = Ok tt <-> schema = RecordSchemaVersion /\ I) -> (mh = Ok tt <-> schema = HeadlessRecordSchemaVersion /\ H) ->
  (if bytes_eqb (default_workload w) WorkloadInteractive then mi
   else if bytes_eqb (default_workload w) WorkloadHeadlessRecord then mh else Err ErrRecordInvalid) = Ok tt
  <-> workload_case w schema I H.
Proof.
  intros Hi Hh. unfold workload_case.
  destruct (default_workload_cases w) as [[E ->]|[[-> ->]|(E & N & -> & ->)]].
  - rewrite bytes_eqb_refl, Hi, E. split; [naive_solver|]. intros [(_ & ?)|[-> _]]; [done|vm_compute in E; discriminate].
  - cbv [bytes_eqb WorkloadHeadlessRecord WorkloadInteractive]. vm_compute (bytes_eqb _ _). cbn [andb]. rewrite Hh.
    split; [naive_solver|]. intros [(E & _)|(_ & ?)]; [vm_compute in E; discriminate|done].
  - rewrite E. split; [discriminate|]. intros [[? _]|[? _]]; done.
Qed.

Definition workarea_wf (r : DiscoveryRecord) : Prop :=
  r_WorkareaRoot r = [] \/
  (IsAbs (r_WorkareaRoot r) = true /\ IsAbs (r_WorkareaPath r) = true /\
   Clean_abs (r_WorkareaRoot r) `prefix_of` Clean_abs (r_WorkareaPath r)).

Lemma workarea_ok_iff r : workarea_ok r = Ok tt <-> workarea_wf r.
Proof.
  unfold workarea_ok, workarea_wf. destruct (bytes_eqb (r_WorkareaRoot r) []) eqn:E.
  { apply bytes_eqb_eq in E. tauto. }
  apply bytes_eqb_neq in E. cbv zeta. rewrite !guard_ok, contained_iff by apply Clean_abs_components.
  rewrite orb_false_iff, !negb_false_iff. tauto.
Qed.

(** A well-formed discovery record. *)
Record record_wf (r : DiscoveryRecord) : Prop := {
  wf_workload : workload_case (r_Workload r) (r_SchemaVersion r) True (V6 <= r_ProtocolMin r);
  wf_identity : identity_wf (Record_Identity r);
  wf_shim : r_ShimID r <> [];
  wf_process : 0 < r_PID r /\ 0 < r_ProcessStartedAt r;
  wf_socket : r_SocketPath r <> [];
  wf_range : r_ProtocolMin r <> 0 /\ r_ProtocolMin r <= r_ProtocolMax r;
  wf_phase : Phase_Known (r_Phase r) = true;
  wf_created : 0 < r_CreatedAtUnixNano r;
  wf_workarea : workarea_wf r;
  wf_resume : resume_wf (r_ResumeKey r)
}.

(** A well-formed tombstone: only a headless one carries the exit members. *)
Record tombstone_wf (t : Tombstone) : Prop := {
  twf_workload : workload_case (t_Workload t) (t_SchemaVersion t)
    (t_Cause t = [] /\ t_OutboxKey t = [] /\ t_OutboxState t = [])
    (HeadlessExitCause_Known (t_Cause t) = true /\
     (if bytes_eqb (t_OutboxState t) [] then t_OutboxKey t = []
      else HeadlessExitState_Known (t_OutboxState t) = true /\
        (t_OutboxState t = HeadlessExitNone -> t_Cause t = HeadlessExitStoppedForResume)));
  twf_identity : identity_wf (Tombstone_Identity t);
  twf_shim : t_ShimID t <> [];
  twf_observed : 0 < t_ObservedAtUnixNano t;
  twf_resume : resume_wf (t_ResumeKey t)
}.

Lemma headless_not_interactive w : workload_case w HeadlessRecordSchemaVersion True True -> w = WorkloadHeadlessRecord.
Proof. intros [(_ & E & _)|(-> & _)]; [discriminate|done]. Qed.

(** The headless range guard is the one condition outside the switch that
    depends on the workload. *)
Lemma headless_guard w schema min :
  workload_case w schema True True ->
  (bytes_eqb (default_workload w) WorkloadHeadlessRecord && (min <? V6) = false <->
   workload_case w schema True (V6 <= min)).
Proof.
  intros Hw. unfold workload_case in *. rewrite andb_false_iff, Z.ltb_ge.
  destruct (default_workload_cases w) as [[E ->]|[[-> ->]|(E & N & _)]].
  - split; [|intros _; left; reflexivity]. intros _. destruct Hw as [?|[-> _]]; [by left|vm_compute in E; discriminate].
  - rewrite bytes_eqb_refl. destruct Hw as [(E & _)|(_ & -> & _)]; [vm_compute in E; discriminate|].
    split; [intros [?|?]; [done|by right]|]. intros [(E & _)|(_ & _ & ?)]; [vm_compute in E; discriminate|by right].
  - destruct Hw as [[? _]|[? _]]; congruence.
Qed.

Lemma schema_guard (v want : Z) : (if negb (v =? want) then Err ErrRecordInvalid else Ok tt) = Ok tt <-> v = want /\ True.
Proof. rewrite guard_ok, negb_false_iff, Z.eqb_eq. tauto. Qed.

Lemma Record_Validate_ok r : Record_Validate r = Ok tt <-> record_wf r.
Proof.
  unfold Record_Validate. cbv zeta.
  rewrite obind_tt, (workload_switch _ _ _ _ True True (schema_guard _ _) (schema_guard _ _)), !obind_tt, !guard_ok,
    obind_tt, record_identity_ok_iff, workarea_ok_iff, resume_ok_iff, !bytes_eqb_neq, !orb_false_iff, !Z.leb_gt,
    !negb_false_iff, Z.eqb_neq, Z.ltb_ge.
  split.
  - intros (W & I & ? & ? & ? & ? & ? & G & ? & ? & ? & ?). apply (headless_guard _ _ _ W) in G. by split.
  - intros [W ? ? [? ?] ? ? ? ? ? ?].
    assert (workload_case (r_Workload r) (r_SchemaVersion r) True True) as W'
      by (destruct W as [?|(? & ? & _)]; [by left|by right]).
    by apply (headless_guard _ _ _ W') in W.
Qed.

Lemma interactive_guard t :
  (if negb (t_SchemaVersion t =? RecordSchemaVersion) then Err ErrRecordInvalid
   else if negb (bytes_eqb (t_Cause t) []) || negb (bytes_eqb (t_OutboxKey t) []) || negb (bytes_eqb (t_OutboxState t) [])
   then Err ErrRecordInvalid else Ok tt) = Ok tt <->
  t_SchemaVersion t = RecordSchemaVersion /\ t_Cause t = [] /\ t_OutboxKey t = [] /\ t_OutboxState t = [].
Proof. rewrite !guard_ok, !orb_false_iff, !negb_false_iff, Z.eqb_eq, !bytes_eqb_eq. tauto. Qed.

Lemma HeadlessExit_Validate_ok c k s g :
  HeadlessExit_Validate {| he_Cause := c; he_OutboxKey := k; he_OutboxState := s; he_GroupReaped := g |} = Ok tt <->
  HeadlessExitCause_Known c = true /\
  (if bytes_eqb s [] then k = []
   else HeadlessExitState_Known s = true /\ (s = HeadlessExitNone -> c = HeadlessExitStoppedForResume)).
Proof.
  unfold HeadlessExit_Validate. cbn [he_Cause he_OutboxKey he_OutboxState]. rewrite guard_ok, negb_false_iff.
  f_equiv. destruct (bytes_eqb s []).
  - destruct (bytes_eqb k []) eqn:E; [apply bytes_eqb_eq in E|apply bytes_eqb_neq in E]; split; done.
  - rewrite !guard_ok, negb_false_iff, andb_false_iff, negb_false_iff, bytes_eqb_neq, bytes_eqb_eq.
    split; [intros (? & [?|?] & _); done|]. intros [? H]. split_and!; [done| |done].
    destruct (decide (s = HeadlessExitNone)); auto.
Qed.

Lemma headless_exit_guard t :
  (if negb (t_SchemaVersion t =? HeadlessRecordSchemaVersion) then Err ErrRecordInvalid
   else HeadlessExit_Validate {| he_Cause := t_Cause t; he_OutboxKey := t_OutboxKey t;
                                 he_OutboxState := t_OutboxState t; he_GroupReaped := false |}) = Ok tt <->
  t_SchemaVersion t = HeadlessRecordSchemaVersion /\
  (HeadlessExitCause_Known (t_Cause t) = true /\
   (if bytes_eqb (t_OutboxState t) [] then t_OutboxKey t = []
    else HeadlessExitState_Known (t_OutboxState t) = true /\
      (t_OutboxState t = HeadlessExitNone -> t_Cause t = HeadlessExitStoppedForResume))).
Proof. rewrite guard_ok, negb_false_iff, Z.eqb_eq, HeadlessExit_Validate_ok. tauto. Qed.

Lemma Tombstone_Validate_ok t : Tombstone_Validate t = Ok tt <-> tombstone_wf t.
Proof.
  unfold Tombstone_Validate. cbv zeta.
  rewrite obind_tt, (workload_switch _ _ _ _ _ _ (interactive_guard t) (headless_exit_guard t)).
  rewrite !obind_tt, !guard_ok, record_identity_ok_iff, resume_ok_iff, bytes_eqb_neq, Z.leb_gt.
  split; [intros (? & ? & ? & ? & ?); by split|intros []; done].
Qed.

(** ** Round trips *)

(** What is relied on of [encoding/json] at a struct type: the decoder stops at
    the end of the object it is given and returns the value that was marshalled.
    [utf8] says the strings of the value are valid UTF-8; the encoder replaces
    invalid bytes. *)
Definition stream_law {A} (j : JsonStream A) (utf8 : A -> Prop) : Prop :=
  forall a b rest, utf8 a -> js_Marshal j a = Some b -> js_Decode j (b ++ rest) = Some (a, rest).

Section bounded_lemmas.
Context {A : Type} (j : JsonStream A) (validate : A -> outcome ShimErr unit) (limit : Z) (err : ShimErr) (wf : A -> Prop).
Hypothesis validate_ok : forall a, validate a = Ok tt <-> wf a.

Lemma bounded_encode_ok a b :
  bounded_encode j validate limit err a = Ok b <-> wf a /\ js_Marshal j a = Some b /\ blen b <= limit.
Proof.
  unfold bounded_encode. rewrite obind_tt, validate_ok. destruct (js_Marshal j a) as [b'|]; [|naive_solver].
  rewrite guard_ok, Z.ltb_ge. naive_solver.
Qed.

Context (trailing : bytes -> bool).

Lemma bounded_decode_ok data a :
  bounded_decode j validate limit err trailing data = Ok a <->
  blen data <= limit /\ wf a /\ exists rest, js_Decode j data = Some (a, rest) /\ trailing rest = false.
Proof.
  unfold bounded_decode. rewrite guard_ok, Z.ltb_ge. f_equiv.
  destruct (js_Decode j data) as [[a' rest]|]; [|naive_solver].
  rewrite guard_ok, obind_tt, validate_ok. naive_solver.
Qed.

Context (utf8 : A -> Prop).

Lemma bounded_roundtrip a b rest :
  stream_law j utf8 -> utf8 a -> bounded_encode j validate limit err a = Ok b -> trailing rest = false ->
  blen b + blen rest <= limit -> bounded_decode j validate limit err trailing (b ++ rest) = Ok a.
Proof.
  intros L U E T B. apply bounded_encode_ok in E as (W & M & _). apply bounded_decode_ok.
  rewrite blen_app. split_and!; [done|done|]. exists rest. auto.
Qed.
End bounded_lemmas.


(** A stream codec of one value, as a table. *)
Definition table_stream {A} `{EqDecision A} (a : A) (b : bytes) : JsonStream A := {|
  js_Marshal x := if decide (x = a) then Some b else None;
  js_Decode y := if decide (take (length b) y = b) then Some (a, drop (length b) y) else None
|}.

Lemma table_stream_law {A} `{EqDecision A} (a : A) (b : bytes) : stream_law (table_stream a b) (fun _ => True).
Proof.
  intros x y rest _. cbn. destruct (decide (x = a)) as [->|]; [|discriminate]. intros [= <-].
  rewrite take_app_length, decide_True by done. by rewrite drop_app_length.
Qed.

Definition sample_record : DiscoveryRecord := {|
  r_SchemaVersion := 2; r_Workload := str "headless"; r_OrgID := str "org"; r_SessionID := str "s1"; r_ShimID := str "shim";
  r_ProcessEpoch := 1; r_PID := 42; r_ProcessStartedAt := 7; r_ProcessStartTicks := 0; r_BootID := [];
  r_SocketPath := str "/run/a.sock"; r_SocketDevice := 1; r_SocketInode := 2; r_ProtocolMin := 6; r_ProtocolMax := 6;
  r_Phase := PhaseRunning; r_WorkareaPath := str "/w/./a/../b"; r_WorkareaRoot := str "/w//"; r_ResumeKey := None;
  r_CreatedAtUnixNano := 1; r_OrphanDeadlineUnixNano := 0
|}.

Definition sample_tombstone : Tombstone := {|
  t_SchemaVersion := 1; t_Workload := []; t_OrgID := str "org"; t_SessionID := str "s1"; t_ShimID := str "shim";
  t_ProcessEpoch := 1; t_HarnessPID := 43; t_HarnessStartedAt := 8; t_ExitCode := 0; t_Signal := []; t_LastSeq := 9;
  t_GroupReaped := true; t_ResumeKey := None; t_Cause := []; t_OutboxKey := []; t_OutboxState := [];
  t_ObservedAtUnixNano := 5
|}.


(** ** The edges of the contract *)

(** The decoders of records and tombstones ask [More], which is false before a
    closing bracket or brace: bytes that start with one pass as the end of the
    file, and so does everything after them. *)
Lemma trailing_brace_accepted j utf8 r b junk :
  stream_law j utf8 -> utf8 r -> Record_encode j r = Ok b -> blen b + 1 + blen junk <= MaxRecordBytes ->
  decodeRecord j (b ++ 0x7D :: junk) = Ok r.
Proof.
  intros L U E B. eapply (bounded_roundtrip _ _ _ _ _ Record_Validate_ok); try done. rewrite blen_cons. lia.
Qed.

(** The key separates the two halves as long as neither contains the separator,
    which [Validate] does not require. *)
Lemma Identity_Key_inj a b :
  0x1F ∉ OrgID a -> 0x1F ∉ OrgID b -> Identity_Key a = Identity_Key b -> a = b.
Proof.
  destruct a as [oa sa], b as [ob sb]. unfold Identity_Key. cbn. revert ob.
  induction oa as [|x oa IH]; intros [|y ob] Ha Hb H; cbn in H.
  - by injection H as ->.
  - injection H as <- _. rewrite not_elem_of_cons in Hb. destruct Hb as [[] _]; done.
  - injection H as -> _. rewrite not_elem_of_cons in Ha. destruct Ha as [[] _]; done.
  - injection H as -> H. rewrite not_elem_of_cons in Ha, Hb. by injection (IH ob (proj2 Ha) (proj2 Hb) H) as -> ->.
Qed.

Lemma Identity_Key_ambiguous :
  let a := {| OrgID := str "a" ++ [0x1F] ++ str "b"; SessionID := str "c" |} in
  let b := {| OrgID := str "a"; SessionID := str "b" ++ [0x1F] ++ str "c" |} in
  Identity_Validate a = Ok tt /\ Identity_Validate b = Ok tt /\ a <> b /\ Identity_Key a = Identity_Key b.
Proof. split_and!; [reflexivity|reflexivity|discriminate|reflexivity]. Qed.

Lemma hex_length b : length (hex_EncodeToString b) = (2 * length b)%nat.
Proof. unfold hex_EncodeToString. induction b as [|x b IH]; [done|]. cbn in *. rewrite IH. lia. Qed.
