(* ===== verification/Fence.v ===== *)
(** * Fence: the orphan bound, the restart fence and the release predicate
    ([src/sessionshim/orphan.go], [fence.go])

    What stops two hosts from running one session: a shim that lost its controller
    ends its harness within a bound that must stay below every external release
    threshold; a planned restart is fenced by a durable record that names each
    incarnation it hands over; and a claim is released on positive evidence that
    the workload ended, never because time passed.  Durations are [int64]
    nanoseconds whose sums wrap; an instant is its exact nanosecond.  The stores
    that persist a fence are arguments, and so is [json.Marshal] at [Fence]. *)

From stdpp Require Import sets.
From S2P Require Import Prelude Utf8 GoSort ShimRecord.

(** ** The orphan policy ([orphan.go]) *)

Definition Second : Z := 1000000000.
Definition Minute : Z := 60 * Second.
Definition DefaultOrphanDeadline : Z := 15 * Minute.
Definition DefaultTerminationGrace : Z := 5 * Second.
Definition DefaultPropagationMargin : Z := 30 * Second.

Record OrphanPolicy := {
  Deadline : Z;
  TerminationGrace : Z;
  PropagationMargin : Z;
  ExternalReleaseThreshold : Z
}.

Definition DefaultOrphanPolicy : OrphanPolicy :=
  {| Deadline := DefaultOrphanDeadline; TerminationGrace := DefaultTerminationGrace;
     PropagationMargin := DefaultPropagationMargin; ExternalReleaseThreshold := 0 |}.

Definition TotalBound (p : OrphanPolicy) : Z := i64 (i64 (Deadline p + TerminationGrace p) + PropagationMargin p).

(** [true] is a nil error; the one error is [ErrOrphanPolicyUnsafe]. *)
Definition OrphanPolicy_Validate (p : OrphanPolicy) : bool :=
  if Deadline p <=? 0 then false
  else if (TerminationGrace p <? 0) || (PropagationMargin p <? 0) then false
  else if ExternalReleaseThreshold p <=? 0 then true
  else negb (ExternalReleaseThreshold p <=? TotalBound p).

Definition WithExternalThreshold (p : OrphanPolicy) (d : Z) : OrphanPolicy :=
  {| Deadline := Deadline p; TerminationGrace := TerminationGrace p; PropagationMargin := PropagationMargin p;
     ExternalReleaseThreshold := d |}.

(** ** Fences *)

Inductive FenceState := FenceHeld | FenceReconciliationRequired | FenceConsumed.

#[export] Instance FenceState_eq_dec : EqDecision FenceState.
Proof. solve_decision. Defined.

Record FencedSession := {
  fs_OrgID : bytes;
  fs_SessionID : bytes;
  fs_ShimID : bytes;
  fs_ProcessEpoch : Z;
  fs_ControllerGeneration : Z;
  fs_LastForwardedSeq : Z
}.

#[export] Instance FencedSession_eq_dec : EqDecision FencedSession.
Proof. solve_decision. Defined.

Definition FencedSession_Identity (f : FencedSession) : Identity := {| OrgID := fs_OrgID f; SessionID := fs_SessionID f |}.

Record Fence := {
  FenceID : bytes;
  HostID : bytes;
  Sessions : list FencedSession;
  IssuedAtUnixNano : Z;
  HoldUntilUnixNano : Z;
  State : FenceState;
  DurableRevision : bytes
}.

#[export] Instance Fence_eq_dec : EqDecision Fence.
Proof. solve_decision. Defined.

Definition Covers (f : Fence) (id : Identity) : bool :=
  existsb (fun s => bool_decide (FencedSession_Identity s = id)) (Sessions f).

Definition Expired (f : Fence) (now : Z) : bool := (0 <? HoldUntilUnixNano f) && negb (now <? HoldUntilUnixNano f).

Definition set_state (f : Fence) (s : FenceState) : Fence :=
  {| FenceID := FenceID f; HostID := HostID f; Sessions := Sessions f; IssuedAtUnixNano := IssuedAtUnixNano f;
     HoldUntilUnixNano := HoldUntilUnixNano f; State := s; DurableRevision := DurableRevision f |}.

Definition Reconcile (f : Fence) (now : Z) : Fence :=
  if bool_decide (State f = FenceHeld) && Expired f now then set_state f FenceReconciliationRequired else f.

(** ** Requesting a fence *)

Record FencePolicy := { RestartBudget : Z; Orphan : OrphanPolicy }.

Definition HoldWindow (p : FencePolicy) : Z :=
  let budget := if RestartBudget p <=? 0 then 2 * Minute else RestartBudget p in
  i64 (budget + TotalBound (Orphan p)).

(** The comparator of [sortedFencedSessions]. *)
Definition session_less : FencedSession -> FencedSession -> bool :=
  less_by fs_OrgID bytes_ltb (less_by fs_SessionID bytes_ltb (less_by fs_ShimID bytes_ltb
  (less_by fs_ProcessEpoch Z.ltb (less_by fs_ControllerGeneration Z.ltb
  (fun a b => fs_LastForwardedSeq a <? fs_LastForwardedSeq b))))).

Definition sortedFencedSessions (l : list FencedSession) : list FencedSession := sort_Slice session_less l.

Inductive FenceErr := ErrFenceRequired | ErrFenceStore.

(** [i64] of an exact instant is [UnixNano()]. *)
Definition new_fence (fenceID hostID : bytes) (sessions : list FencedSession) (policy : FencePolicy) (now : Z) : Fence :=
  {| FenceID := fenceID; HostID := hostID; Sessions := sessions; IssuedAtUnixNano := i64 now;
     HoldUntilUnixNano := i64 (now + HoldWindow policy); State := FenceHeld; DurableRevision := [] |}.

Definition set_sessions (f : Fence) (l : list FencedSession) : Fence :=
  {| FenceID := FenceID f; HostID := HostID f; Sessions := l; IssuedAtUnixNano := IssuedAtUnixNano f;
     HoldUntilUnixNano := HoldUntilUnixNano f; State := State f; DurableRevision := DurableRevision f |}.

(** [store] is the optional [FenceStore]; [None] of it is an error. *)
Definition RequestFence (store : option (Fence -> option Fence)) (fenceID hostID : bytes) (ids : list FencedSession)
    (policy : FencePolicy) (now : Z) : outcome FenceErr Fence :=
  if bytes_eqb fenceID [] then Err ErrFenceRequired
  else
    let requested := sortedFencedSessions ids in
    let f := new_fence fenceID hostID requested policy now in
    match store with
    | None => Ok f
    | Some acknowledge =>
        match acknowledge f with
        | None => Err ErrFenceStore
        | Some ack =>
            if negb (bytes_eqb (FenceID ack) (FenceID f)) then Err ErrFenceRequired
            else
              let ackSessions := sortedFencedSessions (Sessions ack) in
              if negb (blen ackSessions =? blen requested) then Err ErrFenceRequired
              else if existsb (fun p => negb (bool_decide (p.1 = p.2))) (zip ackSessions requested)
              then Err ErrFenceRequired
              else Ok (set_sessions ack ackSessions)
        end
    end.

Record FenceRequest := { fr_Fence : Fence; RequestBytes : bytes }.
Record FenceAcknowledgement := { ack_RequestBytes : bytes; ack_DurableRevision : bytes }.

Definition set_revision (f : Fence) (rev : bytes) : Fence :=
  {| FenceID := FenceID f; HostID := HostID f; Sessions := Sessions f; IssuedAtUnixNano := IssuedAtUnixNano f;
     HoldUntilUnixNano := HoldUntilUnixNano f; State := State f; DurableRevision := rev |}.

(** [unicode.IsSpace], and [strings.TrimSpace(s) == ""]. *)
Definition unicode_IsSpace (r : Z) : bool :=
  in_range 0x09 0x0D r || in_range 0x2000 0x200A r
  || existsb (Z.eqb r) [0x20; 0x85; 0xA0; 0x1680; 0x2028; 0x2029; 0x202F; 0x205F; 0x3000].
Definition blank (s : bytes) : bool := forallb (fun rs => unicode_IsSpace (fst rs)) (decode_all s).

Section exact.
Context (marshal : Fence -> option bytes).

Definition NewExactFenceRequest (fenceID hostID : bytes) (ids : list FencedSession) (policy : FencePolicy) (now : Z)
    : outcome FenceErr FenceRequest :=
  if bytes_eqb fenceID [] then Err ErrFenceRequired
  else
    let f := new_fence fenceID hostID ids policy now in
    match marshal f with
    | None => Err ErrFenceRequired
    | Some b => Ok {| fr_Fence := f; RequestBytes := b |}
    end.

Definition AcknowledgeExactFence (store : option (FenceRequest -> option FenceAcknowledgement)) (request : FenceRequest)
    : outcome FenceErr Fence :=
  match marshal (fr_Fence request) with
  | None => Err ErrFenceRequired
  | Some expectedBytes =>
      if negb (bytes_eqb (RequestBytes request) expectedBytes) then Err ErrFenceRequired
      else match store with
      | None => Ok (fr_Fence request)
      | Some acknowledge =>
          match acknowledge {| fr_Fence := set_revision (fr_Fence request) []; RequestBytes := RequestBytes request |} with
          | None => Err ErrFenceStore
          | Some ack =>
              if blank (ack_DurableRevision ack) then Err ErrFenceRequired
              else if negb (bytes_eqb (ack_RequestBytes ack) (RequestBytes request)) then Err ErrFenceRequired
              else Ok (set_revision (fr_Fence request) (ack_DurableRevision ack))
          end
      end
  end.

Definition RequestFenceExact (store : option (FenceRequest -> option FenceAcknowledgement)) (fenceID hostID : bytes)
    (ids : list FencedSession) (policy : FencePolicy) (now : Z) : outcome FenceErr Fence :=
  obind (NewExactFenceRequest fenceID hostID ids policy now) (fun request => AcknowledgeExactFence store request).
End exact.

(** ** Terminal proof and the release predicate *)

Record TerminalCorrelationProof := {
  cp_ShimID : bytes;
  cp_ProcessEpoch : Z;
  cp_AdoptedReceipt : bool;
  cp_Tombstone : option Tombstone
}.

Record TerminalProof := {
  AdoptedReceipt : bool;
  tp_Tombstone : option Tombstone;
  Correlations : list TerminalCorrelationProof
}.

Definition reaped (t : option Tombstone) : bool := match t with Some t => t_GroupReaped t | None => false end.

Definition Proves (p : TerminalProof) : bool :=
  if AdoptedReceipt p then true
  else if reaped (tp_Tombstone p) then true
  else existsb (fun proof => cp_AdoptedReceipt proof || reaped (cp_Tombstone proof)) (Correlations p).

(** A tombstone that reaped exactly this incarnation. *)
Definition tombstone_of (id : Identity) (shimID : bytes) (epoch : Z) (t : option Tombstone) : bool :=
  match t with
  | Some t => t_GroupReaped t && bool_decide (Tombstone_Identity t = id) && bytes_eqb (t_ShimID t) shimID
              && (t_ProcessEpoch t =? epoch)
  | None => false
  end.

Definition provesCorrelation (p : TerminalProof) (id : Identity) (fenced : FencedSession) : bool :=
  existsb (fun proof =>
    if negb (bytes_eqb (cp_ShimID proof) (fs_ShimID fenced)) || negb (cp_ProcessEpoch proof =? fs_ProcessEpoch fenced)
    then false
    else cp_AdoptedReceipt proof || tombstone_of id (fs_ShimID fenced) (fs_ProcessEpoch fenced) (cp_Tombstone proof))
  (Correlations p).

Definition provesScalarTombstone (p : TerminalProof) (id : Identity) (fenced : FencedSession) : bool :=
  tombstone_of id (fs_ShimID fenced) (fs_ProcessEpoch fenced) (tp_Tombstone p).

Definition legacyProvesSingleCorrelation (p : TerminalProof) (id : Identity) (fenced : FencedSession) : bool :=
  if AdoptedReceipt p then true else provesScalarTombstone p id fenced.

Definition fenced_at (id : Identity) (shimID : bytes) (epoch : Z) : FencedSession :=
  {| fs_OrgID := OrgID id; fs_SessionID := SessionID id; fs_ShimID := shimID; fs_ProcessEpoch := epoch;
     fs_ControllerGeneration := 0; fs_LastForwardedSeq := 0 |}.

Definition TerminalProofCovers (proof : TerminalProof) (id : Identity) (shimID : bytes) (epoch : Z) : bool :=
  provesCorrelation proof id (fenced_at id shimID epoch) || provesScalarTombstone proof id (fenced_at id shimID epoch).

Inductive ReleaseVerdict := ReleaseAllowed | ReleaseHeld | ReleaseReconcile.

Definition covered_sessions (f : Fence) (id : Identity) : list FencedSession :=
  filter (fun s => FencedSession_Identity s = id) (Sessions f).

Definition ReleaseDecision (fence : option Fence) (id : Identity) (proof : TerminalProof) (now : Z) : ReleaseVerdict :=
  let unfenced := if Proves proof then ReleaseAllowed else ReleaseReconcile in
  match fence with
  | None => unfenced
  | Some f =>
      if negb (Covers f id) then unfenced
      else
        let allowed :=
          match covered_sessions f id with
          | [] => false
          | [s] => legacyProvesSingleCorrelation proof id s || provesCorrelation proof id s
          | covered => forallb (provesCorrelation proof id) covered
          end in
        if allowed then ReleaseAllowed
        else if negb (Expired f now) && bool_decide (State f = FenceHeld) then ReleaseHeld
        else ReleaseReconcile
  end.

(** ** The bounds *)

Definition int64_ok (x : Z) : Prop := - 2 ^ 63 <= x < 2 ^ 63.

Lemma i64_in_range x : int64_ok x -> i64 x = x.
Proof. unfold int64_ok, i64. intros H. rewrite Z.mod_small by lia. lia. Qed.

Lemma i64_add_l x y : i64 (i64 x + y) = i64 (x + y).
Proof.
  unfold i64. f_equal. replace ((x + 2 ^ 63) mod 2 ^ 64 - 2 ^ 63 + y + 2 ^ 63) with ((x + 2 ^ 63) mod 2 ^ 64 + y) by lia.
  rewrite Zplus_mod_idemp_l. f_equal. lia.
Qed.

(** The left-hand side of the inequality, without wrap-around. *)
Definition exact_bound (p : OrphanPolicy) : Z := Deadline p + TerminationGrace p + PropagationMargin p.

Lemma TotalBound_eq p : TotalBound p = i64 (exact_bound p).
Proof. apply i64_add_l. Qed.

Definition budget (p : FencePolicy) : Z := if RestartBudget p <=? 0 then 2 * Minute else RestartBudget p.

(** The double-execution bound.  As long as the sum of the policy's
    durations fits an [int64], the startup check accepts a policy exactly when its
    deadline is positive, its grace and margin are not negative, and, under an
    external release threshold, deadline plus grace plus margin stays strictly
    below that threshold; raising the threshold never refuses a policy that was
    accepted, lowering it is checked again.  A fence issued under such a policy
    outlives the whole orphan bound by the restart budget, which is never less
    than a nanosecond. *)
Theorem orphan_bound_respected p b now fenceID hostID sessions :
  exact_bound p < 2 ^ 63 -> int64_ok (ExternalReleaseThreshold p) ->
  (OrphanPolicy_Validate p = true <->
   0 < Deadline p /\ 0 <= TerminationGrace p /\ 0 <= PropagationMargin p /\
   (0 < ExternalReleaseThreshold p -> exact_bound p < ExternalReleaseThreshold p)) /\
  (forall d, OrphanPolicy_Validate p = true ->
     (OrphanPolicy_Validate (WithExternalThreshold p d) = true <-> d <= 0 \/ exact_bound p < d)) /\
  (OrphanPolicy_Validate p = true ->
   let fp := {| RestartBudget := b; Orphan := p |} in
   let f := new_fence fenceID hostID sessions fp now in
   exact_bound p < exact_bound p + budget fp /\
   (0 <= now -> now + exact_bound p + budget fp < 2 ^ 63 ->
    HoldUntilUnixNano f = IssuedAtUnixNano f + exact_bound p + budget fp /\
    forall t, 0 <= t <= now + exact_bound p -> Expired f t = false)).
Proof.
  intros Hs Ht.
  assert (OrphanPolicy_Validate p = true -> 0 < Deadline p /\ 0 <= TerminationGrace p /\ 0 <= PropagationMargin p) as Hb.
  { unfold OrphanPolicy_Validate. bool_cases; try discriminate; lia. }
  assert (0 < Deadline p /\ 0 <= TerminationGrace p /\ 0 <= PropagationMargin p -> TotalBound p = exact_bound p) as Hx.
  { intros H. rewrite TotalBound_eq. apply i64_in_range. unfold int64_ok, exact_bound in *. lia. }
  split_and!.
  - split.
    + intros V. pose proof (Hb V) as B. rewrite <- (Hx B). unfold OrphanPolicy_Validate in V. bool_cases; try discriminate; lia.
    + intros (? & ? & ? & H). unfold OrphanPolicy_Validate. rewrite (Hx ltac:(done)). bool_cases; lia.
  - intros d V. pose proof (Hb V) as B. unfold OrphanPolicy_Validate, WithExternalThreshold.
    change (TotalBound {| Deadline := _ |}) with (TotalBound p). rewrite (Hx B). cbn. bool_cases; lia.
  - intros V fp f. pose proof (Hb V) as B.
    assert (0 < budget fp) as Hp by (unfold budget, Minute, Second; bool_cases; lia).
    split; [lia|]. intros Hn Hf. unfold f, new_fence, Expired. cbn [HoldUntilUnixNano IssuedAtUnixNano].
    assert (HoldWindow fp = budget fp + exact_bound p) as ->.
    { unfold HoldWindow. cbn [Orphan fp]. rewrite (Hx B). fold (budget fp). apply i64_in_range.
      unfold int64_ok, exact_bound in *. lia. }
    unfold exact_bound in *. rewrite !i64_in_range by (unfold int64_ok; lia).
    split; [lia|]. intros t ?. apply andb_false_iff. right. lia.
Qed.

Lemma orphan_bound_respected_witness :
  OrphanPolicy_Validate (WithExternalThreshold DefaultOrphanPolicy (20 * Minute)) = true /\
  OrphanPolicy_Validate (WithExternalThreshold DefaultOrphanPolicy (15 * Minute)) = false.
Proof.
  destruct (orphan_bound_respected DefaultOrphanPolicy 0 0 [] [] []) as (H & W & _).
  - vm_compute. reflexivity.
  - split; vm_compute; [discriminate|reflexivity].
  - assert (OrphanPolicy_Validate DefaultOrphanPolicy = true) as V by reflexivity. split.
    + apply (W (20 * Minute) V). right. vm_compute. reflexivity.
    + destruct (OrphanPolicy_Validate (WithExternalThreshold _ (15 * Minute))) eqn:E; [|reflexivity].
      apply (W (15 * Minute) V) in E as [E|E]; vm_compute in E; [destruct (E eq_refl)|discriminate].
Defined.

(** Beyond the width of a duration the sum wraps to a negative number, and a
    policy that holds a harness for centuries is accepted under any threshold. *)
Lemma orphan_bound_wraps :
  let p := {| Deadline := 2 ^ 62; TerminationGrace := 2 ^ 62; PropagationMargin := 0; ExternalReleaseThreshold := Minute |} in
  OrphanPolicy_Validate p = true /\ ExternalReleaseThreshold p < exact_bound p.
Proof. split; vm_compute; reflexivity. Qed.

(** ** Coverage of a fence *)

#[export] Instance session_less_linear : LinearLess session_less.
Proof.
  unfold session_less.
  pose proof (orders_key fs_LastForwardedSeq Z.ltb) as O1.
  pose proof (orders_by fs_ControllerGeneration Z.ltb _ _ (OrdersUpTo0 := O1)) as O2.
  pose proof (orders_by fs_ProcessEpoch Z.ltb _ _ (OrdersUpTo0 := O2)) as O3.
  pose proof (orders_by fs_ShimID bytes_ltb _ _ (OrdersUpTo0 := O3)) as O4.
  pose proof (orders_by fs_SessionID bytes_ltb _ _ (OrdersUpTo0 := O4)) as O5.
  pose proof (orders_by fs_OrgID bytes_ltb _ _ (OrdersUpTo0 := O5)) as O6.
  apply (orders_linear _ _ (OrdersUpTo0 := O6)). intros [] []. cbn. naive_solver.
Qed.

Lemma zip_all_equal {A} `{EqDecision A} (l k : list A) :
  blen l = blen k -> existsb (fun p => negb (bool_decide (p.1 = p.2))) (zip l k) = false <-> l = k.
Proof.
  revert k. induction l as [|x l IH]; intros [|y k] Hl; rewrite ?blen_cons, ?blen_nil in Hl; cbn [zip_with existsb fst snd].
  - done.
  - pose proof (blen_nonneg k). lia.
  - pose proof (blen_nonneg l). lia.
  - rewrite orb_false_iff, negb_false_iff, bool_decide_eq_true, IH by lia. split; [by intros [-> ->]|intros [=]; done].
Qed.

(** The element-by-element comparison of the two sorted slices accepts exactly
    the permutations. *)
Lemma same_sessions (l k : list FencedSession) :
  negb (blen (sortedFencedSessions l) =? blen (sortedFencedSessions k)) = false /\
  existsb (fun p => negb (bool_decide (p.1 = p.2))) (zip (sortedFencedSessions l) (sortedFencedSessions k)) = false
  <-> l ≡ₚ k.
Proof.
  rewrite negb_false_iff, Z.eqb_eq. split.
  - intros [Hl H]. apply zip_all_equal in H; [|done]. by apply sort_Slice_eq in H; [|apply _].
  - intros H. assert (sortedFencedSessions l = sortedFencedSessions k) as -> by (apply sort_Slice_eq; [apply _|done]).
    split; [done|]. by apply zip_all_equal.
Qed.

(** A fence covers exactly the incarnations it names. *)
Lemma Covers_iff f id : Covers f id = true <-> exists s, s ∈ Sessions f /\ FencedSession_Identity s = id.
Proof.
  unfold Covers. rewrite existsb_exists. setoid_rewrite bool_decide_eq_true. setoid_rewrite list_elem_of_In. done.
Qed.

(** C35. A fence that is granted covers exactly what was asked.  With no store the
    fence names the requested incarnations, held until the end of the hold window.
    A store's acknowledgement is accepted exactly when it carries the requested
    fence id and the same incarnations up to order, every correlation value
    included, and the fence returned names them sorted; an acknowledgement of the
    exact-byte contract is accepted exactly when it echoes the bytes of the request
    and names a revision that is not blank, and the fence returned is the retained
    request with that revision.  In every case an identity is covered by the fence
    if and only if the caller listed one of its incarnations. *)
Theorem fence_covers_request marshal fenceID hostID ids policy now :
  fenceID <> [] ->
  RequestFence None fenceID hostID ids policy now =
    Ok (new_fence fenceID hostID (sortedFencedSessions ids) policy now) /\
  (forall store ack, store (new_fence fenceID hostID (sortedFencedSessions ids) policy now) = Some ack ->
     (FenceID ack = fenceID /\ Sessions ack ≡ₚ ids ->
      RequestFence (Some store) fenceID hostID ids policy now = Ok (set_sessions ack (sortedFencedSessions ids))) /\
     (~ (FenceID ack = fenceID /\ Sessions ack ≡ₚ ids) ->
      RequestFence (Some store) fenceID hostID ids policy now = Err ErrFenceRequired)) /\
  (forall store b ack,
     marshal (new_fence fenceID hostID ids policy now) = Some b ->
     store {| fr_Fence := new_fence fenceID hostID ids policy now; RequestBytes := b |} = Some ack ->
     RequestFenceExact marshal (Some store) fenceID hostID ids policy now =
       if decide (blank (ack_DurableRevision ack) = false /\ ack_RequestBytes ack = b)
       then Ok (set_revision (new_fence fenceID hostID ids policy now) (ack_DurableRevision ack))
       else Err ErrFenceRequired) /\
  (forall store f,
     RequestFence store fenceID hostID ids policy now = Ok f \/
     (exists st, RequestFenceExact marshal st fenceID hostID ids policy now = Ok f) ->
     Sessions f ≡ₚ ids /\
     forall id, Covers f id = true <-> exists s, s ∈ ids /\ FencedSession_Identity s = id).
Proof.
  intros Hne. apply bytes_eqb_neq in Hne. unfold RequestFence, RequestFenceExact, NewExactFenceRequest. rewrite Hne.
  assert (forall l, l ≡ₚ ids -> forall id, (exists s, s ∈ l /\ FencedSession_Identity s = id) <->
    (exists s, s ∈ ids /\ FencedSession_Identity s = id)) as Hc.
  { intros l Hp id. by setoid_rewrite Hp. }
  split_and!; [done| | |].
  - intros store ack E. cbv zeta. rewrite E. cbn [FenceID new_fence]. split.
    + intros [-> Hp]. rewrite bytes_eqb_refl. cbn [negb].
      assert (Sessions ack ≡ₚ ids) as Hq by done. apply same_sessions in Hq as [-> ->].
      do 2 f_equal. apply sort_Slice_eq; [apply _|done].
    + intros Hn. destruct (bytes_eqb (FenceID ack) fenceID) eqn:Ei; [|done]. apply bytes_eqb_eq in Ei. cbn [negb].
      destruct (negb (_ =? _)) eqn:E1; [done|]. destruct (existsb _ _) eqn:E2; [done|].
      exfalso. apply Hn. split; [done|]. by apply same_sessions.
  - intros store b ack E Es. cbv zeta. rewrite E. cbn [obind]. unfold AcknowledgeExactFence.
    cbn [fr_Fence RequestBytes]. rewrite E, bytes_eqb_refl. cbn [negb].
    change (set_revision (new_fence fenceID hostID ids policy now) []) with (new_fence fenceID hostID ids policy now).
    rewrite Es. destruct (blank _) eqn:Eb; [by rewrite decide_False by naive_solver|].
    destruct (bytes_eqb (ack_RequestBytes ack) b) eqn:Ee; cbn [negb].
    + apply bytes_eqb_eq in Ee. by rewrite decide_True.
    + apply bytes_eqb_neq in Ee. by rewrite decide_False by naive_solver.
  - intros store f H. assert (Sessions f ≡ₚ ids) as Hp.
    { destruct H as [H|[st H]].
      - cbv zeta in H. destruct store as [store|]; [|injection H as <-; apply sort_Slice_permutation].
        destruct (store _) as [ack|]; [|done]. destruct (negb (bytes_eqb _ _)); [done|].
        destruct (negb (_ =? _)) eqn:E1; [done|]. destruct (existsb _ _) eqn:E2; [done|]. injection H as <-.
        cbn [Sessions set_sessions]. unfold sortedFencedSessions at 1. rewrite sort_Slice_permutation.
        by apply same_sessions.
      - cbv zeta in H. destruct (marshal _); [|done]. cbn [obind] in H. unfold AcknowledgeExactFence in H.
        cbn [fr_Fence RequestBytes] in H. destruct (marshal _); [|done]. destruct (negb _); [done|].
        destruct st as [st|]; [|by injection H as <-]. destruct (st _); [|done]. destruct (blank _); [done|].
        destruct (negb _); [done|]. by injection H as <-. }
    split; [done|]. intros id. rewrite Covers_iff. by apply Hc.
Qed.

Definition sample_fenced (shim : bytes) (epoch : Z) : FencedSession :=
  {| fs_OrgID := str "org"; fs_SessionID := str "s1"; fs_ShimID := shim; fs_ProcessEpoch := epoch;
     fs_ControllerGeneration := 3; fs_LastForwardedSeq := 12 |}.
Definition sample_ids : list FencedSession := [sample_fenced (str "b") 1; sample_fenced (str "a") 2].
Definition sample_policy : FencePolicy := {| RestartBudget := 0; Orphan := DefaultOrphanPolicy |}.

(** A store that gives the incarnations back in another order is accepted, one
    that drops one of them is not. *)
Lemma fence_covers_request_witness :
  RequestFence (Some (fun f => Some (set_sessions f (rev (Sessions f))))) (str "f1") (str "h") sample_ids sample_policy 5 =
    Ok (new_fence (str "f1") (str "h") (rev sample_ids) sample_policy 5) /\
  RequestFence (Some (fun f => Some (set_sessions f (tail (Sessions f))))) (str "f1") (str "h") sample_ids sample_policy 5 =
    Err ErrFenceRequired.
Proof.
  destruct (fence_covers_request (fun _ => None) (str "f1") (str "h") sample_ids sample_policy 5) as (_ & H & _);
    [discriminate|]. split.
  - refine (proj1 (H (fun f => Some (set_sessions f (rev (Sessions f)))) _ eq_refl) _). split; [reflexivity|].
    change (Sessions _) with (rev (sortedFencedSessions sample_ids)). rewrite <- Permutation_rev.
    apply sort_Slice_permutation.
  - refine (proj2 (H (fun f => Some (set_sessions f (tail (Sessions f)))) _ eq_refl) _). intros [_ F].
    apply Permutation_length in F. discriminate F.
Defined.

(** ** Release *)

(** Positive evidence that one incarnation ended: a receipt or a tombstone of a
    reaped process group that names it. *)
Definition ended (p : TerminalProof) (id : Identity) (shimID : bytes) (epoch : Z) : Prop :=
  exists c, c ∈ Correlations p /\ cp_ShimID c = shimID /\ cp_ProcessEpoch c = epoch /\
    (cp_AdoptedReceipt c = true \/ tombstone_of id shimID epoch (cp_Tombstone c) = true).

Lemma tombstone_of_iff id shimID epoch t :
  tombstone_of id shimID epoch (Some t) = true <->
  t_GroupReaped t = true /\ Tombstone_Identity t = id /\ t_ShimID t = shimID /\ t_ProcessEpoch t = epoch.
Proof. cbn. rewrite !andb_true_iff, bool_decide_eq_true, bytes_eqb_eq, Z.eqb_eq. tauto. Qed.

Lemma provesCorrelation_iff p id s :
  provesCorrelation p id s = true <-> ended p id (fs_ShimID s) (fs_ProcessEpoch s).
Proof.
  unfold provesCorrelation, ended. rewrite existsb_exists. setoid_rewrite <- list_elem_of_In. f_equiv. intros c.
  destruct (bytes_eqb (cp_ShimID c) _) eqn:E1; cbn [negb orb].
  2: { apply bytes_eqb_neq in E1. naive_solver. }
  apply bytes_eqb_eq in E1. destruct (Z.eqb_spec (cp_ProcessEpoch c) (fs_ProcessEpoch s)); cbn [negb]; [|naive_solver].
  rewrite orb_true_iff. tauto.
Qed.

(** Evidence for the session as a whole, when no fence enumerates incarnations. *)
Definition some_evidence (p : TerminalProof) : Prop :=
  AdoptedReceipt p = true \/ reaped (tp_Tombstone p) = true \/
  exists c, c ∈ Correlations p /\ (cp_AdoptedReceipt c = true \/ reaped (cp_Tombstone c) = true).

Lemma Proves_iff p : Proves p = true <-> some_evidence p.
Proof.
  unfold Proves, some_evidence. destruct (AdoptedReceipt p); [naive_solver|]. destruct (reaped (tp_Tombstone p)); [naive_solver|].
  rewrite existsb_exists. setoid_rewrite <- list_elem_of_In. setoid_rewrite orb_true_iff. naive_solver.
Qed.

(** What the fence, if it covers the identity, asks of the evidence. *)
Definition evidence (fence : option Fence) (id : Identity) (p : TerminalProof) : Prop :=
  match fence with
  | Some f =>
      match covered_sessions f id with
      | [] => some_evidence p
      | [s] => AdoptedReceipt p = true \/ tombstone_of id (fs_ShimID s) (fs_ProcessEpoch s) (tp_Tombstone p) = true \/
               ended p id (fs_ShimID s) (fs_ProcessEpoch s)
      | l => forall s, s ∈ l -> ended p id (fs_ShimID s) (fs_ProcessEpoch s)
      end
  | None => some_evidence p
  end.

(** The fence protects the identity at this instant. *)
Definition in_force (fence : option Fence) (id : Identity) (now : Z) : Prop :=
  exists f, fence = Some f /\ Covers f id = true /\ State f = FenceHeld /\ Expired f now = false.

Lemma covered_nil f id : covered_sessions f id = [] <-> Covers f id = false.
Proof.
  unfold covered_sessions. rewrite <- not_true_iff_false, Covers_iff. split.
  - intros E (s & Hs & Hi). assert (s ∈ covered_sessions f id) as F by (apply list_elem_of_filter; done).
    unfold covered_sessions in F. rewrite E in F. by apply not_elem_of_nil in F.
  - intros H. destruct (filter _ _) as [|s l] eqn:E; [done|]. exfalso. apply H. exists s.
    assert (s ∈ covered_sessions f id) as F by (unfold covered_sessions; rewrite E; left).
    apply list_elem_of_filter in F. naive_solver.
Qed.

Lemma ReleaseDecision_cases fence id p now :
  (evidence fence id p /\ ReleaseDecision fence id p now = ReleaseAllowed) \/
  (~ evidence fence id p /\ in_force fence id now /\ ReleaseDecision fence id p now = ReleaseHeld) \/
  (~ evidence fence id p /\ ~ in_force fence id now /\ ReleaseDecision fence id p now = ReleaseReconcile).
Proof.
  assert (forall fence, ~ in_force fence id now -> (some_evidence p /\ (if Proves p then ReleaseAllowed else ReleaseReconcile) = ReleaseAllowed) \/
    (~ some_evidence p /\ in_force fence id now /\ (if Proves p then ReleaseAllowed else ReleaseReconcile) = ReleaseHeld) \/
    (~ some_evidence p /\ ~ in_force fence id now /\ (if Proves p then ReleaseAllowed else ReleaseReconcile) = ReleaseReconcile)) as Hu.
  { intros fc Hf. pose proof (Proves_iff p) as P. destruct (Proves p); [left|right; right]; split_and?; try done; [by apply P|].
    intros S. by apply P in S. }
  unfold ReleaseDecision, evidence. cbv zeta. destruct fence as [f|].
  2: { apply Hu. intros (f & E & _). done. }
  destruct (Covers f id) eqn:C; cbn [negb].
  2: { pose proof (proj2 (covered_nil f id) C) as ->. apply Hu. intros (g & [= ->] & ? & _). congruence. }
  assert (forall (b : bool) (P : Prop), (b = true <-> P) ->
    let v := if b then ReleaseAllowed else if negb (Expired f now) && bool_decide (State f = FenceHeld) then ReleaseHeld else ReleaseReconcile in
    (P /\ v = ReleaseAllowed) \/ (~ P /\ in_force (Some f) id now /\ v = ReleaseHeld) \/
    (~ P /\ ~ in_force (Some f) id now /\ v = ReleaseReconcile)) as Hv.
  { intros b P HP. cbv zeta. destruct b; [left; split; [by apply HP|done]|right].
    assert (~ P) as N by (intros ?; by assert (false = true) by by apply HP).
    destruct (negb (Expired f now) && bool_decide (State f = FenceHeld)) eqn:E; [left|right]; split_and!; try done.
    - apply andb_true_iff in E as [E1 E2]. apply negb_true_iff in E1. apply bool_decide_eq_true in E2. by exists f.
    - intros (g & [= <-] & _ & S & X). rewrite X, bool_decide_true in E; done. }
  destruct (covered_sessions f id) as [|s [|s' l]] eqn:E.
  - apply covered_nil in E. congruence.
  - apply Hv. rewrite orb_true_iff, provesCorrelation_iff. unfold legacyProvesSingleCorrelation, provesScalarTombstone.
    destruct (AdoptedReceipt p); [naive_solver|]. destruct (tombstone_of _ _ _ _); naive_solver.
  - apply Hv. rewrite forallb_forall. setoid_rewrite <- list_elem_of_In. by setoid_rewrite provesCorrelation_iff.
Qed.

(** C22. A claim is released on evidence and on nothing else.  Release is allowed
    exactly when the evidence closes every incarnation the fence names for the
    session (each by a receipt or a reaped-group tombstone that names its own shim
    and process epoch; a receipt without a correlation counts only when the fence
    names a single incarnation, or when no fence covers the session).  Without that
    evidence the session is held while a fence is in force and goes to
    reconciliation otherwise; the passing of time, the expiry of the fence and its
    reconciliation never turn into a release. *)
Theorem release_needs_evidence fence id p now :
  (ReleaseDecision fence id p now = ReleaseAllowed <-> evidence fence id p) /\
  (ReleaseDecision fence id p now = ReleaseHeld <-> ~ evidence fence id p /\ in_force fence id now) /\
  (forall later, ReleaseDecision fence id p later = ReleaseAllowed <-> ReleaseDecision fence id p now = ReleaseAllowed) /\
  (forall f t later, fence = Some f ->
     (ReleaseDecision (Some (Reconcile f t)) id p later = ReleaseAllowed <-> ReleaseDecision fence id p now = ReleaseAllowed) /\
     (t <= later -> ReleaseDecision (Some (Reconcile f t)) id p later = ReleaseDecision fence id p later)).
Proof.
  assert (forall fence t, ReleaseDecision fence id p t = ReleaseAllowed <-> evidence fence id p) as Ha.
  { intros fc t. destruct (ReleaseDecision_cases fc id p t) as [[? ->]|[(? & ? & ->)|(? & ? & ->)]]; naive_solver. }
  split_and!.
  - apply Ha.
  - destruct (ReleaseDecision_cases fence id p now) as [[? ->]|[(? & ? & ->)|(? & ? & ->)]]; naive_solver.
  - intros later. by rewrite !Ha.
  - intros f t later ->.
    assert (evidence (Some (Reconcile f t)) id p <-> evidence (Some f) id p) as He.
    { unfold Reconcile. destruct (_ && _); done. }
    split; [by rewrite !Ha, He|]. intros Hl. unfold Reconcile.
    destruct (bool_decide (State f = FenceHeld) && Expired f t) eqn:E; [|done].
    apply andb_true_iff in E as [S X].
    assert (Expired f later = true) as Y by (unfold Expired in *; apply andb_true_iff in X as [? ?]; apply andb_true_iff; lia).
    unfold ReleaseDecision. change (Covers (set_state f _) id) with (Covers f id).
    change (covered_sessions (set_state f _) id) with (covered_sessions f id).
    change (Expired (set_state f _) later) with (Expired f later). rewrite Y. done.
Qed.

Definition sample_proof (receipt : bool) (cs : list TerminalCorrelationProof) : TerminalProof :=
  {| AdoptedReceipt := receipt; tp_Tombstone := None; Correlations := cs |}.
Definition sample_receipt (shim : bytes) (epoch : Z) : TerminalCorrelationProof :=
  {| cp_ShimID := shim; cp_ProcessEpoch := epoch; cp_AdoptedReceipt := true; cp_Tombstone := None |}.

(** Two incarnations of one session under a fence: a receipt that names neither,
    or only one of them, releases nothing, however late it is; one receipt each
    does. *)
Lemma release_needs_evidence_witness :
  let id := {| OrgID := str "org"; SessionID := str "s1" |} in
  let f := new_fence (str "f1") (str "h") sample_ids sample_policy 5 in
  ReleaseDecision (Some f) id (sample_proof true [sample_receipt (str "a") 2]) 6 = ReleaseHeld /\
  ReleaseDecision (Some f) id (sample_proof true [sample_receipt (str "a") 2]) (2 ^ 62) <> ReleaseAllowed /\
  ReleaseDecision (Some f) id (sample_proof false [sample_receipt (str "a") 2; sample_receipt (str "b") 1]) 6 = ReleaseAllowed.
Proof.
  set (id := {| OrgID := str "org"; SessionID := str "s1" |}).
  set (f := new_fence (str "f1") (str "h") sample_ids sample_policy 5).
  assert (ReleaseDecision (Some f) id (sample_proof true [sample_receipt (str "a") 2]) 6 = ReleaseHeld) as E
    by (vm_compute; reflexivity).
  split_and!; [exact E| |vm_compute; reflexivity].
  intros H. destruct (release_needs_evidence (Some f) id (sample_proof true [sample_receipt (str "a") 2]) 6) as (_ & _ & L & _).
  apply L in H. rewrite E in H. discriminate.
Defined.
