(* ===== verification/DaemonFence.v ===== *)
(** * DaemonFence: the daemon's use of fences and terminal proofs
    ([src/daemon/session_shim.go], [src/sessionshim/quarantine.go])

    The daemon holds, per session, the shim it adopted or the incarnations it
    quarantined.  It asks for a restart fence over all of them, one per
    organization, and it answers every claim-release question through one method,
    from the tombstones it has seen and those on disk.  The fence store, the host
    identity and the registry's scan are arguments; the state under the daemon's
    lock is a record. *)

From stdpp Require Import sets gmap.
From S2P Require Import Prelude ShimWire GoSort ShimRecord Fence.

#[export] Instance Identity_countable : Countable Identity.
Proof.
  apply (inj_countable' (fun id => (OrgID id, SessionID id)) (fun p => {| OrgID := p.1; SessionID := p.2 |})).
  by intros [].
Defined.

(** ** Quarantined sessions ([quarantine.go]) *)

Definition QuarantineReason : Type := bytes.
Definition quarantine_reasons : list QuarantineReason := map str
  ["protocol_mismatch"; "record_malformed"; "duplicate_identity"; "identity_mismatch"; "unauthenticated";
   "phase_unknown"; "generation_not_advanced"; "socket_unreachable"; "adoption_failed"; "group_reap_unproven";
   "authoritative_snapshot_unsupported"; "durable_host_frame_unsupported"; "durable_ack_timeout"]%string.
Definition QuarantineReason_Known (r : QuarantineReason) : bool := one_of r quarantine_reasons.

Record QuarantinedSession := {
  q_OrgID : bytes;
  q_SessionID : bytes;
  q_ShimID : bytes;
  q_ProcessEpoch : Z;
  q_ControllerGeneration : Z;
  q_ProtocolMin : Z;
  q_ProtocolMax : Z;
  q_Reason : QuarantineReason;
  q_Detail : bytes;
  q_AgeSeconds : Z;
  q_ConsumesCapacity : bool;
  q_Phase : Phase
}.

Definition QuarantinedSession_Identity (q : QuarantinedSession) : Identity :=
  {| OrgID := q_OrgID q; SessionID := q_SessionID q |}.

(** [Time.Sub], which saturates at the range of a [Duration]. *)
Definition time_Sub (a b : Z) : Z := Z.max (- 2 ^ 63) (Z.min (2 ^ 63 - 1) (a - b)).

Definition NewQuarantinedSession (r : DiscoveryRecord) (reason : QuarantineReason) (detail : bytes) (now : Z)
    : QuarantinedSession := {|
  q_OrgID := r_OrgID r; q_SessionID := r_SessionID r; q_ShimID := r_ShimID r; q_ProcessEpoch := r_ProcessEpoch r;
  q_ControllerGeneration := 0; q_ProtocolMin := r_ProtocolMin r; q_ProtocolMax := r_ProtocolMax r; q_Reason := reason;
  q_Detail := detail;
  q_AgeSeconds :=
    if 0 <? r_CreatedAtUnixNano r then
      let age := time_Sub now (r_CreatedAtUnixNano r) in if 0 <? age then Z.quot age Second else 0
    else 0;
  q_ConsumesCapacity := true; q_Phase := r_Phase r
|}.

Definition quarantined_less : QuarantinedSession -> QuarantinedSession -> bool :=
  less_by q_OrgID bytes_ltb (less_by q_SessionID bytes_ltb (less_by q_ShimID bytes_ltb
  (less_by q_ProcessEpoch Z.ltb (fun a b => q_ControllerGeneration a <? q_ControllerGeneration b)))).

(** ** The daemon's state *)

(** An adopted shim: its correlation id and, while a connection is live, what the
    peer's Hello said and the committed generation. *)
Record liveController := { lc_ShimID : bytes; lc_ProcessEpoch : Z; lc_Generation : Z }.
Record adoptedShim := { as_shimID : bytes; as_controller : option liveController }.

Record shimState := {
  adopted : gmap Identity adoptedShim;
  quarantined : list QuarantinedSession;
  forwarded : gmap Identity Z;
  fence : option Fence;
  fences : gmap bytes Fence;
  fenceRequests : gmap bytes FenceRequest;
  tombstoned : list Tombstone
}.

Record shimIncarnation := { si_identity : Identity; si_shimID : bytes; si_processEpoch : Z }.

(** [liveSessionShimCorrelations] on one adopted entry. *)
Definition adopted_incarnation (id : Identity) (entry : adoptedShim) : shimIncarnation :=
  match as_controller entry with
  | Some c =>
      {| si_identity := id;
         si_shimID := if bytes_eqb (lc_ShimID c) [] then as_shimID entry else lc_ShimID c;
         si_processEpoch := lc_ProcessEpoch c |}
  | None => {| si_identity := id; si_shimID := as_shimID entry; si_processEpoch := 0 |}
  end.

Definition liveSessionShimCorrelations (d : option shimState) (id : Identity) : list shimIncarnation :=
  match d with
  | None => []
  | Some s =>
      match adopted s !! id with Some entry => [adopted_incarnation id entry] | None => [] end ++
      map (fun q => {| si_identity := id; si_shimID := q_ShimID q; si_processEpoch := q_ProcessEpoch q |})
        (filter (fun q => QuarantinedSession_Identity q = id) (quarantined s))
  end.

(** ** Release *)

(** The fence that answers for the identity. *)
Definition fence_for (d : option shimState) (id : Identity) : option Fence :=
  match d with
  | None => None
  | Some s =>
      match fences s !! OrgID id with
      | Some scoped => if Covers scoped id then Some scoped else fence s
      | None => fence s
      end
  end.

Definition SessionShimReleaseDecision (d : option shimState) (id : Identity) (proof : TerminalProof) (now : Z)
    : ReleaseVerdict :=
  let f := fence_for d id in
  if existsb (fun c => negb (TerminalProofCovers proof id (si_shimID c) (si_processEpoch c))) (liveSessionShimCorrelations d id)
  then
    match f with
    | Some fc =>
        if Covers fc id && negb (Expired fc now) && bool_decide (State fc = FenceHeld) then ReleaseHeld else ReleaseReconcile
    | None => ReleaseReconcile
    end
  else ReleaseDecision f id proof now.

(** [scan] is what [ScanTombstones] returned, [None] for an error or no
    registry.  The map is iterated in an order Go leaves open; every use of the
    correlations is a search. *)
Definition SessionShimTerminalProof (d : option shimState) (scan : option (list Tombstone)) (id : Identity) : TerminalProof :=
  match d with
  | None => {| AdoptedReceipt := false; tp_Tombstone := None; Correlations := [] |}
  | Some s =>
      let tombstones := tombstoned s ++ match scan with Some l => l | None => [] end in
      let unique : gmap (bytes * Z) Tombstone :=
        fold_left (fun m t =>
          if negb (bool_decide (Tombstone_Identity t = id)) || negb (t_GroupReaped t) then m
          else <[(t_ShimID t, t_ProcessEpoch t) := t]> m) tombstones ∅ in
      let proofs := map snd (map_to_list unique) in
      {| AdoptedReceipt := false;
         tp_Tombstone := match proofs with [t] => Some t | _ => None end;
         Correlations := map (fun t => {| cp_ShimID := t_ShimID t; cp_ProcessEpoch := t_ProcessEpoch t;
                                          cp_AdoptedReceipt := false; cp_Tombstone := Some t |}) proofs |}
  end.

(** ** The restart fence *)

(** [sessionShimFenceSnapshot] under the lock, after its reconciliation of
    tombstones. *)
Definition fenced_adopted (s : shimState) (id : Identity) (entry : adoptedShim) : FencedSession := {|
  fs_OrgID := OrgID id; fs_SessionID := SessionID id; fs_ShimID := as_shimID entry;
  fs_ProcessEpoch := match as_controller entry with Some c => lc_ProcessEpoch c | None => 0 end;
  fs_ControllerGeneration := match as_controller entry with Some c => lc_Generation c | None => 0 end;
  fs_LastForwardedSeq := default 0 (forwarded s !! id)
|}.

Definition fenced_quarantined (s : shimState) (q : QuarantinedSession) : FencedSession := {|
  fs_OrgID := q_OrgID q; fs_SessionID := q_SessionID q; fs_ShimID := q_ShimID q; fs_ProcessEpoch := q_ProcessEpoch q;
  fs_ControllerGeneration := q_ControllerGeneration q;
  fs_LastForwardedSeq := default 0 (forwarded s !! QuarantinedSession_Identity q)
|}.

Definition fence_snapshot (s : shimState) : list FencedSession :=
  sort_Slice session_less
    (map (fun p => fenced_adopted s p.1 p.2) (map_to_list (adopted s)) ++ map (fenced_quarantined s) (quarantined s)).

Definition sameFencedSessions (a b : list FencedSession) : bool :=
  (blen a =? blen b) && forallb (fun p => bool_decide (p.1 = p.2)) (zip a b).

Definition set_request (s : shimState) (key : bytes) (r : FenceRequest) : shimState :=
  {| adopted := adopted s; quarantined := quarantined s; forwarded := forwarded s; fence := fence s; fences := fences s;
     fenceRequests := <[key := r]> (fenceRequests s); tombstoned := tombstoned s |}.
Definition set_fences (s : shimState) (m : gmap bytes Fence) : shimState :=
  {| adopted := adopted s; quarantined := quarantined s; forwarded := forwarded s; fence := fence s; fences := m;
     fenceRequests := fenceRequests s; tombstoned := tombstoned s |}.
Definition set_fence (s : shimState) (f : Fence) : shimState :=
  {| adopted := adopted s; quarantined := quarantined s; forwarded := forwarded s; fence := Some f; fences := fences s;
     fenceRequests := fenceRequests s; tombstoned := tombstoned s |}.

(** The daemon's configuration: its fence stores, its policy, the optional
    per-organization host identity and the resolution of the host identity. *)
Record fenceConfig := {
  ExactFenceStore : option (FenceRequest -> option FenceAcknowledgement);
  FenceStore : option (Fence -> option Fence);
  fc_policy : FencePolicy;
  HostIDForOrg : bool;
  hostID_of : bytes -> option bytes
}.

Section restart.
Context (marshal : Fence -> option bytes) (cfg : fenceConfig).

(** One call; the retained request is kept in the state, and a call that finds it
    changed refuses.  [now] is the clock when the request is built. *)
Definition requestSessionShimRestartFence (s : shimState) (fenceID orgID : bytes) (covered : list FencedSession) (now : Z)
    : shimState * outcome FenceErr Fence :=
  match hostID_of cfg orgID with
  | None => (s, Err ErrFenceRequired)
  | Some hostID =>
      if bytes_eqb hostID [] && (bool_decide (is_Some (ExactFenceStore cfg)) || bool_decide (is_Some (FenceStore cfg)))
      then (s, Err ErrFenceRequired)
      else match ExactFenceStore cfg with
      | Some store =>
          let requestKey := orgID ++ [0x1F] ++ fenceID in
          match fenceRequests s !! requestKey with
          | Some request =>
              if negb (bytes_eqb (HostID (fr_Fence request)) hostID)
                 || negb (sameFencedSessions (Sessions (fr_Fence request)) covered)
              then (s, Err ErrFenceRequired)
              else (s, AcknowledgeExactFence marshal (Some store) request)
          | None =>
              match NewExactFenceRequest marshal fenceID hostID covered (fc_policy cfg) now with
              | Ok request => (set_request s requestKey request, AcknowledgeExactFence marshal (Some store) request)
              | Err e => (s, Err e)
              | Panic => (s, Panic)
              end
          end
      | None => (s, RequestFence (FenceStore cfg) fenceID hostID covered (fc_policy cfg) now)
      end
  end.

(** The loop over organizations, in order, stopping at the first refusal; [nows]
    is the clock at each request. *)
Fixpoint fence_loop (s : shimState) (fenceID : bytes) (covered : list FencedSession) (orgs : list bytes) (nows : nat -> Z)
    (acc : list Fence) : shimState * outcome FenceErr unit * list Fence :=
  match orgs with
  | [] => (s, Ok tt, acc)
  | org :: orgs' =>
      match requestSessionShimRestartFence s fenceID org (filter (fun c => fs_OrgID c = org) covered) (nows (length acc)) with
      | (s1, Ok f) => fence_loop (set_fences s1 (<[org := f]> (fences s1))) fenceID covered orgs' nows (acc ++ [f])
      | (s1, Err e) => (s1, Err e, acc)
      | (s1, Panic) => (s1, Panic, acc)
      end
  end.

(** The keys of the per-organization map, sorted. *)
Definition org_ids (covered : list FencedSession) : list bytes := sort_Strings (remove_dups (map fs_OrgID covered)).

Definition RequestSessionShimRestartFences (s : shimState) (fenceID : bytes) (nows : nat -> Z)
    : shimState * outcome FenceErr unit * list Fence :=
  if bytes_eqb fenceID [] then (s, Err ErrFenceRequired, [])
  else
    let covered := fence_snapshot s in
    if (length covered =? 0)%nat then (s, Ok tt, [])
    else if HostIDForOrg cfg
            && existsb (fun c => negb (is_ok (Identity_Validate {| OrgID := fs_OrgID c; SessionID := str "scope" |}))) covered
    then (s, Err ErrFenceRequired, [])
    else fence_loop s fenceID covered (org_ids covered) nows [].

(** The organization of a single fence, or [None] when host identities differ by
    organization and there are several. *)
Fixpoint scope_loop (scopeOrg : bytes) (covered : list FencedSession) : option bytes :=
  match covered with
  | [] => Some scopeOrg
  | c :: covered' =>
      if bytes_eqb scopeOrg [] then scope_loop (fs_OrgID c) covered'
      else if negb (bytes_eqb (fs_OrgID c) scopeOrg) && HostIDForOrg cfg then None
      else scope_loop scopeOrg covered'
  end.

Definition RequestSessionShimRestartFence (s : shimState) (fenceID : bytes) (now : Z) : shimState * outcome FenceErr Fence :=
  let covered := fence_snapshot s in
  match scope_loop [] covered with
  | None => (s, Err ErrFenceRequired)
  | Some scopeOrg =>
      match requestSessionShimRestartFence s fenceID scopeOrg covered now with
      | (s1, Ok f) => (set_fence s1 f, Ok f)
      | (s1, r) => (s1, r)
      end
  end.
End restart.

(** ** What the tombstones prove *)

(** A tombstone on which release may rest, for one incarnation. *)
Definition reaped_incarnation (ts : list Tombstone) (id : Identity) (shimID : bytes) (epoch : Z) : Prop :=
  exists t, t ∈ ts /\ t_GroupReaped t = true /\ Tombstone_Identity t = id /\ t_ShimID t = shimID /\ t_ProcessEpoch t = epoch.

Definition all_tombstones (d : option shimState) (scan : option (list Tombstone)) : list Tombstone :=
  match d with Some s => tombstoned s ++ default [] scan | None => [] end.

Definition keep_tombstone (id : Identity) (m : gmap (bytes * Z) Tombstone) (t : Tombstone) : gmap (bytes * Z) Tombstone :=
  if negb (bool_decide (Tombstone_Identity t = id)) || negb (t_GroupReaped t) then m
  else <[(t_ShimID t, t_ProcessEpoch t) := t]> m.

(** A kept tombstone is one of the list that names its key, and a key stays. *)
Lemma keep_fold id ts m0 :
  let m := fold_left (keep_tombstone id) ts m0 in
  (forall k t, m !! k = Some t -> m0 !! k = Some t \/
     (t ∈ ts /\ t_GroupReaped t = true /\ Tombstone_Identity t = id /\ k = (t_ShimID t, t_ProcessEpoch t))) /\
  (forall k, is_Some (m0 !! k) -> is_Some (m !! k)) /\
  (forall t, t ∈ ts -> t_GroupReaped t = true -> Tombstone_Identity t = id ->
     is_Some (m !! (t_ShimID t, t_ProcessEpoch t))).
Proof.
  cbv zeta. revert m0. induction ts as [|x ts IH]; intros m0; cbn [fold_left].
  { split_and!; [auto|auto|]. intros t Ht. by apply not_elem_of_nil in Ht. }
  destruct (IH (keep_tombstone id m0 x)) as (A & B & C). clear IH.
  assert (forall k, is_Some (m0 !! k) -> is_Some (keep_tombstone id m0 x !! k)) as M.
  { intros k Hk. unfold keep_tombstone. destruct (_ || _); [done|]. rewrite lookup_insert_is_Some'. auto. }
  split_and!.
  - intros k t H. apply A in H as [H|(? & ? & ? & ?)]; [|right; split_and!; try done; by right].
    unfold keep_tombstone in H. destruct (_ || _) eqn:E; [by left|]. apply orb_false_iff in E as [E1 E2].
    rewrite negb_false_iff in E1, E2. apply bool_decide_eq_true in E1.
    apply lookup_insert_Some in H as [[<- <-]|[_ H]]; [right|by left]. split_and!; try done. by left.
  - intros k Hk. by apply B, M.
  - intros t Ht Hr Hi. apply elem_of_cons in Ht as [->|Ht]; [|by apply C]. apply B. unfold keep_tombstone.
    rewrite Hr, bool_decide_true by done. cbn [negb orb]. rewrite lookup_insert_is_Some'. by left.
Qed.

Section gathered.
Context (d : option shimState) (scan : option (list Tombstone)) (id : Identity).
Let p := SessionShimTerminalProof d scan id.
Let ts := all_tombstones d scan.

(** The correlations gathered are the reaped incarnations, and each carries its
    own tombstone; there are no receipts among them. *)
Lemma gathered_spec :
  AdoptedReceipt p = false /\
  (forall c, c ∈ Correlations p -> cp_AdoptedReceipt c = false /\
     exists t, cp_Tombstone c = Some t /\ t ∈ ts /\ t_GroupReaped t = true /\ Tombstone_Identity t = id /\
       cp_ShimID c = t_ShimID t /\ cp_ProcessEpoch c = t_ProcessEpoch t) /\
  (forall shim epoch, reaped_incarnation ts id shim epoch -> exists c t, c ∈ Correlations p /\ cp_Tombstone c = Some t /\
     cp_ShimID c = shim /\ cp_ProcessEpoch c = epoch /\
     t_GroupReaped t = true /\ Tombstone_Identity t = id /\ t_ShimID t = shim /\ t_ProcessEpoch t = epoch) /\
  (forall t, tp_Tombstone p = Some t -> exists c, c ∈ Correlations p /\ cp_Tombstone c = Some t).
Proof.
  unfold p, ts, SessionShimTerminalProof, all_tombstones. destruct d as [s|]; cbn [AdoptedReceipt Correlations tp_Tombstone].
  2: { split_and!; [done| | |done]; [intros c Hc; by apply not_elem_of_nil in Hc|].
       intros ? ? (t & Ht & _). by apply not_elem_of_nil in Ht. }
  change (match scan with Some l => l | None => [] end) with (default [] scan).
  set (l := tombstoned s ++ default [] scan).
  change (fold_left _ l ∅) with (fold_left (keep_tombstone id) l (∅ : gmap (bytes * Z) Tombstone)).
  set (m := fold_left (keep_tombstone id) l (∅ : gmap (bytes * Z) Tombstone)).
  destruct (keep_fold id l ∅) as (A & _ & C). fold m in A, C.
  assert (forall t, t ∈ map snd (map_to_list m) <-> exists k, m !! k = Some t) as Hm.
  { intros t. rewrite list_elem_of_fmap. split.
    - intros ([k t'] & -> & H). apply elem_of_map_to_list in H. by exists k.
    - intros [k H]. exists (k, t). by rewrite elem_of_map_to_list. }
  split_and!; [done| | |].
  - intros c Hc. apply list_elem_of_fmap in Hc as (t & -> & Ht). split; [done|]. exists t.
    apply Hm in Ht as [k Hk]. apply A in Hk as [Hk|(? & ? & ? & ?)]; [by rewrite lookup_empty in Hk|]. done.
  - intros shim epoch (t & Ht & Hr & Hi & <- & <-). destruct (C t Ht Hr Hi) as [t' Ht'].
    exists {| cp_ShimID := t_ShimID t'; cp_ProcessEpoch := t_ProcessEpoch t'; cp_AdoptedReceipt := false; cp_Tombstone := Some t' |}, t'.
    pose proof (A _ _ Ht') as [H|(? & ? & ? & K)]; [by rewrite lookup_empty in H|]. injection K as K1 K2.
    split_and!; try done. apply list_elem_of_fmap. exists t'. split; [done|]. apply Hm. eauto.
  - intros t. destruct (map snd (map_to_list m)) as [|t' [|]] eqn:E; [done| |done]. intros [= ->]. eexists. split; [by left|done].
Qed.

Lemma gathered_ended shim epoch : ended p id shim epoch <-> reaped_incarnation ts id shim epoch.
Proof.
  destruct gathered_spec as (_ & A & B & _). split.
  - intros (c & Hc & <- & <- & H). destruct (A c Hc) as (Hr & t & Ht & Hin & ? & ? & ? & ?).
    exists t. split_and!; done.
  - intros H. destruct (B _ _ H) as (c & t & Hc & Ht & ? & ? & ? & ? & ? & ?). exists c. split_and!; try done. right.
    rewrite Ht. by apply tombstone_of_iff.
Qed.

Lemma gathered_scalar shim epoch : tombstone_of id shim epoch (tp_Tombstone p) = true -> reaped_incarnation ts id shim epoch.
Proof.
  destruct gathered_spec as (_ & A & _ & S). destruct (tp_Tombstone p) as [t|] eqn:E; [|done]. rewrite tombstone_of_iff.
  intros (? & ? & ? & ?). destruct (S t eq_refl) as (c & Hc & Hct). destruct (A c Hc) as (_ & t' & Ht' & ? & _).
  rewrite Hct in Ht'. injection Ht' as <-. by exists t.
Qed.

Lemma gathered_some : some_evidence p <-> exists shim epoch, reaped_incarnation ts id shim epoch.
Proof.
  destruct gathered_spec as (R & A & B & S).
  assert (forall c, c ∈ Correlations p -> exists shim epoch, reaped_incarnation ts id shim epoch) as Hc.
  { intros c Hc. destruct (A c Hc) as (_ & t & ? & ? & ? & ? & _). exists (t_ShimID t), (t_ProcessEpoch t), t. done. }
  split.
  - intros [H|[H|(c & ? & _)]]; [congruence| |by eapply Hc].
    destruct (tp_Tombstone p) as [t|]; [|done]. destruct (S t eq_refl) as (c & ? & _). by eapply Hc.
  - intros (shim & epoch & H). destruct (B _ _ H) as (c & t & ? & Ht & _ & _ & Hr & _). right. right. exists c.
    split; [done|]. right. by rewrite Ht.
Qed.
End gathered.

(** ** Releasing a claim *)

Definition covered_incarnation (f : option Fence) (id : Identity) (shim : bytes) (epoch : Z) : Prop :=
  exists fc s, f = Some fc /\ s ∈ covered_sessions fc id /\ shim = fs_ShimID s /\ epoch = fs_ProcessEpoch s.

Lemma TerminalProofCovers_iff p id shim epoch :
  TerminalProofCovers p id shim epoch = true <-> ended p id shim epoch \/ tombstone_of id shim epoch (tp_Tombstone p) = true.
Proof. unfold TerminalProofCovers. rewrite orb_true_iff, provesCorrelation_iff. done. Qed.

Lemma ReleaseDecision_allowed f id p now : ReleaseDecision f id p now = ReleaseAllowed <-> evidence f id p.
Proof. destruct (ReleaseDecision_cases f id p now) as [[? ->]|[(? & ? & ->)|(? & ? & ->)]]; naive_solver. Qed.

Lemma decision_allowed d id p now :
  SessionShimReleaseDecision d id p now = ReleaseAllowed <->
  (forall c, c ∈ liveSessionShimCorrelations d id ->
     ended p id (si_shimID c) (si_processEpoch c) \/
     tombstone_of id (si_shimID c) (si_processEpoch c) (tp_Tombstone p) = true) /\
  evidence (fence_for d id) id p.
Proof.
  unfold SessionShimReleaseDecision. cbv zeta.
  assert (existsb (fun c => negb (TerminalProofCovers p id (si_shimID c) (si_processEpoch c))) (liveSessionShimCorrelations d id) = false <->
    forall c, c ∈ liveSessionShimCorrelations d id -> TerminalProofCovers p id (si_shimID c) (si_processEpoch c) = true) as Hl.
  { rewrite <- not_true_iff_false, existsb_exists. setoid_rewrite <- list_elem_of_In. setoid_rewrite negb_true_iff. split.
    - intros H c Hc. destruct (TerminalProofCovers _ _ _ _) eqn:E; [done|]. exfalso. apply H. eauto.
    - intros H (c & Hc & E). rewrite (H c Hc) in E. discriminate. }
  setoid_rewrite TerminalProofCovers_iff in Hl. destruct (existsb _ _).
  - split; [destruct (fence_for d id); [destruct (_ && _)|]; discriminate|]. intros [H _]. apply Hl in H. discriminate.
  - rewrite ReleaseDecision_allowed. pose proof (proj1 Hl eq_refl). tauto.
Qed.

(** The evidence of tombstones alone, under a fence or without one. *)
Lemma gathered_evidence d scan id :
  evidence (fence_for d id) id (SessionShimTerminalProof d scan id) <->
  (exists shim epoch, reaped_incarnation (all_tombstones d scan) id shim epoch) /\
  (forall shim epoch, covered_incarnation (fence_for d id) id shim epoch -> reaped_incarnation (all_tombstones d scan) id shim epoch).
Proof.
  unfold evidence. pose proof (gathered_some d scan id) as Hs. pose proof (gathered_ended d scan id) as He.
  pose proof (gathered_scalar d scan id) as Hc. destruct (gathered_spec d scan id) as (Hr & _).
  destruct (fence_for d id) as [f|].
  2: { rewrite Hs. split; [|tauto]. intros H. split; [done|]. by intros ? ? (? & ? & ? & _). }
  assert (forall l, covered_sessions f id = l -> (forall s, s ∈ l -> reaped_incarnation (all_tombstones d scan) id (fs_ShimID s) (fs_ProcessEpoch s)) <->
    (forall shim epoch, covered_incarnation (Some f) id shim epoch -> reaped_incarnation (all_tombstones d scan) id shim epoch)) as Hcov.
  { intros l <-. split.
    - intros H ? ? (fc & s & [= <-] & ? & -> & ->). auto.
    - intros H s ?. apply H. by exists f, s. }
  destruct (covered_sessions f id) as [|s [|s' l]] eqn:E; rewrite <- (Hcov _ eq_refl).
  - rewrite Hs. split; [|tauto]. intros H. split; [done|]. intros s Hn. by apply not_elem_of_nil in Hn.
  - rewrite Hr, He. split.
    + intros [?|H]; [done|]. assert (reaped_incarnation (all_tombstones d scan) id (fs_ShimID s) (fs_ProcessEpoch s)) as G
        by (destruct H; auto). split; [eauto|]. intros s' ->%list_elem_of_singleton. done.
    + intros [_ H]. right. right. apply H. by left.
  - setoid_rewrite He. split; [|tauto]. intros H. split; [|done]. do 2 eexists. apply (H s). by left.
Qed.

(** C14. The daemon releases a claim only over a proven death.  On the evidence the
    daemon gathers by itself, release is allowed exactly when a tombstone of a
    reaped process group exists for the session, and every incarnation the daemon
    still holds (adopted or quarantined) and every incarnation the fence in charge
    names has such a tombstone of its own, with its shim id and process epoch.  On
    any evidence a caller supplies, release is refused while a live incarnation of
    the session is not covered by a proof that names it: a receipt for the session
    as a whole never releases a running sibling. *)
Theorem claim_release_safe d scan id now :
  (SessionShimReleaseDecision d id (SessionShimTerminalProof d scan id) now = ReleaseAllowed <->
   (exists shim epoch, reaped_incarnation (all_tombstones d scan) id shim epoch) /\
   (forall c, c ∈ liveSessionShimCorrelations d id ->
      reaped_incarnation (all_tombstones d scan) id (si_shimID c) (si_processEpoch c)) /\
   (forall shim epoch, covered_incarnation (fence_for d id) id shim epoch ->
      reaped_incarnation (all_tombstones d scan) id shim epoch)) /\
  (forall p c, SessionShimReleaseDecision d id p now = ReleaseAllowed -> c ∈ liveSessionShimCorrelations d id ->
     ended p id (si_shimID c) (si_processEpoch c) \/ tombstone_of id (si_shimID c) (si_processEpoch c) (tp_Tombstone p) = true).
Proof.
  split.
  - rewrite decision_allowed, gathered_evidence. setoid_rewrite (gathered_ended d scan id). split.
    + intros (L & ? & ?). split_and!; [done| |done]. intros c Hc. destruct (L c Hc); [done|]. by apply gathered_scalar.
    + intros (? & L & ?). split_and!; [|done|done]. intros c Hc. left. auto.
  - intros p c H Hc. apply decision_allowed in H as [H _]. auto.
Qed.

(** ** Obtaining the fences *)

Lemma sameFencedSessions_eq a b : sameFencedSessions a b = true <-> a = b.
Proof.
  unfold sameFencedSessions. rewrite andb_true_iff, Z.eqb_eq. split.
  - intros [Hl H]. revert b Hl H. induction a as [|x a IH]; intros [|y b]; rewrite ?blen_cons, ?blen_nil; cbn [zip_with forallb fst snd].
    + done.
    + pose proof (blen_nonneg b). lia.
    + pose proof (blen_nonneg a). lia.
    + intros Hl [->%bool_decide_eq_true H]%andb_true_iff. f_equal. apply IH; [lia|done].
  - intros ->. split; [done|]. induction b as [|x b IH]; [done|]. cbn. by rewrite bool_decide_true.
Qed.

(** What a request changes: nothing but the retained requests. *)
Definition same_sessions_state (s s' : shimState) : Prop :=
  adopted s' = adopted s /\ quarantined s' = quarantined s /\ forwarded s' = forwarded s /\ fence s' = fence s /\
  fences s' = fences s /\ tombstoned s' = tombstoned s.

Lemma AcknowledgeExactFence_sessions marshal st r f :
  AcknowledgeExactFence marshal st r = Ok f -> Sessions f = Sessions (fr_Fence r) /\ State f = State (fr_Fence r).
Proof.
  unfold AcknowledgeExactFence. destruct (marshal _); [|done]. destruct (negb _); [done|].
  destruct st as [st|]; [|by intros [= <-]]. destruct (st _); [|done]. destruct (blank _); [done|].
  destruct (negb _); [done|]. by intros [= <-].
Qed.

Lemma RequestFence_sessions st fid host ids pol now f :
  RequestFence st fid host ids pol now = Ok f -> Sessions f ≡ₚ ids.
Proof.
  unfold RequestFence. destruct (bytes_eqb fid []); [done|]. cbv zeta.
  destruct st as [st|]; [|intros [= <-]; apply sort_Slice_permutation]. destruct (st _) as [ack|]; [|done].
  destruct (negb (bytes_eqb _ _)); [done|]. destruct (negb (_ =? _)) eqn:E1; [done|]. destruct (existsb _ _) eqn:E2; [done|].
  intros [= <-]. cbn [Sessions set_sessions]. unfold sortedFencedSessions at 1. rewrite sort_Slice_permutation.
  by apply same_sessions.
Qed.

Lemma request_sessions marshal cfg s fid org covered now s1 f :
  requestSessionShimRestartFence marshal cfg s fid org covered now = (s1, Ok f) ->
  Sessions f ≡ₚ covered /\ same_sessions_state s s1.
Proof.
  unfold requestSessionShimRestartFence, same_sessions_state. destruct (hostID_of cfg org) as [host|]; [|done].
  destruct (bytes_eqb host [] && _); [done|]. destruct (ExactFenceStore cfg) as [store|].
  2: { intros [= <- H]. apply RequestFence_sessions in H. done. }
  cbv zeta. destruct (fenceRequests s !! _) as [r|].
  - destruct (_ || _) eqn:E; [done|]. apply orb_false_iff in E as [_ E]. apply negb_false_iff, sameFencedSessions_eq in E.
    intros [= <- H]. apply AcknowledgeExactFence_sessions in H as [-> _]. by rewrite E.
  - destruct (NewExactFenceRequest _ _ _ _ _ _) as [r| |] eqn:E; [|done|done]. intros [= <- H].
    apply AcknowledgeExactFence_sessions in H as [-> _]. unfold NewExactFenceRequest in E.
    destruct (bytes_eqb fid []); [done|]. cbv zeta in E. destruct (marshal _); [|done]. by injection E as <-.
Qed.

(** The loop records a fence for each organization of the list, over exactly that
    organization's incarnations, and leaves the others alone. *)
Lemma fence_loop_spec marshal cfg fid covered nows orgs s acc s' fs :
  NoDup orgs -> fence_loop marshal cfg s fid covered orgs nows acc = (s', Ok tt, fs) ->
  adopted s' = adopted s /\ quarantined s' = quarantined s /\ fence s' = fence s /\
  (forall org, org ∉ orgs -> fences s' !! org = fences s !! org) /\
  exists new, fs = acc ++ new /\
    Forall2 (fun org f => fences s' !! org = Some f /\ Sessions f ≡ₚ filter (fun c => fs_OrgID c = org) covered) orgs new.
Proof.
  revert s acc. induction orgs as [|org orgs IH]; intros s acc Hn; cbn [fence_loop].
  { intros [= <- <-]. split_and!; try done. exists []. by rewrite app_nil_r. }
  apply NoDup_cons in Hn as [Hnot Hn].
  destruct (requestSessionShimRestartFence _ _ _ _ _ _ _) as [s1 [f| |]] eqn:E; [|done|done]. intros H.
  apply request_sessions in E as [Hs (A & Q & _ & F & Fs & _)].
  destruct (IH _ _ Hn H) as (A' & Q' & F' & Hkeep & new & -> & Hall). cbn [adopted quarantined fence fences set_fences] in *.
  split_and!; [congruence|congruence|congruence| |].
  - intros o Ho. apply not_elem_of_cons in Ho as [? Ho]. rewrite Hkeep by done. rewrite lookup_insert_ne by done.
    congruence.
  - exists (f :: new). rewrite <- app_assoc. split; [done|]. constructor; [|done]. split; [|done].
    rewrite Hkeep by done. apply lookup_insert_eq.
Qed.

Lemma org_ids_spec covered : NoDup (org_ids covered) /\ forall org, org ∈ org_ids covered <-> exists c, c ∈ covered /\ fs_OrgID c = org.
Proof.
  unfold org_ids, sort_Strings. split.
  - rewrite sort_Slice_permutation. apply NoDup_remove_dups.
  - intros org. rewrite sort_Slice_permutation, elem_of_remove_dups, list_elem_of_fmap. naive_solver.
Qed.

Lemma snapshot_adopted s id entry : adopted s !! id = Some entry -> fenced_adopted s id entry ∈ fence_snapshot s.
Proof.
  intros H. unfold fence_snapshot. rewrite sort_Slice_permutation. apply elem_of_app. left. apply list_elem_of_fmap.
  exists (id, entry). split; [done|]. by apply elem_of_map_to_list.
Qed.

Lemma snapshot_quarantined s q : q ∈ quarantined s -> fenced_quarantined s q ∈ fence_snapshot s.
Proof.
  intros H. unfold fence_snapshot. rewrite sort_Slice_permutation. apply elem_of_app. right. apply list_elem_of_fmap. eauto.
Qed.

(** Every identity with a live incarnation is in the snapshot. *)
Lemma snapshot_live s id :
  liveSessionShimCorrelations (Some s) id <> [] -> exists c, c ∈ fence_snapshot s /\ FencedSession_Identity c = id.
Proof.
  unfold liveSessionShimCorrelations. destruct (adopted s !! id) as [entry|] eqn:E.
  { intros _. exists (fenced_adopted s id entry). split; [by apply snapshot_adopted|]. by destruct id. }
  cbn [app]. intros H. destruct (filter _ _) as [|q l] eqn:F; [done|].
  assert (q ∈ filter (fun q => QuarantinedSession_Identity q = id) (quarantined s)) as Hq by (rewrite F; left).
  apply list_elem_of_filter in Hq as [<- Hq]. exists (fenced_quarantined s q).
  split; [by apply snapshot_quarantined|done].
Qed.


Definition sample_daemon : shimState := {|
  adopted := {[ {| OrgID := str "b"; SessionID := str "s1" |} :=
                {| as_shimID := str "x"; as_controller := Some {| lc_ShimID := str "x"; lc_ProcessEpoch := 2; lc_Generation := 7 |} |} ]};
  quarantined := [NewQuarantinedSession sample_record (str "socket_unreachable") [] 9];
  forwarded := {[ {| OrgID := str "b"; SessionID := str "s1" |} := 40 ]};
  fence := None; fences := ∅; fenceRequests := ∅; tombstoned := [sample_tombstone]
|}.

(** A store that echoes the request it is given. *)
Definition sample_config : fenceConfig := {|
  ExactFenceStore := Some (fun r => Some {| ack_RequestBytes := RequestBytes r; ack_DurableRevision := str "r1" |});
  FenceStore := None; fc_policy := sample_policy; HostIDForOrg := true; hostID_of := fun _ => Some (str "host")
|}.
Definition sample_marshal (f : Fence) : option bytes := Some (FenceID f ++ (Sessions f ≫= fs_ShimID)).

Definition sample_restart := RequestSessionShimRestartFences sample_marshal sample_config sample_daemon (str "f1") (fun _ => 5).

Lemma sample_restart_ok : sample_restart = (sample_restart.1.1, Ok tt, sample_restart.2).
Proof. vm_compute. reflexivity. Qed.


(** A tombstone of another incarnation of the quarantined session releases
    nothing; a further tombstone of the quarantined one does. *)
Lemma claim_release_safe_witness :
  let other := {| t_SchemaVersion := 1; t_Workload := []; t_OrgID := str "org"; t_SessionID := str "s1"; t_ShimID := str "old";
    t_ProcessEpoch := 9; t_HarnessPID := 43; t_HarnessStartedAt := 8; t_ExitCode := 0; t_Signal := []; t_LastSeq := 9;
    t_GroupReaped := true; t_ResumeKey := None; t_Cause := []; t_OutboxKey := []; t_OutboxState := []; t_ObservedAtUnixNano := 5 |} in
  let d := Some {| adopted := ∅; quarantined := quarantined sample_daemon; forwarded := ∅; fence := None; fences := ∅;
                   fenceRequests := ∅; tombstoned := [other] |} in
  let id := Record_Identity sample_record in
  SessionShimReleaseDecision d id (SessionShimTerminalProof d None id) 6 = ReleaseReconcile /\
  SessionShimReleaseDecision d id (SessionShimTerminalProof d (Some [sample_tombstone]) id) 6 = ReleaseAllowed /\
  exists t, t ∈ [other; sample_tombstone] /\ t_ShimID t = str "shim" /\ t_GroupReaped t = true.
Proof.
  cbv zeta. split; [vm_compute; reflexivity|]. match goal with |- ?A /\ _ => assert A as E by (vm_compute; reflexivity) end.
  split; [exact E|]. apply (proj1 (claim_release_safe _ (Some [sample_tombstone]) _ 6)) in E. destruct E as (_ & L & _).
  destruct (L {| si_identity := Record_Identity sample_record; si_shimID := str "shim"; si_processEpoch := 1 |}) as (t & ? & ? & _ & ? & _).
  - vm_compute. left.
  - exists t. auto.
Defined.
