(* ===== verification/ProcIdentity.v ===== *)
(** * ProcIdentity: naming a process ([src/sessionshim/procid.go],
    [procid_convert.go], [procid_linux.go])

    A pid is reused, so a record names a process by its pid and its start.  On
    Linux the start is read from [/proc]: field 22 of [/proc/<pid>/stat] in clock
    ticks since boot, the boot time of [/proc/stat] and the boot id.  The three
    files are the environment; integers are [int64]. *)

From stdpp Require Import sets.
From S2P Require Import Prelude Utf8 ShimRecord Fence.

(** ** Standard library *)

(** [strings.Fields]: the maximal runs of bytes between white-space runes. *)
Fixpoint fields_loop (rs : list (Z * Z)) (b cur : bytes) : list bytes :=
  match rs with
  | [] => if bytes_eqb cur [] then [] else [cur]
  | (r, n) :: rs' =>
      let rest := drop (Z.to_nat n) b in
      if unicode_IsSpace r then
        (if bytes_eqb cur [] then fields_loop rs' rest [] else cur :: fields_loop rs' rest [])
      else fields_loop rs' rest (cur ++ take (Z.to_nat n) b)
  end.
Definition Fields (b : bytes) : list bytes := fields_loop (decode_all b) b [].

(** [strconv.ParseInt(s, 10, 64)]. *)
Fixpoint decimal_value (s : bytes) (acc : Z) : option Z :=
  match s with
  | [] => Some acc
  | c :: s' => if in_range 0x30 0x39 c then decimal_value s' (acc * 10 + (c - 0x30)) else None
  end.
Definition ParseInt (s : bytes) : option Z :=
  let neg := match s with c :: _ => c =? 0x2D | [] => false end in
  let digits := match s with c :: s' => if (c =? 0x2D) || (c =? 0x2B) then s' else s | [] => s end in
  if bytes_eqb digits [] then None
  else match decimal_value digits 0 with
  | None => None
  | Some v => let v := if neg then - v else v in if (- 2 ^ 63 <=? v) && (v <=? 2 ^ 63 - 1) then Some v else None
  end.

(** [strings.LastIndexByte], [-1] when absent. *)
Fixpoint LastIndexByte (b : bytes) (c : Z) : Z :=
  match b with
  | [] => -1
  | x :: b' => let i := LastIndexByte b' c in if 0 <=? i then i + 1 else if x =? c then 0 else -1
  end.

(** [strings.Split(s, "\n")]. *)
Fixpoint split_lines (b : bytes) : list bytes :=
  match b with
  | [] => [[]]
  | c :: b' =>
      if c =? 0x0A then [] :: split_lines b'
      else match split_lines b' with w :: ws => (c :: w) :: ws | [] => [[c]] end
  end.

(** ** Conversions ([procid_convert.go]) *)

Definition nanoPerSec : Z := 1000000000.
Definition MaxInt64 : Z := 2 ^ 63 - 1.
Definition legacyTicksStartedAtThreshold : Z := 1000000000000000.
Definition isLegacyTicksValue (v : Z) : bool := v <? legacyTicksStartedAtThreshold.

(** A process error: [true] when it wraps [os.ErrNotExist] or [ESRCH]. *)
Inductive ProcErr := ProcGone | ProcFailed.

Record ProcessIdentity := { p_PID : Z; p_StartedAt : Z; p_StartTicks : Z; p_BootID : bytes }.

#[export] Instance ProcessIdentity_eq_dec : EqDecision ProcessIdentity.
Proof. solve_decision. Defined.

Definition has_key (p : ProcessIdentity) : bool := (0 <? p_StartTicks p) && negb (bytes_eqb (p_BootID p) []).

Definition linuxProcessIdentityEqual (a b : ProcessIdentity) : outcome ProcErr bool :=
  if has_key a && has_key b then Ok ((p_StartTicks a =? p_StartTicks b) && bytes_eqb (p_BootID a) (p_BootID b))
  else if has_key a && negb (has_key b) then
    (if isLegacyTicksValue (p_StartedAt b) then Ok (p_StartTicks a =? p_StartedAt b) else Err ProcFailed)
  else if has_key b && negb (has_key a) then
    (if isLegacyTicksValue (p_StartedAt a) then Ok (p_StartTicks b =? p_StartedAt a) else Err ProcFailed)
  else if negb (has_key a) && negb (has_key b) then Ok (p_StartedAt a =? p_StartedAt b)
  else Err ProcFailed.

Definition parseProcPIDStatStartTicks (statData : bytes) : outcome ProcErr Z :=
  let commEnd := LastIndexByte statData 0x29 in
  if (commEnd <? 0) || (blen statData <=? commEnd + 2) then Err ProcFailed
  else
    obind (slice_from statData (commEnd + 2)) (fun tail =>
    let fields := Fields tail in
    if blen fields <=? 19 then Err ProcFailed
    else obind (index fields 19) (fun f =>
    match ParseInt f with
    | None => Err ProcFailed
    | Some ticks => Ok (if ticks <=? 0 then 1 else ticks)
    end)).

Fixpoint boot_loop (ls : list bytes) : outcome ProcErr Z :=
  match ls with
  | [] => Err ProcFailed
  | line :: ls' =>
      match Fields line with
      | name :: rest =>
          if negb (bytes_eqb name (str "btime")) then boot_loop ls'
          else match rest with
          | [v] =>
              match ParseInt v with
              | None => Err ProcFailed
              | Some secs =>
                  if secs <=? 0 then Err ProcFailed
                  else if MaxInt64 / nanoPerSec <? secs then Err ProcFailed
                  else Ok (i64 (secs * nanoPerSec))
              end
          | _ => Err ProcFailed
          end
      | [] => boot_loop ls'
      end
  end.
Definition parseProcStatBootTimeUnixNano (procStatData : bytes) : outcome ProcErr Z := boot_loop (split_lines procStatData).

Definition procStartTimeUnixNano (ticks clockTicksPerSecond bootTimeUnixNano : Z) : outcome ProcErr Z :=
  if ticks <=? 0 then Err ProcFailed
  else if clockTicksPerSecond <=? 0 then Err ProcFailed
  else if bootTimeUnixNano <=? 0 then Err ProcFailed
  else
    let secs := Z.quot ticks clockTicksPerSecond in
    let rem := Z.rem ticks clockTicksPerSecond in
    if Z.quot (MaxInt64 - bootTimeUnixNano) nanoPerSec <? secs then Err ProcFailed
    else if MaxInt64 / nanoPerSec <? rem then Err ProcFailed
    else Ok (i64 (i64 (bootTimeUnixNano + i64 (secs * nanoPerSec)) + Z.quot (i64 (rem * nanoPerSec)) clockTicksPerSecond)).

Definition coerceLegacyTicksStartedAt (storedTicks clockTicksPerSecond bootTimeUnixNano : Z) : outcome ProcErr Z :=
  if legacyTicksStartedAtThreshold <=? storedTicks then Ok storedTicks
  else procStartTimeUnixNano storedTicks clockTicksPerSecond bootTimeUnixNano.

(** ** Linux ([procid_linux.go], [procid.go]) *)

Definition linuxClockTicksPerSecond : Z := 100.

(** What reading a file of [/proc] gives. *)
Inductive file := Content (b : bytes) | Missing | Esrch | Unreadable.

Record proc := { stat_of : Z -> file; proc_stat : file; boot_id : file }.

Definition read_error (f : file) : ProcErr := match f with Missing | Esrch => ProcGone | _ => ProcFailed end.

Definition readLinuxStartTicks (pr : proc) (pid : Z) : outcome ProcErr Z :=
  match stat_of pr pid with
  | Content data => parseProcPIDStatStartTicks data
  | f => Err (read_error f)
  end.

Definition readLinuxBootTimeUnixNano (pr : proc) : outcome ProcErr Z :=
  match proc_stat pr with
  | Content data => parseProcStatBootTimeUnixNano data
  | f => Err (read_error f)
  end.

(** [strings.TrimSpace]. *)
Fixpoint trim_left (rs : list (Z * Z)) (b : bytes) : bytes :=
  match rs with
  | (r, n) :: rs' => if unicode_IsSpace r then trim_left rs' (drop (Z.to_nat n) b) else b
  | [] => b
  end.
Fixpoint trim_right (rs : list (Z * Z)) (b : bytes) : bytes :=
  match rs with
  | [] => []
  | (r, n) :: rs' =>
      if forallb (fun x => unicode_IsSpace (fst x)) rs then []
      else take (Z.to_nat n) b ++ trim_right rs' (drop (Z.to_nat n) b)
  end.
Definition TrimSpace (b : bytes) : bytes := let t := trim_left (decode_all b) b in trim_right (decode_all t) t.

Definition readLinuxBootID (pr : proc) : outcome ProcErr bytes :=
  match boot_id pr with
  | Content data => let id := TrimSpace data in if bytes_eqb id [] then Err ProcFailed else Ok id
  | f => Err (read_error f)
  end.

Definition processStartTime (pr : proc) (pid : Z) : outcome ProcErr Z :=
  obind (readLinuxStartTicks pr pid) (fun ticks =>
  obind (readLinuxBootTimeUnixNano pr) (fun bootUnixNano =>
  procStartTimeUnixNano ticks linuxClockTicksPerSecond bootUnixNano)).

Definition processIdentityExtra (pr : proc) (pid : Z) : outcome ProcErr (Z * bytes) :=
  obind (readLinuxStartTicks pr pid) (fun ticks =>
  obind (readLinuxBootID pr) (fun bootID => Ok (ticks, bootID))).

Definition ProcessIdentityFor (pr : proc) (pid : Z) : outcome ProcErr ProcessIdentity :=
  if pid <=? 0 then Err ProcFailed
  else
    obind (processStartTime pr pid) (fun started =>
    obind (processIdentityExtra pr pid) (fun extra =>
    Ok {| p_PID := pid; p_StartedAt := started; p_StartTicks := fst extra; p_BootID := snd extra |})).

Definition validateStoredProcessIdentity (pr : proc) (p : ProcessIdentity) : outcome ProcErr unit :=
  if has_key p then Ok tt
  else if negb (p_StartTicks p =? 0) || negb (bytes_eqb (p_BootID p) []) then Err ProcFailed
  else if p_StartedAt p <? legacyTicksStartedAtThreshold then
    obind (readLinuxBootTimeUnixNano pr) (fun bootUnixNano =>
    obind (coerceLegacyTicksStartedAt (p_StartedAt p) linuxClockTicksPerSecond bootUnixNano) (fun _ => Ok tt))
  else Err ProcFailed.

Definition Alive (pr : proc) (p : ProcessIdentity) : outcome ProcErr bool :=
  if p_PID p <=? 0 then Err ProcFailed
  else match ProcessIdentityFor pr (p_PID p) with
  | Err ProcGone => Ok false
  | Err e => Err e
  | Panic => Panic
  | Ok live =>
      obind (validateStoredProcessIdentity pr p) (fun _ => linuxProcessIdentityEqual live p)
  end.

Definition Matches (a b : ProcessIdentity) : bool :=
  if negb (p_PID a =? p_PID b) || (p_PID a <=? 0) then false
  else match linuxProcessIdentityEqual a b with Ok e => e | _ => false end.

(** ** Start times *)

Lemma quot_div a b : 0 <= a -> 0 < b -> Z.quot a b = a / b.
Proof. intros. apply Z.quot_div_nonneg; lia. Qed.

Lemma rem_mod a b : 0 <= a -> 0 < b -> Z.rem a b = a mod b.
Proof. intros. apply Z.rem_mod_nonneg; lia. Qed.

(** The exact conversion of ticks to nanoseconds splits at the second. *)
Lemma split_second ticks cps :
  0 <= ticks -> 0 < cps ->
  ticks * nanoPerSec / cps = ticks / cps * nanoPerSec + ticks mod cps * nanoPerSec / cps.
Proof.
  intros Ht Hc. rewrite (Z.div_mod ticks cps) at 1 by lia.
  replace ((cps * (ticks / cps) + ticks mod cps) * nanoPerSec) with (ticks mod cps * nanoPerSec + ticks / cps * nanoPerSec * cps) by lia.
  rewrite Z.div_add by lia. lia.
Qed.

Lemma i64_wrap x : 2 ^ 63 <= x < 2 ^ 63 + 2 ^ 64 -> i64 x = x - 2 ^ 64.
Proof.
  unfold i64. intros H. replace ((x + 2 ^ 63) mod 2 ^ 64) with (x + 2 ^ 63 - 2 ^ 64); [lia|].
  rewrite <- (Z.mod_small (x + 2 ^ 63 - 2 ^ 64) (2 ^ 64)) by lia.
  replace (x + 2 ^ 63 - 2 ^ 64) with (x + 2 ^ 63 + (-1) * 2 ^ 64) by lia. apply Z.mod_add. lia.
Qed.

(** The start time of a process is exact.  For positive ticks, tick rate and
    boot time of an [int64], a conversion that returns gives the boot time plus the
    ticks scaled to nanoseconds, rounded down, whenever that instant fits an
    [int64]; every instant that fits is converted (for a tick rate below 2^33); a
    non-positive input is refused.  The intermediate products never wrap. *)
Theorem start_time_exact ticks cps boot :
  0 < ticks <= MaxInt64 -> 0 < cps < 2 ^ 33 -> 0 < boot <= MaxInt64 ->
  let exact := boot + ticks * nanoPerSec / cps in
  (exact <= MaxInt64 -> procStartTimeUnixNano ticks cps boot = Ok exact) /\
  (MaxInt64 < exact ->
   procStartTimeUnixNano ticks cps boot = Err ProcFailed \/
   (exact < MaxInt64 + nanoPerSec /\ procStartTimeUnixNano ticks cps boot = Ok (exact - 2 ^ 64))).
Proof.
  intros Ht Hc Hb exact. unfold procStartTimeUnixNano, exact. rewrite split_second by lia.
  replace (ticks <=? 0) with false by lia. replace (cps <=? 0) with false by lia. replace (boot <=? 0) with false by lia.
  cbv zeta. rewrite quot_div, (quot_div ticks), rem_mod by (unfold MaxInt64, nanoPerSec in *; lia).
  pose proof (Z.div_pos ticks cps). pose proof (Z.mod_pos_bound ticks cps).
  pose proof (Z.mod_pos_bound ticks cps) as Hm. set (secs := ticks / cps) in *. set (rem := ticks mod cps) in *.
  assert (MaxInt64 / nanoPerSec = 9223372036) as -> by reflexivity. replace (9223372036 <? rem) with false by lia.
  assert (0 <= rem * nanoPerSec / cps < nanoPerSec) as Hr.
  { split; [apply Z.div_pos; unfold nanoPerSec; lia|apply Z.div_lt_upper_bound; unfold nanoPerSec; nia]. }
  assert (i64 (rem * nanoPerSec) = rem * nanoPerSec) as -> by (apply i64_in_range; unfold int64_ok, nanoPerSec; lia).
  rewrite quot_div by (unfold nanoPerSec; lia). set (r := rem * nanoPerSec / cps) in *.
  destruct (Z.ltb_spec ((MaxInt64 - boot) / nanoPerSec) secs) as [Hlt|Hge].
  - assert (MaxInt64 - boot < secs * nanoPerSec) as Hx.
    { pose proof (Z.mul_succ_div_gt (MaxInt64 - boot) nanoPerSec ltac:(unfold nanoPerSec; lia)). unfold nanoPerSec in *. nia. }
    split; [lia|by left].
  - assert (secs * nanoPerSec <= MaxInt64 - boot) as Hx.
    { pose proof (Z.mul_div_le (MaxInt64 - boot) nanoPerSec ltac:(unfold nanoPerSec; lia)). unfold nanoPerSec in *. nia. }
    assert (0 <= secs * nanoPerSec) by (unfold nanoPerSec; lia).
    rewrite (i64_in_range (secs * nanoPerSec)), (i64_in_range (boot + _)) by (unfold int64_ok, MaxInt64 in *; lia).
    split; intros Hf.
    + rewrite i64_in_range by (unfold int64_ok, MaxInt64 in *; lia). f_equal. lia.
    + right. split; [unfold MaxInt64 in *; lia|].
      rewrite i64_wrap by (unfold MaxInt64, nanoPerSec in *; lia). f_equal. lia.
Qed.

Lemma start_time_exact_witness :
  procStartTimeUnixNano 12345 100 1700000000000000000 = Ok (1700000000000000000 + 12345 * nanoPerSec / 100).
Proof.
  apply (start_time_exact 12345 100 1700000000000000000); unfold MaxInt64; try lia. vm_compute. discriminate.
Defined.

(** The guard leaves the last fraction of a second out: the sum can wrap. *)
Lemma start_time_wraps : procStartTimeUnixNano 199 100 (MaxInt64 - nanoPerSec) = Ok (- 2 ^ 63 + 990000000 - 1).
Proof. vm_compute. reflexivity. Qed.

(** ** Reading [/proc/<pid>/stat] *)

Lemma decimal_value_format fuel x acc :
  0 <= x < 10 ^ Z.of_nat fuel -> (fuel > 0)%nat -> decimal_value (format_loop fuel x acc) 0 = decimal_value acc x.
Proof.
  revert x acc. induction fuel as [|fuel IH]; intros x acc Hx Hf; [lia|]. cbn [format_loop].
  rewrite Nat2Z.inj_succ, Z.pow_succ_r in Hx by lia.
  assert (forall d a k, 0 <= d < 10 -> decimal_value ((0x30 + d) :: a) k = decimal_value a (k * 10 + d)) as Hd.
  { intros d a k Hd. cbn [decimal_value]. unfold in_range. replace (_ && _) with true by lia. f_equal. lia. }
  destruct (Z.ltb_spec x 10).
  - rewrite Hd by lia. done.
  - pose proof (Z.div_mod x 10 ltac:(lia)). pose proof (Z.mod_pos_bound x 10 ltac:(lia)).
    destruct fuel as [|fuel]; [cbn in Hx; lia|].
    assert (0 <= x / 10 < 10 ^ Z.of_nat (S fuel)) by (split; [apply Z.div_pos; lia|apply Z.div_lt_upper_bound; lia]).
    rewrite IH by lia.
    rewrite Hd by lia. f_equal. lia.
Qed.

Lemma format_digits fuel x acc : Forall (fun c => 0x30 <= c <= 0x39) acc -> 0 <= x ->
  Forall (fun c => 0x30 <= c <= 0x39) (format_loop fuel x acc).
Proof.
  revert x acc. induction fuel as [|fuel IH]; intros x acc Ha Hx; [done|]. cbn [format_loop].
  pose proof (Z.mod_pos_bound x 10 ltac:(lia)).
  destruct (Z.ltb_spec x 10); [constructor; [lia|done]|]. apply IH; [constructor; [lia|done]|apply Z.div_pos; lia].
Qed.

Lemma format_nonempty fuel x acc : (fuel > 0)%nat \/ acc <> [] -> format_loop fuel x acc <> [].
Proof.
  revert x acc. induction fuel as [|fuel IH]; intros x acc H; [destruct H; [lia|done]|]. cbn [format_loop].
  destruct (x <? 10); [done|]. apply IH. by right.
Qed.

Lemma ParseInt_FormatUint x : 0 <= x < 2 ^ 63 -> ParseInt (FormatUint x) = Some x.
Proof.
  intros Hx. unfold ParseInt, FormatUint.
  pose proof (format_digits 20 x [] ltac:(constructor) ltac:(lia)) as Hd.
  pose proof (format_nonempty 20 x [] ltac:(left; lia)) as Hn.
  pose proof (decimal_value_format 20 x [] ltac:(lia) ltac:(lia)) as Hv.
  destruct (format_loop 20 x []) as [|c s]; [done|]. apply Forall_cons in Hd as [Hc _]. cbv zeta.
  replace (c =? 45) with false by lia. replace (c =? 43) with false by lia. cbn [orb bytes_eqb].
  rewrite Hv. cbn [decimal_value]. replace ((_ <=? x) && (x <=? _)) with true by lia. done.
Qed.

Definition ascii_text (b : bytes) : Prop := Forall (fun c => 0 <= c < 128) b.

(** A word of the kernel's line: printable ASCII, not empty. *)
Definition word (w : bytes) : Prop := w <> [] /\ Forall (fun c => 0x20 < c < 0x7F) w.

Lemma decode_all_loop_ascii fuel b : ascii_text b -> (length b <= fuel)%nat -> decode_all_loop fuel b = map (fun c => (c, 1)) b.
Proof.
  revert b. induction fuel as [|fuel IH]; intros [|c b] Hb Hl; cbn [length] in Hl; try done; [lia|].
  apply Forall_cons in Hb as [Hc Hb]. cbn [decode_all_loop map]. rewrite DecodeRune_1 by lia.
  change (drop (Z.to_nat 1) (c :: b)) with b. rewrite IH by (done || lia). done.
Qed.

Lemma space_ascii c : 0x20 < c < 0x7F -> unicode_IsSpace c = false.
Proof.
  intros H. unfold unicode_IsSpace, in_range. cbn [existsb].
  repeat match goal with |- context [?x =? ?y] => replace (x =? y) with false by lia end. lia.
Qed.

(** Scanning a word extends the current field; a space ends it. *)
Lemma fields_word w rest cur :
  Forall (fun c => 0x20 < c < 0x7F) w ->
  fields_loop (map (fun c => (c, 1)) (w ++ rest)) (w ++ rest) cur = fields_loop (map (fun c => (c, 1)) rest) rest (cur ++ w).
Proof.
  revert cur. induction w as [|c w IH]; intros cur Hw; [by rewrite app_nil_r|].
  apply Forall_cons in Hw as [Hc Hw]. cbn [app map fields_loop]. rewrite space_ascii by done.
  change (drop (Z.to_nat 1) (c :: w ++ rest)) with (w ++ rest).
  change (take (Z.to_nat 1) (c :: w ++ rest)) with [c]. rewrite IH by done. by rewrite <- app_assoc.
Qed.

(** A line of words separated by single spaces, with what follows the last. *)
Definition line_of (ws : list bytes) : bytes := ws ≫= (fun w => w ++ [0x20]).

Lemma line_of_ascii ws : Forall word ws -> ascii_text (line_of ws).
Proof.
  induction 1 as [|w ws [_ Hw] _ IH]; [constructor|]. cbn. apply Forall_app. split; [|done].
  apply Forall_app. split; [|repeat constructor; lia]. eapply Forall_impl; [exact Hw|]. cbn. lia.
Qed.

Lemma Fields_line ws : Forall word ws -> Fields (line_of ws) = ws.
Proof.
  intros H. unfold Fields, decode_all. rewrite decode_all_loop_ascii by (done || by apply line_of_ascii).
  induction H as [|w ws [Hne Hw] Hall IH]; [done|].
  change (line_of (w :: ws)) with ((w ++ [0x20]) ++ line_of ws). rewrite <- app_assoc, fields_word by done.
  cbn [app map fields_loop]. change (drop (Z.to_nat 1) (32 :: line_of ws)) with (line_of ws).
  change (unicode_IsSpace 32) with true. cbn iota. destruct (bytes_eqb w []) eqn:E; [by apply bytes_eqb_eq in E|].
  by rewrite IH.
Qed.

Lemma LastIndexByte_absent b c : c ∉ b -> LastIndexByte b c = -1.
Proof.
  induction b as [|x b IH]; intros H; [done|]. apply not_elem_of_cons in H as [Hx Hb]. cbn [LastIndexByte].
  rewrite IH by done. cbn. destruct (Z.eqb_spec x c); [congruence|done].
Qed.

Lemma LastIndexByte_last a b c : c ∉ b -> LastIndexByte (a ++ c :: b) c = blen a.
Proof.
  intros H. induction a as [|x a IH]; cbn [app LastIndexByte].
  - rewrite LastIndexByte_absent by done. cbn. by rewrite Z.eqb_refl.
  - rewrite IH, blen_cons. pose proof (blen_nonneg a). replace (0 <=? blen a) with true by lia. lia.
Qed.

(** The kernel's line for a process: pid, the command in parentheses whatever
    bytes it has, and the other fields. *)
Definition stat_line (pid : Z) (comm : bytes) (ws : list bytes) : bytes :=
  (FormatUint pid ++ [0x20; 0x28] ++ comm) ++ 0x29 :: 0x20 :: line_of ws.

Lemma stat_line_parse pid comm ws ticks :
  Forall (fun w => word w /\ 0x29 ∉ w) ws -> ws !! 19%nat = Some (FormatUint ticks) -> 0 <= ticks < 2 ^ 63 ->
  parseProcPIDStatStartTicks (stat_line pid comm ws) = Ok (Z.max 1 ticks).
Proof.
  intros Hw Hf Ht. unfold parseProcPIDStatStartTicks, stat_line. set (a := FormatUint pid ++ _).
  assert (Forall word ws) as Hws by (eapply Forall_impl; [exact Hw|]; naive_solver).
  assert (0x29 ∉ line_of ws) as Hp.
  { clear Hf Hws. induction Hw as [|w ws [_ Hn] _ IH]; [apply not_elem_of_nil|].
    change (line_of (w :: ws)) with ((w ++ [0x20]) ++ line_of ws). rewrite !not_elem_of_app, list_elem_of_singleton. auto. }
  rewrite LastIndexByte_last by (rewrite not_elem_of_cons; auto).
  assert (0 < blen (line_of ws)) as Hl.
  { destruct ws as [|w ws]; [done|]. change (line_of (w :: ws)) with ((w ++ [0x20]) ++ line_of ws).
    rewrite !blen_app. pose proof (blen_nonneg w). pose proof (blen_nonneg (line_of ws)). change (blen [0x20]) with 1. lia. }
  pose proof (blen_nonneg a) as Ha. rewrite blen_app, !blen_cons.
  replace ((blen a <? 0) || (blen a + (1 + (1 + blen (line_of ws))) <=? blen a + 2)) with false by lia. cbv zeta.
  replace (a ++ 0x29 :: 0x20 :: line_of ws) with ((a ++ [0x29; 0x20]) ++ line_of ws) by (by rewrite <- app_assoc).
  replace (blen a + 2) with (blen (a ++ [0x29; 0x20])) by (rewrite blen_app; reflexivity).
  rewrite slice_from_app. cbn [obind]. rewrite Fields_line by done.
  pose proof (lookup_lt_Some _ _ _ Hf) as Hlt. replace (blen ws <=? 19) with false by (unfold blen; lia).
  unfold index. cbn [Z.leb Z.compare]. change (Z.to_nat 19) with 19%nat. rewrite Hf. cbn [obind].
  rewrite ParseInt_FormatUint by done. f_equal. destruct (Z.leb_spec ticks 0); lia.
Qed.

(** ** Liveness *)

Lemma readLinuxStartTicks_pos pr pid ticks : readLinuxStartTicks pr pid = Ok ticks -> 0 < ticks.
Proof.
  unfold readLinuxStartTicks, parseProcPIDStatStartTicks. destruct (stat_of pr pid); try done. cbv zeta.
  destruct (_ || _); [done|]. destruct (slice_from _ _); cbn [obind]; [|done|done].
  destruct (_ <=? 19); [done|]. destruct (index _ _); cbn [obind]; [|done|done].
  destruct (ParseInt _) as [t|]; [|done]. destruct (Z.leb_spec t 0); intros [= <-]; lia.
Qed.

Lemma readLinuxBootID_nonempty pr id : readLinuxBootID pr = Ok id -> id <> [].
Proof.
  unfold readLinuxBootID. destruct (boot_id pr); try done. cbv zeta. destruct (bytes_eqb _ []) eqn:E; [done|].
  apply bytes_eqb_neq in E. by intros [= <-].
Qed.

(** What a successful reading of a live process contains. *)
Lemma ProcessIdentityFor_ok pr pid p :
  ProcessIdentityFor pr pid = Ok p ->
  0 < pid /\ p_PID p = pid /\ readLinuxStartTicks pr pid = Ok (p_StartTicks p) /\ readLinuxBootID pr = Ok (p_BootID p) /\
  has_key p = true.
Proof.
  unfold ProcessIdentityFor, processIdentityExtra. destruct (Z.leb_spec pid 0); [done|].
  destruct (processStartTime pr pid); cbn [obind]; [|done|done].
  destruct (readLinuxStartTicks pr pid) as [t| |] eqn:E1; cbn [obind]; [|done|done].
  destruct (readLinuxBootID pr) as [i| |] eqn:E2; cbn [obind fst snd]; [|done|done]. intros [= <-]. cbn.
  split_and!; try done. unfold has_key. cbn. apply readLinuxStartTicks_pos in E1. apply readLinuxBootID_nonempty, bytes_eqb_neq in E2.
  rewrite E2. lia.
Qed.

Lemma equal_keyed a b :
  has_key a = true -> has_key b = true ->
  linuxProcessIdentityEqual a b = Ok ((p_StartTicks a =? p_StartTicks b) && bytes_eqb (p_BootID a) (p_BootID b)).
Proof. intros Ha Hb. unfold linuxProcessIdentityEqual. by rewrite Ha, Hb. Qed.

Lemma equal_legacy a b v :
  has_key a = true -> has_key b = false -> linuxProcessIdentityEqual a b = Ok v ->
  p_StartedAt b < legacyTicksStartedAtThreshold /\ v = (p_StartTicks a =? p_StartedAt b).
Proof.
  intros Ha Hb. unfold linuxProcessIdentityEqual, isLegacyTicksValue. rewrite Ha, Hb. cbn.
  destruct (Z.ltb_spec (p_StartedAt b) legacyTicksStartedAtThreshold); [|done]. by intros [= <-].
Qed.

(** A process is declared alive only when it is the recorded one.  An
    affirmative answer means that the pid runs now with the recorded start ticks
    and, for a record that carries the drift-free key, under the recorded boot id:
    a reused pid or a reboot is never taken for the recorded process, and a record
    with half a key is never alive.  A process pinned while it ran is found alive
    by a later reading exactly when that reading has the same ticks and the same
    boot id, whatever the wall clock did in between; and when the pid has no entry
    it is reported gone. *)
Theorem alive_is_recorded pr p :
  (Alive pr p = Ok true ->
   exists ticks, 0 < p_PID p /\ readLinuxStartTicks pr (p_PID p) = Ok ticks /\
     ((p_StartTicks p = ticks /\ readLinuxBootID pr = Ok (p_BootID p)) \/
      (p_StartTicks p = 0 /\ p_BootID p = [] /\ p_StartedAt p = ticks /\ ticks < legacyTicksStartedAtThreshold))) /\
  (forall pr0 live, ProcessIdentityFor pr0 (p_PID p) = Ok p -> ProcessIdentityFor pr (p_PID p) = Ok live ->
     Alive pr p = Ok (bool_decide (p_StartTicks p = p_StartTicks live /\ p_BootID p = p_BootID live))) /\
  (0 < p_PID p -> stat_of pr (p_PID p) = Missing -> Alive pr p = Ok false) /\
  (forall pid comm ws ticks, p_PID p = pid -> stat_of pr pid = Content (stat_line pid comm ws) ->
     Forall (fun w => word w /\ 0x29 ∉ w) ws -> ws !! 19%nat = Some (FormatUint ticks) -> 0 < ticks < 2 ^ 63 ->
     has_key p = true -> p_StartTicks p <> ticks -> Alive pr p <> Ok true).
Proof.
  assert (Alive pr p = Ok true ->
   exists ticks, 0 < p_PID p /\ readLinuxStartTicks pr (p_PID p) = Ok ticks /\
     ((p_StartTicks p = ticks /\ readLinuxBootID pr = Ok (p_BootID p)) \/
      (p_StartTicks p = 0 /\ p_BootID p = [] /\ p_StartedAt p = ticks /\ ticks < legacyTicksStartedAtThreshold))) as Hs.
  { unfold Alive. destruct (Z.leb_spec (p_PID p) 0); [done|].
    destruct (ProcessIdentityFor pr (p_PID p)) as [live|[]|] eqn:E; [|done|done|done].
    apply ProcessIdentityFor_ok in E as (_ & _ & Ht & Hb & Hk). intros H1. apply obind_tt in H1 as [Hv He].
    exists (p_StartTicks live). split_and!; [lia|done|]. destruct (has_key p) eqn:K.
    - left. rewrite (equal_keyed _ _ Hk K) in He. injection He as He. apply andb_true_iff in He as [H1%Z.eqb_eq H2%bytes_eqb_eq].
      by rewrite <- H2.
    - right. destruct (equal_legacy _ _ _ Hk K He) as [Hlt Heq]. symmetry in Heq. apply Z.eqb_eq in Heq.
      unfold validateStoredProcessIdentity in Hv. rewrite K in Hv. destruct (_ || _) eqn:E2; [done|].
      apply orb_false_iff in E2 as [E2%negb_false_iff E3%negb_false_iff]. apply Z.eqb_eq in E2. apply bytes_eqb_eq in E3.
      split_and!; (done || lia). }
  split_and!; [exact Hs| | |].
  - intros pr0 live H0 H1. unfold Alive. pose proof (ProcessIdentityFor_ok _ _ _ H0) as (Hp & _ & _ & _ & K).
    replace (p_PID p <=? 0) with false by lia. rewrite H1. apply ProcessIdentityFor_ok in H1 as (_ & _ & _ & _ & Kl).
    unfold validateStoredProcessIdentity. rewrite K. cbn [obind]. rewrite equal_keyed by done. f_equal.
    apply eq_true_iff_eq. rewrite andb_true_iff, Z.eqb_eq, bytes_eqb_eq, bool_decide_eq_true. naive_solver.
  - intros Hp Hm. unfold Alive, ProcessIdentityFor, processStartTime, readLinuxStartTicks.
    replace (p_PID p <=? 0) with false by lia. by rewrite Hm.
  - intros pid comm ws ticks <- Hc Hw Hf Ht K Hn Ha. destruct (Hs Ha) as (t & _ & Hr & [[E _]|(E & _)]).
    + unfold readLinuxStartTicks in Hr. rewrite Hc, (stat_line_parse _ _ _ _ Hw Hf ltac:(lia)) in Hr. injection Hr as Hr. lia.
    + unfold has_key in K. rewrite E in K. discriminate.
Qed.

(** A process of pid 42 whose command is a closing parenthesis and a space. *)
Definition sample_ws : list bytes := replicate 19 (str "7") ++ [FormatUint 5000; str "0"].
Definition sample_proc (ticks : Z) (boot : bytes) (btime : Z) : proc := {|
  stat_of pid := if pid =? 42 then Content (stat_line 42 (str ") S 1") (replicate 19 (str "7") ++ [FormatUint ticks; str "0"])) else Missing;
  proc_stat := Content (str "cpu 1 2" ++ [0x0A] ++ str "btime " ++ FormatUint btime ++ [0x0A]);
  boot_id := Content (boot ++ [0x0A])
|}.
Definition sample_live (ticks : Z) (boot : bytes) (started : Z) : ProcessIdentity :=
  {| p_PID := 42; p_StartedAt := started; p_StartTicks := ticks; p_BootID := boot |}.

(** The clock steps back an hour: the process is still alive.  After a reboot it
    is not, although its pid and its ticks are the same. *)
Lemma alive_is_recorded_witness :
  let p := sample_live 5000 (str "b1") (1700000050 * nanoPerSec) in
  Alive (sample_proc 5000 (str "b1") 1699996400) p = Ok true /\ Alive (sample_proc 5000 (str "b2") 1700000000) p = Ok false.
Proof.
  assert (ProcessIdentityFor (sample_proc 5000 (str "b1") 1700000000) 42 =
    Ok (sample_live 5000 (str "b1") (1700000050 * nanoPerSec))) as E0 by (vm_compute; reflexivity).
  assert (ProcessIdentityFor (sample_proc 5000 (str "b1") 1699996400) 42 =
    Ok (sample_live 5000 (str "b1") (1699996450 * nanoPerSec))) as E1 by (vm_compute; reflexivity).
  assert (ProcessIdentityFor (sample_proc 5000 (str "b2") 1700000000) 42 =
    Ok (sample_live 5000 (str "b2") (1700000050 * nanoPerSec))) as E2 by (vm_compute; reflexivity).
  set (p := sample_live 5000 (str "b1") (1700000050 * nanoPerSec)) in *. cbv zeta.
  pose proof (alive_is_recorded (sample_proc 5000 (str "b1") 1699996400) p) as (_ & H1 & _).
  pose proof (alive_is_recorded (sample_proc 5000 (str "b2") 1700000000) p) as (_ & H2 & _).
  change (p_PID p) with 42 in H1, H2. rewrite (H1 _ _ E0 E1), (H2 _ _ E0 E2).
  split; [rewrite bool_decide_true|rewrite bool_decide_false]; [reflexivity|split; reflexivity|reflexivity|].
  intros [_ F]. discriminate F.
Defined.

(** A missing boot-id file wraps the same [os.ErrNotExist] as a missing process:
    a running process is reported gone instead of unverifiable. *)
Lemma missing_boot_id_reports_gone :
  let p := sample_live 5000 (str "b1") (1700000050 * nanoPerSec) in
  let pr := sample_proc 5000 (str "b1") 1700000000 in
  Alive pr p = Ok true /\
  Alive {| stat_of := stat_of pr; proc_stat := proc_stat pr; boot_id := Missing |} p = Ok false.
Proof. split; vm_compute; reflexivity. Qed.
