(* ===== verification/Registry.v ===== *)
(** * Registry: the discovery directory ([src/sessionshim/registry.go], [ack.go],
    [absence.go], [flowcontrol.go], [seat.go], [session.go])

    One directory holds, per session, the live record of its shim, the tombstones of
    its incarnations and the sidecars (durable acknowledgement, back-pressure state,
    seat launch, epoch floor, session identity, withdrawn record).  The directory is
    a map from names to files.  A call of the operating system may fail at any point:
    the world carries a list of [fault]s, one consumed by each call, that says
    whether it fails before or after its effect, so that every error return, and a
    crash at any step, is a run of the model.  Publication (temporary file, sync,
    rename, directory sync) is one call: it is atomic by the rename. *)

From stdpp Require Import sets gmap.
From S2P Require Import Prelude ShimWire ShimControl GoSort ShimRecord.

(** ** The directory *)

Inductive fileKind := Regular | Directory | OtherKind.
Record fileEntry := { e_kind : fileKind; e_perm : Z; e_owned : bool; e_data : bytes }.

#[export] Instance fileKind_eq_dec : EqDecision fileKind.
Proof. solve_decision. Defined.
#[export] Instance fileEntry_eq_dec : EqDecision fileEntry.
Proof. solve_decision. Defined.

Inductive fault := Fine | FailBefore | FailAfter.

Record world := { files : gmap bytes fileEntry; faults : list fault }.

(** The directory itself: whether it is a directory of the running user, and its
    permission bits. *)
Record dirInfo := { d_isDir : bool; d_perm : Z; d_owned : bool }.

Definition RecordFileMode : Z := 0x180.  (* 0o600 *)
Definition RegistryDirMode : Z := 0x1C0.  (* 0o700 *)

(** ** Operations as state transformers *)

Definition RM (A : Type) : Type := world -> world * outcome ShimErr A.

Definition rret {A} (a : A) : RM A := fun w => (w, Ok a).
Definition rerr {A} (e : ShimErr) : RM A := fun w => (w, Err e).
Definition rlift {A} (o : outcome ShimErr A) : RM A := fun w => (w, o).
Definition rbind {A B} (m : RM A) (k : A -> RM B) : RM B := fun w =>
  match m w with
  | (w', Ok a) => k a w'
  | (w', Err e) => (w', Err e)
  | (w', Panic) => (w', Panic)
  end.
(** The error as a value, for a caller that inspects it. *)
Definition attempt {A} (m : RM A) : RM (outcome ShimErr A) := fun w => let '(w', o) := m w in (w', Ok o).

Declare Scope reg_scope.
Notation "'let%' x ':=' m 'in' k" := (rbind m (fun x => k))
  (at level 10, x pattern, m at level 100, k at level 200) : reg_scope.
Open Scope reg_scope.

(** One call of the operating system. *)
Definition syscall : RM fault := fun w =>
  match faults w with
  | [] => (w, Ok Fine)
  | f :: fs => ({| files := files w; faults := fs |}, Ok f)
  end.

Definition update (g : gmap bytes fileEntry -> gmap bytes fileEntry) : RM unit := fun w =>
  ({| files := g (files w); faults := faults w |}, Ok tt).
Definition get_files : RM (gmap bytes fileEntry) := fun w => (w, Ok (files w)).

(** An effect that can fail before or after it happened. *)
Definition effect (g : gmap bytes fileEntry -> gmap bytes fileEntry) : RM unit :=
  let% f := syscall in
  match f with
  | Fine => update g
  | FailBefore => rerr ErrIO
  | FailAfter => let% _ := update g in rerr ErrIO
  end.

Definition observe : RM (gmap bytes fileEntry) :=
  let% f := syscall in match f with Fine => get_files | _ => rerr ErrIO end.

Fixpoint foreach {A} (l : list A) (body : A -> RM unit) : RM unit :=
  match l with
  | [] => rret tt
  | x :: l' => let% _ := body x in foreach l' body
  end.

(** The arguments: the digest, the codecs, the directory and the clock. *)
Record durableAckCursor := {
  a_SchemaVersion : Z; a_OrgID : bytes; a_SessionID : bytes; a_ShimID : bytes; a_ProcessEpoch : Z;
  a_ControllerGeneration : Z; a_AckedSeq : Z
}.

Record SeatLaunch := {
  s_SchemaVersion : Z; s_OrgID : bytes; s_SessionID : bytes; s_ProcessEpoch : Z; s_Scope : bytes; s_Mode : bytes;
  s_CPUs : Z; s_MemoryMB : Z; s_IOWeight : Z; s_CreatedAtUnixNano : Z
}.

Record StreamFlowControl := {
  f_SchemaVersion : Z; f_OrgID : bytes; f_SessionID : bytes; f_ShimID : bytes; f_ProcessEpoch : Z; f_Paused : bool;
  f_PausedSinceUnixNano : Z; f_PendingBytes : Z; f_PauseBoundReached : bool; f_ObservedAtUnixNano : Z
}.

Record SessionSidecar := {
  n_SchemaVersion : Z; n_OrgID : bytes; n_SessionID : bytes; n_ProcessEpoch : Z; n_Repository : bytes;
  n_ProjectName : bytes; n_Harness : bytes
}.

Record codecs := {
  Sum256 : bytes -> bytes;
  j_record : JsonStream DiscoveryRecord;
  j_tombstone : JsonStream Tombstone;
  j_ack : JsonStream durableAckCursor;
  j_seat : JsonStream SeatLaunch;
  j_flow : JsonStream StreamFlowControl;
  j_session : JsonStream SessionSidecar
}.

(** ** Validation and names of the sidecars *)

Definition not_EOF (rest : bytes) : bool := negb (at_EOF rest).
Definition maxSidecarBytes : Z := Z.shiftl 1 10.

Definition durableAckSchemaVersion : Z := 1.
Definition durableAckSuffix : bytes := str ".ack".
Definition Ack_Identity (a : durableAckCursor) : Identity := {| OrgID := a_OrgID a; SessionID := a_SessionID a |}.
Definition Ack_validate (a : durableAckCursor) : outcome ShimErr unit :=
  if negb (a_SchemaVersion a =? durableAckSchemaVersion) then Err ErrContract
  else obind (Identity_Validate (Ack_Identity a)) (fun _ =>
  if bytes_eqb (a_ShimID a) [] || (a_ControllerGeneration a =? 0) || (a_AckedSeq a =? 0) then Err ErrContract else Ok tt).

Definition streamFlowSchemaVersion : Z := 1.
Definition streamFlowSuffix : bytes := str ".flow".
Definition Flow_Identity (f : StreamFlowControl) : Identity := {| OrgID := f_OrgID f; SessionID := f_SessionID f |}.
Definition Flow_Degraded (f : StreamFlowControl) : bool := f_Paused f || f_PauseBoundReached f.
Definition Flow_validate (f : StreamFlowControl) : outcome ShimErr unit :=
  if negb (f_SchemaVersion f =? streamFlowSchemaVersion) then Err ErrContract
  else obind (Identity_Validate (Flow_Identity f)) (fun _ =>
  if bytes_eqb (f_ShimID f) [] then Err ErrContract
  else if f_ObservedAtUnixNano f <=? 0 then Err ErrContract else Ok tt).

Definition seatLaunchSchemaVersion : Z := 1.
Definition seatLaunchSuffix : bytes := str ".seat".
Definition seatEpochFloorSuffix : bytes := str ".seatfloor".
Definition maxSeatScopeBytes : Z := 255.
Definition maxSeatCPUs : Z := Z.shiftl 1 16.
Definition maxSeatMemoryMB : Z := Z.shiftl 1 30.
Definition maxSeatIOWeight : Z := 10000.
Definition SeatModeEnforced : bytes := str "enforced".
Definition SeatModeBestEffort : bytes := str "best-effort".
Definition SeatModeNone : bytes := str "none".

Definition Seat_Identity (s : SeatLaunch) : Identity := {| OrgID := s_OrgID s; SessionID := s_SessionID s |}.

Definition NewSeatLaunch (id : Identity) (epoch : Z) (scope mode : bytes) (cpus memoryMB ioWeight now : Z) : SeatLaunch :=
  {| s_SchemaVersion := seatLaunchSchemaVersion; s_OrgID := OrgID id; s_SessionID := SessionID id; s_ProcessEpoch := epoch;
     s_Scope := scope; s_Mode := mode; s_CPUs := cpus; s_MemoryMB := memoryMB; s_IOWeight := ioWeight;
     s_CreatedAtUnixNano := i64 now |}.

(** The unit alphabet of [validateSeatScope]. *)
Definition scope_char (c : Z) : bool :=
  in_range 0x61 0x7A c || in_range 0x41 0x5A c || in_range 0x30 0x39 c || existsb (Z.eqb c) [0x2D; 0x5F; 0x2E; 0x40; 0x3A].

Definition validateSeatScope (scope : bytes) : outcome ShimErr unit :=
  if bytes_eqb scope [] then Ok tt
  else if maxSeatScopeBytes <? blen scope then Err ErrContract
  else if negb (has_suffix scope (str ".scope")) || (blen scope =? 6) then Err ErrContract
  else if negb (forallb scope_char scope) then Err ErrContract
  else Ok tt.

Definition Seat_Validate (s : SeatLaunch) : outcome ShimErr unit :=
  if negb (s_SchemaVersion s =? seatLaunchSchemaVersion) then Err ErrContract
  else obind (Identity_Validate (Seat_Identity s)) (fun _ =>
  if negb (one_of (s_Mode s) [SeatModeEnforced; SeatModeBestEffort; SeatModeNone]) then Err ErrContract
  else if (s_CPUs s <? 0) || (maxSeatCPUs <? s_CPUs s) || (s_MemoryMB s <? 0) || (maxSeatMemoryMB <? s_MemoryMB s)
          || (s_IOWeight s <? 0) || (maxSeatIOWeight <? s_IOWeight s) then Err ErrContract
  else obind (validateSeatScope (s_Scope s)) (fun _ =>
  if bytes_eqb (s_Mode s) SeatModeEnforced && bytes_eqb (s_Scope s) [] then Err ErrContract
  else if s_CreatedAtUnixNano s <=? 0 then Err ErrContract else Ok tt)).

Definition sessionSidecarSchemaVersion : Z := 1.
Definition sessionSuffix : bytes := str ".session".
Definition maxSessionFieldBytes : Z := 512.
Definition Sidecar_Identity (s : SessionSidecar) : Identity := {| OrgID := n_OrgID s; SessionID := n_SessionID s |}.
Definition NewSessionSidecar (id : Identity) (epoch : Z) (repository projectName harness : bytes) : SessionSidecar :=
  {| n_SchemaVersion := sessionSidecarSchemaVersion; n_OrgID := OrgID id; n_SessionID := SessionID id; n_ProcessEpoch := epoch;
     n_Repository := repository; n_ProjectName := projectName; n_Harness := harness |}.
Definition Sidecar_Validate (s : SessionSidecar) : outcome ShimErr unit :=
  if negb (n_SchemaVersion s =? sessionSidecarSchemaVersion) then Err ErrContract
  else obind (Identity_Validate (Sidecar_Identity s)) (fun _ =>
  if existsb (fun field => (maxSessionFieldBytes <? blen field) || ContainsAny field [0x00] || ContainsAny field [0x0A])
       [n_Repository s; n_ProjectName s; n_Harness s]
  then Err ErrContract else Ok tt).

Definition absenceSuffix : bytes := str ".absent".

Section registry.
Context (C : codecs) (dir : dirInfo).

Definition digest (correlation : bytes) : bytes := hex_EncodeToString (Sum256 C correlation).

(** [id.Key() + "\x1f" + shimID + "\x1f" + FormatUint(epoch)]. *)
Definition incarnation_key (id : Identity) (shimID : bytes) (epoch : Z) : bytes :=
  Identity_Key id ++ [0x1F] ++ shimID ++ [0x1F] ++ FormatUint epoch.
Definition launch_key (id : Identity) (epoch : Z) : bytes := Identity_Key id ++ [0x1F] ++ FormatUint epoch.

Definition durableAckName (id : Identity) (shimID : bytes) (epoch : Z) : bytes :=
  digest (incarnation_key id shimID epoch) ++ durableAckSuffix.
Definition streamFlowName (id : Identity) (shimID : bytes) (epoch : Z) : bytes :=
  digest (incarnation_key id shimID epoch) ++ streamFlowSuffix.
Definition absenceName (id : Identity) (shimID : bytes) (epoch : Z) : bytes :=
  digest (incarnation_key id shimID epoch) ++ absenceSuffix.
Definition tombstoneIncarnationName (t : Tombstone) : bytes :=
  digest (incarnation_key (Tombstone_Identity t) (t_ShimID t) (t_ProcessEpoch t)) ++ tombstoneSuffix.
Definition seatLaunchName (id : Identity) (epoch : Z) : bytes := digest (launch_key id epoch) ++ seatLaunchSuffix.
Definition sessionSidecarName (id : Identity) (epoch : Z) : bytes := digest (launch_key id epoch) ++ sessionSuffix.
Definition seatEpochFloorName (id : Identity) : bytes := digest (Identity_Key id) ++ seatEpochFloorSuffix.

(** ** Internals *)

Definition checkDirMode : RM unit :=
  let% _ := observe in
  if negb (d_isDir dir) then rerr ErrRegistryUnsafe
  else if negb (Z.land (d_perm dir) (Z.lnot RegistryDirMode) =? 0) then rerr ErrRegistryUnsafe
  else if negb (d_owned dir) then rerr ErrRegistryUnsafe
  else rret tt.

Definition readEntry (name : bytes) : RM bytes :=
  let% fs := observe in
  match fs !! name with
  | None => rerr ErrNotExist
  | Some f =>
      match e_kind f with
      | Regular =>
          if negb (Z.land (e_perm f) (Z.lnot RecordFileMode) =? 0) then rerr ErrRegistryUnsafe
          else if negb (e_owned f) then rerr ErrRegistryUnsafe
          else if MaxRecordBytes <? blen (e_data f) then rerr ErrRecordInvalid
          else rret (e_data f)
      | _ => rerr ErrRegistryUnsafe
      end
  end.

Definition listed (suffix : bytes) (exclude : list bytes) (name : bytes) (k : fileKind) : bool :=
  match k with Directory => false | _ => has_suffix name suffix && negb (existsb (has_suffix name) exclude) end.

(** [entryNames(suffix, exclude...)]. *)
Definition entryNames (suffix : bytes) (exclude : list bytes) : RM (list bytes) :=
  let% fs := observe in
  rret (sort_Strings (map fst (List.filter (fun p : bytes * fileEntry => listed suffix exclude p.1 (e_kind p.2)) (map_to_list fs)))).

Definition publish (name data : bytes) : RM unit :=
  effect (insert name {| e_kind := Regular; e_perm := RecordFileMode; e_owned := true; e_data := data |}).

(** [root.Remove(name)], a missing file not being an error. *)
Definition remove (name : bytes) : RM unit := effect (delete name).

(** [openRoot] before a loop of removals. *)
Definition openRoot : RM unit := let% _ := observe in rret tt.

(** ** Records *)

Definition Put (r : DiscoveryRecord) : RM unit :=
  let% data := rlift (Record_encode (j_record C) r) in
  publish (RecordName (Sum256 C) (Record_Identity r)) data.

Definition Get (id : Identity) : RM DiscoveryRecord :=
  let% data := readEntry (RecordName (Sum256 C) id) in
  rlift (decodeRecord (j_record C) data).

Definition set_resume (r : DiscoveryRecord) (k : option ResumeKey) : DiscoveryRecord :=
  {| r_SchemaVersion := r_SchemaVersion r; r_Workload := r_Workload r; r_OrgID := r_OrgID r; r_SessionID := r_SessionID r;
     r_ShimID := r_ShimID r; r_ProcessEpoch := r_ProcessEpoch r; r_PID := r_PID r; r_ProcessStartedAt := r_ProcessStartedAt r;
     r_ProcessStartTicks := r_ProcessStartTicks r; r_BootID := r_BootID r; r_SocketPath := r_SocketPath r;
     r_SocketDevice := r_SocketDevice r; r_SocketInode := r_SocketInode r; r_ProtocolMin := r_ProtocolMin r;
     r_ProtocolMax := r_ProtocolMax r; r_Phase := r_Phase r; r_WorkareaPath := r_WorkareaPath r;
     r_WorkareaRoot := r_WorkareaRoot r; r_ResumeKey := k; r_CreatedAtUnixNano := r_CreatedAtUnixNano r;
     r_OrphanDeadlineUnixNano := r_OrphanDeadlineUnixNano r |}.

Definition PutResumeKey (id : Identity) (key : ResumeKey) : RM unit :=
  let% _ := rlift (ResumeKey_Validate key) in
  let% rec := Get id in
  match r_ResumeKey rec with
  | Some _ => rret tt
  | None => Put (set_resume rec (Some key))
  end.

(** The incarnation a record or a tombstone names. *)
Definition same_incarnation (id : Identity) (shimID : bytes) (epoch : Z) (r : DiscoveryRecord) : bool :=
  bool_decide (Record_Identity r = id) && bytes_eqb (r_ShimID r) shimID && (r_ProcessEpoch r =? epoch).

Definition PutRetainingResumeKey (r : DiscoveryRecord) : RM (option ResumeKey) :=
  let% r' := (match r_ResumeKey r with
              | Some _ => rret r
              | None =>
                  let% previous := attempt (Get (Record_Identity r)) in
                  match previous with
                  | Ok p =>
                      if bytes_eqb (r_ShimID p) (r_ShimID r) && (r_ProcessEpoch p =? r_ProcessEpoch r)
                      then rret (set_resume r (r_ResumeKey p)) else rret r
                  | _ => rret r
                  end
              end) in
  let% _ := Put r' in
  rret (r_ResumeKey r').

Definition Remove (id : Identity) : RM unit := remove (RecordName (Sum256 C) id).

Record ScanEntry := { se_Name : bytes; se_Record : outcome ShimErr DiscoveryRecord }.

Fixpoint scan_loop (names : list bytes) : RM (list ScanEntry) :=
  match names with
  | [] => rret []
  | name :: names' =>
      let% e := attempt (let% data := readEntry name in rlift (decodeRecord (j_record C) data)) in
      let% rest := scan_loop names' in
      rret ({| se_Name := name; se_Record := e |} :: rest)
  end.

Definition Scan : RM (list ScanEntry) :=
  let% _ := checkDirMode in
  let% names := entryNames recordSuffix [tombstoneSuffix] in
  scan_loop names.

Definition entry_matches (id : Identity) (shimID : bytes) (epoch : Z) (e : ScanEntry) : bool :=
  match se_Record e with Ok r => same_incarnation id shimID epoch r | _ => false end.

Definition RemoveStreamFlow (id : Identity) (shimID : bytes) (epoch : Z) : RM unit := remove (streamFlowName id shimID epoch).
Definition RemoveSessionSidecar (id : Identity) (epoch : Z) : RM unit := remove (sessionSidecarName id epoch).

Definition RemoveIncarnation (id : Identity) (shimID : bytes) (epoch : Z) : RM unit :=
  let% entries := Scan in
  let% _ := openRoot in
  let% _ := foreach entries (fun e => if entry_matches id shimID epoch e then remove (se_Name e) else rret tt) in
  let% _ := RemoveStreamFlow id shimID epoch in
  RemoveSessionSidecar id epoch.

Definition HasIncarnation (id : Identity) (shimID : bytes) (epoch : Z) : RM bool :=
  let% entries := Scan in rret (existsb (entry_matches id shimID epoch) entries).

(** ** Tombstones *)

Record tombstoneFile := { tf_name : bytes; tf_tombstone : Tombstone }.

Fixpoint tombstone_loop (names : list bytes) : RM (list tombstoneFile) :=
  match names with
  | [] => rret []
  | name :: names' =>
      let% e := attempt (let% data := readEntry name in rlift (decodeTombstone (j_tombstone C) data)) in
      let% rest := tombstone_loop names' in
      rret (match e with Ok t => {| tf_name := name; tf_tombstone := t |} :: rest | _ => rest end)
  end.

Definition tombstoneEntries : RM (list tombstoneFile) :=
  let% _ := checkDirMode in
  let% names := entryNames tombstoneSuffix [] in
  tombstone_loop names.

(** [terminalIncarnationForTombstone(t) == want]. *)
Definition tombstone_names (id : Identity) (shimID : bytes) (epoch : Z) (t : Tombstone) : bool :=
  bool_decide (Tombstone_Identity t = id) && bytes_eqb (t_ShimID t) shimID && (t_ProcessEpoch t =? epoch).
Definition same_tombstone_incarnation (a b : Tombstone) : bool :=
  tombstone_names (Tombstone_Identity b) (t_ShimID b) (t_ProcessEpoch b) a.

Definition legacyTombstoneAliasSafe (t : Tombstone) : RM bool :=
  let% _ := checkDirMode in
  let% record := attempt (Get (Tombstone_Identity t)) in
  let proceed :=
    let% raw := attempt (readEntry (TombstoneName (Sum256 C) (Tombstone_Identity t))) in
    match raw with
    | Err ErrNotExist => rret true
    | Ok data =>
        match decodeTombstone (j_tombstone C) data with
        | Ok existing => rret (same_tombstone_incarnation existing t)
        | _ => rret false
        end
    | _ => rret false
    end in
  match record with
  | Err ErrNotExist => proceed
  | Ok r =>
      if same_incarnation (Tombstone_Identity t) (t_ShimID t) (t_ProcessEpoch t) r then proceed else rret false
  | _ => rret false
  end.

Definition set_tombstone_resume (t : Tombstone) (k : option ResumeKey) : Tombstone :=
  {| t_SchemaVersion := t_SchemaVersion t; t_Workload := t_Workload t; t_OrgID := t_OrgID t; t_SessionID := t_SessionID t;
     t_ShimID := t_ShimID t; t_ProcessEpoch := t_ProcessEpoch t; t_HarnessPID := t_HarnessPID t;
     t_HarnessStartedAt := t_HarnessStartedAt t; t_ExitCode := t_ExitCode t; t_Signal := t_Signal t; t_LastSeq := t_LastSeq t;
     t_GroupReaped := t_GroupReaped t; t_ResumeKey := k; t_Cause := t_Cause t; t_OutboxKey := t_OutboxKey t;
     t_OutboxState := t_OutboxState t; t_ObservedAtUnixNano := t_ObservedAtUnixNano t |}.

Definition removeDurableAck (id : Identity) (shimID : bytes) (epoch : Z) : RM unit := remove (durableAckName id shimID epoch).

Definition carry_resume (t : Tombstone) : RM Tombstone :=
  match t_ResumeKey t with
  | Some _ => rret t
  | None =>
      let% record := attempt (Get (Tombstone_Identity t)) in
      match record with
      | Ok r =>
          if bytes_eqb (r_ShimID r) (t_ShimID t) && (r_ProcessEpoch r =? t_ProcessEpoch t)
          then rret (set_tombstone_resume t (r_ResumeKey r)) else rret t
      | _ => rret t
      end
  end.

Definition PutTombstone (t0 : Tombstone) : RM unit :=
  let% t := carry_resume t0 in
  let% data := rlift (Tombstone_encode (j_tombstone C) t) in
  let% _ := publish (tombstoneIncarnationName t) data in
  let% legacySafe := legacyTombstoneAliasSafe t in
  let% _ := (if legacySafe : bool then publish (TombstoneName (Sum256 C) (Tombstone_Identity t)) data else rret tt) in
  let% _ := RemoveIncarnation (Tombstone_Identity t) (t_ShimID t) (t_ProcessEpoch t) in
  let% _ := removeDurableAck (Tombstone_Identity t) (t_ShimID t) (t_ProcessEpoch t) in
  RemoveStreamFlow (Tombstone_Identity t) (t_ShimID t) (t_ProcessEpoch t).

Definition removeTombstoneFiles (fs : list tombstoneFile) : RM unit :=
  let% _ := openRoot in foreach fs (fun f => remove (tf_name f)).

(** More than one incarnation among the matches. *)
Definition ambiguous (ms : list tombstoneFile) : bool :=
  match ms with
  | [] => false
  | m :: ms' => existsb (fun x => negb (same_tombstone_incarnation (tf_tombstone x) (tf_tombstone m))) ms'
  end.

Definition of_identity (id : Identity) (f : tombstoneFile) : bool := bool_decide (Tombstone_Identity (tf_tombstone f) = id).

Definition RemoveTombstone (id : Identity) : RM unit :=
  let% entries := tombstoneEntries in
  let matched := List.filter (of_identity id) entries in
  if ambiguous matched then rerr ErrTombstoneAmbiguous else removeTombstoneFiles matched.

Definition RemoveSeatLaunch (id : Identity) (epoch : Z) : RM unit := remove (seatLaunchName id epoch).

Definition RemoveTombstoneIncarnation (t : Tombstone) : RM unit :=
  let% entries := tombstoneEntries in
  let% _ := removeTombstoneFiles (List.filter (fun f => same_tombstone_incarnation (tf_tombstone f) t) entries) in
  let% _ := RemoveSeatLaunch (Tombstone_Identity t) (t_ProcessEpoch t) in
  RemoveSessionSidecar (Tombstone_Identity t) (t_ProcessEpoch t).

(** The map keeps the last entry of an incarnation. *)
Definition GetTombstone (id : Identity) : RM Tombstone :=
  let% entries := tombstoneEntries in
  let matched := List.filter (of_identity id) entries in
  if ambiguous matched then rerr ErrTombstoneAmbiguous
  else match last matched with
  | None => rerr ErrNotExist
  | Some f => rret (tf_tombstone f)
  end.

Definition GetTombstoneIncarnation (id : Identity) (shimID : bytes) (epoch : Z) : RM Tombstone :=
  let% entries := tombstoneEntries in
  match List.find (fun f => tombstone_names id shimID epoch (tf_tombstone f)) entries with
  | Some f => rret (tf_tombstone f)
  | None => rerr ErrNotExist
  end.

(** One tombstone per incarnation, ordered by key, shim and epoch; the last file
    of an incarnation wins. *)
Definition tombstone_key (t : Tombstone) : bytes * bytes * Z :=
  (Identity_Key (Tombstone_Identity t), t_ShimID t, t_ProcessEpoch t).
Definition tombstone_less : Tombstone -> Tombstone -> bool :=
  less_by (fun t => Identity_Key (Tombstone_Identity t)) bytes_ltb
    (less_by t_ShimID bytes_ltb (fun a b => t_ProcessEpoch a <? t_ProcessEpoch b)).

Fixpoint last_per_incarnation (l : list Tombstone) : list Tombstone :=
  match l with
  | [] => []
  | t :: l' => if existsb (fun x => same_tombstone_incarnation x t) l' then last_per_incarnation l'
               else t :: last_per_incarnation l'
  end.

Definition ScanTombstones : RM (list Tombstone) :=
  let% entries := tombstoneEntries in
  rret (sort_Slice tombstone_less (last_per_incarnation (map tf_tombstone entries))).

(** ** Sidecars *)

Definition Ack_encode : durableAckCursor -> outcome ShimErr bytes := bounded_encode (j_ack C) Ack_validate maxSidecarBytes ErrContract.
Definition decodeDurableAck : bytes -> outcome ShimErr durableAckCursor :=
  bounded_decode (j_ack C) Ack_validate maxSidecarBytes ErrContract not_EOF.

Definition putDurableAck (a : durableAckCursor) : RM unit :=
  let% raw := rlift (Ack_encode a) in publish (durableAckName (Ack_Identity a) (a_ShimID a) (a_ProcessEpoch a)) raw.

(** The stricter mode check of the acknowledgement: exactly 0700 and 0600. *)
Definition checkDurableAckModes (name : bytes) : RM unit :=
  let% _ := observe in
  if negb (d_isDir dir) || negb (d_perm dir =? RegistryDirMode) then rerr ErrRegistryUnsafe
  else if negb (d_owned dir) then rerr ErrRegistryUnsafe
  else
    let% fs := observe in
    match fs !! name with
    | None => rerr ErrNotExist
    | Some f =>
        match e_kind f with
        | Regular =>
            if negb (e_perm f =? RecordFileMode) then rerr ErrRegistryUnsafe
            else if negb (e_owned f) then rerr ErrRegistryUnsafe else rret tt
        | _ => rerr ErrRegistryUnsafe
        end
    end.

Definition getDurableAck (r : DiscoveryRecord) : RM durableAckCursor :=
  let name := durableAckName (Record_Identity r) (r_ShimID r) (r_ProcessEpoch r) in
  let% _ := checkDurableAckModes name in
  let% raw := readEntry name in
  let% a := rlift (decodeDurableAck raw) in
  if negb (bool_decide (Ack_Identity a = Record_Identity r)) || negb (bytes_eqb (a_ShimID a) (r_ShimID r))
     || negb (a_ProcessEpoch a =? r_ProcessEpoch r) then rerr ErrContract
  else rret a.

Definition Flow_encode : StreamFlowControl -> outcome ShimErr bytes := bounded_encode (j_flow C) Flow_validate maxSidecarBytes ErrContract.
Definition decodeStreamFlow : bytes -> outcome ShimErr StreamFlowControl :=
  bounded_decode (j_flow C) Flow_validate maxSidecarBytes ErrContract not_EOF.

Definition PutStreamFlow (f : StreamFlowControl) : RM unit :=
  let% raw := rlift (Flow_encode f) in publish (streamFlowName (Flow_Identity f) (f_ShimID f) (f_ProcessEpoch f)) raw.

(** A read that tells a missing file from a broken one. *)
Definition read_optional {A} (name : bytes) (decode : bytes -> outcome ShimErr A) (matches : A -> bool) : RM (option A) :=
  let% raw := attempt (readEntry name) in
  match raw with
  | Err ErrNotExist => rret None
  | Ok data => let% a := rlift (decode data) in if matches a then rret (Some a) else rerr ErrContract
  | Err e => rerr e
  | Panic => fun w => (w, Panic)
  end.

(** [None] is the zero value the code returns for a missing file. *)
Definition StreamFlow (id : Identity) (shimID : bytes) (epoch : Z) : RM (option StreamFlowControl) :=
  read_optional (streamFlowName id shimID epoch) decodeStreamFlow
    (fun f => bool_decide (Flow_Identity f = id) && bytes_eqb (f_ShimID f) shimID && (f_ProcessEpoch f =? epoch)).

Definition Seat_encode : SeatLaunch -> outcome ShimErr bytes := bounded_encode (j_seat C) Seat_Validate maxSidecarBytes ErrContract.
Definition decodeSeatLaunch : bytes -> outcome ShimErr SeatLaunch :=
  bounded_decode (j_seat C) Seat_Validate maxSidecarBytes ErrContract not_EOF.

Definition PutSeatLaunch (s : SeatLaunch) : RM unit :=
  let% raw := rlift (Seat_encode s) in publish (seatLaunchName (Seat_Identity s) (s_ProcessEpoch s)) raw.

Definition SeatLaunch_of (id : Identity) (epoch : Z) : RM (option SeatLaunch) :=
  read_optional (seatLaunchName id epoch) decodeSeatLaunch
    (fun s => bool_decide (Seat_Identity s = id) && (s_ProcessEpoch s =? epoch)).

Definition decodeSeatEpochFloor (data : bytes) : outcome ShimErr SeatLaunch :=
  obind (decodeSeatLaunch data) (fun s =>
  if negb (bytes_eqb (s_Mode s) SeatModeNone) || negb (bytes_eqb (s_Scope s) []) || negb (s_CPUs s =? 0)
     || negb (s_MemoryMB s =? 0) || negb (s_IOWeight s =? 0) then Err ErrContract else Ok s).

Definition SeatEpochFloor (id : Identity) : RM (option Z) :=
  let% f := read_optional (seatEpochFloorName id) decodeSeatEpochFloor (fun s => bool_decide (Seat_Identity s = id)) in
  rret (option_map s_ProcessEpoch f).

(** The floor is marshalled without [Seat_Validate]; [now] is the clock. *)
Definition RaiseSeatEpochFloor (id : Identity) (epoch now : Z) : RM unit :=
  let% _ := rlift (Identity_Validate id) in
  let% found := SeatEpochFloor id in
  if match found with Some floor => epoch <=? floor | None => false end then rret tt
  else
    match js_Marshal (j_seat C) (NewSeatLaunch id epoch [] SeatModeNone 0 0 0 now) with
    | None => rerr ErrMarshal
    | Some raw => if maxSidecarBytes <? blen raw then rerr ErrContract else publish (seatEpochFloorName id) raw
    end.

Definition Sidecar_encode : SessionSidecar -> outcome ShimErr bytes := bounded_encode (j_session C) Sidecar_Validate maxSidecarBytes ErrContract.
Definition decodeSessionSidecar : bytes -> outcome ShimErr SessionSidecar :=
  bounded_decode (j_session C) Sidecar_Validate maxSidecarBytes ErrContract not_EOF.

Definition PutSessionSidecar (s : SessionSidecar) : RM unit :=
  let% raw := rlift (Sidecar_encode s) in publish (sessionSidecarName (Sidecar_Identity s) (n_ProcessEpoch s)) raw.

Definition SessionSidecar_of (id : Identity) (epoch : Z) : RM (option SessionSidecar) :=
  read_optional (sessionSidecarName id epoch) decodeSessionSidecar
    (fun s => bool_decide (Sidecar_Identity s = id) && (n_ProcessEpoch s =? epoch)).

(** ** Withdrawal of a record whose process is gone ([absence.go]) *)

Definition WithdrawIncarnationForAbsence (id : Identity) (shimID : bytes) (epoch : Z) : RM bool :=
  let% entries := Scan in
  match List.find (entry_matches id shimID epoch) entries with
  | None => rret false
  | Some e =>
      let% raw := readEntry (se_Name e) in
      let% _ := publish (absenceName id shimID epoch) raw in
      let% _ := RemoveIncarnation id shimID epoch in
      rret true
  end.

Definition GetWithdrawnAbsence (id : Identity) (shimID : bytes) (epoch : Z) : RM (option DiscoveryRecord) :=
  read_optional (absenceName id shimID epoch) (decodeRecord (j_record C)) (same_incarnation id shimID epoch).

Definition ScanWithdrawnAbsences : RM (list DiscoveryRecord) :=
  let% _ := checkDirMode in
  let% names := entryNames absenceSuffix [] in
  let% entries := scan_loop names in
  rret (entries ≫= (fun e => match se_Record e with Ok r => [r] | _ => [] end)).

Definition DisposeWithdrawnAbsence (id : Identity) (shimID : bytes) (epoch : Z) : RM unit :=
  let% _ := remove (absenceName id shimID epoch) in
  let% _ := remove (seatLaunchName id epoch) in
  remove (sessionSidecarName id epoch).
End registry.
