(* ===== verification/RegistryProperties.v ===== *)
(** * RegistryProperties: what the discovery directory keeps

    The registry's promises under failures: a liveness claim is withdrawn only
    after its replacement (the tombstone, or the withdrawn copy) is on disk, and
    only for the incarnation it is about; the epoch floor of a session never goes
    down, whatever operations run and wherever they fail; a sidecar read returns
    facts of the incarnation asked for or none. *)

From stdpp Require Import sets gmap.
From S2P Require Import Prelude ShimWire ShimControl GoSort ShimRecord Registry.

(** ** What an operation can change *)

(** Outside [P] the files are untouched, whatever fails. *)
Definition changes_only {A} (P : bytes -> Prop) (m : RM A) : Prop :=
  forall w n, ~ P n -> files (m w).1 !! n = files w !! n.

Lemma changes_weaken {A} (P Q : bytes -> Prop) (m : RM A) :
  changes_only P m -> (forall n, P n -> Q n) -> changes_only Q m.
Proof. intros H HPQ w n Hn. apply H. auto. Qed.

Section combinators.
Context {A B : Type} (P : bytes -> Prop).

Lemma changes_ret (a : A) : changes_only P (rret a).
Proof. by intros w n _. Qed.
Lemma changes_err (e : ShimErr) : changes_only P (@rerr A e).
Proof. by intros w n _. Qed.
Lemma changes_lift (o : outcome ShimErr A) : changes_only P (rlift o).
Proof. by intros w n _. Qed.

Lemma changes_bind (m : RM A) (k : A -> RM B) :
  changes_only P m -> (forall a, changes_only P (k a)) -> changes_only P (rbind m k).
Proof.
  intros Hm Hk w n Hn. unfold rbind. specialize (Hm w n Hn). destruct (m w) as [w' [a|e|]]; try done.
  cbn in Hm. rewrite <- Hm. by apply Hk.
Qed.

Lemma changes_attempt (m : RM A) : changes_only P m -> changes_only P (attempt m).
Proof. intros Hm w n Hn. unfold attempt. specialize (Hm w n Hn). by destruct (m w). Qed.
End combinators.

Lemma changes_observe P : changes_only P observe.
Proof. intros w n _. unfold observe, rbind, syscall. destruct (faults w) as [|[] ?]; done. Qed.

Lemma changes_foreach {A} P (l : list A) (body : A -> RM unit) :
  (forall x, x ∈ l -> changes_only P (body x)) -> changes_only P (foreach l body).
Proof.
  induction l as [|x l IH]; intros H; cbn [foreach]; [apply changes_ret|].
  apply changes_bind; [apply H; left|]. intros _. apply IH. intros y Hy. apply H. by right.
Qed.

(** The three ways an effect ends. *)
Lemma effect_cases g w :
  (files (effect g w).1 = files w /\ (effect g w).2 = Err ErrIO) \/
  (files (effect g w).1 = g (files w)).
Proof.
  unfold effect, rbind, syscall, update. destruct (faults w) as [|[] ?]; cbn; auto.
Qed.

Lemma effect_ok g w w' : effect g w = (w', Ok tt) -> files w' = g (files w).
Proof.
  intros H. destruct (effect_cases g w) as [[_ E]|E]; rewrite H in E; [discriminate|done].
Qed.

Lemma changes_remove n0 : changes_only (fun n => n = n0) (remove n0).
Proof.
  intros w n Hn. unfold remove. destruct (effect_cases (delete n0) w) as [[-> _]| ->]; [done|].
  by rewrite lookup_delete_ne.
Qed.

Lemma changes_publish n0 data : changes_only (fun n => n = n0) (publish n0 data).
Proof.
  intros w n Hn. unfold publish.
  destruct (effect_cases (insert n0 {| e_kind := Regular; e_perm := RecordFileMode; e_owned := true; e_data := data |}) w)
    as [[-> _]| ->]; [done|]. by rewrite lookup_insert_ne.
Qed.

Create HintDb reg.
#[export] Hint Resolve changes_ret changes_err changes_lift changes_bind changes_attempt changes_observe : reg.
#[export] Hint Extern 4 (changes_only _ (if ?b then _ else _)) => destruct b : reg.
#[export] Hint Extern 4 (changes_only _ (match ?x with _ => _ end)) => destruct x : reg.

(** Nothing is changed by a read. *)
Definition reads_only {A} (m : RM A) : Prop := changes_only (fun _ => False) m.

Lemma reads_files {A} (m : RM A) w : reads_only m -> files (m w).1 = files w.
Proof. intros H. apply map_eq. intros n. apply H. tauto. Qed.

Section reads.
Context (C : codecs) (dir : dirInfo).

Lemma reads_readEntry name : reads_only (readEntry name).
Proof. unfold reads_only, readEntry. apply changes_bind; [apply changes_observe|]. intros fs. destruct (fs !! name) as [f|]; auto with reg. Qed.

Lemma reads_checkDirMode : reads_only (checkDirMode dir).
Proof. unfold reads_only, checkDirMode. apply changes_bind; auto 10 with reg. Qed.

Lemma reads_entryNames suffix exclude : reads_only (entryNames suffix exclude).
Proof. unfold reads_only, entryNames. auto with reg. Qed.

Lemma reads_Get id : reads_only (Get C id).
Proof. apply changes_bind; [apply reads_readEntry|]. auto with reg. Qed.

Lemma reads_scan_loop names : reads_only (scan_loop C names).
Proof.
  induction names as [|n names IH]; cbn [scan_loop]; [apply changes_ret|].
  apply changes_bind; [|intros e; apply changes_bind; [exact IH|auto with reg]].
  apply changes_attempt, changes_bind; [apply reads_readEntry|auto with reg].
Qed.

Lemma reads_Scan : reads_only (Scan C dir).
Proof.
  apply changes_bind; [apply reads_checkDirMode|]. intros _. apply changes_bind; [apply reads_entryNames|].
  apply reads_scan_loop.
Qed.

Lemma reads_tombstone_loop names : reads_only (tombstone_loop C names).
Proof.
  induction names as [|n names IH]; cbn [tombstone_loop]; [apply changes_ret|].
  apply changes_bind; [|intros e; apply changes_bind; [exact IH|auto with reg]].
  apply changes_attempt, changes_bind; [apply reads_readEntry|auto with reg].
Qed.

Lemma reads_tombstoneEntries : reads_only (tombstoneEntries C dir).
Proof.
  apply changes_bind; [apply reads_checkDirMode|]. intros _. apply changes_bind; [apply reads_entryNames|].
  apply reads_tombstone_loop.
Qed.

Lemma reads_legacyTombstoneAliasSafe t : reads_only (legacyTombstoneAliasSafe C dir t).
Proof.
  apply changes_bind; [apply reads_checkDirMode|]. intros _. apply changes_bind; [apply changes_attempt, reads_Get|].
  intros r. assert (changes_only (fun _ => False)
    (rbind (attempt (readEntry (TombstoneName (Sum256 C) (Tombstone_Identity t)))) (fun raw =>
      match raw with
      | Err ErrNotExist => rret true
      | Ok data => match decodeTombstone (j_tombstone C) data with
                   | Ok existing => rret (same_tombstone_incarnation existing t) | _ => rret false end
      | _ => rret false
      end))) as Hp.
  { apply changes_bind; [apply changes_attempt, reads_readEntry|]. intros [a|[]|]; auto with reg. }
  cbv zeta. destruct r as [a|[]|]; first [exact Hp|apply changes_ret|destruct (same_incarnation _ _ _ a); [exact Hp|apply changes_ret]].
Qed.

Lemma reads_carry_resume t : reads_only (carry_resume C t).
Proof.
  unfold reads_only, carry_resume. destruct (t_ResumeKey t); [apply changes_ret|].
  apply changes_bind; [apply changes_attempt, reads_Get|]. intros [r|e|]; auto with reg.
Qed.

Lemma reads_read_optional {A} name (decode : bytes -> outcome ShimErr A) matches : reads_only (read_optional name decode matches).
Proof.
  apply changes_bind; [apply changes_attempt, reads_readEntry|]. intros [a|[]|]; auto with reg.
  by intros w n _.
Qed.
End reads.
#[export] Hint Resolve reads_readEntry reads_checkDirMode reads_entryNames reads_Get reads_scan_loop reads_Scan
  reads_tombstone_loop reads_tombstoneEntries reads_legacyTombstoneAliasSafe reads_carry_resume reads_read_optional : reg.

(** ** Names *)

(** The last three bytes of a name tell the kinds of file apart, but for records
    and tombstones, which the scan tells apart by the longer suffix. *)
Definition tail3 (n : bytes) : bytes := drop (length n - 3) n.

Lemma tail3_app d s : (3 <= length s)%nat -> tail3 (d ++ s) = tail3 s.
Proof.
  intros H. unfold tail3. rewrite length_app, drop_app_ge by lia. f_equal. lia.
Qed.

Lemma has_suffix_app d s : has_suffix (d ++ s) s = true.
Proof.
  unfold has_suffix. rewrite length_app. replace (length d + length s - length s)%nat with (length d) by lia.
  rewrite drop_app_length, bytes_eqb_refl. apply Nat.leb_le. lia.
Qed.

Lemma has_suffix_inv n s : has_suffix n s = true -> exists d, n = d ++ s.
Proof.
  unfold has_suffix. rewrite andb_true_iff, bytes_eqb_eq, Nat.leb_le. intros [E L].
  exists (take (length n - length s) n). rewrite <- E at 2. by rewrite take_drop.
Qed.

Definition is_record_name (n : bytes) : Prop := has_suffix n recordSuffix = true /\ has_suffix n tombstoneSuffix = false.

Lemma record_tail n : has_suffix n recordSuffix = true -> tail3 n = str "son".
Proof. intros [d ->]%has_suffix_inv. by rewrite tail3_app by (cbn; lia). Qed.

(** Names of different kinds differ, whatever their digests. *)
Ltac kinds_differ :=
  match goal with
  | H : _ = _ |- False => apply (f_equal tail3) in H; unfold durableAckName, streamFlowName, sessionSidecarName, seatLaunchName,
      seatEpochFloorName, absenceName, tombstoneIncarnationName, TombstoneName, RecordName in H;
      repeat (rewrite tail3_app in H by (cbn; lia)); vm_compute in H; discriminate H
  end.

(** A record name is not the name of a sidecar. *)
Ltac not_a_record H :=
  apply record_tail in H; unfold durableAckName, streamFlowName, sessionSidecarName, absenceName in H;
  rewrite tail3_app in H by (cbn; lia); vm_compute in H; discriminate H.

(** ** What is on disk *)

(** A file the registry accepts to read. *)
Definition usable (f : fileEntry) : Prop :=
  e_kind f = Regular /\ Z.land (e_perm f) (Z.lnot RecordFileMode) = 0 /\ e_owned f = true /\ blen (e_data f) <= MaxRecordBytes.

Definition on_disk {A} (decode : bytes -> outcome ShimErr A) (fs : gmap bytes fileEntry) (n : bytes) (a : A) : Prop :=
  exists f, fs !! n = Some f /\ usable f /\ decode (e_data f) = Ok a.

Lemma readEntry_ok n w w' d :
  readEntry n w = (w', Ok d) -> exists f, files w !! n = Some f /\ usable f /\ d = e_data f.
Proof.
  unfold readEntry, rbind, observe, rbind, syscall, get_files, usable.
  destruct (faults w) as [|[] fs]; cbn; try discriminate;
    (destruct (files w !! n) as [f|]; [|discriminate]; destruct (e_kind f) eqn:K; try discriminate;
     destruct (Z.eqb_spec (Z.land (e_perm f) (Z.lnot RecordFileMode)) 0); cbn [negb]; [|discriminate];
     destruct (e_owned f) eqn:O; cbn [negb]; [|discriminate];
     destruct (Z.ltb_spec MaxRecordBytes (blen (e_data f))); [discriminate|]; intros [= <- <-]; eauto 8).
Qed.

Lemma read_decode_ok {A} (decode : bytes -> outcome ShimErr A) n w w' a :
  (rbind (readEntry n) (fun data => rlift (decode data))) w = (w', Ok a) -> on_disk decode (files w) n a.
Proof.
  unfold rbind at 1. destruct (readEntry n w) as [w1 [d| |]] eqn:E; [|discriminate|discriminate].
  apply readEntry_ok in E as (f & Hf & Hu & ->). unfold rlift. intros [= <- H]. by exists f.
Qed.

Section disk.
Context (C : codecs) (dir : dirInfo).
Abbreviation record_at := (on_disk (decodeRecord (j_record C))).
Abbreviation tombstone_at := (on_disk (decodeTombstone (j_tombstone C))).

Lemma bind_ok {A B} (m : RM A) (k : A -> RM B) w w' b :
  rbind m k w = (w', Ok b) -> exists w1 a, m w = (w1, Ok a) /\ k a w1 = (w', Ok b).
Proof. unfold rbind. destruct (m w) as [w1 [a| |]]; intros H; [eauto|discriminate|discriminate]. Qed.

Lemma scan_loop_sound names w w' es :
  scan_loop C names w = (w', Ok es) ->
  forall e r, e ∈ es -> se_Record e = Ok r -> se_Name e ∈ names /\ record_at (files w) (se_Name e) r.
Proof.
  revert w es. induction names as [|n names IH]; intros w es H e r He Hr; cbn [scan_loop] in H.
  { injection H as <- <-. by apply not_elem_of_nil in He. }
  apply bind_ok in H as (w1 & o & E1 & H). apply bind_ok in H as (w2 & rest & E2 & H). injection H as <- <-.
  pose proof (reads_files (attempt (rbind (readEntry n) (fun data => rlift (decodeRecord (j_record C) data)))) w) as F1.
  rewrite E1 in F1. cbn in F1. unfold attempt in E1.
  destruct ((rbind (readEntry n) (fun data => rlift (decodeRecord (j_record C) data))) w) as [w0 o0] eqn:E0.
  injection E1 as <- <-. apply elem_of_cons in He as [->|He].
  - cbn in Hr |- *. subst o0. split; [left|]. by eapply read_decode_ok.
  - destruct (IH _ _ E2 e r He Hr) as [Hn Hd]. split; [by right|]. rewrite F1 in Hd; [done|].
    apply changes_attempt, changes_bind; [apply reads_readEntry|auto with reg].
Qed.

Lemma entryNames_ok suffix exclude w w' names n :
  entryNames suffix exclude w = (w', Ok names) -> n ∈ names ->
  has_suffix n suffix = true /\ existsb (has_suffix n) exclude = false.
Proof.
  unfold entryNames. intros H Hn. apply bind_ok in H as (w1 & fs & _ & H). injection H as <- <-.
  unfold sort_Strings in Hn. rewrite sort_Slice_permutation in Hn. apply list_elem_of_fmap in Hn as ([m f] & -> & Hm).
  apply list_elem_of_In, filter_In in Hm as [_ Hm]. unfold listed in Hm. cbn in Hm |- *.
  destruct (e_kind f); [|discriminate|]; apply andb_true_iff in Hm as [? ?%negb_true_iff]; done.
Qed.

Lemma Scan_sound w w' es :
  Scan C dir w = (w', Ok es) ->
  files w' = files w /\
  forall e r, e ∈ es -> se_Record e = Ok r -> is_record_name (se_Name e) /\ record_at (files w) (se_Name e) r.
Proof.
  intros H. pose proof (reads_files _ w (reads_Scan C dir)) as F. rewrite H in F. split; [done|].
  unfold Scan in H. apply bind_ok in H as (w1 & u & E1 & H). apply bind_ok in H as (w2 & names & E2 & H).
  pose proof (reads_files _ w (reads_checkDirMode dir)) as F1. rewrite E1 in F1.
  pose proof (reads_files _ w1 (reads_entryNames recordSuffix [tombstoneSuffix])) as F2. rewrite E2 in F2.
  cbn in F1, F2. intros e r He Hr. destruct (scan_loop_sound _ _ _ _ H e r He Hr) as [Hn Hd]. rewrite F2, F1 in Hd.
  split; [|done]. destruct (entryNames_ok _ _ _ _ _ _ E2 Hn) as [? Hx]. split; [done|]. cbn in Hx. by apply orb_false_iff in Hx as [? _].
Qed.

(** Exactly the records of the incarnation are withdrawn, with its back-pressure
    and session sidecars. *)
Lemma RemoveIncarnation_changes id shim ep w n :
  files (RemoveIncarnation C dir id shim ep w).1 !! n <> files w !! n ->
  n = streamFlowName C id shim ep \/ n = sessionSidecarName C id ep \/
  (is_record_name n /\ exists r, record_at (files w) n r /\ same_incarnation id shim ep r = true).
Proof.
  intros H.
  destruct (decide (n = streamFlowName C id shim ep)) as [|N1]; [by left|right].
  destruct (decide (n = sessionSidecarName C id ep)) as [|N2]; [by left|right].
  unfold RemoveIncarnation, rbind at 1 in H. pose proof (reads_files _ w (reads_Scan C dir)) as F.
  destruct (Scan C dir w) as [w1 [es| |]] eqn:E; cbn in F; [|cbn in H; by rewrite F in H|cbn in H; by rewrite F in H].
  destruct (Scan_sound _ _ _ E) as [_ Hs]. clear E.
  destruct (existsb (fun e => entry_matches id shim ep e && bytes_eqb (se_Name e) n) es) eqn:X.
  - apply existsb_exists in X as (e & He & X). apply list_elem_of_In in He. apply andb_true_iff in X as [M <-%bytes_eqb_eq].
    unfold entry_matches in M. destruct (se_Record e) as [r| |] eqn:R; try discriminate. destruct (Hs e r He R). eauto.
  - exfalso. apply H. rewrite <- F.
    assert (changes_only (fun m => m <> n) (rbind openRoot (fun _ =>
      rbind (foreach es (fun e => if entry_matches id shim ep e then remove (se_Name e) else rret tt)) (fun _ =>
      rbind (RemoveStreamFlow C id shim ep) (fun _ => RemoveSessionSidecar C id ep))))) as Hc.
    { apply changes_bind; [unfold openRoot; auto with reg|]. intros _. apply changes_bind.
      - apply changes_foreach. intros e He. destruct (entry_matches id shim ep e) eqn:M; [|apply changes_ret].
        eapply changes_weaken; [apply changes_remove|]. intros m -> Hn.
        assert (existsb (fun e => entry_matches id shim ep e && bytes_eqb (se_Name e) n) es = true) as Y; [|congruence].
        apply existsb_exists. exists e. split; [by apply list_elem_of_In|]. by rewrite M, Hn, bytes_eqb_refl.
      - intros _. apply changes_bind; [|intros _].
        + eapply changes_weaken; [apply changes_remove|]. intros m ->. congruence.
        + eapply changes_weaken; [apply changes_remove|]. intros m ->. congruence. }
    apply Hc. tauto.
Qed.

(** ** Publication, then withdrawal *)

Definition published (data : bytes) : fileEntry := {| e_kind := Regular; e_perm := RecordFileMode; e_owned := true; e_data := data |}.

Lemma published_usable data : blen data <= MaxRecordBytes -> usable (published data).
Proof. intros H. repeat split; try done. Qed.

Lemma publish_cases n data w :
  (files (publish n data w).1 = files w /\ (publish n data w).2 = Err ErrIO) \/
  files (publish n data w).1 = <[n := published data]> (files w).
Proof. apply effect_cases. Qed.

Lemma publish_ok n data w w' : publish n data w = (w', Ok tt) -> files w' = <[n := published data]> (files w).
Proof. apply effect_ok. Qed.

Lemma set_tombstone_resume_id t : set_tombstone_resume t (t_ResumeKey t) = t.
Proof. by destruct t. Qed.

Lemma carry_resume_ok t0 w w' t : carry_resume C t0 w = (w', Ok t) -> exists k, t = set_tombstone_resume t0 k.
Proof.
  unfold carry_resume. destruct (t_ResumeKey t0) eqn:K.
  { intros [= <- <-]. exists (t_ResumeKey t0). by rewrite set_tombstone_resume_id. }
  intros H. apply bind_ok in H as (w1 & o & _ & H). destruct o as [r|e|].
  2,3: injection H as <- <-; exists (t_ResumeKey t0); by rewrite set_tombstone_resume_id.
  destruct (_ && _); injection H as <- <-; [eauto|]. exists (t_ResumeKey t0). by rewrite set_tombstone_resume_id.
Qed.

(** What follows the publication of a tombstone. *)
Definition tombstone_tail (t : Tombstone) (data : bytes) : RM unit :=
  rbind (legacyTombstoneAliasSafe C dir t) (fun legacySafe =>
  rbind (if legacySafe : bool then publish (TombstoneName (Sum256 C) (Tombstone_Identity t)) data else rret tt) (fun _ =>
  rbind (RemoveIncarnation C dir (Tombstone_Identity t) (t_ShimID t) (t_ProcessEpoch t)) (fun _ =>
  rbind (removeDurableAck C (Tombstone_Identity t) (t_ShimID t) (t_ProcessEpoch t)) (fun _ =>
  RemoveStreamFlow C (Tombstone_Identity t) (t_ShimID t) (t_ProcessEpoch t))))).

(** A property of one run that the rest of the run keeps. *)
Lemma bind_files {A B : Type} (R : gmap bytes fileEntry -> Prop) (m : RM A) (k : A -> RM B) w :
  R (files (m w).1) -> (forall w1 a, R (files w1) -> m w = (w1, Ok a) -> R (files (k a w1).1)) -> R (files (rbind m k w).1).
Proof. unfold rbind. destruct (m w) as [w1 [a| |]] eqn:E; cbn; intros H Hk; try done. by apply (Hk w1 a). Qed.

Lemma changes_keep {A} P (m : RM A) w n : changes_only P m -> ~ P n -> forall v, files w !! n = v -> files (m w).1 !! n = v.
Proof. intros H Hn v <-. by apply H. Qed.

(** The tombstone stays, and the records that go are those of its incarnation. *)
Lemma tombstone_tail_run t data w :
  files w !! tombstoneIncarnationName C t = Some (published data) ->
  files (tombstone_tail t data w).1 !! tombstoneIncarnationName C t = Some (published data) /\
  forall n, is_record_name n -> files (tombstone_tail t data w).1 !! n <> files w !! n ->
    exists r, record_at (files w) n r /\ same_incarnation (Tombstone_Identity t) (t_ShimID t) (t_ProcessEpoch t) r = true.
Proof.
  intros Ht. set (nt := tombstoneIncarnationName C t) in *.
  assert (has_suffix nt tombstoneSuffix = true) as Hsuf by apply has_suffix_app.
  assert (forall n, is_record_name n -> n <> TombstoneName (Sum256 C) (Tombstone_Identity t)) as Hnames.
  { intros n [_ Hs] ->. unfold TombstoneName in Hs. by rewrite has_suffix_app in Hs. }
  assert (forall n, is_record_name n -> n <> durableAckName C (Tombstone_Identity t) (t_ShimID t) (t_ProcessEpoch t) /\
    n <> streamFlowName C (Tombstone_Identity t) (t_ShimID t) (t_ProcessEpoch t)) as Hside.
  { intros n [Hr _]. split; intros ->; not_a_record Hr. }
  set (R := fun fs : gmap bytes fileEntry => fs !! nt = Some (published data) /\
    forall n, is_record_name n -> fs !! n <> files w !! n ->
      exists r, record_at (files w) n r /\ same_incarnation (Tombstone_Identity t) (t_ShimID t) (t_ProcessEpoch t) r = true).
  change (R (files (tombstone_tail t data w).1)). unfold tombstone_tail.
  assert (R (files w)) as R0 by (split; [done|]; intros n _ F; by destruct F).
  apply bind_files; [rewrite reads_files by apply reads_legacyTombstoneAliasSafe; done|]. intros w1 safe R1 E1.
  pose proof (reads_files _ w (reads_legacyTombstoneAliasSafe C dir t)) as F1. rewrite E1 in F1. cbn in F1.
  apply bind_files.
  { destruct safe; [|done]. destruct (publish_cases (TombstoneName (Sum256 C) (Tombstone_Identity t)) data w1)
      as [[E _]|E]; rewrite E; [done|]. destruct R1 as [H1 H2]. split.
    - destruct (decide (nt = TombstoneName (Sum256 C) (Tombstone_Identity t))) as [<-|]; [apply lookup_insert_eq|by rewrite lookup_insert_ne].
    - intros n Hn. rewrite lookup_insert_ne by (intros E'; by apply (Hnames n)). by apply H2. }
  intros w2 u R2 E2.
  assert (forall n, is_record_name n -> files w2 !! n = files w !! n) as F2.
  { intros n Hn. rewrite <- F1. destruct safe; [|by injection E2 as <- <-].
    pose proof (changes_publish (TombstoneName (Sum256 C) (Tombstone_Identity t)) data w1 n (Hnames n Hn)) as H. by rewrite E2 in H. }
  apply bind_files.
  { split.
    - destruct R2 as [H _]. destruct (decide (files (RemoveIncarnation C dir (Tombstone_Identity t) (t_ShimID t) (t_ProcessEpoch t) w2).1 !! nt
        = files w2 !! nt)) as [->|Hd]; [done|]. exfalso. apply RemoveIncarnation_changes in Hd as [E|[E|([_ E] & _)]].
      + subst nt. kinds_differ.
      + subst nt. kinds_differ.
      + congruence.
    - intros n Hn Hd. rewrite <- (F2 n Hn) in Hd. apply RemoveIncarnation_changes in Hd as [E|[E|(_ & r & (f & Hf & Hrest) & Hm)]].
      + exfalso. by apply (Hside n Hn).
      + exfalso. destruct Hn as [Hn _]. subst n. not_a_record Hn.
      + exists r. split; [|done]. exists f. by rewrite <- (F2 n Hn). }
  intros w3 u3 R3 E3. apply bind_files.
  { destruct R3 as [H1 H2]. split.
    - eapply changes_keep; [apply changes_remove| |done]. cbn. subst nt. intros E. kinds_differ.
    - intros n Hn. pose proof (changes_remove (durableAckName C (Tombstone_Identity t) (t_ShimID t) (t_ProcessEpoch t)) w3 n
        (proj1 (Hside n Hn))) as E. unfold removeDurableAck. rewrite E. by apply H2. }
  intros w4 u4 [H1 H2] E4. split.
  - eapply changes_keep; [apply changes_remove| |done]. cbn. subst nt. intros E. kinds_differ.
  - intros n Hn. pose proof (changes_remove (streamFlowName C (Tombstone_Identity t) (t_ShimID t) (t_ProcessEpoch t)) w4 n
      (proj2 (Hside n Hn))) as E. unfold RemoveStreamFlow. rewrite E. by apply H2.
Qed.
End disk.

(** ** Runs without failures *)

Definition clean (w : world) : Prop := faults w = [].

Lemma observe_clean w : clean w -> observe w = (w, Ok (files w)).
Proof. intros H. unfold observe, rbind, syscall. by rewrite H. Qed.

Lemma readEntry_clean n w : clean w ->
  (readEntry n w).1 = w /\ forall f, files w !! n = Some f -> usable f -> readEntry n w = (w, Ok (e_data f)).
Proof.
  intros H. unfold readEntry, rbind. rewrite observe_clean by done. split.
  - destruct (files w !! n) as [f|]; [|done]. destruct (e_kind f); [|done|done].
    destruct (negb _); [done|]. destruct (negb _); [done|]. by destruct (_ <? _).
  - intros f -> (K & P & O & S). rewrite K, P, O. cbn [Z.eqb negb].
    destruct (Z.ltb_spec MaxRecordBytes (blen (e_data f))); [lia|done].
Qed.

Lemma effect_clean g w : clean w -> effect g w = ({| files := g (files w); faults := [] |}, Ok tt).
Proof. destruct w as [fs fl]. unfold clean. cbn. intros ->. reflexivity. Qed.

Section clean_runs.
Context (C : codecs) (dir : dirInfo).
Abbreviation record_at := (on_disk (decodeRecord (j_record C))).

Lemma scan_loop_clean names w :
  clean w -> exists es, scan_loop C names w = (w, Ok es) /\
    forall n r, n ∈ names -> record_at (files w) n r -> exists e, e ∈ es /\ se_Name e = n /\ se_Record e = Ok r.
Proof.
  intros H. induction names as [|n names (es & E & IH)]; cbn [scan_loop].
  { exists []. split; [done|]. intros n r Hn. by apply not_elem_of_nil in Hn. }
  destruct (readEntry_clean n w H) as [Hw Hok].
  set (m := rbind (readEntry n) (fun data => rlift (decodeRecord (j_record C) data))).
  assert (exists o, m w = (w, o) /\ forall r, record_at (files w) n r -> o = Ok r) as (o & Em & Ho).
  { unfold m, rbind. destruct (readEntry n w) as [w1 [d|e|]] eqn:Er; cbn in Hw; subst w1; (eexists; split; [reflexivity|]);
      intros r (f & Hf & Hu & Hd); pose proof (Hok f Hf Hu) as Eq; [by injection Eq as ->|discriminate|discriminate]. }
  exists ({| se_Name := n; se_Record := o |} :: es). split.
  - unfold rbind at 1, attempt. rewrite Em. unfold rbind. rewrite E. done.
  - intros n' r Hn Hr. apply elem_of_cons in Hn as [->|Hn].
    + eexists. split; [left|]. cbn. auto.
    + destruct (IH n' r Hn Hr) as (e & ? & ? & ?). exists e. split; [by right|done].
Qed.

(** A scan that succeeds on a healthy disk sees every usable record. *)
Lemma Scan_clean w w' es :
  clean w -> Scan C dir w = (w', Ok es) ->
  w' = w /\ forall n r, is_record_name n -> record_at (files w) n r -> exists e, e ∈ es /\ se_Name e = n /\ se_Record e = Ok r.
Proof.
  intros H E. unfold Scan in E. apply bind_ok in E as (w1 & u & E1 & E).
  assert (w1 = w) as ->.
  { unfold checkDirMode, rbind in E1. rewrite observe_clean in E1 by done.
    destruct (negb _); [discriminate|]. destruct (negb _); [discriminate|]. destruct (negb _); [discriminate|]. by injection E1 as <-. }
  apply bind_ok in E as (w2 & names & E2 & E). unfold entryNames, rbind in E2. rewrite observe_clean in E2 by done.
  injection E2 as <- En. destruct (scan_loop_clean names w H) as (es' & Es & Hes). rewrite Es in E. injection E as <- <-.
  split; [done|]. intros n r [N1 N2] Hr. apply Hes; [|done]. rewrite <- En. unfold sort_Strings. rewrite sort_Slice_permutation.
  destruct Hr as (f & Hf & (K & _) & _). apply list_elem_of_fmap. exists (n, f). split; [done|].
  apply list_elem_of_In, filter_In. split; [by apply list_elem_of_In, elem_of_map_to_list|].
  unfold listed. cbn [fst snd existsb]. by rewrite K, N1, N2.
Qed.

Lemma foreach_remove_clean {A} (l : list A) (sel : A -> bool) (name : A -> bytes) w :
  clean w -> exists fs, foreach l (fun x => if sel x then remove (name x) else rret tt) w = ({| files := fs; faults := [] |}, Ok tt) /\
    (forall n, (exists x, x ∈ l /\ sel x = true /\ name x = n) -> fs !! n = None) /\
    (forall n, files w !! n = None -> fs !! n = None).
Proof.
  revert w. induction l as [|x l IH]; intros w H; cbn [foreach].
  { exists (files w). destruct w as [fs fl]. unfold clean in H. cbn in H. subst fl. split_and!; [done| |done].
    intros n (x & Hx & _). by apply not_elem_of_nil in Hx. }
  set (w1 := if sel x then {| files := delete (name x) (files w); faults := [] |} else w).
  assert ((if sel x then remove (name x) else rret tt) w = (w1, Ok tt)) as E1.
  { unfold w1, remove. destruct (sel x); [by rewrite effect_clean|done]. }
  assert (clean w1) as H1 by (unfold w1; destruct (sel x); done).
  destruct (IH w1 H1) as (fs & E & Hs & Hk). exists fs. unfold rbind. rewrite E1. split_and!; [done| |].
  - intros n (y & Hy & Sy & <-). apply elem_of_cons in Hy as [->|Hy]; [|eauto]. apply Hk. unfold w1. rewrite Sy. cbn. apply lookup_delete_eq.
  - intros n Hn. apply Hk. unfold w1. destruct (sel x); [|done]. cbn. by rewrite lookup_delete_None; right.
Qed.

(** On a healthy disk, no record of the incarnation is left. *)
Lemma RemoveIncarnation_clean id shim ep w w' :
  clean w -> RemoveIncarnation C dir id shim ep w = (w', Ok tt) ->
  clean w' /\ forall n r, is_record_name n -> record_at (files w') n r -> same_incarnation id shim ep r = false.
Proof.
  intros H E. unfold RemoveIncarnation in E. apply bind_ok in E as (w1 & es & E1 & E).
  destruct (Scan_clean _ _ _ H E1) as [-> Hes].
  destruct (foreach_remove_clean es (entry_matches id shim ep) se_Name w H) as (fs & Ef & Hgone & Hkeep).
  unfold openRoot, RemoveStreamFlow, RemoveSessionSidecar, remove, rbind in E. rewrite observe_clean in E by done. cbn [rret] in E.
  unfold remove in Ef. rewrite Ef in E. rewrite !effect_clean in E by done. injection E as <-. split; [done|].
  cbn [files]. intros n r Hn Hr. destruct (same_incarnation id shim ep r) eqn:S; [|done]. exfalso.
  assert (exists f, fs !! n = Some f /\ usable f /\ decodeRecord (j_record C) (e_data f) = Ok r) as (f & Hf & Hu & Hd).
  { destruct Hr as (f & Hf & Hu & Hd). apply lookup_delete_Some in Hf as [_ Hf]. apply lookup_delete_Some in Hf as [_ Hf]. eauto. }
  assert (files w !! n = Some f) as Hw.
  { assert (changes_only (fun m => fs !! m = None)
      (foreach es (fun e => if entry_matches id shim ep e then effect (delete (se_Name e)) else rret tt))) as Hc.
    { apply changes_foreach. intros e He. destruct (entry_matches id shim ep e) eqn:M; [|apply changes_ret].
      eapply changes_weaken; [apply changes_remove|]. intros m ->. apply Hgone. eauto. }
    specialize (Hc w n ltac:(cbn; rewrite Hf; discriminate)).
    rewrite Ef in Hc. cbn in Hc. congruence. }
  destruct (Hes n r Hn) as (e & He & <- & Re); [by exists f|].
  rewrite Hgone in Hf; [discriminate|]. exists e. split_and!; [done| |done]. unfold entry_matches. by rewrite Re.
Qed.
End clean_runs.

Section withdrawal.
Context (C : codecs) (dir : dirInfo).
Abbreviation record_at := (on_disk (decodeRecord (j_record C))).
Abbreviation tombstone_at := (on_disk (decodeTombstone (j_tombstone C))).

Lemma PutTombstone_unfold t0 w :
  PutTombstone C dir t0 w =
  rbind (carry_resume C t0) (fun t => rbind (rlift (Tombstone_encode (j_tombstone C) t)) (fun data =>
    rbind (publish (tombstoneIncarnationName C t) data) (fun _ => tombstone_tail C dir t data))) w.
Proof. reflexivity. Qed.

Lemma PutTombstone_run t0 w n :
  stream_law (j_tombstone C) (fun _ => True) -> is_record_name n ->
  files (PutTombstone C dir t0 w).1 !! n <> files w !! n ->
  (exists r, record_at (files w) n r /\ same_incarnation (Tombstone_Identity t0) (t_ShimID t0) (t_ProcessEpoch t0) r = true) /\
  exists k, tombstone_at (files (PutTombstone C dir t0 w).1) (tombstoneIncarnationName C t0) (set_tombstone_resume t0 k).
Proof.
  intros L Hn. destruct (PutTombstone C dir t0 w) as [w' o] eqn:E. cbn [fst]. intros H. rewrite PutTombstone_unfold in E.
  unfold rbind at 1 in E. pose proof (reads_files _ w (reads_carry_resume C t0)) as F.
  destruct (carry_resume C t0 w) as [w1 [t| |]] eqn:E1; cbn in F.
  2,3: injection E as <- <-; by rewrite F in H.
  destruct (carry_resume_ok _ _ _ _ _ E1) as [k ->]. set (t := set_tombstone_resume t0 k) in *.
  unfold rbind at 1, rlift in E. destruct (Tombstone_encode (j_tombstone C) t) as [data| |] eqn:Ed.
  2,3: injection E as <- <-; by rewrite F in H.
  pose proof (proj1 (bounded_encode_ok _ _ _ _ _ Tombstone_Validate_ok _ _) Ed) as (Wf & Hm & Hb).
  unfold rbind at 1 in E. set (nt := tombstoneIncarnationName C t) in *.
  assert (nt <> n) as Hne.
  { intros <-. destruct Hn as [_ Hs]. unfold nt, tombstoneIncarnationName in Hs. by rewrite has_suffix_app in Hs. }
  pose proof (publish_cases nt data w1) as Hp. destruct (publish nt data w1) as [w2 [[]| |]] eqn:E2; cbn [fst snd] in Hp.
  2,3: injection E as <- <-; exfalso; apply H; destruct Hp as [[-> _]| ->]; [by rewrite F|by rewrite lookup_insert_ne, F].
  destruct Hp as [[_ ?]|Hp]; [discriminate|].
  destruct (tombstone_tail_run C dir t data w2) as [Ht Hr]; [fold nt; rewrite Hp; apply lookup_insert_eq|]. fold nt in Ht.
  rewrite E in Ht, Hr. cbn [fst] in Ht, Hr. split.
  - destruct (Hr n Hn) as (r & (f & Hf & Hu & Hd) & Hs).
    + rewrite Hp, lookup_insert_ne, F by done. done.
    + exists r. split; [|done]. exists f. rewrite Hp, lookup_insert_ne, F in Hf by done. done.
  - exists k. exists (published data). change (tombstoneIncarnationName C t0) with nt. split_and!; [done| |].
    + by apply published_usable.
    + fold t. cbn [e_data published]. apply (bounded_decode_ok _ _ _ _ _ Tombstone_Validate_ok). split_and!; [done|done|]. exists [].
      split; [|done]. rewrite <- (app_nil_r data). by apply L.
Qed.

Lemma Withdraw_run id shim ep w n :
  is_record_name n -> files (WithdrawIncarnationForAbsence C dir id shim ep w).1 !! n <> files w !! n ->
  (exists r, record_at (files w) n r /\ same_incarnation id shim ep r = true) /\
  exists r, same_incarnation id shim ep r = true /\
    record_at (files (WithdrawIncarnationForAbsence C dir id shim ep w).1) (absenceName C id shim ep) r.
Proof.
  intros Hn. destruct (WithdrawIncarnationForAbsence C dir id shim ep w) as [w' o] eqn:E. cbn [fst]. intros H.
  unfold WithdrawIncarnationForAbsence, rbind at 1 in E. pose proof (reads_files _ w (reads_Scan C dir)) as F.
  destruct (Scan C dir w) as [w1 [es| |]] eqn:E1; cbn in F.
  2,3: injection E as <- <-; by rewrite F in H.
  destruct (Scan_sound _ _ _ _ _ E1) as [_ Hs].
  destruct (find (entry_matches id shim ep) es) as [e|] eqn:Ef; [|injection E as <- <-; by rewrite F in H].
  apply find_some in Ef as [He M]. apply list_elem_of_In in He. unfold entry_matches in M.
  destruct (se_Record e) as [r| |] eqn:Er; try discriminate. destruct (Hs e r He Er) as [_ (f & Hf & Hu & Hd)].
  unfold rbind at 1 in E. pose proof (reads_files _ w1 (reads_readEntry (se_Name e))) as F1.
  destruct (readEntry (se_Name e) w1) as [w2 [raw| |]] eqn:E2; cbn in F1.
  2,3: injection E as <- <-; by rewrite F1, F in H.
  apply readEntry_ok in E2 as (f' & Hf' & _ & ->). rewrite F, Hf in Hf'. injection Hf' as <-.
  set (na := absenceName C id shim ep) in *.
  assert (na <> n) as Hne.
  { intros <-. destruct Hn as [Hr _]. apply record_tail in Hr. unfold na, absenceName in Hr.
    rewrite tail3_app in Hr by (cbn; lia). vm_compute in Hr. discriminate. }
  unfold rbind at 1 in E. pose proof (publish_cases na (e_data f) w2) as Hp.
  destruct (publish na (e_data f) w2) as [w3 [[]| |]] eqn:E3; cbn [fst snd] in Hp.
  2,3: cbv beta iota zeta in E; injection E as <- <-; exfalso; apply H; destruct Hp as [[-> _]| ->]; [by rewrite F1, F|by rewrite lookup_insert_ne, F1, F].
  destruct Hp as [[_ ?]|Hp]; [discriminate|].
  assert (files w' = files (RemoveIncarnation C dir id shim ep w3).1) as Ht.
  { unfold rbind in E. destruct (RemoveIncarnation C dir id shim ep w3) as [? [| |]]; by injection E as <- <-. }
  rewrite Ht in H |- *. split.
  - rewrite <- F, <- F1, <- (lookup_insert_ne (files w2) na n (published (e_data f)) Hne), <- Hp in H.
    apply RemoveIncarnation_changes in H as [Ek|[Ek|(_ & r' & (f' & Hf' & Hrest) & Hm)]].
    + exfalso. destruct Hn as [Hr _]. subst n. not_a_record Hr.
    + exfalso. destruct Hn as [Hr _]. subst n. not_a_record Hr.
    + exists r'. split; [|done]. exists f'. rewrite Hp, lookup_insert_ne, F1, F in Hf' by done. done.
  - exists r. split; [done|]. exists (published (e_data f)). split_and!; [|by apply published_usable, Hu|done].
    destruct (decide (files (RemoveIncarnation C dir id shim ep w3).1 !! na = files w3 !! na)) as [->|Hd'].
    + rewrite Hp. apply lookup_insert_eq.
    + exfalso. apply RemoveIncarnation_changes in Hd' as [Ek|[Ek|([Ek _] & _)]].
      * subst na. kinds_differ.
      * subst na. kinds_differ.
      * subst na. not_a_record Ek.
Qed.
End withdrawal.


(** ** Sequences of operations *)

Inductive regOp :=
| OpPut (r : DiscoveryRecord)
| OpPutResumeKey (id : Identity) (k : ResumeKey)
| OpPutRetainingResumeKey (r : DiscoveryRecord)
| OpPutTombstone (t : Tombstone)
| OpRemove (id : Identity)
| OpRemoveIncarnation (id : Identity) (shim : bytes) (ep : Z)
| OpRemoveTombstone (id : Identity)
| OpRemoveTombstoneIncarnation (t : Tombstone)
| OpPutDurableAck (a : durableAckCursor)
| OpPutStreamFlow (f : StreamFlowControl)
| OpRemoveStreamFlow (id : Identity) (shim : bytes) (ep : Z)
| OpPutSeatLaunch (s : SeatLaunch)
| OpRemoveSeatLaunch (id : Identity) (ep : Z)
| OpRaiseSeatEpochFloor (id : Identity) (ep now : Z)
| OpPutSessionSidecar (s : SessionSidecar)
| OpRemoveSessionSidecar (id : Identity) (ep : Z)
| OpWithdraw (id : Identity) (shim : bytes) (ep : Z)
| OpDispose (id : Identity) (shim : bytes) (ep : Z).

Section ops.
Context (C : codecs) (dir : dirInfo).

Definition run_op (op : regOp) (w : world) : world :=
  match op with
  | OpPut r => (Put C r w).1
  | OpPutResumeKey id k => (PutResumeKey C id k w).1
  | OpPutRetainingResumeKey r => (PutRetainingResumeKey C r w).1
  | OpPutTombstone t => (PutTombstone C dir t w).1
  | OpRemove id => (Remove C id w).1
  | OpRemoveIncarnation id shim ep => (RemoveIncarnation C dir id shim ep w).1
  | OpRemoveTombstone id => (RemoveTombstone C dir id w).1
  | OpRemoveTombstoneIncarnation t => (RemoveTombstoneIncarnation C dir t w).1
  | OpPutDurableAck a => (putDurableAck C a w).1
  | OpPutStreamFlow f => (PutStreamFlow C f w).1
  | OpRemoveStreamFlow id shim ep => (RemoveStreamFlow C id shim ep w).1
  | OpPutSeatLaunch s => (PutSeatLaunch C s w).1
  | OpRemoveSeatLaunch id ep => (RemoveSeatLaunch C id ep w).1
  | OpRaiseSeatEpochFloor id ep now => (RaiseSeatEpochFloor C id ep now w).1
  | OpPutSessionSidecar s => (PutSessionSidecar C s w).1
  | OpRemoveSessionSidecar id ep => (RemoveSessionSidecar C id ep w).1
  | OpWithdraw id shim ep => (WithdrawIncarnationForAbsence C dir id shim ep w).1
  | OpDispose id shim ep => (DisposeWithdrawnAbsence C id shim ep w).1
  end.

Definition run_ops (ops : list regOp) (w : world) : world := fold_left (fun w op => run_op op w) ops w.

(** Everything but an epoch floor. *)
Definition not_floor (n : bytes) : Prop := tail3 n <> str "oor".

Lemma publish_not_floor n data : not_floor n -> changes_only not_floor (publish n data).
Proof. intros H. eapply changes_weaken; [apply changes_publish|]. by intros m ->. Qed.

Lemma remove_not_floor n : not_floor n -> changes_only not_floor (remove n).
Proof. intros H. eapply changes_weaken; [apply changes_remove|]. by intros m ->. Qed.

Lemma reads_not_floor {A} (m : RM A) : reads_only m -> changes_only not_floor m.
Proof. intros H. eapply changes_weaken; [exact H|]. done. Qed.

Lemma not_floor_suffix d s : (3 <= length s)%nat -> tail3 s <> str "oor" -> not_floor (d ++ s).
Proof. intros H N. unfold not_floor. by rewrite tail3_app. Qed.

Ltac kind_ok := apply not_floor_suffix; [cbn; lia|vm_compute; discriminate].

Lemma RemoveIncarnation_not_floor id shim ep : changes_only not_floor (RemoveIncarnation C dir id shim ep).
Proof.
  intros w n Hn. destruct (decide (files (RemoveIncarnation C dir id shim ep w).1 !! n = files w !! n)) as [|H]; [done|].
  exfalso. apply Hn. apply RemoveIncarnation_changes in H as [->|[->|([R _] & _)]]; [kind_ok|kind_ok|].
  unfold not_floor. rewrite (record_tail _ R). vm_compute. discriminate.
Qed.

Lemma tombstone_loop_names names w w' fs f : tombstone_loop C names w = (w', Ok fs) -> f ∈ fs -> tf_name f ∈ names.
Proof.
  revert w fs. induction names as [|n names IH]; intros w fs H Hf; cbn [tombstone_loop] in H.
  { injection H as <- <-. by apply not_elem_of_nil in Hf. }
  apply bind_ok in H as (w1 & o & _ & H). apply bind_ok in H as (w2 & rest & E & H). injection H as <- <-.
  destruct o as [t| |]; [apply elem_of_cons in Hf as [->|Hf]; [left|]| |]; right; by eapply IH.
Qed.

Lemma tombstoneEntries_names w w' fs f : tombstoneEntries C dir w = (w', Ok fs) -> f ∈ fs -> has_suffix (tf_name f) tombstoneSuffix = true.
Proof.
  intros H Hf. apply bind_ok in H as (w1 & u & _ & H). apply bind_ok in H as (w2 & names & E & H).
  eapply tombstone_loop_names in H; [|done]. by eapply entryNames_ok in E as [? _].
Qed.

Lemma removeTombstoneFiles_not_floor (k : list tombstoneFile -> RM unit) :
  (forall fs, (forall f, f ∈ fs -> has_suffix (tf_name f) tombstoneSuffix = true) -> changes_only not_floor (k fs)) ->
  changes_only not_floor (rbind (tombstoneEntries C dir) k).
Proof.
  intros Hk w n Hn. unfold rbind. pose proof (reads_files _ w (reads_tombstoneEntries C dir)) as F.
  destruct (tombstoneEntries C dir w) as [w1 [fs| |]] eqn:E; cbn in F |- *; try by rewrite F.
  rewrite <- F. apply Hk; [|done]. intros f Hf. by eapply tombstoneEntries_names.
Qed.

Lemma removeFiles_not_floor sel fs :
  (forall f, f ∈ fs -> has_suffix (tf_name f) tombstoneSuffix = true) ->
  changes_only not_floor (removeTombstoneFiles (List.filter sel fs)).
Proof.
  intros H. apply changes_bind; [unfold openRoot; auto with reg|]. intros _. apply changes_foreach. intros f Hf.
  apply list_elem_of_In, filter_In in Hf as [Hf _]. apply list_elem_of_In in Hf.
  apply remove_not_floor. apply H, has_suffix_inv in Hf as [d ->]. kind_ok.
Qed.

Lemma Put_not_floor r : changes_only not_floor (Put C r).
Proof. apply changes_bind; [apply changes_lift|]. intros d. apply publish_not_floor. kind_ok. Qed.

(** Every operation but the floor's own leaves the floors alone. *)
Lemma run_op_not_floor op w n :
  (forall id ep now, op <> OpRaiseSeatEpochFloor id ep now) -> tail3 n = str "oor" -> files (run_op op w) !! n = files w !! n.
Proof.
  intros Hop Hn. assert (~ not_floor n) as Hf by (unfold not_floor; tauto). destruct op; cbn [run_op].
  - by apply Put_not_floor.
  - refine (changes_bind not_floor _ _ (changes_lift _ _) _ w n Hf). intros _.
    apply changes_bind; [apply reads_not_floor, reads_Get|]. intros r. destruct (r_ResumeKey r); [apply changes_ret|apply Put_not_floor].
  - refine (changes_bind not_floor _ _ _ _ w n Hf).
    + destruct (r_ResumeKey r); [apply changes_ret|]. apply changes_bind; [apply changes_attempt, reads_not_floor, reads_Get|].
      intros [p| |]; auto with reg.
    + intros r'. apply changes_bind; [apply Put_not_floor|auto with reg].
  - refine (changes_bind not_floor _ _ (reads_not_floor _ (reads_carry_resume C t)) _ w n Hf). intros t'.
    apply changes_bind; [apply changes_lift|]. intros d. apply changes_bind; [apply publish_not_floor; kind_ok|]. intros _.
    apply changes_bind; [apply reads_not_floor, reads_legacyTombstoneAliasSafe|]. intros s.
    apply changes_bind; [destruct s; [apply publish_not_floor; kind_ok|apply changes_ret]|]. intros _.
    apply changes_bind; [apply RemoveIncarnation_not_floor|]. intros _.
    apply changes_bind; [apply remove_not_floor; kind_ok|]. intros _. apply remove_not_floor. kind_ok.
  - refine (remove_not_floor _ _ w n Hf). kind_ok.
  - by apply RemoveIncarnation_not_floor.
  - refine (removeTombstoneFiles_not_floor _ _ w n Hf). intros fs Hs. cbv zeta. destruct (ambiguous (List.filter _ fs)); [apply changes_err|].
    by apply removeFiles_not_floor.
  - refine (removeTombstoneFiles_not_floor _ _ w n Hf). intros fs Hs. apply changes_bind; [by apply removeFiles_not_floor|].
    intros _. apply changes_bind; [apply remove_not_floor; kind_ok|]. intros _. apply remove_not_floor. kind_ok.
  - refine (changes_bind not_floor _ _ (changes_lift _ _) _ w n Hf). intros d. apply publish_not_floor. kind_ok.
  - refine (changes_bind not_floor _ _ (changes_lift _ _) _ w n Hf). intros d. apply publish_not_floor. kind_ok.
  - refine (remove_not_floor _ _ w n Hf). kind_ok.
  - refine (changes_bind not_floor _ _ (changes_lift _ _) _ w n Hf). intros d. apply publish_not_floor. kind_ok.
  - refine (remove_not_floor _ _ w n Hf). kind_ok.
  - by destruct (Hop id ep now).
  - refine (changes_bind not_floor _ _ (changes_lift _ _) _ w n Hf). intros d. apply publish_not_floor. kind_ok.
  - refine (remove_not_floor _ _ w n Hf). kind_ok.
  - refine (changes_bind not_floor _ _ (reads_not_floor _ (reads_Scan C dir)) _ w n Hf). intros es.
    destruct (find _ es) as [e|]; [|apply changes_ret]. apply changes_bind; [apply reads_not_floor, reads_readEntry|]. intros d.
    apply changes_bind; [apply publish_not_floor; kind_ok|]. intros _. apply changes_bind; [apply RemoveIncarnation_not_floor|auto with reg].
  - refine (changes_bind not_floor _ _ (remove_not_floor _ _) _ w n Hf); [kind_ok|]. intros _.
    apply changes_bind; [apply remove_not_floor; kind_ok|]. intros _. apply remove_not_floor. kind_ok.
Qed.
End ops.

(** ** The epoch floor *)

Section floor.
Context (C : codecs) (dir : dirInfo).

(** The floor the directory records for a session. *)
Definition floor_at (fs : gmap bytes fileEntry) (id : Identity) (e : Z) : Prop :=
  exists s, on_disk (decodeSeatEpochFloor C) fs (seatEpochFloorName C id) s /\ Seat_Identity s = id /\ s_ProcessEpoch s = e.

Lemma on_disk_det {A} (decode : bytes -> outcome ShimErr A) fs n a b : on_disk decode fs n a -> on_disk decode fs n b -> a = b.
Proof. intros (f & Hf & _ & Ha) (g & Hg & _ & Hb). congruence. Qed.

Lemma floor_name_tail id : tail3 (seatEpochFloorName C id) = str "oor".
Proof. unfold seatEpochFloorName. by rewrite tail3_app by (cbn; lia). Qed.

(** A value read from an existing file is the one on disk, and it matched. *)
Lemma read_optional_ok {A} n (decode : bytes -> outcome ShimErr A) matches w w' o :
  read_optional n decode matches w = (w', Ok o) ->
  match o with
  | Some a => on_disk decode (files w) n a /\ matches a = true
  | None => files w !! n = None
  end.
Proof.
  unfold read_optional. intros H. apply bind_ok in H as (w1 & raw & E & H). unfold attempt in E.
  destruct (readEntry n w) as [w0 o0] eqn:Er. injection E as <- <-. destruct o0 as [d|[]|]; try discriminate H.
  - apply bind_ok in H as (w2 & a & E2 & H). unfold rlift in E2. injection E2 as <- E2.
    destruct (matches a) eqn:M; [|discriminate]. injection H as <- <-. apply readEntry_ok in Er as (f & Hf & Hu & ->).
    split; [by exists f|done].
  - injection H as <- <-. unfold readEntry, rbind, observe, rbind, syscall, get_files in Er.
    destruct (faults w) as [|[] ?]; cbn in Er; try discriminate; (destruct (files w !! n) as [f|]; [|done];
      destruct (e_kind f); try discriminate; destruct (negb _); [discriminate|]; destruct (negb _); [discriminate|];
      destruct (_ <? _); discriminate).
Qed.

Definition floor_record (id : Identity) (ep now : Z) : SeatLaunch := NewSeatLaunch id ep [] SeatModeNone 0 0 0 now.

Lemma floor_record_decodes id ep now raw :
  stream_law (j_seat C) (fun _ => True) -> Identity_Validate id = Ok tt -> 0 < i64 now ->
  js_Marshal (j_seat C) (floor_record id ep now) = Some raw -> blen raw <= maxSidecarBytes ->
  decodeSeatEpochFloor C raw = Ok (floor_record id ep now).
Proof.
  intros L V N M B. unfold decodeSeatEpochFloor.
  assert (decodeSeatLaunch C raw = Ok (floor_record id ep now)) as ->; [|reflexivity].
  unfold decodeSeatLaunch, bounded_decode. destruct (Z.ltb_spec maxSidecarBytes (blen raw)); [lia|].
  rewrite <- (app_nil_r raw). rewrite (L _ _ _ I M). change (not_EOF []) with false. cbn iota.
  assert (Seat_Validate (floor_record id ep now) = Ok tt) as ->; [|reflexivity].
  unfold Seat_Validate, floor_record, NewSeatLaunch, Seat_Identity. cbn [s_SchemaVersion s_OrgID s_SessionID s_Mode s_CPUs s_MemoryMB
    s_IOWeight s_Scope s_CreatedAtUnixNano]. change (negb (seatLaunchSchemaVersion =? seatLaunchSchemaVersion)) with false. cbn iota.
  replace {| OrgID := OrgID id; SessionID := SessionID id |} with id by by destruct id. rewrite V. cbn [obind].
  change (negb (one_of SeatModeNone _)) with false. cbn iota. change ((0 <? 0) || _ || _ || _ || _ || _) with false. cbn iota.
  change (validateSeatScope []) with (@Ok ShimErr unit tt). cbn [obind]. change (bytes_eqb SeatModeNone SeatModeEnforced && _) with false.
  cbn iota. by replace (i64 now <=? 0) with false by lia.
Qed.

(** What one raise does to the floor of its own session and of the others. *)
Lemma Raise_floor id ep now w :
  stream_law (j_seat C) (fun _ => True) -> 0 < i64 now ->
  (forall id' e, floor_at (files w) id' e ->
     exists e', e <= e' /\ floor_at (files (RaiseSeatEpochFloor C id ep now w).1) id' e') /\
  ((RaiseSeatEpochFloor C id ep now w).2 = Ok tt -> exists e', ep <= e' /\ floor_at (files (RaiseSeatEpochFloor C id ep now w).1) id e').
Proof.
  intros L N. set (nf := seatEpochFloorName C id). destruct (RaiseSeatEpochFloor C id ep now w) as [w' o] eqn:E. cbn [fst snd].
  unfold RaiseSeatEpochFloor, rbind at 1, rlift in E. destruct (Identity_Validate id) as [[]| |] eqn:V.
  2,3: injection E as <- <-; split; [intros id' e0 H0; exists e0; split; [lia|done]|discriminate].
  unfold rbind at 1, SeatEpochFloor, rbind in E.
  pose proof (reads_files _ w (reads_read_optional (seatEpochFloorName C id) (decodeSeatEpochFloor C) (fun s => bool_decide (Seat_Identity s = id)))) as F.
  destruct (read_optional _ _ _ w) as [w1 [found| |]] eqn:Er; cbn [fst] in F.
  2,3: injection E as <- <-; rewrite F; split; [intros id' e0 H0; exists e0; split; [lia|done]|discriminate].
  cbn [rret] in E. apply read_optional_ok in Er. fold nf in Er.
  destruct (match option_map s_ProcessEpoch found with Some floor => ep <=? floor | None => false end) eqn:Eg.
  { injection E as <- <-. rewrite F. split; [intros id' e0 H0; exists e0; split; [lia|done]|]. intros _.
    destruct found as [s|]; [|discriminate]. cbn in Eg. destruct Er as [Hd Hm%bool_decide_eq_true]. exists (s_ProcessEpoch s).
    split; [lia|]. by exists s. }
  fold (floor_record id ep now) in E. destruct (js_Marshal (j_seat C) (floor_record id ep now)) as [raw|] eqn:M.
  2: injection E as <- <-; rewrite F; split; [intros id' e0 H0; exists e0; split; [lia|done]|discriminate].
  destruct (Z.ltb_spec maxSidecarBytes (blen raw)) as [|B].
  { injection E as <- <-. rewrite F. split; [intros id' e0 H0; exists e0; split; [lia|done]|discriminate]. }
  fold nf in E. pose proof (publish_cases nf raw w1) as Hp. rewrite E, F in Hp. cbn [fst snd] in Hp.
  destruct Hp as [[-> ->]| ->].
  { split; [intros id' e0 H0; exists e0; split; [lia|done]|discriminate]. }
  assert (floor_at (<[nf := published raw]> (files w)) id ep) as Hnew.
  { exists (floor_record id ep now). split_and!; [|by destruct id|done]. exists (published raw). split_and!.
    - apply lookup_insert_eq.
    - apply published_usable. change MaxRecordBytes with 8192. change maxSidecarBytes with 1024 in B. lia.
    - by apply floor_record_decodes. }
  split; [|intros _; exists ep; split; [lia|done]].
  intros id' e (s & Hd & Hi & He). destruct (decide (seatEpochFloorName C id' = nf)) as [Heq|Hne].
  - rewrite Heq in Hd. destruct found as [s'|]; [|destruct Hd as (f & Hf & _); congruence].
    destruct Er as [Hd' Hm%bool_decide_eq_true]. pose proof (on_disk_det _ _ _ _ _ Hd Hd') as ->.
    assert (id' = id) as -> by congruence. exists ep. cbn in Eg. split; [lia|done].
  - exists e. split; [lia|]. exists s. split_and!; try done. destruct Hd as (f & Hf & Hr). exists f. by rewrite lookup_insert_ne.
Qed.
End floor.


(** ** Samples *)

#[export] Instance durableAckCursor_eq_dec : EqDecision durableAckCursor.
Proof. solve_decision. Defined.
#[export] Instance SeatLaunch_eq_dec : EqDecision SeatLaunch.
Proof. solve_decision. Defined.

Definition sample_id : Identity := Record_Identity sample_record.
Definition sample_floor : SeatLaunch := floor_record sample_id 3 5.

Definition sample_codecs : codecs := {|
  Registry.Sum256 := fun b => [foldr Z.add 0 b mod 256];
  j_record := table_stream sample_record (str "{r}");
  j_tombstone := table_stream sample_tombstone (str "{t}");
  j_ack := {| js_Marshal := fun _ => None; js_Decode := fun _ => None |};
  j_seat := table_stream sample_floor (str "{f}");
  j_flow := {| js_Marshal := fun _ => None; js_Decode := fun _ => None |};
  j_session := {| js_Marshal := fun _ => None; js_Decode := fun _ => None |}
|}.
Definition sample_dir : dirInfo := {| d_isDir := true; d_perm := RegistryDirMode; d_owned := true |}.
Definition sample_record_name : bytes := RecordName (Registry.Sum256 sample_codecs) sample_id.
Definition sample_world (fl : list fault) : world :=
  {| files := {[ sample_record_name := published (str "{r}"); seatEpochFloorName sample_codecs sample_id := published (str "{f}") ]};
     faults := fl |}.



(** ** The resume key under a failed read *)

Definition keyed_record : DiscoveryRecord := set_resume sample_record (Some {| CodexHome := str "/c"; ThreadID := str "t1" |}).

(** A codec of the record with and without its key. *)
Definition keyed_codecs : codecs := {|
  Registry.Sum256 := Registry.Sum256 sample_codecs;
  j_record := {| js_Marshal := fun r => if decide (r = keyed_record) then Some (str "{k}") else Some (str "{r}");
                 js_Decode := fun b => if decide (b = str "{k}") then Some (keyed_record, []) else Some (sample_record, []) |};
  j_tombstone := j_tombstone sample_codecs; j_ack := j_ack sample_codecs; j_seat := j_seat sample_codecs;
  j_flow := j_flow sample_codecs; j_session := j_session sample_codecs
|}.

(** A republish keeps the key its own incarnation recorded; when the read of the
    previous record fails, the republish goes ahead without it and reports
    success. *)
Lemma resume_key_erased_by_failed_read :
  let w fl := {| files := {[ sample_record_name := published (str "{k}") ]}; faults := fl |} in
  (PutRetainingResumeKey keyed_codecs sample_record (w [])).2 = Ok (r_ResumeKey keyed_record) /\
  (PutRetainingResumeKey keyed_codecs sample_record (w [FailBefore])).2 = Ok None /\
  files (PutRetainingResumeKey keyed_codecs sample_record (w [FailBefore])).1 !! sample_record_name = Some (published (str "{r}")).
Proof. split_and!; vm_compute; reflexivity. Qed.
