(* ===== verification/ShimDial.v ===== *)
(** * ShimDial: how a daemon takes control of a shim
    ([Dial] of [src/sessionshim/controller.go], [ResolvePreparedAdoption] of [adopt.go])

    A daemon connects to the socket a discovery record names, reads the shim's Hello,
    checks that the peer is the shim of the record, and only then proposes a
    generation; the shim's Adopted must confirm exactly that proposal.  The operating
    system, the connection and the callbacks of the embedder are the operations of the
    class [AdoptEnv] on a state of any type, so a theorem for every instance covers
    every behaviour of theirs.  Every call is written to a log. *)

From stdpp Require Import gmap.
From S2P Require Import Prelude ShimWire ShimPayloads ShimControl GoSort ShimRecord Fence DaemonFence ProcIdentity Registry.

(** ** Errors

    [errors.Is] and [errors.As] walk the tree of wrapped errors.  The text of an error
    is its format and the values in it; rendering it is left to [fmt]. *)

Inductive errno :=
| SWire (s : sentinel)
| SShim (e : ShimErr)
| ErrAdoptionRefused | ErrAdoptionPreparation | ErrShimUnsupported
| ECONNREFUSED | ENOENT | DeadlineExceeded
| OtherErr (n : Z).

#[export] Instance errno_eq_dec : EqDecision errno.
Proof. solve_decision. Defined.

(** An error of the operating system or of a callback: what it matches, and the answer
    of its [Timeout] method if it has one. *)
Record extErr := { x_is : list errno; x_timeout : option bool }.

Inductive val := VNum (z : Z) | VText (b : bytes).

Inductive aerr :=
| Sentinel (s : errno)
| External (x : extErr)
| OfWire (e : error)
| OfShim (e : ShimErr)
| Errorf (format : string) (vals : list val) (wraps : list aerr)
| HelloError (g : Generation) (e : aerr).

(** [ErrRecordIdentity] is the error that wraps both sentinels. *)
Definition shim_is (e s : ShimErr) : bool :=
  bool_decide (e = s) ||
  match e, s with ErrRecordIdentity, ErrRecordInvalid | ErrRecordIdentity, ErrInvalidIdentity => true | _, _ => false end.

Definition errno_is (have want : errno) : bool :=
  match have, want with
  | SShim e, SShim s => shim_is e s
  | SShim ErrNotExist, ENOENT => false
  | ENOENT, SShim ErrNotExist => true
  | h, w => bool_decide (h = w)
  end.

Fixpoint Is (e : aerr) (s : errno) : bool :=
  match e with
  | Sentinel s' => errno_is s' s
  | External x => existsb (fun h => errno_is h s) (x_is x)
  | OfWire w => match s with SWire s' => errors_Is w s' | _ => false end
  | OfShim h => errno_is (SShim h) s
  | Errorf _ _ ws => (fix any l := match l with [] => false | w :: l' => Is w s || any l' end) ws
  | HelloError _ e' => Is e' s
  end.

(** [errors.As] with an interface of one method [Timeout]: the first error of the tree
    that has it. *)
Fixpoint AsTimeout (e : aerr) : option bool :=
  match e with
  | Sentinel DeadlineExceeded => Some true
  | Sentinel (ECONNREFUSED | ENOENT) => Some false
  | Sentinel _ | OfWire _ | OfShim _ => None
  | External x => x_timeout x
  | Errorf _ _ ws =>
      (fix first l := match l with [] => None | w :: l' => match AsTimeout w with Some b => Some b | None => first l' end end) ws
  | HelloError _ e' => AsTimeout e'
  end.

Fixpoint authenticatedHelloGeneration (e : aerr) : option Generation :=
  match e with
  | HelloError g _ => Some g
  | Errorf _ _ ws =>
      (fix first l := match l with [] => None
                      | w :: l' => match authenticatedHelloGeneration w with Some g => Some g | None => first l' end end) ws
  | _ => None
  end.

(** [fmt.Errorf] whose first verb wraps a sentinel of the package. *)
Definition refused (format : string) (vals : list val) : aerr := Errorf format vals [Sentinel ErrAdoptionRefused].
Definition unprepared (format : string) (vals : list val) : aerr := Errorf format vals [Sentinel ErrAdoptionPreparation].

(** ** Paths: [filepath.Clean] on Unix *)

Definition clean_rel (rooted : bool) (stack : list bytes) (c : bytes) : list bytes :=
  if bytes_eqb c [] || bytes_eqb c (str ".") then stack
  else if bytes_eqb c (str "..") then
    match stack with
    | top :: stack' => if bytes_eqb top (str "..") then c :: stack else stack'
    | [] => if rooted then [] else [c]
    end
  else c :: stack.

Definition Clean (p : bytes) : bytes :=
  let rooted := IsAbs p in
  let body := path_join (rev (fold_left (clean_rel rooted) (path_split p) [])) in
  if rooted then 0x2F :: body else match body with [] => str "." | _ => body end.

(** ** Options

    The fields the handshake uses; the bounds of the event backlog and the logger are left
    out. *)

Record AdoptionPreparation := {
  ap_Identity : Identity; ap_ControllerID : bytes; ap_ShimID : bytes; ap_ProcessEpoch : Z;
  ap_CurrentControllerGeneration : Generation; ap_LocalResumeFrom : Z; ap_LastHostSeq : Z; ap_LastForwardedSeq : Z;
  ap_SelectedVersion : Z
}.

Record PreparedAdoption := {
  pa_ControllerGeneration : Generation; pa_Extensions : Extensions; pa_Correlation : bytes; pa_ResumeFrom : option Z
}.

Record ControllerOptions := {
  co_ControllerID : bytes;
  co_ProposedGeneration : Generation;
  co_NextGeneration : option (Generation -> Generation);
  co_prepares : bool;  (** [PrepareAdoption != nil]; the call is an argument of [handshake] *)
  co_ResumeFrom : Z;
  co_LocalResumeFrom : Z;
  co_ResumeExternallyConfigured : bool;
  co_DurableAckGeneration : Generation;
  co_ExpectedWorkarea : bytes;
  co_ExpectedWorkareaRoot : bytes;
  co_Extensions : Extensions;
  co_ProtocolMin : Z;
  co_ProtocolMax : Z;
  co_Workload : Workload;
  co_RequireFullHostFrames : bool;
  co_DialTimeout : Z
}.

Definition workload (o : ControllerOptions) : Workload := if bytes_eqb (co_Workload o) [] then WorkloadInteractive else co_Workload o.

Definition protocolRange (o : ControllerOptions) : outcome aerr (Z * Z) :=
  let lo := co_ProtocolMin o in
  let hi := co_ProtocolMax o in
  if bytes_eqb (workload o) WorkloadInteractive then
    if (lo =? 0) && (hi =? 0) then Ok (if co_RequireFullHostFrames o then (ProtocolMin, ProtocolMax) else (ProtocolMin, V2))
    else if (lo =? 0) || (hi <? lo) || (ProtocolMax <? hi)
    then Err (Errorf "sessionshim: invalid controller protocol range [%d,%d]" [VNum lo; VNum hi] [])
    else if (V3 <=? hi) && negb (co_RequireFullHostFrames o)
    then Err (Errorf "sessionshim: controller max 3 requires full HostFrame consumption" [] [])
    else if co_RequireFullHostFrames o && (hi <? V3)
    then Err (Errorf "sessionshim: full HostFrame consumption requires controller max at least 3" [] [])
    else Ok (lo, hi)
  else if bytes_eqb (workload o) WorkloadHeadlessRecord then
    if (negb (lo =? 0) || negb (hi =? 0)) && (negb (lo =? HeadlessMin) || negb (hi =? HeadlessMax))
    then Err (Errorf "sessionshim: a headless controller speaks exactly [%d,%d], not [%d,%d]" [VNum HeadlessMin; VNum HeadlessMax; VNum lo; VNum hi] [])
    else Ok (HeadlessMin, HeadlessMax)
  else Err (Errorf "sessionshim: unknown controller workload %q" [VText (co_Workload o)] []).

(** Durations are nanoseconds. *)
Definition dialTimeout (o : ControllerOptions) : Z := if 0 <? co_DialTimeout o then co_DialTimeout o else 5 * Second.

(** ** The answer of a preparation *)

Record PreparedAdoptionBounds := {
  pb_StaticGenerationConfigured : bool; pb_StaticResumeConfigured : bool; pb_LocalResumeFrom : Z; pb_HelloLastSeq : Z
}.

Record ResolvedPreparedAdoption := {
  rp_ControllerGeneration : Generation; rp_Extensions : Extensions; rp_ResumeFrom : Z; rp_ResumeProvided : bool
}.

Definition MaxUint64 : Z := 2 ^ 64 - 1.

Definition ResolvePreparedAdoption (p : PreparedAdoption) (b : PreparedAdoptionBounds) : outcome aerr ResolvedPreparedAdoption :=
  if negb (pa_ControllerGeneration p =? 0) && pb_StaticGenerationConfigured b
  then Err (unprepared "%w: prepared and static controller generations are both configured" [])
  else
    let g := pa_ControllerGeneration p in
    match pa_ResumeFrom p with
    | None => Ok {| rp_ControllerGeneration := g; rp_Extensions := pa_Extensions p; rp_ResumeFrom := 0; rp_ResumeProvided := false |}
    | Some cursor =>
        if pb_StaticResumeConfigured b
        then Err (unprepared "%w: static and proof-resolved resume cursors are both configured" [])
        else if cursor <? pb_LocalResumeFrom b
        then Err (unprepared "%w: prepared resume %d regresses local floor %d" [VNum cursor; VNum (pb_LocalResumeFrom b)])
        else if (pb_HelloLastSeq b =? MaxUint64) || (u64 (pb_HelloLastSeq b + 1) <? cursor)
        then Err (unprepared "%w: prepared resume %d is ahead of Hello LastSeq %d" [VNum cursor; VNum (pb_HelloLastSeq b)])
        else Ok {| rp_ControllerGeneration := g; rp_Extensions := pa_Extensions p; rp_ResumeFrom := cursor; rp_ResumeProvided := true |}
    end.

(** ** Verification of the peer *)

Definition helloWorkload (h : Hello) : Workload :=
  if bytes_eqb (h_Workload h) ProfileHeadless then WorkloadHeadlessRecord else WorkloadInteractive.
Definition recordWorkload_of (r : DiscoveryRecord) : Workload :=
  if bytes_eqb (r_Workload r) [] then WorkloadInteractive else r_Workload r.

Definition hello_process (h : Hello) : ProcessIdentity :=
  {| p_PID := h_PID h; p_StartedAt := h_ProcessStartedAt h; p_StartTicks := h_ProcessStartTicks h; p_BootID := h_ProcessBootID h |}.
Definition record_process (r : DiscoveryRecord) : ProcessIdentity :=
  {| p_PID := r_PID r; p_StartedAt := r_ProcessStartedAt r; p_StartTicks := r_ProcessStartTicks r; p_BootID := r_BootID r |}.

(** The last block of [verifyHello]: the root of a workarea the daemon expects. *)
Definition verify_root (h : Hello) (rec : DiscoveryRecord) (expectedWorkarea expectedWorkareaRoot : bytes) : option aerr :=
  if bytes_eqb expectedWorkareaRoot [] then None
  else
    let nested := negb (bytes_eqb (Clean expectedWorkareaRoot) (Clean expectedWorkarea)) in
    if nested && bytes_eqb (r_WorkareaRoot rec) []
    then Some (refused "%w: nested discovery record omitted required workarea root %q" [VText expectedWorkareaRoot])
    else if negb (bytes_eqb (r_WorkareaRoot rec) []) && negb (bytes_eqb (Clean (r_WorkareaRoot rec)) (Clean expectedWorkareaRoot))
    then Some (refused "%w: discovery record workarea root %q, this daemon expects %q" [VText (r_WorkareaRoot rec); VText expectedWorkareaRoot])
    else if negb nested && bytes_eqb (r_WorkareaRoot rec) [] && negb (bytes_eqb (Clean (h_WorkareaPath h)) (Clean expectedWorkareaRoot))
    then Some (refused "%w: legacy flat record does not identify the expected root" [])
    else None.

Definition verifyHello (h : Hello) (rec : DiscoveryRecord) (expectedWorkarea expectedWorkareaRoot : bytes) : option aerr :=
  if negb (bytes_eqb (h_Protocol h) ProtocolName)
  then Some (Errorf "%w: hello names protocol %q" [VText (h_Protocol h)] [Sentinel (SWire ErrVersionMismatch)])
  else if negb (bytes_eqb (helloWorkload h) (recordWorkload_of rec))
  then Some (refused "%w: shim reports workload %q, record says %q" [VText (helloWorkload h); VText (recordWorkload_of rec)])
  else if negb (bytes_eqb (h_OrgID h) (r_OrgID rec)) || negb (bytes_eqb (h_SessionID h) (r_SessionID rec))
  then Some (refused "%w: shim reports identity %s/%s, record says %s/%s"
               [VText (h_OrgID h); VText (h_SessionID h); VText (r_OrgID rec); VText (r_SessionID rec)])
  else if negb (bytes_eqb (h_ShimID h) (r_ShimID rec))
  then Some (refused "%w: shim reports id %q, record says %q" [VText (h_ShimID h); VText (r_ShimID rec)])
  else if negb (h_PID h =? r_PID rec) || negb (Matches (hello_process h) (record_process rec))
  then Some (refused "%w: shim process identity pid=%d start=%d does not match record pid=%d start=%d"
               [VNum (h_PID h); VNum (h_ProcessStartedAt h); VNum (r_PID rec); VNum (r_ProcessStartedAt rec)])
  else if negb (Phase_Known (h_Phase h))
  then Some (refused "%w: shim reports uninterpretable phase %q" [VText (h_Phase h)])
  else if negb (bytes_eqb (r_WorkareaPath rec) []) && negb (bytes_eqb (h_WorkareaPath h) (r_WorkareaPath rec))
  then Some (refused "%w: shim reports workarea %q, record says %q" [VText (h_WorkareaPath h); VText (r_WorkareaPath rec)])
  else if negb (bytes_eqb expectedWorkarea []) && negb (bytes_eqb (h_WorkareaPath h) expectedWorkarea)
  then Some (refused "%w: shim reports workarea %q, this daemon expects %q" [VText (h_WorkareaPath h); VText expectedWorkarea])
  else verify_root h rec expectedWorkarea expectedWorkareaRoot.

Definition validateAdoptionCommit (marshal : Extensions -> option bytes) (a : Adopted) (proposed : Generation) (x : Extensions) : option aerr :=
  if negb (ad_Generation a =? proposed)
  then Some (refused "%w: shim committed generation %d, expected exactly %d" [VNum (ad_Generation a); VNum proposed])
  else match marshal x, marshal (ad_Extensions a) with
       | Some p, Some q => if bytes_eqb p q then None else Some (refused "%w: shim extension acknowledgement differs from Welcome" [])
       | _, _ => Some (refused "%w: shim extension acknowledgement differs from Welcome" [])
       end.

(** ** The environment *)

(** What [os.Stat] says of a path: whether it is a socket, and its device, inode and
    owner where the platform has them. *)
Record fileInfo := { fi_socket : bool; fi_sys : option (Z * Z * Z) }.

Class AdoptEnv (E : Type) := {
  e_uid : Z;
  e_peerCred : bool;  (** [peerCredSupported] *)
  e_proc : E -> E * proc;
  e_stat : bytes -> E -> E * (extErr + fileInfo);
  e_dial : bytes -> Z -> E -> E * (extErr + nat);
  e_peerUID : nat -> E -> E * (extErr + Z);
  e_recv : nat -> E -> E * (aerr + Message);
  e_send : nat -> MessageType -> bytes -> E -> E * option aerr;
  e_close : nat -> E -> E;
  e_wait : Z -> E -> E * bool  (** whether the delay passed before the context ended *)
}.

Inductive act :=
| AProc (pr : proc)
| ADial (path : bytes) (timeout : Z) (c : option nat)
| ARecv (c : nat) (m : aerr + Message)
| ASend (c : nat) (t : MessageType) (body : bytes) (err : option aerr)
| AClose (c : nat)
| APrepare (ev : AdoptionPreparation)
| AWait (d : Z).

(** The state of a pass: the registry directory, the environment, the answer the
    preparation callback retained for the record at hand, and the log. *)
Record aw (E : Type) := {
  aw_reg : world; aw_env : E; aw_retained : option (Generation * PreparedAdoption); aw_log : list act
}.
Arguments aw_reg {E}.
Arguments aw_env {E}.
Arguments aw_retained {E}.
Arguments aw_log {E}.

Definition AM (E A : Type) : Type := aw E -> aw E * outcome aerr A.

Definition aret {E A} (a : A) : AM E A := fun w => (w, Ok a).
Definition aerror {E A} (e : aerr) : AM E A := fun w => (w, Err e).
Definition alift {E A} (o : outcome aerr A) : AM E A := fun w => (w, o).
Definition abind {E A B} (m : AM E A) (k : A -> AM E B) : AM E B := fun w =>
  match m w with
  | (w', Ok a) => k a w'
  | (w', Err e) => (w', Err e)
  | (w', Panic) => (w', Panic)
  end.
(** [m], or [k] of the error of [m]. *)
Definition acatch {E A} (m : AM E A) (k : aerr -> AM E A) : AM E A := fun w =>
  match m w with
  | (w', Err e) => k e w'
  | r => r
  end.

Declare Scope adopt_scope.
Notation "'let&' x ':=' m 'in' k" := (abind m (fun x => k))
  (at level 10, x pattern, m at level 100, k at level 200) : adopt_scope.
Open Scope adopt_scope.

Definition oguard {E} (o : option aerr) : AM E unit := match o with Some e => aerror e | None => aret tt end.

(** An error of the wire package, as an error of this one. *)
Definition of_wire {A} (o : outcome error A) : outcome aerr A :=
  match o with Ok a => Ok a | Err e => Err (OfWire e) | Panic => Panic end.
Definition of_shim {A} (o : outcome ShimErr A) : outcome aerr A :=
  match o with Ok a => Ok a | Err e => Err (OfShim e) | Panic => Panic end.

(** A registry operation, whose error the caller inspects. *)
Definition registry {E A} (m : RM A) : AM E (outcome ShimErr A) := fun w =>
  let '(r, o) := m (aw_reg w) in
  ({| aw_reg := r; aw_env := aw_env w; aw_retained := aw_retained w; aw_log := aw_log w |}, Ok o).

Definition retained {E} : AM E (option (Generation * PreparedAdoption)) := fun w => (w, Ok (aw_retained w)).
Definition retain {E} (x : option (Generation * PreparedAdoption)) : AM E unit := fun w =>
  ({| aw_reg := aw_reg w; aw_env := aw_env w; aw_retained := x; aw_log := aw_log w |}, Ok tt).

(** A call of the environment, which [entry] records. *)
Definition acall {E A} (f : E -> E * A) (entry : A -> list act) : AM E A := fun w =>
  let '(e, a) := f (aw_env w) in
  ({| aw_reg := aw_reg w; aw_env := e; aw_retained := aw_retained w; aw_log := aw_log w ++ entry a |}, Ok a).

Section dial.
Context {E : Type} `{AdoptEnv E}.

Definition stat (path : bytes) : AM E (extErr + fileInfo) := acall (e_stat path) (fun _ => []).
Definition read_proc : AM E proc := acall e_proc (fun pr => [AProc pr]).
Definition dial_unix (path : bytes) (timeout : Z) : AM E (extErr + nat) :=
  acall (e_dial path timeout) (fun r => [ADial path timeout (match r with inr c => Some c | inl _ => None end)]).
Definition peer_uid (c : nat) : AM E (extErr + Z) := acall (e_peerUID c) (fun _ => []).
Definition recv (c : nat) : AM E (aerr + Message) := acall (e_recv c) (fun m => [ARecv c m]).
Definition send (c : nat) (t : MessageType) (body : bytes) : AM E (option aerr) := acall (e_send c t body) (fun r => [ASend c t body r]).
Definition close (c : nat) : AM E unit := acall (fun e => (e_close c e, tt)) (fun _ => [AClose c]).
Definition wait (d : Z) : AM E bool := acall (e_wait d) (fun _ => [AWait d]).

Definition checkOwnedBySelf (info : fileInfo) (path : bytes) : option aerr :=
  match fi_sys info with
  | None => None
  | Some (_, _, uid) =>
      if negb (uid =? e_uid) then Some (Errorf "%w: %s is owned by uid %d, not %d" [VText path; VNum uid; VNum e_uid] [OfShim ErrRegistryUnsafe]) else None
  end.

Definition verifySocketIdentity (rec : DiscoveryRecord) : AM E unit :=
  let& info := stat (r_SocketPath rec) in
  match info with
  | inl err => aerror (Errorf "sessionshim: stat shim socket: %w" [] [External err])
  | inr info =>
      if negb (fi_socket info) then aerror (Errorf "%w: %s is not a socket" [VText (r_SocketPath rec)] [OfShim ErrRegistryUnsafe])
      else match fi_sys info with
      | None => aret tt
      | Some (dev, ino, _) =>
          if (negb (r_SocketDevice rec =? 0) || negb (r_SocketInode rec =? 0)) &&
             (negb (dev =? r_SocketDevice rec) || negb (ino =? r_SocketInode rec))
          then aerror (refused "%w: socket at %s is device %d inode %d, record binds device %d inode %d"
                         [VText (r_SocketPath rec); VNum dev; VNum ino; VNum (r_SocketDevice rec); VNum (r_SocketInode rec)])
          else oguard (checkOwnedBySelf info (r_SocketPath rec))
      end
  end.

(** ** The handshake *)

Record dialCodecs := {
  d_hello : JsonCodec Hello; d_cap : JsonCodec CheckpointCapability; d_welcome : JsonCodec Welcome; d_adopted : JsonCodec Adopted;
  d_error : JsonCodec ErrorMsg; d_marshal : Extensions -> option bytes
}.

Context (J : dialCodecs).

(** What the handshake sets. *)
Record Controller := {
  c_conn : nat; c_id : Identity; c_controllerID : bytes; c_resumeFrom : Z; c_workareaRoot : bytes; c_hello : Hello;
  c_adopted : Adopted; c_gen : Generation; c_selected : Z; c_profile : Profile
}.

(** An Error message where another was expected. *)
Definition refusal_of (format : string) (body : bytes) : outcome aerr aerr :=
  match decodeJSON (d_error J) body with
  | Ok e => Ok (refused format [VText (em_Code e); VText (em_Detail e)])
  | Err e => Ok (OfWire e)
  | Panic => Panic
  end.

(** The first half of [handshake]: Hello, up to [helloAuthenticated]. *)
Definition read_hello (c : nat) (rec : DiscoveryRecord) (opts : ControllerOptions) : AM E Hello :=
  let& m := recv c in
  match m with
  | inl err => aerror (Errorf "sessionshim: read hello: %w" [] [err])
  | inr msg =>
      if m_Type msg =? Msg.TypeError then
        let& e := alift (refusal_of "%w: shim refused at hello: %s: %s" (m_Body msg)) in aerror e
      else if negb (m_Type msg =? Msg.TypeHello) then aerror (refused "%w: expected Hello, got %s" [VNum (m_Type msg)])
      else
        let& hello := alift (of_wire (DecodeHello (d_hello J) (d_cap J) (m_Body msg))) in
        let& _ := oguard (verifyHello hello rec (co_ExpectedWorkarea opts) (co_ExpectedWorkareaRoot opts)) in
        aret hello
  end.

(** The floor of a selected-v3 adoption against the authenticated Hello. *)
Definition check_floor (opts : ControllerOptions) (hello : Hello) (selected localResumeFrom : Z) : option aerr :=
  if selected <? V3 then None
  else if h_Generation hello <? co_DurableAckGeneration opts
  then Some (unprepared "%w: durable acknowledgement generation %d is ahead of Hello generation %d" [VNum (co_DurableAckGeneration opts); VNum (h_Generation hello)])
  else if negb (h_LastSeq hello =? MaxUint64) && (u64 (h_LastSeq hello + 1) <? localResumeFrom)
  then Some (unprepared "%w: local resume %d is ahead of Hello LastSeq %d" [VNum localResumeFrom; VNum (h_LastSeq hello)])
  else None.

(** What Welcome will propose: generation, extensions, first sequence. *)
Record proposal := { pp_generation : Generation; pp_extensions : Extensions; pp_resume : Z; pp_provided : bool }.

Definition propose (prepare : AdoptionPreparation -> AM E PreparedAdoption) (id : Identity) (opts : ControllerOptions) (hello : Hello)
    (selected localResumeFrom : Z) : AM E proposal :=
  let proposed := match co_NextGeneration opts with Some next => next (h_Generation hello) | None => co_ProposedGeneration opts end in
  if negb (co_prepares opts)
  then aret {| pp_generation := proposed; pp_extensions := co_Extensions opts; pp_resume := co_ResumeFrom opts; pp_provided := false |}
  else
    let& prepared := prepare {|
      ap_Identity := id; ap_ControllerID := co_ControllerID opts; ap_ShimID := h_ShimID hello; ap_ProcessEpoch := h_ProcessEpoch hello;
      ap_CurrentControllerGeneration := h_Generation hello; ap_LocalResumeFrom := localResumeFrom; ap_LastHostSeq := h_LastSeq hello;
      ap_LastForwardedSeq := u64 (localResumeFrom - 1); ap_SelectedVersion := selected |} in
    let& resolved := alift (ResolvePreparedAdoption prepared {|
      pb_StaticGenerationConfigured := negb (co_ProposedGeneration opts =? 0) || match co_NextGeneration opts with Some _ => true | None => false end;
      pb_StaticResumeConfigured := co_ResumeExternallyConfigured opts || ((co_LocalResumeFrom opts =? 0) && negb (co_ResumeFrom opts =? 0));
      pb_LocalResumeFrom := localResumeFrom; pb_HelloLastSeq := h_LastSeq hello |}) in
    aret {| pp_generation := if rp_ControllerGeneration resolved =? 0 then proposed else rp_ControllerGeneration resolved;
            pp_extensions := rp_Extensions resolved;
            pp_resume := if rp_ResumeProvided resolved then rp_ResumeFrom resolved else co_ResumeFrom opts;
            pp_provided := rp_ResumeProvided resolved |}.

(** Welcome and Adopted. *)
Definition commit (c : nat) (rec : DiscoveryRecord) (opts : ControllerOptions) (hello : Hello) (selected : Z) (p : proposal) : AM E Controller :=
  if (V3 <=? selected) && match Values (pp_extensions p) !! ExtCarrierEpoch with Some _ => true | None => false end && negb (pp_provided p)
  then aerror (unprepared "%w: selected-v3 carrier preparation omitted proof-resolved ResumeFrom" [])
  else
    let proposed := if pp_generation p =? 0 then u64 (h_Generation hello + 1) else pp_generation p in
    if proposed <=? h_Generation hello
    then aerror (Errorf "%w: proposed generation %d does not advance the shim's %d" [VNum proposed; VNum (h_Generation hello)] [Sentinel (SWire ErrStaleGeneration)])
    else
      let& body := alift (of_wire (EncodeWelcome (d_welcome J) {|
        wl_Protocol := ProtocolName; wl_Selected := selected; wl_ControllerID := co_ControllerID opts; wl_ProposedGeneration := proposed;
        wl_ResumeFrom := pp_resume p; wl_Extensions := pp_extensions p |})) in
      let& sent := send c Msg.TypeWelcome body in
      let& _ := oguard sent in
      let& m := recv c in
      match m with
      | inl err => aerror (Errorf "sessionshim: read adopted: %w" [] [err])
      | inr reply =>
          if m_Type reply =? Msg.TypeError then let& e := alift (refusal_of "%w: %s: %s" (m_Body reply)) in aerror e
          else if negb (m_Type reply =? Msg.TypeAdopted) then aerror (refused "%w: expected Adopted, got %s" [VNum (m_Type reply)])
          else
            let& adopted := alift (of_wire (DecodeAdopted (d_adopted J) (m_Body reply))) in
            let& _ := oguard (validateAdoptionCommit (d_marshal J) adopted proposed (pp_extensions p)) in
            aret {| c_conn := c; c_id := Record_Identity rec; c_controllerID := co_ControllerID opts; c_resumeFrom := pp_resume p;
                    c_workareaRoot := r_WorkareaRoot rec; c_hello := hello; c_adopted := adopted; c_gen := ad_Generation adopted;
                    c_selected := selected; c_profile := workload opts |}
      end.

(** The second half of [handshake]: a proposal, its commit. *)
Definition take_control (prepare : AdoptionPreparation -> AM E PreparedAdoption) (c : nat) (rec : DiscoveryRecord) (opts : ControllerOptions)
    (hello : Hello) : AM E Controller :=
  if negb (bytes_eqb (helloWorkload hello) (workload opts))
  then aerror (Errorf "%w: shim serves the %s workload, this controller adopts %s" [VText (helloWorkload hello); VText (workload opts)]
                 [Sentinel (SWire ErrVersionMismatch)])
  else
    let& _ := alift (of_wire (CheckRequired (h_Extensions hello))) in
    let& range := alift (protocolRange opts) in
    let& selected := alift (of_wire (Negotiate (h_Min hello) (h_Max hello) (fst range) (snd range))) in
    let localResumeFrom := if co_LocalResumeFrom opts =? 0 then 1 else co_LocalResumeFrom opts in
    let& _ := oguard (check_floor opts hello selected localResumeFrom) in
    let& p := propose prepare (Record_Identity rec) opts hello selected localResumeFrom in
    commit c rec opts hello selected p.

(** [Dial], with the connection closed on every failure after it was made, and an error
    after the Hello was authenticated marked with the generation it reported. *)
Definition on_failure {A} (c : nat) (m : AM E A) : AM E A := acatch m (fun err => let& _ := close c in aerror err).

Definition Dial (prepare : AdoptionPreparation -> AM E PreparedAdoption) (rec : DiscoveryRecord) (opts : ControllerOptions) : AM E Controller :=
  let& _ := alift (of_shim (Record_Validate rec)) in
  if negb e_peerCred then aerror (Sentinel ErrShimUnsupported)
  else
    let& _ := verifySocketIdentity rec in
    let& raw := dial_unix (r_SocketPath rec) (dialTimeout opts) in
    match raw with
    | inl err => aerror (Errorf "sessionshim: dial adoption socket: %w" [] [External err])
    | inr c =>
        on_failure c
          (let& uid := peer_uid c in
           match uid with
           | inl err => aerror (Errorf "sessionshim: verify shim peer: %w" [] [External err])
           | inr uid =>
               if negb (uid =? e_uid) then aerror (refused "%w: shim socket peer uid %d is not %d" [VNum uid; VNum e_uid])
               else
                 let& hello := read_hello c rec opts in
                 acatch (take_control prepare c rec opts hello) (fun err => aerror (HelloError (h_Generation hello) err))
           end)
    end.
End dial.
Arguments Controller : clear implicits.
