(* ===== verification/Adopt.v ===== *)
(** * Adopt: the startup adoption pass ([src/sessionshim/adopt.go])

    A daemon that starts scans the registry, and puts every record and tombstone it
    finds into one bucket: adopted, quarantined, tombstoned or stale.  The callbacks of
    the embedder are functions of the environment's state. *)

From Stdlib Require Import String.
From stdpp Require Import gmap sets.
From S2P Require Import Prelude ShimWire ShimPayloads ShimControl GoSort ShimRecord Fence DaemonFence ProcIdentity Registry ShimDial.

(** ** Options *)

Record AdoptOptions (E : Type) := {
  ao_ControllerID : bytes;
  ao_NextGeneration : option (Identity -> Generation -> Generation);
  ao_Prepare : option (AdoptionPreparation -> E -> E * (aerr + PreparedAdoption));
  ao_QuarantinePreparationFailure : option (aerr -> bool);
  ao_ResumeFrom : option (Identity -> E -> Z);
  ao_ExpectedWorkarea : option (Identity -> E -> bytes);
  ao_ExpectedWorkareaRoot : option (Identity -> E -> bytes);
  ao_ExpectedWorkareaLayout : option (Identity -> E -> aerr + (bytes * bytes));
  ao_Filter : option (Identity -> bool);
  ao_DialTimeout : Z;
  ao_ProtocolMin : Z;
  ao_ProtocolMax : Z;
  ao_RequireFullHostFrames : bool;
  ao_now : Z
}.
Arguments ao_ControllerID {E}.
Arguments ao_NextGeneration {E}.
Arguments ao_Prepare {E}.
Arguments ao_QuarantinePreparationFailure {E}.
Arguments ao_ResumeFrom {E}.
Arguments ao_ExpectedWorkarea {E}.
Arguments ao_ExpectedWorkareaRoot {E}.
Arguments ao_ExpectedWorkareaLayout {E}.
Arguments ao_Filter {E}.
Arguments ao_DialTimeout {E}.
Arguments ao_ProtocolMin {E}.
Arguments ao_ProtocolMax {E}.
Arguments ao_RequireFullHostFrames {E}.
Arguments ao_now {E}.

(** [opts.Filter != nil && !opts.Filter(id)] *)
Definition filtered_out {E} (opts : AdoptOptions E) (id : Identity) : bool :=
  match ao_Filter opts with Some f => negb (f id) | None => false end.

Record AdoptionResult := {
  ar_Adopted : list Controller; ar_Quarantined : list QuarantinedSession; ar_Tombstoned : list Tombstone; ar_Stale : list DiscoveryRecord
}.

Definition OccupiedSlots (r : AdoptionResult) : Z := blen (ar_Adopted r) + blen (ar_Quarantined r).

Definition QuarantinedProjection (r : AdoptionResult) : list QuarantinedSession := sort_Slice quarantined_less (ar_Quarantined r).

(** ** Failures *)

Definition isSocketUnreachable (err : aerr) : bool := Is err ECONNREFUSED || Is err ENOENT || Is err (SShim ErrNotExist).

Definition isTransientDialFailure (err : option aerr) : bool :=
  match err with
  | None => false
  | Some err =>
      if isSocketUnreachable err then false
      else match AsTimeout err with
           | Some true => true
           | _ => Is err DeadlineExceeded || Is err (SWire EOF) || Is err (SWire UnexpectedEOF)
           end
  end.

Definition QuarantineProtocolMismatch : QuarantineReason := str "protocol_mismatch".
Definition QuarantineRecordMalformed : QuarantineReason := str "record_malformed".
Definition QuarantineDuplicateIdentity : QuarantineReason := str "duplicate_identity".
Definition QuarantineIdentityMismatch : QuarantineReason := str "identity_mismatch".
Definition QuarantineUnauthenticated : QuarantineReason := str "unauthenticated".
Definition QuarantinePhaseUnknown : QuarantineReason := str "phase_unknown".
Definition QuarantineGenerationNotAdvanced : QuarantineReason := str "generation_not_advanced".
Definition QuarantineSocketUnreachable : QuarantineReason := str "socket_unreachable".
Definition QuarantineAdoptionFailed : QuarantineReason := str "adoption_failed".
Definition QuarantineGroupReapUnproven : QuarantineReason := str "group_reap_unproven".

Definition classifyAdoptionFailure (err : aerr) : QuarantineReason :=
  if Is err (SWire ErrVersionMismatch) then QuarantineProtocolMismatch
  else if Is err (SWire ErrExtensionUnsupported) then QuarantineProtocolMismatch
  else if Is err (SWire ErrStaleGeneration) then QuarantineGenerationNotAdvanced
  else if Is err (SShim ErrRegistryUnsafe) then QuarantineUnauthenticated
  else if Is err ErrAdoptionRefused then QuarantineIdentityMismatch
  else if Is err (SShim ErrRecordInvalid) then QuarantineRecordMalformed
  else if isSocketUnreachable err then QuarantineSocketUnreachable
  else QuarantineAdoptionFailed.

(** ** Retries *)

Definition adoptionDialAttempts : nat := 3.
Definition Millisecond : Z := 1000000.
Definition adoptionDialBackoff : Z := 100 * Millisecond.
Definition adoptionRetryDialTimeout : Z := 2 * Second.

Definition adoptionAttemptDialTimeout (configured : Z) (attempt : nat) : Z :=
  if (attempt <=? 1)%nat then configured
  else if (0 <? configured) && (configured <? adoptionRetryDialTimeout) then configured
  else adoptionRetryDialTimeout.

(** The delay before an attempt: the base, doubled for each attempt after the second. *)
Definition adoptionDelay (attempt : nat) : Z := adoptionDialBackoff * 2 ^ Z.of_nat (attempt - 2).

(** The text of a quarantine: an error, or a format of its own. *)
Inductive detail := DError (e : aerr) | DText (format : string) (vals : list val) (err : option aerr).

Section adopt.
Context {E : Type} `{AdoptEnv E} (C : codecs) (dir : dirInfo) (J : dialCodecs) (render : detail -> bytes).

Definition observe_env {A} (f : E -> A) : AM E A := acall (fun e => (e, f e)) (fun _ => []).

(** The call of the embedder, recorded. *)
Definition call_prepare (opts : AdoptOptions E) (ev : AdoptionPreparation) : AM E PreparedAdoption :=
  match ao_Prepare opts with
  | None => aerror (Sentinel (OtherErr 0))
  | Some prepare =>
      let& r := acall (prepare ev) (fun _ => [APrepare ev]) in
      match r with inl err => aerror err | inr p => aret p end
  end.

(** [attemptOpts.Prepare]: the retained answer while the floor is the one it was
    prepared against. *)
Definition prepare_retained (opts : AdoptOptions E) (ev : AdoptionPreparation) : AM E PreparedAdoption :=
  let& kept := retained in
  let fresh := (let& p := call_prepare opts ev in let& _ := retain (Some (ap_CurrentControllerGeneration ev, p)) in aret p) in
  match kept with
  | Some (against, p) => if ap_CurrentControllerGeneration ev =? against then aret p else fresh
  | None => fresh
  end.

(** [copts.PrepareAdoption] *)
Definition prepare_adoption (opts : AdoptOptions E) (ev : AdoptionPreparation) : AM E PreparedAdoption :=
  acatch (prepare_retained opts ev)
    (fun err => aerror (Errorf "%w for %s: %w" [VText (Identity_String (ap_Identity ev))] [Sentinel ErrAdoptionPreparation; err])).

(** The floor the acknowledgement sidecar gives a selected-v3 adoption, and the
    generation beside it. *)
Definition ack_floor (rec : DiscoveryRecord) (selected : Z) : AM E (Z * Generation) :=
  if selected <? V3 then aret (1, 0)
  else
    let& ack := registry (getDurableAck C dir rec) in
    match ack with
    | Panic => alift Panic
    | Err err =>
        if shim_is err ErrNotExist then aret (1, 0)
        else aerror (Errorf "sessionshim: load durable acknowledgement for %s: %w" [VText (Identity_String (Record_Identity rec))] [OfShim err])
    | Ok a =>
        if a_AckedSeq a =? MaxUint64
        then aerror (Errorf "sessionshim: durable acknowledgement for %s cannot advance past uint64 max" [VText (Identity_String (Record_Identity rec))] [])
        else aret (u64 (a_AckedSeq a + 1), a_ControllerGeneration a)
    end.

(** The first sequence to ask for. *)
Definition resume_point (opts : AdoptOptions E) (id : Identity) (selected localResumeFrom : Z) : AM E Z :=
  match ao_ResumeFrom opts with
  | Some f =>
      let& resume := observe_env (f id) in
      let effective := if resume =? 0 then 1 else resume in
      if (V3 <=? selected) && (effective <? localResumeFrom)
      then aerror (unprepared "%w for %s: external resume %d regresses shim local floor %d" [VText (Identity_String id); VNum effective; VNum localResumeFrom])
      else aret resume
  | None => aret (if V3 <=? selected then localResumeFrom else 0)
  end.

Definition expected_layout (opts : AdoptOptions E) (id : Identity) : AM E (bytes * bytes) :=
  match ao_ExpectedWorkareaLayout opts with
  | Some f =>
      let& r := observe_env (f id) in
      match r with
      | inl err => aerror (Errorf "%w for %s: resolve expected workarea: %w" [VText (Identity_String id)] [Sentinel ErrAdoptionRefused; err])
      | inr layout => aret layout
      end
  | None =>
      observe_env (fun e => (match ao_ExpectedWorkarea opts with Some f => f id e | None => [] end,
                             match ao_ExpectedWorkareaRoot opts with Some f => f id e | None => [] end))
  end.

(** The options of the dial, as far as they do not depend on the record. *)
Definition dial_options (opts : AdoptOptions E) (timeout : Z) (id : Identity) (resume localResumeFrom : Z) (ackGeneration : Generation)
    (layout : bytes * bytes) : ControllerOptions := {|
  co_ControllerID := ao_ControllerID opts; co_ProposedGeneration := 0;
  co_NextGeneration := option_map (fun next => next id) (ao_NextGeneration opts);
  co_prepares := match ao_Prepare opts with Some _ => true | None => false end;
  co_ResumeFrom := resume; co_LocalResumeFrom := localResumeFrom;
  co_ResumeExternallyConfigured := match ao_ResumeFrom opts with Some _ => true | None => false end;
  co_DurableAckGeneration := ackGeneration; co_ExpectedWorkarea := fst layout; co_ExpectedWorkareaRoot := snd layout;
  co_Extensions := {| Values := ∅; Required := [] |}; co_ProtocolMin := ao_ProtocolMin opts; co_ProtocolMax := ao_ProtocolMax opts;
  co_Workload := []; co_RequireFullHostFrames := ao_RequireFullHostFrames opts; co_DialTimeout := timeout |}.

(** The range is that of a probe with the protocol fields alone. *)
Definition dialForAdoption (rec : DiscoveryRecord) (opts : AdoptOptions E) (timeout : Z) : AM E Controller :=
  let id := Record_Identity rec in
  let& range := alift (protocolRange (dial_options opts timeout id 0 0 0 ([], []))) in
  let& selected := alift (of_wire (Negotiate (r_ProtocolMin rec) (r_ProtocolMax rec) (fst range) (snd range))) in
  let& floor := ack_floor rec selected in
  let& resume := resume_point opts id selected (fst floor) in
  let& layout := expected_layout opts id in
  Dial J (prepare_adoption opts) rec (dial_options opts timeout id resume (fst floor) (snd floor) layout).

(** The attempts after the first; [last] is how the previous one ended. *)
Fixpoint dial_attempts (rec : DiscoveryRecord) (opts : AdoptOptions E) (left attempt : nat) (last : outcome aerr Controller) : AM E Controller :=
  match left with
  | O => alift last
  | S left' =>
      match last with
      | Err err =>
          if negb (isTransientDialFailure (Some err)) || Is err ErrAdoptionPreparation then aerror err
          else
            let& passed := wait (adoptionDelay attempt) in
            if negb passed then aerror err
            else fun w =>
              let '(w', o) := dialForAdoption rec opts (adoptionAttemptDialTimeout (ao_DialTimeout opts) attempt) w in
              dial_attempts rec opts left' (S attempt) o w'
      | _ => alift last
      end
  end.

Definition dialForAdoptionWithRetry (rec : DiscoveryRecord) (opts : AdoptOptions E) : AM E Controller :=
  let& _ := retain None in
  fun w =>
    let '(w', o) := dialForAdoption rec opts (adoptionAttemptDialTimeout (ao_DialTimeout opts) 1) w in
    dial_attempts rec opts (adoptionDialAttempts - 1) 2 o w'.

(** ** The pass *)

Definition incarnation : Type := Identity * bytes * Z.
Definition terminalIncarnationForTombstone (t : Tombstone) : incarnation := (Tombstone_Identity t, t_ShimID t, t_ProcessEpoch t).
Definition terminalIncarnationForRecord (r : DiscoveryRecord) : incarnation := (Record_Identity r, r_ShimID r, r_ProcessEpoch r).

Definition no_result : AdoptionResult := {| ar_Adopted := []; ar_Quarantined := []; ar_Tombstoned := []; ar_Stale := [] |}.

Definition add_adopted (c : Controller) (r : AdoptionResult) : AdoptionResult :=
  {| ar_Adopted := ar_Adopted r ++ [c]; ar_Quarantined := ar_Quarantined r; ar_Tombstoned := ar_Tombstoned r; ar_Stale := ar_Stale r |}.
Definition add_quarantined (q : QuarantinedSession) (r : AdoptionResult) : AdoptionResult :=
  {| ar_Adopted := ar_Adopted r; ar_Quarantined := ar_Quarantined r ++ [q]; ar_Tombstoned := ar_Tombstoned r; ar_Stale := ar_Stale r |}.
Definition add_tombstoned (t : Tombstone) (r : AdoptionResult) : AdoptionResult :=
  {| ar_Adopted := ar_Adopted r; ar_Quarantined := ar_Quarantined r; ar_Tombstoned := ar_Tombstoned r ++ [t]; ar_Stale := ar_Stale r |}.
Definition add_stale (s : DiscoveryRecord) (r : AdoptionResult) : AdoptionResult :=
  {| ar_Adopted := ar_Adopted r; ar_Quarantined := ar_Quarantined r; ar_Tombstoned := ar_Tombstoned r; ar_Stale := ar_Stale r ++ [s] |}.

(** A tombstone without proof that the process group ended. *)
Definition unproven_session (t : Tombstone) : QuarantinedSession := {|
  q_OrgID := t_OrgID t; q_SessionID := t_SessionID t; q_ShimID := t_ShimID t; q_ProcessEpoch := t_ProcessEpoch t;
  q_ControllerGeneration := 0; q_ProtocolMin := 0; q_ProtocolMax := 0; q_Reason := QuarantineGroupReapUnproven;
  q_Detail := str "terminal tombstone did not prove harness process-group reap"; q_AgeSeconds := 0; q_ConsumesCapacity := true; q_Phase := [] |}.

(** A registry entry that does not decode. *)
Definition malformed_session (name : bytes) (err : ShimErr) : QuarantinedSession := {|
  q_OrgID := []; q_SessionID := []; q_ShimID := []; q_ProcessEpoch := 0; q_ControllerGeneration := 0; q_ProtocolMin := 0; q_ProtocolMax := 0;
  q_Reason := QuarantineRecordMalformed; q_Detail := render (DText "registry entry %s: %v" [VText name] (Some (OfShim err)));
  q_AgeSeconds := 0; q_ConsumesCapacity := true; q_Phase := [] |}.

Fixpoint tombstone_pass (opts : AdoptOptions E) (ts : list Tombstone) (reaped : gmap incarnation Tombstone) (r : AdoptionResult)
    : gmap incarnation Tombstone * AdoptionResult :=
  match ts with
  | [] => (reaped, r)
  | t :: ts' =>
      if filtered_out opts (Tombstone_Identity t) then tombstone_pass opts ts' reaped r
      else if t_GroupReaped t
      then tombstone_pass opts ts' (<[terminalIncarnationForTombstone t := t]> reaped) (add_tombstoned t r)
      else tombstone_pass opts ts' reaped (add_quarantined (unproven_session t) r)
  end.

(** [seen]: how many records without a positive tombstone claim an identity. *)
Definition seen_count (entries : list ScanEntry) (reaped : gmap incarnation Tombstone) (id : Identity) : Z :=
  blen (List.filter (fun e => match se_Record e with
                              | Ok rec => match reaped !! terminalIncarnationForRecord rec with
                                          | Some _ => false
                                          | None => bool_decide (Record_Identity rec = id)
                                          end
                              | _ => false
                              end) entries).

Definition quarantine_failed (rec : DiscoveryRecord) (reason : QuarantineReason) (err : aerr) (now : Z) : QuarantinedSession :=
  let q := NewQuarantinedSession rec reason (render (DError err)) now in
  match authenticatedHelloGeneration err with
  | None => q
  | Some g => {| q_OrgID := q_OrgID q; q_SessionID := q_SessionID q; q_ShimID := q_ShimID q; q_ProcessEpoch := q_ProcessEpoch q;
                 q_ControllerGeneration := g; q_ProtocolMin := q_ProtocolMin q; q_ProtocolMax := q_ProtocolMax q; q_Reason := q_Reason q;
                 q_Detail := q_Detail q; q_AgeSeconds := q_AgeSeconds q; q_ConsumesCapacity := q_ConsumesCapacity q; q_Phase := q_Phase q |}
  end.

(** One record of the pass, once it is neither filtered out nor covered by a positive
    tombstone; [inr] is the error that aborts the pass. *)
Definition adopt_record (opts : AdoptOptions E) (claims : Z) (rec : DiscoveryRecord) (r : AdoptionResult) : AM E (AdoptionResult + aerr) :=
  let now := ao_now opts in
  let quarantine reason d := aret (inl (add_quarantined (NewQuarantinedSession rec reason (render d) now) r)) in
  if 1 <? claims then quarantine QuarantineDuplicateIdentity (DText "%d live records claim this identity" [VNum claims] None)
  else
    let& pr := read_proc in
    match Alive pr (record_process rec) with
    | Panic => alift Panic
    | Err err => quarantine QuarantineIdentityMismatch
                   (DText "process identity unverifiable: %v" [] (Some (Sentinel (OtherErr (match err with ProcGone => 1 | ProcFailed => 2 end)))))
    | Ok false => aret (inl (add_stale rec r))
    | Ok true =>
        if negb (Phase_Known (r_Phase rec)) then quarantine QuarantinePhaseUnknown (DText "record reports phase %q" [VText (r_Phase rec)] None)
        else match Negotiate (r_ProtocolMin rec) (r_ProtocolMax rec) ProtocolMin ProtocolMax with
        | Panic => alift Panic
        | Err _ => quarantine QuarantineProtocolMismatch
                     (DText "shim speaks [%d,%d], this daemon speaks [%d,%d]"
                        [VNum (r_ProtocolMin rec); VNum (r_ProtocolMax rec); VNum ProtocolMin; VNum ProtocolMax] None)
        | Ok _ => fun w =>
            match dialForAdoptionWithRetry rec opts w with
            | (w', Panic) => (w', Panic)
            | (w', Ok c) => (w', Ok (inl (add_adopted c r)))
            | (w', Err err) =>
                (w', Ok (if Is err ErrAdoptionPreparation &&
                            negb (match ao_QuarantinePreparationFailure opts with Some f => f err | None => false end)
                         then inr err
                         else inl (add_quarantined
                                (quarantine_failed rec (if Is err ErrAdoptionPreparation then QuarantineAdoptionFailed
                                                        else classifyAdoptionFailure err) err now) r)))
            end
        end
    end.

(** [AdoptionResult.Close] *)
Fixpoint close_all (cs : list Controller) : AM E unit :=
  match cs with
  | [] => aret tt
  | c :: cs' => let& _ := close (c_conn c) in close_all cs'
  end.

Fixpoint entry_pass (opts : AdoptOptions E) (all : list ScanEntry) (reaped : gmap incarnation Tombstone) (es : list ScanEntry) (r : AdoptionResult)
    : AM E (AdoptionResult * option aerr) :=
  match es with
  | [] => aret (r, None)
  | e :: es' =>
      match se_Record e with
      | Panic => alift Panic
      | Err err =>
          match ao_Filter opts with
          | Some _ => entry_pass opts all reaped es' r
          | None => entry_pass opts all reaped es' (add_quarantined (malformed_session (se_Name e) err) r)
          end
      | Ok rec =>
          if filtered_out opts (Record_Identity rec) then entry_pass opts all reaped es' r
          else match reaped !! terminalIncarnationForRecord rec with
          | Some _ => entry_pass opts all reaped es' r
          | None =>
              let& o := adopt_record opts (seen_count all reaped (Record_Identity rec)) rec r in
              match o with
              | inl r' => entry_pass opts all reaped es' r'
              | inr err => let& _ := close_all (ar_Adopted r) in aret (r, Some err)
              end
          end
      end
  end.

Definition controller_key (c : Controller) : bytes := Identity_Key (c_id c).

Definition sortResult (r : AdoptionResult) : AdoptionResult := {|
  ar_Adopted := sort_Slice (fun a b => bytes_ltb (controller_key a) (controller_key b)) (ar_Adopted r);
  ar_Quarantined := sort_Slice quarantined_less (ar_Quarantined r);
  ar_Tombstoned := sort_Slice tombstone_less (ar_Tombstoned r);
  ar_Stale := sort_Slice (fun a b => bytes_ltb (Identity_Key (Record_Identity a)) (Identity_Key (Record_Identity b))) (ar_Stale r) |}.

(** [Adopt]: the result and the error it returns. *)
Definition Adopt (opts : AdoptOptions E) : AM E (AdoptionResult * option aerr) :=
  if negb e_peerCred then aret (no_result, Some (Sentinel ErrShimUnsupported))
  else
    let& scanned := registry (Scan C dir) in
    match scanned with
    | Panic => alift Panic
    | Err err => aret (no_result, Some (OfShim err))
    | Ok entries =>
        let& scanned := registry (ScanTombstones C dir) in
        match scanned with
        | Panic => alift Panic
        | Err err => aret (no_result, Some (OfShim err))
        | Ok tombstones =>
            let '(reaped, r) := tombstone_pass opts tombstones ∅ no_result in
            let& res := entry_pass opts entries reaped entries r in
            match snd res with
            | Some err => aret res
            | None => aret (sortResult (fst res), None)
            end
        end
    end.
End adopt.
