(* ===== verification/AdoptDemo.v ===== *)
(** * AdoptDemo: a registry and a host for concrete runs of the adoption pass

    Three sessions.  The shim of the first runs: its first connection ends before the
    Hello, the second goes through.  The process of the second is gone.  The third died
    between the publication of its tombstone, which does not prove that its process
    group ended, and the withdrawal of its record. *)

From stdpp Require Import gmap.
From S2P Require Import Prelude ShimWire ShimPayloads ShimControl GoSort ShimRecord Fence DaemonFence ProcIdentity Registry.
From S2P Require Import RegistryProperties ShimDial Adopt.

(** A codec given by a table. *)
Definition decode_table {A} (l : list (bytes * A)) (b : bytes) : option A :=
  option_map snd (find (fun p : bytes * A => bytes_eqb (fst p) b) l).
Definition stream_table {A} (l : list (bytes * A)) : JsonStream A := {|
  js_Marshal := fun _ => None; js_Decode := fun b => option_map (fun a => (a, [])) (decode_table l b) |}.
Definition codec_table {A} (encode : A -> bytes) (l : list (bytes * A)) : JsonCodec A := {|
  encodeJSON := fun a => Ok (encode a);
  decodeJSON := fun b => match decode_table l b with Some a => Ok a | None => Err (Wrapped [ErrMalformed]) end |}.

Definition host_record (session : bytes) (pid : Z) : DiscoveryRecord := {|
  r_SchemaVersion := 1; r_Workload := []; r_OrgID := str "org"; r_SessionID := session; r_ShimID := str "shim";
  r_ProcessEpoch := 1; r_PID := pid; r_ProcessStartedAt := 1700000050 * nanoPerSec; r_ProcessStartTicks := 5000; r_BootID := str "b1";
  r_SocketPath := str "/run/" ++ session; r_SocketDevice := 0; r_SocketInode := 0; r_ProtocolMin := 1; r_ProtocolMax := 5;
  r_Phase := PhaseRunning; r_WorkareaPath := str "/w"; r_WorkareaRoot := str "/w"; r_ResumeKey := None;
  r_CreatedAtUnixNano := 1; r_OrphanDeadlineUnixNano := 0 |}.

Definition host_tombstone : Tombstone := {|
  t_SchemaVersion := 1; t_Workload := []; t_OrgID := str "org"; t_SessionID := str "s3"; t_ShimID := str "shim";
  t_ProcessEpoch := 1; t_HarnessPID := 43; t_HarnessStartedAt := 8; t_ExitCode := 0; t_Signal := []; t_LastSeq := 9;
  t_GroupReaped := false; t_ResumeKey := None; t_Cause := []; t_OutboxKey := []; t_OutboxState := [];
  t_ObservedAtUnixNano := 5 |}.

Definition host_hello (session : bytes) (g : Generation) : Hello := {|
  h_Protocol := ProtocolName; h_Min := 1; h_Max := 5; h_OrgID := str "org"; h_SessionID := session;
  h_ShimID := str "shim"; h_ProcessEpoch := 1; h_PID := 42; h_ProcessStartedAt := 1700000050 * nanoPerSec; h_ProcessStartTicks := 5000;
  h_ProcessBootID := str "b1"; h_HarnessPID := 43; h_HarnessStartedAt := 2; h_HarnessStartTicks := 0; h_HarnessBootID := [];
  h_WorkareaPath := str "/w"; h_Phase := PhaseRunning; h_Generation := g; h_FirstSeq := 1; h_LastSeq := 9;
  h_OrphanDeadlineUnixNano := 0; h_Extensions := {| Values := ∅; Required := [] |}; h_Continuation := None; h_Workload := [] |}.

Definition host_adopted (g : Generation) : Adopted := {|
  ad_Generation := g; ad_Extensions := {| Values := ∅; Required := [] |}; ad_Contiguous := true; ad_ReplayFrom := 1; ad_ReplayTo := 9; ad_Phase := PhaseRunning |}.

Definition host_codecs : codecs := {|
  Registry.Sum256 := Registry.Sum256 sample_codecs;
  j_record := stream_table [(str "{1}", host_record (str "s1") 42); (str "{2}", host_record (str "s2") 77); (str "{3}", host_record (str "s3") 42)];
  j_tombstone := stream_table [(str "{t}", host_tombstone)];
  j_ack := stream_table []; j_seat := stream_table []; j_flow := stream_table []; j_session := stream_table [] |}.

Definition host_dial : dialCodecs := {|
  d_hello := codec_table (fun _ => []) [(str "hello1", host_hello (str "s1") 7); (str "hello3", host_hello (str "s3") 2)];
  d_cap := codec_table (fun _ => []) [];
  d_welcome := codec_table (fun w => str "welcome" ++ FormatUint (wl_ProposedGeneration w)) [];
  d_adopted := codec_table (fun _ => []) [(str "adopted8", host_adopted 8); (str "adopted3", host_adopted 3)];
  d_error := codec_table (fun _ => []) [];
  d_marshal := fun _ => Some (str "{}") |}.

(** The host: what it will read next, on whatever connection, and the connections made. *)
Record host := { hs_script : list (aerr + Message); hs_dialled : nat }.

#[export] Instance host_env : AdoptEnv host := {|
  e_uid := 1000;
  e_peerCred := true;
  e_proc := fun h => (h, sample_proc 5000 (str "b1") 1700000000);
  e_stat := fun _ h => (h, inr {| fi_socket := true; fi_sys := Some (5, 6, 1000) |});
  e_dial := fun _ _ h => ({| hs_script := hs_script h; hs_dialled := S (hs_dialled h) |}, inr (hs_dialled h));
  e_peerUID := fun _ h => (h, inr 1000);
  e_recv := fun _ h =>
    match hs_script h with
    | [] => (h, inl (Sentinel (SWire EOF)))
    | m :: ms => ({| hs_script := ms; hs_dialled := hs_dialled h |}, m)
    end;
  e_send := fun _ _ _ h => (h, None);
  e_close := fun _ h => h;
  e_wait := fun _ h => (h, true) |}.

Definition host_prepared : PreparedAdoption :=
  {| pa_ControllerGeneration := 0; pa_Extensions := {| Values := ∅; Required := [] |}; pa_Correlation := []; pa_ResumeFrom := None |}.

Definition host_opts : AdoptOptions host := {|
  ao_ControllerID := str "daemon"; ao_NextGeneration := None; ao_Prepare := Some (fun _ h => (h, inr host_prepared));
  ao_QuarantinePreparationFailure := None; ao_ResumeFrom := None; ao_ExpectedWorkarea := None; ao_ExpectedWorkareaRoot := None;
  ao_ExpectedWorkareaLayout := None; ao_Filter := None; ao_DialTimeout := 0; ao_ProtocolMin := 0; ao_ProtocolMax := 0;
  ao_RequireFullHostFrames := true; ao_now := 100 |}.

Definition host_files : gmap bytes fileEntry := {[
  str "1.json" := published (str "{1}"); str "2.json" := published (str "{2}"); str "3.json" := published (str "{3}");
  str "3.tombstone.json" := published (str "{t}") ]}.

Definition host_world (script : list (aerr + Message)) : aw host := {|
  aw_reg := {| files := host_files; faults := [] |}; aw_env := {| hs_script := script; hs_dialled := 0 |}; aw_retained := None; aw_log := [] |}.

Definition says_hello (body : string) : aerr + Message := inr {| m_Type := Msg.TypeHello; m_Body := str body |}.
Definition says_adopted (body : string) : aerr + Message := inr {| m_Type := Msg.TypeAdopted; m_Body := str body |}.

(** The connection of the first session ends after its Hello, and is made again. *)
Definition host_script : list (aerr + Message) :=
  [says_hello "hello1"; inl (Sentinel (SWire EOF)); says_hello "hello1"; says_adopted "adopted8"; says_hello "hello3"; says_adopted "adopted3"].

Definition host_run : aw host * outcome aerr (AdoptionResult * option aerr) :=
  Adopt host_codecs sample_dir host_dial (fun _ => []) host_opts (host_world host_script).

(** An unreaped tombstone beside the record of the same incarnation: the incarnation is in
    two buckets, and the slot is counted twice. *)
Lemma unproven_tombstone_counted_twice :
  match snd host_run with
  | Ok (r, None) =>
      map c_id (ar_Adopted r) = [Record_Identity (host_record (str "s1") 42); Record_Identity (host_record (str "s3") 42)] /\
      map (fun q => (q_SessionID q, q_ShimID q, q_ProcessEpoch q)) (ar_Quarantined r) = [(str "s3", str "shim", 1)] /\
      map c_conn (ar_Adopted r) = [1; 2]%nat /\ map r_SessionID (ar_Stale r) = [str "s2"] /\ OccupiedSlots r = 3
  | _ => False
  end.
Proof. vm_compute. by split_and!. Qed.
