(* ===== verification/AdoptProperties.v ===== *)
(** * AdoptProperties: a logic for the adoption pass

    [meets] says what a program of [ShimDial] and [Adopt] appends to the log, and that it
    leaves the registry files as they are.  With it: a dial sends at most one message, a
    Welcome, and only after the Hello of the shim its record describes ([welcomes]); it
    ends with a controller ([controls]) or with the connection closed ([closed]). *)

From stdpp Require Import gmap sets.
From S2P Require Import Prelude ShimWire ShimPayloads ShimControl GoSort ShimRecord Fence DaemonFence ProcIdentity Registry.
From S2P Require Import RegistryProperties ShimDial Adopt.

(** ** The logic *)

Section logic.
Context {E : Type}.

Definition meets {A} (m : AM E A) (w : aw E) (Q : list act -> aw E -> outcome aerr A -> Prop) : Prop :=
  let '(w', o) := m w in exists tr, aw_log w' = aw_log w ++ tr /\ files (aw_reg w') = files (aw_reg w) /\ Q tr w' o.

Lemma meets_weaken {A} (m : AM E A) w (Q1 Q2 : list act -> aw E -> outcome aerr A -> Prop) :
  meets m w Q1 -> (forall tr w' o, Q1 tr w' o -> Q2 tr w' o) -> meets m w Q2.
Proof. unfold meets. destruct (m w) as [w' o]. intros (tr & Hl & Hf & HQ) HW. exists tr. auto. Qed.

Lemma meets_bind {A B} (m : AM E A) (k : A -> AM E B) w Q :
  meets m w (fun tr w' o =>
    match o with
    | Ok a => meets (k a) w' (fun tr' w'' o' => Q (tr ++ tr') w'' o')
    | Err e => Q tr w' (Err e)
    | Panic => Q tr w' Panic
    end) ->
  meets (abind m k) w Q.
Proof.
  unfold meets, abind. destruct (m w) as [w1 [a|e|]]; intros (tr & Hl & Hf & HQ); [|by exists tr..].
  destruct (k a w1) as [w2 o]. destruct HQ as (tr' & Hl' & Hf' & HQ). exists (tr ++ tr'). split_and!; [|congruence|done].
  by rewrite Hl', Hl, app_assoc.
Qed.

Lemma meets_catch {A} (m : AM E A) (k : aerr -> AM E A) w Q :
  meets m w (fun tr w' o =>
    match o with
    | Err e => meets (k e) w' (fun tr' w'' o' => Q (tr ++ tr') w'' o')
    | o => Q tr w' o
    end) ->
  meets (acatch m k) w Q.
Proof.
  unfold meets, acatch. destruct (m w) as [w1 [a|e|]]; intros (tr & Hl & Hf & HQ); [by exists tr| |by exists tr].
  destruct (k e w1) as [w2 o]. destruct HQ as (tr' & Hl' & Hf' & HQ). exists (tr ++ tr'). split_and!; [|congruence|done].
  by rewrite Hl', Hl, app_assoc.
Qed.

Lemma meets_lift {A} (o : outcome aerr A) w (Q : list act -> aw E -> outcome aerr A -> Prop) : Q [] w o -> meets (alift o) w Q.
Proof. intros HQ. exists []. by rewrite app_nil_r. Qed.

Lemma meets_ret {A} (a : A) w (Q : list act -> aw E -> outcome aerr A -> Prop) : Q [] w (Ok a) -> meets (aret a) w Q.
Proof. apply meets_lift. Qed.

Lemma meets_error {A} e w (Q : list act -> aw E -> outcome aerr A -> Prop) : Q [] w (Err e) -> meets (aerror e) w Q.
Proof. apply meets_lift. Qed.

Lemma meets_guard o w (Q : list act -> aw E -> outcome aerr unit -> Prop) :
  (forall e, o = Some e -> Q [] w (Err e)) -> (o = None -> Q [] w (Ok tt)) -> meets (oguard o) w Q.
Proof. intros He Hn. destruct o; [apply meets_error; auto | apply meets_ret; auto]. Qed.

Lemma meets_call {A} (f : E -> E * A) entry w (Q : list act -> aw E -> outcome aerr A -> Prop) :
  (forall e a, f (aw_env w) = (e, a) ->
     Q (entry a) {| aw_reg := aw_reg w; aw_env := e; aw_retained := aw_retained w; aw_log := aw_log w ++ entry a |} (Ok a)) ->
  meets (acall f entry) w Q.
Proof. intros HQ. unfold meets, acall. destruct (f (aw_env w)) as [e a] eqn:Ef. exists (entry a). split_and!; auto. Qed.

Lemma meets_registry {A} (m : RM A) w (Q : list act -> aw E -> outcome aerr (outcome ShimErr A) -> Prop) :
  reads_only m ->
  (forall r o, m (aw_reg w) = (r, o) -> Q [] {| aw_reg := r; aw_env := aw_env w; aw_retained := aw_retained w; aw_log := aw_log w |} (Ok o)) ->
  meets (registry m) w Q.
Proof.
  intros Hr HQ. unfold meets, registry. pose proof (reads_files m (aw_reg w) Hr) as Hf. destruct (m (aw_reg w)) as [r o] eqn:Em.
  exists []. cbn. rewrite app_nil_r. auto.
Qed.

Lemma meets_retained w (Q : list act -> aw E -> outcome aerr (option (Generation * PreparedAdoption)) -> Prop) :
  Q [] w (Ok (aw_retained w)) -> meets retained w Q.
Proof. intros HQ. exists []. by rewrite app_nil_r. Qed.

Lemma meets_retain x w (Q : list act -> aw E -> outcome aerr unit -> Prop) :
  Q [] {| aw_reg := aw_reg w; aw_env := aw_env w; aw_retained := x; aw_log := aw_log w |} (Ok tt) -> meets (retain x) w Q.
Proof. intros HQ. exists []. by rewrite app_nil_r. Qed.
End logic.

(** Calls that log nothing, whatever they answer. *)
Ltac quiet_call := apply meets_call; intros ? ? _; cbn [app].
Ltac step := apply meets_bind.

(** ** The dial *)

(** The live peer is the shim of the record. *)
Record identifies (h : Hello) (rec : DiscoveryRecord) : Prop := {
  id_protocol : h_Protocol h = ProtocolName;
  id_session : h_OrgID h = r_OrgID rec /\ h_SessionID h = r_SessionID rec;
  id_shim : h_ShimID h = r_ShimID rec;
  id_process : Matches (hello_process h) (record_process rec) = true;
  id_phase : Phase_Known (h_Phase h) = true;
  id_workload : helloWorkload h = recordWorkload_of rec;
  id_workarea : r_WorkareaPath rec <> [] -> h_WorkareaPath h = r_WorkareaPath rec
}.

Lemma verifyHello_ok h rec ew er :
  verifyHello h rec ew er = None ->
  identifies h rec /\ (ew <> [] -> h_WorkareaPath h = ew) /\ verify_root h rec ew er = None.
Proof.
  unfold verifyHello. intros Hv.
  repeat (match type of Hv with (if ?b then _ else _) = None => destruct b eqn:?; [discriminate|] end).
  repeat match goal with
         | H : negb _ = false |- _ => apply negb_false_iff in H
         | H : _ || _ = false |- _ => apply orb_false_iff in H as [? ?]
         | H : bytes_eqb _ _ = true |- _ => apply bytes_eqb_eq in H
         end.
  assert (Hor : forall a b : bytes, negb (bytes_eqb a []) && negb (bytes_eqb (h_WorkareaPath h) b) = false -> a <> [] -> h_WorkareaPath h = b).
  { intros a b Hab Hne. apply andb_false_iff in Hab as [Hab|Hab]; by apply negb_false_iff, bytes_eqb_eq in Hab. }
  split_and!; [constructor; eauto|eauto|done].
Qed.

Definition is_prepare (a : act) : Prop := match a with APrepare _ => True | _ => False end.
Definition no_send (tr : list act) : Prop := Forall (fun a => match a with ASend _ _ _ _ => False | _ => True end) tr.

(** Every message sent is a Welcome, and it follows the Hello of a shim that [ok] admits
    on the connection just made to the socket of its record. *)
Definition welcomes (J : dialCodecs) (ok : DiscoveryRecord -> Hello -> Prop) (tr : list act) : Prop :=
  forall pre c t body err post, tr = pre ++ ASend c t body err :: post ->
  exists rec h wl pre1 timeout m preps,
    pre = pre1 ++ ADial (r_SocketPath rec) timeout (Some c) :: ARecv c (inr m) :: preps /\ Forall is_prepare preps /\
    m_Type m = Msg.TypeHello /\ DecodeHello (d_hello J) (d_cap J) (m_Body m) = Ok h /\ identifies h rec /\ ok rec h /\
    t = Msg.TypeWelcome /\ EncodeWelcome (d_welcome J) wl = Ok body /\ h_Generation h < wl_ProposedGeneration wl.

Lemma welcomes_quiet J ok tr : no_send tr -> welcomes J ok tr.
Proof.
  intros Hn pre c t body err post ->. apply Forall_app in Hn as [_ Hn]. by apply Forall_cons in Hn as [[] _].
Qed.


Lemma split_send (tr1 tr2 pre post : list act) a :
  tr1 ++ tr2 = pre ++ a :: post -> (exists post1, tr1 = pre ++ a :: post1) \/ (exists pre2, pre = tr1 ++ pre2 /\ tr2 = pre2 ++ a :: post).
Proof.
  revert pre. induction tr1 as [|x tr1 IH]; intros pre Eq; cbn in Eq; [right; by exists pre|].
  destruct pre as [|y pre]; cbn in Eq; injection Eq as -> Eq; [left; by exists tr1|].
  destruct (IH pre Eq) as [[post1 ->]|(pre2 & -> & ->)]; [left; by exists post1 | right; by exists pre2].
Qed.

Lemma welcomes_join J ok tr1 tr2 : welcomes J ok tr1 -> welcomes J ok tr2 -> welcomes J ok (tr1 ++ tr2).
Proof.
  intros H1 H2 pre c t body err post Eq. apply split_send in Eq as [[post1 Eq]|(pre2 & -> & Eq)]; [by apply (H1 _ _ _ _ _ _ Eq)|].
  destruct (H2 _ _ _ _ _ _ Eq) as (rec & h & wl & pre1 & timeout & m & preps & -> & H). exists rec, h, wl, (tr1 ++ pre1), timeout, m, preps.
  by rewrite <- app_assoc.
Qed.

Lemma welcomes_send J ok rec h wl c timeout m preps body err :
  Forall is_prepare preps -> m_Type m = Msg.TypeHello -> DecodeHello (d_hello J) (d_cap J) (m_Body m) = Ok h -> identifies h rec -> ok rec h ->
  EncodeWelcome (d_welcome J) wl = Ok body -> h_Generation h < wl_ProposedGeneration wl ->
  welcomes J ok (ADial (r_SocketPath rec) timeout (Some c) :: ARecv c (inr m) :: preps ++ [ASend c Msg.TypeWelcome body err]).
Proof.
  intros Hp Hm Hd Hi Hok Hw Hg pre c' t body' err' post Eq.
  assert (Hpre : pre = ADial (r_SocketPath rec) timeout (Some c) :: ARecv c (inr m) :: preps /\ ASend c Msg.TypeWelcome body err = ASend c' t body' err').
  { destruct pre as [|a pre]; [discriminate|]. injection Eq as <- Eq. destruct pre as [|a pre]; [discriminate|]. injection Eq as <- Eq.
    apply split_send in Eq as [[post1 ->]|(pre2 & -> & Eq)].
    - apply Forall_app in Hp as [_ Hp]. by apply Forall_cons in Hp as [[] _].
    - destruct pre2 as [|a pre2]; [injection Eq as -> -> -> -> _; by rewrite app_nil_r|]. injection Eq as _ Eq. by destruct pre2. }
  destruct Hpre as [-> [= <- <- <- <-]]. exists rec, h, wl, [], timeout, m, preps. split_and!; done.
Qed.

(** Nothing of another attempt. *)
Definition plain (tr : list act) : Prop := Forall (fun a => match a with ADial _ _ _ | AWait _ | AProc _ => False | _ => True end) tr.

(** Connections made and not closed. *)
Definition closed (tr : list act) : Prop := forall path timeout c, ADial path timeout (Some c) ∈ tr -> AClose c ∈ tr.

Lemma closed_quiet tr : Forall (fun a => match a with ADial _ _ (Some _) => False | _ => True end) tr -> closed tr.
Proof. intros Hq path timeout c Hin. by apply (proj1 (Forall_forall _ _) Hq) in Hin. Qed.

Lemma closed_app tr1 tr2 : closed tr1 -> closed tr2 -> closed (tr1 ++ tr2).
Proof. intros H1 H2 path timeout c Hin. apply elem_of_app. apply elem_of_app in Hin as [Hin|Hin]; eauto. Qed.

(** The exchange by which a controller took control of the shim of a record. *)
Record controls (J : dialCodecs) (rec : DiscoveryRecord) (c : Controller) (tr : list act) : Prop := {
  ct_valid : Record_Validate rec = Ok tt;
  ct_identity : c_id c = Record_Identity rec;
  ct_peer : identifies (c_hello c) rec;
  ct_version : h_Min (c_hello c) <= c_selected c <= h_Max (c_hello c);
  ct_generation : h_Generation (c_hello c) < c_gen c;
  ct_commit : ad_Generation (c_adopted c) = c_gen c;
  ct_trace : exists timeout m preps wl body m',
    tr = ADial (r_SocketPath rec) timeout (Some (c_conn c)) :: ARecv (c_conn c) (inr m) :: preps ++
         [ASend (c_conn c) Msg.TypeWelcome body None; ARecv (c_conn c) (inr m')] /\ Forall is_prepare preps /\
    m_Type m = Msg.TypeHello /\ DecodeHello (d_hello J) (d_cap J) (m_Body m) = Ok (c_hello c) /\
    EncodeWelcome (d_welcome J) wl = Ok body /\ wl_ProposedGeneration wl = c_gen c /\ wl_Selected wl = c_selected c /\
    wl_ResumeFrom wl = c_resumeFrom c /\
    m_Type m' = Msg.TypeAdopted /\ DecodeAdopted (d_adopted J) (m_Body m') = Ok (c_adopted c) /\
    d_marshal J (wl_Extensions wl) = d_marshal J (ad_Extensions (c_adopted c))
}.

Lemma Negotiate_range a b lo hi v : Negotiate a b lo hi = Ok v -> a <= v <= b /\ lo <= v <= hi.
Proof. unfold Negotiate. repeat case_match; intros Hv; simplify_eq; try discriminate; repeat (rewrite ?Z.ltb_lt, ?Z.ltb_ge in * ); lia. Qed.

Lemma of_wire_ok {A} (o : outcome error A) a : of_wire o = Ok a -> o = Ok a.
Proof. destruct o; cbn; congruence. Qed.

Lemma validateAdoptionCommit_ok marshal a g x :
  validateAdoptionCommit marshal a g x = None -> ad_Generation a = g /\ marshal x = marshal (ad_Extensions a).
Proof.
  unfold validateAdoptionCommit. destruct (negb (ad_Generation a =? g)) eqn:Eg; [done|]. apply negb_false_iff, Z.eqb_eq in Eg.
  destruct (marshal x) as [p|], (marshal (ad_Extensions a)) as [q|]; try done. destruct (bytes_eqb p q) eqn:Eq; [|done].
  by apply bytes_eqb_eq in Eq as ->.
Qed.

Section dial_spec.
Context {E : Type} `{AdoptEnv E} (J : dialCodecs) (prepare : AdoptionPreparation -> AM E PreparedAdoption).
Hypothesis prepare_quiet : forall ev w, meets (prepare ev) w (fun tr _ _ => Forall is_prepare tr).

(** The outcome of the second half of the handshake: nothing sent, or one Welcome. *)
Definition control_post (c : nat) (rec : DiscoveryRecord) (hello : Hello) (tr : list act) (o : outcome aerr Controller) : Prop :=
  match o with Ok _ => False | _ => Forall is_prepare tr end \/
  exists preps wl body err rest,
    tr = preps ++ ASend c Msg.TypeWelcome body err :: rest /\ Forall is_prepare preps /\
    EncodeWelcome (d_welcome J) wl = Ok body /\ h_Generation hello < wl_ProposedGeneration wl /\
    match o with
    | Ok k => err = None /\ c_conn k = c /\ c_id k = Record_Identity rec /\ c_hello k = hello /\
        h_Min hello <= c_selected k <= h_Max hello /\ wl_ProposedGeneration wl = c_gen k /\ wl_Selected wl = c_selected k /\
        wl_ResumeFrom wl = c_resumeFrom k /\ ad_Generation (c_adopted k) = c_gen k /\
        exists m', rest = [ARecv c (inr m')] /\ m_Type m' = Msg.TypeAdopted /\ DecodeAdopted (d_adopted J) (m_Body m') = Ok (c_adopted k) /\
          d_marshal J (wl_Extensions wl) = d_marshal J (ad_Extensions (c_adopted k))
    | _ => rest = [] \/ exists m', rest = [ARecv c m']
    end.

Lemma propose_quiet id opts hello selected local w :
  meets (propose prepare id opts hello selected local) w (fun tr _ _ => Forall is_prepare tr).
Proof.
  unfold propose. destruct (negb (co_prepares opts)); [by apply meets_ret|]. step. eapply meets_weaken; [apply prepare_quiet|].
  intros tr w' [p|e|] Hp; [|done|done]. step. apply meets_lift. destruct (ResolvePreparedAdoption _ _) as [r|e|]; cbn [app]; rewrite ?app_nil_r; [|done|done].
  apply meets_ret. by rewrite app_nil_r.
Qed.

Lemma commit_spec c rec opts hello selected p w :
  h_Min hello <= selected <= h_Max hello ->
  meets (commit J c rec opts hello selected p) w (fun tr _ o => control_post c rec hello tr o).
Proof.
  intros Hsel. unfold commit. destruct (_ && negb (pp_provided p)); [apply meets_error; by left|].
  set (proposed := if pp_generation p =? 0 then _ else _). destruct (proposed <=? h_Generation hello) eqn:Eg; [apply meets_error; by left|].
  apply Z.leb_gt in Eg. set (wl := {| wl_Protocol := ProtocolName |}). step. apply meets_lift.
  destruct (EncodeWelcome (d_welcome J) wl) as [body|e|] eqn:Ew; cbn [of_wire]; [|by left|by left]. cbn [app].
  step. apply meets_call. intros e sent _. step. apply meets_guard.
  { intros err ->. right. exists [], wl, body, (Some err), []. split_and!; try done. by left. }
  intros ->. cbn [app]. step. apply meets_call. intros e' m _.
  assert (Hfail : forall err' o, match o with Ok _ => False | _ => True end ->
            control_post c rec hello ([ASend c Msg.TypeWelcome body None] ++ [ARecv c err'] ++ []) o).
  { intros err' o Ho. right. exists [], wl, body, None, [ARecv c err']. split_and!; try done.
    destruct o; [done|right; by eexists..]. }
  destruct m as [err|reply]; [apply meets_error; by apply Hfail|].
  destruct (m_Type reply =? Msg.TypeError).
  { step. apply meets_lift. destruct (refusal_of J _ _) as [er|er|]; [|by apply (Hfail _ (Err er))|by apply (Hfail _ Panic)].
    apply meets_error. cbn [app]. by apply (Hfail _ (Err er)). }
  destruct (negb (m_Type reply =? Msg.TypeAdopted)) eqn:Et; [apply meets_error; by apply Hfail|]. apply negb_false_iff, Z.eqb_eq in Et.
  step. apply meets_lift. destruct (DecodeAdopted (d_adopted J) (m_Body reply)) as [a|er|] eqn:Ea; cbn [of_wire];
    [|by apply (Hfail _ (Err _))|by apply (Hfail _ Panic)]. cbn [app].
  step. apply meets_guard; [intros er _; by apply (Hfail _ (Err _))|]. intros Hv. apply validateAdoptionCommit_ok in Hv as [Hg Hx].
  apply meets_ret. cbn [app]. right. exists [], wl, body, None, [ARecv c (inr reply)]. cbn. split_and!; try (done || congruence || lia). by exists reply.
Qed.

Lemma control_prepend c rec hello ps tr o : Forall is_prepare ps -> control_post c rec hello tr o -> control_post c rec hello (ps ++ tr) o.
Proof.
  intros Hps [Hq|(preps & wl & body & err & rest & -> & Hp & Hrest)].
  - left. destruct o; [done|by apply Forall_app..].
  - right. exists (ps ++ preps), wl, body, err, rest. rewrite <- app_assoc. split; [done|]. split; [by apply Forall_app|done].
Qed.

Lemma take_control_spec c rec opts hello w :
  meets (take_control J prepare c rec opts hello) w (fun tr _ o => control_post c rec hello tr o).
Proof.
  unfold take_control. destruct (negb _); [apply meets_error; by left|].
  step. apply meets_lift. destruct (CheckRequired (h_Extensions hello)) as [u|e|]; cbn [of_wire]; [|by left|by left]. cbn [app].
  step. apply meets_lift. destruct (protocolRange opts) as [range|e|]; [|by left|by left]. cbn [app].
  step. apply meets_lift. destruct (Negotiate _ _ _ _) as [selected|e|] eqn:En; cbn [of_wire]; [|by left|by left].
  apply Negotiate_range in En as [Hsel _]. cbn [app].
  step. apply meets_guard; [intros e _; by left|]. intros _. cbn [app].
  step. eapply meets_weaken; [apply propose_quiet|]. intros tr w' [p|e|] Hp; [|by left|by left].
  eapply meets_weaken; [by apply commit_spec|]. intros tr' w'' o Ho. by apply control_prepend.
Qed.

Lemma read_hello_spec c rec opts w :
  meets (read_hello J c rec opts) w (fun tr _ o => exists m, tr = [ARecv c m] /\
    match o with
    | Ok h => exists msg, m = inr msg /\ m_Type msg = Msg.TypeHello /\ DecodeHello (d_hello J) (d_cap J) (m_Body msg) = Ok h /\
                verifyHello h rec (co_ExpectedWorkarea opts) (co_ExpectedWorkareaRoot opts) = None
    | _ => True
    end).
Proof.
  unfold read_hello. step. apply meets_call. intros e m _. destruct m as [err|msg]; [apply meets_error; eauto|].
  destruct (m_Type msg =? Msg.TypeError).
  { step. apply meets_lift. destruct (refusal_of J _ _) as [er|er|]; [apply meets_error|..]; eauto. }
  destruct (negb (m_Type msg =? Msg.TypeHello)) eqn:Et; [apply meets_error; eauto|]. apply negb_false_iff, Z.eqb_eq in Et.
  step. apply meets_lift. destruct (DecodeHello _ _ _) as [h|er|] eqn:Ed; cbn [of_wire]; [|eauto|eauto]. cbn [app].
  step. apply meets_guard; [intros er _; eauto|]. intros Hv. apply meets_ret. cbn [app]. exists (inr msg). split; [done|]. eauto 10.
Qed.

Lemma verifySocketIdentity_quiet rec w : meets (verifySocketIdentity rec) w (fun tr _ _ => tr = []).
Proof.
  unfold verifySocketIdentity. step. quiet_call. repeat case_match; try (by apply meets_error); try (by apply meets_ret).
  all: by apply meets_guard.
Qed.

(** What a dial of [rec] does. *)
Definition dial_post (rec : DiscoveryRecord) (opts : ControllerOptions) (tr : list act) (o : outcome aerr Controller) : Prop :=
  (tr = [] \/ exists r rest, tr = ADial (r_SocketPath rec) (dialTimeout opts) r :: rest /\
     plain rest) /\
  welcomes J (fun r h => r = rec /\ verifyHello h rec (co_ExpectedWorkarea opts) (co_ExpectedWorkareaRoot opts) = None) tr /\
  match o with Ok k => controls J rec k tr | Err _ => closed tr | Panic => True end.

Lemma dial_failed rec opts c rest err :
  no_send rest -> plain rest ->
  dial_post rec opts (ADial (r_SocketPath rec) (dialTimeout opts) (Some c) :: rest ++ [AClose c]) (Err err).
Proof.
  intros Hn Hr. split_and!.
  - right. exists (Some c), (rest ++ [AClose c]). split; [done|]. apply Forall_app. split; [done|by repeat constructor].
  - apply welcomes_quiet. constructor; [done|]. apply Forall_app. split; [done|by repeat constructor].
  - intros path timeout c' Hin. apply elem_of_cons in Hin as [[= _ _ ->]|Hin]; [right; apply elem_of_app; right; by left|].
    apply elem_of_app in Hin as [Hin|Hin]; [by apply (proj1 (Forall_forall _ _) Hr) in Hin|]. apply list_elem_of_singleton in Hin. discriminate.
Qed.

Lemma prepare_plain ps : Forall is_prepare ps -> plain ps /\ no_send ps.
Proof. intros Hp. split; eapply Forall_impl; [exact Hp | by intros [] | exact Hp | by intros []]. Qed.

(** After the Hello of [rec]'s shim, the second half of the handshake ends the dial. *)
Lemma dial_controlled rec opts c msg hello tr o :
  Record_Validate rec = Ok tt -> m_Type msg = Msg.TypeHello -> DecodeHello (d_hello J) (d_cap J) (m_Body msg) = Ok hello ->
  verifyHello hello rec (co_ExpectedWorkarea opts) (co_ExpectedWorkareaRoot opts) = None -> control_post c rec hello tr o ->
  dial_post rec opts (ADial (r_SocketPath rec) (dialTimeout opts) (Some c) :: ARecv c (inr msg) :: tr ++
                      match o with Err _ => [AClose c] | _ => [] end) o.
Proof.
  intros Hv Hm Hd Hvh [Hq|(preps & wl & body & err & rest & -> & Hp & Hw & Hg & Ho)].
  { destruct (prepare_plain tr ltac:(by destruct o)) as [H1 H2]. destruct o as [k|e|]; [done| |].
    - apply (dial_failed rec opts c (ARecv c (inr msg) :: tr)); by constructor.
    - rewrite app_nil_r. split_and!; [|apply welcomes_quiet; by repeat constructor|done]. right. eexists _, _. split; [done|]. by constructor. }
  destruct (prepare_plain preps Hp) as [Hp1 Hp2]. destruct (verifyHello_ok _ _ _ _ Hvh) as [Hi _].
  set (cl := match o with Err _ => [AClose c] | _ => [] end).
  assert (Hrest : plain (rest ++ cl) /\ no_send (rest ++ cl)).
  { assert (plain cl /\ no_send cl) by (subst cl; destruct o; split; by repeat constructor).
    assert (plain rest /\ no_send rest).
    { destruct o as [k|e|]; [destruct Ho as (? & ? & ? & ? & ? & ? & ? & ? & ? & m' & -> & _)|destruct Ho as [->|[m' ->]]..]; split; by repeat constructor. }
    split; apply Forall_app; naive_solver. }
  rewrite <- app_assoc. cbn [app]. split_and!.
  - right. eexists _, _. split; [done|]. constructor; [done|]. apply Forall_app. split; [done|]. constructor; [done|apply Hrest].
  - replace (_ :: _ :: preps ++ _ :: rest ++ cl) with
      ((ADial (r_SocketPath rec) (dialTimeout opts) (Some c) :: ARecv c (inr msg) :: preps ++ [ASend c Msg.TypeWelcome body err]) ++ rest ++ cl)
      by (cbn; by rewrite <- !app_assoc).
    apply welcomes_join; [by eapply welcomes_send | apply welcomes_quiet, Hrest].
  - destruct o as [k|e|]; [| |done].
    + destruct Ho as (-> & <- & Hid & <- & Hsel & Hpg & Hps & Hpr & Had & m' & -> & Hm' & Hda & Hx). split; try done; [lia|].
      exists (dialTimeout opts), msg, preps, wl, body, m'. subst cl. cbn. by split_and!.
    + intros path timeout c' Hin. apply elem_of_cons in Hin as [[= _ _ ->]|Hin].
      * do 2 right. apply elem_of_app. do 2 right. apply elem_of_app. right. by left.
      * assert (Hpl : plain (ARecv c (inr msg) :: preps ++ ASend c Msg.TypeWelcome body err :: rest ++ cl)).
        { constructor; [done|]. apply Forall_app. split; [done|]. constructor; [done|apply Hrest]. }
        by apply (proj1 (Forall_forall _ _) Hpl) in Hin.
Qed.

Lemma Dial_spec rec opts w : meets (Dial J prepare rec opts) w (fun tr _ o => dial_post rec opts tr o).
Proof.
  assert (Hnil : forall o, match o with Ok _ => False | _ => True end -> dial_post rec opts [] o).
  { intros o Ho. split_and!; [by left|apply welcomes_quiet; constructor|]. destruct o; [done|apply closed_quiet; constructor|done]. }
  unfold Dial. step. apply meets_lift. destruct (Record_Validate rec) as [[]|e|] eqn:Ev; cbn [of_shim]; [|by apply Hnil|by apply Hnil]. cbn [app].
  destruct (negb e_peerCred); [apply meets_error; by apply Hnil|].
  step. eapply meets_weaken; [apply verifySocketIdentity_quiet|]. intros tr w1 [u|e|] ->; [|by apply Hnil|by apply Hnil]. cbn [app].
  step. apply meets_call. intros e1 [err|c] _.
  { apply meets_error. cbn [app]. split_and!; [right; eexists _, _; split; [done|constructor]|apply welcomes_quiet; by repeat constructor|apply closed_quiet; by repeat constructor]. }
  apply meets_catch. step. apply meets_call. intros e2 uid _. cbn [app].
  assert (Hclose : forall rest err w', no_send rest -> plain rest ->
    meets (abind (close c) (fun _ => aerror err)) w'
      (fun tr _ o => dial_post rec opts (ADial (r_SocketPath rec) (dialTimeout opts) (Some c) :: rest ++ tr) o)).
  { intros rest err w' Hn Hpl. step. apply meets_call. intros e3 [] _. apply meets_error. cbn [app]. by apply dial_failed. }
  destruct uid as [err|uid]; [apply meets_error; apply (Hclose []); constructor|].
  destruct (negb (uid =? e_uid)); [apply meets_error; apply (Hclose []); constructor|].
  step. eapply meets_weaken; [apply read_hello_spec|]. intros tr w2 o (m & -> & Ho). destruct o as [hello|err|].
  - destruct Ho as (msg & -> & Hm & Hd & Hvh). apply meets_catch. eapply meets_weaken; [apply take_control_spec|].
    intros tr w3 o Hc. pose proof (dial_controlled _ _ _ _ _ _ _ Ev Hm Hd Hvh Hc) as Hdone.
    destruct o as [k|err|]; [by rewrite app_nil_r in Hdone| |by rewrite app_nil_r in Hdone].
    apply meets_error. rewrite app_nil_r. step. apply meets_call. intros e3 [] _. apply meets_error. rewrite app_nil_r. exact Hdone.
  - apply (Hclose [ARecv c m] err); by repeat constructor.
  - split_and!; [right; eexists _, _; split; [done|by repeat constructor]|apply welcomes_quiet; by repeat constructor|done].
Qed.
End dial_spec.

(** ** One record *)

Lemma welcomes_mono J (ok1 ok2 : DiscoveryRecord -> Hello -> Prop) tr :
  (forall rec h, ok1 rec h -> ok2 rec h) -> welcomes J ok1 tr -> welcomes J ok2 tr.
Proof.
  intros Hok Hw pre c t body err post Eq. destruct (Hw _ _ _ _ _ _ Eq) as (rec & h & wl & pre1 & timeout & m & preps & H).
  exists rec, h, wl, pre1, timeout, m, preps. naive_solver.
Qed.

Section record.
Context {E : Type} `{AdoptEnv E} (C : codecs) (dir : dirInfo) (J : dialCodecs) (render : detail -> bytes) (opts : AdoptOptions E).

Lemma prepare_adoption_quiet ev w : meets (prepare_adoption opts ev) w (fun tr _ _ => Forall is_prepare tr).
Proof.
  assert (Hcall : forall w, meets (call_prepare opts ev) w (fun tr _ _ => Forall is_prepare tr)).
  { intros w0. unfold call_prepare. destruct (ao_Prepare opts) as [f|]; [|by apply meets_error]. step. apply meets_call. intros e r _.
    destruct r; [apply meets_error|apply meets_ret]; by repeat constructor. }
  apply meets_catch, meets_bind, meets_retained. cbn [app].
  assert (Hfresh : forall w, meets (let& p := call_prepare opts ev in let& _ := retain (Some (ap_CurrentControllerGeneration ev, p)) in aret p) w
            (fun tr w' o => match o with Err e => meets (aerror (A := PreparedAdoption)
               (Errorf "%w for %s: %w" [VText (Identity_String (ap_Identity ev))] [Sentinel ErrAdoptionPreparation; e])) w'
               (fun tr' _ _ => Forall is_prepare (tr ++ tr')) | _ => Forall is_prepare tr end)).
  { intros w0. step. eapply meets_weaken; [apply Hcall|]. intros tr w1 [p|e|] Hp; [|apply meets_error; by rewrite app_nil_r|done].
    step. apply meets_retain. apply meets_ret. by rewrite !app_nil_r. }
  destruct (aw_retained w) as [[g p]|]; [|apply Hfresh]. destruct (_ =? g); [|apply Hfresh]. by apply meets_ret.
Qed.

Lemma reads_getDurableAck rec : reads_only (getDurableAck C dir rec).
Proof.
  apply changes_bind; [|intros _; apply changes_bind; [apply reads_readEntry|]; intros raw; apply changes_bind; [apply changes_lift|];
    intros a; case_match; [apply changes_err|apply changes_ret]].
  apply changes_bind; [apply changes_observe|]. intros _. repeat case_match; try apply changes_err.
  apply changes_bind; [apply changes_observe|]. intros fs. repeat case_match; try apply changes_err. apply changes_ret.
Qed.

(** An attempt, or all the attempts, to take control of the shim of a record. *)
Definition attempt_post (rec : DiscoveryRecord) (tr : list act) (o : outcome aerr Controller) : Prop :=
  welcomes J (fun r _ => r = rec) tr /\
  match o with
  | Ok k => exists tr0 tr1, tr = tr0 ++ tr1 /\ closed tr0 /\ controls J rec k tr1
  | Err _ => closed tr
  | Panic => True
  end.

Lemma attempt_quiet rec (o : outcome aerr Controller) : match o with Ok _ => False | _ => True end -> attempt_post rec [] o.
Proof. intros Ho. split; [apply welcomes_quiet; constructor|]. destruct o; [done|apply closed_quiet; constructor|done]. Qed.

Lemma ack_floor_quiet rec selected w : meets (E := E) (ack_floor C dir rec selected) w (fun tr _ _ => tr = []).
Proof.
  unfold ack_floor. destruct (selected <? V3); [by apply meets_ret|]. step. apply meets_registry; [apply reads_getDurableAck|]. intros r o _. cbn [app].
  repeat case_match; first [by apply meets_ret | by apply meets_error | by apply meets_lift].
Qed.

Lemma resume_point_quiet id selected local w : meets (resume_point opts id selected local) w (fun tr _ _ => tr = []).
Proof.
  unfold resume_point. destruct (ao_ResumeFrom opts); [|by apply meets_ret]. step. quiet_call.
  case_match; [by apply meets_error|by apply meets_ret].
Qed.

Lemma expected_layout_quiet id w : meets (expected_layout opts id) w (fun tr _ _ => tr = []).
Proof.
  unfold expected_layout. destruct (ao_ExpectedWorkareaLayout opts); [|by quiet_call]. step. quiet_call.
  case_match; [by apply meets_error|by apply meets_ret].
Qed.

(** One attempt: it dials at most once. *)
Lemma dialForAdoption_spec rec timeout w :
  meets (dialForAdoption C dir J rec opts timeout) w (fun tr _ o => attempt_post rec tr o /\
    (tr = [] \/ exists d r rest, tr = ADial (r_SocketPath rec) d r :: rest /\ plain rest /\ (d = timeout \/ timeout <= 0 /\ d = 5 * Second))).
Proof.
  assert (Hq : forall o, match o with Ok _ => False | _ => True end -> attempt_post rec [] o /\
    (([] : list act) = [] \/ exists d r rest, [] = ADial (r_SocketPath rec) d r :: rest /\ plain rest /\ (d = timeout \/ timeout <= 0 /\ d = 5 * Second))).
  { intros o Ho. split; [by apply attempt_quiet|by left]. }
  unfold dialForAdoption. step. apply meets_lift. destruct (protocolRange _) as [range|e|]; [|by apply Hq|by apply Hq]. cbn [app].
  step. apply meets_lift. destruct (Negotiate _ _ _ _) as [selected|e|]; cbn [of_wire]; [|by apply Hq|by apply Hq]. cbn [app].
  step. eapply meets_weaken; [apply ack_floor_quiet|]. intros tr w1 [floor|e|] ->; [|by apply Hq|by apply Hq]. cbn [app].
  step. eapply meets_weaken; [apply resume_point_quiet|]. intros tr w2 [resume|e|] ->; [|by apply Hq|by apply Hq]. cbn [app].
  step. eapply meets_weaken; [apply expected_layout_quiet|]. intros tr w3 [layout|e|] ->; [|by apply Hq|by apply Hq]. cbn [app].
  eapply meets_weaken; [apply Dial_spec; apply prepare_adoption_quiet|]. intros tr w4 o (Hshape & Hw & Ho). split; [split|].
  - eapply welcomes_mono; [|exact Hw]. by intros r h [-> _].
  - destruct o as [k|e|]; [|done|done]. exists [], tr. split_and!; try done. apply closed_quiet. constructor.
  - destruct Hshape as [->|(r & rest & -> & Hp)]; [by left|right]. eexists _, r, rest. split_and!; [done|done|].
    unfold dialTimeout. cbn. destruct (0 <? timeout) eqn:Et; [by left|right]. apply Z.ltb_ge in Et. lia.
Qed.

Lemma attempt_app rec tr1 e tr2 o : attempt_post rec tr1 (Err e) -> attempt_post rec tr2 o -> attempt_post rec (tr1 ++ tr2) o.
Proof.
  intros [Hw1 Hc1] [Hw2 Hc2]. split; [by apply welcomes_join|]. destruct o as [k|e'|]; [|by apply closed_app|done].
  destruct Hc2 as (t0 & t1 & -> & Hc0 & Hk). exists (tr1 ++ t0), t1. split_and!; [by rewrite app_assoc|by apply closed_app|done].
Qed.

Lemma dial_attempts_spec rec left attempt last w tr0 :
  attempt_post rec tr0 last ->
  meets (dial_attempts C dir J rec opts left attempt last) w (fun tr _ o => attempt_post rec (tr0 ++ tr) o).
Proof.
  revert attempt last w tr0. induction left as [|left IH]; intros attempt last w tr0 Hlast; cbn [dial_attempts].
  { apply meets_lift. by rewrite app_nil_r. }
  destruct last as [k|err|]; [apply meets_lift; by rewrite app_nil_r| |apply meets_lift; by rewrite app_nil_r].
  destruct (_ || Is err ErrAdoptionPreparation); [apply meets_error; by rewrite app_nil_r|].
  step. apply meets_call. intros e passed _.
  assert (Hwait : attempt_post rec (tr0 ++ [AWait (adoptionDelay attempt)]) (Err err)).
  { eapply attempt_app; [exact Hlast|]. split; [apply welcomes_quiet|apply closed_quiet]; by repeat constructor. }
  destruct (negb passed); [apply meets_error; by rewrite app_nil_r|].
  set (w0 := {| aw_reg := _ |}). unfold meets.
  pose proof (dialForAdoption_spec rec (adoptionAttemptDialTimeout (ao_DialTimeout opts) attempt) w0) as Hd. unfold meets in Hd.
  destruct (dialForAdoption C dir J rec opts _ w0) as [w1 o]. destruct Hd as (tr & Hl & Hf & Hpost & _).
  pose proof (IH (S attempt) o w1 ((tr0 ++ [AWait (adoptionDelay attempt)]) ++ tr) (attempt_app _ _ _ _ _ Hwait Hpost)) as Hrest. unfold meets in Hrest.
  destruct (dial_attempts C dir J rec opts left (S attempt) o w1) as [w2 o2]. destruct Hrest as (tr' & Hl' & Hf' & Ho2).
  exists (tr ++ tr'). split_and!; [by rewrite Hl', Hl, app_assoc|congruence|]. by rewrite !app_assoc in *.
Qed.

Lemma dialForAdoptionWithRetry_spec rec w :
  meets (dialForAdoptionWithRetry C dir J rec opts) w (fun tr _ o => attempt_post rec tr o).
Proof.
  unfold dialForAdoptionWithRetry. step. apply meets_retain. set (w0 := {| aw_reg := _ |}). cbn [app]. unfold meets.
  pose proof (dialForAdoption_spec rec (adoptionAttemptDialTimeout (ao_DialTimeout opts) 1) w0) as Hd. unfold meets in Hd.
  destruct (dialForAdoption C dir J rec opts _ w0) as [w1 o]. destruct Hd as (tr & Hl & Hf & Hpost & _).
  pose proof (dial_attempts_spec rec (adoptionDialAttempts - 1) 2 o w1 tr Hpost) as Hrest. unfold meets in Hrest.
  destruct (dial_attempts _ _ _ _ _ _ _ o w1) as [w2 o2]. destruct Hrest as (tr' & Hl' & Hf' & Ho2).
  exists (tr ++ tr'). split_and!; [by rewrite Hl', Hl, app_assoc|congruence|done].
Qed.
End record.
