(* ===== verification/Adoption.v ===== *)
(** * Adoption: what the adoption pass guarantees ([src/sessionshim/adopt.go])

    Every entry of the registry is accounted for in one bucket, with the evidence for it
    in the log; authority is proposed only to a verified shim and no connection is lost;
    the attempts for one record are bounded, and a preparation that was answered is
    asked for again only when the shim's generation has moved. *)

From stdpp Require Import gmap sets.
From S2P Require Import Prelude ShimWire ShimPayloads ShimControl GoSort ShimRecord Fence DaemonFence ProcIdentity Registry.
From S2P Require Import RegistryProperties ShimDial Adopt AdoptDemo AdoptProperties.

(** ** Where an entry can end *)

Inductive bucket := InAdopted (c : Controller) | InQuarantined (q : QuarantinedSession) | InStale (rec : DiscoveryRecord) | Covered.

Definition adopted_of (bs : list bucket) : list Controller := omap (fun b => match b with InAdopted c => Some c | _ => None end) bs.
Definition quarantined_of (bs : list bucket) : list QuarantinedSession := omap (fun b => match b with InQuarantined q => Some q | _ => None end) bs.
Definition stale_of (bs : list bucket) : list DiscoveryRecord := omap (fun b => match b with InStale r => Some r | _ => None end) bs.

Section spec.
Context {E : Type} (J : dialCodecs) (render : detail -> bytes) (opts : AdoptOptions E) (entries : list ScanEntry) (tombs : list Tombstone).

(** The pass looks at it. *)
Definition kept_tombstone (t : Tombstone) : bool := negb (filtered_out opts (Tombstone_Identity t)).
Definition kept_entry (e : ScanEntry) : bool :=
  match se_Record e with
  | Ok rec => negb (filtered_out opts (Record_Identity rec))
  | _ => match ao_Filter opts with Some _ => false | None => true end
  end.

(** A tombstone that proves the end of exactly this incarnation. *)
Definition proves_end (rec : DiscoveryRecord) (t : Tombstone) : bool :=
  kept_tombstone t && t_GroupReaped t && bool_decide (terminalIncarnationForTombstone t = terminalIncarnationForRecord rec).
Definition ended (rec : DiscoveryRecord) : bool := existsb (proves_end rec) tombs.

(** The records that claim an identity and did not end. *)
Definition claimants (id : Identity) : list ScanEntry :=
  List.filter (fun e => match se_Record e with Ok rec => negb (ended rec) && bool_decide (Record_Identity rec = id) | _ => false end) entries.

(** A quarantine entry that names the incarnation of a record and holds its slot. *)
Definition holds (q : QuarantinedSession) (rec : DiscoveryRecord) : Prop :=
  q_OrgID q = r_OrgID rec /\ q_SessionID q = r_SessionID rec /\ q_ShimID q = r_ShimID rec /\ q_ProcessEpoch q = r_ProcessEpoch rec /\
  q_ConsumesCapacity q = true /\ QuarantineReason_Known (q_Reason q) = true.

(** The one record that claims its identity and did not end. *)
Definition candidate (rec : DiscoveryRecord) : Prop :=
  (exists name, {| se_Name := name; se_Record := Ok rec |} ∈ entries) /\ ended rec = false /\ blen (claimants (Record_Identity rec)) <= 1.

(** Why an entry is in its bucket, and what the pass did for it. *)
Inductive accounts : ScanEntry -> bucket -> list act -> Prop :=
| accounts_malformed name err :
    accounts {| se_Name := name; se_Record := Err err |} (InQuarantined (malformed_session render name err)) []
| accounts_ended name rec :
    ended rec = true -> accounts {| se_Name := name; se_Record := Ok rec |} Covered []
| accounts_duplicate name rec q :
    ended rec = false -> 1 < blen (claimants (Record_Identity rec)) -> holds q rec -> q_Reason q = QuarantineDuplicateIdentity ->
    accounts {| se_Name := name; se_Record := Ok rec |} (InQuarantined q) []
| accounts_unverifiable name rec q pr err :
    ended rec = false -> blen (claimants (Record_Identity rec)) <= 1 -> Alive pr (record_process rec) = Err err -> holds q rec ->
    accounts {| se_Name := name; se_Record := Ok rec |} (InQuarantined q) [AProc pr]
| accounts_stale name rec pr :
    ended rec = false -> blen (claimants (Record_Identity rec)) <= 1 -> Alive pr (record_process rec) = Ok false ->
    accounts {| se_Name := name; se_Record := Ok rec |} (InStale rec) [AProc pr]
| accounts_refused name rec q pr tr :
    ended rec = false -> blen (claimants (Record_Identity rec)) <= 1 -> Alive pr (record_process rec) = Ok true -> holds q rec -> closed tr ->
    accounts {| se_Name := name; se_Record := Ok rec |} (InQuarantined q) (AProc pr :: tr)
| accounts_adopted name rec c pr tr0 tr1 :
    ended rec = false -> blen (claimants (Record_Identity rec)) <= 1 -> Alive pr (record_process rec) = Ok true ->
    closed tr0 -> controls J rec c tr1 ->
    accounts {| se_Name := name; se_Record := Ok rec |} (InAdopted c) (AProc pr :: tr0 ++ tr1).
End spec.

(** ** The tombstones *)

Section pass.
Context {E : Type} `{AdoptEnv E} (C : codecs) (dir : dirInfo) (J : dialCodecs) (render : detail -> bytes) (opts : AdoptOptions E).

Lemma tombstone_pass_spec ts m r m' r' :
  tombstone_pass opts ts m r = (m', r') ->
  (forall k, is_Some (m' !! k) <-> is_Some (m !! k) \/
     exists t, t ∈ ts /\ kept_tombstone opts t = true /\ t_GroupReaped t = true /\ terminalIncarnationForTombstone t = k) /\
  ar_Adopted r' = ar_Adopted r /\ ar_Stale r' = ar_Stale r /\
  ar_Tombstoned r' = ar_Tombstoned r ++ List.filter (fun t => kept_tombstone opts t && t_GroupReaped t) ts /\
  ar_Quarantined r' = ar_Quarantined r ++ map unproven_session (List.filter (fun t => kept_tombstone opts t && negb (t_GroupReaped t)) ts).
Proof.
  unfold kept_tombstone. revert m r. induction ts as [|t ts IH]; intros m r Hp; cbn [tombstone_pass] in Hp.
  { injection Hp as <- <-. cbn. rewrite !app_nil_r. split_and!; try done. intros k. split; [by left|]. intros [Hk|(t & Ht & _)]; [done|]. by apply elem_of_nil in Ht. }
  destruct (filtered_out opts (Tombstone_Identity t)) eqn:Ef; cbn [List.filter]; rewrite Ef; cbn [negb andb].
  - destruct (IH _ _ Hp) as (Hm & Hrest). split; [|done]. intros k. rewrite Hm. setoid_rewrite elem_of_cons. split; [naive_solver|].
    intros [Hk|(t' & [->|Ht'] & Hkeep & Hrest')]; [by left| |right; eauto 10]. by rewrite Ef in Hkeep.
  - destruct (t_GroupReaped t) eqn:Er; cbn [negb].
    + destruct (IH _ _ Hp) as (Hm & Ha & Hs & Ht & Hq). cbn in *. rewrite Ht, <- app_assoc. split_and!; try done. intros k. rewrite Hm. setoid_rewrite elem_of_cons.
      destruct (decide (terminalIncarnationForTombstone t = k)) as [<-|Hne].
      * rewrite lookup_insert_eq. split; [intros _; right; exists t; split_and!; auto; by rewrite Ef|by left].
      * rewrite lookup_insert_ne by done. split; [naive_solver|]. intros [Hk|(t' & [->|Ht'] & Hrest')]; [by left|naive_solver|right; eauto 10].
    + destruct (IH _ _ Hp) as (Hm & Ha & Hs & Ht & Hq). cbn in *. rewrite Hq, <- app_assoc. split_and!; try done. intros k. rewrite Hm. setoid_rewrite elem_of_cons.
      split; [naive_solver|]. intros [Hk|(t' & [->|Ht'] & Hkeep & Hr & Hk)]; [by left|congruence|right; eauto 10].
Qed.

Context (entries : list ScanEntry) (tombs : list Tombstone) (reaped : gmap incarnation Tombstone).
Hypothesis reaped_exact : forall k, is_Some (reaped !! k) <->
  exists t, t ∈ tombs /\ kept_tombstone opts t = true /\ t_GroupReaped t = true /\ terminalIncarnationForTombstone t = k.

Lemma ended_lookup rec : match reaped !! terminalIncarnationForRecord rec with Some _ => true | None => false end = ended opts tombs rec.
Proof.
  pose proof (reaped_exact (terminalIncarnationForRecord rec)) as Hx. apply eq_true_iff_eq. unfold ended. rewrite existsb_exists. unfold proves_end.
  setoid_rewrite andb_true_iff. setoid_rewrite andb_true_iff. setoid_rewrite bool_decide_eq_true. setoid_rewrite <- list_elem_of_In.
  destruct (reaped !! terminalIncarnationForRecord rec) as [t0|].
  - split; [intros _|done]. destruct (proj1 Hx ltac:(by eexists)) as (t & Ht & H1 & H2 & H3). by exists t.
  - split; [done|]. intros (t & Ht & (H1 & H2) & H3). destruct (proj2 Hx) as [? ?]; [by exists t|done].
Qed.

Lemma seen_claimants id : seen_count entries reaped id = blen (claimants opts entries tombs id).
Proof.
  unfold seen_count, claimants. f_equal. induction entries as [|e es IH]; cbn; [done|]. rewrite IH. clear IH. destruct (se_Record e) as [rec|err|]; [|done|done].
  rewrite <- ended_lookup. by destruct (reaped !! terminalIncarnationForRecord rec).
Qed.

(** Every reason the pass gives is of the closed set. *)
Lemma classify_known err : QuarantineReason_Known (classifyAdoptionFailure err) = true.
Proof. unfold classifyAdoptionFailure. repeat case_match; done. Qed.

Lemma holds_new rec reason d now : QuarantineReason_Known reason = true -> holds (NewQuarantinedSession rec reason d now) rec.
Proof. intros Hk. by split_and!. Qed.

Lemma holds_failed rec reason err now : QuarantineReason_Known reason = true -> holds (quarantine_failed render rec reason err now) rec.
Proof. intros Hk. unfold quarantine_failed. destruct (authenticatedHelloGeneration err); by split_and!. Qed.

Notation accounts := (accounts J render opts entries tombs).

(** One record that did not end. *)
Definition record_post (name : bytes) (rec : DiscoveryRecord) (r : AdoptionResult) (tr : list act) (o : outcome aerr (AdoptionResult + aerr)) : Prop :=
  welcomes J (fun r' _ => candidate opts entries tombs r') tr /\
  match o with
  | Ok (inl r') => exists b, accounts {| se_Name := name; se_Record := Ok rec |} b tr /\
      r' = match b with InAdopted c => add_adopted c r | InQuarantined q => add_quarantined q r | InStale s => add_stale s r | Covered => r end
  | Ok (inr err) => Is err ErrAdoptionPreparation = true /\ closed tr
  | _ => True
  end.

Lemma adopt_record_spec name rec r w :
  {| se_Name := name; se_Record := Ok rec |} ∈ entries -> ended opts tombs rec = false ->
  meets (adopt_record C dir J render opts (seen_count entries reaped (Record_Identity rec)) rec r) w (fun tr _ o => record_post name rec r tr o).
Proof.
  intros Hin Hend. rewrite seen_claimants. unfold adopt_record. destruct (1 <? blen (claimants opts entries tombs (Record_Identity rec))) eqn:Ec.
  { apply Z.ltb_lt in Ec. apply meets_ret. split; [apply welcomes_quiet; constructor|]. eexists (InQuarantined _). split; [|done]. by apply accounts_duplicate; try apply holds_new. }
  apply Z.ltb_ge in Ec. step. apply meets_call. intros e pr _. cbn [app].
  assert (Hquiet : welcomes J (fun r' _ => candidate opts entries tombs r') [AProc pr]) by (apply welcomes_quiet; by repeat constructor).
  destruct (Alive pr (record_process rec)) as [[]|err|] eqn:Ea.
  2: { apply meets_ret. split; [done|]. exists (InStale rec). split; [|done]. by apply accounts_stale. }
  2: { apply meets_ret. split; [done|]. eexists (InQuarantined _). split; [|done]. by eapply accounts_unverifiable; try apply holds_new. }
  2: { by apply meets_lift. }
  assert (Hrefuse : forall q, holds q rec -> accounts {| se_Name := name; se_Record := Ok rec |} (InQuarantined q) [AProc pr]).
  { intros q Hq. apply accounts_refused; try done. apply closed_quiet. constructor. }
  destruct (negb (Phase_Known (r_Phase rec))); [apply meets_ret; split; [done|]; eexists (InQuarantined _); split; [|done]; by apply Hrefuse, holds_new|].
  destruct (Negotiate _ _ _ _) as [v|err|]; [|apply meets_ret; split; [done|]; eexists (InQuarantined _); split; [|done]; by apply Hrefuse, holds_new|by apply meets_lift].
  set (w0 := {| aw_reg := _ |}). pose proof (dialForAdoptionWithRetry_spec C dir J opts rec w0) as Hd. unfold meets in *.
  destruct (dialForAdoptionWithRetry C dir J rec opts w0) as [w1 o]. destruct Hd as (tr & Hl & Hf & Hw & Ho).
  assert (Hw' : welcomes J (fun r' _ => candidate opts entries tombs r') ([AProc pr] ++ tr)).
  { apply welcomes_join; [done|]. eapply welcomes_mono; [|exact Hw]. intros r' _ ->. split_and!; eauto. }
  destruct o as [c|err|]; (exists tr; split_and!; [done|done|]); (split; [done|]); [| |done].
  - destruct Ho as (tr0 & tr1 & -> & Hc & Hk). exists (InAdopted c). split; [|done]. by apply accounts_adopted.
  - destruct (Is err ErrAdoptionPreparation) eqn:Ep; cbn [andb].
    + destruct (negb _); [split; [done|]; by apply (closed_app [AProc pr]); [apply closed_quiet; repeat constructor|]|].
      eexists (InQuarantined _). split; [|done]. apply accounts_refused; try done. by apply holds_failed.
    + eexists (InQuarantined _). split; [|done]. apply accounts_refused; try done. apply holds_failed, classify_known.
Qed.

(** The whole scan. *)
Definition pass_post (es : list ScanEntry) (r : AdoptionResult) (tr : list act) (o : outcome aerr (AdoptionResult * option aerr)) : Prop :=
  welcomes J (fun r' _ => candidate opts entries tombs r') tr /\
  match o with
  | Ok (r', None) => exists bts : list (bucket * list act),
      Forall2 (fun e bt => accounts e (fst bt) (snd bt)) (List.filter (kept_entry opts) es) bts /\ tr = concat (map snd bts) /\
      ar_Adopted r' = ar_Adopted r ++ adopted_of (map fst bts) /\ ar_Quarantined r' = ar_Quarantined r ++ quarantined_of (map fst bts) /\
      ar_Stale r' = ar_Stale r ++ stale_of (map fst bts) /\ ar_Tombstoned r' = ar_Tombstoned r
  | Ok (r', Some err) => Is err ErrAdoptionPreparation = true /\ closed tr /\ forall c, c ∈ ar_Adopted r \/ c ∈ ar_Adopted r' -> AClose (c_conn c) ∈ tr
  | _ => True
  end.

Lemma close_all_spec cs w : meets (close_all cs) w (fun tr _ o => o = Ok tt /\ tr = map (fun c => AClose (c_conn c)) cs).
Proof.
  revert w. induction cs as [|c cs IH]; intros w; cbn [close_all]; [by apply meets_ret|]. step. apply meets_call. intros e [] _.
  eapply meets_weaken; [apply IH|]. by intros tr w' o [-> ->].
Qed.

(** What the connections of an accounted entry came to. *)
Lemma accounts_connections e b tr : accounts e b tr ->
  forall path timeout c, ADial path timeout (Some c) ∈ tr -> AClose c ∈ tr \/ exists k, b = InAdopted k /\ c_conn k = c.
Proof.
  intros [] path timeout c0 Hin; try (by apply elem_of_nil in Hin); try (by apply list_elem_of_singleton in Hin).
  - apply elem_of_cons in Hin as [[=]|Hin]. left. right. eauto.
  - apply elem_of_cons in Hin as [[=]|Hin]. apply elem_of_app in Hin as [Hin|Hin]; [left; right; apply elem_of_app; left; eauto|].
    right. exists c. split; [done|]. match goal with H : controls _ _ _ _ |- _ => destruct (ct_trace _ _ _ _ H) as (t & m & preps & wl & body & m' & -> & Hp & _) end.
    apply elem_of_cons in Hin as [[=]|Hin]; [done|]. apply elem_of_cons in Hin as [[=]|Hin]. apply elem_of_app in Hin as [Hin|Hin].
    + by apply (proj1 (Forall_forall _ _) Hp) in Hin.
    + apply elem_of_cons in Hin as [[=]|Hin]. by apply list_elem_of_singleton in Hin.
Qed.

Lemma pass_cons es r b seg r1 tr o e :
  kept_entry opts e = true -> accounts e b seg -> welcomes J (fun r' _ => candidate opts entries tombs r') seg ->
  r1 = match b with InAdopted c => add_adopted c r | InQuarantined q => add_quarantined q r | InStale s => add_stale s r | Covered => r end ->
  pass_post es r1 tr o -> pass_post (e :: es) r (seg ++ tr) o.
Proof.
  intros Hk Ha Hw -> [Hw' Ho]. split; [by apply welcomes_join|]. destruct o as [[r' [err|]]|er|]; [| |done|done].
  - destruct Ho as (Hp & Hc & Hcl). split_and!; [done| |].
    + intros path timeout c Hin. apply elem_of_app in Hin as [Hin|Hin]; [|apply elem_of_app; right; eauto].
      destruct (accounts_connections _ _ _ Ha _ _ _ Hin) as [Hcl'|(k & -> & <-)]; [apply elem_of_app; by left|].
      apply elem_of_app. right. apply Hcl. left. cbn. apply elem_of_app. right. by left.
    + intros c Hin. apply elem_of_app. right. apply Hcl. destruct Hin as [Hin|Hin]; [left|by right]. destruct b; cbn; try done. apply elem_of_app. by left.
  - destruct Ho as (bts & Hf & -> & Ha' & Hq & Hs & Ht). exists ((b, seg) :: bts). cbn [List.filter]. rewrite Hk. split_and!; [by constructor|done|..].
    all: destruct b; cbn in *; by rewrite ?Ha', ?Hq, ?Hs, ?Ht, <- ?app_assoc.
Qed.

Lemma pass_skip es r tr o e : kept_entry opts e = false -> pass_post es r tr o -> pass_post (e :: es) r tr o.
Proof. intros Hk [Hw Ho]. split; [done|]. destruct o as [[r' [err|]]|er|]; try done. cbn [List.filter]. by rewrite Hk. Qed.

Lemma entry_pass_spec es r w :
  (forall e, e ∈ es -> e ∈ entries) ->
  meets (entry_pass C dir J render opts entries reaped es r) w (fun tr _ o => pass_post es r tr o).
Proof.
  revert r w. induction es as [|e es IH]; intros r w Hsub; cbn [entry_pass].
  { apply meets_ret. split; [apply welcomes_quiet; constructor|]. exists []. cbn. rewrite !app_nil_r. by split_and!. }
  assert (IH' : forall r w, meets (entry_pass C dir J render opts entries reaped es r) w (fun tr _ o => pass_post es r tr o)).
  { intros. apply IH. intros e' He'. apply Hsub. by right. }
  destruct e as [name [rec|err|]]; cbn [se_Record se_Name]; [| |by apply meets_lift; split; [apply welcomes_quiet; constructor|]].
  - destruct (filtered_out opts (Record_Identity rec)) eqn:Ef.
    { eapply meets_weaken; [apply IH'|]. intros tr w' o. apply pass_skip. unfold kept_entry. cbn. by rewrite Ef. }
    assert (Hk : kept_entry opts {| se_Name := name; se_Record := Ok rec |} = true) by (unfold kept_entry; cbn; by rewrite Ef).
    pose proof (ended_lookup rec) as Hend. destruct (reaped !! terminalIncarnationForRecord rec) as [t|].
    + eapply meets_weaken; [apply IH'|]. intros tr w' o Ho. eapply (pass_cons es r Covered [] r); try done; [by constructor|apply welcomes_quiet; constructor].
    + step. eapply meets_weaken; [apply (adopt_record_spec name); [apply Hsub; by left|done]|]. intros seg w1 [[r1|err]|er|] [Hw Hr].
      * destruct Hr as (b & Hb & ->). eapply meets_weaken; [apply IH'|]. intros tr w' o Ho. by eapply pass_cons.
      * destruct Hr as [Hp Hc]. step. eapply meets_weaken; [apply close_all_spec|]. intros tr w2 o [-> ->]. apply meets_ret. rewrite app_nil_r.
        split; [apply welcomes_join; [done|]; apply welcomes_quiet; apply Forall_fmap, Forall_true; done|]. split_and!; [done| |].
        -- apply closed_app; [done|]. apply closed_quiet, Forall_fmap, Forall_true. done.
        -- intros c Hin. apply elem_of_app. right. apply list_elem_of_fmap. exists c. split; [done|]. by destruct Hin.
      * by split.
      * by split.
  - destruct (ao_Filter opts) as [f|] eqn:Ef.
    + eapply meets_weaken; [apply IH'|]. intros tr w' o. apply pass_skip. unfold kept_entry. cbn. by rewrite Ef.
    + eapply meets_weaken; [apply IH'|]. intros tr w' o Ho.
      eapply (pass_cons es r (InQuarantined (malformed_session render name err)) []); try done; [unfold kept_entry; cbn; by rewrite Ef|constructor|apply welcomes_quiet; constructor].
Qed.
End pass.

(** ** The pass as a whole *)

Section theorems.
Context {E : Type} `{AdoptEnv E} (C : codecs) (dir : dirInfo) (J : dialCodecs) (render : detail -> bytes) (opts : AdoptOptions E).

Lemma Adopt_pass w w' r eo :
  Adopt C dir J render opts w = (w', Ok (r, eo)) ->
  exists tr, aw_log w' = aw_log w ++ tr /\ files (aw_reg w') = files (aw_reg w) /\
  ((tr = [] /\ is_Some eo /\ r = no_result) \/
   exists reg1 entries reg2 tombs reaped r0 r1,
     Scan C dir (aw_reg w) = (reg1, Ok entries) /\ ScanTombstones C dir reg1 = (reg2, Ok tombs) /\
     tombstone_pass opts tombs ∅ no_result = (reaped, r0) /\ pass_post J render opts entries tombs entries r0 tr (Ok (r1, eo)) /\
     r = match eo with Some _ => r1 | None => sortResult r1 end).
Proof.
  intros Hrun.
  cut (meets (Adopt C dir J render opts) w (fun tr _ o => forall r eo, o = Ok (r, eo) -> (tr = [] /\ is_Some eo /\ r = no_result) \/
   exists reg1 entries reg2 tombs reaped r0 r1,
     Scan C dir (aw_reg w) = (reg1, Ok entries) /\ ScanTombstones C dir reg1 = (reg2, Ok tombs) /\
     tombstone_pass opts tombs ∅ no_result = (reaped, r0) /\ pass_post J render opts entries tombs entries r0 tr (Ok (r1, eo)) /\
     r = match eo with Some _ => r1 | None => sortResult r1 end)).
  { unfold meets. rewrite Hrun. intros (tr & Hl & Hf & HQ). exists tr. split_and!; try done. by apply HQ. }
  clear Hrun. unfold Adopt. destruct (negb e_peerCred); [apply meets_ret; intros ? ? [= <- <-]; by left|].
  step. apply meets_registry; [apply reads_Scan|]. intros reg1 [entries|err|] Hscan; cbn [app]; [|apply meets_ret; intros ? ? [= <- <-]; by left|by apply meets_lift].
  step. apply meets_registry.
  { unfold ScanTombstones. apply changes_bind; [apply reads_tombstoneEntries|]. intros es. apply changes_ret. }
  cbn [aw_reg]. intros reg2 [tombs|err|] Htomb; cbn [app]; [|apply meets_ret; intros ? ? [= <- <-]; by left|by apply meets_lift].
  destruct (tombstone_pass opts tombs ∅ no_result) as [reaped r0] eqn:Ht. step.
  destruct (tombstone_pass_spec _ _ _ _ _ _ Ht) as (Hreaped & _).
  eapply meets_weaken; [apply (entry_pass_spec C dir J render opts entries tombs reaped); [|done]|].
  { intros k. rewrite Hreaped, lookup_empty. split; [intros [[? [=]]|Hk]|right]; done. }
  intros tr w1 [[r1 [err|]]|er|] Hp; [| |by intros|by intros]; cbn [snd fst].
  - apply meets_ret. intros ? ? [= <- <-]. right. rewrite app_nil_r. by exists reg1, entries, reg2, tombs, reaped, r0, r1.
  - apply meets_ret. intros ? ? [= <- <-]. right. rewrite app_nil_r. by exists reg1, entries, reg2, tombs, reaped, r0, r1.
Qed.


(** C9. Authority only after verification.  Whatever the shims, the operating system and
    the callbacks do, everything the pass sends is a Welcome, on a connection just made
    to the socket of the only live record of its identity, after the Hello of exactly
    that shim, and proposes a generation above the one the Hello reports; and every
    connection the pass makes is closed again or belongs to a controller it returns,
    with none left when it returns an error. *)
Theorem authority_verified w w' r eo :
  Adopt C dir J render opts w = (w', Ok (r, eo)) ->
  exists tr, aw_log w' = aw_log w ++ tr /\
    welcomes J (fun rec _ => exists reg1 entries reg2 tombs, Scan C dir (aw_reg w) = (reg1, Ok entries) /\
                  ScanTombstones C dir reg1 = (reg2, Ok tombs) /\ candidate opts entries tombs rec) tr /\
    (forall path timeout c, ADial path timeout (Some c) ∈ tr -> AClose c ∈ tr \/ (eo = None /\ exists k, k ∈ ar_Adopted r /\ c_conn k = c)) /\
    (eo <> None -> forall k, k ∈ ar_Adopted r -> AClose (c_conn k) ∈ tr).
Proof.
  intros Hrun. destruct (Adopt_pass _ _ _ _ Hrun) as (tr & Hl & _ & [(-> & [err ->] & ->)|(reg1 & entries & reg2 & tombs & reaped & r0 & r1 & Hs & Ht & Htp & [Hw Hp] & ->)]).
  { exists []. split_and!; [done|apply welcomes_quiet; constructor|..]; [intros ? ? ? Hin; by apply elem_of_nil in Hin|intros _ k Hin; by apply elem_of_nil in Hin]. }
  exists tr. split_and!; [done|eapply welcomes_mono; [|exact Hw]; intros rec ? Hc; by exists reg1, entries, reg2, tombs|..].
  - intros path timeout c Hin. destruct eo as [err|]; [left; destruct Hp as (_ & Hc & _); eauto|].
    destruct Hp as (bts & Hacc & -> & Ha & _). destruct (tombstone_pass_spec _ _ _ _ _ _ Htp) as (_ & Ha0 & _). cbn in Ha0.
    apply list_elem_of_In, in_concat in Hin as (seg & Hseg & Hin). apply list_elem_of_In in Hseg, Hin. apply list_elem_of_fmap in Hseg as ([b seg'] & -> & Hbt).
    apply list_elem_of_lookup in Hbt as [i Hi]. destruct (Forall2_lookup_r _ _ _ _ _ Hacc Hi) as (e & _ & He). cbn in *.
    destruct (accounts_connections _ _ _ _ _ _ _ _ He _ _ _ Hin) as [Hcl|(k & -> & <-)].
    + left. apply list_elem_of_In, in_concat. exists seg'. split; [|by apply list_elem_of_In]. apply list_elem_of_In, list_elem_of_fmap. exists (b, seg').
      split; [done|]. apply list_elem_of_lookup. eauto.
    + right. split; [done|]. exists k. split; [|done]. rewrite sort_Slice_permutation, Ha, Ha0. cbn. apply list_elem_of_omap. exists (InAdopted k).
      split; [|done]. apply list_elem_of_fmap. exists (InAdopted k, seg'). split; [done|]. apply list_elem_of_lookup. eauto.
  - intros He k Hin. destruct eo as [err|]; [|done]. destruct Hp as (_ & _ & Hc). auto.
Qed.
End theorems.

(** ** A run *)


(** In it the first connection, which ended after its Hello, was closed. *)
Lemma authority_verified_witness :
  exists w' r, host_run = (w', Ok (r, None)) /\
  exists tr, aw_log w' = tr /\ ADial (str "/run/s1") (5 * Second) (Some 0%nat) ∈ tr /\ ~ (exists k, k ∈ ar_Adopted r /\ c_conn k = 0%nat) /\ AClose 0 ∈ tr.
Proof.
  assert (Hrun : match host_run with
                 | (w, Ok (r, None)) => map c_conn (ar_Adopted r) = [1; 2]%nat /\ nth_error (aw_log w) 1 = Some (ADial (str "/run/s1") (5 * Second) (Some 0%nat))
                 | _ => False end) by (vm_compute; by split).
  destruct host_run as [w' [[r [err|]]|err|]] eqn:E; [destruct Hrun| |destruct Hrun|destruct Hrun]. destruct Hrun as [Ha Hd]. exists w', r.
  split; [reflexivity|]. exists (aw_log w').
  assert (Hin : ADial (str "/run/s1") (5 * Second) (Some 0%nat) ∈ aw_log w') by (apply list_elem_of_In; by eapply nth_error_In).
  assert (Hno : ~ exists k, k ∈ ar_Adopted r /\ c_conn k = 0%nat).
  { intros (k & Hk & Hc). assert (Hk' : c_conn k ∈ map c_conn (ar_Adopted r)) by (apply list_elem_of_fmap; eauto). rewrite Ha, Hc in Hk'. apply list_elem_of_In in Hk' as [F|[F|[]]]; discriminate F. }
  split; [reflexivity|]. split; [exact Hin|]. split; [exact Hno|].
  destruct (authority_verified host_codecs sample_dir host_dial (fun _ => []) host_opts _ _ _ _ E) as (tr & Hl & _ & Hconn & _).
  cbn [aw_log host_world app] in Hl. rewrite Hl in *. destruct (Hconn _ _ _ Hin) as [Hc|[_ Hk]]; [exact Hc|destruct (Hno Hk)].
Defined.
