(* ===== verification/AdoptRetry.v ===== *)
(** * AdoptRetry: the attempts for one record ([dialForAdoptionWithRetry] of
    [src/sessionshim/adopt.go])

    A record gets at most three dials within a bounded time, and the embedder is asked
    to prepare an adoption again only when the shim's generation has moved since its
    last answer: a retry replays the reservation it has. *)

From stdpp Require Import gmap.
From S2P Require Import Prelude ShimWire ShimPayloads ShimControl GoSort ShimRecord Fence DaemonFence ProcIdentity Registry.
From S2P Require Import RegistryProperties ShimDial Adopt AdoptDemo AdoptProperties.

Definition prepares (tr : list act) : list AdoptionPreparation := omap (fun a => match a with APrepare ev => Some ev | _ => None end) tr.
Definition floors (tr : list act) : list Generation := map ap_CurrentControllerGeneration (prepares tr).

Lemma prepares_app tr1 tr2 : prepares (tr1 ++ tr2) = prepares tr1 ++ prepares tr2.
Proof. apply omap_app. Qed.

(** ** Programs that do not prepare *)

Section silent.
Context {E : Type}.

Definition silent {A} (m : AM E A) : Prop := forall w, meets m w (fun tr w' _ => prepares tr = [] /\ aw_retained w' = aw_retained w).

Lemma silent_bind {A B} (m : AM E A) (k : A -> AM E B) : silent m -> (forall a, silent (k a)) -> silent (abind m k).
Proof.
  intros Hm Hk w. apply meets_bind. eapply meets_weaken; [apply Hm|]. intros tr w' o [Hp Hr]. destruct o as [a|e|]; [|done|done].
  eapply meets_weaken; [apply Hk|]. intros tr' w'' o' [Hp' Hr']. rewrite prepares_app, Hp, Hp'. split; [done|congruence].
Qed.

Lemma silent_lift {A} (o : outcome aerr A) : silent (alift o).
Proof. intros w. by apply meets_lift. Qed.
Lemma silent_ret {A} (a : A) : silent (aret a).
Proof. apply (silent_lift (Ok a)). Qed.
Lemma silent_error {A} e : silent (aerror (A := A) e).
Proof. apply (silent_lift (Err e)). Qed.
Lemma silent_guard o : silent (oguard o).
Proof. destruct o; [apply silent_error|apply silent_ret]. Qed.
Lemma silent_call {A} (f : E -> E * A) entry : (forall a, prepares (entry a) = []) -> silent (acall f entry).
Proof. intros He w. apply meets_call. intros e a _. by rewrite He. Qed.
Lemma silent_registry {A} (m : RM A) : reads_only m -> silent (registry m).
Proof. intros Hr w. apply meets_registry; [done|]. by intros. Qed.

(** An attempt to prepare: from the retained answer [x] to [y], with outcome [o]. *)
Definition prep_post {A} (x : option (Generation * PreparedAdoption)) (tr : list act) (y : option (Generation * PreparedAdoption)) (o : outcome aerr A) : Prop :=
  (prepares tr = [] /\ y = x) \/
  exists g, floors tr = [g] /\ option_map fst x <> Some g /\
    (option_map fst y = Some g \/ match o with Err e => Is e ErrAdoptionPreparation = true | Panic => True | Ok _ => False end).

Definition prep_ok {A} (m : AM E A) : Prop := forall w, meets m w (fun tr w' o => prep_post (aw_retained w) tr (aw_retained w') o).

Lemma prep_silent {A} (m : AM E A) : silent m -> prep_ok m.
Proof. intros Hm w. eapply meets_weaken; [apply Hm|]. intros tr w' o [Hp Hr]. by left. Qed.

Lemma prep_bind_l {A B} (m : AM E A) (k : A -> AM E B) : silent m -> (forall a, prep_ok (k a)) -> prep_ok (abind m k).
Proof.
  intros Hm Hk w. apply meets_bind. eapply meets_weaken; [apply Hm|]. intros tr w' o [Hp Hr]. destruct o as [a|e|]; [|by left|by left].
  eapply meets_weaken; [apply Hk|]. intros tr' w'' o' Hpost. rewrite Hr in Hpost. unfold prep_post, floors in *. by rewrite prepares_app, Hp.
Qed.

Lemma prep_bind_r {A B} (m : AM E A) (k : A -> AM E B) : prep_ok m -> (forall a, silent (k a)) -> prep_ok (abind m k).
Proof.
  intros Hm Hk w. apply meets_bind. eapply meets_weaken; [apply Hm|]. intros tr w' o Hpost. destruct o as [a|e|]; [| |].
  - eapply meets_weaken; [apply Hk|]. intros tr' w'' o' [Hp' Hr']. unfold prep_post, floors in *. rewrite prepares_app, Hp', app_nil_r, Hr'.
    destruct Hpost as [Hq|(g & Hf & Hx & [Hy|[]])]; [by left|right; exists g; auto].
  - destruct Hpost as [Hq|(g & Hf & Hx & Hy)]; [by left|right; by exists g].
  - destruct Hpost as [Hq|(g & Hf & Hx & Hy)]; [by left|right; by exists g].
Qed.

(** A handler that keeps the mark of a preparation failure. *)
Definition keeps_mark {A} (k : aerr -> AM E A) : Prop := forall e w,
  meets (k e) w (fun tr w' o => prepares tr = [] /\ aw_retained w' = aw_retained w /\
    exists e', o = Err e' /\ (Is e ErrAdoptionPreparation = true -> Is e' ErrAdoptionPreparation = true)).

Lemma prep_catch {A} (m : AM E A) (k : aerr -> AM E A) : prep_ok m -> keeps_mark k -> prep_ok (acatch m k).
Proof.
  intros Hm Hk w. apply meets_catch. eapply meets_weaken; [apply Hm|]. intros tr w' o Hpost. destruct o as [a|e|]; [done| |done].
  eapply meets_weaken; [apply Hk|]. intros tr' w'' o' (Hp' & Hr' & e' & -> & He). unfold prep_post, floors in *. rewrite prepares_app, Hp', app_nil_r, Hr'.
  destruct Hpost as [Hq|(g & Hf & Hx & [Hy|Hy])]; [by left|right; exists g; auto..].
Qed.
End silent.

Create HintDb silent.
#[local] Hint Resolve silent_bind silent_lift silent_ret silent_error silent_guard silent_call silent_registry : silent.
Ltac silent := repeat first [apply silent_ret | apply silent_error | apply silent_lift | apply silent_guard | (apply silent_call; by intros [])
                            | (apply silent_call; by intros) | (apply silent_bind; [|intros ?]) | case_match].

(** ** A dial prepares at most once *)

Section dial.
Context {E : Type} `{AdoptEnv E} (C : codecs) (dir : dirInfo) (J : dialCodecs) (opts : AdoptOptions E).

Lemma prepare_adoption_prep ev : prep_ok (prepare_adoption opts ev).
Proof.
  intros w. unfold prepare_adoption, prepare_retained. apply meets_catch, meets_bind, meets_retained. cbn [app].
  set (g := ap_CurrentControllerGeneration ev).
  set (fresh := abind (call_prepare opts ev) _).
  assert (Hfresh : option_map fst (aw_retained w) <> Some g -> meets fresh w (fun tr w' o =>
    match o with
    | Err e => meets (aerror (Errorf "%w for %s: %w" [VText (Identity_String (ap_Identity ev))] [Sentinel ErrAdoptionPreparation; e])) w'
                 (fun tr' w'' (o' : outcome aerr PreparedAdoption) => prep_post (aw_retained w) (tr ++ tr') (aw_retained w'') o')
    | o => prep_post (aw_retained w) tr (aw_retained w') o
    end)).
  { intros Hne. subst fresh. unfold call_prepare. destruct (ao_Prepare opts) as [f|]; [|apply meets_bind, meets_error, meets_error; by left].
    apply meets_bind, meets_bind, meets_call. intros e r _. destruct r as [err|p].
    - apply meets_error, meets_error. right. exists g. split_and!; [done|done|by right].
    - apply meets_ret, meets_bind, meets_retain, meets_ret. right. exists g. split_and!; [done|done|by left]. }
  destruct (aw_retained w) as [[g' p]|] eqn:Er; [|apply Hfresh; done].
  destruct (g =? g') eqn:Eg; [apply meets_ret; left; by rewrite Er|]. apply Z.eqb_neq in Eg. apply Hfresh. cbn. congruence.
Qed.

Lemma Dial_prep rec copts : prep_ok (Dial J (prepare_adoption opts) rec copts).
Proof.
  unfold Dial. apply prep_bind_l; [silent|]. intros _. destruct (negb e_peerCred); [apply prep_silent; silent|].
  apply prep_bind_l; [unfold verifySocketIdentity, stat; silent|]. intros _. apply prep_bind_l; [unfold dial_unix; silent|]. intros raw.
  destruct raw as [err|c]; [apply prep_silent; silent|]. apply prep_catch.
  2: { intros e w. apply meets_bind, meets_call. intros e1 [] _. apply meets_error. cbn. split_and!; try done. by exists e. }
  apply prep_bind_l; [unfold peer_uid; silent|]. intros uid. destruct uid as [err|uid]; [apply prep_silent; silent|].
  destruct (negb (uid =? e_uid)); [apply prep_silent; silent|]. apply prep_bind_l; [unfold read_hello, recv; silent|]. intros hello. apply prep_catch.
  2: { intros e w. apply meets_error. split_and!; try done. by eexists. }
  unfold take_control. destruct (negb _); [apply prep_silent; silent|]. apply prep_bind_l; [silent|]. intros _. apply prep_bind_l; [silent|]. intros range.
  apply prep_bind_l; [silent|]. intros selected. apply prep_bind_l; [silent|]. intros _. apply prep_bind_r.
  - unfold propose. destruct (negb (co_prepares copts)); [apply prep_silent; silent|]. apply prep_bind_r; [apply prepare_adoption_prep|]. intros p. silent.
  - intros p. unfold commit, send, recv. silent.
Qed.

Lemma dialForAdoption_prep rec timeout : prep_ok (dialForAdoption C dir J rec opts timeout).
Proof.
  unfold dialForAdoption. apply prep_bind_l; [silent|]. intros range. apply prep_bind_l; [silent|]. intros selected.
  apply prep_bind_l; [unfold ack_floor; destruct (selected <? V3); [silent|]; apply silent_bind; [apply silent_registry, reads_getDurableAck|intros; silent]|].
  intros floor. apply prep_bind_l; [unfold resume_point, observe_env; silent|]. intros resume.
  apply prep_bind_l; [unfold expected_layout, observe_env; silent|]. intros layout. apply Dial_prep.
Qed.

(** ** All the attempts *)

(** Each generation differs from the one before it. *)
Fixpoint alternates (prev : option Generation) (l : list Generation) : Prop :=
  match l with [] => True | g :: l' => prev <> Some g /\ alternates (Some g) l' end.

(** The time the attempts of a log can take: the deadlines of the dials and the delays. *)
Definition act_time (a : act) : Z := match a with ADial _ d _ => d | AWait d => d | _ => 0 end.
Definition time_of (tr : list act) : Z := foldr (fun a t => act_time a + t) 0 tr.
Definition dials (tr : list act) : nat := length (List.filter (fun a => match a with ADial _ _ _ => true | _ => false end) tr).

Lemma time_of_app tr1 tr2 : time_of (tr1 ++ tr2) = time_of tr1 + time_of tr2.
Proof. unfold time_of. induction tr1 as [|a tr1 IH]; simpl; [done|]. rewrite IH. lia. Qed.

Lemma dials_app tr1 tr2 : dials (tr1 ++ tr2) = (dials tr1 + dials tr2)%nat.
Proof. unfold dials. by rewrite List.filter_app, length_app. Qed.

Lemma plain_cost tr : plain tr -> dials tr = 0%nat /\ time_of tr = 0.
Proof. induction 1 as [|a tr Ha _ [IH1 IH2]]; [done|]. destruct a; by try destruct Ha. Qed.

(** What one attempt costs. *)
Lemma attempt_cost rec timeout w :
  meets (dialForAdoption C dir J rec opts timeout) w (fun tr w' o =>
    (dials tr <= 1)%nat /\ time_of tr <= (if 0 <? timeout then timeout else 5 * Second) /\ prep_post (aw_retained w) tr (aw_retained w') o).
Proof.
  pose proof (dialForAdoption_spec C dir J opts rec timeout w) as Hs. pose proof (dialForAdoption_prep rec timeout w) as Hp. unfold meets in *.
  destruct (dialForAdoption C dir J rec opts timeout w) as [w' o]. destruct Hs as (tr & Hl & Hf & _ & Hs), Hp as (tr' & Hl' & _ & Hp).
  rewrite Hl in Hl'. apply app_inv_head in Hl' as <-. exists tr. split_and!; try done.
  - destruct Hs as [->|(d & r & rest & -> & Hpl & _)]; [unfold dials; simpl; lia|]. destruct (plain_cost _ Hpl) as [Hd _].
    change (S (dials rest) <= 1)%nat. lia.
  - assert (Hpos : 0 <= if 0 <? timeout then timeout else 5 * Second) by (unfold Second; case_match; rewrite ?Z.ltb_lt in *; lia).
    destruct Hs as [->|(d & r & rest & -> & Hpl & Hd)]; [exact Hpos|]. destruct (plain_cost _ Hpl) as [_ Ht].
    change (d + time_of rest <= if 0 <? timeout then timeout else 5 * Second). rewrite Ht.
    destruct (0 <? timeout) eqn:Et; rewrite ?Z.ltb_lt, ?Z.ltb_ge in Et; lia.
Qed.

Lemma retry_timeout configured attempt :
  (2 <= attempt)%nat ->
  let d := adoptionAttemptDialTimeout configured attempt in (if 0 <? d then d else 5 * Second) <= adoptionRetryDialTimeout.
Proof.
  intros Ha. unfold adoptionAttemptDialTimeout, adoptionRetryDialTimeout, Second. destruct (attempt <=? 1)%nat eqn:E1; [apply Nat.leb_le in E1; lia|].
  destruct ((0 <? configured) && (configured <? 2 * 1000000000)) eqn:E2; cbv zeta; [|done].
  apply andb_prop in E2 as [E2 E3]. rewrite E2. apply Z.ltb_lt in E3. lia.
Qed.

Fixpoint retry_budget (left attempt : nat) : Z :=
  match left with O => 0 | S left' => adoptionDelay attempt + adoptionRetryDialTimeout + retry_budget left' (S attempt) end.

Lemma alternates_step x tr y (o : outcome aerr Controller) tr' :
  prep_post x tr y o -> alternates (option_map fst y) (floors tr') ->
  match o with Err e => Is e ErrAdoptionPreparation = true -> tr' = [] | _ => tr' = [] end ->
  alternates (option_map fst x) (floors (tr ++ tr')).
Proof.
  unfold floors. rewrite prepares_app, map_app. intros [[-> ->]|(g & Hf & Hx & Hy)] Ha Hend; [done|]. unfold floors in Hf. rewrite Hf. cbn. split; [done|].
  destruct Hy as [Hy|Ho]; [by rewrite Hy in Ha|]. assert (tr' = []) as -> by (destruct o; auto). done.
Qed.

Lemma dial_attempts_cost rec left attempt last w :
  (2 <= attempt)%nat ->
  meets (dial_attempts C dir J rec opts left attempt last) w (fun tr _ _ =>
    (dials tr <= left)%nat /\ time_of tr <= retry_budget left attempt /\ alternates (option_map fst (aw_retained w)) (floors tr) /\
    match last with Err e => Is e ErrAdoptionPreparation = true -> tr = [] | _ => tr = [] end).
Proof.
  revert attempt last w. induction left as [|left IH]; intros attempt last w Ha; cbn [dial_attempts retry_budget].
  { apply meets_lift. split_and!; [done|done|done|by destruct last]. }
  assert (Hb : 0 <= adoptionDelay attempt /\ 0 <= retry_budget left (S attempt)).
  { assert (Hd : forall a, 0 <= adoptionDelay a) by (intros a; unfold adoptionDelay, adoptionDialBackoff, Millisecond; pose proof (Z.pow_nonneg 2 (Z.of_nat (a - 2))); nia).
    split; [done|]. generalize (S attempt). clear -Hd. induction left as [|l IHl]; intros a; cbn; [lia|]. pose proof (Hd a). pose proof (IHl (S a)). unfold adoptionRetryDialTimeout, Second. lia. }
  assert (Hq : forall tr : list act, tr = [] -> (dials tr <= S left)%nat /\ time_of tr <= adoptionDelay attempt + adoptionRetryDialTimeout + retry_budget left (S attempt) /\
                 alternates (option_map fst (aw_retained w)) (floors tr)).
  { intros tr ->. split_and!; [unfold dials; simpl; lia| |done]. change (0 <= adoptionDelay attempt + adoptionRetryDialTimeout + retry_budget left (S attempt)).
    unfold adoptionRetryDialTimeout, Second. lia. }
  destruct (Hq [] eq_refl) as (Hq1 & Hq2 & Hq3).
  destruct last as [k|err|]; [apply meets_lift; by split_and!| |apply meets_lift; by split_and!].
  destruct (_ || Is err ErrAdoptionPreparation) eqn:Estop; [apply meets_error; by split_and!|]. apply orb_false_iff in Estop as [_ Eprep].
  step. apply meets_call. intros e passed _. destruct (negb passed).
  { apply meets_error. split_and!; [unfold dials; simpl; lia| |done|congruence].
    change (adoptionDelay attempt + 0 <= adoptionDelay attempt + adoptionRetryDialTimeout + retry_budget left (S attempt)). unfold adoptionRetryDialTimeout, Second. lia. }
  set (w0 := {| aw_reg := _ |}). unfold meets.
  pose proof (attempt_cost rec (adoptionAttemptDialTimeout (ao_DialTimeout opts) attempt) w0) as Hd. unfold meets in Hd.
  destruct (dialForAdoption C dir J rec opts _ w0) as [w1 o]. destruct Hd as (tr & Hl & Hf & Hdials & Htime & Hprep). cbn [aw_retained] in Hprep.
  pose proof (IH (S attempt) o w1 ltac:(lia)) as Hrest. unfold meets in Hrest.
  destruct (dial_attempts C dir J rec opts left (S attempt) o w1) as [w2 o2]. destruct Hrest as (tr' & Hl' & Hf' & Hdials' & Htime' & Halt & Hend).
  exists (tr ++ tr'). split_and!; [by rewrite Hl', Hl, app_assoc|congruence|..].
  - change (dials (tr ++ tr') <= S left)%nat. rewrite dials_app. lia.
  - change (adoptionDelay attempt + time_of (tr ++ tr') <= adoptionDelay attempt + adoptionRetryDialTimeout + retry_budget left (S attempt)).
    rewrite time_of_app. pose proof (retry_timeout (ao_DialTimeout opts) attempt Ha) as Hto. cbv zeta in Hto. lia.
  - change (alternates (option_map fst (aw_retained w)) (floors (tr ++ tr'))). by eapply alternates_step.
  - congruence.
Qed.

(** C38. Retries are bounded and replay the reservation.  For one record the pass dials at
    most three times, the dial deadlines and delays add up to at most the configured
    timeout (five seconds by default) and 4.3 seconds, and whatever the shim and the
    embedder answer, the preparation callback is called again only when the Hello
    reports another generation than the one it was last called with. *)
Theorem adoption_retries_bounded rec w w' o :
  dialForAdoptionWithRetry C dir J rec opts w = (w', o) ->
  exists tr, aw_log w' = aw_log w ++ tr /\ (dials tr <= 3)%nat /\
    time_of tr <= (if 0 <? ao_DialTimeout opts then ao_DialTimeout opts else 5 * Second) + 4300 * Millisecond /\
    alternates None (floors tr).
Proof.
  unfold dialForAdoptionWithRetry, abind, retain. set (w0 := {| aw_reg := _ |}).
  pose proof (attempt_cost rec (adoptionAttemptDialTimeout (ao_DialTimeout opts) 1) w0) as Hd. unfold meets in Hd.
  destruct (dialForAdoption C dir J rec opts _ w0) as [w1 o1]. destruct Hd as (tr & Hl & _ & Hdials & Htime & Hprep). intros Hrun.
  pose proof (dial_attempts_cost rec (adoptionDialAttempts - 1) 2 o1 w1 ltac:(lia)) as Hrest. unfold meets in Hrest. rewrite Hrun in Hrest.
  destruct Hrest as (tr' & Hl' & _ & Hdials' & Htime' & Halt & Hend). exists (tr ++ tr'). split_and!; [by rewrite Hl', Hl, app_assoc|..].
  - rewrite dials_app. cbn in Hdials'. lia.
  - rewrite time_of_app. change (retry_budget (adoptionDialAttempts - 1) 2) with (4300 * Millisecond) in Htime'. cbn in Htime. lia.
  - change (None : option Generation) with (option_map fst (aw_retained w0)). by eapply alternates_step.
Qed.
End dial.

(** Two dials of a shim whose first connection ends after its Hello: one preparation. *)
Lemma adoption_retries_bounded_witness :
  exists w' c, dialForAdoptionWithRetry host_codecs sample_dir host_dial (host_record (str "s1") 42) host_opts (host_world host_script) = (w', Ok c) /\
  dials (aw_log w') = 2%nat /\ floors (aw_log w') = [7] /\ time_of (aw_log w') <= 9300 * Millisecond.
Proof.
  assert (Hrun : match dialForAdoptionWithRetry host_codecs sample_dir host_dial (host_record (str "s1") 42) host_opts (host_world host_script) with
                 | (w, Ok _) => dials (aw_log w) = 2%nat /\ floors (aw_log w) = [7] | _ => False end) by (vm_compute; split; reflexivity).
  destruct (dialForAdoptionWithRetry host_codecs sample_dir host_dial (host_record (str "s1") 42) host_opts (host_world host_script)) as [w' o] eqn:E.
  destruct o as [c|err|]; [|destruct Hrun..]. destruct Hrun as [Hd Hf]. exists w', c. split; [reflexivity|]. split; [exact Hd|]. split; [exact Hf|].
  destruct (adoption_retries_bounded host_codecs sample_dir host_dial host_opts _ _ _ _ E) as (tr & Hl & _ & Ht & _).
  cbn [aw_log host_world app] in Hl. rewrite Hl. exact Ht.
Defined.
