(* ===== verification/ShimResume.v ===== *)
(** * ShimResume: where an adopting controller continues
    ([resume] of [src/sessionshim/shim.go], on [src/ptyhost/session.go])

    A controller that adopts a session says which sequence number it still needs.
    The shim answers with the frames from there on when its ring has them, and
    otherwise with the range that is lost, a snapshot, and the frames that follow
    it.  The calls on the session are atomic; [env] is what the other goroutines
    (output, markers, other subscribers, the exit) do between them. *)

From stdpp Require Import gmap relations.
From S2P Require Import Prelude Varint Reader Frame Payloads Utf8 Snapshot Ring FlowGate PtySession.
From S2P Require Import ShimWire ShimPayloads ShimControl SnapshotBound.

(** The zero [Extensions]: the handshake fills in those of the Welcome. *)
Definition no_extensions : Extensions := {| Values := ∅; Required := [] |}.

Record SnapshotMsg := { sm_AtSeq : Z; sm_Screen : bytes }.

(** What [resume] returns beside an error: the subscription is its index, [None]
    for the nil subscription. *)
Record resumption := {
  r_adopted : Adopted;
  r_sub : option nat;
  r_gap : option GapMsg;
  r_snap : option SnapshotMsg;
  r_rawSnapshot : option Frame
}.

(** [RWaits]: the call of [EmitSnapshot] waits for the output barrier. *)
Inductive ResumeError :=
| RSubscribe (e : SessionError)
| RAhead
| REmit (e : SessionError)
| REnvelope (e : WireError)
| RWaits.

Section resume.
Context (resumeFrom : Z) (selected : Z) (gen : Generation) (phase : Phase).
Context (clk : nat -> instant) (scr : Screen) (env : nat -> Session -> Session).

Definition resume_from : Z := if resumeFrom =? 0 then HostSeqStart else resumeFrom.

(** The recovery after a ring miss: the snapshot was emitted as [frame], and
    [inStream] says whether it has a sequence number of its own. *)
Definition resume_gap (frame : Frame) (inStream : bool) (envelope : SnapshotEnvelope) (s3 : Session)
    : Session * outcome ResumeError resumption :=
  let s4 := env 2 s3 in
  let lastSeq := lastSeqLocked s4 in
  let reason := if u64 (lastSeq + 1) <? resume_from then GapAheadOfStream else GapRingEvicted in
  let atSeq := EnvAtSeq envelope in
  let gapTo := if atSeq <? resume_from then resume_from else atSeq in
  let gap := {| gap_FromSeq := resume_from; gap_ToSeq := gapTo; gap_Reason := reason |} in
  let snap := {| sm_AtSeq := atSeq; sm_Screen := Snap envelope |} in
  let raw := V3 <=? selected in
  let from := if inStream then Seq frame else atSeq in
  let s5 := env 3 s4 in
  let answer sub :=
    {| r_adopted := {| ad_Generation := gen; ad_Extensions := no_extensions; ad_Contiguous := false; ad_ReplayFrom := u64 (atSeq + 1);
                       ad_ReplayTo := lastSeq; ad_Phase := phase |};
       r_sub := sub; r_gap := Some gap;
       r_snap := if raw then None else Some snap;
       r_rawSnapshot := if raw then Some frame else None |} in
  match Subscribe (clk 2) from s5 with
  | Ok s6 => (s6, Ok (answer (Some (length (subs s5)))))
  | Err ErrRingMiss => (s5, Ok (answer None))
  | Err e => (s5, Err (RSubscribe e))
  | Panic => (s5, Panic)
  end.

Definition resume (s : Session) : Session * outcome ResumeError resumption :=
  let afterSeq := u64 (resume_from - 1) in
  match Subscribe (clk 0) afterSeq s with
  | Ok s1 =>
      let s1' := env 0 s1 in
      (s1', Ok {| r_adopted := {| ad_Generation := gen; ad_Extensions := no_extensions; ad_Contiguous := true; ad_ReplayFrom := resume_from;
                                  ad_ReplayTo := lastSeqLocked s1'; ad_Phase := phase |};
                  r_sub := Some (length (subs s)); r_gap := None; r_snap := None; r_rawSnapshot := None |})
  | Err ErrRingMiss =>
      let s1 := env 0 s in
      let beforeRecoverySeq := lastSeqLocked s1 in
      if (V3 <=? selected) && (u64 (beforeRecoverySeq + 1) <? resume_from) then (s1, Err RAhead)
      else
        let s2 := env 1 s1 in
        match barrier s2 with
        | Some _ => (s2, Err RWaits)
        | None =>
            match emitSnapshotLocked (clk 1) scr s2 with
            | (s3, Ok (frame, inStream)) =>
                match DecodeSnapshotEnvelope (Payload frame) with
                | Ok envelope => resume_gap frame inStream envelope s3
                | Err e => (s3, Err (REnvelope e))
                | Panic => (s3, Panic)
                end
            | (s3, Err e) => (s3, Err (REmit e))
            | (s3, Panic) => (s3, Panic)
            end
        end
  | Err e => (s, Err (RSubscribe e))
  | Panic => (s, Panic)
  end.
End resume.

(** ** Positions of subscribers do not move *)

Definition bases (s : Session) : list nat := map base (subs s).

Lemma enqueue_base now f x g : base (fst (enqueue now f x g)) = base x.
Proof.
  unfold enqueue, growLocked. destruct (negb (stop x) && negb (ended x)); [|done].
  match goal with |- context [if ?c then _ else _] => destruct c end; done.
Qed.

Lemma enqueue_all_bases now f xs : forall g, map base (fst (enqueue_all now f xs g)) = map base xs.
Proof.
  induction xs as [|x xs IH]; intros g; [done|]. cbn [enqueue_all].
  assert (base (fst (if attached x then enqueue now f x g else (x, g))) = base x) as Hb
    by (destruct (attached x); [apply enqueue_base|done]).
  destruct (if attached x then _ else _) as [x' g']. cbn [fst] in Hb.
  specialize (IH g'). destruct (enqueue_all now f xs g') as [xs' g'']. cbn in *. by rewrite Hb, IH.
Qed.

Lemma emit_frame_bases i t p s : bases (emit_frame i t p s) = bases s.
Proof.
  unfold emit_frame, publishLocked, bases. cbn. pose proof (enqueue_all_bases (wall i)
    {| Type_ := t; Seq := nextSeq s; RelTime := relTimeLocked i s; Payload := p |} (subs s) (flow s)) as H.
  destruct (enqueue_all _ _ _ _) as [xs g]. exact H.
Qed.

Lemma output_chunks_bases fuel clk data : forall s, bases (output_chunks fuel clk data s) = bases s.
Proof.
  revert data. induction fuel as [|fuel IH]; intros data s; [done|]. cbn [output_chunks].
  destruct (0 <? blen data); [|done]. by rewrite IH, emit_frame_bases.
Qed.

Lemma emitSnapshot_bases i scr s : bases (fst (emitSnapshotLocked i scr s)) = bases s.
Proof.
  unfold emitSnapshotLocked. destruct (Screen_Encode scr); [|done..]. destruct (exited s); [done|].
  match goal with |- context [allocFrameLocked i TypeSnapshot ?p s] => apply (emit_frame_bases i TypeSnapshot p s) end.
Qed.

Lemma shrink_base c x g : base (fst (shrinkLocked c x g)) = base x.
Proof. unfold shrinkLocked. by destruct (_ && _). Qed.

Lemma abandon_base x g : base (fst (abandonQueueLocked x g)) = base x.
Proof.
  unfold abandonQueueLocked. destruct (0 <? _).
  - match goal with |- context [shrinkLocked ?c ?y g] => pose proof (shrink_base c y g) as H end.
    destruct (shrinkLocked _ _ _) as [y h]. cbn [fst] in H. by destruct (saturated y).
  - by destruct (saturated _).
Qed.

Lemma with_sub_bases k x x' g s : subs s !! k = Some x -> base x' = base x -> bases (with_sub k x' g s) = bases s.
Proof.
  intros Hk Hb. unfold bases. cbn. rewrite list_fmap_insert, Hb. apply list_insert_id.
  by rewrite list_lookup_fmap, Hk.
Qed.

Lemma Subscribe_bases i from s s' : Subscribe i from s = Ok s' ->
  exists b, bases s' = bases s ++ [b] /\ hist s' = hist s /\ b = (length (hist s) - length (fst (replayFrom (s_ring s) from)))%nat.
Proof.
  unfold Subscribe. destruct (replayFrom (s_ring s) from) as [out hit]. destruct hit; [|done]. cbn [negb].
  destruct (newSubscription _ _ _ _) as [x g] eqn:Hnew. intros [= <-].
  exists (base (if exited s then finish x else set_attached x)). unfold bases. cbn. rewrite map_app. split; [done|]. split; [done|].
  unfold newSubscription in Hnew. cbn in Hnew. cbn [fst]. case_match; injection Hnew as <- <-; by destruct (exited s).
Qed.

Lemma step_bases s s' : session_step s s' -> exists bs, bases s' = bases s ++ bs.
Proof.
  assert (forall t t', bases t' = bases t -> exists bs, bases t' = bases t ++ bs) as Hsame
    by (intros t t' ->; exists []; by rewrite app_nil_r).
  intros Hst. destruct Hst as [s clk data Hb|s i label Hb|s i p ok Hb|s i scr Hb|s i p Hb Hx|s i from s' Hu Hsub|s k x Hx Hk Ha
    |s k x x' g Hk Hc|s k x x' Hk Ht|s k x x' g Hk Ht|s k x x' Hk Ht|s now Ha|s Hb|s|s i scr];
    try (apply Hsame; done).
  - apply Hsame. unfold onOutput. destruct (exited s); [done|apply output_chunks_bases].
  - apply Hsame. unfold EmitMarker. destruct (exited s); [done|apply emit_frame_bases].
  - apply Hsame. unfold Resize. destruct (ResizePayload_Encode p); [|done..]. destruct (exited s); [done|].
    destruct (negb ok); [done|apply emit_frame_bases].
  - apply Hsame, emitSnapshot_bases.
  - apply Hsame. apply (emit_frame_bases i TypeExit (ExitPayload_Encode p) s).
  - destruct (Subscribe_bases _ _ _ _ Hsub) as (b & E & _). by exists [b].
  - apply Hsame. by apply (with_sub_bases k x).
  - apply Hsame. apply (with_sub_bases k x); [done|]. unfold Close in Hc. destruct (stop x); [by injection Hc as <- <-|].
    match type of Hc with context [abandonQueueLocked ?y ?h] => pose proof (abandon_base y h) as Ha end.
    destruct (abandonQueueLocked _ _) as [y h]. by injection Hc as <- <-.
  - apply Hsame. apply (with_sub_bases k x); [done|]. unfold pump_take in Ht. repeat case_match; try done; by injection Ht as <-.
  - apply Hsame. apply (with_sub_bases k x); [done|]. unfold pump_deliver in Ht.
    destruct (closed x), (inflight x) as [f|]; try done. case_match; [by injection Ht as <- <-|].
    match type of Ht with context [shrinkLocked ?c ?y ?h] => pose proof (shrink_base c y h) as Ha end.
    injection Ht as Ht. by rewrite Ht in Ha.
  - apply Hsame. apply (with_sub_bases k x); [done|]. unfold pump_close in Ht. repeat case_match; try done; by injection Ht as <-.
  - apply Hsame. unfold Barrier_EmitSnapshot. destruct (barrier s); [|done].
    pose proof (emitSnapshot_bases i scr s) as H. destruct (emitSnapshotLocked i scr s) as [s1 r]. exact H.
Qed.

(** ** The other goroutines *)

Abbreviation moves := (rtc session_step).

Lemma moves_reachable rb cfg s s' : reachable rb cfg s -> moves s s' -> reachable rb cfg s'.
Proof. intros Hr Hm. induction Hm as [|s t u Hst _ IH]; [done|]. apply IH. by eapply reach_step. Qed.

Lemma moves_hist s s' : moves s s' -> exists fs, hist s' = hist s ++ fs.
Proof.
  induction 1 as [s|s t u Hst _ [fs E]]; [exists []; by rewrite app_nil_r|].
  destruct (step_hist _ _ Hst) as [gs E']. exists (gs ++ fs). by rewrite E, E', app_assoc.
Qed.

Lemma moves_base s s' k b : moves s s' -> bases s !! k = Some b -> bases s' !! k = Some b.
Proof.
  induction 1 as [s|s t u Hst _ IH]; intros Hk; [done|]. apply IH.
  destruct (step_bases _ _ Hst) as [bs ->]. by apply lookup_app_l_Some.
Qed.

Lemma bases_sub s k b : bases s !! k = Some b -> exists x, subs s !! k = Some x /\ base x = b.
Proof. unfold bases. rewrite list_lookup_fmap. destruct (subs s !! k) as [x|]; [|done]. intros [= <-]. by exists x. Qed.

Lemma moves_blen s s' : moves s s' -> blen (hist s) <= blen (hist s').
Proof. intros Hm. destruct (moves_hist _ _ Hm) as [fs ->]. rewrite blen_app. pose proof (blen_nonneg fs). lia. Qed.

Lemma moves_room s s' : moves s s' -> seq_room (hist s') -> seq_room (hist s).
Proof. intros Hm. pose proof (moves_blen _ _ Hm). unfold seq_room. lia. Qed.

Lemma lastSeq_hist s : session_inv s -> seq_room (hist s) -> lastSeqLocked s = blen (hist s).
Proof.
  intros ([Hn _ _ _ _ _] & _) Hroom. unfold seq_room, HostSeqStart in *. pose proof (blen_nonneg (hist s)).
  unfold lastSeqLocked. rewrite u64_small; unfold u64_ok; lia.
Qed.

Lemma exit_last s : session_inv s -> exited s = true -> exitSeq s = blen (hist s) /\ 0 < blen (hist s).
Proof.
  intros ([_ (Hs & _) _ _ _ _] & He & _) Hx. unfold exit_ok in He. rewrite Hx in He. destruct He as (pre & e & Hh & _ & -> & _).
  rewrite Hh in *. rewrite seq_from_app in Hs. destruct Hs as [_ Hs]. cbn in Hs. destruct Hs as [-> _].
  rewrite blen_app, blen_cons, blen_nil. unfold HostSeqStart. pose proof (blen_nonneg pre). lia.
Qed.

(** The screen a snapshot carries fits a length prefix. *)
Definition renders (scr : Screen) : Prop := screen_wf scr /\ blen (screen_bytes scr) < 2 ^ 62.

Definition snapshot_envelope (s : Session) (scr : Screen) : SnapshotEnvelope :=
  {| EnvAtSeq := blen (hist s); SnapFormat := SnapFormatScreen; Snap := screen_bytes scr |}.

Lemma envelope_decodes s scr :
  seq_room (hist s) -> renders scr ->
  DecodeSnapshotEnvelope (SnapshotEnvelope_Encode (snapshot_envelope s scr)) = Ok (snapshot_envelope s scr).
Proof.
  intros Hroom [Hw Hl]. pose proof (blen_nonneg (hist s)). unfold seq_room in Hroom.
  assert (u64_ok (blen (hist s))) as Hu by (unfold u64_ok; lia).
  assert (envelope_wf (snapshot_envelope s scr)) as Hwf.
  { split; [exact Hu|]. split; [unfold u8_ok, snapshot_envelope, SnapFormatScreen; cbn; lia|].
    split; [|by apply screen_bytes_ok]. cbn [Snap snapshot_envelope]. lia. }
  apply envelope_roundtrip; [done|]. rewrite envelope_blen. cbn [EnvAtSeq SnapFormat Snap snapshot_envelope].
  pose proof (blen_nonneg (screen_bytes scr)). assert (u64_ok (blen (screen_bytes scr))) as Hs by (unfold u64_ok; lia).
  rewrite u64_small by done. pose proof (uvarint_bytes_nonempty _ Hu). pose proof (uvarint_bytes_nonempty _ Hs).
  unfold MaxVarintLen in *. lia.
Qed.

(** Emitting a snapshot: its envelope names the frames before it; before the exit
    it is itself the next frame. *)
Lemma emission i scr s :
  session_inv s -> seq_room (hist s) -> barrier s = None -> renders scr ->
  exists s3 f, emitSnapshotLocked i scr s = (s3, Ok (f, negb (exited s))) /\ Type_ f = TypeSnapshot /\
    DecodeSnapshotEnvelope (Payload f) = Ok (snapshot_envelope s scr) /\
    hist s3 = hist s ++ (if exited s then [] else [f]) /\ (exited s = false -> Seq f = blen (hist s) + 1) /\
    exited s3 = exited s /\ moves s s3.
Proof.
  intros Hi Hroom Hb Hscr. pose proof (envelope_decodes s scr Hroom Hscr) as Hdec.
  assert (moves s (fst (emitSnapshotLocked i scr s))) as Hm by (apply rtc_once; by apply st_snapshot).
  unfold emitSnapshotLocked in *. rewrite (Screen_Encode_eq scr) in * by apply Hscr. destruct (exited s) eqn:Hx.
  - eexists s, _. split; [reflexivity|]. split; [done|]. destruct (exit_last s Hi Hx) as [-> _].
    split; [exact Hdec|]. by rewrite app_nil_r.
  - pose proof (lastSeq_hist s Hi Hroom) as Hl. unfold lastSeqLocked in Hl. rewrite Hl in *.
    change {| EnvAtSeq := blen (hist s); SnapFormat := SnapFormatScreen; Snap := screen_bytes scr |} with (snapshot_envelope s scr) in *.
    eexists _, _. split; [reflexivity|]. split; [done|]. split; [exact Hdec|].
    split; [apply (emit_frame_hist i TypeSnapshot (SnapshotEnvelope_Encode (snapshot_envelope s scr)) s)|].
    split; [|split; [|exact Hm]].
    + intros _. destruct Hi as ([Hn _ _ _ _ _] & _). unfold HostSeqStart in Hn. cbn [Seq]. lia.
    + rewrite <- Hx. apply (emit_frame_same i TypeSnapshot (SnapshotEnvelope_Encode (snapshot_envelope s scr)) s).
Qed.

(** Frames that are no longer in the ring. *)
Definition evicted (s : Session) : Z := blen (hist s) - blen (frames (s_ring s)).

Lemma subscribe_at i a s :
  session_inv s -> seq_room (hist s) -> 0 <= a < 2 ^ 64 ->
  match Subscribe i a s with
  | Ok s' => exists b, bases s' = bases s ++ [b] /\ hist s' = hist s /\ moves s s' /\
               Z.of_nat b = (if a =? 0 then evicted s else a) /\ (0 < a -> evicted s <= a <= blen (hist s))
  | Err e => e = ErrRingMiss /\ 0 < a /\ (a < evicted s \/ blen (hist s) < a \/ blen (hist s) = 0)
  | Panic => False
  end.
Proof.
  intros Hi Hroom Ha. pose proof Hi as ([_ Hr _ _ _ _] & _). unfold seq_room in Hroom.
  assert (0 < a -> replayFrom (s_ring s) a = _) as Hrp by (intros Hp; apply (replayFrom_spec _ (hist s)); [done|lia|lia]).
  pose proof Hr as (_ & (ev & Hev) & _). 
  assert (evicted s = blen ev) as He by (unfold evicted; rewrite Hev at 1; rewrite blen_app; lia).
  destruct (Subscribe i a s) as [s'|e|] eqn:Hs; [|unfold Subscribe in Hs..].
  - destruct (Subscribe_bases _ _ _ _ Hs) as (b & Hb & Hh & Hbv). exists b. split; [done|]. split; [done|].
    split; [apply rtc_once; apply (st_subscribe s i a s'); [unfold u64_ok; lia|done]|].
    destruct (Z.eqb_spec a 0) as [-> |Hne].
    + split; [|lia]. assert (fst (replayFrom (s_ring s) 0) = frames (s_ring s)) as Hf
        by (unfold replayFrom; by destruct (frames (s_ring s))).
      rewrite Hbv, He, Hf, Hev, length_app. unfold blen. lia.
    + unfold Subscribe in Hs. rewrite Hrp in * by lia. case_match; [|done]. rewrite Hbv. cbn [fst]. rewrite length_drop.
      unfold evicted, blen in *. split; [lia|lia].
  - destruct (replayFrom (s_ring s) a) as [out hit] eqn:E. destruct hit; cbn [negb] in Hs; [by destruct (newSubscription _ _ _ _)|].
    injection Hs as <-. split; [done|]. destruct (Z.eq_dec a 0) as [-> |Hne].
    { unfold replayFrom in E. destruct (frames (s_ring s)); by injection E. }
    split; [lia|]. specialize (Hrp ltac:(lia)). unfold evicted. case_match eqn:Hc; [by injection Hrp|]. lia.
  - destruct (replayFrom (s_ring s) a) as [out hit]. destruct hit; cbn [negb] in Hs; [|done]. by destruct (newSubscription _ _ _ _).
Qed.

(** ** What the controller is told *)

(** The frames after the snapshot, or from the requested one on, are what the
    subscription delivers; what it will not deliver is named by the gap or is the
    snapshot itself. *)
Definition contiguous_answer (from : Z) (s s' : Session) (r : resumption) : Prop :=
  r_gap r = None /\ r_snap r = None /\ r_rawSnapshot r = None /\
  ad_ReplayFrom (r_adopted r) = from /\ ad_ReplayTo (r_adopted r) = blen (hist s') /\
  exists k x, r_sub r = Some k /\ subs s' !! k = Some x /\
    Z.of_nat (base x) = (if from =? 1 then evicted s else from - 1).

Definition recovery_answer (from selected : Z) (scr : Screen) (s s' : Session) (r : resumption) : Prop :=
  exists at_ f reason,
    blen (hist s) <= at_ <= blen (hist s') /\
    r_gap r = Some {| gap_FromSeq := from; gap_ToSeq := Z.max at_ from; gap_Reason := reason |} /\
    Type_ f = TypeSnapshot /\
    DecodeSnapshotEnvelope (Payload f) = Ok {| EnvAtSeq := at_; SnapFormat := SnapFormatScreen; Snap := screen_bytes scr |} /\
    (if V3 <=? selected then r_rawSnapshot r = Some f /\ r_snap r = None /\ from <= at_ + 1
     else r_rawSnapshot r = None /\ r_snap r = Some {| sm_AtSeq := at_; sm_Screen := screen_bytes scr |}) /\
    ad_ReplayFrom (r_adopted r) = at_ + 1 /\ ad_ReplayTo (r_adopted r) <= blen (hist s') /\
    (hist s' !! Z.to_nat at_ = Some f \/ exited s' = true /\ blen (hist s') = at_) /\
    match r_sub r with
    | Some k => exists x, subs s' !! k = Some x /\
        Z.of_nat (base x) = (if at_ <? blen (hist s') then at_ + 1 else at_)
    | None => at_ + 1 < evicted s'
    end.


Lemma emitSnapshot_exited i scr s : exited s = true -> fst (emitSnapshotLocked i scr s) = s.
Proof. intros Hx. unfold emitSnapshotLocked. rewrite Hx. by destruct (Screen_Encode scr). Qed.

Lemma step_exited s s' : session_step s s' -> exited s = true -> exited s' = true /\ hist s' = hist s.
Proof.
  intros Hst Hx. destruct Hst as [s clk data Hb|s i label Hb|s i p ok Hb|s i scr Hb|s i p Hb Hx'|s i from s' Hu Hsub|s k x Hx' Hk Ha
    |s k x x' g Hk Hc|s k x x' Hk Ht|s k x x' g Hk Ht|s k x x' Hk Ht|s now Ha|s Hb|s|s i scr]; try done.
  - unfold onOutput. by rewrite Hx.
  - unfold EmitMarker. by rewrite Hx.
  - unfold Resize. rewrite Hx. by destruct (ResizePayload_Encode p).
  - by rewrite emitSnapshot_exited.
  - congruence.
  - unfold Subscribe in Hsub. destruct (replayFrom _ _) as [out hit]. destruct (negb hit); [done|].
    destruct (newSubscription _ _ _ _). by injection Hsub as <-.
  - unfold Barrier_EmitSnapshot. destruct (barrier s); [|done]. pose proof (emitSnapshot_exited i scr s Hx) as H.
    destruct (emitSnapshotLocked i scr s) as [t r]. cbn in *. by subst t.
Qed.

Lemma moves_exited s s' : moves s s' -> exited s = true -> exited s' = true /\ hist s' = hist s.
Proof.
  induction 1 as [s|s t u Hst _ IH]; intros Hx; [done|]. destruct (step_exited _ _ Hst Hx) as [Ht <-]. by apply IH.
Qed.


Section answer.
Context (rb : Z) (cfg : option OutputFlowControl) (clk : nat -> instant) (scr : Screen) (env : nat -> Session -> Session).
Hypothesis Henv : forall k s, moves s (env k s).
Hypothesis Hscr : renders scr.

(** Where the live part starts after the snapshot taken in [s2]: the second
    subscription, in any later state. *)
Lemma recovery_position i s2 s3 s5 f :
  reachable rb cfg s5 -> seq_room (hist s5) -> moves s3 s5 ->
  hist s3 = hist s2 ++ (if exited s2 then [] else [f]) -> exited s3 = exited s2 ->
  (exited s2 = false -> Seq f = blen (hist s2) + 1) -> (exited s2 = true -> 0 < blen (hist s2)) ->
  (hist s5 !! length (hist s2) = Some f \/ exited s5 = true /\ blen (hist s5) = blen (hist s2)) /\
  match Subscribe i (if negb (exited s2) then Seq f else blen (hist s2)) s5 with
  | Ok s6 => hist s6 = hist s5 /\ exited s6 = exited s5 /\ moves s5 s6 /\
      exists x, subs s6 !! length (subs s5) = Some x /\
        Z.of_nat (base x) = (if blen (hist s2) <? blen (hist s5) then blen (hist s2) + 1 else blen (hist s2))
  | Err e => e = ErrRingMiss /\ blen (hist s2) + 1 < evicted s5
  | Panic => False
  end.
Proof.
  intros Hr Hroom Hm Hh3 Hx3 Hseq Hpos. pose proof (reachable_inv _ _ _ Hr Hroom) as Hi.
  destruct (moves_hist _ _ Hm) as [fs Hh5]. pose proof (blen_nonneg (hist s2)) as Hn2. unfold seq_room in Hroom.
  pose proof (blen_nonneg fs) as Hnf.
  assert (evicted s5 <= blen (hist s5)) as Hev by (unfold evicted; pose proof (blen_nonneg (frames (s_ring s5))); lia).
  set (a := if negb (exited s2) then Seq f else blen (hist s2)).
  assert (0 < a <= blen (hist s5) /\ (hist s5 !! length (hist s2) = Some f \/ exited s5 = true /\ blen (hist s5) = blen (hist s2)) /\
          a = (if blen (hist s2) <? blen (hist s5) then blen (hist s2) + 1 else blen (hist s2)) /\
          (a < evicted s5 -> blen (hist s2) + 1 < evicted s5)) as (Ha & Hat & Hv & Hmiss).
  { unfold a. destruct (exited s2) eqn:Hx; cbn [negb].
    - destruct (moves_exited _ _ Hm Hx3) as [Hx5 E]. rewrite app_nil_r in Hh3. specialize (Hpos eq_refl).
      rewrite E, Hh3 in *. rewrite (proj2 (Z.ltb_ge _ _)) by lia. split; [lia|]. split; [by right|]. split; [done|lia].
    - specialize (Hseq eq_refl). rewrite Hh5, Hh3, !blen_app, blen_cons, blen_nil in *.
      rewrite (proj2 (Z.ltb_lt _ _)) by lia. split; [lia|]. split; [left|split; [lia|lia]].
      rewrite <- app_assoc. rewrite lookup_app_r by lia. by rewrite Nat.sub_diag. }
  split; [done|]. pose proof (subscribe_at i a s5 Hi ltac:(unfold seq_room; lia) ltac:(lia)) as Hs.
  destruct (Subscribe i a s5) as [s6|e|] eqn:Hsub; [|split; [apply Hs|apply Hmiss; lia]|done].
  destruct Hs as (b & Hb & Hh & Hms & Hbv & _). split; [done|].
  split; [|split; [done|]].
  - unfold Subscribe in Hsub. destruct (replayFrom _ _) as [out hit]. destruct (negb hit); [done|].
    destruct (newSubscription _ _ _ _). by injection Hsub as <-.
  - destruct (bases_sub s6 (length (subs s5)) b) as (x & Hx & Hbx).
    { rewrite Hb. rewrite lookup_app_r; unfold bases; rewrite length_map; [|lia]. by rewrite Nat.sub_diag. }
    exists x. split; [done|]. rewrite Hbx, Hbv, <- Hv. destruct (Z.eqb_spec a 0); lia.
Qed.

(** The facts of a run of the recovery, in the state of the second subscription. *)
Lemma recovery_run selected fr s s1 s2 s3 s5 f i :
  reachable rb cfg s -> moves s s1 -> moves s1 s2 -> moves s2 s3 -> moves s3 s5 -> seq_room (hist s5) ->
  (V3 <=? selected) && (u64 (lastSeqLocked s1 + 1) <? fr) = false ->
  hist s3 = hist s2 ++ (if exited s2 then [] else [f]) -> exited s3 = exited s2 ->
  (exited s2 = false -> Seq f = blen (hist s2) + 1) ->
  blen (hist s) <= blen (hist s2) <= blen (hist s5) /\ u64 (blen (hist s2) + 1) = blen (hist s2) + 1 /\
  ((V3 <=? selected) = true -> fr <= blen (hist s2) + 1) /\
  (hist s5 !! length (hist s2) = Some f \/ exited s5 = true /\ blen (hist s5) = blen (hist s2)) /\
  match Subscribe i (if negb (exited s2) then Seq f else blen (hist s2)) s5 with
  | Ok s6 => hist s6 = hist s5 /\ exited s6 = exited s5 /\ moves s5 s6 /\
      exists x, subs s6 !! length (subs s5) = Some x /\
        Z.of_nat (base x) = (if blen (hist s2) <? blen (hist s5) then blen (hist s2) + 1 else blen (hist s2))
  | Err e => e = ErrRingMiss /\ blen (hist s2) + 1 < evicted s5
  | Panic => False
  end.
Proof.
  intros Hr M1 M2 M3 M35 H5 Hahead Hh3 Hx3 Hseq.
  assert (moves s s2) as M02 by (by etrans). assert (moves s2 s5) as M25 by (by etrans).
  pose proof (moves_room _ _ M25 H5) as H2. pose proof (moves_room _ _ M2 H2) as H1.
  pose proof (reachable_inv _ _ _ (moves_reachable _ _ _ _ Hr M1) H1) as I1.
  pose proof (reachable_inv _ _ _ (moves_reachable _ _ _ _ Hr M02) H2) as I2.
  assert (reachable rb cfg s5) as Hr5 by (eapply moves_reachable; [exact Hr|by etrans]).
  pose proof (moves_blen _ _ M02). pose proof (moves_blen _ _ M25). pose proof (moves_blen _ _ M2).
  pose proof (blen_nonneg (hist s1)). split; [lia|]. unfold seq_room in H1, H2.
  split; [apply u64_small; unfold u64_ok; lia|]. split.
  - intros Hv. rewrite Hv, (lastSeq_hist s1) in Hahead by (done || (unfold seq_room; lia)). cbn [andb] in Hahead.
    rewrite u64_small in Hahead by (unfold u64_ok; lia). lia.
  - apply (recovery_position i s2 s3 s5 f); try done. intros Hx. by apply exit_last.
Qed.

Lemma gap_range (a b : Z) : (if a <? b then b else a) = Z.max a b.
Proof. destruct (Z.ltb_spec a b); lia. Qed.

Lemma resume_gap_answer resumeFrom selected gen phase s s1 s2 s3 f :
  reachable rb cfg s -> moves s s1 -> moves s1 s2 -> moves s2 s3 ->
  (V3 <=? selected) && (u64 (lastSeqLocked s1 + 1) <? resume_from resumeFrom) = false ->
  Type_ f = TypeSnapshot -> DecodeSnapshotEnvelope (Payload f) = Ok (snapshot_envelope s2 scr) ->
  hist s3 = hist s2 ++ (if exited s2 then [] else [f]) -> exited s3 = exited s2 ->
  (exited s2 = false -> Seq f = blen (hist s2) + 1) ->
  let '(s', o) := resume_gap resumeFrom selected gen phase clk env f (negb (exited s2)) (snapshot_envelope s2 scr) s3 in
  seq_room (hist s') ->
  match o with
  | Ok r => ad_Contiguous (r_adopted r) = false /\ recovery_answer (resume_from resumeFrom) selected scr s s' r
  | _ => False
  end.
Proof.
  intros Hr M1 M2 M3 Hahead Hty Hdec Hh3 Hx3 Hseq. unfold resume_gap. cbn [EnvAtSeq Snap snapshot_envelope].
  set (s4 := env 2 s3). set (s5 := env 3 s4). pose proof (Henv 2 s3) as M4. pose proof (Henv 3 s4) as M5. fold s4 in M4. fold s5 in M5.
  assert (moves s3 s5) as M35 by (by etrans).
  assert (seq_room (hist s5) -> lastSeqLocked s4 <= blen (hist s5)) as Hlast.
  { intros H5. rewrite lastSeq_hist; [by apply moves_blen| |by eapply moves_room].
    eapply reachable_inv; [|by eapply moves_room]. eapply moves_reachable; [exact Hr|].
    etrans; [exact M1|]. etrans; [exact M2|]. by etrans. }
  assert (seq_room (hist s5) -> _) as Hrun by (intros H5; exact (recovery_run selected _ s s1 s2 s3 s5 f (clk 2) Hr M1 M2 M3 M35 H5 Hahead Hh3 Hx3 Hseq)).
  destruct (Subscribe (clk 2) _ s5) as [s6|e|] eqn:Hsub; [|destruct e|]; intros Hroom;
    try (by destruct (Hrun Hroom) as (_ & _ & _ & _ & ? & _)); try (by destruct (Hrun Hroom) as (_ & _ & _ & _ & [])).
  - destruct (Subscribe_bases _ _ _ _ Hsub) as (_ & _ & Hh6 & _). rewrite Hh6 in Hroom.
    destruct (Hrun Hroom) as (Hle & Hu & Hv3 & Hat & _ & Hx6 & _ & Hx). specialize (Hlast Hroom).
    split; [done|]. eexists (blen (hist s2)), f, _. rewrite Hh6, Hx6, to_nat_blen. cbn. rewrite gap_range, Hu.
    destruct (V3 <=? selected); auto 20.
  - destruct (Hrun Hroom) as (Hle & Hu & Hv3 & Hat & _ & Hmiss). specialize (Hlast Hroom).
    split; [done|]. eexists (blen (hist s2)), f, _. rewrite to_nat_blen. cbn. rewrite gap_range, Hu.
    destruct (V3 <=? selected); auto 20.
Qed.
End answer.

(** Every frame from the requested one on is in the declared gap, is the recovery
    snapshot itself, or comes after the position of the new subscription (which
    delivers every frame after its position, [PtySession]). *)
Definition accounted (from : Z) (s' : Session) (r : resumption) : Prop :=
  forall q, from <= q <= blen (hist s') ->
    (exists g, r_gap r = Some g /\ gap_FromSeq g <= q <= gap_ToSeq g) \/
    (exists f e, hist s' !! Z.to_nat (q - 1) = Some f /\ Type_ f = TypeSnapshot /\
       DecodeSnapshotEnvelope (Payload f) = Ok e /\ EnvAtSeq e = q - 1) \/
    (exists k x, r_sub r = Some k /\ subs s' !! k = Some x /\ Z.of_nat (base x) < q).

Lemma contiguous_accounted from s s' r :
  contiguous_answer from s s' r -> from <> 1 \/ evicted s = 0 -> accounted from s' r.
Proof.
  intros (_ & _ & _ & _ & _ & k & x & Hk & Hx & Hb) Hev q Hq. right. right. exists k, x. split; [done|]. split; [done|].
  rewrite Hb. destruct (Z.eqb_spec from 1); lia.
Qed.

Lemma recovery_accounted from selected scr s s' r :
  recovery_answer from selected scr s s' r -> r_sub r <> None -> accounted from s' r.
Proof.
  intros (a & f & reason & Ha & Hg & Ht & Hd & _ & _ & _ & Hat & Hsub) Hne q Hq. pose proof (blen_nonneg (hist s)).
  destruct (Z.le_gt_cases q (Z.max a from)) as [Hle|Hgt]; [left; eexists; split; [exact Hg|]; cbn; lia|]. right.
  destruct (Z.eq_dec q (a + 1)) as [-> |Hn]; [left|right].
  - destruct Hat as [Hat|[_ Hat]]; [|lia]. exists f. eexists. replace (a + 1 - 1) with a by lia. done.
  - destruct (r_sub r) as [k|] eqn:Hk; [|done]. destruct Hsub as (x & Hx & Hb). exists k, x. split; [done|]. split; [done|].
    rewrite Hb. destruct (a <? blen (hist s')); lia.
Qed.

Lemma Subscribe_cases i a s : (exists s', Subscribe i a s = Ok s') \/ Subscribe i a s = Err ErrRingMiss.
Proof.
  unfold Subscribe. destruct (replayFrom _ _) as [out hit]. destruct hit; cbn [negb]; [|by right].
  destruct (newSubscription _ _ _ _) as [x g]. left. by eexists.
Qed.

Section cases.
Context (rb : Z) (cfg : option OutputFlowControl) (clk : nat -> instant) (scr : Screen) (env : nat -> Session -> Session).
Context (resumeFrom selected : Z) (gen : Generation) (phase : Phase) (s : Session).
Hypothesis Hr : reachable rb cfg s.
Hypothesis Henv : forall k t, moves t (env k t).
Hypothesis Hscr : renders scr.
Hypothesis Hfrom : 0 <= resumeFrom < 2 ^ 64.

Let from := resume_from resumeFrom.

Lemma from_range : 1 <= from < 2 ^ 64.
Proof. unfold from, resume_from, HostSeqStart. destruct (Z.eqb_spec resumeFrom 0); lia. Qed.

Lemma resume_gap_grows f inS e s3 :
  blen (hist s3) <= blen (hist (fst (resume_gap resumeFrom selected gen phase clk env f inS e s3))).
Proof.
  unfold resume_gap. assert (blen (hist s3) <= blen (hist (env 3%nat (env 2%nat s3)))) by (apply moves_blen; etrans; apply Henv).
  destruct (Subscribe _ _ _) as [s6|[]|] eqn:Hs; try done. destruct (Subscribe_bases _ _ _ _ Hs) as (_ & _ & Hh & _).
  cbn [fst]. by rewrite Hh.
Qed.

Lemma resume_grows : blen (hist s) <= blen (hist (fst (resume resumeFrom selected gen phase clk scr env s))).
Proof.
  unfold resume. destruct (Subscribe (clk 0%nat) _ s) as [s1|[]|] eqn:Hs; try done.
  - destruct (Subscribe_bases _ _ _ _ Hs) as (_ & _ & Hh & _). cbn [fst]. rewrite <- Hh. apply moves_blen, Henv.
  - pose proof (moves_blen _ _ (Henv 0%nat s)). destruct (_ && _); [done|].
    pose proof (moves_blen _ _ (Henv 1%nat (env 0%nat s))). destruct (barrier _) eqn:Hb; [cbn [fst]; lia|].
    assert (moves (env 1%nat (env 0%nat s)) (fst (emitSnapshotLocked (clk 1%nat) scr (env 1%nat (env 0%nat s))))) as M3
      by (apply rtc_once; by apply st_snapshot).
    apply moves_blen in M3. destruct (emitSnapshotLocked _ _ _) as [s3 [[f inS]|e|]]; cbn [fst] in *; try lia.
    destruct (DecodeSnapshotEnvelope _) as [e|e|]; cbn [fst]; try lia. pose proof (resume_gap_grows f inS e s3). lia.
Qed.

Lemma resume_hit s1 : Subscribe (clk 0%nat) (from - 1) s = Ok s1 ->
  let s1' := env 0%nat s1 in
  seq_room (hist s1') ->
  contiguous_answer from s s1'
    {| r_adopted := {| ad_Generation := gen; ad_Extensions := no_extensions; ad_Contiguous := true; ad_ReplayFrom := from;
                       ad_ReplayTo := lastSeqLocked s1'; ad_Phase := phase |};
       r_sub := Some (length (subs s)); r_gap := None; r_snap := None; r_rawSnapshot := None |} /\
  (1 < from -> evicted s < from <= blen (hist s) + 1).
Proof.
  intros Hs1 s1' Hroom. pose proof from_range as Hf. assert (moves s1 s1') as M by apply Henv.
  destruct (Subscribe_bases _ _ _ _ Hs1) as (_ & _ & Hh1 & _).
  assert (seq_room (hist s)) as Hs by (rewrite <- Hh1; by eapply moves_room).
  pose proof (subscribe_at (clk 0%nat) (from - 1) s (reachable_inv _ _ _ Hr Hs) Hs ltac:(lia)) as Hsub.
  rewrite Hs1 in Hsub. destruct Hsub as (b & Hb & _ & M1 & Hbv & Hle). split; [|lia].
  do 4 (split; [done|]). split.
  { cbn. apply lastSeq_hist; [|done]. eapply reachable_inv; [|done]. eapply moves_reachable; [exact Hr|by etrans]. }
  destruct (bases_sub s1' (length (subs s)) b) as (x & Hx & Hbx).
  { eapply moves_base; [exact M|]. rewrite Hb, lookup_app_r; unfold bases; rewrite length_map; [|lia]. by rewrite Nat.sub_diag. }
  exists (length (subs s)), x. split; [done|]. split; [done|]. rewrite Hbx, Hbv.
  destruct (Z.eqb_spec from 1), (Z.eqb_spec (from - 1) 0); lia.
Qed.

Lemma resume_miss : Subscribe (clk 0%nat) (from - 1) s = Err ErrRingMiss ->
  let '(s', o) := resume resumeFrom selected gen phase clk scr env s in
  seq_room (hist s') ->
  match o with
  | Ok r => ad_Contiguous (r_adopted r) = false /\ recovery_answer from selected scr s s' r
  | Err RAhead => V3 <= selected /\ blen (hist s') + 1 < from
  | Err RWaits => exists l, barrier s' = Some l
  | _ => False
  end.
Proof.
  intros Hs. pose proof from_range as Hf. unfold resume. fold from. rewrite u64_small by (unfold u64_ok; lia). rewrite Hs.
  set (s1 := env 0%nat s). assert (moves s s1) as M1 by apply Henv. destruct (_ && _) eqn:Hahead.
  - intros Hroom. apply andb_true_iff in Hahead as [Hv Ha].
    rewrite lastSeq_hist in Ha; [|eapply reachable_inv; [by eapply moves_reachable|done]|done].
    unfold seq_room in Hroom. pose proof (blen_nonneg (hist s1)). rewrite u64_small in Ha by (unfold u64_ok; lia). lia.
  - set (s2 := env 1%nat s1). assert (moves s1 s2) as M2 by apply Henv. destruct (barrier s2) as [l|] eqn:Hb; [by exists l|].
    assert (moves s2 (fst (emitSnapshotLocked (clk 1%nat) scr s2))) as M3 by (apply rtc_once; by apply st_snapshot).
    destruct (decide (seq_room (hist s2))) as [Hs2|Hs2].
    + assert (session_inv s2) as Hi by (eapply reachable_inv; [|done]; eapply moves_reachable; [exact Hr|by etrans]).
      destruct (emission (clk 1%nat) scr s2 Hi Hs2 Hb Hscr) as (s3 & f & He & Hty & Hdec & Hh3 & Hseq & Hx3 & M23).
      rewrite He, Hdec.
      pose proof (resume_gap_answer rb cfg clk scr env Henv resumeFrom selected gen phase s s1 s2 s3 f Hr M1 M2 M23 Hahead Hty Hdec Hh3 Hx3 Hseq) as Hg.
      destruct (resume_gap _ _ _ _ _ _ _ _ _ _) as [s' [r|e|]]; intros Hroom; [exact (Hg Hroom)|destruct (Hg Hroom)..].
    + destruct (emitSnapshotLocked (clk 1%nat) scr s2) as [s3 [[f inS]|e|]]; cbn [fst] in M3;
        [|intros Hroom; by destruct (Hs2 (moves_room _ _ M3 Hroom))..].
      destruct (DecodeSnapshotEnvelope (Payload f)) as [e|e|];
        [|intros Hroom; by destruct (Hs2 (moves_room _ _ M3 Hroom))..].
      pose proof (resume_gap_grows f inS e s3) as Hg. destruct (resume_gap _ _ _ _ _ _ _ _ _ _) as [s' o]. cbn [fst] in Hg.
      intros Hroom. destruct Hs2. pose proof (moves_blen _ _ M3). unfold seq_room in *. lia.
Qed.
End cases.


(** ** Runs *)

(** A ring of one byte: three bytes are read one at a time, two are evicted. *)
Definition read_byte (s : Session) (b : Z) : Session := onOutput demo_clk [b] s.
Definition tight : Session := fold_left read_byte [0x41; 0x42; 0x43] (NewSession 1 None).

Lemma tight_reachable : reachable 1 None tight.
Proof. unfold tight, read_byte. cbn [fold_left]. do 3 (eapply reach_step; [|by apply st_output]). apply reach_new. Qed.

Definition quiet (k : nat) (s : Session) : Session := s.

Lemma quiet_moves k s : moves s (quiet k s).
Proof. apply rtc_refl. Qed.

Lemma sample_renders : renders sample_screen.
Proof. split; [exact sample_screen_wf|]. vm_compute. reflexivity. Qed.


(** A request for the start is answered as contiguous although the first two
    frames are gone: the subscription starts at the oldest buffered frame. *)
Lemma resume_start_hides_eviction :
  exists s' r, resume 1 V3 7 PhaseRunning demo_clk sample_screen quiet tight = (s', Ok r) /\
    ad_Contiguous (r_adopted r) = true /\ ad_ReplayFrom (r_adopted r) = 1 /\ r_gap r = None /\
    map base (subs s') = [2%nat].
Proof. eexists _, _. split; [vm_compute; reflexivity|]. vm_compute. auto. Qed.

(** The recovery of a controller that holds the output barrier of its own
    handshake waits for that barrier. *)
Lemma resume_waits_for_own_barrier :
  snd (resume 2 V3 7 PhaseRunning demo_clk sample_screen quiet (fst (BeginOutputBarrier tight))) = Err RWaits.
Proof. vm_compute. reflexivity. Qed.

(** Output that overruns the ring between the snapshot and the second subscription
    leaves an adopted controller without a subscription, and without an error. *)
Definition flood (k : nat) (s : Session) : Session :=
  match k with 3%nat => fold_left read_byte [0x44; 0x45] s | _ => s end.

Lemma adopted_without_subscription :
  exists s' r, resume 2 V3 7 PhaseRunning demo_clk sample_screen flood tight = (s', Ok r) /\ r_sub r = None.
Proof. eexists _, _. split; [vm_compute; reflexivity|]. vm_compute. reflexivity. Qed.
