(* ===== verification/ShimLife.v ===== *)
(** * ShimLife: controllers, generations and the orphan deadline
    ([src/sessionshim/shim.go], [keepalive.go], [headless_serve.go])

    A shim has at most one current controller.  A controller becomes current by a
    handshake that raises the generation; losing it arms the orphan deadline, which
    a returning controller or the keepalive of a daemon moves or revokes, and which
    otherwise ends the harness.  The end of the harness is written as a tombstone
    that replaces the discovery record.

    The functions of this file are the critical sections of the Go code: [Life] is
    the state under [s.mu], [Recorded] the state under [s.recordMu] together with
    the registry directory.  [ShimMachine] runs them as goroutines. *)

From stdpp Require Import gmap.
From S2P Require Import Prelude ShimWire ShimPayloads ShimControl GoSort ShimRecord Fence ProcIdentity Registry.

(** ** What a shim is started with *)

Record shimConf := {
  cf_id : Identity;
  cf_workload : Workload;
  cf_orphan : OrphanPolicy;
  cf_shimID : bytes;
  cf_epoch : Z;
  cf_self : ProcessIdentity;
  cf_harness : ProcessIdentity;
  cf_workarea : bytes;
  cf_workareaRoot : bytes;
  cf_protocolMin : Z;
  cf_protocolMax : Z;
  cf_socketPath : bytes;
  cf_socketDev : Z;
  cf_socketIno : Z;
  cf_outboxKey : bytes;
  cf_outboxState : HeadlessExitState
}.

(** [shimProtocolRange]; [None] is the error. *)
Definition shimProtocolRange (workload : Workload) (requestedMin requestedMax : Z) : option (Z * Z) :=
  if bytes_eqb workload WorkloadHeadlessRecord then
    if (negb (requestedMin =? 0) || negb (requestedMax =? 0)) &&
       (negb (requestedMin =? HeadlessMin) || negb (requestedMax =? HeadlessMax))
    then None else Some (HeadlessMin, HeadlessMax)
  else
    let '(lo, hi) := if (requestedMin =? 0) && (requestedMax =? 0) then (ProtocolMin, ProtocolMax)
                     else (requestedMin, requestedMax) in
    if (lo =? 0) || (hi <? lo) || (ProtocolMax <? hi) then None else Some (lo, hi).

Definition WorkloadOf (cf : shimConf) : Workload :=
  if bytes_eqb (cf_workload cf) [] then WorkloadInteractive else cf_workload cf.
Definition headless (cf : shimConf) : bool := bytes_eqb (WorkloadOf cf) WorkloadHeadlessRecord.

Definition recordSchemaVersion (cf : shimConf) : Z :=
  if headless cf then HeadlessRecordSchemaVersion else RecordSchemaVersion.
Definition recordWorkload (cf : shimConf) : Workload := if headless cf then WorkloadHeadlessRecord else [].

(** ** The state under [s.mu] *)

(** A [time.AfterFunc] timer: the episode its callback captured, when it expires,
    and whether it has expired (then [Stop] reports false). *)
Record timer := { tm_episode : Z; tm_at : Z; tm_fired : bool }.

(** A controller connection is its index among those ever installed.  [episodes]
    is a ghost: the number of times the episode counter was raised. *)
Record Life := {
  gen : Generation;
  phase : Phase;
  ctrl : option nat;
  orphanTimer : option timer;
  orphanEpisode : Z;
  orphanExpiring : bool;
  tombstoned : bool;
  closed : bool;
  stopped : bool;
  finalScreenTimer : bool;
  episodes : Z
}.

Definition phase_is (l : Life) (p : Phase) : bool := bytes_eqb (phase l) p.

Definition armOrphanLocked (p : OrphanPolicy) (now : Z) (l : Life) : Life * option (Z * Z) :=
  if phase_is l PhaseExited || orphanExpiring l then (l, None)
  else
    let episode := u64 (orphanEpisode l + 1) in
    let deadline := now + Deadline p in
    ({| gen := gen l; phase := PhaseOrphaned; ctrl := ctrl l;
        orphanTimer := Some {| tm_episode := episode; tm_at := deadline; tm_fired := false |};
        orphanEpisode := episode; orphanExpiring := orphanExpiring l; tombstoned := tombstoned l; closed := closed l;
        stopped := stopped l; finalScreenTimer := finalScreenTimer l; episodes := episodes l + 1 |},
     Some (deadline, episode)).

Definition disarmOrphanLocked (l : Life) : Life :=
  {| gen := gen l; phase := if phase_is l PhaseOrphaned then PhaseRunning else phase l; ctrl := ctrl l;
     orphanTimer := None; orphanEpisode := u64 (orphanEpisode l + 1); orphanExpiring := orphanExpiring l;
     tombstoned := tombstoned l; closed := closed l; stopped := stopped l; finalScreenTimer := finalScreenTimer l;
     episodes := episodes l + 1 |}.

Definition set_ctrl (c : option nat) (l : Life) : Life :=
  {| gen := gen l; phase := phase l; ctrl := c; orphanTimer := orphanTimer l; orphanEpisode := orphanEpisode l;
     orphanExpiring := orphanExpiring l; tombstoned := tombstoned l; closed := closed l; stopped := stopped l;
     finalScreenTimer := finalScreenTimer l; episodes := episodes l |}.

Definition set_gen (g : Generation) (l : Life) : Life :=
  {| gen := g; phase := phase l; ctrl := ctrl l; orphanTimer := orphanTimer l; orphanEpisode := orphanEpisode l;
     orphanExpiring := orphanExpiring l; tombstoned := tombstoned l; closed := closed l; stopped := stopped l;
     finalScreenTimer := finalScreenTimer l; episodes := episodes l |}.

Definition set_timer (t : option timer) (expiring : bool) (l : Life) : Life :=
  {| gen := gen l; phase := phase l; ctrl := ctrl l; orphanTimer := t; orphanEpisode := orphanEpisode l;
     orphanExpiring := expiring; tombstoned := tombstoned l; closed := closed l; stopped := stopped l;
     finalScreenTimer := finalScreenTimer l; episodes := episodes l |}.

Definition set_stopped (l : Life) : Life :=
  {| gen := gen l; phase := phase l; ctrl := ctrl l; orphanTimer := orphanTimer l; orphanEpisode := orphanEpisode l;
     orphanExpiring := orphanExpiring l; tombstoned := tombstoned l; closed := closed l; stopped := true;
     finalScreenTimer := finalScreenTimer l; episodes := episodes l |}.

Definition set_finalScreen (b : bool) (l : Life) : Life :=
  {| gen := gen l; phase := phase l; ctrl := ctrl l; orphanTimer := orphanTimer l; orphanEpisode := orphanEpisode l;
     orphanExpiring := orphanExpiring l; tombstoned := tombstoned l; closed := closed l; stopped := stopped l;
     finalScreenTimer := b; episodes := episodes l |}.

Definition installControllerLocked (c : nat) (l : Life) : Life * option nat :=
  (disarmOrphanLocked (set_ctrl (Some c) l), ctrl l).

(** The commit of a handshake: the refusal sent to the peer, or the state with the
    new controller and the previous one. *)
Definition commitLocked (proposed : Generation) (c : nat) (l : Life) : ErrorCode + (Life * option nat) :=
  if closed l then inl CodePhaseUnknown
  else if orphanExpiring l && negb (phase_is l PhaseExited) then inl CodePhaseUnknown
  else if proposed <=? gen l then inl CodeStaleGeneration
  else inr (installControllerLocked c (set_gen proposed l)).

(** What [loseController] does next. *)
Inductive loss := NotCurrent | LostExited | LostArmed (deadline episode : Z) | LostUnarmed.

Definition loseLocked (p : OrphanPolicy) (now : Z) (c : nat) (l : Life) : Life * loss :=
  if negb (bool_decide (ctrl l = Some c)) then (l, NotCurrent)
  else
    let exited := phase_is l PhaseExited in
    let '(l', armed) := armOrphanLocked p now (set_ctrl None l) in
    (l', if exited then LostExited
         else match armed with Some (deadline, episode) => LostArmed deadline episode | None => LostUnarmed end).

Definition beginOrphanTermination (episode : Z) (l : Life) : Life * bool :=
  match orphanTimer l with
  | Some _ => if negb (episode =? orphanEpisode l) || negb (phase_is l PhaseOrphaned) then (l, false)
              else (set_timer None true l, true)
  | None => (l, false)
  end.

(** The locked part of [refreshOrphanDeadline]: [Stop] succeeds on a timer that
    has not expired, and [Reset] gives it another deadline from now on. *)
Definition refreshLocked (p : OrphanPolicy) (now : Z) (l : Life) : option Life :=
  match orphanTimer l with
  | Some t => if negb (phase_is l PhaseOrphaned) || tm_fired t then None
              else Some (set_timer (Some {| tm_episode := tm_episode t; tm_at := now + Deadline p; tm_fired := false |})
                           (orphanExpiring l) l)
  | None => None
  end.

(** The first section of [Close]. *)
Definition closeLocked (l : Life) : Life * option nat :=
  ({| gen := gen l; phase := phase l; ctrl := None; orphanTimer := None; orphanEpisode := u64 (orphanEpisode l + 1);
      orphanExpiring := orphanExpiring l; tombstoned := tombstoned l; closed := true; stopped := stopped l;
      finalScreenTimer := false; episodes := episodes l + 1 |}, ctrl l).

(** The section of [finalizeTerminal] that runs once. *)
Definition finalizeLocked (l : Life) : option Life :=
  if tombstoned l then None
  else Some {| gen := gen l; phase := PhaseExited; ctrl := ctrl l; orphanTimer := orphanTimer l;
               orphanEpisode := orphanEpisode l; orphanExpiring := orphanExpiring l; tombstoned := true;
               closed := closed l; stopped := stopped l; finalScreenTimer := finalScreenTimer l; episodes := episodes l |}.

Definition authorized (g : Generation) (l : Life) : bool := if g =? 0 then false else g =? gen l.

(** The condition under which [publishOrphanRecord] writes. *)
Definition orphan_current (episode : Z) (l : Life) : bool :=
  (orphanEpisode l =? episode) && bool_decide (ctrl l = None) && bool_decide (is_Some (orphanTimer l)) &&
  phase_is l PhaseOrphaned && negb (orphanExpiring l).

(** ** The state under [s.recordMu] *)

Record Recorded := {
  resumeKey : option ResumeKey;
  ackedSeq : Z;
  terminalPublished : bool;
  terminalSeq : Z;
  disk : world
}.

Section recorded.
Context (C : codecs) (dir : dirInfo) (cf : shimConf).

(** The record [publishRecordWithDeadlineLocked] composes. *)
Definition shim_record (p : Phase) (key : option ResumeKey) (now : Z) (deadline : option Z) : DiscoveryRecord := {|
  r_SchemaVersion := recordSchemaVersion cf; r_Workload := recordWorkload cf;
  r_OrgID := OrgID (cf_id cf); r_SessionID := SessionID (cf_id cf); r_ShimID := cf_shimID cf;
  r_ProcessEpoch := cf_epoch cf; r_PID := p_PID (cf_self cf); r_ProcessStartedAt := p_StartedAt (cf_self cf);
  r_ProcessStartTicks := p_StartTicks (cf_self cf); r_BootID := p_BootID (cf_self cf);
  r_SocketPath := cf_socketPath cf; r_SocketDevice := cf_socketDev cf; r_SocketInode := cf_socketIno cf;
  r_ProtocolMin := cf_protocolMin cf; r_ProtocolMax := cf_protocolMax cf; r_Phase := p;
  r_WorkareaPath := cf_workarea cf; r_WorkareaRoot := cf_workareaRoot cf; r_ResumeKey := key;
  r_CreatedAtUnixNano := now; r_OrphanDeadlineUnixNano := match deadline with Some d => d | None => 0 end
|}.

(** The write, and the key cached from it. *)
Definition write_record (r : DiscoveryRecord) (rc : Recorded) : Recorded :=
  let '(w, o) := PutRetainingResumeKey C r (disk rc) in
  {| resumeKey := match o with Ok key => key | _ => resumeKey rc end; ackedSeq := ackedSeq rc;
     terminalPublished := terminalPublished rc; terminalSeq := terminalSeq rc; disk := w |}.

(** What the operating system reports of the end of the harness or runner. *)
Record observation := { ob_exitCode : Z; ob_signal : bytes; ob_lastSeq : Z; ob_reaped : bool; ob_cause : HeadlessExitCause }.

Definition headlessTerminalSeq : Z := 1.

(** The tombstone of [finalizeTerminal] and of [finalizeHeadlessTerminal]. *)
Definition shim_tombstone (ob : observation) (now : Z) : Tombstone := {|
  t_SchemaVersion := recordSchemaVersion cf; t_Workload := recordWorkload cf;
  t_OrgID := OrgID (cf_id cf); t_SessionID := SessionID (cf_id cf); t_ShimID := cf_shimID cf;
  t_ProcessEpoch := cf_epoch cf; t_HarnessPID := p_PID (cf_harness cf); t_HarnessStartedAt := p_StartedAt (cf_harness cf);
  t_ExitCode := ob_exitCode ob; t_Signal := ob_signal ob;
  t_LastSeq := if headless cf then headlessTerminalSeq else ob_lastSeq ob; t_GroupReaped := ob_reaped ob;
  t_ResumeKey := None;
  t_Cause := if headless cf then ob_cause ob else [];
  t_OutboxKey := if headless cf then cf_outboxKey cf else [];
  t_OutboxState := if headless cf then cf_outboxState cf else [];
  t_ObservedAtUnixNano := now
|}.

(** The section of [finalizeTerminal] under [recordMu]. *)
Definition put_tombstone (t : Tombstone) (rc : Recorded) : Recorded :=
  let '(w, o) := PutTombstone C dir (set_tombstone_resume t (resumeKey rc)) (disk rc) in
  match o with
  | Ok _ => {| resumeKey := resumeKey rc; ackedSeq := ackedSeq rc; terminalPublished := true; terminalSeq := t_LastSeq t; disk := w |}
  | _ => {| resumeKey := resumeKey rc; ackedSeq := ackedSeq rc; terminalPublished := terminalPublished rc;
            terminalSeq := terminalSeq rc; disk := w |}
  end.

(** [withdrawStreamFlow]. *)
Definition withdrawStreamFlow (rc : Recorded) : Recorded :=
  {| resumeKey := resumeKey rc; ackedSeq := ackedSeq rc; terminalPublished := terminalPublished rc;
     terminalSeq := terminalSeq rc; disk := (RemoveStreamFlow C (cf_id cf) (cf_shimID cf) (cf_epoch cf) (disk rc)).1 |}.

(** ** Acknowledgements *)

Record HeartbeatMsg := { hb_Generation : Generation; hb_AckedSeq : Z; hb_Phase : Phase; hb_OrphanDeadlineAt : Z }.

Definition ack_cursor (g : Generation) (acked : Z) : durableAckCursor := {|
  a_SchemaVersion := durableAckSchemaVersion; a_OrgID := OrgID (cf_id cf); a_SessionID := SessionID (cf_id cf);
  a_ShimID := cf_shimID cf; a_ProcessEpoch := cf_epoch cf; a_ControllerGeneration := g; a_AckedSeq := acked
|}.

Definition set_acked (a : Z) (w : world) (rc : Recorded) : Recorded :=
  {| resumeKey := resumeKey rc; ackedSeq := a; terminalPublished := terminalPublished rc; terminalSeq := terminalSeq rc; disk := w |}.

Definition receipt (l : Life) (acked : Z) : HeartbeatMsg :=
  {| hb_Generation := gen l; hb_AckedSeq := acked; hb_Phase := phase l; hb_OrphanDeadlineAt := 0 |}.

(** [persistHeartbeatAck] for a connection [c] that selected [selected]: the new
    state, and the refusal or the receipt sent back, with whether the cursor
    advanced.  [hostSeq] is the session's last sequence number, [None] if it could
    not be read. *)
Definition persistHeartbeatAck (c : nat) (selected : Z) (hb : HeartbeatMsg) (hostSeq : option Z) (l : Life) (rc : Recorded)
    : Recorded * (ErrorCode + HeartbeatMsg * bool) :=
  if selected <? V3 then
    if (hb_Generation hb =? 0) || negb (authorized (hb_Generation hb) l) then (rc, inl CodeStaleGeneration)
    else (rc, inr (receipt l 0, false))
  else if terminalPublished rc && (terminalSeq rc <? hb_AckedSeq hb) then (rc, inl CodeExited)
  else if (hb_Generation hb =? 0) || negb (hb_Generation hb =? gen l) || negb (bool_decide (ctrl l = Some c))
  then (rc, inl CodeStaleGeneration)
  else match (if terminalPublished rc then Some (terminalSeq rc) else hostSeq) with
  | None => (rc, inl CodeInternal)
  | Some host =>
      if hb_AckedSeq hb <? ackedSeq rc then (rc, inl CodeMalformed)
      else if host <? hb_AckedSeq hb then (rc, inl CodeMalformed)
      else if ackedSeq rc <? hb_AckedSeq hb then
        if terminalPublished rc then
          (set_acked (hb_AckedSeq hb) (disk rc) rc, inr (receipt l (hb_AckedSeq hb), true))
        else
          let '(w, o) := putDurableAck C (ack_cursor (gen l) (hb_AckedSeq hb)) (disk rc) in
          match o with
          | Ok _ => (set_acked (hb_AckedSeq hb) w rc, inr (receipt l (hb_AckedSeq hb), true))
          | _ => (set_acked (ackedSeq rc) w rc, inl CodeInternal)
          end
      else (rc, inr (receipt l (ackedSeq rc), false))
  end.

(** The fence of [persistHeadlessHeartbeatAck], then its section under
    [recordMu]. *)
Definition headless_heartbeat_fenced (hb : HeartbeatMsg) (l : Life) : bool :=
  (hb_Generation hb =? 0) || negb (authorized (hb_Generation hb) l).

Definition persistHeadlessHeartbeatAck (hb : HeartbeatMsg) (l : Life) (rc : Recorded)
    : Recorded * (ErrorCode + HeartbeatMsg * bool) :=
  if terminalPublished rc && (terminalSeq rc <? hb_AckedSeq hb) then (rc, inl CodeExited)
  else if headlessTerminalSeq <? hb_AckedSeq hb then (rc, inl CodeMalformed)
  else if (hb_AckedSeq hb =? headlessTerminalSeq) && terminalPublished rc
  then (set_acked headlessTerminalSeq (disk rc) rc, inr (receipt l (hb_AckedSeq hb), true))
  else (rc, inr (receipt l (hb_AckedSeq hb), false)).
End recorded.
