(* ===== verification/ShimMachine.v ===== *)
(** * ShimMachine: the goroutines of a shim
    ([src/sessionshim/shim.go], [keepalive.go], [headless_serve.go])

    A shim as a state machine: [tasks] are the points its goroutines have reached,
    and a step runs one of them up to the end of its next critical section, in any
    order.  What the peer sends, whether a write succeeds, the clock, the end of
    the harness and other users of the registry directory are inputs of the step.
    A task that has to wait (for a mutex, for the end of the harness) cannot be
    run.  The waits of a termination for its controller, after the tombstone, and
    of a second [Close] for the first are taken as over at once: they delay the
    continuation, which a step may delay anyway.  The log is a ghost, newest event
    first. *)

From stdpp Require Import gmap relations.
From S2P Require Import Prelude ShimWire ShimPayloads ShimControl GoSort ShimRecord Fence ProcIdentity Registry.
From S2P Require Import RegistryProperties ShimLife.

(** The checks of [handshake] on a decoded Welcome, before the commit. *)
Definition check_welcome (cf : shimConf) (w : Welcome) : option ErrorCode :=
  if negb (bytes_eqb (wl_Protocol w) ProtocolName) then Some CodeVersionMismatch
  else if (wl_Selected w <? cf_protocolMin cf) || (cf_protocolMax cf <? wl_Selected w) then Some CodeVersionMismatch
  else match CheckRequired (wl_Extensions w) with Ok _ => None | _ => Some CodeExtensionRequired end.

(** The generation-fenced operations a controller asks for. *)
Inductive Mutation := MInput | MAttributedInput | MResize | MStop | MSnapshot.

#[export] Instance Mutation_eq_dec : EqDecision Mutation.
Proof. solve_decision. Defined.

(** A frame of a controller, decoded: [FOther] stands for the frames that are
    answered without a state of the shim changing (refused types, frames that do
    not decode, errors, credential and checkpoint requests). *)
Inductive frame :=
| FMutation (op : Mutation) (g : Generation)
| FHeartbeat (hb : HeartbeatMsg)
| FOther.

(** The first message of a connection. *)
Inductive first := FirstWelcome (w : Welcome) | FirstKeepalive | FirstOther.

Record conn := { cn_selected : Z; cn_closed : bool; cn_gen : Generation }.

(** What a publication of the record is followed by. *)
Inductive after := KDone | KUnlock | KInstalled (c : nat) (prev : option nat).
(** What a finalization is followed by. *)
Inductive ending := EDone | EOnce | EWatch.

Inductive task :=
| TPublishOrphan (episode deadline : Z) (k : after)
| TCompose (deadline : option Z) (k : after)
| TWriteRecord (r : DiscoveryRecord) (k : after)
| THello
| TCommit (w : Welcome)
| TRefresh (deadline : Z)
| TPublishCurrent (deadline : Z)
| TInstalled (c : nat) (prev : option nat)
| TUnlockHandshake
| TRead (c : nat)
| TDispatch (c : nat) (f : frame)
| TEffect (c : nat) (op : Mutation) (g : Generation)
| TLose (c : nat) (k : after)
| TLoseLocked (c : nat) (k : after)
| TDeadline (episode : Z)
| TTerminate
| TAwaitHarness (e : ending)
| TFinalize (e : ending)
| TPutTombstone (t : Tombstone) (e : ending)
| TWatch
| TWatchEnd
| TFinalScreen
| TClose (k : after)
| TCloseConn (prev : option nat) (k : after)
| THeadlessAck (c : nat) (hb : HeartbeatMsg).

Inductive event :=
| EvInstalled (c : nat) (g : Generation)
| EvAuthorized (c : nat) (op : Mutation) (g : Generation)
| EvEffect (c : nat) (op : Mutation) (g : Generation)
| EvPromised (deadline : Z)
| EvExpired (at_ : Z).

#[export] Instance event_eq_dec : EqDecision event.
Proof. solve_decision. Defined.

(** The mutexes held, and the [sync.Once]s used: [stopOnce] started and finished,
    [closeOnce] started. *)
Record Sync := { recordMu : bool; handshakeMu : bool; stopOnce : bool; stopOnceDone : bool; closeOnce : bool; done : bool }.

Record Machine := {
  life : Life;
  recorded : Recorded;
  sync : Sync;
  conns : list conn;
  clock : Z;
  harnessDone : bool;
  tasks : list task;
  log : list event
}.

Definition set_life (l : Life) (m : Machine) : Machine :=
  {| life := l; recorded := recorded m; sync := sync m; conns := conns m; clock := clock m; harnessDone := harnessDone m;
     tasks := tasks m; log := log m |}.
Definition set_recorded (r : Recorded) (m : Machine) : Machine :=
  {| life := life m; recorded := r; sync := sync m; conns := conns m; clock := clock m; harnessDone := harnessDone m;
     tasks := tasks m; log := log m |}.
Definition set_sync (s : Sync) (m : Machine) : Machine :=
  {| life := life m; recorded := recorded m; sync := s; conns := conns m; clock := clock m; harnessDone := harnessDone m;
     tasks := tasks m; log := log m |}.
Definition set_conns (cs : list conn) (m : Machine) : Machine :=
  {| life := life m; recorded := recorded m; sync := sync m; conns := cs; clock := clock m; harnessDone := harnessDone m;
     tasks := tasks m; log := log m |}.
Definition set_tasks (ts : list task) (m : Machine) : Machine :=
  {| life := life m; recorded := recorded m; sync := sync m; conns := conns m; clock := clock m; harnessDone := harnessDone m;
     tasks := ts; log := log m |}.
Definition note (e : event) (m : Machine) : Machine :=
  {| life := life m; recorded := recorded m; sync := sync m; conns := conns m; clock := clock m; harnessDone := harnessDone m;
     tasks := tasks m; log := e :: log m |}.

Definition lock_record (b : bool) (s : Sync) : Sync :=
  {| recordMu := b; handshakeMu := handshakeMu s; stopOnce := stopOnce s; stopOnceDone := stopOnceDone s;
     closeOnce := closeOnce s; done := done s |}.
Definition lock_handshake (b : bool) (s : Sync) : Sync :=
  {| recordMu := recordMu s; handshakeMu := b; stopOnce := stopOnce s; stopOnceDone := stopOnceDone s;
     closeOnce := closeOnce s; done := done s |}.
Definition stop_once (finished : bool) (s : Sync) : Sync :=
  {| recordMu := recordMu s; handshakeMu := handshakeMu s; stopOnce := true; stopOnceDone := finished;
     closeOnce := closeOnce s; done := done s |}.
Definition close_once (s : Sync) : Sync :=
  {| recordMu := recordMu s; handshakeMu := handshakeMu s; stopOnce := stopOnce s; stopOnceDone := stopOnceDone s;
     closeOnce := true; done := done s |}.

Definition close_conn (c : conn) : conn := {| cn_selected := cn_selected c; cn_closed := true; cn_gen := cn_gen c |}.
Definition close_conns (c : option nat) (m : Machine) : Machine :=
  match c with Some i => set_conns (alter close_conn i (conns m)) m | None => m end.

Definition closeDoneWhenStopped (m : Machine) : Machine :=
  if stopped (life m) && terminalPublished (recorded m)
  then set_sync {| recordMu := recordMu (sync m); handshakeMu := handshakeMu (sync m); stopOnce := stopOnce (sync m);
                   stopOnceDone := stopOnceDone (sync m); closeOnce := closeOnce (sync m); done := true |} m
  else m.

Definition after_publish (k : after) : list task :=
  match k with KDone => [] | KUnlock => [TUnlockHandshake] | KInstalled c prev => [TInstalled c prev] end.

(** Attributed input and snapshot requests need a selected version. *)
Definition legal_in (selected : Z) (op : Mutation) : bool :=
  match op with MAttributedInput => V4 <=? selected | MSnapshot => V2 <=? selected | _ => true end.

(** The outside of one step: whether the writes to the peer succeed, the first
    message or the frame read ([None]: the read failed), the sampled host sequence
    number, and the end observed. *)
Record input := {
  in_ok : bool; in_first : first; in_frame : option frame; in_hostSeq : option Z; in_observation : observation
}.

Section machine.
Context (C : codecs) (dir : dirInfo) (cf : shimConf).

(** Where a connection continues after an answer. *)
Definition next_frame (i : input) (c : nat) : list task := if in_ok i then [TRead c] else [TLose c KDone].

(** A generation-fenced operation. *)
Definition fenced_operation (i : input) (c : nat) (op : Mutation) (g : Generation) (m : Machine) : Machine * list task :=
  if authorized g (life m) then (note (EvAuthorized c op g) m, [TEffect c op g]) else (m, next_frame i c).

Definition dispatch (i : input) (c : nat) (selected : Z) (f : frame) (m : Machine) : option (Machine * list task) :=
  match f with
  | FOther => Some (m, next_frame i c)
  | FMutation op g => Some (if legal_in selected op then fenced_operation i c op g m else (m, next_frame i c))
  | FHeartbeat hb =>
      if (V3 <=? selected) && recordMu (sync m) then None
      else
        let '(rc, _) := persistHeartbeatAck C cf c selected hb (in_hostSeq i) (life m) (recorded m) in
        Some (set_recorded rc m, next_frame i c)
  end.

(** A headless connection carries only [Stop] and heartbeats. *)
Definition dispatchHeadless (i : input) (c : nat) (f : frame) (m : Machine) : option (Machine * list task) :=
  match f with
  | FMutation MStop g => Some (fenced_operation i c MStop g m)
  | FHeartbeat hb => Some (m, if headless_heartbeat_fenced hb (life m) then next_frame i c else [THeadlessAck c hb])
  | _ => Some (m, next_frame i c)
  end.

(** Each definition below is one section of a goroutine, up to the end of its next
    critical section: the new state and where its goroutine, and those it started,
    continue; [None] when it has to wait. *)
Abbreviation section := (option (Machine * list task)).

(** *** Publishing the record *)

Definition publishOrphanRecord (episode deadline : Z) (k : after) (m : Machine) : section :=
  if recordMu (sync m) then None
  else if orphan_current episode (life m) then Some (set_sync (lock_record true (sync m)) m, [TCompose (Some deadline) k])
  else Some (m, after_publish k).

(** [publishRecordWithDeadlineLocked]: the sample under [s.mu], then the write. *)
Definition compose_record (deadline : option Z) (k : after) (m : Machine) : section :=
  if tombstoned (life m) then Some (set_sync (lock_record false (sync m)) m, after_publish k)
  else Some (m, [TWriteRecord (shim_record cf (phase (life m)) (resumeKey (recorded m)) (clock m) deadline) k]).
Definition put_record (r : DiscoveryRecord) (k : after) (m : Machine) : section :=
  Some (set_sync (lock_record false (sync m)) (set_recorded (write_record C r (recorded m)) m), after_publish k).

(** [publishRecordWithDeadline] of a keepalive. *)
Definition publish_current (deadline : Z) (m : Machine) : section :=
  Some (m, [TPublishOrphan (orphanEpisode (life m)) deadline KUnlock]).

(** *** The handshake *)

(** The first message of a connection, up to the commit or the keepalive. *)
Definition read_welcome (i : input) (m : Machine) : section :=
  match in_first i with
  | FirstOther => Some (m, [TUnlockHandshake])
  | FirstKeepalive => Some (m, [TRefresh (clock m + Deadline (cf_orphan cf))])
  | FirstWelcome w =>
      match check_welcome cf w with Some _ => Some (m, [TUnlockHandshake]) | None => Some (m, [TCommit w]) end
  end.

Definition commit_welcome (w : Welcome) (m : Machine) : section :=
  if recordMu (sync m) then None
  else
    let c := length (conns m) in
    match commitLocked (wl_ProposedGeneration w) c (life m) with
    | inl _ => Some (m, [TUnlockHandshake])
    | inr (l', prev) =>
        let new := {| cn_selected := wl_Selected w; cn_closed := false; cn_gen := wl_ProposedGeneration w |} in
        Some (note (EvInstalled c (wl_ProposedGeneration w))
                (set_sync (lock_record true (sync m)) (set_conns (conns m ++ [new]) (set_life l' m))),
              [TCompose None (KInstalled c prev)])
    end.

(** After the commit: the previous controller is closed, the new one is answered
    and its loops start, unless a write failed or it was closed meanwhile. *)
Definition answer_welcome (i : input) (c : nat) (prev : option nat) (m : Machine) : section :=
  let m := close_conns prev m in
  if in_ok i && match conns m !! c with Some x => negb (cn_closed x) | None => false end
  then Some (set_sync (lock_handshake false (sync m)) m, [TRead c])
  else Some (m, [TLose c KUnlock]).

Definition unlock_handshake (m : Machine) : section := Some (set_sync (lock_handshake false (sync m)) m, []).

Definition serveOrphanKeepalive (deadline : Z) (m : Machine) : section :=
  match refreshLocked (cf_orphan cf) (clock m) (life m) with
  | Some l' => Some (note (EvPromised deadline) (set_life l' m), [TPublishCurrent deadline])
  | None => Some (m, [TUnlockHandshake])
  end.

(** *** A controller *)

Definition readControl (i : input) (c : nat) (m : Machine) : section :=
  match conns m !! c, in_frame i with
  | Some x, Some f => if cn_closed x then Some (m, [TLose c KDone]) else Some (m, [TDispatch c f])
  | _, _ => Some (m, [TLose c KDone])
  end.

(** What a frame that was let through does. *)
Definition run_effect (i : input) (c : nat) (op : Mutation) (g : Generation) (m : Machine) : section :=
  Some (note (EvEffect c op g) m,
        match op with
        | MStop => [if headless cf then TAwaitHarness EDone else TTerminate; TRead c]
        | _ => next_frame i c
        end).

Definition headless_ack (i : input) (c : nat) (hb : HeartbeatMsg) (m : Machine) : section :=
  if recordMu (sync m) then None
  else
    let '(rc, _) := persistHeadlessHeartbeatAck hb (life m) (recorded m) in
    Some (set_recorded rc m, next_frame i c).

Definition close_lost (c : nat) (k : after) (m : Machine) : section := Some (close_conns (Some c) m, [TLoseLocked c k]).

Definition loseController (c : nat) (k : after) (m : Machine) : section :=
  let '(l', what) := loseLocked (cf_orphan cf) (clock m) c (life m) in
  Some (set_life l' m,
        match what with
        | NotCurrent | LostUnarmed => after_publish k
        | LostExited => [TClose k]
        | LostArmed deadline episode => [TPublishOrphan episode deadline k]
        end).

(** *** The end of the harness *)

Definition onOrphanDeadline (episode : Z) (m : Machine) : section :=
  let '(l', won) := beginOrphanTermination episode (life m) in
  if won then Some (note (EvExpired (clock m)) (set_life l' m), [TTerminate]) else Some (m, []).

Definition Terminate (m : Machine) : section :=
  if stopOnce (sync m) then (if stopOnceDone (sync m) then Some (m, []) else None)
  else Some (set_sync (stop_once false (sync m)) m, [TAwaitHarness EOnce]).

Definition await_harness (e : ending) (m : Machine) : section := if harnessDone m then Some (m, [TFinalize e]) else None.

(** The return of a finalization. *)
Definition finalized (e : ending) (m : Machine) : Machine * list task :=
  (match e with EDone => m | _ => set_sync (stop_once true (sync m)) m end, match e with EWatch => [TWatchEnd] | _ => [] end).

Definition finalizeTerminal (i : input) (e : ending) (m : Machine) : section :=
  match finalizeLocked (life m) with
  | Some l' => Some (set_life l' m, [TPutTombstone (shim_tombstone cf (in_observation i) (clock m)) e])
  | None => Some (finalized e m)
  end.

(** The tombstone's write; [closeDoneWhenStopped] changes nothing if it failed. *)
Definition publish_tombstone (t : Tombstone) (e : ending) (m : Machine) : section :=
  if recordMu (sync m) then None
  else
    let m := set_recorded (put_tombstone C dir t (recorded m)) m in
    let m := closeDoneWhenStopped m in
    Some (finalized e m).

Definition watchHarness (m : Machine) : section :=
  if negb (harnessDone m) then None
  else if stopOnce (sync m) then (if stopOnceDone (sync m) then Some (m, [TWatchEnd]) else None)
  else Some (set_sync (stop_once false (sync m)) m, [TFinalize EWatch]).

Definition watch_end (m : Machine) : section :=
  match ctrl (life m) with
  | None => Some (m, [TClose KDone])
  | Some _ => Some (m, [TFinalScreen])
  end.

Definition beginFinalScreenWindow (m : Machine) : section :=
  Some (if closed (life m) then m else set_life (set_finalScreen true (life m)) m, []).

Definition Shim_Close (k : after) (m : Machine) : section :=
  if closeOnce (sync m) then Some (m, after_publish k)
  else
    let '(l', prev) := closeLocked (life m) in
    Some (set_sync (close_once (sync m)) (set_life l' m), [TCloseConn prev k]).

Definition close_rest (prev : option nat) (k : after) (m : Machine) : section :=
  let m := close_conns prev m in
  Some (closeDoneWhenStopped (set_life (set_stopped (life m)) (set_recorded (withdrawStreamFlow C cf (recorded m)) m)),
        after_publish k).

Definition exec (i : input) (t : task) (m : Machine) : section :=
  match t with
  | TPublishOrphan episode deadline k => publishOrphanRecord episode deadline k m
  | TCompose deadline k => compose_record deadline k m
  | TWriteRecord r k => put_record r k m
  | THello => read_welcome i m
  | TCommit w => commit_welcome w m
  | TInstalled c prev => answer_welcome i c prev m
  | TUnlockHandshake => unlock_handshake m
  | TRefresh deadline => serveOrphanKeepalive deadline m
  | TPublishCurrent deadline => publish_current deadline m
  | TRead c => readControl i c m
  | TDispatch c f =>
      match conns m !! c with
      | Some x => if headless cf then dispatchHeadless i c f m else dispatch i c (cn_selected x) f m
      | None => None
      end
  | TEffect c op g => run_effect i c op g m
  | THeadlessAck c hb => headless_ack i c hb m
  | TLose c k => close_lost c k m
  | TLoseLocked c k => loseController c k m
  | TDeadline episode => onOrphanDeadline episode m
  | TTerminate => Terminate m
  | TAwaitHarness e => await_harness e m
  | TFinalize e => finalizeTerminal i e m
  | TPutTombstone t e => publish_tombstone t e m
  | TWatch => watchHarness m
  | TWatchEnd => watch_end m
  | TFinalScreen => beginFinalScreenWindow m
  | TClose k => Shim_Close k m
  | TCloseConn prev k => close_rest prev k m
  end.

(** A live discovery record of this incarnation. *)
Definition live_record (w : world) : Prop :=
  exists n r, is_record_name n /\ on_disk (decodeRecord (j_record C)) (files w) n r /\
    same_incarnation (cf_id cf) (cf_shimID cf) (cf_epoch cf) r = true.

Definition set_disk (w : world) (m : Machine) : Machine :=
  set_recorded {| resumeKey := resumeKey (recorded m); ackedSeq := ackedSeq (recorded m);
                  terminalPublished := terminalPublished (recorded m); terminalSeq := terminalSeq (recorded m); disk := w |} m.

Definition tick (d : Z) (m : Machine) : Machine :=
  {| life := life m; recorded := recorded m; sync := sync m; conns := conns m; clock := clock m + d; harnessDone := harnessDone m;
     tasks := tasks m; log := log m |}.
Definition harness_ends (m : Machine) : Machine :=
  {| life := life m; recorded := recorded m; sync := sync m; conns := conns m; clock := clock m; harnessDone := true;
     tasks := tasks m; log := log m |}.

Inductive step : Machine -> Machine -> Prop :=
| step_task m i a t b m' ks : tasks m = a ++ t :: b -> exec i t (set_tasks (a ++ b) m) = Some (m', ks) ->
    step m (set_tasks (tasks m' ++ ks) m')
| step_tick m d : 0 <= d -> step m (tick d m)
| step_fire m t : orphanTimer (life m) = Some t -> tm_fired t = false -> tm_at t <= clock m ->
    step m (set_tasks (tasks m ++ [TDeadline (tm_episode t)])
              (set_life (set_timer (Some {| tm_episode := tm_episode t; tm_at := tm_at t; tm_fired := true |})
                           (orphanExpiring (life m)) (life m)) m))
| step_connect m : handshakeMu (sync m) = false ->
    step m (set_tasks (tasks m ++ [THello]) (set_sync (lock_handshake true (sync m)) m))
| step_harness m : step m (harness_ends m)
| step_final m : finalScreenTimer (life m) = true ->
    step m (set_tasks (tasks m ++ [TClose KDone]) (set_life (set_finalScreen false (life m)) m))
| step_disk m w : (live_record w -> live_record (disk (recorded m))) -> step m (set_disk w m).

(** [Start]: the record has been written and the deadline armed. *)
Definition idle : Life :=
  {| gen := 0; phase := PhaseRunning; ctrl := None; orphanTimer := None; orphanEpisode := 0; orphanExpiring := false;
     tombstoned := false; closed := false; stopped := false; finalScreenTimer := false; episodes := 0 |}.

Definition Start (w : world) (now : Z) : Machine :=
  let '(l, armed) := armOrphanLocked (cf_orphan cf) now idle in
  {| life := l;
     recorded := write_record C (shim_record cf PhaseRunning None now None)
       {| resumeKey := None; ackedSeq := 0; terminalPublished := false; terminalSeq := 0; disk := w |};
     sync := {| recordMu := false; handshakeMu := false; stopOnce := false; stopOnceDone := false; closeOnce := false; done := false |};
     conns := []; clock := now; harnessDone := false;
     tasks := match armed with Some (deadline, episode) => [TPublishOrphan episode deadline KDone] | None => [] end ++ [TWatch];
     log := [] |}.

Inductive running : Machine -> Prop :=
| run_start w now : running (Start w now)
| run_step m m' : running m -> step m m' -> running m'.
End machine.
