(* ===== verification/ShimMachineProperties.v ===== *)
(** * ShimMachineProperties: what holds however the goroutines of a shim interleave

    The invariants of [ShimMachine] by induction on the steps, and the theorems:
    a shim without a controller is always bounded by a deadline, generations fence
    the frames of superseded controllers, an announced deadline is kept, and a
    session that was declared ended is not published as live again. *)

From Stdlib Require Import Btauto.
From stdpp Require Import gmap relations.
From S2P Require Import Prelude ShimWire ShimPayloads ShimControl GoSort ShimRecord Fence ProcIdentity Registry.
From S2P Require Import RegistryProperties ShimLife ShimMachine.

#[local] Arguments PhaseRunning : simpl never.
#[local] Arguments PhaseOrphaned : simpl never.
#[local] Arguments PhaseExited : simpl never.
#[local] Arguments bytes_eqb : simpl never.

Ltac open_sections :=
  unfold publishOrphanRecord, compose_record, put_record, read_welcome, commit_welcome, answer_welcome, unlock_handshake,
    serveOrphanKeepalive, publish_current, readControl, run_effect, headless_ack, close_lost, loseController, onOrphanDeadline, Terminate,
    next_frame, await_harness, finalizeTerminal, publish_tombstone, watchHarness, watch_end, beginFinalScreenWindow, Shim_Close, close_rest, finalized.

(** The sections, one case each. *)
Ltac split_task t :=
  destruct t as [ep dl k|dl k|r k| |w|dl|dl|c prev| |c|c f|c op g|c k|c k|ep| |e|e|t e| | | |k|prev k|c2 hb2];
    cbn [exec]; open_sections.

(** The kinds of a step. *)
Ltac split_step H := destruct H as [m i a t b m' ks Ht He|m d Hd|m t Ht Hf Ha|m Hh|m|m Hf|m w Hw].

(** ** The lifecycle state *)

Lemma phase_is_spec l p : phase_is l p = true <-> phase l = p.
Proof. apply bytes_eqb_eq. Qed.

Lemma phase_is_false l p : phase_is l p = false <-> phase l <> p.
Proof. rewrite <- phase_is_spec. by destruct (phase_is l p). Qed.

Lemma running_not_orphaned : PhaseRunning <> PhaseOrphaned.
Proof. discriminate. Qed.
Lemma exited_not_orphaned : PhaseExited <> PhaseOrphaned.
Proof. discriminate. Qed.
Lemma running_not_exited : PhaseRunning <> PhaseExited.
Proof. discriminate. Qed.

(** The invariant of [Life], for the orphan deadline [D] and the time [now]. *)
Record life_inv (D now : Z) (l : Life) : Prop := {
  li_phase : phase l = PhaseRunning \/ phase l = PhaseOrphaned \/ phase l = PhaseExited;
  li_timer : forall t, orphanTimer l = Some t ->
    ctrl l = None /\ phase l <> PhaseRunning /\ closed l = false /\ tm_episode t = orphanEpisode l /\
    tm_at t <= now + D /\ (tm_fired t = true -> tm_at t <= now);
  li_orphan : phase l = PhaseOrphaned ->
    ctrl l = None /\ (closed l = true \/ orphanExpiring l = true \/ is_Some (orphanTimer l));
  li_ctrl : is_Some (ctrl l) -> closed l = false /\ (orphanExpiring l = true -> phase l = PhaseExited);
  li_running : phase l = PhaseRunning -> closed l = false -> is_Some (ctrl l);
  li_expiring : orphanExpiring l = true -> orphanTimer l = None /\ phase l <> PhaseRunning;
  li_tombstoned : tombstoned l = true <-> phase l = PhaseExited;
  li_episode : orphanEpisode l = u64 (episodes l) /\ 0 <= episodes l
}.

Lemma u64_succ e n : e = u64 n -> u64 (e + 1) = u64 (n + 1).
Proof. intros ->. unfold u64. by rewrite Zplus_mod_idemp_l. Qed.

Section life.
Context (p : OrphanPolicy) (now : Z).
Abbreviation I := (life_inv (Deadline p) now).

Lemma arm_inv l : I l -> ctrl l = None -> closed l = false -> I (fst (armOrphanLocked p now l)).
Proof.
  intros H Hc Hx. unfold armOrphanLocked. destruct (_ || _) eqn:E; [done|]. apply orb_false_iff in E as [E1 E2].
  apply phase_is_false in E1. pose proof (li_tombstoned _ _ _ H) as Ht. destruct (li_episode _ _ _ H) as [He Hn].
  constructor; cbn; try done.
  - by auto.
  - intros t [= <-]. cbn. repeat split; try done; lia.
  - intros _. split; [done|]. eauto.
  - intros [c E]. congruence.
  - congruence.
  - split; [|discriminate]. tauto.
  - split; [by apply u64_succ|lia].
Qed.

Lemma commit_life_inv g c l l' prev : I l -> commitLocked g c l = inr (l', prev) -> I l'.
Proof.
  intros H. unfold commitLocked. destruct (closed l) eqn:Hx; [done|]. destruct (_ && _) eqn:Ex; [done|].
  destruct (_ <=? _); [done|]. intros [= <- <-]. destruct (li_episode _ _ _ H) as [He Hn].
  apply andb_false_iff in Ex. rewrite negb_false_iff, phase_is_spec in Ex.
  pose proof (li_tombstoned _ _ _ H) as Ht. unfold disarmOrphanLocked, set_ctrl, set_gen. constructor; cbn; unfold phase_is; cbn.
  - destruct (bytes_eqb (phase l) PhaseOrphaned); [auto|apply H].
  - done.
  - destruct (bytes_eqb (phase l) PhaseOrphaned) eqn:E; [discriminate|]. intros E'. rewrite E' in E. by rewrite bytes_eqb_refl in E.
  - intros _. split; [done|]. intros Hex. destruct Ex as [Ex|Ex]; [congruence|]. rewrite Ex. done.
  - eauto.
  - intros Hex. split; [done|]. destruct Ex as [Ex|Ex]; [congruence|]. rewrite Ex. done.
  - rewrite Ht. destruct (bytes_eqb (phase l) PhaseOrphaned) eqn:E; [|done]. apply bytes_eqb_eq in E. rewrite E. by split; intros ?; discriminate.
  - split; [by apply u64_succ|lia].
Qed.

Lemma lose_inv c l : I l -> I (fst (loseLocked p now c l)).
Proof.
  intros H. unfold loseLocked. case_bool_decide as Hc; [|done]. cbn [negb].
  destruct (li_ctrl _ _ _ H) as [Hx Hex]; [by eexists|].
  assert (orphanTimer l = None) as Ht.
  { destruct (orphanTimer l) as [t|] eqn:E; [|done]. destruct (li_timer _ _ _ H t E) as [E' _]. congruence. }
  destruct (phase_is l PhaseExited) eqn:Hp.
  - assert (armOrphanLocked p now (set_ctrl None l) = (set_ctrl None l, None)) as ->
      by (unfold armOrphanLocked, phase_is; cbn; fold (phase_is l PhaseExited); by rewrite Hp).
    apply phase_is_spec in Hp. destruct H. constructor; cbn; try done.
    + intros t E. congruence.
    + intros E. rewrite Hp in E. discriminate E.
    + intros E. rewrite Hp in E. discriminate E.
  - apply phase_is_false in Hp. unfold armOrphanLocked, phase_is. cbn. fold (phase_is l PhaseExited).
    rewrite (proj2 (phase_is_false l PhaseExited) Hp). cbn.
    assert (orphanExpiring l = false) as -> by (destruct (orphanExpiring l) eqn:E; [|done]; by destruct Hp; apply Hex).
    destruct (li_episode _ _ _ H) as [He Hn]. pose proof (li_tombstoned _ _ _ H) as Htb. constructor; cbn; try done.
    + auto.
    + intros t [= <-]. cbn. repeat split; try done; lia.
    + intros _. split; [done|]. eauto.
    + split; [tauto|discriminate].
    + split; [by apply u64_succ|lia].
Qed.

Lemma begin_inv ep l : I l -> I (fst (beginOrphanTermination ep l)).
Proof.
  intros H. unfold beginOrphanTermination. destruct (orphanTimer l) as [t|] eqn:Ht; [|done].
  destruct (_ || _) eqn:E; [done|]. apply orb_false_iff in E as [_ E]. apply negb_false_iff, phase_is_spec in E.
  destruct (li_timer _ _ _ H t Ht) as (Hc & Hr & Hx & _). destruct H. constructor; cbn; try done.
  - intros _. split; [done|]. auto.
  - intros [? E']. congruence.
Qed.

Lemma refresh_inv l l' : I l -> refreshLocked p now l = Some l' -> I l'.
Proof.
  intros H. unfold refreshLocked. destruct (orphanTimer l) as [t|] eqn:Ht; [|done]. destruct (_ || _) eqn:E; [done|].
  intros [= <-]. destruct (li_timer _ _ _ H t Ht) as (Hc & Hr & Hx & He & _). pose proof (li_expiring _ _ _ H) as Hex.
  destruct H. constructor; cbn; try done.
  - intros t' [= <-]. cbn. repeat split; try done; lia.
  - intros E'. split; [done|]. eauto.
  - intros E'. specialize (Hex E'). destruct Hex. congruence.
Qed.

Lemma close_inv l : I l -> I (fst (closeLocked l)).
Proof.
  intros H. destruct (li_episode _ _ _ H) as [He Hn]. destruct H. constructor; cbn; try done.
  - intros _. auto.
  - intros E. destruct (li_expiring0 E). done.
  - split; [by apply u64_succ|lia].
Qed.

Lemma finalize_inv' l l' : I l -> finalizeLocked l = Some l' -> I l'.
Proof.
  intros H. unfold finalizeLocked. destruct (tombstoned l); [done|]. intros [= <-]. destruct H. constructor; cbn; try done.
  - auto.
  - intros t E. destruct (li_timer0 t E) as (? & ? & ?). split; [done|]. split; [done|]. done.
  - intros E. split; [|done]. by apply li_ctrl0.
  - intros E. destruct (li_expiring0 E). done.
Qed.

Lemma fire_inv t l : I l -> orphanTimer l = Some t -> tm_at t <= now ->
  I (set_timer (Some {| tm_episode := tm_episode t; tm_at := tm_at t; tm_fired := true |}) (orphanExpiring l) l).
Proof.
  intros H Ht Hn. destruct (li_timer _ _ _ H t Ht) as (Hc & Hr & Hx & He & Ha & _). pose proof (li_expiring _ _ _ H) as Hex.
  destruct H. constructor; cbn; try done.
  - intros t' [= <-]. cbn. repeat split; try done; lia.
  - intros E. split; [done|]. eauto.
  - intros E. destruct (Hex E). congruence.
Qed.

Lemma stopped_inv l : I l -> I (set_stopped l).
Proof. intros []. by constructor. Qed.
Lemma finalScreen_inv b l : I l -> I (set_finalScreen b l).
Proof. intros []. by constructor. Qed.
End life.

Lemma tick_inv D now d l : 0 <= d -> life_inv D now l -> life_inv D (now + d) l.
Proof.
  intros Hd []. constructor; try done. intros t E. destruct (li_timer0 t E) as (? & ? & ? & ? & ? & Hf).
  repeat split; try done; [lia|]. intros F. specialize (Hf F). lia.
Qed.

(** ** One section of a goroutine *)

Section exec.
Context (C : codecs) (dir : dirInfo) (cf : shimConf).
Abbreviation D := (Deadline (cf_orphan cf)).

Lemma close_conns_same c m : life (close_conns c m) = life m /\ recorded (close_conns c m) = recorded m /\
  sync (close_conns c m) = sync m /\ clock (close_conns c m) = clock m /\ tasks (close_conns c m) = tasks m /\
  log (close_conns c m) = log m /\ length (conns (close_conns c m)) = length (conns m).
Proof. destruct c; cbn; rewrite ?length_alter; done. Qed.

Lemma closeDone_same m : life (closeDoneWhenStopped m) = life m /\ recorded (closeDoneWhenStopped m) = recorded m /\
  recordMu (sync (closeDoneWhenStopped m)) = recordMu (sync m) /\ clock (closeDoneWhenStopped m) = clock m /\
  tasks (closeDoneWhenStopped m) = tasks m /\ log (closeDoneWhenStopped m) = log m /\
  conns (closeDoneWhenStopped m) = conns m.
Proof. unfold closeDoneWhenStopped. by destruct (_ && _). Qed.

(** The lifecycle moves by one of its functions. *)
Inductive life_step (now : Z) (l : Life) : Life -> Prop :=
| ls_same : life_step now l l
| ls_commit g c l' prev : commitLocked g c l = inr (l', prev) -> life_step now l l'
| ls_lose c : life_step now l (fst (loseLocked (cf_orphan cf) now c l))
| ls_begin e : life_step now l (fst (beginOrphanTermination e l))
| ls_refresh l' : refreshLocked (cf_orphan cf) now l = Some l' -> life_step now l l'
| ls_close : life_step now l (fst (closeLocked l))
| ls_finalize l' : finalizeLocked l = Some l' -> life_step now l l'
| ls_stopped : life_step now l (set_stopped l)
| ls_screen b : life_step now l (set_finalScreen b l).

#[local] Hint Constructors life_step : core.

Lemma exec_life i t m m' ks : exec C dir cf i t m = Some (m', ks) ->
  tasks m' = tasks m /\ clock m' = clock m /\ life_step (clock m) (life m) (life m').
Proof.
  split_task t; intros H.
  all: try (repeat case_match; simplify_eq; cbn; auto; fail).
  - repeat case_match; simplify_eq; cbn; eauto.
  - destruct (close_conns_same prev m) as (E1 & _ & _ & E2 & E3 & _). repeat case_match; simplify_eq; cbn; rewrite ?E1, ?E2, ?E3; auto.
  - unfold dispatch, dispatchHeadless, fenced_operation, next_frame in H. repeat case_match; simplify_eq; cbn; auto.
  - destruct (loseLocked _ _ _ _) as [l' wh] eqn:E. simplify_eq. cbn. split_and!; [done..|]. change l' with (fst (l', wh)). rewrite <- E. constructor.
  - destruct (beginOrphanTermination _ _) as [l' won] eqn:E. destruct won; simplify_eq; cbn; split_and!; try done.
    change l' with (fst (l', true)). rewrite <- E. constructor.
  - destruct (recordMu (sync m)); [done|].
    destruct (closeDone_same (set_recorded (put_tombstone C dir t (recorded m)) m)) as (E1 & _ & _ & E2 & E3 & _).
    destruct e; simplify_eq; cbn; rewrite ?E1, ?E2, ?E3; auto.
  - destruct (closeOnce (sync m)); [simplify_eq; auto|]. pose proof (ls_close (clock m) (life m)) as L.
    destruct (closeLocked (life m)) as [l' prev]. simplify_eq. by cbn.
  - destruct (close_conns_same prev m) as (E1 & _ & _ & E2 & E3 & _). simplify_eq.
    match goal with |- context [closeDoneWhenStopped ?x] => destruct (closeDone_same x) as (F1 & _ & _ & F2 & F3 & _) end.
    rewrite F1, F2, F3. cbn. rewrite E1, E2, E3. auto.
Qed.

Lemma life_step_inv now l l' : life_inv D now l -> life_step now l l' -> life_inv D now l'.
Proof.
  intros H []; eauto using commit_life_inv, lose_inv, begin_inv, refresh_inv, close_inv, finalize_inv', stopped_inv, finalScreen_inv.
Qed.

(** What a section does to the orphan timer and the episode counter. *)
Lemma life_step_timer now l l' : life_step now l l' ->
  episodes l <= episodes l' /\
  forall t', orphanTimer l' = Some t' ->
    orphanTimer l = Some t' \/
    (tm_at t' = now + D /\ tm_fired t' = false /\
     (episodes l' = episodes l -> exists t, orphanTimer l = Some t /\ tm_fired t = false)).
Proof.
  intros []; cbn; try (split; [lia|]; intros t' Ht'; first [discriminate|by left]).
  - revert H. unfold commitLocked. repeat case_match; try done. intros [= <- <-]. cbn. split; [lia|done].
  - unfold loseLocked. case_bool_decide; cbn [negb]; [|cbn; split; [lia|]; intros t' Ht'; by left].
    unfold armOrphanLocked. destruct (_ || _); cbn; [split; [lia|]; intros t' Ht'; by left|]. split; [lia|]. intros t' [= <-]. right. cbn. split_and!; [done..|lia].
  - assert (fst (beginOrphanTermination e l) = l \/ fst (beginOrphanTermination e l) = set_timer None true l) as [-> | ->]
      by (unfold beginOrphanTermination; destruct (orphanTimer l); [destruct (_ || _)|]; auto).
    + split; [lia|]. intros t' Ht'. by left.
    + cbn. split; [lia|done].
  - revert H. unfold refreshLocked. destruct (orphanTimer l) as [t|] eqn:Ht; [|done]. destruct (_ || _) eqn:E; [done|]. intros [= <-]. cbn.
    split; [lia|]. intros t' [= <-]. right. cbn. split_and!; [done..|]. intros _. exists t. split; [done|]. by apply orb_false_iff in E as [_ ->].
  - revert H. unfold finalizeLocked. destruct (tombstoned l); [done|]. intros [= <-]. cbn. split; [lia|]. intros t' Ht'. by left.
Qed.

Lemma step_life m m' : step C dir cf m m' -> life_inv D (clock m) (life m) -> life_inv D (clock m') (life m').
Proof.
  intros Hst H. split_step Hst; cbn; try done.
  - destruct (exec_life _ _ _ _ _ He) as (_ & Hc & Hl). cbn in Hc, Hl. rewrite Hc. by eapply life_step_inv.
  - by apply tick_inv.
  - by apply fire_inv.
  - by apply finalScreen_inv.
Qed.

Lemma Start_life w now : life_inv D now (life (Start C cf w now)).
Proof.
  unfold Start. assert (life_inv D now (fst (armOrphanLocked (cf_orphan cf) now idle))) as H.
  { unfold armOrphanLocked. cbn. constructor; cbn; try done.
    - auto.
    - intros t [= <-]. cbn. repeat split; try done; lia.
    - intros _. split; [done|]. eauto. }
  destruct (armOrphanLocked _ _ _) as [l armed]. exact H.
Qed.

Lemma running_life m : running C dir cf m -> life_inv D (clock m) (life m).
Proof. induction 1 as [w now|m m' _ IH Hst]; [|by eapply step_life]. pose proof (Start_life w now) as H. by unfold Start in *; destruct (armOrphanLocked _ _ _). Qed.

(** ** What a section notes and starts *)

Definition event_ok (t : task) (m m' : Machine) (e : event) : Prop :=
  match e with
  | EvInstalled c g => gen (life m) < g /\ gen (life m') = g
  | EvAuthorized c op g => g <> 0 /\ g = gen (life m) /\ gen (life m') = gen (life m)
  | EvPromised dl => t = TRefresh dl /\ gen (life m') = gen (life m) /\
      exists tm, orphanTimer (life m') = Some tm /\ tm_at tm = clock m + D
  | EvExpired a => a = clock m /\ gen (life m') = gen (life m) /\
      exists tm, t = TDeadline (orphanEpisode (life m)) /\ orphanTimer (life m) = Some tm /\ orphanTimer (life m') = None
  | EvEffect _ _ _ => gen (life m') = gen (life m)
  end.

Definition notes (t : task) (m m' : Machine) : Prop :=
  (log m' = log m /\ gen (life m') = gen (life m)) \/ exists e, log m' = e :: log m /\ event_ok t m m' e.

Lemma lose_gen c now l : gen (fst (loseLocked (cf_orphan cf) now c l)) = gen l.
Proof. unfold loseLocked, armOrphanLocked. case_bool_decide; cbn [negb]; [|done]. by destruct (_ || _). Qed.

Lemma exec_notes i t m m' ks : exec C dir cf i t m = Some (m', ks) -> notes t m m'.
Proof.
  split_task t; intros H;
    unfold notes.
  all: try (left; repeat case_match; simplify_eq; done).
  - destruct (recordMu (sync m)); [done|]. destruct (commitLocked _ _ _) as [code|[l' prev]] eqn:E; simplify_eq; [by left|].
    right. eexists. split; [done|]. cbn. unfold commitLocked in E.
    destruct (closed (life m)); [done|]. destruct (_ && _); [done|]. destruct (Z.leb_spec (wl_ProposedGeneration w) (gen (life m))); [done|].
    by injection E as <- <-.
  - destruct (refreshLocked _ _ _) as [l'|] eqn:E; simplify_eq; [|by left]. right. eexists. split; [done|]. cbn. split; [done|].
    unfold refreshLocked in E. destruct (orphanTimer (life m)); [|done]. destruct (_ || _); simplify_eq. cbn. eauto.
  - left. destruct (close_conns_same prev m) as (E1 & _ & _ & _ & _ & E2 & _). case_match; simplify_eq; cbn; by rewrite E1, E2.
  - destruct (conns m !! c) as [x|]; [|done].
    assert (forall op g, notes (TDispatch c f) m (fenced_operation i c op g m).1) as Hfo.
    { intros op g. unfold fenced_operation, notes. destruct (authorized g (life m)) eqn:E; [|by left]. right. eexists. split; [done|]. cbn.
      unfold authorized in E. destruct (Z.eqb_spec g 0); [done|]. lia. }
    assert (m' = m \/ (exists rc, m' = set_recorded rc m) \/ exists op g, m' = (fenced_operation i c op g m).1) as [-> |[[rc ->]|(op & g & ->)]];
      [|by left|by left|apply Hfo].
    unfold dispatch, dispatchHeadless in H. repeat case_match; simplify_eq; eauto 6;
      match goal with E : fenced_operation ?i ?c ?op ?g ?m = _ |- _ => right; right; exists op, g; by rewrite E end.
  - simplify_eq. right. by eexists.
  - left. pose proof (lose_gen c (clock m) (life m)) as E. destruct (loseLocked _ _ _ _) as [l' what]. simplify_eq. by cbn.
  - destruct (beginOrphanTermination ep (life m)) as [l' won] eqn:E. destruct won; simplify_eq; [|by left]. right. eexists.
    split; [done|]. cbn. split; [done|]. unfold beginOrphanTermination in E. destruct (orphanTimer (life m)) as [tm|]; [|done].
    destruct (_ || _) eqn:Eo; simplify_eq. cbn. split; [done|]. exists tm. split; [|done].
    apply orb_false_iff in Eo as [Eo _]. f_equal. lia.
  - left. destruct (finalizeLocked (life m)) as [l'|] eqn:E.
    + unfold finalizeLocked in E. destruct (tombstoned (life m)); simplify_eq. done.
    + destruct e; by simplify_eq.
  - left. destruct (recordMu (sync m)); [done|].
    destruct (closeDone_same (set_recorded (put_tombstone C dir t (recorded m)) m)) as (E1 & _ & _ & _ & _ & E2 & _).
    destruct e; simplify_eq; cbn; by rewrite E1, E2.
  - left. destruct (closeOnce (sync m)); [by simplify_eq|]. unfold closeLocked in H. by injection H as <- <-.
  - left. destruct (close_conns_same prev m) as (E1 & _ & _ & _ & _ & E2 & _). simplify_eq.
    match goal with |- context [closeDoneWhenStopped ?x] => destruct (closeDone_same x) as (F1 & _ & _ & _ & _ & F2 & _) end.
    rewrite F1, F2. cbn. by rewrite E1, E2.
Qed.

Definition started (m : Machine) (x : task) : Prop :=
  match x with TDeadline _ => False | TRefresh dl => dl = clock m + D | _ => True end.

Lemma after_publish_started m k : Forall (started m) (after_publish k).
Proof. destruct k; repeat constructor. Qed.

Lemma exec_started i t m m' ks : exec C dir cf i t m = Some (m', ks) -> Forall (started m) ks.
Proof.
  split_task t; intros H;
    unfold dispatch, dispatchHeadless, fenced_operation, next_frame in H; repeat case_match; simplify_eq; try apply after_publish_started; repeat constructor.
Qed.

(** The record mutex is held by one section in progress, and a frame that was let
    through takes effect once. *)
Definition holds (x : task) : Z := match x with TCompose _ _ | TWriteRecord _ _ => 1 | _ => 0 end.
Definition pending (c : nat) (op : Mutation) (g : Generation) (x : task) : Z :=
  match x with TEffect c' op' g' => Z.b2z (bool_decide ((c', op', g') = (c, op, g))) | _ => 0 end.
Definition balance (c : nat) (op : Mutation) (g : Generation) (e : event) : Z :=
  match e with
  | EvAuthorized c' op' g' => Z.b2z (bool_decide ((c', op', g') = (c, op, g)))
  | EvEffect c' op' g' => - Z.b2z (bool_decide ((c', op', g') = (c, op, g)))
  | _ => 0
  end.

Definition total {A} (f : A -> Z) (l : list A) : Z := foldr (fun x n => f x + n) 0 l.

Lemma total_app {A} (f : A -> Z) a b : total f (a ++ b) = total f a + total f b.
Proof. unfold total. induction a as [|x a IH]; cbn; [done|]. rewrite IH. lia. Qed.

Lemma after_publish_total f k : (forall c prev, f (TInstalled c prev) = 0) -> f TUnlockHandshake = 0 -> total f (after_publish k) = 0.
Proof. intros H1 H2. destruct k; cbn; rewrite ?H1, ?H2; lia. Qed.

Lemma exec_holds i t m m' ks : exec C dir cf i t m = Some (m', ks) -> (holds t = 1 -> recordMu (sync m) = true) ->
  total holds ks - holds t = Z.b2z (recordMu (sync m')) - Z.b2z (recordMu (sync m)).
Proof.
  destruct t as [ep dl k|dl k|r k| |w|dl|dl|c prev| |c|c f|c op g|c k|c k|ep| |e|e|t e| | | |k|prev k|c2 hb2]; cbn [exec holds]; open_sections; intros H Hh.
  all: try (destruct (close_conns_same prev m) as (_ & _ & Ec & _)).
  all: unfold dispatch, dispatchHeadless, fenced_operation, next_frame, closeLocked in H; repeat case_match; simplify_eq; rewrite ?after_publish_total by done; cbn;
    rewrite ?(proj1 (proj2 (proj2 (closeDone_same _)))); cbn; rewrite ?Ec, ?Hh by done; try done; try lia.
  all: match goal with E : recordMu (sync _) = false |- _ => by rewrite E end.
Qed.

Lemma exec_pending i t m m' ks c op g : exec C dir cf i t m = Some (m', ks) ->
  total (balance c op g) (log m') - total (balance c op g) (log m) = total (pending c op g) ks - pending c op g t.
Proof.
  destruct t as [ep dl k|dl k|r k| |w|dl|dl|c' prev| |c'|c' f|c' op' g'|c' k|c' k|ep| |e|e|t e| | | |k|prev k|c2 hb2]; cbn [exec pending]; open_sections; intros H.
  all: try (destruct (close_conns_same prev m) as (_ & _ & _ & _ & _ & Ec & _)).
  all: unfold dispatch, dispatchHeadless, fenced_operation, next_frame, closeLocked in H; repeat case_match; simplify_eq; rewrite ?after_publish_total by done; cbn;
    rewrite ?(proj1 (proj2 (proj2 (proj2 (proj2 (proj2 (closeDone_same _))))))); cbn; rewrite ?Ec; try done; try lia.
  all: unfold total; lia.
Qed.

(** ** The invariant of the machine *)

Definition last_gen (log : list event) : Generation :=
  match List.find (fun e => match e with EvInstalled _ _ => true | _ => false end) log with
  | Some (EvInstalled _ g) => g
  | _ => 0
  end.

(** A history, newest event first: generations rise, a frame is let through only
    with the last installed generation. *)
Fixpoint fenced (log : list event) : Prop :=
  match log with
  | [] => True
  | EvInstalled c g :: old => last_gen old < g /\ fenced old
  | EvAuthorized c op g :: old => g <> 0 /\ g = last_gen old /\ fenced old
  | _ :: old => fenced old
  end.

(** The deadline ends the harness no earlier than it was announced. *)
Fixpoint deadlines_kept (log : list event) : Prop :=
  match log with
  | [] => True
  | EvExpired a :: old => (forall dl, EvPromised dl ∈ old -> dl <= a) /\ deadlines_kept old
  | _ :: old => deadlines_kept old
  end.

Record machine_inv (m : Machine) : Prop := {
  mi_life : life_inv D (clock m) (life m);
  mi_lock : total holds (tasks m) = Z.b2z (recordMu (sync m));
  mi_callbacks : forall ep, TDeadline ep ∈ tasks m -> exists e, ep = u64 e /\ 0 <= e <= episodes (life m) /\
    (e = episodes (life m) -> forall t, orphanTimer (life m) = Some t -> tm_fired t = true);
  mi_fired : forall t, orphanTimer (life m) = Some t -> tm_fired t = true -> phase (life m) = PhaseOrphaned ->
    TDeadline (tm_episode t) ∈ tasks m;
  mi_refresh : forall dl, TRefresh dl ∈ tasks m -> dl <= clock m + D;
  mi_promised : forall dl, EvPromised dl ∈ log m -> dl <= clock m + D /\
    forall t, orphanTimer (life m) = Some t -> dl <= tm_at t;
  mi_gen : gen (life m) = last_gen (log m);
  mi_fenced : fenced (log m);
  mi_kept : episodes (life m) < 2 ^ 64 -> deadlines_kept (log m);
  mi_pending : forall c op g, total (balance c op g) (log m) = total (pending c op g) (tasks m)
}.

Lemma holds_range x : 0 <= holds x <= 1.
Proof. destruct x; cbn; lia. Qed.

Lemma total_holds_nonneg l : 0 <= total holds l.
Proof. unfold total. induction l as [|x l IH]; cbn; [lia|]. pose proof (holds_range x). lia. Qed.

(** Taking a task out of the list. *)
Lemma mi_taken m a t b : machine_inv m -> tasks m = a ++ t :: b ->
  total holds (a ++ b) = Z.b2z (recordMu (sync m)) - holds t /\ (holds t = 1 -> recordMu (sync m) = true).
Proof.
  intros H E. pose proof (mi_lock _ H) as L. rewrite E in L. rewrite total_app in *. cbn in L. fold (total holds b) in L.
  split; [lia|]. intros Ht. pose proof (total_holds_nonneg a). pose proof (total_holds_nonneg b).
  destruct (recordMu (sync m)); [done|]. cbn in L. lia.
Qed.

Lemma commit_timer g c l l' prev : commitLocked g c l = inr (l', prev) -> orphanTimer l' = None.
Proof. unfold commitLocked. repeat case_match; try done. by intros [= <- <-]. Qed.

Lemma life_step_exited now l l' : life_step now l l' -> phase l = PhaseExited -> phase l' = PhaseExited.
Proof.
  intros [] E; try done.
  - revert H. unfold commitLocked. repeat case_match; try done. intros [= <- <-]. cbn. unfold phase_is. cbn. by rewrite E.
  - unfold loseLocked. case_bool_decide; cbn [negb]; [|done]. unfold armOrphanLocked, phase_is. cbn. by rewrite E.
  - unfold beginOrphanTermination. destruct (orphanTimer l); [|done]. by destruct (_ || _).
  - revert H. unfold refreshLocked. destruct (orphanTimer l); [|done]. destruct (_ || _); [done|]. by intros [= <-].
  - revert H. unfold finalizeLocked. destruct (tombstoned l); [done|]. by intros [= <-].
Qed.

(** A callback of the current episode takes the timer away. *)
Lemma exec_deadline i ep m m' ks : exec C dir cf i (TDeadline ep) m = Some (m', ks) ->
  phase (life m) = PhaseOrphaned -> ep = orphanEpisode (life m) -> orphanTimer (life m') = None.
Proof.
  cbn [exec]; open_sections. intros H Hp ->. unfold beginOrphanTermination in H. destruct (orphanTimer (life m)) eqn:E.
  - rewrite Z.eqb_refl in H. rewrite (proj2 (phase_is_spec _ _) Hp) in H. cbn in H. by simplify_eq.
  - by simplify_eq.
Qed.

Section task_step.
Context (m : Machine) (i : input) (a : list task) (t : task) (b : list task) (m' : Machine) (ks : list task).
Hypothesis Hinv : machine_inv m.
Hypothesis Htasks : tasks m = a ++ t :: b.
Hypothesis Hexec : exec C dir cf i t (set_tasks (a ++ b) m) = Some (m', ks).

Let m2 := set_tasks (tasks m' ++ ks) m'.

Lemma ts_tasks : tasks m2 = (a ++ b) ++ ks /\ clock m' = clock m /\ life_step (clock m) (life m) (life m').
Proof. destruct (exec_life _ _ _ _ _ Hexec) as (E & Hc & Hl). cbn in *. by rewrite E. Qed.

(** A task after the step was there before, or was started by it. *)
Lemma ts_elem x : x ∈ tasks m2 -> x ∈ tasks m \/ x ∈ ks.
Proof. destruct ts_tasks as (-> & _). rewrite Htasks. set_solver. Qed.

Lemma ts_keep x : x ∈ tasks m -> x = t \/ x ∈ tasks m2.
Proof. destruct ts_tasks as (-> & _). rewrite Htasks. set_solver. Qed.

Lemma ts_callbacks ep : TDeadline ep ∈ tasks m2 -> exists e, ep = u64 e /\ 0 <= e <= episodes (life m') /\
  (e = episodes (life m') -> forall t, orphanTimer (life m') = Some t -> tm_fired t = true).
Proof.
  intros [Hx|Hx]%ts_elem.
  - destruct ts_tasks as (_ & _ & Hl). destruct (life_step_timer _ _ _ Hl) as [He Ht].
    destruct (mi_callbacks _ Hinv ep Hx) as (e & -> & Hle & Hf). exists e. split; [done|]. split; [lia|].
    intros -> t' Ht'. assert (episodes (life m') = episodes (life m)) as E by lia.
    destruct (Ht t' Ht') as [Ho|(_ & _ & Ho)]; [by apply Hf|]. destruct (Ho E) as (t0 & Ht0 & Hu). 
    rewrite (Hf E t0 Ht0) in Hu. done.
  - pose proof (exec_started _ _ _ _ _ Hexec) as Hs. rewrite Forall_forall in Hs. by destruct (Hs _ Hx).
Qed.

Lemma ts_fired t' : orphanTimer (life m') = Some t' -> tm_fired t' = true -> phase (life m') = PhaseOrphaned ->
  TDeadline (tm_episode t') ∈ tasks m2.
Proof.
  intros Ht' Hf Hp. destruct ts_tasks as (_ & _ & Hl). destruct (life_step_timer _ _ _ Hl) as [_ Ht].
  destruct (Ht t' Ht') as [Ho|(_ & Hu & _)]; [|congruence].
  destruct (li_timer _ _ _ (mi_life _ Hinv) t' Ho) as (_ & Hr & _ & Hep & _).
  assert (phase (life m) = PhaseOrphaned) as Hpm.
  { destruct (li_phase _ _ _ (mi_life _ Hinv)) as [E|[E|E]]; [done|done|]. rewrite (life_step_exited _ _ _ Hl E) in Hp. discriminate. }
  destruct (ts_keep _ (mi_fired _ Hinv t' Ho Hf Hpm)) as [E|Hk]; [|done]. exfalso.
  pose proof Hexec as Hx. rewrite <- E in Hx. pose proof (exec_deadline _ _ _ _ _ Hx Hpm Hep) as En. congruence.
Qed.

Lemma ts_refresh dl : TRefresh dl ∈ tasks m2 -> dl <= clock m' + D.
Proof.
  destruct ts_tasks as (_ & -> & _). intros [Hx|Hx]%ts_elem; [by apply (mi_refresh _ Hinv)|].
  pose proof (exec_started _ _ _ _ _ Hexec) as Hs. rewrite Forall_forall in Hs. specialize (Hs _ Hx). cbn in Hs. lia.
Qed.

Lemma ts_promised dl : EvPromised dl ∈ log m' -> dl <= clock m' + D /\
  forall t, orphanTimer (life m') = Some t -> dl <= tm_at t.
Proof.
  destruct ts_tasks as (_ & -> & Hl). destruct (life_step_timer _ _ _ Hl) as [_ Ht].
  assert (EvPromised dl ∈ log m -> dl <= clock m + D /\ forall t, orphanTimer (life m') = Some t -> dl <= tm_at t) as Hold.
  { intros Hx. destruct (mi_promised _ Hinv dl Hx) as [Hd Hdt]. split; [done|]. intros t' Ht'.
    destruct (Ht t' Ht') as [Ho|(-> & _)]; [by apply Hdt|done]. }
  destruct (exec_notes _ _ _ _ _ Hexec) as [[-> _]|(e & -> & He)]; [done|]. cbn [log set_tasks] in *.
  intros [<-|Hx]%elem_of_cons; [|by apply Hold]. cbn in He. destruct He as (E & _ & tm & Htm & Hat).
  assert (dl <= clock m + D) as Hd by (apply (mi_refresh _ Hinv); rewrite Htasks, E; set_solver).
  split; [done|]. intros t' Ht'. rewrite Htm in Ht'. injection Ht' as <-. lia.
Qed.

Lemma ts_history : gen (life m') = last_gen (log m') /\ fenced (log m').
Proof.
  pose proof (mi_gen _ Hinv) as Hg. pose proof (mi_fenced _ Hinv) as Hf.
  destruct (exec_notes _ _ _ _ _ Hexec) as [[-> ->]|(e & -> & He)]; [done|]. cbn [log life set_tasks] in *.
  destruct e; cbn in He |- *; unfold last_gen in *; cbn; naive_solver congruence.
Qed.

Lemma ts_kept : episodes (life m') < 2 ^ 64 -> deadlines_kept (log m').
Proof.
  intros Hr. destruct ts_tasks as (_ & _ & Hl). destruct (life_step_timer _ _ _ Hl) as [He _].
  pose proof (mi_kept _ Hinv ltac:(lia)) as Hk.
  destruct (exec_notes _ _ _ _ _ Hexec) as [[-> _]|(e & -> & Hev)]; [done|]. cbn [log life set_tasks clock] in *.
  destruct e; try done. split; [|done]. cbn in Hev. destruct Hev as (-> & _ & tm & Et & Htm & _).
  destruct (mi_callbacks _ Hinv (orphanEpisode (life m))) as (e & Ee & Hle & Hf); [rewrite Htasks, Et; set_solver|].
  destruct (li_episode _ _ _ (mi_life _ Hinv)) as [Heq Hn]. rewrite Heq in Ee.
  rewrite !u64_small in Ee by (unfold u64_ok; lia). destruct (li_timer _ _ _ (mi_life _ Hinv) tm Htm) as (_ & _ & _ & _ & _ & Hat).
  specialize (Hat (Hf (eq_sym Ee) tm Htm)). intros dl Hdl. pose proof (proj2 (mi_promised _ Hinv dl Hdl) tm Htm). lia.
Qed.

Lemma task_step_inv : machine_inv m2.
Proof.
  destruct ts_tasks as (Et & Hc & Hl). destruct (mi_taken _ _ _ _ Hinv Htasks) as [Hh Hlock].
  constructor.
  - cbn. rewrite Hc. eapply life_step_inv; [apply (mi_life _ Hinv)|done].
  - rewrite Et, total_app, Hh. pose proof (exec_holds _ _ _ _ _ Hexec Hlock) as E. cbn in E |- *. lia.
  - apply ts_callbacks.
  - apply ts_fired.
  - apply ts_refresh.
  - apply ts_promised.
  - apply ts_history.
  - apply ts_history.
  - apply ts_kept.
  - intros c op g. rewrite Et, !total_app. pose proof (exec_pending _ _ _ _ _ c op g Hexec) as E. cbn [log set_tasks] in E |- *.
    pose proof (mi_pending _ Hinv c op g) as P. rewrite Htasks, total_app in P.
    change (total (pending c op g) (t :: b)) with (pending c op g t + total (pending c op g) b) in P.
    change (log m2) with (log m'). lia.
Qed.
End task_step.

#[local] Arguments total : simpl never.

Lemma total_one {A} (f : A -> Z) x : total f [x] = f x.
Proof. unfold total. cbn. lia. Qed.

Lemma Start_inv w now : machine_inv (Start C cf w now).
Proof.
  pose proof (Start_life w now) as H. unfold Start in *. unfold armOrphanLocked in *. cbn in *. constructor; cbn; try done.
  - intros ep Hx. set_solver.
  - intros t [= <-]. done.
  - intros dl Hx. set_solver.
  - intros dl Hx. set_solver.
Qed.

Lemma pending_snoc x m c op g : pending c op g x = 0 -> total (pending c op g) (tasks m ++ [x]) = total (pending c op g) (tasks m).
Proof. intros E. rewrite total_app, total_one. lia. Qed.

Lemma step_machine_inv m m' : machine_inv m -> step C dir cf m m' -> machine_inv m'.
Proof.
  intros H Hst. pose proof (step_life _ _ Hst (mi_life _ H)) as HL.
  split_step Hst; [by eapply task_step_inv|..]; destruct H; constructor; cbn in *; try done.
  - intros dl Hx. specialize (mi_refresh0 dl Hx). lia.
  - intros dl Hx. destruct (mi_promised0 dl Hx). split; [lia|done].
  - rewrite total_app, total_one. cbn. lia.
  - intros ep [Hx|Hx]%elem_of_app.
    + destruct (mi_callbacks0 ep Hx) as (e & He & Hle & _). exists e. split; [done|]. split; [done|]. by intros _ t' [= <-].
    + apply list_elem_of_singleton in Hx as [= ->]. destruct (li_timer _ _ _ mi_life0 t Ht) as (_ & _ & _ & Ep & _).
      destruct (li_episode _ _ _ mi_life0) as [Ee Hn]. exists (episodes (life m)). split; [congruence|]. split; [lia|]. by intros _ t' [= <-].
  - intros t' [= <-] _ _. set_solver.
  - intros dl Hx. apply mi_refresh0. set_solver.
  - intros dl Hx. destruct (mi_promised0 dl Hx) as [? Hd]. split; [done|]. intros t' [= <-]. by apply (Hd t).
  - intros c op g. by rewrite pending_snoc.
  - rewrite total_app, total_one. cbn. lia.
  - intros ep Hx. apply mi_callbacks0. set_solver.
  - intros t Ht Hf Hp. specialize (mi_fired0 t Ht Hf Hp). set_solver.
  - intros dl Hx. apply mi_refresh0. set_solver.
  - intros c op g. by rewrite pending_snoc.
  - rewrite total_app, total_one. cbn. lia.
  - intros ep Hx. apply mi_callbacks0. set_solver.
  - intros t Ht Hft Hp. specialize (mi_fired0 t Ht Hft Hp). set_solver.
  - intros dl Hx. apply mi_refresh0. set_solver.
  - intros c op g. by rewrite pending_snoc.
Qed.

Lemma running_inv m : running C dir cf m -> machine_inv m.
Proof. induction 1 as [w now|m m' _ IH Hst]; [apply Start_inv|by eapply step_machine_inv]. Qed.

(** ** The registry directory *)

(** What a section does to the recorded state. *)
Inductive rec_step (t : task) (r : Recorded) : Recorded -> Prop :=
| rs_same : rec_step t r r
| rs_write rec k : t = TWriteRecord rec k -> rec_step t r (write_record C rec r)
| rs_ack a w : (headless cf = false /\ ackedSeq r <= a) \/ (a = headlessTerminalSeq /\ exists c hb, t = THeadlessAck c hb) ->
    w = disk r \/ (exists cur, w = (putDurableAck C cur (disk r)).1) -> rec_step t r (set_acked a w r)
| rs_tombstone tb e : t = TPutTombstone tb e -> rec_step t r (put_tombstone C dir tb r)
| rs_withdraw : rec_step t r (withdrawStreamFlow C cf r).

#[local] Hint Constructors rec_step : core.

Lemma heartbeat_rec t c sel hb hs l r : headless cf = false -> rec_step t r (fst (persistHeartbeatAck C cf c sel hb hs l r)).
Proof.
  intros Hh. unfold persistHeartbeatAck. repeat (case_match; try (by constructor)); cbn; subst; apply rs_ack; try (left; split; [done|lia]);
    try (by left); right; eexists; match goal with E : putDurableAck _ _ _ = _ |- _ => by rewrite E end.
Qed.

Lemma headless_rec c hb l r : rec_step (THeadlessAck c hb) r (fst (persistHeadlessHeartbeatAck hb l r)).
Proof. unfold persistHeadlessHeartbeatAck. repeat (case_match; try (by constructor)); cbn. apply rs_ack; [eauto|by left]. Qed.

Lemma exec_recorded i t m m' ks : exec C dir cf i t m = Some (m', ks) -> rec_step t (recorded m) (recorded m').
Proof.
  split_task t; intros H.
  all: try (repeat case_match; simplify_eq; cbn; eauto; fail).
  - destruct (close_conns_same prev m) as (_ & E & _). case_match; simplify_eq; cbn; rewrite E; auto.
  - destruct (conns m !! c) as [x|]; [|done]. unfold dispatch, dispatchHeadless, fenced_operation in H.
    destruct (headless cf) eqn:Hh; [repeat case_match; by simplify_eq|].
    destruct f as [op g|hb|]; [repeat case_match; by simplify_eq| |by simplify_eq]. destruct (_ && _); [done|].
    pose proof (heartbeat_rec (TDispatch c (FHeartbeat hb)) c (cn_selected x) hb (in_hostSeq i) (life m) (recorded m) Hh) as H1.
    destruct (persistHeartbeatAck _ _ _ _ _ _ _ _). by simplify_eq.
  - destruct (recordMu (sync m)); [done|].
    destruct (closeDone_same (set_recorded (put_tombstone C dir t (recorded m)) m)) as (_ & E & _).
    destruct e; simplify_eq; cbn; rewrite E; cbn; by econstructor.
  - destruct (close_conns_same prev m) as (_ & E & _). simplify_eq.
    match goal with |- context [closeDoneWhenStopped ?x] => destruct (closeDone_same x) as (_ & F & _) end.
    rewrite F. cbn. rewrite E. auto.
  - destruct (recordMu (sync m)); [done|]. pose proof (headless_rec c2 hb2 (life m) (recorded m)) as H1.
    destruct (persistHeadlessHeartbeatAck _ _ _). by simplify_eq.
Qed.

(** Only a headless shim is in the middle of a headless acknowledgement. *)
Lemma running_headless m c hb : running C dir cf m -> THeadlessAck c hb ∈ tasks m -> headless cf = true.
Proof.
  intros Hr. revert c hb. induction Hr as [w now|m m' Hr IH Hst]; intros c hb.
  - unfold Start. destruct (armOrphanLocked _ _ _) as [l [[]|]]; cbn; set_solver.
  - split_step Hst; cbn in *; try (by apply IH);
      try (intros [Hx|Hx]%elem_of_app; [by eapply IH|set_solver]).
    destruct (exec_life _ _ _ _ _ He) as (-> & _). cbn. intros [Hx|Hx]%elem_of_app; [apply (IH c hb); rewrite Ht; set_solver|].
    revert He Hx. clear. assert (forall k, THeadlessAck c hb ∉ after_publish k) as Ha by (intros []; set_solver).
    destruct t as [ep dl k|dl k|r k| |w|dl|dl|c' prev| |c'|c' f|c' op g|c' k|c' k|ep| |e|e|t e| | | |k|prev k|c2 hb2]; cbn [exec]; open_sections; intros H Hx;
      unfold dispatch, dispatchHeadless, fenced_operation, next_frame in H; repeat case_match; simplify_eq; first [done|by destruct (Ha _ Hx)|set_solver].
Qed.

Lemma putDurableAck_record cur w n : is_record_name n -> files (putDurableAck C cur w).1 !! n = files w !! n.
Proof.
  intros Hn. assert (changes_only (fun m => m = durableAckName C (Ack_Identity cur) (a_ShimID cur) (a_ProcessEpoch cur)) (putDurableAck C cur)) as Hc.
  { apply changes_bind; [apply changes_lift|]. intros raw. apply changes_publish. }
  apply Hc. intros ->. destruct Hn as [Hn _]. not_a_record Hn.
Qed.

Lemma RemoveStreamFlow_record id shim ep w n : is_record_name n -> files (RemoveStreamFlow C id shim ep w).1 !! n = files w !! n.
Proof. intros Hn. apply (changes_remove (streamFlowName C id shim ep)). intros ->. destruct Hn as [Hn _]. not_a_record Hn. Qed.

Lemma live_same w w' : (forall n, is_record_name n -> files w' !! n = files w !! n) -> live_record C cf w' -> live_record C cf w.
Proof. intros E (n & r & Hn & (f & Hf & Hd) & Hs). exists n, r. split; [done|]. split; [|done]. exists f. by rewrite <- (E n Hn). Qed.

Section durable.
Hypothesis Hlaw : stream_law (j_tombstone C) (fun _ => True).

Lemma put_tombstone_live ob now r :
  live_record C cf (disk (put_tombstone C dir (shim_tombstone cf ob now) r)) -> live_record C cf (disk r).
Proof.
  unfold put_tombstone. set (t := set_tombstone_resume (shim_tombstone cf ob now) (resumeKey r)).
  assert (forall n, is_record_name n -> files (PutTombstone C dir t (disk r)).1 !! n <> files (disk r) !! n -> live_record C cf (disk r)) as Hch.
  { intros n Hn Hd. destruct (PutTombstone_run C dir t (disk r) n Hlaw Hn Hd) as [(r0 & Hr0 & Hs) _]. exists n, r0.
    split; [done|]. split; [done|]. destruct cf as [[o sid] wl]. exact Hs. }
  assert (live_record C cf (PutTombstone C dir t (disk r)).1 -> live_record C cf (disk r)) as H.
  { intros (n & r0 & Hn & (f & Hf & Hd) & Hs).
    destruct (decide (files (PutTombstone C dir t (disk r)).1 !! n = files (disk r) !! n)) as [E|E]; [|by eapply Hch].
    exists n, r0. split; [done|]. split; [|done]. exists f. by rewrite <- E. }
  destruct (PutTombstone C dir t (disk r)) as [w o]. cbn in H. destruct o; exact H.
Qed.

Lemma rec_step_live t r r' : rec_step t r r' ->
  (forall tb e, t = TPutTombstone tb e -> exists ob now, tb = shim_tombstone cf ob now) ->
  live_record C cf (disk r') -> live_record C cf (disk r) \/ exists rec k, t = TWriteRecord rec k.
Proof.
  intros Hst Ht Hlive. destruct Hst as [|rec k|a w _ Hw|tb e E|].
  - by left.
  - eauto.
  - left. destruct Hw as [-> |[cur ->]]; [done|]. revert Hlive. apply live_same. intros n. apply putDurableAck_record.
  - left. destruct (Ht _ _ E) as (ob & now & ->). by eapply put_tombstone_live.
  - left. revert Hlive. apply live_same. intros n. apply RemoveStreamFlow_record.
Qed.
End durable.

Lemma rec_step_published t r r' : rec_step t r r' -> terminalPublished r = true -> terminalPublished r' = true.
Proof.
  intros Hst Hp. destruct Hst as [|rec k Hk|a w _ Hw|tb e He|]; cbn; try done.
  - unfold write_record. by destruct (PutRetainingResumeKey _ _ _).
  - unfold put_tombstone. by destruct (PutTombstone _ _ _ _) as [w []].
Qed.

(** The mark of the end precedes its tombstone, and no write of a live record is
    in progress once the tombstone is durable. *)
Record ended_inv (m : Machine) : Prop := {
  ei_put : forall t e, TPutTombstone t e ∈ tasks m -> tombstoned (life m) = true /\ exists ob now, t = shim_tombstone cf ob now;
  ei_published : terminalPublished (recorded m) = true ->
    tombstoned (life m) = true /\ forall r k, TWriteRecord r k ∉ tasks m
}.

Lemma life_step_tombstoned now l l' : life_step now l l' -> tombstoned l = true -> tombstoned l' = true.
Proof.
  intros Hst Ht. destruct Hst as [|g c l' prev Hc|c|e|l' Hr| |l' Hf| |]; try done.
  - revert Hc. unfold commitLocked. repeat case_match; try done. by intros [= <- <-].
  - unfold loseLocked. case_bool_decide; cbn [negb]; [|done]. unfold armOrphanLocked. by destruct (_ || _).
  - unfold beginOrphanTermination. destruct (orphanTimer l); [|done]. by destruct (_ || _).
  - revert Hr. unfold refreshLocked. destruct (orphanTimer l); [|done]. destruct (_ || _); [done|]. by intros [= <-].
  - revert Hf. unfold finalizeLocked. by rewrite Ht.
Qed.

Definition started_end (m m' : Machine) (x : task) : Prop :=
  match x with
  | TPutTombstone t _ => tombstoned (life m') = true /\ exists ob now, t = shim_tombstone cf ob now
  | TWriteRecord _ _ => tombstoned (life m) = false /\ recordMu (sync m') = recordMu (sync m)
  | _ => True
  end.

Lemma exec_started_end i t m m' ks : exec C dir cf i t m = Some (m', ks) -> Forall (started_end m m') ks.
Proof.
  assert (forall k, Forall (started_end m m') (after_publish k)) as Ha by (intros []; repeat constructor).
  split_task t; intros H;
    unfold dispatch, dispatchHeadless, fenced_operation, next_frame in H; repeat case_match; simplify_eq; try apply Ha; repeat constructor; try done.
  - unfold finalizeLocked in *. repeat case_match; by simplify_eq.
  - eauto.
Qed.

Lemma total_elem x l : x ∈ l -> holds x = 1 -> 1 <= total holds l.
Proof.
  intros Hx Hh. apply list_elem_of_split in Hx as (a & b & ->). rewrite total_app. change (total holds (x :: b)) with (holds x + total holds b).
  pose proof (total_holds_nonneg a). pose proof (total_holds_nonneg b). lia.
Qed.

Lemma published_by_tombstone i t m m' ks : exec C dir cf i t m = Some (m', ks) ->
  terminalPublished (recorded m) = false -> terminalPublished (recorded m') = true ->
  exists tb e, t = TPutTombstone tb e /\ recordMu (sync m) = false /\ forall r k, TWriteRecord r k ∉ ks.
Proof.
  intros H Hf Ht. assert (exists tb e, t = TPutTombstone tb e) as (tb & e & ->).
  { destruct (exec_recorded _ _ _ _ _ H) as [|rec k Hk|a w Ha Hw|tb e He|]; cbn in Ht; try congruence; [|eauto].
    unfold write_record in Ht. destruct (PutRetainingResumeKey _ _ _). cbn in Ht. congruence. }
  exists tb, e. split; [done|]. cbn [exec] in H. unfold publish_tombstone, finalized in H. destruct (recordMu (sync m)); [done|]. split; [done|].
  destruct e; simplify_eq; set_solver.
Qed.

Lemma step_ended m m' : machine_inv m -> ended_inv m -> step C dir cf m m' -> ended_inv m'.
Proof.
  intros HM [Hput Hpub] Hst. split_step Hst.
  - destruct (exec_life _ _ _ _ _ He) as (Et & _ & Hl). cbn in Et, Hl. pose proof (exec_started_end _ _ _ _ _ He) as Hs. rewrite Forall_forall in Hs.
    assert (forall x, x ∈ (a ++ b) ++ ks -> x ∈ tasks m \/ x ∈ ks) as Hx by (intros x; rewrite Ht; set_solver).
    constructor; cbn; rewrite Et.
    + intros tb e [Hin|Hin]%Hx; [|by apply (Hs _ Hin)]. destruct (Hput _ _ Hin) as [Htm Hob]. split; [|done]. by eapply life_step_tombstoned.
    + intros Hp. destruct (terminalPublished (recorded m)) eqn:Hpm.
      * destruct (Hpub eq_refl) as [Htm Hno]. split; [by eapply life_step_tombstoned|]. intros r k [Hin|Hin]%Hx; [by eapply Hno|].
        destruct (Hs _ Hin) as [Hff _]. cbn in Hff. congruence.
      * destruct (published_by_tombstone _ _ _ _ _ He Hpm Hp) as (tb & e & -> & Hmu & Hno). cbn in Hmu.
        destruct (Hput tb e) as [Htm _]; [rewrite Ht; set_solver|]. split; [by eapply life_step_tombstoned|].
        intros r k [Hin|Hin]%Hx; [|by eapply Hno]. pose proof (total_elem _ _ Hin eq_refl) as Hge. rewrite (mi_lock _ HM), Hmu in Hge. cbn in Hge. lia.
  - by constructor.
  - constructor; cbn; [intros t' e|intros Hp; split; [by apply Hpub|]; intros r k]; set_solver.
  - constructor; cbn; [intros t' e|intros Hp; split; [by apply Hpub|]; intros r k]; set_solver.
  - by constructor.
  - constructor; cbn; [intros t' e|intros Hp; split; [by apply Hpub|]; intros r k]; set_solver.
  - by constructor.
Qed.

Lemma Start_ended w now : ended_inv (Start C cf w now).
Proof.
  unfold Start. unfold armOrphanLocked. cbn. constructor; cbn; [set_solver|].
  unfold write_record. by destruct (PutRetainingResumeKey _ _ _).
Qed.

Lemma running_ended m : running C dir cf m -> ended_inv m.
Proof. induction 1 as [w now|m m' Hr IH Hst]; [apply Start_ended|]. by eapply step_ended; [apply running_inv| |]. Qed.

(** ** The end of the harness *)

(** A section of the goroutine that runs the termination once. *)
Definition finishing (x : task) : bool :=
  match x with TAwaitHarness EOnce | TFinalize (EOnce | EWatch) | TPutTombstone _ (EOnce | EWatch) => true | _ => false end.

Definition once (m : Machine) : bool * bool := (stopOnce (sync m), stopOnceDone (sync m)).

(** What a section does to the termination: it leaves it where it is, starts it,
    or reports it done. *)
Inductive once_step (t : task) (m m' : Machine) (ks : list task) : Prop :=
| once_same : once m' = once m -> (finishing t = true -> existsb finishing ks = true) -> once_step t m m' ks
| once_started : stopOnce (sync m) = false -> once m' = (true, false) -> existsb finishing ks = true -> once_step t m m' ks
| once_done : once m' = (true, true) -> tombstoned (life m') = true \/ (exists tb e, t = TPutTombstone tb e) -> once_step t m m' ks.

Lemma closeDone_once m : once (closeDoneWhenStopped m) = once m.
Proof. unfold closeDoneWhenStopped. by destruct (_ && _). Qed.

Lemma exec_once i t m m' ks : exec C dir cf i t m = Some (m', ks) -> once_step t m m' ks.
Proof.
  split_task t; intros H.
  all: try (unfold dispatch, dispatchHeadless, fenced_operation, next_frame in H; repeat case_match; simplify_eq; by apply once_same).
  - destruct (close_conns_same prev m) as (_ & _ & E & _). apply once_same; [|done]. unfold once. case_match; simplify_eq; cbn; by rewrite E.
  - destruct (stopOnce (sync m)) eqn:E; [destruct (stopOnceDone (sync m)); [|done]; simplify_eq; by apply once_same|].
    simplify_eq. by apply once_started.
  - destruct (harnessDone m); [|done]. simplify_eq. apply once_same; [done|]. by destruct e.
  - destruct (finalizeLocked (life m)) as [l'|] eqn:E.
    + simplify_eq. apply once_same; [done|]. by destruct e.
    + unfold finalizeLocked in E. destruct (tombstoned (life m)) eqn:Et; [|done].
      destruct e; simplify_eq; [by apply once_same|apply once_done; [done|by left]..].
  - destruct (recordMu (sync m)); [done|].
    destruct e; simplify_eq; [apply once_same; [by rewrite closeDone_once|done]|apply once_done; [done|eauto]..].
  - destruct (harnessDone m); [|done]. cbn [negb] in H. destruct (stopOnce (sync m)) eqn:E; [|by simplify_eq; apply once_started].
    destruct (stopOnceDone (sync m)); [|done]. simplify_eq. by apply once_same.
  - simplify_eq. apply once_same; [|done]. rewrite closeDone_once. unfold once. cbn.
    destruct (close_conns_same prev m) as (_ & _ & E & _). by rewrite E.
Qed.

(** A termination that was started ends the session, and has not been abandoned. *)
Record once_inv (m : Machine) : Prop := {
  oi_done : stopOnceDone (sync m) = true -> stopOnce (sync m) = true /\ tombstoned (life m) = true;
  oi_started : stopOnce (sync m) = true -> stopOnceDone (sync m) = true \/ existsb finishing (tasks m) = true
}.

Lemma step_once m m' : ended_inv m -> once_inv m -> step C dir cf m m' -> once_inv m'.
Proof.
  intros HE [Hd Hs] Hst. destruct Hst as [m i a t b m' ks Ht He|m d Hd'|m t Ht Hf Ha|m Hh|m|m Hf|m w Hw].
  - destruct (exec_life _ _ _ _ _ He) as (Et & _ & Hl). cbn in Et, Hl. pose proof (life_step_tombstoned _ _ _ Hl) as Htm.
    rewrite Ht in Hs. rewrite existsb_app in Hs. cbn in Hs.
    destruct (exec_once _ _ _ _ _ He) as [E Hk|E1 E2 Hk|E Hk]; unfold once in *; cbn in *.
    + injection E as E1 E2. constructor; cbn; rewrite E1, E2; [intros F; split; [by apply Hd|]; by apply Htm, Hd|].
      intros F. destruct (Hs F) as [|Hx]; [by left|right]. rewrite Et, !existsb_app. destruct (finishing t); [rewrite Hk by done; btauto|].
      cbn in Hx. by rewrite Hx.
    + injection E2 as E2 E3. constructor; cbn; [congruence|]. intros _. right. rewrite existsb_app, Hk. btauto.
    + injection E as E1 E2. constructor; cbn; [|by left]. intros _. split; [done|]. destruct Hk as [|(tb & e & ->)]; [done|].
      apply Htm. apply (ei_put _ HE tb e). rewrite Ht. set_solver.
  - by constructor.
  - constructor; cbn; [done|]. intros F. destruct (Hs F) as [|Hx]; [by left|]. right. by rewrite existsb_app, Hx.
  - constructor; cbn; [done|]. intros F. destruct (Hs F) as [|Hx]; [by left|]. right. by rewrite existsb_app, Hx.
  - by constructor.
  - constructor; cbn; [done|]. intros F. destruct (Hs F) as [|Hx]; [by left|]. right. by rewrite existsb_app, Hx.
  - by constructor.
Qed.

Lemma running_once m : running C dir cf m -> once_inv m.
Proof.
  induction 1 as [w now|m m' Hr IH Hst]; [|by eapply step_once; [apply running_ended| |]].
  unfold Start, armOrphanLocked. cbn. by constructor.
Qed.

(** ** Progress *)

Definition no_input : input := {|
  in_ok := false; in_first := FirstOther; in_frame := None; in_hostSeq := None;
  in_observation := {| ob_exitCode := 0; ob_signal := []; ob_lastSeq := 0; ob_reaped := true; ob_cause := [] |}
|}.

Definition ends (m : Machine) : Prop := exists m', rtc (step C dir cf) m m' /\ tombstoned (life m') = true /\ clock m' = clock m.

Lemma ends_step m m' : step C dir cf m m' -> clock m' = clock m -> ends m' -> ends m.
Proof. intros Hst Hc (m2 & Hr & Ht & E). exists m2. split; [by eapply rtc_l|]. split; [done|congruence]. Qed.

(** A task that can be run is a step. *)
Lemma run_task i t m m' ks : t ∈ tasks m -> (forall ts, exec C dir cf i t (set_tasks ts m) = Some (set_tasks ts m', ks)) ->
  exists ts, step C dir cf m (set_tasks (ts ++ ks) m').
Proof.
  intros (a & b & E)%list_elem_of_split He. exists (a ++ b).
  exact (step_task C dir cf m i a t b (set_tasks (a ++ b) m') ks E (He (a ++ b))).
Qed.

Lemma finalize_ends e m : TFinalize e ∈ tasks m -> ends m.
Proof.
  intros Hx. destruct (tombstoned (life m)) eqn:Et; [by exists m|].
  destruct (finalizeLocked (life m)) as [l'|] eqn:El; [|unfold finalizeLocked in El; by rewrite Et in El].
  destruct (run_task no_input (TFinalize e) m (set_life l' m) [TPutTombstone (shim_tombstone cf (in_observation no_input) (clock m)) e])
    as (ts & Hst); [done|intros ts; cbn [exec]; open_sections; cbn; by rewrite El|].
  eexists. split; [by apply rtc_once|]. split; [|done]. unfold finalizeLocked in El. rewrite Et in El. by injection El as <-.
Qed.

Lemma await_ends e m : TAwaitHarness e ∈ tasks m -> ends m.
Proof.
  intros Hx. apply (ends_step _ (harness_ends m)); [constructor|done|].
  destruct (run_task no_input (TAwaitHarness e) (harness_ends m) (harness_ends m) [TFinalize e]) as (ts & Hst); [done|done|].
  eapply ends_step; [exact Hst|done|]. apply (finalize_ends e). cbn. set_solver.
Qed.

Lemma finishing_ends x m : ended_inv m -> x ∈ tasks m -> finishing x = true -> ends m.
Proof.
  intros HE Hx Hf. destruct x as [| | | | | | | | | | | | | | | |[]|[]|tb []| | | | | |]; try discriminate Hf;
    eauto using await_ends, finalize_ends; exists m; by destruct (ei_put _ HE _ _ Hx).
Qed.

(** A termination that was asked for ends the session. *)
Lemma terminate_ends m : running C dir cf m -> TTerminate ∈ tasks m -> ends m.
Proof.
  intros Hr Hx. pose proof (running_once _ Hr) as [Hd Hs]. destruct (stopOnce (sync m)) eqn:E.
  - destruct (Hs eq_refl) as [F|F]; [exists m; by destruct (Hd F)|]. apply existsb_exists in F as (x & Hin & Hf).
    apply list_elem_of_In in Hin. by apply (finishing_ends x); [apply running_ended| |].
  - destruct (run_task no_input TTerminate m (set_sync (stop_once false (sync m)) m) [TAwaitHarness EOnce]) as (ts & Hst);
      [done|intros ts; cbn [exec]; open_sections; cbn; by rewrite E|].
    eapply ends_step; [exact Hst|done|]. apply (await_ends EOnce). cbn. set_solver.
Qed.

(** An expired deadline terminates. *)
Lemma deadline_runs m t : running C dir cf m -> phase (life m) = PhaseOrphaned -> orphanTimer (life m) = Some t ->
  TDeadline (tm_episode t) ∈ tasks m ->
  exists m', step C dir cf m m' /\ EvExpired (clock m) ∈ log m' /\ clock m' = clock m /\ TTerminate ∈ tasks m' /\ orphanExpiring (life m') = true.
Proof.
  intros Hr Hp Ht Hx. destruct (li_timer _ _ _ (running_life _ Hr) t Ht) as (_ & _ & _ & Ep & _).
  destruct (run_task no_input (TDeadline (tm_episode t)) m (note (EvExpired (clock m)) (set_life (set_timer None true (life m)) m)) [TTerminate])
    as (ts & Hst); [done| |].
  - intros ts. cbn [exec]; open_sections. unfold beginOrphanTermination. cbn. rewrite Ht, Ep, Z.eqb_refl. cbn. by rewrite (proj2 (phase_is_spec _ _) Hp).
  - eexists. split; [exact Hst|]. cbn. split_and!; [set_solver|done|set_solver|done].
Qed.

Lemma overdue_expires m t : running C dir cf m -> phase (life m) = PhaseOrphaned -> orphanTimer (life m) = Some t -> tm_at t <= clock m ->
  exists m', rtc (step C dir cf) m m' /\ EvExpired (clock m) ∈ log m' /\ clock m' = clock m /\ orphanExpiring (life m') = true /\ ends m'.
Proof.
  intros Hr Hp Ht Hat.
  assert (exists m1 t1, rtc (step C dir cf) m m1 /\ running C dir cf m1 /\ clock m1 = clock m /\ phase (life m1) = PhaseOrphaned /\
    orphanTimer (life m1) = Some t1 /\ TDeadline (tm_episode t1) ∈ tasks m1) as (m1 & t1 & Hr1 & Hrun & Hc & Hp1 & Ht1 & Hx).
  { destruct (tm_fired t) eqn:Hf.
    - exists m, t. split_and!; try done. by apply (mi_fired _ (running_inv _ Hr)).
    - pose proof (step_fire C dir cf m t Ht Hf Hat) as Hst. eexists _, _. split; [by apply rtc_once|]. split; [by eapply run_step|].
      cbn. split_and!; [done|done|done|]. set_solver. }
  destruct (deadline_runs _ _ Hrun Hp1 Ht1 Hx) as (m2 & Hst & He & Hc2 & Hin & Hex). rewrite Hc in He, Hc2.
  exists m2. split_and!; [by eapply rtc_r|done|done|done|]. apply terminate_ends; [by eapply run_step|done].
Qed.
End exec.
