(* ===== verification/ShimLifecycle.v ===== *)
(** * ShimLifecycle: the theorems about a running shim

    What [ShimMachineProperties] shows of every interleaving, stated for the
    histories of a shim: the orphan deadline, the generation fence, the announced
    deadline, the end of a session and the acknowledgements; and concrete
    histories, run by a script. *)

From stdpp Require Import gmap relations.
From S2P Require Import Prelude ShimWire ShimPayloads ShimControl GoSort ShimRecord Fence ProcIdentity Registry.
From S2P Require Import RegistryProperties ShimLife ShimMachine ShimMachineProperties.

(** ** Histories *)

Lemma fenced_drop new old : fenced (new ++ old) -> fenced old.
Proof. induction new as [|e new IH]; cbn; [done|]. destruct e; naive_solver. Qed.

Lemma last_gen_max log c g : fenced log -> EvInstalled c g ∈ log -> g <= last_gen log.
Proof.
  induction log as [|e log IH]; [set_solver|]. intros Hf [<-|Hx]%elem_of_cons; [cbn; lia|].
  assert (fenced log) as Hl by (by apply (fenced_drop [e])). specialize (IH Hl Hx).
  destruct e; try exact IH. cbn in Hf |- *. lia.
Qed.

Lemma last_gen_app new old : fenced (new ++ old) -> last_gen old <= last_gen (new ++ old).
Proof.
  induction new as [|e new IH]; [done|]. intros Hf. assert (fenced (new ++ old)) as Hl by (by apply (fenced_drop [e])).
  specialize (IH Hl). destruct e; try exact IH. cbn in Hf |- *. lia.
Qed.

(** ** A healthy disk *)

Definition keeps_clean {A} (m : RM A) : Prop := forall w, clean w -> clean (m w).1.

Section keeps.
Context {A B : Type}.

Lemma clean_ret (a : A) : keeps_clean (rret a).
Proof. by intros w H. Qed.
Lemma clean_err (e : ShimErr) : keeps_clean (@rerr A e).
Proof. by intros w H. Qed.
Lemma clean_lift (o : outcome ShimErr A) : keeps_clean (rlift o).
Proof. by intros w H. Qed.
Lemma clean_bind (m : RM A) (k : A -> RM B) : keeps_clean m -> (forall a, keeps_clean (k a)) -> keeps_clean (rbind m k).
Proof. intros Hm Hk w H. unfold rbind. specialize (Hm w H). destruct (m w) as [w1 [a| |]]; [by apply Hk|done..]. Qed.
Lemma clean_attempt (m : RM A) : keeps_clean m -> keeps_clean (attempt m).
Proof. intros Hm w H. unfold attempt. specialize (Hm w H). by destruct (m w) as [w1 [a| |]]. Qed.
Lemma clean_foreach (l : list A) (body : A -> RM unit) : (forall a, keeps_clean (body a)) -> keeps_clean (foreach l body).
Proof. intros Hb. induction l as [|a l IH]; [by intros w H|]. intros w H. cbn. unfold rbind. specialize (Hb a w H). destruct (body a w) as [w1 [[]| |]]; [by apply IH|done..]. Qed.
End keeps.

Lemma clean_observe : keeps_clean observe.
Proof. intros w H. by rewrite observe_clean. Qed.
Lemma clean_effect g : keeps_clean (effect g).
Proof. intros w H. by rewrite effect_clean. Qed.

Create HintDb keeps_clean.
#[local] Hint Resolve clean_ret clean_err clean_lift clean_bind clean_attempt clean_foreach clean_observe clean_effect : keeps_clean.

Section tombstone.
Context (C : codecs) (dir : dirInfo) (cf : shimConf).

Lemma clean_readEntry n : keeps_clean (readEntry n).
Proof. apply clean_bind; [apply clean_observe|]. intros fs. repeat case_match; auto with keeps_clean. Qed.
Lemma clean_checkDirMode : keeps_clean (checkDirMode dir).
Proof. apply clean_bind; [apply clean_observe|]. intros fs. repeat case_match; auto with keeps_clean. Qed.
Lemma clean_Get id : keeps_clean (Get C id).
Proof. apply clean_bind; [apply clean_readEntry|]. intros data. apply clean_lift. Qed.
#[local] Hint Resolve clean_readEntry clean_checkDirMode clean_Get : keeps_clean.

Lemma clean_carry_resume t : keeps_clean (carry_resume C t).
Proof. unfold carry_resume. case_match; [auto with keeps_clean|]. apply clean_bind; [auto with keeps_clean|]. intros o. repeat case_match; auto with keeps_clean. Qed.
Lemma clean_aliasSafe t : keeps_clean (legacyTombstoneAliasSafe C dir t).
Proof.
  unfold legacyTombstoneAliasSafe. apply clean_bind; [auto with keeps_clean|]. intros _. apply clean_bind; [auto with keeps_clean|].
  assert (keeps_clean (rbind (attempt (readEntry (TombstoneName (Sum256 C) (Tombstone_Identity t)))) (fun raw =>
    match raw with
    | Err ErrNotExist => rret true
    | Ok data => match decodeTombstone (j_tombstone C) data with Ok existing => rret (same_tombstone_incarnation existing t) | _ => rret false end
    | _ => rret false
    end))) as Hp by (apply clean_bind; [auto with keeps_clean|]; intros raw; repeat case_match; auto with keeps_clean).
  intros record. repeat case_match; auto with keeps_clean.
Qed.

(** A tombstone that was written without failures leaves no record of its
    incarnation. *)
Lemma PutTombstone_clean t w w' : clean w -> PutTombstone C dir t w = (w', Ok tt) ->
  forall n r, is_record_name n -> on_disk (decodeRecord (j_record C)) (files w') n r ->
    same_incarnation (Tombstone_Identity t) (t_ShimID t) (t_ProcessEpoch t) r = false.
Proof.
  intros Hc E. rewrite PutTombstone_unfold in E. apply bind_ok in E as (w1 & t1 & E1 & E).
  pose proof (clean_carry_resume t w Hc) as H1. rewrite E1 in H1. cbn in H1. destruct (carry_resume_ok _ _ _ _ _ E1) as [k ->].
  apply bind_ok in E as (w2 & data & E2 & E). injection E2 as <- _. apply bind_ok in E as (w3 & [] & E3 & E).
  pose proof (clean_effect _ w1 H1 : clean (publish (tombstoneIncarnationName C (set_tombstone_resume t k)) data w1).1) as H3.
  rewrite E3 in H3. cbn in H3. unfold tombstone_tail in E. apply bind_ok in E as (w4 & safe & E4 & E).
  pose proof (clean_aliasSafe (set_tombstone_resume t k) w3 H3) as H4. rewrite E4 in H4. cbn in H4.
  apply bind_ok in E as (w5 & [] & E5 & E).
  assert (clean w5) as H5.
  { destruct safe; [|by injection E5 as <-].
    pose proof (clean_effect _ w4 H4 : clean (publish (TombstoneName (Sum256 C) (Tombstone_Identity (set_tombstone_resume t k))) data w4).1) as H5.
    by rewrite E5 in H5. }
  apply bind_ok in E as (w6 & [] & E6 & E). apply bind_ok in E as (w7 & [] & E7 & E).
  destruct (RemoveIncarnation_clean _ _ _ _ _ _ _ H5 E6) as [_ Hgone]. intros n r Hn Hr. apply (Hgone n r Hn).
  destruct Hr as (f & Hf & Hrest). exists f. split; [|done]. rewrite <- Hf.
  pose proof (changes_remove (durableAckName C (Tombstone_Identity t) (t_ShimID t) (t_ProcessEpoch t)) w6 n) as H7.
  change (remove (durableAckName C (Tombstone_Identity t) (t_ShimID t) (t_ProcessEpoch t)) w6 = (w7, Ok tt)) in E7.
  rewrite E7 in H7. cbn in H7.
  rewrite <- H7 by (intros ->; destruct Hn as [Hn _]; not_a_record Hn).
  pose proof (RemoveStreamFlow_record C (Tombstone_Identity t) (t_ShimID t) (t_ProcessEpoch t) w7 n Hn) as H8.
  change (RemoveStreamFlow C (Tombstone_Identity t) (t_ShimID t) (t_ProcessEpoch t) w7 = (w', Ok tt)) in E.
  rewrite E in H8. done.
Qed.

Lemma put_tombstone_clean ob now r :
  faults (disk r) = [] -> terminalPublished r = false ->
  terminalPublished (put_tombstone C dir (shim_tombstone cf ob now) r) = true ->
  ~ live_record C cf (disk (put_tombstone C dir (shim_tombstone cf ob now) r)).
Proof.
  intros Hc Hf. unfold put_tombstone. set (t := set_tombstone_resume (shim_tombstone cf ob now) (resumeKey r)).
  destruct (PutTombstone C dir t (disk r)) as [w [[]|e|]] eqn:E; cbn; [|congruence..].
  intros _ (n & rec & Hn & Hd & Hs). pose proof (PutTombstone_clean t _ _ Hc E n rec Hn Hd) as F.
  assert (same_incarnation (Tombstone_Identity t) (t_ShimID t) (t_ProcessEpoch t) rec = true) as G by (destruct cf as [[o sid] wl]; exact Hs).
  congruence.
Qed.
End tombstone.

(** ** The theorems *)


(** C12. The generation fence.  In every history of a shim, generations are installed
    in increasing order; a frame is let through only with a generation that is not
    zero and is the last one installed, so once a generation is installed no frame
    of an older one is let through, whatever connection it comes from; and every
    effect of a frame answers one frame that was let through, with the same
    connection, operation and generation. *)
Theorem generation_fence C dir cf m :
  running C dir cf m ->
  (forall new old c g, log m = new ++ EvInstalled c g :: old -> forall c' g', EvInstalled c' g' ∈ old -> g' < g) /\
  (forall new old c op g, log m = new ++ EvAuthorized c op g :: old -> g <> 0 /\ last_gen old = g) /\
  (forall new old c' g', log m = new ++ EvInstalled c' g' :: old -> forall c op g, EvAuthorized c op g ∈ new -> g' <= g) /\
  (forall c op g, 0 <= total (balance c op g) (log m)).
Proof.
  intros Hr. pose proof (running_inv _ _ _ _ Hr) as H. pose proof (mi_fenced _ _ H) as Hf. split_and!.
  - intros new old c g E c' g' Hx. rewrite E in Hf. apply fenced_drop in Hf as [Hg Ho]. pose proof (last_gen_max _ _ _ Ho Hx). lia.
  - intros new old c op g E. rewrite E in Hf. apply fenced_drop in Hf as (Hz & -> & _). done.
  - intros new old c' g' E c op g Hx. apply list_elem_of_split in Hx as (a & b & ->). rewrite E, <- app_assoc in Hf.
    apply fenced_drop in Hf as (_ & -> & Hf). exact (last_gen_app b (EvInstalled c' g' :: old) Hf).
  - intros c op g. rewrite (mi_pending _ _ H). generalize (tasks m). intros ts. unfold total. induction ts as [|x ts IH]; cbn; [lia|].
    enough (0 <= pending c op g x) by lia. destruct x; cbn; try lia. by destruct (bool_decide _).
Qed.

(** An announced deadline is kept.  When a keepalive is answered with a deadline,
    the harness is not ended by the expiry of an orphan deadline before that time,
    as long as the 64-bit episode counter has not gone round: a callback of a timer
    that was moved or replaced does not terminate. *)
Theorem announced_deadline_kept C dir cf m new old at_ :
  running C dir cf m -> episodes (life m) < 2 ^ 64 -> log m = new ++ EvExpired at_ :: old ->
  forall deadline, EvPromised deadline ∈ old -> deadline <= at_.
Proof.
  intros Hr He E dl Hx. pose proof (mi_kept _ _ (running_inv _ _ _ _ Hr) He) as Hk. rewrite E in Hk. clear E.
  induction new as [|e new IH]; [by apply Hk|]. apply IH. by destruct e; cbn in Hk; try destruct Hk.
Qed.

Lemma running_rtc C dir cf m m' : running C dir cf m -> rtc (step C dir cf) m m' -> running C dir cf m'.
Proof. intros Hr Hs. revert Hr. induction Hs as [|x y z Hxy _ IH]; [done|]. intros Hr. apply IH. by eapply run_step. Qed.

Lemma ended_step C dir cf m m' : stream_law (j_tombstone C) (fun _ => True) -> running C dir cf m ->
  terminalPublished (recorded m) = true -> step C dir cf m m' ->
  terminalPublished (recorded m') = true /\ (live_record C cf (disk (recorded m')) -> live_record C cf (disk (recorded m))).
Proof.
  intros Hlaw Hr Hp Hst. pose proof (running_ended _ _ _ _ Hr) as [Hput Hpub]. destruct (Hpub Hp) as [_ Hno].
  split_step Hst; try (by split).
  pose proof (exec_recorded _ _ _ _ _ _ _ _ He) as Hrs. cbn in Hrs |- *. split; [by eapply rec_step_published|].
  intros Hlive. destruct (rec_step_live _ _ _ Hlaw _ _ _ Hrs) with (2 := Hlive) as [|(r & k & ->)]; [|done|].
  - intros tb e ->. apply (Hput tb e). rewrite Ht. set_solver.
  - exfalso. apply (Hno r k). rewrite Ht. set_solver.
Qed.


(** ** Acknowledgements *)

(** The durable cursor of this incarnation. *)
Definition ack_on_disk (C : codecs) (cf : shimConf) (w : world) (cur : durableAckCursor) : Prop :=
  on_disk (decodeDurableAck C) (files w) (durableAckName C (cf_id cf) (cf_shimID cf) (cf_epoch cf)) cur.

Lemma Ack_validate_ok a : Ack_validate a = Ok tt <-> Ack_validate a = Ok tt.
Proof. done. Qed.

Lemma putDurableAck_ok C cf g acked w w' : stream_law (j_ack C) (fun _ => True) ->
  putDurableAck C (ack_cursor cf g acked) w = (w', Ok tt) -> ack_on_disk C cf w' (ack_cursor cf g acked).
Proof.
  intros L E. apply bind_ok in E as (w1 & raw & E1 & E). unfold rlift in E1. injection E1 as -> E1.
  pose proof (proj1 (bounded_encode_ok _ _ _ _ _ Ack_validate_ok _ _) E1) as (Wf & Hm & Hb). apply publish_ok in E.
  assert (durableAckName C (Ack_Identity (ack_cursor cf g acked)) (a_ShimID (ack_cursor cf g acked)) (a_ProcessEpoch (ack_cursor cf g acked))
    = durableAckName C (cf_id cf) (cf_shimID cf) (cf_epoch cf)) as En by (by destruct cf as [[o sid] wl]).
  rewrite En in E. exists (published raw). rewrite E, lookup_insert_eq. split; [done|]. split.
  - apply published_usable. change maxSidecarBytes with 1024 in Hb. change MaxRecordBytes with 8192. lia.
  - apply (bounded_decode_ok _ _ _ _ _ Ack_validate_ok). split_and!; [done|done|]. exists []. split; [|done].
    rewrite <- (app_nil_r (e_data (published raw))). by apply L.
Qed.

Section ack.
Context (C : codecs) (dir : dirInfo) (cf : shimConf).

Lemma publication_acked r t rc : ackedSeq (write_record C r rc) = ackedSeq rc /\ ackedSeq (put_tombstone C dir t rc) = ackedSeq rc.
Proof. unfold write_record, put_tombstone. destruct (PutRetainingResumeKey _ _ _). by destruct (PutTombstone _ _ _ _) as [w2 []]. Qed.

(** The only sequence number of a headless session is its terminal one. *)
Definition acked_ok (rc : Recorded) : Prop := headless cf = true -> ackedSeq rc <= headlessTerminalSeq.

Lemma rec_step_acked t rc rc' : rec_step C dir cf t rc rc' -> (forall c hb, t = THeadlessAck c hb -> headless cf = true) -> acked_ok rc ->
  ackedSeq rc <= ackedSeq rc' /\ acked_ok rc'.
Proof.
  unfold acked_ok. intros Hst Hhl Hok. destruct Hst as [|rec k Hk|a w Ha _|tb e He|]; cbn; try (by split; [lia|]).
  - by rewrite (proj1 (publication_acked rec (shim_tombstone cf (in_observation no_input) 0) rc)).
  - destruct Ha as [[-> Ha]|(-> & c & hb & E)]; [done|]. specialize (Hok (Hhl c hb E)). split; [done|lia].
  - by rewrite (proj2 (publication_acked (shim_record cf [] None 0 None) tb rc)).
Qed.

Lemma running_acked m : running C dir cf m -> acked_ok (recorded m).
Proof.
  induction 1 as [w now|m m' Hr IH Hst].
  - intros _. unfold Start. destruct (armOrphanLocked _ _ _) as [l armed]. cbn [recorded].
    rewrite (proj1 (publication_acked _ (shim_tombstone cf (in_observation no_input) 0) _)). by vm_compute.
  - split_step Hst; try exact IH.
    apply exec_recorded in He. eapply rec_step_acked; [done| |done]. intros c hb ->. apply (running_headless _ _ _ m c hb Hr). rewrite Ht. set_solver.
Qed.

Lemma step_acked m m' : running C dir cf m -> step C dir cf m m' -> ackedSeq (recorded m) <= ackedSeq (recorded m').
Proof.
  intros Hr Hst. pose proof (running_acked _ Hr) as Ho.
  split_step Hst; try (cbn; lia).
  apply exec_recorded in He. eapply rec_step_acked; [done| |done]. intros c hb ->. apply (running_headless _ _ _ m c hb Hr). rewrite Ht. set_solver.
Qed.
End ack.


(** ** Histories run by a script *)

Inductive move := Run (k : nat) (i : input) | Tick (d : Z) | Fire | Connect | HarnessEnds.

Section play.
Context (C : codecs) (dir : dirInfo) (cf : shimConf).

(** [Run k] runs the [k]-th task. *)
Definition play1 (mv : move) (m : Machine) : option Machine :=
  match mv with
  | Run k i =>
      match tasks m !! k with
      | Some t =>
          match exec C dir cf i t (set_tasks (take k (tasks m) ++ drop (S k) (tasks m)) m) with
          | Some (m', ks) => Some (set_tasks (tasks m' ++ ks) m')
          | None => None
          end
      | None => None
      end
  | Tick d => if 0 <=? d then Some (tick d m) else None
  | Fire =>
      match orphanTimer (life m) with
      | Some t =>
          if negb (tm_fired t) && (tm_at t <=? clock m)
          then Some (set_tasks (tasks m ++ [TDeadline (tm_episode t)])
                      (set_life (set_timer (Some {| tm_episode := tm_episode t; tm_at := tm_at t; tm_fired := true |})
                                   (orphanExpiring (life m)) (life m)) m))
          else None
      | None => None
      end
  | Connect =>
      if handshakeMu (sync m) then None
      else Some (set_tasks (tasks m ++ [THello]) (set_sync (lock_handshake true (sync m)) m))
  | HarnessEnds => Some (harness_ends m)
  end.

Fixpoint play (mvs : list move) (m : Machine) : option Machine :=
  match mvs with
  | [] => Some m
  | mv :: mvs' => match play1 mv m with Some m' => play mvs' m' | None => None end
  end.

Lemma play1_step mv m m' : play1 mv m = Some m' -> step C dir cf m m'.
Proof.
  destruct mv as [k i|d| | |]; cbn; intros H.
  - destruct (tasks m !! k) as [t|] eqn:Et; [|done]. destruct (exec _ _ _ _ _ _) as [[m1 ks]|] eqn:E; [|done]. injection H as <-.
    eapply step_task; [|exact E]. symmetry. by apply take_drop_middle.
  - destruct (Z.leb_spec 0 d); [|done]. injection H as <-. by constructor.
  - destruct (orphanTimer (life m)) as [t|] eqn:Et; [|done]. destruct (_ && _) eqn:E; [|done]. injection H as <-.
    apply andb_true_iff in E as [E1%negb_true_iff E2%Z.leb_le]. by constructor.
  - destruct (handshakeMu (sync m)) eqn:E; [done|]. injection H as <-. by constructor.
  - injection H as <-. constructor.
Qed.

Lemma play_rtc mvs m m' : play mvs m = Some m' -> rtc (step C dir cf) m m'.
Proof.
  revert m. induction mvs as [|mv mvs IH]; intros m; cbn; [intros [= <-]; apply rtc_refl|].
  destruct (play1 mv m) as [m1|] eqn:E; [|done]. intros H. eapply rtc_l; [by apply (play1_step mv)|by apply IH].
Qed.

Lemma play_running mvs w now m : play mvs (Start C cf w now) = Some m -> running C dir cf m.
Proof. intros H. eapply running_rtc; [apply run_start|by apply (play_rtc mvs)]. Qed.
End play.

Definition demo_cf : shimConf := {|
  cf_id := {| OrgID := str "org"; SessionID := str "s1" |}; cf_workload := [];
  cf_orphan := {| Deadline := 900; TerminationGrace := 5; PropagationMargin := 30; ExternalReleaseThreshold := 0 |};
  cf_shimID := str "shim"; cf_epoch := 1;
  cf_self := {| p_PID := 42; p_StartedAt := 7; p_StartTicks := 0; p_BootID := [] |};
  cf_harness := {| p_PID := 43; p_StartedAt := 8; p_StartTicks := 0; p_BootID := [] |};
  cf_workarea := str "/w/a"; cf_workareaRoot := str "/w"; cf_protocolMin := 1; cf_protocolMax := 5;
  cf_socketPath := str "/run/a.sock"; cf_socketDev := 1; cf_socketIno := 2; cf_outboxKey := []; cf_outboxState := []
|}.

(** Codecs of the record a shim starts with, of its tombstone and of one cursor. *)
Definition demo_codecs : codecs := {|
  Registry.Sum256 := Registry.Sum256 sample_codecs;
  j_record := table_stream (shim_record demo_cf PhaseRunning None 100 None) (str "{r}");
  j_tombstone := table_stream (shim_tombstone demo_cf (in_observation no_input) 100) (str "{t}");
  j_ack := table_stream (ack_cursor demo_cf 1 4) (str "{a}");
  j_seat := j_seat sample_codecs; j_flow := j_flow sample_codecs; j_session := j_session sample_codecs
|}.

Definition demo_start : Machine := Start demo_codecs demo_cf {| files := ∅; faults := [] |} 100.

Definition says (f : first) : input := {|
  in_ok := true; in_first := f; in_frame := None; in_hostSeq := None; in_observation := in_observation no_input |}.
Definition sends (f : frame) : input := {|
  in_ok := true; in_first := FirstOther; in_frame := Some f; in_hostSeq := None; in_observation := in_observation no_input |}.
Definition welcome (g : Generation) : first := FirstWelcome {|
  wl_Protocol := ProtocolName; wl_Selected := 3; wl_ControllerID := str "daemon"; wl_ProposedGeneration := g; wl_ResumeFrom := 1; wl_Extensions := {| Values := ∅; Required := [] |} |}.

(** A controller of generation 1 is installed as the first connection. *)
Definition install : list move :=
  [Connect; Run 2 (says (welcome 1)); Run 2 no_input; Run 2 no_input; Run 2 no_input; Run 2 (says FirstOther)].
(** It sends input, which is let through; before the input is written, a second
    controller is installed. *)
Definition superseded : list move :=
  install ++ [Run 2 (sends (FMutation MInput 1)); Run 2 no_input; Connect; Run 3 (says (welcome 2)); Run 3 no_input; Run 2 no_input].
(** A keepalive moves the deadline; it expires at the announced time. *)
Definition kept_alive : list move :=
  [Tick 800; Connect; Run 2 (says FirstKeepalive); Run 2 no_input; Tick 900; Fire; Run 3 no_input].
(** The harness ends; the record written at the start is replaced by the tombstone. *)
Definition harness_ended : list move := [HarnessEnds; Run 1 no_input; Run 1 no_input; Run 1 no_input].

Definition final (mvs : list move) : Machine := default demo_start (play demo_codecs sample_dir demo_cf mvs demo_start).

Lemma final_running mvs : running demo_codecs sample_dir demo_cf (final mvs).
Proof.
  unfold final. destruct (play _ _ _ mvs demo_start) as [m|] eqn:E; cbn; [exact (play_running _ _ _ mvs _ _ _ E)|apply run_start].
Qed.


Lemma generation_fence_witness :
  let m := final superseded in
  log m = [EvEffect 0 MInput 1; EvInstalled 1 2; EvAuthorized 0 MInput 1; EvInstalled 0 1] /\ 1 < 2 /\
  total (balance 0 MInput 1) (log m) >= 0.
Proof.
  cbv zeta. assert (log (final superseded) = [EvEffect 0 MInput 1; EvInstalled 1 2; EvAuthorized 0 MInput 1; EvInstalled 0 1]) as E
    by (vm_compute; reflexivity).
  destruct (generation_fence demo_codecs sample_dir demo_cf (final superseded) (final_running _)) as (H1 & _ & _ & H4).
  split; [exact E|]. split; [|apply Z.le_ge, H4]. apply (H1 [EvEffect 0 MInput 1] [EvAuthorized 0 MInput 1; EvInstalled 0 1] 1%nat 2 E 0%nat).
  apply elem_of_cons. right. by apply list_elem_of_singleton.
Defined.

Lemma announced_deadline_kept_witness :
  let m := final kept_alive in log m = [EvExpired 1800; EvPromised 1800] /\ 1800 <= 1800.
Proof.
  cbv zeta. assert (log (final kept_alive) = [EvExpired 1800; EvPromised 1800]) as E by (vm_compute; reflexivity). split; [exact E|].
  apply (announced_deadline_kept demo_codecs sample_dir demo_cf (final kept_alive) [] [EvPromised 1800] 1800 (final_running _)
    ltac:(vm_compute; reflexivity) E). by apply list_elem_of_singleton.
Defined.



(** A frame that was let through takes effect after the controller that sent it was
    superseded: the fence is released before the effect. *)
Lemma effect_after_supersession :
  exists m, running demo_codecs sample_dir demo_cf m /\ gen (life m) = 2 /\
    log m = [EvEffect 0 MInput 1; EvInstalled 1 2; EvAuthorized 0 MInput 1; EvInstalled 0 1].
Proof. exists (final superseded). split; [apply final_running|]. split; vm_compute; reflexivity. Qed.
