(* ===== verification/EventBacklog.v ===== *)
(** * EventBacklog: the hand-off between a shim connection and its consumer
    ([eventBacklog] of [src/sessionshim/controller.go])

    The reader of an adopted connection queues events, a dispatcher hands them to the
    consumer.  The queue is bounded in bytes: at the bound the reader waits, which stops
    the shim behind the socket.  A consumer that stays behind for a stall deadline makes
    the connection degraded; the reader goes on waiting, and gives the connection up only
    after a longer bound.

    Each definition is one critical section of the code; the goroutines interleave them
    ([step]), in any order, with any delay of the reader up to [delta] after it could go
    on.  Instants are nanoseconds of the monotonic clock, [None] is the zero [time.Time]
    (which [time.Now] does not return), and an interval between two instants is assumed to
    fit a [Duration].  The latches ([arrived], [drained]) are counted: a goroutine that
    waits on a latch goes on once the count has moved. *)

From stdpp Require Import gmap relations.
From S2P Require Import Prelude Frame FlowGate ShimWire ShimControl Fence ShimResume Adopt.

(** ** Events *)

Inductive EventKind :=
| EventOutput | EventGap | EventSnapshot | EventSnapshotFrame | EventHostFrame | EventExit | EventHeadlessExit | EventError.

#[export] Instance EventKind_eq_dec : EqDecision EventKind.
Proof. solve_decision. Defined.

Record ExitMsg := { xm_Seq : Z; xm_ExitCode : Z; xm_Signal : bytes }.

Record ControllerEvent := {
  ce_Kind : EventKind; ce_Seq : Z; ce_RelTime : Z; ce_Data : bytes; ce_RequestID : Z; ce_FrameType : EventType;
  ce_FrameBytes : bytes; ce_Gap : option GapMsg; ce_Snapshot : SnapshotMsg; ce_Exit : option ExitMsg;
  ce_HeadlessExit : option HeadlessExit; ce_Err : option ErrorMsg
}.

Definition eventBacklogOverheadBytes : Z := 64.
Definition eventBacklogCost (e : ControllerEvent) : Z :=
  eventBacklogOverheadBytes + blen (ce_FrameBytes e) + blen (ce_Data e) + blen (sm_Screen (ce_Snapshot e)).

(** ** Bounds *)

Definition EventBacklogBudget : Z := 4 * DefaultRingBytes.
Definition eventBacklogStallDeadline : Z := 120 * Second.
Definition EventBacklogDropBound : Z := 10 * 60 * Second.
Definition DurableAckAmbiguityBound : Z := 10 * 60 * Second.
Definition durableAckAmbiguityFloor : Z := eventBacklogStallDeadline.
Definition heartbeatReceiptWaitBound : Z := 5 * Second.
Definition eventBacklogStallFloor : Z := heartbeatReceiptWaitBound + 2 * Second.

Definition clampEventBacklogDropBound (bound stall : Z) : Z :=
  let bound := if bound <=? 0 then EventBacklogDropBound else bound in Z.max bound stall.
Definition clampDurableAckAmbiguityBound (bound stall : Z) : Z :=
  let bound := if bound <=? 0 then DurableAckAmbiguityBound else bound in Z.max (Z.max bound durableAckAmbiguityFloor) stall.
Definition clampEventBacklogStall (stall : Z) : Z :=
  if stall <=? 0 then eventBacklogStallDeadline else Z.max stall eventBacklogStallFloor.

(** ** The backlog *)

(** The fields that do not change after construction. *)
Record backlogConf := { bc_budget : Z; bc_stall : Z; bc_dropBound : Z; bc_ambiguityBound : Z }.

Record eventBacklog := {
  b_queue : list ControllerEvent; b_bytes : Z; b_closed : bool;
  b_stalledSince : option Z; b_drainedSinceStall : Z; b_ambiguousSince : option Z; b_degradedSince : option Z; b_reported : bool;
  b_arrived : nat; b_drained : nat
}.

Definition newEventBacklog (budget stall ambiguityBound dropBound : Z) : backlogConf * eventBacklog :=
  let resolvedStall := clampEventBacklogStall stall in
  ({| bc_budget := if budget <=? 0 then EventBacklogBudget else budget; bc_stall := resolvedStall;
      bc_dropBound := clampEventBacklogDropBound dropBound resolvedStall;
      bc_ambiguityBound := clampDurableAckAmbiguityBound ambiguityBound resolvedStall |},
   {| b_queue := []; b_bytes := 0; b_closed := false; b_stalledSince := None; b_drainedSinceStall := 0; b_ambiguousSince := None;
      b_degradedSince := None; b_reported := false; b_arrived := 0; b_drained := 0 |}).

Record BacklogFlowState := {
  fs_Degraded : bool; fs_StalledSince : option Z; fs_QueuedBytes : Z; fs_DrainedBytes : Z; fs_Budget : Z; fs_DropBound : Z
}.

(** The anchors, replaced. *)
Definition set_stall (b : eventBacklog) (stalled : option Z) (drained : Z) (ambiguous degraded : option Z) (reported : bool) : eventBacklog := {|
  b_queue := b_queue b; b_bytes := b_bytes b; b_closed := b_closed b; b_stalledSince := stalled; b_drainedSinceStall := drained;
  b_ambiguousSince := ambiguous; b_degradedSince := degraded; b_reported := reported; b_arrived := b_arrived b; b_drained := b_drained b |}.

Section backlog.
Context (cf : backlogConf).

Definition flowStateLocked (b : eventBacklog) : BacklogFlowState := {|
  fs_Degraded := bool_decide (is_Some (b_degradedSince b)); fs_StalledSince := b_degradedSince b; fs_QueuedBytes := b_bytes b;
  fs_DrainedBytes := b_drainedSinceStall b; fs_Budget := bc_budget cf; fs_DropBound := bc_dropBound cf |}.

Definition progressBytes : Z := bc_budget cf.

(** [cmp.Or] of two instants, the second of which is not zero. *)
Definition or_instant (a : option Z) (now : Z) : option Z := match a with Some _ => a | None => Some now end.

(** [expectedStall.IsZero() || b.stalledSince != expectedStall] *)
Definition stale (expected : option Z) (b : eventBacklog) : bool :=
  match expected with None => true | Some _ => negb (bool_decide (b_stalledSince b = expected)) end.

Definition noteFlowControlStall (now : Z) (expected : option Z) (b : eventBacklog) : eventBacklog * (BacklogFlowState * bool) :=
  if stale expected b then (b, (flowStateLocked b, false))
  else
    let degraded := match b_degradedSince b with None => or_instant (b_stalledSince b) now | d => d end in
    let b' := set_stall b (b_stalledSince b) (b_drainedSinceStall b) (b_ambiguousSince b) degraded true in
    (b', (flowStateLocked b', true)).

(** The state, whether the carrier is kept, whether the stall is still the expected one. *)
Definition holdForFlowControl (now : Z) (expected : option Z) (b : eventBacklog) : eventBacklog * (BacklogFlowState * bool * bool) :=
  if stale expected b then (b, (flowStateLocked b, false, false))
  else
    let degraded := match b_degradedSince b with None => or_instant (b_stalledSince b) now | d => d end in
    let b' := set_stall b (b_stalledSince b) (b_drainedSinceStall b) (b_ambiguousSince b) degraded (b_reported b) in
    let state := flowStateLocked b' in
    if bc_dropBound cf <=? now - default now degraded then (b', (state, false, true))
    else (set_stall b' (Some now) 0 (b_ambiguousSince b') degraded true, (state, true, true)).

Inductive ambiguityHoldOutcome := ambiguityHoldNotAmbiguous | ambiguityHoldGranted | ambiguityHoldBoundReached | ambiguityHoldStallAnswered.

Definition holdForDurableAckAmbiguityAt (ambiguous : bool) (now : Z) (expected : option Z) (requireCurrent : bool) (b : eventBacklog)
    : eventBacklog * (ambiguityHoldOutcome * Z) :=
  if requireCurrent && stale expected b then (b, (ambiguityHoldStallAnswered, 0))
  else if negb ambiguous
  then (set_stall b (b_stalledSince b) (b_drainedSinceStall b) None (b_degradedSince b) (b_reported b), (ambiguityHoldNotAmbiguous, 0))
  else
    let since := default now (b_ambiguousSince b) in
    let held := now - since in
    if bc_ambiguityBound cf <=? held
    then (set_stall b (b_stalledSince b) (b_drainedSinceStall b) (Some since) (b_degradedSince b) (b_reported b), (ambiguityHoldBoundReached, held))
    else (set_stall b (Some now) 0 (Some since) (b_degradedSince b) (b_reported b), (ambiguityHoldGranted, held)).

Definition holdForDurableAckAmbiguityForStall (ambiguous : bool) (now : Z) (expected : option Z) : eventBacklog -> eventBacklog * (ambiguityHoldOutcome * Z) :=
  holdForDurableAckAmbiguityAt ambiguous now expected true.

(** *** The first section of a round of [push] *)

Inductive pushed := PushClosed | PushQueued | PushFull (remaining : Z) (stalled : option Z) (room : nat).

(** [now] anchors a stall, [since] is the later instant [time.Since] reads. *)
Definition push_try (event : ControllerEvent) (now since : Z) (b : eventBacklog) : eventBacklog * pushed :=
  if b_closed b then (b, PushClosed)
  else
    let cost := eventBacklogCost event in
    if match b_queue b with [] => true | _ => b_bytes b + cost <=? bc_budget cf end
    then ({| b_queue := b_queue b ++ [event]; b_bytes := b_bytes b + cost; b_closed := b_closed b; b_stalledSince := b_stalledSince b;
             b_drainedSinceStall := b_drainedSinceStall b; b_ambiguousSince := b_ambiguousSince b; b_degradedSince := b_degradedSince b;
             b_reported := b_reported b; b_arrived := S (b_arrived b); b_drained := b_drained b |}, PushQueued)
    else
      let b' := match b_stalledSince b with
                | None => set_stall b (Some now) 0 (b_ambiguousSince b) (b_degradedSince b) (b_reported b)
                | Some _ => b
                end in
      (b', PushFull (bc_stall cf - (since - default now (b_stalledSince b'))) (b_stalledSince b') (b_drained b')).

(** *** A round of [pop] *)

Inductive popped := PopEvent (e : ControllerEvent) (left : nat) (recovered : option BacklogFlowState) | PopClosed | PopEmpty (next : nat).

Definition pop_try (b : eventBacklog) : eventBacklog * popped :=
  match b_queue b with
  | event :: queue =>
      let cost := eventBacklogCost event in
      let drained := b_drainedSinceStall b + cost in
      let answered := match b_stalledSince b with
                      | None => false
                      | Some _ => match queue with [] => true | _ => progressBytes <=? drained end
                      end in
      let b' := {|
        b_queue := queue; b_bytes := b_bytes b - cost; b_closed := b_closed b;
        b_stalledSince := if answered then None else b_stalledSince b;
        b_drainedSinceStall := if answered then 0 else match b_stalledSince b with None => b_drainedSinceStall b | Some _ => drained end;
        b_ambiguousSince := if answered then None else b_ambiguousSince b;
        b_degradedSince := if answered then None else b_degradedSince b;
        b_reported := if answered then false else b_reported b;
        b_arrived := b_arrived b; b_drained := S (b_drained b) |} in
      (b', PopEvent event (length queue) (if answered && b_reported b then Some (flowStateLocked b') else None))
  | [] => if b_closed b then (b, PopClosed) else (b, PopEmpty (b_arrived b))
  end.

Definition backlog_close (b : eventBacklog) : eventBacklog :=
  if b_closed b then b
  else {| b_queue := b_queue b; b_bytes := b_bytes b; b_closed := true; b_stalledSince := b_stalledSince b;
          b_drainedSinceStall := b_drainedSinceStall b; b_ambiguousSince := b_ambiguousSince b; b_degradedSince := b_degradedSince b;
          b_reported := b_reported b; b_arrived := S (b_arrived b); b_drained := S (b_drained b) |}.

(** ** The goroutines *)

Inductive streamEnd := EndEOF | ErrEventBacklogExceeded | ErrDurableAckAmbiguityBound.

(** Where a call of [push] is. *)
Inductive pc :=
| PTry
| PArm (remaining : Z) (stalled : option Z) (room : nat)  (** before the timer is set *)
| PWait (stalled : option Z) (room : nat) (fires : Z)  (** in the [select] *)
| PNow (stalled : option Z)  (** before [now := time.Now()] *)
| PNote (now : Z) (stalled : option Z)
| PAsk (now : Z) (stalled : option Z) (degraded : BacklogFlowState)  (** before [b.ambiguous()] *)
| PAck (ambiguous : bool) (now : Z) (stalled : option Z) (degraded : BacklogFlowState)
| PFlow (now : Z) (stalled : option Z).

Inductive reader := Reading | Pushing (started : Z) (event : ControllerEvent) (at_ : pc) | Ended (err : option streamEnd).
Inductive dispatcher := DPop | DWait (next : nat) | DSend (event : ControllerEvent) | DEnd (dropped : option ControllerEvent).

(** What happened, in order. *)
Inductive hist :=
| HQueued (e : ControllerEvent)  (** a push returned nil *)
| HBlocked (at_ : Z)  (** the stall clock was anchored *)
| HHeld (now : Z) (ambiguous : bool)  (** a deadline passed and the reader goes on waiting *)
| HGaveUp (now : Z) (err : streamEnd)
| HTook (e : ControllerEvent) (left : nat)
| HSent (e : ControllerEvent)
| HReport (s : BacklogFlowState).

Record Mach := {
  m_b : eventBacklog; m_reader : reader; m_disp : dispatcher; m_abort : bool; m_clk : Z; m_due : Z; m_hist : list hist
}.

Definition init (b : eventBacklog) (now : Z) : Mach :=
  {| m_b := b; m_reader := Reading; m_disp := DPop; m_abort := false; m_clk := now; m_due := now; m_hist := [] |}.

Context (delta : Z).

(** The reader goes on at [r]; it has [delta] for its next section. *)
Definition goes (m : Mach) (b : eventBacklog) (r : reader) (clk : Z) (h : list hist) : Mach := {|
  m_b := b; m_reader := r; m_disp := m_disp m; m_abort := m_abort m; m_clk := clk;
  m_due := match r with Pushing _ _ (PWait _ _ fires) => Z.max fires clk + delta | _ => clk + delta end; m_hist := m_hist m ++ h |}.

Definition dispatches (m : Mach) (b : eventBacklog) (d : dispatcher) (h : list hist) : Mach := {|
  m_b := b; m_reader := m_reader m; m_disp := d; m_abort := m_abort m; m_clk := m_clk m; m_due := m_due m; m_hist := m_hist m ++ h |}.

(** The sections of a push, given the answer of [b.ambiguous()] and the later instant of
    [PTry]; [None] where it waits. *)
Definition push_step (m : Mach) (started : Z) (event : ControllerEvent) (at_ : pc) (ambiguous : bool) (since : Z) : option Mach :=
  let b := m_b m in
  let now := m_clk m in
  let again b h := goes m b (Pushing started event PTry) now h in
  match at_ with
  | PTry =>
      let '(b', r) := push_try event now since b in
      Some match r with
      | PushClosed => goes m b' (Ended (Some EndEOF)) since []
      | PushQueued => goes m b' Reading since [HQueued event]
      | PushFull remaining stalled room =>
          goes m b' (Pushing started event (if remaining <=? 0 then PNow stalled else PArm remaining stalled room)) since
            (match b_stalledSince b with None => [HBlocked now] | Some _ => [] end)
      end
  | PArm remaining stalled room => Some (goes m b (Pushing started event (PWait stalled room (now + remaining))) now [])
  | PWait stalled room fires => if fires <=? now then Some (goes m b (Pushing started event (PNow stalled)) now []) else None
  | PNow stalled => Some (goes m b (Pushing started event (PNote now stalled)) now [])
  | PNote t stalled =>
      let '(b', (degraded, current)) := noteFlowControlStall t stalled b in
      Some (if current : bool then goes m b' (Pushing started event (PAsk t stalled degraded)) now [] else again b' [])
  | PAsk t stalled degraded => Some (goes m b (Pushing started event (PAck ambiguous t stalled degraded)) now [])
  | PAck amb t stalled degraded =>
      let '(b', (outcome, _)) := holdForDurableAckAmbiguityForStall amb t stalled b in
      Some match outcome with
      | ambiguityHoldGranted => again b' [HHeld t true; HReport degraded]
      | ambiguityHoldBoundReached => goes m b' (Ended (Some ErrDurableAckAmbiguityBound)) now [HGaveUp t ErrDurableAckAmbiguityBound]
      | ambiguityHoldStallAnswered => again b' []
      | ambiguityHoldNotAmbiguous => goes m b' (Pushing started event (PFlow t stalled)) now []
      end
  | PFlow t stalled =>
      let '(b', (state, keep, current)) := holdForFlowControl t stalled b in
      Some (if negb current then again b' []
            else if keep : bool then again b' [HHeld t false; HReport state]
            else goes m b' (Ended (Some ErrEventBacklogExceeded)) now [HGaveUp t ErrEventBacklogExceeded])
  end.

Inductive step : Mach -> Mach -> Prop :=
| step_tick m t :
    m_clk m <= t -> (forall s e p, m_reader m = Pushing s e p -> t <= m_due m) ->
    step m {| m_b := m_b m; m_reader := m_reader m; m_disp := m_disp m; m_abort := m_abort m; m_clk := t; m_due := m_due m; m_hist := m_hist m |}
| step_publish m event : m_reader m = Reading -> step m (goes m (m_b m) (Pushing (m_clk m) event PTry) (m_clk m) [])
| step_end m : m_reader m = Reading -> step m (goes m (m_b m) (Ended None) (m_clk m) [])
| step_push m s e p ambiguous since m' :
    m_reader m = Pushing s e p -> m_clk m <= since <= m_due m -> push_step m s e p ambiguous since = Some m' -> step m m'
| step_room m s e stalled room fires :
    m_reader m = Pushing s e (PWait stalled room fires) -> b_drained (m_b m) <> room -> step m (goes m (m_b m) (Pushing s e PTry) (m_clk m) [])
| step_abort m s e stalled room fires :
    m_reader m = Pushing s e (PWait stalled room fires) -> m_abort m = true -> step m (goes m (m_b m) (Ended (Some EndEOF)) (m_clk m) [])
| step_defer m err : m_reader m = Ended err -> step m (goes m (backlog_close (m_b m)) (Ended err) (m_clk m) [])
| step_close m :
    step m {| m_b := m_b m; m_reader := m_reader m; m_disp := m_disp m; m_abort := true; m_clk := m_clk m; m_due := m_due m; m_hist := m_hist m |}
| step_pop m b' e left recovered :
    m_disp m = DPop -> pop_try (m_b m) = (b', PopEvent e left recovered) ->
    step m (dispatches m b' (DSend e) (HTook e left :: match recovered with Some s => [HReport s] | None => [] end))
| step_pop_closed m b' : m_disp m = DPop -> pop_try (m_b m) = (b', PopClosed) -> step m (dispatches m b' (DEnd None) [])
| step_pop_empty m b' next : m_disp m = DPop -> pop_try (m_b m) = (b', PopEmpty next) -> step m (dispatches m b' (DWait next) [])
| step_arrived m next : m_disp m = DWait next -> b_arrived (m_b m) <> next -> step m (dispatches m (m_b m) DPop [])
| step_send m e : m_disp m = DSend e -> step m (dispatches m (m_b m) DPop [HSent e])
| step_drop m e : m_disp m = DSend e -> m_abort m = true -> step m (dispatches m (m_b m) (DEnd (Some e)) []).

(** ** Histories *)

Definition queued (h : list hist) : list ControllerEvent := omap (fun x => match x with HQueued e => Some e | _ => None end) h.
Definition sent (h : list hist) : list ControllerEvent := omap (fun x => match x with HSent e => Some e | _ => None end) h.
(** The bytes a consumer took. *)
Definition took (h : list hist) : Z := foldr (fun x t => match x with HTook e _ => eventBacklogCost e + t | _ => t end) 0 h.
Definition total (q : list ControllerEvent) : Z := foldr (fun e t => eventBacklogCost e + t) 0 q.
(** The event the dispatcher has taken and not delivered. *)
Definition in_hand (d : dispatcher) : list ControllerEvent :=
  match d with DSend e => [e] | DEnd (Some e) => [e] | _ => [] end.
End backlog.
