(* ===== verification/BacklogProperties.v ===== *)
(** * BacklogProperties: the invariant of the event backlog

    One invariant of [EventBacklog.step], in three parts: what is queued and in which
    order ([lossless]), what a stall has seen so far ([stall_ok]), and how late the reader
    can be ([reader_ok]). *)

From stdpp Require Import gmap relations.
From S2P Require Import Prelude Frame FlowGate ShimWire ShimControl Fence ShimResume Adopt EventBacklog.

(** What the reader's obligations depend on. *)
Record view := { v_stalled : option Z; v_ambiguous : option Z; v_degraded : option Z }.
Definition view_of (b : eventBacklog) : view :=
  {| v_stalled := b_stalledSince b; v_ambiguous := b_ambiguousSince b; v_degraded := b_degradedSince b |}.
Definition no_view : view := {| v_stalled := None; v_ambiguous := None; v_degraded := None |}.

Section properties.
Context (cf : backlogConf) (delta : Z).
Hypothesis budget_pos : 0 < bc_budget cf.
Hypothesis stall_pos : 0 < bc_stall cf.
Hypothesis drop_pos : 0 < bc_dropBound cf.
Hypothesis ambiguity_pos : 0 < bc_ambiguityBound cf.
Hypothesis delta_nonneg : 0 <= delta.

(** ** Histories *)

(** The consumer did not empty the queue. *)
Definition unanswered (h : list hist) : Prop := forall e left, HTook e left ∈ h -> left <> 0%nat.
(** Every deadline passed with an acknowledgement outstanding. *)
Definition all_ambiguous (h : list hist) : Prop := forall t a, HHeld t a ∈ h -> a = true.

Lemma took_app h1 h2 : took (h1 ++ h2) = took h1 + took h2.
Proof. induction h1 as [|x h1 IH]; simpl; [done|]. rewrite IH. destruct x; lia. Qed.

Lemma queued_app h1 h2 : queued (h1 ++ h2) = queued h1 ++ queued h2.
Proof. apply omap_app. Qed.
Lemma sent_app h1 h2 : sent (h1 ++ h2) = sent h1 ++ sent h2.
Proof. apply omap_app. Qed.

Lemma total_cost_app q1 q2 : total (q1 ++ q2) = total q1 + total q2.
Proof. induction q1 as [|e q1 IH]; simpl; [done|]. rewrite IH. lia. Qed.

Lemma cost_pos e : 0 < eventBacklogCost e.
Proof. unfold eventBacklogCost, eventBacklogOverheadBytes, blen. lia. Qed.

Lemma unanswered_app h1 h2 : unanswered h1 -> unanswered h2 -> unanswered (h1 ++ h2).
Proof. intros H1 H2 e l [Hin|Hin]%elem_of_app; [by eapply H1|by eapply H2]. Qed.
Lemma all_ambiguous_app h1 h2 : all_ambiguous h1 -> all_ambiguous h2 -> all_ambiguous (h1 ++ h2).
Proof. intros H1 H2 e l [Hin|Hin]%elem_of_app; [by eapply H1|by eapply H2]. Qed.

(** Entries that say nothing about the consumer or a deadline. *)
Definition neutral (h : list hist) : Prop := unanswered h /\ all_ambiguous h /\ took h = 0.

(** Why a carrier was given up after the history [h]. *)
Definition earned (h : list hist) (now : Z) (err : streamEnd) : Prop :=
  match err with
  | ErrEventBacklogExceeded => exists d pre mid, h = pre ++ HBlocked d :: mid /\ bc_dropBound cf <= now - d /\ unanswered mid /\
      took mid * bc_stall cf < bc_budget cf * (now - d)
  | ErrDurableAckAmbiguityBound => exists a pre mid, h = pre ++ HHeld a true :: mid /\ bc_ambiguityBound cf <= now - a /\ unanswered mid /\ all_ambiguous mid
  | EndEOF => False
  end.
Definition all_earned (h : list hist) : Prop := forall h1 now err h2, h = h1 ++ HGaveUp now err :: h2 -> earned h1 now err.

Definition no_verdict (h : list hist) : Prop := forall now err, HGaveUp now err ∉ h.

Lemma earned_app h new : all_earned h -> no_verdict new -> all_earned (h ++ new).
Proof.
  intros He Hn h1 now err h2 Heq.
  apply app_eq_app in Heq as (l & [[-> Hl]|[-> Hl]]).
  - destruct l as [|x l]; [cbn in Hl; subst; destruct (Hn now err); by left|]. injection Hl as <- ->. by eapply He.
  - destruct (Hn now err). rewrite Hl. apply elem_of_app. right. by left.
Qed.

Lemma earned_snoc h now err : all_earned h -> earned h now err -> all_earned (h ++ [HGaveUp now err]).
Proof.
  intros He Hn h1 now' err' h2 Heq. destruct h2 as [|x h2' _] using rev_ind.
  - apply app_inj_tail in Heq as [-> [= <- <-]]. done.
  - change (h1 ++ HGaveUp now' err' :: h2' ++ [x]) with (h1 ++ (HGaveUp now' err' :: h2') ++ [x]) in Heq. rewrite app_assoc in Heq.
    apply app_inj_tail in Heq as [-> _]. by eapply He.
Qed.

(** ** What a stall has seen *)

Definition ambiguity_ok (h : list hist) (s : Z) (a : option Z) : Prop :=
  match a with
  | None => True
  | Some a => (exists pre mid, h = pre ++ HHeld a true :: mid /\ unanswered mid /\ all_ambiguous mid) /\ a <= s < a + bc_ambiguityBound cf
  end.

Definition stall_ok (h : list hist) (b : eventBacklog) (clk : Z) : Prop :=
  match b_stalledSince b with
  | None => view_of b = no_view /\ b_drainedSinceStall b = 0
  | Some s => b_queue b <> [] /\ ambiguity_ok h s (b_ambiguousSince b) /\
      exists d pre mid k, h = pre ++ HBlocked d :: mid /\ unanswered mid /\ (b_degradedSince b = Some d \/ b_degradedSince b = None /\ s = d) /\
        0 <= k /\ d + k * bc_stall cf <= s <= clk /\ took mid <= k * (bc_budget cf - 1) + b_drainedSinceStall b /\
        0 <= b_drainedSinceStall b < bc_budget cf
  end.

(** ** How late the reader can be *)

Definition start (v : view) (s : Z) : Z := default s (v_degraded v).

(** The latest deadline of the stall, and the latest first deadline after the drop bound. *)
Definition next_deadline (s p : Z) : Z := Z.max (s + bc_stall cf) p.
Definition last_deadline (d p : Z) : Z := Z.max (d + bc_dropBound cf + bc_stall cf) p.

Definition held_ok (v : view) (s : Z) : Prop := v_ambiguous v = None -> s < start v s + bc_dropBound cf.
Definition asked_ok (v : view) (s p : Z) : Prop := forall a, v_ambiguous v = Some a -> a <= last_deadline (start v s) p + 6 * delta.

Definition pc_ok (v : view) (s clk due p : Z) (at_ : pc) : Prop :=
  match at_ with
  | PFlow _ _ => True
  | _ => held_ok v s /\ asked_ok v s p
  end /\
  match at_ with
  | PTry => due <= next_deadline s p + 5 * delta
  | PArm remaining stalled _ => stalled = Some s /\ 0 < remaining /\ s + bc_stall cf <= clk + remaining /\ due + remaining <= s + bc_stall cf + delta
  | PWait stalled _ fires => stalled = Some s /\ s + bc_stall cf <= fires <= s + bc_stall cf + delta /\ due <= fires + delta
  | PNow stalled => stalled = Some s /\ s + bc_stall cf <= clk /\ due <= next_deadline s p + 6 * delta
  | PNote t stalled => stalled = Some s /\ s + bc_stall cf <= t <= clk /\ due <= t + delta /\ t <= next_deadline s p + 6 * delta
  | PAsk t stalled _ => stalled = Some s /\ s + bc_stall cf <= t <= clk /\ due <= t + 2 * delta /\ t <= next_deadline s p + 6 * delta /\ is_Some (v_degraded v)
  | PAck _ t stalled _ => stalled = Some s /\ s + bc_stall cf <= t <= clk /\ due <= t + 3 * delta /\ t <= next_deadline s p + 6 * delta /\ is_Some (v_degraded v)
  | PFlow t stalled => stalled = Some s /\ s + bc_stall cf <= t <= clk /\ due <= t + 4 * delta /\ is_Some (v_degraded v) /\ v_ambiguous v = None /\
      t <= last_deadline (start v s) p + bc_ambiguityBound cf + bc_stall cf + 12 * delta
  end.

Definition reader_ok (v : view) (clk due : Z) (r : reader) : Prop :=
  match r with
  | Pushing p _ at_ => p <= clk <= due /\ match at_ with PWait _ _ _ => True | _ => due <= clk + delta end /\
      forall s, v_stalled v = Some s -> pc_ok v s clk due p at_
  | Reading => forall s, v_stalled v = Some s -> held_ok v s
  | Ended _ => True
  end.

(** ** The queue *)

Definition lossless (m : Mach) : Prop :=
  queued (m_hist m) = sent (m_hist m) ++ in_hand (m_disp m) ++ b_queue (m_b m) /\
  b_bytes (m_b m) = total (b_queue (m_b m)) /\
  (b_bytes (m_b m) <= bc_budget cf \/ length (b_queue (m_b m)) = 1%nat) /\
  match m_disp m with DEnd None => b_closed (m_b m) = true /\ b_queue (m_b m) = [] | _ => True end /\
  (b_closed (m_b m) = true -> exists err, m_reader m = Ended err).

Record inv (m : Mach) : Prop := {
  i_lossless : lossless m;
  i_stall : stall_ok (m_hist m) (m_b m) (m_clk m);
  i_reader : reader_ok (view_of (m_b m)) (m_clk m) (m_due m) (m_reader m);
  i_earned : all_earned (m_hist m)
}.

(** ** Sections that move the stall *)

Lemma ambiguity_extend h new s a : unanswered new -> all_ambiguous new -> ambiguity_ok h s a -> ambiguity_ok (h ++ new) s a.
Proof.
  intros Hu Ha. destruct a as [a|]; [|done]. intros [(pre & mid & -> & Hu' & Ha') Hs]. split; [|done]. exists pre, (mid ++ new).
  rewrite <- app_assoc. split_and!; [done|by apply unanswered_app|by apply all_ambiguous_app].
Qed.

Lemma stall_extend h new b clk clk' : neutral new -> clk <= clk' -> stall_ok h b clk -> stall_ok (h ++ new) b clk'.
Proof.
  intros (Hu & Ha & Ht) Hc. unfold stall_ok. destruct (b_stalledSince b) as [s|]; [|done].
  intros (Hq & Hamb & d & pre & mid & k & -> & Hmid & Hd & Hk & Hs & Htk & Hdr). split_and!; [done|by apply ambiguity_extend|].
  exists d, pre, (mid ++ new), k. rewrite <- app_assoc, took_app, Ht. split_and!; try done; [by apply unanswered_app|lia..].
Qed.

(** [stall_ok] depends on the queue only through its being empty. *)
Lemma stall_same h b b' clk :
  view_of b' = view_of b -> b_drainedSinceStall b' = b_drainedSinceStall b -> (b_queue b <> [] -> b_queue b' <> []) ->
  stall_ok h b clk -> stall_ok h b' clk.
Proof.
  unfold stall_ok, view_of. intros [= Hs Ha Hd] Hdr Hq. rewrite Hs, Ha, Hd, Hdr. destruct (b_stalledSince b); [|done].
  intros (Hq' & Hrest). split; [auto|done].
Qed.

(** The stall clock is anchored again at [t], a deadline after the last anchor. *)
Lemma stall_reanchor h b clk s t new a rep :
  b_stalledSince b = Some s -> is_Some (b_degradedSince b) -> s + bc_stall cf <= t <= clk -> unanswered new -> took new = 0 ->
  ambiguity_ok (h ++ new) t a ->
  stall_ok h b clk -> stall_ok (h ++ new) (set_stall b (Some t) 0 a (b_degradedSince b) rep) clk.
Proof.
  intros Es [d' Ed] Ht Hu Htk Ha. unfold stall_ok at 1. rewrite Es. intros (Hq & _ & d & pre & mid & k & -> & Hmid & Hd & Hk & Hs & Htook & Hdr).
  unfold stall_ok. cbn. split_and!; [done|done|]. exists d, pre, (mid ++ new), (k + 1). rewrite <- app_assoc, took_app, Htk.
  destruct Hd as [Hd|[Hd _]]; [|congruence]. split_and!; [done|by apply unanswered_app|by left|lia|nia|lia|nia|lia|lia].
Qed.

(** A deadline that passes ends the hold only when it is earned. *)
Lemma drop_earned h b clk s t d :
  b_stalledSince b = Some s -> b_degradedSince b = Some d -> s + bc_stall cf <= t <= clk -> bc_dropBound cf <= t - d ->
  stall_ok h b clk -> earned h t ErrEventBacklogExceeded.
Proof.
  intros Es Ed Ht Hdrop. unfold stall_ok. rewrite Es. intros (_ & _ & d' & pre & mid & k & -> & Hmid & Hd & Hk & Hs & Htook & Hdr).
  destruct Hd as [Hd|[Hd _]]; [|congruence]. rewrite Ed in Hd. injection Hd as <-. exists d, pre, mid. split_and!; [done|done|done|].
  assert (took mid <= (k + 1) * (bc_budget cf - 1)) by nia. assert ((k + 1) * bc_stall cf <= t - d) by nia.
  assert (took mid * bc_stall cf <= (k + 1) * bc_stall cf * (bc_budget cf - 1)) by nia. nia.
Qed.

(** ** Steps that are not the reader's *)

Lemma pc_later v s clk clk' due p at_ : clk <= clk' -> pc_ok v s clk due p at_ -> pc_ok v s clk' due p at_.
Proof. intros Hc [Hv Hp]. split; [done|]. destruct at_; intuition lia. Qed.

Lemma reader_env v v' clk clk' due r :
  v' = v \/ v' = no_view -> clk <= clk' -> (forall p e at_, r = Pushing p e at_ -> clk' <= due) ->
  reader_ok v clk due r -> reader_ok v' clk' due r.
Proof.
  intros Hv Hc Hdue. destruct r as [|p e at_|err]; cbn [reader_ok].
  - intros Hh s Hs. destruct Hv as [->| ->]; [auto|done].
  - intros (Hp & Hd & Hpc). split_and!; [lia|by eapply Hdue|destruct at_; lia|].
    intros s Hs. destruct Hv as [->| ->]; [|done]. eapply pc_later; [done|]. auto.
  - done.
Qed.

Lemma lossless_same m m' h :
  lossless m -> m_hist m' = m_hist m ++ h -> queued h = [] -> sent h = [] -> m_disp m' = m_disp m ->
  b_queue (m_b m') = b_queue (m_b m) -> b_bytes (m_b m') = b_bytes (m_b m) -> b_closed (m_b m') = b_closed (m_b m) ->
  (m_reader m' = m_reader m \/ b_closed (m_b m) = false) -> lossless m'.
Proof.
  intros (Hq & Hb & Hm & Hd & Hc) Hh Eq Es Ed Eqq Eb Ec Hr. unfold lossless. rewrite Hh, queued_app, sent_app, Eq, Es, !app_nil_r, Ed, Eqq, Eb, Ec.
  split_and!; try done. intros Hcl. destruct Hr as [->|Hr]; [auto|congruence].
Qed.

Lemma pop_view b b' e left r :
  pop_try cf b = (b', PopEvent e left r) ->
  b_queue b = e :: b_queue b' /\ left = length (b_queue b') /\ b_bytes b' = b_bytes b - eventBacklogCost e /\ b_closed b' = b_closed b /\
  (view_of b' = no_view /\ b_drainedSinceStall b' = 0 /\ is_Some (b_stalledSince b) \/
   view_of b' = view_of b /\
   match b_stalledSince b with
   | None => b_drainedSinceStall b' = b_drainedSinceStall b
   | Some _ => left <> 0%nat /\ b_drainedSinceStall b' = b_drainedSinceStall b + eventBacklogCost e /\ b_drainedSinceStall b' < bc_budget cf
   end).
Proof.
  unfold pop_try. destruct (b_queue b) as [|x q] eqn:Eq; [by destruct (b_closed b)|]. intros [= <- <- <- <-]. cbn. split_and!; try done.
  destruct (b_stalledSince b) as [s|] eqn:Es; [|right; unfold view_of; cbn; by rewrite Es].
  destruct q as [|y q]; [left; by split_and!|]. unfold progressBytes.
  destruct (bc_budget cf <=? b_drainedSinceStall b + eventBacklogCost x) eqn:E; [left; by split_and!|].
  apply Z.leb_gt in E. right. unfold view_of. cbn. by rewrite Es.
Qed.

Lemma stall_pop h b b' e left r clk rep :
  pop_try cf b = (b', PopEvent e left r) -> (forall x, x ∈ rep -> exists s, x = HReport s) ->
  stall_ok h b clk -> stall_ok (h ++ HTook e left :: rep) b' clk.
Proof.
  intros Hp Hrep Hok. destruct (pop_view _ _ _ _ _ Hp) as (Hq & Hl & _ & _ & [(Hv & Hd & _)|[Hv Hd]]).
  { unfold stall_ok. assert (b_stalledSince b' = None) as -> by (by injection Hv). done. }
  assert (Hrep' : unanswered rep /\ all_ambiguous rep /\ took rep = 0).
  { split_and!; [intros ? ? Hin; by destruct (Hrep _ Hin)|intros ? ? Hin; by destruct (Hrep _ Hin)|].
    induction rep as [|x rep IH]; [done|]. cbn. destruct (Hrep x) as [s ->]; [by left|]. apply IH. intros y Hy. apply Hrep. by right. }
  destruct Hrep' as (Hru & Hra & Hrt). unfold stall_ok in *. injection Hv as Hv1 Hv2 Hv3. rewrite Hv1, Hv2, Hv3.
  destruct (b_stalledSince b) as [s|] eqn:Es.
  - destruct Hd as (Hl' & Hd & Hlt), Hok as (_ & Hamb & d & pre & mid & k & -> & Hmid & Hdg & Hk & Hs & Htk & Hdr).
    assert (Hun : unanswered (HTook e left :: rep)) by (intros ? ? [[= <- <-]|Hin]%elem_of_cons; [done|by eapply Hru]).
    split_and!; [intros E; apply Hl'; by rewrite Hl, E|apply ambiguity_extend; [done| |done]|].
    { intros ? ? [[=]|Hin]%elem_of_cons. by eapply Hra. }
    pose proof (cost_pos e) as Hpos. exists d, pre, (mid ++ HTook e left :: rep), k. rewrite <- app_assoc, took_app. cbn [took foldr]. fold (took rep).
    rewrite Hrt, Hd. split_and!; try done; [by apply unanswered_app|lia..].
  - destruct Hok as [Hv' Hd']. split; [|congruence]. rewrite <- Hv'. unfold view_of. by rewrite Hv1, Hv2, Hv3, Es.
Qed.

(** ** The sections of a push *)

Lemma pushing_open m p e at_ : inv m -> m_reader m = Pushing p e at_ -> b_closed (m_b m) = false.
Proof. intros [(_ & _ & _ & _ & Hc) _ _ _] Hr. destruct (b_closed (m_b m)); [|done]. destruct Hc as [err ?]; congruence. Qed.

Lemma neutral_nil : neutral [].
Proof. split_and!; [by intros ? ? ?%elem_of_nil|by intros ? ? ?%elem_of_nil|done]. Qed.

Lemma no_verdict_nil : no_verdict [].
Proof. intros ? ?. apply not_elem_of_nil. Qed.

(** A section that leaves the backlog and the history alone. *)
Lemma goes_silent m p e at_ p' e' at' clk :
  inv m -> m_reader m = Pushing p e at_ -> m_clk m <= clk -> reader_ok (view_of (m_b m)) clk (m_due (goes delta m (m_b m) (Pushing p' e' at') clk [])) (Pushing p' e' at') ->
  inv (goes delta m (m_b m) (Pushing p' e' at') clk []).
Proof.
  intros Hinv Hr Hc Hrd. pose proof (pushing_open _ _ _ _ Hinv Hr) as Ho. destruct Hinv as [Hl Hs _ He]. constructor.
  - eapply lossless_same; [done|reflexivity|done..|by right].
  - apply stall_extend with (clk := m_clk m); [apply neutral_nil|done|done].
  - done.
  - apply earned_app; [done|apply no_verdict_nil].
Qed.

Lemma timer_arm_inv m p e remaining stalled room :
  inv m -> m_reader m = Pushing p e (PArm remaining stalled room) ->
  inv (goes delta m (m_b m) (Pushing p e (PWait stalled room (m_clk m + remaining))) (m_clk m) []).
Proof.
  intros Hinv Hr. eapply goes_silent; [done|done|lia|]. pose proof (i_reader _ Hinv) as Hrd. rewrite Hr in Hrd. destruct Hrd as (Hp & Hd & Hpc). cbn.
  split_and!; [lia|lia|done|]. intros s Es. destruct (Hpc s Es) as [Hv (Hst & Hpos & H1 & H2)]. split; [done|]. split_and!; [done|lia|lia|lia].
Qed.

Lemma fired_inv m p e stalled room fires :
  inv m -> m_reader m = Pushing p e (PWait stalled room fires) -> fires <= m_clk m ->
  inv (goes delta m (m_b m) (Pushing p e (PNow stalled)) (m_clk m) []).
Proof.
  intros Hinv Hr Hf. eapply goes_silent; [done|done|lia|]. pose proof (i_reader _ Hinv) as Hrd. rewrite Hr in Hrd. destruct Hrd as (Hp & Hd & Hpc). cbn.
  split_and!; [lia|lia|lia|]. intros s Es. destruct (Hpc s Es) as [Hv (Hst & H1 & H2)]. split; [done|]. unfold next_deadline. split_and!; [done|lia|lia].
Qed.

Lemma room_inv m p e stalled room fires :
  inv m -> m_reader m = Pushing p e (PWait stalled room fires) -> inv (goes delta m (m_b m) (Pushing p e PTry) (m_clk m) []).
Proof.
  intros Hinv Hr. eapply goes_silent; [done|done|lia|]. pose proof (i_reader _ Hinv) as Hrd. rewrite Hr in Hrd. destruct Hrd as (Hp & Hd & Hpc). cbn.
  split_and!; [lia|lia|lia|]. intros s Es. destruct (Hpc s Es) as [Hv (Hst & H1 & H2)]. split; [done|]. unfold next_deadline. lia.
Qed.

Lemma now_inv m p e stalled :
  inv m -> m_reader m = Pushing p e (PNow stalled) -> inv (goes delta m (m_b m) (Pushing p e (PNote (m_clk m) stalled)) (m_clk m) []).
Proof.
  intros Hinv Hr. eapply goes_silent; [done|done|lia|]. pose proof (i_reader _ Hinv) as Hrd. rewrite Hr in Hrd. destruct Hrd as (Hp & Hd & Hpc). cbn.
  split_and!; [lia|lia|lia|]. intros s Es. destruct (Hpc s Es) as [Hv (Hst & H1 & H2)]. split; [done|]. split_and!; [done|lia|lia|lia|lia].
Qed.

Lemma ask_inv m p e t stalled degraded ambiguous :
  inv m -> m_reader m = Pushing p e (PAsk t stalled degraded) ->
  inv (goes delta m (m_b m) (Pushing p e (PAck ambiguous t stalled degraded)) (m_clk m) []).
Proof.
  intros Hinv Hr. eapply goes_silent; [done|done|lia|]. pose proof (i_reader _ Hinv) as Hrd. rewrite Hr in Hrd. destruct Hrd as (Hp & Hd & Hpc). cbn.
  split_and!; [lia|lia|lia|]. intros s Es. destruct (Hpc s Es) as [Hv (Hst & H1 & H2 & H3 & H4)]. split; [done|]. split_and!; [done|lia|lia|lia|lia|done].
Qed.

(** The reader starts another round because the stall was answered. *)
Lemma again_inv m p e at_ : inv m -> m_reader m = Pushing p e at_ -> b_stalledSince (m_b m) = None -> inv (goes delta m (m_b m) (Pushing p e PTry) (m_clk m) []).
Proof.
  intros Hinv Hr Es. eapply goes_silent; [done|done|lia|]. pose proof (i_reader _ Hinv) as Hrd. rewrite Hr in Hrd. destruct Hrd as (Hp & Hd & Hpc). cbn.
  split_and!; [lia|lia|lia|]. intros s Hs. cbn in Hs. congruence.
Qed.

Lemma stale_answered m p e at_ stalled :
  inv m -> m_reader m = Pushing p e at_ -> stale stalled (m_b m) = true ->
  (forall s, b_stalledSince (m_b m) = Some s -> stalled = Some s) -> b_stalledSince (m_b m) = None.
Proof.
  intros Hinv Hr Hst Hc. destruct (b_stalledSince (m_b m)) as [s|] eqn:Es; [|done]. rewrite (Hc s eq_refl) in Hst. unfold stale in Hst.
  rewrite Es, bool_decide_true in Hst; done.
Qed.

(** A section that changes the anchors. *)
Lemma goes_anchors m p e at_ st dr am dg rp r h :
  inv m -> m_reader m = Pushing p e at_ -> queued h = [] -> sent h = [] ->
  let b := set_stall (m_b m) st dr am dg rp in
  stall_ok (m_hist m ++ h) b (m_clk m) -> reader_ok (view_of b) (m_clk m) (m_due (goes delta m b r (m_clk m) h)) r -> all_earned (m_hist m ++ h) ->
  inv (goes delta m b r (m_clk m) h).
Proof.
  intros Hinv Hr Hq Hs b Hst Hrd He. pose proof (pushing_open _ _ _ _ Hinv Hr) as Ho. constructor; [|done|done|done].
  eapply lossless_same; [apply Hinv|reflexivity|done..|by right].
Qed.

Lemma note_inv m p e t stalled b' degraded current :
  inv m -> m_reader m = Pushing p e (PNote t stalled) -> noteFlowControlStall cf t stalled (m_b m) = (b', (degraded, current)) ->
  inv (if current then goes delta m b' (Pushing p e (PAsk t stalled degraded)) (m_clk m) [] else goes delta m b' (Pushing p e PTry) (m_clk m) []).
Proof.
  intros Hinv Hr. pose proof (i_reader _ Hinv) as Hrd. rewrite Hr in Hrd. destruct Hrd as (Hp & Hd & Hpc). cbn [view_of v_stalled] in Hpc.
  unfold noteFlowControlStall. destruct (stale stalled (m_b m)) eqn:Est.
  { intros [= <- <- <-]. eapply again_inv; [done|done|]. eapply stale_answered; [done|done|done|]. intros s Es. by destruct (Hpc s Es) as [_ (? & _)]. }
  intros [= <- <- <-]. destruct stalled as [s|]; [|done]. cbn in Est. apply negb_false_iff, bool_decide_eq_true in Est.
  destruct (Hpc s Est) as [[Hh Ha] (_ & H1 & H2 & H3)]. rewrite Est. eapply goes_anchors; [done|done|done|done| | |].
  - pose proof (i_stall _ Hinv) as Hst. rewrite app_nil_r. revert Hst. unfold stall_ok. rewrite Est. cbn. intros (Hq & Hamb & d & pre & mid & k & Hh' & Hmid & Hdg & Hk).
    split_and!; [done|done|]. exists d, pre, mid, k. split_and!; try apply Hk; try done. left. destruct Hdg as [Hdg|[Hdg ->]]; by rewrite Hdg.
  - cbn. split_and!; [lia|lia|lia|]. intros s' [= <-].
    assert (Hst : start (view_of (m_b m)) s = start {| v_stalled := Some s; v_ambiguous := b_ambiguousSince (m_b m);
      v_degraded := match b_degradedSince (m_b m) with Some d => Some d | None => Some s end |} s) by (unfold start; cbn; by destruct (b_degradedSince (m_b m))).
    split; [unfold held_ok, asked_ok in *; cbn in *; by rewrite <- Hst|]. split_and!; [done|lia|lia|lia|lia|]. cbn. by destruct (b_degradedSince (m_b m)).
  - apply earned_app; [apply Hinv|apply no_verdict_nil].
Qed.

Lemma held_history t a s : unanswered [HHeld t a; HReport s] /\ took [HHeld t a; HReport s] = 0 /\ no_verdict [HHeld t a; HReport s].
Proof. split_and!; [intros ? ? Hin; set_solver|done|intros ? ? Hin; set_solver]. Qed.

Lemma all_ambiguous_held t s : all_ambiguous [HHeld t true; HReport s].
Proof. intros ? ? Hin. set_solver. Qed.

(** The stall goes on with a new anchor. *)
Lemma rearm_inv m p e at_ s t am rp ambiguous state :
  inv m -> m_reader m = Pushing p e at_ -> b_stalledSince (m_b m) = Some s -> is_Some (b_degradedSince (m_b m)) ->
  s + bc_stall cf <= t <= m_clk m -> m_due m <= t + 4 * delta ->
  ambiguity_ok (m_hist m ++ [HHeld t ambiguous; HReport state]) t am ->
  held_ok {| v_stalled := Some t; v_ambiguous := am; v_degraded := b_degradedSince (m_b m) |} t ->
  asked_ok {| v_stalled := Some t; v_ambiguous := am; v_degraded := b_degradedSince (m_b m) |} t p ->
  inv (goes delta m (set_stall (m_b m) (Some t) 0 am (b_degradedSince (m_b m)) rp) (Pushing p e PTry) (m_clk m) [HHeld t ambiguous; HReport state]).
Proof.
  intros Hinv Hr Es Hdg Ht Hdue Hamb Hh Ha. destruct (held_history t ambiguous state) as (Hu & Htk & Hnv).
  pose proof (i_reader _ Hinv) as Hrd. rewrite Hr in Hrd. destruct Hrd as (Hp & Hd & _).
  eapply goes_anchors; [done|done|done|done| | |].
  - eapply stall_reanchor; [done|done|done|done|done|done|apply Hinv].
  - cbn. split_and!; [lia|lia|lia|]. intros s' [= <-]. split; [done|]. unfold next_deadline. lia.
  - apply earned_app; [apply Hinv|done].
Qed.

Lemma set_stall_id b : set_stall b (b_stalledSince b) (b_drainedSinceStall b) (b_ambiguousSince b) (b_degradedSince b) (b_reported b) = b.
Proof. by destruct b. Qed.

Lemma verdict_history t err : queued [HGaveUp t err] = [] /\ sent [HGaveUp t err] = [] /\ neutral [HGaveUp t err].
Proof. split_and!; [done|done|]. split_and!; [intros ? ? Hin; set_solver|intros ? ? Hin; set_solver|done]. Qed.

Lemma ack_inv m p e ambiguous t stalled degraded b' outcome held :
  inv m -> m_reader m = Pushing p e (PAck ambiguous t stalled degraded) ->
  holdForDurableAckAmbiguityForStall cf ambiguous t stalled (m_b m) = (b', (outcome, held)) ->
  inv match outcome with
      | ambiguityHoldGranted => goes delta m b' (Pushing p e PTry) (m_clk m) [HHeld t true; HReport degraded]
      | ambiguityHoldBoundReached => goes delta m b' (Ended (Some ErrDurableAckAmbiguityBound)) (m_clk m) [HGaveUp t ErrDurableAckAmbiguityBound]
      | ambiguityHoldStallAnswered => goes delta m b' (Pushing p e PTry) (m_clk m) []
      | ambiguityHoldNotAmbiguous => goes delta m b' (Pushing p e (PFlow t stalled)) (m_clk m) []
      end.
Proof.
  intros Hinv Hr. pose proof (i_reader _ Hinv) as Hrd. rewrite Hr in Hrd. destruct Hrd as (Hp & Hd & Hpc). cbn [view_of v_stalled] in Hpc.
  unfold holdForDurableAckAmbiguityForStall, holdForDurableAckAmbiguityAt. cbn [andb]. destruct (stale stalled (m_b m)) eqn:Est.
  { intros [= <- <- <-]. eapply again_inv; [done|done|]. eapply stale_answered; [done|done|done|]. intros s Es. by destruct (Hpc s Es) as [_ (? & _)]. }
  destruct stalled as [s|]; [|done]. cbn in Est. apply negb_false_iff, bool_decide_eq_true in Est.
  destruct (Hpc s Est) as [[Hh Ha] (_ & H1 & H2 & H3 & [d Hdg])]. cbn in Hdg.
  pose proof (i_stall _ Hinv) as Hst. assert (Hamb : ambiguity_ok (m_hist m) s (b_ambiguousSince (m_b m))) by (unfold stall_ok in Hst; rewrite Est in Hst; apply Hst).
  unfold held_ok, asked_ok, start in Hh, Ha. cbn in Hh, Ha. rewrite Hdg in Hh, Ha. cbn in Hh, Ha.
  assert (Hs : s + bc_stall cf <= last_deadline d p + 6 * delta + bc_ambiguityBound cf + bc_stall cf).
  { unfold last_deadline in *. destruct (b_ambiguousSince (m_b m)) as [a|]; [|specialize (Hh eq_refl); lia]. specialize (Ha a eq_refl). destruct Hamb as [_ Ham]. lia. }
  destruct ambiguous; cbn [negb].
  2: { intros [= <- <- <-]. eapply goes_anchors; [done|done|done|done| | |apply earned_app; [apply Hinv|apply no_verdict_nil]].
    - rewrite app_nil_r. revert Hst. unfold stall_ok. rewrite Est. cbn. intros (Hq & _ & Hrest). by split_and!.
    - cbn. split_and!; [lia|lia|lia|]. intros s' Es'. rewrite Est in Es'. injection Es' as <-. split; [done|]. cbn. unfold start. cbn. rewrite Hdg. cbn.
      unfold last_deadline, next_deadline in *. split_and!; [done|lia|lia|lia|done|done|lia]. }
  cbv zeta. destruct (bc_ambiguityBound cf <=? t - default t (b_ambiguousSince (m_b m))) eqn:Eb.
  - apply Z.leb_le in Eb. intros [= <- <- <-]. destruct (b_ambiguousSince (m_b m)) as [a|] eqn:Ea; cbn [from_option Datatypes.id] in *; [|exfalso; lia].
    destruct (verdict_history t ErrDurableAckAmbiguityBound) as (Hq & Hsn & Hn). destruct Hamb as [(pre & mid & Hhist & Hu & Hall) Has].
    eapply goes_anchors; [done|done|done|done| | |].
    + rewrite <- Ea, set_stall_id. by apply stall_extend with (clk := m_clk m); [done|lia|].
    + done.
    + apply earned_snoc; [apply Hinv|]. exists a, pre, mid. by split_and!.
  - apply Z.leb_gt in Eb. intros [= <- <- <-]. eapply rearm_inv; [done|done|done|done|done|lia| | |].
    + cbn [ambiguity_ok]. destruct (b_ambiguousSince (m_b m)) as [a|]; cbn [from_option Datatypes.id] in *.
      * destruct Hamb as [(pre & mid & -> & Hu & Hall) Has]. split; [|lia]. destruct (held_history t true degraded) as (Hu' & _). exists pre, (mid ++ [HHeld t true; HReport degraded]).
        rewrite <- app_assoc. split_and!; [done|by apply unanswered_app|apply all_ambiguous_app; [done|apply all_ambiguous_held]].
      * split; [|lia]. exists (m_hist m), [HReport degraded]. split_and!; [done|intros ? ? Hin; set_solver|intros ? ? Hin; set_solver].
    + intros Hn. done.
    + intros a [= <-]. unfold start. cbn. rewrite Hdg. cbn. destruct (b_ambiguousSince (m_b m)) as [a|]; cbn [from_option Datatypes.id] in *; [auto|].
      specialize (Hh eq_refl). unfold last_deadline, next_deadline in *. lia.
Qed.

Lemma flow_inv m p e t stalled b' state keep current :
  inv m -> m_reader m = Pushing p e (PFlow t stalled) -> holdForFlowControl cf t stalled (m_b m) = (b', (state, keep, current)) ->
  inv (if negb current then goes delta m b' (Pushing p e PTry) (m_clk m) []
       else if keep then goes delta m b' (Pushing p e PTry) (m_clk m) [HHeld t false; HReport state]
       else goes delta m b' (Ended (Some ErrEventBacklogExceeded)) (m_clk m) [HGaveUp t ErrEventBacklogExceeded]).
Proof.
  intros Hinv Hr. pose proof (i_reader _ Hinv) as Hrd. rewrite Hr in Hrd. destruct Hrd as (Hp & Hd & Hpc). cbn [view_of v_stalled] in Hpc.
  unfold holdForFlowControl. destruct (stale stalled (m_b m)) eqn:Est.
  { intros [= <- <- <- <-]. cbn [negb]. eapply again_inv; [done|done|]. eapply stale_answered; [done|done|done|]. intros s Es. by destruct (Hpc s Es) as [_ (? & _)]. }
  destruct stalled as [s|]; [|done]. cbn in Est. apply negb_false_iff, bool_decide_eq_true in Est.
  destruct (Hpc s Est) as [_ (_ & H1 & H2 & [d Hdg] & Hna & H3)]. cbn in Hdg, Hna. rewrite Hdg. cbv zeta. cbn [from_option Datatypes.id].
  replace (set_stall (m_b m) (b_stalledSince (m_b m)) (b_drainedSinceStall (m_b m)) (b_ambiguousSince (m_b m)) (Some d) (b_reported (m_b m))) with (m_b m)
    by (rewrite <- Hdg; symmetry; apply set_stall_id).
  destruct (bc_dropBound cf <=? t - d) eqn:Eb; intros [= <- <- <- <-]; cbn [negb].
  - apply Z.leb_le in Eb. destruct (verdict_history t ErrEventBacklogExceeded) as (Hq & Hsn & Hn).
    rewrite <- (set_stall_id (m_b m)). eapply goes_anchors; [done|done|done|done| | |].
    + rewrite set_stall_id. apply stall_extend with (clk := m_clk m); [done|lia|apply Hinv].
    + done.
    + apply earned_snoc; [apply Hinv|]. eapply drop_earned; [done|done|done|done|apply Hinv].
  - apply Z.leb_gt in Eb. rewrite <- Hdg. rewrite Hna. eapply rearm_inv; [done|done|done|done|done|lia|done| |done].
    intros _. unfold start. cbn. rewrite Hdg. cbn. lia.
Qed.

(** An event is queued. *)
Lemma queue_inv m p e since b' :
  inv m -> m_reader m = Pushing p e PTry -> m_clk m <= since -> push_try cf e (m_clk m) since (m_b m) = (b', PushQueued) ->
  inv (goes delta m b' Reading since [HQueued e]).
Proof.
  intros Hinv Hr Hc. pose proof (pushing_open _ _ _ _ Hinv Hr) as Ho. unfold push_try. rewrite Ho.
  destruct (match b_queue (m_b m) with [] => true | _ => b_bytes (m_b m) + eventBacklogCost e <=? bc_budget cf end) eqn:Eroom; [|done].
  intros [= <-]. pose proof (i_reader _ Hinv) as Hrd. rewrite Hr in Hrd. destruct Hrd as (Hp & Hd & Hpc). destruct Hinv as [(Hq & Hb & Hm & Hdd & Hcl) Hs _ He].
  constructor; [split_and!| | |].
  - cbn. by rewrite queued_app, sent_app, Hq, app_nil_r, <- !app_assoc.
  - cbn. rewrite total_cost_app, Hb. cbn. lia.
  - cbn. destruct (b_queue (m_b m)) as [|x q]; [by right|]. apply Z.leb_le in Eroom. by left.
  - cbn. destruct (m_disp m) as [| |ev|[x|]]; try done. destruct Hdd as [Hdd _]. congruence.
  - done.
  - cbn. apply stall_same with (b := m_b m); [done|done|cbn; by destruct (b_queue (m_b m))|].
    apply stall_extend with (clk := m_clk m); [|done|done]. split_and!; [intros ? ? Hin; set_solver|intros ? ? Hin; set_solver|done].
  - cbn. intros s Es. by destruct (Hpc s Es) as [[Hh _] _].
  - apply earned_app; [done|]. intros ? ? Hin. set_solver.
Qed.

(** The queue is full: the stall clock is anchored if it was not. *)
Lemma full_inv m p e since b' remaining stalled room :
  inv m -> m_reader m = Pushing p e PTry -> m_clk m <= since <= m_due m -> push_try cf e (m_clk m) since (m_b m) = (b', PushFull remaining stalled room) ->
  inv (goes delta m b' (Pushing p e (if remaining <=? 0 then PNow stalled else PArm remaining stalled room)) since
         (match b_stalledSince (m_b m) with None => [HBlocked (m_clk m)] | Some _ => [] end)).
Proof.
  intros Hinv Hr Hc. pose proof (pushing_open _ _ _ _ Hinv Hr) as Ho. unfold push_try. rewrite Ho.
  destruct (match b_queue (m_b m) with [] => true | _ => b_bytes (m_b m) + eventBacklogCost e <=? bc_budget cf end) eqn:Eroom; [done|].
  assert (Hne : b_queue (m_b m) <> []) by (intros E; by rewrite E in Eroom). clear Eroom.
  pose proof (i_reader _ Hinv) as Hrd. rewrite Hr in Hrd. destruct Hrd as (Hp & Hd & Hpc). cbn [view_of v_stalled] in Hpc.
  destruct (b_stalledSince (m_b m)) as [s|] eqn:Es.
  - rewrite Es. cbn [from_option Datatypes.id]. intros [= <- <- <- <-].
    destruct (bc_stall cf - (since - s) <=? 0) eqn:E; (eapply goes_silent; [done|done|lia|]); cbn; rewrite ?Z.leb_le, ?Z.leb_gt in E.
    all: split_and!; [lia|lia|lia|]; intros s' Es'; rewrite Es in Es'; injection Es' as <-; destruct (Hpc s eq_refl) as [Hv H1]; (split; [done|]).
    + unfold next_deadline in *. split_and!; [done|lia|lia].
    + unfold next_deadline in *. split_and!; [done|lia|lia|lia].
  - cbn [set_stall b_stalledSince b_drained from_option Datatypes.id]. intros [= <- <- <- <-].
    pose proof (i_stall _ Hinv) as Hst. unfold stall_ok in Hst. rewrite Es in Hst. destruct Hst as [[= _ Ha Hdg] Hdr]. rewrite Ha, Hdg.
    constructor.
    + eapply lossless_same; [apply Hinv|reflexivity|done..|by right].
    + cbn. unfold stall_ok. cbn. split_and!; [done|done|]. exists (m_clk m), (m_hist m), [], 0. cbn.
      split_and!; [done|by intros ? ? ?%elem_of_nil|by right|lia..].
    + destruct (bc_stall cf - (since - m_clk m) <=? 0) eqn:E; cbn; rewrite ?Z.leb_le, ?Z.leb_gt in E.
      all: split_and!; [lia|lia|lia|]; intros s' [= <-]; (split; [split; [unfold held_ok, start; cbn; lia|done]|]).
      * unfold next_deadline. split_and!; [done|lia|lia].
      * split_and!; [done|lia|lia|lia].
    + apply earned_app; [apply Hinv|]. intros ? ? Hin. set_solver.
Qed.

Lemma push_inv m p e at_ ambiguous since m' :
  inv m -> m_reader m = Pushing p e at_ -> m_clk m <= since <= m_due m -> push_step cf delta m p e at_ ambiguous since = Some m' -> inv m'.
Proof.
  intros Hinv Hr Hc. destruct at_ as [|remaining stalled room|stalled room fires|stalled|t stalled|t stalled degraded|amb t stalled degraded|t stalled]; cbn [push_step].
  - destruct (push_try cf e (m_clk m) since (m_b m)) as [b' [| |remaining stalled room]] eqn:Et; intros [= <-].
    + pose proof (pushing_open _ _ _ _ Hinv Hr) as Ho. unfold push_try in Et. rewrite Ho in Et. by case_match.
    + eapply queue_inv; [done|done|lia|done].
    + by eapply full_inv.
  - intros [= <-]. by apply timer_arm_inv.
  - destruct (fires <=? m_clk m) eqn:Ef; [|done]. intros [= <-]. apply Z.leb_le in Ef. by eapply fired_inv.
  - intros [= <-]. by eapply now_inv.
  - destruct (noteFlowControlStall cf t stalled (m_b m)) as [b' [degraded current]] eqn:En. intros [= <-]. by eapply note_inv.
  - intros [= <-]. by eapply ask_inv.
  - destruct (holdForDurableAckAmbiguityForStall cf amb t stalled (m_b m)) as [b' [outcome held]] eqn:Eh. intros [= <-]. by eapply ack_inv.
  - destruct (holdForFlowControl cf t stalled (m_b m)) as [b' [[state keep] current]] eqn:Eh. intros [= <-]. by eapply flow_inv.
Qed.

(** ** Every step *)

Lemma init_inv b now : b = snd (newEventBacklog 0 0 0 0) -> inv (init b now).
Proof.
  intros ->. constructor.
  - split_and!; try done. left. cbn. lia.
  - done.
  - done.
  - intros h1 ? ? ? Hh. by destruct h1.
Qed.

(** The reader is between pushes, or has ended. *)
Lemma reader_idle_inv m r :
  inv m -> m_reader m = Reading -> (forall p e at_, r = Pushing p e at_ -> p = m_clk m /\ at_ = PTry) -> inv (goes delta m (m_b m) r (m_clk m) []).
Proof.
  intros [Hl Hs Hrd He] Hr Hnew. rewrite Hr in Hrd. constructor.
  - eapply lossless_same; [done|reflexivity|done..|right]. destruct Hl as (_ & _ & _ & _ & Hc). destruct (b_closed (m_b m)); [|done].
    destruct Hc as [? ?]; [done|congruence].
  - apply stall_extend with (clk := m_clk m); [apply neutral_nil|cbn; lia|done].
  - destruct r as [|p e at_|err]; [done| |done]. destruct (Hnew p e at_ eq_refl) as [-> ->]. cbn. split_and!; [lia|lia|lia|].
    intros s Es. split; [split; [by apply Hrd|]|unfold next_deadline; lia].
    intros a Ea. cbn in Ea. unfold stall_ok in Hs. cbn in Es. rewrite Es in Hs. destruct Hs as (_ & Hamb & d & pre & mid & k & _ & _ & _ & _ & Hclk & _).
    rewrite Ea in Hamb. destruct Hamb as [_ Ha]. unfold last_deadline. lia.
  - apply earned_app; [done|apply no_verdict_nil].
Qed.

Lemma defer_inv m err : inv m -> m_reader m = Ended err -> inv (goes delta m (backlog_close (m_b m)) (Ended err) (m_clk m) []).
Proof.
  intros [(Hq & Hb & Hm & Hd & Hc) Hs Hrd He] Hr.
  assert (Hsame : b_queue (backlog_close (m_b m)) = b_queue (m_b m) /\ b_bytes (backlog_close (m_b m)) = b_bytes (m_b m) /\
    view_of (backlog_close (m_b m)) = view_of (m_b m) /\ b_drainedSinceStall (backlog_close (m_b m)) = b_drainedSinceStall (m_b m) /\ b_closed (backlog_close (m_b m)) = true)
    by (unfold backlog_close; destruct (b_closed (m_b m)) eqn:E; by split_and!).
  destruct Hsame as (E1 & E2 & E3 & E4 & E5). constructor.
  - split_and!; cbn; rewrite ?app_nil_r, ?E1, ?E2, ?E5; try done; [|eauto]. destruct (m_disp m) as [| |ev|[x|]]; try done. by destruct Hd.
  - cbn. apply stall_same with (b := m_b m); [done|done|by rewrite E1|]. apply stall_extend with (clk := m_clk m); [apply neutral_nil|cbn; lia|done].
  - done.
  - apply earned_app; [done|apply no_verdict_nil].
Qed.

(** A step of the dispatcher that leaves the backlog alone. *)
Lemma dispatch_inv m d h :
  inv m -> queued h = [] -> sent h ++ in_hand d = in_hand (m_disp m) -> neutral h -> no_verdict h -> d <> DEnd None -> inv (dispatches m (m_b m) d h).
Proof.
  intros [(Hq & Hb & Hm & Hd & Hc) Hs Hrd He] Hqh Hsent Hn Hv Hne. constructor.
  - split_and!; cbn; rewrite ?queued_app, ?sent_app, ?Hqh, ?app_nil_r; try done; [by rewrite Hq, <- Hsent, <- !app_assoc|].
    by destruct d as [| |ev|[x|]].
  - cbn. apply stall_extend with (clk := m_clk m); [done|lia|done].
  - done.
  - by apply earned_app.
Qed.

Lemma pop_inv m b' e left recovered :
  inv m -> m_disp m = DPop -> pop_try cf (m_b m) = (b', PopEvent e left recovered) ->
  inv (dispatches m b' (DSend e) (HTook e left :: match recovered with Some s => [HReport s] | None => [] end)).
Proof.
  intros [(Hq & Hb & Hm & Hd & Hc) Hs Hrd He] Hdp Hp. set (rep := match recovered with Some s => [HReport s] | None => [] end).
  assert (Hrep : forall x, x ∈ rep -> exists s, x = HReport s) by (subst rep; destruct recovered; intros x Hin; set_solver).
  assert (Hrep' : queued rep = [] /\ sent rep = []) by (subst rep; by destruct recovered). destruct Hrep' as [Hrq Hrs].
  pose proof (pop_view _ _ _ _ _ Hp) as (Hqq & _ & Hbb & Hcc & Hview). rewrite Hqq in Hq, Hb, Hm. rewrite Hdp in Hq. cbn [in_hand app] in Hq. cbn [length] in Hm.
  change (b_bytes (m_b m) = eventBacklogCost e + total (b_queue b')) in Hb. constructor.
  - change (queued (HTook e left :: rep) = []) in Hrq. change (sent (HTook e left :: rep) = []) in Hrs.
    split_and!; cbn [m_hist m_disp m_b m_reader dispatches in_hand]; rewrite ?queued_app, ?sent_app, ?Hrq, ?Hrs, ?app_nil_r; try done.
    + lia.
    + pose proof (cost_pos e). destruct Hm as [Hm|Hm]; [left; lia|]. left. destruct (b_queue b'); [|done]. cbn [total foldr] in Hb. lia.
    + by rewrite Hcc.
  - cbn. by eapply stall_pop.
  - cbn. eapply reader_env; [|reflexivity| |exact Hrd]; [destruct Hview as [(Hv & _)|[Hv _]]; [by right|by left]|].
    intros p ev at_ Er. cbn in Er. rewrite Er in Hrd. apply Hrd.
  - apply earned_app; [done|]. intros ? ? [[=]|Hin]%elem_of_cons. by destruct (Hrep _ Hin).
Qed.

Lemma backlog_step_inv m m' : step cf delta m m' -> inv m -> inv m'.
Proof.
  intros Hst Hinv. destruct Hst as [m t Hc Hdue|m event Hr|m Hr|m p e at_ ambiguous since m' Hr Hc Hs|m p e stalled room fires Hr Hroom|m p e stalled room fires Hr Ha|
    m err Hr|m|m b' e left recovered Hd Hp|m b' Hd Hp|m b' next Hd Hp|m next Hd Hn|m e Hd|m e Hd Ha].
  - destruct Hinv as [Hl Hs Hrd He]. constructor; [done| |eapply reader_env; [by left|done|exact Hdue|done]|done].
    rewrite <- (app_nil_r (m_hist m)). apply stall_extend with (clk := m_clk m); [apply neutral_nil|done|done].
  - apply reader_idle_inv; [done|done|]. by intros ? ? ? [= <- <- <-].
  - by apply reader_idle_inv.
  - by eapply push_inv.
  - by eapply room_inv.
  - pose proof (pushing_open _ _ _ _ Hinv Hr) as Ho. destruct Hinv as [Hl Hs _ He]. constructor.
    + eapply lossless_same; [done|reflexivity|done..|by right].
    + apply stall_extend with (clk := m_clk m); [apply neutral_nil|cbn; lia|done].
    + done.
    + apply earned_app; [done|apply no_verdict_nil].
  - by eapply defer_inv.
  - destruct Hinv. by constructor.
  - by eapply pop_inv.
  - unfold pop_try in Hp. destruct (b_queue (m_b m)) eqn:Eq; [|done]. destruct (b_closed (m_b m)) eqn:Ec; [|done]. injection Hp as <-.
    destruct Hinv as [(Hq & Hb & Hm & Hdd & Hc) Hs Hrd He]. rewrite Hd in Hq. constructor; [split_and!; cbn; rewrite ?app_nil_r; try done|..].
    + cbn. apply stall_extend with (clk := m_clk m); [apply neutral_nil|cbn; lia|done].
    + done.
    + apply earned_app; [done|apply no_verdict_nil].
  - unfold pop_try in Hp. destruct (b_queue (m_b m)) eqn:Eq; [|done]. destruct (b_closed (m_b m)); [done|]. injection Hp as <- <-.
    apply dispatch_inv; [done|done|by rewrite Hd|apply neutral_nil|apply no_verdict_nil|done].
  - apply dispatch_inv; [done|done|by rewrite Hd|apply neutral_nil|apply no_verdict_nil|done].
  - apply dispatch_inv; [done|done|by rewrite Hd| |intros ? ? Hin; set_solver|done]. split_and!; [intros ? ? Hin; set_solver|intros ? ? Hin; set_solver|done].
  - apply dispatch_inv; [done|done|by rewrite Hd|apply neutral_nil|apply no_verdict_nil|done].
Qed.
End properties.
