(* ===== verification/Backlog.v ===== *)
(** * Backlog: what the event backlog of a controller promises

    Theorems about every interleaving of the reader, the dispatcher and the consumer of
    [EventBacklog], and runs that show them at work. *)

From stdpp Require Import gmap relations.
From S2P Require Import Prelude Frame FlowGate ShimWire ShimControl Fence ShimResume Adopt EventBacklog BacklogProperties.

(** A backlog with the given options, at instant [t0], after some steps. *)
Definition reaches (budget stall ambiguityBound dropBound delta t0 : Z) (cf : backlogConf) (m : Mach) : Prop :=
  exists b, newEventBacklog budget stall ambiguityBound dropBound = (cf, b) /\ rtc (step cf delta) (init b t0) m.

(** A reader in its [select] is due after its timer. *)
Definition timer_ok (m : Mach) : Prop := forall s e stalled room fires, m_reader m = Pushing s e (PWait stalled room fires) -> fires <= m_due m.

Lemma timer_step cf delta m m' : 0 <= delta -> step cf delta m m' -> timer_ok m -> timer_ok m'.
Proof.
  intros Hdelta Hst IH s e stalled room fires. destruct Hst as [| | |m s' e' p ambiguous since m' Hr Hc Hp| | | | | | | | | |]; cbn; try congruence; try by eapply IH.
  destruct p; cbn [push_step] in Hp; repeat case_match; try done; injection Hp as <-; cbn; try congruence; intros [= -> -> -> -> ->]; lia.
Qed.

Lemma timer_due cf delta b t0 m : 0 <= delta -> rtc (step cf delta) (init b t0) m -> timer_ok m.
Proof. intros Hd. apply rtc_ind_r; [done|]. intros y z _ Hst. by apply (timer_step cf delta). Qed.

Section theorems.
Context (budget stall ambiguityBound dropBound delta t0 : Z) (cf : backlogConf) (m : Mach).
Hypothesis delta_nonneg : 0 <= delta.
Hypothesis reachable : reaches budget stall ambiguityBound dropBound delta t0 cf m.

Lemma conf_pos : 0 < bc_budget cf /\ 0 < bc_stall cf /\ 0 < bc_dropBound cf /\ 0 < bc_ambiguityBound cf /\ bc_stall cf <= bc_dropBound cf.
Proof.
  destruct reachable as (b & Hn & _). unfold newEventBacklog in Hn. injection Hn as <- _. cbn [bc_budget bc_stall bc_dropBound bc_ambiguityBound].
  unfold clampEventBacklogStall, clampEventBacklogDropBound, clampDurableAckAmbiguityBound, durableAckAmbiguityFloor, eventBacklogStallFloor,
    heartbeatReceiptWaitBound, eventBacklogStallDeadline, EventBacklogDropBound, DurableAckAmbiguityBound, EventBacklogBudget, Second.
  change DefaultRingBytes with 8388608. repeat case_match; rewrite ?Z.leb_le, ?Z.leb_gt in *; lia.
Qed.

Lemma reaches_inv : inv cf delta m.
Proof.
  destruct conf_pos as (H1 & H2 & H3 & H4 & _). destruct reachable as (b & Hn & Hr).
  assert (Hi : inv cf delta (init b t0)) by (apply init_inv; [done..|]; unfold newEventBacklog in Hn; injection Hn as _ <-; done).
  clear -H1 H2 H3 H4 delta_nonneg Hr Hi. induction Hr as [|x y z Hst _ IH]; [done|]. apply IH. by eapply backlog_step_inv.
Qed.

(** C27. The backlog loses nothing and is bounded.  Every event whose push succeeded is, in
    order, delivered, in the hands of the dispatcher, or queued; the queued events take at
    most the budget, unless there is just one; and when the dispatcher ends because the
    stream ended, everything that was pushed has been delivered. *)
Theorem backlog_lossless :
  queued (m_hist m) = sent (m_hist m) ++ in_hand (m_disp m) ++ b_queue (m_b m) /\
  (total (b_queue (m_b m)) <= bc_budget cf \/ length (b_queue (m_b m)) = 1%nat) /\
  (m_disp m = DEnd None -> (exists err, m_reader m = Ended err) /\ sent (m_hist m) = queued (m_hist m)).
Proof.
  destruct reaches_inv as [(Hq & Hb & Hm & Hd & Hc) _ _ _]. rewrite Hb in Hm. split_and!; [done|done|].
  intros E. rewrite E in Hd, Hq. destruct Hd as [Hcl Hemp]. split; [auto|]. rewrite Hq, Hemp. cbn. by rewrite app_nil_r.
Qed.

(** C26. A carrier is given up only when that was earned.  When a push fails because the
    budget was exceeded, the consumer had been behind for the whole drop bound: it never
    emptied the queue, and took less than one budget per stall deadline on average.  When
    it fails because of the ambiguity bound, an acknowledgement was outstanding at every
    deadline for that long. *)
Theorem give_up_earned h1 now err h2 :
  m_hist m = h1 ++ HGaveUp now err :: h2 ->
  match err with
  | ErrEventBacklogExceeded => exists d pre mid, h1 = pre ++ HBlocked d :: mid /\ bc_dropBound cf <= now - d /\
      (forall e left, HTook e left ∈ mid -> left <> 0%nat) /\ took mid * bc_stall cf < bc_budget cf * (now - d)
  | ErrDurableAckAmbiguityBound => exists a pre mid, h1 = pre ++ HHeld a true :: mid /\ bc_ambiguityBound cf <= now - a /\
      (forall e left, HTook e left ∈ mid -> left <> 0%nat) /\ (forall t ambiguous, HHeld t ambiguous ∈ mid -> ambiguous = true)
  | EndEOF => False
  end.
Proof. apply reaches_inv. Qed.

(** C28. A stalled reader is not held for ever.  If the reader takes its next step at most
    [delta] after it can, a push that is still waiting at some instant has had an answer
    from the consumer, or is within the drop bound, the ambiguity bound and two stall
    deadlines of the time the consumer fell behind (or, when the reader came back later,
    within the ambiguity bound and a stall deadline of the start of the push); and a push
    whose time has come always has a step to take. *)
Theorem hold_bounded p e at_ :
  m_reader m = Pushing p e at_ ->
  m_clk m <= m_due m /\
  (m_clk m = m_due m -> exists m', push_step cf delta m p e at_ false (m_clk m) = Some m' /\ step cf delta m m') /\
  (forall s, b_stalledSince (m_b m) = Some s ->
     m_clk m <= Z.max (default s (b_degradedSince (m_b m)) + bc_dropBound cf + bc_stall cf) p + bc_ambiguityBound cf + bc_stall cf + 16 * delta).
Proof.
  destruct conf_pos as (H1 & H2 & H3 & H4 & _). intros Hr. destruct reaches_inv as [_ Hst Hrd _]. rewrite Hr in Hrd. destruct Hrd as ([Hp Hc] & Hd & Hpc).
  split_and!; [done| |].
  - intros Hdue. assert (Hwhen : exists m', push_step cf delta m p e at_ false (m_clk m) = Some m').
    { destruct at_; cbn [push_step]; repeat case_match; eauto. exfalso. rewrite Z.leb_gt in *. destruct reachable as (b & _ & Hrun).
      pose proof (timer_due _ _ _ _ _ delta_nonneg Hrun) as Hf.
      specialize (Hf _ _ _ _ _ Hr). lia. }
    destruct Hwhen as [m' Hm']. exists m'. split; [done|]. eapply step_push; [done| |done]. lia.
  - intros s Es. destruct (Hpc s Es) as [Hv Hat]. unfold stall_ok in Hst. rewrite Es in Hst. destruct Hst as (_ & Hamb & _).
    assert (Hs : match at_ with PFlow _ _ => True | _ => s + bc_stall cf <= last_deadline cf (default s (b_degradedSince (m_b m))) p + 6 * delta + bc_ambiguityBound cf + bc_stall cf end).
    { destruct at_; try done; destruct Hv as [Hh Ha]; unfold held_ok, asked_ok, start, last_deadline in *; cbn in Hh, Ha;
        (destruct (b_ambiguousSince (m_b m)) as [a|]; [specialize (Ha a eq_refl); destruct Hamb as [_ Ham]|specialize (Hh eq_refl)]; lia). }
    unfold next_deadline, last_deadline, start in *. cbn in Hat. destruct at_; decompose [and] Hat; lia.
Qed.
End theorems.

(** ** Runs *)

(** A schedule: which goroutine moves next. *)
Inductive move := MTick (t : Z) | MPublish (e : ControllerEvent) | MPush (ambiguous : bool) | MRoom | MPop | MSend | MEnd | MDefer.

Definition later (m : Mach) (t : Z) : Mach :=
  {| m_b := m_b m; m_reader := m_reader m; m_disp := m_disp m; m_abort := m_abort m; m_clk := t; m_due := m_due m; m_hist := m_hist m |}.

Definition move_step (cf : backlogConf) (delta : Z) (m : Mach) (x : move) : option Mach :=
  match x with
  | MTick t =>
      if (m_clk m <=? t) && match m_reader m with Pushing _ _ _ => t <=? m_due m | _ => true end then Some (later m t) else None
  | MPublish e => match m_reader m with Reading => Some (goes delta m (m_b m) (Pushing (m_clk m) e PTry) (m_clk m) []) | _ => None end
  | MEnd => match m_reader m with Reading => Some (goes delta m (m_b m) (Ended None) (m_clk m) []) | _ => None end
  | MDefer => match m_reader m with Ended err => Some (goes delta m (backlog_close (m_b m)) (Ended err) (m_clk m) []) | _ => None end
  | MPush ambiguous =>
      match m_reader m with
      | Pushing s e p => if m_clk m <=? m_due m then push_step cf delta m s e p ambiguous (m_clk m) else None
      | _ => None
      end
  | MRoom =>
      match m_reader m with
      | Pushing s e (PWait _ room _) => if bool_decide (b_drained (m_b m) <> room) then Some (goes delta m (m_b m) (Pushing s e PTry) (m_clk m) []) else None
      | _ => None
      end
  | MPop =>
      match m_disp m, pop_try cf (m_b m) with
      | DPop, (b', PopEvent e rest recovered) => Some (dispatches m b' (DSend e) (HTook e rest :: match recovered with Some s => [HReport s] | None => [] end))
      | DPop, (b', PopClosed) => Some (dispatches m b' (DEnd None) [])
      | DPop, (b', PopEmpty next) => Some (dispatches m b' (DWait next) [])
      | _, _ => None
      end
  | MSend => match m_disp m with DSend e => Some (dispatches m (m_b m) DPop [HSent e]) | _ => None end
  end.

Lemma move_sound cf delta m x m' : move_step cf delta m x = Some m' -> step cf delta m m'.
Proof.
  destruct x as [t|e|ambiguous| | | | |]; cbn [move_step].
  - destruct (m_clk m <=? t) eqn:Et; [|done]. apply Z.leb_le in Et. cbn [andb]. destruct (match m_reader m with Pushing _ _ _ => t <=? m_due m | _ => true end) eqn:E; [|done].
    intros [= <-]. apply step_tick; [done|]. intros s e p Hr. rewrite Hr in E. by apply Z.leb_le.
  - destruct (m_reader m) eqn:Er; try done. intros [= <-]. by apply step_publish.
  - destruct (m_reader m) as [|s e p|] eqn:Er; try done. destruct (m_clk m <=? m_due m) eqn:E; [|done]. apply Z.leb_le in E. intros Hp. eapply step_push; [done| |done]. lia.
  - destruct (m_reader m) as [|s e []|] eqn:Er; try done. case_bool_decide; [|done]. intros [= <-]. by eapply step_room.
  - destruct (m_disp m) eqn:Ed; try done. destruct (pop_try cf (m_b m)) as [b' [e rest recovered| |next]] eqn:Ep; intros [= <-];
      [by eapply step_pop|by eapply step_pop_closed|by eapply step_pop_empty].
  - destruct (m_disp m) eqn:Ed; try done. intros [= <-]. by apply step_send.
  - destruct (m_reader m) eqn:Er; try done. intros [= <-]. by apply step_end.
  - destruct (m_reader m) eqn:Er; try done. intros [= <-]. by eapply step_defer.
Qed.

Fixpoint play (cf : backlogConf) (delta : Z) (m : Mach) (l : list move) : option Mach :=
  match l with [] => Some m | x :: l' => match move_step cf delta m x with Some m' => play cf delta m' l' | None => None end end.

Lemma play_sound cf delta l m m' : play cf delta m l = Some m' -> rtc (step cf delta) m m'.
Proof.
  revert m. induction l as [|x l IH]; intros m; cbn; [by intros [= <-]|]. destruct (move_step cf delta m x) as [m1|] eqn:E; [|done].
  intros Hp. eapply rtc_l; [by eapply move_sound|auto].
Qed.

(** An event of 64 bytes, and a backlog of 200. *)
Definition tick_event (n : Z) : ControllerEvent := {|
  ce_Kind := EventHostFrame; ce_Seq := n; ce_RelTime := 0; ce_Data := []; ce_RequestID := 0; ce_FrameType := TypeOutput; ce_FrameBytes := [];
  ce_Gap := None; ce_Snapshot := {| sm_AtSeq := 0; sm_Screen := [] |}; ce_Exit := None; ce_HeadlessExit := None; ce_Err := None |}.
Definition demo_backlog : backlogConf * eventBacklog := newEventBacklog 200 0 0 0.

Definition fill : list move := [MPublish (tick_event 1); MPush false; MPublish (tick_event 2); MPush false; MPublish (tick_event 3); MPush false].
(** The fourth event waits; the consumer takes one event and stops. *)
Definition behind : list move := fill ++ [MPublish (tick_event 4); MPush false; MPush false; MPop; MRoom; MPush false].
(** Eleven minutes later there is another event. *)
Definition much_later : list move := behind ++ [MTick (660 * Second); MPublish (tick_event 5); MPush false; MPush false; MPush false; MPush false; MPush false; MPush false].

Definition demo_play (l : list move) : option Mach := play (fst demo_backlog) 0 (init (snd demo_backlog) 0) l.

Lemma play_reaches budget stall ambiguityBound dropBound delta t0 cf b l m :
  newEventBacklog budget stall ambiguityBound dropBound = (cf, b) -> play cf delta (init b t0) l = Some m ->
  reaches budget stall ambiguityBound dropBound delta t0 cf m.
Proof. intros Hn Hp. exists b. split; [exact Hn|]. exact (play_sound _ _ _ _ _ Hp). Qed.

Lemma demo_reaches l m : demo_play l = Some m -> reaches 200 0 0 0 0 0 (fst demo_backlog) m.
Proof. unfold demo_play. apply play_reaches. unfold demo_backlog. apply surjective_pairing. Qed.

Definition much_later_history : list hist :=
  [HQueued (tick_event 1); HQueued (tick_event 2); HQueued (tick_event 3); HBlocked 0; HTook (tick_event 1) 2; HQueued (tick_event 4);
   HGaveUp (660 * Second) ErrEventBacklogExceeded].

(** A carrier can be given up at the first look at the clock, without having been held or
    reported as degraded: the drop bound counts from when the consumer fell behind, and
    runs while the reader has nothing to push. *)
Lemma dropped_unannounced :
  match demo_play much_later with
  | Some m => m_reader m = Ended (Some ErrEventBacklogExceeded) /\ m_hist m = much_later_history
  | None => False
  end /\ (forall t a, HHeld t a ∉ much_later_history) /\ (forall s, HReport s ∉ much_later_history).
Proof. split; [vm_compute; split; reflexivity|]. split; intros; set_solver. Qed.

(** A recovery can be reported that no report of a degradation came before: the stall is
    noted, and answered before the reader has decided to go on waiting. *)
Lemma recovery_unannounced :
  match demo_play (fill ++ [MPublish (tick_event 4); MPush false; MPush false; MTick (120 * Second); MPush false; MPush false; MPush false;
                            MPop; MSend; MPop; MSend; MPop; MPush false; MPush false; MPush false]) with
  | Some m => m_reader m = Reading /\
      omap (fun x => match x with HReport s => Some (fs_Degraded s) | _ => None end) (m_hist m) = [false]
  | None => False
  end.
Proof. vm_compute. split; reflexivity. Qed.

(** In that run the consumer had taken 64 of the bytes queued, and nothing was lost. *)
Lemma give_up_earned_witness :
  exists m, demo_play much_later = Some m /\
  exists d pre mid, m_hist m = pre ++ HBlocked d :: mid ++ [HGaveUp (660 * Second) ErrEventBacklogExceeded] /\ bc_dropBound (fst demo_backlog) <= 660 * Second - d.
Proof.
  assert (Hrun : match demo_play much_later with Some m => m_hist m = much_later_history | None => False end) by (vm_compute; reflexivity).
  destruct (demo_play much_later) as [m|] eqn:E; [|destruct Hrun]. exists m. split; [reflexivity|].
  assert (Hr : reaches 200 0 0 0 0 0 (fst demo_backlog) m) by exact (demo_reaches _ m E).
  destruct (give_up_earned 200 0 0 0 0 0 (fst demo_backlog) m (Z.le_refl 0) Hr
    (take 6 much_later_history) (660 * Second) ErrEventBacklogExceeded []) as (d & pre & mid & Hh & Hd & _); [rewrite Hrun; reflexivity|].
  exists d, pre, mid. split; [|exact Hd]. rewrite Hrun.
  change much_later_history with (take 6 much_later_history ++ [HGaveUp (660 * Second) ErrEventBacklogExceeded]). rewrite Hh, <- app_assoc. reflexivity.
Defined.

Lemma backlog_lossless_witness :
  exists m, demo_play (behind ++ [MSend; MPop; MSend; MPop; MSend; MPop; MSend; MEnd; MDefer; MPop]) = Some m /\
  m_disp m = DEnd None /\ sent (m_hist m) = map tick_event [1; 2; 3; 4].
Proof.
  set (l := behind ++ _).
  assert (Hrun : match demo_play l with Some m => m_disp m = DEnd None /\ queued (m_hist m) = map tick_event [1; 2; 3; 4] | None => False end)
    by (vm_compute; split; reflexivity).
  destruct (demo_play l) as [m|] eqn:E; [|destruct Hrun]. destruct Hrun as [Hd Hq]. exists m. split; [reflexivity|]. split; [exact Hd|].
  assert (Hr : reaches 200 0 0 0 0 0 (fst demo_backlog) m) by exact (demo_reaches _ m E).
  destruct (backlog_lossless 200 0 0 0 0 0 (fst demo_backlog) m (Z.le_refl 0) Hr) as (_ & _ & Hend). rewrite <- Hq. apply (Hend Hd).
Defined.

(** A push that waits, at the moment its timer fires. *)
Lemma hold_bounded_witness :
  exists m p e at_, demo_play (fill ++ [MPublish (tick_event 4); MPush false; MPush false; MTick (120 * Second)]) = Some m /\
  m_reader m = Pushing p e at_ /\ (exists m', step (fst demo_backlog) 0 m m') /\ m_clk m <= 1440 * Second.
Proof.
  set (l := fill ++ _).
  assert (Hrun : match demo_play l with
                 | Some m => match m_reader m with Pushing p _ _ => p = 0 | _ => False end /\ m_clk m = m_due m /\
                     b_stalledSince (m_b m) = Some 0 /\ b_degradedSince (m_b m) = None
                 | None => False end) by (vm_compute; repeat split; reflexivity).
  destruct (demo_play l) as [m|] eqn:E; [|destruct Hrun]. destruct Hrun as (Hr & Hc & Hs & Hd).
  destruct (m_reader m) as [|p e at_|err] eqn:Er; [destruct Hr| |destruct Hr]. exists m, p, e, at_. split; [reflexivity|]. split; [exact Er|]. subst p.
  assert (Hre : reaches 200 0 0 0 0 0 (fst demo_backlog) m) by exact (demo_reaches _ m E).
  destruct (hold_bounded 200 0 0 0 0 0 (fst demo_backlog) m (Z.le_refl 0) Hre 0 e at_ Er) as (_ & Hgo & Hb).
  split; [destruct (Hgo Hc) as (m' & _ & Hst); exists m'; exact Hst|]. specialize (Hb 0 Hs). rewrite Hd in Hb. exact Hb.
Defined.
