(* ===== verification/ControllerCalls.v ===== *)
(** * ControllerCalls: the calls a controller has in flight
    ([src/sessionshim/controller.go])

    A controller asks its shim for snapshots and credential rotations, each under a
    request id, and acknowledges durable progress with heartbeats; the answers come in on
    the read loop.  Each definition is one section under the mutex of its ledger.  The
    channel of a call is the flag [q_closed]: closing it twice is a panic. *)

From stdpp Require Import gmap.
From S2P Require Import Prelude Varint Frame ShimWire ShimPayloads ShimControl Continuation ShimRecord ShimResume ShimLife EventBacklog.

(** ** Errors *)

Inductive ctlErr :=
| KWire (e : error)  (** of [shimwire], sentinels included *)
| KFrame (e : WireError)  (** of [attachwire] *)
| KPublish (e : streamEnd)
| KContinuation (e : ContinuationError)
| KCode (s : sentinel) (code : bytes)  (** ["%w: %s"] *)
| KText (s : string)
| ErrHeartbeatReceiptPending (acked : Z)
| ErrShimExited.

(** [errors.New], and [fmt.Errorf] around one sentinel of [shimwire]. *)
Definition mismatch : ctlErr := KWire (Wrapped [ErrSnapshotMismatch]).
Definition duplicate : ctlErr := KWire (Bare ErrDuplicateHostFrame).

Definition kwire {A} (o : outcome error A) : outcome ctlErr A :=
  match o with Ok a => Ok a | Err e => Err (KWire e) | Panic => Panic end.

(** ** Correlated requests ([snapshotCall], [credentialCall]) *)

Record pcall (Req Res : Type) := {
  q_request : Req; q_result : option Res; q_err : option ctlErr; q_sent : bool; q_streamDelivered : bool; q_closed : bool
}.
Arguments q_request {Req Res}.
Arguments q_result {Req Res}.
Arguments q_err {Req Res}.
Arguments q_sent {Req Res}.
Arguments q_streamDelivered {Req Res}.
Arguments q_closed {Req Res}.

Section calls.
Context {Req Res : Type} `{EqDecision Req}.

Definition new_call (req : Req) : pcall Req Res :=
  {| q_request := req; q_result := None; q_err := None; q_sent := false; q_streamDelivered := false; q_closed := false |}.

Definition set_outcome (q : pcall Req Res) (r : option Res) (e : option ctlErr) : pcall Req Res :=
  {| q_request := q_request q; q_result := r; q_err := e; q_sent := q_sent q; q_streamDelivered := q_streamDelivered q; q_closed := true |}.

(** [close(call.done)] after the outcome was set. *)
Definition complete (q : pcall Req Res) (r : option Res) (e : option ctlErr) : outcome ctlErr (pcall Req Res) :=
  if q_closed q then Panic else Ok (set_outcome q r e).

Inductive answer := AChanged | AFull | ADone (r : Res) (err : option ctlErr) | AWait.

(** The section of [SnapshotWithID] and [PushCredential] under the mutex; [write] is how
    the write of the request ends, when there is one. *)
Definition begin_call (limit : Z) (id : Z) (req : Req) (write : option error) (calls : gmap Z (pcall Req Res)) : gmap Z (pcall Req Res) * answer :=
  let go q :=
    match q_result q with
    | Some r => (<[id := q]> calls, ADone r (q_err q))
    | None =>
        if q_sent q then (<[id := q]> calls, AWait)
        else
          let q' := {| q_request := q_request q; q_result := None; q_err := q_err q; q_sent := true;
                       q_streamDelivered := q_streamDelivered q; q_closed := q_closed q |} in
          (<[id := match write with Some e => set_outcome q' None (Some (KWire e)) | None => q' end]> calls, AWait)
    end in
  match calls !! id with
  | Some q => if negb (bool_decide (q_request q = req)) then (calls, AChanged) else go q
  | None => if limit <=? Z.of_nat (size calls) then (calls, AFull) else go (new_call req)
  end.

(** [snapshotCallOutcome], [credentialCallOutcome]: what a caller gets once its channel is
    closed. *)
Definition call_outcome (q : pcall Req Res) : option Res * option ctlErr := (q_result q, q_err q).

(** [failSnapshotCalls], [failCredentialCalls]. *)
Definition fail_call (err : ctlErr) (q : pcall Req Res) : pcall Req Res :=
  match q_result q, q_err q with None, None => set_outcome q None (Some err) | _, _ => q end.
Definition fail_calls (err : ctlErr) (calls : gmap Z (pcall Req Res)) : gmap Z (pcall Req Res) := fail_call err <$> calls.
End calls.
Arguments answer : clear implicits.

#[export] Instance SnapshotRequest_eq_dec : EqDecision SnapshotRequest.
Proof. solve_decision. Defined.
#[export] Instance CredentialUpdate_eq_dec : EqDecision CredentialUpdate.
Proof. solve_decision. Defined.
#[export] Instance CredentialResult_eq_dec : EqDecision CredentialResult.
Proof. solve_decision. Defined.

Definition snapshotCall : Type := pcall SnapshotRequest SnapshotResult.
Definition credentialCall : Type := pcall CredentialUpdate CredentialResult.

Definition controllerSnapshotRetryLedgerLimit : Z := 1024.
Definition credentialResultLimit : Z := 1024.

(** *** Snapshots *)

Definition SupportsAuthoritativeSnapshot (selected : Z) (profile : Profile) : bool := (V2 <=? selected) && negb (bytes_eqb profile ProfileHeadless).

(** [SnapshotWithID] up to its wait. *)
Definition SnapshotWithID (selected : Z) (profile : Profile) (gen : Generation) (requestID : Z) (mode : SnapshotMode) (write : option error)
    (calls : gmap Z snapshotCall) : gmap Z snapshotCall * outcome ctlErr (answer SnapshotResult) :=
  if negb (SupportsAuthoritativeSnapshot selected profile) then (calls, Err (KWire (Wrapped [ErrVersionMismatch])))
  else
    let req := {| sq_RequestID := requestID; sq_Generation := gen; sq_Mode := mode |} in
    match EncodeSnapshotRequest req with
    | Panic => (calls, Panic)
    | Err e => (calls, Err (KWire e))
    | Ok _ =>
        match begin_call controllerSnapshotRetryLedgerLimit requestID req write calls with
        | (calls', AChanged) => (calls', Err mismatch)
        | (calls', AFull) => (calls', Err (KWire (Wrapped [ErrSnapshotRefused])))
        | (calls', a) => (calls', Ok a)
        end
    end.

(** [allocateSnapshotRequestID]: the counter, skipping zero and the ids in use.  The ledger
    holds at most [controllerSnapshotRetryLedgerLimit] ids, so one more round than it has
    entries, and one for zero, finds a free one. *)
Fixpoint allocate_loop {A} (fuel : nat) (calls : gmap Z A) (next : Z) : option Z :=
  match fuel with
  | O => None
  | S fuel' =>
      let next := u64 (next + 1) in
      let next := if next =? 0 then u64 (next + 1) else next in
      match calls !! next with None => Some next | Some _ => allocate_loop fuel' calls next end
  end.
Definition allocateSnapshotRequestID {A} (calls : gmap Z A) (next : Z) : option Z := allocate_loop (S (size calls)) calls next.

(** *** Credentials *)

Definition SupportsCredentialPush (selected : Z) : bool := V6 <=? selected.

Definition PushCredential (j : JsonCodec CredentialUpdate) (selected : Z) (gen : Generation) (requestID : Z) (workerID bearer : bytes) (expiresAt : Z)
    (write : option error) (calls : gmap Z credentialCall) : gmap Z credentialCall * outcome ctlErr (answer CredentialResult) :=
  if negb (SupportsCredentialPush selected) then (calls, Err (KWire (Wrapped [ErrVersionMismatch])))
  else
    let req := {| cu_RequestID := requestID; cu_Generation := gen; cu_WorkerID := workerID; cu_Bearer := bearer; cu_ExpiresAt := expiresAt |} in
    match EncodeCredentialUpdate j req with
    | Panic => (calls, Panic)
    | Err e => (calls, Err (KWire e))
    | Ok _ =>
        match begin_call credentialResultLimit requestID req write calls with
        | (calls', AChanged) => (calls', Err mismatch)
        | (calls', AFull) => (calls', Err (KWire (Wrapped [ErrSnapshotRefused])))
        | (calls', a) => (calls', Ok a)
        end
    end.

Definition acceptCredentialResult (j : JsonCodec CredentialResult) (gen : Generation) (body : bytes) (calls : gmap Z credentialCall)
    : outcome ctlErr (gmap Z credentialCall) :=
  obind (kwire (DecodeCredentialResult j body)) (fun result =>
  match calls !! cs_RequestID result with
  | None => Err mismatch
  | Some call =>
      if negb (cu_Generation (q_request call) =? cs_Generation result) then Err mismatch
      else match q_result call with
      | Some old => if bool_decide (old = result) then Ok calls else Err mismatch
      | None =>
          let err := if negb (bytes_eqb (cs_Status result) CredentialSuccess) then Some (KCode ErrSnapshotRefused (cs_Status result))
                     else if negb (cs_Generation result =? gen) then Some mismatch else q_err call in
          obind (complete call (Some result) err) (fun call' => Ok (<[cs_RequestID result := call']> calls))
      end
  end).

(** ** Heartbeats *)

Definition heartbeatCorrelation : Type := Generation * Z.
Definition controllerPendingReceiptLimit : nat := 8.

(** [hb_call] is [c.heartbeatCall], a call being known by a number; [hb_results] are the
    results in the channels of the calls. *)
Record heartbeats := {
  hb_call : option (nat * HeartbeatMsg); hb_next : nat; hb_results : gmap nat (option ctlErr); hb_pending : list heartbeatCorrelation
}.

Definition correlation (m : HeartbeatMsg) : heartbeatCorrelation := (hb_Generation m, hb_AckedSeq m).

(** [consumePendingHeartbeatReceiptLocked]: the ledger without the first entry that
    matches, if there is one. *)
Fixpoint consumePendingHeartbeatReceiptLocked (x : heartbeatCorrelation) (pending : list heartbeatCorrelation) : option (list heartbeatCorrelation) :=
  match pending with
  | [] => None
  | y :: rest => if bool_decide (y = x) then Some rest else option_map (cons y) (consumePendingHeartbeatReceiptLocked x rest)
  end.

Definition overtaken (receipt pending : heartbeatCorrelation) : bool :=
  (fst pending <? fst receipt) || ((fst pending =? fst receipt) && (snd pending <=? snd receipt)).

Definition prunePendingReceiptsLocked (x : heartbeatCorrelation) (pending : list heartbeatCorrelation) : list heartbeatCorrelation :=
  List.filter (fun y => negb (overtaken x y)) pending.

Definition rememberPendingHeartbeatReceipt (x : heartbeatCorrelation) (pending : list heartbeatCorrelation) : list heartbeatCorrelation :=
  if bool_decide (x ∈ pending) then pending
  else
    let pending := pending ++ [x] in
    if (controllerPendingReceiptLimit <? length pending)%nat then drop (length pending - controllerPendingReceiptLimit) pending else pending.

Definition durableAckOutstanding (h : heartbeats) : bool :=
  match hb_call h with Some _ => true | None => match hb_pending h with [] => false | _ => true end end.

Definition set_heartbeats (h : heartbeats) (call : option (nat * HeartbeatMsg)) (pending : list heartbeatCorrelation) : heartbeats :=
  {| hb_call := call; hb_next := hb_next h; hb_results := hb_results h; hb_pending := pending |}.

(** The section of [Heartbeat] that registers the call; [None] when one is pending. *)
Definition heartbeat_begin (m : HeartbeatMsg) (h : heartbeats) : heartbeats * option nat :=
  match hb_call h with
  | Some _ => (h, None)
  | None =>
      ({| hb_call := Some (hb_next h, m); hb_next := S (hb_next h); hb_results := hb_results h;
          hb_pending := default (hb_pending h) (consumePendingHeartbeatReceiptLocked (correlation m) (hb_pending h)) |}, Some (hb_next h))
  end.

Definition clearHeartbeatCall (id : nat) (h : heartbeats) : heartbeats :=
  match hb_call h with
  | Some (id', _) => if (id =? id')%nat then set_heartbeats h None (hb_pending h) else h
  | None => h
  end.

(** [call.done <- heartbeatResult{err}], the call having been taken out of the ledger. *)
Definition deliver (id : nat) (err : option ctlErr) (pending : list heartbeatCorrelation) (h : heartbeats) : heartbeats :=
  {| hb_call := None; hb_next := hb_next h; hb_results := <[id := err]> (hb_results h); hb_pending := pending |}.

Definition late_phase : ctlErr := KText "late selected-v3 heartbeat receipt carried an unknown phase".
Definition unsolicited : ctlErr := KText "unsolicited selected-v3 heartbeat receipt".
Definition changed_receipt : ctlErr := KText "selected-v3 heartbeat receipt changed generation, cursor, or phase".

Definition acceptHeartbeatReceipt (receipt : HeartbeatMsg) (h : heartbeats) : heartbeats * option ctlErr :=
  match consumePendingHeartbeatReceiptLocked (correlation receipt) (hb_pending h) with
  | Some rest =>
      (set_heartbeats h (hb_call h) (prunePendingReceiptsLocked (correlation receipt) rest),
       if negb (Phase_Known (hb_Phase receipt)) then Some late_phase else None)
  | None =>
      match hb_call h with
      | None => (h, Some unsolicited)
      | Some (id, expected) =>
          if bool_decide (correlation receipt = correlation expected) && Phase_Known (hb_Phase receipt)
          then (deliver id None (prunePendingReceiptsLocked (correlation receipt) (hb_pending h)) h, None)
          else (deliver id (Some changed_receipt) (hb_pending h) h, Some changed_receipt)
      end
  end.

(** Whether an Error message answers the pending heartbeat, and whether with the terminal
    refusal. *)
Definition failHeartbeatFromError (message : outcome error ErrorMsg) (h : heartbeats) : heartbeats * (bool * bool) :=
  match hb_call h with
  | None => (h, (false, false))
  | Some (id, _) =>
      match message with
      | Ok m =>
          if bytes_eqb (em_Code m) CodeExited then (deliver id (Some ErrShimExited) (hb_pending h) h, (true, true))
          else (deliver id (Some (KCode EOF (em_Code m))) (hb_pending h) h, (true, false))
      | Err e => (deliver id (Some (KWire e)) (hb_pending h) h, (true, false))
      | Panic => (h, (true, false))
      end
  end.

Definition failHeartbeatCall (err : ctlErr) (h : heartbeats) : heartbeats :=
  match hb_call h with Some (id, _) => deliver id (Some err) (hb_pending h) h | None => h end.

(** The timeout of [Heartbeat]. *)
Definition heartbeat_timeout (id : nat) (m : HeartbeatMsg) (h : heartbeats) : heartbeats :=
  let h := clearHeartbeatCall id h in
  set_heartbeats h (hb_call h) (rememberPendingHeartbeatReceipt (correlation m) (hb_pending h)).

(** *** The allocation finds an id *)

Definition id_after (next i : Z) : Z := (next + i - 1) mod (2 ^ 64 - 1) + 1.

Lemma id_after_next next : u64_ok next -> (let n := u64 (next + 1) in if n =? 0 then u64 (n + 1) else n) = id_after next 1.
Proof.
  intros Hn. unfold id_after. replace (next + 1 - 1) with next by lia. unfold u64_ok in Hn. unfold u64. cbv zeta. destruct (decide (next = 2 ^ 64 - 1)) as [->|].
  - reflexivity.
  - rewrite (Z.mod_small (next + 1)), (Z.mod_small next) by lia. by destruct (Z.eqb_spec (next + 1) 0); [lia|].
Qed.

Lemma id_after_ok next i : 0 < id_after next i < 2 ^ 64.
Proof. unfold id_after. pose proof (Z.mod_pos_bound (next + i - 1) (2 ^ 64 - 1) ltac:(lia)). lia. Qed.

Lemma id_after_succ next i : id_after (id_after next i) 1 = id_after next (i + 1).
Proof. unfold id_after. replace (_ + 1 + 1 - 1) with ((next + i - 1) mod (2 ^ 64 - 1) + 1) by lia. rewrite Zplus_mod_idemp_l. do 2 f_equal. lia. Qed.

(** The ids the loop looks at. *)
Lemma allocate_loop_none {A} fuel (calls : gmap Z A) next i :
  allocate_loop fuel calls (id_after next i) = None -> Forall (fun j => is_Some (calls !! id_after next j)) (seqZ (i + 1) (Z.of_nat fuel)).
Proof.
  revert i. induction fuel as [|fuel IH]; intros i; [by constructor|]. cbn [allocate_loop]. pose proof (id_after_ok next i) as Hb.
  pose proof (id_after_next (id_after next i) ltac:(unfold u64_ok; lia)) as E. cbv zeta in E. cbv zeta. rewrite E, id_after_succ.
  destruct (calls !! _) as [q|] eqn:Eq; [|done]. intros H. rewrite seqZ_cons by lia. constructor; [by rewrite Eq|].
  apply IH in H. replace (Z.succ (i + 1)) with (i + 1 + 1) by lia. replace (Z.pred (Z.of_nat (S fuel))) with (Z.of_nat fuel) by lia. done.
Qed.

Lemma allocate_loop_some {A} fuel (calls : gmap Z A) next id : u64_ok next -> allocate_loop fuel calls next = Some id -> 0 < id < 2 ^ 64 /\ calls !! id = None.
Proof.
  revert next. induction fuel as [|fuel IH]; intros next Hn; [done|]. cbn [allocate_loop]. pose proof (id_after_next next Hn) as E. cbv zeta in E. cbv zeta. rewrite E.
  pose proof (id_after_ok next 1). destruct (calls !! id_after next 1) as [q|] eqn:Eq; [|by intros [= <-]]. apply IH. unfold u64_ok. lia.
Qed.

Lemma ids_distinct next (n : Z) : 0 <= n < 2 ^ 64 - 1 -> NoDup (id_after next <$> seqZ 1 n).
Proof.
  intros Hn. apply NoDup_fmap_2_strong; [|apply NoDup_seqZ]. intros i j Hi Hj. apply elem_of_seqZ in Hi, Hj. unfold id_after. intros E.
  assert (Em : (next + i - 1) mod (2 ^ 64 - 1) = (next + j - 1) mod (2 ^ 64 - 1)) by lia.
  pose proof (Z.div_mod (next + i - 1) (2 ^ 64 - 1) ltac:(lia)). pose proof (Z.div_mod (next + j - 1) (2 ^ 64 - 1) ltac:(lia)). nia.
Qed.

(** A free id, never zero. *)
Lemma allocate_fresh {A} (calls : gmap Z A) next :
  u64_ok next -> Z.of_nat (size calls) <= controllerSnapshotRetryLedgerLimit ->
  exists id, allocateSnapshotRequestID calls next = Some id /\ 0 < id < 2 ^ 64 /\ calls !! id = None.
Proof.
  intros Hn Hs. unfold allocateSnapshotRequestID. destruct (allocate_loop _ _ _) as [id|] eqn:E; [exists id; split; [done|]; by eapply allocate_loop_some|exfalso].
  set (ids := id_after next <$> seqZ 1 (Z.of_nat (S (size calls)))). unfold controllerSnapshotRetryLedgerLimit in Hs.
  assert (Hall : Forall (fun j => is_Some (calls !! id_after next j)) (seqZ 1 (Z.of_nat (S (size calls))))).
  { destruct (decide (next = 0)) as [->|Hne].
    - cbn [allocate_loop] in E. change (if u64 (0 + 1) =? 0 then u64 (u64 (0 + 1) + 1) else u64 (0 + 1)) with (id_after 0 1) in E.
      destruct (calls !! id_after 0 1) as [q|] eqn:Eq; [|done]. apply allocate_loop_none in E. rewrite seqZ_cons by lia. constructor; [by rewrite Eq|].
      replace (Z.succ 1) with (1 + 1) by lia. by replace (Z.pred (Z.of_nat (S (size calls)))) with (Z.of_nat (size calls)) by lia.
    - assert (Eid : id_after next 0 = next) by (unfold id_after, u64_ok in *; rewrite Z.mod_small; lia). rewrite <- Eid in E at 1.
      by apply (allocate_loop_none _ _ _ 0) in E. }
  assert (Hsub : list_to_set ids ⊆@{gset Z} dom calls).
  { intros x Hx. apply elem_of_list_to_set, list_elem_of_fmap in Hx as (j & -> & Hj). apply elem_of_dom. by eapply Forall_forall in Hall. }
  apply subseteq_size in Hsub. rewrite size_list_to_set in Hsub by (apply ids_distinct; lia).
  unfold ids in Hsub. rewrite length_fmap, length_seqZ, size_dom in Hsub. lia.
Qed.
