(* ===== verification/ControllerStream.v ===== *)
(** * ControllerStream: the read loop of a controller
    ([src/sessionshim/controller.go])

    [readLoop] takes one message at a time.  What it does with it is [on_message]: it goes
    on reading, it ends, or it hands an event to [publishEvent], which may take long;
    [after_publish] is what it does when that call is back.  Between the two the other
    goroutines of the controller may run, and they share the ledgers of [ControllerCalls].
    The JSON codecs, SHA-256 and the restore check of the terminal are parameters. *)

From stdpp Require Import gmap.
From S2P Require Import Prelude Varint Frame Payloads Snapshot Checkpoint ShimWire ShimPayloads ShimControl Continuation ShimRecord ShimResume ShimLife EventBacklog ControllerCalls.

(** ** Decoding events *)

Definition blank_event (kind : EventKind) : ControllerEvent := {|
  ce_Kind := kind; ce_Seq := 0; ce_RelTime := 0; ce_Data := []; ce_RequestID := 0; ce_FrameType := 0; ce_FrameBytes := [];
  ce_Gap := None; ce_Snapshot := {| sm_AtSeq := 0; sm_Screen := [] |}; ce_Exit := None; ce_HeadlessExit := None; ce_Err := None |}.

Definition set_body (ev : ControllerEvent) (data : bytes) (snapshot : SnapshotMsg) (exit : option ExitMsg) : ControllerEvent := {|
  ce_Kind := ce_Kind ev; ce_Seq := ce_Seq ev; ce_RelTime := ce_RelTime ev; ce_Data := data; ce_RequestID := ce_RequestID ev;
  ce_FrameType := ce_FrameType ev; ce_FrameBytes := ce_FrameBytes ev; ce_Gap := ce_Gap ev; ce_Snapshot := snapshot; ce_Exit := exit;
  ce_HeadlessExit := ce_HeadlessExit ev; ce_Err := ce_Err ev |}.

Definition kframe {A} (o : wire A) : outcome ctlErr A :=
  match o with Ok a => Ok a | Err e => Err (KFrame e) | Panic => Panic end.

Definition decodeHostFrameEvent (body : bytes) : outcome ctlErr ControllerEvent :=
  obind (kwire (DecodeHostFrame body)) (fun hostFrame =>
  obind (kframe (DecodeFrame (FrameBytes hostFrame))) (fun frame =>
  let event := {|
    ce_Kind := EventHostFrame; ce_Seq := Seq frame; ce_RelTime := RelTime frame; ce_Data := []; ce_RequestID := hf_RequestID hostFrame;
    ce_FrameType := Type_ frame; ce_FrameBytes := FrameBytes hostFrame; ce_Gap := None; ce_Snapshot := {| sm_AtSeq := 0; sm_Screen := [] |};
    ce_Exit := None; ce_HeadlessExit := None; ce_Err := None |} in
  if Type_ frame =? TypeOutput then Ok (set_body event (OutputData (DecodeOutput (Payload frame))) (ce_Snapshot event) None)
  else if Type_ frame =? TypeSnapshot then
    obind (kframe (DecodeSnapshotEnvelope (Payload frame))) (fun envelope =>
    Ok (set_body event [] {| sm_AtSeq := EnvAtSeq envelope; sm_Screen := Snap envelope |} None))
  else if Type_ frame =? TypeExit then
    obind (kframe (DecodeExit (Payload frame))) (fun exit =>
    Ok (set_body event [] (ce_Snapshot event) (Some {| xm_Seq := Seq frame; xm_ExitCode := ExitCode exit; xm_Signal := Signal exit |})))
  else Ok event)).

#[export] Instance ExitMsg_eq_dec : EqDecision ExitMsg.
Proof. solve_decision. Defined.
#[export] Instance HeadlessExit_eq_dec : EqDecision HeadlessExit.
Proof. solve_decision. Defined.
#[export] Instance SnapshotResult_eq_dec : EqDecision SnapshotResult.
Proof. solve_decision. Defined.

Definition snapshotResultsEqual (a b : SnapshotResult) : bool :=
  (sr_RequestID a =? sr_RequestID b) && (sr_Generation a =? sr_Generation b) && (sr_Mode a =? sr_Mode b) &&
  bytes_eqb (sr_Code a) (sr_Code b) && (sr_AtSeq a =? sr_AtSeq b) && Bool.eqb (sr_InStream a) (sr_InStream b) && bytes_eqb (sr_Bytes a) (sr_Bytes b).

(** ** Snapshot results *)

Definition check (b : bool) (e : ctlErr) : outcome ctlErr unit := if b then Err e else Ok tt.

(** [fmt.Errorf] with the sentinel in place of the error of another package. *)
Definition as_mismatch {A} (o : wire A) : outcome ctlErr A :=
  match o with Ok a => Ok a | Err _ => Err mismatch | Panic => Panic end.

Definition validateSnapshotResult (result : SnapshotResult) (observedExit : option ExitMsg) (selected : Z) (pending : option ControllerEvent)
    : outcome ctlErr unit :=
  let stray := match pending with Some _ => true | None => false end in
  if negb (bytes_eqb (sr_Code result) []) then check stray duplicate
  else if sr_Mode result =? SnapshotInspect then
    obind (check stray duplicate) (fun _ =>
    obind (check (sr_InStream result || (blen (sr_Bytes result) =? 0)) mismatch) (fun _ =>
    obind (as_mismatch (DecodeScreen (sr_Bytes result))) (fun _ => Ok tt)))
  else if (V3 <=? selected) && sr_InStream result then
    match pending with
    | None => Err mismatch
    | Some ev =>
        obind (check (negb (bool_decide (ce_Kind ev = EventHostFrame)) || negb (ce_FrameType ev =? TypeSnapshot)
                      || negb (ce_RequestID ev =? sr_RequestID result) || negb (ce_Seq ev =? u64 (sr_AtSeq result + 1))
                      || negb (blen (sr_Bytes result) =? 0)) mismatch) (fun _ =>
        obind (as_mismatch (DecodeFrame (ce_FrameBytes ev))) (fun frame =>
        obind (as_mismatch (DecodeSnapshotEnvelope (Payload frame))) (fun envelope =>
        obind (check (negb (EnvAtSeq envelope =? sr_AtSeq result)) mismatch) (fun _ =>
        obind (check (negb (SnapFormat envelope =? SnapFormatScreen)) mismatch) (fun _ =>
        obind (as_mismatch (DecodeScreen (Snap envelope))) (fun _ =>
        check (match observedExit with Some _ => true | None => false end) mismatch))))))
    end
  else
    obind (check stray duplicate) (fun _ =>
    obind (as_mismatch (DecodeFrame (sr_Bytes result))) (fun frame =>
    obind (check (negb (Type_ frame =? TypeSnapshot)) mismatch) (fun _ =>
    obind (as_mismatch (DecodeSnapshotEnvelope (Payload frame))) (fun env =>
    obind (check (negb (EnvAtSeq env =? sr_AtSeq result)) mismatch) (fun _ =>
    obind (check (negb (SnapFormat env =? SnapFormatScreen)) mismatch) (fun _ =>
    obind (as_mismatch (DecodeScreen (Snap env))) (fun _ =>
    if sr_InStream result then
      check (match observedExit with Some _ => true | None => (Seq frame =? 0) || negb (Seq frame =? u64 (sr_AtSeq result + 1)) end) mismatch
    else match observedExit with
    | None => Err mismatch
    | Some exit =>
        check (negb (Seq frame =? PostExitSnapshotSeq) || negb (RelTime frame =? 0)
               || negb (sr_AtSeq result =? xm_Seq exit) || negb (EnvAtSeq env =? xm_Seq exit)) mismatch
    end))))))).

Record snapshotCompletion := { sc_id : Z; sc_result : SnapshotResult; sc_err : option ctlErr }.

Definition set_streamDelivered (q : snapshotCall) : snapshotCall :=
  {| q_request := q_request q; q_result := q_result q; q_err := q_err q; q_sent := q_sent q; q_streamDelivered := true; q_closed := q_closed q |}.

(** [acceptSnapshotResult]: the ledger, the event to emit and the completion that waits
    for it. *)
Definition acceptSnapshotResult (selected : Z) (body : bytes) (observedExit : option ExitMsg) (pending : option ControllerEvent) (calls : gmap Z snapshotCall)
    : outcome ctlErr (gmap Z snapshotCall * option ControllerEvent * option snapshotCompletion) :=
  obind (kwire (DecodeSnapshotResult body)) (fun result =>
  let id := sr_RequestID result in
  match calls !! id with
  | None => Err mismatch
  | Some call =>
      if negb (sq_Generation (q_request call) =? sr_Generation result) || negb (sq_Mode (q_request call) =? sr_Mode result) then Err mismatch
      else match q_result call with
      | Some old =>
          match pending with
          | Some _ => Err duplicate
          | None => if snapshotResultsEqual old result then Ok (calls, None, None) else Err mismatch
          end
      | None =>
          obind (validateSnapshotResult result observedExit selected pending) (fun _ =>
          let callErr := if bytes_eqb (sr_Code result) [] then None else Some (KCode ErrSnapshotRefused (sr_Code result)) in
          if (sr_Mode result =? SnapshotEmit) && sr_InStream result && negb (q_streamDelivered call) then
            let call := set_streamDelivered call in
            if V3 <=? selected then
              match pending with
              | None => Err (KWire (Bare ErrSnapshotMismatch))
              | Some ev => Ok (<[id := call]> calls, Some ev, Some {| sc_id := id; sc_result := result; sc_err := callErr |})
              end
            else
              obind (complete call (Some result) callErr) (fun call =>
              Ok (<[id := call]> calls,
                  Some {| ce_Kind := EventSnapshotFrame; ce_Seq := u64 (sr_AtSeq result + 1); ce_RelTime := 0; ce_Data := []; ce_RequestID := 0;
                          ce_FrameType := 0; ce_FrameBytes := sr_Bytes result; ce_Gap := None; ce_Snapshot := {| sm_AtSeq := 0; sm_Screen := [] |};
                          ce_Exit := None; ce_HeadlessExit := None; ce_Err := None |}, None))
          else obind (complete call (Some result) callErr) (fun call => Ok (<[id := call]> calls, None, None)))
      end
  end).

Definition completeSnapshotCall (completion : option snapshotCompletion) (publishErr : option ctlErr) (calls : gmap Z snapshotCall)
    : outcome ctlErr (gmap Z snapshotCall) :=
  match completion with
  | None => Ok calls
  | Some c =>
      match calls !! sc_id c with
      | None => Ok calls
      | Some call =>
          match q_result call, q_err call with
          | None, None =>
              let done := match publishErr with Some e => complete call None (Some e) | None => complete call (Some (sc_result c)) (sc_err c) end in
              obind done (fun call => Ok (<[sc_id c := call]> calls))
          | _, _ => Ok calls
          end
      end
  end.

(** ** The loop *)

Record hostFrameStreamState := { st_seen : bool; st_last : Z; st_exited : bool; st_gap : option GapMsg; st_expectedFirst : Z }.

(** The fields of [Controller] the loop reads and does not change. *)
Record streamConf := { k_selected : Z; k_profile : Profile; k_gen : Generation; k_resumeFrom : Z; k_replayFrom : Z }.

(** The locals of [readLoop] and the shared fields; [l_closing] is whether [Close] ran. *)
Record Loop := {
  l_stream : hostFrameStreamState; l_pendingRequested : option ControllerEvent;
  l_snapshots : gmap Z snapshotCall; l_credentials : gmap Z credentialCall; l_heartbeats : heartbeats; l_continuation : ControllerC;
  l_exit : option ExitMsg; l_headlessExit : option HeadlessExit; l_streamEnd : option ctlErr; l_closing : bool
}.

Definition set_stream (s : hostFrameStreamState) (pending : option ControllerEvent) (l : Loop) : Loop := {|
  l_stream := s; l_pendingRequested := pending; l_snapshots := l_snapshots l; l_credentials := l_credentials l; l_heartbeats := l_heartbeats l;
  l_continuation := l_continuation l; l_exit := l_exit l; l_headlessExit := l_headlessExit l; l_streamEnd := l_streamEnd l; l_closing := l_closing l |}.
Definition set_calls (snapshots : gmap Z snapshotCall) (credentials : gmap Z credentialCall) (h : heartbeats) (c : ControllerC) (l : Loop) : Loop := {|
  l_stream := l_stream l; l_pendingRequested := l_pendingRequested l; l_snapshots := snapshots; l_credentials := credentials; l_heartbeats := h;
  l_continuation := c; l_exit := l_exit l; l_headlessExit := l_headlessExit l; l_streamEnd := l_streamEnd l; l_closing := l_closing l |}.
Definition set_snapshots (snapshots : gmap Z snapshotCall) (l : Loop) : Loop :=
  set_calls snapshots (l_credentials l) (l_heartbeats l) (l_continuation l) l.
Definition set_credentials (credentials : gmap Z credentialCall) (l : Loop) : Loop :=
  set_calls (l_snapshots l) credentials (l_heartbeats l) (l_continuation l) l.
Definition with_heartbeats (h : heartbeats) (l : Loop) : Loop := set_calls (l_snapshots l) (l_credentials l) h (l_continuation l) l.
Definition set_terminal (exit : option ExitMsg) (headless : option HeadlessExit) (streamEnd : option ctlErr) (closing : bool) (l : Loop) : Loop := {|
  l_stream := l_stream l; l_pendingRequested := l_pendingRequested l; l_snapshots := l_snapshots l; l_credentials := l_credentials l;
  l_heartbeats := l_heartbeats l; l_continuation := l_continuation l; l_exit := exit; l_headlessExit := headless; l_streamEnd := streamEnd; l_closing := closing |}.

Definition failSnapshotCalls (err : ctlErr) (l : Loop) : Loop := set_snapshots (fail_calls err (l_snapshots l)) l.
Definition failCredentialCalls (err : ctlErr) (l : Loop) : Loop := set_credentials (fail_calls err (l_credentials l)) l.

(** The first cause stays. *)
Definition noteStreamEndCause (cause : option ctlErr) (l : Loop) : Loop :=
  set_terminal (l_exit l) (l_headlessExit l) (match l_streamEnd l with Some e => Some e | None => cause end) (l_closing l) l.
Definition Close (l : Loop) : Loop := set_terminal (l_exit l) (l_headlessExit l) (l_streamEnd l) true l.
Definition closeStream (cause : option ctlErr) (l : Loop) : Loop := Close (noteStreamEndCause cause l).
Definition StreamEndCause (l : Loop) : option ctlErr := l_streamEnd l.

(** What the loop does once [publishEvent] is back. *)
Inductive after := AfterHostFrame | AfterEmit (completion : option snapshotCompletion) | AfterHeadless | AfterEvent.

(** Where the loop is after a message: reading, in [publishEvent], returned, or crashed. *)
Inductive turn := TRead | TPublish (ev : ControllerEvent) (k : after) | TReturn | TPanic.

(** Ways to return. *)
Definition stop (cause : ctlErr) (l : Loop) : Loop * turn := (closeStream (Some cause) l, TReturn).
Definition stop_snapshots (failed cause : ctlErr) (l : Loop) : Loop * turn := stop cause (failSnapshotCalls failed l).
Definition stop_all (err : ctlErr) (l : Loop) : Loop * turn := stop err (failSnapshotCalls err (failCredentialCalls err l)).

Section loop.
Context (cf : streamConf).
Context (jHeartbeat : JsonCodec HeartbeatMsg) (jGap : JsonCodec GapMsg) (jSnapshot : JsonCodec SnapshotMsg) (jExit : JsonCodec ExitMsg)
  (jError : JsonCodec ErrorMsg) (jCredential : JsonCodec CredentialResult) (jHeadless : JsonCodec HeadlessExit).
Context (Sum256 : bytes -> bytes) (restores : ContinuationCheckpoint -> bool).

Definition stream_init : hostFrameStreamState :=
  {| st_seen := false; st_last := 0; st_exited := false; st_gap := None; st_expectedFirst := k_replayFrom cf |}.

(** The ledgers as the handshake leaves them. *)
Definition loop_init (c : ControllerC) : Loop := {|
  l_stream := stream_init;
  l_pendingRequested := None; l_snapshots := ∅; l_credentials := ∅;
  l_heartbeats := {| hb_call := None; hb_next := 0; hb_results := ∅; hb_pending := [] |};
  l_continuation := c; l_exit := None; l_headlessExit := None; l_streamEnd := None; l_closing := false |}.

Definition malformed : ctlErr := KWire (Wrapped [ErrMalformed]).

Definition refuseOffProfile (t : MessageType) : option ctlErr :=
  if bytes_eqb (k_profile cf) ProfileHeadless then
    if RefusedIn t ProfileHeadless (k_selected cf) then Some malformed else None
  else if t =? Msg.TypeHeadlessExit then Some malformed else None.

Definition observeExit (exit : ExitMsg) (l : Loop) : Loop * option ctlErr :=
  match l_headlessExit l with
  | Some _ => (l, Some mismatch)
  | None =>
      match l_exit l with
      | None => (set_terminal (Some exit) None (l_streamEnd l) (l_closing l) l, None)
      | Some old => (l, if bool_decide (old = exit) then None else Some mismatch)
      end
  end.

(** [observeHeadlessExit] up to [publishEvent]. *)
Definition observeHeadlessExit (body : bytes) (l : Loop) : outcome ctlErr (Loop * option ControllerEvent) :=
  obind (kwire (DecodeHeadlessExit jHeadless body)) (fun exit =>
  match l_exit l with
  | Some _ => Err mismatch
  | None =>
      match l_headlessExit l with
      | Some old => if bool_decide (old = exit) then Ok (l, None) else Err mismatch
      | None =>
          Ok (set_terminal None (Some exit) (l_streamEnd l) (l_closing l) l,
              Some {| ce_Kind := EventHeadlessExit; ce_Seq := he_Seq exit; ce_RelTime := 0; ce_Data := []; ce_RequestID := 0; ce_FrameType := 0;
                      ce_FrameBytes := []; ce_Gap := None; ce_Snapshot := {| sm_AtSeq := 0; sm_Screen := [] |}; ce_Exit := None;
                      ce_HeadlessExit := Some exit; ce_Err := None |})
      end
  end).

Definition zero_exit : ExitMsg := {| xm_Seq := 0; xm_ExitCode := 0; xm_Signal := [] |}.

(** [publishHostFrameEvent] up to [publishEvent]. *)
Definition publishHostFrameEvent (ev : ControllerEvent) (l : Loop) : Loop * option ctlErr :=
  let s := l_stream l in
  if negb (bool_decide (ce_Kind ev = EventHostFrame)) || (ce_Seq ev =? 0) || st_exited s then (l, Some duplicate)
  else
    let refused :=
      match st_gap s with
      | Some gap => negb (ce_FrameType ev =? TypeSnapshot) || negb (ce_Seq ev =? u64 (gap_ToSeq gap + 1))
      | None =>
          if negb (st_seen s) && negb (st_expectedFirst s =? 0) && negb (ce_Seq ev =? st_expectedFirst s) then true
          else st_seen s && negb (ce_Seq ev =? u64 (st_last s + 1))
      end in
    if refused then (l, Some mismatch)
    else
      let at_ exited := {| st_seen := true; st_last := ce_Seq ev; st_exited := exited; st_gap := None; st_expectedFirst := st_expectedFirst s |} in
      let l := set_stream (at_ (st_exited s)) (l_pendingRequested l) l in
      if ce_FrameType ev =? TypeExit then
        match observeExit (default zero_exit (ce_Exit ev)) l with
        | (l, Some e) => (l, Some e)
        | (l, None) => (set_stream (at_ true) (l_pendingRequested l) l, None)
        end
      else (l, None).

(** A message that does not decode is skipped. *)
Definition decodeEvent (t : MessageType) (body : bytes) : outcome ctlErr (option ControllerEvent) :=
  let skip (o : outcome error ControllerEvent) : outcome ctlErr (option ControllerEvent) :=
    match o with Ok ev => Ok (Some ev) | Err _ => Ok None | Panic => Panic end in
  if t =? Msg.TypeOutput then
    skip (obind (DecodeOutputMsg body) (fun o => Ok {|
      ce_Kind := EventOutput; ce_Seq := om_Seq o; ce_RelTime := om_RelTime o; ce_Data := om_Data o; ce_RequestID := 0; ce_FrameType := 0;
      ce_FrameBytes := []; ce_Gap := None; ce_Snapshot := {| sm_AtSeq := 0; sm_Screen := [] |}; ce_Exit := None; ce_HeadlessExit := None; ce_Err := None |}))
  else if t =? Msg.TypeGap then
    skip (obind (DecodeGap jGap body) (fun g => Ok {|
      ce_Kind := EventGap; ce_Seq := 0; ce_RelTime := 0; ce_Data := []; ce_RequestID := 0; ce_FrameType := 0; ce_FrameBytes := [];
      ce_Gap := Some g; ce_Snapshot := {| sm_AtSeq := 0; sm_Screen := [] |}; ce_Exit := None; ce_HeadlessExit := None; ce_Err := None |}))
  else if t =? Msg.TypeSnapshot then
    skip (obind (decodeJSON jSnapshot body) (fun s => Ok (set_body (blank_event EventSnapshot) [] s None)))
  else if t =? Msg.TypeExit then
    skip (obind (decodeJSON jExit body) (fun e => Ok (set_body (blank_event EventExit) [] {| sm_AtSeq := 0; sm_Screen := [] |} (Some e))))
  else if t =? Msg.TypeError then
    skip (obind (decodeJSON jError body) (fun e => Ok {|
      ce_Kind := EventError; ce_Seq := 0; ce_RelTime := 0; ce_Data := []; ce_RequestID := 0; ce_FrameType := 0; ce_FrameBytes := [];
      ce_Gap := None; ce_Snapshot := {| sm_AtSeq := 0; sm_Screen := [] |}; ce_Exit := None; ce_HeadlessExit := None; ce_Err := Some e |}))
  else Ok None.

(** *** The cases of the loop *)

Definition on_checkpoint (body : bytes) (l : Loop) : Loop * turn :=
  let '(c, err) := acceptContinuationChunk Sum256 restores (l_continuation l) body in
  let l := set_calls (l_snapshots l) (l_credentials l) (l_heartbeats l) c l in
  match err with Some CPanic => (l, TPanic) | Some e => stop (KContinuation e) l | None => (l, TRead) end.

Definition on_credential (body : bytes) (l : Loop) : Loop * turn :=
  match acceptCredentialResult jCredential (k_gen cf) body (l_credentials l) with
  | Panic => (l, TPanic)
  | Err e => stop_all e l
  | Ok credentials => (set_credentials credentials l, TRead)
  end.

Definition on_headless_exit (body : bytes) (l : Loop) : Loop * turn :=
  match observeHeadlessExit body l with
  | Panic => (l, TPanic)
  | Err e => stop_all e l
  | Ok (l, None) => (l, TRead)
  | Ok (l, Some ev) => (l, TPublish ev AfterHeadless)
  end.

Definition on_heartbeat (body : bytes) (l : Loop) : Loop * turn :=
  match decodeJSON jHeartbeat body with
  | Panic => (l, TPanic)
  | Err e => stop (KWire e) (with_heartbeats (failHeartbeatCall (KWire e) (l_heartbeats l)) l)
  | Ok receipt =>
      let '(h, err) := acceptHeartbeatReceipt receipt (l_heartbeats l) in
      match err with Some e => stop e (with_heartbeats h l) | None => (with_heartbeats h l, TRead) end
  end.

Definition on_host_frame (body : bytes) (l : Loop) : Loop * turn :=
  match decodeHostFrameEvent body with
  | Panic => (l, TPanic)
  | Err e => stop_snapshots duplicate e l
  | Ok ev =>
      if match l_pendingRequested l with Some _ => true | None => st_exited (l_stream l) end then stop_snapshots duplicate duplicate l
      else if negb (ce_RequestID ev =? 0) then (set_stream (l_stream l) (Some ev) l, TRead)
      else match publishHostFrameEvent ev l with
           | (l, Some e) => stop_snapshots e e l
           | (l, None) => (l, TPublish ev AfterHostFrame)
           end
  end.

(** The end of an emitted snapshot. *)
Definition finish_emit (completion : option snapshotCompletion) (err : option ctlErr) (l : Loop) : Loop * turn :=
  match completeSnapshotCall completion err (l_snapshots l) with
  | Ok snapshots =>
      let l := set_snapshots snapshots l in
      match err with Some e => stop_snapshots e e l | None => (l, TRead) end
  | _ => (l, TPanic)
  end.

Definition on_snapshot_result (body : bytes) (l : Loop) : Loop * turn :=
  let accepted := acceptSnapshotResult (k_selected cf) body (l_exit l) (l_pendingRequested l) (l_snapshots l) in
  let l := set_stream (l_stream l) None l in
  match accepted with
  | Panic => (l, TPanic)
  | Err e => stop_all e l
  | Ok (snapshots, emit, completion) =>
      let l := set_snapshots snapshots l in
      match emit with
      | None => finish_emit completion None l
      | Some ev =>
          if V3 <=? k_selected cf then
            match publishHostFrameEvent ev l with
            | (l, Some e) => finish_emit completion (Some e) l
            | (l, None) => (l, TPublish ev (AfterEmit completion))
            end
          else (l, TPublish ev (AfterEmit completion))
      end
  end.

(** Whether a Gap is the one the handshake announced. *)
Definition gap_refused (s : hostFrameStreamState) (gap : GapMsg) : bool :=
  let expectedFrom := if k_resumeFrom cf =? 0 then HostSeqStart else k_resumeFrom cf in
  st_seen s || match st_gap s with Some _ => true | None => false end || negb (gap_FromSeq gap =? expectedFrom)
  || (gap_ToSeq gap =? 2 ^ 64 - 1) || negb (u64 (gap_ToSeq gap + 1) =? k_replayFrom cf).

Definition on_event (ev : ControllerEvent) (l : Loop) : Loop * turn :=
  match ce_Kind ev, ce_Gap ev with
  | EventGap, Some gap =>
      if V3 <=? k_selected cf then
        if gap_refused (l_stream l) gap then stop_snapshots duplicate duplicate l
        else
          let s := l_stream l in
          (set_stream {| st_seen := st_seen s; st_last := st_last s; st_exited := st_exited s; st_gap := Some gap; st_expectedFirst := st_expectedFirst s |}
             (l_pendingRequested l) l, TPublish ev AfterEvent)
      else (l, TPublish ev AfterEvent)
  | EventExit, _ =>
      match observeExit (default zero_exit (ce_Exit ev)) l with
      | (l, Some e) => stop_all e l
      | (l, None) => (l, TPublish ev AfterEvent)
      end
  | _, _ => (l, TPublish ev AfterEvent)
  end.

Definition on_other (t : MessageType) (body : bytes) (l : Loop) : Loop * turn :=
  match decodeEvent t body with
  | Panic => (l, TPanic)
  | Ok (Some ev) => on_event ev l
  | _ => (l, TRead)
  end.

(** The body of the loop; [message] is what [ReadVersion] returned. *)
Definition on_message (message : outcome error Message) (l : Loop) : Loop * turn :=
  match message with
  | Panic => (l, TPanic)
  | Err e => (failSnapshotCalls (KWire e) (failCredentialCalls (KWire e) l), TReturn)
  | Ok msg =>
      let t := m_Type msg in
      let body := m_Body msg in
      let v3 := V3 <=? k_selected cf in
      let v6 := V6 <=? k_selected cf in
      match refuseOffProfile t with
      | Some refusal => stop_all refusal l
      | None =>
          if match l_pendingRequested l with Some _ => negb (t =? Msg.TypeSnapshotResult) | None => false end
          then stop_snapshots (KWire (Bare ErrSnapshotMismatch)) (KWire (Bare ErrSnapshotMismatch)) l
          else if t =? Msg.TypeCheckpointResult then on_checkpoint body l
          else if v6 && (t =? Msg.TypeCredentialResult) then on_credential body l
          else if v6 && (t =? Msg.TypeHeadlessExit) then on_headless_exit body l
          else if v3 && (t =? Msg.TypeHeartbeat) then on_heartbeat body l
          else
            let '(h, refused, terminal) :=
              if v3 && (t =? Msg.TypeError) then let '(h, (refused, terminal)) := failHeartbeatFromError (decodeJSON jError body) (l_heartbeats l) in (h, refused, terminal)
              else (l_heartbeats l, false, false) in
            let l := with_heartbeats h l in
            if refused then if terminal : bool then (l, TRead) else (closeStream None l, TReturn)
            else if v3 && (t =? Msg.TypeHostFrame) then on_host_frame body l
            else if v3 && ((t =? Msg.TypeOutput) || (t =? Msg.TypeSnapshot) || (t =? Msg.TypeExit)) then stop_snapshots duplicate duplicate l
            else if t =? Msg.TypeSnapshotResult then on_snapshot_result body l
            else on_other t body l
      end
  end.

(** What follows [publishEvent], which returned [result]. *)
Definition after_publish (k : after) (result : option streamEnd) (l : Loop) : Loop * turn :=
  match k, result with
  | AfterEmit completion, _ => finish_emit completion (option_map KPublish result) l
  | _, None => (l, TRead)
  | AfterHostFrame, Some e => stop_snapshots (KPublish e) (KPublish e) l
  | (AfterHeadless | AfterEvent), Some e => stop_all (KPublish e) l
  end.
End loop.
