(* ===== verification/ControllerRun.v ===== *)
(** * ControllerRun: a controller and its consumer, running
    ([src/sessionshim/controller.go])

    The goroutines of a controller on a selected-v3 connection: the read loop
    ([ControllerStream]), the calls of its users ([ControllerCalls]) and the backlog with
    its dispatcher ([EventBacklog]).  The theorem is about what the consumer of [Events]
    receives. *)

From stdpp Require Import gmap relations.
From S2P Require Import Prelude Varint Reader Frame Payloads Snapshot Checkpoint ShimWire ShimPayloads ShimControl Continuation ShimRecord ShimResume ShimLife EventBacklog BacklogProperties Backlog ControllerCalls ControllerStream.

(** ** The calls of other goroutines *)

Inductive call_step (cf : streamConf) (jUpdate : JsonCodec CredentialUpdate) (l : Loop) : Loop -> Prop :=
| call_snapshot requestID mode write calls r :
    SnapshotWithID (k_selected cf) (k_profile cf) (k_gen cf) requestID mode write (l_snapshots l) = (calls, r) ->
    call_step cf jUpdate l (set_snapshots calls l)
| call_credential requestID workerID bearer expiresAt write calls r :
    PushCredential jUpdate (k_selected cf) (k_gen cf) requestID workerID bearer expiresAt write (l_credentials l) = (calls, r) ->
    call_step cf jUpdate l (set_credentials calls l)
| call_heartbeat m : call_step cf jUpdate l (with_heartbeats (fst (heartbeat_begin m (l_heartbeats l))) l)
| call_clear id : call_step cf jUpdate l (with_heartbeats (clearHeartbeatCall id (l_heartbeats l)) l)
| call_remember m :
    call_step cf jUpdate l
      (with_heartbeats (set_heartbeats (l_heartbeats l) (hb_call (l_heartbeats l)) (rememberPendingHeartbeatReceipt (correlation m) (hb_pending (l_heartbeats l)))) l)
| call_checkpoint selected :
    call_step cf jUpdate l (set_calls (l_snapshots l) (l_credentials l) (l_heartbeats l) (fst (begin_inspect (l_continuation l) selected)) l)
| call_close : call_step cf jUpdate l (Close l).

(** ** The system *)

(** [y_published] are the events whose [publishEvent] returned nil. *)
Record Sys := { y_loop : Loop; y_turn : turn; y_mach : Mach; y_published : list ControllerEvent }.

Section run.
Context (cf : streamConf) (bc : backlogConf) (delta : Z).
Context (jHeartbeat : JsonCodec HeartbeatMsg) (jGap : JsonCodec GapMsg) (jSnapshot : JsonCodec SnapshotMsg) (jExit : JsonCodec ExitMsg)
  (jError : JsonCodec ErrorMsg) (jCredential : JsonCodec CredentialResult) (jHeadless : JsonCodec HeadlessExit) (jUpdate : JsonCodec CredentialUpdate).
Context (Sum256 : bytes -> bytes) (restores : ContinuationCheckpoint -> bool).

Definition handle (message : outcome error Message) (l : Loop) : Loop * turn :=
  on_message cf jHeartbeat jGap jSnapshot jExit jError jCredential jHeadless Sum256 restores message l.

(** What a turn of the loop is to the backlog: the start of a push, or the end of the
    reader. *)
Definition hand (t : turn) (m : Mach) : Mach :=
  match t with
  | TPublish ev _ => goes delta m (m_b m) (Pushing (m_clk m) ev PTry) (m_clk m) []
  | TReturn => goes delta m (m_b m) (Ended None) (m_clk m) []
  | TRead | TPanic => m
  end.

(** How the push of the loop ended in a step of the backlog. *)
Definition push_end (m m' : Mach) : option (option streamEnd) :=
  match m_reader m, m_reader m' with
  | Pushing _ _ _, Reading => Some None
  | Pushing _ _ _, Ended (Some e) => Some (Some e)
  | _, _ => None
  end.

(** The system after a step of the backlog. *)
Definition resume_loop (s : Sys) (m' : Mach) : Sys :=
  match y_turn s, push_end (y_mach s) m' with
  | TPublish ev k, Some r =>
      let '(l, t) := after_publish k r (y_loop s) in
      {| y_loop := l; y_turn := t; y_mach := m'; y_published := y_published s ++ match r with None => [ev] | Some _ => [] end |}
  | _, _ => {| y_loop := y_loop s; y_turn := y_turn s; y_mach := m'; y_published := y_published s |}
  end.

Inductive sys_step (s : Sys) : Sys -> Prop :=
| sys_message message l t :
    y_turn s = TRead -> (forall msg, message = Ok msg -> bytes_ok (m_Body msg)) -> handle message (y_loop s) = (l, t) ->
    sys_step s {| y_loop := l; y_turn := t; y_mach := hand t (y_mach s); y_published := y_published s |}
| sys_backlog m' :
    step bc delta (y_mach s) m' -> (m_reader (y_mach s) = Reading -> m_reader m' = Reading) -> sys_step s (resume_loop s m')
| sys_call l :
    call_step cf jUpdate (y_loop s) l ->
    sys_step s {| y_loop := l; y_turn := y_turn s; y_mach := y_mach s; y_published := y_published s |}.

Definition sys_init (c : ControllerC) (b : eventBacklog) (t0 : Z) : Sys :=
  {| y_loop := loop_init cf c; y_turn := TRead; y_mach := init b t0; y_published := [] |}.

(** ** The contract of the stream *)

Definition expectedFrom : Z := if k_resumeFrom cf =? 0 then HostSeqStart else k_resumeFrom cf.
Definition is_frame (ev : ControllerEvent) : Prop := ce_Kind ev = EventHostFrame.
Definition is_gap (ev : ControllerEvent) : Prop := ce_Kind ev = EventGap.
#[export] Instance is_frame_dec ev : Decision (is_frame ev) := decide (ce_Kind ev = EventHostFrame).
#[export] Instance is_gap_dec ev : Decision (is_gap ev) := decide (ce_Kind ev = EventGap).

(** What a consumer of the stream may rely on: the frames are numbered without a hole, from
    the replay point; nothing follows the Exit; and a gap, of which there is at most one,
    comes before every frame, says what is missing between the resume point and the replay
    point, and is followed by a Snapshot. *)
Definition stream_ok (evs : list ControllerEvent) : Prop :=
  let frames := filter is_frame evs in
  (exists first, 0 < first /\ (k_replayFrom cf <> 0 -> first = k_replayFrom cf) /\ ce_Seq <$> frames = seqZ first (Z.of_nat (length frames))) /\
  (forall pre ev post, frames = pre ++ ev :: post -> ce_FrameType ev = TypeExit -> post = []) /\
  (filter is_gap evs = [] \/
   exists pre gap post g, evs = pre ++ gap :: post /\ filter is_gap evs = [gap] /\ filter is_frame pre = [] /\
     ce_Gap gap = Some g /\ gap_FromSeq g = expectedFrom /\ u64 (gap_ToSeq g + 1) = k_replayFrom cf /\
     (forall ev rest, frames = ev :: rest -> ce_FrameType ev = TypeSnapshot)).

(** How an event moves the state of the stream. *)
Definition with_gap (s : hostFrameStreamState) (g : GapMsg) : hostFrameStreamState :=
  {| st_seen := st_seen s; st_last := st_last s; st_exited := st_exited s; st_gap := Some g; st_expectedFirst := st_expectedFirst s |}.
Definition at_frame (s : hostFrameStreamState) (ev : ControllerEvent) : hostFrameStreamState :=
  {| st_seen := true; st_last := ce_Seq ev; st_exited := ce_FrameType ev =? TypeExit; st_gap := None; st_expectedFirst := st_expectedFirst s |}.

Inductive advance (s : hostFrameStreamState) (ev : ControllerEvent) : hostFrameStreamState -> Prop :=
| adv_other : ~ is_frame ev -> ~ is_gap ev -> advance s ev s
| adv_gap g : is_gap ev -> ce_Gap ev = Some g -> gap_refused cf s g = false -> advance s ev (with_gap s g)
| adv_frame :
    is_frame ev -> u64_ok (ce_Seq ev) -> ce_Seq ev <> 0 -> st_exited s = false ->
    match st_gap s with
    | Some gap => ce_FrameType ev = TypeSnapshot /\ ce_Seq ev = u64 (gap_ToSeq gap + 1)
    | None => if st_seen s then ce_Seq ev = u64 (st_last s + 1) else st_expectedFirst s <> 0 -> ce_Seq ev = st_expectedFirst s
    end -> advance s ev (at_frame s ev).

(** The state after the events of a stream. *)
Inductive streamed : list ControllerEvent -> hostFrameStreamState -> Prop :=
| streamed_nil : streamed [] (stream_init cf)
| streamed_snoc evs s ev s' : streamed evs s -> advance s ev s' -> streamed (evs ++ [ev]) s'.

Lemma streamed_prefix evs s p : streamed evs s -> p `prefix_of` evs -> exists s', streamed p s'.
Proof.
  intros H. revert p. induction H as [|evs s ev s' H IH Ha]; intros p Hp.
  - apply prefix_nil_inv in Hp as ->. eexists. by constructor.
  - destruct Hp as [q Hq]. destruct q as [|x q _] using rev_ind.
    + rewrite app_nil_r in Hq. rewrite <- Hq. eexists. by econstructor.
    + rewrite app_assoc in Hq. apply app_inj_tail in Hq as [-> _]. apply IH. by eexists.
Qed.

Lemma last_split {A} (l : list A) (x : A) pre y post : l ++ [x] = pre ++ y :: post -> y ∈ l \/ post = [].
Proof.
  destruct post as [|z post _] using rev_ind; [by right|]. intros H. left.
  change (y :: post ++ [z]) with ((y :: post) ++ [z]) in H. rewrite app_assoc in H. apply app_inj_tail in H as [-> _].
  apply elem_of_app. right. by constructor.
Qed.

Hypothesis replay_nonneg : 0 <= k_replayFrom cf.

(** The state records what the events were. *)
Definition tracks (evs : list ControllerEvent) (s : hostFrameStreamState) : Prop :=
  let frames := filter is_frame evs in
  st_expectedFirst s = k_replayFrom cf /\
  (if st_seen s then
     st_gap s = None /\ u64_ok (st_last s) /\ frames <> [] /\
     exists first, 0 < first /\ (k_replayFrom cf <> 0 -> first = k_replayFrom cf) /\
       ce_Seq <$> frames = seqZ first (Z.of_nat (length frames)) /\ st_last s = first + Z.of_nat (length frames) - 1
   else frames = [] /\ (st_gap s = None -> filter is_gap evs = [])) /\
  (forall pre ev post, frames = pre ++ ev :: post -> ce_FrameType ev = TypeExit -> post = [] /\ st_exited s = true) /\
  (forall g, st_gap s = Some g -> u64 (gap_ToSeq g + 1) = k_replayFrom cf) /\
  (filter is_gap evs = [] \/
   exists pre gap post g, evs = pre ++ gap :: post /\ filter is_gap evs = [gap] /\ filter is_frame pre = [] /\
     ce_Gap gap = Some g /\ gap_FromSeq g = expectedFrom /\ u64 (gap_ToSeq g + 1) = k_replayFrom cf /\
     (forall ev rest, frames = ev :: rest -> ce_FrameType ev = TypeSnapshot)).

Lemma tracks_stream_ok evs s : tracks evs s -> stream_ok evs.
Proof.
  intros (_ & Hs & He & _ & Hg). split_and!; [|naive_solver|done]. destruct (st_seen s).
  - destruct Hs as (_ & _ & _ & first & H1 & H2 & H3 & _). eauto.
  - destruct Hs as [-> _]. destruct (decide (k_replayFrom cf = 0)); [by exists 1|exists (k_replayFrom cf)]. split_and!; [lia|done|done].
Qed.

Lemma tracks_init : tracks [] (stream_init cf).
Proof. split_and!; cbn; try done; [|by left]. intros [|? pre]; done. Qed.

Lemma tracks_other evs s ev : ~ is_frame ev -> ~ is_gap ev -> tracks evs s -> tracks (evs ++ [ev]) s.
Proof.
  intros Hf Hg (H1 & H2 & H3 & H4 & H5). unfold tracks. rewrite !filter_app, !filter_cons_False, !filter_nil, !app_nil_r by done.
  split_and!; [done..|]. destruct H5 as [H5|(pre & gap & post & g & -> & H5)]; [by left|right]. exists pre, gap, (post ++ [ev]), g.
  by rewrite <- app_assoc.
Qed.

Lemma tracks_gap evs s ev g : is_gap ev -> ce_Gap ev = Some g -> gap_refused cf s g = false -> tracks evs s -> tracks (evs ++ [ev]) (with_gap s g).
Proof.
  intros Hk Hc Hr (H1 & H2 & H3 & H4 & H5). unfold gap_refused in Hr. fold expectedFrom in Hr.
  destruct (st_seen s) eqn:Es; [done|]. destruct (st_gap s) as [|] eqn:Eg; [done|]. cbn [orb] in Hr. destruct H2 as [Hfr Hgaps].
  assert (Hf : ~ is_frame ev) by (unfold is_frame, is_gap in *; congruence).
  apply orb_false_iff in Hr as [Hr Hto]. apply orb_false_iff in Hr as [Hfrom _]. apply negb_false_iff, Z.eqb_eq in Hfrom. apply negb_false_iff, Z.eqb_eq in Hto.
  unfold tracks, with_gap. cbn [st_seen st_last st_exited st_gap st_expectedFirst].
  rewrite !filter_app, (filter_cons_False is_frame), (filter_cons_True is_gap), !filter_nil, !app_nil_r, Es, (Hgaps eq_refl) by done.
  split_and!; [done..|congruence|]. right. exists evs, ev, [], g. split_and!; try done. intros ? ? E. by rewrite Hfr in E.
Qed.

(** The Exit is the last frame. *)
Lemma exit_frame_last (frames : list ControllerEvent) ev exited :
  (forall pre x post, frames = pre ++ x :: post -> ce_FrameType x = TypeExit -> post = [] /\ exited = true) -> exited = false ->
  forall pre x post, frames ++ [ev] = pre ++ x :: post -> ce_FrameType x = TypeExit -> post = [] /\ (ce_FrameType ev =? TypeExit) = true.
Proof.
  intros H He pre x post E Hx. assert (Hno : x ∈ frames -> False) by (intros Hin; apply list_elem_of_split in Hin as (a & b & ->); destruct (H a x b eq_refl Hx); congruence).
  destruct (last_split _ _ _ _ _ E) as [Hin| ->]; [done|]. apply app_inj_tail in E as [_ ->]. split; [done|]. by apply Z.eqb_eq.
Qed.

Lemma next_seq last seq : u64_ok last -> seq = u64 (last + 1) -> seq <> 0 -> seq = last + 1.
Proof.
  unfold u64_ok, u64. intros Hl -> Hn. destruct (decide (last + 1 = 2 ^ 64)) as [E|]; [|apply Z.mod_small; lia].
  rewrite E, Z_mod_same_full in Hn. done.
Qed.

Lemma tracks_frame evs s ev s' : is_frame ev -> advance s ev s' -> tracks evs s -> tracks (evs ++ [ev]) s'.
Proof.
  intros Hf Ha (H1 & H2 & H3 & H4 & H5). destruct Ha as [|g Hg|_ Hu Hnz Hex Hseq]; [done|unfold is_frame, is_gap in *; congruence|].
  assert (Hg : ~ is_gap ev) by (unfold is_frame, is_gap in *; congruence).
  unfold tracks, at_frame. cbn [st_seen st_last st_exited st_gap st_expectedFirst].
  rewrite !filter_app, (filter_cons_True is_frame), (filter_cons_False is_gap), !filter_nil, !app_nil_r by done.
  split_and!; [done|done|done|by destruct (filter is_frame evs)| |by eapply exit_frame_last|done|].
  - destruct (st_seen s) eqn:Es.
    + destruct H2 as (Egap & Hlast & _ & first & Hf1 & Hf2 & Hs & Hl). rewrite Egap in Hseq. apply next_seq in Hseq; [|done..].
      exists first. split_and!; [done|done| |rewrite length_app; cbn; lia].
      assert (Hn : ce_Seq ev = first + Z.of_nat (length (filter is_frame evs))) by lia.
      rewrite fmap_app, Hs, length_app, Nat2Z.inj_add, seqZ_app by lia. f_equal. cbn [fmap list_fmap length]. rewrite seqZ_cons, Hn by lia. done.
    + destruct H2 as [Hfr _]. rewrite Hfr in *. exists (ce_Seq ev). split_and!; [unfold u64_ok in Hu; lia| |done|cbn; lia].
      destruct (st_gap s) as [g|]; [|by rewrite H1 in Hseq]. destruct Hseq as [_ ->]. intros _. by apply H4.
  - destruct H5 as [H5|(pre & gap & post & g & -> & Hgs & Hpre & Hc & Hfrom & Hto & Hsnap)]; [by left|right]. exists pre, gap, (post ++ [ev]), g.
    rewrite <- app_assoc. split_and!; try done. intros x rest E. destruct (st_seen s) eqn:Es.
    + destruct H2 as (_ & _ & Hne & _). destruct (filter is_frame (pre ++ gap :: post)) as [|y fs] eqn:Efs; [done|]. injection E as <- _. by eapply Hsnap.
    + destruct H2 as [Hfr Hno]. rewrite Hfr in E. injection E as <- _. destruct (st_gap s) as [g'|]; [by destruct Hseq|].
      rewrite (Hno eq_refl) in Hgs. done.
Qed.

Lemma streamed_tracks evs s : streamed evs s -> tracks evs s.
Proof.
  induction 1 as [|evs s ev s' _ IH Ha]; [apply tracks_init|].
  destruct (decide (is_frame ev)) as [Hf|Hf]; [by eapply tracks_frame|]. destruct Ha; [by apply tracks_other|by eapply tracks_gap|done].
Qed.

Lemma streamed_ok evs s p : streamed evs s -> p `prefix_of` evs -> stream_ok p.
Proof. intros H Hp. destruct (streamed_prefix _ _ _ H Hp) as [s' H']. eapply tracks_stream_ok. by apply streamed_tracks. Qed.

(** ** The loop keeps the contract *)

Lemma decoded_frame body ev : bytes_ok body -> decodeHostFrameEvent body = Ok ev -> is_frame ev /\ u64_ok (ce_Seq ev).
Proof.
  intros Hb H. unfold decodeHostFrameEvent in H. destruct (DecodeHostFrame body) as [h| |] eqn:Eh; try done. cbn [kwire obind] in H.
  apply (shim_canonical (H := HostFrame_codec) body h Hb) in Eh as [(_ & Hfb & _) Henc]. cbn in Henc.
  unfold EncodeHostFrame, validateHostFrame in Henc. destruct (_ =? 0); [done|]. destruct (Z.ltb_spec MaxHostFrameBytes (blen (FrameBytes h))) as [|Hl]; [done|].
  assert (Hgo : go_slice (FrameBytes h)) by (split; [change MaxHostFrameBytes with 1048567 in Hl; lia|done]).
  pose proof (DecodeFrame_safe _ Hgo) as Hs. destruct (DecodeFrame (FrameBytes h)) as [f| |]; try done. destruct Hs as (_ & Hu & _). cbn [kframe obind] in H.
  repeat case_match; try done; cbn [obind] in H; try (by injection H as <-);
    match type of H with obind (kframe ?o) _ = _ => destruct o; try done; by injection H as <- end.
Qed.

Definition pending_ok (l : Loop) : Prop := forall ev, l_pendingRequested l = Some ev -> u64_ok (ce_Seq ev).

Lemma observeExit_quiet e l l' r : observeExit e l = (l', r) -> l_stream l' = l_stream l /\ l_pendingRequested l' = l_pendingRequested l.
Proof. unfold observeExit. intros H. by repeat case_match; simplify_eq. Qed.

Lemma publish_advance ev l l' :
  u64_ok (ce_Seq ev) -> publishHostFrameEvent ev l = (l', None) ->
  advance (l_stream l) ev (l_stream l') /\ l_pendingRequested l' = l_pendingRequested l.
Proof.
  intros Hu H. unfold publishHostFrameEvent in H.
  destruct (bool_decide (ce_Kind ev = EventHostFrame)) eqn:Hk; [apply bool_decide_eq_true in Hk|by cbn in H]. destruct (Z.eqb_spec (ce_Seq ev) 0) as [|Hnz]; [done|].
  destruct (st_exited (l_stream l)) eqn:Hex; [done|]. cbn [negb orb] in H.
  assert (Hadv : forall l1, l_stream l1 = at_frame (l_stream l) ev ->
    (match st_gap (l_stream l) with
     | Some gap => negb (ce_FrameType ev =? TypeSnapshot) || negb (ce_Seq ev =? u64 (gap_ToSeq gap + 1))
     | None => if negb (st_seen (l_stream l)) && negb (st_expectedFirst (l_stream l) =? 0) && negb (ce_Seq ev =? st_expectedFirst (l_stream l)) then true
               else st_seen (l_stream l) && negb (ce_Seq ev =? u64 (st_last (l_stream l) + 1))
     end = false) -> advance (l_stream l) ev (l_stream l1)).
  { clear H. intros l1 -> Hr. apply adv_frame; try done. destruct (st_gap (l_stream l)) as [g|]; [lia|].
    destruct (st_seen (l_stream l)); cbn [negb andb] in Hr; [lia|]. destruct (negb _ && negb _) eqn:E; [done|lia]. }
  destruct (match st_gap _ with Some _ => _ | None => _ end) eqn:Hr; [done|].
  destruct (ce_FrameType ev =? TypeExit) eqn:Ht.
  - destruct (observeExit _ _) as [l1 [e|]] eqn:Eo; [done|]. injection H as <-. apply observeExit_quiet in Eo as [_ Hp].
    split; [|exact Hp]. apply Hadv; [|done]. unfold at_frame. by rewrite Ht.
  - injection H as <-. split; [|done]. apply Hadv; [|done]. unfold at_frame. by rewrite Ht.
Qed.

(** What a turn does to the stream. *)
Definition turn_ok (l l' : Loop) (t : turn) : Prop :=
  match t with
  | TRead => l_stream l' = l_stream l /\ pending_ok l'
  | TPublish ev _ => advance (l_stream l) ev (l_stream l') /\ pending_ok l'
  | TReturn | TPanic => True
  end.

Ltac quiet := repeat case_match; simplify_eq; try done.

Lemma finish_emit_turn completion err l l' t : pending_ok l -> finish_emit completion err l = (l', t) -> turn_ok l l' t.
Proof. unfold finish_emit, stop_snapshots, stop. intros Hp H. quiet. Qed.

Lemma on_checkpoint_turn body l l' t : pending_ok l -> on_checkpoint Sum256 restores body l = (l', t) -> turn_ok l l' t.
Proof. unfold on_checkpoint, stop. intros Hp H. quiet. Qed.

Lemma on_credential_turn body l l' t : pending_ok l -> on_credential cf jCredential body l = (l', t) -> turn_ok l l' t.
Proof. unfold on_credential, stop_all, stop. intros Hp H. quiet. Qed.

Lemma on_headless_turn body l l' t : pending_ok l -> on_headless_exit jHeadless body l = (l', t) -> turn_ok l l' t.
Proof.
  unfold on_headless_exit, observeHeadlessExit, stop_all, stop. intros Hp H. destruct (DecodeHeadlessExit jHeadless body); cbn [kwire obind] in H; quiet.
  split; [by apply adv_other|done].
Qed.

Lemma on_heartbeat_turn body l l' t : pending_ok l -> on_heartbeat jHeartbeat body l = (l', t) -> turn_ok l l' t.
Proof. unfold on_heartbeat, stop. intros Hp H. quiet. Qed.

Lemma on_host_frame_turn body l l' t : bytes_ok body -> pending_ok l -> on_host_frame body l = (l', t) -> turn_ok l l' t.
Proof.
  unfold on_host_frame, stop_snapshots, stop. intros Hb Hp H. destruct (decodeHostFrameEvent body) as [ev| |] eqn:Ed; [|quiet..].
  apply decoded_frame in Ed as [_ Hu]; [|done]. destruct (match l_pendingRequested l with Some _ => _ | None => _ end); [quiet|].
  destruct (ce_RequestID ev =? 0); cbn [negb] in H; [|injection H as <- <-; split; [done|]; intros ? [= <-]; done].
  destruct (publishHostFrameEvent ev l) as [l1 [e|]] eqn:Ep; [quiet|]. injection H as <- <-. apply publish_advance in Ep as [Ha Hq]; [|done].
  split; [done|]. unfold pending_ok. by rewrite Hq.
Qed.

(** On selected v3 the event of a snapshot result is the pending one. *)
Lemma accepted_event body exit pending calls calls' ev completion :
  V3 <= k_selected cf -> acceptSnapshotResult (k_selected cf) body exit pending calls = Ok (calls', Some ev, completion) -> pending = Some ev.
Proof.
  intros Hv H. unfold acceptSnapshotResult in H. destruct (DecodeSnapshotResult body) as [r| |]; cbn [kwire obind] in H; try done.
  destruct (calls !! _) as [call|]; [|done]. destruct (_ || _); [done|]. destruct (q_result call); [quiet|].
  destruct (validateSnapshotResult _ _ _ _); try done. cbn [obind] in H. destruct (_ && _); [|by destruct (complete _ _ _)].
  rewrite (proj2 (Z.leb_le _ _) Hv) in H. quiet.
Qed.

Lemma on_snapshot_result_turn body l l' t : V3 <= k_selected cf -> pending_ok l -> on_snapshot_result cf body l = (l', t) -> turn_ok l l' t.
Proof.
  unfold on_snapshot_result, stop_all, stop. intros Hv Hp H.
  assert (Hnone : forall l1, l_pendingRequested l1 = None -> pending_ok l1) by (intros l1 E ev; congruence).
  destruct (acceptSnapshotResult _ _ _ _ _) as [[[calls emit] completion]| |] eqn:Ea; [|quiet..].
  destruct emit as [ev|]; [|apply finish_emit_turn in H; [done|by apply Hnone]]. apply accepted_event in Ea; [|done].
  rewrite (proj2 (Z.leb_le _ _) Hv) in H. destruct (publishHostFrameEvent ev _) as [l1 [e|]] eqn:Ep; last first.
  - injection H as <- <-. apply publish_advance in Ep as [Ha Hq]; [|by apply Hp]. split; [done|]. by apply Hnone.
  - unfold finish_emit, stop_snapshots, stop in H. quiet.
Qed.

Lemma on_other_turn t0 body l l' t :
  V3 <= k_selected cf -> t0 <> Msg.TypeOutput -> t0 <> Msg.TypeSnapshot -> t0 <> Msg.TypeExit -> pending_ok l ->
  on_other cf jGap jSnapshot jExit jError t0 body l = (l', t) -> turn_ok l l' t.
Proof.
  intros Hv H1 H2 H3 Hp H. unfold on_other, decodeEvent in H.
  rewrite (proj2 (Z.eqb_neq _ _) H1), (proj2 (Z.eqb_neq _ _) H2), (proj2 (Z.eqb_neq _ _) H3) in H.
  destruct (t0 =? Msg.TypeGap).
  - destruct (DecodeGap jGap body) as [g| |]; cbn [obind] in H; [|quiet..]. unfold on_event in H. cbn [ce_Kind ce_Gap] in H.
    rewrite (proj2 (Z.leb_le _ _) Hv) in H. destruct (gap_refused cf (l_stream l) g) eqn:Eg; [unfold stop_snapshots, stop in H; quiet|].
    injection H as <- <-. split; [|done]. by eapply (adv_gap _ _ g).
  - destruct (t0 =? Msg.TypeError); [|quiet]. destruct (decodeJSON jError body); cbn [obind] in H; [|quiet..]. injection H as <- <-.
    split; [|done]. by apply adv_other.
Qed.

Lemma handle_turn message l l' t :
  V3 <= k_selected cf -> (forall msg, message = Ok msg -> bytes_ok (m_Body msg)) -> pending_ok l -> handle message l = (l', t) -> turn_ok l l' t.
Proof.
  intros Hv Hb Hp H. unfold handle, on_message in H. destruct message as [msg|e|]; [|quiet..]. specialize (Hb msg eq_refl).
  destruct (refuseOffProfile cf (m_Type msg)); [unfold stop_all, stop in H; quiet|].
  destruct (match l_pendingRequested l with Some _ => _ | None => _ end); [unfold stop_snapshots, stop in H; quiet|].
  destruct (m_Type msg =? Msg.TypeCheckpointResult); [by eapply on_checkpoint_turn|].
  destruct (_ && (m_Type msg =? Msg.TypeCredentialResult)); [by eapply on_credential_turn|].
  destruct (_ && (m_Type msg =? Msg.TypeHeadlessExit)); [by eapply on_headless_turn|].
  destruct (_ && (m_Type msg =? Msg.TypeHeartbeat)); [by eapply on_heartbeat_turn|].
  destruct (if (V3 <=? k_selected cf) && (m_Type msg =? Msg.TypeError)
            then let '(h, (refused, terminal)) := failHeartbeatFromError (decodeJSON jError (m_Body msg)) (l_heartbeats l) in (h, refused, terminal)
            else (l_heartbeats l, false, false)) as [[h refused] terminal]. destruct refused; [quiet|].
  change (pending_ok (with_heartbeats h l)) in Hp. change (turn_ok (with_heartbeats h l) l' t). rewrite (proj2 (Z.leb_le _ _) Hv) in H. cbn [andb] in H.
  destruct (m_Type msg =? Msg.TypeHostFrame); [by eapply on_host_frame_turn|].
  destruct (_ || _) eqn:Eo; [unfold stop_snapshots, stop in H; quiet|].
  destruct (m_Type msg =? Msg.TypeSnapshotResult); [by eapply on_snapshot_result_turn|].
  eapply on_other_turn; try done; lia.
Qed.

Lemma after_publish_turn k r l l' t : pending_ok l -> after_publish k r l = (l', t) -> l_stream l' = l_stream l /\ pending_ok l' \/ t = TReturn \/ t = TPanic.
Proof. unfold after_publish, finish_emit, stop_snapshots, stop_all, stop. intros Hp H. repeat case_match; simplify_eq; auto. Qed.

(** ** The system keeps the contract *)

Lemma queued_history_app h1 h2 : queued (h1 ++ h2) = queued h1 ++ queued h2.
Proof. apply omap_app. Qed.

(** What a step of the backlog is to the push in progress. *)
Definition push_moves (m m' : Mach) : Prop :=
  match m_reader m with
  | Pushing s e p =>
      (m_reader m' = Reading /\ queued (m_hist m') = queued (m_hist m) ++ [e]) \/
      ((exists err, m_reader m' = Ended (Some err)) /\ queued (m_hist m') = queued (m_hist m)) \/
      ((exists p', m_reader m' = Pushing s e p') /\ queued (m_hist m') = queued (m_hist m))
  | Reading => queued (m_hist m') = queued (m_hist m)
  | Ended err => m_reader m' = Ended err /\ queued (m_hist m') = queued (m_hist m)
  end.

Lemma push_step_moves m s e p ambiguous since m' :
  m_reader m = Pushing s e p -> push_step bc delta m s e p ambiguous since = Some m' -> push_moves m m'.
Proof.
  intros Hr H. unfold push_moves. rewrite Hr. destruct p; cbn [push_step] in H; repeat case_match; simplify_eq; unfold goes; cbn [m_reader m_hist];
    rewrite queued_history_app; cbn [queued omap list_omap]; rewrite ?app_nil_r; eauto 7.
Qed.

Lemma step_moves m m' : step bc delta m m' -> push_moves m m'.
Proof.
  intros H. destruct H; try (by eapply push_step_moves); unfold push_moves, goes, dispatches; cbn [m_reader m_hist];
    rewrite ?queued_history_app; cbn [queued omap list_omap]; repeat case_match; simplify_eq; rewrite ?app_nil_r; eauto 7.
Qed.

Definition sys_inv (b : eventBacklog) (t0 : Z) (s : Sys) : Prop :=
  rtc (step bc delta) (init b t0) (y_mach s) /\ queued (m_hist (y_mach s)) = y_published s /\
  match y_turn s with
  | TRead => m_reader (y_mach s) = Reading /\ streamed (y_published s) (l_stream (y_loop s)) /\ pending_ok (y_loop s)
  | TPublish ev _ =>
      (exists started at_, m_reader (y_mach s) = Pushing started ev at_) /\ (exists s0, streamed (y_published s) s0) /\
      streamed (y_published s ++ [ev]) (l_stream (y_loop s)) /\ pending_ok (y_loop s)
  | TReturn | TPanic => (forall started ev at_, m_reader (y_mach s) <> Pushing started ev at_) /\ exists s0, streamed (y_published s) s0
  end.

Lemma call_quiet l l' : call_step cf jUpdate l l' -> l_stream l' = l_stream l /\ l_pendingRequested l' = l_pendingRequested l.
Proof. by destruct 1. Qed.

Lemma message_inv b t0 s message l t :
  V3 <= k_selected cf -> y_turn s = TRead -> (forall msg, message = Ok msg -> bytes_ok (m_Body msg)) -> handle message (y_loop s) = (l, t) -> sys_inv b t0 s ->
  sys_inv b t0 {| y_loop := l; y_turn := t; y_mach := hand t (y_mach s); y_published := y_published s |}.
Proof.
  intros Hv Et Hb Hh (Hr & Hq & Hi). rewrite Et in Hi. destruct Hi as (Hrd & Hs & Hp). pose proof (handle_turn _ _ _ _ Hv Hb Hp Hh) as Ht.
  unfold sys_inv. cbn [y_loop y_turn y_mach y_published]. destruct t as [|ev k| |]; cbn [hand turn_ok] in *.
  - destruct Ht as [-> Hp']. done.
  - destruct Ht as [Ha Hp']. pose proof (rtc_r _ _ _ Hr (step_publish bc delta _ ev Hrd)) as Hr'. split; [exact Hr'|].
    unfold goes; cbn [m_hist m_reader]. rewrite app_nil_r. split_and!; [done|eauto..]. by econstructor.
  - pose proof (rtc_r _ _ _ Hr (step_end bc delta _ Hrd)) as Hr'. split; [exact Hr'|].
    unfold goes; cbn [m_hist m_reader]. rewrite app_nil_r. split_and!; [done|done|eauto].
  - split_and!; [done|done|congruence|eauto].
Qed.

Lemma backlog_inv b t0 s m' :
  step bc delta (y_mach s) m' -> (m_reader (y_mach s) = Reading -> m_reader m' = Reading) -> sys_inv b t0 s -> sys_inv b t0 (resume_loop s m').
Proof.
  intros Hst Hrd (Hr & Hq & Hi). pose proof (rtc_r _ _ _ Hr Hst) as Hr'. pose proof (step_moves _ _ Hst) as Hm. unfold resume_loop, push_moves in *.
  destruct (y_turn s) as [|ev k| |] eqn:Et.
  - destruct Hi as (Er & Hs & Hp). rewrite Er in Hm. unfold sys_inv. cbn [y_loop y_turn y_mach y_published]. split_and!; [done|congruence|by auto|congruence|done].
  - destruct Hi as ((st & at_ & Er) & [s0 H0] & Hs & Hp). rewrite Er in Hm. unfold push_end. rewrite Er.
    destruct Hm as [[Er' Hq']|[[[err Er'] Hq']|[[p' Er'] Hq']]]; rewrite Er'.
    + destruct (after_publish k None (y_loop s)) as [l t] eqn:Ea. pose proof (after_publish_turn _ _ _ _ _ Hp Ea) as Ht.
      unfold sys_inv. cbn [y_loop y_turn y_mach y_published]. split_and!; [done|congruence|].
      destruct t as [|ev' k'| |]; [|exfalso; unfold after_publish, finish_emit, stop_snapshots, stop_all, stop in Ea; by repeat case_match; simplify_eq|split; [congruence|eauto]..].
      destruct Ht as [[-> Hp']|[?|?]]; done.
    + destruct (after_publish k (Some err) (y_loop s)) as [l t] eqn:Ea. unfold sys_inv. cbn [y_loop y_turn y_mach y_published]. rewrite app_nil_r.
      assert (Ht : t = TReturn \/ t = TPanic) by (unfold after_publish, finish_emit, stop_snapshots, stop_all, stop in Ea; cbn in Ea; repeat case_match; simplify_eq; auto).
      split_and!; [done|congruence|]. destruct Ht as [-> | ->]; (split; [congruence|eauto]).
    + unfold sys_inv. cbn [y_loop y_turn y_mach y_published]. split_and!; [done|congruence|eauto..].
  - destruct Hi as (Hno & Hs). unfold sys_inv. cbn [y_loop y_turn y_mach y_published].
    destruct (m_reader (y_mach s)) as [|? ? ?|err]; [|by edestruct Hno|]; [rewrite (Hrd eq_refl)|destruct Hm as [-> Hm]]; (split_and!; [done|congruence|done|done]).
  - destruct Hi as (Hno & Hs). unfold sys_inv. cbn [y_loop y_turn y_mach y_published].
    destruct (m_reader (y_mach s)) as [|? ? ?|err]; [|by edestruct Hno|]; [rewrite (Hrd eq_refl)|destruct Hm as [-> Hm]]; (split_and!; [done|congruence|done|done]).
Qed.

Lemma sys_step_inv b t0 s s' : V3 <= k_selected cf -> sys_step s s' -> sys_inv b t0 s -> sys_inv b t0 s'.
Proof.
  intros Hv Hst Hi. destruct Hst as [message l t Et Hb Hh|m' Hst Hrd|l Hc]; [by eapply message_inv|by apply backlog_inv|].
  apply call_quiet in Hc as [Hs Hp]. destruct Hi as (Hr & Hq & Hi). unfold sys_inv, pending_ok in *. cbn [y_loop y_turn y_mach y_published]. by rewrite Hs, Hp.
Qed.

Lemma sys_reaches b t0 c s : V3 <= k_selected cf -> rtc sys_step (sys_init c b t0) s -> sys_inv b t0 s.
Proof.
  intros Hv. apply (rtc_ind_r (sys_inv b t0) (sys_init c b t0)).
  - unfold sys_inv, sys_init. cbn [y_loop y_turn y_mach y_published]. split_and!; [by apply rtc_refl|done|done|constructor|]. by intros ? ?.
  - intros y z _ Hst. by apply sys_step_inv.
Qed.
End run.
