(* ===== verification/Controller.v ===== *)
(** * Controller: what a controller promises its users

    The theorems about the read loop and the calls of a controller: the stream its
    consumer sees, and what the answer of [Heartbeat] means; and runs at which they apply. *)

From Stdlib Require Import Sorted.
From stdpp Require Import gmap relations.
From S2P Require Import Prelude Varint Reader Frame Payloads Snapshot Checkpoint ShimWire ShimPayloads ShimControl Continuation ShimRecord ShimResume ShimLife EventBacklog BacklogProperties Backlog ControllerCalls ControllerStream ControllerRun.

(** ** The stream *)

Section stream.
Context (cf : streamConf) (delta t0 : Z).
Context (jHeartbeat : JsonCodec HeartbeatMsg) (jGap : JsonCodec GapMsg) (jSnapshot : JsonCodec SnapshotMsg) (jExit : JsonCodec ExitMsg)
  (jError : JsonCodec ErrorMsg) (jCredential : JsonCodec CredentialResult) (jHeadless : JsonCodec HeadlessExit) (jUpdate : JsonCodec CredentialUpdate).
Context (Sum256 : bytes -> bytes) (restores : ContinuationCheckpoint -> bool).

(** C23. The consumer of a selected-v3 controller sees one unbroken stream.  Whatever bytes
    arrive, whatever the users of the controller call and however its goroutines
    interleave, the host frames the consumer has received are numbered consecutively from
    the replay point of the handshake, nothing follows the Exit, and a declared gap comes
    first, covers exactly what lies between the resume point and the replay point, and is
    followed by a Snapshot.  They are a prefix of what the read loop published, and all of
    it when the dispatcher came to its end by itself. *)
Theorem consumer_stream budget stall ambiguityBound dropBound bc b c s :
  newEventBacklog budget stall ambiguityBound dropBound = (bc, b) -> 0 <= delta -> V3 <= k_selected cf -> u64_ok (k_replayFrom cf) ->
  rtc (sys_step cf bc delta jHeartbeat jGap jSnapshot jExit jError jCredential jHeadless jUpdate Sum256 restores) (sys_init cf c b t0) s ->
  stream_ok cf (sent (m_hist (y_mach s))) /\ sent (m_hist (y_mach s)) `prefix_of` y_published s /\
  (m_disp (y_mach s) = DEnd None -> sent (m_hist (y_mach s)) = y_published s).
Proof.
  intros Hn Hd Hv [Hu _] Hr. pose proof (sys_reaches _ _ _ _ _ _ _ _ _ _ _ _ _ b t0 c s Hv Hr) as (Hm & Hq & Hi).
  assert (Hre : reaches budget stall ambiguityBound dropBound delta t0 bc (y_mach s)) by by exists b.
  destruct (reaches_inv _ _ _ _ _ _ _ _ Hd Hre) as [(Hl & _ & _ & Hend & _) _ _ _].
  assert (Hs : exists evs st, streamed cf evs st /\ y_published s `prefix_of` evs).
  { destruct (y_turn s) as [|ev k| |]; [destruct Hi as (_ & Hs & _)|destruct Hi as (_ & _ & Hs & _)|destruct Hi as (_ & st & Hs)..]; eexists _, _; split; try exact Hs; try done.
    by apply prefix_app_r. }
  assert (Hpre : sent (m_hist (y_mach s)) `prefix_of` y_published s) by (rewrite <- Hq, Hl; by apply prefix_app_r).
  destruct Hs as (evs & st & Hs & Hp). split_and!; [|done|].
  - eapply (streamed_ok _ Hu); [exact Hs|]. by etrans.
  - intros E. rewrite E in Hend, Hl. destruct Hend as [_ Hemp]. rewrite <- Hq, Hl, Hemp. by rewrite !app_nil_r.
Qed.
End stream.

(** ** Heartbeats *)

(** What happened on the wire, in order. *)
Inductive beat := BSent (id : nat) (m : HeartbeatMsg) | BReceipt (r : HeartbeatMsg).

(** Everything that touches the ledger of the heartbeats: the sections of [Heartbeat] and the
    cases of the read loop. *)
Inductive beats : heartbeats -> list beat -> heartbeats -> list beat -> Prop :=
| beat_begin h tr m h' id : heartbeat_begin m h = (h', Some id) -> beats h tr h' (tr ++ [BSent id m])
| beat_clear h tr id : beats h tr (clearHeartbeatCall id h) tr
| beat_remember h tr m : beats h tr (set_heartbeats h (hb_call h) (rememberPendingHeartbeatReceipt (correlation m) (hb_pending h))) tr
| beat_receipt h tr r : beats h tr (fst (acceptHeartbeatReceipt r h)) (tr ++ [BReceipt r])
| beat_error h tr message : beats h tr (fst (failHeartbeatFromError message h)) tr
| beat_fail h tr err : beats h tr (failHeartbeatCall err h) tr.

Definition beat_pair (x y : heartbeats * list beat) : Prop := beats (fst x) (snd x) (fst y) (snd y).
Definition no_heartbeats : heartbeats := {| hb_call := None; hb_next := 0; hb_results := ∅; hb_pending := [] |}.

(** The receipt a call with number [id] was answered by. *)
Definition answered (tr : list beat) (id : nat) : Prop :=
  exists pre m mid r post, tr = pre ++ BSent id m :: mid ++ BReceipt r :: post /\ correlation r = correlation m /\ Phase_Known (hb_Phase r) = true.

Definition beats_ok (x : heartbeats * list beat) : Prop :=
  (forall id m, hb_call (fst x) = Some (id, m) -> BSent id m ∈ snd x) /\ (forall id, hb_results (fst x) !! id = Some None -> answered (snd x) id).

Lemma answered_app tr tr' id : answered tr id -> answered (tr ++ tr') id.
Proof. intros (pre & m & mid & r & post & -> & H). exists pre, m, mid, r, (post ++ tr'). by rewrite <- app_assoc, !app_comm_cons, <- app_assoc. Qed.

(** A result other than success answers nothing. *)
Lemma deliver_ok id e pending h tr : beats_ok (h, tr) -> beats_ok (deliver id (Some e) pending h, tr).
Proof.
  intros [H1 H2]. split; [done|]. intros id'. cbn [fst snd deliver hb_results]. destruct (decide (id = id')) as [->|]; [by rewrite lookup_insert_eq|].
  rewrite lookup_insert_ne by done. apply H2.
Qed.

Lemma beats_keep x y : beat_pair x y -> beats_ok x -> beats_ok y.
Proof.
  destruct x as [h tr], y as [h' tr']. unfold beat_pair. cbn [fst snd]. intros Hb Hok. pose proof Hok as [H1 H2]. cbn [fst snd] in H1, H2.
  destruct Hb as [h tr m h' id Hb|h tr id|h tr m|h tr r|h tr message|h tr err].
  - unfold heartbeat_begin in Hb. destruct (hb_call h); [done|]. injection Hb as <- <-. split; cbn [fst snd hb_call hb_results].
    + intros ? ? [= -> ->]. apply elem_of_app. right. by apply list_elem_of_singleton.
    + intros id E. apply answered_app. auto.
  - unfold clearHeartbeatCall. destruct (hb_call h) as [[id' m']|] eqn:E; [|done]. by destruct (id =? id')%nat.
  - done.
  - assert (Hold : beats_ok (h, tr ++ [BReceipt r])).
    { split; cbn [fst snd]; [intros id m E; apply elem_of_app; left; auto|intros id E; apply answered_app; auto]. }
    unfold acceptHeartbeatReceipt. destruct (consumePendingHeartbeatReceiptLocked _ _); [exact Hold|]. destruct (hb_call h) as [[id m]|] eqn:Ec; [|exact Hold].
    destruct (bool_decide _ && _) eqn:E; [|by apply deliver_ok]. apply andb_true_iff in E as [E Hph]. apply bool_decide_eq_true in E.
    split; [done|]. intros id'. cbn [fst snd deliver hb_results]. destruct (decide (id = id')) as [<-|].
    + intros _. destruct (list_elem_of_split _ _ (H1 _ _ eq_refl)) as (pre & mid & ->). exists pre, m, mid, r, []. by rewrite <- app_assoc.
    + rewrite lookup_insert_ne by done. apply Hold.
  - unfold failHeartbeatFromError. destruct (hb_call h) as [[id m]|] eqn:Ec; [|done]. destruct message; repeat case_match; cbn [fst]; try (by apply deliver_ok); done.
  - unfold failHeartbeatCall. destruct (hb_call h) as [[id m]|] eqn:Ec; [|done]. by apply deliver_ok.
Qed.


(** *** Receipts in order *)

Definition newer (x y : heartbeatCorrelation) : Prop := fst y < fst x \/ fst y = fst x /\ snd y < snd x.

(** A user that acknowledges ever later cursors, a shim that answers every message in
    order, and a timeout that is one section; [waiting] are the messages not answered yet. *)
Inductive orderly : heartbeats * list heartbeatCorrelation -> heartbeats * list heartbeatCorrelation -> Prop :=
| orderly_send h waiting m h' id :
    heartbeat_begin m h = (h', Some id) -> Forall (newer (correlation m)) waiting -> orderly (h, waiting) (h', waiting ++ [correlation m])
| orderly_timeout h waiting id m :
    hb_call h = Some (id, m) -> (length (hb_pending h) < controllerPendingReceiptLimit)%nat -> orderly (h, waiting) (heartbeat_timeout id m h, waiting)
| orderly_receipt h waiting r :
    Phase_Known (hb_Phase r) = true -> orderly (h, correlation r :: waiting) (fst (acceptHeartbeatReceipt r h), waiting).

Definition live (h : heartbeats) : list heartbeatCorrelation := match hb_call h with Some (_, m) => [correlation m] | None => [] end.

(** The ledger is the queue of the unanswered messages. *)
Definition in_order (x : heartbeats * list heartbeatCorrelation) : Prop :=
  snd x = hb_pending (fst x) ++ live (fst x) /\ StronglySorted (fun a b => newer b a) (snd x).

Lemma newer_irrefl x : ~ newer x x.
Proof. unfold newer. lia. Qed.

Lemma consume_absent x l : x ∉ l -> consumePendingHeartbeatReceiptLocked x l = None.
Proof.
  induction l as [|y l IH]; [done|]. intros H. apply not_elem_of_cons in H as [Hne Hl]. cbn. rewrite bool_decide_eq_false_2 by congruence. by rewrite IH.
Qed.

Lemma newer_all_absent x l : Forall (newer x) l -> x ∉ l.
Proof. rewrite Forall_forall. intros H Hin. by apply (newer_irrefl x), H. Qed.

Lemma prune_newer x l : Forall (fun y => newer y x) l -> prunePendingReceiptsLocked x l = l.
Proof.
  unfold prunePendingReceiptsLocked. induction 1 as [|y l H _ IH]; [done|]. cbn [List.filter].
  assert (overtaken x y = false) as -> by (unfold overtaken, newer in *; apply orb_false_iff; split; lia). cbn [negb]. by rewrite IH.
Qed.

Lemma waiting_sorted_snoc l x :
  StronglySorted (fun a b : heartbeatCorrelation => newer b a) l -> Forall (newer x) l -> StronglySorted (fun a b => newer b a) (l ++ [x]).
Proof.
  induction 1 as [|y l Hs IH Hy]; [by repeat constructor|]. intros Hf. apply Forall_cons in Hf as [Hx Hf].
  cbn. constructor; [by apply IH|]. apply Forall_app. split; [done|by apply Forall_singleton].
Qed.

Lemma receipt_in_order h r waiting :
  in_order (h, correlation r :: waiting) -> Phase_Known (hb_Phase r) = true ->
  snd (acceptHeartbeatReceipt r h) = None /\ in_order (fst (acceptHeartbeatReceipt r h), waiting) /\
  (forall id m, hb_pending h = [] -> hb_call h = Some (id, m) -> hb_results (fst (acceptHeartbeatReceipt r h)) !! id = Some None).
Proof.
  intros [Hw Hs] Hph. cbn [fst snd] in *. apply StronglySorted_inv in Hs as [Hs Hn]. unfold acceptHeartbeatReceipt.
  destruct (hb_pending h) as [|x rest] eqn:Ep; cbn [consumePendingHeartbeatReceiptLocked].
  - unfold live in Hw. destruct (hb_call h) as [[id m]|] eqn:Ec; [|done]. cbn [app] in Hw. injection Hw as Hx1 Hx2 ->.
    rewrite bool_decide_eq_true_2, Hph by (unfold correlation; congruence). cbn [andb fst snd prunePendingReceiptsLocked List.filter]. split; [done|]. split; [by split|].
    intros ? ? _ [= <- <-]. cbn. by rewrite lookup_insert_eq.
  - cbn [app] in Hw. injection Hw as <- ->. rewrite bool_decide_eq_true_2, Hph by done. cbn [negb fst snd].
    apply Forall_app in Hn as [Hn _]. rewrite prune_newer by done. split; [done|]. split; [by split|done].
Qed.

Lemma orderly_keep x y : orderly x y -> in_order x -> in_order y.
Proof.
  intros Ho Hi. destruct Ho as [h waiting m h' id Hb Hf|h waiting id m Hc Hl|h waiting r Hph]; [| |by apply receipt_in_order].
  - destruct Hi as [Hw Hs]. cbn [fst snd] in *. unfold heartbeat_begin in Hb. destruct (hb_call h) eqn:Ec; [done|]. injection Hb as <- _.
    unfold live in Hw. rewrite Ec, app_nil_r in Hw. subst waiting. split; cbn [fst snd hb_pending live hb_call]; [|by apply waiting_sorted_snoc].
    by rewrite (consume_absent _ _ (newer_all_absent _ _ Hf)).
  - destruct Hi as [Hw Hs]. cbn [fst snd] in *. split; cbn [fst snd]; [|done]. unfold live in Hw. rewrite Hc in Hw.
    assert (Habs : correlation m ∉ hb_pending h).
    { intros Hin. apply list_elem_of_split in Hin as (a & b & E). rewrite Hw, E, <- app_assoc in Hs. clear -Hs.
      induction a as [|z a IH]; cbn in Hs; apply StronglySorted_inv in Hs as [Hs Hz]; [|auto].
      apply Forall_app in Hz as [_ Hz]. apply Forall_cons in Hz as [Hz _]. by apply newer_irrefl in Hz. }
    unfold heartbeat_timeout, clearHeartbeatCall, live. rewrite Hc, Nat.eqb_refl. cbn [set_heartbeats hb_call hb_pending].
    unfold rememberPendingHeartbeatReceipt. rewrite bool_decide_eq_false_2 by done. rewrite length_app. cbn [length].
    replace (_ <? _)%nat with false by (symmetry; apply Nat.ltb_ge; lia). by rewrite app_nil_r.
Qed.

Lemma orderly_in_order x : rtc orderly (no_heartbeats, []) x -> in_order x.
Proof. apply (rtc_ind_r in_order); [by repeat constructor|]. intros y z _ Ho. by apply orderly_keep. Qed.

