(* ===== verification/ControllerDemo.v ===== *)
(** * ControllerDemo: runs of a controller

    Schedules at which the theorems of [Controller] apply, and the cases just outside
    their hypotheses. *)

From stdpp Require Import gmap relations.
From S2P Require Import Prelude BigEndian Varint Reader Frame Payloads Snapshot Checkpoint ShimWire ShimPayloads ShimControl Continuation ShimRecord ShimResume ShimLife EventBacklog BacklogProperties Backlog ControllerCalls ControllerStream ControllerRun Controller.

(** ** Schedules *)

Section schedule.
Context (cf : streamConf) (bc : backlogConf) (delta : Z).
Context (jHeartbeat : JsonCodec HeartbeatMsg) (jGap : JsonCodec GapMsg) (jSnapshot : JsonCodec SnapshotMsg) (jExit : JsonCodec ExitMsg)
  (jError : JsonCodec ErrorMsg) (jCredential : JsonCodec CredentialResult) (jHeadless : JsonCodec HeadlessExit) (jUpdate : JsonCodec CredentialUpdate).
Context (Sum256 : bytes -> bytes) (restores : ContinuationCheckpoint -> bool).

(** A message arrives, the backlog moves, a user asks for a snapshot or pushes a credential;
    [write] is how the write of the request ends. *)
Inductive sys_move :=
| XMessage (msg : Message)
| XBacklog (x : move)
| XSnapshot (requestID : Z) (mode : SnapshotMode) (write : option error)
| XCredential (requestID : Z) (workerID bearer : bytes) (expiresAt : Z) (write : option error).

Definition set_loop (s : Sys) (l : Loop) : Sys := {| y_loop := l; y_turn := y_turn s; y_mach := y_mach s; y_published := y_published s |}.

Definition sys_move_step (s : Sys) (x : sys_move) : option Sys :=
  match x with
  | XMessage msg =>
      match y_turn s with
      | TRead =>
          if decide (bytes_ok (m_Body msg)) then
            let '(l, t) := handle cf jHeartbeat jGap jSnapshot jExit jError jCredential jHeadless Sum256 restores (Ok msg) (y_loop s) in
            Some {| y_loop := l; y_turn := t; y_mach := hand delta t (y_mach s); y_published := y_published s |}
          else None
      | _ => None
      end
  | XBacklog x =>
      match move_step bc delta (y_mach s) x with
      | Some m' =>
          match m_reader (y_mach s), m_reader m' with
          | Reading, (Pushing _ _ _ | Ended _) => None
          | _, _ => Some (resume_loop s m')
          end
      | None => None
      end
  | XSnapshot requestID mode write =>
      Some (set_loop s (set_snapshots (fst (SnapshotWithID (k_selected cf) (k_profile cf) (k_gen cf) requestID mode write (l_snapshots (y_loop s)))) (y_loop s)))
  | XCredential requestID workerID bearer expiresAt write =>
      Some (set_loop s (set_credentials (fst (PushCredential jUpdate (k_selected cf) (k_gen cf) requestID workerID bearer expiresAt write (l_credentials (y_loop s)))) (y_loop s)))
  end.

Fixpoint sys_play (s : Sys) (l : list sys_move) : option Sys :=
  match l with [] => Some s | x :: l' => match sys_move_step s x with Some s' => sys_play s' l' | None => None end end.

Definition runs : relation Sys := rtc (sys_step cf bc delta jHeartbeat jGap jSnapshot jExit jError jCredential jHeadless jUpdate Sum256 restores).

Lemma sys_move_sound s x s' :
  sys_move_step s x = Some s' -> sys_step cf bc delta jHeartbeat jGap jSnapshot jExit jError jCredential jHeadless jUpdate Sum256 restores s s'.
Proof.
  destruct x as [msg|x|requestID mode write|requestID workerID bearer expiresAt write]; cbn [sys_move_step].
  - destruct (y_turn s) eqn:Et; try done. destruct (decide _) as [Hb|]; [|done]. destruct (handle _ _ _ _ _ _ _ _ _ _ _ _) as [l t] eqn:Eh.
    intros [= <-]. eapply sys_message; [done| |exact Eh]. by intros ? [= <-].
  - destruct (move_step bc delta (y_mach s) x) as [m'|] eqn:Em; [|done]. intros H. apply move_sound in Em.
    assert (Hrd : (m_reader (y_mach s) = Reading -> m_reader m' = Reading) /\ s' = resume_loop s m')
      by (destruct (m_reader (y_mach s)), (m_reader m'); try done; by injection H as <-).
    destruct Hrd as [Hrd ->]. by apply sys_backlog.
  - intros [= <-]. apply sys_call. eapply call_snapshot. by rewrite <- surjective_pairing.
  - intros [= <-]. apply sys_call. eapply call_credential. by rewrite <- surjective_pairing.
Qed.

Lemma sys_play_sound l s s' : sys_play s l = Some s' -> runs s s'.
Proof.
  revert s. induction l as [|x l IH]; intros s; cbn; [intros [= <-]; apply rtc_refl|]. destruct (sys_move_step s x) as [s1|] eqn:E; [|done].
  intros Hp. eapply rtc_l; [by eapply sys_move_sound|by apply IH].
Qed.
End schedule.

(** ** A connection *)

(** A controller that has forwarded four frames adopts a shim whose ring begins at 7. *)
Definition demo_conf (selected : Z) : streamConf := {| k_selected := selected; k_profile := ProfileInteractive; k_gen := 3; k_resumeFrom := 5; k_replayFrom := 7 |}.
Definition demo_continuation : ControllerC :=
  {| c_selected := V3; c_gen := 3; c_capability := None; c_checkpointCall := None; c_nextCheckpointID := 0 |}.
Definition no_codec {A} : JsonCodec A := {| encodeJSON _ := Err (Wrapped [ErrMalformed]); decodeJSON _ := Err (Wrapped [ErrMalformed]) |}.

Definition demo_gap : GapMsg := {| gap_FromSeq := 5; gap_ToSeq := 6; gap_Reason := GapRingEvicted |}.
Definition demo_credential : CredentialResult := {| cs_RequestID := 1; cs_Generation := 3; cs_Status := CredentialSuccess |}.
#[export] Instance GapMsg_eq_dec : EqDecision GapMsg.
Proof. solve_decision. Defined.
Definition gap_codec : JsonCodec GapMsg := table_codec Datatypes.id demo_gap [103].
Definition credential_codec : JsonCodec CredentialResult := table_codec Datatypes.id demo_credential [99].
Definition update_codec : JsonCodec CredentialUpdate := {| encodeJSON _ := Ok [117]; decodeJSON _ := Err (Wrapped [ErrMalformed]) |}.

Definition host_frame (t : EventType) (seq : Z) (payload : bytes) : Message :=
  {| m_Type := Msg.TypeHostFrame;
     m_Body := PutUint64 0 ++ EncodeFrame {| Type_ := t; Seq := seq; RelTime := 0; Payload := payload |} |}.
Definition demo_snapshot : bytes := SnapshotEnvelope_Encode {| EnvAtSeq := 6; SnapFormat := SnapFormatScreen; Snap := [1; 2; 3] |}.

Definition demo_sys (selected : Z) : Sys := sys_init (demo_conf selected) demo_continuation (snd demo_backlog) 0.
Definition demo_run (selected : Z) (l : list sys_move) : option Sys :=
  sys_play (demo_conf selected) (fst demo_backlog) 0 no_codec gap_codec no_codec no_codec no_codec credential_codec no_codec update_codec Datatypes.id (fun _ => true) (demo_sys selected) l.

Lemma demo_run_reaches selected l s :
  demo_run selected l = Some s ->
  runs (demo_conf selected) (fst demo_backlog) 0 no_codec gap_codec no_codec no_codec no_codec credential_codec no_codec update_codec Datatypes.id (fun _ => true)
    (demo_sys selected) s.
Proof. apply sys_play_sound. Qed.

(** The gap, the Snapshot, an Output and the Exit arrive and are delivered; a frame after
    the Exit ends the stream. *)
Definition deliver_one : list sys_move := [XBacklog (MPush false); XBacklog MPop; XBacklog MSend].
Definition whole_stream : list sys_move :=
  XMessage {| m_Type := Msg.TypeGap; m_Body := [103] |} :: deliver_one ++
  XMessage (host_frame TypeSnapshot 7 demo_snapshot) :: deliver_one ++
  XMessage (host_frame TypeOutput 8 [104; 105]) :: deliver_one ++
  XMessage (host_frame TypeExit 9 (ExitPayload_Encode (NewNormalExit 0))) :: deliver_one ++
  [XMessage (host_frame TypeOutput 10 [33]); XBacklog MDefer; XBacklog MPop].

Lemma consumer_stream_witness :
  exists s, demo_run V3 whole_stream = Some s /\ sent (m_hist (y_mach s)) = y_published s /\
  (fun e => (ce_Kind e, ce_Seq e, ce_FrameType e)) <$> y_published s =
    [(EventGap, 0, 0); (EventHostFrame, 7, TypeSnapshot); (EventHostFrame, 8, TypeOutput); (EventHostFrame, 9, TypeExit)] /\
  StreamEndCause (y_loop s) = Some duplicate /\ stream_ok (demo_conf V3) (y_published s).
Proof.
  assert (Hrun : match demo_run V3 whole_stream with
                 | Some s => m_disp (y_mach s) = DEnd None /\ StreamEndCause (y_loop s) = Some duplicate /\
                     (fun e => (ce_Kind e, ce_Seq e, ce_FrameType e)) <$> y_published s =
                     [(EventGap, 0, 0); (EventHostFrame, 7, TypeSnapshot); (EventHostFrame, 8, TypeOutput); (EventHostFrame, 9, TypeExit)]
                 | None => False end) by (vm_compute; repeat split; reflexivity).
  destruct (demo_run V3 whole_stream) as [s|] eqn:E; [|destruct Hrun]. destruct Hrun as (Hd & Hc & Hk). exists s. split; [reflexivity|].
  destruct (consumer_stream (demo_conf V3) 0 0 no_codec gap_codec no_codec no_codec no_codec credential_codec no_codec update_codec Datatypes.id (fun _ => true)
    200 0 0 0 (fst demo_backlog) (snd demo_backlog) demo_continuation s) as (Hok & _ & Hall).
  - exact (surjective_pairing demo_backlog).
  - exact (Z.le_refl 0).
  - exact (Z.le_refl 3).
  - split; [apply Z.leb_le|apply Z.ltb_lt]; reflexivity.
  - exact (demo_run_reaches V3 whole_stream s E).
  - split; [exact (Hall Hd)|]. split; [exact Hk|]. split; [exact Hc|]. rewrite <- (Hall Hd). exact Hok.
Defined.

(** A result for a request that could not be written closes a closed channel. *)
Lemma failed_request_crashes :
  match demo_run V6 [XCredential 1 [119] [98] 1 (Some (Bare (IOError 0))); XMessage {| m_Type := Msg.TypeCredentialResult; m_Body := [99] |}] with
  | Some s => y_turn s = TPanic
  | None => False
  end.
Proof. vm_compute. reflexivity. Qed.

(** ** Heartbeats *)

Definition acked (n : Z) : HeartbeatMsg := {| hb_Generation := 3; hb_AckedSeq := n; hb_Phase := PhaseRunning; hb_OrphanDeadlineAt := 0 |}.

Definition sends (n : Z) (h : heartbeats) : heartbeats := fst (heartbeat_begin (acked n) h).
Definition times_out (n : Z) (h : heartbeats) : heartbeats :=
  match hb_call h with Some (id, _) => heartbeat_timeout id (acked n) h | None => h end.
Definition receives (n : Z) (h : heartbeats) : heartbeats := fst (acceptHeartbeatReceipt (acked n) h).

(** The first acknowledgement is overdue when the second is sent. *)
Definition one_late : heartbeats := sends 2 (times_out 1 (sends 1 no_heartbeats)).

Lemma one_late_orderly : rtc orderly (no_heartbeats, []) (one_late, [correlation (acked 1); correlation (acked 2)]).
Proof.
  eapply rtc_l; [eapply (orderly_send _ _ (acked 1)); [reflexivity|constructor]|].
  eapply rtc_l; [eapply (orderly_timeout _ _ 0 (acked 1)); [reflexivity|apply Nat.ltb_lt; reflexivity]|].
  eapply rtc_l; [eapply (orderly_send _ _ (acked 2)); [reflexivity|]|apply rtc_refl].
  constructor; [right; split; [reflexivity|apply Z.ltb_lt; reflexivity]|constructor].
Qed.


Lemma beats_l h tr h' tr' z : beats h tr h' tr' -> rtc beat_pair (h', tr') z -> rtc beat_pair (h, tr) z.
Proof. intros H. by apply rtc_l. Qed.

Definition one_late_trace : list beat := [BSent 0 (acked 1); BSent 1 (acked 2); BReceipt (acked 1); BReceipt (acked 2)].
Lemma one_late_beats : rtc beat_pair (no_heartbeats, []) (receives 2 (receives 1 one_late), one_late_trace).
Proof.
  eapply beats_l; [by eapply (beat_begin _ [] (acked 1))|]. eapply beats_l; [by apply (beat_clear _ _ 0)|]. eapply beats_l; [by apply (beat_remember _ _ (acked 1))|].
  eapply beats_l; [by eapply (beat_begin _ _ (acked 2))|]. eapply beats_l; [by apply (beat_receipt _ _ (acked 1))|]. eapply beats_l; [by apply (beat_receipt _ _ (acked 2))|].
  apply rtc_refl.
Qed.


(** *** Outside the hypotheses *)

(** The same cursor again, after a wait that was too short: the shim answers both messages,
    the first answer completes the retry and the second is refused. *)
Lemma repeated_cursor_refused :
  let h := sends 1 (times_out 1 (sends 1 no_heartbeats)) in
  hb_results (receives 1 h) !! 1%nat = Some None /\ snd (acceptHeartbeatReceipt (acked 1) (receives 1 h)) = Some unsolicited.
Proof. vm_compute. split; reflexivity. Qed.

(** Nine overdue answers: the one that comes first has been forgotten. *)
Lemma oldest_forgotten :
  let h := fold_left (fun h n => times_out n (sends n h)) [1; 2; 3; 4; 5; 6; 7; 8; 9] no_heartbeats in
  snd (acceptHeartbeatReceipt (acked 1) h) = Some unsolicited.
Proof. vm_compute. reflexivity. Qed.

(** The timeout is two sections.  A receipt between them is refused; one before them leaves
    an entry in the ledger for an acknowledgement that was answered. *)
Lemma timeout_races :
  let remember h := set_heartbeats h (hb_call h) (rememberPendingHeartbeatReceipt (correlation (acked 1)) (hb_pending h)) in
  snd (acceptHeartbeatReceipt (acked 1) (clearHeartbeatCall 0 (sends 1 no_heartbeats))) = Some unsolicited /\
  durableAckOutstanding (remember (clearHeartbeatCall 0 (receives 1 (sends 1 no_heartbeats)))) = true.
Proof. vm_compute. split; reflexivity. Qed.
