(* ===== verification/SeatState.v ===== *)
(** * SeatState: the three-axis report of a seat ([src/daemon/seatstate])

    [state.go], [arbiter.go] and [report.go]: what a host says about a seat from the probes
    that ran.  The vocabularies are Go strings; [formatTime] is the RFC 3339 rendering of
    an instant, which [package time] does. *)

From stdpp Require Import gmap.
From S2P Require Import Prelude Frame ShimWire ProcIdentity.

(** ** Axes ([state.go]) *)

Definition SessionState : Type := bytes.
Definition SessionPresent : SessionState := str "present".
Definition SessionDetached : SessionState := str "detached".
Definition SessionExited : SessionState := str "exited".
Definition SessionAbsent : SessionState := str "absent".
Definition SessionUnknown : SessionState := str "unknown".
Definition SessionState_Valid (s : SessionState) : bool := one_of s [SessionPresent; SessionDetached; SessionExited; SessionAbsent; SessionUnknown].

Definition ActivityState : Type := bytes.
Definition ActivityWorking : ActivityState := str "working".
Definition ActivityIdleAtPrompt : ActivityState := str "idle_at_prompt".
Definition ActivityUnknown : ActivityState := str "unknown".
Definition ActivityState_Valid (a : ActivityState) : bool := one_of a [ActivityWorking; ActivityIdleAtPrompt; ActivityUnknown].

Definition ResumabilityState : Type := bytes.
Definition ResumabilityResumable : ResumabilityState := str "resumable".
Definition ResumabilityFreshOnly : ResumabilityState := str "fresh_only".
Definition ResumabilityUnknown : ResumabilityState := str "unknown".
Definition ResumabilityState_Valid (r : ResumabilityState) : bool := one_of r [ResumabilityResumable; ResumabilityFreshOnly; ResumabilityUnknown].

Record NeedsInput := { ni_Count : Z; ni_Reason : bytes }.

Definition NeedsInput_Valid (n : NeedsInput) : bool :=
  if ni_Count n <? 0 then false else if ni_Count n =? 0 then bytes_eqb (ni_Reason n) [] else negb (bytes_eqb (ni_Reason n) []).

Record SeatState := {
  ss_Session : SessionState; ss_Activity : ActivityState; ss_DecidedBy : bytes; ss_Resumability : ResumabilityState; ss_NeedsInput : NeedsInput
}.

(** ** The arbiter ([arbiter.go]) *)

Definition EvidenceRung : Type := bytes.
Definition RungNone : EvidenceRung := str "none".
Definition RungHarnessReport : EvidenceRung := str "harness_report".
Definition RungHooks : EvidenceRung := str "hooks".
Definition RungVisiblePrompt : EvidenceRung := str "visible_prompt".
Definition RungPTYActivity : EvidenceRung := str "pty_activity".

Definition rungRank : list EvidenceRung := [RungHarnessReport; RungHooks; RungVisiblePrompt; RungPTYActivity].
Definition validRung (name : bytes) : bool := one_of name [RungNone; RungHarnessReport; RungHooks; RungVisiblePrompt; RungPTYActivity].

Record ActivityEvidence := { ae_Rung : EvidenceRung; ae_Observed : bool; ae_Conclusive : bool; ae_Activity : ActivityState }.
Record Verdict := { vd_Activity : ActivityState; vd_DecidedBy : EvidenceRung }.

(** The two maps of [DecideActivity] after the evidence: the first vote of each rung, and
    the rungs that ran. *)
Fixpoint collect (evidence : list ActivityEvidence) (byRung : gmap EvidenceRung ActivityEvidence) (ran : gmap EvidenceRung bool)
    : gmap EvidenceRung ActivityEvidence * gmap EvidenceRung bool :=
  match evidence with
  | [] => (byRung, ran)
  | e :: rest =>
      if negb (validRung (ae_Rung e)) || bytes_eqb (ae_Rung e) RungNone then collect rest byRung ran
      else
        let ran := <[ae_Rung e := true]> ran in
        match byRung !! ae_Rung e with
        | Some _ => collect rest byRung ran
        | None => collect rest (<[ae_Rung e := e]> byRung) ran
        end
  end.

Definition settles (e : ActivityEvidence) : bool := ae_Observed e && ae_Conclusive e && ActivityState_Valid (ae_Activity e).

Fixpoint climb (rungs : list EvidenceRung) (byRung : gmap EvidenceRung ActivityEvidence) (ran : gmap EvidenceRung bool) (lowestRan : EvidenceRung) : Verdict :=
  match rungs with
  | [] => {| vd_Activity := ActivityUnknown; vd_DecidedBy := lowestRan |}
  | rung :: rest =>
      let lowestRan := if default false (ran !! rung) then rung else lowestRan in
      match byRung !! rung with
      | Some e => if settles e then {| vd_Activity := ae_Activity e; vd_DecidedBy := rung |} else climb rest byRung ran lowestRan
      | None => climb rest byRung ran lowestRan
      end
  end.

Definition DecideActivity (evidence : list ActivityEvidence) : Verdict :=
  let '(byRung, ran) := collect evidence ∅ ∅ in climb rungRank byRung ran RungNone.

Definition ConclusiveVote (rung : EvidenceRung) (activity : ActivityState) : ActivityEvidence :=
  {| ae_Rung := rung; ae_Observed := true; ae_Conclusive := true; ae_Activity := activity |}.
Definition InconclusiveProbe (rung : EvidenceRung) (observed : bool) : ActivityEvidence :=
  {| ae_Rung := rung; ae_Observed := observed; ae_Conclusive := false; ae_Activity := [] |}.

Definition SeatState_Valid (s : SeatState) : bool :=
  if negb (SessionState_Valid (ss_Session s)) || negb (ActivityState_Valid (ss_Activity s)) || negb (ResumabilityState_Valid (ss_Resumability s)) then false
  else if negb (NeedsInput_Valid (ss_NeedsInput s)) then false
  else if bytes_eqb (ss_DecidedBy s) [] then false
  else validRung (ss_DecidedBy s).

Definition UnknownSeatState : SeatState := {|
  ss_Session := SessionUnknown; ss_Activity := ActivityUnknown; ss_DecidedBy := RungNone; ss_Resumability := ResumabilityUnknown;
  ss_NeedsInput := {| ni_Count := 0; ni_Reason := [] |} |}.

(** ** The report ([report.go]) *)

(** A nil pointer is [None]. *)
Record ProbeInput := {
  pi_ProcessAlive : option bool; pi_SupervisorBound : option bool; pi_TerminalProof : bool; pi_RegistryReadable : bool; pi_SeatKnown : bool;
  pi_Activity : list ActivityEvidence; pi_NeedsInput : NeedsInput; pi_ResumeArtifactReadable : option bool; pi_NoResumeArtifact : bool; pi_ObservedAt : option Z
}.

Record SeatReport := { rp_SessionID : bytes; rp_State : SeatState; rp_ObservedAt : bytes }.

Definition decideSession (p : ProbeInput) : SessionState :=
  if pi_TerminalProof p then SessionExited
  else match pi_ProcessAlive p with
  | Some alive =>
      if negb alive then SessionExited
      else match pi_SupervisorBound p with
      | Some bound => if bound then SessionPresent else SessionDetached
      | None => SessionUnknown
      end
  | None => if pi_RegistryReadable p && negb (pi_SeatKnown p) then SessionAbsent else SessionUnknown
  end.

Definition decideResumability (p : ProbeInput) : ResumabilityState :=
  match pi_ResumeArtifactReadable p with
  | Some readable => if readable then ResumabilityResumable else if pi_NoResumeArtifact p then ResumabilityFreshOnly else ResumabilityUnknown
  | None => if pi_NoResumeArtifact p then ResumabilityFreshOnly else ResumabilityUnknown
  end.

Definition Report (formatTime : Z -> bytes) (sessionID : bytes) (p : ProbeInput) : SeatReport :=
  let session := decideSession p in
  let evidence := if bytes_eqb session SessionExited || bytes_eqb session SessionAbsent then [] else pi_Activity p in
  let verdict := DecideActivity evidence in
  {| rp_SessionID := TrimSpace sessionID;
     rp_State := {| ss_Session := session; ss_Activity := vd_Activity verdict; ss_DecidedBy := vd_DecidedBy verdict;
                    ss_Resumability := decideResumability p; ss_NeedsInput := pi_NeedsInput p |};
     rp_ObservedAt := match pi_ObservedAt p with Some t => formatTime t | None => [] end |}.

Record SessionSummary := { su_Present : Z; su_Detached : Z; su_Exited : Z; su_Absent : Z; su_SessionUnknown : Z }.
Record ActivitySummary := { su_Working : Z; su_IdleAtPrompt : Z; su_ActivityUnknown : Z }.
Record ResumeSummary := { su_Resumable : Z; su_FreshOnly : Z; su_ResumeUnknown : Z }.
Record Summary := { sy_Total : Z; sy_Session : SessionSummary; sy_Activity : ActivitySummary; sy_Resumability : ResumeSummary; sy_NeedsInput : Z }.

Definition count_session (s : SessionState) (c : SessionSummary) : SessionSummary :=
  let '{| su_Present := p; su_Detached := d; su_Exited := e; su_Absent := a; su_SessionUnknown := u |} := c in
  if bytes_eqb s SessionPresent then {| su_Present := p + 1; su_Detached := d; su_Exited := e; su_Absent := a; su_SessionUnknown := u |}
  else if bytes_eqb s SessionDetached then {| su_Present := p; su_Detached := d + 1; su_Exited := e; su_Absent := a; su_SessionUnknown := u |}
  else if bytes_eqb s SessionExited then {| su_Present := p; su_Detached := d; su_Exited := e + 1; su_Absent := a; su_SessionUnknown := u |}
  else if bytes_eqb s SessionAbsent then {| su_Present := p; su_Detached := d; su_Exited := e; su_Absent := a + 1; su_SessionUnknown := u |}
  else {| su_Present := p; su_Detached := d; su_Exited := e; su_Absent := a; su_SessionUnknown := u + 1 |}.
Definition count_activity (s : ActivityState) (c : ActivitySummary) : ActivitySummary :=
  let '{| su_Working := w; su_IdleAtPrompt := i; su_ActivityUnknown := u |} := c in
  if bytes_eqb s ActivityWorking then {| su_Working := w + 1; su_IdleAtPrompt := i; su_ActivityUnknown := u |}
  else if bytes_eqb s ActivityIdleAtPrompt then {| su_Working := w; su_IdleAtPrompt := i + 1; su_ActivityUnknown := u |}
  else {| su_Working := w; su_IdleAtPrompt := i; su_ActivityUnknown := u + 1 |}.
Definition count_resume (s : ResumabilityState) (c : ResumeSummary) : ResumeSummary :=
  let '{| su_Resumable := r; su_FreshOnly := f; su_ResumeUnknown := u |} := c in
  if bytes_eqb s ResumabilityResumable then {| su_Resumable := r + 1; su_FreshOnly := f; su_ResumeUnknown := u |}
  else if bytes_eqb s ResumabilityFreshOnly then {| su_Resumable := r; su_FreshOnly := f + 1; su_ResumeUnknown := u |}
  else {| su_Resumable := r; su_FreshOnly := f; su_ResumeUnknown := u + 1 |}.

(** The body of the loop; the sum of the inputs is a Go [int]. *)
Definition count_report (out : Summary) (r : SeatReport) : Summary := {|
  sy_Total := sy_Total out;
  sy_Session := count_session (ss_Session (rp_State r)) (sy_Session out);
  sy_Activity := count_activity (ss_Activity (rp_State r)) (sy_Activity out);
  sy_Resumability := count_resume (ss_Resumability (rp_State r)) (sy_Resumability out);
  sy_NeedsInput := i64 (sy_NeedsInput out + ni_Count (ss_NeedsInput (rp_State r))) |}.

Definition Summarize (reports : list SeatReport) : Summary :=
  fold_left count_report reports {|
    sy_Total := blen reports;
    sy_Session := {| su_Present := 0; su_Detached := 0; su_Exited := 0; su_Absent := 0; su_SessionUnknown := 0 |};
    sy_Activity := {| su_Working := 0; su_IdleAtPrompt := 0; su_ActivityUnknown := 0 |};
    sy_Resumability := {| su_Resumable := 0; su_FreshOnly := 0; su_ResumeUnknown := 0 |};
    sy_NeedsInput := 0 |}.

(** ** What a report means *)

(** The vote a rung has: the first evidence that names it. *)
Definition vote (evidence : list ActivityEvidence) (rung : EvidenceRung) : option ActivityEvidence :=
  List.find (fun e => bytes_eqb (ae_Rung e) rung) evidence.

Lemma rung_kept rung : rung ∈ rungRank -> negb (validRung rung) || bytes_eqb rung RungNone = false.
Proof. intros H. unfold rungRank in H. repeat (apply elem_of_cons in H as [->|H]; [reflexivity|]). by apply elem_of_nil in H. Qed.

Lemma collect_vote evidence rung byRung ran :
  rung ∈ rungRank ->
  fst (collect evidence byRung ran) !! rung = match byRung !! rung with Some e => Some e | None => vote evidence rung end /\
  default false (snd (collect evidence byRung ran) !! rung) = default false (ran !! rung) || match vote evidence rung with Some _ => true | None => false end.
Proof.
  intros Hr. revert byRung ran. induction evidence as [|e rest IH]; intros byRung ran.
  { cbn. rewrite orb_false_r. by destruct (byRung !! rung). }
  cbn [collect vote List.find]. fold (vote rest rung). destruct (bytes_eqb (ae_Rung e) rung) eqn:E.
  - apply bytes_eqb_eq in E as <-. rewrite rung_kept by done. cbv zeta. rewrite orb_true_r. destruct (byRung !! ae_Rung e) as [e'|] eqn:Eb.
    + destruct (IH byRung (<[ae_Rung e := true]> ran)) as [-> ->]. by rewrite Eb, lookup_insert_eq.
    + destruct (IH (<[ae_Rung e := e]> byRung) (<[ae_Rung e := true]> ran)) as [-> ->]. by rewrite !lookup_insert_eq.
  - assert (Hne : ae_Rung e <> rung) by (intros H; apply bytes_eqb_eq in H; congruence).
    destruct (negb _ || _); [apply IH|]. cbv zeta. destruct (byRung !! ae_Rung e).
    + destruct (IH byRung (<[ae_Rung e := true]> ran)) as [-> ->]. by rewrite lookup_insert_ne.
    + destruct (IH (<[ae_Rung e := e]> byRung) (<[ae_Rung e := true]> ran)) as [-> ->]. by rewrite !lookup_insert_ne.
Qed.

(** The ladder over the votes. *)
Fixpoint ladder (evidence : list ActivityEvidence) (rungs : list EvidenceRung) (lowest : EvidenceRung) : Verdict :=
  match rungs with
  | [] => {| vd_Activity := ActivityUnknown; vd_DecidedBy := lowest |}
  | rung :: rest =>
      match vote evidence rung with
      | Some e => if settles e then {| vd_Activity := ae_Activity e; vd_DecidedBy := rung |} else ladder evidence rest rung
      | None => ladder evidence rest lowest
      end
  end.

Lemma climb_ladder evidence rungs lowest :
  rungs ⊆ rungRank -> climb rungs (fst (collect evidence ∅ ∅)) (snd (collect evidence ∅ ∅)) lowest = ladder evidence rungs lowest.
Proof.
  revert lowest. induction rungs as [|rung rest IH]; intros lowest Hs; [done|]. cbn [climb ladder].
  destruct (collect_vote evidence rung ∅ ∅) as [H1 H2]; [apply Hs; constructor|]. rewrite lookup_empty in H1. rewrite H1, H2, lookup_empty. cbn [default from_option orb].
  assert (Hs' : rest ⊆ rungRank) by (intros x Hx; apply Hs; by constructor). destruct (vote evidence rung) as [e|]; [destruct (settles e); [done|]|]; by apply IH.
Qed.

Lemma decide_ladder evidence : DecideActivity evidence = ladder evidence rungRank RungNone.
Proof. unfold DecideActivity. destruct (collect evidence ∅ ∅) as [b r] eqn:E. rewrite <- (climb_ladder evidence), E; done. Qed.

Lemma ladder_cases evidence rungs lowest :
  (exists pre rung post e, rungs = pre ++ rung :: post /\ vote evidence rung = Some e /\ settles e = true /\
     (forall r e', r ∈ pre -> vote evidence r = Some e' -> settles e' = false) /\
     ladder evidence rungs lowest = {| vd_Activity := ae_Activity e; vd_DecidedBy := rung |}) \/
  ((forall r e', r ∈ rungs -> vote evidence r = Some e' -> settles e' = false) /\ vd_Activity (ladder evidence rungs lowest) = ActivityUnknown /\
   (vd_DecidedBy (ladder evidence rungs lowest) = lowest \/ vd_DecidedBy (ladder evidence rungs lowest) ∈ rungs)).
Proof.
  revert lowest. induction rungs as [|rung rest IH]; intros lowest.
  { right. split; [intros r e' H; by apply elem_of_nil in H|]. split; [done|by left]. }
  cbn [ladder]. destruct (vote evidence rung) as [e|] eqn:Ev; [destruct (settles e) eqn:Es|].
  - left. exists [], rung, rest, e. split_and!; try done. intros r e' H. by apply elem_of_nil in H.
  - destruct (IH rung) as [(pre & r & post & e' & -> & H1 & H2 & H3 & H4)|(H1 & H2 & H3)].
    + left. exists (rung :: pre), r, post, e'. split_and!; try done. intros r0 e0 [->|Hin]%elem_of_cons; [congruence|by apply H3].
    + right. split_and!; [|done|right; destruct H3 as [->|H3]; by constructor]. intros r e0 [->|Hin]%elem_of_cons; [congruence|by apply H1].
  - destruct (IH lowest) as [(pre & r & post & e' & -> & H1 & H2 & H3 & H4)|(H1 & H2 & H3)].
    + left. exists (rung :: pre), r, post, e'. split_and!; try done. intros r0 e0 [->|Hin]%elem_of_cons; [congruence|by apply H3].
    + right. split_and!; [|done|destruct H3 as [->|H3]; [by left|right; by constructor]]. intros r e0 [->|Hin]%elem_of_cons; [congruence|by apply H1].
Qed.

(** The highest rung whose vote is conclusive decides, whatever the lower ones say; and with
    no such rung the answer is unknown. *)
Theorem decide_activity_ranked evidence :
  (exists pre rung post e, rungRank = pre ++ rung :: post /\ vote evidence rung = Some e /\ settles e = true /\
     (forall r e', r ∈ pre -> vote evidence r = Some e' -> settles e' = false) /\
     DecideActivity evidence = {| vd_Activity := ae_Activity e; vd_DecidedBy := rung |}) \/
  ((forall r e', r ∈ rungRank -> vote evidence r = Some e' -> settles e' = false) /\ vd_Activity (DecideActivity evidence) = ActivityUnknown).
Proof. rewrite decide_ladder. destruct (ladder_cases evidence rungRank RungNone) as [H|(H1 & H2 & _)]; [by left|by right]. Qed.

Lemma vote_in evidence rung e : vote evidence rung = Some e -> e ∈ evidence /\ ae_Rung e = rung.
Proof. intros H. apply List.find_some in H as [Hin H]. apply bytes_eqb_eq in H. split; [by apply list_elem_of_In|done]. Qed.

Lemma vote_unique evidence rung e : NoDup (ae_Rung <$> evidence) -> e ∈ evidence -> ae_Rung e = rung -> vote evidence rung = Some e.
Proof.
  intros Hn Hin <-. induction evidence as [|x rest IH]; [by apply elem_of_nil in Hin|]. cbn in Hn. apply NoDup_cons in Hn as [Hx Hn]. cbn [vote List.find].
  apply elem_of_cons in Hin as [->|Hin]; [by rewrite bytes_eqb_refl|]. destruct (bytes_eqb (ae_Rung x) (ae_Rung e)) eqn:E; [|by apply IH].
  apply bytes_eqb_eq in E. exfalso. apply Hx. rewrite E. by apply list_elem_of_fmap_2.
Qed.

(** The order in which collectors offer their evidence does not matter, as long as each rung
    is offered once. *)
Theorem decide_activity_order evidence evidence' :
  NoDup (ae_Rung <$> evidence) -> evidence ≡ₚ evidence' -> DecideActivity evidence = DecideActivity evidence'.
Proof.
  intros Hn Hp. assert (Hn' : NoDup (ae_Rung <$> evidence')) by by rewrite <- Hp.
  assert (Hv : forall rung, vote evidence rung = vote evidence' rung).
  { intros rung. destruct (vote evidence rung) as [e|] eqn:E.
    - apply vote_in in E as [Hin Hr]. symmetry. apply vote_unique; [done|by rewrite <- Hp|done].
    - destruct (vote evidence' rung) as [e|] eqn:E'; [|done]. apply vote_in in E' as [Hin Hr]. rewrite <- Hp in Hin. rewrite (vote_unique _ _ _ Hn Hin Hr) in E. done. }
  rewrite !decide_ladder. generalize RungNone. induction rungRank as [|rung rest IH]; intros lowest; [done|]. cbn [ladder]. rewrite Hv.
  by destruct (vote evidence' rung) as [e|]; [destruct (settles e)|].
Qed.

Lemma decided_known evidence : ActivityState_Valid (vd_Activity (DecideActivity evidence)) = true /\ validRung (vd_DecidedBy (DecideActivity evidence)) = true.
Proof.
  rewrite decide_ladder. destruct (ladder_cases evidence rungRank RungNone) as [(pre & rung & post & e & Hr & _ & Hs & _ & ->)|(_ & -> & Hd)].
  - unfold settles in Hs. apply andb_true_iff in Hs as [_ Hs]. split; [done|]. cbn [vd_DecidedBy].
    assert (Hin : rung ∈ rungRank) by (rewrite Hr; apply elem_of_app; right; constructor). apply rung_kept, orb_false_iff in Hin as [Hin _]. by apply negb_false_iff in Hin.
  - split; [reflexivity|]. destruct Hd as [->|Hd]; [reflexivity|]. apply rung_kept, orb_false_iff in Hd as [Hd _]. by apply negb_false_iff in Hd.
Qed.

(** A report is well-formed when its input signal is, and claims no activity of a seat that
    is gone. *)
Theorem report_valid formatTime sessionID p :
  let s := rp_State (Report formatTime sessionID p) in
  SeatState_Valid s = NeedsInput_Valid (pi_NeedsInput p) /\
  (ss_Session s = SessionExited \/ ss_Session s = SessionAbsent -> ss_Activity s = ActivityUnknown).
Proof.
  cbv zeta. unfold Report. cbn [rp_State ss_Session ss_Activity]. split.
  - unfold SeatState_Valid. cbn [ss_Session ss_Activity ss_DecidedBy ss_Resumability ss_NeedsInput].
    destruct (decided_known (if bytes_eqb (decideSession p) SessionExited || bytes_eqb (decideSession p) SessionAbsent then [] else pi_Activity p)) as [-> Hr].
    assert (SessionState_Valid (decideSession p) = true) as -> by (unfold decideSession; repeat case_match; reflexivity).
    assert (ResumabilityState_Valid (decideResumability p) = true) as -> by (unfold decideResumability; repeat case_match; reflexivity). cbn [negb orb].
    destruct (NeedsInput_Valid _); [|done]. rewrite Hr. cbn [negb]. destruct (bytes_eqb _ []) eqn:E; [|done]. apply bytes_eqb_eq in E. rewrite E in Hr. done.
  - intros H. assert (bytes_eqb (decideSession p) SessionExited || bytes_eqb (decideSession p) SessionAbsent = true) as ->; [|reflexivity].
    destruct H as [-> | ->]; by rewrite bytes_eqb_refl, ?orb_true_r.
Qed.

Definition sums (s : Summary) (n : Z) : Prop :=
  su_Present (sy_Session s) + su_Detached (sy_Session s) + su_Exited (sy_Session s) + su_Absent (sy_Session s) + su_SessionUnknown (sy_Session s) = n /\
  su_Working (sy_Activity s) + su_IdleAtPrompt (sy_Activity s) + su_ActivityUnknown (sy_Activity s) = n /\
  su_Resumable (sy_Resumability s) + su_FreshOnly (sy_Resumability s) + su_ResumeUnknown (sy_Resumability s) = n.

Lemma count_sums s r n : sums s n -> sums (count_report s r) (n + 1).
Proof.
  destruct s as [t [] [] [] ni]. unfold sums, count_report, count_session, count_activity, count_resume. cbn. intros (H1 & H2 & H3).
  split_and!; repeat case_match; cbn; lia.
Qed.

(** Every seat is counted once on every axis. *)
Theorem summary_partition reports : sums (Summarize reports) (sy_Total (Summarize reports)) /\ sy_Total (Summarize reports) = blen reports.
Proof.
  assert (H : forall l s n, sums s n -> sums (fold_left count_report l s) (n + blen l) /\ sy_Total (fold_left count_report l s) = sy_Total s).
  { unfold blen. induction l as [|r l IH]; intros s n Hs; cbn [fold_left length]; [by rewrite Z.add_0_r|].
    destruct (IH _ _ (count_sums s r n Hs)) as [H1 H2]. split; [|done]. by replace (n + Z.of_nat (S (length l))) with (n + 1 + Z.of_nat (length l)) by lia. }
  unfold Summarize. match goal with |- context [fold_left _ _ ?s0] => destruct (H reports s0 0) as [H1 ->]; [by split_and!|] end. by split.
Qed.

(** *** Evidence that repeats a rung, or never ran *)

(** The first evidence of a rung is its vote, also when it is inconclusive. *)
Lemma repeated_rung_ignored :
  DecideActivity [InconclusiveProbe RungHooks true; ConclusiveVote RungHooks ActivityWorking] = {| vd_Activity := ActivityUnknown; vd_DecidedBy := RungHooks |}.
Proof. vm_compute. reflexivity. Qed.

(** A probe that never ran is recorded as the one that ran last. *)
Lemma unobserved_counts_as_ran :
  DecideActivity [InconclusiveProbe RungHooks true; InconclusiveProbe RungPTYActivity false] = {| vd_Activity := ActivityUnknown; vd_DecidedBy := RungPTYActivity |}.
Proof. vm_compute. reflexivity. Qed.
